(* ===== verification/_CoqProject ===== *)
-Q . S2P
Prelude.v
Track.v
Plan.v
Event.v
State.v
Reducer.v
ReducerInv.v
ReducerSafety.v
Demo.v
ReducerProps.v
Replay.v
Runtime.v
Mixing.v
Planner.v
PlannerProps.v
PlanGeneration.v
PlanEdits.v
LightPlans.v
LightPlansProps.v
PhraseTimeline.v
PhraseTimelineProps.v
AutoloopExecutor.v
Stream.v
Protocol.v
Output.v
Midi.v
MidiLane.v
MidiLaneProps.v
MidiClock.v
LibrarySource.v
Reconciliation.v
PhraseRoles.v
PhraseRolesProps.v
Workflow.v
AutoloopCatalog.v
AutoloopCatalogProps.v
DeckSource.v
Publishing.v
LocalPlayback.v
LaunchPolicy.v
RekordboxAnalysis.v
RekordboxAnalysisProps.v
RekordboxFormat.v
OutputWorker.v
OutputWorkerProps.v
OutputWorkerEffects.v
OutputWorkerAnswers.v
LibraryContext.v
LibraryContextProps.v
PlanningWorker.v
PlanningWorkerProps.v
PlanningSession.v
Float64.v
ProLink.v
ProLinkProvider.v
ProLinkProps.v
ProLinkQueue.v
ProLinkQueueProps.v
Blt.v
BltProps.v
BltShown.v
TimingOutput.v
TimingOutputProps.v
LinkRelay.v
RemoteCommands.v
RemoteProjection.v
RemoteProjectionProps.v
RemoteGateway.v
RemoteGatewayProps.v
RemoteTrust.v
RemoteTrustProps.v
RemoteTrustHistory.v
CommandGuardProps.v
RemoteRelay.v
RemoteRelayProps.v
SessionCommands.v
SessionCommandsProps.v
CommandMessages.v
Simulator.v
SimulatorProps.v
