(* ===== verification/Prelude.v ===== *)
(** * Lumi: a verification of the show engine

    Lumi drives a lighting show from what a DJ plays.  Deck sources report
    observations (loads, positions, phrases, the leading deck); a planner turns an
    analysed track into a lighting plan, one cue per phrase; a serialized runtime
    reduces observations, operator commands and worker results one at a time and
    requests effects; an output provider executes the requested cues.  The sources
    are the Rust crates under [engine/crates/]; file names below are relative to
    that directory.

    ** Files, and the code each models

    - [Prelude]: Rust's [Result] with [?], methods that change their state and may
      fail ([method]), checked, saturating and wrapping arithmetic, bounded
      histories, strings as lists of code points, ranges that partition a track
      ([tiles]) and indexed lists.
    - [Track]: [lumi-domain/src/track.rs], tracks and their constructors.
    - [Plan]: [lumi-domain/src/plan.rs], looks, cues, Theme decisions, plans.
    - [Event]: [lumi-domain/src/event.rs] and [output.rs].
    - [State]: [lumi-domain/src/state.rs] and [timeline.rs].  [RuntimeState] has
      every field of the struct; a setter per field stands for an assignment.
    - [Reducer]: [lumi-domain/src/reducer.rs].  Each handler takes the state and
      returns the new state, a decision, effects and whether the revision moves, or
      an error, in which case the caller keeps the old state, as the code does by
      working on a clone.  Each arm of [reduce_observation] is one definition.
    - [ReducerInv], [ReducerSafety], [ReducerProps], [Replay]: proofs about the
      reducer.  [ReducerInv] has the invariant, [ReducerSafety] what each event may
      schedule and the abstract operation gate, [ReducerProps] runs of events and
      the properties, [Replay] the sequence watermarks.  [Demo] is a small show
      used for concrete runs.
    - [Runtime]: [lumi-domain/src/queue.rs] and [runtime.rs].
    - [Mixing]: the hash and mixing functions of [lumi-planner/src/planner.rs],
      with the inverse of [mix], which gives distinct cue identifiers.
    - [Planner]: [lumi-planner/src/planner.rs].  The [ChoiceSource] trait is a
      class whose law is that a choice is in range and exists when there is a
      candidate; [StableChoiceSource] is an instance.  [PlannerProps],
      [PlanGeneration] and [PlanEdits] prove selection, generation and editing
      correct against the class.
    - [LightPlans], [LightPlansProps]: [lumi-light-plans/src/lib.rs], which chooses an
      Autoloop per phrase and output modifiers under a policy, with a history of
      recent plans.
    - [PhraseTimeline], [PhraseTimelineProps]: [lumi-library/src/timeline.rs] and
      the identifiers it uses.  The specification labels every beat with its role
      and loop strategy.
    - [AutoloopExecutor]: [lumi-engine/src/autoloop_executor.rs].
    - [Stream]: [lumi-stream/src/lib.rs] over a class for buffered readers.
    - [Protocol]: [lumi-protocol/src/idempotency.rs], [decoder.rs], [envelope.rs] and
      [lumi-remote-protocol/src/frame.rs].
    - [Output]: [lumi-lighting-output/src/lib.rs] (a class) and
      [lumi-output-dry-run/src/lib.rs] (an instance).
    - [Midi], [MidiLane], [MidiLaneProps], [MidiClock]: [lumi-midi-output/src/lib.rs].
      [Midi] has addresses, messages and the controller over a class of backends,
      with a wrapper that records their calls; [MidiLane] the realtime lane, its
      command channel and its thread, whose turns are steps of a run; [MidiClock]
      the clock and its worker.
    - [LibrarySource]: [lumi-library/src/baseline.rs], [mirror.rs] and the validating
      parts of [repository.rs]; [Reconciliation]: [reconciliation.rs];
      [PhraseRoles], [PhraseRolesProps]: [phrase_roles.rs]; [Workflow]:
      [workflow.rs]; [AutoloopCatalog], [AutoloopCatalogProps]:
      [autoloop_catalog.rs], all of [lumi-library].
    - [DeckSource]: [lumi-deck-source/src/lib.rs] as a class, with the abstract view
      of the decks that the reducer implements; [LocalPlayback]:
      [lumi-local-playback/src/lib.rs], an instance.
    - [LaunchPolicy]: [lumi-engine/src/launch_policy.rs].
    - [RekordboxAnalysis], [RekordboxAnalysisProps], [RekordboxFormat]:
      [lumi-rekordbox-analysis/src/lib.rs], the reader of binary analysis files.
    - [OutputWorker]: the [OutputWorker] of [lumi-engine/src/session.rs] with
      [process_domain_event].  Its methods are values of the [method] monad of this
      file over a [World]: the worker, the runtime, the turns the lane's thread
      takes before each access, and the readings of the clock.
      [OutputWorkerProps] has the logic for methods and the discipline of requests,
      [OutputWorkerEffects] static looks, closing and the races with the lane,
      [OutputWorkerAnswers] the composition with the reducer.
    - [LibraryContext], [LibraryContextProps]: the [LibraryPlanContext] of
      [lumi-engine/src/library.rs], what the library knows of a loaded track.
    - [PlanningWorker], [PlanningWorkerProps]: the [PlanningWorker] of
      [session.rs] and the processing of source events, methods over a [Session],
      a planning worker next to the world of the output worker.  [PlanningSession]
      has the composition: loading a track down to its plan in the runtime.
    - [Float64]: Rust's [f64] on the Standard Library's [SpecFloat], with the
      conversions, parsers and the format the sources use.
    - [Publishing]: what the deck sources share, the numbering and keeping of
      observations until they are drained, as a class with the rules by which their
      methods are executed symbolically; [ProLinkProps], [BltShown] and
      [SimulatorProps] use these or rules like them.
    - [ProLink], [ProLinkProvider], [ProLinkQueue] with [ProLinkProps] and
      [ProLinkQueueProps]: [lib.rs], [provider.rs] and [supervisor.rs] of
      [lumi-prolink-input]: the messages of the bridge, the deck source, and the
      queue between the reader thread and the engine.
    - [Blt], [BltProps], [BltShown]: [lumi-blt-midi/src/lib.rs], the second deck
      source.
    - [Simulator], [SimulatorProps]: [provider.rs], [clock.rs] and [fixture.rs] of
      [lumi-simulator], the third.
    - [TimingOutput], [TimingOutputProps]: [lib.rs] and [carabiner.rs] of
      [lumi-timing-output]; [LinkRelay]: [lumi-engine/src/link_relay.rs] and the
      forwarding of the clock in [session.rs].  The timing output is a class; the
      relay is proved against it.
    - [RemoteCommands], [RemoteProjection], [RemoteProjectionProps]: [command.rs],
      [auth.rs] and [projection.rs] of [lumi-remote-protocol].
    - [RemoteGateway], [RemoteGatewayProps], [CommandGuardProps]:
      [lumi-remote-gateway/src/lib.rs]: the hub that buffers frames for the phones,
      the ledger of commands, the limiter of attempts and the registry of pairings.
      [RemoteTrust], [RemoteTrustProps], [RemoteTrustHistory]: the shared state of
      the gateway ([network.rs]), its trust store ([trust_store.rs]) and its
      administration ([admin.rs]) over that registry.  [RemoteRelay],
      [RemoteRelayProps]: the sessions of the phones and the relay to the engine
      ([network.rs]) over all of them.
    - [SessionCommands], [SessionCommandsProps], [CommandMessages]:
      [lumi-engine/src/commands.rs], the commands of a session and their decoding.

    How they interact: a deck source ([LocalPlayback], [ProLinkProvider], [Blt],
    [Simulator]) publishes events; [PlanningWorker] processes them with the runtime
    of [OutputWorker], which is the reducer of [Reducer] behind the queue of
    [Runtime], and answers the effects it requests: plans from [Planner] and
    [LightPlans] over a [LibraryContext], cues through [AutoloopExecutor] on the lane
    of [MidiLane].  The clock of the decks goes out through [LinkRelay] to
    [TimingOutput] and through [MidiClock].  The applications speak [Protocol] and
    [SessionCommands], the phones [RemoteRelay].

    ** What is proved

    - Output safety: a cue is scheduled only when the operation is live, for the
      leading deck, its load and its phrase, by the active plan
      ([cue_authorized]); a phrase reported again is not sent again
      ([no_repeated_cue]); closed states stay closed until Start
      ([no_output_until_start]); command numbers have no gap or repetition
      ([command_numbers]); the reducer refines a four-state gate
      ([gate_refinement]); Pause and Start restore the current cue
      ([pause_start_restores]), a saturation and Start do not
      ([saturation_start_does_not_restore]).
    - Runtime: every reachable state is well formed ([reachable_state_wf]); which
      events are accepted ([reduce_total]); a replayed event changes nothing but
      the bookkeeping ([replay_ignored]); the queue keeps critical events in order
      ([queue_critical_fifo]), saturation closes the output
      ([saturation_closes_output]), and queue and reducer together are a run of the
      reducer ([runtime_refines_reducer]).
    - Plans: the constructor accepts exactly well-formed plans
      ([plan_constructor_spec]), with one cue per beat ([plan_beat_has_one_cue]);
      generation always succeeds on usable configurations ([generate_ready],
      [generate_fallback]); Theme selection ([rotation_avoids_recent],
      [weighted_choice_proportional]); edits and regeneration
      ([edits_keep_slots], [edits_never_invalid], [regenerate_keeps_locked],
      [hold_for_missing_mapping]).
    - Light plans: what is chosen for each phrase ([compile_selects]), that
      compiling returns and avoids recent plans ([compile_avoids_recent]) with the
      one exception that it can recurse without end ([zero_signature_diverges]),
      and the output modifiers ([modifiers_spec]).
    - Timelines: edits do to each beat what the command says
      ([edit_refines_beats]), never break validation ([edit_never_invalid]), and
      undo and redo are exact ([undo_redo_exact]).
    - Transport: framing independent of chunking and safe under cancellation
      ([next_line_chunking], [next_line_cancel_safe], [frames_roundtrip]), at most
      one application per command window ([cache_window]), remote frames
      ([frame_checks_agree]).
    - Outputs: an Autoloop cue is not sent twice in an epoch
      ([completed_cue_not_rescheduled], [new_epoch_reauthorizes]); the dry run
      records the show ([dry_run_transcript]); the launch gate
      ([launch_gate_spec]).
    - MIDI: pulses only on a published source and silence after a failure
      ([midi_fail_silent], [trigger_autoloop_order], [midi_address_bounds]); the lane
      is bounded ([lane_bounds]), dispatches exactly what is due
      ([timeout_dispatches_due]) and nothing twice ([dispatch_at_most_once]); the
      clock ticks only while it runs ([clock_transport]), on its grid
      ([clock_tick_grid]), at the right interval ([tick_interval_bounds],
      [song_position_roundtrip], [failed_transport_not_retried]).
    - The output worker, for every interleaving with the lane: one bank and one
      Autoloop per generation, the bank first ([one_autoloop_per_generation]); a
      closed output is silent ([closed_output_silent]) unless the channel is full
      ([saturated_close_still_sends]); the remembered static look is the shown one
      ([static_look_tracks_device]); every effect is answered once
      ([domain_event_answered]); a completion may come too early
      ([premature_completion]).
    - Library: beat grids and baselines ([beat_grid_spec], [baseline_spec]);
      reconciliation ([reconcile_sound], [rebase_total]); roles
      ([role_edits_safe], [mapping_resolves]); workflow steps
      ([accepted_step_reachable], [workflow_texts_roundtrip]); catalogues
      ([catalog_resolve_spec], [complete_catalog_resolves], [mapping_set_clear]).
    - Planning: a materialized plan plays only buttons the catalogue maps
      ([materialized_plan_safe]); which Themes are offered ([eligible_themes_spec]),
      and that they are enough for a plan ([library_generation]) unless the opening
      is on no button ([startable_without_button]); loading a track
      ([loaded_track_planned]); overrides ([override_roundtrip]); bounds of the
      worker, the clock anchor and previews ([planning_worker_bounded],
      [clock_anchor_spec], [waveform_preview_spec]); which recent Theme is
      forgotten ([newest_theme_forgotten]).
    - Sources: the runtime shows the decks as each source believes them to be, for
      every sequence of its calls and every interleaving with other events
      ([local_playback_shown], [prolink_shown], [blt_shown], [simulator_shown]),
      with the exceptions that were found ([reload_loses_leader],
      [blt_reload_loses_leader], [nameless_deck_never_loads],
      [loaded_leader_moves]).  Pro DJ Link: the beat of a playing deck never moves
      back unannounced ([playing_beat_guarded]), alignment within the bar
      ([align_spec]), the queue keeps what it must and the newest of the rest
      ([ingress_batch], [reader_lossless]), percentiles ([percentile_spec]).  Beat
      Link Trigger: frames are read back in any order of their digits
      ([blt_frame_roundtrip]).  The simulated leader is where the time that went by
      puts it, to the fraction ([simulated_beat_exact]).
    - Timing: the worker and its callers refine a mailbox ([carabiner_mailbox]); only
      tempos and queries are sent ([only_tempo]); a failure stops the output until
      it is published again ([failure_latches]); the relay hands over what changed
      ([relay_forwards]) and when it fails closed ([relay_staleness]).
    - Remote control, for every interleaving of phones, engine, relay and
      administration and with any failures: a command reaches the engine at most
      once per acceptance and only from the phone in control
      ([commands_sent_once], [command_at_most_once]; [ledger_never_recovers] shows
      a consequence of lost outcomes); a pairing uses up an invitation of its own
      ([pairing_single_use]); the trust store restores the trust ([trust_restored])
      unless the clock goes back ([clock_back_unloadable]); every phone is given the
      projections in order and without gap ([hub_stream]); the limiter holds in
      every window ([rate_limit_window]).
    - Projections: what the validation accepts ([projection_validate_spec]), texts cut
      between characters ([display_text_spec]), waveforms ([waveform_roundtrip]), and
      what a snapshot of the engine is projected to ([snapshot_projected]).
    - Commands: the decoder accepts exactly the well-formed commands, each by the
      message written for it ([commands_of_messages]).
    - Files: the analysis reader never panics or loops ([analysis_reader_total]) and
      reads masked phrases, sections and locations back ([masked_phrases_roundtrip],
      [sections_in_order], [location_roundtrip]).

    ** Conventions, bounds and fuel

    Machine integers are [Z] with their width written out where an operation may
    leave it: counters use [checked_add_u64] and [saturating_add_u64], hashing uses
    [wrapping_mul_u64] and 64-bit masks.  [usize] is 64 bits wide; lengths are
    [nat].  A [BTreeMap] is a [gmap], or a sorted list where the code iterates over
    it.  Definitions by fuel, each with a proof that its fuel is enough:
    [line_loop] takes one unit per round of the loop: every
    round consumes a byte or returns, so more fuel than unread bytes is enough
    ([next_line_chunking] proves that the call then returns); less fuel models a
    call cancelled at that await.  [compile] takes one unit per level of calls: two
    are enough unless an alternative plan has signature zero
    ([compile_avoids_recent]); otherwise the code itself may not return.  The
    planning worker passes this depth on to every compilation.
    [catch_up] (missed clock ticks), [custom_id_loop] and [variant_id_loop] (free
    identifiers), [tag_loop] (sections of a file), [evict_oldest] and [evict] (old
    plans) take a bound on their rounds; [chunks_from] (previews) takes one round per
    point; out of fuel is a value of its own where it could be confused with a result.
    The beats the simulator emits are counted by a [nat], the rounds of its loop.

    Code outside the repository is a parameter: [serde_json] (a value with accessors
    where the code reads fields, a function from the text to the record where it is
    derived), SHA-256, Unicode [to_lowercase], [fs::canonicalize], the MIDI backend,
    Carabiner and the child processes (classes, or the outcomes of the calls), the
    schedule of threads, and the readings of clocks and of random numbers.  What is
    assumed of them is named where it is used, and every theorem that does is
    applied to concrete functions.

    ** What is not modelled

    Display strings, JSON rendering of transcripts and diagnostics, and accessors
    without logic.  Of [lumi-engine]: in [session.rs] the handler of the decoded
    commands, the local transport and the snapshots, which call the library service
    throughout; that service over SQLite, the media resolvers, preferences and
    process start.  Of the gateway: TLS, sockets, mDNS, the certificate files and
    the socket client of the engine.  The Rekordbox device, resolver and XML readers,
    whose input is parsed by other libraries, and the storage in SQLite, which is
    SQL.  CoreMIDI bindings and the applications in Swift. *)

From stdpp Require Import prelude list gmap strings.
From Stdlib Require Import ZArith Lia.
From Stdlib Require Import Sorting.Sorted.

#[global] Open Scope Z_scope.

(** ** Results: Rust's [Result<A, E>] and the [?] operator *)

Inductive result (A E : Type) : Type :=
| Ok (a : A)
| Err (e : E).
Arguments Ok {A E} a.
Arguments Err {A E} e.

Declare Scope lumi_scope.
Delimit Scope lumi_scope with lumi.
Open Scope lumi_scope.

Definition result_bind {A B E} (r : result A E) (k : A → result B E) : result B E :=
  match r with Ok a => k a | Err e => Err e end.

(** [let? x := e in k] is [let x = e?; k]. *)
Notation "'let?' x := r 'in' k" := (result_bind r (λ x, k))
  (at level 10, x pattern, r at level 100, k at level 200,
   format "'[hv' 'let?'  x  :=  r  'in'  '//' k ']'") : lumi_scope.

Definition map_err {A E F} (f : E → F) (r : result A E) : result A F :=
  match r with Ok a => Ok a | Err e => Err (f e) end.

Definition ok_or {A E} (o : option A) (e : E) : result A E :=
  match o with Some a => Ok a | None => Err e end.

(** [Result::ok]. *)
Definition result_ok {A E} (r : result A E) : option A :=
  match r with Ok a => Some a | Err _ => None end.

Definition is_ok {A E} (r : result A E) : Prop := ∃ a, r = Ok a.

#[global] Instance result_eq_dec {A E} `{EqDecision A, EqDecision E} :
  EqDecision (result A E).
Proof. solve_decision. Defined.

(** [iter().map(f).collect::<Result<Vec<_>, _>>()]: stops at the first error. *)
Fixpoint collect {A B E} (f : A → result B E) (l : list A) : result (list B) E :=
  match l with
  | [] => Ok []
  | x :: l' => let? y := f x in let? ys := collect f l' in Ok (y :: ys)
  end.

Lemma result_bind_Ok {A B E} (r : result A E) (k : A → result B E) b :
  result_bind r k = Ok b ↔ ∃ a, r = Ok a ∧ k a = Ok b.
Proof. destruct r; simpl; naive_solver. Qed.

Lemma map_err_Ok {A E F} (f : E → F) (r : result A E) a :
  map_err f r = Ok a ↔ r = Ok a.
Proof. destruct r; simpl; naive_solver. Qed.

Lemma ok_or_Ok {A E} (o : option A) (e : E) a : ok_or o e = Ok a ↔ o = Some a.
Proof. destruct o; simpl; naive_solver. Qed.

Lemma collect_Ok {A B E} (f : A → result B E) l k :
  collect f l = Ok k ↔ Forall2 (λ x y, f x = Ok y) l k.
Proof.
  revert k; induction l as [|x l IH]; intros k; simpl.
  - split; [intros [= <-]; constructor | by inversion 1].
  - rewrite result_bind_Ok. setoid_rewrite result_bind_Ok. setoid_rewrite IH.
    split.
    + intros (y & Hy & ys & Hys & [= <-]). by constructor.
    + inversion 1; subst. naive_solver.
Qed.

Lemma collect_length {A B E} (f : A → result B E) l k :
  collect f l = Ok k → length k = length l.
Proof. intros H%collect_Ok. symmetry. by eapply Forall2_length. Qed.

Lemma collect_lookup {A B E} (f : A → result B E) l k i y :
  collect f l = Ok k → k !! i = Some y → ∃ x, l !! i = Some x ∧ f x = Ok y.
Proof.
  intros H%collect_Ok Hy. destruct (Forall2_lookup_r _ _ _ _ _ H Hy) as (x & ? & ?). eauto.
Qed.

Lemma collect_lookup_fwd {A B E} (f : A → result B E) l k i x :
  collect f l = Ok k → l !! i = Some x → ∃ y, k !! i = Some y ∧ f x = Ok y.
Proof.
  intros H%collect_Ok Hx. destruct (Forall2_lookup_l _ _ _ _ _ H Hx) as (y & ? & ?). eauto.
Qed.

Lemma collect_total {A B E} (f : A → result B E) l :
  Forall (λ x, is_ok (f x)) l → is_ok (collect f l).
Proof.
  induction 1 as [|x l [y Hy] _ [ys Hys]]; simpl; [by exists []|].
  rewrite Hy; simpl. rewrite Hys. by eexists.
Qed.

(** ** Methods that mutate their receiver and may fail

    An error keeps the changes made before it, as an early return of a method on
    [&mut self] does. *)

Definition method (S E A : Type) : Type := S → S * result A E.

Definition method_ret {S E A} (a : A) : method S E A := λ s, (s, Ok a).
Definition method_fail {S E A} (e : E) : method S E A := λ s, (s, Err e).
Definition method_bind {S E A B} (m : method S E A) (k : A → method S E B) : method S E B :=
  λ s, let '(s, r) := m s in match r with Ok a => k a s | Err e => (s, Err e) end.
Definition method_get {S E A} (f : S → A) : method S E A := λ s, (s, Ok (f s)).
Definition method_modify {S E} (f : S → S) : method S E unit := λ s, (f s, Ok tt).
Definition method_result {S E A} (r : result A E) : method S E A := λ s, (s, r).

Notation "'let!' x := m 'in' k" := (method_bind m (λ x, k))
  (at level 200, x name, m at level 200, k at level 200, right associativity).
Notation "'do!' m 'then' k" := (method_bind m (λ _, k))
  (at level 200, m at level 100, k at level 200, right associativity).

Lemma method_bind_Ok {S E A B} (m : method S E A) (k : A → method S E B) s s' b :
  method_bind m k s = (s', Ok b) ↔ ∃ s1 a, m s = (s1, Ok a) ∧ k a s1 = (s', Ok b).
Proof.
  unfold method_bind. destruct (m s) as [s1 [a|e]]; naive_solver.
Qed.

(** ** A logic for methods *)

Section Logic.
Context {S E A B : Type}.
Implicit Types (I J : S → Prop).

(** From a state that satisfies [I] the method ends in one that satisfies [Q] of its
    outcome. *)
Definition triple (I : S → Prop) (m : method S E A) (Q : result A E → S → Prop) : Prop :=
  ∀ s, I s → Q (m s).2 (m s).1.

Definition keeps (I : S → Prop) (m : method S E A) : Prop := triple I m (λ _, I).
End Logic.

(** [J] of a value, [F] of an error. *)
Definition post {S E A} (J : A → S → Prop) (F : E → S → Prop) (r : result A E) (s : S) : Prop :=
  match r with Ok a => J a s | Err e => F e s end.

(** The postcondition of a method that is followed by another. *)
Definition ok_then {S E A} (J : A → S → Prop) (Q : S → Prop) (r : result A E) (s : S) : Prop :=
  match r with Ok a => J a s | Err _ => Q s end.

Section Rules.
Context {S E A B : Type}.
Implicit Types (I K : S → Prop).

Lemma triple_bind I (m : method S E A) (k : A → method S E B) (J : A → S → Prop) K :
  triple I m (ok_then J K) → (∀ a, triple (J a) (k a) (λ _, K)) →
  triple I (method_bind m k) (λ _, K).
Proof.
  intros Hm Hk s Hs. unfold method_bind. specialize (Hm s Hs).
  destruct (m s) as [s1 [a|e]]; simpl in *; [|done]. by apply Hk.
Qed.

Lemma post_bind I (m : method S E A) (k : A → method S E B) (J : A → S → Prop) (J' : B → S → Prop)
    (F : E → S → Prop) :
  triple I m (post J F) → (∀ a, triple (J a) (k a) (post J' F)) →
  triple I (method_bind m k) (post J' F).
Proof.
  intros Hm Hk s Hs. unfold method_bind. specialize (Hm s Hs).
  destruct (m s) as [s1 [a|e]]; simpl in *; [|done]. by apply Hk.
Qed.

Lemma post_ret (I : S → Prop) (a : A) (J : A → S → Prop) (F : E → S → Prop) :
  (∀ s, I s → J a s) → triple I (method_ret a) (post J F).
Proof. intros H s Hs. by apply H. Qed.

Lemma post_get (I : S → Prop) (f : S → A) (J : A → S → Prop) (F : E → S → Prop) :
  (∀ s, I s → J (f s) s) → triple I (method_get f) (post J F).
Proof. intros H s Hs. by apply H. Qed.

Lemma post_modify (I : S → Prop) (f : S → S) (J : unit → S → Prop) (F : E → S → Prop) :
  (∀ s, I s → J tt (f s)) → triple I (method_modify f) (post J F).
Proof. intros H s Hs. by apply H. Qed.

Lemma post_result (I : S → Prop) (r : result A E) (J : A → S → Prop) (F : E → S → Prop) :
  (∀ s, I s → post J F r s) → triple I (method_result r) (post J F).
Proof. intros H s Hs. by apply H. Qed.

Lemma triple_mono I I' (m : method S E A) (Q Q' : result A E → S → Prop) :
  (∀ s, I' s → I s) → (∀ r s, Q r s → Q' r s) → triple I m Q → triple I' m Q'.
Proof. intros HI HQ Hm s Hs. apply HQ, Hm, HI, Hs. Qed.

Lemma keeps_bind I (m : method S E A) (k : A → method S E B) :
  keeps I m → (∀ a, keeps I (k a)) → keeps I (method_bind m k).
Proof.
  intros Hm Hk. apply (triple_bind _ _ _ (λ _, I)); [|done].
  intros s Hs. specialize (Hm s Hs). by destruct (m s).2.
Qed.

Lemma keeps_ret I (a : A) : keeps I (@method_ret S E A a).
Proof. by intros s. Qed.
Lemma keeps_fail I (e : E) : keeps I (@method_fail S E A e).
Proof. by intros s. Qed.
Lemma keeps_get I (f : S → A) : keeps I (@method_get S E A f).
Proof. by intros s. Qed.
Lemma keeps_result I (r : result A E) : keeps I (@method_result S E A r).
Proof. by intros s. Qed.
End Rules.

Create HintDb keeps discriminated.
#[export] Hint Resolve keeps_ret keeps_fail keeps_get keeps_result : keeps.

(** Goes through a method: binds, case distinctions, and the known methods. *)
Ltac keeps_step :=
  first
    [ solve [eauto with keeps]
    | apply keeps_bind; [|intros ?]
    | match goal with
      | |- keeps _ (match ?x with _ => _ end) => destruct x
      | |- keeps _ (if ?x then _ else _) => destruct x
      | |- keeps _ (let '(_, _) := ?x in _) => destruct x
      end ].
Ltac keeps_auto := repeat keeps_step.

(** ** Machine integers: values of [Z] with their width written out *)

Definition U8_MAX : Z := 2 ^ 8 - 1.
Definition U16_MAX : Z := 2 ^ 16 - 1.
Definition U32_MAX : Z := 2 ^ 32 - 1.
Definition U64_MAX : Z := 2 ^ 64 - 1.

Definition in_u8 (x : Z) : Prop := 0 ≤ x ≤ U8_MAX.
Definition in_u16 (x : Z) : Prop := 0 ≤ x ≤ U16_MAX.
Definition in_u32 (x : Z) : Prop := 0 ≤ x ≤ U32_MAX.
Definition in_u64 (x : Z) : Prop := 0 ≤ x ≤ U64_MAX.

Definition checked_add_u64 (x y : Z) : option Z :=
  if x + y <=? U64_MAX then Some (x + y) else None.

Definition saturating_add_u64 (x y : Z) : Z := Z.min (x + y) U64_MAX.

Definition wrapping_add_u64 (a b : Z) : Z := (a + b) mod 2 ^ 64.

Definition wrapping_mul_u64 (x y : Z) : Z := (x * y) mod 2 ^ 64.

Definition saturating_mul_u64 (a b : Z) : Z := Z.min (a * b) U64_MAX.

Definition saturating_add_u32 (x y : Z) : Z := Z.min (x + y) U32_MAX.

Definition saturating_mul_u32 (x y : Z) : Z := Z.min (x * y) U32_MAX.

Definition saturating_mul_u8 (a b : Z) : Z := Z.min (a * b) U8_MAX.

Definition saturating_mul_u16 (x y : Z) : Z := Z.min (x * y) U16_MAX.

Lemma checked_add_u64_Some x y z :
  checked_add_u64 x y = Some z ↔ z = x + y ∧ x + y ≤ U64_MAX.
Proof. unfold checked_add_u64. destruct (Z.leb_spec (x + y) U64_MAX); naive_solver lia. Qed.

Lemma lor_shiftl_add a b n :
  0 ≤ n → 0 ≤ b < 2 ^ n → Z.lor (Z.shiftl a n) b = a * 2 ^ n + b.
Proof.
  intros Hn Hb. rewrite <- Z.shiftl_mul_pow2 by done.
  pose proof (Z.add_lor_land (Z.shiftl a n) b) as E.
  enough (Z.land (Z.shiftl a n) b = 0) by lia.
  apply Z.bits_inj'. intros i Hi. rewrite Z.land_spec, Z.bits_0.
  destruct (decide (i < n)); [by rewrite Z.shiftl_spec_low|].
  rewrite <- (Z.mod_small b (2 ^ n)) by done.
  rewrite Z.mod_pow2_bits_high by lia. apply andb_false_r.
Qed.

(** [(first..=last).contains(&n)], [char::is_ascii_hexdigit] and [Option::is_some_and]. *)
Definition in_range (first last n : Z) : bool := (first <=? n) && (n <=? last).

Definition is_ascii_hexdigit (c : Z) : bool :=
  in_range 48 57 c || in_range 65 70 c || in_range 97 102 c.

Definition option_is_some_and {A} (p : A → bool) (o : option A) : bool :=
  match o with Some a => p a | None => false end.

Lemma in_range_spec first last n : in_range first last n = true ↔ first ≤ n ≤ last.
Proof. unfold in_range. rewrite andb_true_iff. lia. Qed.

(** [for x in l { f(x)?; }] and [if condition { return Err(error) }]. *)
Fixpoint try_each {A E} (f : A → result unit E) (l : list A) : result unit E :=
  match l with
  | [] => Ok tt
  | x :: l => let? _ := f x in try_each f l
  end.

Definition refuse {E} (condition : bool) (error : E) : result unit E :=
  if condition then Err error else Ok tt.

Lemma refuse_Ok {E} condition (error : E) u : refuse condition error = Ok u ↔ condition = false.
Proof. destruct u. by destruct condition. Qed.

Lemma try_each_Ok {A E} (f : A → result unit E) l u :
  try_each f l = Ok u ↔ Forall (λ x, f x = Ok tt) l.
Proof.
  destruct u. induction l as [|x l IH]; simpl; [split; [constructor|done]|].
  rewrite result_bind_Ok, Forall_cons. split.
  - intros ([] & H1 & H2). by rewrite <- IH.
  - intros [H1 H2]. exists tt. by rewrite IH.
Qed.

(** A property of every event of a history and of those before it, one event at a time. *)
Lemma history_snoc {A} (P : list A → A → Prop) log e :
  (∀ before x after, log = before ++ x :: after → P before x) → P log e →
  ∀ before x after, log ++ [e] = before ++ x :: after → P before x.
Proof.
  intros Hl He before x after E. destruct (exists_last (l := x :: after)) as (l & y & Hy); [done|].
  rewrite Hy, app_assoc in E. apply app_inj_tail in E as [-> ->]. destruct l as [|z l]; injection Hy as <- ?; subst.
  - by rewrite app_nil_r in He.
  - by eapply Hl.
Qed.

(** ** Bounded deques: [if len == MAX { pop_front } ; push_back] *)

Definition push_bounded {A} (cap : nat) (l : list A) (x : A) : list A :=
  (if bool_decide (length l = cap) then tail l else l) ++ [x].

Lemma push_bounded_length {A} cap (l : list A) x :
  (0 < cap)%nat → (length l ≤ cap)%nat → (length (push_bounded cap l x) ≤ cap)%nat.
Proof.
  intros Hc Hl. unfold push_bounded. rewrite length_app; simpl.
  case_bool_decide; [|lia]. destruct l; simpl in *; lia.
Qed.

Lemma push_bounded_last {A} cap (l : list A) x : last (push_bounded cap l x) = Some x.
Proof. unfold push_bounded. by rewrite last_snoc. Qed.

Lemma push_bounded_suffix {A} cap (l : list A) x : push_bounded cap l x `suffix_of` l ++ [x].
Proof.
  unfold push_bounded. case_bool_decide; [|done].
  destruct l as [|y l]; [done|]; simpl. by exists [y].
Qed.

(** The last [n] elements of a list: what a bounded deque holds of its history. *)
Definition last_n {A} (n : nat) (l : list A) : list A := drop (length l - n) l.

Lemma last_n_snoc {A} n (l : list A) x :
  (0 < n)%nat →
  last_n n (l ++ [x]) = push_bounded n (last_n n l) x.
Proof.
  intros Hn. unfold push_bounded, last_n. rewrite length_app, length_drop; simpl. case_bool_decide.
  - replace (length l + 1 - n)%nat with (S (length l - n)) by lia.
    rewrite drop_app_le by lia. f_equal. destruct (drop (length l - n) l) as [|y k] eqn:Hd.
    + apply (f_equal length) in Hd. rewrite length_drop in Hd. simpl in Hd. lia.
    + rewrite <- Nat.add_1_r, <- drop_drop, Hd. done.
  - replace (length l + 1 - n)%nat with 0%nat by lia. replace (length l - n)%nat with 0%nat by lia.
    done.
Qed.

(** ** Stable sorting by an integer key: [sort_by_key] *)

Section SortByKey.
Context {A : Type} (key : A → Z).

Fixpoint insert_by_key (x : A) (l : list A) : list A :=
  match l with
  | [] => [x]
  | y :: l' => if key x <=? key y then x :: l else y :: insert_by_key x l'
  end.

Definition sort_by_key (l : list A) : list A := foldr insert_by_key [] l.

Lemma insert_by_key_perm x l : insert_by_key x l ≡ₚ x :: l.
Proof.
  induction l as [|y l IH]; simpl; [done|]. case_match; [done|]. rewrite IH. apply perm_swap.
Qed.

Lemma sort_by_key_perm l : sort_by_key l ≡ₚ l.
Proof. induction l as [|x l IH]; simpl; [done|]. by rewrite insert_by_key_perm, IH. Qed.

Lemma sort_by_key_length l : length (sort_by_key l) = length l.
Proof. apply Permutation_length, sort_by_key_perm. Qed.

Definition key_le (x y : A) : Prop := key x ≤ key y.

Lemma insert_by_key_sorted x l :
  StronglySorted key_le l → StronglySorted key_le (insert_by_key x l).
Proof.
  induction 1 as [|y l Hl IH Hy]; simpl; [repeat constructor|].
  destruct (Z.leb_spec (key x) (key y)).
  - constructor; [by constructor|]. constructor; [done|].
    eapply Forall_impl; [exact Hy|]. unfold key_le. simpl. lia.
  - constructor; [done|]. rewrite insert_by_key_perm. constructor; [unfold key_le; lia|done].
Qed.

Lemma sort_by_key_sorted l : StronglySorted key_le (sort_by_key l).
Proof. induction l; simpl; [constructor|by apply insert_by_key_sorted]. Qed.

(** Elements of equal key keep their order. *)
Lemma insert_by_key_stable k x l :
  StronglySorted key_le l →
  List.filter (λ y, key y =? k) (insert_by_key x l) = List.filter (λ y, key y =? k) (x :: l).
Proof.
  induction 1 as [|y l Hl IH Hy]; [done|]. cbn [insert_by_key].
  destruct (Z.leb_spec (key x) (key y)) as [?|Hlt]; [done|].
  cbn [List.filter] in *. rewrite IH. destruct (Z.eqb_spec (key y) k), (Z.eqb_spec (key x) k);
    try done; lia.
Qed.

Lemma sort_by_key_stable k l :
  List.filter (λ y, key y =? k) (sort_by_key l) = List.filter (λ y, key y =? k) l.
Proof.
  induction l as [|x l IH]; [done|]. cbn [sort_by_key foldr].
  rewrite insert_by_key_stable by apply sort_by_key_sorted. cbn [List.filter].
  fold (sort_by_key l). by rewrite IH.
Qed.
End SortByKey.

(** ** Strings: Rust's [str] as its list of Unicode scalar values *)

Definition str := list Z.

#[global] Instance str_eq_dec : EqDecision str := _.

(** [char::is_whitespace]: the Unicode property White_Space. *)
Definition char_is_whitespace (c : Z) : bool :=
  ((9 <=? c) && (c <=? 13)) || (c =? 32) || (c =? 133) || (c =? 160) || (c =? 5760)
  || ((8192 <=? c) && (c <=? 8202)) || (c =? 8232) || (c =? 8233) || (c =? 8239)
  || (c =? 8287) || (c =? 12288).

(** [char::is_control]: the general category Cc. *)
Definition char_is_control (c : Z) : bool :=
  ((0 <=? c) && (c <=? 31)) || ((127 <=? c) && (c <=? 159)).

(** [char::len_utf8], and [str::len], which counts bytes. *)
Definition char_len_utf8 (c : Z) : Z :=
  if c <? 128 then 1 else if c <? 2048 then 2 else if c <? 65536 then 3 else 4.

Definition str_len (s : str) : Z := foldr (λ c n, char_len_utf8 c + n) 0 s.

(** [char::encode_utf8] and [str::as_bytes]. *)
Definition char_encode_utf8 (c : Z) : list Z :=
  let continuation n := Z.lor 128 (Z.land (Z.shiftr c n) 63) in
  if c <? 128 then [c]
  else if c <? 2048 then [Z.lor 192 (Z.shiftr c 6); continuation 0]
  else if c <? 65536 then [Z.lor 224 (Z.shiftr c 12); continuation 6; continuation 0]
  else [Z.lor 240 (Z.shiftr c 18); continuation 12; continuation 6; continuation 0].

Definition str_as_bytes (s : str) : list Z := s ≫= char_encode_utf8.

Lemma str_as_bytes_len s : Z.of_nat (length (str_as_bytes s)) = str_len s.
Proof.
  induction s as [|c s IH]; [done|]. unfold str_as_bytes in *.
  rewrite bind_cons, length_app, Nat2Z.inj_add, IH. simpl. unfold char_encode_utf8, char_len_utf8.
  by repeat case_match.
Qed.

(** The order of strings: bytes in UTF-8, hence code points, lexicographically. *)
Fixpoint str_ltb (a b : str) : bool :=
  match a, b with
  | _, [] => false
  | [], _ :: _ => true
  | x :: a, y :: b => (x <? y) || ((x =? y) && str_ltb a b)
  end.

Fixpoint trim_start (s : str) : str :=
  match s with
  | [] => []
  | c :: s' => if char_is_whitespace c then trim_start s' else s
  end.

Definition trim (s : str) : str := reverse (trim_start (reverse (trim_start s))).

(** [str::strip_prefix]. *)
Fixpoint strip_prefix (prefix s : str) : option str :=
  match prefix, s with
  | [], _ => Some s
  | p :: prefix, c :: s => if p =? c then strip_prefix prefix s else None
  | _ :: _, [] => None
  end.

(** [s.trim().is_empty()]. *)
Definition str_is_blank (s : str) : bool := bool_decide (trim s = []).

(** ASCII literals of the source. *)
Fixpoint lit (s : string) : str :=
  match s with
  | EmptyString => []
  | String a s' => Z.of_N (Ascii.N_of_ascii a) :: lit s'
  end.

(** [Display] of an unsigned integer of at most 64 bits, which has at most twenty
    digits. *)
Fixpoint show_digits (fuel : nat) (n : Z) (acc : str) : str :=
  match fuel with
  | O => acc
  | S fuel =>
      let acc := (48 + n mod 10) :: acc in
      if n <? 10 then acc else show_digits fuel (n / 10) acc
  end.

Definition show_u (n : Z) : str := show_digits 20 n [].

(** The number a decimal text denotes; [show_u] is injective on 64-bit numbers. *)
Definition read_digits (s : str) : Z := foldl (λ n c, 10 * n + (c - 48)) 0 s.

Lemma read_digits_app s t :
  read_digits (s ++ t) = foldl (λ n c, 10 * n + (c - 48)) (read_digits s) t.
Proof. apply foldl_app. Qed.

Lemma show_digits_acc fuel : ∀ n acc, show_digits fuel n acc = show_digits fuel n [] ++ acc.
Proof.
  induction fuel as [|fuel IH]; intros n acc; [done|]. cbn [show_digits].
  destruct (n <? 10); [done|]. rewrite (IH _ (_ :: acc)), (IH _ [_]), <- app_assoc. done.
Qed.

Lemma read_show_digits fuel : ∀ n,
  0 ≤ n < 10 ^ Z.of_nat fuel → read_digits (show_digits fuel n []) = n.
Proof.
  induction fuel as [|fuel IH]; intros n Hn; [change (10 ^ Z.of_nat 0) with 1 in Hn; unfold read_digits; simpl; lia|]. cbn [show_digits].
  destruct (Z.ltb_spec n 10) as [Hl|Hl].
  - unfold read_digits. cbn [foldl]. rewrite Z.mod_small by lia. lia.
  - rewrite show_digits_acc, read_digits_app, IH.
    + cbn [foldl]. pose proof (Z.div_mod n 10). lia.
    + rewrite Nat2Z.inj_succ, Z.pow_succ_r in Hn by lia.
      split; [apply Z.div_pos; lia|apply Z.div_lt_upper_bound; lia].
Qed.

Lemma show_u_inj m n : in_u64 m → in_u64 n → show_u m = show_u n → m = n.
Proof.
  unfold in_u64, U64_MAX, show_u. intros Hm Hn E.
  rewrite <- (read_show_digits 20 m), <- (read_show_digits 20 n) by (simpl; lia). by rewrite E.
Qed.

(** [str::to_ascii_lowercase], [eq_ignore_ascii_case] and
    [split_whitespace().collect::<Vec<_>>()]. *)
Definition char_ascii_lowercase (c : Z) : Z := if (65 <=? c) && (c <=? 90) then c + 32 else c.
Definition to_ascii_lowercase (s : str) : str := char_ascii_lowercase <$> s.
Definition eq_ignore_ascii_case (a b : str) : bool :=
  bool_decide (to_ascii_lowercase a = to_ascii_lowercase b).

Fixpoint split_words (word : str) (s : str) : list str :=
  match s with
  | [] => if bool_decide (word = []) then [] else [word]
  | c :: s =>
      if char_is_whitespace c
      then (if bool_decide (word = []) then split_words [] s else word :: split_words [] s)
      else split_words (word ++ [c]) s
  end.
Definition split_whitespace (s : str) : list str := split_words [] s.

(** [join(" ")]. *)
Fixpoint join_space (words : list str) : str :=
  match words with
  | [] => []
  | [w] => w
  | w :: words => w ++ 32 :: join_space words
  end.

Lemma to_ascii_lowercase_idem s : to_ascii_lowercase (to_ascii_lowercase s) = to_ascii_lowercase s.
Proof.
  unfold to_ascii_lowercase. rewrite <- list_fmap_compose. apply list_fmap_ext. intros _ c _.
  unfold compose, char_ascii_lowercase.
  destruct (Z.leb_spec 65 c), (Z.leb_spec c 90); cbn [andb];
    repeat match goal with |- context [?a <=? ?b] => destruct (Z.leb_spec a b) end; simpl; lia.
Qed.

(** [Ord] on strings, and a stable sort by any comparison: [sort_by]. *)
Definition str_leb (a b : str) : bool := negb (str_ltb b a).

Section SortBy.
Context {A : Type} (leb : A → A → bool).

Fixpoint insert_by (x : A) (l : list A) : list A :=
  match l with
  | [] => [x]
  | y :: l' => if leb x y then x :: l else y :: insert_by x l'
  end.

Definition sort_by (l : list A) : list A := foldr insert_by [] l.

Lemma insert_by_perm x l : insert_by x l ≡ₚ x :: l.
Proof.
  induction l as [|y l IH]; simpl; [done|]. case_match; [done|]. rewrite IH. apply perm_swap.
Qed.

Lemma sort_by_perm l : sort_by l ≡ₚ l.
Proof. induction l as [|x l IH]; simpl; [done|]. by rewrite insert_by_perm, IH. Qed.

(** Sorted, by a total and transitive comparison. *)
Definition by_leb (x y : A) : Prop := leb x y = true.

Lemma insert_by_sorted `{!Transitive by_leb} x l :
  (∀ x y, leb x y = false → leb y x = true) →
  StronglySorted by_leb l → StronglySorted by_leb (insert_by x l).
Proof.
  intros Htotal. induction 1 as [|y l Hl IH Hy]; simpl; [repeat constructor|].
  destruct (leb x y) eqn:E.
  - constructor; [by constructor|]. constructor; [done|].
    eapply Forall_impl; [exact Hy|]. intros z Hz. by transitivity y.
  - constructor; [done|]. rewrite insert_by_perm. constructor; [by apply Htotal|done].
Qed.

Lemma sort_by_sorted `{!Transitive by_leb} l :
  (∀ x y, leb x y = false → leb y x = true) → StronglySorted by_leb (sort_by l).
Proof. intros. induction l; simpl; [constructor|by apply insert_by_sorted]. Qed.
End SortBy.

Lemma trim_start_nil s : trim_start s = [] ↔ Forall (λ c, char_is_whitespace c = true) s.
Proof.
  induction s as [|c s IH]; simpl; [by split|].
  rewrite Forall_cons. destruct (char_is_whitespace c) eqn:E; [tauto|].
  split; [done|]. by intros [? _].
Qed.

Lemma trim_start_suffix s : trim_start s `suffix_of` s.
Proof.
  induction s as [|c s IH]; simpl; [done|]. case_match; [|done]. by apply suffix_cons_r.
Qed.

Lemma str_is_blank_spec s :
  str_is_blank s = true ↔ Forall (λ c, char_is_whitespace c = true) s.
Proof.
  unfold str_is_blank, trim. rewrite bool_decide_eq_true.
  rewrite <- (reverse_involutive []) at 1.
  rewrite (inj_iff reverse), reverse_nil, trim_start_nil, Forall_reverse.
  split; [|intros H; apply trim_start_nil in H; by rewrite H].
  induction s as [|c s IH]; simpl; [done|].
  destruct (char_is_whitespace c) eqn:E; [by constructor; auto|done].
Qed.

(** ** Beat ranges: the interface of everything that partitions a track

    Phrases of the domain, cues of a plan and phrases of the library timeline
    all carry an index and a half-open beat range.  The validation loops of the
    code check that a list of them is indexed from zero and partitions
    [0 .. duration); the lemmas below say what that gives. *)

Class Ranged (A : Type) := {
  range_index : A → Z;
  range_start : A → Z;
  range_end : A → Z;
}.

Section Ranges.
Context {A : Type} `{Ranged A}.
Implicit Types (x : A) (l : list A).

Definition covers (beat : Z) (x : A) : bool :=
  (range_start x <=? beat) && (beat <? range_end x).

Fixpoint tiles (s : Z) (l : list A) (e : Z) : Prop :=
  match l with
  | [] => s = e
  | x :: l' => range_start x = s ∧ s < range_end x ∧ tiles (range_end x) l' e
  end.

Fixpoint indexed (n : Z) (l : list A) : Prop :=
  match l with
  | [] => True
  | x :: l' => range_index x = n ∧ indexed (n + 1) l'
  end.

Lemma covers_spec b x : covers b x = true ↔ range_start x ≤ b < range_end x.
Proof. unfold covers. rewrite andb_true_iff, Z.leb_le, Z.ltb_lt. done. Qed.

Lemma tiles_le s l e : tiles s l e → s ≤ e.
Proof. revert s; induction l as [|x l IH]; simpl; intros s; [lia|].
  intros (? & ? & ?%IH). lia. Qed.

Lemma tiles_app s l1 l2 e : tiles s (l1 ++ l2) e ↔ ∃ m, tiles s l1 m ∧ tiles m l2 e.
Proof. revert s; induction l1 as [|x l1 IH]; simpl; intros s; [naive_solver|].
  rewrite IH. naive_solver. Qed.

Lemma tiles_det s l e e' : tiles s l e → tiles s l e' → e = e'.
Proof. revert s; induction l as [|x l IH]; simpl; intros s; [congruence|].
  naive_solver. Qed.

Lemma tiles_elem s l e x :
  tiles s l e → x ∈ l → s ≤ range_start x ∧ range_start x < range_end x ∧ range_end x ≤ e.
Proof.
  revert s; induction l as [|y l IH]; simpl; intros s Ht Hx; [by apply not_elem_of_nil in Hx|].
  destruct Ht as (? & ? & Ht). pose proof (tiles_le _ _ _ Ht).
  apply elem_of_cons in Hx as [->|Hx]; [lia|]. destruct (IH _ Ht Hx). lia.
Qed.

Lemma tiles_lookup_lt s l e i j x y :
  tiles s l e → l !! i = Some x → l !! j = Some y → (i < j)%nat →
  range_end x ≤ range_start y.
Proof.
  revert s i j; induction l as [|z l IH]; intros s i j Ht Hi Hj Hij; [done|].
  destruct Ht as (? & ? & Ht). destruct j as [|j]; [lia|]. destruct i as [|i]; simplify_eq/=.
  - apply list_elem_of_lookup_2 in Hj. destruct (tiles_elem _ _ _ _ Ht Hj). lia.
  - eapply IH; eauto. lia.
Qed.

(** Exactly one element covers each beat of the range. *)
Lemma tiles_cover s l e b :
  tiles s l e → s ≤ b < e → ∃ i x, l !! i = Some x ∧ covers b x = true.
Proof.
  revert s; induction l as [|x l IH]; simpl; intros s Ht Hb; [lia|].
  destruct Ht as (? & ? & Ht).
  destruct (decide (b < range_end x)).
  - exists 0%nat, x. split; [done|]. apply covers_spec. lia.
  - destruct (IH _ Ht) as (i & y & ? & ?); [lia|]. by exists (S i), y.
Qed.

Lemma tiles_cover_unique s l e b i j x y :
  tiles s l e → l !! i = Some x → l !! j = Some y →
  covers b x = true → covers b y = true → i = j.
Proof.
  rewrite !covers_spec. intros Ht Hi Hj Hx Hy.
  destruct (Nat.lt_trichotomy i j) as [Hij|[?|Hij]]; [|done|].
  - pose proof (tiles_lookup_lt _ _ _ _ _ _ _ Ht Hi Hj Hij). lia.
  - pose proof (tiles_lookup_lt _ _ _ _ _ _ _ Ht Hj Hi Hij). lia.
Qed.

Lemma tiles_covered_bounds s l e b x :
  tiles s l e → x ∈ l → covers b x = true → s ≤ b < e.
Proof. intros Ht Hx Hc%covers_spec. destruct (tiles_elem _ _ _ _ Ht Hx). lia. Qed.

Lemma indexed_lookup n l i x : indexed n l → l !! i = Some x → range_index x = n + Z.of_nat i.
Proof.
  revert n i; induction l as [|y l IH]; simpl; intros n i Hx Hi; [done|].
  destruct Hx as [? Hx]. destruct i as [|i]; simplify_eq/=; [lia|].
  rewrite (IH _ _ Hx Hi). lia.
Qed.

Lemma indexed_app n l1 l2 :
  indexed n (l1 ++ l2) ↔ indexed n l1 ∧ indexed (n + Z.of_nat (length l1)) l2.
Proof.
  revert n; induction l1 as [|x l1 IH]; simpl; intros n.
  - rewrite Z.add_0_r. tauto.
  - rewrite IH. replace (n + 1 + Z.of_nat (length l1)) with (n + Z.of_nat (S (length l1))) by lia.
    tauto.
Qed.

(** Looking a beat up: the search finds the element of its own index. *)
Lemma tiles_find l e b :
  tiles 0 l e → indexed 0 l → 0 ≤ b < e →
  ∃ x, List.find (covers b) l = Some x ∧ l !! Z.to_nat (range_index x) = Some x
       ∧ range_start x ≤ b < range_end x.
Proof.
  intros Ht Hi Hb. destruct (List.find (covers b) l) as [x|] eqn:E.
  - apply List.find_some in E as [Hin Hc]. exists x. split; [done|].
    apply list_elem_of_In, list_elem_of_lookup_1 in Hin as [i Hl].
    rewrite (indexed_lookup _ _ _ _ Hi Hl), Z.add_0_l, Nat2Z.id.
    split; [done|]. by apply covers_spec.
  - destruct (tiles_cover _ _ _ _ Ht Hb) as (i & x & Hl & Hc).
    apply list_elem_of_lookup_2, list_elem_of_In in Hl.
    by rewrite (List.find_none _ _ E _ Hl) in Hc.
Qed.
End Ranges.

(** ** Automation *)

Create HintDb lumi discriminated.
#[export] Hint Rewrite @result_bind_Ok @map_err_Ok @ok_or_Ok @checked_add_u64_Some @refuse_Ok @try_each_Ok : lumi.

(** Unfolds the monadic structure of a successful computation in a hypothesis. *)
Ltac unbind H :=
  repeat first
    [ progress (autorewrite with lumi in H)
    | match type of H with
      | ∃ _, _ => let x := fresh "v" in destruct H as [x H]
      | _ ∧ _ => let E := fresh "E" in destruct H as [E H]; try subst
      end ].

(** Splits every [match] and [if] of the goal or of the hypotheses and removes
    the impossible branches. *)
Ltac split_cases := repeat (case_match || simplify_eq/=).
