(* ===== verification/Track.v ===== *)
(** * Tracks: identifiers, colours, phrases and validated track metadata

    Models [lumi-domain/src/track.rs] and the arithmetic of
    [lumi-domain/src/identifiers.rs].  An identifier newtype over [u64] (or
    [u8]) is its number; a [String] is its list of scalar values. *)

From stdpp Require Import prelude list gmap strings.
From Stdlib Require Import ZArith Lia.
From S2P Require Import Prelude.
Open Scope Z_scope.

(** ** Identifiers and time (newtypes over machine integers) *)

Notation ClientId := Z (only parsing).
Notation CommandSequence := Z (only parsing).
Notation CueId := Z (only parsing).
Notation DeckId := Z (only parsing).
Notation EffectId := Z (only parsing).
Notation EffectSequence := Z (only parsing).
Notation OutputCommandId := Z (only parsing).
Notation PlanId := Z (only parsing).
Notation PlanConfigurationRevision := Z (only parsing).
Notation PlanRevision := Z (only parsing).
Notation SceneId := Z (only parsing).
Notation SourceId := Z (only parsing).
Notation SourceSequence := Z (only parsing).
Notation StateRevision := Z (only parsing).
Notation ThemeId := Z (only parsing).
Notation TrackId := Z (only parsing).
Notation TrackLoadId := Z (only parsing).
Notation WorkerId := Z (only parsing).
Notation MonotonicTime := Z (only parsing).

Definition PlanRevision_initial : PlanRevision := 1.

Definition PlanRevision_checked_next (r : PlanRevision) : option PlanRevision :=
  match checked_add_u64 r 1 with Some value => Some value | None => None end.

Definition StateRevision_initial : StateRevision := 0.

Definition StateRevision_checked_next (r : StateRevision) : option StateRevision :=
  match checked_add_u64 r 1 with Some value => Some value | None => None end.

(** ** Validation errors *)

Inductive TrackValidationError : Type :=
| TrackEmptyTitle
| TrackEmptyArtist
| TrackBpmOutOfRange (bpm_milli : Z)
| TrackEmptyDuration
| TrackEmptyPhrases
| TrackUnorderedPhraseIndex
| TrackInvalidPhraseRange
| TrackIncompletePhraseCoverage
| TrackInvalidIdentityFacts.

(** ** Identity facts *)

Record TrackIdentityFacts := mkTrackIdentityFacts {
  tif_provider_kind : str;
  tif_source_id : str;
  tif_source_track_id : str;
  tif_analysis_revision : str;
  tif_lumi_timeline_revision : Z;
}.

#[global] Instance TrackIdentityFacts_eq_dec : EqDecision TrackIdentityFacts.
Proof. solve_decision. Defined.

Definition TrackIdentityFacts_try_new
    (provider_kind source_id source_track_id analysis_revision : str)
    (lumi_timeline_revision : Z) : result TrackIdentityFacts TrackValidationError :=
  if str_is_blank provider_kind
     || str_is_blank source_id
     || str_is_blank source_track_id
     || str_is_blank analysis_revision
     || (lumi_timeline_revision =? 0)
  then Err TrackInvalidIdentityFacts
  else Ok (mkTrackIdentityFacts provider_kind source_id source_track_id
             analysis_revision lumi_timeline_revision).

(** ** Colours: three [u8] channels *)

Record TrackColor := mkTrackColor {
  color_red : Z;
  color_green : Z;
  color_blue : Z;
}.

#[global] Instance TrackColor_eq_dec : EqDecision TrackColor.
Proof. solve_decision. Defined.

Definition TrackColor_rgb_u32 (c : TrackColor) : Z :=
  Z.lor (Z.lor (Z.shiftl (color_red c) 16) (Z.shiftl (color_green c) 8)) (color_blue c).

Definition TrackColor_from_rgb_u32 (value : Z) : TrackColor :=
  mkTrackColor (Z.land (Z.shiftr value 16) 255)
               (Z.land (Z.shiftr value 8) 255)
               (Z.land value 255).

Definition color_wf (c : TrackColor) : Prop :=
  in_u8 (color_red c) ∧ in_u8 (color_green c) ∧ in_u8 (color_blue c).

(** ** Source status, key, phrases *)

Inductive DeckSourceStatus : Type :=
| SourceStarting | SourceReady | SourceDegraded | SourceDisconnected.

#[global] Instance DeckSourceStatus_eq_dec : EqDecision DeckSourceStatus.
Proof. solve_decision. Defined.

Inductive PitchClass : Type :=
| PitchC | PitchCSharp | PitchD | PitchDSharp | PitchE | PitchF
| PitchFSharp | PitchG | PitchGSharp | PitchA | PitchASharp | PitchB.

Inductive KeyMode : Type := KeyMajor | KeyMinor.

Record MusicalKey := mkMusicalKey { key_pitch_class : PitchClass; key_mode : KeyMode }.

#[global] Instance PitchClass_eq_dec : EqDecision PitchClass.
Proof. solve_decision. Defined.
#[global] Instance KeyMode_eq_dec : EqDecision KeyMode.
Proof. solve_decision. Defined.
#[global] Instance MusicalKey_eq_dec : EqDecision MusicalKey.
Proof. solve_decision. Defined.

Inductive PhraseKind : Type :=
| KindIntro | KindVerse | KindBuild | KindDrop | KindBreakdown | KindOutro.

#[global] Instance PhraseKind_eq_dec : EqDecision PhraseKind.
Proof. solve_decision. Defined.

Record TrackPhrase := mkTrackPhrase {
  tp_index : Z;
  tp_start_beat : Z;
  tp_end_beat : Z;
  tp_kind : PhraseKind;
}.

#[global] Instance TrackPhrase_eq_dec : EqDecision TrackPhrase.
Proof. solve_decision. Defined.

#[global] Instance TrackPhrase_ranged : Ranged TrackPhrase := {
  range_index := tp_index;
  range_start := tp_start_beat;
  range_end := tp_end_beat;
}.

(** ** Track metadata *)

Record TrackMetadata := mkTrackMetadata {
  tm_id : TrackId;
  tm_title : str;
  tm_artist : str;
  tm_bpm_milli : Z;
  tm_musical_key : MusicalKey;
  tm_color : option TrackColor;
  tm_duration_beats : Z;
  tm_phrases : list TrackPhrase;
  tm_identity_facts : option TrackIdentityFacts;
}.

#[global] Instance TrackMetadata_eq_dec : EqDecision TrackMetadata.
Proof. solve_decision. Defined.

Definition validate_track_facts (title artist : str) (bpm_milli duration_beats : Z) :
    result unit TrackValidationError :=
  if str_is_blank title then Err TrackEmptyTitle
  else if str_is_blank artist then Err TrackEmptyArtist
  else if negb ((20000 <=? bpm_milli) && (bpm_milli <=? 300000))
  then Err (TrackBpmOutOfRange bpm_milli)
  else if duration_beats =? 0 then Err TrackEmptyDuration
  else Ok ().

Definition TrackMetadata_try_new_unanalyzed (id : TrackId) (title artist : str)
    (bpm_milli : Z) (musical_key : MusicalKey) (duration_beats : Z) :
    result TrackMetadata TrackValidationError :=
  let? _ := validate_track_facts title artist bpm_milli duration_beats in
  Ok (mkTrackMetadata id title artist bpm_milli musical_key None duration_beats [] None).

(** The [for] loop of [try_new_with_color]; it returns the last [previous_end]. *)
Fixpoint validate_track_phrases (duration_beats previous_end expected_index : Z)
    (phrases : list TrackPhrase) : result Z TrackValidationError :=
  match phrases with
  | [] => Ok previous_end
  | phrase :: rest =>
      if negb (tp_index phrase =? expected_index) then Err TrackUnorderedPhraseIndex
      else if negb (tp_start_beat phrase =? previous_end)
              || (tp_end_beat phrase <=? tp_start_beat phrase)
              || (duration_beats <? tp_end_beat phrase)
      then Err TrackInvalidPhraseRange
      else validate_track_phrases duration_beats (tp_end_beat phrase) (expected_index + 1) rest
  end.

Definition TrackMetadata_try_new_with_color (id : TrackId) (title artist : str)
    (bpm_milli : Z) (musical_key : MusicalKey) (color : option TrackColor)
    (duration_beats : Z) (phrases : list TrackPhrase) :
    result TrackMetadata TrackValidationError :=
  let? _ := validate_track_facts title artist bpm_milli duration_beats in
  if bool_decide (phrases = []) then Err TrackEmptyPhrases
  else
    let? previous_end := validate_track_phrases duration_beats 0 0 phrases in
    if negb (previous_end =? duration_beats) then Err TrackIncompletePhraseCoverage
    else Ok (mkTrackMetadata id title artist bpm_milli musical_key color
               duration_beats phrases None).

Definition TrackMetadata_try_new (id : TrackId) (title artist : str)
    (bpm_milli : Z) (musical_key : MusicalKey)
    (duration_beats : Z) (phrases : list TrackPhrase) :
    result TrackMetadata TrackValidationError :=
  TrackMetadata_try_new_with_color id title artist bpm_milli musical_key None
    duration_beats phrases.

Definition TrackMetadata_with_identity_facts (m : TrackMetadata)
    (facts : TrackIdentityFacts) : TrackMetadata :=
  mkTrackMetadata (tm_id m) (tm_title m) (tm_artist m) (tm_bpm_milli m)
    (tm_musical_key m) (tm_color m) (tm_duration_beats m) (tm_phrases m) (Some facts).

(** [self.phrases.get(usize::from(index))]. *)
Definition TrackMetadata_phrase (m : TrackMetadata) (index : Z) : option TrackPhrase :=
  tm_phrases m !! Z.to_nat index.

(** ** What the constructors guarantee

    [TrackMetadata] has private fields: every value is built by a constructor,
    so [metadata_wf] holds of every metadata the other components see. *)

Definition track_facts_wf (title artist : str) (bpm_milli duration_beats : Z) : Prop :=
  str_is_blank title = false ∧ str_is_blank artist = false ∧
  20000 ≤ bpm_milli ≤ 300000 ∧ duration_beats ≠ 0.

Definition metadata_wf (m : TrackMetadata) : Prop :=
  track_facts_wf (tm_title m) (tm_artist m) (tm_bpm_milli m) (tm_duration_beats m) ∧
  (tm_phrases m = [] ∨
   indexed 0 (tm_phrases m) ∧ tiles 0 (tm_phrases m) (tm_duration_beats m)).

Lemma validate_track_facts_Ok title artist bpm dur :
  validate_track_facts title artist bpm dur = Ok () ↔ track_facts_wf title artist bpm dur.
Proof.
  unfold validate_track_facts, track_facts_wf.
  destruct (str_is_blank title), (str_is_blank artist); try naive_solver.
  destruct (Z.leb_spec 20000 bpm), (Z.leb_spec bpm 300000), (Z.eqb_spec dur 0);
    simpl; naive_solver lia.
Qed.

Lemma validate_track_phrases_Ok dur prev n l fin :
  validate_track_phrases dur prev n l = Ok fin ↔
  indexed n l ∧ tiles prev l fin ∧ (l = [] ∨ fin ≤ dur).
Proof.
  revert prev n; induction l as [|p l IH]; intros prev n; simpl.
  - naive_solver.
  - destruct (Z.eqb_spec (tp_index p) n); simpl; [|naive_solver].
    destruct (Z.eqb_spec (tp_start_beat p) prev); simpl; [|naive_solver].
    destruct (Z.leb_spec (tp_end_beat p) (tp_start_beat p)); simpl; [naive_solver lia|].
    destruct (Z.ltb_spec dur (tp_end_beat p)); simpl.
    + split; [done|]. intros (_ & (_ & _ & Ht%tiles_le) & [?|?]); [done|lia].
    + rewrite IH. split.
      * intros (? & Ht & [->|?]); simpl in Ht; repeat split; auto; lia.
      * intros ((_ & ?) & (_ & _ & ?) & [?|?]); [done|auto].
Qed.

(** The constructor accepts exactly the well-formed data, and stores it unchanged. *)
Lemma TrackMetadata_try_new_with_color_Ok id title artist bpm key color dur phrases m :
  TrackMetadata_try_new_with_color id title artist bpm key color dur phrases = Ok m ↔
  track_facts_wf title artist bpm dur ∧ phrases ≠ [] ∧
  indexed 0 phrases ∧ tiles 0 phrases dur ∧
  m = mkTrackMetadata id title artist bpm key color dur phrases None.
Proof.
  unfold TrackMetadata_try_new_with_color. rewrite result_bind_Ok.
  setoid_rewrite <- validate_track_facts_Ok. split.
  - intros ([] & Hf & Hr). case_bool_decide as Hne; [done|]. unbind Hr.
    apply validate_track_phrases_Ok in E as (? & ? & _).
    destruct (Z.eqb_spec v dur); simplify_eq/=. auto.
  - intros (Hf & Hne & Hi & Ht & ->). exists (). split; [done|].
    rewrite bool_decide_false by done. rewrite result_bind_Ok. exists dur.
    rewrite validate_track_phrases_Ok, Z.eqb_refl. simpl. repeat split; auto. right; lia.
Qed.

(** Every metadata a constructor returns is well-formed, and attaching
    identity facts keeps it so: the phrases are absent or partition the track. *)
Theorem track_constructors_wf id title artist bpm key color dur phrases facts m :
  TrackMetadata_try_new_with_color id title artist bpm key color dur phrases = Ok m ∨
  TrackMetadata_try_new id title artist bpm key dur phrases = Ok m ∨
  TrackMetadata_try_new_unanalyzed id title artist bpm key dur = Ok m →
  metadata_wf m ∧ metadata_wf (TrackMetadata_with_identity_facts m facts).
Proof.
  intros Hm. enough (metadata_wf m) by done.
  destruct Hm as [Hm|[Hm|Hm]].
  1,2: apply TrackMetadata_try_new_with_color_Ok in Hm as (? & ? & ? & ? & ->);
    split; simpl; auto.
  unfold TrackMetadata_try_new_unanalyzed in Hm. unbind Hm. injection Hm as <-. destruct v.
  apply validate_track_facts_Ok in E. split; simpl; auto.
Qed.

Lemma land_255 x : Z.land x 255 = x mod 2 ^ 8.
Proof. by rewrite <- Z.land_ones. Qed.

(** Packing the channels of a colour is base-256 positional notation. *)
Lemma rgb_u32_value c :
  color_wf c → TrackColor_rgb_u32 c = color_red c * 65536 + color_green c * 256 + color_blue c.
Proof.
  destruct c as [r g b]. unfold color_wf, in_u8, U8_MAX, TrackColor_rgb_u32; simpl.
  intros (Hr & Hg & Hb).
  replace (Z.shiftl r 16) with (Z.shiftl (Z.shiftl r 8) 8) by (by rewrite Z.shiftl_shiftl).
  rewrite <- Z.shiftl_lor, !lor_shiftl_add by lia. lia.
Qed.

Lemma rgb_u32_roundtrip c :
  color_wf c →
  TrackColor_from_rgb_u32 (TrackColor_rgb_u32 c) = c ∧ 0 ≤ TrackColor_rgb_u32 c < 2 ^ 24.
Proof.
  intros Hc. rewrite rgb_u32_value by done. destruct c as [r g b].
  unfold color_wf, in_u8, U8_MAX in Hc; simpl in *.
  unfold TrackColor_from_rgb_u32. rewrite !land_255, !Z.shiftr_div_pow2 by lia.
  change (2 ^ 16) with 65536; change (2 ^ 8) with 256; change (2 ^ 24) with 16777216.
  split; [f_equal|]; Z.div_mod_to_equations; lia.
Qed.

Lemma track_constructors_wf_witness :
  ∃ m, TrackMetadata_try_new 7 (lit "Title") (lit "Artist") 128000 (mkMusicalKey PitchA KeyMinor) 32
         [mkTrackPhrase 0 0 16 KindIntro; mkTrackPhrase 1 16 32 KindDrop] = Ok m ∧ metadata_wf m.
Proof.
  eexists. split; [vm_compute; reflexivity|].
  eapply (track_constructors_wf 7 (lit "Title") (lit "Artist") 128000 (mkMusicalKey PitchA KeyMinor)
    None 32 [mkTrackPhrase 0 0 16 KindIntro; mkTrackPhrase 1 16 32 KindDrop]
    (mkTrackIdentityFacts [] [] [] [] 0)).
  right. left. vm_compute. reflexivity.
Defined.

(** Packing a colour into 24 bits loses nothing: unpacking returns the three
    channels, and every 24-bit number is the packing of the colour it unpacks to. *)
Theorem color_roundtrip c v :
  color_wf c → 0 ≤ v < 2 ^ 24 →
  TrackColor_from_rgb_u32 (TrackColor_rgb_u32 c) = c ∧ 0 ≤ TrackColor_rgb_u32 c < 2 ^ 24 ∧
  TrackColor_rgb_u32 (TrackColor_from_rgb_u32 v) = v ∧ color_wf (TrackColor_from_rgb_u32 v).
Proof.
  intros Hc Hv. destruct (rgb_u32_roundtrip c Hc) as [? ?]. split; [done|]. split; [done|].
  assert (color_wf (TrackColor_from_rgb_u32 v)) as Hw.
  { unfold TrackColor_from_rgb_u32, color_wf, in_u8, U8_MAX. simpl. rewrite !land_255.
    change (2 ^ 8) with 256. split_and!; Z.div_mod_to_equations; lia. }
  split; [|done]. rewrite rgb_u32_value by done. unfold TrackColor_from_rgb_u32; simpl.
  rewrite !land_255, !Z.shiftr_div_pow2 by lia.
  change (2 ^ 16) with 65536; change (2 ^ 8) with 256; change (2 ^ 24) with 16777216 in Hv.
  Z.div_mod_to_equations; lia.
Qed.
