(* ===== verification/Plan.v ===== *)
(** * Lighting plans: cues, looks and the validated plan of a track

    Models [lumi-domain/src/plan.rs].  A [LightingPlan] has private fields, so
    every plan is the result of [LightingPlan_try_new_with_theme_decision];
    [plan_wf] is what that constructor guarantees, and the constructor is shown
    to accept exactly the well-formed plans. *)

From stdpp Require Import prelude list gmap strings.
From Stdlib Require Import ZArith Lia.
From S2P Require Import Prelude.
From S2P Require Import Track.
Open Scope Z_scope.

Inductive PlanStatus : Type := PlanReady | PlanFallback.

Inductive ThemeSelectionReason : Type :=
| GlobalLock | PlanInstanceUserChoice | ColorForce | ColorPrefer | Rotation | DefaultTheme.

Inductive SceneCategory : Type :=
| CatAmbient | CatGroove | CatBuild | CatImpact | CatBreak.

Inductive PlanValidationError : Type :=
| ZeroRevision
| ZeroConfigurationRevision
| EmptyTrackDuration
| EmptyCues
| EmptyThemeName
| EmptySceneName
| DuplicateCueId (id : CueId)
| UnorderedPhraseIndex
| InvalidCueRange
| IncompleteCueCoverage
| FallbackCueInReadyPlan
| FallbackPlanWithoutFallbackCue
| MissingThemeDecision
| ThemeDecisionInFallbackPlan
| InconsistentThemeDecision
| RevisionOverflow.

#[global] Instance PlanStatus_eq_dec : EqDecision PlanStatus.
Proof. solve_decision. Defined.
#[global] Instance ThemeSelectionReason_eq_dec : EqDecision ThemeSelectionReason.
Proof. solve_decision. Defined.
#[global] Instance SceneCategory_eq_dec : EqDecision SceneCategory.
Proof. solve_decision. Defined.

Record ThemeDecision := mkThemeDecision {
  td_theme_id : ThemeId;
  td_theme_name : str;
  td_reason : ThemeSelectionReason;
  td_matched_color : option Z;
}.

#[global] Instance ThemeDecision_eq_dec : EqDecision ThemeDecision.
Proof. solve_decision. Defined.

Definition ThemeDecision_try_new (theme_id : ThemeId) (theme_name : str)
    (reason : ThemeSelectionReason) (matched_color : option Z) :
    result ThemeDecision PlanValidationError :=
  if str_is_blank theme_name then Err EmptyThemeName
  else Ok (mkThemeDecision theme_id theme_name reason matched_color).

Record LoopSelection := mkLoopSelection { loop_bank : Z; loop_slot : Z }.

#[global] Instance LoopSelection_eq_dec : EqDecision LoopSelection.
Proof. solve_decision. Defined.

Record LightingLook := mkLightingLook {
  look_theme_id : ThemeId;
  look_theme_name : str;
  look_scene_id : SceneId;
  look_scene_name : str;
  look_category : SceneCategory;
  look_loop_selection : LoopSelection;
}.

#[global] Instance LightingLook_eq_dec : EqDecision LightingLook.
Proof. solve_decision. Defined.

Definition LightingLook_try_new (theme_id : ThemeId) (theme_name : str)
    (scene_id : SceneId) (scene_name : str) (category : SceneCategory)
    (loop_selection : LoopSelection) : result LightingLook PlanValidationError :=
  if str_is_blank theme_name then Err EmptyThemeName
  else if str_is_blank scene_name then Err EmptySceneName
  else Ok (mkLightingLook theme_id theme_name scene_id scene_name category loop_selection).

Inductive SemanticLightingAction : Type :=
| ApplyLook (look : LightingLook)
| HoldCurrentLook.

Inductive CueOrigin : Type := OriginAutomatic | OriginFallback | OriginUser.

Inductive CueReason : Type :=
| PhraseCategoryMatched (phrase_kind : PhraseKind) (category : SceneCategory)
| MissingPhraseAnalysis
| MissingAutoloopMapping.

#[global] Instance SemanticLightingAction_eq_dec : EqDecision SemanticLightingAction.
Proof. solve_decision. Defined.
#[global] Instance CueOrigin_eq_dec : EqDecision CueOrigin.
Proof. solve_decision. Defined.
#[global] Instance CueReason_eq_dec : EqDecision CueReason.
Proof. solve_decision. Defined.

Record LightingCue := mkLightingCue {
  cue_id : CueId;
  cue_phrase_index : Z;
  cue_start_beat : Z;
  cue_end_beat : Z;
  cue_action : SemanticLightingAction;
  cue_origin : CueOrigin;
  cue_reason : CueReason;
  cue_locked : bool;
}.

#[global] Instance LightingCue_eq_dec : EqDecision LightingCue.
Proof. solve_decision. Defined.

#[global] Instance LightingCue_ranged : Ranged LightingCue := {
  range_index := cue_phrase_index;
  range_start := cue_start_beat;
  range_end := cue_end_beat;
}.

Definition LightingCue_new (id : CueId) (phrase_index start_beat end_beat : Z)
    (action : SemanticLightingAction) (origin : CueOrigin) (reason : CueReason) : LightingCue :=
  mkLightingCue id phrase_index start_beat end_beat action origin reason false.

Definition LightingCue_revised (c : LightingCue) (action : SemanticLightingAction)
    (origin : CueOrigin) (locked : bool) : LightingCue :=
  mkLightingCue (cue_id c) (cue_phrase_index c) (cue_start_beat c) (cue_end_beat c)
    action origin (cue_reason c) locked.

Definition hold_for_missing_autoloop_mapping (c : LightingCue) : LightingCue :=
  mkLightingCue (cue_id c) (cue_phrase_index c) (cue_start_beat c) (cue_end_beat c)
    HoldCurrentLook OriginAutomatic MissingAutoloopMapping false.

Record LightingPlan := mkLightingPlan {
  plan_id : PlanId;
  plan_deck_id : DeckId;
  plan_track_id : TrackId;
  plan_track_duration_beats : Z;
  plan_track_load_id : TrackLoadId;
  plan_revision : PlanRevision;
  plan_configuration_revision : PlanConfigurationRevision;
  plan_seed : Z;
  plan_status : PlanStatus;
  plan_theme_decision : option ThemeDecision;
  plan_cues : list LightingCue;
}.

#[global] Instance LightingPlan_eq_dec : EqDecision LightingPlan.
Proof. solve_decision. Defined.

(** The [for] loop of the constructor over the cues: the set of identifiers seen,
    [previous_end], [contains_fallback] and the position. *)
Fixpoint validate_cues (cue_ids : gset Z) (previous_end : Z) (contains_fallback : bool)
    (expected_index : Z) (cues : list LightingCue) : result (Z * bool) PlanValidationError :=
  match cues with
  | [] => Ok (previous_end, contains_fallback)
  | cue :: rest =>
      if bool_decide (cue_id cue ∈ cue_ids) then Err (DuplicateCueId (cue_id cue))
      else if negb (cue_phrase_index cue =? expected_index) then Err UnorderedPhraseIndex
      else if negb (cue_start_beat cue =? previous_end)
              || (cue_end_beat cue <=? cue_start_beat cue)
      then Err InvalidCueRange
      else validate_cues ({[cue_id cue]} ∪ cue_ids) (cue_end_beat cue)
             (contains_fallback || bool_decide (cue_origin cue = OriginFallback))
             (expected_index + 1) rest
  end.

(** The starting cue contradicts the recorded Theme decision. *)
Definition theme_inconsistent (decision : ThemeDecision) (cues : list LightingCue) : bool :=
  match head cues with
  | Some cue =>
      match cue_action cue with
      | ApplyLook look =>
          negb (look_theme_id look =? td_theme_id decision)
          || negb (bool_decide (look_theme_name look = td_theme_name decision))
      | HoldCurrentLook => true
      end
  | None => false
  end.

Definition LightingPlan_try_new_with_theme_decision
    (id : PlanId) (deck_id : DeckId) (track_id : TrackId) (track_duration_beats : Z)
    (track_load_id : TrackLoadId) (revision : PlanRevision)
    (configuration_revision : PlanConfigurationRevision) (seed : Z) (status : PlanStatus)
    (theme_decision : option ThemeDecision) (cues : list LightingCue) :
    result LightingPlan PlanValidationError :=
  if revision =? 0 then Err ZeroRevision
  else if configuration_revision =? 0 then Err ZeroConfigurationRevision
  else if track_duration_beats =? 0 then Err EmptyTrackDuration
  else if bool_decide (cues = []) then Err EmptyCues
  else
    let? (previous_end, contains_fallback) := validate_cues ∅ 0 false 0 cues in
    let? _ := match status, contains_fallback with
              | PlanReady, true => Err FallbackCueInReadyPlan
              | PlanFallback, false => Err FallbackPlanWithoutFallbackCue
              | _, _ => Ok ()
              end in
    let? _ := match status, theme_decision with
              | PlanReady, None => Err MissingThemeDecision
              | PlanFallback, Some _ => Err ThemeDecisionInFallbackPlan
              | _, _ => Ok ()
              end in
    if match theme_decision with
       | Some decision => theme_inconsistent decision cues
       | None => false
       end
    then Err InconsistentThemeDecision
    else if negb (previous_end =? track_duration_beats) then Err IncompleteCueCoverage
    else Ok (mkLightingPlan id deck_id track_id track_duration_beats track_load_id revision
               configuration_revision seed status theme_decision cues).

(** [cues.iter().find_map(..)]: the Theme of the first look with a usable name. *)
Fixpoint first_theme_decision (cues : list LightingCue) : option ThemeDecision :=
  match cues with
  | [] => None
  | cue :: rest =>
      match match cue_action cue with
            | ApplyLook look =>
                result_ok (ThemeDecision_try_new (look_theme_id look) (look_theme_name look)
                             DefaultTheme None)
            | HoldCurrentLook => None
            end with
      | Some decision => Some decision
      | None => first_theme_decision rest
      end
  end.

Definition LightingPlan_try_new
    (id : PlanId) (deck_id : DeckId) (track_id : TrackId) (track_duration_beats : Z)
    (track_load_id : TrackLoadId) (revision : PlanRevision)
    (configuration_revision : PlanConfigurationRevision) (seed : Z) (status : PlanStatus)
    (cues : list LightingCue) : result LightingPlan PlanValidationError :=
  let theme_decision := first_theme_decision cues in
  LightingPlan_try_new_with_theme_decision id deck_id track_id track_duration_beats
    track_load_id revision configuration_revision seed status theme_decision cues.

Definition with_materialized_cues (p : LightingPlan) (cues : list LightingCue) :
    result LightingPlan PlanValidationError :=
  LightingPlan_try_new_with_theme_decision (plan_id p) (plan_deck_id p) (plan_track_id p)
    (plan_track_duration_beats p) (plan_track_load_id p) (plan_revision p)
    (plan_configuration_revision p) (plan_seed p) (plan_status p)
    (plan_theme_decision p) cues.

Definition revised_with_theme_decision (p : LightingPlan) (cues : list LightingCue)
    (theme_decision : option ThemeDecision) : result LightingPlan PlanValidationError :=
  let? revision := ok_or (PlanRevision_checked_next (plan_revision p)) RevisionOverflow in
  LightingPlan_try_new_with_theme_decision (plan_id p) (plan_deck_id p) (plan_track_id p)
    (plan_track_duration_beats p) (plan_track_load_id p) revision
    (plan_configuration_revision p) (plan_seed p) (plan_status p) theme_decision cues.

Definition LightingPlan_revised (p : LightingPlan) (cues : list LightingCue) :
    result LightingPlan PlanValidationError :=
  revised_with_theme_decision p cues (plan_theme_decision p).

(** ** The plan invariant *)

Definition has_fallback (cues : list LightingCue) : Prop :=
  ∃ c, c ∈ cues ∧ cue_origin c = OriginFallback.

Record plan_wf (p : LightingPlan) : Prop := {
  plan_wf_revision : plan_revision p ≠ 0;
  plan_wf_configuration : plan_configuration_revision p ≠ 0;
  plan_wf_duration : plan_track_duration_beats p ≠ 0;
  plan_wf_nonempty : plan_cues p ≠ [];
  plan_wf_ids : NoDup (cue_id <$> plan_cues p);
  plan_wf_indexed : indexed 0 (plan_cues p);
  plan_wf_tiles : tiles 0 (plan_cues p) (plan_track_duration_beats p);
  plan_wf_fallback : plan_status p = PlanFallback ↔ has_fallback (plan_cues p);
  plan_wf_theme : plan_status p = PlanReady ↔ is_Some (plan_theme_decision p);
  plan_wf_consistent : ∀ d, plan_theme_decision p = Some d →
    theme_inconsistent d (plan_cues p) = false;
}.

Definition cue_is_fallback (c : LightingCue) : bool := bool_decide (cue_origin c = OriginFallback).

Lemma has_fallback_existsb cues : has_fallback cues ↔ existsb cue_is_fallback cues = true.
Proof.
  unfold has_fallback, cue_is_fallback. rewrite existsb_exists.
  setoid_rewrite bool_decide_eq_true. by setoid_rewrite list_elem_of_In.
Qed.

Lemma validate_cues_Ok cues : ∀ ids prev fb n fin b,
  validate_cues ids prev fb n cues = Ok (fin, b) ↔
  NoDup (cue_id <$> cues) ∧ (∀ c, c ∈ cues → cue_id c ∉ ids) ∧
  indexed n cues ∧ tiles prev cues fin ∧ b = fb || existsb cue_is_fallback cues.
Proof.
  induction cues as [|c cues IH]; intros ids prev fb n fin b; simpl.
  - rewrite orb_false_r. split.
    + intros [= <- <-]. repeat split; [constructor|]. by intros ? ?%not_elem_of_nil.
    + naive_solver.
  - case_bool_decide as Hid.
    { split; [done|]. intros (_ & Hn & _). destruct (Hn c); [by left|done]. }
    destruct (Z.eqb_spec (cue_phrase_index c) n); simpl; [|naive_solver].
    destruct (Z.eqb_spec (cue_start_beat c) prev); simpl; [|naive_solver].
    destruct (Z.leb_spec (cue_end_beat c) (cue_start_beat c)); simpl; [naive_solver lia|].
    rewrite IH, NoDup_cons, list_elem_of_fmap, orb_assoc. split.
    + intros (Hnd & Hn & Hi & Ht & ->). repeat split; auto; try lia.
      * intros (c' & Hc' & Hin). apply (Hn c' Hin). set_solver.
      * intros c' [->|Hc']%elem_of_cons; [done|]. specialize (Hn c' Hc'). set_solver.
    + intros ((Hnc & Hnd) & Hn & (_ & Hi) & (_ & _ & Ht) & ->). repeat split; auto.
      intros c' Hc'. rewrite elem_of_union, elem_of_singleton. intros [He|He].
      * apply Hnc. exists c'. auto.
      * by apply (Hn c'); [right|].
Qed.

(** The constructor accepts exactly the well-formed plans. *)
Lemma plan_constructor_iff id deck track dur load rev conf seed status decision cues p :
  LightingPlan_try_new_with_theme_decision id deck track dur load rev conf seed status
    decision cues = Ok p ↔
  p = mkLightingPlan id deck track dur load rev conf seed status decision cues ∧ plan_wf p.
Proof.
  unfold LightingPlan_try_new_with_theme_decision.
  pose proof (has_fallback_existsb cues) as Hfb. split.
  - intros H. repeat (case_match; [done|]). rewrite !Z.eqb_neq in *.
    apply result_bind_Ok in H as ([fin b] & Hv & H).
    apply validate_cues_Ok in Hv as (? & _ & ? & ? & ->). simpl in H.
    apply result_bind_Ok in H as ([] & Hs & H). apply result_bind_Ok in H as ([] & Hd & H).
    destruct (match decision with Some d => theme_inconsistent d cues | None => false end)
      eqn:Hc; [done|].
    destruct (Z.eqb_spec fin dur) as [->|]; [|done]. injection H as <-.
    split; [done|]. rewrite bool_decide_eq_false in *.
    split; simpl; auto.
    + rewrite Hfb. simpl in Hs. destruct (existsb _ _), status; naive_solver.
    + destruct status, decision; simpl in *; naive_solver.
    + intros d ->. done.
  - intros [-> [? ? ? ? ? ? ? Hf Ht Hd]]; simpl in *.
    rewrite !(proj2 (Z.eqb_neq _ _)) by done. rewrite bool_decide_false by done.
    apply result_bind_Ok. eexists (dur, _). split.
    { apply validate_cues_Ok. repeat split; auto. set_solver. }
    simpl. rewrite Z.eqb_refl. apply result_bind_Ok. exists (). split.
    { rewrite Hfb in Hf. destruct (existsb _ _), status; naive_solver. }
    apply result_bind_Ok. exists (). split.
    { destruct status, decision as [d|]; try done.
      - apply proj1 in Ht. destruct Ht; done.
      - apply proj2 in Ht. discriminate Ht. by eexists. }
    destruct decision as [d|]; [by rewrite Hd|done].
Qed.

(** A revision keeps the identity of the plan and takes the next number. *)
Lemma revised_with_theme_decision_Ok p cues d q :
  revised_with_theme_decision p cues d = Ok q ↔
  plan_revision p + 1 ≤ U64_MAX ∧
  q = mkLightingPlan (plan_id p) (plan_deck_id p) (plan_track_id p)
        (plan_track_duration_beats p) (plan_track_load_id p) (plan_revision p + 1)
        (plan_configuration_revision p) (plan_seed p) (plan_status p) d cues ∧
  plan_wf q.
Proof.
  unfold revised_with_theme_decision, PlanRevision_checked_next, checked_add_u64.
  destruct (Z.leb_spec (plan_revision p + 1) U64_MAX); simpl.
  - rewrite plan_constructor_iff. tauto.
  - split; [done|]. lia.
Qed.

Lemma with_materialized_cues_Ok p cues q :
  with_materialized_cues p cues = Ok q ↔
  q = mkLightingPlan (plan_id p) (plan_deck_id p) (plan_track_id p)
        (plan_track_duration_beats p) (plan_track_load_id p) (plan_revision p)
        (plan_configuration_revision p) (plan_seed p) (plan_status p)
        (plan_theme_decision p) cues ∧
  plan_wf q.
Proof. apply plan_constructor_iff. Qed.

(** In a well-formed plan exactly one cue covers each beat of the track, and it
    is found at its own phrase index. *)
Lemma plan_cue_at_beat p beat :
  plan_wf p → 0 ≤ beat < plan_track_duration_beats p →
  ∃ c, List.find (covers beat) (plan_cues p) = Some c ∧
       plan_cues p !! Z.to_nat (cue_phrase_index c) = Some c ∧
       cue_start_beat c ≤ beat < cue_end_beat c.
Proof. intros Hp Hb. exact (tiles_find _ _ _ (plan_wf_tiles _ Hp) (plan_wf_indexed _ Hp) Hb). Qed.

(** ** Claims about plans *)

(** C39: the constructor of plans accepts exactly the well-formed ones: non-zero
    revisions and duration, cues with distinct identifiers that are indexed from
    zero and partition the track, a fallback cue exactly in fallback plans, a
    Theme decision exactly in ready plans and consistent with the first cue. *)
Theorem plan_constructor_spec id deck track dur load rev conf seed status decision cues p :
  LightingPlan_try_new_with_theme_decision id deck track dur load rev conf seed status
    decision cues = Ok p ↔
  p = mkLightingPlan id deck track dur load rev conf seed status decision cues ∧ plan_wf p.
Proof. apply plan_constructor_iff. Qed.

(** At every beat of the track exactly one cue of a plan applies, and it is
    the cue stored at its own phrase index. *)
Theorem plan_beat_has_one_cue p beat :
  plan_wf p → 0 ≤ beat < plan_track_duration_beats p →
  ∃ i c, plan_cues p !! i = Some c ∧ cue_start_beat c ≤ beat < cue_end_beat c ∧
    cue_phrase_index c = Z.of_nat i ∧
    ∀ j c', plan_cues p !! j = Some c' → cue_start_beat c' ≤ beat < cue_end_beat c' → j = i.
Proof.
  intros Hp Hb. destruct (tiles_cover _ _ _ _ (plan_wf_tiles _ Hp) Hb) as (i & c & Hi & Hc).
  exists i, c. split; [done|]. split; [by apply covers_spec in Hc|].
  split; [exact (indexed_lookup _ _ _ _ (plan_wf_indexed _ Hp) Hi)|].
  intros j c' Hj Hc'. eapply (tiles_cover_unique _ _ _ beat _ _ _ _ (plan_wf_tiles _ Hp) Hj Hi);
    [by apply covers_spec|done].
Qed.
