(* ===== verification/Event.v ===== *)
(** * Events, commands and output effects of the domain

    Models [lumi-domain/src/event.rs] and [lumi-domain/src/output.rs]: what
    enters the serialized runtime and what its output worker exchanges. *)

From stdpp Require Import prelude list gmap strings.
From Stdlib Require Import ZArith Lia.
From S2P Require Import Prelude.
From S2P Require Import Track.
From S2P Require Import Plan.
Open Scope Z_scope.

(** ** Output requests and results *)

Record OutputExecutionRequest := mkOutputExecutionRequest {
  req_command_id : OutputCommandId;
  req_plan_id : PlanId;
  req_plan_revision : PlanRevision;
  req_deck_id : DeckId;
  req_track_load_id : TrackLoadId;
  req_phrase_index : Z;
  req_cue_id : CueId;
  req_action : SemanticLightingAction;
  req_cue_reason : CueReason;
  req_scheduled_at : MonotonicTime;
}.

Inductive OutputEffectStatus : Type := StatusSimulated | StatusRejected | StatusSkipped.

Inductive OutputEffectReason : Type :=
| PhraseBoundary | ProviderRejected | StaleExecutionContext | InitialLaunchDeferred.

Record OutputEffectResult := mkOutputEffectResult {
  oer_request : OutputExecutionRequest;
  oer_actual_at : MonotonicTime;
  oer_status : OutputEffectStatus;
  oer_reason : OutputEffectReason;
}.

#[global] Instance OutputExecutionRequest_eq_dec : EqDecision OutputExecutionRequest.
Proof. solve_decision. Defined.
#[global] Instance OutputEffectStatus_eq_dec : EqDecision OutputEffectStatus.
Proof. solve_decision. Defined.
#[global] Instance OutputEffectReason_eq_dec : EqDecision OutputEffectReason.
Proof. solve_decision. Defined.
#[global] Instance OutputEffectResult_eq_dec : EqDecision OutputEffectResult.
Proof. solve_decision. Defined.

(** ** Observations of the deck source *)

Inductive DeckObservation : Type :=
| SourceStatusChanged (status : DeckSourceStatus)
| TrackLoaded (deck_id : DeckId) (metadata : TrackMetadata) (track_load_id : TrackLoadId)
| TrackMetadataHydrated (deck_id : DeckId) (metadata : TrackMetadata)
    (track_load_id : TrackLoadId)
| PlaybackPosition (deck_id : DeckId) (track_load_id : TrackLoadId) (beat : Z)
| PlaybackPositionSeeked (deck_id : DeckId) (track_load_id : TrackLoadId) (beat : Z)
| PlaybackTempoChanged (deck_id : DeckId) (track_load_id : TrackLoadId) (bpm_milli : Z)
| PlaybackStateChanged (deck_id : DeckId) (track_load_id : TrackLoadId) (playing : bool)
| TrackUnloaded (deck_id : DeckId) (track_load_id : TrackLoadId)
| PhraseChanged (deck_id : DeckId) (track_load_id : TrackLoadId) (phrase_index : Z)
| LeaderChanged (deck_id : DeckId) (track_load_id : TrackLoadId).

Record ObservationEnvelope := mkObservationEnvelope {
  obs_source_id : SourceId;
  obs_sequence : SourceSequence;
  obs_observed_at : MonotonicTime;
  obs_observation : DeckObservation;
}.

(** ** User commands *)

Inductive OperationCommand : Type := CmdArm | CmdStart | CmdPause | CmdOff.

#[global] Instance OperationCommand_eq_dec : EqDecision OperationCommand.
Proof. solve_decision. Defined.

Record UserCommandEnvelope := mkUserCommandEnvelope {
  cmd_client_id : ClientId;
  cmd_sequence : CommandSequence;
  cmd_expected_state_revision : StateRevision;
  cmd_issued_at : MonotonicTime;
  cmd_command : OperationCommand;
}.

(** ** Effect results *)

Inductive EffectResult : Type :=
| PlanGenerated (plan : LightingPlan)
| OutputEffectRecorded (result : OutputEffectResult)
| OutputGateClosed.

Record EffectResultEnvelope := mkEffectResultEnvelope {
  eff_effect_id : EffectId;
  eff_worker_id : WorkerId;
  eff_sequence : EffectSequence;
  eff_completed_at : MonotonicTime;
  eff_result : EffectResult;
}.

(** ** Domain events *)

Inductive DomainEventKind : Type :=
| KindRuntimeStarted | KindObservation | KindUserCommand | KindEffectResult
| KindQueueOverloaded.

#[global] Instance DomainEventKind_eq_dec : EqDecision DomainEventKind.
Proof. solve_decision. Defined.

Record QueueOverloadEvent := mkQueueOverloadEvent {
  ovl_occurred_at : MonotonicTime;
  ovl_rejected_kind : DomainEventKind;
  ovl_rejected_critical : bool;
  ovl_occurrences : Z;
}.

Inductive DomainEvent : Type :=
| RuntimeStarted (at_ : MonotonicTime)
| Observation (o : ObservationEnvelope)
| UserCommand (c : UserCommandEnvelope)
| EffectResultEvent (r : EffectResultEnvelope)
| QueueOverloaded (q : QueueOverloadEvent).

Definition DomainEvent_kind (e : DomainEvent) : DomainEventKind :=
  match e with
  | RuntimeStarted _ => KindRuntimeStarted
  | Observation _ => KindObservation
  | UserCommand _ => KindUserCommand
  | EffectResultEvent _ => KindEffectResult
  | QueueOverloaded _ => KindQueueOverloaded
  end.

Definition is_critical (e : DomainEvent) : bool :=
  negb match e with Observation _ => true | _ => false end.

Definition DomainEvent_monotonic_time (e : DomainEvent) : MonotonicTime :=
  match e with
  | RuntimeStarted at_ => at_
  | Observation event => obs_observed_at event
  | UserCommand event => cmd_issued_at event
  | EffectResultEvent event => eff_completed_at event
  | QueueOverloaded event => ovl_occurred_at event
  end.

(** ** Type invariants of the data inside events

    Plans and metadata have private fields and come from their constructors. *)

Definition observation_wf (o : DeckObservation) : Prop :=
  match o with
  | TrackLoaded _ metadata _ | TrackMetadataHydrated _ metadata _ => metadata_wf metadata
  | PlaybackPosition _ _ beat | PlaybackPositionSeeked _ _ beat => in_u32 beat
  | PhraseChanged _ _ phrase_index => in_u16 phrase_index
  | _ => True
  end.

Definition event_wf (e : DomainEvent) : Prop :=
  match e with
  | Observation o => observation_wf (obs_observation o)
  | EffectResultEvent r =>
      match eff_result r with PlanGenerated p => plan_wf p | _ => True end
  | _ => True
  end.
