(* ===== verification/State.v ===== *)
(** * Runtime state of the domain

    Models [lumi-domain/src/state.rs], the decision vocabulary of
    [lumi-domain/src/reducer.rs] and the timeline entries of
    [lumi-domain/src/timeline.rs].  The [BTreeMap]s are finite maps, the bounded
    [VecDeque]s are lists, and the mutations [state.field = v] are the setters
    [set_field]. *)

From stdpp Require Import prelude list gmap strings.
From Stdlib Require Import ZArith Lia.
From S2P Require Import Prelude.
From S2P Require Import Track.
From S2P Require Import Plan.
From S2P Require Import Event.
Open Scope Z_scope.

Definition MAXIMUM_DIAGNOSTICS : nat := 64.
Definition MAXIMUM_OUTPUT_EFFECTS : nat := 256.
Definition MAXIMUM_TIMELINE_ENTRIES : nat := 256.

(** ** Decisions and diagnostics *)

Inductive DecisionReason : Type :=
| DRuntimeInitialized
| DSourceStatusAccepted
| DTrackLoadAccepted
| DTrackMetadataHydrated
| DPositionAdvanced
| DPositionSeeked
| DPlaybackTempoChanged
| DPlaybackStateChanged
| DPhraseChanged
| DLeaderChanged
| DPlanActivated
| DPlanActivationSkipped
| DPhraseExecutionScheduled
| DPhraseExecutionSkipped
| DTrackUnloaded
| DStaleObservationIgnored
| DObservationTimeRegressed
| DTrackLoadMismatch
| DPositionRegressed
| DDuplicateCommandIgnored
| DOperationTransitionAccepted
| DDuplicateEffectIgnored
| DPlanAccepted
| DStalePlanIgnored
| DPlanTrackLoadMismatch
| DOutputGateConfirmedClosed
| DOutputEffectRecorded
| DQueueSaturated.

Inductive DiagnosticSeverity : Type := SevInformation | SevWarning | SevError.

Record Diagnostic := mkDiagnostic {
  diag_sequence : Z;
  diag_severity : DiagnosticSeverity;
  diag_reason : DecisionReason;
  diag_event_kind : DomainEventKind;
  diag_occurred_at : MonotonicTime;
}.

#[global] Instance DecisionReason_eq_dec : EqDecision DecisionReason.
Proof. solve_decision. Defined.

(** ** The visible timeline *)

Inductive TimelineSource : Type :=
| TlRuntime | TlDeckSource | TlOperation | TlPlanner | TlOutput.

Inductive TimelineResult : Type :=
| TlAccepted | TlIgnored | TlScheduled | TlSimulated | TlRejected | TlSkipped | TlCompleted.

Record TimelineEntry := mkTimelineEntry {
  tl_sequence : Z;
  tl_occurred_at : MonotonicTime;
  tl_source : TimelineSource;
  tl_event_type : string;
  tl_result : TimelineResult;
  tl_reason : DecisionReason;
}.

Definition timeline_source (event : DomainEvent) : TimelineSource * string :=
  match event with
  | RuntimeStarted _ => (TlRuntime, "runtimeStarted"%string)
  | Observation observation =>
      (TlDeckSource,
        match obs_observation observation with
        | SourceStatusChanged _ => "sourceStatusChanged"
        | TrackLoaded _ _ _ => "trackLoaded"
        | TrackMetadataHydrated _ _ _ => "trackMetadataHydrated"
        | PlaybackPosition _ _ _ => "playbackPosition"
        | PlaybackPositionSeeked _ _ _ => "playbackPositionSeeked"
        | PlaybackTempoChanged _ _ _ => "playbackTempoChanged"
        | PlaybackStateChanged _ _ _ => "playbackStateChanged"
        | TrackUnloaded _ _ => "trackUnloaded"
        | PhraseChanged _ _ _ => "phraseChanged"
        | LeaderChanged _ _ => "leaderChanged"
        end%string)
  | UserCommand command =>
      (TlOperation,
        match cmd_command command with
        | CmdArm => "arm" | CmdStart => "start" | CmdPause => "pause" | CmdOff => "off"
        end%string)
  | EffectResultEvent effect =>
      match eff_result effect with
      | PlanGenerated _ => (TlPlanner, "planGenerated"%string)
      | OutputEffectRecorded _ => (TlOutput, "outputEffectRecorded"%string)
      | OutputGateClosed => (TlOutput, "outputGateClosed"%string)
      end
  | QueueOverloaded _ => (TlRuntime, "queueOverloaded"%string)
  end.

Definition timeline_result (event : DomainEvent) (reason : DecisionReason) : TimelineResult :=
  match event with
  | EffectResultEvent effect =>
      match eff_result effect with
      | OutputEffectRecorded output =>
          match oer_status output with
          | StatusSimulated => TlSimulated
          | StatusRejected => TlRejected
          | StatusSkipped => TlSkipped
          end
      | OutputGateClosed => TlCompleted
      | PlanGenerated _ => TlAccepted
      end
  | _ =>
      match reason with
      | DPhraseExecutionScheduled => TlScheduled
      | DStaleObservationIgnored | DObservationTimeRegressed | DTrackLoadMismatch
      | DPositionRegressed | DDuplicateCommandIgnored | DDuplicateEffectIgnored
      | DStalePlanIgnored | DPlanTrackLoadMismatch | DPlanActivationSkipped
      | DPhraseExecutionSkipped => TlIgnored
      | _ => TlAccepted
      end
  end.

Definition TimelineEntry_from_event (sequence : Z) (event : DomainEvent)
    (reason : DecisionReason) : TimelineEntry :=
  let '(source, event_type) := timeline_source event in
  mkTimelineEntry sequence (DomainEvent_monotonic_time event) source event_type
    (timeline_result event reason) reason.

(** ** Operation, health and decks *)

Inductive OperationState : Type := OpOff | OpArmed | OpLive | OpPaused.

#[global] Instance OperationState_eq_dec : EqDecision OperationState.
Proof. solve_decision. Defined.

Definition allows_output (o : OperationState) : bool :=
  match o with OpLive => true | _ => false end.

Inductive RuntimeHealth : Type := HealthStarting | HealthReady | HealthDegraded.

#[global] Instance RuntimeHealth_eq_dec : EqDecision RuntimeHealth.
Proof. solve_decision. Defined.

Record DeckState := mkDeckState {
  deck_metadata : TrackMetadata;
  deck_track_load_id : TrackLoadId;
  deck_beat : Z;
  deck_effective_bpm_milli : Z;
  deck_playing : bool;
  deck_phrase_index : option Z;
  deck_last_observed_at : MonotonicTime;
}.

Definition deck_track_id (d : DeckState) : TrackId := tm_id (deck_metadata d).

(** The identity under which a cue was last scheduled: deck, track load, phrase
    index, cue and plan revision. *)
Definition CueIdentity : Type := (DeckId * TrackLoadId * Z * CueId * PlanRevision)%type.

#[global] Instance CueIdentity_eq_dec : EqDecision CueIdentity := _.

Definition identity_deck (i : CueIdentity) : DeckId :=
  match i with (((((deck, _), _), _), _)) => deck end.

Definition identity_load (i : CueIdentity) : TrackLoadId :=
  match i with (((((_, load), _), _), _)) => load end.

Record RuntimeState := mkRuntimeState {
  rs_revision : StateRevision;
  rs_operation : OperationState;
  rs_health : RuntimeHealth;
  rs_decks : gmap Z DeckState;
  rs_plans : gmap Z LightingPlan;
  rs_source_statuses : gmap Z DeckSourceStatus;
  rs_leader_deck : option DeckId;
  rs_active_plan : option LightingPlan;
  rs_output_command_sequence : Z;
  rs_last_scheduled_cue : option CueIdentity;
  rs_output_effects : list OutputEffectResult;
  rs_source_sequences : gmap Z SourceSequence;
  rs_source_times : gmap Z MonotonicTime;
  rs_command_sequences : gmap Z CommandSequence;
  rs_effect_sequences : gmap Z EffectSequence;
  rs_processed_events : Z;
  rs_last_decision : option DecisionReason;
  rs_diagnostics : list Diagnostic;
  rs_timeline : list TimelineEntry;
}.

(** The setters, one per field. *)

Definition set_revision (v : StateRevision) (s : RuntimeState) : RuntimeState :=
  mkRuntimeState v (rs_operation s) (rs_health s) (rs_decks s) (rs_plans s)
    (rs_source_statuses s) (rs_leader_deck s) (rs_active_plan s)
    (rs_output_command_sequence s) (rs_last_scheduled_cue s) (rs_output_effects s)
    (rs_source_sequences s) (rs_source_times s) (rs_command_sequences s)
    (rs_effect_sequences s) (rs_processed_events s) (rs_last_decision s) (rs_diagnostics
    s) (rs_timeline s).
Definition set_operation (v : OperationState) (s : RuntimeState) : RuntimeState :=
  mkRuntimeState (rs_revision s) v (rs_health s) (rs_decks s) (rs_plans s)
    (rs_source_statuses s) (rs_leader_deck s) (rs_active_plan s)
    (rs_output_command_sequence s) (rs_last_scheduled_cue s) (rs_output_effects s)
    (rs_source_sequences s) (rs_source_times s) (rs_command_sequences s)
    (rs_effect_sequences s) (rs_processed_events s) (rs_last_decision s) (rs_diagnostics
    s) (rs_timeline s).
Definition set_health (v : RuntimeHealth) (s : RuntimeState) : RuntimeState :=
  mkRuntimeState (rs_revision s) (rs_operation s) v (rs_decks s) (rs_plans s)
    (rs_source_statuses s) (rs_leader_deck s) (rs_active_plan s)
    (rs_output_command_sequence s) (rs_last_scheduled_cue s) (rs_output_effects s)
    (rs_source_sequences s) (rs_source_times s) (rs_command_sequences s)
    (rs_effect_sequences s) (rs_processed_events s) (rs_last_decision s) (rs_diagnostics
    s) (rs_timeline s).
Definition set_decks (v : gmap Z DeckState) (s : RuntimeState) : RuntimeState :=
  mkRuntimeState (rs_revision s) (rs_operation s) (rs_health s) v (rs_plans s)
    (rs_source_statuses s) (rs_leader_deck s) (rs_active_plan s)
    (rs_output_command_sequence s) (rs_last_scheduled_cue s) (rs_output_effects s)
    (rs_source_sequences s) (rs_source_times s) (rs_command_sequences s)
    (rs_effect_sequences s) (rs_processed_events s) (rs_last_decision s) (rs_diagnostics
    s) (rs_timeline s).
Definition set_plans (v : gmap Z LightingPlan) (s : RuntimeState) : RuntimeState :=
  mkRuntimeState (rs_revision s) (rs_operation s) (rs_health s) (rs_decks s) v
    (rs_source_statuses s) (rs_leader_deck s) (rs_active_plan s)
    (rs_output_command_sequence s) (rs_last_scheduled_cue s) (rs_output_effects s)
    (rs_source_sequences s) (rs_source_times s) (rs_command_sequences s)
    (rs_effect_sequences s) (rs_processed_events s) (rs_last_decision s) (rs_diagnostics
    s) (rs_timeline s).
Definition set_source_statuses (v : gmap Z DeckSourceStatus) (s : RuntimeState) : RuntimeState :=
  mkRuntimeState (rs_revision s) (rs_operation s) (rs_health s) (rs_decks s) (rs_plans s)
    v (rs_leader_deck s) (rs_active_plan s) (rs_output_command_sequence s)
    (rs_last_scheduled_cue s) (rs_output_effects s) (rs_source_sequences s)
    (rs_source_times s) (rs_command_sequences s) (rs_effect_sequences s)
    (rs_processed_events s) (rs_last_decision s) (rs_diagnostics s) (rs_timeline s).
Definition set_leader_deck (v : option DeckId) (s : RuntimeState) : RuntimeState :=
  mkRuntimeState (rs_revision s) (rs_operation s) (rs_health s) (rs_decks s) (rs_plans s)
    (rs_source_statuses s) v (rs_active_plan s) (rs_output_command_sequence s)
    (rs_last_scheduled_cue s) (rs_output_effects s) (rs_source_sequences s)
    (rs_source_times s) (rs_command_sequences s) (rs_effect_sequences s)
    (rs_processed_events s) (rs_last_decision s) (rs_diagnostics s) (rs_timeline s).
Definition set_active_plan (v : option LightingPlan) (s : RuntimeState) : RuntimeState :=
  mkRuntimeState (rs_revision s) (rs_operation s) (rs_health s) (rs_decks s) (rs_plans s)
    (rs_source_statuses s) (rs_leader_deck s) v (rs_output_command_sequence s)
    (rs_last_scheduled_cue s) (rs_output_effects s) (rs_source_sequences s)
    (rs_source_times s) (rs_command_sequences s) (rs_effect_sequences s)
    (rs_processed_events s) (rs_last_decision s) (rs_diagnostics s) (rs_timeline s).
Definition set_output_command_sequence (v : Z) (s : RuntimeState) : RuntimeState :=
  mkRuntimeState (rs_revision s) (rs_operation s) (rs_health s) (rs_decks s) (rs_plans s)
    (rs_source_statuses s) (rs_leader_deck s) (rs_active_plan s) v (rs_last_scheduled_cue
    s) (rs_output_effects s) (rs_source_sequences s) (rs_source_times s)
    (rs_command_sequences s) (rs_effect_sequences s) (rs_processed_events s)
    (rs_last_decision s) (rs_diagnostics s) (rs_timeline s).
Definition set_last_scheduled_cue (v : option CueIdentity) (s : RuntimeState) : RuntimeState :=
  mkRuntimeState (rs_revision s) (rs_operation s) (rs_health s) (rs_decks s) (rs_plans s)
    (rs_source_statuses s) (rs_leader_deck s) (rs_active_plan s)
    (rs_output_command_sequence s) v (rs_output_effects s) (rs_source_sequences s)
    (rs_source_times s) (rs_command_sequences s) (rs_effect_sequences s)
    (rs_processed_events s) (rs_last_decision s) (rs_diagnostics s) (rs_timeline s).
Definition set_output_effects (v : list OutputEffectResult) (s : RuntimeState) : RuntimeState :=
  mkRuntimeState (rs_revision s) (rs_operation s) (rs_health s) (rs_decks s) (rs_plans s)
    (rs_source_statuses s) (rs_leader_deck s) (rs_active_plan s)
    (rs_output_command_sequence s) (rs_last_scheduled_cue s) v (rs_source_sequences s)
    (rs_source_times s) (rs_command_sequences s) (rs_effect_sequences s)
    (rs_processed_events s) (rs_last_decision s) (rs_diagnostics s) (rs_timeline s).
Definition set_source_sequences (v : gmap Z SourceSequence) (s : RuntimeState) : RuntimeState :=
  mkRuntimeState (rs_revision s) (rs_operation s) (rs_health s) (rs_decks s) (rs_plans s)
    (rs_source_statuses s) (rs_leader_deck s) (rs_active_plan s)
    (rs_output_command_sequence s) (rs_last_scheduled_cue s) (rs_output_effects s) v
    (rs_source_times s) (rs_command_sequences s) (rs_effect_sequences s)
    (rs_processed_events s) (rs_last_decision s) (rs_diagnostics s) (rs_timeline s).
Definition set_source_times (v : gmap Z MonotonicTime) (s : RuntimeState) : RuntimeState :=
  mkRuntimeState (rs_revision s) (rs_operation s) (rs_health s) (rs_decks s) (rs_plans s)
    (rs_source_statuses s) (rs_leader_deck s) (rs_active_plan s)
    (rs_output_command_sequence s) (rs_last_scheduled_cue s) (rs_output_effects s)
    (rs_source_sequences s) v (rs_command_sequences s) (rs_effect_sequences s)
    (rs_processed_events s) (rs_last_decision s) (rs_diagnostics s) (rs_timeline s).
Definition set_command_sequences (v : gmap Z CommandSequence) (s : RuntimeState) : RuntimeState :=
  mkRuntimeState (rs_revision s) (rs_operation s) (rs_health s) (rs_decks s) (rs_plans s)
    (rs_source_statuses s) (rs_leader_deck s) (rs_active_plan s)
    (rs_output_command_sequence s) (rs_last_scheduled_cue s) (rs_output_effects s)
    (rs_source_sequences s) (rs_source_times s) v (rs_effect_sequences s)
    (rs_processed_events s) (rs_last_decision s) (rs_diagnostics s) (rs_timeline s).
Definition set_effect_sequences (v : gmap Z EffectSequence) (s : RuntimeState) : RuntimeState :=
  mkRuntimeState (rs_revision s) (rs_operation s) (rs_health s) (rs_decks s) (rs_plans s)
    (rs_source_statuses s) (rs_leader_deck s) (rs_active_plan s)
    (rs_output_command_sequence s) (rs_last_scheduled_cue s) (rs_output_effects s)
    (rs_source_sequences s) (rs_source_times s) (rs_command_sequences s) v
    (rs_processed_events s) (rs_last_decision s) (rs_diagnostics s) (rs_timeline s).
Definition set_processed_events (v : Z) (s : RuntimeState) : RuntimeState :=
  mkRuntimeState (rs_revision s) (rs_operation s) (rs_health s) (rs_decks s) (rs_plans s)
    (rs_source_statuses s) (rs_leader_deck s) (rs_active_plan s)
    (rs_output_command_sequence s) (rs_last_scheduled_cue s) (rs_output_effects s)
    (rs_source_sequences s) (rs_source_times s) (rs_command_sequences s)
    (rs_effect_sequences s) v (rs_last_decision s) (rs_diagnostics s) (rs_timeline s).
Definition set_last_decision (v : option DecisionReason) (s : RuntimeState) : RuntimeState :=
  mkRuntimeState (rs_revision s) (rs_operation s) (rs_health s) (rs_decks s) (rs_plans s)
    (rs_source_statuses s) (rs_leader_deck s) (rs_active_plan s)
    (rs_output_command_sequence s) (rs_last_scheduled_cue s) (rs_output_effects s)
    (rs_source_sequences s) (rs_source_times s) (rs_command_sequences s)
    (rs_effect_sequences s) (rs_processed_events s) v (rs_diagnostics s) (rs_timeline s).
Definition set_diagnostics (v : list Diagnostic) (s : RuntimeState) : RuntimeState :=
  mkRuntimeState (rs_revision s) (rs_operation s) (rs_health s) (rs_decks s) (rs_plans s)
    (rs_source_statuses s) (rs_leader_deck s) (rs_active_plan s)
    (rs_output_command_sequence s) (rs_last_scheduled_cue s) (rs_output_effects s)
    (rs_source_sequences s) (rs_source_times s) (rs_command_sequences s)
    (rs_effect_sequences s) (rs_processed_events s) (rs_last_decision s) v (rs_timeline
    s).
Definition set_timeline (v : list TimelineEntry) (s : RuntimeState) : RuntimeState :=
  mkRuntimeState (rs_revision s) (rs_operation s) (rs_health s) (rs_decks s) (rs_plans s)
    (rs_source_statuses s) (rs_leader_deck s) (rs_active_plan s)
    (rs_output_command_sequence s) (rs_last_scheduled_cue s) (rs_output_effects s)
    (rs_source_sequences s) (rs_source_times s) (rs_command_sequences s)
    (rs_effect_sequences s) (rs_processed_events s) (rs_last_decision s) (rs_diagnostics
    s) v.

Definition RuntimeState_default : RuntimeState :=
  mkRuntimeState StateRevision_initial OpOff HealthStarting ∅ ∅ ∅ None None 0 None []
    ∅ ∅ ∅ ∅ 0 None [] [].

(** [if self.last_scheduled_cue.is_some_and(|scheduled| scheduled.0 == deck_id)
    { self.last_scheduled_cue = None; }] *)
Definition forget_scheduled_cue (deck_id : DeckId) (s : RuntimeState) : RuntimeState :=
  if match rs_last_scheduled_cue s with
     | Some scheduled => identity_deck scheduled =? deck_id
     | None => false
     end
  then set_last_scheduled_cue None s else s.

(** [if self.active_plan.as_ref().is_some_and(|plan| plan.deck_id() == deck_id)
    { self.active_plan = None; }] *)
Definition forget_active_plan (deck_id : DeckId) (s : RuntimeState) : RuntimeState :=
  if match rs_active_plan s with
     | Some plan => plan_deck_id plan =? deck_id
     | None => false
     end
  then set_active_plan None s else s.

Definition load_track (deck_id : DeckId) (metadata : TrackMetadata)
    (track_load_id : TrackLoadId) (observed_at : MonotonicTime) (s : RuntimeState) :
    RuntimeState :=
  let effective_bpm_milli := tm_bpm_milli metadata in
  let s := set_decks
             (<[deck_id := mkDeckState metadata track_load_id 0 effective_bpm_milli false None
                             observed_at]> (rs_decks s)) s in
  let s := set_plans (delete deck_id (rs_plans s)) s in
  let s := forget_scheduled_cue deck_id s in
  forget_active_plan deck_id s.

Definition push_diagnostic (d : Diagnostic) (s : RuntimeState) : RuntimeState :=
  set_diagnostics (push_bounded MAXIMUM_DIAGNOSTICS (rs_diagnostics s) d) s.

Definition push_output_effect (r : OutputEffectResult) (s : RuntimeState) : RuntimeState :=
  set_output_effects (push_bounded MAXIMUM_OUTPUT_EFFECTS (rs_output_effects s) r) s.

Definition push_timeline (e : TimelineEntry) (s : RuntimeState) : RuntimeState :=
  set_timeline (push_bounded MAXIMUM_TIMELINE_ENTRIES (rs_timeline s) e) s.
