(* ===== verification/Reducer.v ===== *)
(** * The deterministic reducer

    Models [lumi-domain/src/reducer.rs].  [reduce] clones the state and mutates
    the clone; an error discards it.  Here every handler takes the state and
    returns the new one with its decision and effects, or an error.  The arms of
    the [match] in [reduce_observation] are one definition each. *)

From stdpp Require Import prelude list gmap strings.
From Stdlib Require Import ZArith Lia.
From S2P Require Import Prelude.
From S2P Require Import Track.
From S2P Require Import Plan.
From S2P Require Import Event.
From S2P Require Import State.
Open Scope Z_scope.

Inductive ReducerError : Type :=
| RuntimeAlreadyStarted
| RevisionConflict (expected actual : StateRevision)
| InvalidOperationTransition (from : OperationState) (command : OperationCommand)
| PlanRevisionGap (expected actual : PlanRevision)
| StateRevisionOverflow
| PlanRevisionOverflow
| OutputCommandSequenceOverflow
| ProcessedEventOverflow.

Inductive Effect : Type :=
| EnsureOutputClosed (reason : DecisionReason)
| ExecuteCue (request : OutputExecutionRequest).

Record Reduction := mkReduction {
  red_state : RuntimeState;
  red_decision : DecisionReason;
  red_effects : list Effect;
  red_state_changed : bool;
}.

(** What a handler returns: the mutated state, the decision, the effects and
    whether the state revision advances. *)
Notation handled := (result (RuntimeState * DecisionReason * list Effect * bool) ReducerError).

(** What an arm of [reduce_observation] returns: state, decision, effects. *)
Notation observed := (result (RuntimeState * DecisionReason * list Effect) ReducerError).

Definition phrase_index_at_beat (metadata : TrackMetadata) (beat : Z) : option Z :=
  match List.find (λ phrase, (tp_start_beat phrase <=? beat) && (beat <? tp_end_beat phrase))
          (tm_phrases metadata) with
  | Some phrase => Some (tp_index phrase)
  | None => None
  end.

(** ** Scheduling one cue *)

Definition execution_effect (s : RuntimeState) (deck_id : DeckId)
    (track_load_id : TrackLoadId) (phrase_index : Z) (scheduled_at : MonotonicTime) :
    result (RuntimeState * option Effect) ReducerError :=
  if negb (bool_decide (rs_leader_deck s = Some deck_id)) then Ok (s, None)
  else match rs_active_plan s with
  | None => Ok (s, None)
  | Some plan =>
      if negb (plan_deck_id plan =? deck_id) || negb (plan_track_load_id plan =? track_load_id)
      then Ok (s, None)
      else match plan_cues plan !! Z.to_nat phrase_index with
      | None => Ok (s, None)
      | Some cue =>
          if negb (cue_phrase_index cue =? phrase_index) then Ok (s, None)
          else
            let execution_identity : CueIdentity :=
              (deck_id, track_load_id, phrase_index, cue_id cue, plan_revision plan) in
            if bool_decide (rs_last_scheduled_cue s = Some execution_identity) then Ok (s, None)
            else
              let? command_sequence :=
                ok_or (checked_add_u64 (rs_output_command_sequence s) 1)
                  OutputCommandSequenceOverflow in
              let request :=
                mkOutputExecutionRequest command_sequence (plan_id plan) (plan_revision plan)
                  deck_id track_load_id phrase_index (cue_id cue) (cue_action cue)
                  (cue_reason cue) scheduled_at in
              let s := set_output_command_sequence command_sequence s in
              let s := set_last_scheduled_cue (Some execution_identity) s in
              Ok (s, Some (ExecuteCue request))
      end
  end.

(** [if let Some(effect) = execution_effect(..)? { effects.push(effect);
    PhraseExecutionScheduled } else { otherwise }] *)
Definition schedule_or (s : RuntimeState) (deck_id : DeckId) (track_load_id : TrackLoadId)
    (phrase_index : Z) (at_ : MonotonicTime) (otherwise : DecisionReason) : observed :=
  let? (s, effect) := execution_effect s deck_id track_load_id phrase_index at_ in
  match effect with
  | Some effect => Ok (s, DPhraseExecutionScheduled, [effect])
  | None => Ok (s, otherwise, [])
  end.

(** ** Observations, one definition per arm *)

Definition observe_hydrated (s : RuntimeState) (deck_id : DeckId) (metadata : TrackMetadata)
    (track_load_id : TrackLoadId) : observed :=
  match rs_decks s !! deck_id with
  | Some deck =>
      if deck_track_load_id deck =? track_load_id then
        let deck := mkDeckState metadata (deck_track_load_id deck) (deck_beat deck)
                      (deck_effective_bpm_milli deck) (deck_playing deck)
                      (phrase_index_at_beat metadata (deck_beat deck))
                      (deck_last_observed_at deck) in
        Ok (set_decks (<[deck_id := deck]> (rs_decks s)) s, DTrackMetadataHydrated, [])
      else Ok (s, DTrackLoadMismatch, [])
  | None => Ok (s, DTrackLoadMismatch, [])
  end.

Definition observe_position (s : RuntimeState) (deck_id : DeckId)
    (track_load_id : TrackLoadId) (beat : Z) (observed_at : MonotonicTime) : observed :=
  match rs_decks s !! deck_id with
  | Some deck =>
      if negb (deck_track_load_id deck =? track_load_id) then Ok (s, DTrackLoadMismatch, [])
      else if beat <? deck_beat deck then Ok (s, DPositionRegressed, [])
      else
        let deck := mkDeckState (deck_metadata deck) (deck_track_load_id deck) beat
                      (deck_effective_bpm_milli deck) (deck_playing deck)
                      (deck_phrase_index deck) observed_at in
        Ok (set_decks (<[deck_id := deck]> (rs_decks s)) s, DPositionAdvanced, [])
  | None => Ok (s, DTrackLoadMismatch, [])
  end.

Definition observe_seeked (s : RuntimeState) (deck_id : DeckId)
    (track_load_id : TrackLoadId) (beat : Z) (observed_at : MonotonicTime) : observed :=
  match rs_decks s !! deck_id with
  | Some deck =>
      if negb (deck_track_load_id deck =? track_load_id) then Ok (s, DTrackLoadMismatch, [])
      else
        let phrase_index := phrase_index_at_beat (deck_metadata deck) beat in
        let deck := mkDeckState (deck_metadata deck) (deck_track_load_id deck) beat
                      (deck_effective_bpm_milli deck) (deck_playing deck)
                      phrase_index observed_at in
        let s := set_decks (<[deck_id := deck]> (rs_decks s)) s in
        let s := forget_scheduled_cue deck_id s in
        if bool_decide (rs_operation s = OpLive)
           && bool_decide (rs_leader_deck s = Some deck_id)
           && deck_playing deck
        then match phrase_index with
             | Some phrase_index =>
                 schedule_or s deck_id track_load_id phrase_index observed_at DPositionSeeked
             | None => Ok (s, DPositionSeeked, [])
             end
        else Ok (s, DPositionSeeked, [])
  | None => Ok (s, DTrackLoadMismatch, [])
  end.

Definition observe_tempo (s : RuntimeState) (deck_id : DeckId)
    (track_load_id : TrackLoadId) (bpm_milli : Z) (observed_at : MonotonicTime) : observed :=
  match rs_decks s !! deck_id with
  | Some deck =>
      if (deck_track_load_id deck =? track_load_id)
         && ((20000 <=? bpm_milli) && (bpm_milli <=? 300000))
      then
        let deck := mkDeckState (deck_metadata deck) (deck_track_load_id deck) (deck_beat deck)
                      bpm_milli (deck_playing deck) (deck_phrase_index deck) observed_at in
        Ok (set_decks (<[deck_id := deck]> (rs_decks s)) s, DPlaybackTempoChanged, [])
      else Ok (s, DTrackLoadMismatch, [])
  | None => Ok (s, DTrackLoadMismatch, [])
  end.

Definition observe_playback (s : RuntimeState) (deck_id : DeckId)
    (track_load_id : TrackLoadId) (playing : bool) (observed_at : MonotonicTime) : observed :=
  match rs_decks s !! deck_id with
  | Some deck =>
      if deck_track_load_id deck =? track_load_id then
        let started := negb (deck_playing deck) && playing in
        let deck := mkDeckState (deck_metadata deck) (deck_track_load_id deck) (deck_beat deck)
                      (deck_effective_bpm_milli deck) playing (deck_phrase_index deck)
                      observed_at in
        let s := set_decks (<[deck_id := deck]> (rs_decks s)) s in
        if negb playing then
          Ok (forget_scheduled_cue deck_id s, DPlaybackStateChanged, [])
        else match started, deck_phrase_index deck with
        | true, Some phrase_index =>
            if bool_decide (rs_operation s = OpLive) then
              schedule_or s deck_id track_load_id phrase_index observed_at DPlaybackStateChanged
            else Ok (s, DPlaybackStateChanged, [])
        | _, _ => Ok (s, DPlaybackStateChanged, [])
        end
      else Ok (s, DTrackLoadMismatch, [])
  | None => Ok (s, DTrackLoadMismatch, [])
  end.

Definition observe_unloaded (s : RuntimeState) (deck_id : DeckId)
    (track_load_id : TrackLoadId) : observed :=
  match rs_decks s !! deck_id with
  | Some deck =>
      if deck_track_load_id deck =? track_load_id then
        let s := set_decks (delete deck_id (rs_decks s)) s in
        let s := set_plans (delete deck_id (rs_plans s)) s in
        let s := if bool_decide (rs_leader_deck s = Some deck_id)
                 then set_leader_deck None s else s in
        let s := forget_active_plan deck_id s in
        let s := forget_scheduled_cue deck_id s in
        Ok (s, DTrackUnloaded, [])
      else Ok (s, DTrackLoadMismatch, [])
  | None => Ok (s, DTrackLoadMismatch, [])
  end.

Definition observe_phrase (s : RuntimeState) (deck_id : DeckId)
    (track_load_id : TrackLoadId) (phrase_index : Z) (observed_at : MonotonicTime) : observed :=
  match rs_decks s !! deck_id with
  | Some deck =>
      if (deck_track_load_id deck =? track_load_id)
         && bool_decide (is_Some (TrackMetadata_phrase (deck_metadata deck) phrase_index))
      then
        let deck := mkDeckState (deck_metadata deck) (deck_track_load_id deck) (deck_beat deck)
                      (deck_effective_bpm_milli deck) (deck_playing deck)
                      (Some phrase_index) observed_at in
        let s := set_decks (<[deck_id := deck]> (rs_decks s)) s in
        if negb (bool_decide (rs_operation s = OpLive))
           || negb match rs_decks s !! deck_id with
                   | Some deck => deck_playing deck
                   | None => false
                   end
        then Ok (s, DPhraseChanged, [])
        else schedule_or s deck_id track_load_id phrase_index observed_at DPhraseExecutionSkipped
      else Ok (s, DTrackLoadMismatch, [])
  | None => Ok (s, DTrackLoadMismatch, [])
  end.

(** The plan a deck that becomes leader activates. *)
Definition activatable_plan (s : RuntimeState) (deck_id : DeckId) (track_load_id : TrackLoadId)
    (track_id : TrackId) : option LightingPlan :=
  match rs_plans s !! deck_id with
  | Some plan =>
      if bool_decide (plan_status plan = PlanReady)
         && (plan_track_load_id plan =? track_load_id)
         && (plan_track_id plan =? track_id)
      then Some plan else None
  | None => None
  end.

Definition observe_leader (s : RuntimeState) (deck_id : DeckId)
    (track_load_id : TrackLoadId) (observed_at : MonotonicTime) : observed :=
  let accepted :=
    match rs_decks s !! deck_id with
    | Some deck => if deck_track_load_id deck =? track_load_id then Some deck else None
    | None => None
    end in
  match accepted with
  | Some deck =>
      let s := set_leader_deck (Some deck_id) s in
      let s := set_active_plan
                 (activatable_plan s deck_id track_load_id (deck_track_id deck)) s in
      match rs_active_plan s with
      | Some _ =>
          if bool_decide (rs_operation s = OpLive) && deck_playing deck then
            match deck_phrase_index deck with
            | Some phrase_index =>
                schedule_or s deck_id track_load_id phrase_index observed_at DPlanActivated
            | None => Ok (s, DPlanActivated, [])
            end
          else Ok (s, DPlanActivated, [])
      | None => Ok (s, DPlanActivationSkipped, [])
      end
  | None => Ok (set_active_plan None s, DTrackLoadMismatch, [])
  end.

Definition dispatch_observation (s : RuntimeState) (event : ObservationEnvelope) : observed :=
  match obs_observation event with
  | SourceStatusChanged status =>
      Ok (set_source_statuses (<[obs_source_id event := status]> (rs_source_statuses s)) s,
          DSourceStatusAccepted, [])
  | TrackLoaded deck_id metadata track_load_id =>
      Ok (load_track deck_id metadata track_load_id (obs_observed_at event) s,
          DTrackLoadAccepted, [])
  | TrackMetadataHydrated deck_id metadata track_load_id =>
      observe_hydrated s deck_id metadata track_load_id
  | PlaybackPosition deck_id track_load_id beat =>
      observe_position s deck_id track_load_id beat (obs_observed_at event)
  | PlaybackPositionSeeked deck_id track_load_id beat =>
      observe_seeked s deck_id track_load_id beat (obs_observed_at event)
  | PlaybackTempoChanged deck_id track_load_id bpm_milli =>
      observe_tempo s deck_id track_load_id bpm_milli (obs_observed_at event)
  | PlaybackStateChanged deck_id track_load_id playing =>
      observe_playback s deck_id track_load_id playing (obs_observed_at event)
  | TrackUnloaded deck_id track_load_id => observe_unloaded s deck_id track_load_id
  | PhraseChanged deck_id track_load_id phrase_index =>
      observe_phrase s deck_id track_load_id phrase_index (obs_observed_at event)
  | LeaderChanged deck_id track_load_id =>
      observe_leader s deck_id track_load_id (obs_observed_at event)
  end.

(** The [matches!] that ends [reduce_observation]. *)
Definition observation_state_changed (decision : DecisionReason) : bool :=
  match decision with
  | DSourceStatusAccepted | DTrackLoadAccepted | DPositionAdvanced | DPositionSeeked
  | DPlaybackTempoChanged | DPlaybackStateChanged | DTrackUnloaded | DPhraseChanged
  | DPlanActivated | DPlanActivationSkipped | DPhraseExecutionScheduled
  | DPhraseExecutionSkipped => true
  | _ => false
  end.

(** [map.get(key).is_some_and(|last| sequence <= *last)] *)
Definition sequence_stale (seen : gmap Z Z) (key sequence : Z) : bool :=
  match seen !! key with Some last => sequence <=? last | None => false end.

(** [map.get(key).is_some_and(|last| observed_at < *last)] *)
Definition time_regressed (seen : gmap Z Z) (key at_ : Z) : bool :=
  match seen !! key with Some last => at_ <? last | None => false end.

Definition reduce_observation (s : RuntimeState) (event : ObservationEnvelope) : handled :=
  if sequence_stale (rs_source_sequences s) (obs_source_id event) (obs_sequence event)
  then Ok (s, DStaleObservationIgnored, [], false)
  else
    let s := set_source_sequences
               (<[obs_source_id event := obs_sequence event]> (rs_source_sequences s)) s in
    if time_regressed (rs_source_times s) (obs_source_id event) (obs_observed_at event)
    then Ok (s, DObservationTimeRegressed, [], false)
    else
      let s := set_source_times
                 (<[obs_source_id event := obs_observed_at event]> (rs_source_times s)) s in
      let? (s, decision, effects) := dispatch_observation s event in
      Ok (s, decision, effects, observation_state_changed decision).

(** ** Operation commands *)

Definition operation_target (operation : OperationState) (command : OperationCommand) :
    option OperationState :=
  match command, operation with
  | CmdArm, OpOff => Some OpArmed
  | CmdStart, (OpArmed | OpPaused) => Some OpLive
  | CmdPause, OpLive => Some OpPaused
  | CmdOff, _ => Some OpOff
  | _, _ => None
  end.

(** The phrase the leader deck is playing, if any. *)
Definition current_execution (s : RuntimeState) : option (DeckId * TrackLoadId * Z) :=
  match rs_leader_deck s with
  | Some deck_id =>
      match rs_decks s !! deck_id with
      | Some deck =>
          match deck_phrase_index deck with
          | Some phrase_index =>
              if deck_playing deck
              then Some (deck_id, deck_track_load_id deck, phrase_index) else None
          | None => None
          end
      | None => None
      end
  | None => None
  end.

Definition reduce_command (s : RuntimeState) (event : UserCommandEnvelope) : handled :=
  if sequence_stale (rs_command_sequences s) (cmd_client_id event) (cmd_sequence event)
  then Ok (s, DDuplicateCommandIgnored, [], false)
  else if negb (cmd_expected_state_revision event =? rs_revision s)
  then Err (RevisionConflict (cmd_expected_state_revision event) (rs_revision s))
  else match operation_target (rs_operation s) (cmd_command event) with
  | None => Err (InvalidOperationTransition (rs_operation s) (cmd_command event))
  | Some target =>
      let s := set_command_sequences
                 (<[cmd_client_id event := cmd_sequence event]> (rs_command_sequences s)) s in
      let s := set_operation target s in
      match target with
      | OpPaused | OpOff =>
          Ok (set_last_scheduled_cue None s, DOperationTransitionAccepted,
              [EnsureOutputClosed DOperationTransitionAccepted], true)
      | OpLive =>
          match current_execution s with
          | Some (deck_id, track_load_id, phrase_index) =>
              let? (s, effect) :=
                execution_effect s deck_id track_load_id phrase_index (cmd_issued_at event) in
              Ok (s, DOperationTransitionAccepted, option_list effect, true)
          | None => Ok (s, DOperationTransitionAccepted, [], true)
          end
      | OpArmed => Ok (s, DOperationTransitionAccepted, [], true)
      end
  end.

(** ** Effect results *)

Definition reduce_plan_generated (s : RuntimeState) (plan : LightingPlan) : handled :=
  match rs_decks s !! plan_deck_id plan with
  | None => Ok (s, DPlanTrackLoadMismatch, [], false)
  | Some deck =>
      if negb (deck_track_load_id deck =? plan_track_load_id plan)
         || negb (deck_track_id deck =? plan_track_id plan)
      then Ok (s, DPlanTrackLoadMismatch, [], false)
      else
        let? expected_revision :=
          match rs_plans s !! plan_deck_id plan with
          | Some current =>
              ok_or (PlanRevision_checked_next (plan_revision current)) PlanRevisionOverflow
          | None => Ok PlanRevision_initial
          end in
        if plan_revision plan <? expected_revision then Ok (s, DStalePlanIgnored, [], false)
        else if negb (plan_revision plan =? expected_revision)
        then Err (PlanRevisionGap expected_revision (plan_revision plan))
        else
          let s := set_plans (<[plan_deck_id plan := plan]> (rs_plans s)) s in
          let s := if bool_decide (rs_leader_deck s = Some (plan_deck_id plan))
                   then set_active_plan (Some plan) s else s in
          Ok (s, DPlanAccepted, [], true)
  end.

Definition reduce_effect_result (s : RuntimeState) (event : EffectResultEnvelope) : handled :=
  if sequence_stale (rs_effect_sequences s) (eff_worker_id event) (eff_sequence event)
  then Ok (s, DDuplicateEffectIgnored, [], false)
  else
    let s := set_effect_sequences
               (<[eff_worker_id event := eff_sequence event]> (rs_effect_sequences s)) s in
    match eff_result event with
    | PlanGenerated plan => reduce_plan_generated s plan
    | OutputEffectRecorded result =>
        Ok (push_output_effect result s, DOutputEffectRecorded, [], true)
    | OutputGateClosed => Ok (s, DOutputGateConfirmedClosed, [], false)
    end.

(** ** The reducer *)

Definition reduce_runtime_started (s : RuntimeState) : handled :=
  if negb (bool_decide (rs_health s = HealthStarting)) then Err RuntimeAlreadyStarted
  else Ok (set_health HealthReady s, DRuntimeInitialized, [], true).

Definition reduce_queue_overloaded (s : RuntimeState) (event : DomainEvent)
    (overload : QueueOverloadEvent) : handled :=
  let s := set_health HealthDegraded s in
  let s := if bool_decide (rs_operation s = OpLive) then set_operation OpPaused s else s in
  let s := push_diagnostic
             (mkDiagnostic (saturating_add_u64 (rs_processed_events s) 1) SevError DQueueSaturated
                (DomainEvent_kind event) (ovl_occurred_at overload)) s in
  Ok (s, DQueueSaturated, [EnsureOutputClosed DQueueSaturated], true).

Definition reduce_event (s : RuntimeState) (event : DomainEvent) : handled :=
  match event with
  | RuntimeStarted _ => reduce_runtime_started s
  | Observation observation => reduce_observation s observation
  | UserCommand command => reduce_command s command
  | EffectResultEvent result => reduce_effect_result s result
  | QueueOverloaded overload => reduce_queue_overloaded s event overload
  end.

(** The bookkeeping after the [match]: counter, decision, timeline and revision. *)
Definition finish_reduction (event : DomainEvent) (s : RuntimeState)
    (decision : DecisionReason) (effects : list Effect) (state_changed : bool) :
    result Reduction ReducerError :=
  let? processed_events := ok_or (checked_add_u64 (rs_processed_events s) 1)
                             ProcessedEventOverflow in
  let s := set_processed_events processed_events s in
  let s := set_last_decision (Some decision) s in
  let s := push_timeline (TimelineEntry_from_event (rs_processed_events s) event decision) s in
  let? s := if state_changed then
              let? revision := ok_or (StateRevision_checked_next (rs_revision s))
                                 StateRevisionOverflow in
              Ok (set_revision revision s)
            else Ok s in
  Ok (mkReduction s decision effects state_changed).

Definition reduce (s : RuntimeState) (event : DomainEvent) : result Reduction ReducerError :=
  let? (next, decision, effects, state_changed) := reduce_event s event in
  finish_reduction event next decision effects state_changed.
