(* ===== verification/ReducerInv.v ===== *)
(** * Invariant of the reducer

    The invariant every reachable runtime state satisfies: decks, plans, leader,
    active plan and the last scheduled cue agree with each other, histories are
    bounded and counters do not run ahead of the number of processed events. *)

From stdpp Require Import prelude list gmap strings.
From Stdlib Require Import ZArith Lia.
From S2P Require Import Prelude.
From S2P Require Import Track.
From S2P Require Import Plan.
From S2P Require Import Event.
From S2P Require Import State.
From S2P Require Import Reducer.
Open Scope Z_scope.

(** ** Decks *)

Record deck_wf (d : DeckState) : Prop := {
  deck_wf_metadata : metadata_wf (deck_metadata d);
  deck_wf_bpm : 20000 ≤ deck_effective_bpm_milli d ≤ 300000;
  deck_wf_phrase : ∀ i, deck_phrase_index d = Some i →
    is_Some (TrackMetadata_phrase (deck_metadata d) i);
}.

(** The phrase a beat falls in is the phrase of that index, and every beat of an
    analysed track falls in one. *)
Lemma phrase_index_at_beat_lookup m beat i :
  metadata_wf m → phrase_index_at_beat m beat = Some i →
  ∃ p, TrackMetadata_phrase m i = Some p ∧ tp_start_beat p ≤ beat < tp_end_beat p.
Proof.
  intros [_ Hp] Hi. unfold phrase_index_at_beat in Hi.
  destruct (List.find _ _) as [p|] eqn:Hf; simplify_eq/=.
  apply List.find_some in Hf as [Hin Hc]. apply list_elem_of_In in Hin.
  destruct Hp as [Hp|[Hi Ht]]; [rewrite Hp in Hin; by apply not_elem_of_nil in Hin|].
  apply list_elem_of_lookup_1 in Hin as [k Hk]. exists p.
  pose proof (indexed_lookup _ _ _ _ Hi Hk) as Hx. simpl in Hx.
  unfold TrackMetadata_phrase. rewrite Hx, Z.add_0_l, Nat2Z.id. split; [done|].
  apply andb_true_iff in Hc as [?%Z.leb_le ?%Z.ltb_lt]. lia.
Qed.

Lemma phrase_index_at_beat_total m beat :
  metadata_wf m → tm_phrases m ≠ [] → 0 ≤ beat < tm_duration_beats m →
  is_Some (phrase_index_at_beat m beat).
Proof.
  intros [_ [?|[Hi Ht]]] Hne Hb; [done|].
  destruct (tiles_find _ _ _ Ht Hi Hb) as (p & Hf & _). unfold phrase_index_at_beat.
  change (λ phrase, _) with (covers (A := TrackPhrase) beat). rewrite Hf. by eexists.
Qed.

(** ** The part of the invariant that relates decks, plans and cues *)

Record core_inv (decks : gmap Z DeckState) (plans : gmap Z LightingPlan)
    (leader : option DeckId) (active : option LightingPlan) (scheduled : option CueIdentity) :
    Prop := {
  core_decks : ∀ d deck, decks !! d = Some deck → deck_wf deck;
  core_plans : ∀ d p, plans !! d = Some p → plan_deck_id p = d ∧ plan_wf p ∧
    ∃ deck, decks !! d = Some deck ∧ deck_track_load_id deck = plan_track_load_id p;
  core_leader : ∀ d, leader = Some d → is_Some (decks !! d);
  core_active : ∀ p, active = Some p →
    leader = Some (plan_deck_id p) ∧ plans !! plan_deck_id p = Some p;
  core_scheduled : ∀ i, scheduled = Some i →
    ∃ deck, decks !! identity_deck i = Some deck ∧ deck_track_load_id deck = identity_load i;
}.

Definition core_wf (s : RuntimeState) : Prop :=
  core_inv (rs_decks s) (rs_plans s) (rs_leader_deck s) (rs_active_plan s)
    (rs_last_scheduled_cue s).

Lemma core_wf_default : core_wf RuntimeState_default.
Proof. split; simpl; intros; simplify_map_eq. Qed.

(** Updating the deck that is loaded, without changing its load. *)
Lemma core_update_deck decks plans leader active scheduled d old new :
  core_inv decks plans leader active scheduled →
  decks !! d = Some old → deck_track_load_id new = deck_track_load_id old → deck_wf new →
  core_inv (<[d := new]> decks) plans leader active scheduled.
Proof.
  intros [Hd Hp Hl Ha Hs] Hold Hload Hnew. split.
  - intros d' deck. rewrite lookup_insert_Some. naive_solver.
  - intros d' p Hd'. destruct (Hp _ _ Hd') as (? & ? & deck & ? & ?). do 2 (split; [done|]).
    destruct (decide (d = d')) as [<-|]; simplify_map_eq; [|eauto].
    eexists; split; [done|]. congruence.
  - intros d' Hd'. destruct (decide (d = d')) as [<-|]; simplify_map_eq; eauto.
  - done.
  - intros i Hi. destruct (Hs _ Hi) as (deck & ? & ?).
    destruct (decide (d = identity_deck i)) as [->|]; simplify_map_eq; [|eauto].
    eexists; split; [done|]. congruence.
Qed.

Lemma core_drop_scheduled decks plans leader active scheduled :
  core_inv decks plans leader active scheduled → core_inv decks plans leader active None.
Proof. intros []. by split. Qed.

Lemma core_drop_active decks plans leader active scheduled :
  core_inv decks plans leader active scheduled → core_inv decks plans leader None scheduled.
Proof. intros []. by split. Qed.

Lemma forget_scheduled_cue_decks d s : rs_decks (forget_scheduled_cue d s) = rs_decks s.
Proof. unfold forget_scheduled_cue. by case_match. Qed.

Lemma core_forget_scheduled d s : core_wf s → core_wf (forget_scheduled_cue d s).
Proof.
  unfold forget_scheduled_cue. case_match; [|done]. apply core_drop_scheduled.
Qed.

(** A deck that gets another track, or none, loses everything tied to it. *)
Lemma core_clear_deck decks decks' plans leader leader' active scheduled d :
  core_inv decks plans leader active scheduled →
  (∀ d', d' ≠ d → decks' !! d' = decks !! d') →
  (∀ deck, decks' !! d = Some deck → deck_wf deck) →
  (leader' = leader ∧ is_Some (decks' !! d) ∨ leader' = leader ∧ leader ≠ Some d
   ∨ leader' = None ∧ leader = Some d) →
  core_inv decks' (delete d plans) leader'
    (if match active with Some p => plan_deck_id p =? d | None => false end
     then None else active)
    (if match scheduled with Some i => identity_deck i =? d | None => false end
     then None else scheduled).
Proof.
  intros [Hd Hp Hl Ha Hs] Hne Hdeck Hlead. split.
  - intros d' deck. destruct (decide (d' = d)) as [->|]; [auto|]. rewrite Hne by done. eauto.
  - intros d' p. rewrite lookup_delete_Some. intros [Hd' (? & ? & ?)%Hp].
    rewrite Hne by done. eauto.
  - intros d' Hd'. destruct (decide (d' = d)) as [->|]; [naive_solver|]. rewrite Hne by done.
    apply Hl. naive_solver.
  - intros p. destruct active as [q|]; [|done]. destruct (Z.eqb_spec (plan_deck_id q) d); [done|].
    intros [= ->]. destruct (Ha p eq_refl) as [Hld Hpl].
    split; [naive_solver|]. by rewrite lookup_delete_ne by done.
  - intros i. destruct scheduled as [j|]; [|done].
    destruct (Z.eqb_spec (identity_deck j) d); [done|].
    intros [= ->]. rewrite Hne by done. auto.
Qed.

Lemma forget_both_fields d s :
  let s' := forget_active_plan d (forget_scheduled_cue d s) in
  rs_decks s' = rs_decks s ∧ rs_plans s' = rs_plans s ∧ rs_leader_deck s' = rs_leader_deck s ∧
  rs_active_plan s' =
    (if match rs_active_plan s with Some p => plan_deck_id p =? d | None => false end
     then None else rs_active_plan s) ∧
  rs_last_scheduled_cue s' =
    (if match rs_last_scheduled_cue s with Some i => identity_deck i =? d | None => false end
     then None else rs_last_scheduled_cue s).
Proof.
  unfold forget_active_plan, forget_scheduled_cue. destruct s as [??? ??? ? [p|] ? [i|] ?????????].
  all: simpl; repeat (destruct (_ =? d); simpl); by repeat split.
Qed.

Lemma forget_commute d s :
  forget_scheduled_cue d (forget_active_plan d s) = forget_active_plan d (forget_scheduled_cue d s).
Proof.
  unfold forget_active_plan, forget_scheduled_cue.
  destruct s as [??? ??? ? [p|] ? [i|] ?????????].
  all: simpl; try destruct (plan_deck_id p =? d) eqn:E1; simpl;
    try destruct (identity_deck i =? d) eqn:E2; simpl; by rewrite ?E1.
Qed.

Lemma core_load_track d m load at_ s :
  core_wf s → metadata_wf m → core_wf (load_track d m load at_ s).
Proof.
  intros Hs Hm. unfold load_track, core_wf.
  match goal with |- context [forget_active_plan d (forget_scheduled_cue d ?s')] =>
    destruct (forget_both_fields d s') as (-> & -> & -> & -> & ->) end. simpl.
  eapply core_clear_deck; [exact Hs|..].
  - intros d' ?. by rewrite lookup_insert_ne.
  - intros deck. rewrite lookup_insert_eq. intros [= <-]. split; simpl; [done|apply Hm|done].
  - left. rewrite lookup_insert_eq. by split; [|eexists].
Qed.

Lemma core_unload d load s s' decision effects :
  core_wf s → observe_unloaded s d load = Ok (s', decision, effects) → core_wf s'.
Proof.
  intros Hs. unfold observe_unloaded. case_match; [|naive_solver]. case_match; [|naive_solver].
  intros [= <- _ _]. unfold core_wf. rewrite forget_commute.
  match goal with |- context [forget_active_plan d (forget_scheduled_cue d ?s')] =>
    destruct (forget_both_fields d s') as (-> & -> & -> & -> & ->) end.
  case_bool_decide as Hl; simpl in *; eapply core_clear_deck; try exact Hs.
  all: try (intros d' ?; by rewrite lookup_delete_ne).
  all: try (intros deck; by rewrite lookup_delete_eq).
  all: auto.
Qed.

(** ** Scheduling *)

Definition request_identity (r : OutputExecutionRequest) : CueIdentity :=
  (req_deck_id r, req_track_load_id r, req_phrase_index r, req_cue_id r, req_plan_revision r).

(** What a scheduled request is taken from: the cue of the active plan of the
    leader deck, at the phrase index and for the track load it names. *)
Record scheduled_from (s : RuntimeState) (r : OutputExecutionRequest) (plan : LightingPlan)
    (cue : LightingCue) : Prop := {
  sf_leader : rs_leader_deck s = Some (req_deck_id r);
  sf_active : rs_active_plan s = Some plan;
  sf_deck : plan_deck_id plan = req_deck_id r;
  sf_load : plan_track_load_id plan = req_track_load_id r;
  sf_plan : plan_id plan = req_plan_id r ∧ plan_revision plan = req_plan_revision r;
  sf_cue : plan_cues plan !! Z.to_nat (req_phrase_index r) = Some cue;
  sf_cue_fields : cue_phrase_index cue = req_phrase_index r ∧ cue_id cue = req_cue_id r
    ∧ cue_action cue = req_action r ∧ cue_reason cue = req_cue_reason r;
}.

(** [execution_effect] either leaves the state alone, or schedules the cue of
    the active plan under a new identity and the next command number. *)
Lemma execution_effect_spec s d load i at_ s' eff :
  execution_effect s d load i at_ = Ok (s', eff) →
  (s' = s ∧ eff = None) ∨
  ∃ r plan cue, eff = Some (ExecuteCue r) ∧ scheduled_from s r plan cue ∧
    req_deck_id r = d ∧ req_track_load_id r = load ∧ req_phrase_index r = i ∧
    req_command_id r = rs_output_command_sequence s + 1 ∧ req_command_id r ≤ U64_MAX ∧
    rs_last_scheduled_cue s ≠ Some (request_identity r) ∧
    s' = set_last_scheduled_cue (Some (request_identity r))
           (set_output_command_sequence (req_command_id r) s).
Proof.
  unfold execution_effect. intros H. case_bool_decide as Hl; simpl in H; [|naive_solver].
  destruct (rs_active_plan s) as [plan|] eqn:Ha; [|naive_solver].
  destruct (Z.eqb_spec (plan_deck_id plan) d); simpl in H; [|naive_solver].
  destruct (Z.eqb_spec (plan_track_load_id plan) load); simpl in H; [|naive_solver].
  destruct (plan_cues plan !! Z.to_nat i) as [cue|] eqn:Hc; [|naive_solver].
  destruct (Z.eqb_spec (cue_phrase_index cue) i); simpl in H; [|naive_solver].
  case_bool_decide as Hi; [naive_solver|]. right.
  apply result_bind_Ok in H as (n & Hn & [= <- <-]).
  apply ok_or_Ok, checked_add_u64_Some in Hn as [-> Hn].
  eexists _, plan, cue. split; [done|]. by repeat split.
Qed.

(** Scheduling fails only when the command counter is exhausted. *)
Lemma execution_effect_total s d load i at_ :
  rs_output_command_sequence s < U64_MAX → is_ok (execution_effect s d load i at_).
Proof.
  intros Hn. unfold execution_effect, checked_add_u64.
  rewrite (proj2 (Z.leb_le _ _)) by lia. simpl. repeat case_match; by eexists.
Qed.

Lemma core_execution_effect s d load i at_ s' eff deck :
  core_wf s → rs_decks s !! d = Some deck → deck_track_load_id deck = load →
  execution_effect s d load i at_ = Ok (s', eff) → core_wf s'.
Proof.
  intros Hs Hd Hl [[-> ->]|(r & plan & cue & _ & _ & <- & <- & _ & _ & _ & _ & ->)]%execution_effect_spec;
    [done|].
  destruct Hs. split; simpl; auto. intros ? [= <-]. simpl. eauto.
Qed.

Lemma schedule_or_spec s d load i at_ otherwise s' decision effects :
  schedule_or s d load i at_ otherwise = Ok (s', decision, effects) →
  ∃ eff, execution_effect s d load i at_ = Ok (s', eff) ∧ effects = option_list eff.
Proof.
  unfold schedule_or. intros H. apply result_bind_Ok in H as ([s1 [e|]] & He & H);
    simplify_eq/=; eauto.
Qed.

Lemma core_schedule_or s d load i at_ otherwise s' decision effects deck :
  core_wf s → rs_decks s !! d = Some deck → deck_track_load_id deck = load →
  schedule_or s d load i at_ otherwise = Ok (s', decision, effects) → core_wf s'.
Proof.
  intros ? ? ? (eff & ? & _)%schedule_or_spec. by eapply core_execution_effect.
Qed.

(** ** Every handler preserves the core invariant *)

Lemma deck_wf_reposition deck beat bpm playing at_ i :
  deck_wf deck → 20000 ≤ bpm ≤ 300000 →
  (∀ k, i = Some k → is_Some (TrackMetadata_phrase (deck_metadata deck) k)) →
  deck_wf (mkDeckState (deck_metadata deck) (deck_track_load_id deck) beat bpm playing i at_).
Proof. intros [] ? ?. by split. Qed.

Lemma deck_wf_phrase_at m load beat bpm playing at_ b :
  metadata_wf m → 20000 ≤ bpm ≤ 300000 →
  deck_wf (mkDeckState m load beat bpm playing (phrase_index_at_beat m b) at_).
Proof.
  intros Hm Hb. split; simpl; [done..|]. intros i Hi.
  destruct (phrase_index_at_beat_lookup _ _ _ Hm Hi) as (p & -> & _). by eexists.
Qed.

#[export] Hint Resolve deck_wf_reposition deck_wf_phrase_at deck_wf_metadata deck_wf_bpm
  deck_wf_phrase : lumi.

(** Closes a goal [core_wf (set_decks (<[d := deck']> ..) s)] from the hypothesis
    that [d] is loaded. *)
Ltac core_deck :=
  eapply core_update_deck;
    [eassumption|eassumption|simpl; try done; by apply Z.eqb_eq|eauto with lumi].

Lemma core_observe_hydrated s d m load s' decision effects :
  core_wf s → metadata_wf m → observe_hydrated s d m load = Ok (s', decision, effects) →
  core_wf s'.
Proof.
  intros Hs Hm. unfold observe_hydrated.
  destruct (rs_decks s !! d) as [deck|] eqn:Hd; [|naive_solver].
  pose proof (core_decks _ _ _ _ _ Hs _ _ Hd) as Hwf.
  case_match; intros [= <- _ _]; [|done]. core_deck.
Qed.

Lemma core_observe_position s d load beat at_ s' decision effects :
  core_wf s → observe_position s d load beat at_ = Ok (s', decision, effects) → core_wf s'.
Proof.
  intros Hs. unfold observe_position.
  destruct (rs_decks s !! d) as [deck|] eqn:Hd; [|naive_solver].
  pose proof (core_decks _ _ _ _ _ Hs _ _ Hd) as Hwf.
  case_match; [naive_solver|]. case_match; intros [= <- _ _]; [done|]. core_deck.
Qed.

Lemma core_observe_tempo s d load bpm at_ s' decision effects :
  core_wf s → observe_tempo s d load bpm at_ = Ok (s', decision, effects) → core_wf s'.
Proof.
  intros Hs. unfold observe_tempo.
  destruct (rs_decks s !! d) as [deck|] eqn:Hd; [|naive_solver].
  pose proof (core_decks _ _ _ _ _ Hs _ _ Hd) as Hwf.
  destruct (_ && _) eqn:Hc; intros [= <- _ _]; [|done].
  rewrite !andb_true_iff, !Z.leb_le, Z.eqb_eq in Hc. destruct Hc as (? & ? & ?). core_deck.
Qed.

Lemma core_observe_seeked s d load beat at_ s' decision effects :
  core_wf s → observe_seeked s d load beat at_ = Ok (s', decision, effects) → core_wf s'.
Proof.
  intros Hs. unfold observe_seeked.
  destruct (rs_decks s !! d) as [deck|] eqn:Hd; [|naive_solver].
  pose proof (core_decks _ _ _ _ _ Hs _ _ Hd) as Hwf.
  destruct (Z.eqb_spec (deck_track_load_id deck) load) as [Hl|]; simpl; [|naive_solver].
  match goal with |- context [forget_scheduled_cue d ?s1] => set (s0 := s1) end.
  assert (core_wf (forget_scheduled_cue d s0)) as Hs0 by (apply core_forget_scheduled; core_deck).
  case_match; [|naive_solver]. case_match; [|naive_solver].
  apply (core_schedule_or _ _ _ _ _ _ _ _ _ _ Hs0
           (eq_trans (f_equal (.!! d) (forget_scheduled_cue_decks d s0)) (lookup_insert_eq _ _ _)) Hl).
Qed.

Lemma core_observe_playback s d load playing at_ s' decision effects :
  core_wf s → observe_playback s d load playing at_ = Ok (s', decision, effects) → core_wf s'.
Proof.
  intros Hs. unfold observe_playback.
  destruct (rs_decks s !! d) as [deck|] eqn:Hd; [|naive_solver].
  pose proof (core_decks _ _ _ _ _ Hs _ _ Hd) as Hwf.
  destruct (Z.eqb_spec (deck_track_load_id deck) load) as [Hl|]; simpl; [|naive_solver].
  match goal with |- context [forget_scheduled_cue d ?s1] => set (s0 := s1) end.
  assert (core_wf s0) as Hs0 by core_deck.
  destruct playing; simpl; [|intros [= <- _ _]; by apply core_forget_scheduled].
  repeat (case_match; try naive_solver).
  apply (core_schedule_or _ _ _ _ _ _ _ _ _ _ Hs0 (lookup_insert_eq _ _ _) Hl).
Qed.

Lemma core_observe_phrase s d load i at_ s' decision effects :
  core_wf s → observe_phrase s d load i at_ = Ok (s', decision, effects) → core_wf s'.
Proof.
  intros Hs. unfold observe_phrase.
  destruct (rs_decks s !! d) as [deck|] eqn:Hd; [|naive_solver].
  pose proof (core_decks _ _ _ _ _ Hs _ _ Hd) as Hwf.
  destruct (_ && _) eqn:Hc; [|naive_solver].
  apply andb_true_iff in Hc as [Hl%Z.eqb_eq Hp%bool_decide_eq_true].
  match goal with |- context [schedule_or ?s1] => set (s0 := s1) end.
  assert (core_wf s0) as Hs0.
  { core_deck. apply deck_wf_reposition; [done|apply Hwf|naive_solver]. }
  case_match; [naive_solver|].
  apply (core_schedule_or _ _ _ _ _ _ _ _ _ _ Hs0 (lookup_insert_eq _ _ _) Hl).
Qed.

Lemma core_observe_leader s d load at_ s' decision effects :
  core_wf s → observe_leader s d load at_ = Ok (s', decision, effects) → core_wf s'.
Proof.
  intros Hs. unfold observe_leader.
  destruct (rs_decks s !! d) as [deck|] eqn:Hd; simpl;
    [|intros [= <- _ _]; by eapply core_drop_active].
  destruct (Z.eqb_spec (deck_track_load_id deck) load) as [Hl|];
    [|intros [= <- _ _]; by eapply core_drop_active].
  match goal with |- context [set_active_plan ?p ?s1] => set (s0 := set_active_plan p s1) end.
  assert (core_wf s0) as Hs0.
  { destruct Hs as [? Hp ? ? ?]. split; simpl; [done|done| | |done].
    - intros ? [= <-]. by eexists.
    - intros p. unfold activatable_plan; simpl. destruct (rs_plans s !! d) as [q|] eqn:Hq; [|done].
      case_match; [|done]. intros [= ->]. destruct (Hp _ _ Hq) as (-> & _ & _). done. }
  repeat (case_match; try naive_solver).
  apply (core_schedule_or _ _ _ _ _ _ _ _ _ _ Hs0 Hd Hl).
Qed.

Lemma core_dispatch_observation s event s' decision effects :
  core_wf s → observation_wf (obs_observation event) →
  dispatch_observation s event = Ok (s', decision, effects) → core_wf s'.
Proof.
  intros Hs Ho. unfold dispatch_observation. destruct (obs_observation event) eqn:E; simpl in Ho.
  - by intros [= <- _ _].
  - intros [= <- _ _]. by apply core_load_track.
  - by apply core_observe_hydrated.
  - by apply core_observe_position.
  - by apply core_observe_seeked.
  - by apply core_observe_tempo.
  - by apply core_observe_playback.
  - by apply core_unload.
  - by apply core_observe_phrase.
  - by apply core_observe_leader.
Qed.

Lemma core_reduce_observation s event s' decision effects changed :
  core_wf s → observation_wf (obs_observation event) →
  reduce_observation s event = Ok (s', decision, effects, changed) → core_wf s'.
Proof.
  intros Hs Ho. unfold reduce_observation.
  case_match; [by intros [= <- _ _ _]|]. case_match; [by intros [= <- _ _ _]|].
  rewrite result_bind_Ok. intros ([[s1 dec] effs] & Hd & [= <- _ _ _]).
  by eapply core_dispatch_observation in Hd.
Qed.

Lemma core_reduce_command s event s' decision effects changed :
  core_wf s → reduce_command s event = Ok (s', decision, effects, changed) → core_wf s'.
Proof.
  intros Hs. unfold reduce_command.
  case_match; [by intros [= <- _ _ _]|]. case_match; [done|].
  destruct (operation_target _ _) as [[| | |]|]; [..|done].
  - intros [= <- _ _ _]. by eapply core_drop_scheduled.
  - by intros [= <- _ _ _].
  - match goal with |- context [current_execution ?s1] => set (s0 := s1) end.
    destruct (current_execution s0) as [[[d load] i]|] eqn:Hc; [|by intros [= <- _ _ _]].
    rewrite result_bind_Ok. intros ([s1 eff] & He & [= <- _ _ _]).
    unfold current_execution in Hc. repeat (case_match; try done). simplify_eq.
    eapply core_execution_effect in He; eauto.
  - intros [= <- _ _ _]. by eapply core_drop_scheduled.
Qed.

Lemma core_reduce_plan_generated s plan s' decision effects changed :
  core_wf s → plan_wf plan →
  reduce_plan_generated s plan = Ok (s', decision, effects, changed) → core_wf s'.
Proof.
  intros Hs Hp. unfold reduce_plan_generated.
  destruct (rs_decks s !! plan_deck_id plan) as [deck|] eqn:Hd; [|by intros [= <- _ _ _]].
  destruct (Z.eqb_spec (deck_track_load_id deck) (plan_track_load_id plan)) as [Hl|]; simpl;
    [|by intros [= <- _ _ _]].
  case_match; [by intros [= <- _ _ _]|]. rewrite result_bind_Ok. intros (rev & _ & H').
  case_match; [by simplify_eq|]. case_match; [done|]. injection H' as <- _ _ _.
  case_bool_decide as Hlead; simpl in *; (split; simpl; try apply Hs).
  1,3: intros d p [[<- <-]|[? Hq]]%lookup_insert_Some; [eauto|by apply Hs].
  - intros ? [= <-]. by rewrite lookup_insert_eq.
  - intros p Hact. destruct (core_active _ _ _ _ _ Hs _ Hact) as [Hld Hq]. split; [done|].
    rewrite lookup_insert_ne; [done|]. congruence.
Qed.

(** Every handler of the reducer preserves the relation between decks,
    plans, leader, active plan and scheduled cue. *)
Lemma core_reduce_event s event s' decision effects changed :
  core_wf s → event_wf event →
  reduce_event s event = Ok (s', decision, effects, changed) → core_wf s'.
Proof.
  intros Hs He. destruct event as [at_|o|c|r|q]; simpl in *.
  - unfold reduce_runtime_started. case_match; [done|]. by intros [= <- _ _ _].
  - by apply core_reduce_observation.
  - by apply core_reduce_command.
  - unfold reduce_effect_result. destruct (sequence_stale _ _ _); [by intros [= <- _ _ _]|].
    destruct (eff_result r); [by apply core_reduce_plan_generated|by intros [= <- _ _ _]..].
  - unfold reduce_queue_overloaded. intros [= <- _ _ _]. case_bool_decide; done.
Qed.

