(* ===== verification/ReducerSafety.v ===== *)
(** * Safety of the reducer: what it may schedule, and when

    Every handler is classified by its outcome: silent, closing the output, or
    scheduling exactly one cue that the state authorizes.  From it follow the
    output gate, no repeated cue, consecutive command numbers and the
    operation state machine, for single events and for runs. *)

From stdpp Require Import prelude list gmap strings.
From Stdlib Require Import ZArith Lia.
From S2P Require Import Prelude.
From S2P Require Import Track.
From S2P Require Import Plan.
From S2P Require Import Event.
From S2P Require Import State.
From S2P Require Import Reducer.
From S2P Require Import ReducerInv.
Open Scope Z_scope.

(** A request the state authorizes: output is live, the requested deck leads and
    plays the requested load in the requested phrase, and the request is the cue
    of its active plan, under the current command number. *)
Record authorized (s : RuntimeState) (r : OutputExecutionRequest) : Prop := {
  auth_live : rs_operation s = OpLive;
  auth_deck : ∃ deck, rs_decks s !! req_deck_id r = Some deck ∧
    deck_track_load_id deck = req_track_load_id r ∧ deck_playing deck = true ∧
    deck_phrase_index deck = Some (req_phrase_index r);
  auth_cue : ∃ plan cue, scheduled_from s r plan cue;
  auth_command : req_command_id r = rs_output_command_sequence s;
  auth_identity : rs_last_scheduled_cue s = Some (request_identity r);
}.

(** The fields an observation or a scheduled cue never changes. *)
Definition books (s : RuntimeState) :=
  (rs_revision s, rs_health s, rs_output_effects s, rs_command_sequences s,
   rs_effect_sequences s, rs_processed_events s, rs_last_decision s, rs_diagnostics s,
   rs_timeline s).

(** Observations that start a new playback generation of a deck, after which its
    current cue may be sent again. *)
Definition observation_rearms (o : DeckObservation) (d : DeckId) : bool :=
  match o with
  | TrackLoaded d' _ _ | PlaybackPositionSeeked d' _ _ | PlaybackStateChanged d' _ false
  | TrackUnloaded d' _ => d' =? d
  | _ => false
  end.

Inductive outcome (rearms : DeckId → bool) (s s' : RuntimeState) : list Effect → Prop :=
| outcome_silent :
    rs_output_command_sequence s' = rs_output_command_sequence s →
    (rs_last_scheduled_cue s' = rs_last_scheduled_cue s ∨
     rs_last_scheduled_cue s' = None ∧
       ∃ i, rs_last_scheduled_cue s = Some i ∧ rearms (identity_deck i) = true) →
    outcome rearms s s' []
| outcome_cue r :
    authorized s' r →
    req_command_id r = rs_output_command_sequence s + 1 → req_command_id r ≤ U64_MAX →
    (rs_last_scheduled_cue s = Some (request_identity r) → rearms (req_deck_id r) = true) →
    outcome rearms s s' [ExecuteCue r].

Record arm_ok (rearms : DeckId → bool) (s s' : RuntimeState) (effects : list Effect) : Prop := {
  arm_books : books s' = books s;
  arm_operation : rs_operation s' = rs_operation s;
  arm_outcome : outcome rearms s s' effects;
}.

(** An update of other fields followed by a silent arm. *)
Lemma arm_ok_silent rearms s s' :
  books s' = books s → rs_operation s' = rs_operation s →
  rs_output_command_sequence s' = rs_output_command_sequence s →
  rs_last_scheduled_cue s' = rs_last_scheduled_cue s →
  arm_ok rearms s s' [].
Proof. intros. split; [done..|]. constructor; auto. Qed.

Lemma forget_scheduled_cue_silent s0 s d :
  books s0 = books s → rs_operation s0 = rs_operation s →
  rs_output_command_sequence s0 = rs_output_command_sequence s →
  rs_last_scheduled_cue s0 = rs_last_scheduled_cue s →
  arm_ok (Z.eqb d) s (forget_scheduled_cue d s0) [].
Proof.
  intros Hb Ho Hc Hl. unfold forget_scheduled_cue.
  destruct (rs_last_scheduled_cue s0) as [i|] eqn:Hi; simpl; [|apply arm_ok_silent; auto; congruence].
  destruct (Z.eqb_spec (identity_deck i) d); [|apply arm_ok_silent; auto; congruence].
  split; [done..|]. constructor; [done|]. right. split; [done|].
  exists i. split; [congruence|]. apply Z.eqb_eq. congruence.
Qed.

(** Scheduling from a live state whose deck plays the phrase. *)
Lemma execution_effect_outcome rearms s s0 d load i at_ s' eff deck :
  books s0 = books s → rs_operation s0 = rs_operation s → rs_operation s0 = OpLive →
  rs_output_command_sequence s0 = rs_output_command_sequence s →
  rs_last_scheduled_cue s0 = rs_last_scheduled_cue s ∨
    rs_last_scheduled_cue s0 = None ∧
    (∀ j, rs_last_scheduled_cue s = Some j → rearms (identity_deck j) = true) →
  rs_decks s0 !! d = Some deck → deck_track_load_id deck = load →
  deck_playing deck = true → deck_phrase_index deck = Some i →
  execution_effect s0 d load i at_ = Ok (s', eff) →
  arm_ok rearms s s' (option_list eff).
Proof.
  intros Hb Ho Hlive Hc Hl Hd Hload Hplay Hphrase He.
  destruct (execution_effect_spec _ _ _ _ _ _ _ He) as
    [[-> ->]|(r & plan & cue & -> & Hf & Hrd & Hrl & Hri & Hn & Hmax & Hne & ->)]; simpl.
  - split; [done..|]. constructor; [done|]. destruct Hl as [Hl|[Hl Hr]]; [by left|].
    destruct (rs_last_scheduled_cue s) as [j|] eqn:Hj; [right; split; eauto|left; congruence].
  - split; [done..|]. constructor; [|congruence..|].
    + split; simpl; try done.
      * exists deck. subst. auto.
      * exists plan, cue. destruct Hf. by split.
    + intros Hid. destruct Hl as [Hl|[Hl Hr]]; [congruence|]. apply (Hr _ Hid).
Qed.

Lemma schedule_or_outcome rearms s s0 d load i at_ otherwise s' decision effects deck :
  books s0 = books s → rs_operation s0 = rs_operation s → rs_operation s0 = OpLive →
  rs_output_command_sequence s0 = rs_output_command_sequence s →
  rs_last_scheduled_cue s0 = rs_last_scheduled_cue s ∨
    rs_last_scheduled_cue s0 = None ∧
    (∀ j, rs_last_scheduled_cue s = Some j → rearms (identity_deck j) = true) →
  rs_decks s0 !! d = Some deck → deck_track_load_id deck = load →
  deck_playing deck = true → deck_phrase_index deck = Some i →
  schedule_or s0 d load i at_ otherwise = Ok (s', decision, effects) →
  arm_ok rearms s s' effects.
Proof.
  intros ? ? ? ? ? ? ? ? ? (eff & He & ->)%schedule_or_spec. by eapply execution_effect_outcome.
Qed.

Lemma forget_scheduled_cue_cases d s :
  rs_last_scheduled_cue (forget_scheduled_cue d s) = rs_last_scheduled_cue s ∨
  rs_last_scheduled_cue (forget_scheduled_cue d s) = None ∧
    (∀ j, rs_last_scheduled_cue s = Some j → (d =? identity_deck j) = true).
Proof.
  unfold forget_scheduled_cue. destruct (rs_last_scheduled_cue s) as [i|] eqn:Hi; simpl; [|auto].
  destruct (Z.eqb_spec (identity_deck i) d); simpl; [|auto]. right. split; [done|].
  intros j [= <-]. apply Z.eqb_eq. congruence.
Qed.

Lemma forget_scheduled_cue_frame d s :
  books (forget_scheduled_cue d s) = books s ∧
  rs_operation (forget_scheduled_cue d s) = rs_operation s ∧
  rs_output_command_sequence (forget_scheduled_cue d s) = rs_output_command_sequence s.
Proof. unfold forget_scheduled_cue. by case_match. Qed.

(** ** The arms *)

Lemma arm_load_track d m load at_ s : arm_ok (Z.eqb d) s (load_track d m load at_ s) [].
Proof.
  unfold load_track. rewrite <- forget_commute. apply forget_scheduled_cue_silent.
  all: unfold forget_active_plan; by case_match.
Qed.

Lemma arm_unloaded s d load s' decision effects :
  observe_unloaded s d load = Ok (s', decision, effects) → arm_ok (Z.eqb d) s s' effects.
Proof.
  unfold observe_unloaded. repeat case_match; try (intros [= <- _ <-]; by apply arm_ok_silent).
  all: intros [= <- _ <-]; apply forget_scheduled_cue_silent;
    unfold forget_active_plan; repeat case_match; done.
Qed.

Lemma arm_seeked s d load beat at_ s' decision effects :
  observe_seeked s d load beat at_ = Ok (s', decision, effects) → arm_ok (Z.eqb d) s s' effects.
Proof.
  unfold observe_seeked. destruct (rs_decks s !! d) as [deck|] eqn:Hd;
    [|by intros [= <- _ <-]; apply arm_ok_silent].
  destruct (Z.eqb_spec (deck_track_load_id deck) load) as [Hl|]; simpl;
    [|by intros [= <- _ <-]; apply arm_ok_silent].
  match goal with |- context [forget_scheduled_cue d ?s1] => set (s0 := s1) end.
  destruct (forget_scheduled_cue_frame d s0) as (Hb & Ho & Hc).
  assert (arm_ok (Z.eqb d) s (forget_scheduled_cue d s0) []) as Hsil
    by (by apply forget_scheduled_cue_silent).
  destruct (_ && deck_playing _) eqn:Hcond; [|by intros [= <- _ <-]].
  apply andb_true_iff in Hcond as [[Hlive%bool_decide_eq_true _]%andb_true_iff Hplay].
  destruct (phrase_index_at_beat (deck_metadata deck) beat) as [i|] eqn:Hi;
    [|by intros [= <- _ <-]].
  eapply schedule_or_outcome;
    [done|done|done|done|exact (forget_scheduled_cue_cases d s0)
    |rewrite forget_scheduled_cue_decks; apply lookup_insert_eq|done..].
Qed.

Lemma arm_playback s d load playing at_ s' decision effects :
  observe_playback s d load playing at_ = Ok (s', decision, effects) →
  arm_ok (λ d', negb playing && (d =? d')) s s' effects.
Proof.
  unfold observe_playback. destruct (rs_decks s !! d) as [deck|] eqn:Hd;
    [|by intros [= <- _ <-]; apply arm_ok_silent].
  destruct (Z.eqb_spec (deck_track_load_id deck) load) as [Hl|]; simpl;
    [|by intros [= <- _ <-]; apply arm_ok_silent].
  destruct playing; simpl; [|intros [= <- _ <-]; by apply forget_scheduled_cue_silent].
  destruct (negb (deck_playing deck) && true), (deck_phrase_index deck) as [i|] eqn:Hi;
    try (intros [= <- _ <-]; by apply arm_ok_silent).
  case_bool_decide as Hlive; [|intros [= <- _ <-]; by apply arm_ok_silent].
  eapply schedule_or_outcome; [done|done|done|done|by left|apply lookup_insert_eq|done..].
Qed.

Lemma arm_phrase s d load i at_ s' decision effects :
  observe_phrase s d load i at_ = Ok (s', decision, effects) →
  arm_ok (λ _, false) s s' effects.
Proof.
  unfold observe_phrase. destruct (rs_decks s !! d) as [deck|] eqn:Hd;
    [|by intros [= <- _ <-]; apply arm_ok_silent].
  destruct (_ && _) eqn:Hc; [|by intros [= <- _ <-]; apply arm_ok_silent].
  apply andb_true_iff in Hc as [Hl%Z.eqb_eq Hp%bool_decide_eq_true]. simpl.
  rewrite lookup_insert_eq. simpl.
  case_bool_decide as Hlive; simpl; [|intros [= <- _ <-]; by apply arm_ok_silent].
  destruct (deck_playing deck) eqn:Hplay; simpl; [|intros [= <- _ <-]; by apply arm_ok_silent].
  eapply schedule_or_outcome; [done|done|done|done|by left|apply lookup_insert_eq|done..].
Qed.

Lemma arm_leader s d load at_ s' decision effects :
  observe_leader s d load at_ = Ok (s', decision, effects) → arm_ok (λ _, false) s s' effects.
Proof.
  unfold observe_leader. destruct (rs_decks s !! d) as [deck|] eqn:Hd; simpl;
    [|by intros [= <- _ <-]; apply arm_ok_silent].
  destruct (Z.eqb_spec (deck_track_load_id deck) load) as [Hl|]; simpl;
    [|by intros [= <- _ <-]; apply arm_ok_silent].
  destruct (activatable_plan _ _ _ _) as [p|] eqn:Hact;
    [|by intros [= <- _ <-]; apply arm_ok_silent].
  case_bool_decide as Hlive; simpl; [|intros [= <- _ <-]; by apply arm_ok_silent].
  destruct (deck_playing deck) eqn:Hplay; simpl; [|intros [= <- _ <-]; by apply arm_ok_silent].
  destruct (deck_phrase_index deck) as [i|] eqn:Hi; [|intros [= <- _ <-]; by apply arm_ok_silent].
  eapply schedule_or_outcome; try done; by left.
Qed.

Lemma outcome_weaken (f g : DeckId → bool) s s' effects :
  (∀ d, f d = true → g d = true) → arm_ok f s s' effects → arm_ok g s s' effects.
Proof.
  intros Hfg [? ? Hout]. split; [done..|]. destruct Hout as [? Hl|]; constructor; auto.
  destruct Hl as [?|(? & i & ? & ?)]; [by left|right]. eauto.
Qed.

(** Every arm is silent or schedules one authorized cue. *)
Lemma dispatch_observation_ok s event s' decision effects :
  dispatch_observation s event = Ok (s', decision, effects) →
  arm_ok (observation_rearms (obs_observation event)) s s' effects.
Proof.
  unfold dispatch_observation. destruct (obs_observation event) as [st|d m l|d m l|d l b|d l b|d l b|d l p|d l|d l i|d l].
  - intros [= <- _ <-]. by apply arm_ok_silent.
  - intros [= <- _ <-]. apply arm_load_track.
  - unfold observe_hydrated. repeat case_match; intros [= <- _ <-]; by apply arm_ok_silent.
  - unfold observe_position. repeat case_match; intros [= <- _ <-]; by apply arm_ok_silent.
  - apply arm_seeked.
  - unfold observe_tempo. repeat case_match; intros [= <- _ <-]; by apply arm_ok_silent.
  - intros H%arm_playback. eapply outcome_weaken, H. by destruct p.
  - apply arm_unloaded.
  - apply arm_phrase.
  - apply arm_leader.
Qed.

(** ** Events *)

(** Events after which the current cue of a deck may be sent again. *)
Definition event_rearms (e : DomainEvent) (d : DeckId) : bool :=
  match e with
  | Observation o => observation_rearms (obs_observation o) d
  | UserCommand c => match cmd_command c with CmdPause | CmdOff => true | _ => false end
  | _ => false
  end.

(** The bookkeeping fields that only [finish_reduction] writes. *)
Definition ledger (s : RuntimeState) :=
  (rs_revision s, rs_processed_events s, rs_last_decision s, rs_timeline s).

(** What [reduce_event] does to the output side: it closes the output, or its
    outcome is silent or one authorized cue. *)
Record event_ok (e : DomainEvent) (s s' : RuntimeState) (effects : list Effect) : Prop := {
  event_ledger : ledger s' = ledger s;
  event_outcome : outcome (event_rearms e) s s' effects ∨
    ∃ reason, effects = [EnsureOutputClosed reason] ∧ rs_operation s' ≠ OpLive ∧
      outcome (event_rearms e) s s' [];
}.

Lemma ledger_books s s' : books s' = books s → ledger s' = ledger s.
Proof. unfold books, ledger. intros [=]. congruence. Qed.

Lemma event_ok_silent e s s' :
  ledger s' = ledger s → rs_output_command_sequence s' = rs_output_command_sequence s →
  rs_last_scheduled_cue s' = rs_last_scheduled_cue s → event_ok e s s' [].
Proof. intros ? ? ?. split; [done|]. left. constructor; auto. Qed.

(** Outcomes only read the scheduling fields of the state before. *)
Lemma outcome_proper rearms s0 s s' effects :
  rs_output_command_sequence s0 = rs_output_command_sequence s →
  rs_last_scheduled_cue s0 = rs_last_scheduled_cue s →
  outcome rearms s0 s' effects → outcome rearms s s' effects.
Proof. intros Hc Hl [? ?|]; constructor; rewrite <- ?Hc, <- ?Hl; auto. Qed.

Lemma reduce_observation_ok s o s' decision effects changed :
  reduce_observation s o = Ok (s', decision, effects, changed) →
  event_ok (Observation o) s s' effects ∧ rs_operation s' = rs_operation s.
Proof.
  unfold reduce_observation.
  destruct (sequence_stale _ _ _); [intros [= <- _ <- _]; by split; [apply event_ok_silent|]|].
  destruct (time_regressed _ _ _); [intros [= <- _ <- _]; by split; [apply event_ok_silent|]|].
  rewrite result_bind_Ok. intros ([[s1 dec] effs] & Hd & [= <- _ <- _]).
  apply dispatch_observation_ok in Hd as [Hb Ho Hout]. split; [|done].
  split; [by apply ledger_books in Hb|]. left. by eapply outcome_proper, Hout.
Qed.

Lemma current_execution_Some s d load i :
  current_execution s = Some (d, load, i) →
  ∃ deck, rs_leader_deck s = Some d ∧ rs_decks s !! d = Some deck ∧
    deck_track_load_id deck = load ∧ deck_playing deck = true ∧ deck_phrase_index deck = Some i.
Proof. unfold current_execution. repeat case_match; naive_solver. Qed.

Lemma reduce_command_ok s c s' decision effects changed :
  reduce_command s c = Ok (s', decision, effects, changed) →
  event_ok (UserCommand c) s s' effects ∧
  (rs_operation s' = rs_operation s ∧ effects = [] ∧ changed = false ∨
   changed = true ∧ operation_target (rs_operation s) (cmd_command c) = Some (rs_operation s')).
Proof.
  unfold reduce_command. destruct (sequence_stale _ _ _).
  { intros [= <- _ <- <-]. split; [by apply event_ok_silent|by left]. }
  destruct (negb _); [done|].
  destruct (operation_target _ _) as [target|] eqn:Ht; [|done].
  assert (∀ s0, rs_operation s0 ≠ OpLive → ledger s0 = ledger s →
    rs_output_command_sequence s0 = rs_output_command_sequence s →
    rs_last_scheduled_cue s0 = None → (∀ d, event_rearms (UserCommand c) d = true) →
    event_ok (UserCommand c) s s0 [EnsureOutputClosed DOperationTransitionAccepted]) as Hclose.
  { intros s0 Hop Hled Hseq Hsch Hre. split; [done|]. right. eexists; split; [done|].
    split; [done|]. constructor; [done|].
    destruct (rs_last_scheduled_cue s) eqn:Hi; [right; eauto|left; congruence]. }
  assert (∀ t, t = OpOff ∨ t = OpPaused → target = t → ∀ d, event_rearms (UserCommand c) d = true)
    as Hre.
  { intros t Ht' <- d. simpl. unfold operation_target in Ht.
    destruct Ht' as [->| ->], (cmd_command c), (rs_operation s); by simplify_eq. }
  destruct target.
  - intros [= <- _ <- <-]. split; [|by right].
    apply Hclose; try done. by apply (Hre OpOff); [left|].
  - intros [= <- _ <- <-]. split; [by apply event_ok_silent|by right].
  - match goal with |- context [current_execution ?s1] => set (s0 := s1) end.
    destruct (current_execution s0) as [[[d load] i]|] eqn:Hc.
    + rewrite result_bind_Ok. intros ([s1 eff] & He & [= <- _ <- <-]).
      destruct (current_execution_Some _ _ _ _ Hc) as (deck & _ & Hd & Hload & Hplay & Hi).
      destruct (execution_effect_outcome (event_rearms (UserCommand c)) s0 s0 _ _ _ _ _ _ deck
        eq_refl eq_refl eq_refl eq_refl (or_introl eq_refl) Hd Hload Hplay Hi He) as [Hb Ho Hout].
      split; [|right; split; [done|by rewrite Ho]]. split; [by apply ledger_books in Hb|].
      left. by eapply outcome_proper, Hout.
    + intros [= <- _ <- <-]. split; [by apply event_ok_silent|by right].
  - intros [= <- _ <- <-]. split; [|by right].
    apply Hclose; try done. by apply (Hre OpPaused); [right|].
Qed.

Lemma reduce_effect_result_ok s r s' decision effects changed :
  reduce_effect_result s r = Ok (s', decision, effects, changed) →
  event_ok (EffectResultEvent r) s s' effects ∧ rs_operation s' = rs_operation s.
Proof.
  unfold reduce_effect_result.
  destruct (sequence_stale _ _ _); [intros [= <- _ <- _]; by split; [apply event_ok_silent|]|].
  destruct (eff_result r) as [plan|out|].
  2,3: intros [= <- _ <- _]; split; [by apply event_ok_silent|done].
  unfold reduce_plan_generated.
  destruct (rs_decks _ !! _); [|intros [= <- _ <- _]; split; [by apply event_ok_silent|done]].
  destruct (_ || _); [intros [= <- _ <- _]; split; [by apply event_ok_silent|done]|].
  rewrite result_bind_Ok. intros (rev & _ & H).
  destruct (_ <? _); [simplify_eq; split; [by apply event_ok_silent|done]|].
  destruct (negb _); [done|]. simplify_eq.
  case_bool_decide; (split; [by apply event_ok_silent|done]).
Qed.

(** The operation gate as an abstract machine. *)
Inductive gate_label : Type := GArm | GStart | GPause | GOff | GSaturated | GStutter.

Inductive gate_step : OperationState → gate_label → OperationState → Prop :=
| gate_arm : gate_step OpOff GArm OpArmed
| gate_start_armed : gate_step OpArmed GStart OpLive
| gate_start_paused : gate_step OpPaused GStart OpLive
| gate_pause : gate_step OpLive GPause OpPaused
| gate_off o : gate_step o GOff OpOff
| gate_saturated_live : gate_step OpLive GSaturated OpPaused
| gate_saturated o : o ≠ OpLive → gate_step o GSaturated o
| gate_stutter o : gate_step o GStutter o.

Definition command_label (c : OperationCommand) : gate_label :=
  match c with CmdArm => GArm | CmdStart => GStart | CmdPause => GPause | CmdOff => GOff end.

(** The labels an event may be seen as: a command or a stutter when it is a
    duplicate, saturation, or a stutter. *)
Definition event_label (e : DomainEvent) (l : gate_label) : Prop :=
  match e with
  | UserCommand c => l = command_label (cmd_command c) ∨ l = GStutter
  | QueueOverloaded _ => l = GSaturated
  | _ => l = GStutter
  end.

Lemma operation_target_step o c o' :
  operation_target o c = Some o' → gate_step o (command_label c) o'.
Proof. destruct o, c; simpl; intros [= <-]; constructor. Qed.

Lemma reduce_event_ok s e s' decision effects changed :
  reduce_event s e = Ok (s', decision, effects, changed) →
  event_ok e s s' effects ∧ ∃ l, event_label e l ∧ gate_step (rs_operation s) l (rs_operation s').
Proof.
  destruct e as [at_|o|c|r|q]; simpl.
  - unfold reduce_runtime_started. destruct (negb _); [done|]. intros [= <- _ <- _].
    split; [by apply event_ok_silent|]. eexists; split; [done|constructor].
  - intros [? ->]%reduce_observation_ok. split; [done|]. eexists; split; [done|constructor].
  - intros [? [(-> & _ & _)|[_ Ht]]]%reduce_command_ok; (split; [done|]).
    + exists GStutter. split; [by right|constructor].
    + eexists. split; [by left|]. by apply operation_target_step.
  - intros [? ->]%reduce_effect_result_ok. split; [done|]. eexists; split; [done|constructor].
  - unfold reduce_queue_overloaded. intros [= <- _ <- _]. split.
    + split; [by case_bool_decide|]. right. eexists; split; [done|]. split.
      * simpl. case_bool_decide as Ho; simpl; done.
      * constructor; [|left]; by case_bool_decide.
    + exists GSaturated. split; [done|]. simpl.
      case_bool_decide as Ho; simpl in *; [rewrite Ho|]; by constructor.
Qed.

(** ** The complete reducer *)

Lemma finish_reduction_Ok e s decision effects changed r :
  finish_reduction e s decision effects changed = Ok r ↔
  rs_processed_events s + 1 ≤ U64_MAX ∧ (changed = true → rs_revision s + 1 ≤ U64_MAX) ∧
  let s1 := push_timeline (TimelineEntry_from_event (rs_processed_events s + 1) e decision)
              (set_last_decision (Some decision)
                 (set_processed_events (rs_processed_events s + 1) s)) in
  r = mkReduction (if changed then set_revision (rs_revision s + 1) s1 else s1)
        decision effects changed.
Proof.
  unfold finish_reduction, StateRevision_checked_next, checked_add_u64.
  destruct (Z.leb_spec (rs_processed_events s + 1) U64_MAX); simpl.
  - destruct changed; simpl.
    + destruct (Z.leb_spec (rs_revision s + 1) U64_MAX); simpl; naive_solver lia.
    + naive_solver.
  - split; [done|]. lia.
Qed.

(** A reduction changes the state like its handler, apart from the ledger. *)
Lemma reduce_Ok s e r :
  reduce s e = Ok r →
  ∃ s1, reduce_event s e = Ok (s1, red_decision r, red_effects r, red_state_changed r) ∧
    finish_reduction e s1 (red_decision r) (red_effects r) (red_state_changed r) = Ok r ∧
    rs_operation (red_state r) = rs_operation s1 ∧ rs_health (red_state r) = rs_health s1 ∧
    rs_decks (red_state r) = rs_decks s1 ∧ rs_plans (red_state r) = rs_plans s1 ∧
    rs_leader_deck (red_state r) = rs_leader_deck s1 ∧
    rs_active_plan (red_state r) = rs_active_plan s1 ∧
    rs_output_command_sequence (red_state r) = rs_output_command_sequence s1 ∧
    rs_last_scheduled_cue (red_state r) = rs_last_scheduled_cue s1 ∧
    rs_output_effects (red_state r) = rs_output_effects s1 ∧
    rs_diagnostics (red_state r) = rs_diagnostics s1.
Proof.
  unfold reduce. rewrite result_bind_Ok. intros ([[[s1 dec] effs] ch] & He & Hf).
  exists s1. pose proof Hf as Hf'. apply finish_reduction_Ok in Hf as (_ & _ & ->); simpl.
  split; [done|]. split; [done|]. destruct ch; by repeat split.
Qed.

Lemma outcome_finish rearms s s1 s' effects :
  rs_operation s' = rs_operation s1 → rs_decks s' = rs_decks s1 →
  rs_leader_deck s' = rs_leader_deck s1 → rs_active_plan s' = rs_active_plan s1 →
  rs_output_command_sequence s' = rs_output_command_sequence s1 →
  rs_last_scheduled_cue s' = rs_last_scheduled_cue s1 →
  outcome rearms s s1 effects → outcome rearms s s' effects.
Proof.
  intros Ho Hd Hl Ha Hc Hs [? ?|r [? ? (plan & cue & []) ? ?] ? ? ?].
  { constructor; rewrite ?Hc, ?Hs; auto. }
  constructor; [|done..]. split; rewrite ?Ho, ?Hd, ?Hc, ?Hs; [done..| |done|done].
  exists plan, cue. split; by rewrite ?Hl, ?Ha.
Qed.

(** The outcome of one reduction. *)
Lemma reduce_outcome s e r :
  reduce s e = Ok r →
  outcome (event_rearms e) s (red_state r) (red_effects r) ∨
  ∃ reason, red_effects r = [EnsureOutputClosed reason] ∧ rs_operation (red_state r) ≠ OpLive ∧
    outcome (event_rearms e) s (red_state r) [].
Proof.
  intros (s1 & He & _ & Ho & _ & Hd & _ & Hl & Ha & Hc & Hs & _ & _)%reduce_Ok.
  apply reduce_event_ok in He as [[_ [Hout|(reason & -> & Hop & Hout)]] _].
  - left. by eapply outcome_finish.
  - right. exists reason. split; [done|]. split; [congruence|]. by eapply outcome_finish.
Qed.
