(* ===== verification/Demo.v ===== *)
(** * A small concrete show, for concrete runs of the reducer

    One deck with a two-phrase track and its two-cue plan, and the events that
    take the runtime from its initial state to live output. *)

From stdpp Require Import prelude list gmap strings.
From Stdlib Require Import ZArith Lia.
From S2P Require Import Prelude.
From S2P Require Import Track.
From S2P Require Import Plan.
From S2P Require Import Event.
From S2P Require Import State.
From S2P Require Import Reducer.
Open Scope Z_scope.

Definition demo_metadata : TrackMetadata :=
  mkTrackMetadata 7 (lit "Title") (lit "Artist") 128000 (mkMusicalKey PitchA KeyMinor) None 32
    [mkTrackPhrase 0 0 16 KindIntro; mkTrackPhrase 1 16 32 KindDrop] None.

Definition demo_look (scene : Z) (category : SceneCategory) : LightingLook :=
  mkLightingLook 1 (lit "Theme") scene (lit "Scene") category (mkLoopSelection 1 scene).

Definition demo_cues : list LightingCue :=
  [LightingCue_new 11 0 0 16 (ApplyLook (demo_look 1 CatAmbient)) OriginAutomatic
     (PhraseCategoryMatched KindIntro CatAmbient);
   LightingCue_new 12 1 16 32 (ApplyLook (demo_look 2 CatImpact)) OriginAutomatic
     (PhraseCategoryMatched KindDrop CatImpact)].

Definition demo_plan : LightingPlan :=
  mkLightingPlan 5 1 7 32 100 1 1 42 PlanReady
    (Some (mkThemeDecision 1 (lit "Theme") DefaultTheme None)) demo_cues.

Definition demo_observation (sequence at_ : Z) (o : DeckObservation) : DomainEvent :=
  Observation (mkObservationEnvelope 1 sequence at_ o).

Definition demo_command (sequence revision : Z) (c : OperationCommand) : DomainEvent :=
  UserCommand (mkUserCommandEnvelope 1 sequence revision 50 c).

(** Started, loaded, planned, leading, playing, in the first phrase, armed, live. *)
Definition demo_start : list DomainEvent :=
  [RuntimeStarted 0;
   demo_observation 1 1 (TrackLoaded 1 demo_metadata 100);
   EffectResultEvent (mkEffectResultEnvelope 1 1 1 2 (PlanGenerated demo_plan));
   demo_observation 2 3 (LeaderChanged 1 100);
   demo_observation 3 4 (PlaybackStateChanged 1 100 true);
   demo_observation 4 5 (PhraseChanged 1 100 0);
   demo_command 1 6 CmdArm;
   demo_command 2 7 CmdStart].

(** Two further phrase changes on the live deck. *)
Definition demo_phrases : list DomainEvent :=
  [demo_observation 5 6 (PhraseChanged 1 100 1); demo_observation 6 7 (PhraseChanged 1 100 1)].

Lemma demo_metadata_wf : metadata_wf demo_metadata.
Proof.
  split; [repeat split; vm_compute; congruence|]. right. vm_compute. repeat split; congruence.
Qed.

Lemma demo_plan_wf : plan_wf demo_plan.
Proof.
  assert (LightingPlan_try_new_with_theme_decision 5 1 7 32 100 1 1 42 PlanReady
    (plan_theme_decision demo_plan) demo_cues = Ok demo_plan) as H by (vm_compute; reflexivity).
  by apply plan_constructor_iff in H as [_ H].
Qed.
