(* ===== verification/ReducerProps.v ===== *)
(** * Properties of the reducer over single events and over runs *)

From stdpp Require Import prelude list gmap strings.
From Stdlib Require Import ZArith Lia.
From S2P Require Import Prelude.
From S2P Require Import Track.
From S2P Require Import Plan.
From S2P Require Import Event.
From S2P Require Import State.
From S2P Require Import Reducer.
From S2P Require Import ReducerInv.
From S2P Require Import ReducerSafety.
From S2P Require Import Demo.
Open Scope Z_scope.

(** ** The complete invariant *)

Definition timeline_consecutive (n : Z) (l : list TimelineEntry) : Prop :=
  ∀ i e, l !! i = Some e → tl_sequence e = n - Z.of_nat (length l) + Z.of_nat i + 1.

Record state_wf (s : RuntimeState) : Prop := {
  wf_core : core_wf s;
  wf_diagnostics : (length (rs_diagnostics s) ≤ MAXIMUM_DIAGNOSTICS)%nat;
  wf_output_effects : (length (rs_output_effects s) ≤ MAXIMUM_OUTPUT_EFFECTS)%nat;
  wf_timeline_length : (length (rs_timeline s) ≤ MAXIMUM_TIMELINE_ENTRIES)%nat;
  wf_timeline : timeline_consecutive (rs_processed_events s) (rs_timeline s);
  wf_revision : 0 ≤ rs_revision s ≤ rs_processed_events s;
  wf_processed : rs_processed_events s ≤ U64_MAX;
  wf_commands : 0 ≤ rs_output_command_sequence s ≤ rs_processed_events s;
}.

Lemma state_wf_default : state_wf RuntimeState_default.
Proof.
  split; try (simpl; unfold U64_MAX, StateRevision_initial; lia).
  - apply core_wf_default.
  - by intros i e.
Qed.

Lemma timeline_consecutive_push n l e cap :
  timeline_consecutive n l → tl_sequence e = n + 1 → (length l ≤ cap)%nat →
  timeline_consecutive (n + 1) (push_bounded cap l e).
Proof.
  intros Hl He Hlen. unfold push_bounded. case_bool_decide as Hc; intros i e' Hi.
  - rewrite length_app, Nat2Z.inj_add; simpl. apply lookup_app_Some in Hi as [Hi|[Hge Hi]].
    + destruct l as [|x l]; [done|]. simpl in *. rewrite (Hl (S i) e' Hi). simpl. lia.
    + apply list_lookup_singleton_Some in Hi as [Hi <-]. rewrite He. lia.
  - rewrite length_app, Nat2Z.inj_add; simpl. apply lookup_app_Some in Hi as [Hi|[Hge Hi]].
    + rewrite (Hl i e' Hi). lia.
    + apply list_lookup_singleton_Some in Hi as [Hi <-]. rewrite He. lia.
Qed.

(** The two bounded histories are only appended to. *)
Lemma reduce_event_histories s e s' decision effects changed :
  reduce_event s e = Ok (s', decision, effects, changed) →
  (rs_diagnostics s' = rs_diagnostics s ∨
   ∃ d, rs_diagnostics s' = push_bounded MAXIMUM_DIAGNOSTICS (rs_diagnostics s) d) ∧
  (rs_output_effects s' = rs_output_effects s ∨
   ∃ o, rs_output_effects s' = push_bounded MAXIMUM_OUTPUT_EFFECTS (rs_output_effects s) o).
Proof.
  destruct e as [at_|o|c|r|q]; simpl.
  - unfold reduce_runtime_started. destruct (negb _); [done|]. intros [= <- _ _ _]. auto.
  - unfold reduce_observation. destruct (sequence_stale _ _ _); [intros [= <- _ _ _]; auto|].
    destruct (time_regressed _ _ _); [intros [= <- _ _ _]; auto|].
    rewrite result_bind_Ok. intros ([[s1 dec] effs] & Hd & [= <- _ _ _]).
    apply dispatch_observation_ok in Hd as [Hb _ _]. injection Hb as _ _ Ho _ _ _ _ Hdg _.
    rewrite Ho, Hdg. auto.
  - unfold reduce_command. destruct (sequence_stale _ _ _); [intros [= <- _ _ _]; auto|].
    destruct (negb _); [done|]. destruct (operation_target _ _) as [[]|]; [..|done].
    1,2,4: intros [= <- _ _ _]; auto.
    destruct (current_execution _) as [[[d load] i]|]; [|intros [= <- _ _ _]; auto].
    rewrite result_bind_Ok. intros ([s1 eff] & He & [= <- _ _ _]).
    destruct (execution_effect_spec _ _ _ _ _ _ _ He)
      as [[-> _]|(r & plan & cue & _ & _ & _ & _ & _ & _ & _ & _ & ->)]; simpl; auto.
  - unfold reduce_effect_result. destruct (sequence_stale _ _ _); [intros [= <- _ _ _]; auto|].
    destruct (eff_result r) as [plan|out|]; [|intros [= <- _ _ _]; simpl; eauto..].
    unfold reduce_plan_generated. destruct (rs_decks _ !! _); [|intros [= <- _ _ _]; auto].
    destruct (_ || _); [intros [= <- _ _ _]; auto|]. rewrite result_bind_Ok. intros (rev & _ & H).
    destruct (_ <? _); [simplify_eq; auto|]. destruct (negb _); [done|]. simplify_eq.
    case_bool_decide; auto.
  - intros [= <- _ _ _]. split; [right|left]; case_bool_decide; simpl; eauto.
Qed.

Lemma reduce_command_sequence s e r :
  reduce s e = Ok r → 0 ≤ rs_output_command_sequence s →
  rs_output_command_sequence s ≤ rs_output_command_sequence (red_state r)
    ≤ rs_output_command_sequence s + 1.
Proof.
  intros [Hout|(reason & _ & _ & Hout)]%reduce_outcome Hpos.
  - destruct Hout as [->|r' [_ _ _ Hc _] Hn _]; lia.
  - inversion Hout as [-> Hx|]. lia.
Qed.

Lemma reduce_preserves_wf s e r :
  state_wf s → event_wf e → reduce s e = Ok r → state_wf (red_state r).
Proof.
  intros [Hcore Hdg Ho Htl Htc Hrev Hpr Hcmd] He Hr.
  pose proof (reduce_command_sequence _ _ _ Hr (proj1 Hcmd)) as Hseq.
  apply reduce_Ok in Hr as (s1 & Hev & Hfin & Hop & Hh & Hd & Hp & Hl & Ha & Hc & Hs & Hout & Hdi).
  pose proof (reduce_event_ok _ _ _ _ _ _ Hev) as [[Hled _] _].
  injection Hled as Hrv Hprc Hld Htm.
  destruct (reduce_event_histories _ _ _ _ _ _ Hev) as [Hdiag Heff].
  pose proof (core_reduce_event _ _ _ _ _ _ Hcore He Hev) as Hcore1.
  apply finish_reduction_Ok in Hfin as (Hmax & Hrmax & Hrr).
  rewrite Hrv, Hprc in *.
  assert (rs_timeline (red_state r) =
    push_bounded MAXIMUM_TIMELINE_ENTRIES (rs_timeline s)
      (TimelineEntry_from_event (rs_processed_events s + 1) e (red_decision r))) as Htl'
    by (rewrite Hrr; simpl; destruct (red_state_changed r); simpl; by rewrite Htm).
  assert (rs_processed_events (red_state r) = rs_processed_events s + 1) as Hpr'
    by (rewrite Hrr; simpl; by destruct (red_state_changed r)).
  assert (rs_revision s ≤ rs_revision (red_state r) ≤ rs_revision s + 1) as Hrev'
    by (rewrite Hrr; simpl; destruct (red_state_changed r); simpl; rewrite ?Hrv; lia).
  split.
  - unfold core_wf. by rewrite Hd, Hp, Hl, Ha, Hs.
  - rewrite Hdi. destruct Hdiag as [->|(d & ->)]; [done|].
    apply push_bounded_length; [unfold MAXIMUM_DIAGNOSTICS; lia|done].
  - rewrite Hout. destruct Heff as [->|(o & ->)]; [done|].
    apply push_bounded_length; [unfold MAXIMUM_OUTPUT_EFFECTS; lia|done].
  - rewrite Htl'. apply push_bounded_length; [unfold MAXIMUM_TIMELINE_ENTRIES; lia|done].
  - rewrite Htl', Hpr'. apply timeline_consecutive_push; [done| |done].
    unfold TimelineEntry_from_event. by destruct (timeline_source e).
  - lia.
  - lia.
  - lia.
Qed.

(** ** Runs: the serialized loop keeps the state on an error *)

Definition step_event (s : RuntimeState) (e : DomainEvent) : RuntimeState * list Effect :=
  match reduce s e with
  | Ok r => (red_state r, red_effects r)
  | Err _ => (s, [])
  end.

Fixpoint run_events (s : RuntimeState) (es : list DomainEvent) : RuntimeState * list Effect :=
  match es with
  | [] => (s, [])
  | e :: es =>
      let '(s1, effects) := step_event s e in
      let '(s2, rest) := run_events s1 es in
      (s2, effects ++ rest)
  end.

(** The cues of a list of effects, in order. *)
Definition cue_of (e : Effect) : option OutputExecutionRequest :=
  match e with ExecuteCue r => Some r | EnsureOutputClosed _ => None end.

Definition cues_of (effects : list Effect) : list OutputExecutionRequest := omap cue_of effects.

Lemma run_events_cons s e es :
  run_events s (e :: es) =
  ((run_events (step_event s e).1 es).1,
   (step_event s e).2 ++ (run_events (step_event s e).1 es).2).
Proof. simpl. destruct (step_event s e). simpl. by destruct (run_events _ es). Qed.

(** One step, seen from its cues: none, or one authorized cue with the next
    number under a new identity. *)
Inductive step_view (e : DomainEvent) (s s' : RuntimeState) : list OutputExecutionRequest → Prop :=
| view_silent :
    rs_output_command_sequence s' = rs_output_command_sequence s →
    (rs_last_scheduled_cue s' = rs_last_scheduled_cue s ∨
     ∃ i, rs_last_scheduled_cue s = Some i ∧ event_rearms e (identity_deck i) = true) →
    step_view e s s' []
| view_cue r :
    authorized s' r → req_command_id r = rs_output_command_sequence s + 1 →
    (rs_last_scheduled_cue s = Some (request_identity r) →
     event_rearms e (req_deck_id r) = true) →
    step_view e s s' [r].

Lemma step_event_view s e :
  step_view e s (step_event s e).1 (cues_of (step_event s e).2).
Proof.
  unfold step_event. destruct (reduce s e) as [r|err] eqn:Hr; simpl; [|by constructor; auto].
  destruct (reduce_outcome _ _ _ Hr) as [Hout|(reason & -> & _ & Hout)].
  - destruct Hout as [? Hl|]; simpl; [|by apply view_cue].
    constructor; [done|]. destruct Hl as [?|(_ & i & ? & ?)]; eauto.
  - inversion Hout as [? Hl|]; simpl. constructor; [done|].
    destruct Hl as [?|(_ & i & ? & ?)]; eauto.
Qed.

Lemma run_cues_cons s e es :
  cues_of (run_events s (e :: es)).2 =
  cues_of (step_event s e).2 ++ cues_of (run_events (step_event s e).1 es).2.
Proof. rewrite run_events_cons. simpl. apply omap_app. Qed.

Lemma run_state_wf s es :
  state_wf s → Forall event_wf es → state_wf (run_events s es).1.
Proof.
  intros Hs Hes. revert s Hs. induction Hes as [|e es He _ IH]; intros s Hs; [done|].
  rewrite run_events_cons. simpl. apply IH. unfold step_event.
  destruct (reduce s e) as [r|] eqn:Hr; [|done]. by eapply reduce_preserves_wf.
Qed.

(** ** Lemmas about runs *)

Lemma run_first_cue_differs d s es j r :
  (∀ e, e ∈ es → event_rearms e d = false) →
  rs_last_scheduled_cue s = Some j → identity_deck j = d →
  cues_of (run_events s es).2 !! 0%nat = Some r → request_identity r ≠ j.
Proof.
  revert s. induction es as [|e es IH]; intros s Hre Hj Hd; [done|].
  rewrite run_cues_cons. assert (event_rearms e d = false) as He by (apply Hre; by left).
  destruct (step_event_view s e) as [_ Hl|r' _ _ Hid]; simpl.
  - apply IH; [intros; apply Hre; by right| |done].
    destruct Hl as [->|(i & Hi & Hr)]; [done|]. congruence.
  - intros [= ->] <-. apply Hid in Hj. simpl in Hd. congruence.
Qed.

Lemma run_command_numbers s es i r :
  cues_of (run_events s es).2 !! i = Some r →
  req_command_id r = rs_output_command_sequence s + Z.of_nat i + 1.
Proof.
  revert s i. induction es as [|e es IH]; intros s i; [done|]. rewrite run_cues_cons.
  destruct (step_event_view s e) as [Hc _|r' [_ _ _ Hc' _] Hc _]; simpl.
  - intros Hi. rewrite (IH _ _ Hi), Hc. lia.
  - destruct i as [|i]; simpl; [intros [= <-]; lia|].
    intros Hi. rewrite (IH _ _ Hi). lia.
Qed.

Lemma run_command_total s es :
  rs_output_command_sequence (run_events s es).1 =
  rs_output_command_sequence s + Z.of_nat (length (cues_of (run_events s es).2)).
Proof.
  revert s. induction es as [|e es IH]; intros s; [simpl; lia|].
  rewrite run_cues_cons, run_events_cons, length_app; simpl. rewrite IH.
  destruct (step_event_view s e) as [Hc _|r' [_ _ _ Hc' _] Hc _]; simpl; lia.
Qed.

Definition is_start (e : DomainEvent) : bool :=
  match e with
  | UserCommand c => bool_decide (cmd_command c = CmdStart)
  | _ => false
  end.

Lemma step_event_not_live s e :
  rs_operation s ≠ OpLive → is_start e = false →
  rs_operation (step_event s e).1 ≠ OpLive ∧ cues_of (step_event s e).2 = [].
Proof.
  intros Hop He. assert (rs_operation (step_event s e).1 ≠ OpLive) as Hop'.
  { unfold step_event. destruct (reduce s e) as [r|] eqn:Hr; [|done].
    apply reduce_Ok in Hr as (s1 & Hev & _ & Ho & _). simpl. rewrite Ho.
    apply reduce_event_ok in Hev as [_ (l & Hl & Hg)]. intros Hlive. rewrite Hlive in Hg.
    inversion Hg; subst; try congruence.
    all: destruct e as [| |c| |]; simpl in *; try done.
    all: destruct Hl as [Hl|Hl]; [|done]; destruct (cmd_command c); simpl in *; congruence. }
  split; [done|]. destruct (step_event_view s e) as [|r [Hlive _ _ _ _] _ _]; done.
Qed.

(** An accepted Pause or Off requests the output to be closed, and nothing else.
    A duplicate is told apart by the operation it would lead to. *)
Lemma reduce_command_closes s c s' decision effects changed :
  reduce_command s c = Ok (s', decision, effects, changed) →
  changed = true → cmd_command c = CmdPause ∨ cmd_command c = CmdOff →
  ∃ reason, effects = [EnsureOutputClosed reason].
Proof.
  unfold reduce_command. destruct (sequence_stale _ _ _); [by intros [= _ _ _ <-]|].
  destruct (negb _); [done|]. intros H _ Hc.
  destruct Hc as [Hc|Hc]; rewrite Hc in H; destruct (rs_operation s); simpl in H; try done;
    injection H as _ _ <- _; eauto.
Qed.

(** ** Totality of the handlers *)

Lemma schedule_or_total s d load i at_ otherwise :
  rs_output_command_sequence s < U64_MAX → is_ok (schedule_or s d load i at_ otherwise).
Proof.
  intros Hn. unfold schedule_or.
  destruct (execution_effect_total s d load i at_ Hn) as [[s1 [e|]] ->]; by eexists.
Qed.

Lemma dispatch_observation_total s o :
  rs_output_command_sequence s < U64_MAX → is_ok (dispatch_observation s o).
Proof.
  intros Hn. unfold dispatch_observation.
  assert (∀ s0 d load i at_ otherwise, rs_output_command_sequence s0 = rs_output_command_sequence s →
    is_ok (schedule_or s0 d load i at_ otherwise)) as Hsch.
  { intros. apply schedule_or_total. lia. }
  destruct (obs_observation o); [by eexists|by eexists|..].
  - unfold observe_hydrated. repeat case_match; by eexists.
  - unfold observe_position. repeat case_match; by eexists.
  - unfold observe_seeked. repeat case_match; try (by eexists).
    all: apply Hsch; by rewrite (proj2 (proj2 (forget_scheduled_cue_frame _ _))).
  - unfold observe_tempo. repeat case_match; by eexists.
  - unfold observe_playback. repeat case_match; (by eexists) || by apply Hsch.
  - unfold observe_unloaded. repeat case_match; by eexists.
  - unfold observe_phrase. repeat case_match; (by eexists) || by apply Hsch.
  - unfold observe_leader. repeat (case_match; try done); (by eexists) || by apply Hsch.
Qed.

(** A reduction that reaches [finish_reduction] succeeds while the event counter
    has not reached its maximum. *)
Lemma finish_total s e s1 decision effects changed :
  state_wf s → rs_processed_events s < U64_MAX →
  reduce_event s e = Ok (s1, decision, effects, changed) → is_ok (reduce s e).
Proof.
  intros Hs Hp He. unfold reduce. rewrite He. simpl.
  pose proof (reduce_event_ok _ _ _ _ _ _ He) as [[Hled _] _]. injection Hled as Hr Hpr _ _.
  eexists. apply finish_reduction_Ok. rewrite Hr, Hpr. pose proof (wf_revision _ Hs).
  repeat split; lia.
Qed.

(** ** Scheduling again after the output was closed *)

Lemma execution_effect_current s r plan cue at_ :
  scheduled_from s r plan cue → rs_output_command_sequence s < U64_MAX →
  execution_effect s (req_deck_id r) (req_track_load_id r) (req_phrase_index r) at_ =
  if bool_decide (rs_last_scheduled_cue s = Some (request_identity r)) then Ok (s, None)
  else
    let r' := mkOutputExecutionRequest (rs_output_command_sequence s + 1) (req_plan_id r)
                (req_plan_revision r) (req_deck_id r) (req_track_load_id r) (req_phrase_index r)
                (req_cue_id r) (req_action r) (req_cue_reason r) at_ in
    Ok (set_last_scheduled_cue (Some (request_identity r))
          (set_output_command_sequence (rs_output_command_sequence s + 1) s),
        Some (ExecuteCue r')).
Proof.
  intros [Hl Ha Hd Hld [Hp Hrv] Hc (Hci & Hid & Hact & Hre)] Hn. unfold execution_effect.
  rewrite bool_decide_true by done. simpl. rewrite Ha, Hd, Hld, !Z.eqb_refl. simpl.
  rewrite Hc, Hci, Z.eqb_refl, Hid, Hrv. simpl. unfold request_identity.
  case_bool_decide; [done|]. unfold checked_add_u64.
  rewrite (proj2 (Z.leb_le _ _)) by lia. simpl. by rewrite Hp, Hact, Hre.
Qed.

(** Evaluates [finish_reduction] when no counter is at its maximum. *)
Ltac finish_counters :=
  unfold finish_reduction, StateRevision_checked_next, checked_add_u64; simpl;
  repeat (rewrite (proj2 (Z.leb_le _ _)) by lia; simpl).

(** The two ways the output of a live state is closed by the operator or by
    saturation, as far as scheduling is concerned. *)
Record closed_from (s s' : RuntimeState) (last : option CueIdentity) : Prop := {
  cf_operation : rs_operation s' = OpPaused;
  cf_revision : rs_revision s' = rs_revision s + 1;
  cf_processed : rs_processed_events s' = rs_processed_events s + 1;
  cf_decks : rs_decks s' = rs_decks s;
  cf_leader : rs_leader_deck s' = rs_leader_deck s;
  cf_active : rs_active_plan s' = rs_active_plan s;
  cf_commands : rs_output_command_sequence s' = rs_output_command_sequence s;
  cf_last : rs_last_scheduled_cue s' = last;
}.

Lemma step_saturated s q :
  state_wf s → rs_processed_events s < U64_MAX → rs_operation s = OpLive →
  closed_from s (step_event s (QueueOverloaded q)).1 (rs_last_scheduled_cue s) ∧
  rs_command_sequences (step_event s (QueueOverloaded q)).1 = rs_command_sequences s ∧
  (step_event s (QueueOverloaded q)).2 = [EnsureOutputClosed DQueueSaturated].
Proof.
  intros Hs Hp Hop. pose proof (wf_revision _ Hs) as Hr. unfold step_event, reduce. simpl.
  unfold reduce_queue_overloaded. simpl. rewrite Hop. rewrite bool_decide_true by done. simpl.
  finish_counters. by repeat split.
Qed.

Lemma step_pause s p :
  state_wf s → rs_processed_events s < U64_MAX → rs_operation s = OpLive →
  sequence_stale (rs_command_sequences s) (cmd_client_id p) (cmd_sequence p) = false →
  cmd_command p = CmdPause → cmd_expected_state_revision p = rs_revision s →
  closed_from s (step_event s (UserCommand p)).1 None ∧
  rs_command_sequences (step_event s (UserCommand p)).1 =
    <[cmd_client_id p := cmd_sequence p]> (rs_command_sequences s) ∧
  (step_event s (UserCommand p)).2 = [EnsureOutputClosed DOperationTransitionAccepted].
Proof.
  intros Hs Hp Hop Hst Hc He. pose proof (wf_revision _ Hs) as Hr. unfold step_event, reduce.
  simpl. unfold reduce_command. rewrite Hst, Hc, He, Z.eqb_refl, Hop. simpl.
  finish_counters. by repeat split.
Qed.

(** Starting again: the cue of the phrase being played is sent unless it is the
    one scheduled last. *)
Lemma step_restart s s' last r plan cue c :
  state_wf s → authorized s r → scheduled_from s r plan cue →
  closed_from s s' last → rs_processed_events s + 1 < U64_MAX →
  sequence_stale (rs_command_sequences s') (cmd_client_id c) (cmd_sequence c) = false →
  cmd_command c = CmdStart → cmd_expected_state_revision c = rs_revision s + 1 →
  rs_operation (step_event s' (UserCommand c)).1 = OpLive ∧
  (last = Some (request_identity r) → (step_event s' (UserCommand c)).2 = []) ∧
  (last = None → ∃ r', (step_event s' (UserCommand c)).2 = [ExecuteCue r'] ∧
     request_identity r' = request_identity r ∧ req_action r' = req_action r).
Proof.
  intros Hs Ha Hf [Hop Hrv Hpr Hdk Hld Hac Hcm Hls] Hp Hst Hc He.
  pose proof (wf_revision _ Hs) as Hwr. pose proof (wf_commands _ Hs) as Hwc.
  destruct (auth_deck _ _ Ha) as (deck & Hd & Hload & Hplay & Hi).
  unfold step_event, reduce. simpl. unfold reduce_command.
  rewrite Hst, Hc, He, Hrv, Z.eqb_refl, Hop. simpl.
  set (s0 := set_operation OpLive _).
  assert (current_execution s0 = Some (req_deck_id r, req_track_load_id r, req_phrase_index r))
    as ->.
  { unfold current_execution. simpl. rewrite Hld, (sf_leader _ _ _ _ Hf), Hdk, Hd, Hi, Hplay.
    by rewrite Hload. }
  assert (scheduled_from s0 r plan cue) as Hf0
    by (destruct Hf; split; simpl; rewrite ?Hld, ?Hac; done).
  rewrite (execution_effect_current _ _ _ _ _ Hf0) by (simpl; lia).
  change (rs_last_scheduled_cue s0) with (rs_last_scheduled_cue s'). rewrite Hls.
  case_bool_decide as Hid; simpl; finish_counters.
  - split; [done|]. split; [done|]. intros ->. done.
  - split; [done|]. split; [done|]. intros _. eexists. by split; [done|].
Qed.

(** ** Claims *)

(** C4: every state reached from the initial one satisfies the runtime
    invariant: plans belong to loaded decks and are well-formed, the active plan
    is the stored plan of the leader deck, the last scheduled cue belongs to the
    current load of its deck, histories are bounded, timeline entries are
    consecutive and no counter exceeds the number of processed events. *)
Theorem reachable_state_wf es :
  Forall event_wf es → state_wf (run_events RuntimeState_default es).1.
Proof. intros. by apply run_state_wf; [apply state_wf_default|]. Qed.

(** C2: a cue is scheduled only while the operation is live, the requested deck
    leads and plays the requested load in the requested phrase, and it is the
    cue the active plan has for that phrase; it is the only effect of its event
    and takes the next command number. *)
Theorem cue_authorized s e r req :
  reduce s e = Ok r → ExecuteCue req ∈ red_effects r →
  red_effects r = [ExecuteCue req] ∧ authorized (red_state r) req ∧
  req_command_id req = rs_output_command_sequence s + 1 ∧ req_command_id req ≤ U64_MAX.
Proof.
  intros [Hout|(reason & -> & _)]%reduce_outcome Hin;
    [|by apply list_elem_of_singleton in Hin].
  destruct Hout as [|r' ? ? ? ?]; [by apply not_elem_of_nil in Hin|].
  apply list_elem_of_singleton in Hin. by simplify_eq.
Qed.

(** C1: no cue is repeated: in a run in which no event starts a new playback
    generation of a deck (load, unload, confirmed seek, stop, Pause or Off), two
    consecutive cues of which the first is for that deck have different
    identities: a phrase reported again is not sent again. *)
Theorem no_repeated_cue d s es i r1 r2 :
  (∀ e, e ∈ es → event_rearms e d = false) →
  cues_of (run_events s es).2 !! i = Some r1 →
  cues_of (run_events s es).2 !! S i = Some r2 →
  req_deck_id r1 = d → request_identity r1 ≠ request_identity r2.
Proof.
  revert s i. induction es as [|e es IH]; intros s i Hre; [done|]. rewrite run_cues_cons.
  assert (∀ e', e' ∈ es → event_rearms e' d = false) as Hre' by (intros; apply Hre; by right).
  destruct (step_event_view s e) as [_ _|r [_ _ _ _ Hid] _ _]; simpl; [by apply IH|].
  destruct i as [|i]; simpl; [|by apply IH]. intros [= <-] Hi Hd Heq.
  by eapply run_first_cue_differs in Hi; [|done|exact Hid|].
Qed.

(** C12: the cues of a run carry consecutive command numbers, and the counter of
    the state counts them: no number is skipped or used twice. *)
Theorem command_numbers s es :
  (∀ i r, cues_of (run_events s es).2 !! i = Some r →
     req_command_id r = rs_output_command_sequence s + Z.of_nat i + 1) ∧
  rs_output_command_sequence (run_events s es).1 =
    rs_output_command_sequence s + Z.of_nat (length (cues_of (run_events s es).2)).
Proof. split; [apply run_command_numbers|apply run_command_total]. Qed.

(** C3: the reducer refines the operation gate: each event is a command accepted
    by the gate machine, a saturation, or a stutter; cues appear only in the live
    state, and pausing, switching off and saturation emit exactly the request to
    close the output. *)
Theorem gate_refinement s e r :
  reduce s e = Ok r →
  ∃ l, event_label e l ∧ gate_step (rs_operation s) l (rs_operation (red_state r)) ∧
    (cues_of (red_effects r) ≠ [] → rs_operation (red_state r) = OpLive) ∧
    (l = GPause ∨ l = GOff ∨ l = GSaturated →
     ∃ reason, red_effects r = [EnsureOutputClosed reason]).
Proof.
  intros Hr. pose proof (reduce_outcome _ _ _ Hr) as Hout.
  assert (cues_of (red_effects r) ≠ [] → rs_operation (red_state r) = OpLive) as Hlive.
  { destruct Hout as [[]|(reason & -> & _)]; [done| |done]. intros _. by eapply auth_live. }
  apply reduce_Ok in Hr as (s1 & He & _ & Ho & _). rewrite Ho in *.
  pose proof (reduce_event_ok _ _ _ _ _ _ He) as [_ (l & Hl & Hg)].
  destruct e as [at_|o|c|er|q]; simpl in Hl;
    try (exists l; subst; repeat split; [done|done|by intros [?|[?|?]]]).
  - clear l Hl Hg. pose proof (reduce_command_ok _ _ _ _ _ _ He) as [_ [(Hop & Heff & _)|[Hch Ht]]].
    + exists GStutter. rewrite Hop. repeat split; [by right|constructor|by rewrite <- Hop|].
      by intros [?|[?|?]].
    + exists (command_label (cmd_command c)). split; [by left|].
      split; [by apply operation_target_step|]. split; [done|]. intros Hcl.
      eapply reduce_command_closes; [exact He|done|].
      by destruct (cmd_command c), Hcl as [|[|]]; auto.
  - exists GSaturated. subst. split; [done|]. split; [done|]. split; [done|]. intros _.
    injection He as _ _ <- _. eauto.
Qed.

(** From any state that is not live, no run without a Start command
    schedules a cue: Pause, Off and saturation keep the output closed. *)
Theorem no_output_until_start s es :
  rs_operation s ≠ OpLive → Forall (λ e, is_start e = false) es →
  cues_of (run_events s es).2 = [] ∧ rs_operation (run_events s es).1 ≠ OpLive.
Proof.
  intros Hop Hes. revert s Hop. induction Hes as [|e es He _ IH]; intros s Hop; [done|].
  destruct (step_event_not_live _ _ Hop He) as [Hop' Hc].
  rewrite run_cues_cons, run_events_cons, Hc. apply IH, Hop'.
Qed.

(** ** When an event is reduced *)

Lemma reduce_is_ok s e :
  state_wf s → rs_processed_events s < U64_MAX → is_ok (reduce s e) ↔ is_ok (reduce_event s e).
Proof.
  intros Hs Hp. split.
  - intros [r (s1 & ? & _)%reduce_Ok]. by eexists.
  - intros [[[[s1 d] ef] ch] He]. by eapply finish_total.
Qed.

Lemma reduce_observation_total s o :
  rs_output_command_sequence s < U64_MAX → is_ok (reduce_observation s o).
Proof.
  intros Hc. unfold reduce_observation.
  destruct (sequence_stale _ _ _); [by eexists|]. destruct (time_regressed _ _ _); [by eexists|].
  match goal with |- is_ok (result_bind (dispatch_observation ?s0 _) _) =>
    destruct (dispatch_observation_total s0 o) as [[[s1 d] ef] ->] end; [done|by eexists].
Qed.

Lemma reduce_command_is_ok s c :
  rs_output_command_sequence s < U64_MAX →
  is_ok (reduce_command s c) ↔
  sequence_stale (rs_command_sequences s) (cmd_client_id c) (cmd_sequence c) = true ∨
  cmd_expected_state_revision c = rs_revision s ∧
  is_Some (operation_target (rs_operation s) (cmd_command c)).
Proof.
  intros Hc. unfold reduce_command. destruct (sequence_stale _ _ _).
  { split; [by left|by eexists]. }
  destruct (Z.eqb_spec (cmd_expected_state_revision c) (rs_revision s)) as [->|Hne]; simpl;
    [|split; [by intros []|naive_solver]].
  destruct (operation_target _ _) as [t|]; [|split; [by intros []|intros [?|[_ []]]; done]].
  split; [by right|intros _]. destruct t; try by eexists.
  destruct (current_execution _) as [[[d l] i]|]; [|by eexists].
  match goal with |- is_ok (result_bind (execution_effect ?s0 _ _ _ ?a) _) =>
    destruct (execution_effect_total s0 d l i a) as [[s1 ef] ->] end; [done|by eexists].
Qed.

(** The revision a plan for a deck has to carry. *)
Definition expected_plan_revision (s : RuntimeState) (deck_id : DeckId) : option PlanRevision :=
  match rs_plans s !! deck_id with
  | Some current => PlanRevision_checked_next (plan_revision current)
  | None => Some PlanRevision_initial
  end.

Lemma reduce_plan_generated_is_ok s p :
  is_ok (reduce_plan_generated s p) ↔
  (∀ deck, rs_decks s !! plan_deck_id p = Some deck →
     deck_track_load_id deck = plan_track_load_id p → deck_track_id deck = plan_track_id p →
     ∃ rev, expected_plan_revision s (plan_deck_id p) = Some rev ∧ plan_revision p ≤ rev).
Proof.
  unfold reduce_plan_generated, expected_plan_revision.
  destruct (rs_decks s !! plan_deck_id p) as [deck|]; [|split; [done|by eexists]].
  destruct (Z.eqb_spec (deck_track_load_id deck) (plan_track_load_id p)); simpl;
    [|split; [naive_solver|by eexists]].
  destruct (Z.eqb_spec (deck_track_id deck) (plan_track_id p)); simpl;
    [|split; [naive_solver|by eexists]].
  transitivity (∃ rev, match rs_plans s !! plan_deck_id p with
     | Some current => PlanRevision_checked_next (plan_revision current)
     | None => Some PlanRevision_initial end = Some rev ∧ plan_revision p ≤ rev);
    [|naive_solver].
  assert (∀ rev, is_ok (if plan_revision p <? rev then Ok (s, DStalePlanIgnored, [], false)
      else if negb (plan_revision p =? rev) then Err (PlanRevisionGap rev (plan_revision p))
      else Ok (if bool_decide (rs_leader_deck (set_plans (<[plan_deck_id p := p]> (rs_plans s)) s)
                               = Some (plan_deck_id p))
               then set_active_plan (Some p) (set_plans (<[plan_deck_id p := p]> (rs_plans s)) s)
               else set_plans (<[plan_deck_id p := p]> (rs_plans s)) s,
               DPlanAccepted, @nil Effect, true)) ↔ plan_revision p ≤ rev) as Hrev.
  { intros rev. destruct (Z.ltb_spec (plan_revision p) rev); [split; [lia|by eexists]|].
    destruct (Z.eqb_spec (plan_revision p) rev); simpl; [split; [lia|by eexists]|].
    split; [by intros []|lia]. }
  destruct (rs_plans s !! plan_deck_id p) as [current|]; simpl.
  - destruct (PlanRevision_checked_next _) as [rev|]; simpl; [rewrite Hrev; naive_solver|].
    split; [by intros []|naive_solver].
  - rewrite Hrev. naive_solver.
Qed.

(** C11: which events are reduced.  In a well-formed state with the event counter
    below its maximum, every observation, overload and output result is reduced; a
    command is reduced exactly when it is a duplicate or names the current revision
    and a permitted transition; a plan exactly when it is a duplicate, is for
    another load, or carries at most the expected revision; starting succeeds
    exactly once. *)
Theorem reduce_total s e :
  state_wf s → rs_processed_events s < U64_MAX →
  is_ok (reduce s e) ↔
  match e with
  | RuntimeStarted _ => rs_health s = HealthStarting
  | Observation _ | QueueOverloaded _ => True
  | UserCommand c =>
      sequence_stale (rs_command_sequences s) (cmd_client_id c) (cmd_sequence c) = true ∨
      cmd_expected_state_revision c = rs_revision s ∧
      is_Some (operation_target (rs_operation s) (cmd_command c))
  | EffectResultEvent r =>
      sequence_stale (rs_effect_sequences s) (eff_worker_id r) (eff_sequence r) = true ∨
      ∀ p deck, eff_result r = PlanGenerated p →
        rs_decks s !! plan_deck_id p = Some deck →
        deck_track_load_id deck = plan_track_load_id p → deck_track_id deck = plan_track_id p →
        ∃ rev, expected_plan_revision s (plan_deck_id p) = Some rev ∧ plan_revision p ≤ rev
  end.
Proof.
  intros Hs Hp. pose proof (wf_commands _ Hs) as Hc. rewrite reduce_is_ok by done.
  destruct e as [at_|o|c|r|q]; simpl.
  - unfold reduce_runtime_started. case_bool_decide; simpl; split; try done; [by eexists|].
    by intros [].
  - split; [done|intros _]. apply reduce_observation_total. lia.
  - apply reduce_command_is_ok. lia.
  - unfold reduce_effect_result. destruct (sequence_stale _ _ _); [split; [by left|by eexists]|].
    destruct (eff_result r) as [p| |]; [|split; [by right|by eexists]..].
    rewrite reduce_plan_generated_is_ok. unfold expected_plan_revision. simpl. naive_solver.
  - split; [done|by eexists].
Qed.

(** Pause followed by Start sends the cue of the phrase being played again,
    with the same identity and action. *)
Theorem pause_start_restores s r p c :
  state_wf s → authorized s r → rs_processed_events s + 1 < U64_MAX →
  sequence_stale (rs_command_sequences s) (cmd_client_id p) (cmd_sequence p) = false →
  cmd_command p = CmdPause → cmd_expected_state_revision p = rs_revision s →
  sequence_stale (<[cmd_client_id p := cmd_sequence p]> (rs_command_sequences s))
    (cmd_client_id c) (cmd_sequence c) = false →
  cmd_command c = CmdStart → cmd_expected_state_revision c = rs_revision s + 1 →
  ∃ r', cues_of (run_events s [UserCommand p; UserCommand c]).2 = [r'] ∧
    request_identity r' = request_identity r ∧ req_action r' = req_action r.
Proof.
  intros Hs Ha Hp Hps Hpc Hpr Hcs Hcc Hcr. destruct (auth_cue _ _ Ha) as (plan & cue & Hf).
  destruct (step_pause s p) as (Hcl & Hseq & Heff); [done|lia|apply Ha|done..|].
  rewrite <- Hseq in Hcs.
  destruct (step_restart _ _ _ _ _ _ _ Hs Ha Hf Hcl Hp Hcs Hcc Hcr) as (_ & _ & Hr).
  destruct (Hr eq_refl) as (r' & Hr' & Hid & Hact). exists r'.
  rewrite !run_cues_cons, Heff, Hr'. done.
Qed.

(** After a saturation has paused a live show, Start makes the operation
    live again but does not send the cue of the phrase being played: the cue
    scheduled before the saturation is still recorded as the last one. *)
Theorem saturation_start_does_not_restore s r q c :
  state_wf s → authorized s r → rs_processed_events s + 1 < U64_MAX →
  sequence_stale (rs_command_sequences s) (cmd_client_id c) (cmd_sequence c) = false →
  cmd_command c = CmdStart → cmd_expected_state_revision c = rs_revision s + 1 →
  rs_operation (run_events s [QueueOverloaded q; UserCommand c]).1 = OpLive ∧
  cues_of (run_events s [QueueOverloaded q; UserCommand c]).2 = [].
Proof.
  intros Hs Ha Hp Hcs Hcc Hcr. destruct (auth_cue _ _ Ha) as (plan & cue & Hf).
  destruct (step_saturated s q) as (Hcl & Hseq & Heff); [done|lia|apply Ha|].
  rewrite <- Hseq in Hcs.
  destruct (step_restart _ _ _ _ _ _ _ Hs Ha Hf Hcl Hp Hcs Hcc Hcr) as (Hop & Hr & _).
  rewrite !run_events_cons. simpl. rewrite Hop, Heff, Hr; [done|]. apply Ha.
Qed.

(** Hydrating the metadata of a loaded deck replaces what the deck shows
    without advancing the state revision. *)
Theorem hydration_keeps_revision s o d m load deck r :
  obs_observation o = TrackMetadataHydrated d m load →
  sequence_stale (rs_source_sequences s) (obs_source_id o) (obs_sequence o) = false →
  time_regressed (rs_source_times s) (obs_source_id o) (obs_observed_at o) = false →
  rs_decks s !! d = Some deck → deck_track_load_id deck = load →
  reduce s (Observation o) = Ok r →
  rs_revision (red_state r) = rs_revision s ∧
  deck_metadata <$> rs_decks (red_state r) !! d = Some m.
Proof.
  intros Ho Hs Ht Hd Hl Hr. apply reduce_Ok in Hr as (s1 & He & Hfin & _ & _ & -> & _).
  simpl in He. unfold reduce_observation in He. rewrite Hs in He. simpl in He. rewrite Ht in He.
  unfold dispatch_observation in He. rewrite Ho in He. unfold observe_hydrated in He. simpl in He.
  rewrite Hd, Hl, Z.eqb_refl in He. simpl in He. injection He as <- Hdec Heff Hch.
  apply finish_reduction_Ok in Hfin as (_ & _ & ->). rewrite <- Hch. simpl.
  by rewrite lookup_insert_eq.
Qed.

(** Off is accepted in every operation state.  It switches off, closes the
    output and forgets the last cue, but keeps every stored plan and the active
    plan, so that the next Start can restore it. *)
Theorem off_keeps_active_plan s c r :
  cmd_command c = CmdOff →
  sequence_stale (rs_command_sequences s) (cmd_client_id c) (cmd_sequence c) = false →
  reduce s (UserCommand c) = Ok r →
  rs_operation (red_state r) = OpOff ∧
  red_effects r = [EnsureOutputClosed DOperationTransitionAccepted] ∧
  rs_last_scheduled_cue (red_state r) = None ∧
  rs_active_plan (red_state r) = rs_active_plan s ∧ rs_plans (red_state r) = rs_plans s.
Proof.
  intros Hc Hs Hr. apply reduce_Ok in Hr as (s1 & He & Hfin & _).
  apply finish_reduction_Ok in Hfin as (_ & _ & ->).
  simpl in He. unfold reduce_command in He. rewrite Hs in He.
  destruct (negb _); [done|]. rewrite Hc in He. injection He as <- _ <- <-. simpl. done.
Qed.

(** ** Witnesses *)

Definition demo_live : RuntimeState := (run_events RuntimeState_default demo_start).1.

Lemma demo_start_wf : Forall event_wf demo_start.
Proof.
  repeat apply Forall_cons_2; try exact I.
  - apply demo_metadata_wf.
  - apply demo_plan_wf.
  - split; vm_compute; discriminate.
  - constructor.
Qed.

Lemma demo_live_wf : state_wf demo_live.
Proof. apply run_state_wf; [apply state_wf_default|apply demo_start_wf]. Qed.

Lemma demo_live_authorized : ∃ r, authorized demo_live r ∧ req_cue_id r = 11.
Proof.
  destruct (cues_of (run_events RuntimeState_default demo_start).2) as [|r l] eqn:E;
    [vm_compute in E; discriminate E|].
  exists r. vm_compute in E. injection E as <- _. split; [|done].
  split; [vm_compute; reflexivity| | |vm_compute; reflexivity|vm_compute; reflexivity].
  - eexists. split; [vm_compute; reflexivity|]. by repeat split.
  - exists demo_plan, (LightingCue_new 11 0 0 16 (ApplyLook (demo_look 1 CatAmbient))
      OriginAutomatic (PhraseCategoryMatched KindIntro CatAmbient)).
    by repeat split.
Qed.

Definition demo_saturation : QueueOverloadEvent := mkQueueOverloadEvent 9 KindObservation false 1.

Lemma reachable_state_wf_witness : state_wf (run_events RuntimeState_default demo_start).1.
Proof. apply (reachable_state_wf demo_start). apply demo_start_wf. Defined.

Lemma cue_authorized_witness :
  ∃ r req, reduce demo_live (demo_observation 5 6 (PhraseChanged 1 100 1)) = Ok r ∧
    authorized (red_state r) req ∧ req_cue_id req = 12.
Proof.
  destruct (reduce demo_live (demo_observation 5 6 (PhraseChanged 1 100 1))) as [r|] eqn:E;
    [|vm_compute in E; discriminate E].
  destruct (cues_of (red_effects r)) as [|req l] eqn:Hc;
    [vm_compute in E; injection E as <-; vm_compute in Hc; discriminate Hc|].
  exists r, req. split; [reflexivity|]. split.
  - apply (cue_authorized demo_live _ r req E).
    vm_compute in E. injection E as <-. vm_compute in Hc. injection Hc as <- _. by left.
  - vm_compute in E. injection E as <-. vm_compute in Hc. injection Hc as <- _. reflexivity.
Defined.

Lemma no_repeated_cue_witness :
  ∃ r1 r2, cues_of (run_events demo_live
      (demo_phrases ++ [demo_observation 7 8 (PhraseChanged 1 100 0)])).2 = [r1; r2] ∧
    request_identity r1 ≠ request_identity r2.
Proof.
  destruct (cues_of (run_events demo_live
      (demo_phrases ++ [demo_observation 7 8 (PhraseChanged 1 100 0)])).2)
    as [|r1 [|r2 [|]]] eqn:E; try (vm_compute in E; discriminate E).
  exists r1, r2. split; [reflexivity|].
  apply (no_repeated_cue 1 demo_live
    (demo_phrases ++ [demo_observation 7 8 (PhraseChanged 1 100 0)]) 0 r1 r2).
  - intros e He. repeat (apply elem_of_cons in He as [->|He]; [reflexivity|]).
    destruct (not_elem_of_nil _ He).
  - rewrite E. reflexivity.
  - rewrite E. reflexivity.
  - vm_compute in E. injection E as <- _. reflexivity.
Defined.

Lemma gate_refinement_witness :
  ∃ l, event_label (demo_command 3 8 CmdPause) l ∧ gate_step OpLive l OpPaused.
Proof.
  destruct (reduce demo_live (demo_command 3 8 CmdPause)) as [r|] eqn:E;
    [|vm_compute in E; discriminate E].
  destruct (gate_refinement demo_live _ r E) as (l & Hl & Hg & _). exists l. split; [exact Hl|].
  vm_compute in E. injection E as <-. exact Hg.
Defined.

Lemma no_output_until_start_witness :
  cues_of (run_events RuntimeState_default (take 7 demo_start)).2 = [].
Proof.
  apply (no_output_until_start RuntimeState_default (take 7 demo_start)).
  - discriminate.
  - repeat constructor.
Defined.

Lemma reduce_total_witness : is_ok (reduce demo_live (QueueOverloaded demo_saturation)).
Proof.
  apply (reduce_total demo_live (QueueOverloaded demo_saturation)).
  - apply demo_live_wf.
  - vm_compute. reflexivity.
  - exact I.
Defined.

Lemma pause_start_restores_witness :
  ∃ r', cues_of (run_events demo_live [demo_command 3 8 CmdPause; demo_command 4 9 CmdStart]).2
    = [r'] ∧ req_cue_id r' = 11.
Proof.
  destruct demo_live_authorized as (r & Ha & Hc).
  destruct (pause_start_restores demo_live r (mkUserCommandEnvelope 1 3 8 50 CmdPause)
    (mkUserCommandEnvelope 1 4 9 50 CmdStart) demo_live_wf Ha) as (r' & Hr & Hid & _);
    try (vm_compute; reflexivity).
  exists r'. split; [exact Hr|]. injection Hid. congruence.
Defined.

Lemma saturation_start_does_not_restore_witness :
  rs_operation (run_events demo_live
    [QueueOverloaded demo_saturation; demo_command 3 9 CmdStart]).1 = OpLive ∧
  cues_of (run_events demo_live
    [QueueOverloaded demo_saturation; demo_command 3 9 CmdStart]).2 = [].
Proof.
  destruct demo_live_authorized as (r & Ha & _).
  apply (saturation_start_does_not_restore demo_live r demo_saturation
    (mkUserCommandEnvelope 1 3 9 50 CmdStart) demo_live_wf Ha); vm_compute; reflexivity.
Defined.

Lemma hydration_keeps_revision_witness :
  ∃ r, reduce demo_live (demo_observation 5 6 (TrackMetadataHydrated 1 demo_metadata 100)) = Ok r ∧
    rs_revision (red_state r) = 8.
Proof.
  destruct (reduce demo_live (demo_observation 5 6 (TrackMetadataHydrated 1 demo_metadata 100)))
    as [r|] eqn:E; [|vm_compute in E; discriminate E].
  exists r. split; [reflexivity|].
  destruct (rs_decks demo_live !! 1) as [deck|] eqn:Hd; [|vm_compute in Hd; discriminate Hd].
  rewrite (proj1 (hydration_keeps_revision demo_live
    (mkObservationEnvelope 1 5 6 (TrackMetadataHydrated 1 demo_metadata 100))
    1 demo_metadata 100 deck r eq_refl eq_refl eq_refl Hd ltac:(vm_compute in Hd; injection Hd as <-; reflexivity) E)).
  vm_compute. reflexivity.
Defined.

Lemma off_keeps_active_plan_witness :
  ∃ r, reduce demo_live (demo_command 3 8 CmdOff) = Ok r ∧
    rs_active_plan (red_state r) = Some demo_plan.
Proof.
  destruct (reduce demo_live (demo_command 3 8 CmdOff)) as [r|] eqn:E;
    [|vm_compute in E; discriminate E].
  exists r. split; [reflexivity|].
  destruct (off_keeps_active_plan demo_live
    (mkUserCommandEnvelope 1 3 8 50 CmdOff) r eq_refl eq_refl E) as (_ & _ & _ & Hp & _).
  rewrite Hp. vm_compute. reflexivity.
Defined.
