(* ===== verification/Replay.v ===== *)
(** * Replays: every accepted event is processed at most once

    The reducer keeps the highest sequence number of every source, client and
    worker.  Over any later run these only grow, so a redelivered event changes
    nothing but the event counter, the last decision and the timeline. *)

From stdpp Require Import prelude list gmap strings.
From Stdlib Require Import ZArith Lia.
From S2P Require Import Prelude.
From S2P Require Import Track.
From S2P Require Import Plan.
From S2P Require Import Event.
From S2P Require Import State.
From S2P Require Import Reducer.
From S2P Require Import ReducerInv.
From S2P Require Import ReducerSafety.
From S2P Require Import Demo.
From S2P Require Import ReducerProps.
Open Scope Z_scope.

(** The three watermark maps. *)
Definition watermarks (s : RuntimeState) : gmap Z Z * gmap Z Z * gmap Z Z :=
  (rs_source_sequences s, rs_command_sequences s, rs_effect_sequences s).

(** Pointwise order of watermark maps: known keys stay and never go back. *)
Definition grows (m m' : gmap Z Z) : Prop :=
  ∀ k n, m !! k = Some n → ∃ n', m' !! k = Some n' ∧ n ≤ n'.

#[global] Instance grows_preorder : PreOrder grows.
Proof.
  split; [intros m k n ?; exists n; auto with lia|].
  intros m1 m2 m3 H12 H23 k n Hk. destruct (H12 _ _ Hk) as (n2 & Hk2 & ?).
  destruct (H23 _ _ Hk2) as (n3 & ? & ?). exists n3. auto with lia.
Qed.

Lemma grows_insert (m : gmap Z Z) k n : sequence_stale m k n = false → grows m (<[k := n]> m).
Proof.
  unfold sequence_stale. intros Hs j x Hj. destruct (decide (j = k)) as [->|Hne].
  - rewrite Hj in Hs. apply Z.leb_gt in Hs. exists n. rewrite lookup_insert_eq. auto with lia.
  - exists x. rewrite lookup_insert_ne by done. auto with lia.
Qed.

Definition watermarks_grow (s s' : RuntimeState) : Prop :=
  grows (rs_source_sequences s) (rs_source_sequences s') ∧
  grows (rs_command_sequences s) (rs_command_sequences s') ∧
  grows (rs_effect_sequences s) (rs_effect_sequences s').

#[global] Instance watermarks_grow_preorder : PreOrder watermarks_grow.
Proof.
  split; [by intros s; split_and!|]. intros s1 s2 s3 (? & ? & ?) (? & ? & ?).
  split_and!; by etrans.
Qed.

Lemma watermarks_eq_grow s s' : watermarks s' = watermarks s → watermarks_grow s s'.
Proof. intros [= H1 H2 H3]. unfold watermarks_grow. by rewrite H1, H2, H3. Qed.

(** Scheduling and the observation arms never touch the watermarks. *)
Lemma execution_effect_watermarks s d load i at_ s' eff :
  execution_effect s d load i at_ = Ok (s', eff) → watermarks s' = watermarks s.
Proof.
  by intros [[-> _]|(r & plan & cue & _ & _ & _ & _ & _ & _ & _ & _ & ->)]%execution_effect_spec.
Qed.

Lemma schedule_or_watermarks s d load i at_ otherwise s' decision effects :
  schedule_or s d load i at_ otherwise = Ok (s', decision, effects) → watermarks s' = watermarks s.
Proof. intros (eff & He & _)%schedule_or_spec. by eapply execution_effect_watermarks. Qed.

Lemma forget_scheduled_cue_watermarks d s : watermarks (forget_scheduled_cue d s) = watermarks s.
Proof. unfold forget_scheduled_cue. by case_match. Qed.

Lemma forget_active_plan_watermarks d s : watermarks (forget_active_plan d s) = watermarks s.
Proof. unfold forget_active_plan. by case_match. Qed.

Lemma dispatch_observation_watermarks s event s' decision effects :
  dispatch_observation s event = Ok (s', decision, effects) → watermarks s' = watermarks s.
Proof.
  unfold dispatch_observation, observe_hydrated, observe_position, observe_seeked, observe_tempo,
    observe_playback, observe_unloaded, observe_phrase, observe_leader.
  intros H. repeat (case_match; try done); simplify_eq; try done;
    try (apply schedule_or_watermarks in H; rewrite H); unfold load_track;
    by rewrite ?forget_active_plan_watermarks, ?forget_scheduled_cue_watermarks,
      ?forget_active_plan_watermarks.
Qed.

Lemma reduce_event_watermarks s e s' decision effects changed :
  reduce_event s e = Ok (s', decision, effects, changed) → watermarks_grow s s'.
Proof.
  destruct e as [at_|o|c|r|q]; simpl.
  - unfold reduce_runtime_started. destruct (negb _); [done|]. by intros [= <- _ _ _].
  - unfold reduce_observation. destruct (sequence_stale _ _ _) eqn:Hs; [by intros [= <- _ _ _]|].
    apply grows_insert in Hs. destruct (time_regressed _ _ _); [by intros [= <- _ _ _]|].
    rewrite result_bind_Ok. intros ([[s1 dec] effs] & Hd & [= <- _ _ _]).
    apply dispatch_observation_watermarks in Hd. etrans; [|apply (watermarks_eq_grow _ _ Hd)].
    by split.
  - unfold reduce_command. destruct (sequence_stale _ _ _) eqn:Hs; [by intros [= <- _ _ _]|].
    apply grows_insert in Hs. destruct (negb _); [done|].
    destruct (operation_target _ _) as [[]|]; [..|done].
    1,2,4: intros [= <- _ _ _]; by split.
    destruct (current_execution _) as [[[d load] i]|]; [|intros [= <- _ _ _]; by split].
    rewrite result_bind_Ok. intros ([s1 eff] & He & [= <- _ _ _]).
    apply execution_effect_watermarks in He. etrans; [|apply (watermarks_eq_grow _ _ He)].
    by split.
  - unfold reduce_effect_result. destruct (sequence_stale _ _ _) eqn:Hs; [by intros [= <- _ _ _]|].
    apply grows_insert in Hs. destruct (eff_result r) as [plan|out|].
    2,3: intros [= <- _ _ _]; by split.
    unfold reduce_plan_generated. destruct (rs_decks _ !! _); [|intros [= <- _ _ _]; by split].
    destruct (_ || _); [intros [= <- _ _ _]; by split|]. rewrite result_bind_Ok.
    intros (rev & _ & H). destruct (_ <? _); [simplify_eq; by split|].
    destruct (negb _); [done|]. simplify_eq. case_bool_decide; by split.
  - intros [= <- _ _ _]. by case_bool_decide.
Qed.

Lemma reduce_watermarks s e r : reduce s e = Ok r → watermarks_grow s (red_state r).
Proof.
  unfold reduce. rewrite result_bind_Ok. intros ([[[s1 dec] effs] ch] & He & Hf).
  apply reduce_event_watermarks in He. apply finish_reduction_Ok in Hf as (_ & _ & ->); simpl.
  etrans; [exact He|]. apply watermarks_eq_grow. by destruct ch.
Qed.

Lemma run_watermarks s es : watermarks_grow s (run_events s es).1.
Proof.
  revert s. induction es as [|e es IH]; intros s; [done|]. rewrite run_events_cons; simpl.
  etrans; [|apply IH]. unfold step_event. destruct (reduce s e) eqn:Hr; [|done].
  by apply reduce_watermarks in Hr.
Qed.

(** ** Seen events *)

(** The event would be classified as stale or duplicate. *)
Definition already_seen (s : RuntimeState) (e : DomainEvent) : bool :=
  match e with
  | Observation o => sequence_stale (rs_source_sequences s) (obs_source_id o) (obs_sequence o)
  | UserCommand c => sequence_stale (rs_command_sequences s) (cmd_client_id c) (cmd_sequence c)
  | EffectResultEvent r => sequence_stale (rs_effect_sequences s) (eff_worker_id r) (eff_sequence r)
  | _ => false
  end.

(** The decision with which a replay is ignored. *)
Definition replay_decision (e : DomainEvent) : DecisionReason :=
  match e with
  | UserCommand _ => DDuplicateCommandIgnored
  | EffectResultEvent _ => DDuplicateEffectIgnored
  | _ => DStaleObservationIgnored
  end.

(** Events that carry a sequence number. *)
Definition sequenced (e : DomainEvent) : bool :=
  match e with Observation _ | UserCommand _ | EffectResultEvent _ => true | _ => false end.

Lemma stale_grows m m' k n : grows m m' → sequence_stale m k n = true → sequence_stale m' k n = true.
Proof.
  unfold sequence_stale. intros Hg. destruct (m !! k) as [x|] eqn:Hk; [|done].
  destruct (Hg _ _ Hk) as (x' & -> & ?). rewrite !Z.leb_le. lia.
Qed.

Lemma already_seen_grows s s' e :
  watermarks_grow s s' → already_seen s e = true → already_seen s' e = true.
Proof. intros (? & ? & ?). destruct e; simpl; [done|by apply stale_grows..|done]. Qed.

Lemma stale_insert (m : gmap Z Z) k n : sequence_stale (<[k := n]> m) k n = true.
Proof. unfold sequence_stale. rewrite lookup_insert_eq. apply Z.leb_refl. Qed.

Lemma reduce_event_seen s e s' decision effects changed :
  sequenced e = true → reduce_event s e = Ok (s', decision, effects, changed) →
  already_seen s' e = true.
Proof.
  destruct e as [at_|o|c|r|q]; simpl; try done; intros _.
  - unfold reduce_observation. destruct (sequence_stale _ _ _) eqn:Hs; [by intros [= <- _ _ _]|].
    destruct (time_regressed _ _ _); [intros [= <- _ _ _]; apply stale_insert|].
    rewrite result_bind_Ok. intros ([[s1 dec] effs] & Hd & [= <- _ _ _]).
    apply dispatch_observation_watermarks in Hd. injection Hd as Hd _ _. rewrite Hd.
    apply stale_insert.
  - unfold reduce_command. destruct (sequence_stale _ _ _) eqn:Hs; [by intros [= <- _ _ _]|].
    destruct (negb _); [done|]. destruct (operation_target _ _) as [[]|]; [..|done].
    1,2,4: intros [= <- _ _ _]; apply stale_insert.
    destruct (current_execution _) as [[[d load] i]|]; [|intros [= <- _ _ _]; apply stale_insert].
    rewrite result_bind_Ok. intros ([s1 eff] & He & [= <- _ _ _]).
    apply execution_effect_watermarks in He. injection He as _ He _. rewrite He.
    apply stale_insert.
  - unfold reduce_effect_result. destruct (sequence_stale _ _ _) eqn:Hs; [by intros [= <- _ _ _]|].
    destruct (eff_result r) as [plan|out|].
    2,3: intros [= <- _ _ _]; apply stale_insert.
    unfold reduce_plan_generated.
    destruct (rs_decks _ !! _); [|intros [= <- _ _ _]; apply stale_insert].
    destruct (_ || _); [intros [= <- _ _ _]; apply stale_insert|]. rewrite result_bind_Ok.
    intros (rev & _ & H). destruct (_ <? _); [simplify_eq; apply stale_insert|].
    destruct (negb _); [done|]. simplify_eq. case_bool_decide; apply stale_insert.
Qed.

Lemma reduce_event_replay s e :
  sequenced e = true → already_seen s e = true →
  reduce_event s e = Ok (s, replay_decision e, [], false).
Proof.
  destruct e; simpl; try done; intros _ Hs.
  - unfold reduce_observation. by rewrite Hs.
  - unfold reduce_command. by rewrite Hs.
  - unfold reduce_effect_result. by rewrite Hs.
Qed.

(** C5: an accepted observation, command or effect result is processed at most
    once.  After any later run, delivering it again succeeds with no effect and
    no revision change; the state differs only in the event counter, the last
    decision and one timeline entry that marks the replay. *)
Theorem replay_ignored s e r es :
  let s' := (run_events (red_state r) es).1 in
  reduce s e = Ok r → sequenced e = true → rs_processed_events s' < U64_MAX →
  reduce s' e =
  Ok (mkReduction
        (push_timeline
           (TimelineEntry_from_event (rs_processed_events s' + 1) e (replay_decision e))
           (set_last_decision (Some (replay_decision e))
              (set_processed_events (rs_processed_events s' + 1) s')))
        (replay_decision e) [] false).
Proof.
  intros s' Hr Hq Hp.
  assert (already_seen s' e = true) as Hseen.
  { eapply already_seen_grows; [apply run_watermarks|].
    pose proof Hr as (s1 & He & Hf & _)%reduce_Ok.
    apply reduce_event_seen in He; [|done]. eapply already_seen_grows, He.
    apply finish_reduction_Ok in Hf as (_ & _ & ->); simpl.
    apply watermarks_eq_grow. by destruct (red_state_changed r). }
  unfold reduce. rewrite (reduce_event_replay _ _ Hq Hseen). cbn [result_bind].
  apply finish_reduction_Ok. split; [lia|]. done.
Qed.

Definition demo_load : DomainEvent := demo_observation 1 1 (TrackLoaded 1 demo_metadata 100).

Definition demo_loaded : Reduction :=
  match reduce RuntimeState_default demo_load with
  | Ok r => r
  | Err _ => mkReduction RuntimeState_default DRuntimeInitialized [] false
  end.

Lemma replay_ignored_witness :
  reduce RuntimeState_default demo_load = Ok demo_loaded ∧
  ∃ r, reduce (run_events (red_state demo_loaded) [RuntimeStarted 2]).1 demo_load = Ok r ∧
    red_effects r = [] ∧ red_decision r = DStaleObservationIgnored.
Proof.
  split; [vm_compute; reflexivity|]. eexists. split.
  - apply (replay_ignored RuntimeState_default demo_load demo_loaded [RuntimeStarted 2]);
      vm_compute; reflexivity.
  - split; reflexivity.
Defined.
