(* ===== verification/Runtime.v ===== *)
(** * Bounded ingress queue and serialized runtime

    Models [lumi-domain/src/queue.rs] and [lumi-domain/src/runtime.rs]: a queue of
    fixed capacity in which critical events displace observations, one reserved
    slot that reports saturation, and the loop that reduces one event at a time.
    A method with [&mut self] returns the new value with its result. *)

From stdpp Require Import prelude list gmap strings.
From Stdlib Require Import ZArith Lia.
From S2P Require Import Prelude.
From S2P Require Import Track.
From S2P Require Import Plan.
From S2P Require Import Event.
From S2P Require Import State.
From S2P Require Import Reducer.
From S2P Require Import ReducerInv.
From S2P Require Import ReducerSafety.
From S2P Require Import Demo.
From S2P Require Import ReducerProps.
Open Scope Z_scope.

Record BoundedEventQueue := mkBoundedEventQueue {
  q_capacity : nat;
  q_events : list DomainEvent;
  q_pending_overload : option QueueOverloadEvent;
}.

Inductive IngressOutcome : Type :=
| Accepted
| AcceptedAfterEvictingNonCritical (evicted_kind : DomainEventKind).

Inductive IngressError : Type :=
| Saturated (rejected_kind : DomainEventKind) (critical : bool).

Inductive InvalidQueueCapacity : Type := mkInvalidQueueCapacity.

Definition BoundedEventQueue_try_new (capacity : nat) :
    result BoundedEventQueue InvalidQueueCapacity :=
  if bool_decide (capacity = 0%nat) then Err mkInvalidQueueCapacity
  else Ok (mkBoundedEventQueue capacity [] None).

Definition queue_len (q : BoundedEventQueue) : nat :=
  length (q_events q) + (if q_pending_overload q then 1 else 0)%nat.

Definition queue_is_empty (q : BoundedEventQueue) : bool :=
  match q_events q, q_pending_overload q with [], None => true | _, _ => false end.

Definition record_overload (event : DomainEvent) (q : BoundedEventQueue) : BoundedEventQueue :=
  let overload :=
    match q_pending_overload q with
    | Some overload =>
        mkQueueOverloadEvent (ovl_occurred_at overload) (DomainEvent_kind event)
          (ovl_rejected_critical overload || is_critical event)
          (saturating_add_u64 (ovl_occurrences overload) 1)
    | None =>
        mkQueueOverloadEvent (DomainEvent_monotonic_time event) (DomainEvent_kind event)
          (is_critical event) 1
    end in
  mkBoundedEventQueue (q_capacity q) (q_events q) (Some overload).

(** [iter().rposition(p)]: the last index whose element satisfies [p]. *)
Fixpoint rposition {A} (p : A → bool) (l : list A) : option nat :=
  match l with
  | [] => None
  | x :: l' =>
      match rposition p l' with
      | Some i => Some (S i)
      | None => if p x then Some 0%nat else None
      end
  end.

Definition queue_push (event : DomainEvent) (q : BoundedEventQueue) :
    BoundedEventQueue * result IngressOutcome IngressError :=
  if bool_decide (length (q_events q) < q_capacity q)%nat then
    (mkBoundedEventQueue (q_capacity q) (q_events q ++ [event]) (q_pending_overload q),
     Ok Accepted)
  else
    let q := record_overload event q in
    let saturated := Err (Saturated (DomainEvent_kind event) (is_critical event)) in
    if is_critical event then
      match rposition (λ queued, negb (is_critical queued)) (q_events q) with
      | Some index =>
          match q_events q !! index with
          | None => (q, Err (Saturated (DomainEvent_kind event) true))
          | Some evicted =>
              (mkBoundedEventQueue (q_capacity q)
                 (delete index (q_events q) ++ [event]) (q_pending_overload q),
               Ok (AcceptedAfterEvictingNonCritical (DomainEvent_kind evicted)))
          end
      | None => (q, saturated)
      end
    else (q, saturated).

Definition queue_pop (q : BoundedEventQueue) : BoundedEventQueue * option DomainEvent :=
  match q_pending_overload q with
  | Some overload =>
      (mkBoundedEventQueue (q_capacity q) (q_events q) None, Some (QueueOverloaded overload))
  | None =>
      match q_events q with
      | [] => (q, None)
      | event :: rest => (mkBoundedEventQueue (q_capacity q) rest None, Some event)
      end
  end.

(** ** The serialized runtime *)

Record SerializedRuntime := mkSerializedRuntime {
  rt_state : RuntimeState;
  rt_ingress : BoundedEventQueue;
}.

Record ProcessResult := mkProcessResult {
  pr_event_kind : DomainEventKind;
  pr_state_revision : StateRevision;
  pr_decision : DecisionReason;
  pr_effects : list Effect;
}.

Definition SerializedRuntime_try_new (queue_capacity : nat) :
    result SerializedRuntime InvalidQueueCapacity :=
  let? ingress := BoundedEventQueue_try_new queue_capacity in
  Ok (mkSerializedRuntime RuntimeState_default ingress).

Definition submit (event : DomainEvent) (rt : SerializedRuntime) :
    SerializedRuntime * result IngressOutcome IngressError :=
  let '(ingress, outcome) := queue_push event (rt_ingress rt) in
  (mkSerializedRuntime (rt_state rt) ingress, outcome).

Definition process_next (rt : SerializedRuntime) :
    SerializedRuntime * result (option ProcessResult) ReducerError :=
  let '(ingress, popped) := queue_pop (rt_ingress rt) in
  match popped with
  | None => (mkSerializedRuntime (rt_state rt) ingress, Ok None)
  | Some event =>
      match reduce (rt_state rt) event with
      | Err error => (mkSerializedRuntime (rt_state rt) ingress, Err error)
      | Ok reduction =>
          (mkSerializedRuntime (red_state reduction) ingress,
           Ok (Some (mkProcessResult (DomainEvent_kind event)
                       (rs_revision (red_state reduction)) (red_decision reduction)
                       (red_effects reduction))))
      end
  end.

(** ** The queue *)

Lemma rposition_Some {A} (p : A → bool) l i :
  rposition p l = Some i →
  ∃ l1 x l2, l = l1 ++ x :: l2 ∧ length l1 = i ∧ p x = true ∧ Forall (λ y, p y = false) l2.
Proof.
  revert i; induction l as [|y l IH]; intros i; simpl; [done|].
  destruct (rposition p l) as [j|] eqn:Hj.
  - intros [= <-]. destruct (IH j eq_refl) as (l1 & x & l2 & -> & <- & ? & ?).
    by exists (y :: l1), x, l2.
  - destruct (p y) eqn:Hy; [|done]. intros [= <-]. exists [], y, l. repeat split; auto.
    clear IH Hy. induction l as [|z l IHl]; constructor; simpl in Hj.
    all: destruct (rposition p l) eqn:?; [done|]; destruct (p z); auto; done.
Qed.

Lemma rposition_None {A} (p : A → bool) l :
  rposition p l = None ↔ Forall (λ y, p y = false) l.
Proof.
  induction l as [|y l IH]; simpl; [done|]. rewrite Forall_cons, <- IH.
  destruct (rposition p l); [naive_solver|]. destruct (p y); naive_solver.
Qed.

(** The three outcomes of a push. *)
Lemma queue_push_cases event q :
  (length (q_events q) ≤ q_capacity q)%nat →
  let '(q', outcome) := queue_push event q in
  q_capacity q' = q_capacity q ∧ (length (q_events q') ≤ q_capacity q')%nat ∧
  match outcome with
  | Ok Accepted =>
      q_events q' = q_events q ++ [event] ∧ q_pending_overload q' = q_pending_overload q
  | Ok (AcceptedAfterEvictingNonCritical kind) =>
      is_critical event = true ∧ length (q_events q) = q_capacity q ∧
      is_Some (q_pending_overload q') ∧
      ∃ l1 evicted l2, q_events q = l1 ++ evicted :: l2 ∧ is_critical evicted = false ∧
        Forall (λ e, is_critical e = true) l2 ∧ kind = DomainEvent_kind evicted ∧
        q_events q' = l1 ++ l2 ++ [event]
  | Err (Saturated kind critical) =>
      kind = DomainEvent_kind event ∧ critical = is_critical event ∧
      length (q_events q) = q_capacity q ∧ q_events q' = q_events q ∧
      (critical = true → Forall (λ e, is_critical e = true) (q_events q)) ∧
      ∃ o, q_pending_overload q' = Some o ∧ ovl_rejected_kind o = DomainEvent_kind event ∧
        (is_critical event = true → ovl_rejected_critical o = true)
  end.
Proof.
  intros Hlen. unfold queue_push. case_bool_decide as Hc.
  { simpl. rewrite length_app; simpl. repeat split; lia. }
  assert (length (q_events q) = q_capacity q) as Hfull by lia.
  assert (∀ r, ∃ o, q_pending_overload (record_overload event r) = Some o ∧
    ovl_rejected_kind o = DomainEvent_kind event ∧
    (is_critical event = true → ovl_rejected_critical o = true)) as Hov.
  { intros r. eexists. split; [done|]. destruct (q_pending_overload r) as [o|]; simpl;
      (split; [done|]); [intros ->; apply orb_true_r|done]. }
  destruct (is_critical event) eqn:Hcrit.
  2:{ simpl q_capacity. simpl q_events. split_and!; auto; lia. }
  simpl q_events.
  destruct (rposition _ (q_events q)) as [i|] eqn:Hi.
  - destruct (rposition_Some _ _ _ Hi) as (l1 & x & l2 & Hq & Hl1 & Hx & Hl2).
    assert (q_events q !! i = Some x) as -> by (by rewrite Hq, list_lookup_middle).
    assert (delete i (q_events q) = l1 ++ l2) as -> by (by rewrite Hq, <- Hl1, delete_middle).
    simpl. rewrite <- Hfull, Hq, !length_app; simpl. repeat split; try lia; [by eexists|].
    exists l1, x, l2. rewrite <- app_assoc. repeat split; auto; [by apply negb_true_iff in Hx|].
    eapply Forall_impl; [exact Hl2|]. intros e. by rewrite negb_false_iff.
  - simpl q_capacity. simpl q_events. split_and!; auto; try lia. intros _. apply rposition_None in Hi.
    eapply Forall_impl; [exact Hi|]. intros e. by rewrite negb_false_iff.
Qed.

(** ** Traces of the queue *)

Inductive QueueOp : Type := QPush (event : DomainEvent) | QPop.

(** One operation with what it accepts into the queue and what it delivers from
    it.  The report of the reserved slot is not an accepted event. *)
Definition queue_step (q : BoundedEventQueue) (op : QueueOp) :
    BoundedEventQueue * list DomainEvent * list DomainEvent :=
  match op with
  | QPush event =>
      let '(q', outcome) := queue_push event q in
      (q', match outcome with Ok _ => [event] | Err _ => [] end, [])
  | QPop =>
      let '(q', popped) := queue_pop q in
      (q', [], match q_pending_overload q with Some _ => [] | None => option_list popped end)
  end.

Fixpoint queue_run (q : BoundedEventQueue) (ops : list QueueOp) :
    BoundedEventQueue * list DomainEvent * list DomainEvent :=
  match ops with
  | [] => (q, [], [])
  | op :: ops =>
      let '(q1, accepted, delivered) := queue_step q op in
      let '(q2, accepted', delivered') := queue_run q1 ops in
      (q2, accepted ++ accepted', delivered ++ delivered')
  end.

Definition criticals (l : list DomainEvent) : list DomainEvent := List.filter is_critical l.

Lemma criticals_app l1 l2 : criticals (l1 ++ l2) = criticals l1 ++ criticals l2.
Proof. apply List.filter_app. Qed.

Lemma criticals_cons_observation e l : is_critical e = false → criticals (e :: l) = criticals l.
Proof. intros H. unfold criticals. simpl. by rewrite H. Qed.

(** One operation keeps the contents: what was queued and what it accepts is
    what it delivers and what stays queued, except that an observation may be
    dropped to make room for a critical event. *)
Lemma queue_step_contents q op q' accepted delivered :
  (length (q_events q) ≤ q_capacity q)%nat →
  queue_step q op = (q', accepted, delivered) →
  q_capacity q' = q_capacity q ∧ (length (q_events q') ≤ q_capacity q')%nat ∧
  criticals (q_events q ++ accepted) = criticals (delivered ++ q_events q') ∧
  delivered ++ q_events q' `sublist_of` q_events q ++ accepted.
Proof.
  intros Hlen. destruct op as [event|]; simpl.
  - pose proof (queue_push_cases event q Hlen) as H.
    destruct (queue_push event q) as [q1 outcome]. destruct H as (Hc & Hl & H).
    intros [= <- <- <-]. split; [done|]. split; [done|].
    destruct outcome as [[|kind]|[kind critical]]; simpl.
    + destruct H as [-> _]. done.
    + destruct H as (_ & _ & _ & l1 & x & l2 & Hq & Hx & _ & _ & ->).
      rewrite Hq, <- app_assoc. simpl. split.
      * rewrite !criticals_app. by rewrite criticals_cons_observation, criticals_app.
      * apply sublist_app; [done|]. by apply sublist_cons.
    + destruct H as (_ & _ & _ & -> & _). by rewrite app_nil_r.
  - unfold queue_pop. destruct (q_pending_overload q) as [o|].
    { intros [= <- <- <-]; simpl. by rewrite app_nil_r. }
    destruct (q_events q) as [|e rest] eqn:Hq; intros [= <- <- <-]; simpl.
    + rewrite Hq. done.
    + rewrite app_nil_r. simpl in Hlen. repeat split; auto. lia.
Qed.

Lemma queue_run_contents q ops q' accepted delivered :
  (length (q_events q) ≤ q_capacity q)%nat →
  queue_run q ops = (q', accepted, delivered) →
  q_capacity q' = q_capacity q ∧ (length (q_events q') ≤ q_capacity q')%nat ∧
  criticals (q_events q ++ accepted) = criticals (delivered ++ q_events q') ∧
  delivered ++ q_events q' `sublist_of` q_events q ++ accepted.
Proof.
  revert q q' accepted delivered. induction ops as [|op ops IH]; intros q q' acc del Hq; simpl.
  { intros [= <- <- <-]. simpl. by rewrite app_nil_r. }
  destruct (queue_step q op) as [[q1 a1] d1] eqn:H1.
  destruct (queue_run q1 ops) as [[q2 a2] d2] eqn:H2. intros [= <- <- <-].
  destruct (queue_step_contents _ _ _ _ _ Hq H1) as (Hc1 & Hl1 & Hf1 & Hs1).
  destruct (IH _ _ _ _ Hl1 H2) as (Hc2 & Hl2 & Hf2 & Hs2). split; [congruence|]. split; [done|].
  split.
  - rewrite <- app_assoc. rewrite (app_assoc _ a1), criticals_app, Hf1.
    rewrite (criticals_app d1 (q_events q1)), <- app_assoc, <- criticals_app, Hf2.
    by rewrite <- criticals_app.
  - etrans; [|rewrite app_assoc; apply sublist_app; [exact Hs1|done]].
    rewrite <- !app_assoc. by apply sublist_app.
Qed.

(** C8: the ingress queue never loses or reorders a critical event it accepted.
    For every sequence of pushes and pops on a new queue, the accepted critical
    events are, in order, the delivered ones followed by the queued ones; the
    other events are delivered in order and may only be missing; the queue never
    holds more than its capacity plus the one reserved report. *)
Theorem queue_critical_fifo (capacity : nat) (ops : list QueueOp) q0 q accepted delivered :
  BoundedEventQueue_try_new capacity = Ok q0 →
  queue_run q0 ops = (q, accepted, delivered) →
  criticals accepted = criticals delivered ++ criticals (q_events q) ∧
  delivered ++ q_events q `sublist_of` accepted ∧
  (queue_len q ≤ capacity + 1)%nat.
Proof.
  unfold BoundedEventQueue_try_new. case_bool_decide; [done|]. intros [= <-] Hr.
  apply queue_run_contents in Hr as (Hc & Hl & Hf & Hs); [|simpl; lia]. simpl in *.
  split; [by rewrite Hf, criticals_app|]. split; [done|].
  unfold queue_len. destruct (q_pending_overload q); lia.
Qed.

Lemma queue_critical_fifo_witness :
  ∃ q accepted delivered,
    queue_run (mkBoundedEventQueue 1 [] None)
      [QPush (demo_observation 1 1 (SourceStatusChanged SourceReady));
       QPush (demo_command 1 0 CmdArm); QPop; QPop] = (q, accepted, delivered) ∧
    criticals accepted = criticals delivered ++ criticals (q_events q) ∧
    delivered = [demo_command 1 0 CmdArm].
Proof.
  eexists _, _, _. split; [vm_compute; reflexivity|]. split; [|vm_compute; reflexivity].
  eapply (queue_critical_fifo 1
    [QPush (demo_observation 1 1 (SourceStatusChanged SourceReady));
     QPush (demo_command 1 0 CmdArm); QPop; QPop]); [reflexivity|vm_compute; reflexivity].
Defined.

(** ** Runs of the runtime *)

Inductive RuntimeOp : Type := RSubmit (event : DomainEvent) | RProcess.

(** One operation of the runtime, with the event it takes from the queue and the
    effects it returns. *)
Definition runtime_step (rt : SerializedRuntime) (op : RuntimeOp) :
    SerializedRuntime * list DomainEvent * list Effect :=
  match op with
  | RSubmit event => ((submit event rt).1, [], [])
  | RProcess =>
      let '(rt', processed) := process_next rt in
      (rt', option_list (queue_pop (rt_ingress rt)).2,
       match processed with Ok (Some p) => pr_effects p | _ => [] end)
  end.

Fixpoint runtime_run (rt : SerializedRuntime) (ops : list RuntimeOp) :
    SerializedRuntime * list DomainEvent * list Effect :=
  match ops with
  | [] => (rt, [], [])
  | op :: ops =>
      let '(rt1, events, effects) := runtime_step rt op in
      let '(rt2, events', effects') := runtime_run rt1 ops in
      (rt2, events ++ events', effects ++ effects')
  end.

Lemma run_events_app s es1 es2 :
  run_events s (es1 ++ es2) =
  ((run_events (run_events s es1).1 es2).1,
   (run_events s es1).2 ++ (run_events (run_events s es1).1 es2).2).
Proof.
  revert s. induction es1 as [|e es1 IH]; intros s.
  - simpl. by destruct (run_events s es2).
  - rewrite <- app_comm_cons, !run_events_cons, IH. cbn [fst snd].
    f_equal. apply app_assoc.
Qed.

(** The capacity and the events of the queue stay well formed. *)
Record runtime_wf (rt : SerializedRuntime) : Prop := {
  rt_state_wf : state_wf (rt_state rt);
  rt_queue_bound : (length (q_events (rt_ingress rt)) ≤ q_capacity (rt_ingress rt))%nat;
  rt_events_wf : Forall event_wf (q_events (rt_ingress rt));
}.

Lemma queue_push_events_wf event q :
  (length (q_events q) ≤ q_capacity q)%nat → event_wf event → Forall event_wf (q_events q) →
  Forall event_wf (q_events (queue_push event q).1).
Proof.
  intros Hl He Hq. pose proof (queue_push_cases event q Hl) as H.
  destruct (queue_push event q) as [q' outcome]. destruct H as (_ & _ & H). simpl.
  destruct outcome as [[|kind]|[kind critical]].
  - destruct H as [-> _]. apply Forall_app. auto.
  - destruct H as (_ & _ & _ & l1 & x & l2 & Hx & _ & _ & _ & ->). rewrite Hx in Hq.
    apply Forall_app in Hq as [? [_ ?]%Forall_cons]. rewrite !Forall_app. auto.
  - by destruct H as (_ & _ & _ & -> & _).
Qed.

Lemma queue_pop_events_wf q :
  Forall event_wf (q_events q) →
  Forall event_wf (option_list (queue_pop q).2) ∧ Forall event_wf (q_events (queue_pop q).1) ∧
  q_capacity (queue_pop q).1 = q_capacity q ∧
  (length (q_events (queue_pop q).1) ≤ length (q_events q))%nat.
Proof.
  intros Hq. unfold queue_pop. destruct (q_pending_overload q) as [o|]; simpl.
  { split_and!; auto. by repeat constructor. }
  destruct (q_events q) as [|e l] eqn:Hl; simpl.
  - rewrite Hl. simpl. split_and!; auto.
  - apply Forall_cons in Hq as [? ?]. split_and!; auto.
Qed.

(** One operation of the runtime is a run of the reducer over the events it takes. *)
Lemma runtime_step_refines rt op rt' events effects :
  runtime_step rt op = (rt', events, effects) →
  (rt_state rt', effects) = run_events (rt_state rt) events.
Proof.
  destruct op as [event|]; simpl.
  - intros [= <- <- <-]. unfold submit. by destruct (queue_push event (rt_ingress rt)).
  - unfold process_next. destruct (queue_pop (rt_ingress rt)) as [q' [event|]]; simpl.
    + intros H. pose proof (run_events_cons (rt_state rt) event []) as Hrun.
      unfold step_event in Hrun. revert H Hrun.
      destruct (reduce (rt_state rt) event) as [r|err]; intros [= <- <- <-] ->; [|done].
      cbn [run_events fst snd rt_state]. by rewrite app_nil_r.
    + by intros [= <- <- <-].
Qed.

Lemma runtime_step_wf rt op rt' events effects :
  runtime_wf rt → match op with RSubmit e => event_wf e | RProcess => True end →
  runtime_step rt op = (rt', events, effects) → runtime_wf rt' ∧ Forall event_wf events.
Proof.
  intros [Hs Hb He] Hop Hst. pose proof (runtime_step_refines _ _ _ _ _ Hst) as Hr.
  destruct op as [event|]; simpl in Hst.
  - pose proof (queue_push_events_wf event _ Hb Hop He) as Hw.
    pose proof (queue_push_cases event _ Hb) as Hc. unfold submit in Hst.
    destruct (queue_push event (rt_ingress rt)) as [q' o]. injection Hst as <- <- <-.
    split; [|done]. destruct Hc as (_ & Hc & _). by split.
  - destruct (queue_pop_events_wf _ He) as (Hp & Hq & Hc & Hl).
    assert (Forall event_wf events ∧ rt_ingress rt' = (queue_pop (rt_ingress rt)).1) as [Hev Hin].
    { revert Hst. unfold process_next. destruct (queue_pop (rt_ingress rt)) as [q' [event|]]; simpl.
      - destruct (reduce (rt_state rt) event); by intros [= <- <- _].
      - by intros [= <- <- _]. }
    split; [|done]. split.
    + replace (rt_state rt') with (run_events (rt_state rt) events).1 by by rewrite <- Hr.
      by apply run_state_wf.
    + rewrite Hin. lia.
    + by rewrite Hin.
Qed.

Lemma runtime_run_refines rt ops rt' events effects :
  runtime_run rt ops = (rt', events, effects) →
  (rt_state rt', effects) = run_events (rt_state rt) events.
Proof.
  revert rt rt' events effects. induction ops as [|op ops IH]; intros rt rt' ev eff; simpl.
  { by intros [= <- <- <-]. }
  destruct (runtime_step rt op) as [[rt1 ev1] eff1] eqn:H1.
  destruct (runtime_run rt1 ops) as [[rt2 ev2] eff2] eqn:H2. intros [= <- <- <-].
  apply runtime_step_refines in H1. apply IH in H2.
  rewrite run_events_app, <- H1. simpl. by rewrite <- H2.
Qed.

Lemma runtime_run_wf rt ops rt' events effects :
  runtime_wf rt → Forall (λ op, match op with RSubmit e => event_wf e | RProcess => True end) ops →
  runtime_run rt ops = (rt', events, effects) → runtime_wf rt' ∧ Forall event_wf events.
Proof.
  intros Hrt Hops. revert rt Hrt rt' events effects.
  induction Hops as [|op ops Hop _ IH]; intros rt Hrt rt' ev eff; simpl.
  { intros [= <- <- <-]. auto. }
  destruct (runtime_step rt op) as [[rt1 ev1] eff1] eqn:H1.
  destruct (runtime_run rt1 ops) as [[rt2 ev2] eff2] eqn:H2. intros [= <- <- <-].
  destruct (runtime_step_wf _ _ _ _ _ Hrt Hop H1) as [Hw1 Hev1].
  destruct (IH _ Hw1 _ _ _ H2) as [? ?]. split; [done|]. by apply Forall_app.
Qed.

Lemma runtime_new_wf capacity rt : SerializedRuntime_try_new capacity = Ok rt → runtime_wf rt.
Proof.
  unfold SerializedRuntime_try_new, BoundedEventQueue_try_new. case_bool_decide; [done|].
  simpl. intros [= <-]. split; simpl; [apply state_wf_default|lia|constructor].
Qed.

(** C7: the serialized runtime refines the reducer.  After any interleaving of
    submissions and processing steps on a new runtime, its state and all effects
    it returned are those of the reducer run over exactly the events taken from
    the queue, in that order, and the runtime is well formed: state invariant,
    queue within its capacity. *)
Theorem runtime_refines_reducer (capacity : nat) (ops : list RuntimeOp) rt0 rt events effects :
  SerializedRuntime_try_new capacity = Ok rt0 →
  Forall (λ op, match op with RSubmit e => event_wf e | RProcess => True end) ops →
  runtime_run rt0 ops = (rt, events, effects) →
  (rt_state rt, effects) = run_events RuntimeState_default events ∧ runtime_wf rt.
Proof.
  intros Hnew Hops Hrun. split.
  - rewrite (runtime_run_refines _ _ _ _ _ Hrun). f_equal. revert Hnew.
    unfold SerializedRuntime_try_new, BoundedEventQueue_try_new.
    case_bool_decide; [done|]. simpl. by intros [= <-].
  - by apply (runtime_run_wf _ _ _ _ _ (runtime_new_wf _ _ Hnew) Hops Hrun).
Qed.

Lemma runtime_refines_reducer_witness :
  ∃ rt events effects,
    runtime_run (mkSerializedRuntime RuntimeState_default (mkBoundedEventQueue 2 [] None))
      [RSubmit (RuntimeStarted 0); RSubmit (demo_command 1 1 CmdArm); RProcess; RProcess]
    = (rt, events, effects) ∧
    (rt_state rt, effects) = run_events RuntimeState_default events ∧
    rs_operation (rt_state rt) = OpArmed.
Proof.
  eexists _, _, _. split; [vm_compute; reflexivity|]. split; [|vm_compute; reflexivity].
  eapply (runtime_refines_reducer 2
    [RSubmit (RuntimeStarted 0); RSubmit (demo_command 1 1 CmdArm); RProcess; RProcess]);
    [reflexivity|repeat constructor|vm_compute; reflexivity].
Defined.

(** C6: saturation fails closed.  When the queue rejects an event or has to evict
    one, the next processing step succeeds, whatever is queued: it closes the
    output, leaves the runtime degraded and not live, and records a diagnostic. *)
Theorem saturation_closes_output (rt : SerializedRuntime) (event : DomainEvent) rt1 outcome :
  runtime_wf rt → rs_processed_events (rt_state rt) < U64_MAX →
  submit event rt = (rt1, outcome) → outcome ≠ Ok Accepted →
  ∃ rt2 p, process_next rt1 = (rt2, Ok (Some p)) ∧
    pr_effects p = [EnsureOutputClosed DQueueSaturated] ∧ pr_decision p = DQueueSaturated ∧
    rs_operation (rt_state rt2) ≠ OpLive ∧ rs_health (rt_state rt2) = HealthDegraded ∧
    rt_state rt1 = rt_state rt ∧ q_events (rt_ingress rt2) = q_events (rt_ingress rt1) ∧
    ∃ d, last (rs_diagnostics (rt_state rt2)) = Some d ∧ diag_reason d = DQueueSaturated.
Proof.
  intros Hwf Hp Hsub Hout. unfold submit in Hsub.
  pose proof (queue_push_cases event _ (rt_queue_bound _ Hwf)) as Hq.
  destruct (queue_push event (rt_ingress rt)) as [q1 o]. injection Hsub as <- <-.
  assert (∃ ov, q_pending_overload q1 = Some ov) as [ov Hov].
  { destruct Hq as (_ & _ & Hq). destruct o as [[|k]|[k c]]; [done|..].
    - destruct Hq as (_ & _ & [ov ?] & _). eauto.
    - destruct Hq as (_ & _ & _ & _ & _ & ov & ? & _). eauto. }
  unfold process_next, queue_pop; simpl. rewrite Hov; simpl.
  destruct (finish_total _ (QueueOverloaded ov) _ _ _ _ (rt_state_wf _ Hwf) Hp eq_refl) as [r Hr].
  rewrite Hr. eexists _, _. split; [reflexivity|]. simpl.
  apply reduce_Ok in Hr as (s1 & Hev & _ & Ho & Hh & _ & _ & _ & _ & _ & _ & _ & Hd).
  injection Hev as <- <- <- _. rewrite Ho, Hh, Hd. split; [done|]. split; [done|].
  split; [|split; [|split; [done|split; [done|]]]].
  - case_bool_decide; simpl; [done|]. intros ?. done.
  - by case_bool_decide.
  - eexists. case_bool_decide; simpl; (split; [apply push_bounded_last|done]).
Qed.

Lemma saturation_closes_output_witness :
  ∃ rt2 p,
    process_next (submit (demo_command 1 1 CmdArm)
      (mkSerializedRuntime RuntimeState_default
         (mkBoundedEventQueue 1 [RuntimeStarted 0] None))).1 = (rt2, Ok (Some p)) ∧
    pr_effects p = [EnsureOutputClosed DQueueSaturated].
Proof.
  destruct (saturation_closes_output
    (mkSerializedRuntime RuntimeState_default (mkBoundedEventQueue 1 [RuntimeStarted 0] None))
    (demo_command 1 1 CmdArm)
    (submit (demo_command 1 1 CmdArm)
      (mkSerializedRuntime RuntimeState_default
         (mkBoundedEventQueue 1 [RuntimeStarted 0] None))).1
    (Err (Saturated KindUserCommand true))) as (rt2 & p & H1 & H2 & _).
  - split; simpl; [apply state_wf_default|lia|by repeat constructor].
  - vm_compute. reflexivity.
  - vm_compute. reflexivity.
  - discriminate.
  - exists rt2, p. auto.
Defined.
