(* ===== verification/Mixing.v ===== *)
(** * Stable hashing of the planner

    Models the hash functions at the end of [lumi-planner/src/planner.rs]
    ([stable_seed], [mix], [nonzero]) and the choice source built on them.  The
    arithmetic is on 64-bit words: values of [Z] below [2 ^ 64], with wrapping
    multiplication. *)

From stdpp Require Import prelude list gmap strings.
From Stdlib Require Import ZArith Lia.
From S2P Require Import Prelude.
Open Scope Z_scope.

Definition FNV_OFFSET_BASIS : Z := 0xcbf29ce484222325.
Definition FNV_PRIME : Z := 0x00000100000001b3.

(** [u64::to_le_bytes]. *)
Definition to_le_bytes_u64 (value : Z) : list Z :=
  (λ i : nat, Z.land (Z.shiftr value (8 * Z.of_nat i)) 255) <$> seq 0 8.

(** One round of the loop of [stable_seed]. *)
Definition fnv_step (hash byte : Z) : Z := wrapping_mul_u64 (Z.lxor hash byte) FNV_PRIME.

Definition stable_seed (track_id revision : Z) : Z :=
  foldl fnv_step FNV_OFFSET_BASIS (to_le_bytes_u64 track_id ++ to_le_bytes_u64 revision).

Definition mix (value : Z) : Z :=
  let value := Z.lxor value (Z.shiftr value 30) in
  let value := wrapping_mul_u64 value 0xbf58476d1ce4e5b9 in
  let value := Z.lxor value (Z.shiftr value 27) in
  let value := wrapping_mul_u64 value 0x94d049bb133111eb in
  Z.lxor value (Z.shiftr value 31).

Definition nonzero (value : Z) : Z := if value =? 0 then 1 else value.

(** ** Choice sources

    [ChoiceSource] is the trait the planner is generic over.  Its users index
    slices with the returned value, so an implementation must return an index
    below the number of candidates, and one whenever there is a candidate. *)
Class ChoiceSource (C : Type) := {
  choose : C → Z → Z → Z → option Z;
  choose_in_range : ∀ c seed decision count i,
    choose c seed decision count = Some i → 0 ≤ i < count;
  choose_total : ∀ c seed decision count, 0 < count → is_Some (choose c seed decision count);
}.

Inductive StableChoiceSource : Type := mkStableChoiceSource.

Definition StableChoiceSource_choose (seed decision candidate_count : Z) : option Z :=
  if candidate_count <=? 0 then None
  else
    let mixed := mix (Z.lxor seed (wrapping_mul_u64 decision 0x9e3779b97f4a7c15)) in
    Some (mixed mod candidate_count).

#[global, program] Instance StableChoiceSource_choice : ChoiceSource StableChoiceSource := {
  choose := λ _, StableChoiceSource_choose;
}.
Next Obligation.
  intros c seed decision count i. unfold StableChoiceSource_choose.
  destruct (Z.leb_spec count 0); [done|]. intros [= <-]. by apply Z.mod_pos_bound.
Qed.
Next Obligation.
  intros c seed decision count Hc. unfold StableChoiceSource_choose.
  destruct (Z.leb_spec count 0); [lia|]. by eexists.
Qed.

(** ** Words *)

Lemma in_u64_lt x : in_u64 x ↔ 0 ≤ x < 2 ^ 64.
Proof. unfold in_u64, U64_MAX. lia. Qed.

Lemma lxor_lt_pow2 x y n :
  0 < n → 0 ≤ x < 2 ^ n → 0 ≤ y < 2 ^ n → 0 ≤ Z.lxor x y < 2 ^ n.
Proof.
  intros Hn Hx Hy. assert (0 ≤ Z.lxor x y) as Hnn by (apply Z.lxor_nonneg; lia).
  split; [done|]. destruct (Z.eq_dec (Z.lxor x y) 0) as [->|Hne]; [lia|].
  apply Z.log2_lt_pow2; [lia|].
  pose proof (Z.log2_lxor x y (proj1 Hx) (proj1 Hy)).
  assert (∀ z, 0 ≤ z < 2 ^ n → Z.log2 z < n) as Hlog.
  { intros z Hz. destruct (Z.eq_dec z 0) as [->|]; [by simpl|]. apply Z.log2_lt_pow2; lia. }
  pose proof (Hlog x Hx). pose proof (Hlog y Hy). lia.
Qed.

Lemma lxor_u64 x y : in_u64 x → in_u64 y → in_u64 (Z.lxor x y).
Proof. rewrite !in_u64_lt. apply lxor_lt_pow2. lia. Qed.

Lemma wrapping_mul_u64_in x y : in_u64 (wrapping_mul_u64 x y).
Proof. apply in_u64_lt. unfold wrapping_mul_u64. apply Z.mod_pos_bound. lia. Qed.

Lemma shiftr_u64 x k : in_u64 x → 0 ≤ k → in_u64 (Z.shiftr x k).
Proof.
  rewrite !in_u64_lt. intros Hx Hk. rewrite Z.shiftr_div_pow2 by done.
  pose proof (Z.pow_pos_nonneg 2 k). split; [apply Z.div_pos; lia|].
  apply Z.div_lt_upper_bound; [lia|]. nia.
Qed.

(** ** [mix] is a bijection of 64-bit words *)

Definition xorshift (k x : Z) : Z := Z.lxor x (Z.shiftr x k).

(** The inverse of one xor-shift by [k] when [3 * k >= 64]. *)
Definition unxorshift (k y : Z) : Z :=
  Z.lxor y (Z.lxor (Z.shiftr y k) (Z.shiftr y (2 * k))).

Definition unmix (value : Z) : Z :=
  let value := unxorshift 31 value in
  let value := wrapping_mul_u64 value 3573116690164977347 in
  let value := unxorshift 27 value in
  let value := wrapping_mul_u64 value 10871156337175269513 in
  unxorshift 30 value.

Lemma testbit_high_u64 x i : in_u64 x → 64 ≤ i → Z.testbit x i = false.
Proof.
  rewrite in_u64_lt. intros Hx Hi. rewrite <- (Z.mod_small x (2 ^ 64)) by done.
  by apply Z.mod_pow2_bits_high.
Qed.

Lemma xorshift_u64 k x : 0 ≤ k → in_u64 x → in_u64 (xorshift k x).
Proof. intros Hk Hx. apply lxor_u64; [done|]. by apply shiftr_u64. Qed.

Lemma unxorshift_u64 k x : 0 ≤ k → in_u64 x → in_u64 (unxorshift k x).
Proof.
  intros Hk Hx. apply lxor_u64; [done|]. apply lxor_u64; apply shiftr_u64; auto; lia.
Qed.

Lemma unxorshift_xorshift k x :
  0 < k → 64 ≤ 3 * k → in_u64 x → unxorshift k (xorshift k x) = x.
Proof.
  intros Hk H3 Hx. apply Z.bits_inj'. intros i Hi. unfold unxorshift, xorshift.
  rewrite !Z.lxor_spec, !Z.shiftr_spec, !Z.lxor_spec, !Z.shiftr_spec by lia.
  rewrite (testbit_high_u64 x (i + 2 * k + k)) by (done || lia).
  replace (i + k + k) with (i + 2 * k) by lia.
  by destruct (Z.testbit x i), (Z.testbit x (i + k)), (Z.testbit x (i + 2 * k)).
Qed.

Lemma xorshift_unxorshift k y :
  0 < k → 64 ≤ 3 * k → in_u64 y → xorshift k (unxorshift k y) = y.
Proof.
  intros Hk H3 Hy. apply Z.bits_inj'. intros i Hi. unfold unxorshift, xorshift.
  rewrite !Z.lxor_spec, !Z.shiftr_spec, !Z.lxor_spec, !Z.shiftr_spec by lia.
  rewrite (testbit_high_u64 y (i + k + 2 * k)) by (done || lia).
  replace (i + k + k) with (i + 2 * k) by lia.
  by destruct (Z.testbit y i), (Z.testbit y (i + k)), (Z.testbit y (i + 2 * k)).
Qed.

Lemma wrapping_mul_u64_cancel a b x :
  (a * b) mod 2 ^ 64 = 1 → in_u64 x → wrapping_mul_u64 (wrapping_mul_u64 x a) b = x.
Proof.
  rewrite in_u64_lt. intros Hab Hx. unfold wrapping_mul_u64.
  rewrite Z.mul_mod_idemp_l by lia. rewrite <- Z.mul_assoc.
  rewrite <- Z.mul_mod_idemp_r, Hab, Z.mul_1_r by lia. by apply Z.mod_small.
Qed.

Lemma mix_u64 x : in_u64 x → in_u64 (mix x).
Proof. intros Hx. unfold mix. apply (xorshift_u64 31); [lia|]. apply wrapping_mul_u64_in. Qed.

Lemma unmix_u64 x : in_u64 x → in_u64 (unmix x).
Proof. intros Hx. apply unxorshift_u64; [lia|]. apply wrapping_mul_u64_in. Qed.

#[export] Hint Resolve lxor_u64 wrapping_mul_u64_in mix_u64 unmix_u64 : lumi.

Ltac word_side :=
  first [ apply xorshift_u64; [lia|done] | apply unxorshift_u64; [lia|done]
        | vm_compute; reflexivity ].

Lemma unmix_mix x : in_u64 x → unmix (mix x) = x.
Proof.
  intros Hx. unfold unmix, mix. fold (xorshift 30 x).
  set (y := wrapping_mul_u64 (xorshift 30 x) _). fold (xorshift 27 y).
  set (z := wrapping_mul_u64 (xorshift 27 y) _). fold (xorshift 31 z).
  assert (in_u64 y ∧ in_u64 z) as [Hy Hz] by (split; apply wrapping_mul_u64_in).
  rewrite unxorshift_xorshift by (done || lia). subst z.
  rewrite wrapping_mul_u64_cancel by word_side.
  rewrite unxorshift_xorshift by (done || lia). subst y.
  rewrite wrapping_mul_u64_cancel by word_side.
  apply unxorshift_xorshift; done || lia.
Qed.

Lemma mix_unmix x : in_u64 x → mix (unmix x) = x.
Proof.
  intros Hx. unfold unmix, mix.
  set (y := wrapping_mul_u64 (unxorshift 31 x) _).
  set (z := wrapping_mul_u64 (unxorshift 27 y) _).
  assert (in_u64 y ∧ in_u64 z) as [Hy Hz] by (split; apply wrapping_mul_u64_in).
  fold (xorshift 30 (unxorshift 30 z)).
  rewrite xorshift_unxorshift by (done || lia). subst z.
  rewrite wrapping_mul_u64_cancel by word_side.
  fold (xorshift 27 (unxorshift 27 y)).
  rewrite xorshift_unxorshift by (done || lia). subst y.
  rewrite wrapping_mul_u64_cancel by word_side.
  apply xorshift_unxorshift; done || lia.
Qed.

Lemma mix_inj x y : in_u64 x → in_u64 y → mix x = mix y → x = y.
Proof. intros Hx Hy H. by rewrite <- (unmix_mix x), <- (unmix_mix y), H. Qed.

Lemma lxor_cancel_l x y z : Z.lxor x y = Z.lxor x z → y = z.
Proof.
  intros H. apply (f_equal (Z.lxor x)) in H.
  by rewrite <- !Z.lxor_assoc, Z.lxor_nilpotent, !Z.lxor_0_l in H.
Qed.

(** Identifiers derived from one word by different small salts never collide,
    not even through the replacement of zero by one: the word that mixes to one
    is not small. *)
Lemma salted_ids_distinct word i j :
  in_u64 word → 0 < i ≤ 65536 → 0 < j ≤ 65536 →
  nonzero (mix (Z.lxor word i)) = nonzero (mix (Z.lxor word j)) → i = j.
Proof.
  intros Hw Hi Hj Heq.
  assert (∀ a, 0 < a ≤ 65536 → in_u64 a) as Hsmall by (unfold in_u64, U64_MAX; lia).
  assert (in_u64 (Z.lxor word i) ∧ in_u64 (Z.lxor word j)) as [Hwi Hwj] by auto using lxor_u64.
  assert (∀ a b, 0 < a ≤ 65536 → 0 < b ≤ 65536 → in_u64 (Z.lxor word a) → in_u64 (Z.lxor word b) →
    mix (Z.lxor word a) = 0 → mix (Z.lxor word b) ≠ 1) as Hzero.
  { intros a b Ha Hb Hwa Hwb Hma Hmb.
    assert (Z.lxor word a = 0) as H0 by (apply mix_inj; [done|done|by rewrite Hma]).
    apply Z.lxor_eq in H0. subst word.
    assert (Z.lxor a b = unmix 1) as H1 by (by rewrite <- (unmix_mix (Z.lxor a b)), Hmb).
    assert (Z.lxor a b < 2 ^ 17) as Hlt by (apply lxor_lt_pow2; lia).
    rewrite H1 in Hlt. vm_compute in Hlt. discriminate Hlt. }
  unfold nonzero in Heq. destruct (Z.eqb_spec (mix (Z.lxor word i)) 0) as [Hmi|];
    destruct (Z.eqb_spec (mix (Z.lxor word j)) 0) as [Hmj|].
  - eapply lxor_cancel_l, mix_inj; [done..|]. by rewrite Hmi, Hmj.
  - by destruct (Hzero i j Hi Hj Hwi Hwj Hmi).
  - by destruct (Hzero j i Hj Hi Hwj Hwi Hmj).
  - by eapply lxor_cancel_l, mix_inj.
Qed.
