(* ===== verification/Planner.v ===== *)
(** * The deterministic planner

    Models [lumi-planner/src/planner.rs]: the planning configuration, Theme
    selection, generation of a plan for one track load and the edits of a plan.
    The planner is generic over a [ChoiceSource]; the definitions below are too.
    A slice is indexed with [!!]; the index comes from the choice source, whose
    contract keeps it in range (see [choose_from_total]). *)

From stdpp Require Import prelude list gmap strings.
From Stdlib Require Import ZArith Lia.
From S2P Require Import Prelude.
From S2P Require Import Track.
From S2P Require Import Plan.
From S2P Require Import Mixing.
Open Scope Z_scope.

(** ** Input *)

Record PlannerTrack := mkPlannerTrack {
  pt_id : TrackId;
  pt_duration_beats : Z;
  pt_color : option TrackColor;
  pt_phrases : option (list TrackPhrase);
}.

Definition PlannerTrack_analyzed (metadata : TrackMetadata) : PlannerTrack :=
  mkPlannerTrack (tm_id metadata) (tm_duration_beats metadata) (tm_color metadata)
    (Some (tm_phrases metadata)).

Definition PlannerTrack_without_analysis (id : TrackId) (duration_beats : Z) : PlannerTrack :=
  mkPlannerTrack id duration_beats None None.

Definition PlannerTrack_with_analysis (id : TrackId) (duration_beats : Z)
    (phrases : list TrackPhrase) : PlannerTrack :=
  mkPlannerTrack id duration_beats None (Some phrases).

Definition PlannerTrack_with_analysis_and_color (id : TrackId) (duration_beats : Z)
    (color : TrackColor) (phrases : list TrackPhrase) : PlannerTrack :=
  mkPlannerTrack id duration_beats (Some color) (Some phrases).

Record PlanningInput := mkPlanningInput {
  in_deck_id : DeckId;
  in_track_load_id : TrackLoadId;
  in_track : PlannerTrack;
}.

(** ** Configuration *)

Record ThemeDefinition := mkThemeDefinition { th_id : ThemeId; th_name : str }.

Inductive ThemeColorRuleMode : Type := ModeForce | ModePrefer.

Record WeightedThemeCandidate := mkWeightedThemeCandidate {
  wc_theme_id : ThemeId;
  wc_weight : Z;
}.

Record ThemeColorRule := mkThemeColorRule {
  cr_color : TrackColor;
  cr_mode : ThemeColorRuleMode;
  cr_candidates : list WeightedThemeCandidate;
}.

Inductive ThemeRuleColorBehavior : Type := BehaviorNeutral | BehaviorPrefer | BehaviorOnly.

Record ThemeSelectionRule := mkThemeSelectionRule {
  sr_theme_id : ThemeId;
  sr_enabled : bool;
  sr_weight : Z;
  sr_color_behavior : ThemeRuleColorBehavior;
  sr_colors : list TrackColor;
}.

#[global] Instance ThemeColorRuleMode_eq_dec : EqDecision ThemeColorRuleMode.
Proof. solve_decision. Defined.
#[global] Instance ThemeRuleColorBehavior_eq_dec : EqDecision ThemeRuleColorBehavior.
Proof. solve_decision. Defined.

Record ThemeSelectionContext := mkThemeSelectionContext { recent_theme_ids : list ThemeId }.

Definition ThemeSelectionContext_new (recent : list ThemeId) : ThemeSelectionContext :=
  mkThemeSelectionContext (reverse (take 8 (reverse recent))).

Definition ThemeSelectionContext_default : ThemeSelectionContext := mkThemeSelectionContext [].

Record SceneDefinition := mkSceneDefinition {
  sc_id : SceneId;
  sc_name : str;
  sc_category : SceneCategory;
  sc_loop_selection : LoopSelection;
}.

Record PlanningConfiguration := mkPlanningConfiguration {
  cfg_revision : PlanConfigurationRevision;
  cfg_themes : list ThemeDefinition;
  cfg_scenes : list SceneDefinition;
  cfg_global_theme_lock : option ThemeId;
  cfg_color_rules : list ThemeColorRule;
  cfg_theme_selection_rules : list ThemeSelectionRule;
  cfg_default_theme_id : ThemeId;
}.

Record ThemeOption := mkThemeOption { to_id : ThemeId; to_name : str }.

Record SceneOption := mkSceneOption {
  so_id : SceneId;
  so_name : str;
  so_category : SceneCategory;
  so_loop_selection : LoopSelection;
}.

Record PlanningOptions := mkPlanningOptions {
  po_themes : list ThemeOption;
  po_scenes : list SceneOption;
}.

Definition scene (id : Z) (name : str) (category : SceneCategory) (bank slot : Z) :
    SceneDefinition :=
  mkSceneDefinition id name category (mkLoopSelection bank slot).

Definition PlanningConfiguration_epic_one : PlanningConfiguration :=
  mkPlanningConfiguration 1
    [mkThemeDefinition 1 (lit "Electric Bloom"); mkThemeDefinition 2 (lit "Deep Ocean");
     mkThemeDefinition 3 (lit "Solar Flare"); mkThemeDefinition 4 (lit "Ultraviolet")]
    [scene 1 (lit "Soft Motion") CatAmbient 1 1; scene 2 (lit "Star Wash") CatAmbient 1 2;
     scene 3 (lit "Neon Motion") CatGroove 2 1; scene 4 (lit "Prism Sweep") CatGroove 2 2;
     scene 5 (lit "Rising Pulse") CatBuild 3 1; scene 6 (lit "Velocity Build") CatBuild 3 2;
     scene 7 (lit "Full Energy") CatImpact 4 1; scene 8 (lit "Color Impact") CatImpact 4 2;
     scene 9 (lit "Deep Space") CatBreak 5 1; scene 10 (lit "Slow Wave") CatBreak 5 2]
    None
    [mkThemeColorRule (mkTrackColor 187 72 126) ModeForce [mkWeightedThemeCandidate 4 1];
     mkThemeColorRule (mkTrackColor 72 112 205) ModePrefer [mkWeightedThemeCandidate 2 1]]
    [] 1.

Definition with_global_theme_lock (c : PlanningConfiguration) (theme_id : option ThemeId) :
    PlanningConfiguration :=
  mkPlanningConfiguration (cfg_revision c) (cfg_themes c) (cfg_scenes c) theme_id
    (cfg_color_rules c) (cfg_theme_selection_rules c) (cfg_default_theme_id c).

Definition with_color_rules (c : PlanningConfiguration) (rules : list ThemeColorRule) :
    PlanningConfiguration :=
  mkPlanningConfiguration (cfg_revision c) (cfg_themes c) (cfg_scenes c)
    (cfg_global_theme_lock c) rules (cfg_theme_selection_rules c) (cfg_default_theme_id c).

Definition with_theme_selection_rules (c : PlanningConfiguration)
    (rules : list ThemeSelectionRule) : PlanningConfiguration :=
  mkPlanningConfiguration (cfg_revision c) (cfg_themes c) (cfg_scenes c)
    (cfg_global_theme_lock c) (cfg_color_rules c) rules (cfg_default_theme_id c).

Definition with_default_theme (c : PlanningConfiguration) (theme_id : ThemeId) :
    PlanningConfiguration :=
  mkPlanningConfiguration (cfg_revision c) (cfg_themes c) (cfg_scenes c)
    (cfg_global_theme_lock c) (cfg_color_rules c) (cfg_theme_selection_rules c) theme_id.

(** [slice.contains(&x)]. *)
Definition contains `{EqDecision A} (l : list A) (x : A) : bool := bool_decide (x ∈ l).

Definition with_themes (c : PlanningConfiguration) (revision : PlanConfigurationRevision)
    (themes : list ThemeOption) : PlanningConfiguration :=
  let theme_ids := to_id <$> themes in
  let definitions := (λ theme, mkThemeDefinition (to_id theme) (to_name theme)) <$> themes in
  let retained :=
    (λ rule, mkThemeColorRule (cr_color rule) (cr_mode rule)
       (List.filter (λ candidate, contains theme_ids (wc_theme_id candidate))
          (cr_candidates rule))) <$> cfg_color_rules c in
  let color_rules :=
    List.filter (λ rule, existsb (λ candidate, 0 <? wc_weight candidate) (cr_candidates rule))
      retained in
  let selection_rules :=
    List.filter (λ rule, contains theme_ids (sr_theme_id rule)) (cfg_theme_selection_rules c) in
  let global_theme_lock :=
    match cfg_global_theme_lock c with
    | Some theme_id => if contains theme_ids theme_id then Some theme_id else None
    | None => None
    end in
  let default_theme_id :=
    if contains theme_ids (cfg_default_theme_id c) then cfg_default_theme_id c
    else match theme_ids with first :: _ => first | [] => cfg_default_theme_id c end in
  mkPlanningConfiguration revision definitions (cfg_scenes c) global_theme_lock color_rules
    selection_rules default_theme_id.

(** ** Errors *)

Inductive PlannerError : Type :=
| PEEmptyTrackDuration
| PEEmptyThemeCatalog
| PEInvalidThemeRule
| PENoEligibleTheme
| PEUnknownConfiguredTheme (theme_id : ThemeId)
| PEMissingSceneCategory (category : SceneCategory)
| PEInvalidPlan (error : PlanValidationError).

Inductive PlanMutationError : Type :=
| MUnknownTheme (theme_id : ThemeId)
| MUnknownScene (scene_id : SceneId)
| MUnknownPhrase (phrase_index : Z)
| MSceneCategoryMismatch (expected actual : SceneCategory)
| MFallbackPlanNotEditable
| MTrackLoadMismatch
| MNoChange
| MInvalidPlan (error : PlanValidationError)
| MPlanner (error : PlannerError).

(** ** Helpers *)

Definition without_recent (candidates : list WeightedThemeCandidate) (recent : list ThemeId) :
    list WeightedThemeCandidate :=
  List.filter (λ candidate, negb (contains recent (wc_theme_id candidate))) candidates.

Definition ensure_ready (plan : LightingPlan) : result unit PlanMutationError :=
  if bool_decide (plan_status plan = PlanReady) then Ok () else Err MFallbackPlanNotEditable.

Definition cue_category (cue : LightingCue) : result SceneCategory PlanMutationError :=
  match cue_reason cue with
  | PhraseCategoryMatched _ category => Ok category
  | MissingPhraseAnalysis => Err MFallbackPlanNotEditable
  | MissingAutoloopMapping => Err MFallbackPlanNotEditable
  end.

(** The loop of [analysis_is_complete]: expected index, [previous_end]. *)
Fixpoint analysis_loop (expected_index previous_end duration_beats : Z)
    (phrases : list TrackPhrase) : bool :=
  match phrases with
  | [] => previous_end =? duration_beats
  | phrase :: rest =>
      if negb (tp_index phrase =? expected_index)
         || negb (tp_start_beat phrase =? previous_end)
         || (tp_end_beat phrase <=? tp_start_beat phrase)
         || (duration_beats <? tp_end_beat phrase)
      then false
      else analysis_loop (expected_index + 1) (tp_end_beat phrase) duration_beats rest
  end.

Definition analysis_is_complete (phrases : list TrackPhrase) (duration_beats : Z) : bool :=
  match phrases with
  | [] => false
  | _ => analysis_loop 0 0 duration_beats phrases
  end.

Definition category_for (kind : PhraseKind) : SceneCategory :=
  match kind with
  | KindIntro | KindOutro => CatAmbient
  | KindVerse => CatGroove
  | KindBuild => CatBuild
  | KindDrop => CatImpact
  | KindBreakdown => CatBreak
  end.

(** ** The planner *)

Record DeterministicPlanner (C : Type) := mkDeterministicPlanner {
  dp_configuration : PlanningConfiguration;
  dp_choice_source : C;
}.
Arguments mkDeterministicPlanner {C} _ _.
Arguments dp_configuration {C} _.
Arguments dp_choice_source {C} _.

Definition DeterministicPlanner_epic_one : DeterministicPlanner StableChoiceSource :=
  mkDeterministicPlanner PlanningConfiguration_epic_one mkStableChoiceSource.

(** The second half of [weighted_choice]: walk the cursor through the weights. *)
Fixpoint weighted_pick (cursor : Z) (candidates : list WeightedThemeCandidate) :
    result ThemeId PlannerError :=
  match candidates with
  | [] => Err PEInvalidThemeRule
  | candidate :: rest =>
      let weight := wc_weight candidate in
      if weight =? 0 then weighted_pick cursor rest
      else if cursor <? weight then Ok (wc_theme_id candidate)
      else weighted_pick (cursor - weight) rest
  end.

(** [try_fold] of [checked_add] over the weights ([usize] is 64 bits wide). *)
Definition total_weight (candidates : list WeightedThemeCandidate) : option Z :=
  foldl (λ total candidate,
           match total with
           | Some total => checked_add_u64 total (wc_weight candidate)
           | None => None
           end) (Some 0) candidates.

Section Planner.
Context {C : Type} `{ChoiceSource C}.
Variable self : DeterministicPlanner C.

(** [choose] applied to the length of a slice that is then indexed. *)
Definition choose_from {A} (seed decision : Z) (candidates : list A) : option A :=
  match choose (dp_choice_source self) seed decision (Z.of_nat (length candidates)) with
  | Some index => candidates !! Z.to_nat index
  | None => None
  end.

Definition theme (theme_id : ThemeId) : option ThemeDefinition :=
  List.find (λ t, th_id t =? theme_id) (cfg_themes (dp_configuration self)).

Definition decision (theme_id : ThemeId) (reason : ThemeSelectionReason)
    (matched_color : option Z) : result ThemeDecision PlannerError :=
  let? theme := ok_or (theme theme_id) (PEUnknownConfiguredTheme theme_id) in
  map_err PEInvalidPlan (ThemeDecision_try_new (th_id theme) (th_name theme) reason matched_color).

Definition weighted_choice (seed decision : Z) (candidates : list WeightedThemeCandidate) :
    result ThemeId PlannerError :=
  let? total := ok_or (total_weight candidates) PEInvalidThemeRule in
  let? selected := ok_or (choose (dp_choice_source self) seed decision total)
                     PEInvalidThemeRule in
  weighted_pick selected candidates.

(** [matches_color] of [select_policy_theme]. *)
Definition matches_color (track : PlannerTrack) (rule : ThemeSelectionRule) : bool :=
  match pt_color track with Some color => contains (sr_colors rule) color | None => false end.

Definition prefers_color (track : PlannerTrack) (rule : ThemeSelectionRule) : bool :=
  bool_decide (sr_color_behavior rule = BehaviorPrefer) && matches_color track rule.

Definition matching_only (track : PlannerTrack) : list ThemeSelectionRule :=
  List.filter (λ rule, sr_enabled rule && bool_decide (sr_color_behavior rule = BehaviorOnly)
                       && matches_color track rule)
    (cfg_theme_selection_rules (dp_configuration self)).

Definition uses_color_only (track : PlannerTrack) : bool :=
  negb (bool_decide (matching_only track = [])).

Definition eligible_rules (track : PlannerTrack) : list ThemeSelectionRule :=
  if uses_color_only track then matching_only track
  else List.filter
         (λ rule, sr_enabled rule && negb (bool_decide (sr_color_behavior rule = BehaviorOnly)))
         (cfg_theme_selection_rules (dp_configuration self)).

Definition weigh_rule (track : PlannerTrack) (rule : ThemeSelectionRule) :
    WeightedThemeCandidate :=
  mkWeightedThemeCandidate (sr_theme_id rule)
    (Z.max (if prefers_color track rule then saturating_mul_u16 (sr_weight rule) 2
            else sr_weight rule) 1).

Definition select_policy_theme (track : PlannerTrack) (seed : Z)
    (context : ThemeSelectionContext) : result ThemeDecision PlannerError :=
  let uses_color_only := uses_color_only track in
  let eligible := eligible_rules track in
  let weighted := weigh_rule track <$> eligible in
  if bool_decide (weighted = []) then Err PENoEligibleTheme
  else
    let matching_prefer := existsb (prefers_color track) eligible in
    if negb uses_color_only && negb matching_prefer
       && bool_decide (recent_theme_ids context = [])
       && existsb (λ candidate,
                     wc_theme_id candidate =? cfg_default_theme_id (dp_configuration self))
            weighted
    then decision (cfg_default_theme_id (dp_configuration self)) DefaultTheme None
    else
      let fresh := without_recent weighted (recent_theme_ids context) in
      let candidates := if bool_decide (fresh = []) then weighted else fresh in
      let reason := if uses_color_only then ColorForce
                    else if matching_prefer then ColorPrefer else Rotation in
      let salt := match pt_color track with
                  | Some color => Z.lxor (TrackColor_rgb_u32 color) 0x00544845_4d45
                  | None => 0x00544845_4d45
                  end in
      let? selected := weighted_choice seed salt candidates in
      decision selected reason
        (if uses_color_only || matching_prefer then TrackColor_rgb_u32 <$> pt_color track
         else None).

(** The body of the loop over the two modes, for a track with a colour. *)
Definition select_color_rule (color : TrackColor) (mode : ThemeColorRuleMode) (seed : Z)
    (context : ThemeSelectionContext) : option (result ThemeDecision PlannerError) :=
  match List.find (λ rule, bool_decide (cr_color rule = color) && bool_decide (cr_mode rule = mode))
          (cfg_color_rules (dp_configuration self)) with
  | None => None
  | Some rule =>
      let candidates := if bool_decide (mode = ModePrefer)
                        then without_recent (cr_candidates rule) (recent_theme_ids context)
                        else cr_candidates rule in
      let candidates := if bool_decide (candidates = []) then cr_candidates rule
                        else candidates in
      Some (let? theme_id := weighted_choice seed (TrackColor_rgb_u32 color) candidates in
            decision theme_id
              (if bool_decide (mode = ModeForce) then ColorForce else ColorPrefer)
              (Some (TrackColor_rgb_u32 color)))
  end.

(** The end of [select_initial_theme]: rotation, then the default Theme. *)
Definition select_rotated_theme (seed : Z) (context : ThemeSelectionContext) :
    result ThemeDecision PlannerError :=
  let default := decision (cfg_default_theme_id (dp_configuration self)) DefaultTheme None in
  if bool_decide (recent_theme_ids context = []) then default
  else
    let candidates :=
      List.filter (λ t, negb (contains (recent_theme_ids context) (th_id t)))
        (cfg_themes (dp_configuration self)) in
    match choose_from seed 0x00544845_4d45 candidates with
    | Some candidate => decision (th_id candidate) Rotation None
    | None => default
    end.

Definition select_initial_theme (track : PlannerTrack) (seed : Z)
    (context : ThemeSelectionContext) : result ThemeDecision PlannerError :=
  match cfg_global_theme_lock (dp_configuration self) with
  | Some theme_id => decision theme_id GlobalLock None
  | None =>
      if negb (bool_decide (cfg_theme_selection_rules (dp_configuration self) = []))
      then select_policy_theme track seed context
      else match pt_color track with
      | Some color =>
          match select_color_rule color ModeForce seed context with
          | Some decided => decided
          | None =>
              match select_color_rule color ModePrefer seed context with
              | Some decided => decided
              | None => select_rotated_theme seed context
              end
          end
      | None => select_rotated_theme seed context
      end
  end.

Definition plan_phrase (seed : Z) (plan_id : PlanId) (theme : ThemeDefinition)
    (phrase : TrackPhrase) : result LightingCue PlannerError :=
  let category := category_for (tp_kind phrase) in
  let candidates := List.filter (λ scene, bool_decide (sc_category scene = category))
                      (cfg_scenes (dp_configuration self)) in
  let? scene := ok_or (choose_from seed (tp_index phrase + 1) candidates)
                  (PEMissingSceneCategory category) in
  let? look := map_err PEInvalidPlan
                 (LightingLook_try_new (th_id theme) (th_name theme) (sc_id scene)
                    (sc_name scene) (sc_category scene) (sc_loop_selection scene)) in
  Ok (LightingCue_new (nonzero (mix (Z.lxor plan_id (tp_index phrase + 1)))) (tp_index phrase)
        (tp_start_beat phrase) (tp_end_beat phrase) (ApplyLook look) OriginAutomatic
        (PhraseCategoryMatched (tp_kind phrase) category)).

Definition plan_analyzed_phrases (seed : Z) (plan_id : PlanId) (phrases : list TrackPhrase)
    (theme : ThemeDefinition) : result (list LightingCue) PlannerError :=
  collect (plan_phrase seed plan_id theme) phrases.

Definition generate_with_context (input : PlanningInput) (context : ThemeSelectionContext) :
    result LightingPlan PlannerError :=
  let track := in_track input in
  let configuration := dp_configuration self in
  if pt_duration_beats track =? 0 then Err PEEmptyTrackDuration
  else
    let seed := stable_seed (pt_id track) (cfg_revision configuration) in
    let plan_id := nonzero (mix (Z.lxor seed (in_track_load_id input))) in
    let analyzed := match pt_phrases track with
                    | Some phrases =>
                        if analysis_is_complete phrases (pt_duration_beats track)
                        then Some phrases else None
                    | None => None
                    end in
    let? (theme_decision, cues) :=
      match analyzed with
      | Some phrases =>
          let? decision := select_initial_theme track seed context in
          let? theme := ok_or (theme (td_theme_id decision))
                          (PEUnknownConfiguredTheme (td_theme_id decision)) in
          let? cues := plan_analyzed_phrases seed plan_id phrases theme in
          Ok (Some decision, cues)
      | None =>
          Ok (None, [LightingCue_new (nonzero (mix plan_id)) 0 0 (pt_duration_beats track)
                       HoldCurrentLook OriginFallback MissingPhraseAnalysis])
      end in
    let status := if existsb (λ cue, bool_decide (cue_origin cue = OriginFallback)) cues
                  then PlanFallback else PlanReady in
    map_err PEInvalidPlan
      (LightingPlan_try_new_with_theme_decision plan_id (in_deck_id input) (pt_id track)
         (pt_duration_beats track) (in_track_load_id input) PlanRevision_initial
         (cfg_revision configuration) seed status theme_decision cues).

Definition generate (input : PlanningInput) : result LightingPlan PlannerError :=
  generate_with_context input ThemeSelectionContext_default.

Definition options : PlanningOptions :=
  mkPlanningOptions
    ((λ t, mkThemeOption (th_id t) (th_name t)) <$> cfg_themes (dp_configuration self))
    ((λ s, mkSceneOption (sc_id s) (sc_name s) (sc_category s) (sc_loop_selection s))
       <$> cfg_scenes (dp_configuration self)).

(** ** Edits *)

(** The [map] of [select_theme]: the cue with its look in another Theme. *)
Definition rethemed_cue (theme : ThemeDefinition) (origin : LightingCue → CueOrigin)
    (cue : LightingCue) : result LightingCue PlanMutationError :=
  match cue_action cue with
  | ApplyLook look =>
      let? revised := map_err MInvalidPlan
        (LightingLook_try_new (th_id theme) (th_name theme) (look_scene_id look)
           (look_scene_name look) (look_category look) (look_loop_selection look)) in
      Ok (LightingCue_revised cue (ApplyLook revised) (origin cue) (cue_locked cue))
  | HoldCurrentLook => Err MFallbackPlanNotEditable
  end.

Definition select_theme (current : LightingPlan) (theme_id : ThemeId) :
    result LightingPlan PlanMutationError :=
  let? _ := ensure_ready current in
  let? theme := ok_or (theme theme_id) (MUnknownTheme theme_id) in
  let changed :=
    match plan_theme_decision current with
    | Some decision =>
        negb (td_theme_id decision =? th_id theme)
        || negb (bool_decide (td_reason decision = PlanInstanceUserChoice))
    | None => true
    end in
  let? cues := collect (rethemed_cue theme (λ _, OriginUser)) (plan_cues current) in
  if negb changed then Err MNoChange
  else
    let? decision := map_err MInvalidPlan
      (ThemeDecision_try_new (th_id theme) (th_name theme) PlanInstanceUserChoice None) in
    map_err MInvalidPlan (revised_with_theme_decision current cues (Some decision)).

Definition select_theme_from_phrase (current : LightingPlan) (phrase_index : Z)
    (theme_id : ThemeId) : result LightingPlan PlanMutationError :=
  if phrase_index =? 0 then select_theme current theme_id
  else
    let? _ := ensure_ready current in
    let? theme := ok_or (theme theme_id) (MUnknownTheme theme_id) in
    match plan_cues current !! Z.to_nat phrase_index with
    | None => Err (MUnknownPhrase phrase_index)
    | Some _ =>
        let? cues := collect
          (λ cue, if cue_phrase_index cue <? phrase_index then Ok cue
                  else rethemed_cue theme (λ _, OriginUser) cue) (plan_cues current) in
        let changed := existsb
          (λ cue, negb (cue_phrase_index cue <? phrase_index)
                  && match cue_action cue with
                     | ApplyLook look => negb (look_theme_id look =? th_id theme)
                     | HoldCurrentLook => false
                     end) (plan_cues current) in
        if negb changed then Err MNoChange
        else map_err MInvalidPlan (LightingPlan_revised current cues)
    end.

Definition select_scene (current : LightingPlan) (phrase_index : Z) (scene_id : SceneId) :
    result LightingPlan PlanMutationError :=
  let? _ := ensure_ready current in
  let? selected_scene :=
    ok_or (List.find (λ candidate, sc_id candidate =? scene_id)
             (cfg_scenes (dp_configuration self))) (MUnknownScene scene_id) in
  let? target := ok_or (plan_cues current !! Z.to_nat phrase_index)
                   (MUnknownPhrase phrase_index) in
  let? expected_category := cue_category target in
  if negb (bool_decide (sc_category selected_scene = expected_category))
  then Err (MSceneCategoryMismatch expected_category (sc_category selected_scene))
  else match cue_action target with
  | HoldCurrentLook => Err MFallbackPlanNotEditable
  | ApplyLook current_look =>
      if look_scene_id current_look =? sc_id selected_scene then Err MNoChange
      else
        let? look := map_err MInvalidPlan
          (LightingLook_try_new (look_theme_id current_look) (look_theme_name current_look)
             (sc_id selected_scene) (sc_name selected_scene) (sc_category selected_scene)
             (sc_loop_selection selected_scene)) in
        let cues := <[Z.to_nat phrase_index :=
                        LightingCue_revised target (ApplyLook look) OriginUser
                          (cue_locked target)]> (plan_cues current) in
        map_err MInvalidPlan (LightingPlan_revised current cues)
  end.

Definition set_cue_lock (current : LightingPlan) (phrase_index : Z) (locked : bool) :
    result LightingPlan PlanMutationError :=
  let? _ := ensure_ready current in
  let? target := ok_or (plan_cues current !! Z.to_nat phrase_index)
                   (MUnknownPhrase phrase_index) in
  if bool_decide (cue_locked target = locked) then Err MNoChange
  else
    let cues := <[Z.to_nat phrase_index :=
                    LightingCue_revised target (cue_action target) OriginUser locked]>
                  (plan_cues current) in
    map_err MInvalidPlan (LightingPlan_revised current cues).

Definition retheme_generated (generated : LightingPlan) (theme_id : ThemeId) :
    result LightingPlan PlanMutationError :=
  let? theme := ok_or (theme theme_id) (MUnknownTheme theme_id) in
  let? cues := collect (rethemed_cue theme cue_origin) (plan_cues generated) in
  let? decision := map_err MInvalidPlan
    (ThemeDecision_try_new (th_id theme) (th_name theme) PlanInstanceUserChoice None) in
  map_err MInvalidPlan
    (LightingPlan_try_new_with_theme_decision (plan_id generated) (plan_deck_id generated)
       (plan_track_id generated) (plan_track_duration_beats generated)
       (plan_track_load_id generated) (plan_revision generated)
       (plan_configuration_revision generated) (plan_seed generated) (plan_status generated)
       (Some decision) cues).

(** The closure of [regenerate]: a locked cue survives in an unchanged slot. *)
Definition merge_locked (current : LightingPlan) (generated_cue : LightingCue) : LightingCue :=
  match plan_cues current !! Z.to_nat (cue_phrase_index generated_cue) with
  | Some locked =>
      if cue_locked locked then
        if (cue_start_beat locked =? cue_start_beat generated_cue)
           && (cue_end_beat locked =? cue_end_beat generated_cue)
           && bool_decide (result_ok (cue_category locked)
                           = result_ok (cue_category generated_cue))
        then locked else generated_cue
      else generated_cue
  | None => generated_cue
  end.

Definition regenerate (current : LightingPlan) (input : PlanningInput) :
    result LightingPlan PlanMutationError :=
  let? _ := ensure_ready current in
  if negb (plan_deck_id current =? in_deck_id input)
     || negb (plan_track_load_id current =? in_track_load_id input)
     || negb (plan_track_id current =? pt_id (in_track input))
  then Err MTrackLoadMismatch
  else
    let? generated := map_err MPlanner (generate input) in
    let? generated :=
      match plan_theme_decision current with
      | Some decision =>
          if bool_decide (td_reason decision = PlanInstanceUserChoice)
          then retheme_generated generated (td_theme_id decision)
          else Ok generated
      | None => Ok generated
      end in
    let cues := merge_locked current <$> plan_cues generated in
    map_err MInvalidPlan
      (revised_with_theme_decision current cues (plan_theme_decision generated)).
End Planner.
