(* ===== verification/PlannerProps.v ===== *)
(** * Properties of the planner: Theme selection and generation *)

From stdpp Require Import prelude list gmap strings.
From Stdlib Require Import ZArith Lia.
From S2P Require Import Prelude.
From S2P Require Import Track.
From S2P Require Import Plan.
From S2P Require Import Mixing.
From S2P Require Import Planner.
Open Scope Z_scope.

(** ** Weighted choice *)

Definition weight_sum (candidates : list WeightedThemeCandidate) : Z :=
  foldr (λ c n, wc_weight c + n) 0 candidates.

Definition weights_ok (candidates : list WeightedThemeCandidate) : Prop :=
  Forall (λ c, 0 ≤ wc_weight c) candidates.

(** The weight a Theme has among the candidates. *)
Definition theme_weight (t : ThemeId) (candidates : list WeightedThemeCandidate) : Z :=
  weight_sum (List.filter (λ c, wc_theme_id c =? t) candidates).

Lemma weight_sum_nonneg cs : weights_ok cs → 0 ≤ weight_sum cs.
Proof. induction 1; simpl; lia. Qed.

(** The total is the sum, unless that does not fit. *)
Lemma total_weight_from cs acc :
  weights_ok cs → 0 ≤ acc ≤ U64_MAX →
  foldl (λ total c, match total with Some t => checked_add_u64 t (wc_weight c) | None => None end) (Some acc) cs
    = if acc + weight_sum cs <=? U64_MAX then Some (acc + weight_sum cs) else None.
Proof.
  intros Hw. revert acc. induction Hw as [|c cs Hc Hcs IH]; intros acc Ha; simpl.
  { rewrite Z.add_0_r, (proj2 (Z.leb_le _ _)) by lia. done. }
  pose proof (weight_sum_nonneg _ Hcs). unfold checked_add_u64 at 2.
  destruct (Z.leb_spec (acc + wc_weight c) U64_MAX).
  - rewrite IH by lia. by rewrite Z.add_assoc.
  - rewrite (proj2 (Z.leb_gt _ _)) by lia. clear. by induction cs.
Qed.

Lemma total_weight_spec cs :
  weights_ok cs → total_weight cs = if weight_sum cs <=? U64_MAX then Some (weight_sum cs) else None.
Proof. intros Hw. unfold total_weight. by rewrite total_weight_from by (done || (unfold U64_MAX; lia)). Qed.

Lemma weighted_pick_Ok cursor cs t :
  weighted_pick cursor cs = Ok t → ∃ c, c ∈ cs ∧ wc_theme_id c = t ∧ wc_weight c ≠ 0.
Proof.
  revert cursor. induction cs as [|c cs IH]; intros cursor; simpl; [done|].
  destruct (Z.eqb_spec (wc_weight c) 0).
  { intros (c' & ? & ?)%IH. exists c'. split; [by right|done]. }
  destruct (cursor <? wc_weight c).
  - intros [= <-]. exists c. split; [by left|done].
  - intros (c' & ? & ?)%IH. exists c'. split; [by right|done].
Qed.

Lemma weighted_pick_total cursor cs :
  weights_ok cs → 0 ≤ cursor < weight_sum cs → is_ok (weighted_pick cursor cs).
Proof.
  intros Hw. revert cursor. induction Hw as [|c cs Hc Hcs IH]; intros cursor; simpl; [lia|].
  intros Hcur. destruct (Z.eqb_spec (wc_weight c) 0); [apply IH; lia|].
  destruct (Z.ltb_spec cursor (wc_weight c)); [by eexists|]. apply IH. lia.
Qed.

(** The units of weight in order, each with the Theme it belongs to. *)
Definition theme_units (candidates : list WeightedThemeCandidate) : list ThemeId :=
  candidates ≫= λ c, replicate (Z.to_nat (wc_weight c)) (wc_theme_id c).

Lemma theme_units_cons c cs : theme_units (c :: cs) = replicate (Z.to_nat (wc_weight c)) (wc_theme_id c) ++ theme_units cs.
Proof. done. Qed.

Lemma theme_units_length cs : weights_ok cs → Z.of_nat (length (theme_units cs)) = weight_sum cs.
Proof.
  induction 1 as [|c cs Hc Hcs IH]; [done|]. rewrite theme_units_cons. simpl.
  rewrite length_app, length_replicate, Nat2Z.inj_add, Z2Nat.id, IH by done. done.
Qed.

Lemma filter_replicate (t t' : ThemeId) n :
  length (filter (λ x, x = t) (replicate n t')) = if t' =? t then n else 0%nat.
Proof.
  induction n as [|n IH]; [by case_match|]. simpl. rewrite filter_cons.
  destruct (Z.eqb_spec t' t); [rewrite decide_True by done; simpl; by rewrite IH|by rewrite decide_False by done].
Qed.

(** A Theme has as many units as its weight among the candidates. *)
Lemma theme_units_count t cs :
  weights_ok cs → Z.of_nat (length (filter (λ t', t' = t) (theme_units cs))) = theme_weight t cs.
Proof.
  intros Hw. induction Hw as [|c cs Hc Hcs IH]; [done|]. unfold theme_weight in *. rewrite theme_units_cons. simpl.
  rewrite filter_app, length_app, Nat2Z.inj_add, IH, filter_replicate.
  destruct (wc_theme_id c =? t); simpl; lia.
Qed.

(** The walk finds the Theme of the unit the cursor points at. *)
Lemma weighted_pick_unit cursor cs :
  weights_ok cs → 0 ≤ cursor →
  weighted_pick cursor cs = ok_or (theme_units cs !! Z.to_nat cursor) PEInvalidThemeRule.
Proof.
  intros Hw. revert cursor. induction Hw as [|c cs Hc Hcs IH]; intros cursor Hcur; [done|].
  rewrite theme_units_cons. cbn [weighted_pick]. destruct (Z.eqb_spec (wc_weight c) 0) as [->|]; [by apply IH|].
  destruct (Z.ltb_spec cursor (wc_weight c)).
  - by rewrite lookup_app_l, lookup_replicate_2 by (rewrite ?length_replicate; lia).
  - rewrite IH, lookup_app_r, length_replicate by (rewrite ?length_replicate; lia). do 2 f_equal. lia.
Qed.

(** ** Theme lookup and decisions *)

Section Selection.
Context {C : Type} `{ChoiceSource C}.
Implicit Types (self : DeterministicPlanner C) (t : ThemeId).

Definition theme_ids self : list ThemeId := th_id <$> cfg_themes (dp_configuration self).

Lemma choose_from_Some self seed salt {A} (l : list A) x :
  choose_from self seed salt l = Some x → x ∈ l.
Proof.
  unfold choose_from. destruct (choose _ _ _ _); [|done]. apply list_elem_of_lookup_2.
Qed.

(** The index of a choice source is in range: slice indexing never panics and
    the choice fails only on an empty slice. *)
Lemma choose_from_total self seed salt {A} (l : list A) :
  l ≠ [] → is_Some (choose_from self seed salt l).
Proof.
  intros Hl. unfold choose_from. assert (0 < Z.of_nat (length l)) as Hn by (destruct l; simpl; [done|lia]).
  destruct (choose_total (dp_choice_source self) seed salt _ Hn) as [i Hi]. rewrite Hi.
  apply choose_in_range in Hi. apply lookup_lt_is_Some. lia.
Qed.

Lemma theme_Some self t def :
  theme self t = Some def → def ∈ cfg_themes (dp_configuration self) ∧ th_id def = t.
Proof. intros [Hin Heq]%List.find_some. rewrite list_elem_of_In. split; [done|]. by apply Z.eqb_eq. Qed.

Lemma theme_total self t : t ∈ theme_ids self → is_Some (theme self t).
Proof.
  intros (def & -> & Hin)%list_elem_of_fmap. unfold theme.
  destruct (List.find _ _) as [def'|] eqn:E; [by eexists|].
  apply list_elem_of_In in Hin. apply (List.find_none _ _ E) in Hin. by rewrite Z.eqb_refl in Hin.
Qed.

Lemma decision_Ok self t reason color d :
  decision self t reason color = Ok d →
  ∃ def, theme self t = Some def ∧ str_is_blank (th_name def) = false ∧
    d = mkThemeDecision t (th_name def) reason color.
Proof.
  unfold decision. intros Hd. unbind Hd. unfold ThemeDecision_try_new in Hd.
  destruct (str_is_blank (th_name v)) eqn:Hb; [done|]. injection Hd as <-.
  exists v. split; [done|]. split; [done|]. f_equal. by apply theme_Some in E as [_ ?].
Qed.

(** Only Themes with a usable name. *)
Definition themes_named self : Prop :=
  Forall (λ def, str_is_blank (th_name def) = false) (cfg_themes (dp_configuration self)).

Lemma decision_total self t reason color :
  themes_named self → t ∈ theme_ids self → is_ok (decision self t reason color).
Proof.
  intros Hn Ht. destruct (theme_total _ _ Ht) as [def Hdef]. unfold decision. rewrite Hdef; simpl.
  apply theme_Some in Hdef as [Hin _]. unfold ThemeDecision_try_new.
  rewrite (proj1 (Forall_forall _ _) Hn _ Hin). by eexists.
Qed.

Lemma weighted_choice_Ok self seed salt cs t :
  weighted_choice self seed salt cs = Ok t →
  ∃ c, c ∈ cs ∧ wc_theme_id c = t ∧ wc_weight c ≠ 0.
Proof. unfold weighted_choice. intros Hc. unbind Hc. by eapply weighted_pick_Ok. Qed.

Lemma weighted_choice_total self seed salt cs :
  cs ≠ [] → Forall (λ c, 1 ≤ wc_weight c ≤ U16_MAX) cs →
  Z.of_nat (length cs) * U16_MAX ≤ U64_MAX → is_ok (weighted_choice self seed salt cs).
Proof.
  intros Hne Hw Hlen. unfold weighted_choice.
  assert (weights_ok cs) as Hok by (eapply Forall_impl; [exact Hw|]; simpl; lia).
  assert (weight_sum cs ≤ Z.of_nat (length cs) * U16_MAX ∧ (cs ≠ [] → 0 < weight_sum cs)) as [Hs Hp].
  { clear -Hw. induction Hw as [|c cs Hc Hcs [IH1 IH2]]; simpl; [split; [lia|done]|].
    assert (0 ≤ weight_sum cs) by (apply weight_sum_nonneg; eapply Forall_impl; [exact Hcs|]; simpl; lia).
    split; lia. }
  rewrite total_weight_spec, (proj2 (Z.leb_le _ _)) by (done || lia). simpl.
  destruct (choose_total (dp_choice_source self) seed salt _ (Hp Hne)) as [i Hi]. rewrite Hi. simpl.
  apply weighted_pick_total; [done|]. by eapply choose_in_range.
Qed.

(** C38: the weighted choice of a Theme is exactly proportional.  Each Theme owns as many
    units as its candidates have weight, and the choice asks its source for one of all
    units: it answers the Theme that owns the unit the source names.  So a Theme of weight
    zero is never chosen; the choice succeeds whenever some candidate has weight and the sum
    fits 64 bits, and fails with an invalid rule otherwise. *)
Theorem weighted_choice_proportional self seed salt cs :
  Forall (λ c, in_u16 (wc_weight c)) cs →
  let units := theme_units cs in
  let total := Z.of_nat (length units) in
  (∀ t, Z.of_nat (length (filter (λ t', t' = t) units)) = theme_weight t cs) ∧
  if (0 <? total) && (total <=? U64_MAX) then
    ∃ cursor t, choose (dp_choice_source self) seed salt total = Some cursor ∧
      units !! Z.to_nat cursor = Some t ∧ weighted_choice self seed salt cs = Ok t
  else weighted_choice self seed salt cs = Err PEInvalidThemeRule.
Proof.
  intros Hw units total. assert (weights_ok cs) as Hok by (eapply Forall_impl; [exact Hw|]; unfold in_u16; lia).
  split; [intros t; by apply theme_units_count|]. unfold weighted_choice.
  rewrite total_weight_spec, <- theme_units_length by exact Hok. fold units total.
  destruct (Z.ltb_spec 0 total) as [Hpos|Hz]; destruct (Z.leb_spec total U64_MAX); cbn [andb ok_or result_bind]; try reflexivity.
  - destruct (choose_total (dp_choice_source self) seed salt total Hpos) as [cursor Hc]. rewrite Hc. cbn [ok_or result_bind].
    pose proof (choose_in_range _ _ _ _ _ Hc) as Hr. rewrite weighted_pick_unit by (exact Hok || lia). fold units.
    destruct (lookup_lt_is_Some_2 units (Z.to_nat cursor)) as [t Ht]; [lia|]. rewrite Ht. by exists cursor, t.
  - destruct (choose _ _ _ _) as [cursor|] eqn:Hc; [|done]. apply choose_in_range in Hc. lia.
Qed.

Lemma without_recent_elem cs recent c :
  c ∈ without_recent cs recent ↔ c ∈ cs ∧ wc_theme_id c ∉ recent.
Proof.
  unfold without_recent, contains. rewrite list_elem_of_In, List.filter_In.
  rewrite negb_true_iff, bool_decide_eq_false. by rewrite <- list_elem_of_In.
Qed.

Lemma without_recent_nil cs recent c :
  without_recent cs recent = [] → c ∈ cs → wc_theme_id c ∈ recent.
Proof.
  intros Hn Hc. destruct (decide (wc_theme_id c ∈ recent)); [done|].
  assert (c ∈ without_recent cs recent) as Hin by by apply without_recent_elem.
  rewrite Hn in Hin. by apply not_elem_of_nil in Hin.
Qed.

Lemma without_recent_length cs recent : (length (without_recent cs recent) ≤ length cs)%nat.
Proof.
  unfold without_recent. induction cs as [|c cs IH]; simpl; [done|]. case_match; simpl; lia.
Qed.
End Selection.

Lemma weighted_choice_proportional_witness :
  theme_weight 2 [mkWeightedThemeCandidate 1 3; mkWeightedThemeCandidate 2 5] = 5 ∧
  ∃ t, weighted_choice DeterministicPlanner_epic_one 11 12
         [mkWeightedThemeCandidate 1 3; mkWeightedThemeCandidate 2 5] = Ok t ∧ (t = 1 ∨ t = 2).
Proof.
  destruct (weighted_choice_proportional DeterministicPlanner_epic_one 11 12
    [mkWeightedThemeCandidate 1 3; mkWeightedThemeCandidate 2 5]) as [H (cursor & t & _ & Hu & Hc)].
  - repeat constructor; vm_compute; discriminate.
  - split; [rewrite <- H; vm_compute; reflexivity|]. exists t. split; [exact Hc|].
    assert (Forall (λ t, t = 1 ∨ t = 2) (theme_units [mkWeightedThemeCandidate 1 3; mkWeightedThemeCandidate 2 5])) as HF
      by (apply (bool_decide_eq_true_1 _); vm_compute; reflexivity).
    rewrite Forall_forall in HF. apply HF. by apply list_elem_of_lookup_2 in Hu.
Defined.

(** ** Configurations and inputs the planner can serve *)

Record config_wf (cfg : PlanningConfiguration) : Prop := {
  cw_revision : cfg_revision cfg ≠ 0;
  cw_theme_names : Forall (λ def, str_is_blank (th_name def) = false) (cfg_themes cfg);
  cw_scene_names : Forall (λ s, str_is_blank (sc_name s) = false) (cfg_scenes cfg);
  cw_categories : ∀ category, Exists (λ s, sc_category s = category) (cfg_scenes cfg);
  cw_lock : ∀ t, cfg_global_theme_lock cfg = Some t → t ∈ th_id <$> cfg_themes cfg;
  cw_default : cfg_default_theme_id cfg ∈ th_id <$> cfg_themes cfg;
  cw_color_rules : Forall (λ rule, cr_candidates rule ≠ [] ∧
      Z.of_nat (length (cr_candidates rule)) * U16_MAX ≤ U64_MAX ∧
      Forall (λ c, 1 ≤ wc_weight c ≤ U16_MAX ∧ wc_theme_id c ∈ th_id <$> cfg_themes cfg)
        (cr_candidates rule)) (cfg_color_rules cfg);
  cw_rules : Forall (λ rule, in_u16 (sr_weight rule) ∧
      sr_theme_id rule ∈ th_id <$> cfg_themes cfg) (cfg_theme_selection_rules cfg);
  cw_rules_length : Z.of_nat (length (cfg_theme_selection_rules cfg)) * U16_MAX ≤ U64_MAX;
}.

Record input_wf (input : PlanningInput) : Prop := {
  iw_duration : 0 < pt_duration_beats (in_track input);
  iw_load : in_u64 (in_track_load_id input);
  iw_phrases : ∀ phrases, pt_phrases (in_track input) = Some phrases →
    Forall (λ p, in_u16 (tp_index p)) phrases;
}.

Lemma epic_one_wf : config_wf PlanningConfiguration_epic_one.
Proof.
  split; simpl; try done.
  - repeat constructor.
  - repeat constructor.
  - intros []; repeat first [apply Exists_cons_hd; reflexivity | apply Exists_cons_tl].
  - left.
  - repeat constructor; simpl; try done; set_solver.
Qed.

Lemma stable_seed_u64 track revision : in_u64 (stable_seed track revision).
Proof.
  unfold stable_seed. rewrite foldl_app. unfold to_le_bytes_u64 at 1. simpl. apply wrapping_mul_u64_in.
Qed.

Lemma nonzero_u64 x : in_u64 x → in_u64 (nonzero x).
Proof. unfold nonzero. destruct (Z.eqb_spec x 0); [unfold in_u64, U64_MAX; lia|done]. Qed.

Lemma analysis_loop_spec l : ∀ n prev dur,
  analysis_loop n prev dur l = true ↔ indexed n l ∧ tiles prev l dur.
Proof.
  induction l as [|p l IH]; intros n prev dur; simpl; [rewrite Z.eqb_eq; tauto|].
  destruct (Z.eqb_spec (tp_index p) n); simpl; [|naive_solver].
  destruct (Z.eqb_spec (tp_start_beat p) prev); simpl; [|naive_solver].
  destruct (Z.leb_spec (tp_end_beat p) (tp_start_beat p)); simpl; [naive_solver lia|].
  destruct (Z.ltb_spec dur (tp_end_beat p)).
  - split; [done|]. intros (_ & _ & _ & Ht%tiles_le). simpl in Ht. lia.
  - rewrite IH. split; [|tauto]. intros [? ?]. repeat split; auto; lia.
Qed.

Lemma analysis_is_complete_spec phrases dur :
  analysis_is_complete phrases dur = true ↔
  phrases ≠ [] ∧ indexed 0 phrases ∧ tiles 0 phrases dur.
Proof.
  unfold analysis_is_complete. destruct phrases as [|p l]; [naive_solver|].
  rewrite analysis_loop_spec. naive_solver.
Qed.

(** ** Selecting the Theme of a plan *)

Section Generation.
Context {C : Type} `{ChoiceSource C}.
Implicit Types (self : DeterministicPlanner C) (input : PlanningInput).

Lemma select_rotated_theme_Ok self seed context d :
  select_rotated_theme self seed context = Ok d →
  ∃ t reason, decision self t reason None = Ok d ∧
    (reason = Rotation → t ∉ recent_theme_ids context ∧ recent_theme_ids context ≠ []) ∧
    (reason = Rotation ∨ reason = DefaultTheme).
Proof.
  intros Hd. assert (∀ t, decision self t DefaultTheme None = Ok d → ∃ t reason,
    decision self t reason None = Ok d ∧
    (reason = Rotation → t ∉ recent_theme_ids context ∧ recent_theme_ids context ≠ []) ∧
    (reason = Rotation ∨ reason = DefaultTheme)) as Hdef.
  { intros t Ht. exists t, DefaultTheme. split; [done|]. split; [done|auto]. }
  revert Hd. unfold select_rotated_theme. case_bool_decide as Hr; [apply Hdef|].
  destruct (choose_from _ _ _ _) as [c|] eqn:Hc; [|apply Hdef].
  intros. eexists _, Rotation. split; [done|]. split; [|auto]. intros _. split; [|done].
  apply choose_from_Some, list_elem_of_In, List.filter_In in Hc as [_ Hc].
  unfold contains in Hc. by rewrite negb_true_iff, bool_decide_eq_false in Hc.
Qed.

Lemma select_color_rule_Ok self color mode seed context r d :
  select_color_rule self color mode seed context = Some r → r = Ok d →
  ∃ t reason, decision self t reason (Some (TrackColor_rgb_u32 color)) = Ok d ∧
    reason = match mode with ModeForce => ColorForce | ModePrefer => ColorPrefer end.
Proof.
  unfold select_color_rule. destruct (List.find _ _) as [rule|]; [|done]. intros [= <-] Hd.
  unbind Hd. eexists _, _. split; [exact Hd|]. by destruct mode.
Qed.

Lemma select_policy_theme_Ok self track seed context d :
  select_policy_theme self track seed context = Ok d →
  ∃ t reason color, decision self t reason color = Ok d ∧
    (t ∈ recent_theme_ids context →
     Forall (λ rule, sr_theme_id rule ∈ recent_theme_ids context) (eligible_rules self track)) ∧
    (recent_theme_ids context ≠ [] → reason ≠ DefaultTheme).
Proof.
  unfold select_policy_theme. case_bool_decide as Hw; [done|].
  destruct (_ && existsb _ (weigh_rule track <$> _)) eqn:Hdef.
  - rewrite !andb_true_iff, bool_decide_eq_true in Hdef. destruct Hdef as [[_ Hr] _].
    intros. eexists _, _, _. split; [done|]. rewrite Hr. split; [|done].
    by intros ?%not_elem_of_nil.
  - intros Hd. apply result_bind_Ok in Hd as (t & Ht & Hd). eexists t, _, _. split; [exact Hd|].
    split; [|by repeat case_match]. intros Hin.
    apply weighted_choice_Ok in Ht as (c & Hc & <- & _). case_bool_decide as Hf.
    + apply Forall_forall. intros rule Hrule.
      apply (without_recent_nil _ _ (weigh_rule track rule)) in Hf; [done|].
      by apply list_elem_of_fmap_2.
    + by apply without_recent_elem in Hc as [_ ?].
Qed.

(** Every selection ends in [decision]. *)
Lemma select_initial_theme_Ok self track seed context d :
  select_initial_theme self track seed context = Ok d →
  ∃ def, theme self (td_theme_id d) = Some def ∧ td_theme_name d = th_name def ∧
    str_is_blank (th_name def) = false.
Proof.
  intros Hd. assert (∃ t reason color, decision self t reason color = Ok d) as (t & reason & color & Ht).
  { revert Hd. unfold select_initial_theme. case_match; [by eauto|].
    case_bool_decide; simpl; [|intros (? & ? & ? & ? & _)%select_policy_theme_Ok; by eauto].
    assert (select_rotated_theme self seed context = Ok d →
      ∃ t reason color, decision self t reason color = Ok d) as Hrot
      by (intros (? & ? & ? & _)%select_rotated_theme_Ok; eauto).
    destruct (pt_color track) as [color|]; [|done].
    destruct (select_color_rule _ _ ModeForce _ _) eqn:Hf.
    { intros Hd. destruct (select_color_rule_Ok _ _ _ _ _ _ _ Hf Hd) as (? & ? & ? & _). eauto. }
    destruct (select_color_rule _ _ ModePrefer _ _) eqn:Hp; [|done].
    intros Hd. destruct (select_color_rule_Ok _ _ _ _ _ _ _ Hp Hd) as (? & ? & ? & _). eauto. }
  apply decision_Ok in Ht as (def & Hdef & Hb & ->). by exists def.
Qed.

Lemma config_themes_named self : config_wf (dp_configuration self) → themes_named self.
Proof. intros Hc. exact (cw_theme_names _ Hc). Qed.

Lemma choice_decision_total self seed salt cs reason color :
  config_wf (dp_configuration self) → cs ≠ [] →
  Z.of_nat (length cs) * U16_MAX ≤ U64_MAX →
  Forall (λ c, 1 ≤ wc_weight c ≤ U16_MAX ∧ wc_theme_id c ∈ theme_ids self) cs →
  is_ok (let? t := weighted_choice self seed salt cs in decision self t reason color).
Proof.
  intros Hcfg Hne Hlen Hcs. destruct (weighted_choice_total self seed salt cs) as [t Ht]; [done| |done|].
  { eapply Forall_impl; [exact Hcs|]. by intros c [? _]. }
  rewrite Ht; simpl. apply decision_total; [by apply config_themes_named|].
  apply weighted_choice_Ok in Ht as (c & Hc & <- & _).
  by destruct (proj1 (Forall_forall _ _) Hcs _ Hc).
Qed.

Lemma select_color_rule_total self color mode seed context r :
  config_wf (dp_configuration self) →
  select_color_rule self color mode seed context = Some r → is_ok r.
Proof.
  intros Hcfg. unfold select_color_rule. destruct (List.find _ _) as [rule|] eqn:Hr; [|done].
  apply List.find_some in Hr as [Hin%list_elem_of_In _].
  destruct (proj1 (Forall_forall _ _) (cw_color_rules _ Hcfg) _ Hin) as (Hne & Hlen & Hcs).
  intros [= <-]. set (fresh := if bool_decide (mode = ModePrefer) then _ else _).
  assert (∀ c, c ∈ fresh → c ∈ cr_candidates rule) as Hsub.
  { subst fresh. intros c. case_bool_decide; [|done]. by intros [? _]%without_recent_elem. }
  assert (length fresh ≤ length (cr_candidates rule))%nat as Hl.
  { subst fresh. case_bool_decide; [apply without_recent_length|done]. }
  apply choice_decision_total; [done|case_bool_decide; done|case_bool_decide; unfold U16_MAX in *; nia|].
  apply Forall_forall. intros c Hc. apply (proj1 (Forall_forall _ _) Hcs).
  revert Hc. case_bool_decide; auto.
Qed.

Lemma select_rotated_theme_total self seed context :
  config_wf (dp_configuration self) → is_ok (select_rotated_theme self seed context).
Proof.
  intros Hcfg. assert (is_ok (decision self (cfg_default_theme_id (dp_configuration self)) DefaultTheme None))
    as Hdef by (apply decision_total; [by apply config_themes_named|by apply cw_default]).
  unfold select_rotated_theme. case_bool_decide; [done|].
  destruct (choose_from _ _ _ _) as [c|] eqn:Hc; [|done].
  apply choose_from_Some, list_elem_of_In, List.filter_In in Hc as [Hc _].
  apply decision_total; [by apply config_themes_named|].
  apply list_elem_of_fmap_2. by apply list_elem_of_In.
Qed.

Lemma eligible_rules_sub self track rule :
  rule ∈ eligible_rules self track → rule ∈ cfg_theme_selection_rules (dp_configuration self).
Proof.
  unfold eligible_rules, matching_only. case_match; rewrite !list_elem_of_In, List.filter_In; tauto.
Qed.

Lemma eligible_rules_length self track :
  (length (eligible_rules self track) ≤ length (cfg_theme_selection_rules (dp_configuration self)))%nat.
Proof.
  assert (∀ A (p : A → bool) l, (length (List.filter p l) ≤ length l)%nat) as Hf
    by (intros A p l; induction l; simpl; [done|case_match; simpl; lia]).
  unfold eligible_rules, matching_only. case_match; apply Hf.
Qed.

(** Some Theme may be selected for the track: no rules are configured, or one is eligible. *)
Definition selectable self track : Prop :=
  cfg_theme_selection_rules (dp_configuration self) ≠ [] → eligible_rules self track ≠ [].

(** An enabled rule that is not reserved for a colour makes every track selectable. *)
Lemma selectable_neutral self track :
  Exists (λ rule, sr_enabled rule = true ∧ sr_color_behavior rule ≠ BehaviorOnly)
    (cfg_theme_selection_rules (dp_configuration self)) →
  selectable self track.
Proof.
  intros (rule & Hin & He & Hb)%Exists_exists _. unfold eligible_rules.
  destruct (uses_color_only self track) eqn:Hu.
  { unfold uses_color_only in Hu. by apply negb_true_iff, bool_decide_eq_false in Hu. }
  intros Hn. apply (not_elem_of_nil rule).
  rewrite <- Hn. apply list_elem_of_In, List.filter_In. split; [by apply list_elem_of_In|].
  rewrite He. simpl. by rewrite bool_decide_false.
Qed.

Lemma weigh_rule_bounds track rule :
  in_u16 (sr_weight rule) → 1 ≤ wc_weight (weigh_rule track rule) ≤ U16_MAX.
Proof.
  unfold in_u16, weigh_rule, saturating_mul_u16, U16_MAX. simpl. case_match; lia.
Qed.

Lemma select_policy_theme_total self track seed context :
  config_wf (dp_configuration self) → eligible_rules self track ≠ [] →
  is_ok (select_policy_theme self track seed context).
Proof.
  intros Hcfg Hel.
  unfold select_policy_theme. rewrite bool_decide_false by (by intros ?%fmap_nil_inv).
  destruct (_ && existsb _ (weigh_rule track <$> _)).
  { apply decision_total; [by apply config_themes_named|by apply cw_default]. }
  set (weighted := weigh_rule track <$> eligible_rules self track).
  assert (Forall (λ c, 1 ≤ wc_weight c ≤ U16_MAX ∧ wc_theme_id c ∈ theme_ids self) weighted) as Hw.
  { apply Forall_forall. intros c (rule & -> & Hr%eligible_rules_sub)%list_elem_of_fmap.
    destruct (proj1 (Forall_forall _ _) (cw_rules _ Hcfg) _ Hr). split; [by apply weigh_rule_bounds|done]. }
  assert (length weighted ≤ length (cfg_theme_selection_rules (dp_configuration self)))%nat as Hl.
  { subst weighted. rewrite length_fmap. apply eligible_rules_length. }
  pose proof (cw_rules_length _ Hcfg) as Hlen.
  pose proof (without_recent_length weighted (recent_theme_ids context)) as Hfl.
  apply choice_decision_total; [done| | |].
  - case_bool_decide; [|done]. by intros ?%fmap_nil_inv.
  - case_bool_decide; unfold U16_MAX in *; nia.
  - apply Forall_forall. intros c Hc. apply (proj1 (Forall_forall _ _) Hw).
    revert Hc. case_bool_decide; [done|]. by intros [? _]%without_recent_elem.
Qed.

Lemma select_initial_theme_total self track seed context :
  config_wf (dp_configuration self) → selectable self track →
  is_ok (select_initial_theme self track seed context).
Proof.
  intros Hcfg Hsel. unfold select_initial_theme. destruct (cfg_global_theme_lock _) as [t|] eqn:Hlock.
  { apply decision_total; [by apply config_themes_named|by apply cw_lock]. }
  case_bool_decide as Hr; simpl; [|apply select_policy_theme_total; [done|by apply Hsel]].
  destruct (pt_color track) as [color|]; [|by apply select_rotated_theme_total].
  destruct (select_color_rule _ _ ModeForce _ _) eqn:Hf; [by eapply select_color_rule_total|].
  destruct (select_color_rule _ _ ModePrefer _ _) eqn:Hp; [by eapply select_color_rule_total|].
  by apply select_rotated_theme_total.
Qed.
End Generation.
