(* ===== verification/PlanGeneration.v ===== *)
(** * Generation of plans

    [generate_with_context] always succeeds on a usable configuration, and what
    it returns is one cue per phrase, or one holding cue for the whole track. *)

From stdpp Require Import prelude list gmap strings.
From Stdlib Require Import ZArith Lia.
From S2P Require Import Prelude.
From S2P Require Import Track.
From S2P Require Import Plan.
From S2P Require Import Mixing.
From S2P Require Import Planner.
From S2P Require Import PlannerProps.
Open Scope Z_scope.

(** The cue the planner writes for a phrase under a Theme decision: the range of
    the phrase, a configured scene of the category of its kind, automatic and
    unlocked. *)
Record cue_plays (cfg : PlanningConfiguration) (d : ThemeDecision) (phrase : TrackPhrase)
    (c : LightingCue) : Prop := {
  cp_index : cue_phrase_index c = tp_index phrase;
  cp_start : cue_start_beat c = tp_start_beat phrase;
  cp_end : cue_end_beat c = tp_end_beat phrase;
  cp_origin : cue_origin c = OriginAutomatic;
  cp_unlocked : cue_locked c = false;
  cp_reason : cue_reason c = PhraseCategoryMatched (tp_kind phrase) (category_for (tp_kind phrase));
  cp_action : ∃ s, s ∈ cfg_scenes cfg ∧ sc_category s = category_for (tp_kind phrase) ∧
    cue_action c = ApplyLook (mkLightingLook (td_theme_id d) (td_theme_name d) (sc_id s)
                                (sc_name s) (sc_category s) (sc_loop_selection s));
}.

Lemma forall2_indexed `{Ranged A, Ranged B} (l : list A) (k : list B) n :
  Forall2 (λ x y, range_index y = range_index x) l k → indexed n l → indexed n k.
Proof.
  intros Hf. revert n. induction Hf as [|x y l k Hxy _ IH]; intros n; simpl; [done|].
  rewrite Hxy. naive_solver.
Qed.

Lemma forall2_tiles `{Ranged A, Ranged B} (l : list A) (k : list B) s e :
  Forall2 (λ x y, range_start y = range_start x ∧ range_end y = range_end x) l k →
  tiles s l e → tiles s k e.
Proof.
  intros Hf. revert s. induction Hf as [|x y l k [Hs He] _ IH]; intros s; simpl; [done|].
  rewrite Hs, He. naive_solver.
Qed.

#[local] Opaque mix stable_seed.

Section Generate.
Context {C : Type} `{ChoiceSource C}.
Variable self : DeterministicPlanner C.

Lemma look_total def s :
  str_is_blank (th_name def) = false → str_is_blank (sc_name s) = false →
  LightingLook_try_new (th_id def) (th_name def) (sc_id s) (sc_name s) (sc_category s)
    (sc_loop_selection s) =
  Ok (mkLightingLook (th_id def) (th_name def) (sc_id s) (sc_name s) (sc_category s)
        (sc_loop_selection s)).
Proof. intros Ht Hs. unfold LightingLook_try_new. by rewrite Ht, Hs. Qed.

Lemma plan_phrase_Ok seed pid def phrase c d :
  plan_phrase self seed pid def phrase = Ok c →
  td_theme_id d = th_id def → td_theme_name d = th_name def →
  cue_plays (dp_configuration self) d phrase c ∧
  cue_id c = nonzero (mix (Z.lxor pid (tp_index phrase + 1))).
Proof.
  unfold plan_phrase. intros Hc Hid Hname. unbind Hc. injection Hc as <-.
  unfold LightingLook_try_new in E0. repeat (case_match; [done|]). injection E0 as <-.
  apply choose_from_Some, list_elem_of_In, List.filter_In in E as [Hin Hcat].
  apply bool_decide_eq_true in Hcat. split; [|done]. split; try done.
  exists v. rewrite Hid, Hname. split; [by apply list_elem_of_In|]. done.
Qed.

Lemma plan_phrase_total seed pid def phrase :
  config_wf (dp_configuration self) → str_is_blank (th_name def) = false →
  is_ok (plan_phrase self seed pid def phrase).
Proof.
  intros Hcfg Hdef. unfold plan_phrase.
  destruct (choose_from_total self seed (tp_index phrase + 1)
    (List.filter (λ s, bool_decide (sc_category s = category_for (tp_kind phrase)))
       (cfg_scenes (dp_configuration self)))) as [s Hs].
  { pose proof (cw_categories _ Hcfg (category_for (tp_kind phrase))) as Hex.
    apply Exists_exists in Hex as (s & Hin & Hcat). intros Hnil.
    assert (s ∈ ([] : list SceneDefinition)) as Hx; [|by apply not_elem_of_nil in Hx].
    rewrite <- Hnil. apply list_elem_of_In, List.filter_In. split; [by apply list_elem_of_In|].
    by rewrite bool_decide_true. }
  rewrite Hs; simpl. apply choose_from_Some, list_elem_of_In, List.filter_In in Hs as [Hin _].
  apply list_elem_of_In in Hin. rewrite look_total; [by eexists|done|].
  exact (proj1 (Forall_forall _ _) (cw_scene_names _ Hcfg) _ Hin).
Qed.

(** The cues of an analysed track. *)
Lemma plan_analyzed_phrases_spec seed pid phrases def d :
  config_wf (dp_configuration self) → str_is_blank (th_name def) = false →
  td_theme_id d = th_id def → td_theme_name d = th_name def →
  ∃ cues, plan_analyzed_phrases self seed pid phrases def = Ok cues ∧
    Forall2 (λ p c, cue_plays (dp_configuration self) d p c ∧
                    cue_id c = nonzero (mix (Z.lxor pid (tp_index p + 1)))) phrases cues.
Proof.
  intros Hcfg Hdef Hid Hname. unfold plan_analyzed_phrases.
  destruct (collect_total (plan_phrase self seed pid def) phrases) as [cues Hcues].
  { apply Forall_forall. intros. by apply plan_phrase_total. }
  exists cues. split; [done|]. apply collect_Ok in Hcues.
  eapply Forall2_impl; [exact Hcues|]. intros p c Hc. exact (plan_phrase_Ok _ _ _ _ _ _ Hc Hid Hname).
Qed.

(** Identifiers of generated cues are pairwise distinct. *)
Lemma generated_ids_distinct pid (phrases : list TrackPhrase) (cues : list LightingCue) :
  in_u64 pid → Forall (λ p, in_u16 (tp_index p)) phrases → indexed 0 phrases →
  Forall2 (λ p c, cue_id c = nonzero (mix (Z.lxor pid (tp_index p + 1)))) phrases cues →
  NoDup (cue_id <$> cues).
Proof.
  intros Hpid Hidx Hind Hf. apply NoDup_alt. intros i j x Hi Hj.
  rewrite list_lookup_fmap, fmap_Some in Hi, Hj.
  destruct Hi as (ci & Hci & ->), Hj as (cj & Hcj & Heq).
  destruct (Forall2_lookup_r _ _ _ _ _ Hf Hci) as (p & Hp & Hpi).
  destruct (Forall2_lookup_r _ _ _ _ _ Hf Hcj) as (q & Hq & Hqj).
  rewrite Hpi, Hqj in Heq.
  pose proof (indexed_lookup _ _ _ _ Hind Hp) as Hip.
  pose proof (indexed_lookup _ _ _ _ Hind Hq) as Hjq. simpl in Hip, Hjq.
  pose proof (proj1 (Forall_lookup _ _) Hidx _ _ Hp) as Hup.
  pose proof (proj1 (Forall_lookup _ _) Hidx _ _ Hq) as Huq.
  unfold in_u16, U16_MAX in Hup, Huq. simpl in Hup, Huq.
  apply salted_ids_distinct in Heq; [|done|lia|lia]. lia.
Qed.

Lemma cue_plays_no_fallback d phrases cues :
  Forall2 (cue_plays (dp_configuration self) d) phrases cues →
  existsb cue_is_fallback cues = false.
Proof.
  induction 1 as [|p c phrases cues Hc _ IH]; simpl; [done|]. rewrite IH, orb_false_r.
  unfold cue_is_fallback. by rewrite (cp_origin _ _ _ _ Hc).
Qed.

Lemma cue_plays_consistent d phrases cues :
  Forall2 (cue_plays (dp_configuration self) d) phrases cues → theme_inconsistent d cues = false.
Proof.
  intros [|p c phrases' cues' Hc _]; [done|]. unfold theme_inconsistent; simpl.
  destruct (cp_action _ _ _ _ Hc) as (s & _ & _ & ->). simpl.
  by rewrite Z.eqb_refl, bool_decide_true.
Qed.

(** A generated plan of cues that play their phrases is well formed. *)
Lemma generated_plan_wf id deck track dur load rev conf seed d phrases cues :
  rev ≠ 0 → conf ≠ 0 → dur ≠ 0 → phrases ≠ [] → indexed 0 phrases → tiles 0 phrases dur →
  NoDup (cue_id <$> cues) → Forall2 (cue_plays (dp_configuration self) d) phrases cues →
  plan_wf (mkLightingPlan id deck track dur load rev conf seed PlanReady (Some d) cues).
Proof.
  intros ? ? ? Hne Hi Ht Hnd Hf. split; simpl; try done.
  - intros ->. by inversion Hf; subst.
  - eapply (forall2_indexed phrases); [|exact Hi]. eapply Forall2_impl; [exact Hf|]. by intros ? ? [].
  - eapply (forall2_tiles phrases); [|exact Ht]. eapply Forall2_impl; [exact Hf|]. by intros ? ? [].
  - split; [done|]. rewrite has_fallback_existsb. by rewrite (cue_plays_no_fallback _ _ _ Hf).
  - by intros d' [= <-]; eapply cue_plays_consistent.
Qed.

Lemma fallback_plan_wf id deck track dur load conf seed cue :
  conf ≠ 0 → 0 < dur →
  plan_wf (mkLightingPlan id deck track dur load PlanRevision_initial conf seed PlanFallback None
             [LightingCue_new cue 0 0 dur HoldCurrentLook OriginFallback MissingPhraseAnalysis]).
Proof.
  intros ? ?. split; simpl; try done; try lia.
  - apply NoDup_singleton.
  - split; [intros _|done]. eexists. split; [by left|done].
Qed.

Definition input_plan_id (input : PlanningInput) : PlanId :=
  nonzero (mix (Z.lxor (stable_seed (pt_id (in_track input)) (cfg_revision (dp_configuration self)))
                  (in_track_load_id input))).

Lemma input_plan_id_u64 input : input_wf input → in_u64 (input_plan_id input).
Proof.
  intros Hin. apply nonzero_u64, mix_u64, lxor_u64; [apply stable_seed_u64|by apply iw_load].
Qed.

Lemma generate_analyzed input context phrases :
  config_wf (dp_configuration self) → selectable self (in_track input) → input_wf input →
  pt_phrases (in_track input) = Some phrases →
  analysis_is_complete phrases (pt_duration_beats (in_track input)) = true →
  ∃ d cues,
    generate_with_context self input context =
      Ok (mkLightingPlan (input_plan_id input) (in_deck_id input) (pt_id (in_track input))
            (pt_duration_beats (in_track input)) (in_track_load_id input) 1
            (cfg_revision (dp_configuration self))
            (stable_seed (pt_id (in_track input)) (cfg_revision (dp_configuration self)))
            PlanReady (Some d) cues) ∧
    select_initial_theme self (in_track input)
      (stable_seed (pt_id (in_track input)) (cfg_revision (dp_configuration self))) context = Ok d ∧
    Forall2 (cue_plays (dp_configuration self) d) phrases cues ∧ NoDup (cue_id <$> cues).
Proof.
  intros Hcfg Hsel Hin Hph Hcomplete. unfold generate_with_context. rewrite Hph, Hcomplete.
  pose proof (iw_duration _ Hin). rewrite (proj2 (Z.eqb_neq _ 0)) by lia.
  cbv zeta. fold (input_plan_id input). set (seed := stable_seed _ _).
  destruct (select_initial_theme_total self (in_track input) seed context Hcfg Hsel) as [d Hd].
  rewrite Hd. cbn [result_bind].
  pose proof Hd as (def & Hdef & Hname & Hblank)%select_initial_theme_Ok. rewrite Hdef. cbn [ok_or result_bind].
  destruct (plan_analyzed_phrases_spec seed (input_plan_id input) phrases def d) as (cues & Hcues & Hf);
    [done|done|symmetry; by eapply theme_Some|done|].
  rewrite Hcues. cbn [result_bind].
  apply analysis_is_complete_spec in Hcomplete as (Hne & Hi & Ht).
  assert (Forall2 (cue_plays (dp_configuration self) d) phrases cues) as Hplays
    by (eapply Forall2_impl; [exact Hf|]; by intros ? ? []).
  assert (NoDup (cue_id <$> cues)) as Hnd.
  { eapply generated_ids_distinct; [by apply input_plan_id_u64|by eapply iw_phrases|done|].
    eapply Forall2_impl; [exact Hf|]; by intros ? ? []. }
  exists d, cues. split; [|done]. change (existsb _ cues) with (existsb cue_is_fallback cues).
  rewrite (cue_plays_no_fallback _ _ _ Hplays). apply map_err_Ok, plan_constructor_iff.
  split; [done|]. eapply generated_plan_wf; try done; [by apply cw_revision|lia].
Qed.

(** Whatever is generated passed the constructor of plans. *)
Lemma generate_wf input context plan :
  generate_with_context self input context = Ok plan → plan_wf plan.
Proof.
  unfold generate_with_context. destruct (_ =? 0); [done|].
  rewrite result_bind_Ok. intros ([d cues] & _ & Hp).
  by apply map_err_Ok, plan_constructor_iff in Hp as [_ ?].
Qed.

(** C13: on a usable configuration the planner always plans an analysed track for which
    some Theme is eligible.
    Whatever the choice source and the recent Themes, generation succeeds for
    every track whose phrases partition it; the plan is well-formed and ready,
    belongs to the requested load with revision one, and its cues are in order
    one per phrase: the range of the phrase, a configured scene of the category
    of its kind, the selected Theme.  No two cues share an identifier. *)
Theorem generate_ready input context phrases :
  config_wf (dp_configuration self) → selectable self (in_track input) → input_wf input →
  pt_phrases (in_track input) = Some phrases →
  analysis_is_complete phrases (pt_duration_beats (in_track input)) = true →
  ∃ plan d, generate_with_context self input context = Ok plan ∧ plan_wf plan ∧
    plan_status plan = PlanReady ∧ plan_theme_decision plan = Some d ∧
    Forall2 (cue_plays (dp_configuration self) d) phrases (plan_cues plan) ∧
    NoDup (cue_id <$> plan_cues plan) ∧ plan_revision plan = PlanRevision_initial ∧
    plan_deck_id plan = in_deck_id input ∧ plan_track_load_id plan = in_track_load_id input ∧
    plan_track_id plan = pt_id (in_track input).
Proof.
  intros Hcfg Hsel Hin Hph Hc.
  destruct (generate_analyzed input context phrases Hcfg Hsel Hin Hph Hc) as (d & cues & Hg & _ & Hf & Hnd).
  eexists _, d. split; [exact Hg|].
  apply analysis_is_complete_spec in Hc as (Hne & Hi & Ht).
  pose proof (iw_duration _ Hin).
  split; [|done]. eapply generated_plan_wf; try done; [by apply cw_revision|lia].
Qed.

(** C37: what generating does for a track without a complete phrase analysis, in every case.
    A track without a duration and a configuration of revision zero are refused, each with
    its error.  Every other track gets the fallback plan: a well-formed plan without a Theme
    whose one cue holds the current look over the whole track. *)
Theorem generate_fallback input context :
  0 ≤ pt_duration_beats (in_track input) →
  match pt_phrases (in_track input) with
  | Some phrases => analysis_is_complete phrases (pt_duration_beats (in_track input))
  | None => false
  end = false →
  let generated := generate_with_context self input context in
  if pt_duration_beats (in_track input) =? 0 then generated = Err PEEmptyTrackDuration
  else if cfg_revision (dp_configuration self) =? 0 then generated = Err (PEInvalidPlan ZeroConfigurationRevision)
  else
    ∃ plan cue, generated = Ok plan ∧ plan_wf plan ∧
      plan_status plan = PlanFallback ∧ plan_theme_decision plan = None ∧ plan_cues plan = [cue] ∧
      cue_action cue = HoldCurrentLook ∧ cue_start_beat cue = 0 ∧
      cue_end_beat cue = pt_duration_beats (in_track input).
Proof.
  intros Hdur Hph. cbv zeta. unfold generate_with_context.
  destruct (Z.eqb_spec (pt_duration_beats (in_track input)) 0) as [|Hd]; [done|].
  cbv zeta. fold (input_plan_id input). set (seed := stable_seed _ _).
  set (analyzed := match pt_phrases (in_track input) with Some _ => _ | None => _ end).
  assert (analyzed = None) as ->.
  { subst analyzed. destruct (pt_phrases (in_track input)); [|done]. by rewrite Hph. }
  cbn [result_bind]. destruct (Z.eqb_spec (cfg_revision (dp_configuration self)) 0) as [E|Hrev].
  { unfold LightingPlan_try_new_with_theme_decision. by rewrite E. }
  eexists _, _. split; [|split].
  - apply map_err_Ok, plan_constructor_iff. split; [reflexivity|]. apply fallback_plan_wf; [done|lia].
  - apply fallback_plan_wf; [done|lia].
  - by repeat split.
Qed.

(** Rotation avoids recent Themes: when the selected Theme is one of the
    recent ones although it was chosen by rotation, selection rules are
    configured and every eligible rule is for a recent Theme. *)
Theorem rotation_avoids_recent track seed context d :
  select_initial_theme self track seed context = Ok d → td_reason d = Rotation →
  td_theme_id d ∈ recent_theme_ids context →
  cfg_theme_selection_rules (dp_configuration self) ≠ [] ∧
  Forall (λ rule, sr_theme_id rule ∈ recent_theme_ids context) (eligible_rules self track).
Proof.
  unfold select_initial_theme. case_match.
  { intros (def & _ & _ & ->)%decision_Ok. done. }
  case_bool_decide as Hr; simpl.
  - assert (select_rotated_theme self seed context = Ok d → td_reason d = Rotation →
      td_theme_id d ∉ recent_theme_ids context) as Hrot.
    { intros (t & reason & (def & _ & _ & ->)%decision_Ok & Hn & _)%select_rotated_theme_Ok Hx.
      simpl in *. by apply Hn. }
    destruct (pt_color track) as [color|]; [|intros; by destruct Hrot].
    destruct (select_color_rule _ _ ModeForce _ _) eqn:Hf.
    { intros Hd. destruct (select_color_rule_Ok _ _ _ _ _ _ _ Hf Hd)
        as (? & ? & (? & _ & _ & ->)%decision_Ok & ->). done. }
    destruct (select_color_rule _ _ ModePrefer _ _) eqn:Hp; [|intros; by destruct Hrot].
    intros Hd. destruct (select_color_rule_Ok _ _ _ _ _ _ _ Hp Hd)
      as (? & ? & (? & _ & _ & ->)%decision_Ok & ->). done.
  - intros (t & reason & color & (def & _ & _ & ->)%decision_Ok & Hx & _)%select_policy_theme_Ok _.
    simpl. auto.
Qed.
End Generate.

(** ** Witnesses: a two-phrase track on the first configuration *)

Definition demo_phrases_pair : list TrackPhrase :=
  [mkTrackPhrase 0 0 16 KindIntro; mkTrackPhrase 1 16 32 KindDrop].

Definition demo_input : PlanningInput :=
  mkPlanningInput 1 100 (PlannerTrack_with_analysis 7 32 demo_phrases_pair).

Lemma demo_input_wf : input_wf demo_input.
Proof.
  split; simpl; [lia|unfold in_u64, U64_MAX; lia|]. intros ? [= <-].
  repeat constructor; simpl; unfold U16_MAX; lia.
Qed.

Lemma epic_one_selectable track : selectable DeterministicPlanner_epic_one track.
Proof. intros H. by destruct H. Qed.

Lemma generate_ready_witness :
  ∃ plan d, generate_with_context DeterministicPlanner_epic_one demo_input
              (ThemeSelectionContext_new [1]) = Ok plan ∧ plan_wf plan ∧
    Forall2 (cue_plays PlanningConfiguration_epic_one d) demo_phrases_pair (plan_cues plan).
Proof.
  destruct (generate_ready DeterministicPlanner_epic_one demo_input (ThemeSelectionContext_new [1])
    demo_phrases_pair epic_one_wf (epic_one_selectable _) demo_input_wf eq_refl eq_refl)
    as (plan & d & Hg & Hwf & _ & _ & Hf & _).
  exists plan, d. auto.
Defined.

Lemma generate_fallback_witness :
  ∃ plan cue, generate_with_context DeterministicPlanner_epic_one
    (mkPlanningInput 1 100 (PlannerTrack_with_analysis 7 32 [mkTrackPhrase 0 0 16 KindIntro]))
    ThemeSelectionContext_default = Ok plan ∧ plan_cues plan = [cue] ∧
    cue_action cue = HoldCurrentLook.
Proof.
  destruct (generate_fallback DeterministicPlanner_epic_one
    (mkPlanningInput 1 100 (PlannerTrack_with_analysis 7 32 [mkTrackPhrase 0 0 16 KindIntro]))
    ThemeSelectionContext_default) as (plan & cue & Hg & _ & _ & _ & Hc & Ha & _).
  - simpl. lia.
  - reflexivity.
  - exists plan, cue. auto.
Defined.

(** Two rules, both for recent Themes: rotation has to repeat one of them. *)
Definition demo_rotation_planner : DeterministicPlanner StableChoiceSource :=
  mkDeterministicPlanner
    (with_theme_selection_rules PlanningConfiguration_epic_one
       [mkThemeSelectionRule 2 true 1 BehaviorNeutral []; mkThemeSelectionRule 3 true 1 BehaviorNeutral []])
    mkStableChoiceSource.

Lemma rotation_avoids_recent_witness :
  Forall (λ rule, sr_theme_id rule ∈ [2; 3])
    (eligible_rules demo_rotation_planner (in_track demo_input)).
Proof.
  assert (∃ d, select_initial_theme demo_rotation_planner (in_track demo_input) 5
    (mkThemeSelectionContext [2; 3]) = Ok d ∧ td_reason d = Rotation ∧ bool_decide (td_theme_id d ∈ [2; 3]) = true)
    as (d & Hd & Hr & Hin) by (eexists; vm_compute; repeat split).
  apply bool_decide_eq_true in Hin.
  exact (proj2 (rotation_avoids_recent demo_rotation_planner (in_track demo_input) 5
    (mkThemeSelectionContext [2; 3]) d Hd Hr Hin)).
Defined.

(** ** A preference with a zero weight defeats planning

    [without_recent] drops recent candidates before weights are summed, so a
    preference whose only fresh candidate has weight zero makes generation fail,
    although another candidate of the rule has a positive weight. *)
Definition zero_weight_planner : DeterministicPlanner StableChoiceSource :=
  mkDeterministicPlanner
    (with_color_rules PlanningConfiguration_epic_one
       [mkThemeColorRule (mkTrackColor 1 2 3) ModePrefer
          [mkWeightedThemeCandidate 1 5; mkWeightedThemeCandidate 2 0]])
    mkStableChoiceSource.

Theorem zero_weight_preference_fails :
  let input := mkPlanningInput 1 100
    (PlannerTrack_with_analysis_and_color 7 32 (mkTrackColor 1 2 3) demo_phrases_pair) in
  (∃ plan, generate zero_weight_planner input = Ok plan) ∧
  generate_with_context zero_weight_planner input (ThemeSelectionContext_new [1])
    = Err PEInvalidThemeRule.
Proof. split; [eexists|]; vm_compute; reflexivity. Qed.
