(* ===== verification/PlanEdits.v ===== *)
(** * Edits of a plan

    The four user edits of the planner and regeneration: what they keep, that
    they never produce an invalid plan, and that locked cues survive. *)

From stdpp Require Import prelude list gmap strings.
From Stdlib Require Import ZArith Lia.
From S2P Require Import Prelude.
From S2P Require Import Track.
From S2P Require Import Plan.
From S2P Require Import Mixing.
From S2P Require Import Planner.
From S2P Require Import PlannerProps.
From S2P Require Import PlanGeneration.
Open Scope Z_scope.

#[local] Opaque mix stable_seed.

(** Two cues of the same slot: identifier, position, range and reason agree. *)
Record same_slot (c c' : LightingCue) : Prop := {
  ss_id : cue_id c' = cue_id c;
  ss_index : cue_phrase_index c' = cue_phrase_index c;
  ss_start : cue_start_beat c' = cue_start_beat c;
  ss_end : cue_end_beat c' = cue_end_beat c;
  ss_reason : cue_reason c' = cue_reason c;
}.

#[global] Instance same_slot_equivalence : Equivalence same_slot.
Proof.
  split; [by intros c; split|by intros c c' []; split|].
  intros c1 c2 c3 [] []; split; congruence.
Qed.

#[global] Instance same_slots_equivalence : Equivalence (Forall2 same_slot).
Proof. split; apply _. Qed.

Lemma same_slots_ids l k : Forall2 same_slot l k → cue_id <$> k = cue_id <$> l.
Proof. induction 1 as [|c c' l k [] _ IH]; [done|]. rewrite !fmap_cons. congruence. Qed.

Lemma same_slots_indexed l k n : Forall2 same_slot l k → indexed n l → indexed n k.
Proof. intros Hf. apply forall2_indexed. eapply Forall2_impl; [exact Hf|]. by intros ? ? []. Qed.

Lemma same_slots_tiles l k s e : Forall2 same_slot l k → tiles s l e → tiles s k e.
Proof. intros Hf. apply forall2_tiles. eapply Forall2_impl; [exact Hf|]. by intros ? ? []. Qed.

Lemma same_slots_insert l i c c' :
  l !! i = Some c → same_slot c c' → Forall2 same_slot l (<[i := c']> l).
Proof.
  revert i. induction l as [|x l IH]; intros i; [done|]. destruct i as [|i]; simpl.
  - intros [= ->] Hs. by constructor.
  - intros Hi Hs. constructor; [done|]. by apply IH.
Qed.

Lemma elem_of_insert_cases {A} (l : list A) i x y : x ∈ <[i := y]> l → x ∈ l ∨ x = y.
Proof.
  revert i. induction l as [|z l IH]; intros i; [destruct i; simpl; auto|].
  destruct i as [|i]; simpl; rewrite !elem_of_cons; [naive_solver|].
  intros [->|Hx]; [auto|]. destruct (IH _ Hx); auto.
Qed.

(** The fields of a plan that no edit changes. *)
Definition plan_identity (p : LightingPlan) :=
  (plan_id p, plan_deck_id p, plan_track_id p, plan_track_duration_beats p, plan_track_load_id p,
   plan_configuration_revision p, plan_seed p, plan_status p).

Definition next_revision_of (p q : LightingPlan) : Prop :=
  plan_identity q = plan_identity p ∧ plan_revision q = plan_revision p + 1 ∧ plan_wf q.

Lemma revised_next p cues d q :
  revised_with_theme_decision p cues d = Ok q →
  next_revision_of p q ∧ plan_cues q = cues ∧ plan_theme_decision q = d.
Proof.
  rewrite revised_with_theme_decision_Ok. intros (_ & -> & Hwf).
  unfold next_revision_of. by split_and!.
Qed.

Lemma LightingCue_revised_slot c action origin locked :
  same_slot c (LightingCue_revised c action origin locked).
Proof. by split. Qed.
#[export] Hint Resolve LightingCue_revised_slot : lumi.

Section Edits.
Context {C : Type} `{ChoiceSource C}.
Variable self : DeterministicPlanner C.

Lemma rethemed_cue_Ok def origin c c' :
  rethemed_cue def origin c = Ok c' →
  same_slot c c' ∧ cue_locked c' = cue_locked c ∧ cue_origin c' = origin c ∧
  ∃ look, cue_action c = ApplyLook look ∧
    cue_action c' = ApplyLook (mkLightingLook (th_id def) (th_name def) (look_scene_id look)
      (look_scene_name look) (look_category look) (look_loop_selection look)).
Proof.
  unfold rethemed_cue. destruct (cue_action c) as [look|]; [|done]. intros Hc. unbind Hc.
  injection Hc as <-. unfold LightingLook_try_new in E. repeat (case_match; [done|]).
  injection E as <-. split; [auto with lumi|]. eauto.
Qed.

Lemma rethemed_cues_Ok def origin cs cs' :
  collect (rethemed_cue def origin) cs = Ok cs' → Forall2 same_slot cs cs'.
Proof.
  intros Hc%collect_Ok. eapply Forall2_impl; [exact Hc|]. by intros c c' [? _]%rethemed_cue_Ok.
Qed.

(** ** The user edits *)

Inductive PlanEdit : Type :=
| EditTheme (theme_id : ThemeId)
| EditThemeFrom (phrase_index : Z) (theme_id : ThemeId)
| EditScene (phrase_index : Z) (scene_id : SceneId)
| EditLock (phrase_index : Z) (locked : bool).

Definition apply_plan_edit (p : LightingPlan) (e : PlanEdit) :
    result LightingPlan PlanMutationError :=
  match e with
  | EditTheme t => select_theme self p t
  | EditThemeFrom i t => select_theme_from_phrase self p i t
  | EditScene i s => select_scene self p i s
  | EditLock i locked => set_cue_lock p i locked
  end.

Lemma select_theme_next p t q :
  select_theme self p t = Ok q →
  next_revision_of p q ∧ Forall2 same_slot (plan_cues p) (plan_cues q).
Proof.
  unfold select_theme. intros Hq. unbind Hq. destruct (negb _); [done|].
  apply result_bind_Ok in Hq as (d & _ & Hq).
  apply map_err_Ok, revised_next in Hq as (Hn & -> & _). split; [done|]. by eapply rethemed_cues_Ok.
Qed.

Lemma apply_plan_edit_next p e q :
  apply_plan_edit p e = Ok q →
  next_revision_of p q ∧ Forall2 same_slot (plan_cues p) (plan_cues q).
Proof.
  destruct e as [t|i t|i s|i locked]; simpl.
  - apply select_theme_next.
  - unfold select_theme_from_phrase. destruct (i =? 0); [apply select_theme_next|].
    intros Hq. unbind Hq. destruct (plan_cues p !! _); [|done].
    apply result_bind_Ok in Hq as (cues & Hc & Hq). destruct (negb _); [done|].
    apply map_err_Ok, revised_next in Hq as (Hn & -> & _). split; [done|].
    apply collect_Ok in Hc. eapply Forall2_impl; [exact Hc|]. intros c c'.
    simpl. destruct (cue_phrase_index c <? i); [by intros [= ->]|]. by intros [? _]%rethemed_cue_Ok.
  - unfold select_scene. intros Hq. unbind Hq. destruct (negb _); [done|].
    destruct (cue_action v1); [|done]. destruct (_ =? _); [done|].
    apply result_bind_Ok in Hq as (new & _ & Hq). apply map_err_Ok, revised_next in Hq as (Hn & -> & _).
    split; [done|]. eapply same_slots_insert; [done|]. auto with lumi.
  - unfold set_cue_lock. intros Hq. unbind Hq. case_bool_decide; [done|].
    apply map_err_Ok, revised_next in Hq as (Hn & -> & _).
    split; [done|]. eapply same_slots_insert; [done|]. auto with lumi.
Qed.

(** Edits in sequence; a refused edit leaves the plan. *)
Fixpoint run_plan_edits (p : LightingPlan) (es : list PlanEdit) : LightingPlan * nat :=
  match es with
  | [] => (p, 0%nat)
  | e :: es =>
      match apply_plan_edit p e with
      | Ok q => let '(q', n) := run_plan_edits q es in (q', S n)
      | Err _ => run_plan_edits p es
      end
  end.

(** C17: No sequence of user edits moves, adds, removes or renames a cue.  The
    plan stays well formed, keeps its identity and load, and its revision
    counts the accepted edits. *)
Theorem edits_keep_slots p es :
  plan_wf p →
  plan_wf (run_plan_edits p es).1 ∧
  plan_identity (run_plan_edits p es).1 = plan_identity p ∧
  Forall2 same_slot (plan_cues p) (plan_cues (run_plan_edits p es).1) ∧
  plan_revision (run_plan_edits p es).1 =
    plan_revision p + Z.of_nat (run_plan_edits p es).2.
Proof.
  revert p. induction es as [|e es IH]; intros p Hp; simpl; [split_and!; done || lia|].
  destruct (apply_plan_edit p e) as [q|err] eqn:He; [|by apply IH].
  apply apply_plan_edit_next in He as [(Hid & Hrev & Hwf) Hs].
  destruct (IH q Hwf) as (? & Hid' & Hs' & Hrev').
  destruct (run_plan_edits q es) as [q' n]; simpl in *.
  split; [done|]. split; [congruence|]. split; [by etrans|]. lia.
Qed.

(** ** Edits never fail validation *)

(** What looks get from their constructor. *)
Definition looks_named (cues : list LightingCue) : Prop :=
  Forall (λ c, ∀ look, cue_action c = ApplyLook look →
    str_is_blank (look_theme_name look) = false ∧ str_is_blank (look_scene_name look) = false) cues.

Lemma revised_total p cues d :
  plan_wf p → plan_status p = PlanReady → plan_revision p < U64_MAX →
  0 ≤ plan_revision p → Forall2 same_slot (plan_cues p) cues →
  (∀ c, c ∈ cues → c ∈ plan_cues p ∨ cue_origin c = OriginUser) →
  theme_inconsistent d cues = false →
  is_ok (revised_with_theme_decision p cues (Some d)).
Proof.
  intros Hp Hr Hrev Hpos Hs Ho Hd. eexists. apply revised_with_theme_decision_Ok.
  split; [lia|]. split; [reflexivity|]. destruct Hp as [? ? ? Hne Hid Hix Ht Hf Hth _].
  split; simpl; try done.
  - lia.
  - intros ->. inversion Hs. congruence.
  - by rewrite (same_slots_ids _ _ Hs).
  - by eapply same_slots_indexed.
  - by eapply same_slots_tiles.
  - rewrite Hr in *. split; [done|]. intros (c & Hc & Hcf). exfalso.
    destruct (Ho c Hc) as [Hin|?]; [|congruence]. discriminate (proj2 Hf). by exists c.
  - by intros ? [= <-].
Qed.

Lemma rethemed_cues_total def cs :
  str_is_blank (th_name def) = false → looks_named cs →
  (∀ err, collect (rethemed_cue def (λ _, OriginUser)) cs = Err err →
     err = MFallbackPlanNotEditable).
Proof.
  intros Hdef Hcs. induction Hcs as [|c cs Hc _ IH]; intros err; simpl; [done|].
  unfold rethemed_cue at 1. destruct (cue_action c) as [look|]; [|by intros [= <-]].
  destruct (Hc look eq_refl) as [_ Hs]. unfold LightingLook_try_new. rewrite Hdef, Hs. simpl.
  destruct (collect _ cs); simpl; [done|]. intros [= <-]. by apply IH.
Qed.

Lemma is_ok_not_err {A E} (r : result A E) e : is_ok r → r ≠ Err e.
Proof. by intros [a ->]. Qed.

(** The starting cue of a consistent plan shows the decided Theme. *)
Lemma consistent_head p d c rest :
  plan_wf p → plan_theme_decision p = Some d → plan_cues p = c :: rest →
  ∃ look, cue_action c = ApplyLook look ∧ look_theme_id look = td_theme_id d ∧
    look_theme_name look = td_theme_name d.
Proof.
  intros Hp Hd Hc. pose proof (plan_wf_consistent _ Hp _ Hd) as Hx. rewrite Hc in Hx.
  unfold theme_inconsistent in Hx. simpl in Hx. destruct (cue_action c) as [look|]; [|done].
  rewrite orb_false_iff, !negb_false_iff, Z.eqb_eq, bool_decide_eq_true in Hx.
  exists look. naive_solver.
Qed.

Lemma ready_decision p : plan_wf p → plan_status p = PlanReady → is_Some (plan_theme_decision p).
Proof. intros Hp. apply (plan_wf_theme _ Hp). Qed.

Lemma ensure_ready_cases p :
  plan_status p = PlanReady ∧ ensure_ready p = Ok () ∨
  ensure_ready p = Err MFallbackPlanNotEditable.
Proof. unfold ensure_ready. case_bool_decide; auto. Qed.

(** A plan an edit can revise: well formed, its looks named, and not at the
    last revision number. *)
Record editable (p : LightingPlan) : Prop := {
  ed_wf : plan_wf p;
  ed_looks : looks_named (plan_cues p);
  ed_revision : 0 ≤ plan_revision p < U64_MAX;
}.

Lemma select_theme_valid p t err :
  config_wf (dp_configuration self) → editable p →
  select_theme self p t ≠ Err (MInvalidPlan err).
Proof.
  intros Hcfg [Hp Hl Hr]. unfold select_theme.
  destruct (ensure_ready_cases p) as [[Hready ->]| ->]; simpl; [|done]. destruct (theme self t) as [def|] eqn:Ht; simpl; [|done].
  apply theme_Some in Ht as [Hin _].
  pose proof (proj1 (Forall_forall _ _) (cw_theme_names _ Hcfg) _ Hin) as Hname. simpl in Hname.
  destruct (collect _ _) as [cues|e] eqn:Hc; simpl.
  2:{ apply rethemed_cues_total in Hc as ->; done. }
  destruct (negb _); [done|]. unfold ThemeDecision_try_new. rewrite Hname. simpl.
  apply is_ok_not_err. apply collect_Ok in Hc.
  destruct (revised_total p cues (mkThemeDecision (th_id def) (th_name def) PlanInstanceUserChoice None))
    as [q ->]; [done|done|lia|lia| | | |by eexists].
  - eapply Forall2_impl; [exact Hc|]. by intros ? ? [? _]%rethemed_cue_Ok.
  - intros c Hcin. right. apply list_elem_of_lookup in Hcin as [i Hi].
    destruct (Forall2_lookup_r _ _ _ _ _ Hc Hi) as (x & _ & (_ & _ & -> & _)%rethemed_cue_Ok). done.
  - destruct Hc as [|c c' l k (_ & _ & _ & look & _ & Ha)%rethemed_cue_Ok _]; [done|].
    unfold theme_inconsistent. simpl. rewrite Ha. simpl. by rewrite Z.eqb_refl, bool_decide_true.
Qed.

(** Replacing the action of one cue by one of the same Theme. *)
Lemma revise_one_valid p i c action locked err :
  editable p → plan_status p = PlanReady → plan_cues p !! i = Some c →
  (∀ look, cue_action c = ApplyLook look → ∃ look', action = ApplyLook look' ∧
     look_theme_id look' = look_theme_id look ∧ look_theme_name look' = look_theme_name look) →
  map_err MInvalidPlan (LightingPlan_revised p
    (<[i := LightingCue_revised c action OriginUser locked]> (plan_cues p)))
  ≠ Err (MInvalidPlan err).
Proof.
  intros [Hp Hl Hr] Hready Hi Hact. apply is_ok_not_err. unfold LightingPlan_revised.
  destruct (ready_decision _ Hp Hready) as [d Hd]. rewrite Hd.
  destruct (revised_total p (<[i := LightingCue_revised c action OriginUser locked]> (plan_cues p)) d)
    as [q ->]; [done|done|lia|lia| | | |by eexists].
  - eapply same_slots_insert; [done|]. auto with lumi.
  - intros x [?| ->]%elem_of_insert_cases; auto.
  - destruct (plan_cues p) as [|h rest] eqn:Hcs; [done|].
    destruct (consistent_head _ _ _ _ Hp Hd Hcs) as (look & Ha & Hid & Hname).
    destruct i as [|i]; unfold theme_inconsistent; simpl in *.
    + injection Hi as ->. destruct (Hact _ Ha) as (look' & -> & -> & ->). rewrite Hid, Hname.
      by rewrite Z.eqb_refl, bool_decide_true.
    + rewrite Ha, Hid, Hname. by rewrite Z.eqb_refl, bool_decide_true.
Qed.

Lemma theme_from_valid p i t err :
  config_wf (dp_configuration self) → editable p → 0 ≤ i →
  select_theme_from_phrase self p i t ≠ Err (MInvalidPlan err).
Proof.
  intros Hcfg He Hi. unfold select_theme_from_phrase. destruct (Z.eqb_spec i 0) as [|Hi0].
  { by apply select_theme_valid. }
  destruct (ensure_ready_cases p) as [[Hready ->]| ->]; simpl; [|done]. destruct (theme self t) as [def|] eqn:Ht; simpl; [|done].
  destruct (plan_cues p !! Z.to_nat i); [|done]. apply theme_Some in Ht as [Hin _].
  pose proof (proj1 (Forall_forall _ _) (cw_theme_names _ Hcfg) _ Hin) as Hname. simpl in Hname.
  destruct (collect _ _) as [cues|e] eqn:Hc; simpl.
  2:{ intros [= ->]. destruct He as [_ Hl _]. induction Hl as [|c cs Hx _ IH]; simpl in Hc; [done|].
      destruct (cue_phrase_index c <? i); simpl in Hc.
      - destruct (collect _ cs); [done|]. by apply IH.
      - unfold rethemed_cue at 1 in Hc. destruct (cue_action c) as [look|]; [|done].
        destruct (Hx look eq_refl) as [_ Hs]. unfold LightingLook_try_new in Hc.
        rewrite Hname, Hs in Hc. simpl in Hc. destruct (collect _ cs); [done|]. by apply IH. }
  destruct (negb _); [done|]. apply is_ok_not_err. apply collect_Ok in Hc.
  destruct He as [Hp Hl Hr]. destruct (ready_decision _ Hp Hready) as [d Hd].
  unfold LightingPlan_revised. rewrite Hd.
  assert (Forall2 (λ c c', c' = c ∨ same_slot c c' ∧ cue_origin c' = OriginUser ∧ i ≤ cue_phrase_index c)
    (plan_cues p) cues) as Hs.
  { eapply Forall2_impl; [exact Hc|]. intros c c'. simpl.
    destruct (Z.ltb_spec (cue_phrase_index c) i); [intros [= ->]; auto|].
    intros (? & _ & ? & _)%rethemed_cue_Ok. auto. }
  destruct (revised_total p cues d) as [q ->]; [done|done|lia|lia| | | |by eexists].
  - eapply Forall2_impl; [exact Hs|]. by intros ? ? [->|[? _]].
  - intros c Hcin. apply list_elem_of_lookup in Hcin as [j Hj].
    destruct (Forall2_lookup_r _ _ _ _ _ Hs Hj) as (x & Hx & [->|(_ & ? & _)]); [left|auto].
    by eapply list_elem_of_lookup_2.
  - pose proof (plan_wf_consistent _ Hp _ Hd) as Hcons.
    pose proof (plan_wf_indexed _ Hp) as Hix.
    destruct Hs as [|c c' cs cs' [->|(_ & _ & Hge)] _]; [done|done|].
    simpl in Hix. lia.
Qed.

(** C18: An edit is never refused because the edited plan would be invalid.  On
    a usable configuration, a well-formed plan that is not at the last revision
    number accepts every edit or refuses it for its own reason: unknown Theme,
    scene or phrase, wrong category, no change, or a plan that holds. *)
Theorem edits_never_invalid p e err :
  config_wf (dp_configuration self) → editable p →
  match e with
  | EditTheme _ => True
  | EditThemeFrom i _ | EditScene i _ | EditLock i _ => in_u16 i
  end →
  apply_plan_edit p e ≠ Err (MInvalidPlan err).
Proof.
  intros Hcfg He Hi. destruct e as [t|i t|i s|i locked]; simpl.
  - by apply select_theme_valid.
  - apply theme_from_valid; [done|done|apply Hi].
  - unfold select_scene. destruct (ensure_ready_cases p) as [[Hready ->]| ->]; simpl; [|done].
    destruct (List.find _ _) as [new|] eqn:Hnew; simpl; [|done].
    apply List.find_some in Hnew as [Hin%list_elem_of_In _].
    pose proof (proj1 (Forall_forall _ _) (cw_scene_names _ Hcfg) _ Hin) as Hname. simpl in Hname.
    destruct (plan_cues p !! Z.to_nat i) as [c|] eqn:Hc; simpl; [|done].
    destruct (cue_category c) as [cat|e'] eqn:Hcat; simpl.
    2:{ unfold cue_category in Hcat. destruct (cue_reason c); naive_solver. }
    destruct (negb _); [done|]. destruct (cue_action c) as [look|] eqn:Ha; [|done].
    destruct (_ =? _); [done|].
    destruct (proj1 (Forall_lookup _ _) (ed_looks _ He) _ _ Hc look Ha) as [Htn _].
    unfold LightingLook_try_new. rewrite Htn, Hname. simpl.
    eapply revise_one_valid; [done..|]. intros look' Hl'. eexists. split; [done|].
    rewrite Ha in Hl'. injection Hl' as <-. done.
  - unfold set_cue_lock. destruct (ensure_ready_cases p) as [[Hready ->]| ->]; simpl; [|done].
    destruct (plan_cues p !! Z.to_nat i) as [c|] eqn:Hc; simpl; [|done].
    case_bool_decide; [done|]. eapply revise_one_valid; [done..|]. eauto.
Qed.

(** Generated plans can be edited. *)
Lemma generated_editable input context phrases :
  config_wf (dp_configuration self) → selectable self (in_track input) → input_wf input →
  pt_phrases (in_track input) = Some phrases →
  analysis_is_complete phrases (pt_duration_beats (in_track input)) = true →
  ∃ plan, generate_with_context self input context = Ok plan ∧ editable plan.
Proof.
  intros Hcfg Hsel Hin Hph Hc.
  destruct (generate_analyzed self input context phrases Hcfg Hsel Hin Hph Hc)
    as (d & cues & Hg & (def & _ & Hname & Hblank)%select_initial_theme_Ok & Hf & _).
  eexists. split; [exact Hg|]. split; [by eapply generate_wf| |vm_compute; split; congruence].
  apply Forall_forall. intros c Hci look Ha. apply list_elem_of_lookup in Hci as [i Hi]. simpl in Hi.
  destruct (Forall2_lookup_r _ _ _ _ _ Hf Hi) as (p & _ & Hp).
  destruct (cp_action _ _ _ _ Hp) as (s & Hs & _ & Hact). rewrite Hact in Ha. injection Ha as <-.
  simpl. rewrite Hname. split; [done|].
  exact (proj1 (Forall_forall _ _) (cw_scene_names _ Hcfg) _ Hs).
Qed.

(** ** Regeneration *)

(** A generated cue for a phrase, whatever its Theme. *)
Record fresh_cue (phrase : TrackPhrase) (c : LightingCue) : Prop := {
  fc_index : cue_phrase_index c = tp_index phrase;
  fc_start : cue_start_beat c = tp_start_beat phrase;
  fc_end : cue_end_beat c = tp_end_beat phrase;
  fc_origin : cue_origin c = OriginAutomatic;
  fc_unlocked : cue_locked c = false;
  fc_category : cue_category c = Ok (category_for (tp_kind phrase));
}.

Lemma cue_plays_fresh cfg d phrase c : cue_plays cfg d phrase c → fresh_cue phrase c.
Proof. intros []. split; try done. unfold cue_category. by rewrite cp_reason. Qed.

Lemma retheme_generated_Ok g t r :
  retheme_generated self g t = Ok r →
  Forall2 (λ c c', same_slot c c' ∧ cue_locked c' = cue_locked c ∧ cue_origin c' = cue_origin c)
    (plan_cues g) (plan_cues r) ∧
  ∃ d, plan_theme_decision r = Some d ∧ td_theme_id d = t ∧ td_reason d = PlanInstanceUserChoice.
Proof.
  unfold retheme_generated. intros Hr. unbind Hr. unfold ThemeDecision_try_new in E1.
  destruct (str_is_blank _); [done|]. injection E1 as <-.
  apply plan_constructor_iff in Hr as [-> _]. simpl. split.
  - apply collect_Ok in E0. eapply Forall2_impl; [exact E0|].
    by intros c c' (? & ? & ? & _)%rethemed_cue_Ok.
  - eexists. split; [done|]. split; [|done]. by eapply theme_Some.
Qed.

Lemma fresh_cue_rethemed phrase c c' :
  fresh_cue phrase c → same_slot c c' → cue_locked c' = cue_locked c →
  cue_origin c' = cue_origin c → fresh_cue phrase c'.
Proof.
  intros [] [] ? ?. split; try congruence.
  unfold cue_category in *. by rewrite ss_reason0.
Qed.

(** The locked cue of the current plan that a phrase keeps. *)
Definition kept_cue (current : LightingPlan) (i : nat) (phrase : TrackPhrase) (c : LightingCue) : Prop :=
  plan_cues current !! i = Some c ∧ cue_locked c = true ∧
  cue_start_beat c = tp_start_beat phrase ∧ cue_end_beat c = tp_end_beat phrase ∧
  cue_category c = Ok (category_for (tp_kind phrase)).

Lemma merge_locked_spec current i phrase g :
  fresh_cue phrase g → tp_index phrase = Z.of_nat i →
  (∀ c, kept_cue current i phrase c → merge_locked current g = c) ∧
  ((∀ c, ~ kept_cue current i phrase c) → merge_locked current g = g).
Proof.
  intros [Hi Hs He _ _ Hc] Hp. unfold merge_locked, kept_cue. rewrite Hi, Hp, Nat2Z.id.
  destruct (plan_cues current !! i) as [c|]; [|naive_solver]. rewrite Hs, He, Hc. split.
  - intros c' ([= <-] & -> & -> & -> & ->). by rewrite !Z.eqb_refl, bool_decide_true.
  - intros Hn. destruct (cue_locked c) eqn:Hl; [|done].
    destruct (_ && _) eqn:Hx; [|done]. destruct (Hn c).
    rewrite !andb_true_iff, !Z.eqb_eq, bool_decide_eq_true in Hx. destruct Hx as [[Hsb Heb] Hx].
    split_and!; try done. clear -Hx. destruct (cue_category c); simpl in Hx; congruence.
Qed.

(** C16: regeneration keeps exactly the locked cues whose slot is unchanged.  A
    successful regeneration of an analysed track takes the next revision; a
    locked cue of the current plan whose range and category are those of the
    phrase survives untouched, every other phrase gets a new automatic cue, and
    a Theme the user chose for this plan stays chosen. *)
Theorem regenerate_keeps_locked current input phrases q :
  config_wf (dp_configuration self) → selectable self (in_track input) → input_wf input →
  pt_phrases (in_track input) = Some phrases →
  analysis_is_complete phrases (pt_duration_beats (in_track input)) = true →
  regenerate self current input = Ok q →
  next_revision_of current q ∧ length (plan_cues q) = length phrases ∧
  (∀ i phrase, phrases !! i = Some phrase → ∃ c', plan_cues q !! i = Some c' ∧
     (∀ c, kept_cue current i phrase c → c' = c) ∧
     ((∀ c, ~ kept_cue current i phrase c) → fresh_cue phrase c')) ∧
  (∀ d, plan_theme_decision current = Some d → td_reason d = PlanInstanceUserChoice →
     ∃ d', plan_theme_decision q = Some d' ∧ td_theme_id d' = td_theme_id d ∧
       td_reason d' = PlanInstanceUserChoice).
Proof.
  intros Hcfg Hsel Hin Hph Hcomplete. unfold regenerate. intros Hq. unbind Hq.
  destruct (_ || _); [done|]. unbind Hq.
  destruct (generate_analyzed self input ThemeSelectionContext_default phrases Hcfg Hsel Hin Hph Hcomplete)
    as (d0 & cues & Hg & _ & Hf & _). unfold generate in E0. rewrite Hg in E0. injection E0 as <-.
  apply revised_next in Hq as (Hn & Hcues & Hdec).
  assert (Forall2 fresh_cue phrases (plan_cues v1)) as Hfresh.
  { assert (Forall2 fresh_cue phrases cues) as Hfc
      by (eapply Forall2_impl; [exact Hf|]; intros ? ?; apply cue_plays_fresh).
    destruct (plan_theme_decision current) as [d|]; [|by injection E1 as <-].
    case_bool_decide; [|by injection E1 as <-]. apply retheme_generated_Ok in E1 as [Hs _].
    simpl in Hs. clear -Hfc Hs. revert Hs. generalize (plan_cues v1). intros k Hs. revert k Hs.
    induction Hfc as [|p c ps cs Hpc _ IH]; inversion 1; subst; constructor; [|by apply IH].
    destruct_and!. by eapply fresh_cue_rethemed. }
  apply analysis_is_complete_spec in Hcomplete as (_ & Hix & _).
  split; [done|]. split; [|split].
  - rewrite Hcues, length_fmap. symmetry. by eapply Forall2_length.
  - intros i phrase Hi. destruct (Forall2_lookup_l _ _ _ _ _ Hfresh Hi) as (g & Hgi & Hgf).
    exists (merge_locked current g). rewrite Hcues, list_lookup_fmap, Hgi. split; [done|].
    pose proof (indexed_lookup _ _ _ _ Hix Hi) as Hidx. simpl in Hidx.
    destruct (merge_locked_spec current i phrase g Hgf Hidx) as [Hk Hu].
    split; [exact Hk|]. intros Hnone. by rewrite Hu.
  - intros d Hd Hr. rewrite Hd, bool_decide_true in E1 by done.
    apply retheme_generated_Ok in E1 as [_ (d' & ? & ? & ?)]. exists d'. by rewrite Hdec.
Qed.
End Edits.

(** ** Witnesses *)

Definition demo_generated : LightingPlan :=
  match generate DeterministicPlanner_epic_one demo_input with
  | Ok p => p
  | Err _ => mkLightingPlan 0 0 0 0 0 0 0 0 PlanReady None []
  end.

Lemma demo_generated_Ok : generate DeterministicPlanner_epic_one demo_input = Ok demo_generated.
Proof. vm_compute. reflexivity. Qed.

Lemma Ok_inj {A E} (a b : A) : Ok a = Ok b :> result A E → a = b.
Proof. intros H. exact (f_equal (λ r, match r with Ok x => x | Err _ => a end) H). Qed.

Lemma demo_generated_editable : editable demo_generated.
Proof.
  destruct (generated_editable DeterministicPlanner_epic_one demo_input
    ThemeSelectionContext_default demo_phrases_pair epic_one_wf (epic_one_selectable _) demo_input_wf eq_refl eq_refl)
    as (plan & Hg & He).
  pose proof demo_generated_Ok as Hok. unfold generate in Hok. rewrite Hok in Hg.
  apply Ok_inj in Hg. rewrite Hg. exact He.
Qed.

Lemma edits_keep_slots_witness :
  Forall2 same_slot (plan_cues demo_generated)
    (plan_cues (run_plan_edits DeterministicPlanner_epic_one demo_generated
       [EditTheme 2; EditLock 0 true; EditScene 1 99]).1) ∧
  (run_plan_edits DeterministicPlanner_epic_one demo_generated
     [EditTheme 2; EditLock 0 true; EditScene 1 99]).2 = 2%nat.
Proof.
  split; [|vm_compute; reflexivity].
  exact (proj1 (proj2 (proj2 (edits_keep_slots DeterministicPlanner_epic_one demo_generated
    [EditTheme 2; EditLock 0 true; EditScene 1 99] (ed_wf _ demo_generated_editable))))).
Defined.

Lemma edits_never_invalid_witness :
  apply_plan_edit DeterministicPlanner_epic_one demo_generated (EditThemeFrom 1 2)
    ≠ Err (MInvalidPlan InconsistentThemeDecision).
Proof.
  apply (edits_never_invalid DeterministicPlanner_epic_one demo_generated (EditThemeFrom 1 2)
    InconsistentThemeDecision epic_one_wf demo_generated_editable).
  vm_compute. split; congruence.
Defined.

(** The plan with its second cue locked, and its regeneration. *)
Definition demo_locked : LightingPlan :=
  (run_plan_edits DeterministicPlanner_epic_one demo_generated [EditTheme 2; EditLock 1 true]).1.

Definition demo_regenerated : LightingPlan :=
  match regenerate DeterministicPlanner_epic_one demo_locked demo_input with
  | Ok q => q
  | Err _ => demo_locked
  end.

Lemma regenerate_keeps_locked_witness :
  regenerate DeterministicPlanner_epic_one demo_locked demo_input = Ok demo_regenerated ∧
  ∃ c, kept_cue demo_locked 1 (mkTrackPhrase 1 16 32 KindDrop) c ∧
       plan_cues demo_regenerated !! 1%nat = Some c.
Proof.
  assert (regenerate DeterministicPlanner_epic_one demo_locked demo_input = Ok demo_regenerated)
    as Hq by (vm_compute; reflexivity).
  split; [exact Hq|].
  destruct (regenerate_keeps_locked DeterministicPlanner_epic_one demo_locked demo_input
    demo_phrases_pair demo_regenerated epic_one_wf (epic_one_selectable _) demo_input_wf eq_refl eq_refl Hq)
    as (_ & _ & Hi & _).
  destruct (Hi 1%nat (mkTrackPhrase 1 16 32 KindDrop) eq_refl) as (c' & Hc' & Hk & _).
  destruct (plan_cues demo_locked !! 1%nat) as [c|] eqn:Hc; [|vm_compute in Hc; discriminate].
  assert (kept_cue demo_locked 1 (mkTrackPhrase 1 16 32 KindDrop) c) as Hkept.
  { split; [exact Hc|]. vm_compute in Hc. injection Hc as <-. repeat split. }
  exists c. split; [exact Hkept|]. rewrite Hc'. f_equal. apply Hk. exact Hkept.
Defined.

(** ** Regeneration of a rotated plan with a locked first cue

    [regenerate] generates with an empty Theme context, so the new plan decides
    for the default Theme although the current one was rotated; a locked first
    cue keeps the rotated Theme and the merged plan is refused. *)
Definition demo_rotated : LightingPlan :=
  match generate_with_context DeterministicPlanner_epic_one demo_input
          (ThemeSelectionContext_new [1]) with
  | Ok p => p
  | Err _ => demo_generated
  end.

Definition demo_rotated_locked : LightingPlan :=
  match set_cue_lock demo_rotated 0 true with Ok p => p | Err _ => demo_rotated end.

Theorem rotated_plan_not_regenerable :
  generate_with_context DeterministicPlanner_epic_one demo_input (ThemeSelectionContext_new [1])
    = Ok demo_rotated ∧
  set_cue_lock demo_rotated 0 true = Ok demo_rotated_locked ∧
  regenerate DeterministicPlanner_epic_one demo_rotated_locked demo_input
    = Err (MInvalidPlan InconsistentThemeDecision).
Proof. split; [|split]; vm_compute; reflexivity. Qed.

(** ** Cues without an Autoloop mapping *)

Definition hold_at (i : nat) (cues : list LightingCue) : list LightingCue :=
  alter hold_for_missing_autoloop_mapping i cues.

Lemma hold_at_slots i cues :
  Forall2 (λ c c', cue_id c' = cue_id c ∧ cue_phrase_index c' = cue_phrase_index c ∧
    cue_start_beat c' = cue_start_beat c ∧ cue_end_beat c' = cue_end_beat c ∧
    (cue_origin c' = OriginFallback → cue_origin c = OriginFallback)) cues (hold_at i cues).
Proof.
  unfold hold_at. revert i. induction cues as [|c cues IH]; intros i; [destruct i; constructor|].
  destruct i as [|i]; simpl; constructor; try done.
  - apply Forall_Forall2_diag, Forall_true. done.
  - apply IH.
Qed.

Lemma hold_at_valid p i :
  plan_wf p → plan_status p = PlanReady →
  NoDup (cue_id <$> hold_at i (plan_cues p)) ∧ indexed 0 (hold_at i (plan_cues p)) ∧
  tiles 0 (hold_at i (plan_cues p)) (plan_track_duration_beats p) ∧
  existsb cue_is_fallback (hold_at i (plan_cues p)) = false ∧ hold_at i (plan_cues p) ≠ [].
Proof.
  intros Hp Hr. pose proof (hold_at_slots i (plan_cues p)) as Hs.
  assert (cue_id <$> hold_at i (plan_cues p) = cue_id <$> plan_cues p) as Hid.
  { clear -Hs. induction Hs as [|c c' l k [Hc _] _ IH]; [done|]. rewrite !fmap_cons. congruence. }
  split_and!.
  - rewrite Hid. apply (plan_wf_ids _ Hp).
  - eapply (forall2_indexed (plan_cues p)); [|apply (plan_wf_indexed _ Hp)].
    eapply Forall2_impl; [exact Hs|]. by intros ? ? (_ & ? & _).
  - eapply (forall2_tiles (plan_cues p)); [|apply (plan_wf_tiles _ Hp)].
    eapply Forall2_impl; [exact Hs|]. by intros ? ? (_ & _ & ? & ? & _).
  - apply not_true_is_false. rewrite <- has_fallback_existsb. intros (c' & Hin & Hf).
    apply list_elem_of_lookup in Hin as [j Hj].
    destruct (Forall2_lookup_r _ _ _ _ _ Hs Hj) as (c & Hc & _ & _ & _ & _ & Ho).
    pose proof (proj2 (plan_wf_fallback _ Hp)) as Hx. rewrite Hr in Hx. discriminate Hx.
    exists c. split; [by eapply list_elem_of_lookup_2|auto].
  - intros Hn. rewrite Hn in Hid. symmetry in Hid. apply fmap_nil_inv in Hid.
    by apply (plan_wf_nonempty _ Hp).
Qed.

(** A ready plan can hold any cue but its first for a missing Autoloop mapping.
    Holding a later cue gives a valid plan; holding the starting cue is refused as
    an inconsistent Theme decision, so the whole plan is lost. *)
Theorem hold_for_missing_mapping p i :
  plan_wf p → plan_status p = PlanReady → (i < length (plan_cues p))%nat →
  match i with
  | O => with_materialized_cues p (hold_at i (plan_cues p)) = Err InconsistentThemeDecision
  | S _ => is_ok (with_materialized_cues p (hold_at i (plan_cues p)))
  end.
Proof.
  intros Hp Hr Hi. destruct (hold_at_valid p i Hp Hr) as (Hnd & Hix & Ht & Hf & Hne).
  destruct (ready_decision _ Hp Hr) as [d Hd].
  destruct (plan_cues p) as [|c rest] eqn:Hc; [simpl in Hi; lia|]. destruct i as [|i].
  - unfold with_materialized_cues, LightingPlan_try_new_with_theme_decision.
    destruct Hp as [? ? ? _ _ _ _ _ _ _]. rewrite !(proj2 (Z.eqb_neq _ _)) by done.
    rewrite bool_decide_false by done.
    assert (validate_cues ∅ 0 false 0 (hold_at 0 (c :: rest))
      = Ok (plan_track_duration_beats p, false)) as ->.
    { apply validate_cues_Ok. split; [exact Hnd|]. split; [set_solver|]. by rewrite Hf. }
    cbn [result_bind]. rewrite Hr, Hd. simpl. done.
  - eexists. apply with_materialized_cues_Ok. split; [reflexivity|].
    pose proof (consistent_head _ _ _ _ Hp Hd Hc) as (look & Ha & Hid & Hname).
    assert (theme_inconsistent d (hold_at (S i) (c :: rest)) = false) as Hcons.
    { unfold theme_inconsistent. simpl. by rewrite Ha, Hid, Hname, Z.eqb_refl, bool_decide_true. }
    revert Hnd Hix Ht Hf Hne Hcons. generalize (hold_at (S i) (c :: rest)). intros cues Hnd Hix Ht Hf Hne Hcons.
    destruct Hp as [? ? ? _ _ _ _ _ Hth _]. split; simpl; try done.
    + rewrite has_fallback_existsb. by rewrite Hr, Hf.
    + intros d' Hd'. rewrite Hd in Hd'. by injection Hd' as <-.
Qed.

Lemma hold_for_missing_mapping_witness :
  with_materialized_cues demo_generated (hold_at 0 (plan_cues demo_generated))
    = Err InconsistentThemeDecision ∧
  is_ok (with_materialized_cues demo_generated (hold_at 1 (plan_cues demo_generated))).
Proof.
  split.
  - apply (hold_for_missing_mapping demo_generated 0 (ed_wf _ demo_generated_editable));
      [vm_compute; reflexivity|vm_compute; lia].
  - apply (hold_for_missing_mapping demo_generated 1 (ed_wf _ demo_generated_editable));
      [vm_compute; reflexivity|vm_compute; lia].
Defined.
