(* ===== verification/LightPlans.v ===== *)
(** * The light plan compiler

    Models [lumi-light-plans/src/lib.rs]: the planning policy and its validation,
    the history of recent plans, the choice of an Autoloop per phrase and of
    output modifiers, and [compile] with its protection against repeating a whole
    plan.  A [BTreeMap] whose order is observed is a sorted association list; one
    that is only looked up is a [gmap].  [compile] calls itself, so it takes fuel
    for the depth of calls and returns [None] when it runs out. *)

From stdpp Require Import prelude list gmap strings.
From Stdlib Require Import ZArith Lia.
From S2P Require Import Prelude.
Open Scope Z_scope.

Definition DEFAULT_THEME_COOLDOWN_TRACKS : Z := 1.
Definition DEFAULT_AUTOLOOP_COOLDOWN_USES : Z := 2.
Definition DEFAULT_DUPLICATE_PLAN_WINDOW : Z := 4.
Definition DEFAULT_SELECTION_WEIGHT : Z := 2.
Definition HISTORY_LIMIT : nat := 32.

(** ** Policy *)

Inductive ColorBehavior : Type := LCNeutral | LCPrefer | LCOnly.
Inductive BankOrganization : Type := BankThemes.
Inductive ModifierKind : Type := KindAtmosphere | KindColor.
Inductive ModifierScope : Type := ScopePhrase | ScopeTrack.

#[global] Instance ColorBehavior_eq_dec : EqDecision ColorBehavior.
Proof. solve_decision. Defined.
#[global] Instance ModifierKind_eq_dec : EqDecision ModifierKind.
Proof. solve_decision. Defined.
#[global] Instance ModifierScope_eq_dec : EqDecision ModifierScope.
Proof. solve_decision. Defined.

Record ThemeRule := mkThemeRule {
  tr_theme_id : Z;
  tr_enabled : bool;
  tr_selection_weight : Z;
  tr_color_behavior : ColorBehavior;
  tr_color_rgb : list Z;
}.

Record AutoloopRule := mkAutoloopRule {
  ar_theme_id : Z;
  ar_role_id : str;
  ar_variant_id : str;
  ar_enabled : bool;
  ar_selection_weight : Z;
  ar_color_behavior : ColorBehavior;
  ar_color_rgb : list Z;
}.

(** [u8::clamp(1, 4)] *)
Definition clamp_weight (weight : Z) : Z := Z.max 1 (Z.min weight 4).

Definition ThemeRule_effective_weight (rule : ThemeRule) : Z :=
  clamp_weight (tr_selection_weight rule).

Definition AutoloopRule_effective_weight (rule : AutoloopRule) : Z :=
  clamp_weight (ar_selection_weight rule).

Record OutputModifier := mkOutputModifier {
  om_id : str;
  om_provider_kind : str;
  om_kind : ModifierKind;
  om_display_name : str;
  om_enabled : bool;
  om_midi_channel : Z;
  om_midi_note : Z;
  om_activation_verified : bool;
  om_release_verified : bool;
}.

Definition automatic_execution_ready (m : OutputModifier) : bool :=
  om_enabled m && om_activation_verified m && om_release_verified m.

Record ModifierRule := mkModifierRule {
  mr_modifier_id : str;
  mr_role_id : str;
  mr_application_rate : Z;
  mr_selection_weight : Z;
  mr_cooldown_uses : Z;
  mr_scope : ModifierScope;
  mr_color_behavior : ColorBehavior;
  mr_color_rgb : list Z;
}.

Record LightPlanningPolicy := mkLightPlanningPolicy {
  lp_revision : Z;
  lp_bank_organization : BankOrganization;
  lp_default_theme_id : option Z;
  lp_automatic_mid_track_theme_changes : bool;
  lp_theme_rules : list ThemeRule;
  lp_theme_cooldown_tracks : Z;
  lp_autoloop_cooldown_uses : Z;
  lp_duplicate_plan_window : Z;
  lp_rules : list AutoloopRule;
  lp_modifiers : list OutputModifier;
  lp_modifier_rules : list ModifierRule;
}.

Definition LightPlanningPolicy_default : LightPlanningPolicy :=
  mkLightPlanningPolicy 1 BankThemes None false [] DEFAULT_THEME_COOLDOWN_TRACKS
    DEFAULT_AUTOLOOP_COOLDOWN_USES DEFAULT_DUPLICATE_PLAN_WINDOW [] [] [].

Inductive LightPlanError : Type :=
| LPInvalidRevision
| LPInvalidThemeRule
| LPDuplicateThemeRule
| LPInvalidDefaultTheme
| LPNoEnabledTheme
| LPAutomaticMidTrackThemeChangesUnsupported
| LPInvalidRule
| LPInvalidWeight
| LPDuplicateRule
| LPInvalidModifier
| LPDuplicateModifier
| LPInvalidModifierRule
| LPMissingCandidate (role_id : str)
| LPMissingColorCandidate (role_id : str)
| LPMissingVariant (role_id variant_id : str).

(** ** Validation *)

(** [(1..=4).contains(&weight)] *)
Definition weight_valid (weight : Z) : bool := (1 <=? weight) && (weight <=? 4).

(** The loop over the Theme rules; [theme_ids] is the set collected so far. *)
Fixpoint validate_theme_rules (theme_ids : list Z) (rules : list ThemeRule) :
    result (list Z) LightPlanError :=
  match rules with
  | [] => Ok theme_ids
  | rule :: rules =>
      if (tr_theme_id rule =? 0) || negb (weight_valid (tr_selection_weight rule))
      then Err LPInvalidThemeRule
      else if bool_decide (tr_theme_id rule ∈ theme_ids) then Err LPDuplicateThemeRule
      else validate_theme_rules (tr_theme_id rule :: theme_ids) rules
  end.

Definition default_theme_invalid (default_theme_id : option Z) (theme_ids : list Z) : bool :=
  match default_theme_id with
  | Some theme_id =>
      (theme_id =? 0)
      || (negb (bool_decide (theme_ids = [])) && negb (bool_decide (theme_id ∈ theme_ids)))
  | None => false
  end.

Definition rule_key (rule : AutoloopRule) : Z * str * str :=
  (ar_theme_id rule, ar_role_id rule, ar_variant_id rule).

Fixpoint validate_rules (keys : list (Z * str * str)) (rules : list AutoloopRule) :
    result unit LightPlanError :=
  match rules with
  | [] => Ok ()
  | rule :: rules =>
      if (ar_theme_id rule =? 0) || str_is_blank (ar_role_id rule)
         || str_is_blank (ar_variant_id rule)
      then Err LPInvalidRule
      else if negb (weight_valid (ar_selection_weight rule)) then Err LPInvalidWeight
      else if bool_decide (rule_key rule ∈ keys) then Err LPDuplicateRule
      else validate_rules (rule_key rule :: keys) rules
  end.

Fixpoint validate_modifiers (modifier_ids : list str) (modifiers : list OutputModifier) :
    result (list str) LightPlanError :=
  match modifiers with
  | [] => Ok modifier_ids
  | m :: modifiers =>
      if str_is_blank (om_id m) || str_is_blank (om_display_name m)
         || negb ((1 <=? om_midi_channel m) && (om_midi_channel m <=? 16))
      then Err LPInvalidModifier
      else if bool_decide (om_id m ∈ modifier_ids) then Err LPDuplicateModifier
      else validate_modifiers (om_id m :: modifier_ids) modifiers
  end.

Fixpoint validate_modifier_rules (modifier_ids : list str) (rules : list ModifierRule) :
    result unit LightPlanError :=
  match rules with
  | [] => Ok ()
  | rule :: rules =>
      if negb (bool_decide (mr_modifier_id rule ∈ modifier_ids))
         || str_is_blank (mr_role_id rule) || (100 <? mr_application_rate rule)
         || negb (weight_valid (mr_selection_weight rule))
      then Err LPInvalidModifierRule
      else validate_modifier_rules modifier_ids rules
  end.

Definition validate (policy : LightPlanningPolicy) : result unit LightPlanError :=
  if lp_revision policy =? 0 then Err LPInvalidRevision
  else if lp_automatic_mid_track_theme_changes policy
  then Err LPAutomaticMidTrackThemeChangesUnsupported
  else
    let? theme_ids := validate_theme_rules [] (lp_theme_rules policy) in
    if default_theme_invalid (lp_default_theme_id policy) theme_ids
    then Err LPInvalidDefaultTheme
    else if negb (bool_decide (lp_theme_rules policy = []))
            && negb (existsb tr_enabled (lp_theme_rules policy))
    then Err LPNoEnabledTheme
    else
      let? _ := validate_rules [] (lp_rules policy) in
      let? modifier_ids := validate_modifiers [] (lp_modifiers policy) in
      validate_modifier_rules modifier_ids (lp_modifier_rules policy).

Definition rule_for (policy : LightPlanningPolicy) (theme_id : Z) (role_id variant_id : str) :
    option AutoloopRule :=
  List.find (λ rule, (ar_theme_id rule =? theme_id) && bool_decide (ar_role_id rule = role_id)
                     && bool_decide (ar_variant_id rule = variant_id)) (lp_rules policy).

(** ** Requests and compiled plans *)

Record Candidate := mkCandidate {
  cd_theme_id : Z;
  cd_role_id : str;
  cd_variant_id : str;
  cd_entry_id : str;
  cd_display_name : str;
  cd_autoloop_number : Z;
}.

Inductive PhraseSelection : Type :=
| SelAutomatic
| SelFixedVariant (variant_id : str)
| SelPlanOverride (variant_id : str).

Record PhraseRequest := mkPhraseRequest {
  pq_phrase_index : Z;
  pq_role_id : str;
  pq_selection : PhraseSelection;
}.

Record SelectionEvidence := mkSelectionEvidence {
  ev_reason : str;
  ev_effective_weight : Z;
  ev_color_influence : str;
  ev_repeat_protection : str;
}.

Record CompiledAutoloopChoice := mkCompiledAutoloopChoice {
  cc_phrase_index : Z;
  cc_role_id : str;
  cc_variant_id : str;
  cc_entry_id : str;
  cc_display_name : str;
  cc_autoloop_number : Z;
  cc_evidence : SelectionEvidence;
}.

Record CompiledModifierChoice := mkCompiledModifierChoice {
  cm_phrase_index : Z;
  cm_role_id : str;
  cm_modifier_id : str;
  cm_kind : ModifierKind;
  cm_scope : ModifierScope;
  cm_display_name : str;
  cm_provider_kind : str;
  cm_midi_channel : Z;
  cm_midi_note : Z;
  cm_evidence : SelectionEvidence;
}.

Record CompiledLightPlan := mkCompiledLightPlan {
  clp_policy_revision : Z;
  clp_variation_seed : Z;
  clp_theme_id : Z;
  clp_choices : list CompiledAutoloopChoice;
  clp_modifier_choices : list CompiledModifierChoice;
  clp_signature : Z;
}.

(** ** Hashing *)

Definition stable_text_hash (value : str) : Z :=
  foldl (λ hash byte, wrapping_mul_u64 (Z.lxor hash byte) 0x00000100000001b3)
    0xcbf29ce484222325 (str_as_bytes value).

Definition stable_mix (value : Z) : Z :=
  let value := Z.lxor value (Z.shiftr value 30) in
  let value := wrapping_mul_u64 value 0xbf58476d1ce4e5b9 in
  let value := Z.lxor value (Z.shiftr value 27) in
  let value := wrapping_mul_u64 value 0x94d049bb133111eb in
  Z.lxor value (Z.shiftr value 31).

(** ** History of recent plans *)

Record PlanHistoryEntry := mkPlanHistoryEntry {
  he_theme_id : Z;
  he_signature : Z;
  he_by_role : gmap str (list str);
  he_modifiers : list str;
}.

Record VariationHistory := mkVariationHistory {
  vh_committed : list PlanHistoryEntry;
  vh_reserved : list (str * PlanHistoryEntry);   (* sorted by key *)
}.

Definition VariationHistory_default : VariationHistory := mkVariationHistory [] [].

(** [BTreeMap::insert], [remove] and [get] on the sorted list. *)
Fixpoint reserved_insert (key : str) (entry : PlanHistoryEntry)
    (l : list (str * PlanHistoryEntry)) : list (str * PlanHistoryEntry) :=
  match l with
  | [] => [(key, entry)]
  | (k, e) :: l' =>
      if str_ltb key k then (key, entry) :: l
      else if bool_decide (key = k) then (key, entry) :: l'
      else (k, e) :: reserved_insert key entry l'
  end.

Definition reserved_remove (key : str) (l : list (str * PlanHistoryEntry)) :
    list (str * PlanHistoryEntry) :=
  List.filter (λ ke, negb (bool_decide (ke.1 = key))) l.

Definition reserved_get (key : str) (l : list (str * PlanHistoryEntry)) :
    option PlanHistoryEntry :=
  snd <$> List.find (λ ke, bool_decide (ke.1 = key)) l.

(** [by_role]: the variants of the choices, per role, in order. *)
Definition group_by_role (choices : list CompiledAutoloopChoice) : gmap str (list str) :=
  foldl (λ by_role choice,
           <[cc_role_id choice := default [] (by_role !! cc_role_id choice) ++ [cc_variant_id choice]]>
             by_role) ∅ choices.

(** The modifiers a plan uses: one per phrase, a whole-track one only once. *)
Fixpoint used_modifiers (track_modifiers : list str) (choices : list CompiledModifierChoice) :
    list str :=
  match choices with
  | [] => []
  | choice :: choices =>
      match cm_scope choice with
      | ScopePhrase => cm_modifier_id choice :: used_modifiers track_modifiers choices
      | ScopeTrack =>
          if bool_decide (cm_modifier_id choice ∈ track_modifiers)
          then used_modifiers track_modifiers choices
          else cm_modifier_id choice
               :: used_modifiers (cm_modifier_id choice :: track_modifiers) choices
      end
  end.

Definition history_entry (plan : CompiledLightPlan) : PlanHistoryEntry :=
  mkPlanHistoryEntry (clp_theme_id plan) (clp_signature plan) (group_by_role (clp_choices plan))
    (used_modifiers [] (clp_modifier_choices plan)).

Definition reserve (reservation_id : str) (plan : CompiledLightPlan) (h : VariationHistory) :
    VariationHistory :=
  mkVariationHistory (vh_committed h)
    (reserved_insert reservation_id (history_entry plan) (vh_reserved h)).

Definition release (reservation_id : str) (h : VariationHistory) : VariationHistory :=
  mkVariationHistory (vh_committed h) (reserved_remove reservation_id (vh_reserved h)).

(** The [while] loop pops the front until at most [HISTORY_LIMIT] entries remain. *)
Definition commit (reservation_id : str) (h : VariationHistory) : VariationHistory :=
  match reserved_get reservation_id (vh_reserved h) with
  | Some entry =>
      mkVariationHistory (last_n HISTORY_LIMIT (vh_committed h ++ [entry]))
        (reserved_remove reservation_id (vh_reserved h))
  | None => h
  end.

Definition history_clear (h : VariationHistory) : VariationHistory := mkVariationHistory [] [].

(** [committed.iter().rev().chain(reserved.values().rev())] *)
Definition newest_first (h : VariationHistory) : list PlanHistoryEntry :=
  reverse (vh_committed h) ++ reverse (snd <$> vh_reserved h).

Definition recent_variants (h : VariationHistory) (role_id : str) (limit : nat) : list str :=
  take limit (newest_first h ≫= λ entry, reverse (default [] (he_by_role entry !! role_id))).

Definition recent_signatures (h : VariationHistory) (limit : nat) : list Z :=
  he_signature <$> take limit (newest_first h).

Definition recent_modifiers (h : VariationHistory) (limit : nat) : list str :=
  take limit (newest_first h ≫= λ entry, reverse (he_modifiers entry)).

Definition theme_is_recent (h : VariationHistory) (theme_id : Z) (limit : nat) : bool :=
  existsb (λ entry, he_theme_id entry =? theme_id) (take limit (newest_first h)).

Definition erase_signature (entry : PlanHistoryEntry) : PlanHistoryEntry :=
  mkPlanHistoryEntry (he_theme_id entry) 0 (he_by_role entry) (he_modifiers entry).

Definition without_signatures (h : VariationHistory) : VariationHistory :=
  mkVariationHistory (erase_signature <$> vh_committed h)
    (prod_map id erase_signature <$> vh_reserved h).

(** ** Choosing by weight *)

(** [track_color_rgb.is_some_and(|color| colors.contains(&color))] *)
Definition color_matches (track_color_rgb : option Z) (colors : list Z) : bool :=
  match track_color_rgb with Some color => bool_decide (color ∈ colors) | None => false end.

(** The loop that walks [roll] through the weights; [selected] is the choice so far. *)
Fixpoint roll_pick {A} (weight : A → Z) (roll cursor : Z) (selected : A) (weighted : list A) : A :=
  match weighted with
  | [] => selected
  | candidate :: weighted =>
      let cursor := saturating_add_u64 cursor (weight candidate) in
      if roll <? cursor then candidate else roll_pick weight roll cursor selected weighted
  end.

(** [roll % total.max(1)], then the loop; [weighted[0]] is the first choice. *)
Definition weighted_roll {A} (weight : A → Z) (hash : Z) (weighted : list A) : option A :=
  match weighted with
  | [] => None
  | first :: _ =>
      let total := foldr (λ w n, weight w + n) 0 weighted in
      Some (roll_pick weight (hash mod Z.max total 1) 0 first weighted)
  end.

(** ** One Autoloop per phrase *)

Section Compile.
Variable policy : LightPlanningPolicy.
Variable theme_id : Z.
Variable track_color_rgb : option Z.
Variable candidates : list Candidate.

(** The rule of a candidate; its role is the one of the phrase it is mapped to. *)
Definition rule_of (candidate : Candidate) : option AutoloopRule :=
  rule_for policy theme_id (cd_role_id candidate) (cd_variant_id candidate).

Definition rule_enabled (candidate : Candidate) : bool :=
  match rule_of candidate with Some rule => ar_enabled rule | None => true end.

Definition color_restricted (candidate : Candidate) : bool :=
  match rule_of candidate with
  | Some rule => bool_decide (ar_color_behavior rule = LCOnly)
  | None => false
  end.

(** [matching_color_only] *)
Definition matching_color_only (candidate : Candidate) : bool :=
  match rule_of candidate with
  | Some rule => bool_decide (ar_color_behavior rule = LCOnly)
                 && color_matches track_color_rgb (ar_color_rgb rule)
  | None => false
  end.

Definition color_preferred (candidate : Candidate) : bool :=
  match rule_of candidate with
  | Some rule => bool_decide (ar_color_behavior rule = LCPrefer)
                 && color_matches track_color_rgb (ar_color_rgb rule)
  | None => false
  end.

(** The candidates of the Theme for the role of the phrase. *)
Definition mapped_candidates (phrase : PhraseRequest) : list Candidate :=
  List.filter (λ candidate, (cd_theme_id candidate =? theme_id)
                            && bool_decide (cd_role_id candidate = pq_role_id phrase)) candidates.

(** The enabled ones; of these the ones whose colour rule matches, if any, and
    otherwise the ones without such a rule. *)
Definition color_eligible (mapped : list Candidate) : list Candidate :=
  let enabled := List.filter rule_enabled mapped in
  let matching_only := List.filter matching_color_only enabled in
  if bool_decide (matching_only = [])
  then List.filter (λ candidate, negb (color_restricted candidate)) enabled
  else matching_only.

Definition recent_for (history : VariationHistory) (local_role_choices : gmap str (list str))
    (phrase : PhraseRequest) (candidate : Candidate) : bool :=
  let limit := Z.to_nat (lp_autoloop_cooldown_uses policy) in
  let local := default [] (local_role_choices !! pq_role_id phrase) in
  bool_decide (cd_variant_id candidate ∈ recent_variants history (pq_role_id phrase) limit)
  || bool_decide (cd_variant_id candidate ∈ take limit (reverse local)).

(** A candidate with its weight and whether its colour is preferred. *)
Definition weigh_candidate (candidate : Candidate) : Candidate * Z * bool :=
  let base := match rule_of candidate with
              | Some rule => AutoloopRule_effective_weight rule
              | None => DEFAULT_SELECTION_WEIGHT
              end in
  let preferred := color_preferred candidate in
  (candidate, if preferred then saturating_mul_u8 base 2 else base, preferred).

Definition automatic_evidence (selected : Candidate) (weight : Z) (preferred repeat_relaxed : bool) :
    SelectionEvidence :=
  mkSelectionEvidence
    (lit (if matching_color_only selected then "track color only"
          else if preferred then "track color preferred weighted variation"
          else "weighted variation"))
    (Z.min weight U8_MAX)
    (lit (if preferred then "prefer match"
          else if matching_color_only selected then "only match" else "neutral"))
    (lit (if repeat_relaxed then "oldest constraint relaxed; Phrase Role preserved"
          else "recent variants excluded")).

Definition phrase_hash (variation_seed : Z) (phrase : PhraseRequest) : Z :=
  stable_mix (Z.lxor (Z.lxor (Z.lxor variation_seed (pq_phrase_index phrase))
                        (stable_text_hash (pq_role_id phrase))) (lp_revision policy)).

Definition automatic_choice (variation_seed : Z) (history : VariationHistory)
    (local_role_choices : gmap str (list str)) (phrase : PhraseRequest)
    (mapped : list Candidate) : option (Candidate * SelectionEvidence) :=
  let eligible := color_eligible mapped in
  let unrepeated :=
    List.filter (λ candidate, negb (recent_for history local_role_choices phrase candidate))
      eligible in
  let repeat_relaxed := bool_decide (unrepeated = []) in
  let eligible := if repeat_relaxed then eligible else unrepeated in
  match weighted_roll (λ w : Candidate * Z * bool, w.1.2) (phrase_hash variation_seed phrase)
          (weigh_candidate <$> eligible) with
  | Some (selected, weight, preferred) =>
      Some (selected, automatic_evidence selected weight preferred repeat_relaxed)
  | None => None
  end.

Definition requested_variant (selection : PhraseSelection) : option str :=
  match selection with
  | SelAutomatic => None
  | SelFixedVariant id | SelPlanOverride id => Some id
  end.

Definition explicit_evidence (selection : PhraseSelection) : SelectionEvidence :=
  mkSelectionEvidence
    (lit (match selection with
          | SelPlanOverride _ => "plan override"
          | _ => "track fixed variant"
          end))
    4 (lit "not evaluated for explicit choice") (lit "explicit choice takes precedence").

(** What the loop of [compile] does for one phrase; [None] is [continue]. *)
Definition phrase_choice (variation_seed : Z) (history : VariationHistory)
    (local_role_choices : gmap str (list str)) (phrase : PhraseRequest) :
    result (option (Candidate * SelectionEvidence)) LightPlanError :=
  let mapped := mapped_candidates phrase in
  match mapped with
  | [] => Ok None
  | _ =>
      match requested_variant (pq_selection phrase) with
      | Some variant_id =>
          let? selected :=
            ok_or (List.find (λ candidate, bool_decide (cd_variant_id candidate = variant_id)) mapped)
              (LPMissingVariant (pq_role_id phrase) variant_id) in
          Ok (Some (selected, explicit_evidence (pq_selection phrase)))
      | None => Ok (automatic_choice variation_seed history local_role_choices phrase mapped)
      end
  end.

Fixpoint compile_choices (variation_seed : Z) (history : VariationHistory)
    (local_role_choices : gmap str (list str)) (phrases : list PhraseRequest) :
    result (list CompiledAutoloopChoice) LightPlanError :=
  match phrases with
  | [] => Ok []
  | phrase :: phrases =>
      let? choice := phrase_choice variation_seed history local_role_choices phrase in
      match choice with
      | None => compile_choices variation_seed history local_role_choices phrases
      | Some (selected, evidence) =>
          let local := default [] (local_role_choices !! pq_role_id phrase) in
          let local_role_choices :=
            <[pq_role_id phrase := local ++ [cd_variant_id selected]]> local_role_choices in
          let? choices := compile_choices variation_seed history local_role_choices phrases in
          Ok (mkCompiledAutoloopChoice (pq_phrase_index phrase) (pq_role_id phrase)
                (cd_variant_id selected) (cd_entry_id selected) (cd_display_name selected)
                (cd_autoloop_number selected) evidence :: choices)
      end
  end.

(** ** Output modifiers *)

Definition kind_salt (kind : ModifierKind) : Z :=
  match kind with KindAtmosphere => 0xa7105001 | KindColor => 0xc0107002 end.

(** The ready modifiers of a kind with their rules for the role of the phrase. *)
Definition modifier_candidates (kind : ModifierKind) (phrase : PhraseRequest) :
    list (OutputModifier * ModifierRule) :=
  omap (λ rule,
          match List.find (λ m, bool_decide (om_id m = mr_modifier_id rule)
                                && bool_decide (om_kind m = kind)
                                && automatic_execution_ready m) (lp_modifiers policy) with
          | Some m => if bool_decide (mr_role_id rule = pq_role_id phrase)
                      then Some (m, rule) else None
          | None => None
          end) (lp_modifier_rules policy).

Definition modifier_rested (history : VariationHistory) (local_uses : list str)
    (mr : OutputModifier * ModifierRule) : bool :=
  let limit := Z.to_nat (mr_cooldown_uses mr.2) in
  negb (bool_decide (om_id mr.1 ∈ recent_modifiers history limit))
  && negb (bool_decide (om_id mr.1 ∈ take limit (reverse local_uses))).

Definition modifier_matches_only (mr : OutputModifier * ModifierRule) : bool :=
  bool_decide (mr_color_behavior mr.2 = LCOnly)
  && color_matches track_color_rgb (mr_color_rgb mr.2).

Definition modifier_applies (variation_seed : Z) (phrase : PhraseRequest)
    (mr : OutputModifier * ModifierRule) : bool :=
  negb (mr_application_rate mr.2 =? 0)
  && (stable_mix
        (Z.lxor (Z.lxor (Z.lxor (Z.lxor variation_seed (pq_phrase_index phrase))
                           (stable_text_hash (om_id mr.1))) (lp_revision policy))
           0x4d4f444946494552) mod 100 <? mr_application_rate mr.2).

Definition eligible_modifiers (variation_seed : Z) (history : VariationHistory)
    (kind : ModifierKind) (local_uses : list str) (phrase : PhraseRequest) :
    list (OutputModifier * ModifierRule) :=
  let eligible := List.filter (modifier_rested history local_uses)
                    (modifier_candidates kind phrase) in
  let matching_only := List.filter modifier_matches_only eligible in
  let eligible :=
    if bool_decide (matching_only = [])
    then List.filter (λ mr, negb (bool_decide (mr_color_behavior mr.2 = LCOnly))) eligible
    else matching_only in
  List.filter (modifier_applies variation_seed phrase) eligible.

Definition weigh_modifier (mr : OutputModifier * ModifierRule) :
    OutputModifier * ModifierRule * Z * bool :=
  let preferred := bool_decide (mr_color_behavior mr.2 = LCPrefer)
                   && color_matches track_color_rgb (mr_color_rgb mr.2) in
  let weight := clamp_weight (mr_selection_weight mr.2) in
  (mr, if preferred then saturating_mul_u8 weight 2 else weight, preferred).

Definition select_modifier (variation_seed : Z) (history : VariationHistory)
    (kind : ModifierKind) (local_uses : list str) (phrase : PhraseRequest) :
    option CompiledModifierChoice :=
  let weighted := weigh_modifier <$> eligible_modifiers variation_seed history kind local_uses phrase in
  let hash := stable_mix (Z.lxor (Z.lxor (Z.lxor variation_seed (pq_phrase_index phrase))
                                    (lp_revision policy)) (kind_salt kind)) in
  match weighted_roll (λ w : OutputModifier * ModifierRule * Z * bool, w.1.2) hash weighted with
  | Some (m, rule, effective_weight, preferred) =>
      Some (mkCompiledModifierChoice (pq_phrase_index phrase) (pq_role_id phrase) (om_id m) kind
              (mr_scope rule) (om_display_name m) (om_provider_kind m) (om_midi_channel m)
              (om_midi_note m)
              (mkSelectionEvidence
                 (lit (match mr_scope rule with
                       | ScopePhrase => "application rate selected phrase modifier"
                       | ScopeTrack => "application rate selected whole-track modifier"
                       end))
                 effective_weight
                 (lit (if preferred then "prefer match"
                       else if bool_decide (mr_color_behavior rule = LCOnly) then "only match"
                       else "neutral"))
                 (lit "modifier cooldown satisfied")))
  | None => None
  end.

(** A whole-track modifier carried on to a later phrase. *)
Definition continued (active : CompiledModifierChoice) (phrase : PhraseRequest) :
    CompiledModifierChoice :=
  mkCompiledModifierChoice (pq_phrase_index phrase) (pq_role_id phrase) (cm_modifier_id active)
    (cm_kind active) (cm_scope active) (cm_display_name active) (cm_provider_kind active)
    (cm_midi_channel active) (cm_midi_note active)
    (mkSelectionEvidence (lit "whole-track modifier continued")
       (ev_effective_weight (cm_evidence active)) (ev_color_influence (cm_evidence active))
       (ev_repeat_protection (cm_evidence active))).

(** The loop over the phrases for one kind. *)
Fixpoint modifier_loop (variation_seed : Z) (history : VariationHistory) (kind : ModifierKind)
    (carried : option CompiledModifierChoice) (local_uses : list str)
    (phrases : list PhraseRequest) : list CompiledModifierChoice :=
  match phrases with
  | [] => []
  | phrase :: phrases =>
      match carried with
      | Some active =>
          continued active phrase
          :: modifier_loop variation_seed history kind carried local_uses phrases
      | None =>
          match select_modifier variation_seed history kind local_uses phrase with
          | None => modifier_loop variation_seed history kind None local_uses phrases
          | Some choice =>
              choice
              :: modifier_loop variation_seed history kind
                   (match cm_scope choice with ScopeTrack => Some choice | ScopePhrase => None end)
                   (local_uses ++ [cm_modifier_id choice]) phrases
          end
      end
  end.

(** The key of the sort: phrase index, then kind. *)
Definition modifier_key_le (a b : CompiledModifierChoice) : bool :=
  (cm_phrase_index a <? cm_phrase_index b)
  || ((cm_phrase_index a =? cm_phrase_index b)
      && negb (bool_decide (cm_kind a = KindColor) && bool_decide (cm_kind b = KindAtmosphere))).

(** [sort_by_key] is stable: an element goes before the equal ones after it. *)
Fixpoint sorted_insert (x : CompiledModifierChoice) (l : list CompiledModifierChoice) :
    list CompiledModifierChoice :=
  match l with
  | [] => [x]
  | y :: l' => if modifier_key_le x y then x :: l else y :: sorted_insert x l'
  end.

Definition compile_modifiers (variation_seed : Z) (phrases : list PhraseRequest)
    (history : VariationHistory) : list CompiledModifierChoice :=
  foldr sorted_insert []
    (modifier_loop variation_seed history KindAtmosphere None [] phrases
     ++ modifier_loop variation_seed history KindColor None [] phrases).

(** ** The whole plan *)

Definition signature_choices (choices : list CompiledAutoloopChoice) : Z :=
  foldl (λ signature choice,
           stable_mix (Z.lxor signature (stable_text_hash (cc_variant_id choice))))
    (stable_mix theme_id) choices.

Definition signature_modifier (modifier_choices : list CompiledModifierChoice)
    (phrase : PhraseRequest) (signature : Z) (kind : ModifierKind) : Z :=
  let selected :=
    List.find (λ choice, (cm_phrase_index choice =? pq_phrase_index phrase)
                         && bool_decide (cm_kind choice = kind)) modifier_choices in
  stable_mix
    (Z.lxor (Z.lxor signature
               match selected with
               | Some choice => stable_text_hash (cm_modifier_id choice)
               | None => 0
               end) (kind_salt kind)).

Definition plan_signature (phrases : list PhraseRequest) (choices : list CompiledAutoloopChoice)
    (modifier_choices : list CompiledModifierChoice) : Z :=
  foldl (λ signature phrase,
           foldl (signature_modifier modifier_choices phrase) signature
             [KindAtmosphere; KindColor])
    (signature_choices choices) phrases.

(** [compile] up to the check against recent plans. *)
Definition compile_once (variation_seed : Z) (phrases : list PhraseRequest)
    (history : VariationHistory) : result CompiledLightPlan LightPlanError :=
  let? _ := validate policy in
  let? choices := compile_choices variation_seed history ∅ phrases in
  let modifier_choices := compile_modifiers variation_seed phrases history in
  Ok (mkCompiledLightPlan (lp_revision policy) variation_seed theme_id choices modifier_choices
        (plan_signature phrases choices modifier_choices)).

(** The retry loop: the first alternative that is not recent, an error, or [None]
    inside when every one is recent. *)
Fixpoint try_alternatives
    (compile_with : Z → option (result CompiledLightPlan LightPlanError))
    (recent : list Z) (retries : list Z) :
    option (result (option CompiledLightPlan) LightPlanError) :=
  match retries with
  | [] => Some (Ok None)
  | retry :: retries =>
      match compile_with retry with
      | None => None
      | Some (Err error) => Some (Err error)
      | Some (Ok alternative) =>
          if bool_decide (clp_signature alternative ∈ recent)
          then try_alternatives compile_with recent retries
          else Some (Ok (Some alternative))
      end
  end.

Definition retries : list Z := Z.of_nat <$> seq 1 32.

Fixpoint compile (fuel : nat) (variation_seed : Z) (phrases : list PhraseRequest)
    (history : VariationHistory) : option (result CompiledLightPlan LightPlanError) :=
  match fuel with
  | O => None
  | S fuel =>
      match compile_once variation_seed phrases history with
      | Err error => Some (Err error)
      | Ok plan =>
          let recent := recent_signatures history (Z.to_nat (lp_duplicate_plan_window policy)) in
          if bool_decide (clp_signature plan ∈ recent) then
            match try_alternatives
                    (λ retry, compile fuel (wrapping_add_u64 variation_seed retry) phrases
                                (without_signatures history)) recent retries with
            | None => None
            | Some (Err error) => Some (Err error)
            | Some (Ok (Some alternative)) => Some (Ok alternative)
            | Some (Ok None) => Some (Ok plan)
            end
          else Some (Ok plan)
      end
  end.
End Compile.
