(* ===== verification/LightPlansProps.v ===== *)
(** * Properties of the light plan compiler

    What [compile] chooses for every phrase, stated without the random roll; that
    it returns, and equals the search for the first plan that is not recent; what
    the output modifiers of a plan are. *)

From stdpp Require Import prelude list gmap strings.
From Stdlib Require Import ZArith Lia Sorting.Sorted.
From S2P Require Import Prelude.
From S2P Require Import LightPlans.
Open Scope Z_scope.

(** ** Choosing by weight *)

Lemma roll_pick_elem {A} (weight : A → Z) roll l : ∀ cursor x,
  roll_pick weight roll cursor x l ∈ x :: l.
Proof.
  induction l as [|y l IH]; intros cursor x; simpl; [by left|].
  case_match; [by right; left|]. specialize (IH (saturating_add_u64 cursor (weight y)) x).
  apply elem_of_cons in IH as [->|]; [by left|by right; right].
Qed.

Lemma weighted_roll_Some {A} (weight : A → Z) hash l x :
  weighted_roll weight hash l = Some x → x ∈ l.
Proof.
  destruct l as [|y l]; [done|]. intros [= <-].
  match goal with |- ?p ∈ _ => assert (p ∈ y :: y :: l) as Hp end.
  { apply (roll_pick_elem weight _ (y :: l) 0 y). }
  apply elem_of_cons in Hp as [Hp|?]; [rewrite Hp; by left|done].
Qed.

Lemma weighted_roll_None {A} (weight : A → Z) hash l :
  weighted_roll weight hash l = None ↔ l = [].
Proof. by destruct l. Qed.

Lemma list_filter_elem {A} (f : A → bool) l x : x ∈ List.filter f l ↔ f x = true ∧ x ∈ l.
Proof. rewrite !list_elem_of_In, filter_In. tauto. Qed.

Lemma list_filter_nil {A} (f : A → bool) l :
  List.filter f l = [] ↔ ∀ x, x ∈ l → f x = false.
Proof.
  split.
  - intros Hn x Hx. destruct (f x) eqn:Hf; [|done].
    assert (x ∈ List.filter f l) as H by by apply list_filter_elem. rewrite Hn in H.
    by apply not_elem_of_nil in H.
  - intros Hf. destruct (List.filter f l) as [|x k] eqn:E; [done|].
    assert (x ∈ List.filter f l) as [Hx ?]%list_filter_elem by (rewrite E; by left).
    by rewrite Hf in Hx.
Qed.

(** ** Histories that record the same uses *)

(** Two histories agree on what the selection looks at: everything but the
    signatures. *)
Definition same_uses (h h' : VariationHistory) : Prop :=
  (∀ role limit, recent_variants h role limit = recent_variants h' role limit) ∧
  (∀ limit, recent_modifiers h limit = recent_modifiers h' limit).

#[global] Instance same_uses_equivalence : Equivalence same_uses.
Proof.
  split; [done|intros ?? [Hv Hm]; split; congruence|].
  intros ??? [Hv Hm] [Hv' Hm']; split; intros; [by rewrite Hv|by rewrite Hm].
Qed.

Lemma newest_first_erased h :
  newest_first (without_signatures h) = erase_signature <$> newest_first h.
Proof.
  unfold newest_first. simpl. rewrite fmap_app, !fmap_reverse, <- !list_fmap_compose. done.
Qed.

Lemma without_signatures_uses h : same_uses (without_signatures h) h.
Proof.
  split; intros; unfold recent_variants, recent_modifiers; rewrite newest_first_erased.
  - f_equal. induction (newest_first h) as [|e l IH]; [done|]. csimpl. by rewrite IH.
  - f_equal. induction (newest_first h) as [|e l IH]; [done|]. csimpl. by rewrite IH.
Qed.

Lemma without_signatures_zero h n :
  recent_signatures (without_signatures h) n = (λ _, 0) <$> recent_signatures h n.
Proof.
  unfold recent_signatures. rewrite newest_first_erased, <- fmap_take, <- !list_fmap_compose. done.
Qed.

Section Selection.
Variable policy : LightPlanningPolicy.
Variable theme_id : Z.
Variable color : option Z.
Variable candidates : list Candidate.

Notation compile_choices' := (compile_choices policy theme_id color candidates).
Notation compile_once' := (compile_once policy theme_id color candidates).
Notation compile' := (compile policy theme_id color candidates).
Notation mapped := (mapped_candidates theme_id candidates).

#[global] Instance recent_for_proper : Proper (same_uses ==> eq ==> eq ==> eq ==> eq) (recent_for policy).
Proof. intros h h' [Hv _] ? ? -> ? ? -> ? ? ->. unfold recent_for. by rewrite Hv. Qed.

#[global] Instance automatic_choice_proper seed :
  Proper (same_uses ==> eq ==> eq ==> eq ==> eq) (automatic_choice policy theme_id color seed).
Proof.
  intros h h' Hh ? local -> ? phrase -> ? cs ->. unfold automatic_choice.
  assert (List.filter (λ c, negb (recent_for policy h local phrase c))
            (color_eligible policy theme_id color cs)
        = List.filter (λ c, negb (recent_for policy h' local phrase c))
            (color_eligible policy theme_id color cs)) as ->; [|done].
  apply filter_ext. intros c. by rewrite Hh.
Qed.

#[global] Instance compile_choices_proper seed :
  Proper (same_uses ==> eq ==> eq ==> eq) (compile_choices' seed).
Proof.
  intros h h' Hh ? local -> ? phrases ->. revert local.
  induction phrases as [|phrase phrases IH]; intros local; [done|]. simpl.
  assert (phrase_choice policy theme_id color candidates seed h local phrase
        = phrase_choice policy theme_id color candidates seed h' local phrase) as ->.
  { unfold phrase_choice. repeat case_match; try done. f_equal. by rewrite Hh. }
  destruct (phrase_choice _ _ _ _ _ _ _ _) as [[[c e]|]|]; simpl; [|by rewrite IH|done].
  by rewrite IH.
Qed.

Lemma modifier_loop_uses h h' seed kind phrases : same_uses h h' → ∀ carried uses,
  modifier_loop policy color seed h kind carried uses phrases =
  modifier_loop policy color seed h' kind carried uses phrases.
Proof.
  intros [_ Hm]. induction phrases as [|phrase phrases IH]; intros carried uses; [done|]. simpl.
  destruct carried; [by rewrite IH|].
  assert (select_modifier policy color seed h kind uses phrase =
          select_modifier policy color seed h' kind uses phrase) as ->.
  { unfold select_modifier, eligible_modifiers.
    rewrite (filter_ext (modifier_rested h uses) (modifier_rested h' uses)); [done|].
    intros mr. unfold modifier_rested. by rewrite Hm. }
  destruct (select_modifier _ _ _ _ _ _ _); [|done]. by rewrite IH.
Qed.

#[global] Instance compile_once_proper seed phrases :
  Proper (same_uses ==> eq) (compile_once' seed phrases).
Proof.
  intros h h' Hh. unfold compile_once. destruct (validate policy); [|done]. simpl.
  rewrite Hh. unfold compile_modifiers. by rewrite !(modifier_loop_uses _ _ _ _ _ Hh).
Qed.

(** ** What may be played in a phrase *)

(** The rules of the policy admit a candidate for the track: it is not disabled,
    and a rule that reserves it for some colours has the colour of the track. *)
Definition permitted (c : Candidate) : Prop :=
  rule_enabled policy theme_id c = true ∧
  (color_restricted policy theme_id c = true → matching_color_only policy theme_id color c = true).

(** A candidate of the phrase that is permitted, and reserved for the colour of the
    track if any enabled one is. *)
Record suitable (phrase : PhraseRequest) (c : Candidate) : Prop := {
  suit_mapped : c ∈ mapped phrase;
  suit_permitted : permitted c;
  suit_color : ∀ c', c' ∈ mapped phrase → rule_enabled policy theme_id c' = true →
    matching_color_only policy theme_id color c' = true →
    matching_color_only policy theme_id color c = true;
}.

Lemma mapped_elem phrase c :
  c ∈ mapped phrase ↔
  c ∈ candidates ∧ cd_theme_id c = theme_id ∧ cd_role_id c = pq_role_id phrase.
Proof.
  unfold mapped_candidates. rewrite list_filter_elem, andb_true_iff, Z.eqb_eq, bool_decide_eq_true.
  tauto.
Qed.

Lemma matching_restricted c :
  matching_color_only policy theme_id color c = true → color_restricted policy theme_id c = true.
Proof.
  unfold matching_color_only, color_restricted. destruct (rule_of _ _ _); [|done].
  by intros [? _]%andb_true_iff.
Qed.

Lemma color_eligible_elem phrase c :
  c ∈ color_eligible policy theme_id color (mapped phrase) ↔ suitable phrase c.
Proof.
  unfold color_eligible. case_bool_decide as Hn.
  - rewrite list_filter_nil in Hn. setoid_rewrite list_filter_elem in Hn.
    rewrite !list_filter_elem, negb_true_iff. split.
    + intros (Hr & He & Hm). split; [done| |].
      * split; [done|]. by rewrite Hr.
      * intros c' Hm' He' Hc'. by rewrite Hn in Hc'.
    + intros [Hm [He Hp] _]. split; [|done].
      destruct (color_restricted policy theme_id c) eqn:Hr; [|done].
      rewrite Hn in Hp; naive_solver.
  - rewrite !list_filter_elem. split.
    + intros (Hc & He & Hm). repeat split; done.
    + intros [Hm [He Hp] Hcol]. split; [|done].
      destruct (List.filter (matching_color_only policy theme_id color) _) as [|c' k] eqn:E; [done|].
      assert (c' ∈ c' :: k) as Hc' by by left. rewrite <- E, !list_filter_elem in Hc'.
      destruct Hc' as (? & ? & ?). by eapply Hcol.
Qed.

(** Some candidate of the phrase is permitted exactly when some is suitable. *)
Lemma suitable_exists phrase :
  (∃ c, c ∈ mapped phrase ∧ permitted c) ↔ ∃ c, suitable phrase c.
Proof.
  split; [|intros [c []]; eauto]. intros (c & Hm & Hp).
  destruct (existsb (λ c, rule_enabled policy theme_id c
                          && matching_color_only policy theme_id color c) (mapped phrase)) eqn:E.
  - apply existsb_exists in E as (c' & Hc' & [He Hc]%andb_true_iff).
    rewrite <- list_elem_of_In in Hc'. exists c'. by repeat split.
  - exists c. split; [done..|]. intros c' Hm' He' Hc'.
    assert (existsb (λ c, rule_enabled policy theme_id c
                          && matching_color_only policy theme_id color c) (mapped phrase) = true);
      [|congruence].
    apply existsb_exists. exists c'. rewrite <- list_elem_of_In, He', Hc'. done.
Qed.

(** ** The choices of a plan *)

Section History.
Variable history : VariationHistory.

(** The variants chosen for a role, in order. *)
Definition role_variants (role : str) (choices : list CompiledAutoloopChoice) : list str :=
  cc_variant_id <$> List.filter (λ c, bool_decide (cc_role_id c = role)) choices.

(** A variant was used for the role among the last [cooldown] uses of earlier plans
    or of this one. *)
Definition in_cooldown (prior : list CompiledAutoloopChoice) (role variant : str) : Prop :=
  let limit := Z.to_nat (lp_autoloop_cooldown_uses policy) in
  variant ∈ recent_variants history role limit ∨
  variant ∈ take limit (reverse (role_variants role prior)).

(** [c] is a right choice for [phrase] after the choices [prior]. *)
Record chosen (prior : list CompiledAutoloopChoice) (phrase : PhraseRequest)
    (c : CompiledAutoloopChoice) (x : Candidate) : Prop := {
  ch_phrase : cc_phrase_index c = pq_phrase_index phrase ∧ cc_role_id c = pq_role_id phrase;
  ch_mapped : x ∈ candidates ∧ cd_theme_id x = theme_id ∧ cd_role_id x = pq_role_id phrase;
  ch_fields : cc_variant_id c = cd_variant_id x ∧ cc_entry_id c = cd_entry_id x ∧
    cc_display_name c = cd_display_name x ∧ cc_autoloop_number c = cd_autoloop_number x;
  ch_rules : match requested_variant (pq_selection phrase) with
    | Some variant => cd_variant_id x = variant
    | None => suitable phrase x ∧
        (in_cooldown prior (pq_role_id phrase) (cd_variant_id x) →
         ∀ y, suitable phrase y → in_cooldown prior (pq_role_id phrase) (cd_variant_id y))
    end;
}.

(** Nothing can be played: the Theme does not map the role, or the policy admits
    no candidate for an automatic phrase. *)
Definition unplayable (phrase : PhraseRequest) : Prop :=
  match requested_variant (pq_selection phrase) with
  | Some _ => mapped phrase = []
  | None => ∀ c, c ∈ mapped phrase → ~ permitted c
  end.

(** The choices go through the phrases in order, one for every playable phrase. *)
Inductive plays : list CompiledAutoloopChoice → list PhraseRequest →
    list CompiledAutoloopChoice → Prop :=
| plays_nil prior : plays prior [] []
| plays_skip prior phrase phrases choices :
    unplayable phrase → plays prior phrases choices → plays prior (phrase :: phrases) choices
| plays_choice prior phrase phrases c x choices :
    chosen prior phrase c x → plays (prior ++ [c]) phrases choices →
    plays prior (phrase :: phrases) (c :: choices).

(** The map of local choices holds the variants chosen so far. *)
Definition tracks (local : gmap str (list str)) (prior : list CompiledAutoloopChoice) : Prop :=
  ∀ role, default [] (local !! role) = role_variants role prior.

Lemma recent_for_spec local prior phrase x :
  tracks local prior →
  recent_for policy history local phrase x = true ↔
  in_cooldown prior (pq_role_id phrase) (cd_variant_id x).
Proof.
  intros Ht. unfold recent_for, in_cooldown. rewrite Ht, orb_true_iff, !bool_decide_eq_true. done.
Qed.

Lemma automatic_choice_spec seed local prior phrase :
  tracks local prior → requested_variant (pq_selection phrase) = None →
  match automatic_choice policy theme_id color seed history local phrase (mapped phrase) with
  | Some (x, _) => suitable phrase x ∧
      (in_cooldown prior (pq_role_id phrase) (cd_variant_id x) →
       ∀ y, suitable phrase y → in_cooldown prior (pq_role_id phrase) (cd_variant_id y))
  | None => unplayable phrase
  end.
Proof.
  intros Ht Hreq. unfold automatic_choice, unplayable. rewrite Hreq.
  pose proof (color_eligible_elem phrase) as Hel.
  set (elig := color_eligible policy theme_id color (mapped phrase)) in *.
  set (fresh := List.filter _ elig).
  destruct (weighted_roll _ _ _) as [[[x w] pref]|] eqn:Hr.
  - apply weighted_roll_Some, list_elem_of_fmap in Hr as (x' & [= -> _ _] & Hx).
    case_bool_decide as Hf.
    + split; [by apply Hel|]. intros _ y Hy%Hel. apply (recent_for_spec local); [done|].
      unfold fresh in Hf. rewrite list_filter_nil in Hf. apply Hf in Hy.
      by apply negb_false_iff in Hy.
    + apply list_filter_elem in Hx as [Hx ?]. split; [by apply Hel|]. intros Hc.
      apply (recent_for_spec local) in Hc; [|done]. by rewrite Hc in Hx.
  - apply weighted_roll_None, fmap_nil_inv in Hr. intros c Hm Hp.
    destruct (proj1 (suitable_exists phrase)) as [y Hy%Hel]; [eauto|].
    case_bool_decide; [|done]. rewrite Hr in Hy. by apply not_elem_of_nil in Hy.
Qed.

Lemma tracks_snoc local prior phrase c :
  tracks local prior → cc_role_id c = pq_role_id phrase →
  tracks (<[pq_role_id phrase := default [] (local !! pq_role_id phrase) ++ [cc_variant_id c]]> local)
    (prior ++ [c]).
Proof.
  intros Ht Hc role. unfold role_variants. rewrite List.filter_app, fmap_app. simpl. rewrite Hc.
  destruct (decide (role = pq_role_id phrase)) as [->|Hne].
  - rewrite lookup_insert_eq, bool_decide_true by done. simpl. by rewrite Ht.
  - rewrite lookup_insert_ne, bool_decide_false by congruence. simpl. by rewrite app_nil_r, Ht.
Qed.

(** The choice for one phrase: right, or the phrase is unplayable. *)
Lemma phrase_choice_spec seed local prior phrase choice :
  tracks local prior →
  phrase_choice policy theme_id color candidates seed history local phrase = Ok choice →
  match choice with
  | None => unplayable phrase
  | Some (x, evidence) =>
      chosen prior phrase
        (mkCompiledAutoloopChoice (pq_phrase_index phrase) (pq_role_id phrase) (cd_variant_id x)
           (cd_entry_id x) (cd_display_name x) (cd_autoloop_number x) evidence) x
  end.
Proof.
  intros Ht. unfold phrase_choice. destruct (mapped phrase) as [|c0 cs] eqn:Em.
  { intros [= <-]. unfold unplayable. rewrite Em. case_match; [done|].
    by intros c ?%not_elem_of_nil. }
  rewrite <- Em. destruct (requested_variant _) as [variant|] eqn:Hreq.
  - intros H. unbind H. injection H as <-. apply find_some in E as [Hx Hv].
    rewrite <- list_elem_of_In, mapped_elem in Hx. apply bool_decide_eq_true in Hv.
    split; simpl; [done..|]. by rewrite Hreq.
  - intros [= <-]. pose proof (automatic_choice_spec seed local prior phrase Ht Hreq) as Hs.
    destruct (automatic_choice _ _ _ _ _ _ _ _) as [[x ev]|]; [|done].
    destruct Hs as [Hx Hrest]. split; simpl; [done|by apply mapped_elem, Hx|done|].
    by rewrite Hreq.
Qed.

Lemma compile_choices_plays seed phrases : ∀ local prior choices,
  tracks local prior →
  compile_choices' seed history local phrases = Ok choices → plays prior phrases choices.
Proof.
  induction phrases as [|phrase phrases IH]; intros local prior choices Ht H; simpl in H.
  { injection H as <-. constructor. }
  unbind H. pose proof (phrase_choice_spec _ _ _ _ _ Ht E) as Hs.
  destruct v as [[x ev]|]; [|by apply plays_skip; [|by eapply IH]].
  unbind H. injection H as <-. econstructor; [exact Hs|]. eapply IH; [|exact E0].
  by apply (tracks_snoc local prior phrase (mkCompiledAutoloopChoice _ _ (cd_variant_id x) _ _ _ _)).
Qed.

(** Compiling fails exactly when an explicitly chosen variant is not mapped. *)
Definition variant_available (phrase : PhraseRequest) : Prop :=
  ∀ variant, requested_variant (pq_selection phrase) = Some variant → mapped phrase ≠ [] →
    ∃ c, c ∈ mapped phrase ∧ cd_variant_id c = variant.

Lemma phrase_choice_ok seed local phrase :
  is_ok (phrase_choice policy theme_id color candidates seed history local phrase) ↔
  variant_available phrase.
Proof.
  unfold phrase_choice, variant_available. destruct (mapped phrase) as [|c0 cs] eqn:Em;
    [split; [done|by eexists]|]. rewrite <- Em.
  destruct (requested_variant _) as [variant|]; [|split; [done|by eexists]].
  destruct (List.find _ _) as [x|] eqn:Ef; simpl.
  - split; [|by eexists]. intros _ v [= <-] _. apply find_some in Ef as [Hx Hv].
    apply bool_decide_eq_true in Hv. exists x. by rewrite list_elem_of_In.
  - split; [by intros []|]. intros Ha. destruct (Ha variant) as (c & Hc & Hv);
      [done|by rewrite Em|]. apply list_elem_of_In in Hc. eapply find_none in Ef; [|exact Hc].
    by apply bool_decide_eq_false in Ef.
Qed.

Lemma compile_choices_ok seed phrases : ∀ local,
  is_ok (compile_choices' seed history local phrases) ↔ Forall variant_available phrases.
Proof.
  induction phrases as [|phrase phrases IH]; intros local; simpl; [split; [done|by eexists]|].
  rewrite Forall_cons, <- (phrase_choice_ok seed local).
  destruct (phrase_choice _ _ _ _ _ _ _ _) as [[[x ev]|]|e]; simpl.
  - rewrite <- (IH (<[pq_role_id phrase := default [] (local !! pq_role_id phrase)
                       ++ [cd_variant_id x]]> local)).
    destruct (compile_choices _ _ _ _ _ _ _ _); simpl; split; try done;
      [by split; eexists|by eexists|by intros []|by intros [_ []]].
  - rewrite IH. split; [|by intros []]. intros; split; [by eexists|done].
  - split; [by intros []|by intros [[] _]].
Qed.

Lemma compile_once_ok seed phrases :
  is_ok (compile_once' seed phrases history) ↔
  validate policy = Ok () ∧ Forall variant_available phrases.
Proof.
  unfold compile_once. rewrite <- (compile_choices_ok seed phrases ∅).
  destruct (validate policy) as [[]|e]; simpl; [|split; [by intros []|by intros []]].
  destruct (compile_choices _ _ _ _ _ _ _ _); simpl; split; try done;
    [by split; eexists|by eexists|by intros []|by intros [_ []]].
Qed.
End History.

(** ** The whole plan *)

Lemma try_alternatives_found compile_with recent rs p :
  try_alternatives compile_with recent rs = Some (Ok (Some p)) →
  ∃ retry, retry ∈ rs ∧ compile_with retry = Some (Ok p) ∧ clp_signature p ∉ recent.
Proof.
  induction rs as [|r rs IH]; simpl; [done|].
  destruct (compile_with r) as [[q|]|] eqn:Eq; [|done..]. case_bool_decide.
  - intros (retry & ? & ?)%IH. exists retry. split; [by right|done].
  - intros [= <-]. exists r. split; [by left|done].
Qed.

Lemma compile_S fuel seed phrases h :
  compile' (S fuel) seed phrases h =
  match compile_once' seed phrases h with
  | Err error => Some (Err error)
  | Ok plan =>
      let recent := recent_signatures h (Z.to_nat (lp_duplicate_plan_window policy)) in
      if bool_decide (clp_signature plan ∈ recent) then
        match try_alternatives
                (λ retry, compile' fuel (wrapping_add_u64 seed retry) phrases
                            (without_signatures h)) recent retries with
        | None => None
        | Some (Err error) => Some (Err error)
        | Some (Ok (Some alternative)) => Some (Ok alternative)
        | Some (Ok None) => Some (Ok plan)
        end
      else Some (Ok plan)
  end.
Proof. reflexivity. Qed.

(** A compiled plan is the selection for some seed. *)
Lemma compile_is_once fuel phrases : ∀ seed h plan,
  compile' fuel seed phrases h = Some (Ok plan) →
  ∃ seed', compile_once' seed' phrases h = Ok plan.
Proof.
  induction fuel as [|fuel IH]; intros seed h plan H; [done|]. rewrite compile_S in H.
  destruct (compile_once _ _ _ _ seed phrases h) as [p|] eqn:Ep; [|done]. cbv zeta in H.
  case_bool_decide; [|by injection H as <-; eauto].
  destruct (try_alternatives _ _ _) as [[[q|]|]|] eqn:Et; try done; [|by injection H as <-; eauto].
  injection H as ->. apply try_alternatives_found in Et as (retry & _ & Hc & _).
  apply IH in Hc as [seed' Hc]. rewrite without_signatures_uses in Hc. eauto.
Qed.

(** The plan for the seed, or, when its signature is recent, the first of the 32
    next seeds whose signature is not; the first plan when all are recent. *)
Definition first_fresh (seed : Z) (phrases : list PhraseRequest) (h : VariationHistory) :
    result CompiledLightPlan LightPlanError :=
  let recent := recent_signatures h (Z.to_nat (lp_duplicate_plan_window policy)) in
  let? plan := compile_once' seed phrases h in
  if bool_decide (clp_signature plan ∈ recent) then
    Ok (default plan
          (List.find (λ p, negb (bool_decide (clp_signature p ∈ recent)))
             (omap (λ retry, result_ok (compile_once' (wrapping_add_u64 seed retry) phrases h))
                retries)))
  else Ok plan.

(** No alternative for the seed has signature zero. *)
Definition alternatives_signed (seed : Z) (phrases : list PhraseRequest) (h : VariationHistory) : Prop :=
  ∀ retry p, retry ∈ retries →
    compile_once' (wrapping_add_u64 seed retry) phrases h = Ok p → clp_signature p ≠ 0.

(** One level below, the erased history protects only from signature zero. *)
Lemma compile_erased fuel seed phrases h p :
  compile_once' seed phrases h = Ok p → clp_signature p ≠ 0 →
  compile' (S fuel) seed phrases (without_signatures h) = Some (Ok p).
Proof.
  intros Hp Hz. rewrite compile_S, without_signatures_uses, Hp. cbv zeta.
  rewrite without_signatures_zero.
  case_bool_decide as Hin; [|done].
  apply list_elem_of_fmap in Hin as (? & ? & _). done.
Qed.

Lemma try_alternatives_find compile_with recent rs (once : Z → CompiledLightPlan) :
  (∀ r, r ∈ rs → compile_with r = Some (Ok (once r))) →
  try_alternatives compile_with recent rs =
  Some (Ok (List.find (λ p, negb (bool_decide (clp_signature p ∈ recent))) (once <$> rs))).
Proof.
  induction rs as [|r rs IH]; intros Hc; [done|]. simpl. rewrite Hc by by left.
  case_bool_decide; simpl; [|done]. apply IH. intros r' Hr. apply Hc. by right.
Qed.

Lemma compile_first_fresh fuel seed phrases h :
  alternatives_signed seed phrases h →
  compile' (S (S fuel)) seed phrases h = Some (first_fresh seed phrases h).
Proof.
  intros Hz. unfold first_fresh. rewrite compile_S.
  destruct (compile_once _ _ _ _ seed phrases h) as [p|e] eqn:Ep; cbn [result_bind]; [|done].
  cbv zeta. case_bool_decide; [|done].
  assert (∀ s, is_ok (compile_once' s phrases h)) as Hok.
  { intros s. apply compile_once_ok. rewrite <- (compile_once_ok h seed). by eexists. }
  set (once := λ r, match compile_once' (wrapping_add_u64 seed r) phrases h with
                    | Ok q => q | Err _ => p end).
  assert (∀ r, compile_once' (wrapping_add_u64 seed r) phrases h = Ok (once r)) as Honce.
  { intros r. unfold once. by destruct (Hok (wrapping_add_u64 seed r)) as [q ->]. }
  rewrite (try_alternatives_find _ _ _ once).
  2:{ intros r Hr. apply (compile_erased fuel); [done|]. by eapply Hz. }
  assert (omap (λ r, result_ok (compile_once' (wrapping_add_u64 seed r) phrases h)) retries
          = once <$> retries) as ->.
  { generalize retries as rs. induction rs as [|r rs IH]; [done|]. csimpl. by rewrite Honce, IH. }
  by destruct (List.find _ _).
Qed.
End Selection.

(** C15: compiling a light plan returns and avoids recent plans.  Unless one of the
    32 alternatives has signature zero, two levels of calls suffice, and the result
    is the plan for the seed or, when that plan is recent, the first alternative
    that is not; only when all 33 are recent is the first one repeated.  It fails
    exactly when the policy is invalid or an explicit variant is not mapped. *)
Theorem compile_avoids_recent policy theme_id color candidates fuel seed phrases h :
  (2 ≤ fuel)%nat → alternatives_signed policy theme_id color candidates seed phrases h →
  compile policy theme_id color candidates fuel seed phrases h =
    Some (first_fresh policy theme_id color candidates seed phrases h) ∧
  (is_ok (first_fresh policy theme_id color candidates seed phrases h) ↔
   validate policy = Ok () ∧ Forall (variant_available theme_id candidates) phrases).
Proof.
  intros Hf Hz. destruct fuel as [|[|fuel]]; [lia..|].
  split; [by apply compile_first_fresh|].
  rewrite <- (compile_once_ok policy theme_id color candidates h seed). unfold first_fresh.
  destruct (compile_once _ _ _ _ _ _ _) as [p|e]; cbn [result_bind].
  - case_bool_decide; split; by eexists.
  - split; by intros [].
Qed.

Lemma compile_plays policy theme_id color candidates fuel seed phrases h plan :
  compile policy theme_id color candidates fuel seed phrases h = Some (Ok plan) →
  plays policy theme_id color candidates h [] phrases (clp_choices plan) ∧
  clp_theme_id plan = theme_id ∧ clp_policy_revision plan = lp_revision policy.
Proof.
  intros [seed' H]%compile_is_once. unfold compile_once in H. unbind H. injection H as <-. simpl.
  split; [|done]. eapply compile_choices_plays; [|eassumption]. intros role. by rewrite lookup_empty.
Qed.

(** C14: every plan [compile] returns, at any depth of calls, plays the track.  Its
    choices go through the phrases in order, one for each phrase that can be
    played; each is a candidate of the Theme for the role of the phrase; an
    explicit choice is respected; an automatic one is enabled, respects the colours
    it is reserved for, prefers candidates reserved for the colour of the track,
    and is in cooldown only if every suitable candidate is. *)
Theorem compile_selects policy theme_id color candidates fuel seed phrases h plan :
  compile policy theme_id color candidates fuel seed phrases h = Some (Ok plan) →
  plays policy theme_id color candidates h [] phrases (clp_choices plan) ∧
  clp_theme_id plan = theme_id ∧ clp_policy_revision plan = lp_revision policy.
Proof. apply compile_plays. Qed.

(** The protection against repeated plans can fail to return.  For a Theme
    numbered zero and a track without phrases the signature is zero; once such a
    plan is in the history, compiling again calls itself without end, because the
    history passed down has all its signatures set to zero. *)
Theorem zero_signature_diverges policy color candidates fuel seed h :
  validate policy = Ok () →
  0 ∈ recent_signatures h (Z.to_nat (lp_duplicate_plan_window policy)) →
  compile policy 0 color candidates fuel seed [] h = None.
Proof.
  intros Hv. revert seed h. induction fuel as [|fuel IH]; intros seed h Hin; [done|].
  assert (compile_once policy 0 color candidates seed [] h
          = Ok (mkCompiledLightPlan (lp_revision policy) seed 0 [] [] 0)) as Hp
    by (unfold compile_once; rewrite Hv; reflexivity).
  rewrite compile_S, Hp. cbv zeta. cbn [clp_signature].
  rewrite bool_decide_true by exact Hin.
  change retries with (1 :: (Z.of_nat <$> seq 2 31)). cbn [try_alternatives].
  rewrite IH; [done|]. rewrite without_signatures_zero.
  destruct (recent_signatures _ _); [by apply not_elem_of_nil in Hin|by left].
Qed.

(** ** Output modifiers *)

Section Modifiers.
Variable policy : LightPlanningPolicy.
Variable color : option Z.
Variable seed : Z.
Variable history : VariationHistory.

Notation loop := (modifier_loop policy color seed history).
Notation select := (select_modifier policy color seed history).

(** A modifier and its rule may be applied at a phrase. *)
Record applicable (kind : ModifierKind) (phrase : PhraseRequest) (m : OutputModifier)
    (rule : ModifierRule) : Prop := {
  ap_modifier : m ∈ lp_modifiers policy ∧ om_kind m = kind ∧ automatic_execution_ready m = true;
  ap_rule : rule ∈ lp_modifier_rules policy ∧ mr_modifier_id rule = om_id m ∧
    mr_role_id rule = pq_role_id phrase ∧ mr_application_rate rule ≠ 0;
  ap_color : mr_color_behavior rule = LCOnly → color_matches color (mr_color_rgb rule) = true;
  ap_rested : om_id m ∉ recent_modifiers history (Z.to_nat (mr_cooldown_uses rule));
}.

Lemma modifier_candidates_elem kind phrase m rule :
  (m, rule) ∈ modifier_candidates policy kind phrase →
  (m ∈ lp_modifiers policy ∧ om_kind m = kind ∧ automatic_execution_ready m = true) ∧
  rule ∈ lp_modifier_rules policy ∧ mr_modifier_id rule = om_id m ∧
  mr_role_id rule = pq_role_id phrase.
Proof.
  unfold modifier_candidates. rewrite list_elem_of_omap. intros (rule' & Hr & H).
  destruct (List.find _ _) as [m'|] eqn:Ef; [|done]. case_bool_decide; [|done].
  injection H as -> ->. apply find_some in Ef as [Hm Hc].
  rewrite !andb_true_iff, !bool_decide_eq_true in Hc. rewrite list_elem_of_In. naive_solver.
Qed.

Lemma eligible_modifiers_elem kind uses phrase m rule :
  (m, rule) ∈ eligible_modifiers policy color seed history kind uses phrase →
  applicable kind phrase m rule.
Proof.
  unfold eligible_modifiers. rewrite list_filter_elem. intros [Ha He].
  assert ((m, rule) ∈ modifier_candidates policy kind phrase ∧
          modifier_rested history uses (m, rule) = true ∧
          (mr_color_behavior rule = LCOnly → color_matches color (mr_color_rgb rule) = true))
    as (Hc & Hr & Hcol).
  { case_bool_decide; rewrite !list_filter_elem in He; destruct He as (Ho & Hr & Hc).
    - apply negb_true_iff, bool_decide_eq_false in Ho. done.
    - by apply andb_true_iff in Ho as [_ Ho]. }
  apply modifier_candidates_elem in Hc as (? & ? & ? & ?).
  apply andb_true_iff in Ha as [Ha _]. apply andb_true_iff in Hr as [Hr _].
  apply negb_true_iff, bool_decide_eq_false in Hr. apply negb_true_iff, Z.eqb_neq in Ha.
  done.
Qed.

(** A choice plays a modifier at a phrase: address, kind and scope. *)
Record sends (c : CompiledModifierChoice) (kind : ModifierKind) (phrase : PhraseRequest)
    (m : OutputModifier) (rule : ModifierRule) : Prop := {
  sn_phrase : cm_phrase_index c = pq_phrase_index phrase ∧ cm_role_id c = pq_role_id phrase;
  sn_address : cm_modifier_id c = om_id m ∧ cm_midi_channel c = om_midi_channel m ∧
    cm_midi_note c = om_midi_note m ∧ cm_provider_kind c = om_provider_kind m;
  sn_kind : cm_kind c = kind ∧ cm_scope c = mr_scope rule;
}.

Lemma select_modifier_Some kind uses phrase c :
  select kind uses phrase = Some c →
  ∃ m rule, applicable kind phrase m rule ∧ sends c kind phrase m rule.
Proof.
  unfold select_modifier. destruct (weighted_roll _ _ _) as [[[[m rule] w] pref]|] eqn:Hw; [|done].
  intros [= <-]. apply weighted_roll_Some, list_elem_of_fmap in Hw as ([m' rule'] & Hw & Hel).
  injection Hw as -> -> _ _. exists m', rule'. split; [by eapply eligible_modifiers_elem|done].
Qed.

Lemma loop_carried kind active uses phrases :
  loop kind (Some active) uses phrases = continued active <$> phrases.
Proof. induction phrases as [|phrase phrases IH]; [done|]. csimpl. by rewrite IH. Qed.

Lemma loop_kind kind phrases : ∀ uses c, c ∈ loop kind None uses phrases → cm_kind c = kind.
Proof.
  induction phrases as [|phrase phrases IH]; intros uses c; simpl; [by intros ?%not_elem_of_nil|].
  destruct (select kind uses phrase) as [c0|] eqn:Es; [|apply IH].
  apply select_modifier_Some in Es as (m & rule & _ & [_ _ [Hk _]]).
  intros [->|Hc]%elem_of_cons; [done|]. destruct (cm_scope c0); [by eapply IH|].
  rewrite loop_carried in Hc. by apply list_elem_of_fmap in Hc as (? & -> & _).
Qed.

(** The choices of a kind: at most one per phrase, in order. *)
Lemma loop_indexes kind phrases : ∀ uses,
  cm_phrase_index <$> loop kind None uses phrases `sublist_of` (pq_phrase_index <$> phrases).
Proof.
  induction phrases as [|phrase phrases IH]; intros uses; [done|]. simpl.
  destruct (select kind uses phrase) as [c0|] eqn:Es; csimpl; [|by constructor].
  apply select_modifier_Some in Es as (m & rule & _ & [[-> _] _ _]). constructor.
  destruct (cm_scope c0); [apply IH|]. rewrite loop_carried, <- list_fmap_compose. done.
Qed.

Notation increasing phrases := (StronglySorted Z.lt (pq_phrase_index <$> phrases)).

(** Where a choice comes from: selected at its phrase, or a whole-track one
    selected at an earlier phrase. *)
Lemma loop_origin kind phrases : ∀ uses c,
  increasing phrases → c ∈ loop kind None uses phrases →
  ∃ phrase origin m rule, phrase ∈ phrases ∧ origin ∈ phrases ∧
    applicable kind origin m rule ∧ sends c kind phrase m rule ∧
    (phrase = origin ∨
     mr_scope rule = ScopeTrack ∧ pq_phrase_index origin < pq_phrase_index phrase).
Proof.
  induction phrases as [|phrase phrases IH]; intros uses c Hi; simpl; [by intros ?%not_elem_of_nil|].
  rewrite fmap_cons in Hi. apply StronglySorted_inv in Hi as [Hi Hlt]. rewrite Forall_fmap, Forall_forall in Hlt.
  assert (∀ uses', c ∈ loop kind None uses' phrases → _) as IH' by (intros u; exact (IH u c Hi)).
  destruct (select kind uses phrase) as [c0|] eqn:Es.
  2:{ intros (ph & o & m & rule & ? & ? & ?)%IH'. exists ph, o, m, rule. set_solver. }
  apply select_modifier_Some in Es as (m & rule & Ha & Hs).
  intros [->|Hc]%elem_of_cons; [exists phrase, phrase, m, rule; set_solver|].
  destruct (cm_scope c0) eqn:Hsc.
  { apply IH' in Hc as (ph & o & m' & rule' & ? & ? & ?). exists ph, o, m', rule'. set_solver. }
  rewrite loop_carried in Hc. apply list_elem_of_fmap in Hc as (ph & -> & Hph).
  exists ph, phrase, m, rule. split; [by right|]. split; [by left|]. split; [done|].
  destruct Hs as [? ? [? ?]]. split; [done|]. right. split; [congruence|]. by apply Hlt.
Qed.

(** A whole-track modifier stays until the end of the track. *)
Lemma loop_continues kind phrases : ∀ uses c phrase,
  increasing phrases → c ∈ loop kind None uses phrases → cm_scope c = ScopeTrack →
  phrase ∈ phrases → cm_phrase_index c < pq_phrase_index phrase →
  ∃ c', c' ∈ loop kind None uses phrases ∧ cm_phrase_index c' = pq_phrase_index phrase ∧
    cm_modifier_id c' = cm_modifier_id c.
Proof.
  induction phrases as [|ph phrases IH]; intros uses c phrase Hi; simpl; [by intros ?%not_elem_of_nil|].
  rewrite fmap_cons in Hi. apply StronglySorted_inv in Hi as [Hi Hlt]. rewrite Forall_fmap, Forall_forall in Hlt.
  assert (∀ u, c ∈ loop kind None u phrases → pq_phrase_index ph < cm_phrase_index c) as Htail.
  { intros u Hc. assert (cm_phrase_index c ∈ pq_phrase_index <$> phrases) as Hin.
    { eapply elem_of_sublist; [by apply list_elem_of_fmap_2|apply loop_indexes]. }
    apply list_elem_of_fmap in Hin as (ph' & -> & ?). by apply Hlt. }
  destruct (select kind uses ph) as [c0|] eqn:Es.
  2:{ intros Hc Hs [->|Hp]%elem_of_cons Hix; [specialize (Htail _ Hc); lia|by eapply IH]. }
  apply select_modifier_Some in Es as (m & rule & _ & [[Hix0 _] _ _]).
  intros [->|Hc]%elem_of_cons Hs [->|Hp]%elem_of_cons Hix; [lia| | |].
  - rewrite Hs, loop_carried. exists (continued c0 phrase). split; [|done].
    right. by apply list_elem_of_fmap_2.
  - destruct (cm_scope c0) eqn:E0; [specialize (Htail _ Hc); lia|].
    rewrite loop_carried in Hc. apply list_elem_of_fmap in Hc as (ph' & -> & ?%Hlt). simpl in *. lia.
  - destruct (cm_scope c0) eqn:E0.
    + destruct (IH (uses ++ [cm_modifier_id c0]) c phrase) as (c' & ? & ?); [done..|].
      exists c'. split; [by right|done].
    + rewrite loop_carried in *. apply list_elem_of_fmap in Hc as (ph' & -> & _).
      exists (continued c0 phrase). split; [|done]. right. by apply list_elem_of_fmap_2.
Qed.
End Modifiers.

(** ** Sorting the modifiers *)

Definition modifier_key (c : CompiledModifierChoice) : Z * ModifierKind :=
  (cm_phrase_index c, cm_kind c).

Notation key_le := (λ a b, modifier_key_le a b = true).

Lemma modifier_key_le_total a b : modifier_key_le a b = false → modifier_key_le b a = true.
Proof.
  unfold modifier_key_le. destruct (cm_kind a), (cm_kind b); simpl;
    rewrite ?orb_false_iff, ?orb_true_iff, ?andb_true_iff, ?andb_false_iff; lia.
Qed.

Lemma sorted_insert_perm x l : sorted_insert x l ≡ₚ x :: l.
Proof.
  induction l as [|y l IH]; [done|]. simpl. case_match; [done|]. rewrite IH. by constructor.
Qed.

Lemma sorted_insert_sorted x l : Sorted key_le l → Sorted key_le (sorted_insert x l).
Proof.
  induction 1 as [|y l Hs IH Hy]; simpl; [by repeat constructor|].
  destruct (modifier_key_le x y) eqn:E; [by repeat constructor|]. constructor; [done|].
  apply modifier_key_le_total in E. destruct l as [|z l]; simpl; [by constructor|].
  apply HdRel_inv in Hy. case_match; by constructor.
Qed.

Lemma sort_modifiers l :
  foldr sorted_insert [] l ≡ₚ l ∧ Sorted key_le (foldr sorted_insert [] l).
Proof.
  induction l as [|x l [Hp Hs]]; simpl; [done|].
  split; [by rewrite sorted_insert_perm, Hp|by apply sorted_insert_sorted].
Qed.

Lemma increasing_NoDup l : StronglySorted Z.lt l → NoDup l.
Proof.
  induction 1 as [|x l _ IH Hx]; constructor; [|done]. rewrite Forall_forall in Hx.
  intros Hin%Hx. lia.
Qed.

Lemma loop_keys_NoDup policy color seed h kind phrases :
  StronglySorted Z.lt (pq_phrase_index <$> phrases) →
  NoDup (modifier_key <$> modifier_loop policy color seed h kind None [] phrases).
Proof.
  intros Hi%increasing_NoDup.
  assert (NoDup (fst <$> (modifier_key <$> modifier_loop policy color seed h kind None [] phrases)))
    as Hn; [|by apply NoDup_fmap_1 in Hn].
  rewrite <- list_fmap_compose. eapply sublist_NoDup; [exact Hi|]. apply loop_indexes.
Qed.

(** The output modifiers of a plan.  For phrases in increasing order there is at
    most one modifier of each kind per phrase, sorted by phrase and kind; each is an
    enabled and verified modifier of the policy, sent to its own address, selected
    by a rule for the role of its phrase with a positive rate, a matching colour
    and no use within its cooldown in the history; only a whole-track modifier
    appears at later phrases, and then it is there at every later one. *)
Theorem modifiers_spec policy color seed phrases h :
  StronglySorted Z.lt (pq_phrase_index <$> phrases) →
  let ms := compile_modifiers policy color seed phrases h in
  Sorted key_le ms ∧ NoDup (modifier_key <$> ms) ∧
  (∀ c, c ∈ ms → ∃ phrase origin m rule, phrase ∈ phrases ∧ origin ∈ phrases ∧
     applicable policy color h (cm_kind c) origin m rule ∧ sends c (cm_kind c) phrase m rule ∧
     (phrase = origin ∨
      mr_scope rule = ScopeTrack ∧ pq_phrase_index origin < pq_phrase_index phrase)) ∧
  (∀ c phrase, c ∈ ms → cm_scope c = ScopeTrack → phrase ∈ phrases →
     cm_phrase_index c < pq_phrase_index phrase →
     ∃ c', c' ∈ ms ∧ modifier_key c' = (pq_phrase_index phrase, cm_kind c) ∧
       cm_modifier_id c' = cm_modifier_id c).
Proof.
  intros Hi ms. unfold ms, compile_modifiers.
  destruct (sort_modifiers (modifier_loop policy color seed h KindAtmosphere None [] phrases
    ++ modifier_loop policy color seed h KindColor None [] phrases)) as [Hp Hs].
  split; [exact Hs|]. setoid_rewrite Hp. split; [|split].
  - rewrite fmap_app, NoDup_app. split; [by apply loop_keys_NoDup|].
    split; [|by apply loop_keys_NoDup]. intros key Ha Hc.
    apply list_elem_of_fmap in Ha as (a & -> & Ha%loop_kind).
    apply list_elem_of_fmap in Hc as (b & [= _ Hk] & Hb%loop_kind). congruence.
  - intros c [Hc|Hc]%elem_of_app; pose proof (loop_kind _ _ _ _ _ _ _ _ Hc) as Hk;
      apply loop_origin in Hc; by rewrite ?Hk.
  - intros c phrase [Hc|Hc]%elem_of_app Hs' Hph Hix;
      pose proof (loop_kind _ _ _ _ _ _ _ _ Hc) as Hk;
      destruct (loop_continues _ _ _ _ _ _ _ _ _ Hi Hc Hs' Hph Hix) as (c' & Hc' & He & ?);
      pose proof (loop_kind _ _ _ _ _ _ _ _ Hc') as Hk'; exists c'; unfold modifier_key;
      rewrite He, Hk, Hk'; (split; [apply elem_of_app; by auto|done]).
Qed.

(** ** A small policy, for concrete plans *)

Definition demo_candidate (variant : string) (number : Z) : Candidate :=
  mkCandidate 1 (lit "drop") (lit variant) (lit variant) (lit variant) number.

Definition demo_candidates : list Candidate :=
  [demo_candidate "a" 1; demo_candidate "b" 2; demo_candidate "c" 3].

Definition demo_requests : list PhraseRequest :=
  [mkPhraseRequest 0 (lit "drop") SelAutomatic; mkPhraseRequest 1 (lit "drop") SelAutomatic].

Definition demo_policy : LightPlanningPolicy :=
  mkLightPlanningPolicy 1 BankThemes None false [] 1 0 4 []
    [mkOutputModifier (lit "fog") (lit "midi") KindAtmosphere (lit "Fog") true 1 60 true true]
    [mkModifierRule (lit "fog") (lit "drop") 100 2 0 ScopeTrack LCNeutral []].

(** The history after the plan for seed 42 has been played. *)
Definition demo_history : VariationHistory :=
  match compile demo_policy 1 None demo_candidates 2 42 demo_requests VariationHistory_default with
  | Some (Ok plan) => commit (lit "x") (reserve (lit "x") plan VariationHistory_default)
  | _ => VariationHistory_default
  end.

Lemma demo_alternatives_signed :
  alternatives_signed demo_policy 1 None demo_candidates 42 demo_requests demo_history.
Proof.
  assert (forallb (λ r, match compile_once demo_policy 1 None demo_candidates
                                (wrapping_add_u64 42 r) demo_requests demo_history with
                        | Ok p => negb (clp_signature p =? 0) | Err _ => true end) retries = true)
    as Hall by (vm_compute; reflexivity).
  intros r p Hr Hp. rewrite forallb_forall in Hall. apply list_elem_of_In, Hall in Hr.
  rewrite Hp in Hr. by apply negb_true_iff, Z.eqb_neq in Hr.
Qed.

Lemma compile_avoids_recent_witness :
  ∃ plan, compile demo_policy 1 None demo_candidates 2 42 demo_requests demo_history
    = Some (Ok plan) ∧ clp_signature plan ∉ recent_signatures demo_history 4.
Proof.
  destruct (compile_avoids_recent demo_policy 1 None demo_candidates 2 42 demo_requests demo_history)
    as [Hc _]; [lia|apply demo_alternatives_signed|].
  destruct (first_fresh demo_policy 1 None demo_candidates 42 demo_requests demo_history)
    as [plan|] eqn:E; [|vm_compute in E; discriminate E].
  exists plan. split; [exact Hc|].
  vm_compute in E. injection E as <-. apply (bool_decide_unpack (_ ∉ _)). vm_compute. exact I.
Defined.

Lemma compile_selects_witness :
  ∃ plan, compile demo_policy 1 None demo_candidates 2 42 demo_requests demo_history
    = Some (Ok plan) ∧
  plays demo_policy 1 None demo_candidates demo_history [] demo_requests (clp_choices plan) ∧
  length (clp_choices plan) = 2%nat.
Proof.
  destruct (compile demo_policy 1 None demo_candidates 2 42 demo_requests demo_history)
    as [[plan|]|] eqn:E; [|vm_compute in E; discriminate E..].
  exists plan. split; [reflexivity|]. split.
  - apply (compile_selects _ _ _ _ _ _ _ _ _ E).
  - vm_compute in E. injection E as <-. reflexivity.
Defined.

Lemma zero_signature_diverges_witness :
  ∃ plan, compile LightPlanningPolicy_default 0 None [] 2 7 [] VariationHistory_default
    = Some (Ok plan) ∧
  compile LightPlanningPolicy_default 0 None [] 1000 7 []
    (reserve (lit "x") plan VariationHistory_default) = None.
Proof.
  eexists. split; [reflexivity|].
  apply (zero_signature_diverges LightPlanningPolicy_default None [] 1000 7).
  - reflexivity.
  - left.
Defined.

Lemma modifiers_spec_witness :
  modifier_key <$> compile_modifiers demo_policy None 42 demo_requests demo_history
    = [(0, KindAtmosphere); (1, KindAtmosphere)] ∧
  NoDup (modifier_key <$> compile_modifiers demo_policy None 42 demo_requests demo_history).
Proof.
  split; [vm_compute; reflexivity|].
  apply (modifiers_spec demo_policy None 42 demo_requests demo_history).
  repeat constructor.
Defined.
