(* ===== verification/PhraseTimeline.v ===== *)
(** * The editable phrase timeline of the library

    Models [lumi-library/src/timeline.rs] and the identifiers it uses from
    [lumi-library/src/identifiers.rs]: a revisioned partition of a track into
    phrases, its edits and the restoring of earlier revisions. *)

From stdpp Require Import prelude list gmap strings.
From Stdlib Require Import ZArith Lia.
From S2P Require Import Prelude.
From S2P Require Import Track.
Open Scope Z_scope.

(** ** Identifiers *)

Inductive TextIdentifierError : Type :=
| IdentifierEmpty (label : string)
| IdentifierTooLong (label : string).

(** [try_new] of the [text_identifier!] macro; an identifier is its text. *)
Definition text_identifier_try_new (label : string) (value : str) :
    result str TextIdentifierError :=
  if str_is_blank value then Err (IdentifierEmpty label)
  else if 255 <? str_len value then Err (IdentifierTooLong label)
  else Ok value.

Notation PhraseRoleId := str (only parsing).
Notation VariantId := str (only parsing).
Notation SourceRevision := str (only parsing).
Notation TimelineRevision := Z (only parsing).

Definition TimelineRevision_try_new (value : Z) : result TimelineRevision TextIdentifierError :=
  if value =? 0 then Err (IdentifierEmpty "timeline revision") else Ok value.

Definition TimelineRevision_initial : TimelineRevision := 1.

Definition TimelineRevision_checked_next (r : TimelineRevision) : option TimelineRevision :=
  match checked_add_u64 r 1 with Some value => Some value | None => None end.

(** ** Data *)

Inductive TimelineRevisionOrigin : Type :=
| OriginSourceImport | OriginUserEdit | OriginSourceReconcile | OriginRevisionRestore.

Inductive TimelineRevisionReason : Type :=
| ReasonInitialSourceMapping | ReasonCreatePhrase | ReasonSplitPhrase | ReasonMergePrevious
| ReasonMergeNext | ReasonMoveBoundary | ReasonAbsorbPrevious | ReasonAbsorbNext
| ReasonChangeRole | ReasonChangeLoopStrategy | ReasonUndo | ReasonRedo
| ReasonRestoreRevision | ReasonSourceReconcile.

Record ThemeSpecificVariant := mkThemeSpecificVariant {
  tsv_theme_id : ThemeId;
  tsv_variant_id : VariantId;
}.

Inductive PhraseLoopStrategy : Type :=
| StrategyAuto
| StrategyFixedVariant (variant : VariantId)
| StrategyThemeSpecificExact (overrides : list ThemeSpecificVariant).

Record PhraseInstance := mkPhraseInstance {
  pi_index : Z;
  pi_start_beat : Z;
  pi_end_beat : Z;
  pi_role_id : PhraseRoleId;
  pi_loop_strategy : PhraseLoopStrategy;
}.

#[global] Instance ThemeSpecificVariant_eq_dec : EqDecision ThemeSpecificVariant.
Proof. solve_decision. Defined.
#[global] Instance PhraseLoopStrategy_eq_dec : EqDecision PhraseLoopStrategy.
Proof. solve_decision. Defined.
#[global] Instance PhraseInstance_eq_dec : EqDecision PhraseInstance.
Proof. solve_decision. Defined.
#[global] Instance TimelineRevisionReason_eq_dec : EqDecision TimelineRevisionReason.
Proof. solve_decision. Defined.

#[global] Instance PhraseInstance_ranged : Ranged PhraseInstance := {
  range_index := pi_index;
  range_start := pi_start_beat;
  range_end := pi_end_beat;
}.

Definition PhraseInstance_new (index start_beat end_beat : Z) (role_id : PhraseRoleId) :
    PhraseInstance :=
  mkPhraseInstance index start_beat end_beat role_id StrategyAuto.

Definition with_loop_strategy (p : PhraseInstance) (strategy : PhraseLoopStrategy) :
    PhraseInstance :=
  mkPhraseInstance (pi_index p) (pi_start_beat p) (pi_end_beat p) (pi_role_id p) strategy.

Record LumiPhraseTimeline := mkLumiPhraseTimeline {
  lpt_track_id : TrackId;
  lpt_revision : TimelineRevision;
  lpt_baseline_revision : SourceRevision;
  lpt_total_beats : Z;
  lpt_origin : TimelineRevisionOrigin;
  lpt_reason : TimelineRevisionReason;
  lpt_parent_revision : option TimelineRevision;
  lpt_restored_from : option TimelineRevision;
  lpt_phrases : list PhraseInstance;
}.

Inductive TimelineValidationError : Type :=
| TVInvalidTrackId | TVEmptyDuration | TVEmptyPhrases | TVUnorderedPhraseIndex
| TVInvalidPhraseCoverage | TVInvalidRevisionHistory | TVInvalidLoopStrategy.

Inductive TimelineEditError : Type :=
| TEUnknownPhrase | TEInvalidBeatSelection | TEInvalidSplitBoundary | TEInvalidBoundaryMove
| TEMissingPreviousPhrase | TEMissingNextPhrase | TECannotDeleteOnlyPhrase | TENoChange
| TETooManyPhrases | TERevisionOverflow | TEIncompatibleRevision | TEInvalidRestoreReason
| TEInvalidResult (error : TimelineValidationError).

(** ** Construction *)

(** [overrides.windows(2).any(|pair| pair[0].theme_id() >= pair[1].theme_id())] *)
Fixpoint overrides_unordered (overrides : list ThemeSpecificVariant) : bool :=
  match overrides with
  | first :: (second :: _) as rest =>
      (tsv_theme_id second <=? tsv_theme_id first) || overrides_unordered rest
  | _ => false
  end.

Definition strategy_invalid (strategy : PhraseLoopStrategy) : bool :=
  match strategy with
  | StrategyThemeSpecificExact overrides =>
      bool_decide (overrides = []) || overrides_unordered overrides
  | _ => false
  end.

(** The loop of [try_new_with_history]: expected index and [previous_end]. *)
Fixpoint validate_phrases (expected_index previous_end total_beats : Z)
    (phrases : list PhraseInstance) : result Z TimelineValidationError :=
  match phrases with
  | [] => Ok previous_end
  | phrase :: rest =>
      if negb (pi_index phrase =? expected_index) then Err TVUnorderedPhraseIndex
      else if negb (pi_start_beat phrase =? previous_end)
              || (pi_end_beat phrase <=? pi_start_beat phrase)
              || (total_beats <? pi_end_beat phrase)
      then Err TVInvalidPhraseCoverage
      else if strategy_invalid (pi_loop_strategy phrase) then Err TVInvalidLoopStrategy
      else validate_phrases (expected_index + 1) (pi_end_beat phrase) total_beats rest
  end.

Definition not_earlier (reference : option TimelineRevision) (revision : TimelineRevision) : bool :=
  match reference with Some r => revision <=? r | None => false end.

Definition try_new_with_history (track_id : TrackId) (revision : TimelineRevision)
    (baseline_revision : SourceRevision) (total_beats : Z) (origin : TimelineRevisionOrigin)
    (reason : TimelineRevisionReason) (parent_revision restored_from : option TimelineRevision)
    (phrases : list PhraseInstance) : result LumiPhraseTimeline TimelineValidationError :=
  if track_id =? 0 then Err TVInvalidTrackId
  else if total_beats =? 0 then Err TVEmptyDuration
  else if bool_decide (phrases = []) then Err TVEmptyPhrases
  else if not_earlier parent_revision revision || not_earlier restored_from revision
  then Err TVInvalidRevisionHistory
  else
    let? previous_end := validate_phrases 0 0 total_beats phrases in
    if negb (previous_end =? total_beats) then Err TVInvalidPhraseCoverage
    else Ok (mkLumiPhraseTimeline track_id revision baseline_revision total_beats origin reason
               parent_revision restored_from phrases).

Definition LumiPhraseTimeline_try_new (track_id : TrackId) (revision : TimelineRevision)
    (baseline_revision : SourceRevision) (total_beats : Z) (origin : TimelineRevisionOrigin)
    (phrases : list PhraseInstance) : result LumiPhraseTimeline TimelineValidationError :=
  let reason := match origin with
                | OriginSourceImport => ReasonInitialSourceMapping
                | OriginUserEdit => ReasonChangeRole
                | OriginSourceReconcile => ReasonSourceReconcile
                | OriginRevisionRestore => ReasonRestoreRevision
                end in
  let parent_revision := if revision =? TimelineRevision_initial then None
                         else result_ok (TimelineRevision_try_new (revision - 1)) in
  try_new_with_history track_id revision baseline_revision total_beats origin reason
    parent_revision None phrases.

(** ** Edit commands *)

Inductive PhraseAbsorption : Type := AbsorbPrevious | AbsorbNext.

Inductive TimelineEditCommand : Type :=
| CmdCreate (start_beat end_beat : Z) (role_id : PhraseRoleId)
| CmdSplit (phrase_index at_beat : Z)
| CmdMergePrevious (phrase_index : Z)
| CmdMergeNext (phrase_index : Z)
| CmdMoveBoundary (boundary_after_phrase_index to_beat : Z)
| CmdDelete (phrase_index : Z) (absorb_into : PhraseAbsorption)
| CmdChangeRole (phrase_index : Z) (role_id : PhraseRoleId)
| CmdSetLoopStrategy (phrase_index : Z) (strategy : PhraseLoopStrategy).

Definition assigned_role_id (command : TimelineEditCommand) : option PhraseRoleId :=
  match command with
  | CmdCreate _ _ role_id | CmdChangeRole _ role_id => Some role_id
  | _ => None
  end.

Definition command_reason (command : TimelineEditCommand) : TimelineRevisionReason :=
  match command with
  | CmdCreate _ _ _ => ReasonCreatePhrase
  | CmdSplit _ _ => ReasonSplitPhrase
  | CmdMergePrevious _ => ReasonMergePrevious
  | CmdMergeNext _ => ReasonMergeNext
  | CmdMoveBoundary _ _ => ReasonMoveBoundary
  | CmdDelete _ AbsorbPrevious => ReasonAbsorbPrevious
  | CmdDelete _ AbsorbNext => ReasonAbsorbNext
  | CmdChangeRole _ _ => ReasonChangeRole
  | CmdSetLoopStrategy _ _ => ReasonChangeLoopStrategy
  end.

(** The guarded index of a phrase, with the phrase it selects. *)
Definition phrase_index_index (index : Z) (phrases : list PhraseInstance) :
    result (nat * PhraseInstance) TimelineEditError :=
  match phrases !! Z.to_nat index with
  | Some phrase => Ok (Z.to_nat index, phrase)
  | None => Err TEUnknownPhrase
  end.

Fixpoint reindex_from (index : Z) (phrases : list PhraseInstance) :
    result (list PhraseInstance) TimelineEditError :=
  match phrases with
  | [] => Ok []
  | phrase :: rest =>
      if U16_MAX <? index then Err TETooManyPhrases
      else
        let? rest := reindex_from (index + 1) rest in
        Ok (with_loop_strategy
              (PhraseInstance_new index (pi_start_beat phrase) (pi_end_beat phrase)
                 (pi_role_id phrase)) (pi_loop_strategy phrase) :: rest)
  end.

Definition reindex (phrases : list PhraseInstance) : result (list PhraseInstance) TimelineEditError :=
  reindex_from 0 phrases.

(** A phrase with another range; its index is assigned by [reindex]. *)
Definition with_range (phrase : PhraseInstance) (start_beat end_beat : Z) : PhraseInstance :=
  with_loop_strategy (PhraseInstance_new 0 start_beat end_beat (pi_role_id phrase))
    (pi_loop_strategy phrase).

(** One round of the loop of the Create arm on [replacement]. *)
Definition create_step (start_beat end_beat : Z) (role_id : PhraseRoleId)
    (replacement : list PhraseInstance) (phrase : PhraseInstance) : list PhraseInstance :=
  if (pi_end_beat phrase <=? start_beat) || (end_beat <=? pi_start_beat phrase)
  then replacement ++ [phrase]
  else
    let replacement :=
      if pi_start_beat phrase <? start_beat
      then replacement ++ [with_range phrase (pi_start_beat phrase) start_beat]
      else replacement in
    let replacement :=
      if match last replacement with
         | Some last => pi_end_beat last <=? start_beat
         | None => true
         end
      then replacement ++ [PhraseInstance_new 0 start_beat end_beat role_id]
      else replacement in
    if end_beat <? pi_end_beat phrase
    then replacement ++ [with_range phrase end_beat (pi_end_beat phrase)]
    else replacement.

Definition edit_create (phrases : list PhraseInstance) (total_beats start_beat end_beat : Z)
    (role_id : PhraseRoleId) : result (list PhraseInstance) TimelineEditError :=
  if (end_beat <=? start_beat) || (total_beats <? end_beat) then Err TEInvalidBeatSelection
  else Ok (foldl (create_step start_beat end_beat role_id) [] phrases).

Definition edit_split (phrases : list PhraseInstance) (phrase_index at_beat : Z) :
    result (list PhraseInstance) TimelineEditError :=
  let? (index, phrase) := phrase_index_index phrase_index phrases in
  if (at_beat <=? pi_start_beat phrase) || (pi_end_beat phrase <=? at_beat)
  then Err TEInvalidSplitBoundary
  else
    let phrases := <[index := with_range phrase (pi_start_beat phrase) at_beat]> phrases in
    Ok (take (index + 1) phrases
        ++ PhraseInstance_new 0 at_beat (pi_end_beat phrase) (pi_role_id phrase)
        :: drop (index + 1) phrases).

Definition edit_merge_previous (phrases : list PhraseInstance) (phrase_index : Z) :
    result (list PhraseInstance) TimelineEditError :=
  let? (index, selected) := phrase_index_index phrase_index phrases in
  match index with
  | O => Err TEMissingPreviousPhrase
  | S before =>
      let? previous := ok_or (phrases !! before) TEUnknownPhrase in
      Ok (delete before
            (<[index := with_range selected (pi_start_beat previous) (pi_end_beat selected)]>
               phrases))
  end.

Definition edit_merge_next (phrases : list PhraseInstance) (phrase_index : Z) :
    result (list PhraseInstance) TimelineEditError :=
  let? (index, selected) := phrase_index_index phrase_index phrases in
  let? next := ok_or (phrases !! (index + 1)%nat) TEMissingNextPhrase in
  Ok (delete (index + 1)%nat
        (<[index := with_range selected (pi_start_beat selected) (pi_end_beat next)]> phrases)).

Definition edit_move_boundary (phrases : list PhraseInstance) (phrase_index to_beat : Z) :
    result (list PhraseInstance) TimelineEditError :=
  let? (left_index, left_phrase) := phrase_index_index phrase_index phrases in
  let? right_phrase := ok_or (phrases !! (left_index + 1)%nat) TEMissingNextPhrase in
  if (to_beat <=? pi_start_beat left_phrase) || (pi_end_beat right_phrase <=? to_beat)
  then Err TEInvalidBoundaryMove
  else
    let phrases :=
      <[left_index := with_range left_phrase (pi_start_beat left_phrase) to_beat]> phrases in
    Ok (<[(left_index + 1)%nat :=
            with_range right_phrase to_beat (pi_end_beat right_phrase)]> phrases).

Definition edit_delete (phrases : list PhraseInstance) (phrase_index : Z)
    (absorb_into : PhraseAbsorption) : result (list PhraseInstance) TimelineEditError :=
  let? (index, removed) := phrase_index_index phrase_index phrases in
  if bool_decide (length phrases = 1%nat) then Err TECannotDeleteOnlyPhrase
  else match absorb_into with
  | AbsorbPrevious =>
      match index with
      | S before =>
          let? previous := ok_or (phrases !! before) TEUnknownPhrase in
          Ok (delete index
                (<[before := with_range previous (pi_start_beat previous) (pi_end_beat removed)]>
                   phrases))
      | O => Err TEMissingPreviousPhrase
      end
  | AbsorbNext =>
      let? next := ok_or (phrases !! (index + 1)%nat) TEMissingNextPhrase in
      Ok (delete index
            (<[(index + 1)%nat := with_range next (pi_start_beat removed) (pi_end_beat next)]>
               phrases))
  end.

Definition edit_change_role (phrases : list PhraseInstance) (phrase_index : Z)
    (role_id : PhraseRoleId) : result (list PhraseInstance) TimelineEditError :=
  let? (index, phrase) := phrase_index_index phrase_index phrases in
  if bool_decide (pi_role_id phrase = role_id) then Err TENoChange
  else Ok (<[index := PhraseInstance_new 0 (pi_start_beat phrase) (pi_end_beat phrase) role_id]>
             phrases).

Definition edit_set_loop_strategy (phrases : list PhraseInstance) (phrase_index : Z)
    (strategy : PhraseLoopStrategy) : result (list PhraseInstance) TimelineEditError :=
  let? (index, phrase) := phrase_index_index phrase_index phrases in
  if bool_decide (pi_loop_strategy phrase = strategy) then Err TENoChange
  else Ok (<[index := with_loop_strategy
                        (PhraseInstance_new 0 (pi_start_beat phrase) (pi_end_beat phrase)
                           (pi_role_id phrase)) strategy]> phrases).

Definition apply_edit (current : list PhraseInstance) (total_beats : Z)
    (command : TimelineEditCommand) : result (list PhraseInstance) TimelineEditError :=
  let? phrases :=
    match command with
    | CmdCreate start_beat end_beat role_id =>
        edit_create current total_beats start_beat end_beat role_id
    | CmdSplit phrase_index at_beat => edit_split current phrase_index at_beat
    | CmdMergePrevious phrase_index => edit_merge_previous current phrase_index
    | CmdMergeNext phrase_index => edit_merge_next current phrase_index
    | CmdMoveBoundary phrase_index to_beat => edit_move_boundary current phrase_index to_beat
    | CmdDelete phrase_index absorb_into => edit_delete current phrase_index absorb_into
    | CmdChangeRole phrase_index role_id => edit_change_role current phrase_index role_id
    | CmdSetLoopStrategy phrase_index strategy =>
        edit_set_loop_strategy current phrase_index strategy
    end in
  reindex phrases.

Definition edit (t : LumiPhraseTimeline) (command : TimelineEditCommand) :
    result LumiPhraseTimeline TimelineEditError :=
  let? next_revision := ok_or (TimelineRevision_checked_next (lpt_revision t)) TERevisionOverflow in
  let reason := command_reason command in
  let? phrases := apply_edit (lpt_phrases t) (lpt_total_beats t) command in
  if bool_decide (phrases = lpt_phrases t) then Err TENoChange
  else map_err TEInvalidResult
         (try_new_with_history (lpt_track_id t) next_revision (lpt_baseline_revision t)
            (lpt_total_beats t) OriginUserEdit reason (Some (lpt_revision t)) None phrases).

Definition restores (reason : TimelineRevisionReason) : bool :=
  match reason with ReasonUndo | ReasonRedo | ReasonRestoreRevision => true | _ => false end.

(** The [map] of [restore]: [u16::try_from(index).unwrap_or(u16::MAX)]. *)
Definition restored_phrase (index : nat) (phrase : PhraseInstance) : PhraseInstance :=
  with_loop_strategy
    (PhraseInstance_new (Z.min (Z.of_nat index) U16_MAX) (pi_start_beat phrase)
       (pi_end_beat phrase) (pi_role_id phrase)) (pi_loop_strategy phrase).

Definition restore (head target : LumiPhraseTimeline) (reason : TimelineRevisionReason) :
    result LumiPhraseTimeline TimelineEditError :=
  if negb (lpt_track_id head =? lpt_track_id target)
     || negb (lpt_total_beats head =? lpt_total_beats target)
  then Err TEIncompatibleRevision
  else if negb (restores reason) then Err TEInvalidRestoreReason
  else
    let? next_revision := ok_or (TimelineRevision_checked_next (lpt_revision head))
                            TERevisionOverflow in
    let phrases := imap restored_phrase (lpt_phrases target) in
    map_err TEInvalidResult
      (try_new_with_history (lpt_track_id head) next_revision (lpt_baseline_revision head)
         (lpt_total_beats head) OriginRevisionRestore reason (Some (lpt_revision head))
         (Some (lpt_revision target)) phrases).
