(* ===== verification/PhraseTimelineProps.v ===== *)
(** * Properties of the phrase timeline

    An edit of a timeline is specified by what it does to each beat of the track:
    [edited_label] gives the role and loop strategy every beat has after a
    command.  The list surgery of [apply_edit] refines that specification and
    keeps the partition of the track, so a revision is never refused for a gap. *)

From stdpp Require Import prelude list gmap strings.
From Stdlib Require Import ZArith Lia.
From S2P Require Import Prelude.
From S2P Require Import Track.
From S2P Require Import PhraseTimeline.
Open Scope Z_scope.

(** ** Lists with a distinguished element *)

Lemma split_at_one {A} (l : list A) i x :
  l !! i = Some x → ∃ l1 l2, l = l1 ++ x :: l2 ∧ length l1 = i.
Proof.
  intros Hi. exists (take i l), (drop (S i) l). split; [by rewrite take_drop_middle|].
  apply length_take_le. apply lookup_lt_Some in Hi. lia.
Qed.

Lemma split_at_two {A} (l : list A) i x y :
  l !! i = Some x → l !! S i = Some y → ∃ l1 l2, l = l1 ++ x :: y :: l2 ∧ length l1 = i.
Proof.
  intros (l1 & l2 & -> & <-)%split_at_one Hy. rewrite lookup_app_r in Hy by lia.
  replace (S (length l1) - length l1)%nat with 1%nat in Hy by lia.
  destruct l2 as [|y' l2]; simplify_eq/=. by exists l1, l2.
Qed.

Lemma insert_middle {A} (l1 l2 : list A) x y : <[length l1 := y]> (l1 ++ x :: l2) = l1 ++ y :: l2.
Proof. rewrite <- (Nat.add_0_r (length l1)). by rewrite insert_app_r. Qed.

Lemma insert_second {A} (l1 l2 : list A) x y z :
  <[S (length l1) := z]> (l1 ++ x :: y :: l2) = l1 ++ x :: z :: l2.
Proof. rewrite <- Nat.add_1_r. by rewrite insert_app_r. Qed.

Lemma delete_second {A} (l1 l2 : list A) x y :
  delete (S (length l1)) (l1 ++ x :: y :: l2) = l1 ++ x :: l2.
Proof.
  replace (S (length l1)) with (length (l1 ++ [x])) by (rewrite length_app; simpl; lia).
  rewrite (cons_middle x l1 (y :: l2)), app_assoc, delete_middle. by rewrite <- app_assoc.
Qed.

(** ** What each beat of a timeline carries *)

Definition phrase_label (p : PhraseInstance) : PhraseRoleId * PhraseLoopStrategy :=
  (pi_role_id p, pi_loop_strategy p).

Definition label_at (phrases : list PhraseInstance) (beat : Z) :
    option (PhraseRoleId * PhraseLoopStrategy) :=
  phrase_label <$> List.find (covers beat) phrases.

(** The beat belongs to the phrase at an index. *)
Definition in_phrase (phrases : list PhraseInstance) (index beat : Z) : bool :=
  match phrases !! Z.to_nat index with Some p => covers beat p | None => false end.

Definition label_of (phrases : list PhraseInstance) (index : Z) :
    option (PhraseRoleId * PhraseLoopStrategy) :=
  phrase_label <$> phrases !! Z.to_nat index.

Definition role_of (phrases : list PhraseInstance) (index : Z) : option PhraseRoleId :=
  pi_role_id <$> phrases !! Z.to_nat index.

(** The specification of an edit: the label of a beat after a command. *)
Definition edited_label (phrases : list PhraseInstance) (command : TimelineEditCommand)
    (beat : Z) : option (PhraseRoleId * PhraseLoopStrategy) :=
  match command with
  | CmdCreate start_beat end_beat role =>
      if (start_beat <=? beat) && (beat <? end_beat) then Some (role, StrategyAuto)
      else label_at phrases beat
  | CmdSplit i at_beat =>
      if in_phrase phrases i beat && (at_beat <=? beat)
      then (λ role, (role, StrategyAuto)) <$> role_of phrases i else label_at phrases beat
  | CmdMergePrevious i =>
      if in_phrase phrases (i - 1) beat then label_of phrases i else label_at phrases beat
  | CmdMergeNext i =>
      if in_phrase phrases (i + 1) beat then label_of phrases i else label_at phrases beat
  | CmdMoveBoundary i to_beat =>
      if in_phrase phrases i beat || in_phrase phrases (i + 1) beat
      then if beat <? to_beat then label_of phrases i else label_of phrases (i + 1)
      else label_at phrases beat
  | CmdDelete i AbsorbPrevious =>
      if in_phrase phrases i beat then label_of phrases (i - 1) else label_at phrases beat
  | CmdDelete i AbsorbNext =>
      if in_phrase phrases i beat then label_of phrases (i + 1) else label_at phrases beat
  | CmdChangeRole i role =>
      if in_phrase phrases i beat then Some (role, StrategyAuto) else label_at phrases beat
  | CmdSetLoopStrategy i strategy =>
      if in_phrase phrases i beat then (λ role, (role, strategy)) <$> role_of phrases i
      else label_at phrases beat
  end.

Lemma find_app {A} (f : A → bool) l1 l2 :
  List.find f (l1 ++ l2) = match List.find f l1 with Some x => Some x | None => List.find f l2 end.
Proof. induction l1 as [|x l1 IH]; simpl; [done|]. by destruct (f x). Qed.

Lemma find_tiles_outside (l : list PhraseInstance) s e b :
  tiles s l e → ~ (s ≤ b < e) → List.find (covers b) l = None.
Proof.
  intros Ht Hb. destruct (List.find (covers b) l) as [x|] eqn:E; [|done].
  apply List.find_some in E as [Hin%list_elem_of_In Hc].
  destruct Hb. by eapply tiles_covered_bounds.
Qed.

(** Replacing a contiguous group of phrases by others over the same range. *)
Definition same_range (mid mid' : list PhraseInstance) : Prop :=
  ∀ a c, tiles a mid c → tiles a mid' c.

Lemma splice_tiles l1 mid mid' l2 total :
  tiles 0 (l1 ++ mid ++ l2) total → same_range mid mid' → tiles 0 (l1 ++ mid' ++ l2) total.
Proof. rewrite !tiles_app. setoid_rewrite tiles_app. intros (a & ? & c & Hm & ?) Hr. eauto 6. Qed.

Lemma label_at_middle l1 mid l2 total b a c :
  tiles 0 l1 a → tiles a mid c → tiles c l2 total →
  label_at (l1 ++ mid ++ l2) b =
  if (a <=? b) && (b <? c) then label_at mid b
  else match label_at l1 b with Some x => Some x | None => label_at l2 b end.
Proof.
  intros H1 Hm H2. unfold label_at. rewrite !find_app.
  destruct (Z.leb_spec a b); destruct (Z.ltb_spec b c); simpl.
  - rewrite (find_tiles_outside l1 0 a) by (done || lia).
    rewrite (find_tiles_outside l2 c total) by (done || lia).
    by destruct (List.find (covers b) mid).
  - rewrite (find_tiles_outside mid a c) by (done || lia). by destruct (List.find (covers b) l1).
  - rewrite (find_tiles_outside mid a c) by (done || lia). by destruct (List.find (covers b) l1).
  - rewrite (find_tiles_outside mid a c) by (done || lia). by destruct (List.find (covers b) l1).
Qed.

(** Decides goals about the beats covered by a few explicit phrases. *)
Ltac solve_beats :=
  unfold covers; simpl;
  repeat match goal with
  | |- context [?a <=? ?b] => destruct (Z.leb_spec a b)
  | |- context [?a <? ?b] => destruct (Z.ltb_spec a b)
  end; simpl; first [reflexivity | exfalso; lia].

(** ** The edits other than Create are local *)

Record local_edit (phrases phrases' : list PhraseInstance) (spec : Z → option (PhraseRoleId * PhraseLoopStrategy)) : Prop := {
  le_tiles : ∀ total, tiles 0 phrases total → tiles 0 phrases' total;
  le_labels : ∀ total b, tiles 0 phrases total → label_at phrases' b = spec b;
}.

Lemma local_edit_intro phrases l1 mid mid' l2 spec :
  phrases = l1 ++ mid ++ l2 → same_range mid mid' →
  (∀ a c b, tiles a mid c → a ≤ b < c → label_at phrases b = label_at mid b →
     label_at mid' b = spec b) →
  (∀ a c b, tiles a mid c → ~ (a ≤ b < c) → spec b = label_at phrases b) →
  local_edit phrases (l1 ++ mid' ++ l2) spec.
Proof.
  intros Hp Hr Hin Hout. split.
  - intros total. rewrite Hp. intros. by eapply splice_tiles.
  - intros total b Ht. rewrite Hp in Ht. apply tiles_app in Ht as (a & H1 & (c & Hm & H2)%tiles_app).
    pose proof (label_at_middle _ _ _ _ b _ _ H1 Hm H2) as Hold. rewrite <- Hp in Hold.
    rewrite (label_at_middle _ _ _ _ b _ _ H1 (Hr _ _ Hm) H2).
    destruct (Z.leb_spec a b); destruct (Z.ltb_spec b c); simpl in *.
    1: by eapply Hin.
    all: rewrite (Hout _ _ b Hm) by lia; by rewrite Hold.
Qed.

Lemma phrase_index_index_Ok i phrases n p :
  phrase_index_index i phrases = Ok (n, p) → n = Z.to_nat i ∧ phrases !! Z.to_nat i = Some p.
Proof. unfold phrase_index_index. case_match; [|done]. by intros [= <- <-]. Qed.

Section LocalEdits.
Variables (phrases phrases' : list PhraseInstance) (i : Z).
Hypothesis Hi : 0 ≤ i.

Lemma to_nat_next : Z.to_nat (i + 1) = S (Z.to_nat i).
Proof. lia. Qed.

Lemma to_nat_previous n : Z.to_nat i = S n → Z.to_nat (i - 1) = n.
Proof. lia. Qed.

Lemma local_split at_beat :
  edit_split phrases i at_beat = Ok phrases' →
  local_edit phrases phrases' (edited_label phrases (CmdSplit i at_beat)).
Proof.
  unfold edit_split. intros Hr. unbind Hr. destruct v as [n p].
  apply phrase_index_index_Ok in E as [-> Hp].
  destruct (Z.leb_spec at_beat (pi_start_beat p)); [done|].
  destruct (Z.leb_spec (pi_end_beat p) at_beat); [done|]. injection Hr as <-.
  destruct (split_at_one _ _ _ Hp) as (l1 & l2 & Hs & Hl).
  set (p1 := with_range p (pi_start_beat p) at_beat).
  set (p2 := PhraseInstance_new 0 at_beat (pi_end_beat p) (pi_role_id p)).
  assert (<[Z.to_nat i := p1]> phrases = (l1 ++ [p1]) ++ l2) as ->
    by (rewrite Hs, <- Hl, insert_middle, <- app_assoc; done).
  replace (Z.to_nat i + 1)%nat with (length (l1 ++ [p1])) by (rewrite length_app; simpl; lia).
  rewrite take_app_length, drop_app_length, <- app_assoc.
  apply (local_edit_intro _ l1 [p] [p1; p2] l2); [done|..].
  - intros a c (? & ? & ?). simpl in *. lia.
  - intros a c b (? & ? & ?) ? Hold. unfold edited_label, in_phrase, role_of. rewrite Hp, Hold.
    unfold label_at. simpl in *. solve_beats.
  - intros a c b (? & ? & ?) ?. unfold edited_label, in_phrase. rewrite Hp. simpl in *. solve_beats.
Qed.

Lemma local_merge_previous :
  edit_merge_previous phrases i = Ok phrases' →
  local_edit phrases phrases' (edited_label phrases (CmdMergePrevious i)).
Proof.
  unfold edit_merge_previous. intros Hr. unbind Hr. destruct v as [n q].
  apply phrase_index_index_Ok in E as [-> Hq]. destruct (Z.to_nat i) as [|n] eqn:Hn; [done|].
  unbind Hr. injection Hr as <-. rename v into p, E into Hp.
  destruct (split_at_two _ _ _ _ Hp Hq) as (l1 & l2 & Hs & Hl).
  set (q' := with_range q (pi_start_beat p) (pi_end_beat q)).
  assert (delete n (<[S n := q']> phrases) = l1 ++ [q'] ++ l2) as ->
    by (rewrite Hs, <- Hl, insert_second, delete_middle; done).
  apply (local_edit_intro _ l1 [p; q] [q'] l2); [done|..];
    unfold edited_label, in_phrase, label_of; rewrite ?(to_nat_previous _ Hn), ?Hn, ?Hp, ?Hq.
  - intros a c (? & ? & ? & ? & ?). simpl in *. lia.
  - intros a c b (? & ? & ? & ? & ?) ? ->. unfold label_at. simpl in *. solve_beats.
  - intros a c b (? & ? & ? & ? & ?) ?. simpl in *. solve_beats.
Qed.

Lemma local_merge_next :
  edit_merge_next phrases i = Ok phrases' →
  local_edit phrases phrases' (edited_label phrases (CmdMergeNext i)).
Proof.
  unfold edit_merge_next. intros Hr. unbind Hr. destruct v as [n p].
  apply phrase_index_index_Ok in E as [-> Hp]. unbind Hr. injection Hr as <-.
  rename v into q, E into Hq. rewrite Nat.add_1_r in *.
  destruct (split_at_two _ _ _ _ Hp Hq) as (l1 & l2 & Hs & Hl).
  set (p' := with_range p (pi_start_beat p) (pi_end_beat q)).
  assert (delete (S (Z.to_nat i)) (<[Z.to_nat i := p']> phrases) = l1 ++ [p'] ++ l2) as ->
    by (rewrite Hs, <- Hl, insert_middle, delete_second; done).
  apply (local_edit_intro _ l1 [p; q] [p'] l2); [done|..];
    unfold edited_label, in_phrase, label_of; rewrite ?to_nat_next, ?Hp, ?Hq.
  - intros a c (? & ? & ? & ? & ?). simpl in *. lia.
  - intros a c b (? & ? & ? & ? & ?) ? ->. unfold label_at. simpl in *. solve_beats.
  - intros a c b (? & ? & ? & ? & ?) ?. simpl in *. solve_beats.
Qed.

Lemma local_move_boundary to_beat :
  edit_move_boundary phrases i to_beat = Ok phrases' →
  local_edit phrases phrases' (edited_label phrases (CmdMoveBoundary i to_beat)).
Proof.
  unfold edit_move_boundary. intros Hr. unbind Hr. destruct v as [n p].
  apply phrase_index_index_Ok in E as [-> Hp]. unbind Hr.
  rename v into q, E into Hq. rewrite Nat.add_1_r in *.
  destruct (Z.leb_spec to_beat (pi_start_beat p)); [done|].
  destruct (Z.leb_spec (pi_end_beat q) to_beat); [done|]. injection Hr as <-.
  destruct (split_at_two _ _ _ _ Hp Hq) as (l1 & l2 & Hs & Hl).
  set (p' := with_range p (pi_start_beat p) to_beat).
  set (q' := with_range q to_beat (pi_end_beat q)).
  assert (<[S (Z.to_nat i) := q']> (<[Z.to_nat i := p']> phrases) = l1 ++ [p'; q'] ++ l2) as ->
    by (rewrite Hs, <- Hl, insert_middle, insert_second; done).
  apply (local_edit_intro _ l1 [p; q] [p'; q'] l2); [done|..];
    unfold edited_label, in_phrase, label_of; rewrite ?to_nat_next, ?Hp, ?Hq.
  - intros a c (? & ? & ? & ? & ?). simpl in *. lia.
  - intros a c b (? & ? & ? & ? & ?) ? ->. unfold label_at. simpl in *. solve_beats.
  - intros a c b (? & ? & ? & ? & ?) ?. simpl in *. solve_beats.
Qed.

Lemma local_delete absorb :
  edit_delete phrases i absorb = Ok phrases' →
  local_edit phrases phrases' (edited_label phrases (CmdDelete i absorb)).
Proof.
  unfold edit_delete. intros Hr. unbind Hr. destruct v as [n x].
  apply phrase_index_index_Ok in E as [-> Hx]. case_bool_decide; [done|]. destruct absorb.
  - destruct (Z.to_nat i) as [|n] eqn:Hn; [done|]. unbind Hr. injection Hr as <-.
    rename v into p, E into Hp. destruct (split_at_two _ _ _ _ Hp Hx) as (l1 & l2 & Hs & Hl).
    set (p' := with_range p (pi_start_beat p) (pi_end_beat x)).
    assert (delete (S n) (<[n := p']> phrases) = l1 ++ [p'] ++ l2) as ->
      by (rewrite Hs, <- Hl, insert_middle, delete_second; done).
    apply (local_edit_intro _ l1 [p; x] [p'] l2); [done|..];
      unfold edited_label, in_phrase, label_of; rewrite ?(to_nat_previous _ Hn), ?Hn, ?Hp, ?Hx.
    + intros a c (? & ? & ? & ? & ?). simpl in *. lia.
    + intros a c b (? & ? & ? & ? & ?) ? ->. unfold label_at. simpl in *. solve_beats.
    + intros a c b (? & ? & ? & ? & ?) ?. simpl in *. solve_beats.
  - unbind Hr. injection Hr as <-. rename v into q, E into Hq. rewrite Nat.add_1_r in *.
    destruct (split_at_two _ _ _ _ Hx Hq) as (l1 & l2 & Hs & Hl).
    set (q' := with_range q (pi_start_beat x) (pi_end_beat q)).
    assert (delete (Z.to_nat i) (<[S (Z.to_nat i) := q']> phrases) = l1 ++ [q'] ++ l2) as ->
      by (rewrite Hs, <- Hl, insert_second, delete_middle; done).
    apply (local_edit_intro _ l1 [x; q] [q'] l2); [done|..];
      unfold edited_label, in_phrase, label_of; rewrite ?to_nat_next, ?Hq, ?Hx.
    + intros a c (? & ? & ? & ? & ?). simpl in *. lia.
    + intros a c b (? & ? & ? & ? & ?) ? ->. unfold label_at. simpl in *. solve_beats.
    + intros a c b (? & ? & ? & ? & ?) ?. simpl in *. solve_beats.
Qed.

(** Replacing one phrase by another over the same range. *)
Lemma local_replace p p' spec :
  phrases !! Z.to_nat i = Some p →
  pi_start_beat p' = pi_start_beat p → pi_end_beat p' = pi_end_beat p →
  (∀ b, spec b = if in_phrase phrases i b then Some (phrase_label p') else label_at phrases b) →
  local_edit phrases (<[Z.to_nat i := p']> phrases) spec.
Proof.
  intros Hp Hsb Heb Hspec. destruct (split_at_one _ _ _ Hp) as (l1 & l2 & Hs & Hl).
  assert (<[Z.to_nat i := p']> phrases = l1 ++ [p'] ++ l2) as ->
    by (rewrite Hs, <- Hl, insert_middle; done).
  unfold in_phrase in Hspec. rewrite Hp in Hspec.
  apply (local_edit_intro _ l1 [p] [p'] l2); [done|..].
  - intros a c (? & ? & ?). simpl in *. lia.
  - intros a c b (? & ? & ?) ? ?. rewrite Hspec. unfold label_at. simpl in *. solve_beats.
  - intros a c b (? & ? & ?) ?. rewrite Hspec. simpl in *. solve_beats.
Qed.

Lemma local_change_role role :
  edit_change_role phrases i role = Ok phrases' →
  local_edit phrases phrases' (edited_label phrases (CmdChangeRole i role)).
Proof.
  unfold edit_change_role. intros Hr. unbind Hr. destruct v as [n p].
  apply phrase_index_index_Ok in E as [-> Hp]. case_bool_decide; [done|]. injection Hr as <-.
  by eapply local_replace.
Qed.

Lemma local_set_loop_strategy strategy :
  edit_set_loop_strategy phrases i strategy = Ok phrases' →
  local_edit phrases phrases' (edited_label phrases (CmdSetLoopStrategy i strategy)).
Proof.
  unfold edit_set_loop_strategy. intros Hr. unbind Hr. destruct v as [n p].
  apply phrase_index_index_Ok in E as [-> Hp]. case_bool_decide; [done|]. injection Hr as <-.
  eapply local_replace; [done..|]. intros b. simpl. unfold role_of. by rewrite Hp.
Qed.
End LocalEdits.

(** ** Create *)

Section Create.
Variables (start_beat end_beat : Z) (role : PhraseRoleId) (phrases : list PhraseInstance).
Hypothesis Hrange : 0 ≤ start_beat < end_beat.

Definition create_spec (b : Z) := edited_label phrases (CmdCreate start_beat end_beat role) b.

(** The phrases collected so far are right up to a beat. *)
Definition right_up_to (acc : list PhraseInstance) (k : Z) : Prop :=
  tiles 0 acc k ∧ ∀ b, 0 ≤ b < k → label_at acc b = create_spec b.

Lemma right_up_to_snoc acc k x :
  right_up_to acc k → pi_start_beat x = k → k < pi_end_beat x →
  (∀ b, k ≤ b < pi_end_beat x → Some (phrase_label x) = create_spec b) →
  right_up_to (acc ++ [x]) (pi_end_beat x).
Proof.
  intros [Ht Hl] Hs He Hx. split.
  - apply tiles_app. exists k. split; [done|]. by simpl.
  - intros b Hb. unfold label_at. rewrite find_app.
    destruct (decide (b < k)).
    + rewrite <- Hl by lia. unfold label_at.
      destruct (List.find (covers b) acc) as [y|] eqn:Hy; [done|]. exfalso.
      destruct (tiles_cover _ _ _ b Ht) as (j & y & Hj & Hc); [lia|].
      apply list_elem_of_lookup_2, list_elem_of_In in Hj.
      by rewrite (List.find_none _ _ Hy _ Hj) in Hc.
    + rewrite (find_tiles_outside acc 0 k) by (done || lia). simpl.
      assert (covers b x = true) as -> by (apply covers_spec; simpl; lia). simpl.
      apply Hx. lia.
Qed.

Lemma tiles_last_end l s e :
  tiles s l e → match last l with Some x => pi_end_beat x | None => s end = e.
Proof.
  revert s. induction l as [|x l IH]; intros s; [done|]. intros (_ & _ & Ht).
  specialize (IH _ Ht). destruct l as [|y l]; [done|]. rewrite last_cons_cons.
  destruct (last (y :: l)) eqn:Hl; [done|]. by apply last_None in Hl.
Qed.

(** How far the collected phrases reach after the source was read up to [m]. *)
Definition reach (m : Z) : Z := if m <=? start_beat then m else Z.max m end_beat.

Lemma create_step_right acc m p :
  0 ≤ m → right_up_to acc (reach m) → pi_start_beat p = m → m < pi_end_beat p →
  (∀ b, m ≤ b < pi_end_beat p → label_at phrases b = Some (phrase_label p)) →
  right_up_to (create_step start_beat end_beat role acc p) (reach (pi_end_beat p)).
Proof.
  intros Hm Hacc Hs He Hold. unfold create_step. rewrite Hs.
  assert (∀ b x, m ≤ b < pi_end_beat p → ~ (start_beat ≤ b < end_beat) →
    phrase_label x = phrase_label p → Some (phrase_label x) = create_spec b) as Hkeep.
  { intros b x Hb Hout ->. unfold create_spec. simpl. rewrite <- (Hold b Hb).
    destruct (Z.leb_spec start_beat b); destruct (Z.ltb_spec b end_beat); simpl; done || lia. }
  assert (∀ b, start_beat ≤ b < end_beat →
    Some (phrase_label (PhraseInstance_new 0 start_beat end_beat role)) = create_spec b) as Hnew.
  { intros b Hb. unfold create_spec. simpl.
    by rewrite (proj2 (Z.leb_le _ _)), (proj2 (Z.ltb_lt _ _)) by lia. }
  unfold reach in *. destruct (Z.leb_spec (pi_end_beat p) start_beat); simpl.
  { rewrite (proj2 (Z.leb_le m _)) in Hacc by lia.
    eapply right_up_to_snoc; [exact Hacc|done|done|]. intros b Hb. apply Hkeep; done || lia. }
  destruct (Z.leb_spec end_beat m).
  { rewrite (proj2 (Z.leb_gt m _)), Z.max_l in Hacc by lia. rewrite Z.max_l by lia.
    eapply right_up_to_snoc; [exact Hacc|done|done|]. intros b Hb. apply Hkeep; done || lia. }
  assert (∀ acc', right_up_to acc' end_beat →
    right_up_to (if end_beat <? pi_end_beat p
                 then acc' ++ [with_range p end_beat (pi_end_beat p)] else acc')
      (Z.max (pi_end_beat p) end_beat)) as Htail.
  { intros acc' Hacc'. destruct (Z.ltb_spec end_beat (pi_end_beat p)).
    - rewrite Z.max_l by lia. eapply (right_up_to_snoc _ _ (with_range p end_beat (pi_end_beat p)));
        [exact Hacc'|done|done|]. intros b Hb. simpl in Hb. apply Hkeep; done || lia.
    - by rewrite Z.max_r by lia. }
  assert (∀ acc', right_up_to acc' start_beat →
    right_up_to (acc' ++ [PhraseInstance_new 0 start_beat end_beat role]) end_beat) as Hpush.
  { intros acc' Hacc'. eapply (right_up_to_snoc _ _ (PhraseInstance_new 0 start_beat end_beat role));
      [exact Hacc'|done|simpl; lia|exact Hnew]. }
  apply Htail. destruct (Z.ltb_spec m start_beat).
  - rewrite last_snoc. simpl. rewrite Z.leb_refl. apply Hpush.
    rewrite (proj2 (Z.leb_le m _)) in Hacc by lia.
    eapply (right_up_to_snoc _ _ (with_range p m start_beat)); [exact Hacc|done|done|].
    intros b Hb. simpl in Hb. apply Hkeep; done || lia.
  - destruct (Z.leb_spec m start_beat) as [Hle|Hgt].
    + assert (m = start_beat) as -> by lia. pose proof (tiles_last_end _ _ _ (proj1 Hacc)) as Hend.
      destruct (last acc) as [x|]; [rewrite Hend, Z.leb_refl|]; by apply Hpush.
    + rewrite Z.max_r in Hacc by lia. pose proof (tiles_last_end _ _ _ (proj1 Hacc)) as Hend.
      destruct (last acc) as [x|]; [|lia]. rewrite Hend. by rewrite (proj2 (Z.leb_gt _ _)) by lia.
Qed.

Lemma create_right total :
  tiles 0 phrases total → end_beat ≤ total →
  right_up_to (foldl (create_step start_beat end_beat role) [] phrases) total.
Proof.
  intros Ht Htotal.
  enough (∀ pre rest acc m, phrases = pre ++ rest → tiles 0 pre m → tiles m rest total →
    right_up_to acc (reach m) →
    right_up_to (foldl (create_step start_beat end_beat role) acc rest) total) as Hgen.
  { apply (Hgen [] phrases [] 0); [done|done|done|]. unfold reach.
    rewrite (proj2 (Z.leb_le _ _)) by lia. split; [done|]. lia. }
  intros pre rest. revert pre. induction rest as [|p rest IH]; intros pre acc m Hp Hpre Hrest Hacc.
  - simpl in *. subst m. unfold reach in Hacc. rewrite (proj2 (Z.leb_gt _ _)) in Hacc by lia.
    by rewrite Z.max_l in Hacc by lia.
  - simpl in Hrest. destruct Hrest as (Hs & He & Hrest). simpl.
    apply (IH (pre ++ [p]) _ (pi_end_beat p)); [by rewrite <- app_assoc| |done|].
    + apply tiles_app. exists m. by simpl.
    + eapply create_step_right; [by apply tiles_le in Hpre|done|done|done|].
      intros b Hb. unfold label_at. rewrite Hp, find_app.
      rewrite (find_tiles_outside pre 0 m) by (done || lia). simpl.
      by assert (covers b p = true) as -> by (apply covers_spec; simpl; lia).
Qed.
End Create.

(** ** The timeline invariant *)

Definition strategies_ok (phrases : list PhraseInstance) : Prop :=
  Forall (λ p, strategy_invalid (pi_loop_strategy p) = false) phrases.

Record timeline_wf (t : LumiPhraseTimeline) : Prop := {
  tw_track : lpt_track_id t ≠ 0;
  tw_total : lpt_total_beats t ≠ 0;
  tw_nonempty : lpt_phrases t ≠ [];
  tw_indexed : indexed 0 (lpt_phrases t);
  tw_tiles : tiles 0 (lpt_phrases t) (lpt_total_beats t);
  tw_strategies : strategies_ok (lpt_phrases t);
  tw_parent : ∀ r, lpt_parent_revision t = Some r → r < lpt_revision t;
  tw_restored : ∀ r, lpt_restored_from t = Some r → r < lpt_revision t;
}.

(** The beats and indexes of commands are unsigned. *)
Definition command_wf (command : TimelineEditCommand) : Prop :=
  match command with
  | CmdCreate start_beat end_beat _ => 0 ≤ start_beat ∧ 0 ≤ end_beat
  | CmdSplit i _ | CmdMergePrevious i | CmdMergeNext i | CmdMoveBoundary i _
  | CmdDelete i _ | CmdChangeRole i _ | CmdSetLoopStrategy i _ => 0 ≤ i
  end.

Lemma not_earlier_false reference revision :
  not_earlier reference revision = false ↔ ∀ r, reference = Some r → r < revision.
Proof.
  destruct reference as [r|]; simpl; [rewrite Z.leb_gt|]; naive_solver.
Qed.

Lemma validate_phrases_spec l : ∀ n prev total fin,
  validate_phrases n prev total l = Ok fin ∧ fin = total ↔
  indexed n l ∧ tiles prev l total ∧ strategies_ok l ∧ fin = total.
Proof.
  induction l as [|p l IH]; intros n prev total fin; simpl.
  - split; [intros [[= <-] ->]; repeat split; constructor|]. naive_solver.
  - destruct (Z.eqb_spec (pi_index p) n); simpl; [|naive_solver].
    destruct (Z.eqb_spec (pi_start_beat p) prev); simpl; [|naive_solver].
    destruct (Z.leb_spec (pi_end_beat p) (pi_start_beat p)); simpl; [naive_solver lia|].
    destruct (Z.ltb_spec total (pi_end_beat p)).
    { split; [naive_solver|]. intros (_ & (_ & _ & Ht%tiles_le) & _). simpl in Ht. lia. }
    unfold strategies_ok. rewrite Forall_cons.
    destruct (strategy_invalid (pi_loop_strategy p)) eqn:Hs; [naive_solver|].
    rewrite IH. unfold strategies_ok. split; [|tauto].
    intros (? & ? & ? & ?). repeat split; auto; lia.
Qed.

Lemma timeline_constructor_iff track rev base total origin reason parent restored phrases t :
  try_new_with_history track rev base total origin reason parent restored phrases = Ok t ↔
  t = mkLumiPhraseTimeline track rev base total origin reason parent restored phrases ∧ timeline_wf t.
Proof.
  unfold try_new_with_history. split.
  - intros H. repeat (case_match; [done|]). rewrite !Z.eqb_neq in *.
    apply orb_false_iff in H3 as [Hp Hr]. rewrite not_earlier_false in Hp, Hr.
    rewrite bool_decide_eq_false in *.
    apply result_bind_Ok in H as (fin & Hv & H). destruct (Z.eqb_spec fin total) as [He|]; [|done].
    destruct (proj1 (validate_phrases_spec _ _ _ _ _) (conj Hv He)) as (? & ? & ? & _).
    injection H as <-. split; [done|]. by split.
  - intros [-> [? ? ? ? ? ? Hp Hr]]; simpl in *.
    rewrite !(proj2 (Z.eqb_neq _ _)) by done. rewrite bool_decide_false by done.
    rewrite (proj2 (not_earlier_false _ _) Hp), (proj2 (not_earlier_false _ _) Hr). simpl.
    destruct (proj2 (validate_phrases_spec phrases 0 0 total total)) as [-> _]; [done|]. simpl.
    by rewrite Z.eqb_refl.
Qed.

(** ** Reindexing *)

Definition same_phrase (p p' : PhraseInstance) : Prop :=
  pi_start_beat p' = pi_start_beat p ∧ pi_end_beat p' = pi_end_beat p ∧
  phrase_label p' = phrase_label p.

Lemma reindex_from_Ok l : ∀ n l',
  reindex_from n l = Ok l' → Forall2 same_phrase l l' ∧ indexed n l'.
Proof.
  induction l as [|p l IH]; intros n l'; simpl; [by intros [= <-]|].
  destruct (U16_MAX <? n); [done|]. intros H. unbind H. injection H as <-.
  apply IH in E as [? ?]. split; [by constructor|done].
Qed.

Lemma same_phrases_tiles l l' s e : Forall2 same_phrase l l' → tiles s l e → tiles s l' e.
Proof.
  intros Hf. revert s. induction Hf as [|p p' l l' (Hs & He & _) _ IH]; intros s; simpl; [done|].
  rewrite Hs, He. intros (? & ? & ?). auto.
Qed.

Lemma same_phrases_labels l l' b : Forall2 same_phrase l l' → label_at l' b = label_at l b.
Proof.
  unfold label_at. induction 1 as [|p p' l l' (Hs & He & Hl) _ IH]; simpl; [done|].
  assert (covers b p' = covers b p) as -> by (unfold covers; simpl; congruence).
  destruct (covers b p); simpl; [by rewrite Hl|done].
Qed.

Lemma same_phrases_strategies l l' :
  Forall2 same_phrase l l' → strategies_ok l → strategies_ok l'.
Proof.
  induction 1 as [|p p' l l' (_ & _ & Hl) _ IH]; intros Hs; [done|].
  apply Forall_cons in Hs as [? ?]. constructor; [|by apply IH].
  injection Hl as _ Hl. congruence.
Qed.

(** Only the strategy given to SetLoopStrategy can be invalid. *)
Definition command_strategy_ok (command : TimelineEditCommand) : Prop :=
  match command with
  | CmdSetLoopStrategy _ strategy => strategy_invalid strategy = false
  | _ => True
  end.

Lemma create_step_strategies s e role acc p :
  strategies_ok acc → strategy_invalid (pi_loop_strategy p) = false →
  strategies_ok (create_step s e role acc p).
Proof.
  intros Hacc Hp. unfold create_step, strategies_ok.
  assert (∀ l x, strategies_ok l → strategy_invalid (pi_loop_strategy x) = false →
    strategies_ok (l ++ [x])) as Hsnoc by (intros; apply Forall_app; auto).
  assert (∀ l (c : bool) x, strategies_ok l → strategy_invalid (pi_loop_strategy x) = false →
    strategies_ok (if c then l ++ [x] else l)) as Hif by (intros l [] x ? ?; auto).
  destruct (_ || _); [by apply Hsnoc|]. repeat apply Hif; done.
Qed.

Lemma arm_strategies phrases total command phrases' :
  strategies_ok phrases → command_strategy_ok command →
  apply_edit phrases total command = Ok phrases' → strategies_ok phrases'.
Proof.
  unfold apply_edit. intros Hok Hcmd Hr. apply result_bind_Ok in Hr as (new & Hnew & Hr).
  apply reindex_from_Ok in Hr as [Hsame _]. eapply same_phrases_strategies; [exact Hsame|]. clear Hsame.
  assert (∀ i p, phrases !! i = Some p → strategy_invalid (pi_loop_strategy p) = false) as Hl
    by (intros i p Hi; exact (proj1 (Forall_lookup _ _) Hok _ _ Hi)).
  assert (∀ i n p, phrase_index_index i phrases = Ok (n, p) →
    strategy_invalid (pi_loop_strategy p) = false) as Hx
    by (intros i n p [_ ?]%phrase_index_index_Ok; eauto).
  unfold strategies_ok in *.
  destruct command; simpl in *.
  - unfold edit_create in Hnew. destruct (_ || _); [done|]. injection Hnew as <-.
    assert (strategies_ok []) as Hnil by constructor. revert Hnil. generalize (@nil PhraseInstance).
    clear Hl Hx. induction Hok as [|p l Hp _ IH]; intros acc Hacc; simpl; [done|].
    apply IH. by apply create_step_strategies.
  - unfold edit_split in Hnew. unbind Hnew. destruct v. destruct (_ || _); [done|].
    injection Hnew as <-. rewrite Forall_app, Forall_cons.
    split_and!; [apply Forall_take|done|apply Forall_drop]; apply Forall_insert; simpl; eauto.
  - unfold edit_merge_previous in Hnew. unbind Hnew. destruct v as [[|n] p]; [done|]. unbind Hnew.
    injection Hnew as <-. apply Forall_delete, Forall_insert; simpl; eauto.
  - unfold edit_merge_next in Hnew. unbind Hnew. destruct v as [n p]. unbind Hnew.
    injection Hnew as <-. apply Forall_delete, Forall_insert; simpl; eauto.
  - unfold edit_move_boundary in Hnew. unbind Hnew. destruct v as [n p]. unbind Hnew.
    destruct (_ || _); [done|]. injection Hnew as <-. repeat apply Forall_insert; simpl; eauto.
  - unfold edit_delete in Hnew. unbind Hnew. destruct v as [n p]. case_bool_decide; [done|].
    destruct absorb_into; [destruct n; [done|]|]; unbind Hnew; injection Hnew as <-;
      apply Forall_delete, Forall_insert; simpl; eauto.
  - unfold edit_change_role in Hnew. unbind Hnew. destruct v as [n p]. case_bool_decide; [done|].
    injection Hnew as <-. by apply Forall_insert.
  - unfold edit_set_loop_strategy in Hnew. unbind Hnew. destruct v as [n p].
    case_bool_decide; [done|]. injection Hnew as <-. by apply Forall_insert.
Qed.

(** ** Edits *)

(** Every command keeps the partition and realises its specification. *)
Lemma apply_edit_right phrases total command phrases' :
  tiles 0 phrases total → command_wf command →
  apply_edit phrases total command = Ok phrases' →
  tiles 0 phrases' total ∧ indexed 0 phrases' ∧
  ∀ b, 0 ≤ b < total → label_at phrases' b = edited_label phrases command b.
Proof.
  unfold apply_edit. intros Ht Hcmd Hr. apply result_bind_Ok in Hr as (new & Hnew & Hr).
  apply reindex_from_Ok in Hr as [Hsame Hix].
  enough (tiles 0 new total ∧ ∀ b, 0 ≤ b < total → label_at new b = edited_label phrases command b)
    as [? Hl].
  { split; [by eapply same_phrases_tiles|]. split; [done|]. intros b Hb.
    by rewrite (same_phrases_labels _ _ _ Hsame), Hl. }
  assert (∀ spec, local_edit phrases new spec →
    tiles 0 new total ∧ ∀ b, 0 ≤ b < total → label_at new b = spec b) as Hlocal
    by (intros spec [? ?]; eauto).
  destruct command; simpl in Hcmd.
  - unfold edit_create in Hnew. destruct (Z.leb_spec end_beat start_beat); [done|].
    destruct (Z.ltb_spec total end_beat); [done|]. injection Hnew as <-.
    apply create_right; [lia|done|lia].
  - apply Hlocal. by apply local_split.
  - apply Hlocal. by apply local_merge_previous.
  - apply Hlocal. by apply local_merge_next.
  - apply Hlocal. by apply local_move_boundary.
  - apply Hlocal. by apply local_delete.
  - apply Hlocal. by apply local_change_role.
  - apply Hlocal. by apply local_set_loop_strategy.
Qed.

Lemma checked_next_Some r r' :
  TimelineRevision_checked_next r = Some r' ↔ r' = r + 1 ∧ r + 1 ≤ U64_MAX.
Proof.
  unfold TimelineRevision_checked_next. pose proof (checked_add_u64_Some r 1 r') as H.
  destruct (checked_add_u64 r 1); [exact H|]. naive_solver.
Qed.

Lemma edit_Ok t command t' :
  edit t command = Ok t' →
  ∃ phrases, apply_edit (lpt_phrases t) (lpt_total_beats t) command = Ok phrases ∧
    phrases ≠ lpt_phrases t ∧ timeline_wf t' ∧
    t' = mkLumiPhraseTimeline (lpt_track_id t) (lpt_revision t + 1) (lpt_baseline_revision t)
           (lpt_total_beats t) OriginUserEdit (command_reason command) (Some (lpt_revision t))
           None phrases.
Proof.
  unfold edit. intros H. unbind H. apply checked_next_Some in E as [-> _].
  case_bool_decide; [done|]. apply map_err_Ok, timeline_constructor_iff in H as [-> Hwf].
  by exists v0.
Qed.

(** C19: an accepted edit does to every beat of the track exactly what its command
    specifies, and nothing else: the role and loop strategy of each beat are those
    of [edited_label].  The result is a well-formed timeline, still a partition of
    the whole track, with the next revision and the edited one as its parent. *)
Theorem edit_refines_beats t command t' :
  timeline_wf t → command_wf command → edit t command = Ok t' →
  timeline_wf t' ∧ lpt_revision t' = lpt_revision t + 1 ∧
  lpt_parent_revision t' = Some (lpt_revision t) ∧ lpt_reason t' = command_reason command ∧
  lpt_track_id t' = lpt_track_id t ∧ lpt_total_beats t' = lpt_total_beats t ∧
  ∀ b, 0 ≤ b < lpt_total_beats t →
    label_at (lpt_phrases t') b = edited_label (lpt_phrases t) command b.
Proof.
  intros Hwf Hcmd (phrases & Happly & _ & Hwf' & ->)%edit_Ok.
  split_and!; try done.
  by eapply apply_edit_right; [apply tw_tiles| |].
Qed.

(** The arms of [apply_edit] have errors of their own. *)
Definition plain {A} (r : result A TimelineEditError) : Prop :=
  ∀ err, r ≠ Err (TEInvalidResult err).

Lemma plain_bind {A B} (r : result A TimelineEditError) (k : A → result B TimelineEditError) :
  plain r → (∀ a, plain (k a)) → plain (result_bind r k).
Proof. destruct r; simpl; [auto|]. intros Hr _ err [= ->]. by apply (Hr err). Qed.

Lemma plain_index i phrases : plain (phrase_index_index i phrases).
Proof. unfold phrase_index_index. by case_match. Qed.

Lemma plain_lookup (phrases : list PhraseInstance) n e :
  (∀ err, e ≠ TEInvalidResult err) → plain (ok_or (phrases !! n) e).
Proof. intros He err. destruct (phrases !! n); simpl; [done|]. intros [= ->]. by destruct (He err). Qed.

Lemma plain_reindex_from l : ∀ n, plain (reindex_from n l).
Proof.
  induction l as [|p l IH]; intros n; simpl; [done|]. destruct (_ <? _); [done|].
  apply plain_bind; [apply IH|done].
Qed.

Lemma plain_apply_edit phrases total command : plain (apply_edit phrases total command).
Proof.
  apply plain_bind; [|intros; apply plain_reindex_from].
  destruct command; [unfold edit_create; by case_match|..];
    unfold edit_split, edit_merge_previous, edit_merge_next, edit_move_boundary, edit_delete,
      edit_change_role, edit_set_loop_strategy;
    (apply plain_bind; [apply plain_index|intros [n p]]).
  - by case_match.
  - destruct n; [done|]. by apply plain_bind; [apply plain_lookup|].
  - by apply plain_bind; [apply plain_lookup|].
  - apply plain_bind; [by apply plain_lookup|intros q]. by case_match.
  - case_bool_decide; [done|]. destruct absorb_into; [destruct n; [done|]|];
      by apply plain_bind; [apply plain_lookup|].
  - by case_bool_decide.
  - by case_bool_decide.
Qed.

Lemma edit_plain t command :
  timeline_wf t → command_wf command → command_strategy_ok command → plain (edit t command).
Proof.
  intros Hwf Hcmd Hok. unfold edit.
  destruct (TimelineRevision_checked_next (lpt_revision t)) as [rev|] eqn:Hrev; simpl; [|done].
  apply checked_next_Some in Hrev as [-> _].
  destruct (apply_edit _ _ _) as [phrases|e] eqn:Happly; simpl.
  2:{ pose proof (plain_apply_edit (lpt_phrases t) (lpt_total_beats t) command) as Hp.
      intros err [= ->]. by destruct (Hp err). }
  pose proof (apply_edit_right _ _ _ _ (tw_tiles _ Hwf) Hcmd Happly) as (Ht & Hix & _).
  pose proof (arm_strategies _ _ _ _ (tw_strategies _ Hwf) Hok Happly) as Hs.
  case_bool_decide; [done|].
  set (t' := mkLumiPhraseTimeline (lpt_track_id t) (lpt_revision t + 1) (lpt_baseline_revision t)
               (lpt_total_beats t) OriginUserEdit (command_reason command)
               (Some (lpt_revision t)) None phrases).
  assert (timeline_wf t') as Hwf'.
  { destruct Hwf. split; simpl; try done.
    - intros ->. simpl in Ht. lia.
    - intros r [= <-]. lia. }
  by rewrite (proj2 (timeline_constructor_iff _ _ _ _ _ _ _ _ _ _) (conj eq_refl Hwf')).
Qed.

(** C20: editing a well-formed timeline never fails validation, except when the
    command itself brings a loop strategy whose overrides are empty or unordered. *)
Theorem edit_never_invalid t command err :
  timeline_wf t → command_wf command → edit t command = Err (TEInvalidResult err) →
  ∃ i strategy, command = CmdSetLoopStrategy i strategy ∧ strategy_invalid strategy = true.
Proof.
  intros Hwf Hcmd H. destruct (strategy_invalid match command with
    | CmdSetLoopStrategy _ strategy => strategy | _ => StrategyAuto end) eqn:Hs.
  - destruct command; try done. eauto.
  - destruct (edit_plain t command Hwf Hcmd) with err; [|done]. by destruct command.
Qed.

(** ** Restoring *)

Lemma restored_phrases l :
  indexed 0 l → Forall (λ p, in_u16 (pi_index p)) l → imap restored_phrase l = l.
Proof.
  intros Hix Hu. apply list_eq. intros i. rewrite list_lookup_imap.
  destruct (l !! i) as [p|] eqn:Hi; simpl; [|done]. f_equal.
  pose proof (indexed_lookup _ _ _ _ Hix Hi) as Hn. simpl in Hn.
  pose proof (proj1 (Forall_lookup _ _) Hu _ _ Hi) as Hp. unfold in_u16 in Hp. simpl in Hp.
  unfold restored_phrase, with_loop_strategy, PhraseInstance_new. simpl.
  rewrite Z.min_l by lia. replace (Z.of_nat i) with (pi_index p) by lia. by destruct p.
Qed.

(** Phrase indexes are 16-bit numbers. *)
Definition indexes_u16 (t : LumiPhraseTimeline) : Prop :=
  Forall (λ p, in_u16 (pi_index p)) (lpt_phrases t).

Lemma restore_spec head target reason :
  timeline_wf head → timeline_wf target → indexes_u16 target →
  lpt_track_id head = lpt_track_id target → lpt_total_beats head = lpt_total_beats target →
  lpt_revision target ≤ lpt_revision head → lpt_revision head < U64_MAX → restores reason = true →
  restore head target reason =
    Ok (mkLumiPhraseTimeline (lpt_track_id head) (lpt_revision head + 1)
          (lpt_baseline_revision head) (lpt_total_beats head) OriginRevisionRestore reason
          (Some (lpt_revision head)) (Some (lpt_revision target)) (lpt_phrases target)).
Proof.
  intros Hh Ht Hu Htr Htot Hle Hlt Hreason. unfold restore. rewrite Htr, Htot, !Z.eqb_refl, Hreason.
  simpl. rewrite (proj2 (checked_next_Some _ (lpt_revision head + 1))) by lia. simpl.
  rewrite restored_phrases by (apply Ht || done). apply map_err_Ok, timeline_constructor_iff.
  split; [done|]. destruct Ht. split; simpl; try done; intros r [= <-]; lia.
Qed.

Lemma reindex_from_u16 l : ∀ n l', 0 ≤ n → reindex_from n l = Ok l' → Forall (λ p, in_u16 (pi_index p)) l'.
Proof.
  induction l as [|p l IH]; intros n l' Hn; simpl; [by intros [= <-]|].
  destruct (Z.ltb_spec U16_MAX n); [done|]. intros Hr. unbind Hr. injection Hr as <-.
  constructor; [by split|]. eapply IH; [|exact E]. lia.
Qed.

Lemma edit_indexes_u16 t command t' : edit t command = Ok t' → indexes_u16 t'.
Proof.
  intros (phrases & Happly & _ & _ & ->)%edit_Ok. unfold apply_edit in Happly. unbind Happly.
  by eapply reindex_from_u16 in Happly.
Qed.

(** C21: undo and redo are exact.  After any accepted edit, restoring the edited
    revision succeeds and brings back its phrases, indexes, roles and strategies
    exactly, under a new revision; restoring the edit afterwards brings back the
    edited phrases.  History is never rewritten: both are new revisions. *)
Theorem undo_redo_exact t command t1 :
  timeline_wf t → indexes_u16 t → command_wf command → lpt_revision t + 2 < U64_MAX →
  edit t command = Ok t1 →
  ∃ t2 t3, restore t1 t ReasonUndo = Ok t2 ∧ restore t2 t1 ReasonRedo = Ok t3 ∧
    lpt_phrases t2 = lpt_phrases t ∧ lpt_phrases t3 = lpt_phrases t1 ∧
    timeline_wf t2 ∧ timeline_wf t3 ∧
    lpt_revision t2 = lpt_revision t + 2 ∧ lpt_revision t3 = lpt_revision t + 3 ∧
    lpt_restored_from t2 = Some (lpt_revision t) ∧ lpt_restored_from t3 = Some (lpt_revision t1).
Proof.
  intros Hwf Hu Hcmd Hmax Hedit. pose proof (edit_indexes_u16 _ _ _ Hedit) as Hu1.
  pose proof (edit_Ok _ _ _ Hedit) as (phrases & _ & _ & Hwf1 & Ht1).
  assert (lpt_track_id t1 = lpt_track_id t ∧ lpt_total_beats t1 = lpt_total_beats t ∧
    lpt_revision t1 = lpt_revision t + 1) as (Htr & Htot & Hrev) by (rewrite Ht1; done).
  clear Ht1. pose proof (restore_spec t1 t ReasonUndo) as Hr2.
  specialize (Hr2 Hwf1 Hwf Hu Htr Htot ltac:(lia) ltac:(lia) eq_refl).
  set (t2 := mkLumiPhraseTimeline _ _ _ _ _ _ _ _ _) in Hr2.
  assert (timeline_wf t2) as Hwf2.
  { destruct Hwf. split; simpl; try congruence; try done; intros r [= <-]; lia. }
  pose proof (restore_spec t2 t1 ReasonRedo) as Hr3.
  specialize (Hr3 Hwf2 Hwf1 Hu1 eq_refl eq_refl ltac:(simpl; lia) ltac:(simpl; lia) eq_refl).
  set (t3 := mkLumiPhraseTimeline _ _ _ _ _ _ _ _ _) in Hr3.
  exists t2, t3. split; [exact Hr2|]. split; [exact Hr3|].
  assert (timeline_wf t3) as Hwf3.
  { destruct Hwf1. split; simpl; try done; intros r [= <-]; lia. }
  split_and!; simpl; done || lia.
Qed.

(** ** Witnesses *)

Definition demo_timeline : LumiPhraseTimeline :=
  mkLumiPhraseTimeline 7 1 (lit "rev") 64 OriginSourceImport ReasonInitialSourceMapping None None
    [PhraseInstance_new 0 0 32 (lit "intro"); PhraseInstance_new 1 32 64 (lit "drop")].

Lemma demo_timeline_wf : timeline_wf demo_timeline.
Proof.
  assert (try_new_with_history 7 1 (lit "rev") 64 OriginSourceImport ReasonInitialSourceMapping
    None None (lpt_phrases demo_timeline) = Ok demo_timeline) as H by (vm_compute; reflexivity).
  by apply timeline_constructor_iff in H as [_ ?].
Qed.

Definition demo_edited (command : TimelineEditCommand) : LumiPhraseTimeline :=
  match edit demo_timeline command with Ok t => t | Err _ => demo_timeline end.

Lemma edit_refines_beats_witness :
  edit demo_timeline (CmdCreate 16 48 (lit "build")) = Ok (demo_edited (CmdCreate 16 48 (lit "build"))) ∧
  label_at (lpt_phrases (demo_edited (CmdCreate 16 48 (lit "build")))) 20
    = Some (lit "build", StrategyAuto).
Proof.
  assert (edit demo_timeline (CmdCreate 16 48 (lit "build"))
    = Ok (demo_edited (CmdCreate 16 48 (lit "build")))) as He by (vm_compute; reflexivity).
  split; [exact He|].
  destruct (edit_refines_beats demo_timeline (CmdCreate 16 48 (lit "build")) _ demo_timeline_wf
    ltac:(simpl; lia) He) as (_ & _ & _ & _ & _ & _ & Hb).
  rewrite Hb; [reflexivity|simpl; lia].
Defined.

Lemma edit_never_invalid_witness :
  ∃ i strategy, CmdSetLoopStrategy 0 (StrategyThemeSpecificExact []) = CmdSetLoopStrategy i strategy
    ∧ strategy_invalid strategy = true.
Proof.
  apply (edit_never_invalid demo_timeline (CmdSetLoopStrategy 0 (StrategyThemeSpecificExact []))
    TVInvalidLoopStrategy demo_timeline_wf); [simpl; lia|vm_compute; reflexivity].
Defined.

Lemma undo_redo_exact_witness :
  ∃ t2 t3, restore (demo_edited (CmdSplit 1 40)) demo_timeline ReasonUndo = Ok t2 ∧
    restore t2 (demo_edited (CmdSplit 1 40)) ReasonRedo = Ok t3 ∧
    lpt_phrases t2 = lpt_phrases demo_timeline.
Proof.
  destruct (undo_redo_exact demo_timeline (CmdSplit 1 40) (demo_edited (CmdSplit 1 40)) demo_timeline_wf)
    as (t2 & t3 & H2 & H3 & Hp & _).
  - repeat constructor; vm_compute; discriminate.
  - simpl. lia.
  - vm_compute. reflexivity.
  - vm_compute. reflexivity.
  - exists t2, t3. auto.
Defined.
