(* ===== verification/AutoloopExecutor.v ===== *)
(** * The Autoloop cue executor

    Models [lumi-engine/src/autoloop_executor.rs]: the state machine that takes
    one cue at a time from scheduling over bank preparation and triggering to
    completion, and the completion watermark that refuses to send a cue again.
    Methods with [&mut self] return the new executor. *)

From stdpp Require Import prelude list gmap strings.
From Stdlib Require Import ZArith Lia.
From S2P Require Import Prelude.
From S2P Require Import Track.
From S2P Require Import Plan.
From S2P Require Import Event.
Open Scope Z_scope.

Record AutoloopTarget := mkAutoloopTarget { bank_number : Z; autoloop_number : Z }.

Record AutoloopExecutionIdentity := mkAutoloopExecutionIdentity {
  id_execution_epoch : Z;
  id_deck_id : DeckId;
  id_track_load_id : TrackLoadId;
  id_plan_revision : PlanRevision;
  id_phrase_index : Z;
}.

#[global] Instance AutoloopTarget_eq_dec : EqDecision AutoloopTarget.
Proof. solve_decision. Defined.
#[global] Instance AutoloopExecutionIdentity_eq_dec : EqDecision AutoloopExecutionIdentity.
Proof. solve_decision. Defined.

Definition identity_from_request (request : OutputExecutionRequest) (execution_epoch : Z) :
    AutoloopExecutionIdentity :=
  mkAutoloopExecutionIdentity execution_epoch (req_deck_id request) (req_track_load_id request)
    (req_plan_revision request) (req_phrase_index request).

Record AutoloopSchedule := mkAutoloopSchedule {
  sch_identity : AutoloopExecutionIdentity;
  sch_target : AutoloopTarget;
  sch_select_bank : bool;
}.

Inductive AutoloopExecutorState : Type :=
| XIdle
| XScheduled (identity : AutoloopExecutionIdentity) (target : AutoloopTarget)
| XBankPrepared (identity : AutoloopExecutionIdentity) (target : AutoloopTarget)
| XTriggered (identity : AutoloopExecutionIdentity) (target : AutoloopTarget)
    (expected_lane_emitted_count : Z)
| XCompleted (identity : AutoloopExecutionIdentity) (target : AutoloopTarget).

#[global] Instance AutoloopExecutorState_eq_dec : EqDecision AutoloopExecutorState.
Proof. solve_decision. Defined.

Definition state_identity (s : AutoloopExecutorState) : option AutoloopExecutionIdentity :=
  match s with
  | XIdle => None
  | XScheduled identity _ | XBankPrepared identity _ | XTriggered identity _ _
  | XCompleted identity _ => Some identity
  end.

Record AutoloopCueExecutor := mkAutoloopCueExecutor {
  x_state : AutoloopExecutorState;
  x_completed_through : option AutoloopExecutionIdentity;
  x_execution_epoch : Z;
  x_requested_count : Z;
  x_bank_prepared_count : Z;
  x_triggered_count : Z;
  x_completed_count : Z;
  x_duplicate_count : Z;
  x_cancelled_count : Z;
  x_rescheduled_count : Z;
  x_failed_count : Z;
}.

Definition AutoloopCueExecutor_default : AutoloopCueExecutor :=
  mkAutoloopCueExecutor XIdle None 0 0 0 0 0 0 0 0 0.

Definition bump (n : Z) : Z := saturating_add_u64 n 1.

Definition is_pending (s : AutoloopExecutorState) : bool :=
  match s with XScheduled _ _ | XBankPrepared _ _ | XTriggered _ _ _ => true | _ => false end.

Definition cancel_pending (x : AutoloopCueExecutor) : AutoloopCueExecutor :=
  mkAutoloopCueExecutor XIdle (x_completed_through x) (x_execution_epoch x) (x_requested_count x)
    (x_bank_prepared_count x) (x_triggered_count x) (x_completed_count x) (x_duplicate_count x)
    (if is_pending (x_state x) then bump (x_cancelled_count x) else x_cancelled_count x)
    (x_rescheduled_count x) (x_failed_count x).

(** [begin_execution_epoch]: nothing changes when the epoch is exhausted. *)
Definition begin_execution_epoch (x : AutoloopCueExecutor) : AutoloopCueExecutor * option Z :=
  match checked_add_u64 (x_execution_epoch x) 1 with
  | None => (x, None)
  | Some epoch =>
      let x := mkAutoloopCueExecutor (x_state x) None epoch (x_requested_count x)
                 (x_bank_prepared_count x) (x_triggered_count x) (x_completed_count x)
                 (x_duplicate_count x) (x_cancelled_count x) (x_rescheduled_count x)
                 (x_failed_count x) in
      (cancel_pending x, Some epoch)
  end.

(** The watermark covers an identity. *)
Definition covered_by (completed : option AutoloopExecutionIdentity)
    (identity : AutoloopExecutionIdentity) : bool :=
  match completed with
  | Some completed =>
      (id_execution_epoch completed =? id_execution_epoch identity)
      && (id_deck_id completed =? id_deck_id identity)
      && (id_track_load_id completed =? id_track_load_id identity)
      && (id_plan_revision completed =? id_plan_revision identity)
      && (id_phrase_index identity <=? id_phrase_index completed)
  | None => false
  end.

Definition schedule_identity (identity : AutoloopExecutionIdentity) (target : AutoloopTarget)
    (active_bank : option Z) (x : AutoloopCueExecutor) :
    AutoloopCueExecutor * option AutoloopSchedule :=
  let requested := bump (x_requested_count x) in
  if bool_decide (state_identity (x_state x) = Some identity)
     || covered_by (x_completed_through x) identity
  then
    (mkAutoloopCueExecutor (x_state x) (x_completed_through x) (x_execution_epoch x) requested
       (x_bank_prepared_count x) (x_triggered_count x) (x_completed_count x)
       (bump (x_duplicate_count x)) (x_cancelled_count x) (x_rescheduled_count x)
       (x_failed_count x), None)
  else
    (mkAutoloopCueExecutor (XScheduled identity target) (x_completed_through x)
       (x_execution_epoch x) requested (x_bank_prepared_count x) (x_triggered_count x)
       (x_completed_count x) (x_duplicate_count x) (x_cancelled_count x)
       (x_rescheduled_count x) (x_failed_count x),
     Some (mkAutoloopSchedule identity target
             (negb (bool_decide (active_bank = Some (bank_number target)))))).

Definition schedule (request : OutputExecutionRequest) (target : AutoloopTarget)
    (active_bank : option Z) (x : AutoloopCueExecutor) :
    AutoloopCueExecutor * option AutoloopSchedule :=
  schedule_identity (identity_from_request request (x_execution_epoch x)) target active_bank x.

Definition record_pending_retime (identity : AutoloopExecutionIdentity) (x : AutoloopCueExecutor) :
    AutoloopCueExecutor * bool :=
  if negb (bool_decide (state_identity (x_state x) = Some identity))
     || match x_state x with XCompleted _ _ => true | _ => false end
  then (x, false)
  else
    (mkAutoloopCueExecutor (x_state x) (x_completed_through x) (x_execution_epoch x)
       (x_requested_count x) (x_bank_prepared_count x) (x_triggered_count x)
       (x_completed_count x) (x_duplicate_count x) (x_cancelled_count x)
       (bump (x_rescheduled_count x)) (x_failed_count x), true).

Definition mark_bank_prepared (schedule : AutoloopSchedule) (x : AutoloopCueExecutor) :
    AutoloopCueExecutor :=
  if bool_decide (x_state x = XScheduled (sch_identity schedule) (sch_target schedule)) then
    mkAutoloopCueExecutor (XBankPrepared (sch_identity schedule) (sch_target schedule))
      (x_completed_through x) (x_execution_epoch x) (x_requested_count x)
      (bump (x_bank_prepared_count x)) (x_triggered_count x) (x_completed_count x)
      (x_duplicate_count x) (x_cancelled_count x) (x_rescheduled_count x) (x_failed_count x)
  else x.

Definition mark_triggered (schedule : AutoloopSchedule) (expected_lane_emitted_count : Z)
    (x : AutoloopCueExecutor) : AutoloopCueExecutor :=
  if bool_decide (state_identity (x_state x) = Some (sch_identity schedule)) then
    mkAutoloopCueExecutor
      (XTriggered (sch_identity schedule) (sch_target schedule) expected_lane_emitted_count)
      (x_completed_through x) (x_execution_epoch x) (x_requested_count x)
      (x_bank_prepared_count x) (bump (x_triggered_count x)) (x_completed_count x)
      (x_duplicate_count x) (x_cancelled_count x) (x_rescheduled_count x) (x_failed_count x)
  else x.

Definition complete_if_emitted (lane_emitted_count : Z) (x : AutoloopCueExecutor) :
    AutoloopCueExecutor :=
  match x_state x with
  | XTriggered identity target expected =>
      if expected <=? lane_emitted_count then
        mkAutoloopCueExecutor (XCompleted identity target) (Some identity) (x_execution_epoch x)
          (x_requested_count x) (x_bank_prepared_count x) (x_triggered_count x)
          (bump (x_completed_count x)) (x_duplicate_count x) (x_cancelled_count x)
          (x_rescheduled_count x) (x_failed_count x)
      else x
  | _ => x
  end.

Definition fail (identity : AutoloopExecutionIdentity) (x : AutoloopCueExecutor) :
    AutoloopCueExecutor :=
  if bool_decide (state_identity (x_state x) = Some identity) then
    mkAutoloopCueExecutor XIdle (x_completed_through x) (x_execution_epoch x)
      (x_requested_count x) (x_bank_prepared_count x) (x_triggered_count x)
      (x_completed_count x) (x_duplicate_count x) (x_cancelled_count x)
      (x_rescheduled_count x) (bump (x_failed_count x))
  else x.

(** ** Runs *)

Inductive ExecutorOp : Type :=
| OpBeginEpoch
| OpSchedule (identity : AutoloopExecutionIdentity) (target : AutoloopTarget)
    (active_bank : option Z)
| OpRetime (identity : AutoloopExecutionIdentity)
| OpPrepare (s : AutoloopSchedule)
| OpTrigger (s : AutoloopSchedule) (expected : Z)
| OpComplete (emitted : Z)
| OpFail (identity : AutoloopExecutionIdentity)
| OpCancel.

(** One call, with the schedule it hands to the output lane. *)
Definition executor_step (x : AutoloopCueExecutor) (op : ExecutorOp) :
    AutoloopCueExecutor * option AutoloopSchedule :=
  match op with
  | OpBeginEpoch => ((begin_execution_epoch x).1, None)
  | OpSchedule identity target active_bank => schedule_identity identity target active_bank x
  | OpRetime identity => ((record_pending_retime identity x).1, None)
  | OpPrepare s => (mark_bank_prepared s x, None)
  | OpTrigger s expected => (mark_triggered s expected x, None)
  | OpComplete emitted => (complete_if_emitted emitted x, None)
  | OpFail identity => (fail identity x, None)
  | OpCancel => (cancel_pending x, None)
  end.

Fixpoint executor_run (x : AutoloopCueExecutor) (ops : list ExecutorOp) :
    AutoloopCueExecutor * list AutoloopSchedule :=
  match ops with
  | [] => (x, [])
  | op :: ops =>
      let '(x1, scheduled) := executor_step x op in
      let '(x2, rest) := executor_run x1 ops in
      (x2, option_list scheduled ++ rest)
  end.

(** ** Streams: the cues of one plan revision on one load in one epoch *)

Definition same_stream (i j : AutoloopExecutionIdentity) : Prop :=
  id_execution_epoch i = id_execution_epoch j ∧ id_deck_id i = id_deck_id j ∧
  id_track_load_id i = id_track_load_id j ∧ id_plan_revision i = id_plan_revision j.

#[global] Instance same_stream_equivalence : Equivalence same_stream.
Proof. unfold same_stream. split; [by intros i|by intros i j (? & ? & ? & ?)|].
  intros i j k (? & ? & ? & ?) (? & ? & ? & ?). split_and!; congruence. Qed.

Lemma covered_by_Some completed i :
  covered_by (Some completed) i = true ↔
  same_stream completed i ∧ id_phrase_index i ≤ id_phrase_index completed.
Proof.
  unfold covered_by, same_stream. rewrite !andb_true_iff, !Z.eqb_eq, Z.leb_le. tauto.
Qed.

(** The executor works on one stream: what it holds and has completed belongs to
    it, and what it holds is not behind the watermark. *)
Record on_stream (i : AutoloopExecutionIdentity) (w : Z) (x : AutoloopCueExecutor) : Prop := {
  os_watermark : ∃ c, x_completed_through x = Some c ∧ same_stream i c ∧ w ≤ id_phrase_index c;
  os_state : ∀ j, state_identity (x_state x) = Some j → same_stream i j ∧
    ∀ c, x_completed_through x = Some c → id_phrase_index c ≤ id_phrase_index j;
}.

(** Operations that stay in the stream of an identity: no new epoch, and only
    cues of the stream are scheduled. *)
Definition op_on_stream (i : AutoloopExecutionIdentity) (op : ExecutorOp) : Prop :=
  match op with
  | OpBeginEpoch => False
  | OpSchedule j _ _ => same_stream i j
  | _ => True
  end.

Lemma on_stream_step i w x op x' scheduled :
  on_stream i w x → op_on_stream i op → executor_step x op = (x', scheduled) →
  on_stream i w x' ∧ ∀ s, scheduled = Some s → w < id_phrase_index (sch_identity s).
Proof.
  intros [(c & Hc & Hic & Hw) Hst] Hop Hstep.
  assert (∀ x2, x_completed_through x2 = Some c → x_state x2 = XIdle → on_stream i w x2) as Hidle.
  { intros x2 H2 Hs2. split; [by exists c|]. by rewrite Hs2. }
  assert (∀ x2, x_completed_through x2 = Some c → state_identity (x_state x2) = state_identity (x_state x) →
    on_stream i w x2) as Hkeep.
  { intros x2 H2 Hs2. split; [by exists c|]. rewrite Hs2, H2, <- Hc. exact Hst. }
  destruct op as [|j target bank|j|s|s expected|emitted|j|]; simpl in *; [done|..].
  - unfold schedule_identity in Hstep. destruct (_ || _) eqn:Hd; injection Hstep as <- <-.
    { split; [|done]. by apply Hkeep. }
    apply orb_false_iff in Hd as [_ Hd]. rewrite Hc in Hd.
    assert (id_phrase_index c < id_phrase_index j).
    { destruct (Z.lt_ge_cases (id_phrase_index c) (id_phrase_index j)); [done|].
      rewrite (proj2 (covered_by_Some c j)) in Hd; [done|]. split; [|done].
      etrans; [symmetry; exact Hic|exact Hop]. }
    split; [|intros ? [= <-]; simpl; lia]. split; simpl; [by exists c|].
    intros ? [= <-]. split; [done|]. rewrite Hc. intros ? [= <-]. lia.
  - unfold record_pending_retime in Hstep. destruct (_ || _); injection Hstep as <- <-;
      (split; [by apply Hkeep|done]).
  - unfold mark_bank_prepared in Hstep. case_bool_decide as Hs; injection Hstep as <- <-.
    + split; [|done]. apply Hkeep; simpl; [done|by rewrite Hs].
    + split; [by apply Hkeep|done].
  - unfold mark_triggered in Hstep. case_bool_decide as Hs; injection Hstep as <- <-.
    + split; [|done]. by apply Hkeep.
    + split; [by apply Hkeep|done].
  - unfold complete_if_emitted in Hstep. destruct (x_state x) as [| | |j target expected|] eqn:Hx;
      try (injection Hstep as <- <-; split; [apply Hkeep; [done|by rewrite Hx]|done]).
    destruct (expected <=? emitted); injection Hstep as <- <-.
    + destruct (Hst j eq_refl) as [Hij Hle]. specialize (Hle c Hc). split; [|done]. split; simpl.
      * exists j. split_and!; done || lia.
      * intros ? [= <-]. split; [done|]. intros ? [= <-]. lia.
    + split; [apply Hkeep; [done|by rewrite Hx]|done].
  - unfold fail in Hstep. case_bool_decide; injection Hstep as <- <-; (split; [|done]).
    + by apply Hidle.
    + by apply Hkeep.
  - injection Hstep as <- <-. split; [by apply Hidle|done].
Qed.

(** C22: a completed cue is never sent again.  Once a cue of a stream (epoch, deck,
    load and plan revision) is completed, no later sequence of operations in that
    stream, retiming, failures and cancellations included, schedules that cue or
    an earlier one; only a new epoch can. *)
Theorem completed_cue_not_rescheduled x i ops s :
  x_completed_through x = Some i →
  (∀ j, state_identity (x_state x) = Some j → same_stream i j ∧
     id_phrase_index i ≤ id_phrase_index j) →
  Forall (op_on_stream i) ops → s ∈ (executor_run x ops).2 →
  id_phrase_index i < id_phrase_index (sch_identity s).
Proof.
  intros Hc Hst Hops Hs.
  assert (on_stream i (id_phrase_index i) x) as Hon.
  { split; [by exists i|]. rewrite Hc. intros j Hj. destruct (Hst j Hj). split; [done|].
    by intros ? [= <-]. }
  clear Hc Hst. revert x Hon Hs. induction Hops as [|op ops Hop _ IH]; intros x Hon; simpl.
  { by intros ?%not_elem_of_nil. }
  destruct (executor_step x op) as [x1 scheduled] eqn:Hstep.
  destruct (on_stream_step _ _ _ _ _ _ Hon Hop Hstep) as [Hon1 Hsch].
  specialize (IH x1 Hon1). destruct (executor_run x1 ops) as [x2 rest]; simpl in *.
  rewrite elem_of_app. intros [Hin|?]; [|auto].
  destruct scheduled as [s'|]; simpl in Hin; [|by apply not_elem_of_nil in Hin].
  apply list_elem_of_singleton in Hin as ->. by apply Hsch.
Qed.

Definition demo_identity (phrase : Z) : AutoloopExecutionIdentity :=
  mkAutoloopExecutionIdentity 1 1 100 1 phrase.

Definition demo_schedule (phrase : Z) : AutoloopSchedule :=
  mkAutoloopSchedule (demo_identity phrase) (mkAutoloopTarget 1 1) true.

(** Phrase 1 scheduled, prepared, triggered and completed in the first epoch. *)
Definition demo_completed : AutoloopCueExecutor :=
  (executor_run AutoloopCueExecutor_default
     [OpBeginEpoch; OpSchedule (demo_identity 1) (mkAutoloopTarget 1 1) None;
      OpPrepare (demo_schedule 1); OpTrigger (demo_schedule 1) 1; OpComplete 1]).1.

Lemma completed_cue_not_rescheduled_witness :
  (executor_run demo_completed
     [OpSchedule (demo_identity 1) (mkAutoloopTarget 1 1) None; OpCancel;
      OpSchedule (demo_identity 0) (mkAutoloopTarget 1 1) None;
      OpSchedule (demo_identity 2) (mkAutoloopTarget 1 1) None]).2 = [demo_schedule 2] ∧
  1 < id_phrase_index (sch_identity (demo_schedule 2)).
Proof.
  assert ((executor_run demo_completed
     [OpSchedule (demo_identity 1) (mkAutoloopTarget 1 1) None; OpCancel;
      OpSchedule (demo_identity 0) (mkAutoloopTarget 1 1) None;
      OpSchedule (demo_identity 2) (mkAutoloopTarget 1 1) None]).2 = [demo_schedule 2]) as Hr
    by (vm_compute; reflexivity).
  split; [exact Hr|].
  apply (completed_cue_not_rescheduled demo_completed (demo_identity 1)
    [OpSchedule (demo_identity 1) (mkAutoloopTarget 1 1) None; OpCancel;
     OpSchedule (demo_identity 0) (mkAutoloopTarget 1 1) None;
     OpSchedule (demo_identity 2) (mkAutoloopTarget 1 1) None] (demo_schedule 2)).
  - vm_compute. reflexivity.
  - intros j Hj. vm_compute in Hj. injection Hj as <-. repeat split; vm_compute; discriminate.
  - repeat constructor.
  - rewrite Hr. left.
Defined.

(** A new execution epoch authorizes every cue again: unless the epoch counter
    is exhausted, it forgets the watermark and pending work, and the next request
    for any cue, completed before or not, is scheduled under the new epoch. *)
Theorem new_epoch_reauthorizes x request target active_bank :
  x_execution_epoch x < U64_MAX →
  let x' := (begin_execution_epoch x).1 in
  (begin_execution_epoch x).2 = Some (x_execution_epoch x + 1) ∧
  x_execution_epoch x' = x_execution_epoch x + 1 ∧
  (schedule request target active_bank x').2 =
    Some (mkAutoloopSchedule (identity_from_request request (x_execution_epoch x + 1)) target
            (negb (bool_decide (active_bank = Some (bank_number target))))).
Proof.
  intros Hmax. unfold begin_execution_epoch, checked_add_u64.
  rewrite (proj2 (Z.leb_le _ _)) by lia. simpl. done.
Qed.

Lemma new_epoch_reauthorizes_witness :
  (begin_execution_epoch demo_completed).2 = Some 2.
Proof.
  exact (proj1 (new_epoch_reauthorizes demo_completed
    (mkOutputExecutionRequest 1 5 1 1 100 1 11 HoldCurrentLook MissingPhraseAnalysis 0)
    (mkAutoloopTarget 1 1) None eq_refl)).
Defined.
