(* ===== verification/Stream.v ===== *)
(** * Bounded newline framing

    Models [BoundedLineReader] of [lumi-stream/src/lib.rs].  The transport below
    it is a buffered reader; the class states the contract of [AsyncBufRead] the
    code relies on.  One round of the loop of [next_line] is a step; the only
    await is at the start of a round, so cancelling a call means stopping between
    two rounds and keeping the reader. *)

From stdpp Require Import prelude list gmap strings.
From Stdlib Require Import ZArith Lia.
From S2P Require Import Prelude.
Open Scope Z_scope.

(** [AsyncBufRead]: [fill_buf] fails or shows a prefix of the bytes not yet
    consumed, empty only at the end of the stream; [consume] drops bytes shown. *)
Class BufRead (R : Type) := {
  unread : R → list Z;
  fill_buf : R → option (list Z);
  consume : nat → R → R;
  fill_buf_prefix : ∀ r bytes, fill_buf r = Some bytes → bytes `prefix_of` unread r;
  fill_buf_eof : ∀ r, fill_buf r = Some [] → unread r = [];
  consume_unread : ∀ n r bytes, fill_buf r = Some bytes → (n ≤ length bytes)%nat →
    unread (consume n r) = drop n (unread r);
}.

Definition newline : Z := 10.

Inductive StreamError : Type :=
| TransportError    (* the error of the reader below *)
| ReaderClosed      (* InvalidData, frame reader is closed *)
| TruncatedFrame    (* UnexpectedEof, truncated frame *)
| FrameTooLong.     (* InvalidData, frame exceeds byte limit *)

Record BoundedLineReader (R : Type) := mkBoundedLineReader {
  lr_reader : R;
  lr_pending : list Z;
  lr_failed : bool;
}.
Arguments mkBoundedLineReader {R} _ _ _.
Arguments lr_reader {R} _.
Arguments lr_pending {R} _.
Arguments lr_failed {R} _.

(** [iter().position(|byte| *byte == b'\n')] *)
Fixpoint position_newline (bytes : list Z) : option nat :=
  match bytes with
  | [] => None
  | b :: bytes =>
      if b =? newline then Some 0%nat
      else match position_newline bytes with Some n => Some (S n) | None => None end
  end.

Section Reader.
Context {R : Type} `{BufRead R}.

Definition BoundedLineReader_new (reader : R) : BoundedLineReader R :=
  mkBoundedLineReader reader [] false.

(** One round of the loop: the reader after it, and the result if it returns. *)
Definition line_round (maximum : nat) (lr : BoundedLineReader R) :
    BoundedLineReader R * option (result (option (list Z)) StreamError) :=
  match fill_buf (lr_reader lr) with
  | None => (lr, Some (Err TransportError))
  | Some [] =>
      match lr_pending lr with
      | [] => (lr, Some (Ok None))
      | _ => (mkBoundedLineReader (lr_reader lr) (lr_pending lr) true, Some (Err TruncatedFrame))
      end
  | Some available =>
      let position := position_newline available in
      let len := match position with Some n => n | None => length available end in
      if bool_decide (length (lr_pending lr) + len ≤ maximum)%nat then
        let pending := lr_pending lr ++ take len available in
        let reader := consume (len + match position with Some _ => 1 | None => 0 end)
                        (lr_reader lr) in
        match position with
        | Some _ => (mkBoundedLineReader reader [] (lr_failed lr), Some (Ok (Some pending)))
        | None => (mkBoundedLineReader reader pending (lr_failed lr), None)
        end
      else (mkBoundedLineReader (lr_reader lr) (lr_pending lr) true, Some (Err FrameTooLong))
  end.

(** The loop, with fuel for the rounds. *)
Fixpoint line_loop (fuel maximum : nat) (lr : BoundedLineReader R) :
    BoundedLineReader R * option (result (option (list Z)) StreamError) :=
  match fuel with
  | O => (lr, None)
  | S fuel =>
      let '(lr', outcome) := line_round maximum lr in
      match outcome with
      | Some r => (lr', Some r)
      | None => line_loop fuel maximum lr'
      end
  end.

(** A call that is cancelled after [fuel] rounds, or returns before. *)
Definition next_line (fuel maximum : nat) (lr : BoundedLineReader R) :
    BoundedLineReader R * option (result (option (list Z)) StreamError) :=
  if lr_failed lr then (lr, Some (Err ReaderClosed)) else line_loop fuel maximum lr.

(** ** What the reader has to deliver *)

(** Bytes received and not yet returned: the incomplete frame and the stream. *)
Definition backlog (lr : BoundedLineReader R) : list Z :=
  lr_pending lr ++ unread (lr_reader lr).

(** The result of a call and the bytes left after it, as a function of the
    backlog alone. *)
Definition frame_spec (maximum : nat) (bytes : list Z) :
    result (option (list Z)) StreamError * list Z :=
  match position_newline bytes with
  | Some n =>
      if bool_decide (n ≤ maximum)%nat then (Ok (Some (take n bytes)), drop (S n) bytes)
      else (Err FrameTooLong, bytes)
  | None =>
      if bool_decide (length bytes ≤ maximum)%nat then
        match bytes with [] => (Ok None, []) | _ => (Err TruncatedFrame, bytes) end
      else (Err FrameTooLong, bytes)
  end.

Lemma position_newline_app l1 l2 :
  position_newline (l1 ++ l2) =
  match position_newline l1 with
  | Some n => Some n
  | None => (λ n, length l1 + n)%nat <$> position_newline l2
  end.
Proof.
  induction l1 as [|b l1 IH]; simpl; [by destruct (position_newline l2)|].
  destruct (b =? newline); [done|]. rewrite IH. by destruct (position_newline l1), (position_newline l2).
Qed.

Lemma position_newline_lt l n : position_newline l = Some n → (n < length l)%nat.
Proof.
  revert n. induction l as [|b l IH]; intros n; simpl; [done|].
  destruct (b =? newline); [intros [= <-]; lia|]. destruct (position_newline l) as [m|]; [|done].
  intros [= <-]. specialize (IH m eq_refl). lia.
Qed.

(** The incomplete frame never contains a newline. *)
Definition reader_wf (lr : BoundedLineReader R) : Prop := position_newline (lr_pending lr) = None.

(** One round either returns what the specification says, or keeps the backlog
    and consumes at least one byte. *)
Lemma line_round_spec maximum lr lr' outcome :
  reader_wf lr → (length (lr_pending lr) ≤ maximum)%nat →
  line_round maximum lr = (lr', outcome) →
  match outcome with
  | Some (Err TransportError) => lr' = lr ∧ fill_buf (lr_reader lr) = None
  | Some r => (r, backlog lr') = frame_spec maximum (backlog lr) ∧
              lr_failed lr' = match r with Ok _ => lr_failed lr | Err _ => true end
  | None => backlog lr' = backlog lr ∧ reader_wf lr' ∧ lr_failed lr' = lr_failed lr ∧
            (length (lr_pending lr') ≤ maximum)%nat ∧
            (length (unread (lr_reader lr')) < length (unread (lr_reader lr)))%nat
  end ∧ (∀ r, outcome = Some r → reader_wf lr' ∧ (length (lr_pending lr') ≤ maximum)%nat).
Proof.
  intros Hwf Hmax. unfold line_round, backlog, frame_spec, reader_wf in *.
  destruct (fill_buf (lr_reader lr)) as [[|byte bytes]|] eqn:Hfill; [..|by intros [= <- <-]].
  - pose proof (fill_buf_eof _ Hfill) as Heof. rewrite Heof, app_nil_r.
    destruct (lr_pending lr) as [|b p] eqn:Hp; intros [= <- <-]; cbn [lr_pending lr_reader lr_failed];
      rewrite ?Heof, ?app_nil_r, ?Hp; [done|].
    rewrite Hwf, bool_decide_true by lia. done.
  - set (available := byte :: bytes) in *.
    destruct (fill_buf_prefix _ _ Hfill) as [later Hlater].
    rewrite Hlater, position_newline_app, Hwf, position_newline_app.
    assert (length available ≤ length (unread (lr_reader lr)))%nat as Hlen
      by (rewrite Hlater, length_app; lia).
    destruct (position_newline available) as [n|] eqn:Hpos; cbn [fmap option_fmap option_map].
    + pose proof (position_newline_lt _ _ Hpos) as Hn. case_bool_decide as Hb.
      * intros [= <- <-]. simpl. split; [|intros r _; split; [done|lia]].
        split; [|done]. rewrite (consume_unread _ _ _ Hfill) by lia.
        rewrite Hlater. f_equal.
        -- do 2 f_equal. rewrite take_app, (take_ge (lr_pending lr)) by lia. f_equal.
           replace (length (lr_pending lr) + n - length (lr_pending lr))%nat with n by lia.
           symmetry. apply (take_app_le available later). lia.
        -- rewrite (drop_app_ge (lr_pending lr)) by lia.
           replace (S (length (lr_pending lr) + n) - length (lr_pending lr))%nat with (n + 1)%nat by lia.
           done.
      * intros [= <- <-]. simpl. split; [|done].
        split; [|done]. by rewrite Hlater.
    + case_bool_decide as Hb; intros [= <- <-]; cbn [lr_pending lr_reader lr_failed].
      * rewrite firstn_all, Nat.add_0_r.
        change (S (length bytes)) with (length available). change (byte :: bytes) with available.
        rewrite (consume_unread _ _ _ Hfill) by lia.
        rewrite Hlater, drop_app_length, <- app_assoc.
        split; [|done]. split; [done|]. rewrite position_newline_app, Hwf, Hpos. simpl.
        split; [done|]. split; [done|]. rewrite length_app. split; [lia|].
        rewrite length_app. subst available. simpl. lia.
      * split; [|done]. split; [|done]. rewrite <- Hlater.
        destruct (position_newline later) as [m|]; simpl.
        -- rewrite bool_decide_false; [done|]. subst available. simpl in *. lia.
        -- rewrite bool_decide_false; [done|]. rewrite length_app. lia.
Qed.

(** A transport that never reports an error of its own. *)
Definition reliable : Prop := ∀ r : R, is_Some (fill_buf r).

(** A reader between two calls: open, without a newline in its incomplete
    frame, which is within the limit. *)
Record open_reader (maximum : nat) (lr : BoundedLineReader R) : Prop := {
  or_open : lr_failed lr = false;
  or_pending : reader_wf lr;
  or_limit : (length (lr_pending lr) ≤ maximum)%nat;
}.

Lemma line_loop_spec maximum fuel : ∀ lr,
  reliable → open_reader maximum lr → (length (unread (lr_reader lr)) < fuel)%nat →
  ∃ lr' r, line_loop fuel maximum lr = (lr', Some r) ∧
    (r, backlog lr') = frame_spec maximum (backlog lr) ∧
    match r with Ok _ => open_reader maximum lr' | Err _ => lr_failed lr' = true end.
Proof.
  induction fuel as [|fuel IH]; intros lr Hrel [Hopen Hwf Hmax] Hfuel; [lia|]. simpl.
  destruct (line_round maximum lr) as [lr1 outcome] eqn:Hround.
  destruct (line_round_spec _ _ _ _ Hwf Hmax Hround) as [Hspec Hwf'].
  destruct outcome as [r|].
  - exists lr1, r. split; [done|]. rewrite Hopen in Hspec. destruct (Hwf' r eq_refl) as [? ?].
    destruct r as [line|[]].
    { destruct Hspec as [? Hf]. split; [done|]. by split. }
    2-4: exact Hspec.
    destruct Hspec as [_ Hnone]. destruct (Hrel (lr_reader lr)) as [? ?]. congruence.
  - destruct Hspec as (Hback & Hwf1 & Hopen1 & Hmax1 & Hlt).
    destruct (IH lr1 Hrel) as (lr' & r & Hl & Hr); [by split; [congruence|..]|lia|].
    exists lr', r. by rewrite <- Hback.
Qed.

(** C23: a call of [next_line] returns, and its result depends only on the bytes
    received, not on how the transport split them: a line within the limit, the
    end of the stream, or the exact error.  The bytes after the line stay
    unread, and only an error closes the reader. *)
Theorem next_line_chunking maximum fuel lr :
  reliable → open_reader maximum lr → (length (unread (lr_reader lr)) < fuel)%nat →
  ∃ lr' r, next_line fuel maximum lr = (lr', Some r) ∧
    (r, backlog lr') = frame_spec maximum (backlog lr) ∧
    match r with Ok _ => open_reader maximum lr' | Err _ => lr_failed lr' = true end.
Proof.
  intros Hrel Hlr Hfuel. unfold next_line. rewrite (or_open _ _ Hlr). by apply line_loop_spec.
Qed.

Lemma line_loop_cancelled maximum k : ∀ lr lr1,
  open_reader maximum lr → line_loop k maximum lr = (lr1, None) →
  open_reader maximum lr1 ∧ backlog lr1 = backlog lr ∧
  (length (unread (lr_reader lr1)) ≤ length (unread (lr_reader lr)))%nat.
Proof.
  induction k as [|k IH]; intros lr lr1 Hlr; simpl; [intros [= <-]; auto|].
  destruct (line_round maximum lr) as [lr2 [r|]] eqn:Hround; [done|]. intros Hrest.
  destruct Hlr as [Hopen Hwf Hmax].
  destruct (line_round_spec _ _ _ _ Hwf Hmax Hround) as [(Hback & Hwf2 & Hopen2 & Hmax2 & Hlt) _].
  destruct (IH lr2 lr1) as (Hlr1 & Hb1 & Hl1); [by split; [congruence|..]|done|].
  split; [done|]. split; [congruence|]. lia.
Qed.

(** C24: cancellation loses nothing.  When a call is cancelled at any await and
    the reader is used again, the next call returns what the first one would
    have returned and leaves the same bytes behind. *)
Theorem next_line_cancel_safe maximum k fuel lr lr1 :
  reliable → open_reader maximum lr → (length (unread (lr_reader lr)) < fuel)%nat →
  next_line k maximum lr = (lr1, None) →
  (next_line fuel maximum lr1).2 = (next_line fuel maximum lr).2 ∧
  backlog (next_line fuel maximum lr1).1 = backlog (next_line fuel maximum lr).1 ∧
  is_Some (next_line fuel maximum lr).2.
Proof.
  intros Hrel Hlr Hfuel Hk. unfold next_line in *. rewrite (or_open _ _ Hlr) in *.
  destruct (line_loop_cancelled _ _ _ _ Hlr Hk) as (Hlr1 & Hback & Hlen).
  rewrite (or_open _ _ Hlr1).
  destruct (line_loop_spec maximum fuel lr Hrel Hlr Hfuel) as (lr' & r & -> & Hr & _).
  destruct (line_loop_spec maximum fuel lr1 Hrel Hlr1) as (lr1' & r1 & -> & Hr1 & _); [lia|].
  rewrite Hback in Hr1. rewrite <- Hr in Hr1. injection Hr1 as -> Hb. by split_and!.
Qed.

(** ** Reading a whole stream *)

(** Calls until the end of the stream or an error. *)
Fixpoint read_lines (calls fuel maximum : nat) (lr : BoundedLineReader R) :
    list (list Z) * option (result unit StreamError) :=
  match calls with
  | O => ([], None)
  | S calls =>
      match next_line fuel maximum lr with
      | (lr', Some (Ok (Some line))) =>
          let '(lines, stop) := read_lines calls fuel maximum lr' in (line :: lines, stop)
      | (_, Some (Ok None)) => ([], Some (Ok ()))
      | (_, Some (Err e)) => ([], Some (Err e))
      | (_, None) => ([], None)
      end
  end.

Definition frame_ok (maximum : nat) (frame : list Z) : Prop :=
  position_newline frame = None ∧ (length frame ≤ maximum)%nat.

Definition write_frames (frames : list (list Z)) : list Z :=
  concat ((λ frame, frame ++ [newline]) <$> frames).

Lemma frame_spec_frame maximum frame rest :
  frame_ok maximum frame →
  frame_spec maximum (frame ++ newline :: rest) = (Ok (Some frame), rest).
Proof.
  intros [Hnl Hlen]. unfold frame_spec. rewrite position_newline_app, Hnl. simpl.
  rewrite Nat.add_0_r, bool_decide_true by done. rewrite take_app_length. f_equal.
  replace (S (length frame)) with (length frame + 1)%nat by lia. by rewrite drop_app_add.
Qed.

Lemma read_lines_frames maximum frames : ∀ calls fuel lr,
  reliable → Forall (frame_ok maximum) frames → open_reader maximum lr →
  backlog lr = write_frames frames → (length frames < calls)%nat →
  (length (backlog lr) < fuel)%nat →
  read_lines calls fuel maximum lr = (frames, Some (Ok ())).
Proof.
  induction frames as [|frame frames IH]; intros calls fuel lr Hrel Hf Hlr Hb Hc Hfuel;
    (destruct calls as [|calls]; [simpl in Hc; lia|]); simpl read_lines.
  - assert (length (unread (lr_reader lr)) < fuel)%nat as Hu
      by (unfold backlog in Hfuel; rewrite length_app in Hfuel; lia).
    unfold next_line. rewrite (or_open _ _ Hlr).
    destruct (line_loop_spec maximum fuel lr Hrel Hlr Hu) as (lr' & r & -> & Hr & _).
    rewrite Hb in Hr. unfold frame_spec in Hr. simpl in Hr. by injection Hr as -> _.
  - apply Forall_cons in Hf as [Hframe Hf].
    assert (length (unread (lr_reader lr)) < fuel)%nat as Hu
      by (unfold backlog in Hfuel; rewrite length_app in Hfuel; lia).
    unfold next_line. rewrite (or_open _ _ Hlr).
    destruct (line_loop_spec maximum fuel lr Hrel Hlr Hu) as (lr' & r & -> & Hr & Hopen).
    unfold write_frames in Hb. rewrite fmap_cons in Hb. simpl in Hb.
    rewrite <- app_assoc in Hb. simpl in Hb. fold (write_frames frames) in Hb.
    rewrite Hb, (frame_spec_frame _ _ _ Hframe) in Hr. injection Hr as -> Hb'.
    rewrite (IH calls fuel lr'); [done..|simpl in Hc; lia|].
    rewrite Hb'. rewrite Hb, length_app in Hfuel. simpl in Hfuel.
    lia.
Qed.

(** Framing round trip.  Frames without newlines and within the limit,
    written one per line, are read back exactly, in order and up to the end of
    the stream, however the transport splits the bytes. *)
Theorem frames_roundtrip maximum frames (r : R) :
  reliable → Forall (frame_ok maximum) frames → unread r = write_frames frames →
  read_lines (S (length frames)) (S (length (unread r))) maximum (BoundedLineReader_new r)
    = (frames, Some (Ok ())).
Proof.
  intros Hrel Hf Hr. apply read_lines_frames; [done|done| |done|lia|unfold backlog; simpl; lia].
  split; [done|done|simpl; lia].
Qed.
End Reader.

(** ** A reader over chunks, as a socket delivers them *)

Fixpoint first_chunk (chunks : list (list Z)) : list Z :=
  match chunks with
  | [] => []
  | [] :: chunks => first_chunk chunks
  | chunk :: _ => chunk
  end.

Fixpoint consume_chunks (n : nat) (chunks : list (list Z)) : list (list Z) :=
  match chunks with
  | [] => []
  | [] :: chunks => consume_chunks n chunks
  | chunk :: rest => drop n chunk :: rest
  end.

#[global, program] Instance chunked_bufread : BufRead (list (list Z)) := {
  unread := @concat Z;
  fill_buf := λ r, Some (first_chunk r);
  consume := consume_chunks;
}.
Next Obligation.
  intros r bytes [= <-]. induction r as [|[|b chunk] r IH]; simpl; [done|done|].
  by exists (concat r).
Qed.
Next Obligation.
  intros r [= Hr]. induction r as [|[|b chunk] r IH]; simpl in *; auto; done.
Qed.
Next Obligation.
  intros n r bytes [= <-]. induction r as [|[|b chunk] r IH]; simpl; intros Hn; [by rewrite drop_nil|auto|].
  rewrite <- drop_app_le by (simpl; lia). done.
Qed.

(** Two frames split across three chunks. *)
Definition demo_chunks : list (list Z) := [[65]; [66; 10; 67]; [10]].

Lemma chunked_reliable : reliable (R := list (list Z)).
Proof. intros r. by eexists. Qed.

Lemma next_line_chunking_witness :
  ∃ lr, next_line 6 4 (BoundedLineReader_new demo_chunks) = (lr, Some (Ok (Some [65; 66]))) ∧
    backlog lr = [67; 10].
Proof.
  destruct (next_line_chunking 4 6 (BoundedLineReader_new demo_chunks) chunked_reliable)
    as (lr & r & Hn & Hr & _); [by split; simpl; try lia|simpl; lia|].
  vm_compute in Hr. injection Hr as -> Hb. exists lr. split; [exact Hn|exact Hb].
Defined.

(** The reader after a first round that found no newline. *)
Definition demo_cancelled : BoundedLineReader (list (list Z)) :=
  mkBoundedLineReader [[]; [66; 10; 67]; [10]] [65] false.

Lemma next_line_cancel_safe_witness :
  next_line 1 4 (BoundedLineReader_new demo_chunks) = (demo_cancelled, None) ∧
  (next_line 6 4 demo_cancelled).2 = (next_line 6 4 (BoundedLineReader_new demo_chunks)).2.
Proof.
  split; [vm_compute; reflexivity|].
  apply (next_line_cancel_safe 4 1 6 (BoundedLineReader_new demo_chunks) demo_cancelled
    chunked_reliable).
  - split; simpl; [reflexivity|reflexivity|lia].
  - simpl. lia.
  - vm_compute. reflexivity.
Defined.

Lemma frames_roundtrip_witness :
  read_lines 3 6 4 (BoundedLineReader_new demo_chunks) = ([[65; 66]; [67]], Some (Ok ())).
Proof.
  apply (frames_roundtrip 4 [[65; 66]; [67]] demo_chunks chunked_reliable).
  - repeat constructor.
  - reflexivity.
Defined.
