(* ===== verification/Protocol.v ===== *)
(** * Protocol messages

    Models the command-id cache and the message decoder of [lumi-protocol]
    ([idempotency.rs], [decoder.rs], [envelope.rs]) and the frames of
    [lumi-remote-protocol/src/frame.rs].  The JSON parser and printer are
    [serde_json], a library: they are variables of the sections that use them. *)

From stdpp Require Import prelude list gmap sets strings.
From Stdlib Require Import ZArith Lia.
From S2P Require Import Prelude.
Open Scope Z_scope.

(** ** The command-id cache *)

Inductive CommandDisposition : Type := FirstSeen | Duplicate.

#[global] Instance CommandDisposition_eq_dec : EqDecision CommandDisposition.
Proof. solve_decision. Defined.

Record CommandIdCache := mkCommandIdCache {
  cc_capacity : nat;
  cc_insertion_order : list (list Z);
  cc_identifiers : gset (list Z);
}.

Inductive InvalidCacheCapacity : Type := mkInvalidCacheCapacity.

Definition CommandIdCache_new (capacity : nat) : result CommandIdCache InvalidCacheCapacity :=
  if bool_decide (capacity = 0%nat) then Err mkInvalidCacheCapacity
  else Ok (mkCommandIdCache capacity [] ∅).

Definition observe (message_id : list Z) (cache : CommandIdCache) :
    CommandIdCache * CommandDisposition :=
  if bool_decide (message_id ∈ cc_identifiers cache) then (cache, Duplicate)
  else
    let '(insertion_order, identifiers) :=
      if bool_decide (size (cc_identifiers cache) = cc_capacity cache) then
        match cc_insertion_order cache with
        | expired :: rest => (rest, cc_identifiers cache ∖ {[expired]})
        | [] => ([], cc_identifiers cache)
        end
      else (cc_insertion_order cache, cc_identifiers cache) in
    (mkCommandIdCache (cc_capacity cache) (insertion_order ++ [message_id])
       ({[message_id]} ∪ identifiers), FirstSeen).

Definition cache_contains (message_id : list Z) (cache : CommandIdCache) : bool :=
  bool_decide (message_id ∈ cc_identifiers cache).

(** The cache after a history of identifiers that were first seen. *)
Record cache_holds (history : list (list Z)) (cache : CommandIdCache) : Prop := {
  ch_capacity : (0 < cc_capacity cache)%nat;
  ch_order : cc_insertion_order cache = last_n (cc_capacity cache) history;
  ch_nodup : NoDup (cc_insertion_order cache);
  ch_set : cc_identifiers cache = list_to_set (cc_insertion_order cache);
}.

Lemma observe_holds history cache id cache' disposition :
  cache_holds history cache → observe id cache = (cache', disposition) →
  (disposition = Duplicate ↔ id ∈ last_n (cc_capacity cache) history) ∧
  cc_capacity cache' = cc_capacity cache ∧
  cache_holds (if bool_decide (disposition = FirstSeen) then history ++ [id] else history) cache'.
Proof.
  intros Hc Hobs. destruct Hc as [Hcap Hord Hnd Hset]. unfold observe in Hobs.
  case_bool_decide as Hin; rewrite Hset, elem_of_list_to_set, Hord in Hin.
  { injection Hobs as <- <-. rewrite bool_decide_false by done. by split_and!. }
  assert (size (list_to_set (last_n (cc_capacity cache) history) : gset (list Z))
    = length (last_n (cc_capacity cache) history)) as Hsize by (apply size_list_to_set; by rewrite <- Hord).
  rewrite Hset, Hord, Hsize in Hobs. rewrite Hord in Hnd.
  pose proof (last_n_snoc (cc_capacity cache) history id Hcap) as Hsnoc.
  unfold push_bounded in Hsnoc.
  case_bool_decide as Hfull.
  - destruct (last_n (cc_capacity cache) history) as [|expired rest] eqn:Hl.
    { simpl in Hfull. lia. }
    injection Hobs as <- <-. rewrite bool_decide_true by done. split; [done|]. split; [done|].
    apply NoDup_cons in Hnd as [Hex Hnd]. apply not_elem_of_cons in Hin as [Hne Hin].
    split; simpl; [done|done|..].
    + apply NoDup_app. split; [done|]. split; [|apply NoDup_singleton].
      intros x Hx Hx'. apply list_elem_of_singleton in Hx' as ->. done.
    + set_solver.
  - injection Hobs as <- <-. rewrite bool_decide_true by done. split; [done|]. split; [done|].
    split; simpl; [done|done|..].
    + apply NoDup_app. split; [done|]. split; [|apply NoDup_singleton].
      intros x Hx Hx'. apply list_elem_of_singleton in Hx' as ->. done.
    + set_solver.
Qed.

(** Observing a sequence of commands: the identifiers that were applied. *)
Fixpoint observe_all (cache : CommandIdCache) (ids : list (list Z)) :
    CommandIdCache * list (list Z) :=
  match ids with
  | [] => (cache, [])
  | id :: ids =>
      let '(cache1, disposition) := observe id cache in
      let '(cache2, applied) := observe_all cache1 ids in
      (cache2, if bool_decide (disposition = FirstSeen) then id :: applied else applied)
  end.

Lemma observe_all_holds ids : ∀ history cache,
  cache_holds history cache →
  cache_holds (history ++ (observe_all cache ids).2) (observe_all cache ids).1 ∧
  cc_capacity (observe_all cache ids).1 = cc_capacity cache.
Proof.
  induction ids as [|id ids IH]; intros history cache Hc; simpl; [by rewrite app_nil_r|].
  destruct (observe id cache) as [cache1 disposition] eqn:Ho.
  destruct (observe_holds _ _ _ _ _ Hc Ho) as (_ & Hcap & Hc1).
  destruct (IH _ _ Hc1) as [Hc2 Hcap2]. destruct (observe_all cache1 ids) as [cache2 applied]; simpl in *.
  split; [|congruence]. case_bool_decide; [by rewrite <- app_assoc in Hc2|done].
Qed.

(** The cache applies a command at most once per window.  For every sequence of
    observed identifiers on a new cache, an identifier is reported as a duplicate
    exactly when it is among the last [capacity] applied ones, and the cache
    stores exactly those: memory is bounded by the capacity. *)
Theorem cache_window capacity cache0 ids id :
  CommandIdCache_new capacity = Ok cache0 →
  let '(cache, applied) := observe_all cache0 ids in
  ((observe id cache).2 = Duplicate ↔ id ∈ last_n capacity applied) ∧
  cc_insertion_order cache = last_n capacity applied ∧
  (size (cc_identifiers cache) ≤ capacity)%nat.
Proof.
  unfold CommandIdCache_new. case_bool_decide; [done|]. intros [= <-].
  assert (cache_holds [] (mkCommandIdCache capacity [] ∅)) as Hc0.
  { split; simpl; [lia|done|constructor|done]. }
  pose proof (observe_all_holds ids _ _ Hc0) as [Hc Hcap].
  destruct (observe_all _ ids) as [cache applied]; simpl in *.
  destruct (observe id cache) as [cache' disposition] eqn:Ho; simpl.
  destruct (observe_holds _ _ _ _ _ Hc Ho) as (Hd & _ & _). rewrite Hcap in Hd.
  split; [done|]. destruct Hc as [_ Hord Hnd Hset]. rewrite Hcap in Hord. split; [done|].
  rewrite Hset, size_list_to_set, Hord by done. unfold last_n. rewrite length_drop. lia.
Qed.

Lemma cache_window_witness :
  (observe [1] (observe_all (mkCommandIdCache 2 [] ∅) [[1]; [2]; [1]; [3]]).1).2 = FirstSeen ∧
  ((observe [2] (observe_all (mkCommandIdCache 2 [] ∅) [[1]; [2]; [1]; [3]]).1).2 = Duplicate
   ↔ [2] ∈ last_n 2 [[1]; [2]; [3]]).
Proof.
  split; [vm_compute; reflexivity|].
  pose proof (cache_window 2 (mkCommandIdCache 2 [] ∅) [[1]; [2]; [1]; [3]] [2] eq_refl) as H.
  destruct (observe_all _ _) as [cache applied] eqn:E. vm_compute in E. injection E as <- <-.
  exact (proj1 H).
Defined.

(** ** The message decoder *)

Definition PROTOCOL_VERSION : Z := 1.
Definition MAX_MESSAGE_BYTES : Z := 16777216.
Definition MAX_IDENTIFIER_BYTES : Z := 128.

Inductive MessageType : Type := MsgCommand | MsgSnapshot | MsgEvent | MsgError.

Inductive DecodeError : Type :=
| Oversized (actual maximum : Z)
| Malformed
| UnsupportedProtocolVersion (version : Z)
| InvalidField (field : string).

Record MessageEnvelope (Payload : Type) := mkMessageEnvelope {
  env_protocol_version : Z;
  env_message_type : MessageType;
  env_message_id : str;
  env_sequence : Z;
  env_correlation_id : str;
  env_sent_at : str;
  env_payload : Payload;
}.
Arguments env_protocol_version {Payload} _.
Arguments env_message_id {Payload} _.
Arguments env_correlation_id {Payload} _.
Arguments env_sent_at {Payload} _.

Definition validate_identifier (field : string) (value : str) : result unit DecodeError :=
  if bool_decide (value = []) || (MAX_IDENTIFIER_BYTES <? str_len value)
  then Err (InvalidField field) else Ok ().

Section Decoder.
Context {Payload : Type}.
(** [serde_json::from_slice] *)
Variable from_slice : list Z → option (MessageEnvelope Payload).

Definition MessageDecoder_decode (input : list Z) : result (MessageEnvelope Payload) DecodeError :=
  if MAX_MESSAGE_BYTES <? Z.of_nat (length input)
  then Err (Oversized (Z.of_nat (length input)) MAX_MESSAGE_BYTES)
  else
    let? envelope := ok_or (from_slice input) Malformed in
    if negb (env_protocol_version envelope =? PROTOCOL_VERSION)
    then Err (UnsupportedProtocolVersion (env_protocol_version envelope))
    else
      let? _ := validate_identifier "messageId" (env_message_id envelope) in
      let? _ := validate_identifier "correlationId" (env_correlation_id envelope) in
      if bool_decide (env_sent_at envelope = []) then Err (InvalidField "sentAt")
      else Ok envelope.

Lemma validate_identifier_Ok field value u :
  validate_identifier field value = Ok u → value ≠ [] ∧ str_len value ≤ MAX_IDENTIFIER_BYTES.
Proof.
  unfold validate_identifier. case_bool_decide; simpl; [done|].
  destruct (Z.ltb_spec MAX_IDENTIFIER_BYTES (str_len value)); done.
Qed.

(** A decoded message is within every limit of the protocol. *)
Lemma decoded_message_valid input envelope :
  MessageDecoder_decode input = Ok envelope →
  Z.of_nat (length input) ≤ MAX_MESSAGE_BYTES ∧ from_slice input = Some envelope ∧
  env_protocol_version envelope = PROTOCOL_VERSION ∧
  env_message_id envelope ≠ [] ∧ str_len (env_message_id envelope) ≤ MAX_IDENTIFIER_BYTES ∧
  env_correlation_id envelope ≠ [] ∧
  str_len (env_correlation_id envelope) ≤ MAX_IDENTIFIER_BYTES ∧ env_sent_at envelope ≠ [].
Proof.
  unfold MessageDecoder_decode.
  destruct (Z.ltb_spec MAX_MESSAGE_BYTES (Z.of_nat (length input))); [done|]. intros H'.
  unbind H'. destruct (Z.eqb_spec (env_protocol_version v) PROTOCOL_VERSION); [|done].
  simpl in H'. unbind H'. case_bool_decide; [done|]. injection H' as <-.
  apply validate_identifier_Ok in E0, E1. naive_solver.
Qed.
End Decoder.

(** ** Remote frames *)

Definition REMOTE_PROTOCOL_VERSION : Z := 1.
Definition MAX_REMOTE_FRAME_BYTES : Z := 512 * 1024.

Inductive RemoteFrameKind : Type :=
| FrameHello | FrameSnapshot | FrameProjection | FrameTransportAnchor | FrameCommand
| FrameCommandResult | FrameError.

Record RemoteFrame (Value : Type) := mkRemoteFrame {
  rf_protocol_version : Z;
  rf_frame_kind : RemoteFrameKind;
  rf_sequence : Z;
  rf_correlation_id : option str;
  rf_payload : Value;
}.
Arguments mkRemoteFrame {Value} _ _ _ _ _.
Arguments rf_protocol_version {Value} _.
Arguments rf_frame_kind {Value} _.
Arguments rf_sequence {Value} _.
Arguments rf_correlation_id {Value} _.
Arguments rf_payload {Value} _.

Inductive RemoteFrameError : Type :=
| FrameOversized
| FrameInvalidJson
| FrameUnsupportedProtocol (version : Z)
| FrameInvalidCorrelationId
| FrameInvalidSequence.

Definition correlation_id_invalid (correlation_id : option str) : bool :=
  match correlation_id with
  | Some value => (128 <? str_len value) || existsb char_is_control value
  | None => false
  end.

Section Frames.
Context {Value : Type}.
(** [serde_json::from_slice] and [serde_json::to_vec] for frames. *)
Variable from_slice : list Z → option (RemoteFrame Value).
Variable to_vec : RemoteFrame Value → option (list Z).

Definition RemoteFrame_decode (bytes : list Z) : result (RemoteFrame Value) RemoteFrameError :=
  if MAX_REMOTE_FRAME_BYTES <? Z.of_nat (length bytes) then Err FrameOversized
  else
    let? frame := ok_or (from_slice bytes) FrameInvalidJson in
    if negb (rf_protocol_version frame =? REMOTE_PROTOCOL_VERSION)
    then Err (FrameUnsupportedProtocol (rf_protocol_version frame))
    else if rf_sequence frame =? 0 then Err FrameInvalidSequence
    else if correlation_id_invalid (rf_correlation_id frame) then Err FrameInvalidCorrelationId
    else Ok frame.

Definition RemoteFrame_encode (frame : RemoteFrame Value) : result (list Z) RemoteFrameError :=
  if negb (rf_protocol_version frame =? REMOTE_PROTOCOL_VERSION)
  then Err (FrameUnsupportedProtocol (rf_protocol_version frame))
  else if rf_sequence frame =? 0 then Err FrameInvalidSequence
  else
    let? bytes := ok_or (to_vec frame) FrameInvalidJson in
    if MAX_REMOTE_FRAME_BYTES <? Z.of_nat (length bytes) then Err FrameOversized
    else Ok bytes.

(** What [encode] and [decode] look at. *)
Definition frame_header (frame : RemoteFrame Value) : Z * RemoteFrameKind * Z * option str :=
  (rf_protocol_version frame, rf_frame_kind frame, rf_sequence frame, rf_correlation_id frame).

(** Of the JSON library: where it reads what it printed, it reads integers and strings as
    they were printed.  It may refuse what it printed, and nothing is said of payloads. *)
Hypothesis header_read_back : ∀ frame bytes frame',
  to_vec frame = Some bytes → from_slice bytes = Some frame' → frame_header frame' = frame_header frame.

(** C40: the checks of [encode] and [decode] agree, whatever the JSON library does to a
    payload.  Of what [encode] wrote, [decode] never says that it is too large, of another
    protocol or without a sequence number: it fails because the library does not read it,
    or for its correlation identifier, which encoding does not check, and otherwise gives a
    frame with the same header.  And a frame that was decoded is encoded again, unless the
    library cannot print it or prints too much. *)
Theorem frame_checks_agree frame bytes :
  (RemoteFrame_encode frame = Ok bytes →
   match from_slice bytes with
   | None => RemoteFrame_decode bytes = Err FrameInvalidJson
   | Some frame' =>
       frame_header frame' = frame_header frame ∧
       RemoteFrame_decode bytes =
         if correlation_id_invalid (rf_correlation_id frame) then Err FrameInvalidCorrelationId else Ok frame'
   end) ∧
  (RemoteFrame_decode bytes = Ok frame →
   correlation_id_invalid (rf_correlation_id frame) = false ∧
   match to_vec frame with
   | None => RemoteFrame_encode frame = Err FrameInvalidJson
   | Some bytes' =>
       RemoteFrame_encode frame =
         if MAX_REMOTE_FRAME_BYTES <? Z.of_nat (length bytes') then Err FrameOversized else Ok bytes'
   end).
Proof.
  unfold RemoteFrame_encode, RemoteFrame_decode. split; intros H.
  - destruct (rf_protocol_version frame =? REMOTE_PROTOCOL_VERSION) eqn:Hv; simpl in H; [|done].
    destruct (rf_sequence frame =? 0) eqn:Hs; [done|]. unbind H.
    destruct (MAX_REMOTE_FRAME_BYTES <? Z.of_nat (length v)) eqn:Hl; [done|]. injection H as <-. rewrite Hl.
    destruct (from_slice v) as [frame'|] eqn:Hr; [|done]. simpl.
    pose proof (header_read_back _ _ _ E Hr) as Hh. split; [done|]. injection Hh as -> _ -> ->. by rewrite Hv, Hs.
  - destruct (MAX_REMOTE_FRAME_BYTES <? Z.of_nat (length bytes)); [done|]. unbind H.
    destruct (rf_protocol_version v =? REMOTE_PROTOCOL_VERSION) eqn:Hv; simpl in H; [|done].
    destruct (rf_sequence v =? 0) eqn:Hs; [done|]. destruct (correlation_id_invalid _) eqn:Hc; [done|].
    injection H as <-. rewrite Hv, Hs. split; [done|]. by destruct (to_vec v).
Qed.
End Frames.

(** A library for frames of one kind with a number as payload, which is printed in steps of
    ten and not read above a hundred: its sequence number, the payload, and the correlation
    id. *)
Definition demo_to_vec (f : RemoteFrame Z) : option (list Z) :=
  match rf_frame_kind f, rf_protocol_version f with
  | FrameHello, 1 =>
      Some (rf_sequence f :: rf_payload f / 10 :: match rf_correlation_id f with Some id => 1 :: id | None => [] end)
  | _, _ => None
  end.

Definition demo_from_slice (bytes : list Z) : option (RemoteFrame Z) :=
  match bytes with
  | sequence :: tens :: rest =>
      if 10 <? tens then None
      else
        match rest with
        | [] => Some (mkRemoteFrame 1 FrameHello sequence None (10 * tens))
        | 1 :: id => Some (mkRemoteFrame 1 FrameHello sequence (Some id) (10 * tens))
        | _ => None
        end
  | _ => None
  end.

Lemma demo_header_read_back f bytes f' :
  demo_to_vec f = Some bytes → demo_from_slice bytes = Some f' → frame_header f' = frame_header f.
Proof.
  destruct f as [version kind sequence id payload]. unfold demo_to_vec; simpl.
  destruct kind; try done. destruct version as [|[]|]; try done.
  destruct id; intros [= <-]; simpl; destruct (10 <? payload / 10); try done; by intros [= <-].
Qed.

(** A frame whose payload is not read back exactly, and one that is not read at all. *)
Lemma frame_checks_agree_witness :
  RemoteFrame_decode demo_from_slice [7; 4; 1; 65] = Ok (mkRemoteFrame 1 FrameHello 7 (Some [65]) 40) ∧
  RemoteFrame_decode demo_from_slice [7; 20] = Err FrameInvalidJson ∧
  RemoteFrame_encode demo_to_vec (mkRemoteFrame 1 FrameHello 7 (Some [65]) 40) = Ok [7; 4; 1; 65].
Proof.
  pose proof (frame_checks_agree demo_from_slice demo_to_vec demo_header_read_back) as H.
  assert (RemoteFrame_decode demo_from_slice [7; 4; 1; 65] = Ok (mkRemoteFrame 1 FrameHello 7 (Some [65]) 40)) as Hd
    by exact (proj2 (proj1 (H (mkRemoteFrame 1 FrameHello 7 (Some [65]) 42) [7; 4; 1; 65]) eq_refl)).
  split; [exact Hd|]. split.
  - exact (proj1 (H (mkRemoteFrame 1 FrameHello 7 None 200) [7; 20]) eq_refl).
  - exact (proj2 (proj2 (H (mkRemoteFrame 1 FrameHello 7 (Some [65]) 40) [7; 4; 1; 65]) Hd)).
Defined.

(** A frame that is written and cannot be read: its correlation id has a control
    character. *)
Theorem encoded_frame_refused :
  ∃ frame bytes, RemoteFrame_encode demo_to_vec frame = Ok bytes ∧
    RemoteFrame_decode demo_from_slice bytes = Err FrameInvalidCorrelationId.
Proof. exists (mkRemoteFrame 1 FrameHello 7 (Some [10]) 0), [7; 0; 1; 10]. by split. Qed.
