(* ===== verification/Output.v ===== *)
(** * Lighting outputs

    Models the provider port [lumi-lighting-output/src/lib.rs] and the dry-run
    provider [lumi-output-dry-run/src/lib.rs], and closes the loop from the
    reducer's effects over the provider to the recorded results. *)

From stdpp Require Import prelude list gmap strings.
From Stdlib Require Import ZArith Lia.
From S2P Require Import Prelude.
From S2P Require Import Track.
From S2P Require Import Plan.
From S2P Require Import Event.
From S2P Require Import State.
From S2P Require Import Reducer.
From S2P Require Import ReducerSafety.
From S2P Require Import Demo.
From S2P Require Import ReducerProps.
Open Scope Z_scope.

Record LightingOutputCapabilities := mkLightingOutputCapabilities {
  supports_apply_look : bool;
  supports_hold_current_look : bool;
}.

(** The port: [execute] takes [&mut self], so it returns the new provider. *)
Class LightingOutputProvider (P E : Type) := {
  provider_kind : P → str;
  capabilities : P → LightingOutputCapabilities;
  execute : OutputExecutionRequest → MonotonicTime → P → P * result OutputEffectResult E;
}.

Inductive DryRunOutputError : Type := InvalidCapacity.

Record DryRunLightingOutputProvider := mkDryRunLightingOutputProvider {
  dry_capacity : nat;
  dry_records : list OutputEffectResult;
}.

Definition DEFAULT_RECORD_CAPACITY : nat := 256.

Definition DryRun_default : DryRunLightingOutputProvider :=
  mkDryRunLightingOutputProvider DEFAULT_RECORD_CAPACITY [].

Definition DryRun_try_new (capacity : nat) : result DryRunLightingOutputProvider DryRunOutputError :=
  if bool_decide (capacity = 0%nat) then Err InvalidCapacity
  else Ok (mkDryRunLightingOutputProvider capacity []).

Definition DryRun_execute (request : OutputExecutionRequest) (actual_at : MonotonicTime)
    (p : DryRunLightingOutputProvider) :
    DryRunLightingOutputProvider * result OutputEffectResult DryRunOutputError :=
  let result := mkOutputEffectResult request actual_at StatusSimulated PhraseBoundary in
  (mkDryRunLightingOutputProvider (dry_capacity p)
     (push_bounded (dry_capacity p) (dry_records p) result), Ok result).

#[global] Instance DryRun_provider :
  LightingOutputProvider DryRunLightingOutputProvider DryRunOutputError := {
  provider_kind := λ _, lit "dryRun";
  capabilities := λ _, mkLightingOutputCapabilities true true;
  execute := DryRun_execute;
}.

(** ** Executing the cues of a run *)

Section Execution.
Context {P E : Type} `{LightingOutputProvider P E}.

(** Every cue in order, at the time it was scheduled; stops at an error. *)
Fixpoint execute_all (p : P) (requests : list OutputExecutionRequest) :
    P * result (list OutputEffectResult) E :=
  match requests with
  | [] => (p, Ok [])
  | request :: requests =>
      let '(p1, r) := execute request (req_scheduled_at request) p in
      match r with
      | Err e => (p1, Err e)
      | Ok r =>
          let '(p2, rest) := execute_all p1 requests in
          (p2, match rest with Ok rs => Ok (r :: rs) | Err e => Err e end)
      end
  end.
End Execution.

Definition simulated (request : OutputExecutionRequest) : OutputEffectResult :=
  mkOutputEffectResult request (req_scheduled_at request) StatusSimulated PhraseBoundary.

Lemma dry_run_execute_all requests : ∀ capacity history,
  (0 < capacity)%nat →
  execute_all (mkDryRunLightingOutputProvider capacity (last_n capacity history)) requests =
  (mkDryRunLightingOutputProvider capacity (last_n capacity (history ++ (simulated <$> requests))),
   Ok (simulated <$> requests)).
Proof.
  induction requests as [|request requests IH]; intros capacity history Hc; simpl.
  { by rewrite app_nil_r. }
  fold (simulated request). unfold DryRun_execute; simpl. fold (simulated request).
  rewrite <- last_n_snoc, IH by done. by rewrite <- app_assoc.
Qed.

(** The dry run records a show exactly.  Executing the cues of any run of the
    reducer from its initial state never fails; every cue is answered once, in
    order, as simulated at its scheduled time, under command numbers 1, 2, 3, ...;
    the provider keeps the last [capacity] results and no more. *)
Theorem dry_run_transcript capacity p0 es :
  DryRun_try_new capacity = Ok p0 →
  let cues := cues_of (run_events RuntimeState_default es).2 in
  execute_all p0 cues =
    (mkDryRunLightingOutputProvider capacity (last_n capacity (simulated <$> cues)),
     Ok (simulated <$> cues)) ∧
  (∀ i r, (simulated <$> cues) !! i = Some r →
     req_command_id (oer_request r) = Z.of_nat i + 1 ∧ oer_status r = StatusSimulated).
Proof.
  unfold DryRun_try_new. case_bool_decide; [done|]. intros [= <-]. set (cues := cues_of _). split.
  - pose proof (dry_run_execute_all cues capacity []) as Hx.
    unfold last_n at 1 in Hx. simpl in Hx. apply Hx. lia.
  - intros i r. rewrite list_lookup_fmap, fmap_Some. intros (c & Hi & ->). split; [|done].
    simpl. rewrite (run_command_numbers _ _ _ _ Hi). simpl. lia.
Qed.

Lemma dry_run_transcript_witness :
  length (cues_of (run_events RuntimeState_default (demo_start ++ demo_phrases)).2) = 2%nat ∧
  execute_all (mkDryRunLightingOutputProvider 1 [])
    (cues_of (run_events RuntimeState_default (demo_start ++ demo_phrases)).2) =
  (mkDryRunLightingOutputProvider 1
     (last_n 1 (simulated <$> cues_of (run_events RuntimeState_default (demo_start ++ demo_phrases)).2)),
   Ok (simulated <$> cues_of (run_events RuntimeState_default (demo_start ++ demo_phrases)).2)).
Proof.
  split; [vm_compute; reflexivity|].
  exact (proj1 (dry_run_transcript 1 (mkDryRunLightingOutputProvider 1 []) (demo_start ++ demo_phrases)
    eq_refl)).
Defined.
