(* ===== verification/Midi.v ===== *)
(** * MIDI source control

    Models [lumi-midi-output/src/lib.rs] up to the realtime lane: addresses,
    messages, the provider port and [MidiOutputController].  The provider is any
    instance of [MidiSourceProvider]; [Traced] puts a log of the calls in front of
    it, so that the theorems speak about what reaches a provider that may fail at
    any call. *)

From stdpp Require Import prelude list gmap strings.
From Stdlib Require Import ZArith Lia.
From S2P Require Import Prelude.
Open Scope Z_scope.

(** ** Constants; an [Instant] and a [Duration] are nanoseconds *)

Definition MIDI_SOURCE_NAME : str := lit "Lumi Virtual MIDI".
Definition MIDI_CLOCK_SOURCE_NAME : str := lit "Lumi Clock".
Definition MIDI_CHANNEL : Z := 16.
Definition BANK_NOTE_BASE : Z := 60.
Definition AUTOLOOP_NOTE_BASE : Z := 64.
Definition STATIC_LOOK_CHANNEL : Z := 12.
Definition BANK_SETTLE_DELAY : Z := 50 * 1000000.
Definition REALTIME_LATE_DISPATCH_THRESHOLD : Z := 20 * 1000000.

(** ** Addresses *)

Inductive MidiAddressKind : Type := KindBank | KindAutoloop | KindStaticLook | KindCustom.

#[global] Instance MidiAddressKind_eq_dec : EqDecision MidiAddressKind.
Proof. solve_decision. Defined.

Record MidiAddress := mkMidiAddress {
  ma_kind : MidiAddressKind;
  ma_number : Z;
  ma_note : Z;
  ma_channel : Z;
}.

#[global] Instance MidiAddress_eq_dec : EqDecision MidiAddress.
Proof. solve_decision. Defined.

Definition BANK_ONE : MidiAddress := mkMidiAddress KindBank 1 BANK_NOTE_BASE MIDI_CHANNEL.

Definition MidiAddress_bank (number : Z) : option MidiAddress :=
  if (1 <=? number) && (number <=? 4)
  then Some (mkMidiAddress KindBank number (BANK_NOTE_BASE + number - 1) MIDI_CHANNEL)
  else None.

Definition MidiAddress_autoloop (bank_number number : Z) : option MidiAddress :=
  if (1 <=? bank_number) && (bank_number <=? 4) && (1 <=? number) && (number <=? 32)
  then Some (mkMidiAddress KindAutoloop number (AUTOLOOP_NOTE_BASE + number - 1)
               (12 + bank_number))
  else None.

Definition MidiAddress_static_look (number : Z) : option MidiAddress :=
  if (1 <=? number) && (number <=? 32)
  then Some (mkMidiAddress KindStaticLook number (AUTOLOOP_NOTE_BASE + number - 1)
               STATIC_LOOK_CHANNEL)
  else None.

Definition MidiAddress_custom (channel note : Z) : option MidiAddress :=
  if (1 <=? channel) && (channel <=? 16) && (note <? 128)
  then Some (mkMidiAddress KindCustom note note channel)
  else None.

(** ** Messages: three bytes, of which [mm_length] are sent *)

Record MidiMessage := mkMidiMessage {
  mm_bytes : Z * Z * Z;
  mm_length : Z;
}.

#[global] Instance MidiMessage_eq_dec : EqDecision MidiMessage.
Proof. solve_decision. Defined.

Definition note_on (channel note velocity : Z) : option MidiMessage :=
  if (channel <? 16) && (note <? 128) && (velocity <? 128)
  then Some (mkMidiMessage (Z.lor 0x90 channel, note, velocity) 3)
  else None.

Definition note_off (channel note : Z) : option MidiMessage :=
  if (channel <? 16) && (note <? 128)
  then Some (mkMidiMessage (Z.lor 0x80 channel, note, 0) 3)
  else None.

Definition system_realtime (status : Z) : MidiMessage := mkMidiMessage (status, 0, 0) 1.
Definition midi_clock : MidiMessage := system_realtime 0xf8.
Definition midi_start : MidiMessage := system_realtime 0xfa.
Definition midi_continue_playback : MidiMessage := system_realtime 0xfb.
Definition midi_stop : MidiMessage := system_realtime 0xfc.

Definition song_position (position_16th : Z) : option MidiMessage :=
  if position_16th <? 16384
  then Some (mkMidiMessage
         (0xf2, Z.land position_16th 0x7f, Z.land (Z.shiftr position_16th 7) 0x7f) 3)
  else None.

(** ** The provider port *)

Class MidiSourceProvider (P E : Type) := {
  error_to_string : E → str;
  midi_publish : P → str → P * result unit E;
  midi_provider_stop : P → P;
  midi_send : P → list MidiMessage → P * result unit E;
}.

Inductive MidiOutputError (E : Type) : Type :=
| SourceNotPublished
| PulseCounterOverflow
| InvalidAddress
| ProviderFailed (error : E).
Arguments SourceNotPublished {E}.
Arguments PulseCounterOverflow {E}.
Arguments InvalidAddress {E}.
Arguments ProviderFailed {E} error.

Inductive MidiSourceState : Type := SourceStopped | SourceReady.

#[global] Instance MidiSourceState_eq_dec : EqDecision MidiSourceState.
Proof. solve_decision. Defined.

Record MidiSourceStatus := mkMidiSourceStatus {
  mss_state : MidiSourceState;
  mss_source_name : str;
  mss_sent_pulse_count : Z;
  mss_last_event : option str;
  mss_last_error : option str;
  mss_active_bank : option Z;
}.

Record MidiOutputController (P : Type) := mkMidiOutputController {
  moc_provider : P;
  moc_state : MidiSourceState;
  moc_sent_pulse_count : Z;
  moc_last_event : option str;
  moc_last_error : option str;
  moc_active_bank : option Z;
}.
Arguments mkMidiOutputController {P}.
Arguments moc_provider {P}.
Arguments moc_state {P}.
Arguments moc_sent_pulse_count {P}.
Arguments moc_last_event {P}.
Arguments moc_last_error {P}.
Arguments moc_active_bank {P}.

(** The separators of the event texts: a middle dot and an arrow. *)
Definition dot : str := [32; 183; 32].
Definition arrow : str := [32; 8594; 32].

Definition kind_name (k : MidiAddressKind) : str :=
  match k with
  | KindBank => lit "Bank"
  | KindAutoloop => lit "AutoLoop"
  | KindStaticLook => lit "Static Look"
  | KindCustom => lit "Custom"
  end.

Section Controller.
Context {P E : Type} `{MidiSourceProvider P E}.
Implicit Types c : MidiOutputController P.

Definition set_event (s : str) c : MidiOutputController P :=
  mkMidiOutputController (moc_provider c) (moc_state c) (moc_sent_pulse_count c) (Some s)
    (moc_last_error c) (moc_active_bank c).

Definition set_active_bank (b : option Z) c : MidiOutputController P :=
  mkMidiOutputController (moc_provider c) (moc_state c) (moc_sent_pulse_count c)
    (moc_last_event c) (moc_last_error c) b.

Definition MidiOutputController_new (provider : P) : MidiOutputController P :=
  mkMidiOutputController provider SourceStopped 0 None None None.

Definition controller_publish c : MidiOutputController P * result unit (MidiOutputError E) :=
  let '(p, r) := midi_publish (moc_provider c) MIDI_SOURCE_NAME in
  match r with
  | Err error =>
      (mkMidiOutputController p SourceStopped (moc_sent_pulse_count c) (moc_last_event c)
         (Some (error_to_string error)) None, Err (ProviderFailed error))
  | Ok _ =>
      (mkMidiOutputController p SourceReady (moc_sent_pulse_count c)
         (Some (lit "Virtual MIDI source published; no MIDI sent")) None None, Ok tt)
  end.

Definition controller_stop c : MidiOutputController P :=
  mkMidiOutputController (midi_provider_stop (moc_provider c)) SourceStopped
    (moc_sent_pulse_count c) (Some (lit "Virtual MIDI source stopped")) (moc_last_error c) None.

(** The arm of [send_address_pulse] for a provider error. *)
Definition fail_closed c (p : P) (error : E) : MidiOutputController P :=
  mkMidiOutputController (midi_provider_stop p) SourceStopped (moc_sent_pulse_count c)
    (Some (lit "Virtual MIDI source failed closed")) (Some (error_to_string error)) None.

Definition send_address_pulse c (address : MidiAddress) :
    MidiOutputController P * result unit (MidiOutputError E) :=
  if bool_decide (moc_state c ≠ SourceReady) then (c, Err SourceNotPublished)
  else
    let channel := Z.max 0 (ma_channel address - 1) in
    match note_on channel (ma_note address) 100 with
    | None => (c, Err SourceNotPublished)
    | Some on =>
    match note_off channel (ma_note address) with
    | None => (c, Err SourceNotPublished)
    | Some off =>
    match checked_add_u64 (moc_sent_pulse_count c) 1 with
    | None => (c, Err PulseCounterOverflow)
    | Some next_count =>
        let '(p, r) := midi_send (moc_provider c) [on; off] in
        match r with
        | Err error => (fail_closed c p error, Err (ProviderFailed error))
        | Ok _ =>
            (mkMidiOutputController p (moc_state c) next_count (moc_last_event c) None
               (moc_active_bank c), Ok tt)
        end
    end end end.

(** [self.f()?; rest]: the state survives an error. *)
Definition and_then (r : MidiOutputController P * result unit (MidiOutputError E))
    (k : MidiOutputController P → MidiOutputController P * result unit (MidiOutputError E)) :
    MidiOutputController P * result unit (MidiOutputError E) :=
  match r with
  | (c, Ok _) => k c
  | (c, Err e) => (c, Err e)
  end.

Definition send_address_learn_pulse c (address : MidiAddress) :
    MidiOutputController P * result unit (MidiOutputError E) :=
  and_then (send_address_pulse c address) (λ c,
    (set_event (kind_name (ma_kind address) ++ lit " " ++ show_u (ma_number address)
       ++ lit " learn pulse sent" ++ dot ++ lit "Ch " ++ show_u (ma_channel address)
       ++ dot ++ lit "Note " ++ show_u (ma_note address) ++ dot
       ++ lit "Note Off included") c, Ok tt)).

Definition send_learn_pulse c : MidiOutputController P * result unit (MidiOutputError E) :=
  send_address_learn_pulse c BANK_ONE.

Definition toggle_static_look c (static_look_number : Z) :
    MidiOutputController P * result unit (MidiOutputError E) :=
  match MidiAddress_static_look static_look_number with
  | None => (c, Err InvalidAddress)
  | Some address =>
      and_then (send_address_pulse c address) (λ c,
        (set_event (lit "Toggled Static Look " ++ show_u static_look_number ++ dot ++ lit "Ch "
           ++ show_u (ma_channel address) ++ dot ++ lit "Note " ++ show_u (ma_note address)) c,
         Ok tt))
  end.

(** The [wait] closure only sleeps, which the state does not show. *)
Definition trigger_autoloop_with_wait c (bank_number autoloop_number : Z) :
    MidiOutputController P * result unit (MidiOutputError E) :=
  match MidiAddress_bank bank_number with
  | None => (c, Err InvalidAddress)
  | Some bank =>
  match MidiAddress_autoloop bank_number autoloop_number with
  | None => (c, Err InvalidAddress)
  | Some autoloop =>
      and_then (send_address_pulse c bank) (λ c,
      let c := set_active_bank (Some bank_number) c in
      let c := set_event (lit "Bank " ++ show_u bank_number ++ lit " selected" ++ dot
                 ++ lit "waiting " ++ show_u (BANK_SETTLE_DELAY / 1000000)
                 ++ lit " ms for SoundSwitch") c in
      and_then (send_address_pulse c autoloop) (λ c,
      (set_event (lit "Triggered Bank " ++ show_u bank_number ++ arrow ++ lit "AutoLoop "
         ++ show_u autoloop_number ++ dot ++ lit "Bank Ch " ++ show_u MIDI_CHANNEL
         ++ lit " Note " ++ show_u (ma_note bank) ++ arrow ++ lit "AutoLoop Ch "
         ++ show_u (ma_channel autoloop) ++ lit " Note " ++ show_u (ma_note autoloop) ++ dot
         ++ show_u (BANK_SETTLE_DELAY / 1000000) ++ lit " ms bank gap") c, Ok tt)))
  end end.

Definition trigger_autoloop c (bank_number autoloop_number : Z) :
    MidiOutputController P * result unit (MidiOutputError E) :=
  trigger_autoloop_with_wait c bank_number autoloop_number.

Definition select_bank c (bank_number : Z) :
    MidiOutputController P * result unit (MidiOutputError E) :=
  match MidiAddress_bank bank_number with
  | None => (c, Err InvalidAddress)
  | Some bank =>
      and_then (send_address_pulse c bank) (λ c,
        (set_event (lit "Pre-armed Bank " ++ show_u bank_number ++ dot ++ lit "Ch "
           ++ show_u MIDI_CHANNEL ++ dot ++ lit "Note " ++ show_u (ma_note bank))
           (set_active_bank (Some bank_number) c), Ok tt))
  end.

Definition trigger_autoloop_button c (bank_number autoloop_number : Z) :
    MidiOutputController P * result unit (MidiOutputError E) :=
  match MidiAddress_autoloop bank_number autoloop_number with
  | None => (c, Err InvalidAddress)
  | Some autoloop =>
      and_then (send_address_pulse c autoloop) (λ c,
        (set_event (lit "Triggered Bank " ++ show_u bank_number ++ arrow ++ lit "AutoLoop "
           ++ show_u autoloop_number ++ dot ++ lit "Ch " ++ show_u (ma_channel autoloop) ++ dot
           ++ lit "Note " ++ show_u (ma_note autoloop) ++ dot ++ lit "Bank pre-armed") c, Ok tt))
  end.

Definition controller_status c : MidiSourceStatus :=
  mkMidiSourceStatus (moc_state c) MIDI_SOURCE_NAME (moc_sent_pulse_count c) (moc_last_event c)
    (moc_last_error c) (moc_active_bank c).
End Controller.

(** ** A provider with a log of the calls made to it *)

Inductive ProviderCall : Type :=
| CallPublish (ok : bool)
| CallStop
| CallSend (messages : list MidiMessage) (ok : bool).

Record Traced (P : Type) := mkTraced {
  tr_inner : P;
  tr_calls : list ProviderCall;
}.
Arguments mkTraced {P}.
Arguments tr_inner {P}.
Arguments tr_calls {P}.

Definition result_flag {A E} (r : result A E) : bool :=
  match r with Ok _ => true | Err _ => false end.

#[global] Instance Traced_provider {P E} `{MidiSourceProvider P E} :
  MidiSourceProvider (Traced P) E := {
  error_to_string := error_to_string;
  midi_publish := λ t name,
    let '(p, r) := midi_publish (tr_inner t) name in
    (mkTraced p (tr_calls t ++ [CallPublish (result_flag r)]), r);
  midi_provider_stop := λ t,
    mkTraced (midi_provider_stop (tr_inner t)) (tr_calls t ++ [CallStop]);
  midi_send := λ t messages,
    let '(p, r) := midi_send (tr_inner t) messages in
    (mkTraced p (tr_calls t ++ [CallSend messages (result_flag r)]), r);
}.

(** ** Messages and addresses are in the ranges of MIDI 1.0 *)

(** A status byte, then data bytes of seven bits. *)
Definition message_valid (m : MidiMessage) : bool :=
  let '(s, d1, d2) := mm_bytes m in
  (128 <=? s) && (s <=? 255) && (0 <=? d1) && (d1 <? 128) && (0 <=? d2) && (d2 <? 128)
  && (1 <=? mm_length m) && (mm_length m <=? 3).

(** Addresses as the constructors make them. *)
Inductive MadeAddress : MidiAddress → Prop :=
| made_bank n a : MidiAddress_bank n = Some a → MadeAddress a
| made_autoloop b n a : MidiAddress_autoloop b n = Some a → MadeAddress a
| made_static_look n a : MidiAddress_static_look n = Some a → MadeAddress a
| made_custom channel note a :
    in_u8 channel → in_u8 note → MidiAddress_custom channel note = Some a → MadeAddress a.

Lemma bank_Some n a :
  MidiAddress_bank n = Some a ↔
  1 ≤ n ≤ 4 ∧ a = mkMidiAddress KindBank n (59 + n) 16.
Proof.
  unfold MidiAddress_bank, BANK_NOTE_BASE, MIDI_CHANNEL.
  destruct (Z.leb_spec 1 n), (Z.leb_spec n 4); simpl; split; try naive_solver lia.
  - intros [= <-]. split; [lia|]. f_equal; lia.
  - intros [_ ->]. do 2 f_equal; lia.
Qed.

Lemma autoloop_Some b n a :
  MidiAddress_autoloop b n = Some a ↔
  1 ≤ b ≤ 4 ∧ 1 ≤ n ≤ 32 ∧ a = mkMidiAddress KindAutoloop n (63 + n) (12 + b).
Proof.
  unfold MidiAddress_autoloop, AUTOLOOP_NOTE_BASE.
  destruct (Z.leb_spec 1 b), (Z.leb_spec b 4), (Z.leb_spec 1 n), (Z.leb_spec n 32);
    simpl; split; try naive_solver lia.
  - intros [= <-]. split_and!; try lia. f_equal; lia.
  - intros (_ & _ & ->). do 2 f_equal; lia.
Qed.

Lemma static_look_Some n a :
  MidiAddress_static_look n = Some a ↔
  1 ≤ n ≤ 32 ∧ a = mkMidiAddress KindStaticLook n (63 + n) 12.
Proof.
  unfold MidiAddress_static_look, AUTOLOOP_NOTE_BASE, STATIC_LOOK_CHANNEL.
  destruct (Z.leb_spec 1 n), (Z.leb_spec n 32); simpl; split; try naive_solver lia.
  - intros [= <-]. split; [lia|]. f_equal; lia.
  - intros [_ ->]. do 2 f_equal; lia.
Qed.

Lemma custom_Some channel note a :
  MidiAddress_custom channel note = Some a ↔
  1 ≤ channel ≤ 16 ∧ note < 128 ∧ a = mkMidiAddress KindCustom note note channel.
Proof.
  unfold MidiAddress_custom.
  destruct (Z.leb_spec 1 channel), (Z.leb_spec channel 16), (Z.ltb_spec note 128);
    simpl; split; naive_solver lia.
Qed.

Lemma made_address_bounds a :
  MadeAddress a → 1 ≤ ma_channel a ≤ 16 ∧ 0 ≤ ma_note a < 128.
Proof.
  destruct 1 as [n a H|b n a H|n a H|ch n a Hc Hn H].
  - apply bank_Some in H as [? ->]; simpl; lia.
  - apply autoloop_Some in H as (? & ? & ->); simpl; lia.
  - apply static_look_Some in H as [? ->]; simpl; lia.
  - apply custom_Some in H as (? & ? & ->). unfold in_u8 in *. simpl; lia.
Qed.

(** A status nibble with a channel below sixteen. *)
Lemma status_channel n ch : 0 ≤ ch < 16 → Z.lor (16 * n) ch = 16 * n + ch.
Proof.
  intros Hc. replace (16 * n) with (Z.shiftl n 4) at 1 by (rewrite Z.shiftl_mul_pow2; lia).
  rewrite lor_shiftl_add by lia. lia.
Qed.

(** The pulse of an address: Note On at velocity 100, then Note Off. *)
Definition pulse (a : MidiAddress) : list MidiMessage :=
  [mkMidiMessage (0x90 + (ma_channel a - 1), ma_note a, 100) 3;
   mkMidiMessage (0x80 + (ma_channel a - 1), ma_note a, 0) 3].

Lemma pulse_messages a :
  MadeAddress a →
  let channel := Z.max 0 (ma_channel a - 1) in
  ∃ on off, note_on channel (ma_note a) 100 = Some on ∧
    note_off channel (ma_note a) = Some off ∧ pulse a = [on; off].
Proof.
  intros [Hc Hn]%made_address_bounds. simpl.
  replace (Z.max 0 (ma_channel a - 1)) with (ma_channel a - 1) by lia.
  unfold note_on, note_off, pulse.
  rewrite (proj2 (Z.ltb_lt (ma_channel a - 1) 16)), (proj2 (Z.ltb_lt (ma_note a) 128)) by lia.
  simpl. do 2 eexists. split_and!; [done..|].
  rewrite (status_channel 9), (status_channel 8) by lia. done.
Qed.

Lemma pulse_valid a : MadeAddress a → forallb message_valid (pulse a) = true.
Proof.
  intros [Hc Hn]%made_address_bounds. unfold pulse, message_valid. cbn -[Z.leb Z.ltb Z.add Z.sub].
  rewrite !andb_true_iff, ?Z.leb_le, ?Z.ltb_lt. lia.
Qed.

(** What a control of SoundSwitch is, independently of its address. *)
Inductive Control : Type :=
| ControlBank (number : Z)
| ControlAutoloop (bank number : Z)
| ControlStaticLook (number : Z).

Definition control_address (c : Control) : option MidiAddress :=
  match c with
  | ControlBank n => MidiAddress_bank n
  | ControlAutoloop b n => MidiAddress_autoloop b n
  | ControlStaticLook n => MidiAddress_static_look n
  end.

(** MIDI bounds.  Every address the constructors accept lies on a channel from 1
    to 16 with a note below 128, and its pulse consists of valid MIDI messages: a
    status byte with the high bit, then data bytes of seven bits.  The controls of
    SoundSwitch keep apart: two of its banks, Autoloops and Static Looks that share
    channel and note are the same control.  Custom addresses accept exactly the MIDI
    range. *)
Theorem midi_address_bounds :
  (∀ a, MadeAddress a →
     1 ≤ ma_channel a ≤ 16 ∧ 0 ≤ ma_note a < 128 ∧ forallb message_valid (pulse a) = true) ∧
  (∀ c1 c2 a1 a2, control_address c1 = Some a1 → control_address c2 = Some a2 →
     ma_channel a1 = ma_channel a2 → ma_note a1 = ma_note a2 → c1 = c2) ∧
  (∀ channel note, is_Some (MidiAddress_custom channel note) ↔ 1 ≤ channel ≤ 16 ∧ note < 128).
Proof.
  split_and!.
  - intros a Ha. pose proof (made_address_bounds a Ha) as [??]. eauto using pulse_valid.
  - intros [n1|b1 n1|n1] [n2|b2 n2|n2] a1 a2; simpl;
      rewrite ?bank_Some, ?autoloop_Some, ?static_look_Some; intros H1 H2;
      destruct_and!; subst; simpl in *; intros; (f_equal; lia) || lia.
  - intros channel note. unfold is_Some. setoid_rewrite custom_Some. naive_solver.
Qed.

Lemma song_position_bytes position m :
  in_u16 position → song_position position = Some m →
  m = mkMidiMessage (0xf2, position mod 128, position / 128) 3 ∧ 0 ≤ position / 128 < 128.
Proof.
  unfold in_u16, song_position. intros Hp.
  destruct (Z.ltb_spec position 16384) as [Hl|Hl]; [|done]. intros [= <-].
  assert (E : ∀ x, Z.land x 127 = x mod 128) by (intros x; exact (Z.land_ones x 7 ltac:(lia))).
  assert (0 ≤ position / 128 < 128)
    by (split; [apply Z.div_pos|apply Z.div_lt_upper_bound]; lia).
  rewrite !E, Z.shiftr_div_pow2 by lia. change (2 ^ 7) with 128. by rewrite (Z.mod_small (_ / _)).
Qed.

Lemma song_position_valid position m :
  in_u16 position → song_position position = Some m → message_valid m = true.
Proof.
  intros Hp Hm. apply song_position_bytes in Hm as [-> Hd]; [|done].
  pose proof (Z.mod_pos_bound position 128). unfold message_valid. cbn -[Z.leb Z.ltb Z.modulo Z.div].
  rewrite !andb_true_iff, ?Z.leb_le, ?Z.ltb_lt. lia.
Qed.

(** The receiver's view of a Song Position Pointer. *)
Definition song_position_value (m : MidiMessage) : Z :=
  let '(_, d1, d2) := mm_bytes m in d1 + 128 * d2.

(** Song Position round trip.  A position of fourteen bits is encoded in two
    seven-bit data bytes from which a receiver reads it back; the encoder refuses
    exactly the positions that do not fit. *)
Theorem song_position_roundtrip position :
  in_u16 position →
  match song_position position with
  | Some m => message_valid m = true ∧ song_position_value m = position ∧ position < 16384
  | None => 16384 ≤ position
  end.
Proof.
  intros Hp. destruct (song_position position) as [m|] eqn:Hm.
  - split_and!; [by eapply song_position_valid| |].
    + apply song_position_bytes in Hm as [-> _]; [|done]. unfold song_position_value. simpl.
      pose proof (Z.div_mod position 128). lia.
    + unfold song_position in Hm. case_match; [lia|done].
  - unfold song_position in Hm. case_match; [done|lia].
Qed.

Lemma song_position_roundtrip_witness :
  option_map song_position_value (song_position 9999) = Some 9999 ∧ song_position 16384 = None.
Proof.
  pose proof (song_position_roundtrip 9999 ltac:(unfold in_u16, U16_MAX; lia)) as H.
  split; [|reflexivity]. destruct (song_position 9999) as [m|]; [|lia].
  simpl. f_equal. apply H.
Defined.

(** ** The protocol of the calls *)

(** What a provider may be asked: it sends only between a successful publication and
    a stop, it sends only pulses, and a failed send is followed by a stop. *)
Inductive SourceProtocol : Type := ProtoClosed | ProtoOpen | ProtoFailing.

Definition is_pulse (messages : list MidiMessage) : bool :=
  match messages with
  | [mkMidiMessage (s1, n1, v1) l1; mkMidiMessage (s2, n2, v2) l2] =>
      (0x90 <=? s1) && (s1 <? 0xa0) && (s2 =? s1 - 16) && (n1 =? n2) && (0 <=? n1)
      && (n1 <? 128) && (v1 =? 100) && (v2 =? 0) && (l1 =? 3) && (l2 =? 3)
  | _ => false
  end.

Definition protocol_step (s : SourceProtocol) (call : ProviderCall) : option SourceProtocol :=
  match s, call with
  | ProtoFailing, CallStop => Some ProtoClosed
  | ProtoFailing, _ => None
  | _, CallPublish ok => Some (if ok then ProtoOpen else ProtoClosed)
  | _, CallStop => Some ProtoClosed
  | ProtoOpen, CallSend ms ok =>
      if is_pulse ms then Some (if ok then ProtoOpen else ProtoFailing) else None
  | ProtoClosed, CallSend _ _ => None
  end.

Fixpoint protocol_run (s : SourceProtocol) (calls : list ProviderCall) : option SourceProtocol :=
  match calls with
  | [] => Some s
  | call :: calls => s' ← protocol_step s call; protocol_run s' calls
  end.

Lemma protocol_run_app s l k :
  protocol_run s (l ++ k) = (s' ← protocol_run s l; protocol_run s' k).
Proof.
  revert s. induction l as [|call l IH]; intros s; simpl; [done|].
  destruct (protocol_step s call); simpl; auto.
Qed.

Definition ok_sends (calls : list ProviderCall) : Z :=
  Z.of_nat (length (List.filter (λ call, match call with CallSend _ true => true | _ => false end)
    calls)).

Lemma ok_sends_app l k : ok_sends (l ++ k) = ok_sends l + ok_sends k.
Proof. unfold ok_sends. rewrite List.filter_app, length_app. lia. Qed.

Lemma pulse_is_pulse a : MadeAddress a → is_pulse (pulse a) = true.
Proof.
  intros [Hc Hn]%made_address_bounds. unfold pulse, is_pulse.
  rewrite !andb_true_iff, ?Z.leb_le, ?Z.ltb_lt, ?Z.eqb_eq. lia.
Qed.

Lemma BANK_ONE_made : MadeAddress BANK_ONE.
Proof. by apply (made_bank 1). Qed.

Lemma protocol_pulse ms :
  is_pulse ms = true → protocol_run ProtoOpen [CallSend ms true] = Some ProtoOpen.
Proof. cbn [protocol_run protocol_step]. by intros ->. Qed.

Lemma protocol_failed ms :
  is_pulse ms = true → protocol_run ProtoOpen [CallSend ms false; CallStop] = Some ProtoClosed.
Proof. cbn [protocol_run protocol_step]. by intros ->. Qed.

Section Protocol.
Context {P E : Type} `{MidiSourceProvider P E}.
Implicit Types c : MidiOutputController (Traced P).

Definition calls c : list ProviderCall := tr_calls (moc_provider c).

Definition bank_selected (l : list ProviderCall) (b : Z) : Prop :=
  ∃ a, MidiAddress_bank b = Some a ∧ CallSend (pulse a) true ∈ l.

(** The controller's state is what the log says. *)
Record controller_inv c : Prop := {
  ci_protocol : protocol_run ProtoClosed (calls c) =
    Some (if bool_decide (moc_state c = SourceReady) then ProtoOpen else ProtoClosed);
  ci_count : moc_sent_pulse_count c = ok_sends (calls c);
  ci_bound : moc_sent_pulse_count c ≤ U64_MAX;
  ci_stopped : moc_state c = SourceStopped → moc_active_bank c = None;
  ci_bank : ∀ b, moc_active_bank c = Some b → bank_selected (calls c) b;
}.

(** The three outcomes of a pulse: refused with nothing called, sent, or failed
    closed. *)
Inductive pulse_outcome (ms : list MidiMessage) c :
    MidiOutputController (Traced P) * result unit (MidiOutputError E) → Prop :=
| pulse_refused e :
    (moc_state c = SourceStopped ∧ e = SourceNotPublished ∨
     moc_sent_pulse_count c = U64_MAX ∧ e = PulseCounterOverflow) →
    pulse_outcome ms c (c, Err e)
| pulse_sent p :
    moc_state c = SourceReady → moc_sent_pulse_count c < U64_MAX →
    pulse_outcome ms c
      (mkMidiOutputController (mkTraced p (calls c ++ [CallSend ms true])) SourceReady
         (moc_sent_pulse_count c + 1) (moc_last_event c) None (moc_active_bank c), Ok tt)
| pulse_failed p error :
    moc_state c = SourceReady → moc_sent_pulse_count c < U64_MAX →
    pulse_outcome ms c
      (mkMidiOutputController (mkTraced p (calls c ++ [CallSend ms false; CallStop]))
         SourceStopped (moc_sent_pulse_count c)
         (Some (lit "Virtual MIDI source failed closed")) (Some (error_to_string error)) None,
       Err (ProviderFailed error)).

Lemma send_pulse_outcome c a :
  MadeAddress a → moc_sent_pulse_count c ≤ U64_MAX →
  pulse_outcome (pulse a) c (send_address_pulse c a).
Proof.
  intros Ha Hb. unfold send_address_pulse.
  destruct (moc_state c) eqn:Hs; [by constructor; left|].
  rewrite bool_decide_false by naive_solver.
  destruct (pulse_messages a Ha) as (on & off & -> & -> & Hp).
  unfold checked_add_u64. destruct (Z.leb_spec (moc_sent_pulse_count c + 1) U64_MAX) as [Hl|Hl].
  2:{ constructor. right. split; [lia|done]. }
  cbn -[Z.add U64_MAX]. rewrite <- Hp.
  destruct (midi_send (tr_inner (moc_provider c)) (pulse a)) as [p [[]|error]];
    cbn -[Z.add U64_MAX lit].
  - apply (pulse_sent _ _ p); [done|lia].
  - unfold fail_closed. cbn -[Z.add U64_MAX lit]. rewrite <- app_assoc.
    apply (pulse_failed _ _ (midi_provider_stop p) error); [done|lia].
Qed.

Lemma pulse_outcome_inv a c r :
  MadeAddress a → controller_inv c → pulse_outcome (pulse a) c r → controller_inv r.1.
Proof.
  intros Ha [H1 H2 H3 H4 H5] Ho. destruct Ho as [e He|p Hs Hl|p error Hs Hl]; [done|..].
  - rewrite Hs, bool_decide_true in H1 by done.
    split; unfold calls in *; cbn -[pulse protocol_run] in *; try done.
    + rewrite protocol_run_app, H1. apply protocol_pulse, pulse_is_pulse, Ha.
    + rewrite ok_sends_app, H2. done.
    + lia.
    + intros b (x & ? & ?)%H5. exists x. split; [done|]. rewrite elem_of_app. by left.
  - rewrite Hs, bool_decide_true in H1 by done.
    split; unfold calls in *; cbn -[pulse protocol_run] in *; try done.
    + rewrite protocol_run_app, H1. apply protocol_failed, pulse_is_pulse, Ha.
    + rewrite ok_sends_app, H2. unfold ok_sends. simpl. lia.
Qed.

Lemma set_event_inv s c : controller_inv c → controller_inv (set_event s c).
Proof. by destruct 1; split. Qed.

Lemma and_then_inv (r : MidiOutputController (Traced P) * result unit (MidiOutputError E)) k :
  controller_inv r.1 → (∀ c, r = (c, Ok tt) → controller_inv (k c).1) →
  controller_inv (and_then r k).1.
Proof. destruct r as [c [[]|e]]; simpl; auto. Qed.

Lemma pulse_then_event_inv c a f :
  MadeAddress a → controller_inv c → 
  controller_inv (and_then (send_address_pulse c a) (λ c, (set_event (f c) c, Ok tt))).1.
Proof.
  intros Ha Hc. apply and_then_inv; [|intros c' E'; simpl; apply set_event_inv;
    replace c' with (send_address_pulse c a).1 by (by rewrite E')];
    (eapply pulse_outcome_inv, send_pulse_outcome; [done..|apply Hc]).
Qed.

Lemma select_bank_inv c b a s :
  MidiAddress_bank b = Some a → controller_inv c →
  ∀ c', send_address_pulse c a = (c', Ok tt) →
  controller_inv (set_event s (set_active_bank (Some b) c')).
Proof.
  intros Hb Hc c' E'. apply set_event_inv. assert (MadeAddress a) by eauto using made_bank.
  pose proof (send_pulse_outcome c a ltac:(done) (ci_bound c Hc)) as Ho.
  pose proof (pulse_outcome_inv a c _ ltac:(done) Hc Ho) as Hi. rewrite E' in Ho, Hi.
  destruct Hi as [H1 H2 H3 H4 H5]. split; try done; simpl in *.
  - inversion Ho; subst; simpl in *; congruence.
  - intros b' [= <-]. exists a. split; [done|]. inversion Ho; subst. unfold calls. simpl.
    rewrite elem_of_app. right. by apply list_elem_of_singleton.
Qed.

Lemma publish_inv c : controller_inv c → controller_inv (controller_publish c).1.
Proof.
  intros [H1 H2 H3 H4 H5]. unfold controller_publish. cbn -[lit MIDI_SOURCE_NAME].
  destruct (midi_publish (tr_inner (moc_provider c)) MIDI_SOURCE_NAME) as [p [[]|e]];
    (split; unfold calls in *; cbn -[lit] in *; try done;
     [rewrite protocol_run_app, H1; by destruct (bool_decide _)
     |rewrite ok_sends_app, H2; unfold ok_sends; simpl; lia]).
Qed.

Lemma stop_inv c : controller_inv c → controller_inv (controller_stop c).
Proof.
  intros [H1 H2 H3 H4 H5]. split; unfold calls in *; cbn -[lit] in *; try done.
  - rewrite protocol_run_app, H1. by destruct (bool_decide _).
  - rewrite ok_sends_app, H2. unfold ok_sends; simpl; lia.
Qed.

(** The operations, as the realtime lane calls them. *)
Inductive MidiOp : Type :=
| OpPublish
| OpStop
| OpLearn (address : MidiAddress)
| OpSelectBank (bank : Z)
| OpButton (bank autoloop : Z)
| OpTrigger (bank autoloop : Z)
| OpStaticLook (number : Z).

Definition run_op c (op : MidiOp) : MidiOutputController (Traced P) * result unit (MidiOutputError E) :=
  match op with
  | OpPublish => controller_publish c
  | OpStop => (controller_stop c, Ok tt)
  | OpLearn address => send_address_learn_pulse c address
  | OpSelectBank bank => select_bank c bank
  | OpButton bank autoloop => trigger_autoloop_button c bank autoloop
  | OpTrigger bank autoloop => trigger_autoloop c bank autoloop
  | OpStaticLook number => toggle_static_look c number
  end.

Definition op_made (op : MidiOp) : Prop :=
  match op with OpLearn address => MadeAddress address | _ => True end.

Lemma run_op_inv c op : op_made op → controller_inv c → controller_inv (run_op c op).1.
Proof.
  intros Ho Hc. destruct op as [| |a|b|b n|b n|n]; simpl in *.
  - by apply publish_inv.
  - by apply stop_inv.
  - by apply pulse_then_event_inv.
  - unfold select_bank. destruct (MidiAddress_bank b) as [a|] eqn:Hb; [|done].
    assert (MadeAddress a) by eauto using made_bank.
    apply and_then_inv; [eapply pulse_outcome_inv, send_pulse_outcome; [done..|apply Hc]|].
    intros c' E'. by eapply select_bank_inv.
  - unfold trigger_autoloop_button. destruct (MidiAddress_autoloop b n) eqn:Ha; [|done].
    apply pulse_then_event_inv; eauto using made_autoloop.
  - unfold trigger_autoloop, trigger_autoloop_with_wait.
    destruct (MidiAddress_bank b) as [a|] eqn:Hb; [|done].
    destruct (MidiAddress_autoloop b n) as [a'|] eqn:Ha; [|done].
    apply and_then_inv;
      [eapply pulse_outcome_inv, send_pulse_outcome; [eauto using made_bank..|apply Hc]|].
    intros c' E'. apply pulse_then_event_inv; [eauto using made_autoloop|].
    by eapply select_bank_inv.
  - unfold toggle_static_look. destruct (MidiAddress_static_look n) eqn:Ha; [|done].
    apply pulse_then_event_inv; eauto using made_static_look.
Qed.

Fixpoint run_ops c (ops : list MidiOp) : MidiOutputController (Traced P) :=
  match ops with
  | [] => c
  | op :: ops => run_ops (run_op c op).1 ops
  end.

Lemma run_ops_inv ops : ∀ c, Forall op_made ops → controller_inv c → controller_inv (run_ops c ops).
Proof.
  induction ops as [|op ops IH]; intros c Ho Hc; simpl; [done|].
  apply Forall_cons in Ho as [? ?]. apply IH; [done|]. by apply run_op_inv.
Qed.

Lemma new_inv (p : P) : controller_inv (MidiOutputController_new (mkTraced p [])).
Proof. by split. Qed.

(** The MIDI source fails silent.  For every provider, failing at any call, and
    every sequence of operations: messages reach the provider only between a
    successful publication and a stop, only as pulses (Note On and the Note Off of
    the same channel and note), and a failed send is followed by a stop at once.
    The controller is ready exactly when the provider is open, counts the pulses
    that were sent, and names an active bank only if that bank's pulse was sent. *)
Theorem midi_fail_silent (p : P) ops :
  Forall op_made ops →
  let c := run_ops (MidiOutputController_new (mkTraced p [])) ops in
  protocol_run ProtoClosed (calls c) =
    Some (match moc_state c with SourceReady => ProtoOpen | SourceStopped => ProtoClosed end) ∧
  moc_sent_pulse_count c = ok_sends (calls c) ∧
  (moc_state c = SourceStopped → moc_active_bank c = None) ∧
  (∀ b, moc_active_bank c = Some b → bank_selected (calls c) b).
Proof.
  intros Ho c. destruct (run_ops_inv ops _ Ho (new_inv p)) as [H1 H2 H3 H4 H5].
  split_and!; [|done..]. fold c in H1. rewrite H1. by destruct (moc_state c).
Qed.

(** An Autoloop is never triggered without its bank.  On a ready source with
    valid numbers the provider sees the bank pulse, then the Autoloop pulse, and
    the call succeeds; when a send fails the provider is stopped there and nothing
    follows; invalid numbers and an unpublished source call nothing. *)
Theorem trigger_autoloop_order c b n c' r :
  moc_sent_pulse_count c < U64_MAX - 1 →
  trigger_autoloop c b n = (c', r) →
  match MidiAddress_bank b, MidiAddress_autoloop b n with
  | Some bank, Some autoloop =>
      match moc_state c with
      | SourceStopped => c' = c ∧ r = Err SourceNotPublished
      | SourceReady =>
          (r = Ok tt ∧ moc_active_bank c' = Some b ∧ moc_state c' = SourceReady ∧
             calls c' = calls c ++ [CallSend (pulse bank) true; CallSend (pulse autoloop) true]) ∨
          (∃ e, r = Err (ProviderFailed e) ∧ moc_active_bank c' = None ∧
             moc_state c' = SourceStopped ∧
             (calls c' = calls c ++ [CallSend (pulse bank) false; CallStop] ∨
              calls c' = calls c ++ [CallSend (pulse bank) true;
                CallSend (pulse autoloop) false; CallStop]))
      end
  | _, _ => c' = c ∧ r = Err InvalidAddress
  end.
Proof.
  intros Hl. unfold trigger_autoloop, trigger_autoloop_with_wait.
  destruct (MidiAddress_bank b) as [bank|] eqn:Hb; [|by intros [= <- <-]].
  destruct (MidiAddress_autoloop b n) as [loop|] eqn:Ha; [|by intros [= <- <-]].
  pose proof (send_pulse_outcome c bank ltac:(eauto using made_bank) ltac:(lia)) as Ho.
  destruct (send_address_pulse c bank) as [c1 r1]. destruct (moc_state c) eqn:Hs.
  { inversion Ho; subst; try congruence. simpl. intros [= <- <-]. naive_solver lia. }
  inversion Ho as [e He|p ? ?|p e ? ?]; subst; cbn [and_then].
  { exfalso. destruct He as [[? _]|[? _]]; [congruence|lia]. }
  2:{ intros [= <- <-]. right. exists e. split_and!; try done. by left. }
  match goal with |- and_then (send_address_pulse ?x _) _ = _ → _ => set (c2 := x) end.
  assert (moc_state c2 = SourceReady ∧ moc_sent_pulse_count c2 = moc_sent_pulse_count c + 1 ∧
    moc_active_bank c2 = Some b ∧ calls c2 = calls c ++ [CallSend (pulse bank) true])
    as (Hs2 & Hc2 & Hb2 & Hk2) by done.
  clearbody c2.
  pose proof (send_pulse_outcome c2 loop ltac:(eauto using made_autoloop) ltac:(lia)) as Ho2.
  destruct (send_address_pulse c2 loop) as [c3 r3].
  inversion Ho2 as [e He|p' ? ?|p' e ? ?]; subst; cbn [and_then]; intros [= <- <-].
  { exfalso. destruct He as [[? _]|[? _]]; [congruence|lia]. }
  - left. split_and!; try done. unfold calls at 1; simpl. by rewrite Hk2, <- app_assoc.
  - right. exists e. split_and!; try done. right. unfold calls at 1; simpl.
    by rewrite Hk2, <- app_assoc.
Qed.
End Protocol.

(** ** A concrete run *)

(** A provider that answers its sends from a script, and fails when it runs out. *)
#[global] Instance scripted_provider : MidiSourceProvider (list bool) str := {
  error_to_string := λ e, e;
  midi_publish := λ script _, (script, Ok tt);
  midi_provider_stop := λ script, script;
  midi_send := λ script _,
    match script with
    | true :: script => (script, Ok tt)
    | _ => (tail script, Err (lit "refused"))
    end;
}.

Definition scripted (script : list bool) : MidiOutputController (Traced (list bool)) :=
  MidiOutputController_new (mkTraced script []).

Lemma midi_fail_silent_witness :
  let c := run_ops (scripted [true; false])
    [OpSelectBank 1; OpPublish; OpSelectBank 2; OpButton 2 32; OpStaticLook 1] in
  protocol_run ProtoClosed (calls c) = Some ProtoClosed ∧ length (calls c) = 4%nat ∧
  moc_sent_pulse_count c = 1.
Proof.
  pose proof (midi_fail_silent [true; false]
    [OpSelectBank 1; OpPublish; OpSelectBank 2; OpButton 2 32; OpStaticLook 1]
    ltac:(repeat constructor)) as (H1 & H2 & _).
  split; [exact H1|]. split; [vm_compute; reflexivity|exact H2].
Defined.

Definition scripted_ready : MidiOutputController (Traced (list bool)) :=
  run_ops (scripted [true; true]) [OpPublish].

Lemma trigger_autoloop_order_witness :
  calls (trigger_autoloop scripted_ready 3 7).1 =
  [CallPublish true; CallSend (pulse (mkMidiAddress KindBank 3 62 16)) true;
   CallSend (pulse (mkMidiAddress KindAutoloop 7 70 15)) true].
Proof.
  destruct (trigger_autoloop_order scripted_ready 3 7 (trigger_autoloop scripted_ready 3 7).1
    (trigger_autoloop scripted_ready 3 7).2 ltac:(vm_compute; reflexivity)
    ltac:(by destruct (trigger_autoloop scripted_ready 3 7)))
    as [(_ & _ & _ & H)|(e & H & _)].
  - exact H.
  - exfalso. vm_compute in H. discriminate H.
Defined.
