(* ===== verification/MidiLane.v ===== *)
(** * The realtime MIDI lane

    Models the realtime part of [lumi-midi-output/src/lib.rs]: the worker thread
    [run_realtime_midi_worker], its bounded command channel and the methods of
    [RealtimeMidiController].  The worker is a function of the command it receives
    and of the instants it reads from the clock, which are inputs; a run is any
    sequence of calls and worker steps. *)

From stdpp Require Import prelude list gmap strings.
From Stdlib Require Import ZArith Lia.
From Stdlib Require Import Sorting.Sorted.
From S2P Require Import Prelude.
From S2P Require Import Midi.
Open Scope Z_scope.

Definition REALTIME_COMMAND_CAPACITY : nat := 64.
Definition REALTIME_SCHEDULE_CAPACITY : nat := 128.
Definition REALTIME_LATENCY_SAMPLE_CAPACITY : nat := 2048.
Definition REALTIME_DISPATCH_HISTORY_CAPACITY : nat := 128.

Inductive RealtimeMidiActionKind : Type := ActionBank | ActionAutoloop.

Record RealtimeDispatchRecord := mkRealtimeDispatchRecord {
  rdr_generation : Z;
  rdr_action : RealtimeMidiActionKind;
  rdr_number : Z;
  rdr_deadline : Z;
  rdr_started_at : Z;
  rdr_completed_at : Z;
  rdr_succeeded : bool;
}.

Inductive RealtimeMidiError : Type :=
| LaneWorkerUnavailable
| LaneQueueSaturated
| LaneProvider (error : str).

Inductive RealtimeMidiAction : Type :=
| ActSelectBank (bank : Z)
| ActTriggerAutoloop (bank autoloop : Z).

#[global] Instance RealtimeMidiAction_eq_dec : EqDecision RealtimeMidiAction.
Proof. solve_decision. Defined.

Record ScheduledRealtimeMidiAction := mkScheduled {
  sch_generation : Z;
  sch_deadline : Z;
  sch_action : RealtimeMidiAction;
}.

Inductive RealtimeMidiCommand : Type :=
| CmdPublish
| CmdStop
| CmdSendLearnPulse (address : MidiAddress)
| CmdSelectBank (bank : Z)
| CmdTriggerAutoloop (bank autoloop : Z)
| CmdTriggerSequence (bank autoloop : Z)
| CmdToggleStaticLook (number : Z)
| CmdSetGeneration (generation : Z)
| CmdSchedule (item : ScheduledRealtimeMidiAction)
| CmdRetimePending (generation deadline bank_deadline : Z)
| CmdCancelAll
| CmdShutdown.

Record RealtimeMidiStatus := mkRealtimeMidiStatus {
  rms_source : MidiSourceStatus;
  rms_queue_capacity : Z;
  rms_queue_depth : Z;
  rms_queue_high_water : Z;
  rms_scheduled_count : Z;
  rms_emitted_count : Z;
  rms_cancelled_count : Z;
  rms_saturation_count : Z;
  rms_latency_sample_count : Z;
  rms_latency_p50_micros : Z;
  rms_latency_p95_micros : Z;
  rms_latency_p99_micros : Z;
  rms_latency_max_micros : Z;
  rms_last_scheduled_action : option RealtimeMidiActionKind;
  rms_last_scheduled_number : option Z;
  rms_last_scheduled_lead_micros : option Z;
  rms_last_emitted_action : option RealtimeMidiActionKind;
  rms_last_emitted_number : option Z;
  rms_last_dispatch_lateness_micros : option Z;
  rms_late_dispatch_count : Z;
  rms_recent_dispatches : list RealtimeDispatchRecord;
}.

Definition set_rms_source (x : MidiSourceStatus) (s : RealtimeMidiStatus) : RealtimeMidiStatus :=
  mkRealtimeMidiStatus x (rms_queue_capacity s) (rms_queue_depth s) (rms_queue_high_water s)
    (rms_scheduled_count s) (rms_emitted_count s) (rms_cancelled_count s) (rms_saturation_count
    s) (rms_latency_sample_count s) (rms_latency_p50_micros s) (rms_latency_p95_micros s)
    (rms_latency_p99_micros s) (rms_latency_max_micros s) (rms_last_scheduled_action s)
    (rms_last_scheduled_number s) (rms_last_scheduled_lead_micros s) (rms_last_emitted_action s)
    (rms_last_emitted_number s) (rms_last_dispatch_lateness_micros s) (rms_late_dispatch_count
    s) (rms_recent_dispatches s).

Definition set_rms_queue_capacity (x : Z) (s : RealtimeMidiStatus) : RealtimeMidiStatus :=
  mkRealtimeMidiStatus (rms_source s) x (rms_queue_depth s) (rms_queue_high_water s)
    (rms_scheduled_count s) (rms_emitted_count s) (rms_cancelled_count s) (rms_saturation_count
    s) (rms_latency_sample_count s) (rms_latency_p50_micros s) (rms_latency_p95_micros s)
    (rms_latency_p99_micros s) (rms_latency_max_micros s) (rms_last_scheduled_action s)
    (rms_last_scheduled_number s) (rms_last_scheduled_lead_micros s) (rms_last_emitted_action s)
    (rms_last_emitted_number s) (rms_last_dispatch_lateness_micros s) (rms_late_dispatch_count
    s) (rms_recent_dispatches s).

Definition set_rms_queue_depth (x : Z) (s : RealtimeMidiStatus) : RealtimeMidiStatus :=
  mkRealtimeMidiStatus (rms_source s) (rms_queue_capacity s) x (rms_queue_high_water s)
    (rms_scheduled_count s) (rms_emitted_count s) (rms_cancelled_count s) (rms_saturation_count
    s) (rms_latency_sample_count s) (rms_latency_p50_micros s) (rms_latency_p95_micros s)
    (rms_latency_p99_micros s) (rms_latency_max_micros s) (rms_last_scheduled_action s)
    (rms_last_scheduled_number s) (rms_last_scheduled_lead_micros s) (rms_last_emitted_action s)
    (rms_last_emitted_number s) (rms_last_dispatch_lateness_micros s) (rms_late_dispatch_count
    s) (rms_recent_dispatches s).

Definition set_rms_queue_high_water (x : Z) (s : RealtimeMidiStatus) : RealtimeMidiStatus :=
  mkRealtimeMidiStatus (rms_source s) (rms_queue_capacity s) (rms_queue_depth s) x
    (rms_scheduled_count s) (rms_emitted_count s) (rms_cancelled_count s) (rms_saturation_count
    s) (rms_latency_sample_count s) (rms_latency_p50_micros s) (rms_latency_p95_micros s)
    (rms_latency_p99_micros s) (rms_latency_max_micros s) (rms_last_scheduled_action s)
    (rms_last_scheduled_number s) (rms_last_scheduled_lead_micros s) (rms_last_emitted_action s)
    (rms_last_emitted_number s) (rms_last_dispatch_lateness_micros s) (rms_late_dispatch_count
    s) (rms_recent_dispatches s).

Definition set_rms_scheduled_count (x : Z) (s : RealtimeMidiStatus) : RealtimeMidiStatus :=
  mkRealtimeMidiStatus (rms_source s) (rms_queue_capacity s) (rms_queue_depth s)
    (rms_queue_high_water s) x (rms_emitted_count s) (rms_cancelled_count s)
    (rms_saturation_count s) (rms_latency_sample_count s) (rms_latency_p50_micros s)
    (rms_latency_p95_micros s) (rms_latency_p99_micros s) (rms_latency_max_micros s)
    (rms_last_scheduled_action s) (rms_last_scheduled_number s) (rms_last_scheduled_lead_micros
    s) (rms_last_emitted_action s) (rms_last_emitted_number s)
    (rms_last_dispatch_lateness_micros s) (rms_late_dispatch_count s) (rms_recent_dispatches s).

Definition set_rms_emitted_count (x : Z) (s : RealtimeMidiStatus) : RealtimeMidiStatus :=
  mkRealtimeMidiStatus (rms_source s) (rms_queue_capacity s) (rms_queue_depth s)
    (rms_queue_high_water s) (rms_scheduled_count s) x (rms_cancelled_count s)
    (rms_saturation_count s) (rms_latency_sample_count s) (rms_latency_p50_micros s)
    (rms_latency_p95_micros s) (rms_latency_p99_micros s) (rms_latency_max_micros s)
    (rms_last_scheduled_action s) (rms_last_scheduled_number s) (rms_last_scheduled_lead_micros
    s) (rms_last_emitted_action s) (rms_last_emitted_number s)
    (rms_last_dispatch_lateness_micros s) (rms_late_dispatch_count s) (rms_recent_dispatches s).

Definition set_rms_cancelled_count (x : Z) (s : RealtimeMidiStatus) : RealtimeMidiStatus :=
  mkRealtimeMidiStatus (rms_source s) (rms_queue_capacity s) (rms_queue_depth s)
    (rms_queue_high_water s) (rms_scheduled_count s) (rms_emitted_count s) x
    (rms_saturation_count s) (rms_latency_sample_count s) (rms_latency_p50_micros s)
    (rms_latency_p95_micros s) (rms_latency_p99_micros s) (rms_latency_max_micros s)
    (rms_last_scheduled_action s) (rms_last_scheduled_number s) (rms_last_scheduled_lead_micros
    s) (rms_last_emitted_action s) (rms_last_emitted_number s)
    (rms_last_dispatch_lateness_micros s) (rms_late_dispatch_count s) (rms_recent_dispatches s).

Definition set_rms_saturation_count (x : Z) (s : RealtimeMidiStatus) : RealtimeMidiStatus :=
  mkRealtimeMidiStatus (rms_source s) (rms_queue_capacity s) (rms_queue_depth s)
    (rms_queue_high_water s) (rms_scheduled_count s) (rms_emitted_count s) (rms_cancelled_count
    s) x (rms_latency_sample_count s) (rms_latency_p50_micros s) (rms_latency_p95_micros s)
    (rms_latency_p99_micros s) (rms_latency_max_micros s) (rms_last_scheduled_action s)
    (rms_last_scheduled_number s) (rms_last_scheduled_lead_micros s) (rms_last_emitted_action s)
    (rms_last_emitted_number s) (rms_last_dispatch_lateness_micros s) (rms_late_dispatch_count
    s) (rms_recent_dispatches s).

Definition set_rms_latency_sample_count (x : Z) (s : RealtimeMidiStatus) : RealtimeMidiStatus :=
  mkRealtimeMidiStatus (rms_source s) (rms_queue_capacity s) (rms_queue_depth s)
    (rms_queue_high_water s) (rms_scheduled_count s) (rms_emitted_count s) (rms_cancelled_count
    s) (rms_saturation_count s) x (rms_latency_p50_micros s) (rms_latency_p95_micros s)
    (rms_latency_p99_micros s) (rms_latency_max_micros s) (rms_last_scheduled_action s)
    (rms_last_scheduled_number s) (rms_last_scheduled_lead_micros s) (rms_last_emitted_action s)
    (rms_last_emitted_number s) (rms_last_dispatch_lateness_micros s) (rms_late_dispatch_count
    s) (rms_recent_dispatches s).

Definition set_rms_latency_p50_micros (x : Z) (s : RealtimeMidiStatus) : RealtimeMidiStatus :=
  mkRealtimeMidiStatus (rms_source s) (rms_queue_capacity s) (rms_queue_depth s)
    (rms_queue_high_water s) (rms_scheduled_count s) (rms_emitted_count s) (rms_cancelled_count
    s) (rms_saturation_count s) (rms_latency_sample_count s) x (rms_latency_p95_micros s)
    (rms_latency_p99_micros s) (rms_latency_max_micros s) (rms_last_scheduled_action s)
    (rms_last_scheduled_number s) (rms_last_scheduled_lead_micros s) (rms_last_emitted_action s)
    (rms_last_emitted_number s) (rms_last_dispatch_lateness_micros s) (rms_late_dispatch_count
    s) (rms_recent_dispatches s).

Definition set_rms_latency_p95_micros (x : Z) (s : RealtimeMidiStatus) : RealtimeMidiStatus :=
  mkRealtimeMidiStatus (rms_source s) (rms_queue_capacity s) (rms_queue_depth s)
    (rms_queue_high_water s) (rms_scheduled_count s) (rms_emitted_count s) (rms_cancelled_count
    s) (rms_saturation_count s) (rms_latency_sample_count s) (rms_latency_p50_micros s) x
    (rms_latency_p99_micros s) (rms_latency_max_micros s) (rms_last_scheduled_action s)
    (rms_last_scheduled_number s) (rms_last_scheduled_lead_micros s) (rms_last_emitted_action s)
    (rms_last_emitted_number s) (rms_last_dispatch_lateness_micros s) (rms_late_dispatch_count
    s) (rms_recent_dispatches s).

Definition set_rms_latency_p99_micros (x : Z) (s : RealtimeMidiStatus) : RealtimeMidiStatus :=
  mkRealtimeMidiStatus (rms_source s) (rms_queue_capacity s) (rms_queue_depth s)
    (rms_queue_high_water s) (rms_scheduled_count s) (rms_emitted_count s) (rms_cancelled_count
    s) (rms_saturation_count s) (rms_latency_sample_count s) (rms_latency_p50_micros s)
    (rms_latency_p95_micros s) x (rms_latency_max_micros s) (rms_last_scheduled_action s)
    (rms_last_scheduled_number s) (rms_last_scheduled_lead_micros s) (rms_last_emitted_action s)
    (rms_last_emitted_number s) (rms_last_dispatch_lateness_micros s) (rms_late_dispatch_count
    s) (rms_recent_dispatches s).

Definition set_rms_latency_max_micros (x : Z) (s : RealtimeMidiStatus) : RealtimeMidiStatus :=
  mkRealtimeMidiStatus (rms_source s) (rms_queue_capacity s) (rms_queue_depth s)
    (rms_queue_high_water s) (rms_scheduled_count s) (rms_emitted_count s) (rms_cancelled_count
    s) (rms_saturation_count s) (rms_latency_sample_count s) (rms_latency_p50_micros s)
    (rms_latency_p95_micros s) (rms_latency_p99_micros s) x (rms_last_scheduled_action s)
    (rms_last_scheduled_number s) (rms_last_scheduled_lead_micros s) (rms_last_emitted_action s)
    (rms_last_emitted_number s) (rms_last_dispatch_lateness_micros s) (rms_late_dispatch_count
    s) (rms_recent_dispatches s).

Definition set_rms_last_scheduled_action (x : option RealtimeMidiActionKind) (s : RealtimeMidiStatus) : RealtimeMidiStatus :=
  mkRealtimeMidiStatus (rms_source s) (rms_queue_capacity s) (rms_queue_depth s)
    (rms_queue_high_water s) (rms_scheduled_count s) (rms_emitted_count s) (rms_cancelled_count
    s) (rms_saturation_count s) (rms_latency_sample_count s) (rms_latency_p50_micros s)
    (rms_latency_p95_micros s) (rms_latency_p99_micros s) (rms_latency_max_micros s) x
    (rms_last_scheduled_number s) (rms_last_scheduled_lead_micros s) (rms_last_emitted_action s)
    (rms_last_emitted_number s) (rms_last_dispatch_lateness_micros s) (rms_late_dispatch_count
    s) (rms_recent_dispatches s).

Definition set_rms_last_scheduled_number (x : option Z) (s : RealtimeMidiStatus) : RealtimeMidiStatus :=
  mkRealtimeMidiStatus (rms_source s) (rms_queue_capacity s) (rms_queue_depth s)
    (rms_queue_high_water s) (rms_scheduled_count s) (rms_emitted_count s) (rms_cancelled_count
    s) (rms_saturation_count s) (rms_latency_sample_count s) (rms_latency_p50_micros s)
    (rms_latency_p95_micros s) (rms_latency_p99_micros s) (rms_latency_max_micros s)
    (rms_last_scheduled_action s) x (rms_last_scheduled_lead_micros s) (rms_last_emitted_action
    s) (rms_last_emitted_number s) (rms_last_dispatch_lateness_micros s)
    (rms_late_dispatch_count s) (rms_recent_dispatches s).

Definition set_rms_last_scheduled_lead_micros (x : option Z) (s : RealtimeMidiStatus) : RealtimeMidiStatus :=
  mkRealtimeMidiStatus (rms_source s) (rms_queue_capacity s) (rms_queue_depth s)
    (rms_queue_high_water s) (rms_scheduled_count s) (rms_emitted_count s) (rms_cancelled_count
    s) (rms_saturation_count s) (rms_latency_sample_count s) (rms_latency_p50_micros s)
    (rms_latency_p95_micros s) (rms_latency_p99_micros s) (rms_latency_max_micros s)
    (rms_last_scheduled_action s) (rms_last_scheduled_number s) x (rms_last_emitted_action s)
    (rms_last_emitted_number s) (rms_last_dispatch_lateness_micros s) (rms_late_dispatch_count
    s) (rms_recent_dispatches s).

Definition set_rms_last_emitted_action (x : option RealtimeMidiActionKind) (s : RealtimeMidiStatus) : RealtimeMidiStatus :=
  mkRealtimeMidiStatus (rms_source s) (rms_queue_capacity s) (rms_queue_depth s)
    (rms_queue_high_water s) (rms_scheduled_count s) (rms_emitted_count s) (rms_cancelled_count
    s) (rms_saturation_count s) (rms_latency_sample_count s) (rms_latency_p50_micros s)
    (rms_latency_p95_micros s) (rms_latency_p99_micros s) (rms_latency_max_micros s)
    (rms_last_scheduled_action s) (rms_last_scheduled_number s) (rms_last_scheduled_lead_micros
    s) x (rms_last_emitted_number s) (rms_last_dispatch_lateness_micros s)
    (rms_late_dispatch_count s) (rms_recent_dispatches s).

Definition set_rms_last_emitted_number (x : option Z) (s : RealtimeMidiStatus) : RealtimeMidiStatus :=
  mkRealtimeMidiStatus (rms_source s) (rms_queue_capacity s) (rms_queue_depth s)
    (rms_queue_high_water s) (rms_scheduled_count s) (rms_emitted_count s) (rms_cancelled_count
    s) (rms_saturation_count s) (rms_latency_sample_count s) (rms_latency_p50_micros s)
    (rms_latency_p95_micros s) (rms_latency_p99_micros s) (rms_latency_max_micros s)
    (rms_last_scheduled_action s) (rms_last_scheduled_number s) (rms_last_scheduled_lead_micros
    s) (rms_last_emitted_action s) x (rms_last_dispatch_lateness_micros s)
    (rms_late_dispatch_count s) (rms_recent_dispatches s).

Definition set_rms_last_dispatch_lateness_micros (x : option Z) (s : RealtimeMidiStatus) : RealtimeMidiStatus :=
  mkRealtimeMidiStatus (rms_source s) (rms_queue_capacity s) (rms_queue_depth s)
    (rms_queue_high_water s) (rms_scheduled_count s) (rms_emitted_count s) (rms_cancelled_count
    s) (rms_saturation_count s) (rms_latency_sample_count s) (rms_latency_p50_micros s)
    (rms_latency_p95_micros s) (rms_latency_p99_micros s) (rms_latency_max_micros s)
    (rms_last_scheduled_action s) (rms_last_scheduled_number s) (rms_last_scheduled_lead_micros
    s) (rms_last_emitted_action s) (rms_last_emitted_number s) x (rms_late_dispatch_count s)
    (rms_recent_dispatches s).

Definition set_rms_late_dispatch_count (x : Z) (s : RealtimeMidiStatus) : RealtimeMidiStatus :=
  mkRealtimeMidiStatus (rms_source s) (rms_queue_capacity s) (rms_queue_depth s)
    (rms_queue_high_water s) (rms_scheduled_count s) (rms_emitted_count s) (rms_cancelled_count
    s) (rms_saturation_count s) (rms_latency_sample_count s) (rms_latency_p50_micros s)
    (rms_latency_p95_micros s) (rms_latency_p99_micros s) (rms_latency_max_micros s)
    (rms_last_scheduled_action s) (rms_last_scheduled_number s) (rms_last_scheduled_lead_micros
    s) (rms_last_emitted_action s) (rms_last_emitted_number s)
    (rms_last_dispatch_lateness_micros s) x (rms_recent_dispatches s).

Definition set_rms_recent_dispatches (x : list RealtimeDispatchRecord) (s : RealtimeMidiStatus) : RealtimeMidiStatus :=
  mkRealtimeMidiStatus (rms_source s) (rms_queue_capacity s) (rms_queue_depth s)
    (rms_queue_high_water s) (rms_scheduled_count s) (rms_emitted_count s) (rms_cancelled_count
    s) (rms_saturation_count s) (rms_latency_sample_count s) (rms_latency_p50_micros s)
    (rms_latency_p95_micros s) (rms_latency_p99_micros s) (rms_latency_max_micros s)
    (rms_last_scheduled_action s) (rms_last_scheduled_number s) (rms_last_scheduled_lead_micros
    s) (rms_last_emitted_action s) (rms_last_emitted_number s)
    (rms_last_dispatch_lateness_micros s) (rms_late_dispatch_count s) x.

Definition RealtimeMidiStatus_default : RealtimeMidiStatus :=
  mkRealtimeMidiStatus (mkMidiSourceStatus SourceStopped MIDI_SOURCE_NAME 0 None None None)
    (Z.of_nat REALTIME_COMMAND_CAPACITY) 0 0 0 0 0 0 0 0 0 0 0 None None None None None None 0 [].

(** The lane: the locals of the worker loop, the shared status, the channel and
    whether the worker still receives. *)
Record Lane (P : Type) := mkLane {
  lane_controller : MidiOutputController P;
  lane_generation : Z;
  lane_scheduled : list ScheduledRealtimeMidiAction;
  lane_latencies : list Z;
  lane_status : RealtimeMidiStatus;
  lane_queue : list RealtimeMidiCommand;
  lane_alive : bool;
}.
Arguments mkLane {P}.
Arguments lane_controller {P}.
Arguments lane_generation {P}.
Arguments lane_scheduled {P}.
Arguments lane_latencies {P}.
Arguments lane_status {P}.
Arguments lane_queue {P}.
Arguments lane_alive {P}.

Definition set_lane_controller {P} (x : MidiOutputController P) (s : Lane P) : Lane P :=
  mkLane x (lane_generation s) (lane_scheduled s) (lane_latencies s) (lane_status s) (lane_queue
    s) (lane_alive s).

Definition set_lane_generation {P} (x : Z) (s : Lane P) : Lane P :=
  mkLane (lane_controller s) x (lane_scheduled s) (lane_latencies s) (lane_status s) (lane_queue
    s) (lane_alive s).

Definition set_lane_scheduled {P} (x : list ScheduledRealtimeMidiAction) (s : Lane P) : Lane P :=
  mkLane (lane_controller s) (lane_generation s) x (lane_latencies s) (lane_status s)
    (lane_queue s) (lane_alive s).

Definition set_lane_latencies {P} (x : list Z) (s : Lane P) : Lane P :=
  mkLane (lane_controller s) (lane_generation s) (lane_scheduled s) x (lane_status s)
    (lane_queue s) (lane_alive s).

Definition set_lane_status {P} (x : RealtimeMidiStatus) (s : Lane P) : Lane P :=
  mkLane (lane_controller s) (lane_generation s) (lane_scheduled s) (lane_latencies s) x
    (lane_queue s) (lane_alive s).

Definition set_lane_queue {P} (x : list RealtimeMidiCommand) (s : Lane P) : Lane P :=
  mkLane (lane_controller s) (lane_generation s) (lane_scheduled s) (lane_latencies s)
    (lane_status s) x (lane_alive s).

Definition set_lane_alive {P} (x : bool) (s : Lane P) : Lane P :=
  mkLane (lane_controller s) (lane_generation s) (lane_scheduled s) (lane_latencies s)
    (lane_status s) (lane_queue s) x.

Definition realtime_action_identity (action : RealtimeMidiAction) : RealtimeMidiActionKind * Z :=
  match action with
  | ActSelectBank number => (ActionBank, number)
  | ActTriggerAutoloop _ autoloop => (ActionAutoloop, autoloop)
  end.

Definition is_trigger (action : RealtimeMidiAction) : bool :=
  match action with ActTriggerAutoloop _ _ => true | ActSelectBank _ => false end.

(** [Instant::saturating_duration_since], and [u64::try_from(d.as_micros())] with its
    saturation. *)
Definition duration_since (later earlier : Z) : Z := Z.max 0 (later - earlier).
Definition as_micros_u64 (d : Z) : Z := Z.min (d / 1000) U64_MAX.

(** [sorted[index]] panics out of range; [percentile_in_range] shows it is not. *)
Definition percentile_index (n : nat) (p : Z) : nat := Z.to_nat (Z.of_nat (n - 1) * p / 100).

Definition percentile (sorted : list Z) (p : Z) : Z :=
  match sorted with
  | [] => 0
  | _ => default 0 (sorted !! percentile_index (length sorted) p)
  end.

Definition update_latency_distribution (latencies : list Z) (s : RealtimeMidiStatus) :
    RealtimeMidiStatus :=
  let sorted := sort_by_key id latencies in
  set_rms_latency_max_micros (default 0 (last sorted))
    (set_rms_latency_p99_micros (percentile sorted 99)
    (set_rms_latency_p95_micros (percentile sorted 95)
    (set_rms_latency_p50_micros (percentile sorted 50)
    (set_rms_latency_sample_count (Z.of_nat (length sorted)) s)))).

Definition add_cancelled (n : Z) (s : RealtimeMidiStatus) : RealtimeMidiStatus :=
  set_rms_cancelled_count (saturating_add_u64 (rms_cancelled_count s) n) s.

(** The two places that report saturation, apart from the queue depth. *)
Definition saturated (message : str) (s : RealtimeMidiStatus) : RealtimeMidiStatus :=
  let source := rms_source s in
  set_rms_source (mkMidiSourceStatus (mss_state source) (mss_source_name source)
      (mss_sent_pulse_count source) (mss_last_event source) (Some message)
      (mss_active_bank source))
    (set_rms_saturation_count (saturating_add_u64 (rms_saturation_count s) 1) s).

Definition queue_release (s : RealtimeMidiStatus) : RealtimeMidiStatus :=
  set_rms_queue_depth (Z.max 0 (rms_queue_depth s - 1)) s.

Definition output_error_to_string {E} (to_string : E → str) (e : MidiOutputError E) : str :=
  match e with
  | SourceNotPublished => lit "the virtual MIDI source is not published"
  | PulseCounterOverflow => lit "the MIDI pulse counter overflowed"
  | InvalidAddress => lit "the requested bank or AutoLoop address is invalid"
  | ProviderFailed e => lit "the MIDI provider failed: " ++ to_string e
  end.

Section Worker.
Context {P E : Type} `{MidiSourceProvider P E}.
Implicit Types l : Lane P.

(** [update_realtime_status]: the lock is never poisoned, no holder panics. *)
Definition update_realtime_status (f : RealtimeMidiStatus → RealtimeMidiStatus) l : Lane P :=
  set_lane_status (f (lane_status l)) l.

Definition publish_controller_status l : Lane P :=
  update_realtime_status (set_rms_source (controller_status (lane_controller l))) l.

Definition lane_new (provider : P) : Lane P :=
  mkLane (MidiOutputController_new provider) 0 [] [] RealtimeMidiStatus_default [] true.

(** An operation of the controller, the status it leaves and the reply. *)
Definition controller_command l
    (r : MidiOutputController P * result unit (MidiOutputError E)) :
    Lane P * option (result unit str) :=
  (publish_controller_status (set_lane_controller r.1 l),
   Some (map_err (output_error_to_string error_to_string) r.2)).

Definition lane_shutdown l : Lane P :=
  set_lane_alive false
    (publish_controller_status (set_lane_controller (controller_stop (lane_controller l)) l)).

Definition lane_stop l : Lane P :=
  let cancelled := Z.of_nat (length (lane_scheduled l)) in
  publish_controller_status (update_realtime_status (add_cancelled cancelled)
    (set_lane_controller (controller_stop (lane_controller l)) (set_lane_scheduled [] l))).

Definition lane_set_generation (next : Z) l : Lane P :=
  let kept := List.filter (λ item, sch_generation item =? next) (lane_scheduled l) in
  let cancelled := Z.of_nat (length (lane_scheduled l) - length kept) in
  update_realtime_status (add_cancelled cancelled)
    (set_lane_scheduled kept (set_lane_generation next l)).

Definition lane_schedule (now : Z) (item : ScheduledRealtimeMidiAction) l : Lane P :=
  if negb (sch_generation item =? lane_generation l)
  then update_realtime_status (add_cancelled 1) l
  else if (REALTIME_SCHEDULE_CAPACITY <=? length (lane_scheduled l))%nat
  then update_realtime_status
         (saturated (lit "Realtime MIDI deadline capacity exceeded; output failed closed")) l
  else
    let '(kind, number) := realtime_action_identity (sch_action item) in
    let lead := duration_since (sch_deadline item) now in
    update_realtime_status (λ s,
        set_rms_last_scheduled_lead_micros (Some (as_micros_u64 lead))
          (set_rms_last_scheduled_number (Some number)
          (set_rms_last_scheduled_action (Some kind)
          (set_rms_scheduled_count (saturating_add_u64 (rms_scheduled_count s) 1) s))))
      (set_lane_scheduled (lane_scheduled l ++ [item]) l).

Definition retimed (requested deadline bank_deadline : Z) (item : ScheduledRealtimeMidiAction) :
    ScheduledRealtimeMidiAction :=
  if sch_generation item =? requested
  then mkScheduled (sch_generation item)
         (if is_trigger (sch_action item) then deadline else bank_deadline) (sch_action item)
  else item.

Definition lane_retime_pending (requested deadline bank_deadline : Z) l : Lane P :=
  if (requested =? lane_generation l) &&
     existsb (λ item, (sch_generation item =? requested) && is_trigger (sch_action item))
       (lane_scheduled l)
  then set_lane_scheduled (retimed requested deadline bank_deadline <$> lane_scheduled l) l
  else l.

Definition lane_cancel_all l : Lane P :=
  update_realtime_status (add_cancelled (Z.of_nat (length (lane_scheduled l))))
    (set_lane_scheduled [] l).

(** One command, received at [now]; the reply goes to the waiting caller. *)
Definition handle_command (now : Z) (command : RealtimeMidiCommand) l :
    Lane P * option (result unit str) :=
  let l := update_realtime_status queue_release l in
  let c := lane_controller l in
  match command with
  | CmdPublish => controller_command l (controller_publish c)
  | CmdStop => (lane_stop l, Some (Ok tt))
  | CmdSendLearnPulse address => controller_command l (send_address_learn_pulse c address)
  | CmdSelectBank bank => controller_command l (select_bank c bank)
  | CmdTriggerAutoloop bank autoloop =>
      controller_command l (trigger_autoloop_button c bank autoloop)
  | CmdTriggerSequence bank autoloop => controller_command l (trigger_autoloop c bank autoloop)
  | CmdToggleStaticLook number => controller_command l (toggle_static_look c number)
  | CmdSetGeneration next => (lane_set_generation next l, None)
  | CmdSchedule item => (lane_schedule now item l, None)
  | CmdRetimePending requested deadline bank_deadline =>
      (lane_retime_pending requested deadline bank_deadline l, None)
  | CmdCancelAll => (lane_cancel_all l, None)
  | CmdShutdown => (lane_shutdown l, None)
  end.

(** ** Dispatch *)

Definition is_due (generation now : Z) (item : ScheduledRealtimeMidiAction) : bool :=
  (sch_generation item =? generation) && (sch_deadline item <=? now).

Definition perform (c : MidiOutputController P) (action : RealtimeMidiAction) :
    MidiOutputController P * result unit (MidiOutputError E) :=
  match action with
  | ActSelectBank bank => select_bank c bank
  | ActTriggerAutoloop bank autoloop => trigger_autoloop_button c bank autoloop
  end.

(** What the status records of one dispatch. *)
Definition record_dispatch (record : RealtimeDispatchRecord) (elapsed micros : Z)
    (latencies : list Z) (s : RealtimeMidiStatus) : RealtimeMidiStatus :=
  let s := set_rms_recent_dispatches
    (push_bounded REALTIME_DISPATCH_HISTORY_CAPACITY (rms_recent_dispatches s) record) s in
  let s := if rdr_succeeded record
    then set_rms_last_emitted_number (Some (rdr_number record))
           (set_rms_last_emitted_action (Some (rdr_action record))
           (set_rms_emitted_count (saturating_add_u64 (rms_emitted_count s) 1) s))
    else s in
  let s := set_rms_last_dispatch_lateness_micros (Some micros) s in
  let s := if REALTIME_LATE_DISPATCH_THRESHOLD <? elapsed
    then set_rms_late_dispatch_count (saturating_add_u64 (rms_late_dispatch_count s) 1) s
    else s in
  update_latency_distribution latencies s.

(** One due item; [started_at] and [completed_at] are read from the clock. *)
Definition dispatch (item : ScheduledRealtimeMidiAction) (started_at completed_at : Z) l :
    Lane P * RealtimeDispatchRecord :=
  let '(kind, number) := realtime_action_identity (sch_action item) in
  let '(c, r) := perform (lane_controller l) (sch_action item) in
  let elapsed := duration_since completed_at (sch_deadline item) in
  let micros := as_micros_u64 elapsed in
  let latencies := push_bounded REALTIME_LATENCY_SAMPLE_CAPACITY (lane_latencies l) micros in
  let record := mkRealtimeDispatchRecord (sch_generation item) kind number (sch_deadline item)
    started_at completed_at (result_flag r) in
  (publish_controller_status
     (update_realtime_status (record_dispatch record elapsed micros latencies)
       (set_lane_latencies latencies (set_lane_controller c l))), record).

Fixpoint dispatch_all (due : list ScheduledRealtimeMidiAction) (readings : list (Z * Z)) l :
    Lane P * list RealtimeDispatchRecord :=
  match due with
  | [] => (l, [])
  | item :: due =>
      let '(started_at, completed_at) := default (0, 0) (head readings) in
      let '(l1, record) := dispatch item started_at completed_at l in
      let '(l2, records) := dispatch_all due (tail readings) l1 in
      (l2, record :: records)
  end.

(** The timeout at [now]; [readings] are the instants read around each dispatch. *)
Definition due_items (now : Z) l : list ScheduledRealtimeMidiAction :=
  sort_by_key sch_deadline (List.filter (is_due (lane_generation l) now) (lane_scheduled l)).

Definition handle_timeout (now : Z) (readings : list (Z * Z)) l :
    Lane P * list RealtimeDispatchRecord :=
  let kept := List.filter (λ item, negb (is_due (lane_generation l) now item)) (lane_scheduled l) in
  dispatch_all (due_items now l) readings (set_lane_scheduled kept l).

(** When the worker waits with a timeout: the earliest deadline of its generation. *)
Definition next_deadline l : option Z :=
  head (sort_by_key id (sch_deadline <$>
    List.filter (λ item, sch_generation item =? lane_generation l) (lane_scheduled l))).

(** ** The methods of [RealtimeMidiController] *)

Definition try_send (command : RealtimeMidiCommand) l : Lane P * result unit RealtimeMidiError :=
  let l := update_realtime_status (λ s,
    let depth := saturating_add_u64 (rms_queue_depth s) 1 in
    set_rms_queue_high_water (Z.max (rms_queue_high_water s) depth) (set_rms_queue_depth depth s)) l in
  if negb (lane_alive l) then
    (update_realtime_status queue_release l, Err LaneWorkerUnavailable)
  else if (length (lane_queue l) <? REALTIME_COMMAND_CAPACITY)%nat then
    (set_lane_queue (lane_queue l ++ [command]) l, Ok tt)
  else
    (update_realtime_status (λ s,
       saturated (lit "Realtime MIDI lane saturated; output failed closed") (queue_release s)) l,
     Err LaneQueueSaturated).

(** The worker receives the oldest command. *)
Definition worker_receive (now : Z) l : Lane P * option (result unit str) :=
  match lane_queue l with
  | [] => (l, None)
  | command :: queue =>
      if lane_alive l then handle_command now command (set_lane_queue queue l) else (l, None)
  end.

(** The worker works through the commands ahead of a synchronous one; queued
    commands go before a timeout in [recv_timeout].  [now n] is the instant read
    with [n] commands left. *)
Fixpoint drain (now : nat → Z) (n : nat) l : Lane P :=
  match n with
  | O => l
  | S n => drain now n (worker_receive (now (S n)) l).1
  end.

(** [synchronous]: a blocking send, then the reply; a worker that shut down drops
    the reply channel. *)
Definition synchronous (now : nat → Z) (command : RealtimeMidiCommand) l :
    Lane P * result unit RealtimeMidiError :=
  let l := drain now (length (lane_queue l)) l in
  if lane_alive l then
    let '(l, reply) := handle_command (now 0%nat) command l in
    (l, match reply with
        | Some r => map_err LaneProvider r
        | None => Err LaneWorkerUnavailable
        end)
  else (l, Err LaneWorkerUnavailable).

Definition lane_publish now l := synchronous now CmdPublish l.
Definition lane_stop_call now l : Lane P := (synchronous now CmdStop l).1.
Definition lane_send_address_learn_pulse now (address : MidiAddress) l :=
  synchronous now (CmdSendLearnPulse address) l.
Definition lane_send_learn_pulse now l := lane_send_address_learn_pulse now BANK_ONE l.
Definition lane_select_bank now (bank : Z) l := synchronous now (CmdSelectBank bank) l.
Definition lane_trigger_autoloop_button now (bank autoloop : Z) l :=
  synchronous now (CmdTriggerAutoloop bank autoloop) l.
Definition lane_trigger_autoloop now (bank autoloop : Z) l :=
  synchronous now (CmdTriggerSequence bank autoloop) l.
Definition lane_toggle_static_look now (number : Z) l :=
  synchronous now (CmdToggleStaticLook number) l.

Definition set_generation (generation : Z) l := try_send (CmdSetGeneration generation) l.
Definition queue_schedule (generation deadline : Z) (action : RealtimeMidiAction) l :=
  try_send (CmdSchedule (mkScheduled generation deadline action)) l.
Definition schedule_bank (generation bank_number deadline : Z) l :=
  queue_schedule generation deadline (ActSelectBank bank_number) l.
Definition schedule_autoloop (generation bank_number autoloop_number deadline : Z) l :=
  queue_schedule generation deadline (ActTriggerAutoloop bank_number autoloop_number) l.
Definition cancel_all l := try_send CmdCancelAll l.
Definition retime_pending (generation deadline bank_deadline : Z) l :=
  try_send (CmdRetimePending generation deadline bank_deadline) l.

(** [Drop]: the shutdown command; the worker thread has ended when this returns. *)
Definition lane_drop now l : Lane P := (synchronous now CmdShutdown l).1.

(** ** Runs: any interleaving of calls, received commands and timeouts *)

Inductive LaneInput : Type :=
| InTrySend (command : RealtimeMidiCommand)
| InSynchronous (now : nat → Z) (command : RealtimeMidiCommand)
| InReceive (now : Z)
| InTimeout (now : Z) (readings : list (Z * Z)).

Definition lane_step l (i : LaneInput) : Lane P * list RealtimeDispatchRecord :=
  match i with
  | InTrySend command => ((try_send command l).1, [])
  | InSynchronous now command => ((synchronous now command l).1, [])
  | InReceive now => ((worker_receive now l).1, [])
  | InTimeout now readings =>
      if lane_alive l && bool_decide (lane_queue l = []) && bool_decide (is_Some (next_deadline l))
      then handle_timeout now readings l
      else (l, [])
  end.

Fixpoint lane_run l (inputs : list LaneInput) : Lane P * list RealtimeDispatchRecord :=
  match inputs with
  | [] => (l, [])
  | i :: inputs =>
      let '(l1, records) := lane_step l i in
      let '(l2, rest) := lane_run l1 inputs in
      (l2, records ++ rest)
  end.
End Worker.
