(* ===== verification/MidiLaneProps.v ===== *)
(** * The realtime MIDI lane: proofs

    The invariant of the lane, what a timeout dispatches, and that nothing is
    dispatched twice, early or for a stale generation. *)

From stdpp Require Import prelude list gmap strings.
From Stdlib Require Import ZArith Lia.
From Stdlib Require Import Sorting.Sorted.
From S2P Require Import Prelude.
From S2P Require Import Midi.
From S2P Require Import MidiLane.
Open Scope Z_scope.

#[local] Arguments Nat.leb : simpl never.
#[local] Arguments Nat.ltb : simpl never.
#[local] Arguments lit : simpl never.

(** ** Percentiles *)

Lemma percentile_in_range n p :
  (0 < n)%nat → 0 ≤ p ≤ 100 → (percentile_index n p < n)%nat.
Proof.
  intros Hn Hp. unfold percentile_index.
  enough (Z.of_nat (n - 1) * p / 100 ≤ Z.of_nat (n - 1)) by lia.
  apply Z.div_le_upper_bound; nia.
Qed.

Lemma percentile_index_mono n p q :
  0 ≤ p ≤ q → (percentile_index n p ≤ percentile_index n q)%nat.
Proof.
  intros Hp. unfold percentile_index. apply Z2Nat.inj_le; try (apply Z.div_pos; nia).
  apply Z.div_le_mono; nia.
Qed.

Lemma percentile_lookup l p :
  l ≠ [] → 0 ≤ p ≤ 100 → l !! percentile_index (length l) p = Some (percentile l p).
Proof.
  intros Hl Hp. destruct l as [|x l]; [done|]. unfold percentile.
  destruct (lookup_lt_is_Some_2 (x :: l) (percentile_index (length (x :: l)) p)) as [y Hy].
  { apply percentile_in_range; [simpl; lia|done]. }
  by rewrite Hy.
Qed.

Lemma sorted_lookup_le (l : list Z) i j x y :
  StronglySorted (key_le id) l → (i ≤ j)%nat → l !! i = Some x → l !! j = Some y → x ≤ y.
Proof.
  intros Hs. revert i j. induction Hs as [|z l Hs IH Hz]; intros i j Hij Hi Hj; [done|].
  destruct i as [|i], j as [|j]; simpl in *; try lia.
  - simplify_eq. lia.
  - simplify_eq. rewrite Forall_lookup in Hz. by apply Hz in Hj.
  - eapply (IH i j); eauto. lia.
Qed.

Lemma percentile_mono l p q :
  StronglySorted (key_le id) l → 0 ≤ p ≤ q → q ≤ 100 → percentile l p ≤ percentile l q.
Proof.
  intros Hs Hp Hq. destruct (decide (l = [])) as [->|Hl]; [done|].
  eapply sorted_lookup_le; [done| |apply percentile_lookup; [done|lia]..].
  apply percentile_index_mono. lia.
Qed.

Lemma percentile_le_last l p :
  StronglySorted (key_le id) l → 0 ≤ p ≤ 100 → percentile l p ≤ default 0 (last l).
Proof.
  intros Hs Hp. destruct (decide (l = [])) as [->|Hl]; [done|].
  destruct (last l) as [y|] eqn:Hy; [|by apply last_None in Hy]. rewrite last_lookup in Hy.
  eapply sorted_lookup_le; [done| |by apply percentile_lookup|exact Hy].
  pose proof (percentile_in_range (length l) p). destruct l; [done|]. simpl in *. lia.
Qed.

Lemma percentile_elem l p : l ≠ [] → 0 ≤ p ≤ 100 → percentile (sort_by_key id l) p ∈ l.
Proof.
  intros Hl Hp. rewrite <- (sort_by_key_perm id l) at 2.
  eapply list_elem_of_lookup_2, percentile_lookup; [|done].
  intros E1. apply (f_equal length) in E1. rewrite sort_by_key_length in E1. by destruct l.
Qed.

Lemma sorted_transfer {A B} (f : A → Z) (g : B → Z) l k :
  Forall2 (λ x y, g y = f x) l k → StronglySorted (key_le f) l → StronglySorted (key_le g) k.
Proof.
  induction 1 as [|x y l k Hxy Hr IH]; [constructor|]. intros [Hs Hf]%StronglySorted_inv.
  constructor; [auto|]. apply Forall_lookup. intros i z Hz.
  destruct (Forall2_lookup_r _ _ _ _ _ Hr Hz) as (z' & Hz' & E').
  apply (proj1 (Forall_lookup _ _) Hf) in Hz'. unfold key_le in *. lia.
Qed.

Lemma filter_partition {A} (f : A → bool) (l : list A) :
  l ≡ₚ List.filter f l ++ List.filter (λ x, negb (f x)) l.
Proof.
  induction l as [|x l IH]; simpl; [done|]. destruct (f x); simpl; [by rewrite <- IH|].
  by rewrite <- Permutation_middle, <- IH.
Qed.

(** ** The invariant *)

(** The status shows the distribution of the samples. *)
Definition distribution_shown (lat : list Z) (s : RealtimeMidiStatus) : Prop :=
  let sorted := sort_by_key id lat in
  rms_latency_sample_count s = Z.of_nat (length lat) ∧
  rms_latency_p50_micros s = percentile sorted 50 ∧
  rms_latency_p95_micros s = percentile sorted 95 ∧
  rms_latency_p99_micros s = percentile sorted 99 ∧
  rms_latency_max_micros s = default 0 (last sorted).

Definition observed (lat : list Z) (s : RealtimeMidiStatus) : Prop :=
  (length lat ≤ REALTIME_LATENCY_SAMPLE_CAPACITY)%nat ∧
  (length (rms_recent_dispatches s) ≤ REALTIME_DISPATCH_HISTORY_CAPACITY)%nat ∧
  distribution_shown lat s.

Definition schedule_ok (generation : Z) (scheduled : list ScheduledRealtimeMidiAction) : Prop :=
  Forall (λ item, sch_generation item = generation) scheduled ∧
  (length scheduled ≤ REALTIME_SCHEDULE_CAPACITY)%nat.

(** A learn pulse carries an address of the constructors. *)
Definition command_made (command : RealtimeMidiCommand) : Prop :=
  match command with CmdSendLearnPulse address => MadeAddress address | _ => True end.

Definition queue_ok (queue : list RealtimeMidiCommand) : Prop :=
  Forall command_made queue ∧ (length queue ≤ REALTIME_COMMAND_CAPACITY)%nat.

Definition input_made (i : LaneInput) : Prop :=
  match i with
  | InTrySend command | InSynchronous _ command => command_made command
  | _ => True
  end.

Section Lane.
Context {P E : Type} `{MidiSourceProvider P E}.
Implicit Types l : Lane (Traced P).

Record lane_inv l : Prop := {
  li_schedule : schedule_ok (lane_generation l) (lane_scheduled l);
  li_observed : observed (lane_latencies l) (lane_status l);
  li_controller : controller_inv (lane_controller l);
  li_queue : queue_ok (lane_queue l);
}.

Lemma lane_new_inv (p : P) : lane_inv (lane_new (mkTraced p [])).
Proof.
  split; [|split_and!; try apply Nat.le_0_l; done|apply new_inv|];
    (split; [constructor|apply Nat.le_0_l]).
Qed.

Lemma schedule_ok_filter f generation scheduled :
  schedule_ok generation scheduled → schedule_ok generation (List.filter f scheduled).
Proof.
  intros [H1 H2]. split.
  - rewrite Forall_forall in *. intros x Hx. apply H1.
    rewrite list_elem_of_In, List.filter_In, <- list_elem_of_In in Hx. by destruct Hx.
  - etrans; [apply List.filter_length_le|done].
Qed.

Lemma controller_command_inv l r :
  lane_inv l → controller_inv r.1 → lane_inv (controller_command l r).1.
Proof. by intros [H1 H2 H3 H4] Hr; split. Qed.

Lemma lane_schedule_inv now item l : lane_inv l → lane_inv (lane_schedule now item l).
Proof.
  intros [H1 H2 H3 H4]. unfold lane_schedule.
  destruct (Z.eqb_spec (sch_generation item) (lane_generation l)) as [E1|]; simpl; [|by split].
  destruct (Nat.leb_spec REALTIME_SCHEDULE_CAPACITY (length (lane_scheduled l))); [by split|].
  destruct (realtime_action_identity (sch_action item)), H1. split; simpl; try done. split.
  - apply Forall_app. auto.
  - rewrite length_app. simpl. lia.
Qed.

Lemma lane_retime_inv g d b l : lane_inv l → lane_inv (lane_retime_pending g d b l).
Proof.
  intros [H1 H2 H3 H4]. unfold lane_retime_pending. case_match; [|by split]. destruct H1.
  split; simpl; try done. split; [|by rewrite length_fmap].
  apply Forall_fmap. eapply Forall_impl; [done|]. intros item Hi. unfold compose, retimed.
  by case_match.
Qed.

Lemma handle_command_inv now command l :
  command_made command → lane_inv l → lane_inv (handle_command now command l).1.
Proof.
  intros Hc Hl. unfold handle_command.
  assert (Hl' : lane_inv (update_realtime_status queue_release l)) by (by destruct Hl; split).
  set (l' := update_realtime_status queue_release l) in *. clearbody l'. clear Hl l.
  pose proof (li_controller _ Hl') as Hi.
  destruct command as [| |a|b|b n|b n|n|g|item|g d bd| |]; cbn [fst];
    try apply controller_command_inv; try done.
  - by apply publish_inv.
  - destruct Hl' as [H1 H2 H3 H4]. split; try done; [split; [constructor|apply Nat.le_0_l]|].
    by apply stop_inv.
  - by apply (run_op_inv _ (OpLearn a)).
  - by apply (run_op_inv _ (OpSelectBank b)).
  - by apply (run_op_inv _ (OpButton b n)).
  - by apply (run_op_inv _ (OpTrigger b n)).
  - by apply (run_op_inv _ (OpStaticLook n)).
  - destruct Hl' as [[H1 H1'] H2 H3 H4]. split; try done; simpl. split.
    + apply Forall_forall. intros x Hx.
      rewrite list_elem_of_In, List.filter_In, Z.eqb_eq in Hx. apply Hx.
    + etrans; [apply List.filter_length_le|done].
  - by apply lane_schedule_inv.
  - by apply lane_retime_inv.
  - destruct Hl' as [H1 H2 H3 H4]. split; try done. split; [constructor|apply Nat.le_0_l].
  - destruct Hl' as [H1 H2 H3 H4]. split; try done. by apply stop_inv.
Qed.

Lemma set_queue_inv q l : lane_inv l → queue_ok q → lane_inv (set_lane_queue q l).
Proof. by intros [H1 H2 H3 H4] Hq; split. Qed.

Lemma worker_receive_inv now l : lane_inv l → lane_inv (worker_receive now l).1.
Proof.
  intros Hl. unfold worker_receive. destruct (lane_queue l) as [|command q] eqn:Hq; [done|].
  destruct (lane_alive l); [|done]. pose proof (li_queue _ Hl) as [Hm Hn]. rewrite Hq in Hm, Hn.
  apply Forall_cons in Hm as [? ?]. apply handle_command_inv; [done|].
  apply set_queue_inv; [done|]. split; [done|]. simpl in Hn. lia.
Qed.

Lemma drain_inv now n : ∀ l, lane_inv l → lane_inv (drain now n l).
Proof. induction n; intros l Hl; simpl; auto using worker_receive_inv. Qed.

Lemma synchronous_inv now command l :
  command_made command → lane_inv l → lane_inv (synchronous now command l).1.
Proof.
  intros Hc Hl. unfold synchronous. pose proof (drain_inv now (length (lane_queue l)) l Hl) as Hd.
  destruct (lane_alive _); [|done].
  pose proof (handle_command_inv (now 0%nat) command _ Hc Hd). by destruct (handle_command _ _ _).
Qed.

Lemma try_send_inv command l :
  command_made command → lane_inv l → lane_inv (try_send command l).1.
Proof.
  intros Hc [H1 H2 H3 H4]. unfold try_send. simpl. destruct (lane_alive l); [|by split].
  simpl. destruct (Nat.ltb_spec (length (lane_queue l)) REALTIME_COMMAND_CAPACITY); [|by split].
  destruct H4. split; try done. split; simpl; [apply Forall_app; auto|rewrite length_app; simpl; lia].
Qed.

(** *** Dispatch *)

Lemma record_dispatch_observed record elapsed micros lat s :
  (length lat ≤ REALTIME_LATENCY_SAMPLE_CAPACITY)%nat →
  (length (rms_recent_dispatches s) ≤ REALTIME_DISPATCH_HISTORY_CAPACITY)%nat →
  observed (push_bounded REALTIME_LATENCY_SAMPLE_CAPACITY lat micros)
    (record_dispatch record elapsed micros
       (push_bounded REALTIME_LATENCY_SAMPLE_CAPACITY lat micros) s).
Proof.
  intros H1 H2. split; [apply push_bounded_length; [unfold REALTIME_LATENCY_SAMPLE_CAPACITY; lia|done]|].
  assert (Hh : (length (push_bounded REALTIME_DISPATCH_HISTORY_CAPACITY (rms_recent_dispatches s)
    record) ≤ REALTIME_DISPATCH_HISTORY_CAPACITY)%nat).
  { apply push_bounded_length; [unfold REALTIME_DISPATCH_HISTORY_CAPACITY; lia|done]. }
  unfold record_dispatch, distribution_shown.
  destruct (rdr_succeeded record), (REALTIME_LATE_DISPATCH_THRESHOLD <? elapsed);
    (split; [exact Hh|]; simpl; split_and!; [by rewrite sort_by_key_length|reflexivity..]).
Qed.

Lemma observed_source x lat s : observed lat s → observed lat (set_rms_source x s).
Proof. by intros (H1 & H2 & H3). Qed.

Lemma perform_inv (c : MidiOutputController (Traced P)) action :
  controller_inv c → controller_inv (perform c action).1.
Proof.
  intros Hc. destruct action as [b|b n].
  - by apply (run_op_inv _ (OpSelectBank b)).
  - by apply (run_op_inv _ (OpButton b n)).
Qed.

(** What a dispatch leaves alone. *)
Definition same_schedule (l l' : Lane (Traced P)) : Prop :=
  lane_scheduled l' = lane_scheduled l ∧ lane_generation l' = lane_generation l ∧
  lane_queue l' = lane_queue l ∧ lane_alive l' = lane_alive l.

(** A record reports the item it dispatches. *)
Definition record_of (item : ScheduledRealtimeMidiAction) (record : RealtimeDispatchRecord) : Prop :=
  rdr_generation record = sch_generation item ∧ rdr_deadline record = sch_deadline item ∧
  (rdr_action record, rdr_number record) = realtime_action_identity (sch_action item).

Lemma dispatch_spec item s e l :
  let '(l', record) := dispatch item s e l in
  same_schedule l l' ∧ record_of item record ∧ (lane_inv l → lane_inv l').
Proof.
  unfold dispatch. destruct (realtime_action_identity (sch_action item)) as [kind number] eqn:Hi.
  pose proof (perform_inv (lane_controller l) (sch_action item)) as Hp.
  destruct (perform (lane_controller l) (sch_action item)) as [c r].
  split_and!; [done|done|]. intros [H1 [H2 [H2' _]] H3 H4]. split; [exact H1| |by apply Hp|exact H4].
  apply observed_source. by apply record_dispatch_observed.
Qed.

Lemma dispatch_all_spec due : ∀ readings l,
  let '(l', records) := dispatch_all due readings l in
  same_schedule l l' ∧ Forall2 record_of due records ∧ (lane_inv l → lane_inv l').
Proof.
  induction due as [|item due IH]; intros readings l; simpl; [by split_and!|].
  destruct (default (0, 0) (head readings)) as [s e].
  pose proof (dispatch_spec item s e l) as Hd. destruct (dispatch item s e l) as [l1 record].
  specialize (IH (tail readings) l1). destruct (dispatch_all due (tail readings) l1) as [l2 records].
  destruct Hd as ((?&?&?&?) & ? & ?), IH as ((?&?&?&?) & ? & ?).
  split_and!; [unfold same_schedule; split_and!; congruence|by constructor|auto].
Qed.

Lemma handle_timeout_inv now readings l :
  lane_inv l → lane_inv (handle_timeout now readings l).1.
Proof.
  intros Hl. unfold handle_timeout.
  match goal with |- context [dispatch_all ?d ?r ?x] =>
    pose proof (dispatch_all_spec d r x) as Hs; destruct (dispatch_all d r x) end.
  apply Hs. destruct Hl as [H1 H2 H3 H4]. split; try done. by apply schedule_ok_filter.
Qed.

Lemma lane_step_inv l i : input_made i → lane_inv l → lane_inv (lane_step l i).1.
Proof.
  destruct i as [command|now command|now|now readings]; simpl; intros Hi Hl.
  - by apply try_send_inv.
  - by apply synchronous_inv.
  - by apply worker_receive_inv.
  - case_match; [by apply handle_timeout_inv|done].
Qed.

Lemma lane_run_inv inputs : ∀ l,
  Forall input_made inputs → lane_inv l → lane_inv (lane_run l inputs).1.
Proof.
  induction inputs as [|i inputs IH]; intros l Hi Hl; simpl; [done|].
  apply Forall_cons in Hi as [? ?]. pose proof (lane_step_inv l i ltac:(done) Hl) as Hs.
  destruct (lane_step l i) as [l1 records]. specialize (IH l1 ltac:(done) Hs).
  by destruct (lane_run l1 inputs).
Qed.

(** The lane is bounded.  Whatever the interleaving of calls, received commands
    and timeouts, and whenever the provider fails: at most 128 items are scheduled,
    all of the current generation; at most 64 commands wait; at most 128 dispatches
    and 2048 samples are kept; the percentiles shown are samples in increasing order
    up to the maximum; and the provider has been called only as
    the protocol of the source allows. *)
Theorem lane_bounds (p : P) inputs :
  Forall input_made inputs →
  let l := (lane_run (lane_new (mkTraced p [])) inputs).1 in
  let s := lane_status l in
  (length (lane_scheduled l) ≤ 128 ∧ length (lane_queue l) ≤ 64 ∧
   length (rms_recent_dispatches s) ≤ 128 ∧ length (lane_latencies l) ≤ 2048)%nat ∧
  Forall (λ item, sch_generation item = lane_generation l) (lane_scheduled l) ∧
  (rms_latency_p50_micros s ≤ rms_latency_p95_micros s ≤ rms_latency_p99_micros s ∧
   rms_latency_p99_micros s ≤ rms_latency_max_micros s) ∧
  (lane_latencies l ≠ [] →
     Forall (λ x, x ∈ lane_latencies l)
       [rms_latency_p50_micros s; rms_latency_p95_micros s; rms_latency_p99_micros s]) ∧
  is_Some (protocol_run ProtoClosed (calls (lane_controller l))).
Proof.
  intros Hi l s. destruct (lane_run_inv inputs _ Hi (lane_new_inv p)) as [[H1 H1'] H2 H3 [_ H4]].
  fold l in H1, H1', H2, H3, H4. destruct H2 as (H2 & H2' & Hd). fold s in H2', Hd.
  destruct Hd as (_ & -> & -> & -> & ->).
  pose proof (sort_by_key_sorted id (lane_latencies l)) as Hs.
  split_and!; try done; try (apply percentile_mono; [done|lia..]); try (by apply percentile_le_last).
  - intros Hn. rewrite !Forall_cons. split_and!; [by apply percentile_elem; [|lia]..|constructor].
  - rewrite (ci_protocol _ H3). done.
Qed.

(** *** What a timeout does *)

Lemma due_items_perm now l :
  due_items now l ≡ₚ List.filter (is_due (lane_generation l) now) (lane_scheduled l).
Proof. apply sort_by_key_perm. Qed.

Lemma due_items_elem now l item :
  item ∈ due_items now l →
  item ∈ lane_scheduled l ∧ sch_generation item = lane_generation l ∧ sch_deadline item ≤ now.
Proof.
  rewrite due_items_perm, list_elem_of_In, List.filter_In, <- list_elem_of_In. unfold is_due.
  rewrite andb_true_iff, Z.eqb_eq, Z.leb_le. naive_solver.
Qed.

(** A timeout dispatches exactly what is due.  The items of the current
    generation whose deadline has passed, each once, in the order of their deadlines
    and, for equal deadlines, in the order they were scheduled; everything else
    stays scheduled and nothing is dispatched before its deadline. *)
Theorem timeout_dispatches_due now readings l l' records :
  handle_timeout now readings l = (l', records) →
  Forall2 record_of (due_items now l) records ∧
  Forall (λ r, rdr_generation r = lane_generation l ∧ rdr_deadline r ≤ now) records ∧
  StronglySorted (key_le rdr_deadline) records ∧
  (∀ d, List.filter (λ item, sch_deadline item =? d) (due_items now l) =
        List.filter (λ item, sch_deadline item =? d)
          (List.filter (is_due (lane_generation l) now) (lane_scheduled l))) ∧
  due_items now l ++ lane_scheduled l' ≡ₚ lane_scheduled l ∧
  Forall (λ item, sch_generation item = lane_generation l → now < sch_deadline item)
    (lane_scheduled l').
Proof.
  unfold handle_timeout. intros Ht.
  match type of Ht with dispatch_all ?d ?r ?x = _ => pose proof (dispatch_all_spec d r x) as Hs end.
  rewrite Ht in Hs. destruct Hs as ((-> & _) & Hr & _). cbn [lane_scheduled set_lane_scheduled].
  split_and!; [done|..].
  - apply Forall_forall. intros r (i & Hi)%list_elem_of_lookup.
    destruct (Forall2_lookup_r _ _ _ _ _ Hr Hi) as (item & Hl%list_elem_of_lookup_2 & -> & -> & _).
    apply due_items_elem in Hl. naive_solver.
  - eapply (sorted_transfer sch_deadline); [|apply sort_by_key_sorted].
    eapply Forall2_impl; [exact Hr|]. by intros item r (_ & ? & _).
  - intros d. apply sort_by_key_stable.
  - rewrite due_items_perm. symmetry. apply filter_partition.
  - apply Forall_forall. intros item. rewrite list_elem_of_In, List.filter_In. unfold is_due.
    rewrite negb_true_iff, andb_false_iff, Z.eqb_neq, Z.leb_gt. naive_solver.
Qed.

(** *** Nothing is dispatched twice *)

Definition item_ident (item : ScheduledRealtimeMidiAction) : Z * (RealtimeMidiActionKind * Z) :=
  (sch_generation item, realtime_action_identity (sch_action item)).

Definition record_ident (r : RealtimeDispatchRecord) : Z * (RealtimeMidiActionKind * Z) :=
  (rdr_generation r, (rdr_action r, rdr_number r)).

Definition schedule_ident (command : RealtimeMidiCommand) : option (Z * (RealtimeMidiActionKind * Z)) :=
  match command with CmdSchedule item => Some (item_ident item) | _ => None end.

(** What is scheduled, or waits in the channel to be. *)
Definition pending l : list (Z * (RealtimeMidiActionKind * Z)) :=
  (item_ident <$> lane_scheduled l) ++ omap schedule_ident (lane_queue l).

(** The schedule requests of an input. *)
Definition requested (i : LaneInput) : list (Z * (RealtimeMidiActionKind * Z)) :=
  match i with
  | InTrySend command | InSynchronous _ command => omap schedule_ident [command]
  | _ => []
  end.

Lemma filter_ident_submseteq f scheduled :
  item_ident <$> List.filter f scheduled ⊆+ item_ident <$> scheduled.
Proof.
  induction scheduled as [|item scheduled IH]; simpl; [done|].
  destruct (f item); simpl; [by apply submseteq_skip|by apply submseteq_cons].
Qed.

Lemma retimed_ident g d b (scheduled : list ScheduledRealtimeMidiAction) :
  item_ident <$> (retimed g d b <$> scheduled) = item_ident <$> scheduled.
Proof.
  rewrite <- list_fmap_compose. apply list_fmap_ext. intros _ item _. unfold compose, retimed.
  by case_match.
Qed.

Lemma handle_command_queue now command l :
  lane_queue (handle_command now command l).1 = lane_queue l.
Proof.
  destruct command; try done; simpl.
  - unfold lane_schedule. repeat case_match; done.
  - unfold lane_retime_pending. by case_match.
Qed.

Lemma handle_command_scheduled now command l :
  item_ident <$> lane_scheduled (handle_command now command l).1 ⊆+
  (item_ident <$> lane_scheduled l) ++ omap schedule_ident [command].
Proof.
  destruct command; simpl; rewrite ?app_nil_r; try done; try apply submseteq_nil_l.
  - apply filter_ident_submseteq.
  - unfold lane_schedule. destruct (negb _); simpl; [by apply submseteq_inserts_r|].
    destruct (_ <=? _)%nat; simpl; [by apply submseteq_inserts_r|].
    destruct (realtime_action_identity (sch_action item)). simpl. by rewrite fmap_app.
  - unfold lane_retime_pending. case_match; [|done]. simpl. by rewrite retimed_ident.
Qed.

Lemma worker_receive_pending now l : pending (worker_receive now l).1 ⊆+ pending l.
Proof.
  unfold worker_receive. destruct (lane_queue l) as [|command q] eqn:Hq; [done|].
  destruct (lane_alive l); [|done]. unfold pending. rewrite handle_command_queue, Hq.
  change (command :: q) with ([command] ++ q). rewrite omap_app, app_assoc.
  apply submseteq_app; [|done]. apply (handle_command_scheduled now command (set_lane_queue q l)).
Qed.

Lemma drain_pending now n : ∀ l, pending (drain now n l) ⊆+ pending l.
Proof.
  induction n as [|n IH]; intros l; simpl; [done|]. etrans; [apply IH|].
  apply worker_receive_pending.
Qed.

Lemma synchronous_pending now command l :
  pending (synchronous now command l).1 ⊆+ pending l ++ omap schedule_ident [command].
Proof.
  unfold synchronous. pose proof (drain_pending now (length (lane_queue l)) l) as Hd.
  destruct (lane_alive _); [|by apply submseteq_inserts_r].
  set (l1 := drain now (length (lane_queue l)) l) in *.
  pose proof (handle_command_scheduled (now 0%nat) command l1) as Hs.
  pose proof (handle_command_queue (now 0%nat) command l1) as Hq.
  destruct (handle_command (now 0%nat) command l1) as [l2 reply]. cbn [fst] in *.
  etrans; [|by apply submseteq_app; [exact Hd|done]].
  unfold pending. rewrite Hq. rewrite <- app_assoc, (Permutation_app_comm (omap _ (lane_queue l1))),
    app_assoc. by apply submseteq_app.
Qed.

Lemma try_send_pending command l :
  pending (try_send command l).1 ⊆+ pending l ++ omap schedule_ident [command].
Proof.
  unfold try_send. simpl. destruct (lane_alive l); simpl; [|by apply submseteq_inserts_r].
  destruct (_ <? _)%nat; simpl; [|by apply submseteq_inserts_r].
  unfold pending. simpl. by rewrite omap_app, app_assoc.
Qed.

Lemma lane_step_pending l i :
  let '(l', records) := lane_step l i in
  (record_ident <$> records) ++ pending l' ⊆+ pending l ++ requested i.
Proof.
  destruct i as [command|now command|now|now readings]; cbn [lane_step requested].
  - apply try_send_pending.
  - apply synchronous_pending.
  - rewrite app_nil_r. apply worker_receive_pending.
  - rewrite app_nil_r. destruct (_ && bool_decide (is_Some _)); [|done].
    destruct (handle_timeout now readings l) as [l' records] eqn:Ht.
    unfold handle_timeout in Ht.
    match type of Ht with dispatch_all ?d ?r ?x = _ => pose proof (dispatch_all_spec d r x) as Hs end.
    rewrite Ht in Hs. destruct Hs as ((H1 & _ & H2 & _) & Hr & _).
    unfold pending. rewrite H1, H2. simpl. rewrite app_assoc. apply submseteq_app; [|done].
    apply Permutation_submseteq.
    trans (item_ident <$> (due_items now l ++ List.filter
      (λ item, negb (is_due (lane_generation l) now item)) (lane_scheduled l))).
    + rewrite fmap_app. apply Permutation_app; [|done]. clear -Hr.
      induction Hr as [|item r items rs (H1 & _ & H2) Hr IH]; simpl; [done|].
      rewrite IH. unfold item_ident at 2, record_ident. by rewrite <- H1, <- H2.
    + f_equiv. rewrite due_items_perm. symmetry. apply filter_partition.
Qed.

Lemma lane_run_pending inputs : ∀ l,
  let '(l', records) := lane_run l inputs in
  (record_ident <$> records) ++ pending l' ⊆+ pending l ++ (inputs ≫= requested).
Proof.
  induction inputs as [|i inputs IH]; intros l; simpl; [by rewrite app_nil_r|].
  pose proof (lane_step_pending l i) as Hs. destruct (lane_step l i) as [l1 r1].
  specialize (IH l1). destruct (lane_run l1 inputs) as [l2 r2].
  rewrite fmap_app, <- app_assoc. etrans; [apply submseteq_app; [done|exact IH]|].
  rewrite !app_assoc. by apply submseteq_app.
Qed.

(** C33: Nothing is dispatched twice.  In every run of the lane from its start, with
    retimed, cancelled and superseded items, saturations and provider failures in any
    order, the dispatches made and the items still pending are together contained in
    the schedule requests made: for each generation, action and number, the lane
    dispatches at most as often as it was asked to. *)
Theorem dispatch_at_most_once (p : P) inputs :
  let '(l', records) := lane_run (lane_new (mkTraced p [])) inputs in
  (record_ident <$> records) ++ pending l' ⊆+ inputs ≫= requested.
Proof. exact (lane_run_pending inputs (lane_new (mkTraced p []))). Qed.
End Lane.

(** ** A concrete run *)

Definition demo_now (_ : nat) : Z := 0.

(** Bank 2 at 10, Autoloops at 20 and 30 nanoseconds; the one at 30 is retimed to 15
    with its bank; a timeout at 12, one at 18, then a new generation. *)
Definition demo_inputs : list LaneInput :=
  [InSynchronous demo_now CmdPublish;
   InTrySend (CmdSetGeneration 5); InReceive 0;
   InTrySend (CmdSchedule (mkScheduled 5 20 (ActTriggerAutoloop 2 7))); InReceive 1;
   InTrySend (CmdSchedule (mkScheduled 5 10 (ActSelectBank 2))); InReceive 2;
   InTrySend (CmdSchedule (mkScheduled 4 10 (ActSelectBank 1))); InReceive 3;
   InTimeout 12 [(12, 13)];
   InTrySend (CmdRetimePending 5 15 5); InReceive 14;
   InTimeout 18 [(18, 19)]].

Definition demo_lane : Lane (Traced (list bool)) := lane_new (mkTraced [true; true] []).

Example demo_lane_records :
  record_ident <$> (lane_run demo_lane demo_inputs).2 =
  [(5, (ActionBank, 2)); (5, (ActionAutoloop, 7))].
Proof. vm_compute. reflexivity. Qed.

Lemma lane_bounds_witness :
  let l := (lane_run demo_lane demo_inputs).1 in
  (length (lane_scheduled l) ≤ 128)%nat ∧ length (lane_latencies l) = 2%nat.
Proof.
  split; [|vm_compute; reflexivity].
  exact (proj1 (proj1 (lane_bounds [true; true] demo_inputs ltac:(repeat constructor)))).
Defined.

Definition demo_scheduled : Lane (Traced (list bool)) :=
  (lane_run demo_lane (take 9 demo_inputs)).1.

Lemma timeout_dispatches_due_witness :
  length (due_items 12 demo_scheduled) = 1%nat ∧
  Forall2 record_of (due_items 12 demo_scheduled)
    (handle_timeout 12 [(12, 13)] demo_scheduled).2.
Proof.
  split; [vm_compute; reflexivity|].
  exact (proj1 (timeout_dispatches_due 12 [(12, 13)] demo_scheduled
    (handle_timeout 12 [(12, 13)] demo_scheduled).1 (handle_timeout 12 [(12, 13)] demo_scheduled).2
    (surjective_pairing _))).
Defined.
