(* ===== verification/MidiClock.v ===== *)
(** * The MIDI clock

    Models the clock part of [lumi-midi-output/src/lib.rs]: [MidiClockController] and
    the worker thread [run_clock_worker], which sends 24 ticks per beat and the
    transport messages.  As in the realtime lane, the instants the worker reads are
    inputs. *)

From stdpp Require Import prelude list gmap strings.
From Stdlib Require Import ZArith Lia.
From S2P Require Import Prelude.
From S2P Require Import Midi.
Open Scope Z_scope.

Inductive MidiClockState : Type := ClockStopped | ClockReady | ClockRunning.

#[global] Instance MidiClockState_eq_dec : EqDecision MidiClockState.
Proof. solve_decision. Defined.

Record MidiClockStatus := mkMidiClockStatus {
  mcs_state : MidiClockState;
  mcs_source_name : str;
  mcs_bpm_milli : option Z;
  mcs_sent_tick_count : Z;
  mcs_sent_transport_count : Z;
  mcs_last_event : option str;
  mcs_last_error : option str;
}.

Definition set_mcs_state (x : MidiClockState) (s : MidiClockStatus) : MidiClockStatus :=
  mkMidiClockStatus x (mcs_source_name s) (mcs_bpm_milli s) (mcs_sent_tick_count s)
    (mcs_sent_transport_count s) (mcs_last_event s) (mcs_last_error s).

Definition set_mcs_bpm_milli (x : option Z) (s : MidiClockStatus) : MidiClockStatus :=
  mkMidiClockStatus (mcs_state s) (mcs_source_name s) x (mcs_sent_tick_count s)
    (mcs_sent_transport_count s) (mcs_last_event s) (mcs_last_error s).

Definition set_mcs_sent_tick_count (x : Z) (s : MidiClockStatus) : MidiClockStatus :=
  mkMidiClockStatus (mcs_state s) (mcs_source_name s) (mcs_bpm_milli s) x
    (mcs_sent_transport_count s) (mcs_last_event s) (mcs_last_error s).

Definition set_mcs_sent_transport_count (x : Z) (s : MidiClockStatus) : MidiClockStatus :=
  mkMidiClockStatus (mcs_state s) (mcs_source_name s) (mcs_bpm_milli s) (mcs_sent_tick_count s)
    x (mcs_last_event s) (mcs_last_error s).

Definition set_mcs_last_event (x : option str) (s : MidiClockStatus) : MidiClockStatus :=
  mkMidiClockStatus (mcs_state s) (mcs_source_name s) (mcs_bpm_milli s) (mcs_sent_tick_count s)
    (mcs_sent_transport_count s) x (mcs_last_error s).

Definition set_mcs_last_error (x : option str) (s : MidiClockStatus) : MidiClockStatus :=
  mkMidiClockStatus (mcs_state s) (mcs_source_name s) (mcs_bpm_milli s) (mcs_sent_tick_count s)
    (mcs_sent_transport_count s) (mcs_last_event s) x.

Definition MidiClockStatus_default : MidiClockStatus :=
  mkMidiClockStatus ClockStopped MIDI_CLOCK_SOURCE_NAME None 0 0 None None.

Record MidiClockSync := mkMidiClockSync {
  sync_bpm_milli : Z;
  sync_playing : bool;
  sync_song_position_16th : Z;
  sync_delay_to_next_tick : Z;
  sync_rephase : bool;
}.

Inductive MidiClockError : Type :=
| ClockWorkerUnavailable
| ClockProvider (error : str)
| ClockInvalidTempo
| ClockInvalidSongPosition.

Inductive ClockWorkerCommand : Type :=
| ClockPublish
| ClockStop
| ClockSynchronize (sync : MidiClockSync)
| ClockShutdown.

(** The controller and the worker: the locals of the worker loop, the shared status,
    the channel and the last anchor the controller accepted. *)
Record MidiClock (P : Type) := mkMidiClock {
  clk_provider : P;
  clk_published : bool;
  clk_playing : bool;
  clk_tick_interval : Z;
  clk_next_tick : option Z;
  clk_status : MidiClockStatus;
  clk_queue : list ClockWorkerCommand;
  clk_alive : bool;
  clk_last_sync : option MidiClockSync;
}.
Arguments mkMidiClock {P}.
Arguments clk_provider {P}.
Arguments clk_published {P}.
Arguments clk_playing {P}.
Arguments clk_tick_interval {P}.
Arguments clk_next_tick {P}.
Arguments clk_status {P}.
Arguments clk_queue {P}.
Arguments clk_alive {P}.
Arguments clk_last_sync {P}.

Definition set_clk_provider {P} (x : P) (s : MidiClock P) : MidiClock P :=
  mkMidiClock x (clk_published s) (clk_playing s) (clk_tick_interval s) (clk_next_tick s)
    (clk_status s) (clk_queue s) (clk_alive s) (clk_last_sync s).

Definition set_clk_published {P} (x : bool) (s : MidiClock P) : MidiClock P :=
  mkMidiClock (clk_provider s) x (clk_playing s) (clk_tick_interval s) (clk_next_tick s)
    (clk_status s) (clk_queue s) (clk_alive s) (clk_last_sync s).

Definition set_clk_playing {P} (x : bool) (s : MidiClock P) : MidiClock P :=
  mkMidiClock (clk_provider s) (clk_published s) x (clk_tick_interval s) (clk_next_tick s)
    (clk_status s) (clk_queue s) (clk_alive s) (clk_last_sync s).

Definition set_clk_tick_interval {P} (x : Z) (s : MidiClock P) : MidiClock P :=
  mkMidiClock (clk_provider s) (clk_published s) (clk_playing s) x (clk_next_tick s) (clk_status
    s) (clk_queue s) (clk_alive s) (clk_last_sync s).

Definition set_clk_next_tick {P} (x : option Z) (s : MidiClock P) : MidiClock P :=
  mkMidiClock (clk_provider s) (clk_published s) (clk_playing s) (clk_tick_interval s) x
    (clk_status s) (clk_queue s) (clk_alive s) (clk_last_sync s).

Definition set_clk_status {P} (x : MidiClockStatus) (s : MidiClock P) : MidiClock P :=
  mkMidiClock (clk_provider s) (clk_published s) (clk_playing s) (clk_tick_interval s)
    (clk_next_tick s) x (clk_queue s) (clk_alive s) (clk_last_sync s).

Definition set_clk_queue {P} (x : list ClockWorkerCommand) (s : MidiClock P) : MidiClock P :=
  mkMidiClock (clk_provider s) (clk_published s) (clk_playing s) (clk_tick_interval s)
    (clk_next_tick s) (clk_status s) x (clk_alive s) (clk_last_sync s).

Definition set_clk_alive {P} (x : bool) (s : MidiClock P) : MidiClock P :=
  mkMidiClock (clk_provider s) (clk_published s) (clk_playing s) (clk_tick_interval s)
    (clk_next_tick s) (clk_status s) (clk_queue s) x (clk_last_sync s).

Definition set_clk_last_sync {P} (x : option MidiClockSync) (s : MidiClock P) : MidiClock P :=
  mkMidiClock (clk_provider s) (clk_published s) (clk_playing s) (clk_tick_interval s)
    (clk_next_tick s) (clk_status s) (clk_queue s) (clk_alive s) x.

Definition midi_clock_tick_interval (bpm_milli : Z) : Z :=
  Z.max (60000000000000 / (bpm_milli * 24)) 1.

(** [while following <= now { following += tick_interval; }].  The fuel is one more
    than the rounds the loop makes ([following_tick_spec]). *)
Fixpoint catch_up (fuel : nat) (interval following now : Z) : Z :=
  match fuel with
  | O => following
  | S fuel => if following <=? now then catch_up fuel interval (following + interval) now else following
  end.

Definition following_tick (interval start now : Z) : Z :=
  catch_up (S (Z.to_nat (Z.max 0 (now - start) / interval + 1))) interval start now.

(** [{:.3}] of a number of thousandths. *)
Definition show_milli (n : Z) : str :=
  show_u (n / 1000) ++ lit "." ++ show_u (n / 100 mod 10) ++ show_u (n / 10 mod 10)
  ++ show_u (n mod 10).

Section Clock.
Context {P E : Type} `{MidiSourceProvider P E}.
Implicit Types k : MidiClock P.

(** The lock is never poisoned, no holder panics. *)
Definition update_clock_status (f : MidiClockStatus → MidiClockStatus) k : MidiClock P :=
  set_clk_status (f (clk_status k)) k.

Definition increment_transport_count k : MidiClock P :=
  update_clock_status (λ s,
    set_mcs_sent_transport_count (saturating_add_u64 (mcs_sent_transport_count s) 1) s) k.

Definition MidiClock_new (provider : P) : MidiClock P :=
  mkMidiClock provider false false (20 * 1000000) None MidiClockStatus_default [] true None.

(** ** The worker *)

Definition clock_publish k : MidiClock P * result unit str :=
  let '(p, r) :=
    if clk_published k then (clk_provider k, Ok tt)
    else let '(p, r) := midi_publish (clk_provider k) MIDI_CLOCK_SOURCE_NAME in
         (p, map_err error_to_string r) in
  let k := set_clk_provider p k in
  (match r with
   | Ok _ =>
       update_clock_status (λ s,
         set_mcs_last_error None
           (set_mcs_last_event (Some (lit "Lumi Clock published; waiting for Live Local Playback"))
           (set_mcs_state ClockReady s))) (set_clk_published true k)
   | Err error => update_clock_status (set_mcs_last_error (Some error)) k
   end, r).

(** [if published && playing { let _ = provider.send(&[stop]) }; provider.stop()]. *)
Definition silence k : MidiClock P :=
  let k := if clk_published k && clk_playing k
    then set_clk_provider (midi_send (clk_provider k) [midi_stop]).1 k else k in
  set_clk_provider (midi_provider_stop (clk_provider k)) k.

Definition set_transport (playing : bool) (next_tick : option Z) k : MidiClock P :=
  set_clk_next_tick next_tick (set_clk_playing playing k).

Definition clock_stop k : MidiClock P :=
  update_clock_status (λ s,
      set_mcs_last_event (Some (lit "Lumi Clock stopped"))
        (set_mcs_bpm_milli None (set_mcs_state ClockStopped s)))
    (set_transport false None (set_clk_published false (silence k))).

(** [!sync.playing]. *)
Definition clock_pause (sync : MidiClockSync) k : MidiClock P :=
  let k :=
    if clk_playing k then
      let '(p, r) := midi_send (clk_provider k) [midi_stop] in
      let k := set_clk_provider p k in
      match r with Ok _ => increment_transport_count k | Err _ => k end
    else k in
  update_clock_status (λ s,
      set_mcs_last_event (Some (lit "Local Playback clock paused"))
        (set_mcs_bpm_milli (Some (sync_bpm_milli sync)) (set_mcs_state ClockReady s)))
    (set_transport false None k).

(** What a start or a new phase sends; [None] leaves the loop round. *)
Definition transport_messages (sync : MidiClockSync) : option (list MidiMessage) :=
  if sync_song_position_16th sync =? 0 then Some [midi_start]
  else position ← song_position (sync_song_position_16th sync);
       Some [position; midi_continue_playback].

Definition clock_running (sync : MidiClockSync) k : MidiClock P :=
  update_clock_status (λ s,
    set_mcs_last_error None
      (set_mcs_last_event (Some (lit "Clock running at " ++ show_milli (sync_bpm_milli sync)
         ++ lit " BPM" ++ dot ++ lit "song position " ++ show_u (sync_song_position_16th sync)))
      (set_mcs_bpm_milli (Some (sync_bpm_milli sync)) (set_mcs_state ClockRunning s)))) k.

Definition clock_synchronize (now : Z) (sync : MidiClockSync) k : MidiClock P :=
  if negb (clk_published k) then k else
  let k := set_clk_tick_interval (midi_clock_tick_interval (sync_bpm_milli sync)) k in
  if negb (sync_playing sync) then clock_pause sync k else
  if negb (clk_playing k) || sync_rephase sync then
    match transport_messages sync with
    | None => k
    | Some messages =>
        let '(p, r) := midi_send (clk_provider k) messages in
        let k := set_clk_provider p k in
        match r with
        | Err error =>
            set_transport false None
              (update_clock_status (set_mcs_last_error (Some (error_to_string error))) k)
        | Ok _ =>
            clock_running sync
              (set_transport true (Some (now + sync_delay_to_next_tick sync))
                (increment_transport_count k))
        end
    end
  else clock_running sync k.

Definition clock_shutdown k : MidiClock P := set_clk_alive false (silence k).

(** The timeout: one tick; [now] is read after it was sent. *)
Definition clock_tick (now : Z) k : MidiClock P :=
  let '(p, r) := midi_send (clk_provider k) [midi_clock] in
  match r with
  | Err error =>
      set_transport false None
        (update_clock_status (λ s,
            set_mcs_last_error
              (Some (lit "MIDI Clock tick could not be sent: " ++ error_to_string error))
              (set_mcs_last_event (Some (lit "Lumi Clock failed closed"))
              (set_mcs_state ClockStopped s)))
          (set_clk_published false (set_clk_provider (midi_provider_stop p) k)))
  | Ok _ =>
      let k := update_clock_status (λ s,
        set_mcs_sent_tick_count (saturating_add_u64 (mcs_sent_tick_count s) 1) s)
          (set_clk_provider p k) in
      set_clk_next_tick
        (Some (following_tick (clk_tick_interval k)
                 (default now (clk_next_tick k) + clk_tick_interval k) now)) k
  end.

(** The wait has a timeout when this is [Some]. *)
Definition clock_deadline k : option Z :=
  if clk_published k && clk_playing k then clk_next_tick k else None.

(** One command; the reply of a publication. *)
Definition clock_command (now : Z) (command : ClockWorkerCommand) k :
    MidiClock P * option (result unit str) :=
  match command with
  | ClockPublish => let '(k, r) := clock_publish k in (k, Some r)
  | ClockStop => (clock_stop k, Some (Ok tt))
  | ClockSynchronize sync => (clock_synchronize now sync k, None)
  | ClockShutdown => (clock_shutdown k, None)
  end.

Definition clock_receive (now : Z) k : MidiClock P * option (result unit str) :=
  match clk_queue k with
  | [] => (k, None)
  | command :: queue =>
      if clk_alive k then clock_command now command (set_clk_queue queue k) else (k, None)
  end.

(** ** The controller: a call that waits lets the worker finish the queue first *)

Fixpoint clock_drain (now : nat → Z) (n : nat) k : MidiClock P :=
  match n with
  | O => k
  | S n => clock_drain now n (clock_receive (now (S n)) k).1
  end.

Definition clock_call (now : nat → Z) (command : ClockWorkerCommand) k :
    MidiClock P * result unit MidiClockError :=
  let k := clock_drain now (length (clk_queue k)) k in
  if clk_alive k then
    let '(k, reply) := clock_command (now 0%nat) command k in
    (k, match reply with
        | Some r => map_err ClockProvider r
        | None => Err ClockWorkerUnavailable
        end)
  else (k, Err ClockWorkerUnavailable).

Definition MidiClock_publish (now : nat → Z) k : MidiClock P * result unit MidiClockError :=
  let '(k, r) := clock_call now ClockPublish k in
  (match r with Ok _ => set_clk_last_sync None k | Err _ => k end, r).

Definition MidiClock_stop (now : nat → Z) k : MidiClock P * result unit MidiClockError :=
  let '(k, r) := clock_call now ClockStop k in
  (match r with Ok _ => set_clk_last_sync None k | Err _ => k end, r).

Definition is_none_or {A} (o : option A) (f : A → bool) : bool :=
  match o with None => true | Some x => f x end.

Definition force_rephase (sync : MidiClockSync) : MidiClockSync :=
  mkMidiClockSync (sync_bpm_milli sync) (sync_playing sync) (sync_song_position_16th sync)
    (sync_delay_to_next_tick sync) true.

(** The channel of sixteen commands is a blocking one: a full queue delays the caller,
    never loses the anchor. *)
Definition MidiClock_synchronize (sync : MidiClockSync) k : MidiClock P * result unit MidiClockError :=
  if negb ((20000 <=? sync_bpm_milli sync) && (sync_bpm_milli sync <=? 300000))
  then (k, Err ClockInvalidTempo)
  else if 16384 <=? sync_song_position_16th sync then (k, Err ClockInvalidSongPosition)
  else
    let transport_changed := is_none_or (clk_last_sync k) (λ previous,
      negb (Bool.eqb (sync_playing previous) (sync_playing sync))) in
    let tempo_changed := is_none_or (clk_last_sync k) (λ previous,
      negb (sync_bpm_milli previous =? sync_bpm_milli sync)) in
    let sync := if sync_playing sync && transport_changed then force_rephase sync else sync in
    if negb (transport_changed || tempo_changed || sync_rephase sync)
    then (set_clk_last_sync (Some sync) k, Ok tt)
    else if clk_alive k
    then (set_clk_last_sync (Some sync)
            (set_clk_queue (clk_queue k ++ [ClockSynchronize sync]) k), Ok tt)
    else (k, Err ClockWorkerUnavailable).

Definition MidiClock_drop (now : nat → Z) k : MidiClock P := (clock_call now ClockShutdown k).1.

(** ** Runs *)

Inductive ClockInput : Type :=
| ClockInPublish (now : nat → Z)
| ClockInStop (now : nat → Z)
| ClockInSynchronize (sync : MidiClockSync)
| ClockInReceive (now : Z)
| ClockInTimeout (now : Z).

Definition clock_step k (i : ClockInput) : MidiClock P :=
  match i with
  | ClockInPublish now => (MidiClock_publish now k).1
  | ClockInStop now => (MidiClock_stop now k).1
  | ClockInSynchronize sync => (MidiClock_synchronize sync k).1
  | ClockInReceive now => (clock_receive now k).1
  | ClockInTimeout now =>
      if clk_alive k && bool_decide (clk_queue k = []) && bool_decide (is_Some (clock_deadline k))
      then clock_tick now k else k
  end.

Definition clock_run k (inputs : list ClockInput) : MidiClock P := foldl clock_step k inputs.
End Clock.

(** ** The tick grid *)

Lemma catch_up_spec fuel : ∀ interval following now,
  0 < interval → now - following < Z.of_nat fuel * interval →
  let r := catch_up fuel interval following now in
  now < r ∧ following ≤ r ∧ r ≤ Z.max following (now + interval) ∧
  (r - following) mod interval = 0.
Proof.
  induction fuel as [|fuel IH]; intros interval following now Hi Hf; cbn [catch_up].
  { rewrite Z.sub_diag. rewrite Zmod_0_l. lia. }
  destruct (Z.leb_spec following now) as [Hl|Hl]; cbn zeta.
  - destruct (IH interval (following + interval) now Hi) as (H1 & H2 & H3 & H4); [lia|].
    split_and!; [done|lia|lia|].
    replace (catch_up fuel interval (following + interval) now - following)
      with (catch_up fuel interval (following + interval) now - (following + interval)
            + 1 * interval) by lia.
    by rewrite Z_mod_plus_full.
  - rewrite Z.sub_diag, Zmod_0_l. lia.
Qed.

Lemma following_tick_spec interval start now :
  0 < interval →
  let r := following_tick interval start now in
  now < r ∧ start ≤ r ∧ r ≤ Z.max start (now + interval) ∧ (r - start) mod interval = 0.
Proof.
  intros Hi. apply catch_up_spec; [done|].
  pose proof (Z.div_mod (Z.max 0 (now - start)) interval ltac:(lia)).
  pose proof (Z.mod_pos_bound (Z.max 0 (now - start)) interval Hi).
  pose proof (Z.div_pos (Z.max 0 (now - start)) interval ltac:(lia) Hi). nia.
Qed.

(** The tick interval.  For every tempo [synchronize] accepts the interval lies
    between 8.333 and 125 milliseconds, twenty-four intervals make a beat with an
    error below one nanosecond per tick, and the division does not overflow 64
    bits. *)
Theorem tick_interval_bounds bpm_milli :
  20000 ≤ bpm_milli ≤ 300000 →
  let t := midi_clock_tick_interval bpm_milli in
  8333333 ≤ t ≤ 125000000 ∧ in_u64 (bpm_milli * 24) ∧
  t * (24 * bpm_milli) ≤ 60000000000000 < (t + 1) * (24 * bpm_milli).
Proof.
  intros Hb. unfold midi_clock_tick_interval, in_u64, U64_MAX. cbn zeta.
  assert (H1 : 8333333 ≤ 60000000000000 / (bpm_milli * 24)) by (apply Z.div_le_lower_bound; lia).
  assert (H2 : 60000000000000 / (bpm_milli * 24) ≤ 125000000) by (apply Z.div_le_upper_bound; lia).
  rewrite Z.max_l by lia.
  pose proof (Z.div_mod 60000000000000 (bpm_milli * 24) ltac:(lia)).
  pose proof (Z.mod_pos_bound 60000000000000 (bpm_milli * 24) ltac:(lia)).
  split_and!; try lia; nia.
Qed.

Lemma tick_interval_bounds_witness :
  midi_clock_tick_interval 128000 = 19531250 ∧ 8333333 ≤ midi_clock_tick_interval 128000.
Proof.
  split; [reflexivity|]. exact (proj1 (proj1 (tick_interval_bounds 128000 ltac:(lia)))).
Defined.

Lemma tick_interval_pos bpm_milli : 0 < midi_clock_tick_interval bpm_milli.
Proof. unfold midi_clock_tick_interval. lia. Qed.

(** ** The transport protocol *)

(** What a receiver of the clock sees: ticks only while running, that is after Start
    or Continue and before Stop; a failed tick closes the source. *)
Inductive Transport : Type := TrClosed | TrReady | TrRunning | TrFailing.

Inductive TransportMessage : Type := TmTick | TmStop | TmGo.

Definition classify (messages : list MidiMessage) : option TransportMessage :=
  match messages with
  | [m] =>
      if bool_decide (m = midi_clock) then Some TmTick
      else if bool_decide (m = midi_stop) then Some TmStop
      else if bool_decide (m = midi_start) then Some TmGo else None
  | [m1; m2] =>
      if bool_decide ((mm_bytes m1).1.1 = 0xf2) && message_valid m1
         && bool_decide (m2 = midi_continue_playback)
      then Some TmGo else None
  | _ => None
  end.

Definition transport_step (s : Transport) (call : ProviderCall) : option Transport :=
  match s, call with
  | TrFailing, CallStop => Some TrClosed
  | TrFailing, _ => None
  | _, CallStop => Some TrClosed
  | TrClosed, CallPublish ok => Some (if ok then TrReady else TrClosed)
  | TrReady, CallSend ms ok =>
      match classify ms with Some TmGo => Some (if ok then TrRunning else TrReady) | _ => None end
  | TrRunning, CallSend ms ok =>
      match classify ms with
      | Some TmTick => Some (if ok then TrRunning else TrFailing)
      | Some TmGo => Some (if ok then TrRunning else TrReady)
      | Some TmStop => Some TrReady
      | None => None
      end
  | _, _ => None
  end.

Fixpoint transport_run (s : Transport) (calls : list ProviderCall) : option Transport :=
  match calls with
  | [] => Some s
  | call :: calls => s' ← transport_step s call; transport_run s' calls
  end.

Lemma transport_run_snoc s s' l call :
  transport_run s l = Some s' → transport_run s (l ++ [call]) = transport_step s' call.
Proof.
  revert s. induction l as [|c l IH]; intros s; simpl.
  - intros [= ->]. by destruct (transport_step s' call).
  - destruct (transport_step s c); simpl; [apply IH|done].
Qed.

Definition sync_wf (sync : MidiClockSync) : Prop := in_u16 (sync_song_position_16th sync).

Definition clock_command_wf (command : ClockWorkerCommand) : Prop :=
  match command with
  | ClockSynchronize sync => sync_wf sync
  | ClockShutdown => False
  | _ => True
  end.

Definition clock_input_wf (i : ClockInput) : Prop :=
  match i with ClockInSynchronize sync => sync_wf sync | _ => True end.

Lemma transport_messages_go sync ms :
  sync_wf sync → transport_messages sync = Some ms → classify ms = Some TmGo.
Proof.
  intros Hw. unfold transport_messages. case_match.
  { intros [= <-]. reflexivity. }
  destruct (song_position (sync_song_position_16th sync)) as [m|] eqn:Hm; [|done].
  simpl. intros [= <-].
  assert (Hv : message_valid m = true ∧ (mm_bytes m).1.1 = 0xf2).
  { split; [by apply (song_position_valid (sync_song_position_16th sync))|].
    unfold song_position in Hm. case_match; [|done]. by injection Hm as <-. }
  unfold classify. destruct Hv as [-> ->]. reflexivity.
Qed.

Section Transport.
Context {P E : Type} `{MidiSourceProvider P E}.
Implicit Types k : MidiClock (Traced P).

Definition clock_calls k : list ProviderCall := tr_calls (clk_provider k).

Definition transport_of k : Transport :=
  if clk_published k then if clk_playing k then TrRunning else TrReady else TrClosed.

Record clock_inv k : Prop := {
  ki_transport : transport_run TrClosed (clock_calls k) = Some (transport_of k);
  ki_playing : clk_playing k = true → clk_published k = true;
  ki_tick : is_Some (clk_next_tick k) ↔ clk_playing k = true;
  ki_interval : 0 < clk_tick_interval k;
  ki_running : mcs_state (clk_status k) = ClockStopped ↔ clk_published k = false;
  ki_queue : Forall clock_command_wf (clk_queue k);
}.

Lemma clock_new_inv (p : P) : clock_inv (MidiClock_new (mkTraced p [])).
Proof. split; try done. by split; [intros [? [=]]|]. Qed.

Lemma clock_publish_inv k : clock_inv k → clock_inv (clock_publish k).1.
Proof.
  intros [H1 H2 H3 H4 H5 H6]. unfold clock_publish. destruct (clk_published k) eqn:Hp.
  - unfold transport_of in H1. rewrite Hp in H1. by split.
  - cbn -[lit MIDI_CLOCK_SOURCE_NAME].
    assert (clk_playing k = false) as Hn by (destruct (clk_playing k); [by pose proof (H2 eq_refl)|done]).
    unfold transport_of in H1. rewrite Hp in H1.
    destruct (midi_publish (tr_inner (clk_provider k)) MIDI_CLOCK_SOURCE_NAME) as [p [[]|e]];
      (split; unfold transport_of, clock_calls in *; cbn -[lit] in *; rewrite ?Hp, ?Hn in *; try done;
       rewrite (transport_run_snoc _ _ _ _ H1); done).
Qed.

(** Sending the stop message and stopping leads to a closed provider. *)
Lemma silence_spec k :
  clock_inv k →
  transport_run TrClosed (clock_calls (silence k)) = Some TrClosed ∧
  clk_queue (silence k) = clk_queue k ∧ clk_tick_interval (silence k) = clk_tick_interval k ∧
  clk_published (silence k) = clk_published k ∧ clk_playing (silence k) = clk_playing k ∧
  clk_next_tick (silence k) = clk_next_tick k ∧ clk_status (silence k) = clk_status k.
Proof.
  intros [H1 H2 H3 H4 H5 H6]. unfold silence, transport_of in *.
  destruct (clk_published k) eqn:Hp, (clk_playing k) eqn:Hl; cbn [andb];
    try (split_and!; [|done..]; exact (transport_run_snoc _ _ _ CallStop H1)).
  unfold clock_calls in *. cbn -[midi_stop].
  destruct (midi_send (tr_inner (clk_provider k)) [midi_stop]) as [p r]. cbn -[midi_stop].
  split_and!; [|done..].
  apply (transport_run_snoc _ TrReady _ CallStop). by rewrite (transport_run_snoc _ _ _ _ H1).
Qed.

Lemma clock_stop_inv k : clock_inv k → clock_inv (clock_stop k).
Proof.
  intros Hk. pose proof (silence_spec k Hk) as (H1 & H2 & H3 & H4 & H5 & H6 & H7).
  destruct Hk as [_ _ _ K4 _ K6]. split; cbn -[lit silence] in *; try done.
  - by rewrite H3.
  - by rewrite H2.
Qed.

Lemma clock_pause_inv sync k : clk_published k = true → clock_inv k → clock_inv (clock_pause sync k).
Proof.
  intros Hp [H1 H2 H3 H4 H5 H6]. unfold clock_pause. unfold transport_of in H1. rewrite Hp in H1.
  destruct (clk_playing k) eqn:Hl.
  - cbn -[midi_stop lit]. destruct (midi_send (tr_inner (clk_provider k)) [midi_stop]) as [p r].
    assert (transport_run TrClosed (clock_calls k ++ [CallSend [midi_stop] (result_flag r)]) = Some TrReady)
      as Ht by (by rewrite (transport_run_snoc _ _ _ _ H1)).
    destruct r as [[]|e]; (split; unfold transport_of; cbn -[midi_stop lit] in *; rewrite ?Hp in *;
      done).
  - split; unfold transport_of; cbn -[lit] in *; rewrite ?Hp in *; try done.
Qed.

Lemma clock_synchronize_inv now sync k :
  sync_wf sync → clock_inv k → clock_inv (clock_synchronize now sync k).
Proof.
  intros Hw Hk. unfold clock_synchronize. destruct (clk_published k) eqn:Hp; cbn [negb]; [|done].
  set (k1 := set_clk_tick_interval _ k).
  assert (Hk1 : clock_inv k1).
  { destruct Hk. split; try done. apply tick_interval_pos. }
  assert (Hp1 : clk_published k1 = true) by done. clearbody k1. clear Hk Hp k.
  destruct (sync_playing sync); cbn [negb]; [|by apply clock_pause_inv].
  assert (Hr : ∀ k, clk_playing k = true → clk_published k = true → clock_inv k →
    clock_inv (clock_running sync k)).
  { intros k Hl Hp [? ? ? ? ? ?]. split; try done. cbn -[lit show_milli show_u]. by rewrite Hp. }
  destruct (negb (clk_playing k1) || sync_rephase sync) eqn:Hgo.
  2:{ apply Hr; [|done..]. by destruct (clk_playing k1). }
  destruct (transport_messages sync) as [ms|] eqn:Hms; [|done].
  apply transport_messages_go in Hms; [|done]. destruct Hk1 as [H1 H2 H3 H4 H5 H6].
  cbn -[lit show_milli show_u]. destruct (midi_send (tr_inner (clk_provider k1)) ms) as [p r].
  assert (transport_run TrClosed (clock_calls k1 ++ [CallSend ms (result_flag r)]) =
    Some (if result_flag r then TrRunning else TrReady)) as Ht.
  { rewrite (transport_run_snoc _ _ _ _ H1). unfold transport_of. rewrite Hp1.
    destruct (clk_playing k1); cbn [transport_step]; by rewrite Hms. }
  destruct r as [[]|e].
  - apply Hr; [done..|]. split; unfold transport_of; cbn in *; rewrite ?Hp1 in *; try done.
  - split; unfold transport_of; cbn in *; rewrite ?Hp1 in *; try done.
Qed.

Lemma clock_tick_inv now k :
  is_Some (clock_deadline k) → clock_inv k → clock_inv (clock_tick now k).
Proof.
  intros Hd [H1 H2 H3 H4 H5 H6]. unfold clock_deadline in Hd. unfold clock_tick.
  unfold transport_of in H1.
  destruct (clk_published k) eqn:Hp; [|by destruct Hd].
  destruct (clk_playing k) eqn:Hl; [|by destruct Hd].
  cbn -[midi_clock lit]. destruct (midi_send (tr_inner (clk_provider k)) [midi_clock]) as [p r].
  assert (Ht : transport_run TrClosed (clock_calls k ++ [CallSend [midi_clock] (result_flag r)]) =
    Some (if result_flag r then TrRunning else TrFailing)).
  { by rewrite (transport_run_snoc _ _ _ _ H1). }
  destruct r as [[]|e].
  - split; unfold transport_of; cbn -[midi_clock following_tick] in *; rewrite ?Hp, ?Hl in *; done.
  - split; unfold transport_of; cbn -[midi_clock lit] in *; try done.
    + exact (transport_run_snoc _ _ _ CallStop Ht).
Qed.

Lemma clock_command_inv now command k :
  clock_command_wf command → clock_inv k → clock_inv (clock_command now command k).1.
Proof.
  intros Hw Hk. destruct command; simpl in *.
  - pose proof (clock_publish_inv k Hk). by destruct (clock_publish k).
  - by apply clock_stop_inv.
  - by apply clock_synchronize_inv.
  - done.
Qed.

Lemma clock_receive_inv now k : clock_inv k → clock_inv (clock_receive now k).1.
Proof.
  intros Hk. unfold clock_receive. destruct (clk_queue k) as [|command q] eqn:Hq; [done|].
  destruct (clk_alive k); [|done]. pose proof (ki_queue k Hk) as Hw. rewrite Hq in Hw.
  apply Forall_cons in Hw as [Hc Hr]. apply clock_command_inv; [done|]. by destruct Hk; split.
Qed.

Lemma clock_call_inv now command k :
  clock_command_wf command → clock_inv k → clock_inv (clock_call now command k).1.
Proof.
  intros Hw Hk. unfold clock_call. generalize (length (clk_queue k)) as n. intros n.
  revert k Hk. induction n as [|n IH]; intros k Hk; simpl.
  - destruct (clk_alive k); [|done]. pose proof (clock_command_inv (now 0%nat) command k Hw Hk).
    by destruct (clock_command _ _ _).
  - apply (IH (clock_receive (now (S n)) k).1). by apply clock_receive_inv.
Qed.

Lemma set_last_sync_inv x k : clock_inv k → clock_inv (set_clk_last_sync x k).
Proof. by destruct 1; split. Qed.

Lemma clock_step_inv k i : clock_input_wf i → clock_inv k → clock_inv (clock_step k i).
Proof.
  intros Hw Hk. destruct i as [now|now|sync|now|now]; cbn [clock_step].
  - unfold MidiClock_publish. pose proof (clock_call_inv now ClockPublish k I Hk).
    destruct (clock_call now ClockPublish k) as [k' [r|e]]; [by apply set_last_sync_inv|done].
  - unfold MidiClock_stop. pose proof (clock_call_inv now ClockStop k I Hk).
    destruct (clock_call now ClockStop k) as [k' [r|e]]; [by apply set_last_sync_inv|done].
  - unfold MidiClock_synchronize. destruct (negb (_ && _)); [done|]. destruct (16384 <=? _); [done|].
    assert (Hs : ∀ b : bool, sync_wf (if b then force_rephase sync else sync)) by (by intros []).
    cbv zeta.
    destruct (negb _); [by apply set_last_sync_inv|]. destruct (clk_alive k); [|done].
    apply set_last_sync_inv. destruct Hk as [H1 H2 H3 H4 H5 H6]. split; try done. simpl.
    apply Forall_app. split; [done|]. constructor; [apply Hs|constructor].
  - by apply clock_receive_inv.
  - destruct (_ && bool_decide (clk_queue k = [])); cbn [andb]; [|done].
    case_bool_decide; [by apply clock_tick_inv|done].
Qed.

Lemma clock_run_inv inputs : ∀ k,
  Forall clock_input_wf inputs → clock_inv k → clock_inv (clock_run k inputs).
Proof.
  induction inputs as [|i inputs IH]; intros k Hw Hk; simpl; [done|].
  apply Forall_cons in Hw as [? ?]. apply IH; [done|]. by apply clock_step_inv.
Qed.

(** Clock transport safety.  For every provider, failing at any call, and every
    interleaving of controller calls, received commands and timeouts: clock ticks
    reach the provider only between a Start or Continue and the next Stop on a
    published source, positions are valid Song Position messages, a failed tick stops
    the source at once, and the worker believes it is published and playing exactly
    when the calls say so. *)
Theorem clock_transport (p : P) inputs :
  Forall clock_input_wf inputs →
  let k := clock_run (MidiClock_new (mkTraced p [])) inputs in
  transport_run TrClosed (clock_calls k) = Some (transport_of k) ∧
  (is_Some (clk_next_tick k) ↔ clk_playing k = true) ∧
  (clk_playing k = true → clk_published k = true) ∧
  (mcs_state (clk_status k) = ClockStopped ↔ clk_published k = false).
Proof.
  intros Hw k. by destruct (clock_run_inv inputs _ Hw (clock_new_inv p)).
Qed.

(** The clock does not drift.  When a tick was sent, the worker waits for a later
    instant, on the grid of the tick that was due, at most one interval after the
    present (or after the tick that was due, if that is still ahead): ticks missed
    are skipped, never bunched, and the loop that skips them terminates. *)
Theorem clock_tick_grid inputs (p : P) now due :
  Forall clock_input_wf inputs →
  let k := clock_run (MidiClock_new (mkTraced p [])) inputs in
  let k' := clock_tick now k in
  clock_deadline k = Some due →
  (∃ r, clk_next_tick k' = Some r ∧ clk_playing k' = true ∧ now < r ∧ due < r ∧
     (r - due) mod clk_tick_interval k = 0 ∧ r ≤ Z.max due now + clk_tick_interval k) ∨
  (clk_next_tick k' = None ∧ clk_playing k' = false ∧ clk_published k' = false).
Proof.
  intros Hw k k' Hd. pose proof (clock_run_inv inputs _ Hw (clock_new_inv p)) as Hk.
  fold k in Hk. pose proof (ki_interval k Hk) as Hi.
  unfold clock_deadline in Hd. destruct (clk_published k) eqn:Hp; [|done].
  destruct (clk_playing k) eqn:Hl; [|done]. cbn [andb] in Hd. unfold k', clock_tick. cbn -[midi_clock lit following_tick].
  destruct (midi_send (tr_inner (clk_provider k)) [midi_clock]) as [p' [[]|e]].
  - left. eexists. cbn -[following_tick lit midi_clock]. rewrite Hl. split_and!; [done|done|..];
      rewrite Hd; cbn [from_option id];
      destruct (following_tick_spec (clk_tick_interval k) (due + clk_tick_interval k) now Hi)
        as (H1 & H2 & H3 & H4); try lia.
    etrans; [|exact H4]. rewrite <- (Z_mod_plus_full (_ - (due + _)) 1). f_equal. lia.
  - by right.
Qed.
End Transport.

(** A transport message that fails is not retried.  When the provider refuses
    Start or Continue, the worker stops playing but leaves the reported state as it
    was, Running if the clock ran before; and as long as the following anchors keep
    tempo and transport and ask for no new phase, the controller accepts them without
    telling the worker, so the clock stays silent. *)
Theorem failed_transport_not_retried {P E} `{MidiSourceProvider P E} (k : MidiClock P)
    now sync messages p e next :
  clk_published k = true → clk_last_sync k = Some sync →
  sync_playing sync = true → sync_rephase sync = true →
  transport_messages sync = Some messages →
  midi_send (clk_provider k) messages = (p, Err e) →
  20000 ≤ sync_bpm_milli next ≤ 300000 → sync_song_position_16th next < 16384 →
  sync_bpm_milli next = sync_bpm_milli sync → sync_playing next = true →
  sync_rephase next = false →
  let k' := clock_synchronize now sync k in
  clk_playing k' = false ∧ clock_deadline k' = None ∧
  mcs_state (clk_status k') = mcs_state (clk_status k) ∧
  MidiClock_synchronize next k' = (set_clk_last_sync (Some next) k', Ok tt).
Proof.
  intros Hp Hl Hs Hr Hm Hsend Hb Hq Eb Ep Er k'.
  assert (Ek : k' = set_transport false None
    (update_clock_status (set_mcs_last_error (Some (error_to_string e)))
       (set_clk_provider p
         (set_clk_tick_interval (midi_clock_tick_interval (sync_bpm_milli sync)) k)))).
  { unfold k', clock_synchronize. rewrite Hp, Hs, Hr, orb_true_r, Hm. cbn [negb].
    cbn -[midi_clock_tick_interval]. by rewrite Hsend. }
  clearbody k'. subst k'. split_and!; try done.
  { unfold clock_deadline. simpl. by rewrite Hp. }
  unfold MidiClock_synchronize.
  rewrite (proj2 (Z.leb_le 20000 _)), (proj2 (Z.leb_le _ 300000)) by lia.
  rewrite (proj2 (Z.leb_gt 16384 _)) by lia. cbn [negb andb]. cbv zeta.
  change (clk_last_sync (set_transport _ _ _)) with (clk_last_sync k). rewrite Hl.
  cbn [is_none_or]. rewrite Eb, Ep, Hs, Z.eqb_refl. cbn [negb Bool.eqb andb orb].
  by rewrite Er.
Qed.

(** ** A concrete run *)

Definition demo_sync (position : Z) (rephase : bool) : MidiClockSync :=
  mkMidiClockSync 120000 true position 1000 rephase.

Definition demo_clock_inputs : list ClockInput :=
  [ClockInPublish (λ _, 0); ClockInSynchronize (demo_sync 0 false); ClockInReceive 10;
   ClockInTimeout 1020; ClockInTimeout 90000000].

Definition demo_clock (script : list bool) (inputs : list ClockInput) :
    MidiClock (Traced (list bool)) :=
  clock_run (MidiClock_new (mkTraced script [])) inputs.

Lemma clock_transport_witness :
  transport_run TrClosed (clock_calls (demo_clock [true; true; true; true] demo_clock_inputs)) =
    Some TrRunning ∧
  length (clock_calls (demo_clock [true; true; true; true] demo_clock_inputs)) = 4%nat.
Proof.
  split; [|vm_compute; reflexivity].
  refine (eq_trans (proj1 (clock_transport [true; true; true; true] demo_clock_inputs _)) _).
  - repeat constructor; vm_compute; discriminate.
  - vm_compute. reflexivity.
Defined.

Lemma clock_tick_grid_witness :
  clk_next_tick (demo_clock [true; true; true; true] demo_clock_inputs) = Some 104167675 ∧
  ∃ r, clk_next_tick (clock_tick 90000000 (demo_clock [true; true; true; true] (take 4 demo_clock_inputs)))
    = Some r ∧ 90000000 < r.
Proof.
  split; [vm_compute; reflexivity|].
  destruct (clock_tick_grid (take 4 demo_clock_inputs) [true; true; true; true] 90000000 20834343)
    as [(r & Hr & _ & Hn & _)|(Hn & _)].
  - repeat constructor; vm_compute; discriminate.
  - vm_compute. reflexivity.
  - exists r. split; [exact Hr|exact Hn].
  - exfalso. vm_compute in Hn. discriminate Hn.
Defined.

(** Started, then asked for a new phase that the provider refuses. *)
Definition demo_refused : MidiClock (Traced (list bool)) :=
  demo_clock [true; false; true]
    [ClockInPublish (λ _, 0); ClockInSynchronize (demo_sync 0 false); ClockInReceive 10;
     ClockInSynchronize (demo_sync 4 true)].

Lemma failed_transport_not_retried_witness :
  mcs_state (clk_status (clock_receive 20 demo_refused).1) = ClockRunning ∧
  clk_playing (clock_synchronize 20 (demo_sync 4 true) (set_clk_queue [] demo_refused)) = false.
Proof.
  split; [vm_compute; reflexivity|].
  refine (proj1 (failed_transport_not_retried (set_clk_queue [] demo_refused) 20 (demo_sync 4 true)
    [mkMidiMessage (0xf2, 4, 0) 3; midi_continue_playback]
    (midi_send (clk_provider demo_refused) [mkMidiMessage (0xf2, 4, 0) 3; midi_continue_playback]).1
    (lit "refused") (demo_sync 8 false) _ _ _ _ _ _ _ _ _ _ _));
    try (vm_compute; reflexivity); vm_compute; split; discriminate.
Defined.
