(* ===== verification/LibrarySource.v ===== *)
(** * What a library source provides

    Models [lumi-library/src/baseline.rs], [mirror.rs] and the records and queries of
    [repository.rs]: analysed tracks with their beat grids, raw phrases and hot cues,
    playlists, imported baselines and the metadata mirror, with every validation
    error. *)

From stdpp Require Import prelude list gmap strings.
From Stdlib Require Import ZArith Lia.
From Stdlib Require Import Sorting.Sorted.
From S2P Require Import Prelude.
From S2P Require Import Track.
From S2P Require Import PhraseTimeline.
Open Scope Z_scope.

Notation LibrarySourceId := str (only parsing).
Notation SourcePlaylistId := str (only parsing).
Notation SourceTrackId := str (only parsing).
Notation PlaylistId := Z (only parsing).

(** ** Beat grids *)

Record BeatMarker := mkBeatMarker {
  bm_beat_index : Z;
  bm_time_millis : Z;
  bm_bar_index : Z;
  bm_beat_in_bar : Z;
}.

#[global] Instance BeatMarker_eq_dec : EqDecision BeatMarker.
Proof. solve_decision. Defined.

Record BeatGrid := mkBeatGrid {
  bg_beats_per_bar : Z;
  bg_markers : list BeatMarker;
}.

#[global] Instance BeatGrid_eq_dec : EqDecision BeatGrid.
Proof. solve_decision. Defined.

Inductive BeatGridValidationError : Type :=
| BGInvalidBeatsPerBar (value : Z)
| BGEmpty
| BGIncompleteBar
| BGTooManyMarkers
| BGInvalidMarkerOrder
| BGNonIncreasingTime.

(** The loop of [try_new] from a marker's position and the previous time. *)
Fixpoint validate_markers (beats_per_bar index : Z) (previous_time : option Z)
    (markers : list BeatMarker) : result unit BeatGridValidationError :=
  match markers with
  | [] => Ok tt
  | marker :: rest =>
      if U32_MAX <? index then Err BGTooManyMarkers
      else
        let expected_bar := index / beats_per_bar + 1 in
        let expected_beat := index mod beats_per_bar + 1 in
        if U8_MAX <? expected_beat then Err BGTooManyMarkers
        else if negb (bm_beat_index marker =? index) || negb (bm_bar_index marker =? expected_bar)
                || negb (bm_beat_in_bar marker =? expected_beat)
        then Err BGInvalidMarkerOrder
        else if match previous_time with Some time => bm_time_millis marker <=? time | None => false end
        then Err BGNonIncreasingTime
        else validate_markers beats_per_bar (index + 1) (Some (bm_time_millis marker)) rest
  end.

Definition BeatGrid_try_new (beats_per_bar : Z) (markers : list BeatMarker) :
    result BeatGrid BeatGridValidationError :=
  if negb ((1 <=? beats_per_bar) && (beats_per_bar <=? 16))
  then Err (BGInvalidBeatsPerBar beats_per_bar)
  else if bool_decide (markers = []) then Err BGEmpty
  else if negb (Z.of_nat (length markers) mod beats_per_bar =? 0) then Err BGIncompleteBar
  else
    let? _ := validate_markers beats_per_bar 0 None markers in
    Ok (mkBeatGrid beats_per_bar markers).

(** [u32::try_from(n).unwrap_or(u32::MAX)]. *)
Definition u32_or_max (n : Z) : Z := if n <=? U32_MAX then n else U32_MAX.

Definition total_bars (g : BeatGrid) : Z :=
  u32_or_max (Z.of_nat (length (bg_markers g)) / bg_beats_per_bar g).

Definition grid_total_beats (g : BeatGrid) : Z := u32_or_max (Z.of_nat (length (bg_markers g))).

(** ** Tracks *)

Record WaveformPoint := mkWaveformPoint { wp_low : Z; wp_mid : Z; wp_high : Z }.

#[global] Instance WaveformPoint_eq_dec : EqDecision WaveformPoint.
Proof. solve_decision. Defined.

Inductive LibraryTrackError : Type :=
| LTEmptyTitle
| LTEmptyArtist
| LTBpmOutOfRange (value : Z)
| LTEmptyDuration
| LTEmptyAudioUri
| LTEmptyWaveform
| LTTooManyBeats
| LTEmptyRawPhraseLabel
| LTInvalidRawPhraseRange
| LTInvalidHotCueIndex (value : Z)
| LTHotCueNameTooLong
| LTInvalidHotCueLoop
| LTInvalidHotCueColor
| LTDuplicateHotCueIndex
| LTHotCueOutsideTrack.

Record HotCue := mkHotCue {
  hc_index : Z;
  hc_time_millis : Z;
  hc_loop_end_millis : option Z;
  hc_name : str;
  hc_color_rgb : Z;
}.

#[global] Instance HotCue_eq_dec : EqDecision HotCue.
Proof. solve_decision. Defined.

Definition is_some_and {A} (o : option A) (f : A → bool) : bool :=
  match o with Some x => f x | None => false end.

Definition HotCue_try_new (index time_millis : Z) (loop_end_millis : option Z) (name : str)
    (color_rgb : Z) : result HotCue LibraryTrackError :=
  if negb ((1 <=? index) && (index <=? 26)) then Err (LTInvalidHotCueIndex index)
  else if 512 <? Z.of_nat (length name) then Err LTHotCueNameTooLong
  else if is_some_and loop_end_millis (λ e, e <=? time_millis) then Err LTInvalidHotCueLoop
  else if 0xffffff <? color_rgb then Err LTInvalidHotCueColor
  else Ok (mkHotCue index time_millis loop_end_millis name color_rgb).

Record RawPhraseObservation := mkRawPhraseObservation {
  rpo_start_beat : Z;
  rpo_end_beat : Z;
  rpo_source_label : str;
}.

#[global] Instance RawPhraseObservation_eq_dec : EqDecision RawPhraseObservation.
Proof. solve_decision. Defined.

Definition RawPhraseObservation_try_new (start_beat end_beat : Z) (source_label : str) :
    result RawPhraseObservation LibraryTrackError :=
  if str_is_blank source_label then Err LTEmptyRawPhraseLabel
  else if end_beat <=? start_beat then Err LTInvalidRawPhraseRange
  else Ok (mkRawPhraseObservation start_beat end_beat source_label).

Record ImportedTrackAnalysis := mkImportedTrackAnalysis {
  ita_source_track_id : SourceTrackId;
  ita_analysis_revision : SourceRevision;
  ita_title : str;
  ita_artist : str;
  ita_bpm_milli : Z;
  ita_musical_key : MusicalKey;
  ita_duration_millis : Z;
  ita_color : option TrackColor;
  ita_audio_uri : str;
  ita_beat_grid : BeatGrid;
  ita_waveform : list WaveformPoint;
  ita_raw_phrases : list RawPhraseObservation;
  ita_hot_cues : list HotCue;
}.

Definition ImportedTrackAnalysis_try_new (source_track_id : SourceTrackId)
    (analysis_revision : SourceRevision) (title artist : str) (bpm_milli : Z)
    (musical_key : MusicalKey) (duration_millis : Z) (color : option TrackColor) (audio_uri : str)
    (beat_grid : BeatGrid) (waveform : list WaveformPoint)
    (raw_phrases : list RawPhraseObservation) : result ImportedTrackAnalysis LibraryTrackError :=
  if str_is_blank title then Err LTEmptyTitle
  else if str_is_blank artist then Err LTEmptyArtist
  else if negb ((20000 <=? bpm_milli) && (bpm_milli <=? 300000)) then Err (LTBpmOutOfRange bpm_milli)
  else if duration_millis =? 0 then Err LTEmptyDuration
  else if str_is_blank audio_uri then Err LTEmptyAudioUri
  else if bool_decide (waveform = []) then Err LTEmptyWaveform
  else
    let total_beats := Z.of_nat (length (bg_markers beat_grid)) in
    if U32_MAX <? total_beats then Err LTTooManyBeats
    else if existsb (λ p, (total_beats <=? rpo_start_beat p) || (total_beats <? rpo_end_beat p))
              raw_phrases
    then Err LTInvalidRawPhraseRange
    else Ok (mkImportedTrackAnalysis source_track_id analysis_revision title artist bpm_milli
               musical_key duration_millis color audio_uri beat_grid waveform raw_phrases []).

(** [windows(2).any(|pair| pair[0].index() == pair[1].index())]. *)
Fixpoint adjacent_duplicate (cues : list HotCue) : bool :=
  match cues with
  | first :: ((second :: _) as rest) => (hc_index first =? hc_index second) || adjacent_duplicate rest
  | _ => false
  end.

Definition outside_track (duration : Z) (cue : HotCue) : bool :=
  (duration <=? hc_time_millis cue) || is_some_and (hc_loop_end_millis cue) (λ e, duration <? e).

Definition with_hot_cues (t : ImportedTrackAnalysis) (hot_cues : list HotCue) :
    result ImportedTrackAnalysis LibraryTrackError :=
  let hot_cues := sort_by_key hc_index hot_cues in
  if adjacent_duplicate hot_cues then Err LTDuplicateHotCueIndex
  else if existsb (outside_track (ita_duration_millis t)) hot_cues then Err LTHotCueOutsideTrack
  else Ok (mkImportedTrackAnalysis (ita_source_track_id t) (ita_analysis_revision t) (ita_title t)
             (ita_artist t) (ita_bpm_milli t) (ita_musical_key t) (ita_duration_millis t)
             (ita_color t) (ita_audio_uri t) (ita_beat_grid t) (ita_waveform t)
             (ita_raw_phrases t) hot_cues).

(** ** Baselines *)

Inductive LibraryBaselineValidationError : Type :=
| LBEmptySourceKind | LBEmptyDisplayName | LBEmptyTracks | LBDuplicateTrackIdentity
| LBEmptyPlaylistName | LBDuplicatePlaylistIdentity | LBDuplicatePlaylistTrack
| LBUnknownPlaylistTrack.

Record ImportedPlaylist := mkImportedPlaylist {
  ip_source_playlist_id : SourcePlaylistId;
  ip_name : str;
  ip_track_ids : list SourceTrackId;
}.

(** [iter().collect::<BTreeSet<_>>().len() != len]. *)
Definition has_duplicates (l : list str) : bool :=
  negb (bool_decide (size (list_to_set l : gset str) = length l)).

Definition ImportedPlaylist_try_new (source_playlist_id : SourcePlaylistId) (name : str)
    (track_ids : list SourceTrackId) : result ImportedPlaylist LibraryBaselineValidationError :=
  if str_is_blank name then Err LBEmptyPlaylistName
  else if has_duplicates track_ids then Err LBDuplicatePlaylistTrack
  else Ok (mkImportedPlaylist source_playlist_id name track_ids).

Record ImportedLibraryBaseline := mkImportedLibraryBaseline {
  ilb_source_id : LibrarySourceId;
  ilb_source_kind : str;
  ilb_display_name : str;
  ilb_source_revision : SourceRevision;
  ilb_tracks : list ImportedTrackAnalysis;
  ilb_playlists : list ImportedPlaylist;
}.

(** The loop over the tracks, with the identities seen. *)
Fixpoint collect_track_ids (ids : gset str) (tracks : list ImportedTrackAnalysis) :
    result (gset str) LibraryBaselineValidationError :=
  match tracks with
  | [] => Ok ids
  | track :: rest =>
      if bool_decide (ita_source_track_id track ∈ ids) then Err LBDuplicateTrackIdentity
      else collect_track_ids ({[ita_source_track_id track]} ∪ ids) rest
  end.

Definition unknown_track (ids : gset str) (track_id : str) : bool :=
  negb (bool_decide (track_id ∈ ids)).

Fixpoint validate_playlists (ids playlist_ids : gset str) (playlists : list ImportedPlaylist) :
    result unit LibraryBaselineValidationError :=
  match playlists with
  | [] => Ok tt
  | playlist :: rest =>
      if bool_decide (ip_source_playlist_id playlist ∈ playlist_ids)
      then Err LBDuplicatePlaylistIdentity
      else if existsb (unknown_track ids) (ip_track_ids playlist) then Err LBUnknownPlaylistTrack
      else validate_playlists ids ({[ip_source_playlist_id playlist]} ∪ playlist_ids) rest
  end.

Definition ImportedLibraryBaseline_try_new (source_id : LibrarySourceId)
    (source_kind display_name : str) (source_revision : SourceRevision)
    (tracks : list ImportedTrackAnalysis) (playlists : list ImportedPlaylist) :
    result ImportedLibraryBaseline LibraryBaselineValidationError :=
  if str_is_blank source_kind then Err LBEmptySourceKind
  else if str_is_blank display_name then Err LBEmptyDisplayName
  else if bool_decide (tracks = []) then Err LBEmptyTracks
  else
    let? ids := collect_track_ids ∅ tracks in
    let? _ := validate_playlists ids ∅ playlists in
    Ok (mkImportedLibraryBaseline source_id source_kind display_name source_revision tracks playlists).

(** ** The metadata mirror *)

Inductive SourceMirrorValidationError : Type :=
| SMInvalidSource | SMEmptyTracks | SMEmptyTrackTitle | SMEmptyAudioUri | SMInvalidDuration
| SMTextTooLong | SMInvalidPlaylistIdentity | SMInvalidPlaylistName | SMDuplicateTrackIdentity
| SMDuplicatePlaylistIdentity | SMDuplicatePlaylistTrack | SMUnknownPlaylistTrack.

Record SourceMirrorTrack := mkSourceMirrorTrack {
  smt_source_track_id : SourceTrackId;
  smt_title : str;
  smt_artist : option str;
  smt_average_bpm : option str;
  smt_musical_key : option str;
  smt_duration_millis : option Z;
  smt_color : option str;
  smt_audio_uri : str;
}.

Definition SourceMirrorTrack_try_new (source_track_id : SourceTrackId) (title : str)
    (artist average_bpm musical_key : option str) (duration_millis : option Z)
    (color : option str) (audio_uri : str) :
    result SourceMirrorTrack SourceMirrorValidationError :=
  if str_is_blank title then Err SMEmptyTrackTitle
  else if str_is_blank audio_uri then Err SMEmptyAudioUri
  else if bool_decide (duration_millis = Some 0) then Err SMInvalidDuration
  else if existsb (λ value, 32768 <? str_len value)
            (omap id [Some title; artist; average_bpm; musical_key; color; Some audio_uri])
  then Err SMTextTooLong
  else Ok (mkSourceMirrorTrack source_track_id title artist average_bpm musical_key
             duration_millis color audio_uri).

Record SourceMirrorPlaylist := mkSourceMirrorPlaylist {
  smp_source_playlist_id : str;
  smp_name : str;
  smp_track_ids : list SourceTrackId;
}.

Definition SourceMirrorPlaylist_try_new (source_playlist_id name : str)
    (track_ids : list SourceTrackId) : result SourceMirrorPlaylist SourceMirrorValidationError :=
  if str_is_blank source_playlist_id || (2048 <? str_len source_playlist_id)
  then Err SMInvalidPlaylistIdentity
  else if str_is_blank name || (512 <? str_len name) then Err SMInvalidPlaylistName
  else if has_duplicates track_ids then Err SMDuplicatePlaylistTrack
  else Ok (mkSourceMirrorPlaylist source_playlist_id name track_ids).

Record SourceMirrorSnapshot := mkSourceMirrorSnapshot {
  sms_source_id : LibrarySourceId;
  sms_source_kind : str;
  sms_display_name : str;
  sms_source_revision : SourceRevision;
  sms_tracks : list SourceMirrorTrack;
  sms_playlists : list SourceMirrorPlaylist;
}.

Definition SourceMirrorSnapshot_try_new (source_id : LibrarySourceId)
    (source_kind display_name : str) (source_revision : SourceRevision)
    (tracks : list SourceMirrorTrack) (playlists : list SourceMirrorPlaylist) :
    result SourceMirrorSnapshot SourceMirrorValidationError :=
  if str_is_blank source_kind || str_is_blank display_name then Err SMInvalidSource
  else if bool_decide (tracks = []) then Err SMEmptyTracks
  else if has_duplicates (smt_source_track_id <$> tracks) then Err SMDuplicateTrackIdentity
  else if has_duplicates (smp_source_playlist_id <$> playlists) then Err SMDuplicatePlaylistIdentity
  else if existsb (unknown_track (list_to_set (smt_source_track_id <$> tracks)))
            (playlists ≫= smp_track_ids)
  then Err SMUnknownPlaylistTrack
  else Ok (mkSourceMirrorSnapshot source_id source_kind display_name source_revision tracks playlists).

(** ** Records and queries of the repository port *)

Record TrackSummary := mkTrackSummary {
  ts_id : TrackId;
  ts_source_track_id : SourceTrackId;
  ts_title : str;
  ts_artist : str;
  ts_bpm_milli : Z;
  ts_musical_key : MusicalKey;
  ts_duration_millis : Z;
  ts_color : option TrackColor;
  ts_source_revision : SourceRevision;
  ts_timeline_revision : option TimelineRevision;
}.

Record StoredTrack := mkStoredTrack {
  st_summary : TrackSummary;
  st_audio_uri : str;
  st_beat_grid : BeatGrid;
  st_waveform : list WaveformPoint;
  st_raw_phrases : list RawPhraseObservation;
  st_hot_cues : list HotCue;
}.

Inductive TrackPageRequestError : Type :=
| PRInvalidLimit (limit : Z)
| PRSearchTooLong.

Record TrackPageRequest := mkTrackPageRequest { tpr_offset : Z; tpr_limit : Z }.

Definition TrackPageRequest_try_new (offset limit : Z) : result TrackPageRequest TrackPageRequestError :=
  if (limit =? 0) || (200 <? limit) then Err (PRInvalidLimit limit)
  else Ok (mkTrackPageRequest offset limit).

Inductive LibraryTrackSortField : Type :=
| SortPlaylist | SortTitle | SortArtist | SortBpm | SortKey | SortDuration | SortUsbSources
| SortTimelineRevision | SortReadiness | SortPreparationStatus | SortAttention
| SortSourceTrackId | SortAnalysisRevision.

Inductive LibraryTrackSortDirection : Type := SortAscending | SortDescending.

Record LibraryTrackSort := mkLibraryTrackSort {
  lts_field : LibraryTrackSortField;
  lts_direction : LibraryTrackSortDirection;
}.

(** ** Beat grids are regular *)

(** Marker [i] of a grid, and times that increase after [previous_time]. *)
Definition marker_at (beats_per_bar i : Z) (m : BeatMarker) : Prop :=
  bm_beat_index m = i ∧ bm_bar_index m = i / beats_per_bar + 1 ∧
  bm_beat_in_bar m = i mod beats_per_bar + 1.

Definition times_after (t : Z) (markers : list BeatMarker) : Prop :=
  Forall (λ m, t < bm_time_millis m) markers.

Lemma validate_markers_Ok beats_per_bar markers : ∀ index previous,
  1 ≤ beats_per_bar ≤ 16 → 0 ≤ index →
  validate_markers beats_per_bar index previous markers = Ok tt ↔
  (∀ i m, markers !! i = Some m → marker_at beats_per_bar (index + Z.of_nat i) m) ∧
  (markers ≠ [] → index + Z.of_nat (length markers) ≤ U32_MAX + 1) ∧
  StronglySorted (λ a b, bm_time_millis a < bm_time_millis b) markers ∧
  (∀ t, previous = Some t → times_after t markers).
Proof.
  induction markers as [|m markers IH]; intros index previous Hb Hi; cbn [validate_markers].
  { split; [|done]. intros _. split_and!; [done|done|constructor|constructor]. }
  pose proof (Z.mod_pos_bound index beats_per_bar ltac:(lia)).
  destruct (Z.ltb_spec U32_MAX index) as [Hu|Hu].
  { split; [done|]. intros (_ & Hl & _). specialize (Hl ltac:(done)). simpl in Hl. lia. }
  cbv zeta. rewrite (proj2 (Z.ltb_ge U8_MAX _)) by (unfold U8_MAX; lia).
  destruct (negb (bm_beat_index m =? index) || _ || _) eqn:Ho.
  { split; [done|]. intros (Hm & _). destruct (Hm 0%nat m eq_refl) as (E1 & E2 & E3).
    rewrite Z.add_0_r in *. rewrite E1, E2, E3, !Z.eqb_refl in Ho. done. }
  rewrite !orb_false_iff, !negb_false_iff, !Z.eqb_eq in Ho. destruct Ho as [[E1 E2] E3].
  assert (Ht : match previous with Some time => bm_time_millis m <=? time | None => false end = false
    ↔ ∀ t, previous = Some t → t < bm_time_millis m).
  { destruct previous; [rewrite Z.leb_gt|]; naive_solver. }
  destruct (match previous with Some time => bm_time_millis m <=? time | None => false end).
  { split; [done|]. intros (_ & _ & _ & Hp). destruct Ht as [_ Ht]. discriminate Ht.
    intros t Hpt. specialize (Hp t Hpt). by apply Forall_cons in Hp as [? _]. }
  apply proj1 in Ht. specialize (Ht eq_refl). rewrite IH by lia. clear IH. split.
  - intros (H1 & H2 & H3 & H4). specialize (H4 _ eq_refl). split_and!.
    + intros [|i] x Hx; simpl in *; [simplify_eq; rewrite Z.add_0_r; done|].
      replace (index + Z.of_nat (S i)) with (index + 1 + Z.of_nat i) by lia. auto.
    + intros _. destruct markers; [simpl; lia|]. specialize (H2 ltac:(done)). simpl in *. lia.
    + by constructor.
    + intros t Hp. constructor; [by apply Ht|]. eapply Forall_impl; [exact H4|].
      specialize (Ht t Hp). simpl. lia.
  - intros (H1 & H2 & H3 & H4). apply StronglySorted_inv in H3 as [H3 H3']. split_and!.
    + intros i x Hx. replace (index + 1 + Z.of_nat i) with (index + Z.of_nat (S i)) by lia. auto.
    + intros Hn. specialize (H2 ltac:(done)). simpl in H2. lia.
    + done.
    + intros t [= <-]. exact H3'.
Qed.

Lemma BeatGrid_try_new_Ok beats_per_bar markers g :
  BeatGrid_try_new beats_per_bar markers = Ok g ↔
   g = mkBeatGrid beats_per_bar markers ∧ 1 ≤ beats_per_bar ≤ 16 ∧
   0 < Z.of_nat (length markers) ≤ U32_MAX + 1 ∧
   Z.of_nat (length markers) mod beats_per_bar = 0 ∧
   (∀ i m, markers !! i = Some m → marker_at beats_per_bar (Z.of_nat i) m) ∧
   StronglySorted (λ a b, bm_time_millis a < bm_time_millis b) markers.
Proof.
  unfold BeatGrid_try_new.
  destruct (Z.leb_spec 1 beats_per_bar), (Z.leb_spec beats_per_bar 16); cbn [andb negb];
    [|split; [done|lia]..].
  case_bool_decide as Hm; [subst; split; [done|simpl; lia]|].
  assert (Hn : (0 < length markers)%nat) by (destruct markers; simpl; [done|lia]).
  destruct (Z.eqb_spec (Z.of_nat (length markers) mod beats_per_bar) 0); cbn [negb];
    [|split; [done|tauto]].
  rewrite result_bind_Ok. pose proof (validate_markers_Ok beats_per_bar markers 0 None) as Hv.
  split.
  - intros ([] & Hok & [= <-]). apply Hv in Hok as (H1 & H2 & H3 & _); [|lia..].
    specialize (H2 Hm). split_and!; try done; lia.
  - intros (-> & _ & Hl & _ & H1 & H2). exists tt. split; [|done]. apply Hv; [lia..|].
    split_and!; try done. lia.
Qed.

(** A beat grid is accepted exactly when it is regular: one to sixteen beats per
    bar, at least one marker and only complete bars, marker [i] numbered [i] in bar
    [i / n + 1] at beat [i mod n + 1], and times that increase strictly.  Bars and
    beats of an accepted grid count the same markers, as long as a 32-bit number can
    count them. *)
Theorem beat_grid_spec beats_per_bar markers g :
  (BeatGrid_try_new beats_per_bar markers = Ok g ↔
   g = mkBeatGrid beats_per_bar markers ∧ 1 ≤ beats_per_bar ≤ 16 ∧
   0 < Z.of_nat (length markers) ≤ U32_MAX + 1 ∧
   Z.of_nat (length markers) mod beats_per_bar = 0 ∧
   (∀ i m, markers !! i = Some m → marker_at beats_per_bar (Z.of_nat i) m) ∧
   StronglySorted (λ a b, bm_time_millis a < bm_time_millis b) markers) ∧
  (BeatGrid_try_new beats_per_bar markers = Ok g → Z.of_nat (length markers) ≤ U32_MAX →
   total_bars g * beats_per_bar = grid_total_beats g).
Proof.
  assert (Hiff := BeatGrid_try_new_Ok beats_per_bar markers g).
  split; [exact Hiff|]. intros Hok Hl. apply Hiff in Hok as (-> & Hb & _ & Hd & _).
  unfold total_bars, grid_total_beats, u32_or_max. simpl.
  pose proof (Z.div_mod (Z.of_nat (length markers)) beats_per_bar ltac:(lia)).
  pose proof (Z.div_le_upper_bound (Z.of_nat (length markers)) beats_per_bar U32_MAX).
  rewrite !(proj2 (Z.leb_le _ _)) by nia. nia.
Qed.

(** ** Identities of a baseline *)

Lemma has_duplicates_false l : has_duplicates l = false ↔ NoDup l.
Proof.
  unfold has_duplicates. rewrite negb_false_iff, bool_decide_eq_true. split.
  - intros Hs. induction l as [|x l IH]; [constructor|]. simpl in Hs.
    assert (Hle : ∀ k : list str, (size (list_to_set k : gset str) ≤ length k)%nat).
    { induction k as [|y k IHk]; [done|]. rewrite list_to_set_cons. simpl.
      destruct (decide (y ∈ (list_to_set k : gset str))) as [Hy|Hy].
      - assert ({[y]} ∪ (list_to_set k : gset str) = list_to_set k) as -> by set_solver. lia.
      - rewrite size_union by set_solver. rewrite size_singleton. lia. }
    destruct (decide (x ∈ l)) as [Hx|Hx].
    + assert ({[x]} ∪ (list_to_set l : gset str) = list_to_set l) as Eq by set_solver.
      rewrite Eq in Hs. pose proof (Hle l). lia.
    + constructor; [done|]. apply IH. rewrite size_union in Hs by set_solver.
      rewrite size_singleton in Hs. lia.
  - apply size_list_to_set.
Qed.

Lemma existsb_unknown ids l : existsb (unknown_track ids) l = false ↔ ∀ x, x ∈ l → x ∈ ids.
Proof.
  rewrite <- not_true_iff_false, existsb_exists. unfold unknown_track.
  setoid_rewrite negb_true_iff. setoid_rewrite bool_decide_eq_false.
  setoid_rewrite <- list_elem_of_In. split; [|naive_solver].
  intros Hn x Hx. destruct (decide (x ∈ ids)); [done|]. destruct Hn. eauto.
Qed.

Lemma collect_track_ids_Ok tracks : ∀ ids ids',
  collect_track_ids ids tracks = Ok ids' ↔
  ids' = list_to_set (ita_source_track_id <$> tracks) ∪ ids ∧
  NoDup (ita_source_track_id <$> tracks) ∧ (∀ x, x ∈ ita_source_track_id <$> tracks → x ∉ ids).
Proof.
  induction tracks as [|t tracks IH]; intros ids ids'; cbn [collect_track_ids].
  { simpl. rewrite union_empty_l_L. split; [|naive_solver]. intros [= <-].
    split_and!; [done|constructor|set_solver]. }
  rewrite fmap_cons, NoDup_cons. case_bool_decide as Hin.
  { split; [done|]. intros (_ & _ & Hx). exfalso. apply (Hx (ita_source_track_id t)); set_solver. }
  rewrite IH. simpl. split.
  - intros (-> & Hd & Hx). split_and!; [set_solver|set_solver|done|set_solver].
  - intros (-> & (Hn & Hd) & Hx). split_and!; [set_solver|done|].
    intros y Hy. rewrite elem_of_union, elem_of_singleton. intros [->|Hy']; [done|].
    apply (Hx y); set_solver.
Qed.

Lemma validate_playlists_Ok ids playlists : ∀ seen,
  validate_playlists ids seen playlists = Ok tt ↔
  NoDup (ip_source_playlist_id <$> playlists) ∧
  (∀ x, x ∈ ip_source_playlist_id <$> playlists → x ∉ seen) ∧
  (∀ p x, p ∈ playlists → x ∈ ip_track_ids p → x ∈ ids).
Proof.
  induction playlists as [|p playlists IH]; intros seen; cbn [validate_playlists].
  { split; [|done]. intros _. split_and!; [constructor|set_solver|set_solver]. }
  rewrite fmap_cons, NoDup_cons. case_bool_decide as Hin.
  { split; [done|]. intros (_ & Hx & _). exfalso. apply (Hx (ip_source_playlist_id p)); set_solver. }
  destruct (existsb (unknown_track ids) (ip_track_ids p)) eqn:Hu.
  { split; [done|]. intros (_ & _ & Hx). rewrite <- not_false_iff_true, existsb_unknown in Hu.
    exfalso. apply Hu. intros x. apply Hx. set_solver. }
  rewrite existsb_unknown in Hu. rewrite IH. split.
  - intros (Hd & Hx & Ht). split_and!; [set_solver|done|set_solver|].
    intros q x [->|Hq]%elem_of_cons; eauto.
  - intros ((Hn & Hd) & Hx & Ht). split_and!; [done| |set_solver].
    intros y Hy. rewrite elem_of_union, elem_of_singleton. intros [->|Hy']; [done|].
    apply (Hx y); set_solver.
Qed.

(** A baseline is accepted exactly when its identities are sound: it has a kind, a
    name and tracks, no two tracks and no two playlists share an identity, and every
    playlist refers to tracks of the baseline only. *)
Theorem baseline_spec id kind name revision tracks playlists b :
  ImportedLibraryBaseline_try_new id kind name revision tracks playlists = Ok b ↔
  b = mkImportedLibraryBaseline id kind name revision tracks playlists ∧
  str_is_blank kind = false ∧ str_is_blank name = false ∧ tracks ≠ [] ∧
  NoDup (ita_source_track_id <$> tracks) ∧ NoDup (ip_source_playlist_id <$> playlists) ∧
  (∀ p x, p ∈ playlists → x ∈ ip_track_ids p → x ∈ ita_source_track_id <$> tracks).
Proof.
  unfold ImportedLibraryBaseline_try_new.
  destruct (str_is_blank kind); [split; [done|naive_solver]|].
  destruct (str_is_blank name); [split; [done|naive_solver]|].
  case_bool_decide; [split; [done|naive_solver]|].
  rewrite result_bind_Ok. setoid_rewrite result_bind_Ok. setoid_rewrite collect_track_ids_Ok.
  split.
  - intros (ids & (-> & Hd & _) & [] & Hp & [= <-]).
    apply validate_playlists_Ok in Hp as (Hp & _ & Ht). split_and!; try done.
    intros p x Hpl Hx. specialize (Ht p x Hpl Hx). set_solver.
  - intros (-> & _ & _ & _ & Hd & Hp & Ht). eexists. split; [split_and!; [done|done|set_solver]|].
    exists tt. split; [|done]. apply validate_playlists_Ok. split_and!; [done|set_solver|].
    intros p x Hpl Hx. specialize (Ht p x Hpl Hx). set_solver.
Qed.
