(* ===== verification/Reconciliation.v ===== *)
(** * Reconciling an edited timeline with a changed source

    Models [lumi-library/src/reconciliation.rs]: what changed between a stored track and
    a new analysis, the preview of the conflicts, and the four strategies that carry
    a timeline over to the new baseline. *)

From stdpp Require Import prelude list gmap strings.
From Stdlib Require Import ZArith Lia.
From S2P Require Import Prelude.
From S2P Require Import Track.
From S2P Require Import PhraseTimeline.
From S2P Require Import PhraseTimelineProps.
From S2P Require Import LibrarySource.
Open Scope Z_scope.

(** ** Changes of the source *)

Inductive SourceChangeClass : Type :=
| ChangeMetadata | ChangeWaveform | ChangeBeatGrid | ChangeRawPhrases.

#[global] Instance SourceChangeClass_eq_dec : EqDecision SourceChangeClass.
Proof. solve_decision. Defined.
#[global] Instance SourceChangeClass_countable : Countable SourceChangeClass.
Proof.
  refine (inj_countable' (λ c, match c with
      ChangeMetadata => 0 | ChangeWaveform => 1 | ChangeBeatGrid => 2 | ChangeRawPhrases => 3
    end%nat) (λ n, match n with
      0 => ChangeMetadata | 1 => ChangeWaveform | 2 => ChangeBeatGrid | _ => ChangeRawPhrases
    end%nat) _).
  by intros [].
Defined.

Record SourceTrackDiff := mkSourceTrackDiff {
  std_from_revision : SourceRevision;
  std_to_revision : SourceRevision;
  std_changes : gset SourceChangeClass;
}.

Definition metadata_changed (current : StoredTrack) (incoming : ImportedTrackAnalysis) : bool :=
  let summary := st_summary current in
  negb (bool_decide (ts_title summary = ita_title incoming))
  || negb (bool_decide (ts_artist summary = ita_artist incoming))
  || negb (bool_decide (ts_bpm_milli summary = ita_bpm_milli incoming))
  || negb (bool_decide (ts_musical_key summary = ita_musical_key incoming))
  || negb (bool_decide (ts_duration_millis summary = ita_duration_millis incoming))
  || negb (bool_decide (ts_color summary = ita_color incoming))
  || negb (bool_decide (st_audio_uri current = ita_audio_uri incoming)).

Definition insert_if (b : bool) (c : SourceChangeClass) (s : gset SourceChangeClass) :
    gset SourceChangeClass := if b then {[c]} ∪ s else s.

Definition SourceTrackDiff_between (current : StoredTrack) (incoming : ImportedTrackAnalysis) :
    SourceTrackDiff :=
  let changes := insert_if (metadata_changed current incoming) ChangeMetadata ∅ in
  let changes := insert_if (negb (bool_decide (st_waveform current = ita_waveform incoming)))
    ChangeWaveform changes in
  let changes := insert_if (negb (bool_decide (st_beat_grid current = ita_beat_grid incoming)))
    ChangeBeatGrid changes in
  let changes := insert_if (negb (bool_decide (st_raw_phrases current = ita_raw_phrases incoming)))
    ChangeRawPhrases changes in
  mkSourceTrackDiff (ts_source_revision (st_summary current)) (ita_analysis_revision incoming) changes.

Definition is_metadata_only (d : SourceTrackDiff) : bool :=
  bool_decide (std_changes d = {[ChangeMetadata]}).

Definition requires_timeline_decision (d : SourceTrackDiff) : bool :=
  bool_decide (ChangeBeatGrid ∈ std_changes d) || bool_decide (ChangeRawPhrases ∈ std_changes d).

(** ** Strategies and their preview *)

Inductive ReconcileSide : Type := SideLumi | SideSource.

Record PhraseConflictChoice := mkPhraseConflictChoice {
  pcc_phrase_index : Z;
  pcc_side : ReconcileSide;
}.

Inductive ReconcileStrategy : Type :=
| KeepLumi
| Rebase
| Merge (choices : list PhraseConflictChoice)
| ReplaceWithSource.

Record PhraseConflict := mkPhraseConflict {
  pc_phrase_index : Z;
  pc_lumi : option PhraseInstance;
  pc_source : option PhraseInstance;
}.

Record ReconcilePreview := mkReconcilePreview {
  rp_conflicts : list PhraseConflict;
  rp_rebase_ambiguities : list Z;
}.

Inductive ReconcileError : Type :=
| RERevisionOverflow
| REKeepLumiDurationChanged
| REInsufficientBeats
| REArithmeticOverflow
| RETooManyPhrases
| REIncompleteConflictChoices
| REMissingMergePhrase
| RENonContiguousMerge
| REInvalidTimeline (error : TimelineValidationError).

(** [u16::try_from(index).unwrap_or(u16::MAX)]. *)
Definition u16_or_max (n : Z) : Z := if n <=? U16_MAX then n else U16_MAX.

Definition conflict_at (lumi source : list PhraseInstance) (index : nat) : option PhraseConflict :=
  if bool_decide (lumi !! index = source !! index) then None
  else Some (mkPhraseConflict (u16_or_max (Z.of_nat index)) (lumi !! index) (source !! index)).

Definition preview_conflicts (lumi source : list PhraseInstance) : list PhraseConflict :=
  omap (conflict_at lumi source) (seq 0 (Nat.max (length lumi) (length source))).

Definition rebase_ambiguous (total_beats source_total_beats : Z) (phrase : PhraseInstance) : bool :=
  negb ((pi_end_beat phrase * source_total_beats) mod total_beats =? 0).

Definition ReconcilePreview_between (current : LumiPhraseTimeline)
    (source_phrases : list PhraseInstance) (source_total_beats : Z) : ReconcilePreview :=
  mkReconcilePreview (preview_conflicts (lpt_phrases current) source_phrases)
    (pi_index <$> List.filter (rebase_ambiguous (lpt_total_beats current) source_total_beats)
       (take (length (lpt_phrases current) - 1) (lpt_phrases current))).

(** ** Rebasing

    [Ord::clamp] panics when the bounds cross; [None] stands for the panic. *)

Definition clamp (lo hi x : Z) : option Z :=
  if lo <=? hi then Some (Z.max lo (Z.min x hi)) else None.

Definition rebased_end (total_beats source_total_beats previous remaining : Z)
    (phrase : PhraseInstance) : option (result Z ReconcileError) :=
  let numerator := pi_end_beat phrase * source_total_beats in
  let rounded := (numerator + total_beats / 2) / total_beats in
  if U32_MAX <? rounded then Some (Err REArithmeticOverflow)
  else e ← clamp (previous + 1) (source_total_beats - remaining) rounded; Some (Ok e).

(** The loop over the phrases left; the last phrase ends with the track. *)
Fixpoint rebase_loop (total_beats source_total_beats previous : Z) (phrases : list PhraseInstance) :
    option (result (list PhraseInstance) ReconcileError) :=
  match phrases with
  | [] => Some (Ok [])
  | phrase :: rest =>
      let remaining := Z.of_nat (length rest) in
      if U32_MAX <? remaining then Some (Err RETooManyPhrases)
      else
        r ← (if bool_decide (rest = []) then Some (Ok source_total_beats)
             else rebased_end total_beats source_total_beats previous remaining phrase);
        match r with
        | Err error => Some (Err error)
        | Ok e =>
            tail ← rebase_loop total_beats source_total_beats e rest;
            Some (let? tail := tail in
              Ok (with_loop_strategy
                    (PhraseInstance_new (pi_index phrase) previous e (pi_role_id phrase))
                    (pi_loop_strategy phrase) :: tail))
        end
  end.

(** [current.phrases().len() as u32] wraps. *)
Definition rebase_phrases (current : LumiPhraseTimeline) (source_total_beats : Z) :
    option (result (list PhraseInstance) ReconcileError) :=
  if (source_total_beats =? 0)
     || (source_total_beats <? Z.of_nat (length (lpt_phrases current)) mod 2 ^ 32)
  then Some (Err REInsufficientBeats)
  else rebase_loop (lpt_total_beats current) source_total_beats 0 (lpt_phrases current).

(** ** Merging *)

Fixpoint validate_coverage_from (previous : Z) (phrases : list PhraseInstance) (total_beats : Z) :
    result unit ReconcileError :=
  match phrases with
  | [] => if negb (previous =? total_beats) then Err RENonContiguousMerge else Ok tt
  | phrase :: rest =>
      if negb (pi_start_beat phrase =? previous) || (pi_end_beat phrase <=? pi_start_beat phrase)
      then Err RENonContiguousMerge
      else validate_coverage_from (pi_end_beat phrase) rest total_beats
  end.

Definition validate_coverage (phrases : list PhraseInstance) (total_beats : Z) :
    result unit ReconcileError := validate_coverage_from 0 phrases total_beats.

Definition chosen_side (choices : list PhraseConflictChoice) (phrase_index : Z) : ReconcileSide :=
  match List.find (λ choice, pcc_phrase_index choice =? phrase_index) choices with
  | Some choice => pcc_side choice
  | None => SideLumi
  end.

Definition merged_phrase (lumi source : list PhraseInstance) (choices : list PhraseConflictChoice)
    (index : nat) : result PhraseInstance ReconcileError :=
  if U16_MAX <? Z.of_nat index then Err RETooManyPhrases
  else ok_or (match chosen_side choices (Z.of_nat index) with
              | SideLumi => lumi !! index
              | SideSource => source !! index
              end) REMissingMergePhrase.

Definition merge_phrases (current : LumiPhraseTimeline) (source : list PhraseInstance)
    (choices : list PhraseConflictChoice) (source_total_beats : Z) :
    result (list PhraseInstance) ReconcileError :=
  let preview := ReconcilePreview_between current source source_total_beats in
  let expected : gset Z := list_to_set (pc_phrase_index <$> rp_conflicts preview) in
  let selected : gset Z := list_to_set (pcc_phrase_index <$> choices) in
  if negb (bool_decide (size selected = length choices)) || negb (bool_decide (selected = expected))
  then Err REIncompleteConflictChoices
  else
    let? merged := collect (merged_phrase (lpt_phrases current) source choices)
      (seq 0 (Nat.max (length (lpt_phrases current)) (length source))) in
    let? _ := validate_coverage merged source_total_beats in
    Ok merged.

(** The [reindex] of this file: that of the timeline with its own error. *)
Definition reconcile_reindex (phrases : list PhraseInstance) :
    result (list PhraseInstance) ReconcileError :=
  map_err (λ _, RETooManyPhrases) (reindex_from 0 phrases).

Definition strategy_phrases (current : LumiPhraseTimeline) (source_total_beats : Z)
    (source_phrases : list PhraseInstance) (strategy : ReconcileStrategy) :
    option (result (list PhraseInstance) ReconcileError) :=
  match strategy with
  | KeepLumi =>
      Some (if negb (lpt_total_beats current =? source_total_beats)
            then Err REKeepLumiDurationChanged else Ok (lpt_phrases current))
  | Rebase => rebase_phrases current source_total_beats
  | Merge choices => Some (merge_phrases current source_phrases choices source_total_beats)
  | ReplaceWithSource => Some (Ok source_phrases)
  end.

Definition reconcile_timeline (current : LumiPhraseTimeline)
    (new_baseline_revision : SourceRevision) (source_total_beats : Z)
    (source_phrases : list PhraseInstance) (strategy : ReconcileStrategy) :
    option (result LumiPhraseTimeline ReconcileError) :=
  match TimelineRevision_checked_next (lpt_revision current) with
  | None => Some (Err RERevisionOverflow)
  | Some next_revision =>
      phrases ← strategy_phrases current source_total_beats source_phrases strategy;
      Some (let? phrases := phrases in
            let? phrases := reconcile_reindex phrases in
            map_err REInvalidTimeline
              (try_new_with_history (lpt_track_id current) next_revision new_baseline_revision
                 source_total_beats OriginSourceReconcile ReasonSourceReconcile
                 (Some (lpt_revision current)) None phrases))
  end.

(** ** Rebasing keeps the phrases and never panics *)

(** The nearest beat to the proportional position of [x]. *)
Definition nearest (total source x : Z) : Z := (x * source + total / 2) / total.

Section Rebase.
Variables (total source : Z).
Hypothesis (Htotal : 0 < total) (Hsource : 0 ≤ source ≤ U32_MAX).

Lemma nearest_0 : nearest total source 0 = 0.
Proof.
  unfold nearest. rewrite Z.mul_0_l, Z.add_0_l. apply Z.div_small.
  pose proof (Z.div_lt_upper_bound total 2 total). pose proof (Z.div_pos total 2). lia.
Qed.

Lemma nearest_total : nearest total source total = source.
Proof.
  unfold nearest. rewrite (Z.mul_comm total), Z.add_comm, Z.div_add by lia.
  rewrite Z.div_small; [lia|].
  pose proof (Z.div_lt_upper_bound total 2 total). pose proof (Z.div_pos total 2). lia.
Qed.

Lemma nearest_le x : x ≤ total → nearest total source x ≤ source.
Proof.
  intros Hx. rewrite <- nearest_total at 2. unfold nearest. apply Z.div_le_mono; [lia|nia].
Qed.

(** On a source that is not shorter, positions do not come closer. *)
Lemma nearest_step x y :
  total ≤ source → x ≤ y → nearest total source x + (y - x) ≤ nearest total source y.
Proof.
  intros Hs Hxy. unfold nearest. rewrite <- Z.div_add by lia. apply Z.div_le_mono; [lia|nia].
Qed.

Lemma tiles_room {A} `{Ranged A} (l : list A) : ∀ s e, tiles s l e → s + Z.of_nat (length l) ≤ e.
Proof.
  induction l as [|x l IH]; intros s e; simpl; [lia|]. intros (? & ? & Ht). apply IH in Ht. lia.
Qed.

Definition relabelled (p p' : PhraseInstance) : Prop := phrase_label p' = phrase_label p.

Lemma rebase_loop_spec phrases : ∀ ps previous,
  tiles ps phrases total → phrases ≠ [] → Z.of_nat (length phrases) ≤ U32_MAX →
  previous + Z.of_nat (length phrases) ≤ source →
  ∃ l, rebase_loop total source previous phrases = Some (Ok l) ∧ tiles previous l source ∧
    Forall2 relabelled phrases l.
Proof.
  induction phrases as [|p rest IH]; intros ps previous Ht Hne Hlen Hroom; [done|].
  cbn [rebase_loop]. cbn [length] in *. destruct Ht as (_ & _ & Ht).
  rewrite (proj2 (Z.ltb_ge _ _)) by lia. case_bool_decide as Hr.
  - subst rest. cbn. eexists. split; [done|]. cbn in *. split; [lia|]. by repeat constructor.
  - unfold rebased_end. pose proof (nearest_le (pi_end_beat p)) as Hn.
    pose proof (tiles_le _ _ _ Ht) as Hle. simpl in Hle. unfold nearest in Hn.
    specialize (Hn Hle). rewrite (proj2 (Z.ltb_ge _ _)) by lia.
    unfold clamp. rewrite (proj2 (Z.leb_le _ _)) by lia. cbn [mbind option_bind].
    set (e := Z.max _ _). assert (He : previous + 1 ≤ e ≤ source - Z.of_nat (length rest)) by lia.
    destruct (IH (pi_end_beat p) e Ht Hr) as (l & -> & Hl & Hf); [lia..|].
    cbn. eexists. split; [done|]. split; [cbn; split_and!; done || lia|]. by constructor.
Qed.

Definition rebased (p p' : PhraseInstance) : Prop :=
  pi_start_beat p' = nearest total source (pi_start_beat p) ∧
  pi_end_beat p' = nearest total source (pi_end_beat p).

Lemma rebase_loop_exact phrases : ∀ ps l,
  total ≤ source → tiles ps phrases total → 
  rebase_loop total source (nearest total source ps) phrases = Some (Ok l) →
  Forall2 rebased phrases l.
Proof.
  induction phrases as [|p rest IH]; intros ps l Hst Ht; cbn [rebase_loop]; [by intros [= <-]|].
  destruct Ht as (Hs & Hlt & Ht). simpl in Hs, Hlt.
  destruct (Z.ltb_spec U32_MAX (Z.of_nat (length rest))); [done|]. case_bool_decide as Hr.
  - subst rest. cbn in *. intros [= <-]. constructor; [|constructor]. split; simpl; [congruence|].
    by rewrite Ht, nearest_total.
  - unfold rebased_end. destruct (Z.ltb_spec U32_MAX ((pi_end_beat p * source + total / 2) / total));
      [done|]. fold (nearest total source (pi_end_beat p)).
    pose proof (nearest_step ps (pi_end_beat p) Hst ltac:(lia)).
    pose proof (nearest_step (pi_end_beat p) total Hst ltac:(pose proof (tiles_le _ _ _ Ht); simpl in *; lia))
      as H2. rewrite nearest_total in H2. pose proof (tiles_room _ _ _ Ht). simpl in *.
    unfold clamp. rewrite (proj2 (Z.leb_le _ _)) by lia. cbn [mbind option_bind].
    rewrite Z.min_l, Z.max_r by lia.
    destruct (rebase_loop total source (nearest total source (pi_end_beat p)) rest) as [[tl|]|] eqn:Hl;
      [|done..].
    cbn. intros [= <-]. constructor; [|by apply (IH (pi_end_beat p))].
    split; simpl; congruence.
Qed.
End Rebase.

(** ** The strategies *)

Lemma reindex_from_total l : ∀ n,
  n + Z.of_nat (length l) ≤ U16_MAX + 1 → ∃ l', reindex_from n l = Ok l'.
Proof.
  induction l as [|p l IH]; intros n Hn; [by exists []|]. cbn [reindex_from]. cbn [length] in Hn.
  rewrite (proj2 (Z.ltb_ge _ _)) by lia. destruct (IH (n + 1)) as [l' ->]; [lia|]. by eexists.
Qed.

Lemma same_phrases_labelled l l' : Forall2 same_phrase l l' → phrase_label <$> l' = phrase_label <$> l.
Proof. induction 1 as [|p p' l l' (_ & _ & Hl) _ IH]; [done|]. rewrite !fmap_cons. by f_equal. Qed.

Lemma relabelled_labels l l' : Forall2 relabelled l l' → phrase_label <$> l' = phrase_label <$> l.
Proof. induction 1 as [|p p' l l' Hl _ IH]; [done|]. rewrite !fmap_cons. by f_equal. Qed.

Lemma strategies_of_labels l l' :
  phrase_label <$> l' = phrase_label <$> l → strategies_ok l → strategies_ok l'.
Proof.
  revert l'. induction l as [|p l IH]; intros [|p' l'] Hl Hs; try discriminate Hl; [done|].
  rewrite !fmap_cons in Hl. injection Hl as Hr Hp Hl.
  unfold strategies_ok in *. rewrite Forall_cons in Hs |- *. destruct Hs as [? ?].
  split; [congruence|by apply IH].
Qed.

Lemma wf_phrase_count t : timeline_wf t → indexes_u16 t → Z.of_nat (length (lpt_phrases t)) ≤ U16_MAX + 1.
Proof.
  intros Hwf Hu. destruct (last (lpt_phrases t)) as [p|] eqn:Hl.
  2:{ apply last_None in Hl. rewrite Hl. simpl. unfold U16_MAX. lia. }
  rewrite last_lookup in Hl. pose proof (indexed_lookup _ _ _ _ (tw_indexed t Hwf) Hl) as Hi.
  unfold indexes_u16 in Hu. rewrite Forall_lookup in Hu. specialize (Hu _ _ Hl).
  unfold in_u16 in Hu. simpl in Hi. lia.
Qed.

(** The new timeline every strategy builds. *)
Definition reconciled (t : LumiPhraseTimeline) (revision : SourceRevision) (beats : Z)
    (phrases : list PhraseInstance) : LumiPhraseTimeline :=
  mkLumiPhraseTimeline (lpt_track_id t) (lpt_revision t + 1) revision beats OriginSourceReconcile
    ReasonSourceReconcile (Some (lpt_revision t)) None phrases.

Lemma rebase_phrases_spec t source :
  timeline_wf t → indexes_u16 t → 0 ≤ source ≤ U32_MAX →
  if source <? Z.of_nat (length (lpt_phrases t))
  then rebase_phrases t source = Some (Err REInsufficientBeats)
  else ∃ l, rebase_phrases t source = Some (Ok l) ∧ tiles 0 l source ∧
         phrase_label <$> l = phrase_label <$> lpt_phrases t ∧
         (lpt_total_beats t ≤ source → Forall2 (rebased (lpt_total_beats t) source) (lpt_phrases t) l).
Proof.
  intros Hwf Hu Hs. pose proof (wf_phrase_count t Hwf Hu) as Hc.
  pose proof (tw_tiles t Hwf) as Ht. pose proof (tw_nonempty t Hwf) as Hn.
  assert (0 < Z.of_nat (length (lpt_phrases t))) by (destruct (lpt_phrases t); simpl; [done|lia]).
  unfold rebase_phrases. rewrite Z.mod_small by (unfold U16_MAX in Hc; lia).
  destruct (Z.ltb_spec source (Z.of_nat (length (lpt_phrases t)))); [by rewrite orb_true_r|].
  rewrite (proj2 (Z.eqb_neq source 0)) by lia. cbn [orb].
  pose proof (tiles_room _ _ _ Ht) as Hroom.
  assert (0 < lpt_total_beats t) as Hpos by lia.
  destruct (rebase_loop_spec (lpt_total_beats t) source Hpos Hs (lpt_phrases t) 0 0 Ht Hn)
    as (l & Hl & Htl & Hf); [unfold U16_MAX, U32_MAX in *; lia|lia|].
  exists l. split_and!; [done|done|by apply relabelled_labels|].
  intros Hle. eapply rebase_loop_exact; [done..|]. by rewrite nearest_0.
Qed.

Lemma reconciled_intro t revision beats phrases strategy :
  timeline_wf t → lpt_revision t < U64_MAX → beats ≠ 0 →
  strategy_phrases t beats [] strategy = Some (Ok phrases) →
  tiles 0 phrases beats → phrases ≠ [] → strategies_ok phrases →
  Z.of_nat (length phrases) ≤ U16_MAX + 1 →
  ∃ l, Forall2 same_phrase phrases l ∧
    reconcile_timeline t revision beats [] strategy = Some (Ok (reconciled t revision beats l)) ∧
    timeline_wf (reconciled t revision beats l).
Proof.
  intros Hwf Hr Hb Hp Ht Hn Hs Hc. destruct (reindex_from_total phrases 0 Hc) as [l Hl].
  exists l. pose proof (reindex_from_Ok _ _ _ Hl) as [Hf Hi]. split; [done|].
  assert (timeline_wf (reconciled t revision beats l)) as Hw.
  { destruct Hwf. split; simpl; try done; [|by eapply same_phrases_tiles|
      by eapply same_phrases_strategies|intros r [= <-]; lia].
    intros ->. by apply Forall2_nil_inv_r in Hf. }
  split; [|done]. unfold reconcile_timeline.
  rewrite (proj2 (checked_next_Some _ (lpt_revision t + 1))) by lia.
  rewrite Hp. cbn [mbind option_bind]. do 2 f_equal. simpl. unfold reconcile_reindex. rewrite Hl. simpl.
  rewrite (proj2 (timeline_constructor_iff _ _ _ _ _ _ _ _ _ (reconciled t revision beats l)));
    [done|]. split; [done|exact Hw].
Qed.

(** Rebasing always succeeds when there are enough beats.  A well-formed timeline
    rebased onto any source with at least one beat per phrase becomes a well-formed
    timeline of the new duration under the next revision, with the same roles and
    loop strategies in the same order; with fewer beats the error says so; the clamp
    of the boundaries never panics.  When the source is not shorter than the
    timeline, every boundary lands on the beat nearest to its proportional position,
    hence an unchanged duration leaves every phrase where it was. *)
Theorem rebase_total t revision source :
  timeline_wf t → indexes_u16 t → lpt_revision t < U64_MAX → 0 ≤ source ≤ U32_MAX →
  if source <? Z.of_nat (length (lpt_phrases t))
  then reconcile_timeline t revision source [] Rebase = Some (Err REInsufficientBeats)
  else ∃ l, reconcile_timeline t revision source [] Rebase = Some (Ok (reconciled t revision source l)) ∧
         timeline_wf (reconciled t revision source l) ∧
         phrase_label <$> l = phrase_label <$> lpt_phrases t ∧
         (lpt_total_beats t ≤ source →
            Forall2 (rebased (lpt_total_beats t) source) (lpt_phrases t) l).
Proof.
  intros Hwf Hu Hr Hs. pose proof (rebase_phrases_spec t source Hwf Hu Hs) as Hp.
  destruct (Z.ltb_spec source (Z.of_nat (length (lpt_phrases t)))) as [Hlt|Hge].
  { unfold reconcile_timeline. rewrite (proj2 (checked_next_Some _ (lpt_revision t + 1))) by lia.
    simpl. by rewrite Hp. }
  destruct Hp as (p & Hp & Ht & Hlab & Hx). pose proof (tw_nonempty t Hwf) as Hn.
  assert (Hlen : length p = length (lpt_phrases t)).
  { by rewrite <- (length_fmap phrase_label p), Hlab, length_fmap. }
  destruct (reconciled_intro t revision source p Rebase) as (l & Hf & Hok & Hw); try done.
  - destruct (lpt_phrases t); [done|]. simpl in Hge. lia.
  - intros ->. by destruct (lpt_phrases t).
  - eapply strategies_of_labels, tw_strategies; done.
  - rewrite Hlen. by apply wf_phrase_count.
  - exists l. split_and!; [done|done| |].
    + rewrite <- Hlab. by apply same_phrases_labelled.
    + intros Hle. specialize (Hx Hle). clear -Hx Hf. revert l Hf.
      induction Hx as [|q q' qs qs' [? ?] _ IH]; intros l Hf.
      * apply Forall2_nil_inv_l in Hf as ->. constructor.
      * apply Forall2_cons_inv_l in Hf as (y & ys & (? & ? & _) & ? & ->).
        constructor; [split; congruence|auto].
Qed.

(** What each strategy keeps, phrase by phrase. *)
Definition kept (t : LumiPhraseTimeline) (source_total_beats : Z) (source l : list PhraseInstance)
    (strategy : ReconcileStrategy) : Prop :=
  match strategy with
  | KeepLumi => source_total_beats = lpt_total_beats t ∧ Forall2 same_phrase (lpt_phrases t) l
  | Rebase => phrase_label <$> l = phrase_label <$> lpt_phrases t
  | Merge choices =>
      (∀ i, lpt_phrases t !! i ≠ source !! i →
         ∃ choice, choice ∈ choices ∧ pcc_phrase_index choice = Z.of_nat i) ∧
      NoDup (pcc_phrase_index <$> choices) ∧
      (∀ i p', l !! i = Some p' → ∃ p, same_phrase p p' ∧
         match chosen_side choices (Z.of_nat i) with
         | SideLumi => lpt_phrases t !! i
         | SideSource => source !! i
         end = Some p)
  | ReplaceWithSource => Forall2 same_phrase source l
  end.

Lemma list_to_set_size_NoDup (l : list Z) :
  size (list_to_set l : gset Z) = length l → NoDup l.
Proof.
  assert (Hle : ∀ k : list Z, (size (list_to_set k : gset Z) ≤ length k)%nat).
  { induction k as [|y k IHk]; [done|]. rewrite list_to_set_cons. simpl.
    destruct (decide (y ∈ (list_to_set k : gset Z))) as [Hy|Hy].
    - assert ({[y]} ∪ (list_to_set k : gset Z) = list_to_set k) as -> by set_solver. lia.
    - rewrite size_union by set_solver. rewrite size_singleton. lia. }
  induction l as [|x l IH]; intros Hs; [constructor|]. rewrite list_to_set_cons in Hs. simpl in Hs.
  destruct (decide (x ∈ l)) as [Hx|Hx].
  - assert ({[x]} ∪ (list_to_set l : gset Z) = list_to_set l) as Eq by set_solver.
    rewrite Eq in Hs. pose proof (Hle l). lia.
  - rewrite size_union in Hs by set_solver. rewrite size_singleton in Hs.
    constructor; [done|]. apply IH. lia.
Qed.

Lemma conflict_index lumi source i :
  lumi !! i ≠ source !! i → Z.of_nat i ≤ U16_MAX →
  Z.of_nat i ∈ pc_phrase_index <$> preview_conflicts lumi source.
Proof.
  intros Hd Hi. apply list_elem_of_fmap.
  exists (mkPhraseConflict (u16_or_max (Z.of_nat i)) (lumi !! i) (source !! i)). split.
  { simpl. unfold u16_or_max. by rewrite (proj2 (Z.leb_le _ _)). }
  apply list_elem_of_omap. exists i. split.
  - apply elem_of_seq. destruct (decide (i < length lumi ∨ i < length source))%nat; [lia|].
    destruct Hd. rewrite !lookup_ge_None_2 by lia. done.
  - unfold conflict_at. by rewrite bool_decide_false.
Qed.

Lemma merge_phrases_Ok t source choices beats l :
  merge_phrases t source choices beats = Ok l →
  (∀ i, lpt_phrases t !! i ≠ source !! i →
     ∃ choice, choice ∈ choices ∧ pcc_phrase_index choice = Z.of_nat i) ∧
  NoDup (pcc_phrase_index <$> choices) ∧
  (∀ i p, l !! i = Some p →
     match chosen_side choices (Z.of_nat i) with
     | SideLumi => lpt_phrases t !! i
     | SideSource => source !! i
     end = Some p).
Proof.
  unfold merge_phrases. case_bool_decide as Hsize; [|done]. case_bool_decide as Hset; [|done].
  cbn [negb orb]. intros Hm. unbind Hm. injection Hm as <-. clear E0.
  set (n := Nat.max (length (lpt_phrases t)) (length source)) in *.
  rename v into merged.
  assert (Hn : Z.of_nat n ≤ U16_MAX + 1).
  { destruct n as [|n]; [unfold U16_MAX; simpl; lia|].
    assert (seq 0 (S n) !! n = Some n) as Hlast by (apply lookup_seq; lia).
    destruct (collect_lookup_fwd _ _ _ _ _ E Hlast) as (y & _ & Hy).
    unfold merged_phrase in Hy. destruct (Z.ltb_spec U16_MAX (Z.of_nat n)); [done|lia]. }
  split_and!.
  - intros i Hd. assert (i < n)%nat.
    { destruct (decide (i < n)%nat) as [|Hi]; [done|]. destruct Hd.
      rewrite !lookup_ge_None_2 by lia. done. }
    pose proof (conflict_index (lpt_phrases t) source i Hd ltac:(lia)) as Hi.
    assert (Z.of_nat i ∈ pcc_phrase_index <$> choices) as (choice & -> & ?)%list_elem_of_fmap; [|eauto].
    apply (elem_of_list_to_set (C := gset Z)). rewrite Hset. by apply elem_of_list_to_set.
  - apply list_to_set_size_NoDup. by rewrite length_fmap.
  - intros i p Hp. destruct (collect_lookup _ _ _ _ _ E Hp) as (j & Hj & Hy).
    apply lookup_seq in Hj as [-> _]. unfold merged_phrase in Hy.
    destruct (U16_MAX <? Z.of_nat (0 + i)); [done|]. by apply ok_or_Ok in Hy.
Qed.

(** C36: reconciling a well-formed timeline (with phrase indexes of 16 bits, as the code
    numbers them) is sound for every strategy.  It never panics; a timeline it
    returns is well formed for the new duration and baseline, one revision after the
    old one, which is its parent.  Keep Lumi requires the same duration and keeps every
    phrase; Rebase keeps every role and strategy; Replace takes the source's phrases;
    Merge requires exactly one choice for each conflict and takes each phrase from the
    chosen side. *)
Theorem reconcile_sound t revision beats source strategy :
  timeline_wf t → indexes_u16 t → 0 ≤ beats ≤ U32_MAX →
  ∃ r, reconcile_timeline t revision beats source strategy = Some r ∧
    ∀ t', r = Ok t' →
      timeline_wf t' ∧ t' = reconciled t revision beats (lpt_phrases t') ∧
      kept t beats source (lpt_phrases t') strategy.
Proof.
  intros Hwf Hu Hb. unfold reconcile_timeline.
  destruct (TimelineRevision_checked_next (lpt_revision t)) as [next|] eqn:Hnext.
  2:{ eexists. split; [done|]. done. }
  apply checked_next_Some in Hnext as [-> _].
  assert (∃ r, strategy_phrases t beats source strategy = Some r) as [r Hr].
  { destruct strategy; simpl; [eauto| |eauto|eauto].
    pose proof (rebase_phrases_spec t beats Hwf Hu Hb) as Hs.
    destruct (beats <? _); [eauto|]. destruct Hs as (l & ? & _). eauto. }
  rewrite Hr. cbn [mbind option_bind]. eexists. split; [done|]. intros t' Ht'. unbind Ht'.
  apply timeline_constructor_iff in Ht' as [-> Hw]. split_and!; [done|done|].
  rename v into phrases, v0 into l. simpl.
  unfold reconcile_reindex in E. apply map_err_Ok, reindex_from_Ok in E as [Hf _]. unfold kept.
  destruct strategy as [| |choices|]; simpl in Hr.
  - destruct (Z.eqb_spec (lpt_total_beats t) beats) as [He|He]; simpl in Hr; [|done].
    injection Hr as <-. by split.
  - pose proof (rebase_phrases_spec t beats Hwf Hu Hb) as Hs. destruct (beats <? _); [congruence|].
    destruct Hs as (l' & Hl & _ & Hlab & _). simplify_eq.
    rewrite (same_phrases_labelled _ _ Hf). congruence.
  - injection Hr as Hr. apply merge_phrases_Ok in Hr as (H1 & H2 & H3). split_and!; [done|done|].
    intros i p' Hp'. destruct (Forall2_lookup_r _ _ _ _ _ Hf Hp') as (p & Hp & Hs). eauto.
  - by simplify_eq.
Qed.

(** ** Witnesses *)

Lemma demo_timeline_u16 : indexes_u16 demo_timeline.
Proof. repeat constructor; vm_compute; discriminate. Qed.

Lemma rebase_total_witness :
  ∃ l, reconcile_timeline demo_timeline (lit "next") 96 [] Rebase
      = Some (Ok (reconciled demo_timeline (lit "next") 96 l)) ∧
    pi_end_beat <$> l = [48; 96].
Proof.
  destruct (rebase_total demo_timeline (lit "next") 96 demo_timeline_wf demo_timeline_u16
    ltac:(vm_compute; reflexivity) ltac:(vm_compute; split; discriminate)) as (l & Hl & _ & _ & Hx).
  exists l. split; [exact Hl|].
  specialize (Hx ltac:(vm_compute; discriminate)).
  inversion Hx as [|? p1 ? ? [_ E1] Hx']; subst. inversion Hx' as [|? p2 ? ? [_ E2] Hx'']; subst.
  inversion Hx''; subst. simpl. by rewrite E1, E2.
Defined.

(** One conflict: the source splits differently; the choice takes its second phrase. *)
Definition demo_source : list PhraseInstance :=
  [PhraseInstance_new 0 0 32 (lit "intro"); PhraseInstance_new 1 32 64 (lit "outro")].

Lemma reconcile_sound_witness :
  ∃ t', reconcile_timeline demo_timeline (lit "next") 64 demo_source
      (Merge [mkPhraseConflictChoice 1 SideSource]) = Some (Ok t') ∧ timeline_wf t' ∧
    pi_role_id <$> lpt_phrases t' = [lit "intro"; lit "outro"].
Proof.
  destruct (reconcile_sound demo_timeline (lit "next") 64 demo_source
    (Merge [mkPhraseConflictChoice 1 SideSource]) demo_timeline_wf demo_timeline_u16
    ltac:(vm_compute; split; discriminate)) as (r & Hr & Hs).
  assert (reconcile_timeline demo_timeline (lit "next") 64 demo_source
    (Merge [mkPhraseConflictChoice 1 SideSource])
    = Some (Ok (reconciled demo_timeline (lit "next") 64 demo_source))) as Hv by (vm_compute; reflexivity).
  eexists. split; [exact Hv|]. split; [|reflexivity].
  apply Hs. congruence.
Defined.
