(* ===== verification/PhraseRoles.v ===== *)
(** * The phrase role catalogue

    Models [lumi-library/src/phrase_roles.rs]: named phrase roles in order, and the
    mapping from the labels of a source to roles.  [str::to_lowercase], the full
    Unicode mapping, is a parameter; everything else of strings is modelled. *)

From stdpp Require Import prelude list gmap strings.
From Stdlib Require Import ZArith Lia.
From S2P Require Import Prelude.
From S2P Require Import Track.
From S2P Require Import PhraseTimeline.
Open Scope Z_scope.

Definition PHRASE_ROLE_DEFAULTS_VERSION : Z := 2.
Definition DEFAULT_CUSTOM_PHRASE_ROLE_COLOR_RGB : Z := 0x33AD99.

Inductive PhraseRoleCatalogError : Type :=
| PRCInvalidRevision | PRCEmptyCatalog | PRCEmptyDisplayName | PRCDisplayNameTooLong
| PRCDuplicateDisplayName | PRCDuplicateRoleId | PRCInvalidSortOrder | PRCInvalidColor
| PRCNoActiveRoles | PRCUnknownRole | PRCEmptyProviderKind | PRCProviderKindTooLong
| PRCEmptyRawLabel | PRCRawLabelTooLong | PRCDuplicateMapping | PRCNoChange | PRCTooManyRoles
| PRCIdentifierOverflow | PRCArithmeticOverflow.

Record PhraseRole := mkPhraseRole {
  pr_id : PhraseRoleId;
  pr_display_name : str;
  pr_sort_order : Z;
  pr_archived : bool;
  pr_color_rgb : Z;
}.

#[global] Instance PhraseRole_eq_dec : EqDecision PhraseRole.
Proof. solve_decision. Defined.

Definition role_colors : list (list string * Z) :=
  [(["intro-outro"; "intro"; "outro"], 0x408CF2);
   (["bridge"], 0x5E6BC7);
   (["breakdown-1"; "breakdown-2"; "breakdown-3"; "breakdown"], 0x7A47D4);
   (["synth"], 0xD13DB8);
   (["pre-drop"], 0xF27433);
   (["buildup-1"; "buildup-2"; "buildup-3"; "build"], 0xF5A81F);
   (["drop"], 0xEB3342)]%string.

Definition default_phrase_role_color_rgb (role_id : str) : Z :=
  match List.find (λ '(names, _), existsb (λ name, bool_decide (role_id = lit name)) names) role_colors with
  | Some (_, color) => color
  | None => DEFAULT_CUSTOM_PHRASE_ROLE_COLOR_RGB
  end.

Definition normalize_source_label (value : str) : str :=
  to_ascii_lowercase (join_space (split_whitespace value)).

Definition validated_display_name (value : str) : result str PhraseRoleCatalogError :=
  let trimmed := trim value in
  if bool_decide (trimmed = []) then Err PRCEmptyDisplayName
  else if 80 <? str_len trimmed then Err PRCDisplayNameTooLong
  else Ok trimmed.

Definition PhraseRole_try_new_with_color_rgb (id : PhraseRoleId) (display_name : str)
    (sort_order : Z) (archived : bool) (color_rgb : Z) : result PhraseRole PhraseRoleCatalogError :=
  let? display_name := validated_display_name display_name in
  if sort_order =? 0 then Err PRCInvalidSortOrder
  else if 0xffffff <? color_rgb then Err PRCInvalidColor
  else Ok (mkPhraseRole id display_name sort_order archived color_rgb).

Definition PhraseRole_try_new (id : PhraseRoleId) (display_name : str) (sort_order : Z)
    (archived : bool) : result PhraseRole PhraseRoleCatalogError :=
  PhraseRole_try_new_with_color_rgb id display_name sort_order archived
    (default_phrase_role_color_rgb id).

Definition with_display_name (r : PhraseRole) (display_name : str) :=
  PhraseRole_try_new_with_color_rgb (pr_id r) display_name (pr_sort_order r) (pr_archived r)
    (pr_color_rgb r).
Definition with_sort_order (r : PhraseRole) (sort_order : Z) :=
  PhraseRole_try_new_with_color_rgb (pr_id r) (pr_display_name r) sort_order (pr_archived r)
    (pr_color_rgb r).
Definition with_archived (r : PhraseRole) (archived : bool) :=
  PhraseRole_try_new_with_color_rgb (pr_id r) (pr_display_name r) (pr_sort_order r) archived
    (pr_color_rgb r).
Definition with_color_rgb (r : PhraseRole) (color_rgb : Z) :=
  PhraseRole_try_new_with_color_rgb (pr_id r) (pr_display_name r) (pr_sort_order r)
    (pr_archived r) color_rgb.

Record SourcePhraseMapping := mkSourcePhraseMapping {
  spm_provider_kind : str;
  spm_raw_label : str;
  spm_role_id : PhraseRoleId;
}.

#[global] Instance SourcePhraseMapping_eq_dec : EqDecision SourcePhraseMapping.
Proof. solve_decision. Defined.

Definition SourcePhraseMapping_try_new (provider_kind raw_label : str) (role_id : PhraseRoleId) :
    result SourcePhraseMapping PhraseRoleCatalogError :=
  let provider_kind := trim provider_kind in
  let raw_label := trim raw_label in
  if bool_decide (provider_kind = []) then Err PRCEmptyProviderKind
  else if 64 <? str_len provider_kind then Err PRCProviderKindTooLong
  else if bool_decide (raw_label = []) then Err PRCEmptyRawLabel
  else if 100 <? str_len raw_label then Err PRCRawLabelTooLong
  else Ok (mkSourcePhraseMapping provider_kind raw_label role_id).

Definition normalized_label (m : SourcePhraseMapping) : str := normalize_source_label (spm_raw_label m).

Record PhraseRoleCatalog := mkPhraseRoleCatalog {
  prc_revision : Z;
  prc_defaults_version : Z;
  prc_roles : list PhraseRole;
  prc_mappings : list SourcePhraseMapping;
}.

Inductive PhraseRoleMove : Type := RoleEarlier | RoleLater.

Section Catalog.
Variable to_lowercase : str → str.
Implicit Types c : PhraseRoleCatalog.

(** The loop over the roles with the identifiers and names seen. *)
Fixpoint validate_roles (role_ids role_names : gset str) (index : Z) (roles : list PhraseRole) :
    result (gset str) PhraseRoleCatalogError :=
  match roles with
  | [] => Ok role_ids
  | role :: rest =>
      if bool_decide (pr_id role ∈ role_ids) then Err PRCDuplicateRoleId
      else if bool_decide (to_lowercase (pr_display_name role) ∈ role_names)
      then Err PRCDuplicateDisplayName
      else if negb (pr_sort_order role =? index + 1) then Err PRCInvalidSortOrder
      else validate_roles ({[pr_id role]} ∪ role_ids)
             ({[to_lowercase (pr_display_name role)]} ∪ role_names) (index + 1) rest
  end.

Definition mapping_key (m : SourcePhraseMapping) : str * str :=
  (to_ascii_lowercase (spm_provider_kind m), normalized_label m).

Fixpoint validate_mappings (role_ids : gset str) (keys : gset (str * str))
    (mappings : list SourcePhraseMapping) : result unit PhraseRoleCatalogError :=
  match mappings with
  | [] => Ok tt
  | mapping :: rest =>
      if negb (bool_decide (spm_role_id mapping ∈ role_ids)) then Err PRCUnknownRole
      else if bool_decide (mapping_key mapping ∈ keys) then Err PRCDuplicateMapping
      else validate_mappings role_ids ({[mapping_key mapping]} ∪ keys) rest
  end.

Definition PhraseRoleCatalog_try_new (revision defaults_version : Z) (roles : list PhraseRole)
    (mappings : list SourcePhraseMapping) : result PhraseRoleCatalog PhraseRoleCatalogError :=
  if (revision =? 0) && (negb (defaults_version =? 0) || negb (bool_decide (mappings = [])))
  then Err PRCInvalidRevision
  else if (0 <? revision) && bool_decide (roles = []) then Err PRCEmptyCatalog
  else
    let? role_ids := validate_roles ∅ ∅ 0 roles in
    if negb (bool_decide (roles = [])) && forallb pr_archived roles then Err PRCNoActiveRoles
    else
      let? _ := validate_mappings role_ids ∅ mappings in
      Ok (mkPhraseRoleCatalog revision defaults_version roles mappings).

Definition role_revised c (roles : list PhraseRole) (mappings : list SourcePhraseMapping) :
    result PhraseRoleCatalog PhraseRoleCatalogError :=
  let? revision := ok_or (checked_add_u64 (prc_revision c) 1) PRCArithmeticOverflow in
  PhraseRoleCatalog_try_new revision (prc_defaults_version c) roles mappings.

Fixpoint position {A} (f : A → bool) (l : list A) : option nat :=
  match l with
  | [] => None
  | x :: l => if f x then Some 0%nat else S <$> position f l
  end.

(** The index, with the role it selects. *)
Definition role_index c (role_id : PhraseRoleId) : result (nat * PhraseRole) PhraseRoleCatalogError :=
  match position (λ role, bool_decide (pr_id role = role_id)) (prc_roles c) with
  | Some index => let? role := ok_or (prc_roles c !! index) PRCUnknownRole in Ok (index, role)
  | None => Err PRCUnknownRole
  end.

Definition ensure_unique_name c (display_name : str) (except : option PhraseRoleId) :
    result unit PhraseRoleCatalogError :=
  if existsb (λ role, negb (bool_decide (Some (pr_id role) = except))
                      && eq_ignore_ascii_case (pr_display_name role) display_name) (prc_roles c)
  then Err PRCDuplicateDisplayName else Ok tt.

Definition custom_id (suffix : Z) : str := lit "custom-" ++ show_u suffix.

(** The loop of [add_role].  It leaves at the first free suffix, so one round more
    than there are roles is enough ([custom_id_total]). *)
Fixpoint custom_id_loop (fuel : nat) (suffix : Z) (roles : list PhraseRole) :
    result PhraseRoleId PhraseRoleCatalogError :=
  match fuel with
  | O => Err PRCArithmeticOverflow
  | S fuel =>
      let? candidate := map_err (λ _, PRCIdentifierOverflow)
        (text_identifier_try_new "phrase role id" (custom_id suffix)) in
      if negb (existsb (λ role, bool_decide (pr_id role = candidate)) roles) then Ok candidate
      else
        let? suffix := ok_or (checked_add_u64 suffix 1) PRCArithmeticOverflow in
        custom_id_loop fuel suffix roles
  end.

Definition add_role c (display_name : str) : result PhraseRoleCatalog PhraseRoleCatalogError :=
  let? display_name := validated_display_name display_name in
  let? _ := ensure_unique_name c display_name None in
  let? id := custom_id_loop (S (length (prc_roles c))) 1 (prc_roles c) in
  let order := Z.of_nat (length (prc_roles c) + 1) in
  if U16_MAX <? order then Err PRCTooManyRoles
  else
    let? role := PhraseRole_try_new id display_name order false in
    role_revised c (prc_roles c ++ [role]) (prc_mappings c).

Definition rename_role c (role_id : PhraseRoleId) (display_name : str) :
    result PhraseRoleCatalog PhraseRoleCatalogError :=
  let? display_name := validated_display_name display_name in
  let? _ := ensure_unique_name c display_name (Some role_id) in
  let? (index, role) := role_index c role_id in
  if bool_decide (pr_display_name role = display_name) then Err PRCNoChange
  else
    let? role := with_display_name role display_name in
    role_revised c (<[index := role]> (prc_roles c)) (prc_mappings c).

Fixpoint renumber (position : Z) (roles : list PhraseRole) :
    result (list PhraseRole) PhraseRoleCatalogError :=
  match roles with
  | [] => Ok []
  | role :: rest =>
      if U16_MAX <? position + 1 then Err PRCTooManyRoles
      else
        let? role := with_sort_order role (position + 1) in
        let? rest := renumber (position + 1) rest in
        Ok (role :: rest)
  end.

Definition swap {A} (i j : nat) (l : list A) : list A :=
  match l !! i, l !! j with
  | Some x, Some y => <[i := y]> (<[j := x]> l)
  | _, _ => l
  end.

Definition move_role c (role_id : PhraseRoleId) (direction : PhraseRoleMove) :
    result PhraseRoleCatalog PhraseRoleCatalogError :=
  let? (index, _) := role_index c role_id in
  let? other := ok_or (match direction with
    | RoleEarlier => match index with O => None | S index => Some index end
    | RoleLater => if (S index <? length (prc_roles c))%nat then Some (S index) else None
    end) PRCNoChange in
  let? roles := renumber 0 (swap index other (prc_roles c)) in
  role_revised c roles (prc_mappings c).

Definition set_archived c (role_id : PhraseRoleId) (archived : bool) :
    result PhraseRoleCatalog PhraseRoleCatalogError :=
  let? (index, role) := role_index c role_id in
  if Bool.eqb (pr_archived role) archived then Err PRCNoChange
  else
    let? role := with_archived role archived in
    role_revised c (<[index := role]> (prc_roles c)) (prc_mappings c).

Definition set_color_rgb c (role_id : PhraseRoleId) (color_rgb : Z) :
    result PhraseRoleCatalog PhraseRoleCatalogError :=
  let? (index, role) := role_index c role_id in
  if pr_color_rgb role =? color_rgb then Err PRCNoChange
  else
    let? role := with_color_rgb role color_rgb in
    role_revised c (<[index := role]> (prc_roles c)) (prc_mappings c).

Definition mapping_leb (l r : SourcePhraseMapping) : bool :=
  str_ltb (spm_provider_kind l) (spm_provider_kind r)
  || (bool_decide (spm_provider_kind l = spm_provider_kind r)
      && str_leb (normalized_label l) (normalized_label r)).

Definition upsert_mapping c (mapping : SourcePhraseMapping) :
    result PhraseRoleCatalog PhraseRoleCatalogError :=
  if negb (existsb (λ role, bool_decide (pr_id role = spm_role_id mapping)) (prc_roles c))
  then Err PRCUnknownRole
  else
    let provider := to_ascii_lowercase (spm_provider_kind mapping) in
    let label := normalized_label mapping in
    match position (λ candidate, eq_ignore_ascii_case (spm_provider_kind candidate) provider
                    && bool_decide (normalized_label candidate = label)) (prc_mappings c) with
    | Some index =>
        if bool_decide (prc_mappings c !! index = Some mapping) then Err PRCNoChange
        else role_revised c (prc_roles c) (<[index := mapping]> (prc_mappings c))
    | None => role_revised c (prc_roles c) (sort_by mapping_leb (prc_mappings c ++ [mapping]))
    end.

Definition role_resolve c (provider_kind raw_label : str) : option PhraseRoleId :=
  let find_label label := List.find (λ mapping,
    eq_ignore_ascii_case (spm_provider_kind mapping) provider_kind
    && bool_decide (normalized_label mapping = label)) (prc_mappings c) in
  spm_role_id <$>
    match find_label (normalize_source_label raw_label) with
    | Some mapping => Some mapping
    | None => find_label (lit "*")
    end.
End Catalog.
