(* ===== verification/PhraseRolesProps.v ===== *)
(** * The phrase role catalogue: proofs

    The constructor accepts exactly the well-formed catalogues, edits keep them so and
    fail only for the reasons their caller can see, and a mapping that was set is the
    one that is resolved. *)

From stdpp Require Import prelude list gmap strings.
From Stdlib Require Import ZArith Lia.
From S2P Require Import Prelude.
From S2P Require Import Track.
From S2P Require Import PhraseTimeline.
From S2P Require Import PhraseRoles.
Open Scope Z_scope.

(** ** Names *)

Lemma trim_start_head s : ∀ c t, trim_start s = c :: t → char_is_whitespace c = false.
Proof.
  induction s as [|c s IH]; intros c' t; simpl; [done|].
  destruct (char_is_whitespace c) eqn:E; [apply IH|]. by intros [= <- <-].
Qed.

Lemma trim_start_fixed c s : char_is_whitespace c = false → trim_start (c :: s) = c :: s.
Proof. simpl. by intros ->. Qed.

Lemma trim_start_idem s : trim_start (trim_start s) = trim_start s.
Proof.
  destruct (trim_start s) as [|c t] eqn:E; [done|]. apply trim_start_fixed.
  by eapply trim_start_head.
Qed.

(** A trimmed text has no white space at either end. *)
Lemma trim_idem s : trim (trim s) = trim s.
Proof.
  unfold trim. set (u := trim_start s). set (v := trim_start (reverse u)).
  assert (trim_start (reverse v) = reverse v) as ->.
  2:{ rewrite reverse_involutive. unfold v. by rewrite trim_start_idem. }
  destruct (trim_start_suffix (reverse u)) as [k Hk]. fold v in Hk.
  assert (Hu : u = reverse v ++ reverse k).
  { rewrite <- reverse_app, <- Hk. by rewrite reverse_involutive. }
  destruct (reverse v) as [|c t] eqn:Hv; [done|]. apply trim_start_fixed.
  apply (trim_start_head s c (t ++ reverse k)). exact Hu.
Qed.

Lemma validated_display_name_idem s name :
  validated_display_name s = Ok name → validated_display_name name = Ok name.
Proof.
  unfold validated_display_name. case_bool_decide as H1; [done|].
  destruct (80 <? str_len (trim s)) eqn:H2; [done|]. intros [= <-].
  by rewrite trim_idem, bool_decide_false, H2.
Qed.

(** ** Well-formed catalogues *)

Record role_valid (r : PhraseRole) : Prop := {
  rv_name : validated_display_name (pr_display_name r) = Ok (pr_display_name r);
  rv_order : 0 < pr_sort_order r ≤ U16_MAX;
  rv_color : pr_color_rgb r ≤ 0xffffff;
}.

Definition ordered (start : Z) (roles : list PhraseRole) : Prop :=
  ∀ i r, roles !! i = Some r → pr_sort_order r = start + Z.of_nat i + 1.

Lemma PhraseRole_rebuild r name order archived color :
  role_valid r → validated_display_name name = Ok name → 0 < order → color ≤ 0xffffff →
  PhraseRole_try_new_with_color_rgb (pr_id r) name order archived color
    = Ok (mkPhraseRole (pr_id r) name order archived color).
Proof.
  intros _ Hn Ho Hc. unfold PhraseRole_try_new_with_color_rgb. rewrite Hn. cbn [result_bind].
  rewrite (proj2 (Z.eqb_neq _ _)), (proj2 (Z.ltb_ge _ _)) by lia. done.
Qed.

Lemma ordered_cons start r roles :
  ordered start (r :: roles) ↔ pr_sort_order r = start + 1 ∧ ordered (start + 1) roles.
Proof.
  unfold ordered. split.
  - intros H. split; [specialize (H 0%nat r eq_refl); simpl in H; lia|].
    intros i x Hx. specialize (H (S i) x Hx). lia.
  - intros [H0 H] [|i] x Hx; simpl in Hx; [simplify_eq; lia|]. apply H in Hx. lia.
Qed.

Section Props.
Variable to_lowercase : str → str.
Implicit Types c : PhraseRoleCatalog.

Definition lower_names (roles : list PhraseRole) : list str :=
  (λ r, to_lowercase (pr_display_name r)) <$> roles.

Record catalog_wf c : Prop := {
  cw_unset : prc_revision c = 0 → prc_defaults_version c = 0 ∧ prc_mappings c = [];
  cw_roles : 0 < prc_revision c → prc_roles c ≠ [];
  cw_ids : NoDup (pr_id <$> prc_roles c);
  cw_names : NoDup (lower_names (prc_roles c));
  cw_order : ordered 0 (prc_roles c);
  cw_active : prc_roles c ≠ [] → ∃ r, r ∈ prc_roles c ∧ pr_archived r = false;
  cw_mapped : ∀ m, m ∈ prc_mappings c → spm_role_id m ∈ pr_id <$> prc_roles c;
  cw_keys : NoDup (mapping_key <$> prc_mappings c);
}.

(** With distinct identifiers in order, only a name can be refused. *)
Lemma validate_roles_cases roles : ∀ ids names n,
  NoDup (pr_id <$> roles) → (∀ x, x ∈ pr_id <$> roles → x ∉ ids) → ordered n roles →
  match validate_roles to_lowercase ids names n roles with
  | Ok ids' => ids' = list_to_set (pr_id <$> roles) ∪ ids ∧ NoDup (lower_names roles) ∧
      (∀ x, x ∈ lower_names roles → x ∉ names)
  | Err e => e = PRCDuplicateDisplayName ∧
      ¬ (NoDup (lower_names roles) ∧ ∀ x, x ∈ lower_names roles → x ∉ names)
  end.
Proof.
  induction roles as [|r roles IH]; intros ids names n Hd Hi Ho; cbn [validate_roles].
  { split_and!; [set_solver|constructor|set_solver]. }
  rewrite fmap_cons, NoDup_cons in Hd. destruct Hd as [Hr Hd].
  apply ordered_cons in Ho as [E Ho].
  rewrite bool_decide_false by (apply Hi; rewrite fmap_cons; set_solver).
  change (lower_names (r :: roles)) with (to_lowercase (pr_display_name r) :: lower_names roles).
  case_bool_decide as Hn.
  { split; [done|]. intros [_ Hx]. apply (Hx (to_lowercase (pr_display_name r))); set_solver. }
  rewrite (proj2 (Z.eqb_eq _ _)) by lia. cbn [negb].
  specialize (IH ({[pr_id r]} ∪ ids) ({[to_lowercase (pr_display_name r)]} ∪ names) (n + 1) Hd).
  destruct (validate_roles to_lowercase _ _ (n + 1) roles) as [ids'|e].
  - destruct IH as (-> & H1 & H2); [|done|].
    { intros x Hx. rewrite elem_of_union, elem_of_singleton. intros [->|Hx']; [done|].
      apply (Hi x); [rewrite fmap_cons; set_solver|done]. }
    split_and!; [set_solver|apply NoDup_cons; set_solver|set_solver].
  - destruct IH as [-> H2]; [|done|].
    { intros x Hx. rewrite elem_of_union, elem_of_singleton. intros [->|Hx']; [done|].
      apply (Hi x); [rewrite fmap_cons; set_solver|done]. }
    split; [done|]. intros ([H3 H4]%NoDup_cons & H5). apply H2. split; [done|].
    intros x Hx. rewrite elem_of_union, elem_of_singleton. intros [->|Hx']; [done|].
    apply (H5 x); set_solver.
Qed.

Lemma validate_roles_Ok roles : ∀ ids names n ids',
  validate_roles to_lowercase ids names n roles = Ok ids' →
  NoDup (pr_id <$> roles) ∧ (∀ x, x ∈ pr_id <$> roles → x ∉ ids) ∧ ordered n roles.
Proof.
  induction roles as [|r roles IH]; intros ids names n ids'; cbn [validate_roles].
  { intros _. split_and!; [constructor|set_solver|done]. }
  case_bool_decide as Hi; [done|]. case_bool_decide as Hn; [done|].
  destruct (Z.eqb_spec (pr_sort_order r) (n + 1)); cbn [negb]; [|done].
  intros (H1 & H2 & H3)%IH. rewrite fmap_cons, NoDup_cons, ordered_cons.
  split_and!; [intros Hr; apply (H2 _ Hr); set_solver|done| |done|done].
  intros x [->|Hx]%elem_of_cons; [done|]. intros Hx'. apply (H2 _ Hx). set_solver.
Qed.

Lemma validate_mappings_Ok ids mappings : ∀ keys,
  validate_mappings ids keys mappings = Ok tt ↔
  (∀ m, m ∈ mappings → spm_role_id m ∈ ids) ∧ NoDup (mapping_key <$> mappings) ∧
  (∀ k, k ∈ mapping_key <$> mappings → k ∉ keys).
Proof.
  induction mappings as [|m mappings IH]; intros keys; cbn [validate_mappings].
  { split; [|done]. intros _. split_and!; [set_solver|constructor|set_solver]. }
  rewrite fmap_cons, NoDup_cons. case_bool_decide as Hr; cbn [negb].
  2:{ split; [done|]. intros (Hx & _). destruct Hr. apply Hx. set_solver. }
  case_bool_decide as Hk.
  { split; [done|]. intros (_ & _ & Hx). exfalso. apply (Hx (mapping_key m)); set_solver. }
  rewrite IH. split.
  - intros (H1 & H2 & H3). split_and!; [|intros Hin; apply (H3 _ Hin); set_solver|done|].
    + intros x [->|Hx]%elem_of_cons; [done|auto].
    + intros k [->|Hx]%elem_of_cons; [done|]. intros Hx'. apply (H3 _ Hx). set_solver.
  - intros (H1 & (H2 & H3) & H4). split_and!; [intros x Hx; apply H1; by right|done|].
    intros k Hin. rewrite elem_of_union, elem_of_singleton. intros [->|Hx]; [done|].
    apply (H4 k); [by right|done].
Qed.

(** What a new revision of the catalogue answers, given the parts an edit keeps. *)
Lemma role_revised_cases c roles mappings :
  0 < prc_revision c → roles ≠ [] → NoDup (pr_id <$> roles) → ordered 0 roles →
  (∀ m, m ∈ mappings → spm_role_id m ∈ pr_id <$> roles) → NoDup (mapping_key <$> mappings) →
  match role_revised to_lowercase c roles mappings with
  | Ok c' => c' = mkPhraseRoleCatalog (prc_revision c + 1) (prc_defaults_version c) roles mappings ∧
      catalog_wf c'
  | Err e => e = PRCArithmeticOverflow ∧ U64_MAX < prc_revision c + 1 ∨
      e = PRCDuplicateDisplayName ∧ ¬ NoDup (lower_names roles) ∨
      e = PRCNoActiveRoles ∧ ¬ ∃ r, r ∈ roles ∧ pr_archived r = false
  end.
Proof.
  intros Hr Hn Hi Ho Hm Hk. unfold role_revised.
  destruct (checked_add_u64 (prc_revision c) 1) as [rev|] eqn:Hrev; cbn [ok_or result_bind].
  2:{ left. split; [done|]. unfold checked_add_u64 in Hrev.
      destruct (Z.leb_spec (prc_revision c + 1) U64_MAX); [done|lia]. }
  apply checked_add_u64_Some in Hrev as [-> _]. unfold PhraseRoleCatalog_try_new.
  rewrite (proj2 (Z.eqb_neq _ _)) by lia. cbn [andb].
  rewrite (bool_decide_false (roles = [])) by done. rewrite andb_false_r.
  pose proof (validate_roles_cases roles ∅ ∅ 0 Hi ltac:(set_solver) Ho) as Hv.
  destruct (validate_roles to_lowercase ∅ ∅ 0 roles) as [ids|e]; cbn [result_bind].
  2:{ right. left. destruct Hv as [-> Hv]. split; [done|]. intros Hd. apply Hv. set_solver. }
  destruct Hv as (-> & Hd & _). cbn [negb andb].
  destruct (forallb pr_archived roles) eqn:Ha.
  { right. right. split; [done|]. intros (r & Hin & Hf). rewrite forallb_forall in Ha.
    apply list_elem_of_In in Hin. by rewrite (Ha r Hin) in Hf. }
  rewrite (proj2 (validate_mappings_Ok _ mappings ∅)) by (split_and!; [set_solver|done|set_solver]).
  cbn [result_bind]. split; [done|]. split; simpl; try done; [lia|].
  intros _. apply not_true_iff_false in Ha. rewrite forallb_forall in Ha.
  destruct (decide (Exists (λ r, pr_archived r = false) roles)) as [He|He].
  { apply Exists_exists in He. exact He. }
  destruct Ha. intros r Hin. apply list_elem_of_In in Hin.
  destruct (pr_archived r) eqn:Hr'; [done|]. destruct He. apply Exists_exists. eauto.
Qed.

(** ** Identifiers of new roles *)

Lemma custom_id_valid suffix : in_u64 suffix →
  text_identifier_try_new "phrase role id" (custom_id suffix) = Ok (custom_id suffix).
Proof.
  intros Hs. unfold text_identifier_try_new.
  assert (str_is_blank (custom_id suffix) = false) as ->.
  { apply not_true_iff_false. rewrite str_is_blank_spec. unfold custom_id.
    intros [Hb _]%Forall_app. apply (bool_decide_pack _) in Hb. by vm_compute in Hb. }
  rewrite (proj2 (Z.ltb_ge _ _)); [done|].
  assert (Hc : ∀ fuel n acc, Forall (λ ch : Z, 0 ≤ ch < 128) acc → 0 ≤ n →
    Forall (λ ch : Z, 0 ≤ ch < 128) (show_digits fuel n acc) ∧
    (length (show_digits fuel n acc) ≤ fuel + length acc)%nat).
  { induction fuel as [|fuel IH]; intros n acc Ha Hn; cbn [show_digits]; [split; [done|lia]|].
    pose proof (Z.mod_pos_bound n 10).
    assert (Forall (λ ch : Z, 0 ≤ ch < 128) ((48 + n mod 10) :: acc)) by (constructor; [lia|done]).
    destruct (n <? 10); [split; [done|simpl; lia]|].
    destruct (IH (n / 10) ((48 + n mod 10) :: acc)) as [? Hl]; [done|apply Z.div_pos; lia|].
    split; [done|]. simpl in Hl. lia. }
  destruct (Hc 20%nat suffix [] ltac:(constructor) ltac:(apply Hs)) as [Hf Hl].
  assert (Hlen : ∀ s, Forall (λ ch : Z, 0 ≤ ch < 128) s → str_len s = Z.of_nat (length s)).
  { induction 1 as [|x s Hx _ IH]; [done|]. simpl. rewrite IH. unfold char_len_utf8.
    rewrite (proj2 (Z.ltb_lt _ _)) by lia. lia. }
  rewrite Hlen.
  - unfold custom_id, show_u. rewrite length_app.
    change (length (lit "custom-")) with 7%nat. change (length (@nil Z)) with 0%nat in Hl. lia.
  - unfold custom_id. apply Forall_app. split; [|exact Hf].
    apply (bool_decide_unpack _). vm_compute. exact I.
Qed.

Lemma custom_id_inj m n : in_u64 m → in_u64 n → custom_id m = custom_id n → m = n.
Proof. unfold custom_id. intros ? ? E%app_inv_head. by apply show_u_inj. Qed.

(** Distinct suffixes below a free one are taken, so there is one within reach. *)
Lemma custom_id_total roles : ∀ fuel suffix (taken : list str),
  NoDup taken → (∀ x, x ∈ taken → x ∈ pr_id <$> roles) →
  (∀ n, suffix ≤ n → in_u64 n → custom_id n ∉ taken) →
  0 ≤ suffix → suffix + Z.of_nat fuel ≤ U64_MAX →
  (length roles < length taken + fuel)%nat →
  ∃ id, custom_id_loop fuel suffix roles = Ok id ∧ id ∉ pr_id <$> roles.
Proof.
  induction fuel as [|fuel IH]; intros suffix taken Hd Hin Hfree H0 Hmax Hlen.
  { pose proof (NoDup_submseteq _ _ Hd Hin) as Hs%submseteq_length.
    rewrite length_fmap in Hs. lia. }
  cbn [custom_id_loop]. rewrite custom_id_valid by (unfold in_u64; lia). cbn [map_err result_bind].
  destruct (existsb (λ role, bool_decide (pr_id role = custom_id suffix)) roles) eqn:Hx; cbn [negb].
  - assert (checked_add_u64 suffix 1 = Some (suffix + 1)) as -> by (apply checked_add_u64_Some; lia).
    cbn [ok_or result_bind]. apply (IH _ (custom_id suffix :: taken)); try lia; [| | |simpl; lia].
    + constructor; [apply Hfree; unfold in_u64; lia|done].
    + intros x [->|?]%elem_of_cons; [|auto]. apply existsb_exists in Hx as (r & Hr & Hid).
      apply bool_decide_eq_true in Hid as <-. apply list_elem_of_In in Hr.
      by apply list_elem_of_fmap_2.
    + intros n Hn Hu [E|E]%elem_of_cons; [|eapply (Hfree n); [lia|done|done]].
      apply custom_id_inj in E; unfold in_u64 in *; lia.
  - exists (custom_id suffix). split; [done|]. intros (r & E & Hr)%list_elem_of_fmap.
    apply not_true_iff_false in Hx. apply Hx, existsb_exists. exists r.
    apply list_elem_of_In in Hr. split; [done|]. by apply bool_decide_eq_true.
Qed.

(** ** Edits *)

Lemma position_Some {A} (f : A → bool) l i :
  position f l = Some i → ∃ x, l !! i = Some x ∧ f x = true.
Proof.
  revert i. induction l as [|x l IH]; intros i; simpl; [done|].
  destruct (f x) eqn:E; [intros [= <-]; eauto|].
  destruct (position f l) as [j|]; [|done]. intros [= <-]. apply (IH j eq_refl).
Qed.

Lemma position_None {A} (f : A → bool) l x : position f l = None → x ∈ l → f x = false.
Proof.
  induction l as [|y l IH]; simpl; intros H Hx; [by apply not_elem_of_nil in Hx|].
  destruct (f y) eqn:E; [done|]. destruct (position f l); [done|].
  apply elem_of_cons in Hx as [->|Hx]; auto.
Qed.

Lemma role_index_Ok c role_id index role :
  role_index c role_id = Ok (index, role) → prc_roles c !! index = Some role ∧ pr_id role = role_id.
Proof.
  unfold role_index. destruct (position _ _) as [i|] eqn:Hp; [|done].
  apply position_Some in Hp as (x & Hx & Hb). rewrite Hx. cbn. intros [= <- <-].
  by apply bool_decide_eq_true in Hb.
Qed.

Lemma role_index_Err c role_id e : role_index c role_id = Err e → e = PRCUnknownRole.
Proof.
  unfold role_index. destruct (position _ _) as [i|]; [|by intros [= <-]].
  destruct (prc_roles c !! i); by intros [= <-].
Qed.

Inductive RoleEdit : Type :=
| EditAdd (display_name : str)
| EditRename (role_id : PhraseRoleId) (display_name : str)
| EditMove (role_id : PhraseRoleId) (direction : PhraseRoleMove)
| EditArchive (role_id : PhraseRoleId) (archived : bool)
| EditColor (role_id : PhraseRoleId) (color_rgb : Z)
| EditMapping (mapping : SourcePhraseMapping).

Definition apply_role_edit c (edit : RoleEdit) : result PhraseRoleCatalog PhraseRoleCatalogError :=
  match edit with
  | EditAdd name => add_role to_lowercase c name
  | EditRename id name => rename_role to_lowercase c id name
  | EditMove id direction => move_role to_lowercase c id direction
  | EditArchive id archived => set_archived to_lowercase c id archived
  | EditColor id color => set_color_rgb to_lowercase c id color
  | EditMapping mapping => upsert_mapping to_lowercase c mapping
  end.

(** The errors an edit may give: what its caller did, or a full counter. *)
Definition edit_errors (edit : RoleEdit) : list PhraseRoleCatalogError :=
  PRCArithmeticOverflow :: match edit with
  | EditAdd _ => [PRCEmptyDisplayName; PRCDisplayNameTooLong; PRCDuplicateDisplayName; PRCTooManyRoles]
  | EditRename _ _ =>
      [PRCEmptyDisplayName; PRCDisplayNameTooLong; PRCDuplicateDisplayName; PRCUnknownRole; PRCNoChange]
  | EditMove _ _ => [PRCUnknownRole; PRCNoChange]
  | EditArchive _ _ => [PRCUnknownRole; PRCNoChange; PRCNoActiveRoles]
  | EditColor _ _ => [PRCUnknownRole; PRCNoChange; PRCInvalidColor]
  | EditMapping _ => [PRCUnknownRole; PRCNoChange]
  end.

Definition catalog_ok c : Prop :=
  catalog_wf c ∧ 0 < prc_revision c ∧ Forall role_valid (prc_roles c).

Definition edit_answer c (edit : RoleEdit) (r : result PhraseRoleCatalog PhraseRoleCatalogError) :
    Prop :=
  match r with
  | Ok c' => catalog_ok c' ∧ prc_revision c' = prc_revision c + 1 ∧
      prc_defaults_version c' = prc_defaults_version c
  | Err e => e ∈ edit_errors edit
  end.

(** An edit whose new parts are sound answers as it should, if the name and activity
    errors are among its own. *)
Lemma role_revised_answer c edit roles mappings :
  catalog_ok c → roles ≠ [] → NoDup (pr_id <$> roles) → ordered 0 roles → Forall role_valid roles →
  (∀ m, m ∈ mappings → spm_role_id m ∈ pr_id <$> roles) → NoDup (mapping_key <$> mappings) →
  NoDup (lower_names roles) ∨ PRCDuplicateDisplayName ∈ edit_errors edit →
  (∃ r, r ∈ roles ∧ pr_archived r = false) ∨ PRCNoActiveRoles ∈ edit_errors edit →
  edit_answer c edit (role_revised to_lowercase c roles mappings).
Proof.
  intros (Hwf & Hr & Hv) Hn Hi Ho Hrv Hm Hk Hname Hact.
  pose proof (role_revised_cases c roles mappings Hr Hn Hi Ho Hm Hk) as Hc.
  destruct (role_revised to_lowercase c roles mappings) as [c'|e]; simpl.
  - destruct Hc as [-> Hwf']. unfold catalog_ok. simpl. split_and!; try done; lia.
  - destruct Hc as [[-> _]|[[-> Hd]|[-> Ha]]]; [by left|naive_solver|naive_solver].
Qed.

(** Replacing a role by one with the same identifier and order. *)
Lemma insert_role_parts roles i r r' :
  roles !! i = Some r → pr_id r' = pr_id r → pr_sort_order r' = pr_sort_order r →
  pr_id <$> <[i := r']> roles = pr_id <$> roles ∧
  (ordered 0 roles → ordered 0 (<[i := r']> roles)).
Proof.
  intros Hi Hid Hso. split.
  - rewrite list_fmap_insert, Hid. apply list_insert_id. by rewrite list_lookup_fmap, Hi.
  - intros Ho j x. destruct (decide (i = j)) as [<-|Hij].
    + rewrite list_lookup_insert_eq by (by eapply lookup_lt_Some).
      intros [= <-]. rewrite Hso. by apply Ho.
    + rewrite list_lookup_insert_ne by done. apply Ho.
Qed.

Lemma insert_role_answer c edit i r r' :
  catalog_ok c → prc_roles c !! i = Some r → pr_id r' = pr_id r →
  pr_sort_order r' = pr_sort_order r → role_valid r' →
  pr_display_name r' = pr_display_name r ∨ PRCDuplicateDisplayName ∈ edit_errors edit →
  pr_archived r' = pr_archived r ∨ PRCNoActiveRoles ∈ edit_errors edit →
  edit_answer c edit (role_revised to_lowercase c (<[i := r']> (prc_roles c)) (prc_mappings c)).
Proof.
  intros Hok Hi Hid Hso Hv Hname Harch. pose proof Hok as (Hwf & Hr & Hrv).
  destruct (insert_role_parts _ _ _ _ Hi Hid Hso) as [Hids Hord].
  apply role_revised_answer; try done.
  - intros E. apply (f_equal length) in E. rewrite length_insert in E.
    apply (cw_roles c Hwf Hr). by destruct (prc_roles c).
  - rewrite Hids. apply Hwf.
  - apply Hord, Hwf.
  - apply Forall_insert; [done|done].
  - rewrite Hids. apply Hwf.
  - apply Hwf.
  - destruct Hname as [Hname|]; [left|by right]. unfold lower_names.
    rewrite list_fmap_insert, Hname, list_insert_id; [apply Hwf|].
    by rewrite list_lookup_fmap, Hi.
  - destruct Harch as [Harch|]; [left|by right].
    destruct (cw_active c Hwf (cw_roles c Hwf Hr)) as (x & Hx & Hxa).
    apply list_elem_of_lookup in Hx as [j Hj]. destruct (decide (i = j)) as [<-|Hij].
    + exists r'. split; [|congruence]. eapply list_elem_of_lookup_2.
      apply list_lookup_insert_eq. by eapply lookup_lt_Some.
    + exists x. split; [|done]. eapply list_elem_of_lookup_2. by rewrite list_lookup_insert_ne.
Qed.

Lemma validated_name_errors s e :
  validated_display_name s = Err e → e = PRCEmptyDisplayName ∨ e = PRCDisplayNameTooLong.
Proof. unfold validated_display_name. repeat case_match; naive_solver. Qed.

Lemma default_color_bound id : default_phrase_role_color_rgb id ≤ 0xffffff.
Proof.
  unfold default_phrase_role_color_rgb. destruct (List.find _ role_colors) as [[names color]|] eqn:Hf;
    [|vm_compute; discriminate].
  apply find_some in Hf as [Hin _]. change (Forall (λ x : list string * Z, x.2 ≤ 0xffffff) role_colors)
    with (Forall (λ x : list string * Z, x.2 ≤ 0xffffff) role_colors).
  assert (Forall (λ x : list string * Z, x.2 ≤ 0xffffff) role_colors) as Hall
    by (apply (bool_decide_unpack _); vm_compute; exact I).
  rewrite Forall_forall in Hall. apply list_elem_of_In in Hin. by apply Hall in Hin.
Qed.

Lemma role_count c : catalog_ok c → Z.of_nat (length (prc_roles c)) ≤ U16_MAX.
Proof.
  intros (Hwf & _ & Hv). destruct (last (prc_roles c)) as [r|] eqn:Hl.
  2:{ apply last_None in Hl. rewrite Hl. unfold U16_MAX. simpl. lia. }
  rewrite last_lookup in Hl. pose proof (cw_order c Hwf _ _ Hl) as Ho.
  pose proof (Forall_lookup_1 _ _ _ _ Hv Hl) as [_ Hs _]. lia.
Qed.

Lemma add_role_answer c name : catalog_ok c → edit_answer c (EditAdd name) (add_role to_lowercase c name).
Proof.
  intros Hok. pose proof Hok as (Hwf & Hr & Hv). pose proof (role_count c Hok) as Hcount. unfold add_role.
  destruct (validated_display_name name) as [n|e] eqn:Hn; cbn [result_bind].
  2:{ apply validated_name_errors in Hn as [-> | ->]; set_solver. }
  unfold ensure_unique_name. destruct (existsb _ _); cbn [result_bind]; [set_solver|].
  destruct (custom_id_total (prc_roles c) (S (length (prc_roles c))) 1 []) as (id & Hid & Hfresh);
    [constructor|set_solver|set_solver|lia|unfold U16_MAX, U64_MAX in *; lia|simpl; lia|].
  rewrite Hid. cbn [result_bind].
  destruct (Z.ltb_spec U16_MAX (Z.of_nat (length (prc_roles c) + 1))); [set_solver|].
  unfold PhraseRole_try_new, PhraseRole_try_new_with_color_rgb.
  rewrite (validated_display_name_idem _ _ Hn). cbn [result_bind].
  pose proof (default_color_bound id).
  rewrite (proj2 (Z.eqb_neq _ _)), (proj2 (Z.ltb_ge _ _)) by lia. cbn [result_bind].
  apply role_revised_answer; try done.
  - by destruct (prc_roles c).
  - rewrite fmap_app. apply NoDup_app. split; [apply Hwf|]. split; [set_solver|].
    simpl. apply NoDup_singleton.
  - intros i x. rewrite lookup_app_Some. intros [Hx|[Hi Hx]]; [by apply Hwf|].
    destruct (i - length (prc_roles c))%nat eqn:Hj; simpl in Hx; [|by rewrite lookup_nil in Hx].
    simplify_eq. simpl. lia.
  - apply Forall_app. split; [done|]. constructor; [|constructor].
    split; simpl; [by apply (validated_display_name_idem name)|lia|done].
  - intros m Hm. rewrite fmap_app. apply elem_of_app. left. by apply Hwf.
  - apply Hwf.
  - right. set_solver.
  - left. destruct (cw_active c Hwf (cw_roles c Hwf Hr)) as (x & Hx & Hxa). exists x.
    rewrite elem_of_app. auto.
Qed.

Lemma index_answer c edit role_id f :
  PRCUnknownRole ∈ edit_errors edit →
  (∀ i r, prc_roles c !! i = Some r → pr_id r = role_id → edit_answer c edit (f (i, r))) →
  edit_answer c edit (result_bind (role_index c role_id) f).
Proof.
  intros He Hf. destruct (role_index c role_id) as [[i r]|e] eqn:Hi; cbn [result_bind].
  - apply role_index_Ok in Hi as [? ?]. by apply Hf.
  - by apply role_index_Err in Hi as ->.
Qed.

Lemma rename_role_answer c id name :
  catalog_ok c → edit_answer c (EditRename id name) (rename_role to_lowercase c id name).
Proof.
  intros Hok. unfold rename_role.
  destruct (validated_display_name name) as [n|e] eqn:Hn; cbn [result_bind].
  2:{ apply validated_name_errors in Hn as [-> | ->]; set_solver. }
  unfold ensure_unique_name. destruct (existsb _ _); cbn [result_bind]; [set_solver|].
  apply index_answer; [set_solver|]. intros i r Hi _. case_bool_decide; [set_solver|].
  pose proof (Forall_lookup_1 _ _ _ _ (proj2 (proj2 Hok)) Hi) as [Hv1 Hv2 Hv3].
  unfold with_display_name. rewrite PhraseRole_rebuild;
    [|by split|by apply (validated_display_name_idem name)|lia|done]. cbn [result_bind].
  eapply insert_role_answer; try done; [|right; set_solver|by left].
  split; simpl; [by apply (validated_display_name_idem name)|done|done].
Qed.

Lemma set_archived_answer c id archived :
  catalog_ok c → edit_answer c (EditArchive id archived) (set_archived to_lowercase c id archived).
Proof.
  intros Hok. unfold set_archived. apply index_answer; [set_solver|]. intros i r Hi _.
  destruct (Bool.eqb _ _); [set_solver|].
  pose proof (Forall_lookup_1 _ _ _ _ (proj2 (proj2 Hok)) Hi) as [Hv1 Hv2 Hv3].
  unfold with_archived. rewrite PhraseRole_rebuild; [|by split|done|lia|done]. cbn [result_bind].
  eapply insert_role_answer; try done; [by left|right; set_solver].
Qed.

Lemma set_color_answer c id color :
  catalog_ok c → edit_answer c (EditColor id color) (set_color_rgb to_lowercase c id color).
Proof.
  intros Hok. unfold set_color_rgb. apply index_answer; [set_solver|]. intros i r Hi _.
  destruct (_ =? _); [set_solver|].
  pose proof (Forall_lookup_1 _ _ _ _ (proj2 (proj2 Hok)) Hi) as [Hv1 Hv2 Hv3].
  destruct (Z.ltb_spec 0xffffff color) as [Hc|Hc].
  { unfold with_color_rgb, PhraseRole_try_new_with_color_rgb. rewrite Hv1. cbn [result_bind].
    rewrite (proj2 (Z.eqb_neq _ _)), (proj2 (Z.ltb_lt _ _)) by lia. set_solver. }
  unfold with_color_rgb. rewrite PhraseRole_rebuild; [|by split|done|lia|done]. cbn [result_bind].
  eapply insert_role_answer; try done; by left.
Qed.

(** *** Moving *)

Lemma swap_perm {A} i j (l : list A) : swap i j l ≡ₚ l.
Proof.
  unfold swap. destruct (l !! i) as [x|] eqn:Hi, (l !! j) as [y|] eqn:Hj; try done.
  destruct (decide (i = j)) as [<-|Hij].
  { simplify_eq. rewrite list_insert_insert_eq, list_insert_id; done. }
  apply Permutation_inj. split.
  { by rewrite !length_insert. }
  exists (λ k, if decide (k = i) then j else if decide (k = j) then i else k). split.
  - intros a b. repeat case_decide; naive_solver.
  - intros k. assert (i < length l ∧ j < length l)%nat by (split; by eapply lookup_lt_Some).
    repeat case_decide; subst.
    + by rewrite list_lookup_insert_eq by (rewrite length_insert; lia).
    + rewrite list_lookup_insert_ne by done. by rewrite list_lookup_insert_eq by lia.
    + by rewrite !list_lookup_insert_ne by done.
Qed.

Definition reordered (r r' : PhraseRole) : Prop :=
  pr_id r' = pr_id r ∧ pr_display_name r' = pr_display_name r ∧ pr_archived r' = pr_archived r.

Lemma renumber_total roles : ∀ n,
  0 ≤ n → Forall role_valid roles → n + Z.of_nat (length roles) ≤ U16_MAX →
  ∃ roles', renumber n roles = Ok roles' ∧ Forall2 reordered roles roles' ∧
    ordered n roles' ∧ Forall role_valid roles'.
Proof.
  induction roles as [|r roles IH]; intros n Hn Hv Hl; cbn [renumber]; [by exists []|].
  apply Forall_cons in Hv as [Hr Hv]. cbn [length] in Hl.
  rewrite (proj2 (Z.ltb_ge _ _)) by lia. pose proof Hr as [H1 H2 H3].
  unfold with_sort_order. rewrite PhraseRole_rebuild by (done || lia). cbn [result_bind].
  destruct (IH (n + 1)) as (roles' & -> & Hf & Ho & Hv'); [lia|done|lia|]. cbn [result_bind].
  eexists. split; [done|]. split_and!.
  - by constructor.
  - apply ordered_cons. split; [done|]. done.
  - constructor; [|done]. split; simpl; [done|lia|done].
Qed.

Lemma reordered_fmap {B} (f : PhraseRole → B) roles roles' :
  (∀ r r', reordered r r' → f r' = f r) → Forall2 reordered roles roles' →
  f <$> roles' = f <$> roles.
Proof. intros Hf. induction 1; [done|]. rewrite !fmap_cons. f_equal; auto. Qed.

Lemma move_role_answer c id direction :
  catalog_ok c → edit_answer c (EditMove id direction) (move_role to_lowercase c id direction).
Proof.
  intros Hok. pose proof Hok as (Hwf & Hr & Hv). unfold move_role.
  apply index_answer; [set_solver|]. intros i r Hi _.
  destruct (match direction with RoleEarlier => _ | RoleLater => _ end) as [other|];
    cbn [ok_or result_bind]; [|set_solver].
  pose proof (swap_perm i other (prc_roles c)) as Hp. set (l := swap i other (prc_roles c)) in *.
  destruct (renumber_total l 0) as (l' & -> & Hf & Ho & Hv');
    [lia|by rewrite Hp|rewrite Hp; by apply role_count|]. cbn [result_bind].
  assert (Hids : pr_id <$> l' ≡ₚ pr_id <$> prc_roles c).
  { rewrite (reordered_fmap pr_id l l'); [by rewrite Hp| |done]. by intros ? ? (? & _). }
  assert (Hnames : lower_names l' ≡ₚ lower_names (prc_roles c)).
  { unfold lower_names. rewrite (reordered_fmap _ l l'); [by rewrite Hp| |done].
    by intros ? ? (_ & -> & _). }
  assert (Harch : pr_archived <$> l' ≡ₚ pr_archived <$> prc_roles c).
  { rewrite (reordered_fmap pr_archived l l'); [by rewrite Hp| |done]. by intros ? ? (_ & _ & ?). }
  apply role_revised_answer; try done.
  - intros ->. symmetry in Hids. apply Permutation_nil_r, fmap_nil_inv in Hids.
    by apply (cw_roles c Hwf Hr).
  - rewrite Hids. apply Hwf.
  - intros m Hm. rewrite Hids. by apply Hwf.
  - apply Hwf.
  - left. rewrite Hnames. apply Hwf.
  - left. destruct (cw_active c Hwf (cw_roles c Hwf Hr)) as (x & Hx & Hxa).
    apply (list_elem_of_fmap_2 pr_archived) in Hx. rewrite Hxa, <- Harch in Hx.
    apply list_elem_of_fmap in Hx as (y & Hy & ?). eauto.
Qed.

(** *** Mappings *)

Lemma upsert_mappings_keys c mapping mappings :
  catalog_wf c →
  match position (λ candidate, eq_ignore_ascii_case (spm_provider_kind candidate)
            (to_ascii_lowercase (spm_provider_kind mapping))
          && bool_decide (normalized_label candidate = normalized_label mapping)) (prc_mappings c) with
  | Some index => mappings = <[index := mapping]> (prc_mappings c)
  | None => mappings = sort_by mapping_leb (prc_mappings c ++ [mapping])
  end →
  NoDup (mapping_key <$> mappings) ∧ mapping ∈ mappings ∧
  (∀ m, m ∈ mappings → m = mapping ∨ m ∈ prc_mappings c) ∧
  (∀ m, m ∈ prc_mappings c → mapping_key m ≠ mapping_key mapping → m ∈ mappings).
Proof.
  intros Hwf Hm. pose proof (cw_keys c Hwf) as Hk.
  assert (Hsame : ∀ m, eq_ignore_ascii_case (spm_provider_kind m)
      (to_ascii_lowercase (spm_provider_kind mapping))
    && bool_decide (normalized_label m = normalized_label mapping) = true ↔
    mapping_key m = mapping_key mapping).
  { intros m. unfold eq_ignore_ascii_case, mapping_key.
    rewrite andb_true_iff, !bool_decide_eq_true, to_ascii_lowercase_idem.
    split; [by intros [-> ->]|by intros [= -> ->]]. }
  destruct (position _ _) as [i|] eqn:Hp; subst mappings.
  - apply position_Some in Hp as (old & Hi & Hold%Hsame).
    split_and!.
    + rewrite list_fmap_insert, <- Hold, list_insert_id; [done|].
      by rewrite list_lookup_fmap, Hi.
    + eapply list_elem_of_lookup_2, list_lookup_insert_eq. by eapply lookup_lt_Some.
    + intros m [j Hj]%list_elem_of_lookup. destruct (decide (i = j)) as [<-|Hij].
      * rewrite list_lookup_insert_eq in Hj by (by eapply lookup_lt_Some). left. congruence.
      * rewrite list_lookup_insert_ne in Hj by done. right. by eapply list_elem_of_lookup_2.
    + intros m [j Hj]%list_elem_of_lookup Hne. eapply (list_elem_of_lookup_2 _ j).
      rewrite list_lookup_insert_ne; [done|]. intros ->. apply Hne. congruence.
  - assert (Hfresh : mapping_key mapping ∉ mapping_key <$> prc_mappings c).
    { intros (m & E & Hin)%list_elem_of_fmap. pose proof (position_None _ _ _ Hp Hin) as Hf.
      cbv beta in Hf. by rewrite (proj2 (Hsame m)) in Hf. }
    split_and!.
    + rewrite sort_by_perm, fmap_app. apply NoDup_app. split; [done|]. split; [|apply NoDup_singleton].
      intros x Hx Hx'. apply list_elem_of_singleton in Hx' as ->. done.
    + rewrite sort_by_perm. apply elem_of_app. right. by apply list_elem_of_singleton.
    + intros m. rewrite sort_by_perm, elem_of_app, list_elem_of_singleton. tauto.
    + intros m Hin _. rewrite sort_by_perm, elem_of_app. by left.
Qed.

Lemma upsert_mapping_answer c mapping :
  catalog_ok c → edit_answer c (EditMapping mapping) (upsert_mapping to_lowercase c mapping).
Proof.
  intros Hok. pose proof Hok as (Hwf & Hr & Hv). unfold upsert_mapping.
  destruct (existsb _ _) eqn:Hex; cbn [negb]; [|set_solver].
  apply existsb_exists in Hex as (r & Hin & Hid). apply bool_decide_eq_true in Hid.
  apply list_elem_of_In in Hin. cbv zeta.
  pose proof (upsert_mappings_keys c mapping) as Hu.
  destruct (position _ _) as [i|]; [case_bool_decide; [set_solver|]|];
    (destruct (Hu _ Hwf eq_refl) as (Hk & _ & Hold & _);
     apply role_revised_answer;
       [exact Hok|apply (cw_roles c Hwf Hr)|apply Hwf|apply Hwf|exact Hv| |exact Hk|left; apply Hwf
       |left; apply (cw_active c Hwf), (cw_roles c Hwf Hr)];
     intros m Hm; destruct (Hold m Hm) as [->|]; [|by apply Hwf];
     rewrite <- Hid; by apply list_elem_of_fmap_2).
Qed.

(** Catalogue edits are safe.  Every edit of a well-formed catalogue (add, rename,
    move, archive, recolour, map a label) answers with a well-formed catalogue of the
    next revision, or with one of the errors its caller is responsible for, or with
    the overflow of the revision: never with a broken order, identifier or mapping.
    The search for a free identifier of a new role always ends. *)
Theorem role_edits_safe c edit : catalog_ok c → edit_answer c edit (apply_role_edit c edit).
Proof.
  intros Hok. destruct edit; simpl.
  - by apply add_role_answer.
  - by apply rename_role_answer.
  - by apply move_role_answer.
  - by apply set_archived_answer.
  - by apply set_color_answer.
  - by apply upsert_mapping_answer.
Qed.

(** ** Resolving labels *)

Definition find_mapping (key : str * str) (mappings : list SourcePhraseMapping) :
    option SourcePhraseMapping := List.find (λ m, bool_decide (mapping_key m = key)) mappings.

Lemma find_ext {A} (f g : A → bool) l : (∀ x, f x = g x) → List.find f l = List.find g l.
Proof. intros H. induction l as [|x l IH]; simpl; [done|]. by rewrite H, IH. Qed.

Lemma role_resolve_keys c provider label :
  role_resolve c provider label =
  spm_role_id <$>
    match find_mapping (to_ascii_lowercase provider, normalize_source_label label) (prc_mappings c) with
    | Some m => Some m
    | None => find_mapping (to_ascii_lowercase provider, lit "*") (prc_mappings c)
    end.
Proof.
  unfold role_resolve, find_mapping. f_equal.
  assert (Hf : ∀ l m, eq_ignore_ascii_case (spm_provider_kind m) provider
      && bool_decide (normalized_label m = l) =
    bool_decide (mapping_key m = (to_ascii_lowercase provider, l))).
  { intros l m. unfold eq_ignore_ascii_case, mapping_key. rewrite <- bool_decide_and.
    apply bool_decide_ext. split; [by intros [-> ->]|by intros [= -> ->]]. }
  by rewrite !(find_ext _ _ _ (Hf _)).
Qed.

Lemma find_mapping_Some key mappings m :
  NoDup (mapping_key <$> mappings) →
  find_mapping key mappings = Some m ↔ m ∈ mappings ∧ mapping_key m = key.
Proof.
  unfold find_mapping. intros Hd. split.
  - intros [Hin Hb]%find_some. apply bool_decide_eq_true in Hb. by apply list_elem_of_In in Hin.
  - intros [Hin <-]. induction mappings as [|x l IH]; [by apply not_elem_of_nil in Hin|].
    rewrite fmap_cons, NoDup_cons in Hd. destruct Hd as [Hx Hd]. cbn [List.find].
    apply elem_of_cons in Hin as [<-|Hin]; [by rewrite bool_decide_true|].
    rewrite bool_decide_false; [by apply IH|]. intros E. apply Hx. rewrite E.
    by apply list_elem_of_fmap_2.
Qed.

Lemma find_mapping_ext key l k :
  NoDup (mapping_key <$> l) → NoDup (mapping_key <$> k) →
  (∀ m, mapping_key m = key → m ∈ l ↔ m ∈ k) → find_mapping key l = find_mapping key k.
Proof.
  intros Hl Hk H. destruct (find_mapping key l) as [m|] eqn:E.
  - symmetry. apply find_mapping_Some in E as [? ?]; [|done]. apply find_mapping_Some; [done|].
    split; [|done]. by apply H.
  - destruct (find_mapping key k) as [m|] eqn:E'; [|done].
    apply find_mapping_Some in E' as [Hin <-]; [|done].
    rewrite (proj2 (find_mapping_Some (mapping_key m) l m Hl)) in E; [done|]. split; [|done]. by apply H.
Qed.

Lemma upsert_mapping_Ok c mapping c' :
  catalog_wf c → upsert_mapping to_lowercase c mapping = Ok c' →
  NoDup (mapping_key <$> prc_mappings c') ∧ mapping ∈ prc_mappings c' ∧
  (∀ m, m ∈ prc_mappings c' → m = mapping ∨ m ∈ prc_mappings c) ∧
  (∀ m, m ∈ prc_mappings c → mapping_key m ≠ mapping_key mapping → m ∈ prc_mappings c').
Proof.
  intros Hwf. unfold upsert_mapping. destruct (existsb _ _); cbn [negb]; [|done]. cbv zeta.
  pose proof (upsert_mappings_keys c mapping) as Hu.
  assert (Hm : ∀ roles mappings, role_revised to_lowercase c roles mappings = Ok c' →
    prc_mappings c' = mappings).
  { intros roles mappings H. unfold role_revised in H. apply result_bind_Ok in H as (rev & _ & H).
    unfold PhraseRoleCatalog_try_new in H. repeat (case_match; [done|]).
    apply result_bind_Ok in H as (ids & _ & H). case_match; [done|].
    apply result_bind_Ok in H as ([] & _ & H). by injection H as <-. }
  destruct (position _ _) as [i|]; [case_bool_decide; [done|]|]; intros HR%Hm; rewrite HR; by apply Hu.
Qed.

(** A mapping that was set is the one that is resolved.  After a mapping is
    stored, every label of its provider that reads the same (white space and ASCII
    case aside) resolves to its role; and every label that neither reads the same nor
    falls back to it as a wildcard resolves as before. *)
Theorem mapping_resolves c mapping c' :
  catalog_ok c → upsert_mapping to_lowercase c mapping = Ok c' →
  (∀ provider label,
     eq_ignore_ascii_case provider (spm_provider_kind mapping) = true →
     normalize_source_label label = normalized_label mapping →
     role_resolve c' provider label = Some (spm_role_id mapping)) ∧
  (∀ provider label,
     eq_ignore_ascii_case provider (spm_provider_kind mapping) = false ∨
     normalize_source_label label ≠ normalized_label mapping ∧ normalized_label mapping ≠ lit "*" →
     role_resolve c' provider label = role_resolve c provider label).
Proof.
  intros (Hwf & _) Hu. destruct (upsert_mapping_Ok c mapping c' Hwf Hu) as (Hd & Hin & Hnew & Hold).
  split.
  - intros provider label Hp Hl. rewrite role_resolve_keys.
    rewrite (proj2 (find_mapping_Some _ _ mapping Hd)); [done|]. split; [done|].
    unfold mapping_key. rewrite Hl. apply bool_decide_eq_true in Hp. by rewrite Hp.
  - intros provider label Hne. rewrite !role_resolve_keys.
    assert (Hext : ∀ l, (to_ascii_lowercase provider, l) ≠ mapping_key mapping →
      find_mapping (to_ascii_lowercase provider, l) (prc_mappings c') =
      find_mapping (to_ascii_lowercase provider, l) (prc_mappings c)).
    { intros l Hl. apply find_mapping_ext; [done|apply Hwf|]. intros m Hm. split.
      - intros [->|?]%Hnew; [by destruct Hl|done].
      - intros Hin'. apply Hold; [done|]. by rewrite Hm. }
    unfold eq_ignore_ascii_case in Hne. rewrite bool_decide_eq_false in Hne.
    rewrite !Hext; [done|..]; unfold mapping_key; intros HE;
      pose proof (f_equal fst HE) as E1; pose proof (f_equal snd HE) as E2; cbn [fst snd] in E1, E2;
      destruct Hne as [Hp|[Hl Hs]]; first [by apply Hp|by apply Hl|by apply Hs].
Qed.
End Props.

(** ** Witnesses *)

Definition demo_catalog : PhraseRoleCatalog :=
  mkPhraseRoleCatalog 1 2
    [mkPhraseRole (lit "intro") (lit "Intro") 1 false 0x408CF2;
     mkPhraseRole (lit "custom-1") (lit "Peak") 2 false 0x33AD99]
    [mkSourcePhraseMapping (lit "rekordbox") (lit "Intro 1") (lit "intro")].

Lemma demo_catalog_ok : catalog_ok to_ascii_lowercase demo_catalog.
Proof.
  split_and!; [split|done|].
  - done.
  - done.
  - apply (bool_decide_unpack _). vm_compute. exact I.
  - apply (bool_decide_unpack _). vm_compute. exact I.
  - intros [|[|i]] r; simpl; [intros [= <-]; done..|by rewrite lookup_nil].
  - intros _. eexists. split; [left|done].
  - intros m Hm. apply list_elem_of_singleton in Hm as ->. left.
  - apply (bool_decide_unpack _). vm_compute. exact I.
  - repeat constructor; vm_compute; discriminate || reflexivity.
Qed.

Lemma role_edits_safe_witness :
  edit_answer to_ascii_lowercase demo_catalog (EditAdd (lit " Outro "))
    (apply_role_edit to_ascii_lowercase demo_catalog (EditAdd (lit " Outro "))) ∧
  (prc_roles <$> result_ok (apply_role_edit to_ascii_lowercase demo_catalog (EditAdd (lit " Outro ")))) ≫= last
    = Some (mkPhraseRole (lit "custom-2") (lit "Outro") 3 false 0x33AD99).
Proof.
  split; [|vm_compute; reflexivity].
  exact (role_edits_safe to_ascii_lowercase demo_catalog (EditAdd (lit " Outro ")) demo_catalog_ok).
Defined.

Definition demo_mapping : SourcePhraseMapping :=
  mkSourcePhraseMapping (lit "Rekordbox") (lit "INTRO  1") (lit "custom-1").

Definition demo_mapped : PhraseRoleCatalog :=
  mkPhraseRoleCatalog 2 2 (prc_roles demo_catalog) [demo_mapping].

Lemma mapping_resolves_witness :
  role_resolve demo_mapped (lit "REKORDBOX") (lit "  intro 1 ") = Some (lit "custom-1").
Proof.
  assert (upsert_mapping to_ascii_lowercase demo_catalog demo_mapping = Ok demo_mapped) as Hu
    by (vm_compute; reflexivity).
  apply (mapping_resolves to_ascii_lowercase demo_catalog demo_mapping demo_mapped demo_catalog_ok Hu);
    vm_compute; reflexivity.
Defined.
