(* ===== verification/Workflow.v ===== *)
(** * Preparation workflow of the library

    Models [lumi-library/src/workflow.rs] and the track query of [repository.rs]:
    preparation states and their texts, the rules and steps of the workflow and the
    catalogue of steps. *)

From stdpp Require Import prelude list gmap strings.
From Stdlib Require Import ZArith Lia.
From Stdlib Require Import Sorting.Sorted.
From S2P Require Import Prelude.
From S2P Require Import Track.
From S2P Require Import PhraseTimeline.
From S2P Require Import LibrarySource.
Open Scope Z_scope.

Inductive TrackWorkflowValueError : Type :=
| WFInvalidPreparationStatus | WFInvalidWorkflowFilter | WFInvalidWorkflowRule
| WFInvalidWorkflowStep | WFInvalidWorkflowCatalog | WFUnreachableWorkflowStep.

(** ** Enumerations with a text form *)

Inductive TrackPreparationStatus : Type := NotStarted | InProgress | ReadyForShow.

Inductive TrackAttentionReason : Type :=
| MetadataChanged | WaveformChanged | BeatGridChanged | HotCuesChanged | SourcePhrasesChanged.

Inductive TrackWorkflowFilter : Type :=
| FilterChangedAfterUsbSync | FilterVersionCandidates | FilterNotStarted | FilterInProgress
| FilterReadyForShow.

Inductive WorkflowRuleField : Type :=
| FieldPreparationStatus | FieldTechnicalReady | FieldUnresolvedUsbChange
| FieldAuthoredTimeline | FieldAudioAvailable | FieldVersionCandidate.

Inductive WorkflowRuleOperator : Type := OperatorIs | OperatorIsNot.

#[global] Instance TrackPreparationStatus_eq_dec : EqDecision TrackPreparationStatus.
Proof. solve_decision. Defined.
#[global] Instance WorkflowRuleField_eq_dec : EqDecision WorkflowRuleField.
Proof. solve_decision. Defined.
#[global] Instance WorkflowRuleOperator_eq_dec : EqDecision WorkflowRuleOperator.
Proof. solve_decision. Defined.

Definition status_as_str (s : TrackPreparationStatus) : str :=
  lit (match s with
       | NotStarted => "not-started" | InProgress => "in-progress" | ReadyForShow => "ready-for-show"
       end).

Definition status_try_from_str (value : str) : result TrackPreparationStatus TrackWorkflowValueError :=
  if bool_decide (value = lit "not-started") then Ok NotStarted
  else if bool_decide (value = lit "in-progress") then Ok InProgress
  else if bool_decide (value = lit "ready-for-show") then Ok ReadyForShow
  else Err WFInvalidPreparationStatus.

Definition reason_as_str (r : TrackAttentionReason) : str :=
  lit (match r with
       | MetadataChanged => "metadataChanged" | WaveformChanged => "waveformChanged"
       | BeatGridChanged => "beatGridChanged" | HotCuesChanged => "hotCuesChanged"
       | SourcePhrasesChanged => "sourcePhrasesChanged"
       end).

Definition filter_as_str (f : TrackWorkflowFilter) : str :=
  lit (match f with
       | FilterChangedAfterUsbSync => "changedAfterUsbSync"
       | FilterVersionCandidates => "versionCandidates"
       | FilterNotStarted => "notStarted"
       | FilterInProgress => "inProgress"
       | FilterReadyForShow => "readyForShow"
       end).

Definition filter_try_from_str (value : str) : result TrackWorkflowFilter TrackWorkflowValueError :=
  if bool_decide (value = lit "changedAfterUsbSync") then Ok FilterChangedAfterUsbSync
  else if bool_decide (value = lit "versionCandidates") then Ok FilterVersionCandidates
  else if bool_decide (value = lit "notStarted") then Ok FilterNotStarted
  else if bool_decide (value = lit "inProgress") then Ok FilterInProgress
  else if bool_decide (value = lit "readyForShow") then Ok FilterReadyForShow
  else Err WFInvalidWorkflowFilter.

Definition field_as_str (f : WorkflowRuleField) : str :=
  lit (match f with
       | FieldPreparationStatus => "preparationStatus"
       | FieldTechnicalReady => "technicalReady"
       | FieldUnresolvedUsbChange => "unresolvedUsbChange"
       | FieldAuthoredTimeline => "authoredTimeline"
       | FieldAudioAvailable => "audioAvailable"
       | FieldVersionCandidate => "versionCandidate"
       end).

Definition field_try_from_str (value : str) : result WorkflowRuleField TrackWorkflowValueError :=
  if bool_decide (value = lit "preparationStatus") then Ok FieldPreparationStatus
  else if bool_decide (value = lit "technicalReady") then Ok FieldTechnicalReady
  else if bool_decide (value = lit "unresolvedUsbChange") then Ok FieldUnresolvedUsbChange
  else if bool_decide (value = lit "authoredTimeline") then Ok FieldAuthoredTimeline
  else if bool_decide (value = lit "audioAvailable") then Ok FieldAudioAvailable
  else if bool_decide (value = lit "versionCandidate") then Ok FieldVersionCandidate
  else Err WFInvalidWorkflowRule.

Definition operator_as_str (o : WorkflowRuleOperator) : str :=
  lit (match o with OperatorIs => "is" | OperatorIsNot => "isNot" end).

Definition operator_try_from_str (value : str) : result WorkflowRuleOperator TrackWorkflowValueError :=
  if bool_decide (value = lit "is") then Ok OperatorIs
  else if bool_decide (value = lit "isNot") then Ok OperatorIsNot
  else Err WFInvalidWorkflowRule.

(** ** Rules and steps *)

(** [bytes().all(...)]: a byte above 127 is no letter, digit or hyphen. *)
Definition valid_step_byte (b : Z) : bool :=
  ((97 <=? b) && (b <=? 122)) || ((48 <=? b) && (b <=? 57)) || (b =? 45).

Definition valid_step_id (value : str) : bool :=
  (1 <=? str_len value) && (str_len value <=? 48) && forallb valid_step_byte (str_as_bytes value).

Record WorkflowRule := mkWorkflowRule {
  wr_field : WorkflowRuleField;
  wr_operator : WorkflowRuleOperator;
  wr_value : str;
}.

Definition rule_value_valid (field : WorkflowRuleField) (value : str) : bool :=
  match field with
  | FieldPreparationStatus => valid_step_id value
  | _ => bool_decide (value = lit "true") || bool_decide (value = lit "false")
  end.

Definition WorkflowRule_try_new (field : WorkflowRuleField) (operator : WorkflowRuleOperator)
    (value : str) : result WorkflowRule TrackWorkflowValueError :=
  if negb (rule_value_valid field value) then Err WFInvalidWorkflowRule
  else Ok (mkWorkflowRule field operator value).

Record WorkflowStepDefinition := mkWorkflowStepDefinition {
  wsd_id : str;
  wsd_display_name : str;
  wsd_icon : str;
  wsd_color_rgb : Z;
  wsd_sort_order : Z;
  wsd_archived : bool;
  wsd_rules : list WorkflowRule;
}.

(** The loop with the rule last [seen] for each field. *)
Fixpoint validate_rules_from (seen : gmap str (WorkflowRuleOperator * str)) (rules : list WorkflowRule) :
    result unit TrackWorkflowValueError :=
  match rules with
  | [] => Ok tt
  | rule :: rest =>
      let key := field_as_str (wr_field rule) in
      if match seen !! key with
         | Some (operator, value) =>
             negb (bool_decide (operator = wr_operator rule)) || negb (bool_decide (value = wr_value rule))
         | None => false
         end
      then Err WFUnreachableWorkflowStep
      else validate_rules_from (<[key := (wr_operator rule, wr_value rule)]> seen) rest
  end.

Definition WorkflowStepDefinition_try_new (id display_name icon : str) (color_rgb sort_order : Z)
    (archived : bool) (rules : list WorkflowRule) :
    result WorkflowStepDefinition TrackWorkflowValueError :=
  let display_name := trim display_name in
  let icon := trim icon in
  if negb (valid_step_id id) || bool_decide (display_name = [])
     || (48 <? Z.of_nat (length display_name)) || bool_decide (icon = [])
     || (64 <? Z.of_nat (length icon)) || (0xffffff <? color_rgb) || (sort_order =? 0)
     || bool_decide (rules = []) || (8 <? Z.of_nat (length rules))
  then Err WFInvalidWorkflowStep
  else
    let? _ := validate_rules_from ∅ rules in
    Ok (mkWorkflowStepDefinition id display_name icon color_rgb sort_order archived rules).

Record TrackWorkflowCatalog := mkTrackWorkflowCatalog {
  twc_revision : Z;
  twc_steps : list WorkflowStepDefinition;
}.

Definition required_steps : list str := lit <$> ["not-started"; "in-progress"; "ready-for-show"]%string.

Definition TrackWorkflowCatalog_try_new (revision : Z) (steps : list WorkflowStepDefinition) :
    result TrackWorkflowCatalog TrackWorkflowValueError :=
  if ((length steps <? 3) || (12 <? length steps))%nat then Err WFInvalidWorkflowCatalog
  else
    let steps := sort_by_key wsd_sort_order steps in
    let ids : gset str := list_to_set (wsd_id <$> steps) in
    if negb (bool_decide (size ids = length steps))
       || negb (forallb (λ id, bool_decide (id ∈ ids)) required_steps)
    then Err WFInvalidWorkflowCatalog
    else Ok (mkTrackWorkflowCatalog revision steps).

(** ** States of a track; the set of reasons is its sorted list *)

Record TrackWorkflowAttention := mkTrackWorkflowAttention {
  twa_revision : Z;
  twa_source_id : str;
  twa_source_revision : str;
  twa_detected_at : str;
  twa_reasons : list TrackAttentionReason;
}.

Record TrackWorkflowState := mkTrackWorkflowState {
  tws_track_id : TrackId;
  tws_preparation_status : TrackPreparationStatus;
  tws_step_id : str;
  tws_status_revision : Z;
  tws_attention : option TrackWorkflowAttention;
}.

Definition workflow_default_for (track_id : TrackId) : TrackWorkflowState :=
  mkTrackWorkflowState track_id NotStarted (lit "not-started") 0 None.

Definition is_effectively_ready (s : TrackWorkflowState) : bool :=
  bool_decide (tws_preparation_status s = ReadyForShow)
  && match tws_attention s with None => true | Some _ => false end.

(** ** Track queries *)

Record LibraryTrackQuery := mkLibraryTrackQuery {
  ltq_search : str;
  ltq_playlist_id : option PlaylistId;
  ltq_page : TrackPageRequest;
  ltq_sort : LibraryTrackSort;
  ltq_workflow_filter : option TrackWorkflowFilter;
  ltq_workflow_step_id : option str;
}.

Definition LibraryTrackQuery_try_new (search : str) (playlist_id : option PlaylistId)
    (page : TrackPageRequest) : result LibraryTrackQuery TrackPageRequestError :=
  if 200 <? str_len search then Err PRSearchTooLong
  else Ok (mkLibraryTrackQuery (trim search) playlist_id page
             (mkLibraryTrackSort SortPlaylist SortAscending) None None).

Definition LibraryTrackQuery_try_new_sorted (search : str) (playlist_id : option PlaylistId)
    (page : TrackPageRequest) (sort : LibraryTrackSort) : result LibraryTrackQuery TrackPageRequestError :=
  let? q := LibraryTrackQuery_try_new search playlist_id page in
  Ok (mkLibraryTrackQuery (ltq_search q) (ltq_playlist_id q) (ltq_page q) sort
        (ltq_workflow_filter q) (ltq_workflow_step_id q)).

(** ** Texts and values *)

Ltac decide_text :=
  unfold status_try_from_str, filter_try_from_str, field_try_from_str, operator_try_from_str;
  repeat case_bool_decide; intros; simplify_eq; done.

(** The stored text of a preparation state, a filter, a rule field and an operator
    is read back as the same value, and no other text is accepted for it. *)
Theorem workflow_texts_roundtrip :
  (∀ s, status_try_from_str (status_as_str s) = Ok s) ∧
  (∀ t s, status_try_from_str t = Ok s → t = status_as_str s) ∧
  (∀ f, filter_try_from_str (filter_as_str f) = Ok f) ∧
  (∀ t f, filter_try_from_str t = Ok f → t = filter_as_str f) ∧
  (∀ f, field_try_from_str (field_as_str f) = Ok f) ∧
  (∀ t f, field_try_from_str t = Ok f → t = field_as_str f) ∧
  (∀ o, operator_try_from_str (operator_as_str o) = Ok o) ∧
  (∀ t o, operator_try_from_str t = Ok o → t = operator_as_str o).
Proof.
  split_and!; try (intros []; vm_compute; reflexivity); intros t x; decide_text.
Qed.

(** ** A step that is accepted can be reached *)

(** What a track answers to a rule: a value per field. *)
Definition rule_holds (answer : WorkflowRuleField → str) (r : WorkflowRule) : Prop :=
  match wr_operator r with
  | OperatorIs => answer (wr_field r) = wr_value r
  | OperatorIsNot => answer (wr_field r) ≠ wr_value r
  end.

Definition answer_valid (answer : WorkflowRuleField → str) : Prop :=
  ∀ f, rule_value_valid f (answer f) = true.

(** A value of the field that differs from the given one. *)
Definition other_value (f : WorkflowRuleField) (value : str) : str :=
  match f with
  | FieldPreparationStatus =>
      if bool_decide (value = lit "not-started") then lit "in-progress" else lit "not-started"
  | _ => if bool_decide (value = lit "true") then lit "false" else lit "true"
  end.

Lemma other_value_spec f value :
  rule_value_valid f (other_value f value) = true ∧ other_value f value ≠ value.
Proof.
  destruct f; unfold other_value; case_bool_decide; subst;
    (split; [vm_compute; reflexivity|]); try (intros E; vm_compute in E; discriminate E);
    intros E; subst; done.
Qed.

Lemma field_as_str_inj f g : field_as_str f = field_as_str g → f = g.
Proof. destruct f, g; intros E; try done; vm_compute in E; discriminate E. Qed.

Lemma validate_rules_agree rules : ∀ seen r,
  validate_rules_from seen rules = Ok tt → r ∈ rules →
  (∀ p, seen !! field_as_str (wr_field r) = Some p → p = (wr_operator r, wr_value r)) ∧
  (∀ r', r' ∈ rules → wr_field r' = wr_field r →
     wr_operator r' = wr_operator r ∧ wr_value r' = wr_value r).
Proof.
  assert (Hhead : ∀ (seen : gmap str (WorkflowRuleOperator * str)) (r : WorkflowRule),
    match seen !! field_as_str (wr_field r) with
    | Some (operator, value) =>
        negb (bool_decide (operator = wr_operator r)) || negb (bool_decide (value = wr_value r))
    | None => false
    end = false ↔
    ∀ p, seen !! field_as_str (wr_field r) = Some p → p = (wr_operator r, wr_value r)).
  { intros seen r. destruct (seen !! field_as_str (wr_field r)) as [[o v]|].
    - rewrite orb_false_iff, !negb_false_iff, !bool_decide_eq_true.
      split; [by intros [-> ->] p [= <-]|intros Hp; by injection (Hp _ eq_refl) as -> ->].
    - split; [done|]. done. }
  induction rules as [|x rules IH]; intros seen r; cbn [validate_rules_from];
    [intros _ Hr; by apply not_elem_of_nil in Hr|].
  specialize (Hhead seen x). destruct (match seen !! _ with Some _ => _ | None => false end); [done|].
  apply proj1 in Hhead. specialize (Hhead eq_refl). intros Hv.
  assert (Htail : ∀ y, y ∈ rules → wr_field y = wr_field x →
    (wr_operator x, wr_value x) = (wr_operator y, wr_value y)).
  { intros y Hy Hf. apply (proj1 (IH _ y Hv Hy)). rewrite Hf. apply lookup_insert_eq. }
  intros [->|Hr]%elem_of_cons.
  - split; [done|]. intros r' [->|Hr']%elem_of_cons Hf; [done|].
    specialize (Htail r' Hr' Hf). by simplify_eq.
  - destruct (IH _ r Hv Hr) as [H1 H2]. split.
    + intros p Hp. destruct (decide (wr_field r = wr_field x)) as [Hf|Hf].
      * rewrite Hf in Hp. apply Hhead in Hp as ->. by apply Htail.
      * apply H1. rewrite lookup_insert_ne; [done|]. intros E%field_as_str_inj. congruence.
    + intros r' [->|Hr']%elem_of_cons Hf; [|auto].
      specialize (Htail r Hr (eq_sym Hf)). by simplify_eq.
Qed.

(** A workflow step that is accepted can be reached: some track with valid values
    satisfies all of its rules. *)
Theorem accepted_step_reachable id name icon color order archived rules step :
  Forall (λ r, rule_value_valid (wr_field r) (wr_value r) = true) rules →
  WorkflowStepDefinition_try_new id name icon color order archived rules = Ok step →
  ∃ answer, answer_valid answer ∧ Forall (rule_holds answer) (wsd_rules step).
Proof.
  intros Hv. unfold WorkflowStepDefinition_try_new. cbv zeta. case_match; [done|].
  rewrite result_bind_Ok. intros ([] & Hr & [= <-]). simpl.
  set (chosen := λ f, match List.find (λ r, bool_decide (wr_field r = f)) rules with
    | Some r => match wr_operator r with
                | OperatorIs => wr_value r | OperatorIsNot => other_value f (wr_value r) end
    | None => other_value f [] end).
  exists chosen. split.
  - intros f. unfold chosen. destruct (List.find _ rules) as [r|] eqn:Hf;
      [|apply other_value_spec].
    apply find_some in Hf as [Hin Hb]. apply bool_decide_eq_true in Hb as <-.
    destruct (wr_operator r); [|apply other_value_spec].
    rewrite Forall_forall in Hv. apply Hv. by apply list_elem_of_In.
  - apply Forall_forall. intros r Hin. unfold rule_holds, chosen.
    destruct (List.find _ rules) as [r'|] eqn:Hf.
    + apply find_some in Hf as [Hin' Hb]. apply bool_decide_eq_true in Hb.
      apply list_elem_of_In in Hin'.
      destruct (proj2 (validate_rules_agree rules ∅ r Hr Hin) r' Hin' Hb) as [-> ->].
      destruct (wr_operator r); [done|]. apply other_value_spec.
    + exfalso. apply list_elem_of_In in Hin. pose proof (find_none _ _ Hf r Hin) as Hn.
      simpl in Hn. by rewrite bool_decide_true in Hn.
Qed.

Lemma accepted_step_reachable_witness :
  ∃ answer, answer_valid answer ∧
    Forall (rule_holds answer)
      [mkWorkflowRule FieldPreparationStatus OperatorIsNot (lit "not-started");
       mkWorkflowRule FieldAudioAvailable OperatorIs (lit "true")].
Proof.
  refine (accepted_step_reachable (lit "review") (lit "Review") (lit "eye") 0 4 false
    [mkWorkflowRule FieldPreparationStatus OperatorIsNot (lit "not-started");
     mkWorkflowRule FieldAudioAvailable OperatorIs (lit "true")]
    (mkWorkflowStepDefinition (lit "review") (lit "Review") (lit "eye") 0 4 false
    [mkWorkflowRule FieldPreparationStatus OperatorIsNot (lit "not-started");
     mkWorkflowRule FieldAudioAvailable OperatorIs (lit "true")]) _ _).
  - repeat constructor.
  - vm_compute. reflexivity.
Defined.

(** The rules of a step must agree on every field, so a step is refused although it
    can be reached: a track in progress satisfies both rules. *)
Lemma reachable_step_refused :
  let rules := [mkWorkflowRule FieldPreparationStatus OperatorIs (lit "in-progress");
                mkWorkflowRule FieldPreparationStatus OperatorIsNot (lit "ready-for-show")] in
  WorkflowStepDefinition_try_new (lit "review") (lit "Review") (lit "eye") 0 4 false rules
    = Err WFUnreachableWorkflowStep ∧
  Forall (rule_holds (λ _, lit "in-progress")) rules.
Proof. split; [by vm_compute|]. repeat constructor. by vm_compute. Qed.
