(* ===== verification/AutoloopCatalog.v ===== *)
(** * The Autoloop catalogue

    Models [lumi-library/src/autoloop_catalog.rs]: four Themes, the variants of each
    phrase role, and the matrix of cells that names the Autoloop of a Theme, role and
    variant.  Hash sets and maps are [gset] and [gmap]; the 16-bit counters of the
    loops count variants of one role, of which there are never 65536. *)

From stdpp Require Import prelude list gmap strings.
From Stdlib Require Import ZArith Lia.
From S2P Require Import Prelude.
From S2P Require Import Track.
From S2P Require Import PhraseTimeline.
From S2P Require Import PhraseRoles.
Open Scope Z_scope.

Notation AutoloopEntryId := str (only parsing).

Definition AUTOLOOP_CATALOG_DEFAULTS_VERSION : Z := 4.

Inductive AutoloopCatalogError : Type :=
| ACInvalidRevision
| ACRevisionConflict (expected actual : Z)
| ACInvalidThemeId | ACInvalidThemeCount | ACEmptyDisplayName | ACDisplayNameTooLong
| ACInvalidSortOrder | ACDuplicateThemeId | ACDuplicateVariantId | ACDuplicateDisplayName
| ACDuplicateCell | ACDuplicateEntryId | ACUnknownTheme | ACUnknownVariant
| ACIncompatibleVariant | ACUnknownPhraseRole | ACMissingRoleCoverage | ACMissingExactCell
| ACNoActiveVariantsForRole | ACNoChange | ACIdentifierOverflow | ACTooManyVariants
| ACArithmeticOverflow | ACDuplicateMappingIdentity.

Definition validated_name (value : str) : result str AutoloopCatalogError :=
  let value := trim value in
  if bool_decide (value = []) then Err ACEmptyDisplayName
  else if 100 <? str_len value then Err ACDisplayNameTooLong
  else Ok value.

(** ** Themes, variants and cells *)

Record AutoloopTheme := mkAutoloopTheme {
  at_id : ThemeId;
  at_display_name : str;
  at_sort_order : Z;
}.

Definition AutoloopTheme_try_new (id : ThemeId) (display_name : str) (sort_order : Z) :
    result AutoloopTheme AutoloopCatalogError :=
  if id =? 0 then Err ACInvalidThemeId
  else if sort_order =? 0 then Err ACInvalidSortOrder
  else let? display_name := validated_name display_name in
       Ok (mkAutoloopTheme id display_name sort_order).

Definition theme_renamed (t : AutoloopTheme) (display_name : str) :=
  AutoloopTheme_try_new (at_id t) display_name (at_sort_order t).

Record AutoloopVariant := mkAutoloopVariant {
  av_role_id : PhraseRoleId;
  av_id : VariantId;
  av_display_name : str;
  av_sort_order : Z;
  av_archived : bool;
}.

Definition AutoloopVariant_try_new (role_id : PhraseRoleId) (id : VariantId) (display_name : str)
    (sort_order : Z) (archived : bool) : result AutoloopVariant AutoloopCatalogError :=
  if sort_order =? 0 then Err ACInvalidSortOrder
  else let? display_name := validated_name display_name in
       Ok (mkAutoloopVariant role_id id display_name sort_order archived).

Definition rebuilt (v : AutoloopVariant) (display_name : str) (sort_order : Z) (archived : bool) :=
  AutoloopVariant_try_new (av_role_id v) (av_id v) display_name sort_order archived.

Record AutoloopMatrixCell := mkAutoloopMatrixCell {
  amc_theme_id : ThemeId;
  amc_role_id : PhraseRoleId;
  amc_variant_id : VariantId;
  amc_entry_id : AutoloopEntryId;
  amc_display_name : str;
}.

Definition AutoloopMatrixCell_try_new (theme_id : ThemeId) (role_id : PhraseRoleId)
    (variant_id : VariantId) (entry_id : AutoloopEntryId) (display_name : str) :
    result AutoloopMatrixCell AutoloopCatalogError :=
  if theme_id =? 0 then Err ACInvalidThemeId
  else let? display_name := validated_name display_name in
       Ok (mkAutoloopMatrixCell theme_id role_id variant_id entry_id display_name).

Inductive AutoloopVariantMove : Type := VariantEarlier | VariantLater.

Record MissingAutoloopCell := mkMissingAutoloopCell {
  mac_theme_id : ThemeId;
  mac_role_id : PhraseRoleId;
  mac_variant_id : VariantId;
}.

Inductive AutoloopResolutionReason : Type :=
| ReasonAutomatic
| ReasonExactVariant
| ReasonThemeSpecificExact
| ReasonSameRoleFallback (requested_variant_id : VariantId).

Record AutoloopResolution := mkAutoloopResolution {
  ar_theme_id : ThemeId;
  ar_role_id : PhraseRoleId;
  ar_variant_id : VariantId;
  ar_entry_id : AutoloopEntryId;
  ar_display_name : str;
  ar_catalog_revision : Z;
  ar_reason : AutoloopResolutionReason;
}.

Record AutoloopCatalog := mkAutoloopCatalog {
  ac_revision : Z;
  ac_defaults_version : Z;
  ac_themes : list AutoloopTheme;
  ac_variants : list AutoloopVariant;
  ac_cells : list AutoloopMatrixCell;
}.

(** ** Validation *)

Fixpoint validate_themes (ids : gset Z) (names : gset str) (index : Z) (themes : list AutoloopTheme) :
    result unit AutoloopCatalogError :=
  match themes with
  | [] => Ok tt
  | theme :: rest =>
      let name := to_ascii_lowercase (at_display_name theme) in
      if bool_decide (at_id theme ∈ ids) then Err ACDuplicateThemeId
      else if bool_decide (name ∈ names) then Err ACDuplicateDisplayName
      else if negb (at_sort_order theme =? index + 1) then Err ACInvalidSortOrder
      else validate_themes ({[at_id theme]} ∪ ids) ({[name]} ∪ names) (index + 1) rest
  end.

Definition variant_key (v : AutoloopVariant) : str * str := (av_role_id v, av_id v).
Definition variant_name (v : AutoloopVariant) : str * str :=
  (av_role_id v, to_ascii_lowercase (av_display_name v)).

(** [entry(role).and_modify(|value| *value += 1).or_insert(1)]. *)
Definition next_order (orders : gmap str Z) (role : str) : Z :=
  match orders !! role with Some value => value + 1 | None => 1 end.

Fixpoint validate_variants (keys names : gset (str * str)) (orders : gmap str Z)
    (variants : list AutoloopVariant) : result unit AutoloopCatalogError :=
  match variants with
  | [] => Ok tt
  | variant :: rest =>
      if bool_decide (variant_key variant ∈ keys) then Err ACDuplicateVariantId
      else if bool_decide (variant_name variant ∈ names) then Err ACDuplicateDisplayName
      else
        let expected := next_order orders (av_role_id variant) in
        if negb (av_sort_order variant =? expected) then Err ACInvalidSortOrder
        else validate_variants ({[variant_key variant]} ∪ keys) ({[variant_name variant]} ∪ names)
               (<[av_role_id variant := expected]> orders) rest
  end.

(** [parse::<u16>]: an optional plus sign and at least one digit. *)
Fixpoint parse_digits (acc : Z) (s : str) : option Z :=
  match s with
  | [] => Some acc
  | c :: s =>
      if (48 <=? c) && (c <=? 57) then
        let acc := 10 * acc + (c - 48) in
        if U16_MAX <? acc then None else parse_digits acc s
      else None
  end.

Definition parse_u16 (s : str) : option Z :=
  let s := match s with 43 :: rest => rest | _ => s end in
  if bool_decide (s = []) then None else parse_digits 0 s.

Definition catalog_mapping_number (variant_id : VariantId) : option Z :=
  strip_prefix (lit "mapping-") variant_id ≫= parse_u16.

Definition cell_key (c : AutoloopMatrixCell) : Z * str * str :=
  (amc_theme_id c, amc_role_id c, amc_variant_id c).
Definition cell_row (c : AutoloopMatrixCell) : str * str := (amc_role_id c, amc_variant_id c).
Definition cell_mapping (c : AutoloopMatrixCell) : Z * str := (amc_theme_id c, amc_variant_id c).

Definition is_mapping (variant_id : VariantId) : bool :=
  match catalog_mapping_number variant_id with Some _ => true | None => false end.

Fixpoint validate_cells (theme_ids : gset Z) (rows : gset (str * str)) (keys : gset (Z * str * str))
    (entries : gset str) (cells : list AutoloopMatrixCell) : result unit AutoloopCatalogError :=
  match cells with
  | [] => Ok tt
  | cell :: rest =>
      if negb (bool_decide (amc_theme_id cell ∈ theme_ids)) then Err ACUnknownTheme
      else if negb (bool_decide (cell_row cell ∈ rows)) then Err ACUnknownVariant
      else if bool_decide (cell_key cell ∈ keys) then Err ACDuplicateCell
      else if bool_decide (amc_entry_id cell ∈ entries) then Err ACDuplicateEntryId
      else validate_cells theme_ids rows ({[cell_key cell]} ∪ keys) ({[amc_entry_id cell]} ∪ entries) rest
  end.

Fixpoint validate_cell_mappings (keys : gset (Z * str)) (cells : list AutoloopMatrixCell) :
    result unit AutoloopCatalogError :=
  match cells with
  | [] => Ok tt
  | cell :: rest =>
      if is_mapping (amc_variant_id cell) then
        if bool_decide (cell_mapping cell ∈ keys) then Err ACDuplicateMappingIdentity
        else validate_cell_mappings ({[cell_mapping cell]} ∪ keys) rest
      else validate_cell_mappings keys rest
  end.

Definition AutoloopCatalog_try_new (revision defaults_version : Z) (themes : list AutoloopTheme)
    (variants : list AutoloopVariant) (cells : list AutoloopMatrixCell) :
    result AutoloopCatalog AutoloopCatalogError :=
  if (revision =? 0) && (negb (defaults_version =? 0) || negb (bool_decide (length themes = 0%nat))
                         || negb (bool_decide (length variants = 0%nat)))
  then Err ACInvalidRevision
  else if (0 <? revision) && negb (bool_decide (length themes = 4%nat)) then Err ACInvalidThemeCount
  else
    let? _ := validate_themes ∅ ∅ 0 themes in
    let? _ := validate_variants ∅ ∅ ∅ variants in
    let? _ := validate_cells (list_to_set (at_id <$> themes)) (list_to_set (variant_key <$> variants))
                ∅ ∅ cells in
    let? _ := validate_cell_mappings ∅ cells in
    Ok (mkAutoloopCatalog revision defaults_version themes variants cells).

Definition catalog_revised (c : AutoloopCatalog) (themes : list AutoloopTheme)
    (variants : list AutoloopVariant) (cells : list AutoloopMatrixCell) :
    result AutoloopCatalog AutoloopCatalogError :=
  let? revision := ok_or (checked_add_u64 (ac_revision c) 1) ACArithmeticOverflow in
  AutoloopCatalog_try_new revision (ac_defaults_version c) themes variants cells.

Definition validate_catalog_roles (c : AutoloopCatalog) (phrase_roles : PhraseRoleCatalog) :
    result unit AutoloopCatalogError :=
  let known : gset str := list_to_set (pr_id <$> prc_roles phrase_roles) in
  if existsb (λ v, negb (bool_decide (av_role_id v ∈ known))) (ac_variants c)
  then Err ACUnknownPhraseRole else Ok tt.

(** ** Lookups *)

Implicit Types c : AutoloopCatalog.

Definition has_theme c (theme_id : ThemeId) : bool :=
  existsb (λ theme, at_id theme =? theme_id) (ac_themes c).

Definition cell_is (theme_id : ThemeId) (role_id : PhraseRoleId) (variant_id : VariantId)
    (cell : AutoloopMatrixCell) : bool :=
  (amc_theme_id cell =? theme_id) && bool_decide (amc_role_id cell = role_id)
  && bool_decide (amc_variant_id cell = variant_id).

Definition catalog_cell c (theme_id : ThemeId) (role_id : PhraseRoleId) (variant_id : VariantId) :
    option AutoloopMatrixCell := List.find (cell_is theme_id role_id variant_id) (ac_cells c).

Definition missing_cells c : list MissingAutoloopCell :=
  let populated : gset (Z * str * str) := list_to_set (cell_key <$> ac_cells c) in
  ac_themes c ≫= λ theme,
    omap (λ v, if bool_decide ((at_id theme, av_role_id v, av_id v) ∈ populated) then None
               else Some (mkMissingAutoloopCell (at_id theme) (av_role_id v) (av_id v)))
      (List.filter (λ v, negb (av_archived v) && negb (is_mapping (av_id v))) (ac_variants c)).

Definition resolution c (cell : AutoloopMatrixCell) (reason : AutoloopResolutionReason) :
    AutoloopResolution :=
  mkAutoloopResolution (amc_theme_id cell) (amc_role_id cell) (amc_variant_id cell)
    (amc_entry_id cell) (amc_display_name cell) (ac_revision c) reason.

Definition active_variants c (role_id : PhraseRoleId) : list AutoloopVariant :=
  List.filter (λ v, bool_decide (av_role_id v = role_id) && negb (av_archived v)) (ac_variants c).

Fixpoint find_map {A B} (f : A → option B) (l : list A) : option B :=
  match l with
  | [] => None
  | x :: l => match f x with Some y => Some y | None => find_map f l end
  end.

Definition preferred_cell c (theme_id : ThemeId) (role_id : PhraseRoleId)
    (preferred : option VariantId) : option AutoloopMatrixCell :=
  preferred ← preferred;
  variant ← List.find (λ v, bool_decide (av_id v = preferred)) (active_variants c role_id);
  catalog_cell c theme_id role_id (av_id variant).

Definition catalog_resolve c (theme_id : ThemeId) (role_id : PhraseRoleId)
    (preferred : option VariantId) (expected_revision : Z) :
    result AutoloopResolution AutoloopCatalogError :=
  if negb (expected_revision =? ac_revision c)
  then Err (ACRevisionConflict expected_revision (ac_revision c))
  else if negb (has_theme c theme_id) then Err ACUnknownTheme
  else
    let active := active_variants c role_id in
    if bool_decide (length active = 0%nat) then Err ACMissingRoleCoverage
    else match preferred_cell c theme_id role_id preferred with
    | Some cell => Ok (resolution c cell ReasonExactVariant)
    | None =>
        let? fallback := ok_or (find_map (λ v, catalog_cell c theme_id role_id (av_id v)) active)
          ACMissingRoleCoverage in
        Ok (resolution c fallback (match preferred with
                                   | Some preferred => ReasonSameRoleFallback preferred
                                   | None => ReasonAutomatic
                                   end))
    end.

Definition require_active_role_variant c (role_id : PhraseRoleId) (variant_id : VariantId) :
    result AutoloopVariant AutoloopCatalogError :=
  ok_or (List.find (λ v, bool_decide (av_role_id v = role_id) && bool_decide (av_id v = variant_id)
                         && negb (av_archived v)) (ac_variants c)) ACIncompatibleVariant.

Definition resolve_exact_strategy c (theme_id : ThemeId) (role_id : PhraseRoleId)
    (variant_id : VariantId) (reason : AutoloopResolutionReason) :
    result AutoloopResolution AutoloopCatalogError :=
  let? _ := require_active_role_variant c role_id variant_id in
  let? cell := ok_or (catalog_cell c theme_id role_id variant_id) ACMissingExactCell in
  Ok (resolution c cell reason).

Definition resolve_loop_strategy c (theme_id : ThemeId) (role_id : PhraseRoleId)
    (strategy : PhraseLoopStrategy) (expected_revision : Z) :
    result AutoloopResolution AutoloopCatalogError :=
  if negb (expected_revision =? ac_revision c)
  then Err (ACRevisionConflict expected_revision (ac_revision c))
  else if negb (has_theme c theme_id) then Err ACUnknownTheme
  else match strategy with
  | StrategyAuto => catalog_resolve c theme_id role_id None expected_revision
  | StrategyFixedVariant variant_id =>
      resolve_exact_strategy c theme_id role_id variant_id ReasonExactVariant
  | StrategyThemeSpecificExact overrides =>
      match List.find (λ value, tsv_theme_id value =? theme_id) overrides with
      | None => catalog_resolve c theme_id role_id None expected_revision
      | Some value =>
          resolve_exact_strategy c theme_id role_id (tsv_variant_id value) ReasonThemeSpecificExact
      end
  end.

Fixpoint validate_overrides c (role_id : PhraseRoleId) (overrides : list ThemeSpecificVariant) :
    result unit AutoloopCatalogError :=
  match overrides with
  | [] => Ok tt
  | value :: rest =>
      if negb (has_theme c (tsv_theme_id value)) then Err ACUnknownTheme
      else
        let? _ := require_active_role_variant c role_id (tsv_variant_id value) in
        match catalog_cell c (tsv_theme_id value) role_id (tsv_variant_id value) with
        | None => Err ACMissingExactCell
        | Some _ => validate_overrides c role_id rest
        end
  end.

Definition validate_loop_strategy c (role_id : PhraseRoleId) (strategy : PhraseLoopStrategy) :
    result unit AutoloopCatalogError :=
  match strategy with
  | StrategyAuto => Ok tt
  | StrategyFixedVariant variant_id =>
      let? _ := require_active_role_variant c role_id variant_id in Ok tt
  | StrategyThemeSpecificExact overrides => validate_overrides c role_id overrides
  end.

(** ** Sorting *)

Definition variant_leb (l r : AutoloopVariant) : bool :=
  str_ltb (av_role_id l) (av_role_id r)
  || (bool_decide (av_role_id l = av_role_id r)
      && ((av_sort_order l <? av_sort_order r)
          || ((av_sort_order l =? av_sort_order r) && str_leb (av_id l) (av_id r)))).

Definition sort_variants (variants : list AutoloopVariant) : list AutoloopVariant :=
  sort_by variant_leb variants.

(** The order of [Option<&u16>]: nothing before something. *)
Definition option_ltb (a b : option Z) : bool :=
  match a, b with
  | None, Some _ => true
  | Some a, Some b => a <? b
  | _, None => false
  end.

Definition theme_orders (themes : list AutoloopTheme) : gmap Z Z :=
  list_to_map (reverse ((λ t, (at_id t, at_sort_order t)) <$> themes)).

Definition variant_orders (variants : list AutoloopVariant) : gmap (str * str) Z :=
  list_to_map (reverse ((λ v, (variant_key v, av_sort_order v)) <$> variants)).

Definition cell_leb (themes : gmap Z Z) (rows : gmap (str * str) Z) (l r : AutoloopMatrixCell) : bool :=
  let tl := themes !! amc_theme_id l in
  let tr := themes !! amc_theme_id r in
  let vl := rows !! cell_row l in
  let vr := rows !! cell_row r in
  option_ltb tl tr
  || (bool_decide (tl = tr)
      && (str_ltb (amc_role_id l) (amc_role_id r)
          || (bool_decide (amc_role_id l = amc_role_id r)
              && (option_ltb vl vr || bool_decide (vl = vr))))).

Definition sort_cells (cells : list AutoloopMatrixCell) (themes : list AutoloopTheme)
    (variants : list AutoloopVariant) : list AutoloopMatrixCell :=
  sort_by (cell_leb (theme_orders themes) (variant_orders variants)) cells.

(** ** Edits *)

Definition ensure_unique_variant_name c (role_id : PhraseRoleId) (display_name : str)
    (except : option VariantId) : result unit AutoloopCatalogError :=
  if existsb (λ v, bool_decide (av_role_id v = role_id)
                   && negb (bool_decide (Some (av_id v) = except))
                   && eq_ignore_ascii_case (av_display_name v) display_name) (ac_variants c)
  then Err ACDuplicateDisplayName else Ok tt.

(** The index, with the variant it selects. *)
Definition variant_index c (role_id : PhraseRoleId) (variant_id : VariantId) :
    result (nat * AutoloopVariant) AutoloopCatalogError :=
  match position (λ v, bool_decide (av_role_id v = role_id) && bool_decide (av_id v = variant_id))
          (ac_variants c) with
  | Some index => let? v := ok_or (ac_variants c !! index) ACUnknownVariant in Ok (index, v)
  | None => Err ACUnknownVariant
  end.

Definition rename_theme c (theme_id : ThemeId) (display_name : str) :
    result AutoloopCatalog AutoloopCatalogError :=
  let? display_name := validated_name display_name in
  if existsb (λ t, negb (at_id t =? theme_id) && eq_ignore_ascii_case (at_display_name t) display_name)
       (ac_themes c)
  then Err ACDuplicateDisplayName
  else match position (λ t, at_id t =? theme_id) (ac_themes c) with
  | None => Err ACUnknownTheme
  | Some index =>
      let? theme := ok_or (ac_themes c !! index) ACUnknownTheme in
      if bool_decide (at_display_name theme = display_name) then Err ACNoChange
      else
        let? theme := theme_renamed theme display_name in
        catalog_revised c (<[index := theme]> (ac_themes c)) (ac_variants c) (ac_cells c)
  end.

Definition variant_id_text (suffix : Z) : str := lit "variant-" ++ show_u suffix.

(** The loop of [add_variant] over the variants of the role. *)
Fixpoint variant_id_loop (fuel : nat) (suffix : Z) (taken : list AutoloopVariant) :
    result VariantId AutoloopCatalogError :=
  match fuel with
  | O => Err ACArithmeticOverflow
  | S fuel =>
      let? candidate := map_err (λ _, ACIdentifierOverflow)
        (text_identifier_try_new "variant id" (variant_id_text suffix)) in
      if negb (existsb (λ v, bool_decide (av_id v = candidate)) taken) then Ok candidate
      else
        let? suffix := ok_or (checked_add_u64 suffix 1) ACArithmeticOverflow in
        variant_id_loop fuel suffix taken
  end.

Definition variants_of_role (role_id : PhraseRoleId) (variants : list AutoloopVariant) :
    list AutoloopVariant := List.filter (λ v, bool_decide (av_role_id v = role_id)) variants.

Definition next_sort_order (role_id : PhraseRoleId) (variants : list AutoloopVariant) :
    result Z AutoloopCatalogError :=
  let order := Z.of_nat (length (variants_of_role role_id variants) + 1) in
  if U16_MAX <? order then Err ACTooManyVariants else Ok order.

Definition add_variant c (role_id : PhraseRoleId) (display_name : str) :
    result AutoloopCatalog AutoloopCatalogError :=
  let? display_name := validated_name display_name in
  let? _ := ensure_unique_variant_name c role_id display_name None in
  let taken := variants_of_role role_id (ac_variants c) in
  let? id := variant_id_loop (S (length taken)) 1 taken in
  let? sort_order := next_sort_order role_id (ac_variants c) in
  let? variant := AutoloopVariant_try_new role_id id display_name sort_order false in
  catalog_revised c (ac_themes c) (sort_variants (ac_variants c ++ [variant])) (ac_cells c).

Definition rename_variant c (role_id : PhraseRoleId) (variant_id : VariantId) (display_name : str) :
    result AutoloopCatalog AutoloopCatalogError :=
  let? display_name := validated_name display_name in
  let? _ := ensure_unique_variant_name c role_id display_name (Some variant_id) in
  let? (index, v) := variant_index c role_id variant_id in
  if bool_decide (av_display_name v = display_name) then Err ACNoChange
  else
    let? v := rebuilt v display_name (av_sort_order v) (av_archived v) in
    catalog_revised c (ac_themes c) (<[index := v]> (ac_variants c)) (ac_cells c).

Definition move_variant c (role_id : PhraseRoleId) (variant_id : VariantId)
    (direction : AutoloopVariantMove) : result AutoloopCatalog AutoloopCatalogError :=
  let? (current_index, current) := variant_index c role_id variant_id in
  let current_order := av_sort_order current in
  let? target_order := ok_or (match direction with
    | VariantEarlier => if current_order =? 0 then None else Some (current_order - 1)
    | VariantLater => if current_order =? U16_MAX then None else Some (current_order + 1)
    end) ACNoChange in
  match position (λ v, bool_decide (av_role_id v = role_id) && (av_sort_order v =? target_order))
          (ac_variants c) with
  | None => Err ACNoChange
  | Some target_index =>
      let? target := ok_or (ac_variants c !! target_index) ACNoChange in
      let? current := rebuilt current (av_display_name current) target_order (av_archived current) in
      let? target := rebuilt target (av_display_name target) current_order (av_archived target) in
      catalog_revised c (ac_themes c)
        (sort_variants (<[target_index := target]> (<[current_index := current]> (ac_variants c))))
        (ac_cells c)
  end.

Definition set_variant_archived c (role_id : PhraseRoleId) (variant_id : VariantId) (archived : bool) :
    result AutoloopCatalog AutoloopCatalogError :=
  let? (index, v) := variant_index c role_id variant_id in
  if Bool.eqb (av_archived v) archived then Err ACNoChange
  else if archived && bool_decide (length (active_variants c role_id) = 1%nat)
  then Err ACNoActiveVariantsForRole
  else
    let? v := rebuilt v (av_display_name v) (av_sort_order v) archived in
    catalog_revised c (ac_themes c) (<[index := v]> (ac_variants c)) (ac_cells c).

Definition generated_entry_id (theme_id : ThemeId) (role_id : PhraseRoleId) (variant_id : VariantId) :
    result AutoloopEntryId AutoloopCatalogError :=
  map_err (λ _, ACIdentifierOverflow) (text_identifier_try_new "Autoloop entry id"
    (lit "theme-" ++ show_u theme_id ++ lit "--" ++ role_id ++ lit "--" ++ variant_id)).

Definition set_cell c (theme_id : ThemeId) (role_id : PhraseRoleId) (variant_id : VariantId)
    (display_name : option str) : result AutoloopCatalog AutoloopCatalogError :=
  if negb (has_theme c theme_id) then Err ACUnknownTheme
  else
    let? _ := variant_index c role_id variant_id in
    let? cells :=
      match position (cell_is theme_id role_id variant_id) (ac_cells c), display_name with
      | Some index, Some display_name =>
          let? display_name := validated_name display_name in
          let? old := ok_or (ac_cells c !! index) ACNoChange in
          if bool_decide (amc_display_name old = display_name) then Err ACNoChange
          else
            let? cell := AutoloopMatrixCell_try_new theme_id role_id variant_id (amc_entry_id old)
              display_name in
            Ok (<[index := cell]> (ac_cells c))
      | None, Some display_name =>
          let? entry_id := generated_entry_id theme_id role_id variant_id in
          let? cell := AutoloopMatrixCell_try_new theme_id role_id variant_id entry_id display_name in
          Ok (ac_cells c ++ [cell])
      | Some index, None => Ok (delete index (ac_cells c))
      | None, None => Err ACNoChange
      end in
    catalog_revised c (ac_themes c) (ac_variants c) (sort_cells cells (ac_themes c) (ac_variants c)).

Fixpoint renumber_variants (orders : gmap str Z) (variants : list AutoloopVariant) :
    result (list AutoloopVariant) AutoloopCatalogError :=
  match variants with
  | [] => Ok []
  | v :: rest =>
      let next := next_order orders (av_role_id v) in
      let? v' := rebuilt v (av_display_name v) next (av_archived v) in
      let? rest := renumber_variants (<[av_role_id v := next]> orders) rest in
      Ok (v' :: rest)
  end.

Definition variant_used (cells : list AutoloopMatrixCell) (v : AutoloopVariant) : bool :=
  existsb (λ cell, bool_decide (amc_role_id cell = av_role_id v)
                   && bool_decide (amc_variant_id cell = av_id v)) cells.

Definition prune_unused_variants (variants : list AutoloopVariant) (cells : list AutoloopMatrixCell) :
    result (list AutoloopVariant) AutoloopCatalogError :=
  renumber_variants ∅ (sort_variants (List.filter (variant_used cells) variants)).

Definition is_mapping_cell (theme_id : ThemeId) (mapping_id : VariantId) (cell : AutoloopMatrixCell) : bool :=
  (amc_theme_id cell =? theme_id) && bool_decide (amc_variant_id cell = mapping_id).

(** Pruning, sorting and revising, as both mapping edits end. *)
Definition pruned_revision c (variants : list AutoloopVariant) (cells : list AutoloopMatrixCell) :
    result AutoloopCatalog AutoloopCatalogError :=
  let? variants := prune_unused_variants variants cells in
  catalog_revised c (ac_themes c) variants (sort_cells cells (ac_themes c) variants).

(** [cells.remove(index)] for the first cell of the mapping, if there is one. *)
Definition take_mapping (theme_id : ThemeId) (mapping_id : VariantId) (cells : list AutoloopMatrixCell) :
    option AutoloopMatrixCell * list AutoloopMatrixCell :=
  match position (is_mapping_cell theme_id mapping_id) cells with
  | Some index => (cells !! index, delete index cells)
  | None => (None, cells)
  end.

Definition mapping_entry_id (theme_id : ThemeId) (mapping_id : VariantId) :
    result AutoloopEntryId AutoloopCatalogError :=
  map_err (λ _, ACIdentifierOverflow) (text_identifier_try_new "Autoloop entry id"
    (lit "theme-" ++ show_u theme_id ++ lit "--" ++ mapping_id)).

Definition with_mapping_variant (role_id : PhraseRoleId) (mapping_id : VariantId)
    (variants : list AutoloopVariant) : result (list AutoloopVariant) AutoloopCatalogError :=
  if existsb (λ v, bool_decide (av_role_id v = role_id) && bool_decide (av_id v = mapping_id)) variants
  then Ok variants
  else
    let? sort_order := next_sort_order role_id variants in
    let? v := AutoloopVariant_try_new role_id mapping_id (lit "Output " ++ mapping_id) sort_order false in
    Ok (variants ++ [v]).

Definition set_mapping c (theme_id : ThemeId) (mapping_id : VariantId) (role_id : PhraseRoleId)
    (display_name : option str) : result AutoloopCatalog AutoloopCatalogError :=
  if negb (has_theme c theme_id) then Err ACUnknownTheme
  else
    let '(existing_cell, cells) := take_mapping theme_id mapping_id (ac_cells c) in
    match display_name with
    | None =>
        match existing_cell with
        | None => Err ACNoChange
        | Some _ => pruned_revision c (ac_variants c) cells
        end
    | Some display_name =>
        let? display_name := validated_name display_name in
        if match existing_cell with
           | Some cell => bool_decide (amc_role_id cell = role_id)
                          && bool_decide (amc_display_name cell = display_name)
           | None => false
           end
        then Err ACNoChange
        else
          let? variants := with_mapping_variant role_id mapping_id (ac_variants c) in
          let? entry_id := mapping_entry_id theme_id mapping_id in
          let? cell := AutoloopMatrixCell_try_new theme_id role_id mapping_id entry_id display_name in
          pruned_revision c variants (cells ++ [cell])
    end.

Definition clear_mapping c (theme_id : ThemeId) (mapping_id : VariantId) :
    result AutoloopCatalog AutoloopCatalogError :=
  if negb (has_theme c theme_id) then Err ACUnknownTheme
  else match position (is_mapping_cell theme_id mapping_id) (ac_cells c) with
  | None => Err ACNoChange
  | Some index => pruned_revision c (ac_variants c) (delete index (ac_cells c))
  end.
