(* ===== verification/AutoloopCatalogProps.v ===== *)
(** * The Autoloop catalogue: proofs

    The constructor accepts exactly the well-formed catalogues; resolving finds a cell
    of the Theme and role whenever there is one, the requested variant first; mappings
    that are set are found, and edits of mappings never break the catalogue. *)

From stdpp Require Import prelude list gmap strings.
From Stdlib Require Import ZArith Lia.
From S2P Require Import Prelude.
From S2P Require Import Track.
From S2P Require Import PhraseTimeline.
From S2P Require Import PhraseRoles.
From S2P Require Import PhraseRolesProps.
From S2P Require Import AutoloopCatalog.
Open Scope Z_scope.

Implicit Types c : AutoloopCatalog.

(** ** Resolving *)

Lemma cell_is_spec theme role variant cell :
  cell_is theme role variant cell = true ↔
  amc_theme_id cell = theme ∧ amc_role_id cell = role ∧ amc_variant_id cell = variant.
Proof.
  unfold cell_is. rewrite !andb_true_iff, Z.eqb_eq, !bool_decide_eq_true. tauto.
Qed.

Lemma catalog_cell_Some c theme role variant cell :
  catalog_cell c theme role variant = Some cell →
  cell ∈ ac_cells c ∧ amc_theme_id cell = theme ∧ amc_role_id cell = role ∧
  amc_variant_id cell = variant.
Proof.
  intros [Hin Hb]%find_some. apply cell_is_spec in Hb. by apply list_elem_of_In in Hin.
Qed.

Lemma catalog_cell_None c theme role variant cell :
  catalog_cell c theme role variant = None → cell ∈ ac_cells c →
  cell_is theme role variant cell = false.
Proof. intros Hn Hin. apply list_elem_of_In in Hin. exact (find_none _ _ Hn cell Hin). Qed.

Lemma active_variants_elem c role v :
  v ∈ active_variants c role ↔ v ∈ ac_variants c ∧ av_role_id v = role ∧ av_archived v = false.
Proof.
  unfold active_variants. rewrite list_elem_of_In, List.filter_In, <- list_elem_of_In.
  rewrite andb_true_iff, bool_decide_eq_true, negb_true_iff. tauto.
Qed.

Lemma find_map_first {A B} (f : A → option B) l y :
  find_map f l = Some y ↔ ∃ l1 x l2, l = l1 ++ x :: l2 ∧ f x = Some y ∧ Forall (λ z, f z = None) l1.
Proof.
  induction l as [|x l IH]; cbn [find_map].
  { split; [done|]. by intros ([|] & ? & ? & ? & _). }
  destruct (f x) as [z|] eqn:Hx.
  - split.
    + intros [= ->]. exists [], x, l. by repeat split.
    + intros ([|a l1] & x' & l2 & [= -> ->] & Hy & Hall); [congruence|].
      apply Forall_cons in Hall as [? _]. congruence.
  - rewrite IH. split.
    + intros (l1 & x' & l2 & -> & Hy & Hall). exists (x :: l1), x', l2. split_and!; try done. by constructor.
    + intros ([|a l1] & x' & l2 & [= -> ->] & Hy & Hall); [congruence|].
      apply Forall_cons in Hall as [_ ?]. by exists l1, x', l2.
Qed.

Lemma find_map_None {A B} (f : A → option B) l : find_map f l = None ↔ Forall (λ x, f x = None) l.
Proof.
  induction l as [|x l IH]; cbn [find_map]; [split; [constructor|done]|].
  rewrite Forall_cons, <- IH. destruct (f x); naive_solver.
Qed.

Lemma has_theme_spec c theme : has_theme c theme = true ↔ theme ∈ at_id <$> ac_themes c.
Proof.
  unfold has_theme. rewrite existsb_exists, list_elem_of_fmap. setoid_rewrite Z.eqb_eq.
  setoid_rewrite <- list_elem_of_In. naive_solver.
Qed.

(** The cell of an active variant of the role for the Theme. *)
Definition covered_by_variant c (theme : ThemeId) (role : PhraseRoleId) (v : AutoloopVariant) : Prop :=
  v ∈ active_variants c role ∧ is_Some (catalog_cell c theme role (av_id v)).

Lemma preferred_cell_Some c theme role preferred cell :
  preferred_cell c theme role preferred = Some cell ↔
  ∃ p, preferred = Some p ∧ catalog_cell c theme role p = Some cell ∧
    ∃ v, v ∈ active_variants c role ∧ av_id v = p.
Proof.
  unfold preferred_cell. destruct preferred as [p|]; simpl; [|naive_solver].
  destruct (List.find _ (active_variants c role)) as [v|] eqn:Hf; simpl.
  - apply find_some in Hf as [Hin Hb]. apply bool_decide_eq_true in Hb as <-.
    apply list_elem_of_In in Hin. split; [naive_solver|]. intros (? & [= <-] & ? & _). done.
  - split; [done|]. intros (? & [= <-] & _ & v & Hin & Hv). apply list_elem_of_In in Hin.
    pose proof (find_none _ _ Hf v Hin) as Hn. simpl in Hn. by rewrite bool_decide_true in Hn.
Qed.

(** Resolving an Autoloop.  On the current revision and a known Theme, a
    resolution is found exactly when some active variant of the role has a cell for
    the Theme; it names a cell of that Theme and role whose variant is active.  The
    requested variant is taken when it is active and has a cell; otherwise the first
    active variant in catalogue order that has one, and the reason says which
    happened. *)
Theorem catalog_resolve_spec c theme role preferred :
  theme ∈ at_id <$> ac_themes c →
  match catalog_resolve c theme role preferred (ac_revision c) with
  | Ok r => ∃ cell, cell ∈ ac_cells c ∧ r = resolution c cell (ar_reason r) ∧
      amc_theme_id cell = theme ∧ amc_role_id cell = role ∧
      (∃ v, v ∈ active_variants c role ∧ av_id v = amc_variant_id cell) ∧
      match preferred_cell c theme role preferred with
      | Some requested => cell = requested ∧ ar_reason r = ReasonExactVariant
      | None =>
          ar_reason r = match preferred with
                        | Some p => ReasonSameRoleFallback p | None => ReasonAutomatic end ∧
          ∃ before v after, active_variants c role = before ++ v :: after ∧
            av_id v = amc_variant_id cell ∧
            Forall (λ u, catalog_cell c theme role (av_id u) = None) before
      end
  | Err e => e = ACMissingRoleCoverage ∧ ¬ ∃ v, covered_by_variant c theme role v
  end.
Proof.
  intros Ht%has_theme_spec. unfold catalog_resolve. rewrite Z.eqb_refl, Ht. cbn [negb].
  case_bool_decide as Hlen.
  { split; [done|]. intros (v & Hv & _). apply nil_length_inv in Hlen. rewrite Hlen in Hv.
    by apply not_elem_of_nil in Hv. }
  destruct (preferred_cell c theme role preferred) as [cell|] eqn:Hp.
  - apply preferred_cell_Some in Hp as (p & -> & Hc & v & Hv & Hid).
    apply catalog_cell_Some in Hc as (? & ? & ? & ?). exists cell. split_and!; try done.
    exists v. split; [done|congruence].
  - destruct (find_map _ _) as [cell|] eqn:Hf; cbn [ok_or result_bind].
    + apply find_map_first in Hf as (before & v & after & Hs & Hc & Hb).
      apply catalog_cell_Some in Hc as (? & ? & ? & Hv). exists cell. split_and!; try done.
      * exists v. split; [|done]. rewrite Hs. set_solver.
      * by exists before, v, after.
    + split; [done|]. intros (v & Hv & [cell Hc]). apply find_map_None in Hf.
      rewrite Forall_forall in Hf. by rewrite (Hf v Hv) in Hc.
Qed.

(** A catalogue without missing cells covers every Theme: each role with an active
    variant that is not an output mapping resolves for every Theme, whatever variant
    was asked for. *)
Theorem complete_catalog_resolves c theme v preferred :
  missing_cells c = [] → theme ∈ at_id <$> ac_themes c → v ∈ ac_variants c →
  av_archived v = false → is_mapping (av_id v) = false →
  ∃ r, catalog_resolve c theme (av_role_id v) preferred (ac_revision c) = Ok r.
Proof.
  intros Hm Ht Hv Ha Hmap.
  assert (Hcell : is_Some (catalog_cell c theme (av_role_id v) (av_id v))).
  { destruct (catalog_cell c theme (av_role_id v) (av_id v)) eqn:Hc; [done|]. exfalso.
    apply list_elem_of_fmap in Ht as (t & -> & Ht).
    assert (mkMissingAutoloopCell (at_id t) (av_role_id v) (av_id v) ∈ missing_cells c) as Hin;
      [|rewrite Hm in Hin; by apply not_elem_of_nil in Hin].
    unfold missing_cells. apply list_elem_of_bind. exists t. split; [|done].
    apply list_elem_of_omap. exists v. split.
    - rewrite list_elem_of_In, List.filter_In, <- list_elem_of_In. by rewrite Ha, Hmap.
    - rewrite bool_decide_false; [done|]. rewrite elem_of_list_to_set.
      intros (cell & E & Hin)%list_elem_of_fmap.
      pose proof (catalog_cell_None _ _ _ _ cell Hc Hin) as Hf.
      unfold cell_key in E. injection E as E1 E2 E3.
      by rewrite (proj2 (cell_is_spec _ _ _ cell)) in Hf. }
  unfold catalog_resolve. rewrite Z.eqb_refl, (proj2 (has_theme_spec c theme) Ht). cbn [negb].
  assert (Hact : v ∈ active_variants c (av_role_id v)) by (by apply active_variants_elem).
  rewrite bool_decide_false by (intros E%nil_length_inv; rewrite E in Hact; by apply not_elem_of_nil in Hact).
  destruct (preferred_cell c theme (av_role_id v) preferred); [by eexists|].
  destruct (find_map _ _) eqn:Hf; [by eexists|]. apply find_map_None in Hf.
  rewrite Forall_forall in Hf. rewrite (Hf v Hact) in Hcell. by destruct Hcell.
Qed.

(** Filtering respects permutations. *)
Lemma filter_perm {A} (p : A → bool) (l k : list A) :
  l ≡ₚ k → List.filter p l ≡ₚ List.filter p k.
Proof.
  induction 1 as [|x l k _ IH|x y l|l k m _ IH1 _ IH2]; simpl; [done| | |by etrans].
  - destruct (p x); by rewrite IH.
  - destruct (p x), (p y); try done. apply perm_swap.
Qed.

(** ** Well-formed catalogues *)

Definition themes_ordered (themes : list AutoloopTheme) : Prop :=
  ∀ i t, themes !! i = Some t → at_sort_order t = Z.of_nat i + 1.

(** Each variant is numbered after those of its role before it. *)
Fixpoint variants_ordered (orders : gmap str Z) (variants : list AutoloopVariant) : Prop :=
  match variants with
  | [] => True
  | v :: rest =>
      av_sort_order v = next_order orders (av_role_id v) ∧
      variants_ordered (<[av_role_id v := next_order orders (av_role_id v)]> orders) rest
  end.

Lemma validate_variants_Ok variants : ∀ keys names orders,
  NoDup (variant_key <$> variants) → (∀ k, k ∈ variant_key <$> variants → k ∉ keys) →
  NoDup (variant_name <$> variants) → (∀ k, k ∈ variant_name <$> variants → k ∉ names) →
  variants_ordered orders variants →
  validate_variants keys names orders variants = Ok tt.
Proof.
  induction variants as [|v variants IH]; intros keys names orders Hk Hk' Hn Hn' Ho; [done|].
  rewrite fmap_cons in *. apply NoDup_cons in Hk as [Hv Hk], Hn as [Hv' Hn]. destruct Ho as [Ho Ho'].
  cbn [validate_variants]. rewrite bool_decide_false by (apply Hk'; by left).
  rewrite bool_decide_false by (apply Hn'; by left).
  rewrite Ho, Z.eqb_refl. cbn [negb].
  apply IH; try done; intros k Hin; rewrite elem_of_union, elem_of_singleton; intros [->|Hin'].
  - done.
  - apply (Hk' k); [by right|done].
  - done.
  - apply (Hn' k); [by right|done].
Qed.

Lemma validate_variants_inv variants : ∀ keys names orders,
  validate_variants keys names orders variants = Ok tt →
  NoDup (variant_key <$> variants) ∧ (∀ k, k ∈ variant_key <$> variants → k ∉ keys) ∧
  NoDup (variant_name <$> variants) ∧ (∀ k, k ∈ variant_name <$> variants → k ∉ names) ∧
  variants_ordered orders variants.
Proof.
  induction variants as [|v variants IH]; intros keys names orders; cbn [validate_variants].
  { intros _. split_and!; try constructor; intros k Hk; by apply not_elem_of_nil in Hk. }
  case_bool_decide as Hk; [done|]. case_bool_decide as Hn; [done|]. cbv zeta.
  destruct (Z.eqb_spec (av_sort_order v) (next_order orders (av_role_id v))) as [Ho|]; cbn [negb]; [|done].
  intros (H1 & H2 & H3 & H4 & H5)%IH. rewrite !fmap_cons, !NoDup_cons. split_and!; try done.
  - intros Hin. apply (H2 _ Hin). rewrite elem_of_union, elem_of_singleton. by left.
  - intros k [->|Hin]%elem_of_cons; [done|]. intros Hx. apply (H2 _ Hin). rewrite elem_of_union. by right.
  - intros Hin. apply (H4 _ Hin). rewrite elem_of_union, elem_of_singleton. by left.
  - intros k [->|Hin]%elem_of_cons; [done|]. intros Hx. apply (H4 _ Hin). rewrite elem_of_union. by right.
Qed.

(** A list over which a set of seen keys grows: what all the loops check. *)
Definition fresh {A K} `{Countable K} (key : A → K) (seen : gset K) (l : list A) : Prop :=
  NoDup (key <$> l) ∧ ∀ k, k ∈ key <$> l → k ∉ seen.

Lemma fresh_cons {A K} `{Countable K} (key : A → K) seen x l :
  fresh key seen (x :: l) ↔ key x ∉ seen ∧ fresh key ({[key x]} ∪ seen) l.
Proof.
  unfold fresh. rewrite fmap_cons, NoDup_cons. split.
  - intros ([Hx Hd] & Hs). split; [apply Hs; by left|]. split; [done|]. intros k Hk.
    rewrite elem_of_union, elem_of_singleton. intros [->|Hin]; [done|]. apply (Hs k); [by right|done].
  - intros (Hx & Hd & Hs). split_and!; [|done|].
    + intros Hin. apply (Hs _ Hin). rewrite elem_of_union, elem_of_singleton. by left.
    + intros k [->|Hk]%elem_of_cons; [done|]. intros Hin. apply (Hs k Hk). rewrite elem_of_union. by right.
Qed.

Lemma fresh_empty {A K} `{Countable K} (key : A → K) l : fresh key ∅ l ↔ NoDup (key <$> l).
Proof. unfold fresh. split; [by intros [? _]|]. intros ?. split; [done|]. intros k _. apply not_elem_of_empty. Qed.

Lemma validate_cells_Ok themes rows cells : ∀ keys entries,
  validate_cells themes rows keys entries cells = Ok tt ↔
  Forall (λ cell, amc_theme_id cell ∈ themes ∧ cell_row cell ∈ rows) cells ∧
  fresh cell_key keys cells ∧ fresh amc_entry_id entries cells.
Proof.
  induction cells as [|cell cells IH]; intros keys entries; cbn [validate_cells].
  { split; [|done]. intros _. split_and!; [constructor|..]; (split; [constructor|]);
      intros k Hk; by apply not_elem_of_nil in Hk. }
  rewrite Forall_cons, !fresh_cons. specialize (IH ({[cell_key cell]} ∪ keys) ({[amc_entry_id cell]} ∪ entries)).
  case_bool_decide; cbn [negb]; [|split; [done|tauto]].
  case_bool_decide; cbn [negb]; [|split; [done|tauto]].
  case_bool_decide; [split; [done|tauto]|]. case_bool_decide; [split; [done|tauto]|].
  rewrite IH. tauto.
Qed.

(** The cells whose variant is an output mapping. *)
Definition mapping_cells (cells : list AutoloopMatrixCell) : list AutoloopMatrixCell :=
  List.filter (λ cell, is_mapping (amc_variant_id cell)) cells.

Lemma validate_cell_mappings_Ok cells : ∀ keys,
  validate_cell_mappings keys cells = Ok tt ↔ fresh cell_mapping keys (mapping_cells cells).
Proof.
  induction cells as [|cell cells IH]; intros keys; cbn [validate_cell_mappings].
  { split; [|done]. intros _. split; [constructor|]. intros k Hk; by apply not_elem_of_nil in Hk. }
  unfold mapping_cells. cbn [List.filter]. fold (mapping_cells cells).
  destruct (is_mapping (amc_variant_id cell)); [|apply IH].
  rewrite fresh_cons. case_bool_decide; [split; [done|tauto]|]. rewrite IH. tauto.
Qed.

(** What the constructor accepts, and the names it was given. *)
Record catalog_valid c : Prop := {
  cv_revision : 0 < ac_revision c;
  cv_count : length (ac_themes c) = 4%nat;
  cv_themes : validate_themes ∅ ∅ 0 (ac_themes c) = Ok tt;
  cv_keys : NoDup (variant_key <$> ac_variants c);
  cv_names : NoDup (variant_name <$> ac_variants c);
  cv_order : variants_ordered ∅ (ac_variants c);
  cv_cells : Forall (λ cell, amc_theme_id cell ∈ at_id <$> ac_themes c ∧
                             cell_row cell ∈ variant_key <$> ac_variants c) (ac_cells c);
  cv_cell_keys : NoDup (cell_key <$> ac_cells c);
  cv_entries : NoDup (amc_entry_id <$> ac_cells c);
  cv_mappings : NoDup (cell_mapping <$> mapping_cells (ac_cells c));
  cv_variant_names : Forall (λ v, validated_name (av_display_name v) = Ok (av_display_name v))
                       (ac_variants c);
  cv_theme_ids : Forall (λ t, at_id t ≠ 0) (ac_themes c);
}.

Lemma catalog_revised_Ok c variants cells :
  catalog_valid c → ac_revision c < U64_MAX →
  NoDup (variant_key <$> variants) → NoDup (variant_name <$> variants) → variants_ordered ∅ variants →
  Forall (λ cell, amc_theme_id cell ∈ at_id <$> ac_themes c ∧ cell_row cell ∈ variant_key <$> variants) cells →
  NoDup (cell_key <$> cells) → NoDup (amc_entry_id <$> cells) →
  NoDup (cell_mapping <$> mapping_cells cells) →
  catalog_revised c (ac_themes c) variants cells =
    Ok (mkAutoloopCatalog (ac_revision c + 1) (ac_defaults_version c) (ac_themes c) variants cells).
Proof.
  intros Hc Hr H1 H2 H3 H4 H5 H6 H7. pose proof (cv_revision c Hc). unfold catalog_revised.
  assert (checked_add_u64 (ac_revision c) 1 = Some (ac_revision c + 1)) as ->
    by (apply checked_add_u64_Some; lia).
  cbn [ok_or result_bind]. unfold AutoloopCatalog_try_new.
  rewrite (proj2 (Z.eqb_neq _ _)) by lia. cbn [andb].
  rewrite (bool_decide_true (length (ac_themes c) = 4%nat)) by apply Hc. rewrite andb_false_r.
  rewrite (cv_themes c Hc). cbn [result_bind].
  rewrite validate_variants_Ok; try done; [|intros k _; apply not_elem_of_empty..]. cbn [result_bind].
  rewrite (proj2 (validate_cells_Ok _ _ cells ∅ ∅)); cbn [result_bind].
  - by rewrite (proj2 (validate_cell_mappings_Ok cells ∅)) by (by apply fresh_empty).
  - split_and!; [|by apply fresh_empty..]. eapply Forall_impl; [exact H4|].
    intros cell [? ?]. by rewrite !elem_of_list_to_set.
Qed.

(** *** Pruning renumbers the variants that are left *)

Lemma validated_name_idem s name : validated_name s = Ok name → validated_name name = Ok name.
Proof.
  unfold validated_name. case_bool_decide as H1; [done|].
  destruct (100 <? str_len (trim s)) eqn:H2; [done|]. intros [= <-].
  by rewrite trim_idem, bool_decide_false, H2.
Qed.

Definition renumbered (v v' : AutoloopVariant) : Prop :=
  variant_key v' = variant_key v ∧ av_display_name v' = av_display_name v ∧
  av_archived v' = av_archived v.

Definition orders_pos (orders : gmap str Z) : Prop := ∀ k n, orders !! k = Some n → 0 < n.

Lemma next_order_pos orders role : orders_pos orders → 0 < next_order orders role.
Proof.
  intros Ho. unfold next_order. destruct (orders !! role) eqn:E; [|lia]. apply Ho in E. lia.
Qed.

Lemma renumber_variants_Ok variants : ∀ orders,
  orders_pos orders → Forall (λ v, validated_name (av_display_name v) = Ok (av_display_name v)) variants →
  ∃ variants', renumber_variants orders variants = Ok variants' ∧
    Forall2 renumbered variants variants' ∧ variants_ordered orders variants'.
Proof.
  induction variants as [|v variants IH]; intros orders Ho Hv; cbn [renumber_variants]; [by exists []|].
  apply Forall_cons in Hv as [Hn Hv]. pose proof (next_order_pos orders (av_role_id v) Ho) as Hp.
  unfold rebuilt, AutoloopVariant_try_new. rewrite (proj2 (Z.eqb_neq _ _)) by lia. rewrite Hn.
  cbn [result_bind].
  destruct (IH (<[av_role_id v := next_order orders (av_role_id v)]> orders)) as (vs & -> & Hf & Hvo).
  { intros k n. destruct (decide (k = av_role_id v)) as [->|Hk].
    - rewrite lookup_insert_eq. by intros [= <-].
    - rewrite lookup_insert_ne by done. apply Ho. }
  { done. }
  cbn [result_bind]. eexists. split; [done|]. split; [by constructor|]. by split.
Qed.

Lemma renumbered_fmap {B} (f : AutoloopVariant → B) l l' :
  (∀ v v', renumbered v v' → f v' = f v) → Forall2 renumbered l l' → f <$> l' = f <$> l.
Proof. intros Hf. induction 1; [done|]. rewrite !fmap_cons. f_equal; auto. Qed.

Lemma renumbered_name v v' : renumbered v v' → variant_name v' = variant_name v.
Proof.
  intros (E & E' & _). unfold variant_name. unfold variant_key in E. injection E as E _. by rewrite E, E'.
Qed.

Lemma filter_NoDup_fmap {A B} (f : A → B) (p : A → bool) l :
  NoDup (f <$> l) → NoDup (f <$> List.filter p l).
Proof.
  induction l as [|x l IH]; [done|]. rewrite fmap_cons, NoDup_cons. intros [Hx Hd]. simpl.
  destruct (p x); [|auto]. rewrite fmap_cons, NoDup_cons. split; [|auto].
  intros (y & E & Hy)%list_elem_of_fmap. apply Hx. rewrite E. apply list_elem_of_fmap_2.
  rewrite list_elem_of_In, List.filter_In, <- list_elem_of_In in Hy. by destruct Hy.
Qed.

Lemma variant_used_spec cells v : variant_used cells v = true ↔ variant_key v ∈ cell_row <$> cells.
Proof.
  unfold variant_used. rewrite existsb_exists, list_elem_of_fmap. split.
  - intros (cell & Hin & Hb). rewrite andb_true_iff, !bool_decide_eq_true in Hb.
    exists cell. rewrite list_elem_of_In. split; [|done]. unfold variant_key, cell_row. destruct Hb; congruence.
  - intros (cell & E & Hin). exists cell. rewrite list_elem_of_In in Hin. split; [done|].
    unfold variant_key, cell_row in E. injection E as E1 E2.
    by rewrite andb_true_iff, !bool_decide_eq_true.
Qed.

(** A revision after pruning succeeds for sound cells over the given variants. *)
Lemma pruned_revision_Ok c variants cells :
  catalog_valid c → ac_revision c < U64_MAX →
  NoDup (variant_key <$> variants) → NoDup (variant_name <$> variants) →
  Forall (λ v, validated_name (av_display_name v) = Ok (av_display_name v)) variants →
  Forall (λ cell, amc_theme_id cell ∈ at_id <$> ac_themes c ∧ cell_row cell ∈ variant_key <$> variants) cells →
  NoDup (cell_key <$> cells) → NoDup (amc_entry_id <$> cells) →
  NoDup (cell_mapping <$> mapping_cells cells) →
  ∃ c', pruned_revision c variants cells = Ok c' ∧ catalog_valid c' ∧
    ac_cells c' ≡ₚ cells ∧ ac_themes c' = ac_themes c ∧ ac_revision c' = ac_revision c + 1.
Proof.
  intros Hc Hr Hk Hn Hv Hcells Hck He Hm. unfold pruned_revision, prune_unused_variants.
  set (kept := sort_variants (List.filter (variant_used cells) variants)).
  assert (Hp : kept ≡ₚ List.filter (variant_used cells) variants) by apply sort_by_perm.
  assert (Hkv : Forall (λ v, validated_name (av_display_name v) = Ok (av_display_name v)) kept).
  { rewrite Hp. rewrite Forall_forall in *. intros v Hin. apply Hv.
    rewrite list_elem_of_In, List.filter_In, <- list_elem_of_In in Hin. by destruct Hin. }
  destruct (renumber_variants_Ok kept ∅) as (vs & -> & Hf & Hvo); [done|done|]. cbn [result_bind].
  assert (Hkeys : variant_key <$> vs ≡ₚ variant_key <$> List.filter (variant_used cells) variants).
  { rewrite (renumbered_fmap variant_key kept vs); [by rewrite Hp| |done]. by intros ? ? (? & _). }
  assert (Hnames : variant_name <$> vs ≡ₚ variant_name <$> List.filter (variant_used cells) variants).
  { rewrite (renumbered_fmap variant_name kept vs); [by rewrite Hp|apply renumbered_name|done]. }
  set (cells' := sort_cells cells (ac_themes c) vs).
  assert (Hcp : cells' ≡ₚ cells) by apply sort_by_perm.
  assert (Hcells' : Forall (λ cell, amc_theme_id cell ∈ at_id <$> ac_themes c ∧
    cell_row cell ∈ variant_key <$> vs) cells').
  { rewrite Hcp. rewrite Forall_forall in *. intros cell Hin. destruct (Hcells cell Hin) as [? Hrow].
    split; [done|]. rewrite Hkeys. apply list_elem_of_fmap in Hrow as (v & E & Hvin).
    rewrite E. apply list_elem_of_fmap_2. rewrite list_elem_of_In, List.filter_In, <- list_elem_of_In.
    split; [done|]. apply variant_used_spec. rewrite <- E. by apply list_elem_of_fmap_2. }
  assert (Hmp : mapping_cells cells' ≡ₚ mapping_cells cells).
  { unfold mapping_cells. by apply filter_perm. }
  assert (NoDup (variant_key <$> vs)) by (rewrite Hkeys; by apply filter_NoDup_fmap).
  assert (NoDup (variant_name <$> vs)) by (rewrite Hnames; by apply filter_NoDup_fmap).
  assert (NoDup (cell_key <$> cells')) by (by rewrite Hcp).
  assert (NoDup (amc_entry_id <$> cells')) by (by rewrite Hcp).
  assert (NoDup (cell_mapping <$> mapping_cells cells')) by (by rewrite Hmp).
  rewrite catalog_revised_Ok by done. eexists. split; [done|]. split_and!; [|done..].
  pose proof (cv_revision c Hc).
  split; simpl; try done; [lia|apply Hc|apply Hc| |apply Hc].
  clear -Hf Hkv. induction Hf as [|v v' l l' (_ & E & _) _ IH]; [constructor|].
  apply Forall_cons in Hkv as [? ?]. constructor; [by rewrite E|auto].
Qed.

(** ** Editing output mappings *)

Lemma catalog_revised_inv c themes variants cells c' :
  catalog_revised c themes variants cells = Ok c' →
  c' = mkAutoloopCatalog (ac_revision c + 1) (ac_defaults_version c) themes variants cells ∧
  ac_revision c < U64_MAX ∧ validate_themes ∅ ∅ 0 themes = Ok tt ∧
  validate_variants ∅ ∅ ∅ variants = Ok tt ∧
  validate_cells (list_to_set (at_id <$> themes)) (list_to_set (variant_key <$> variants)) ∅ ∅ cells
    = Ok tt ∧ validate_cell_mappings ∅ cells = Ok tt.
Proof.
  unfold catalog_revised. intros H. unbind H. rename H into H'.
  match goal with E : _ = _ ∧ _ ≤ U64_MAX |- _ => destruct E as [-> Hle] end.
  unfold AutoloopCatalog_try_new in H'.
  destruct (_ && _); [done|]. destruct (_ && _); [done|]. unbind H'. injection H' as <-.
  repeat match goal with u : unit |- _ => destruct u end. split_and!; try done. lia.
Qed.

Lemma renumber_variants_names variants : ∀ orders variants',
  renumber_variants orders variants = Ok variants' →
  Forall (λ v, validated_name (av_display_name v) = Ok (av_display_name v)) variants'.
Proof.
  induction variants as [|v variants IH]; intros orders variants'; cbn [renumber_variants].
  { intros [= <-]. constructor. }
  intros H. unbind H. injection H as <-. constructor; [|by eapply IH].
  match goal with E : rebuilt _ _ _ _ = Ok _ |- _ => unfold rebuilt, AutoloopVariant_try_new in E;
    destruct (_ =? 0); [done|]; unbind E; injection E as <- end. simpl. by eapply validated_name_idem.
Qed.

(** A revision that succeeds is a valid catalogue with exactly the given cells. *)
Lemma pruned_revision_inv c variants cells c' :
  catalog_valid c → pruned_revision c variants cells = Ok c' →
  catalog_valid c' ∧ ac_cells c' ≡ₚ cells ∧ ac_themes c' = ac_themes c ∧
  ac_revision c' = ac_revision c + 1 ∧ ac_revision c < U64_MAX.
Proof.
  intros Hc H. unfold pruned_revision in H. unbind H.
  match goal with E : prune_unused_variants _ _ = Ok ?vs |- _ =>
    unfold prune_unused_variants in E; apply renumber_variants_names in E as Hn end.
  apply catalog_revised_inv in H as (-> & Hr & Ht & Hv & Hcs & Hm). cbn [ac_cells ac_themes ac_revision].
  split_and!; try done; [|apply sort_by_perm].
  apply validate_variants_inv in Hv as (Hk & _ & Hnm & _ & Ho).
  apply validate_cells_Ok in Hcs as (Hf & Hck%fresh_empty & He%fresh_empty).
  apply validate_cell_mappings_Ok, fresh_empty in Hm. pose proof (cv_revision c Hc).
  split; simpl; try done; [lia|apply Hc| |apply Hc].
  eapply Forall_impl; [exact Hf|]. intros cell [H1 H2].
  apply elem_of_list_to_set in H1. apply elem_of_list_to_set in H2. done.
Qed.

Lemma is_mapping_cell_spec theme mapping cell :
  is_mapping_cell theme mapping cell = true ↔ cell_mapping cell = (theme, mapping).
Proof.
  unfold is_mapping_cell, cell_mapping. rewrite andb_true_iff, Z.eqb_eq, bool_decide_eq_true.
  split; [by intros [-> ->]|by intros [= -> ->]].
Qed.

Lemma delete_position_filter {A} (f : A → bool) l : ∀ i,
  position f l = Some i → (length (List.filter f l) ≤ 1)%nat →
  delete i l = List.filter (λ x, negb (f x)) l.
Proof.
  induction l as [|x l IH]; intros i; cbn [position List.filter]; [done|].
  destruct (f x) eqn:Hx; cbn [negb].
  - intros [= <-] Hl. simpl in *. symmetry. destruct (List.filter f l) as [|y k] eqn:Hf; [|simpl in Hl; lia].
    apply forallb_filter_id. apply forallb_forall. intros y Hy. apply negb_true_iff.
    destruct (f y) eqn:Hfy; [|done].
    assert (Hin : In y (List.filter f l)) by (by apply List.filter_In). by rewrite Hf in Hin.
  - destruct (position f l) as [j|] eqn:Hp; simpl; [|done]. intros [= <-] Hl. simpl. f_equal. by apply IH.
Qed.

Lemma position_None_filter {A} (f : A → bool) l :
  position f l = None → List.filter (λ x, negb (f x)) l = l.
Proof.
  intros Hn. apply forallb_filter_id, forallb_forall. intros x Hx. apply negb_true_iff.
  eapply position_None; [exact Hn|by apply list_elem_of_In].
Qed.

(** A valid catalogue has at most one cell for an output mapping of a Theme. *)
Lemma mapping_cell_unique cells theme mapping :
  NoDup (cell_mapping <$> mapping_cells cells) → is_mapping mapping = true →
  (length (List.filter (is_mapping_cell theme mapping) cells) ≤ 1)%nat.
Proof.
  intros Hd Hm. induction cells as [|cell cells IH]; [simpl; lia|].
  unfold mapping_cells in Hd. cbn [List.filter] in *. fold (mapping_cells cells) in Hd.
  destruct (is_mapping_cell theme mapping cell) eqn:Hc.
  - apply is_mapping_cell_spec in Hc as E. unfold cell_mapping in E. injection E as _ E.
    rewrite E, Hm, fmap_cons, NoDup_cons in Hd. destruct Hd as [Hx _].
    enough (List.filter (is_mapping_cell theme mapping) cells = []) as -> by (simpl; lia).
    destruct (List.filter _ cells) as [|y k] eqn:Hf; [done|]. exfalso. apply Hx.
    assert (Hin : In y (List.filter (is_mapping_cell theme mapping) cells)) by (rewrite Hf; by left).
    apply List.filter_In in Hin as [Hin Hy]. apply is_mapping_cell_spec in Hc as ->, Hy as Hy'.
    rewrite <- Hy'. apply list_elem_of_fmap_2. unfold mapping_cells.
    rewrite list_elem_of_In, List.filter_In. split; [done|].
    unfold cell_mapping in Hy'. injection Hy' as _ ->. done.
  - apply IH. destruct (is_mapping _); [|done]. rewrite fmap_cons, NoDup_cons in Hd. by destruct Hd.
Qed.

Definition other_cells (theme : ThemeId) (mapping : VariantId) (cells : list AutoloopMatrixCell) :=
  List.filter (λ cell, negb (is_mapping_cell theme mapping cell)) cells.

Lemma take_mapping_rest c theme mapping :
  catalog_valid c → is_mapping mapping = true →
  snd (take_mapping theme mapping (ac_cells c)) = other_cells theme mapping (ac_cells c).
Proof.
  intros Hc Hm. unfold take_mapping. destruct (position _ _) as [i|] eqn:Hp; simpl.
  - apply delete_position_filter; [done|]. apply mapping_cell_unique; [apply Hc|done].
  - symmetry. by apply position_None_filter.
Qed.

Lemma filter_Forall {A} (P : A → Prop) (p : A → bool) l : Forall P l → Forall P (List.filter p l).
Proof. induction 1; simpl; [constructor|]. case_match; [by constructor|done]. Qed.

Lemma list_filter_comm {A} (p q : A → bool) l :
  List.filter p (List.filter q l) = List.filter q (List.filter p l).
Proof.
  induction l as [|x l IH]; [done|]. simpl.
  destruct (p x) eqn:Hp, (q x) eqn:Hq; simpl; rewrite ?Hp, ?Hq; congruence.
Qed.

(** Clearing a mapping of a valid catalogue removes exactly its cell. *)
Lemma clear_mapping_Ok c theme mapping cell :
  catalog_valid c → ac_revision c < U64_MAX → is_mapping mapping = true →
  cell ∈ ac_cells c → is_mapping_cell theme mapping cell = true →
  ∃ c', clear_mapping c theme mapping = Ok c' ∧ catalog_valid c' ∧
    ac_cells c' ≡ₚ other_cells theme mapping (ac_cells c).
Proof.
  intros Hc Hr Hm Hin Hcell. unfold clear_mapping.
  assert (Ht : theme ∈ at_id <$> ac_themes c).
  { pose proof (cv_cells c Hc) as Hf. rewrite Forall_forall in Hf. destruct (Hf _ Hin) as [Ht _].
    apply is_mapping_cell_spec in Hcell. unfold cell_mapping in Hcell. by injection Hcell as <- _. }
  rewrite (proj2 (has_theme_spec c theme) Ht). cbn [negb].
  destruct (position _ _) as [i|] eqn:Hp; [|by rewrite (position_None _ _ _ Hp Hin) in Hcell].
  rewrite (delete_position_filter _ _ _ Hp) by (apply mapping_cell_unique; [apply Hc|done]).
  destruct (pruned_revision_Ok c (ac_variants c) (other_cells theme mapping (ac_cells c)))
    as (c' & E & Hv & Hp' & _); try apply Hc; try done.
  - apply filter_Forall, Hc.
  - apply filter_NoDup_fmap, Hc.
  - apply filter_NoDup_fmap, Hc.
  - unfold mapping_cells, other_cells. pose proof (cv_mappings c Hc) as Hd. unfold mapping_cells in Hd.
    revert Hd. generalize (ac_cells c). clear. intros l Hd.
    apply (filter_NoDup_fmap cell_mapping (λ cell, negb (is_mapping_cell theme mapping cell))) in Hd.
    by rewrite list_filter_comm in Hd.
  - by exists c'.
Qed.

Lemma filter_none {A} (f : A → bool) l : List.filter f (List.filter (λ x, negb (f x)) l) = [].
Proof. induction l as [|x l IH]; [done|]. simpl. destruct (f x) eqn:Hx; simpl; [done|]. by rewrite Hx. Qed.

Lemma filter_idem {A} (f : A → bool) l : List.filter f (List.filter f l) = List.filter f l.
Proof. induction l as [|x l IH]; [done|]. simpl. destruct (f x) eqn:Hx; simpl; rewrite ?Hx; congruence. Qed.

(** The cell a successful edit adds, beside the cells of the other mappings. *)
Lemma set_mapping_Ok c theme mapping role name c' :
  catalog_valid c → is_mapping mapping = true →
  set_mapping c theme mapping role (Some name) = Ok c' →
  ac_revision c' = ac_revision c + 1 ∧ catalog_valid c' ∧
  ∃ cell, ac_cells c' ≡ₚ other_cells theme mapping (ac_cells c) ++ [cell] ∧
    cell_key cell = (theme, role, mapping) ∧ amc_display_name cell = trim name.
Proof.
  intros Hc Hm H. unfold set_mapping in H. destruct (negb (has_theme c theme)); [done|].
  pose proof (take_mapping_rest c theme mapping Hc Hm) as Hrest.
  destruct (take_mapping theme mapping (ac_cells c)) as [existing cells]. cbn [snd] in Hrest. subst cells.
  unbind H. match type of H with (if ?b then _ else _) = _ => destruct b; [done|] end. unbind H.
  match goal with E : AutoloopMatrixCell_try_new _ _ _ _ _ = Ok ?cell |- _ =>
    unfold AutoloopMatrixCell_try_new in E; destruct (theme =? 0); [done|]; unbind E; injection E as <- end.
  apply pruned_revision_inv in H as (Hv & Hp & _ & Hr & _); [|done]. split_and!; [done|done|].
  eexists. split; [exact Hp|]. split; [done|]. simpl.
  repeat match goal with E : validated_name _ = Ok _ |- _ => unfold validated_name in E;
    case_bool_decide; [done|]; destruct (100 <? _); [done|]; injection E as <- end.
  apply trim_idem.
Qed.

(** An output mapping that is set is found, and clearing it undoes it.  When
    setting the mapping of a Theme succeeds on a valid catalogue, the new catalogue is
    valid, its cell for the Theme, role and mapping carries the trimmed name, every cell
    of another mapping or Theme is kept, and clearing the mapping then succeeds and
    leaves exactly those other cells. *)
Theorem mapping_set_clear c theme mapping role name c' :
  catalog_valid c → ac_revision c + 1 < U64_MAX → is_mapping mapping = true →
  set_mapping c theme mapping role (Some name) = Ok c' →
  catalog_valid c' ∧ ac_revision c' = ac_revision c + 1 ∧
  (∃ cell, catalog_cell c' theme role mapping = Some cell ∧ amc_display_name cell = trim name) ∧
  other_cells theme mapping (ac_cells c') ≡ₚ other_cells theme mapping (ac_cells c) ∧
  ∃ c'', clear_mapping c' theme mapping = Ok c'' ∧ catalog_valid c'' ∧
    ac_cells c'' ≡ₚ other_cells theme mapping (ac_cells c).
Proof.
  intros Hc Hr Hm H. apply set_mapping_Ok in H as (Hr' & Hv & cell & Hp & Hk & Hn); [|done..].
  assert (Hkey : amc_theme_id cell = theme ∧ amc_role_id cell = role ∧ amc_variant_id cell = mapping).
  { unfold cell_key in Hk. by injection Hk as -> -> ->. }
  destruct Hkey as (E1 & E2 & E3).
  assert (Hin : cell ∈ ac_cells c') by (rewrite Hp; set_solver).
  assert (Hmc : is_mapping_cell theme mapping cell = true).
  { apply is_mapping_cell_spec. unfold cell_mapping. congruence. }
  assert (Ho : other_cells theme mapping (ac_cells c') ≡ₚ other_cells theme mapping (ac_cells c)).
  { unfold other_cells in *. rewrite (filter_perm _ _ _ Hp), List.filter_app, filter_idem. simpl.
    by rewrite Hmc, app_nil_r. }
  split_and!; try done.
  - destruct (catalog_cell c' theme role mapping) as [x|] eqn:Hx.
    + exists x. split; [done|]. apply catalog_cell_Some in Hx as (Hx & X1 & X2 & X3).
      enough (x = cell) as -> by done. pose proof (cv_cell_keys c' Hv) as Hd.
      apply list_elem_of_lookup in Hx as [i Hi], Hin as [j Hj].
      assert (i = j) as ->; [|congruence].
      eapply NoDup_lookup; [exact Hd|rewrite list_lookup_fmap, Hi; done|].
      rewrite list_lookup_fmap, Hj. simpl. unfold cell_key. congruence.
    + pose proof (catalog_cell_None _ _ _ _ cell Hx Hin) as Hf.
      by rewrite (proj2 (cell_is_spec _ _ _ cell)) in Hf.
  - destruct (clear_mapping_Ok c' theme mapping cell) as (c'' & E & Hv' & Hp'); [done|lia|done..|].
    exists c''. by rewrite Hp'.
Qed.

(** ** Witnesses *)

Definition demo_matrix : AutoloopCatalog :=
  let theme n := mkAutoloopTheme n (lit "Theme " ++ show_u n) n in
  mkAutoloopCatalog 3 AUTOLOOP_CATALOG_DEFAULTS_VERSION (theme <$> [1; 2; 3; 4])
    [mkAutoloopVariant (lit "drop") (lit "variant-1") (lit "Main") 1 false;
     mkAutoloopVariant (lit "drop") (lit "variant-2") (lit "Alternative") 2 false]
    ((λ n, mkAutoloopMatrixCell n (lit "drop") (lit "variant-1") (lit "entry-" ++ show_u n) (lit "Loop"))
       <$> [1; 2; 3; 4]).

Lemma demo_matrix_valid : catalog_valid demo_matrix.
Proof.
  split; try (by vm_compute); try (apply (bool_decide_unpack _); by vm_compute);
    repeat constructor; by vm_compute.
Qed.

Lemma catalog_resolve_spec_witness :
  ∃ r, catalog_resolve demo_matrix 2 (lit "drop") (Some (lit "variant-2")) 3 = Ok r ∧
    ar_reason r = ReasonSameRoleFallback (lit "variant-2") ∧
    ∃ cell, cell ∈ ac_cells demo_matrix ∧ r = resolution demo_matrix cell (ar_reason r).
Proof.
  assert (Ht : 2 ∈ at_id <$> ac_themes demo_matrix) by (apply (bool_decide_unpack _); by vm_compute).
  pose proof (catalog_resolve_spec demo_matrix 2 (lit "drop") (Some (lit "variant-2")) Ht) as H.
  destruct (catalog_resolve demo_matrix 2 (lit "drop") (Some (lit "variant-2")) 3) as [r|e] eqn:E;
    [|by vm_compute in E].
  exists r. split; [done|]. change (ac_revision demo_matrix) with 3 in H. rewrite E in H.
  destruct H as (cell & Hin & Hr & _ & _ & _ & Hp). split; [|by exists cell].
  assert (preferred_cell demo_matrix 2 (lit "drop") (Some (lit "variant-2")) = None) as Hn by by vm_compute.
  rewrite Hn in Hp. by destruct Hp as [-> _].
Defined.

Lemma complete_catalog_resolves_witness :
  ∃ c, missing_cells c = [] ∧ ∃ r, catalog_resolve c 2 (lit "drop") None (ac_revision c) = Ok r.
Proof.
  set (v := mkAutoloopVariant (lit "drop") (lit "variant-1") (lit "Main") 1 false).
  set (c := mkAutoloopCatalog 3 4 (ac_themes demo_matrix) [v] (ac_cells demo_matrix)).
  exists c. split; [by vm_compute|].
  apply (complete_catalog_resolves c 2 v None).
  - by vm_compute.
  - apply (bool_decide_unpack _); by vm_compute.
  - by left.
  - done.
  - by vm_compute.
Defined.

Lemma mapping_set_clear_witness :
  ∃ c', set_mapping demo_matrix 2 (lit "mapping-7") (lit "drop") (Some (lit " Strobe ")) = Ok c' ∧
    ∃ cell, catalog_cell c' 2 (lit "drop") (lit "mapping-7") = Some cell ∧
      amc_display_name cell = lit "Strobe".
Proof.
  destruct (set_mapping demo_matrix 2 (lit "mapping-7") (lit "drop") (Some (lit " Strobe "))) as [c'|e] eqn:E;
    [|by vm_compute in E].
  exists c'. split; [done|].
  destruct (mapping_set_clear demo_matrix 2 (lit "mapping-7") (lit "drop") (lit " Strobe ") c'
              demo_matrix_valid ltac:(by vm_compute) ltac:(by vm_compute) E) as (_ & _ & Hcell & _).
  by vm_compute in Hcell |- *.
Defined.
