(* ===== verification/DeckSource.v ===== *)
(** * Deck sources and what the runtime sees of them

    Models [lumi-deck-source/src/lib.rs], the port through which deck sources publish
    normalized events, as a class, with the state and error monad of its
    implementations.  The abstract view of the decks (which load is on which deck, at
    which beat and phrase, playing or not, and which deck leads) evolves by one
    observation at a time; the reducer implements it, whatever commands, plans and
    output results arrive in between. *)

From stdpp Require Import prelude list gmap strings.
From Stdlib Require Import ZArith Lia.
From S2P Require Import Prelude.
From S2P Require Import Track.
From S2P Require Import Plan.
From S2P Require Import Event.
From S2P Require Import State.
From S2P Require Import Reducer.
From S2P Require Import ReducerInv.
From S2P Require Import ReducerSafety.
From S2P Require Import ReducerProps.
Open Scope Z_scope.

(** ** The port *)

Class DeckSourceProvider (P E : Type) := {
  provider_kind : P → str;
  drain_events : P → P * result (list DomainEvent) E;
}.

(** ** The abstract view of the decks *)

Record DeckView := mkDeckView {
  dv_load : TrackLoadId;
  dv_metadata : TrackMetadata;
  dv_beat : Z;
  dv_phrase : option Z;
  dv_playing : bool;
}.

Record SourceView := mkSourceView {
  sv_decks : gmap Z DeckView;
  sv_leader : option DeckId;
}.

Definition empty_view : SourceView := mkSourceView ∅ None.

(** An observation of another load than the one on the deck is ignored. *)
Definition on_deck (v : SourceView) (d : DeckId) (load : TrackLoadId) (f : DeckView → DeckView) :
    SourceView :=
  match sv_decks v !! d with
  | Some k => if dv_load k =? load then mkSourceView (<[d := f k]> (sv_decks v)) (sv_leader v) else v
  | None => v
  end.

Definition view_step (v : SourceView) (o : DeckObservation) : SourceView :=
  match o with
  | SourceStatusChanged _ | PlaybackTempoChanged _ _ _ => v
  | TrackLoaded d m load =>
      mkSourceView (<[d := mkDeckView load m 0 None false]> (sv_decks v)) (sv_leader v)
  | TrackMetadataHydrated d m load =>
      on_deck v d load (λ k, mkDeckView load m (dv_beat k) (phrase_index_at_beat m (dv_beat k)) (dv_playing k))
  | PlaybackPosition d load beat =>
      on_deck v d load (λ k, if beat <? dv_beat k then k
                             else mkDeckView load (dv_metadata k) beat (dv_phrase k) (dv_playing k))
  | PlaybackPositionSeeked d load beat =>
      on_deck v d load (λ k, mkDeckView load (dv_metadata k) beat
                               (phrase_index_at_beat (dv_metadata k) beat) (dv_playing k))
  | PlaybackStateChanged d load playing =>
      on_deck v d load (λ k, mkDeckView load (dv_metadata k) (dv_beat k) (dv_phrase k) playing)
  | TrackUnloaded d load =>
      match sv_decks v !! d with
      | Some k =>
          if dv_load k =? load then
            mkSourceView (delete d (sv_decks v))
              (if bool_decide (sv_leader v = Some d) then None else sv_leader v)
          else v
      | None => v
      end
  | PhraseChanged d load i =>
      on_deck v d load (λ k, if bool_decide (is_Some (TrackMetadata_phrase (dv_metadata k) i))
                             then mkDeckView load (dv_metadata k) (dv_beat k) (Some i) (dv_playing k)
                             else k)
  | LeaderChanged d load =>
      match sv_decks v !! d with
      | Some k => if dv_load k =? load then mkSourceView (sv_decks v) (Some d) else v
      | None => v
      end
  end.

Definition view_run (v : SourceView) (os : list DeckObservation) : SourceView := foldl view_step v os.

Definition deck_view (k : DeckState) : DeckView :=
  mkDeckView (deck_track_load_id k) (deck_metadata k) (deck_beat k) (deck_phrase_index k) (deck_playing k).

Definition view_of (s : RuntimeState) : SourceView :=
  mkSourceView (deck_view <$> rs_decks s) (rs_leader_deck s).

(** ** The reducer implements the view *)

Lemma view_of_insert s d k :
  view_of (set_decks (<[d := k]> (rs_decks s)) s) =
  mkSourceView (<[d := deck_view k]> (sv_decks (view_of s))) (sv_leader (view_of s)).
Proof. unfold view_of. simpl. by rewrite fmap_insert. Qed.

Lemma insert_same_view s d k : rs_decks s !! d = Some k →
  mkSourceView (<[d := deck_view k]> (sv_decks (view_of s))) (sv_leader (view_of s)) = view_of s.
Proof. intros Hk. unfold view_of. simpl. f_equal. apply insert_id. by rewrite lookup_fmap, Hk. Qed.

Lemma forget_scheduled_cue_view d s : view_of (forget_scheduled_cue d s) = view_of s.
Proof. unfold forget_scheduled_cue. by case_match. Qed.

Lemma forget_active_plan_view d s : view_of (forget_active_plan d s) = view_of s.
Proof. unfold forget_active_plan. by case_match. Qed.

Lemma schedule_or_view s d load i at_ otherwise s' decision effects :
  schedule_or s d load i at_ otherwise = Ok (s', decision, effects) → view_of s' = view_of s.
Proof.
  intros (eff & He & _)%schedule_or_spec.
  by apply execution_effect_spec in He as [[-> _]|(r & plan & cue & _ & _ & _ & _ & _ & _ & _ & _ & ->)].
Qed.

Lemma load_track_view d m load at_ s :
  view_of (load_track d m load at_ s) =
  mkSourceView (<[d := mkDeckView load m 0 None false]> (sv_decks (view_of s))) (sv_leader (view_of s)).
Proof.
  unfold load_track. cbv zeta. rewrite forget_active_plan_view, forget_scheduled_cue_view.
  unfold view_of. simpl. by rewrite fmap_insert.
Qed.

Lemma lookup_view s d : sv_decks (view_of s) !! d = deck_view <$> rs_decks s !! d.
Proof. apply lookup_fmap. Qed.

(** An arm that updates the deck of the load, or ignores the observation. *)
Lemma on_deck_update s d k f k' :
  rs_decks s !! d = Some k → f (deck_view k) = deck_view k' →
  view_of (set_decks (<[d := k']> (rs_decks s)) s) = on_deck (view_of s) d (deck_track_load_id k) f.
Proof.
  intros Hk Hf. unfold on_deck. rewrite lookup_view, Hk. simpl. rewrite Z.eqb_refl, Hf.
  apply view_of_insert.
Qed.

Lemma on_deck_keep s d k f :
  rs_decks s !! d = Some k → f (deck_view k) = deck_view k →
  view_of s = on_deck (view_of s) d (deck_track_load_id k) f.
Proof.
  intros Hk Hf. unfold on_deck. rewrite lookup_view, Hk. simpl. rewrite Z.eqb_refl, Hf.
  symmetry. by apply insert_same_view.
Qed.

Lemma on_deck_other s d l f :
  (∀ k, rs_decks s !! d = Some k → deck_track_load_id k ≠ l) → view_of s = on_deck (view_of s) d l f.
Proof.
  intros Hk. unfold on_deck. rewrite lookup_view. destruct (rs_decks s !! d) as [k|]; [|done]. simpl.
  by rewrite (proj2 (Z.eqb_neq _ _)) by auto.
Qed.

(** Splits on the deck of the observation and on its load. *)
Ltac deck_arm H s d l :=
  let k := fresh "k" in let Hk := fresh "Hk" in
  destruct (rs_decks s !! d) as [k|] eqn:Hk;
    [destruct (Z.eqb_spec (deck_track_load_id k) l) as [<-|]; cbn [negb andb] in H
    |injection H as <- _ _; apply on_deck_other; by rewrite Hk];
    [|injection H as <- _ _; apply on_deck_other; rewrite Hk; by intros ? [= <-]].

Lemma observe_position_view s d l b at_ s' decision effects :
  observe_position s d l b at_ = Ok (s', decision, effects) →
  view_of s' = view_step (view_of s) (PlaybackPosition d l b).
Proof.
  unfold observe_position. intros H. simpl. deck_arm H s d l.
  destruct (b <? deck_beat k) eqn:Hb; injection H as <- _ _.
  - apply on_deck_keep; [done|]. simpl. by rewrite Hb.
  - apply on_deck_update; [done|]. simpl. by rewrite Hb.
Qed.

Lemma observe_seeked_view s d l b at_ s' decision effects :
  observe_seeked s d l b at_ = Ok (s', decision, effects) →
  view_of s' = view_step (view_of s) (PlaybackPositionSeeked d l b).
Proof.
  unfold observe_seeked. intros H. simpl. deck_arm H s d l.
  transitivity (view_of (set_decks (<[d := mkDeckState (deck_metadata k) (deck_track_load_id k) b
    (deck_effective_bpm_milli k) (deck_playing k) (phrase_index_at_beat (deck_metadata k) b) at_]>
    (rs_decks s)) s)); [|by apply on_deck_update].
  repeat case_match; simplify_eq; rewrite ?forget_scheduled_cue_view; try done.
  by apply schedule_or_view in H as ->; rewrite forget_scheduled_cue_view.
Qed.

Lemma observe_playback_view s d l p at_ s' decision effects :
  observe_playback s d l p at_ = Ok (s', decision, effects) →
  view_of s' = view_step (view_of s) (PlaybackStateChanged d l p).
Proof.
  unfold observe_playback. intros H. simpl. deck_arm H s d l.
  transitivity (view_of (set_decks (<[d := mkDeckState (deck_metadata k) (deck_track_load_id k)
    (deck_beat k) (deck_effective_bpm_milli k) p (deck_phrase_index k) at_]> (rs_decks s)) s));
    [|by apply on_deck_update].
  repeat case_match; simplify_eq; rewrite ?forget_scheduled_cue_view; try done.
  by apply schedule_or_view in H.
Qed.

Lemma observe_phrase_view s d l i at_ s' decision effects :
  observe_phrase s d l i at_ = Ok (s', decision, effects) →
  view_of s' = view_step (view_of s) (PhraseChanged d l i).
Proof.
  unfold observe_phrase. intros H. simpl. deck_arm H s d l. case_bool_decide as Hp.
  - transitivity (view_of (set_decks (<[d := mkDeckState (deck_metadata k) (deck_track_load_id k)
      (deck_beat k) (deck_effective_bpm_milli k) (deck_playing k) (Some i) at_]> (rs_decks s)) s));
      [|apply on_deck_update; [done|]; simpl; by rewrite bool_decide_true].
    destruct (_ || _); [by injection H as <- _ _|]. by apply schedule_or_view in H.
  - injection H as <- _ _. apply on_deck_keep; [done|]. simpl. by rewrite bool_decide_false.
Qed.

Lemma observe_unloaded_view s d l s' decision effects :
  observe_unloaded s d l = Ok (s', decision, effects) →
  view_of s' = view_step (view_of s) (TrackUnloaded d l).
Proof.
  unfold observe_unloaded. intros H. simpl. rewrite lookup_fmap.
  destruct (rs_decks s !! d) as [k|] eqn:Hk; [|by injection H as <- _ _]. simpl.
  destruct (deck_track_load_id k =? l); [|by injection H as <- _ _]. injection H as <- _ _.
  rewrite forget_scheduled_cue_view, forget_active_plan_view.
  case_bool_decide as Hl; unfold view_of; simpl in *; by rewrite fmap_delete, ?Hl.
Qed.

Lemma observe_leader_view s d l at_ s' decision effects :
  observe_leader s d l at_ = Ok (s', decision, effects) →
  view_of s' = view_step (view_of s) (LeaderChanged d l).
Proof.
  unfold observe_leader. intros H. simpl. rewrite lookup_fmap.
  destruct (rs_decks s !! d) as [k|] eqn:Hk; [|by injection H as <- _ _]. simpl.
  destruct (deck_track_load_id k =? l); [|by injection H as <- _ _].
  repeat case_match; simplify_eq; try done. by apply schedule_or_view in H.
Qed.

Lemma dispatch_view s event s' decision effects :
  dispatch_observation s event = Ok (s', decision, effects) →
  view_of s' = view_step (view_of s) (obs_observation event).
Proof.
  unfold dispatch_observation.
  destruct (obs_observation event) as [st|d m l|d m l|d l b|d l b|d l b|d l p|d l|d l i|d l]; intros H.
  - by injection H as <- _ _.
  - injection H as <- _ _. apply load_track_view.
  - unfold observe_hydrated in H. simpl. deck_arm H s d l. injection H as <- _ _. by apply on_deck_update.
  - by eapply observe_position_view.
  - by eapply observe_seeked_view.
  - unfold observe_tempo in H. simpl.
    destruct (rs_decks s !! d) as [k|] eqn:Hk; [|by injection H as <- _ _].
    destruct (_ && _); injection H as <- _ _; [|done]. rewrite view_of_insert. by apply (insert_same_view s d k).
  - by eapply observe_playback_view.
  - by eapply observe_unloaded_view.
  - by eapply observe_phrase_view.
  - by eapply observe_leader_view.
Qed.

(** ** Runs *)

Definition observation_of (e : DomainEvent) : option ObservationEnvelope :=
  match e with Observation o => Some o | _ => None end.

Definition observations (es : list DomainEvent) : list ObservationEnvelope := omap observation_of es.

(** Events that are not observations leave the view alone. *)
Lemma reduce_event_view s e s' decision effects changed :
  reduce_event s e = Ok (s', decision, effects, changed) → observation_of e = None → view_of s' = view_of s.
Proof.
  destruct e as [at_|o|c|r|q]; simpl; [| done | | |].
  - unfold reduce_runtime_started. destruct (negb _); [done|]. by intros [= <- _ _ _].
  - unfold reduce_command. destruct (sequence_stale _ _ _); [by intros [= <- _ _ _]|].
    destruct (negb _); [done|]. destruct (operation_target _ _) as [[]|]; [..|done].
    1,2,4: by intros [= <- _ _ _].
    destruct (current_execution _) as [[[d load] i]|]; [|by intros [= <- _ _ _]].
    rewrite result_bind_Ok. intros ([s1 eff] & He & [= <- _ _ _]) _.
    by apply execution_effect_spec in He as [[-> _]|(? & ? & ? & _ & _ & _ & _ & _ & _ & _ & _ & ->)].
  - unfold reduce_effect_result. destruct (sequence_stale _ _ _); [by intros [= <- _ _ _]|].
    destruct (eff_result r) as [plan|out|]; [|by intros [= <- _ _ _]..].
    unfold reduce_plan_generated. destruct (rs_decks _ !! _); [|by intros [= <- _ _ _]].
    destruct (_ || _); [by intros [= <- _ _ _]|]. rewrite result_bind_Ok.
    intros (rev & _ & H). destruct (_ <? _); [by simplify_eq|].
    destruct (negb _); [done|]. simplify_eq. by case_bool_decide.
  - intros [= <- _ _ _] _. by case_bool_decide.
Qed.

(** What the reducer remembers of each source. *)
Definition source_marks (s : RuntimeState) : gmap Z Z * gmap Z Z :=
  (rs_source_sequences s, rs_source_times s).

Lemma forget_scheduled_cue_marks d s : source_marks (forget_scheduled_cue d s) = source_marks s.
Proof. unfold forget_scheduled_cue. by case_match. Qed.

Lemma forget_active_plan_marks d s : source_marks (forget_active_plan d s) = source_marks s.
Proof. unfold forget_active_plan. by case_match. Qed.

Lemma execution_effect_marks s d load i at_ s' eff :
  execution_effect s d load i at_ = Ok (s', eff) → source_marks s' = source_marks s.
Proof.
  by intros [[-> _]|(r & plan & cue & _ & _ & _ & _ & _ & _ & _ & _ & ->)]%execution_effect_spec.
Qed.

Lemma schedule_or_marks s d load i at_ otherwise s' decision effects :
  schedule_or s d load i at_ otherwise = Ok (s', decision, effects) → source_marks s' = source_marks s.
Proof. intros (eff & He & _)%schedule_or_spec. by eapply execution_effect_marks. Qed.

Lemma dispatch_marks s event s' decision effects :
  dispatch_observation s event = Ok (s', decision, effects) → source_marks s' = source_marks s.
Proof.
  unfold dispatch_observation, observe_hydrated, observe_position, observe_seeked, observe_tempo,
    observe_playback, observe_unloaded, observe_phrase, observe_leader.
  intros H. repeat (case_match; try done); simplify_eq; try done;
    try (apply schedule_or_marks in H; rewrite H); unfold load_track;
    by rewrite ?forget_active_plan_marks, ?forget_scheduled_cue_marks, ?forget_active_plan_marks.
Qed.

Lemma reduce_event_marks s e s' decision effects changed :
  reduce_event s e = Ok (s', decision, effects, changed) → observation_of e = None →
  source_marks s' = source_marks s.
Proof.
  destruct e as [at_|o|c|r|q]; simpl; [| done | | |].
  - unfold reduce_runtime_started. destruct (negb _); [done|]. by intros [= <- _ _ _].
  - unfold reduce_command. destruct (sequence_stale _ _ _); [by intros [= <- _ _ _]|].
    destruct (negb _); [done|]. destruct (operation_target _ _) as [[]|]; [..|done].
    1,2,4: by intros [= <- _ _ _].
    destruct (current_execution _) as [[[d load] i]|]; [|by intros [= <- _ _ _]].
    rewrite result_bind_Ok. intros ([s1 eff] & He & [= <- _ _ _]) _.
    by apply execution_effect_marks in He.
  - unfold reduce_effect_result. destruct (sequence_stale _ _ _); [by intros [= <- _ _ _]|].
    destruct (eff_result r) as [plan|out|]; [|by intros [= <- _ _ _]..].
    unfold reduce_plan_generated. destruct (rs_decks _ !! _); [|by intros [= <- _ _ _]].
    destruct (_ || _); [by intros [= <- _ _ _]|]. rewrite result_bind_Ok.
    intros (rev & _ & H). destruct (_ <? _); [by simplify_eq|].
    destruct (negb _); [done|]. simplify_eq. by case_bool_decide.
  - intros [= <- _ _ _] _. by case_bool_decide.
Qed.

Lemma finish_reduction_view e s decision effects changed r :
  finish_reduction e s decision effects changed = Ok r →
  view_of (red_state r) = view_of s ∧ source_marks (red_state r) = source_marks s ∧
  rs_processed_events (red_state r) = rs_processed_events s + 1.
Proof. intros (_ & _ & ->)%finish_reduction_Ok. by destruct changed. Qed.

(** The observations one source publishes: numbered upwards, at times that do not go
    back. *)
Fixpoint ordered_stream (source last at_ : Z) (os : list ObservationEnvelope) : Prop :=
  match os with
  | [] => True
  | o :: os =>
      obs_source_id o = source ∧ last < obs_sequence o ∧ at_ ≤ obs_observed_at o ∧
      ordered_stream source (obs_sequence o) (obs_observed_at o) os
  end.

Definition mark_le (marks : gmap Z Z) (source n : Z) : Prop := ∀ m, marks !! source = Some m → m ≤ n.

(** One step of the serialized loop, seen from the view and the marks. *)
Lemma step_event_cases s e :
  let s' := (step_event s e).1 in
  s' = s ∨ ∃ s1 decision effects changed, reduce_event s e = Ok (s1, decision, effects, changed) ∧
    view_of s' = view_of s1 ∧ source_marks s' = source_marks s1 ∧
    rs_processed_events s' = rs_processed_events s + 1.
Proof.
  unfold step_event. destruct (reduce s e) as [r|] eqn:Hr; [right|by left]. simpl.
  apply reduce_Ok in Hr as (s1 & Hev & Hfin & _). exists s1. repeat eexists; [exact Hev| | |];
    apply finish_reduction_view in Hfin as (? & ? & Hp); [done|done|].
  pose proof (reduce_event_ok _ _ _ _ _ _ Hev) as [[Hled _] _]. injection Hled as _ Hprc _ _. lia.
Qed.

Lemma step_other_view s e :
  observation_of e = None →
  let s' := (step_event s e).1 in
  view_of s' = view_of s ∧ source_marks s' = source_marks s ∧
  rs_processed_events s' ≤ rs_processed_events s + 1.
Proof.
  intros He. destruct (step_event_cases s e) as [Hs|(s1 & dec & ef & ch & Hev & Hv & Hm & Hp)]; simpl.
  - rewrite Hs. split_and!; [done|done|lia].
  - rewrite Hv, Hm, Hp. split_and!; [|by eapply reduce_event_marks|lia].
    by eapply reduce_event_view.
Qed.

(** A fresh observation of a source is always taken. *)
Lemma step_observation_view s o last at_ :
  state_wf s → rs_processed_events s < U64_MAX →
  mark_le (rs_source_sequences s) (obs_source_id o) last → last < obs_sequence o →
  mark_le (rs_source_times s) (obs_source_id o) at_ → at_ ≤ obs_observed_at o →
  let s' := (step_event s (Observation o)).1 in
  view_of s' = view_step (view_of s) (obs_observation o) ∧
  mark_le (rs_source_sequences s') (obs_source_id o) (obs_sequence o) ∧
  mark_le (rs_source_times s') (obs_source_id o) (obs_observed_at o) ∧
  rs_processed_events s' ≤ rs_processed_events s + 1.
Proof.
  intros Hs Hp Hm Hl Ht Ha. simpl.
  assert (sequence_stale (rs_source_sequences s) (obs_source_id o) (obs_sequence o) = false) as Hfresh.
  { unfold sequence_stale. destruct (_ !! _) as [m|] eqn:E; [|done]. apply Hm in E. lia. }
  assert (time_regressed (rs_source_times s) (obs_source_id o) (obs_observed_at o) = false) as Htime.
  { unfold time_regressed. destruct (_ !! _) as [m|] eqn:E; [|done]. apply Ht in E. lia. }
  assert (is_ok (reduce s (Observation o))) as [r Hr].
  { apply reduce_is_ok; [done|done|]. apply reduce_observation_total. pose proof (wf_commands _ Hs). lia. }
  unfold step_event. rewrite Hr. simpl. apply reduce_Ok in Hr as (s1 & Hev & Hfin & _).
  pose proof (reduce_event_ok _ _ _ _ _ _ Hev) as [[Hled _] _]. injection Hled as _ Hprc _ _.
  apply finish_reduction_view in Hfin as (-> & Hmk & Hpr). simpl in Hev. unfold reduce_observation in Hev.
  rewrite Hfresh in Hev. cbn [set_source_sequences rs_source_times] in Hev. rewrite Htime in Hev.
  apply result_bind_Ok in Hev as ([[s2 dec] effs] & Hd & Hx). injection Hx as <- _ _ _.
  apply dispatch_marks in Hd as Hdm. apply dispatch_view in Hd as ->.
  rewrite Hdm in Hmk. injection Hmk as H1 H2. split_and!; [done| | |lia].
  - intros n. rewrite H1. simpl. rewrite lookup_insert_eq. intros [= <-]. lia.
  - intros n. rewrite H2. simpl. rewrite lookup_insert_eq. intros [= <-]. lia.
Qed.

(** The runtime implements the view of its deck source: however commands, plans,
    output results and overload reports are interleaved with the observations of a
    source, the decks and the leader of the state are those of the abstract view. *)
Lemma run_view source es : ∀ s last at_,
  state_wf s → Forall event_wf es → rs_processed_events s + Z.of_nat (length es) ≤ U64_MAX →
  mark_le (rs_source_sequences s) source last → mark_le (rs_source_times s) source at_ →
  ordered_stream source last at_ (observations es) →
  view_of (run_events s es).1 = view_run (view_of s) (obs_observation <$> observations es).
Proof.
  induction es as [|e es IH]; intros s last at_ Hs He Hp Hm Ht Ho; [done|].
  apply Forall_cons in He as [He Hes]. rewrite run_events_cons. cbn [fst].
  assert (Hs' : state_wf (step_event s e).1).
  { unfold step_event. destruct (reduce s e) as [r|] eqn:Hr; [|done]. by eapply reduce_preserves_wf. }
  rewrite length_cons, Nat2Z.inj_succ in Hp.
  destruct (observation_of e) as [o|] eqn:Heo.
  - destruct e as [|o'| | |]; try done. injection Heo as ->.
    change (observations (Observation o :: es)) with (o :: observations es) in *.
    destruct Ho as (<- & Hl & Ha & Ho).
    destruct (step_observation_view s o last at_) as (Hv & Hm' & Ht' & Hp'); try done; [lia|].
    rewrite (IH _ (obs_sequence o) (obs_observed_at o)) by (done || lia). by rewrite Hv.
  - assert (observations (e :: es) = observations es) as Eo by (unfold observations; simpl; by rewrite Heo).
    rewrite Eo in *.
    destruct (step_other_view s e Heo) as (Hv & Hmk & Hp').
    pose proof Hmk as [= H1 H2].
    rewrite (IH _ last at_); [by rewrite Hv|done|done|lia|by rewrite H1|by rewrite H2|done].
Qed.

(** ** Streams of observations *)

Lemma ordered_stream_weaken source l t l' t' os :
  ordered_stream source l t os → l' ≤ l → t' ≤ t → ordered_stream source l' t' os.
Proof. destruct os as [|o os]; simpl; [done|]. intros (? & ? & ? & ?) ? ?. split_and!; [done|lia|lia|done]. Qed.

Definition before (l t : Z) (o : ObservationEnvelope) : Prop := obs_sequence o ≤ l ∧ obs_observed_at o ≤ t.

Lemma ordered_stream_app source os1 os2 l1 t1 : ∀ l t,
  ordered_stream source l t os1 → Forall (before l1 t1) os1 → l ≤ l1 → t ≤ t1 →
  ordered_stream source l1 t1 os2 → ordered_stream source l t (os1 ++ os2).
Proof.
  induction os1 as [|o os1 IH]; intros l t; simpl.
  - intros _ _ ? ? Ho. by eapply ordered_stream_weaken.
  - intros (? & ? & ? & Ho) [[? ?] Hf]%Forall_cons ? ? Ho2. split_and!; try done. by apply IH.
Qed.

Lemma observations_app es1 es2 : observations (es1 ++ es2) = observations es1 ++ observations es2.
Proof. apply omap_app. Qed.

Lemma observations_fmap os : observations (Observation <$> os) = os.
Proof. induction os as [|o os IH]; [done|]. unfold observations in *. simpl. f_equal. exact IH. Qed.

(** The runtime sees what the source published, however it is interleaved. *)
Lemma runtime_shows source t0 sent es :
  ordered_stream source 0 t0 sent → Forall (λ o, observation_wf (obs_observation o)) sent →
  observations es = sent → Forall (λ e, observation_of e = None → event_wf e) es →
  Z.of_nat (length es) ≤ U64_MAX →
  view_of (run_events RuntimeState_default es).1 = view_run empty_view (obs_observation <$> sent).
Proof.
  intros Ho Hf <- Hw Hn. rewrite (run_view source es RuntimeState_default 0 t0); try done.
  - apply state_wf_default.
  - rewrite Forall_forall in *. intros e He. destruct (observation_of e) as [o|] eqn:E; [|by apply Hw].
    destruct e as [|o'| | |]; try done. injection E as ->. simpl. rewrite Forall_forall in Hf. apply Hf.
    unfold observations. apply list_elem_of_omap. by exists (Observation o).
Qed.
