(* ===== verification/Publishing.v ===== *)
(** * Publishing observations

    What the deck sources share: each numbers the observations it emits and keeps them
    until they are drained.  A section states, for any provider whose [emit] does that, the
    rules by which its methods are executed symbolically: an assertion names the part of
    the state the provider is about, and the abstract view of everything published. *)

From stdpp Require Import prelude list gmap strings.
From Stdlib Require Import ZArith Lia.
From S2P Require Import Prelude.
From S2P Require Import Track.
From S2P Require Import Event.
From S2P Require Import State.
From S2P Require Import Reducer.
From S2P Require Import ReducerProps.
From S2P Require Import DeckSource.
Open Scope Z_scope.

(** The part of a provider that publishes. *)
Record Publication := mkPublication {
  pub_source : SourceId;
  pub_sequence : Z;
  pub_pending : list DomainEvent;
}.

Definition publish (t : MonotonicTime) (n : Z) (o : DeckObservation) (b : Publication) : Publication :=
  mkPublication (pub_source b) n
    (pub_pending b ++ [Observation (mkObservationEnvelope (pub_source b) n t o)]).

(** A provider [P] with its publication and the rest [R] of its state that matters. *)
Class Publisher (P R : Type) := {
  publication : P → Publication;
  remainder : P → R;
}.

(** [emit] publishes the next observation, or fails with an overflow of the numbers. *)
Definition emits {P R E} `{Publisher P R} (overflow : E)
    (emit : MonotonicTime → DeckObservation → method P E unit) : Prop :=
  ∀ t o p,
    match checked_add_u64 (pub_sequence (publication p)) 1 with
    | Some n => (emit t o p).2 = Ok tt ∧ remainder (emit t o p).1 = remainder p ∧
        publication (emit t o p).1 = publish t n o (publication p)
    | None => (emit t o p).2 = Err overflow
    end.

Section Publishing.
Context {P R E : Type} `{Publisher P R}.
(** What was drained before, and the source and the time of the first call. *)
Variables (source : SourceId) (t0 : Z).

Definition all_sent (drained : list DomainEvent) (p : P) : list ObservationEnvelope :=
  observations (drained ++ pub_pending (publication p)).

Definition all_shown (drained : list DomainEvent) (p : P) : SourceView :=
  view_run empty_view (obs_observation <$> all_sent drained p).

Record publishing (drained : list DomainEvent) (t : Z) (p : P) : Prop := {
  pb_source : pub_source (publication p) = source;
  pb_sequence : 0 ≤ pub_sequence (publication p);
  pb_time : t0 ≤ t;
  pb_stream : ordered_stream source 0 t0 (all_sent drained p);
  pb_before : Forall (before (pub_sequence (publication p)) t) (all_sent drained p);
  pb_wf : Forall (λ o, observation_wf (obs_observation o)) (all_sent drained p);
}.

(** The state a method works on. *)
Record state_at (drained : list DomainEvent) (t : Z) (x : R) (v : SourceView) (p : P) : Prop := {
  sa_publishing : publishing drained t p;
  sa_remainder : remainder p = x;
  sa_view : all_shown drained p = v;
}.

Lemma publishing_later drained t t' p : publishing drained t p → t ≤ t' → publishing drained t' p.
Proof.
  intros [? ? ? ? Hb ?] ?. split; try done; [lia|]. eapply Forall_impl; [exact Hb|].
  intros o [? ?]. split; lia.
Qed.

Lemma state_later drained t t' x v p : state_at drained t x v p → t ≤ t' → state_at drained t' x v p.
Proof. intros [? ? ?] ?. split; [by eapply publishing_later|done|done]. Qed.

Lemma rule_emit (overflow : E) emit drained t x v o (F : E → P → Prop) :
  emits overflow emit → observation_wf o → (∀ p, F overflow p) →
  triple (state_at drained t x v) (emit t o) (post (λ _, state_at drained t x (view_step v o)) F).
Proof.
  intros Hemit Ho HF p [[H1 H2 H3 H4 H5 H6] Hx Hv]. specialize (Hemit t o p).
  destruct (checked_add_u64 _ _) as [n|] eqn:En; [|rewrite Hemit; apply HF].
  destruct Hemit as (-> & Hr & Hp). apply checked_add_u64_Some in En as [-> _]. simpl.
  set (q := (emit t o p).1) in *. set (b := publication p) in *.
  assert (all_sent drained q = all_sent drained p ++ [mkObservationEnvelope source (pub_sequence b + 1) t o]) as Es.
  { unfold all_sent. rewrite Hp. simpl. fold b. by rewrite app_assoc, observations_app, H1. }
  split; [|congruence|].
  - split; rewrite ?Es, ?Hp; simpl; try done; try lia.
    + apply (ordered_stream_app source _ _ (pub_sequence b) t); [done|done|done|done|].
      simpl. split_and!; try done; lia.
    + apply Forall_app. split; [|repeat constructor; simpl; lia].
      eapply Forall_impl; [exact H5|]. intros e [? ?]. split; lia.
    + apply Forall_app. split; [done|]. by repeat constructor.
  - unfold all_shown in *. rewrite Es, fmap_app. unfold view_run in *. rewrite foldl_app. simpl. by rewrite Hv.
Qed.

(** A change of the rest of the state. *)
Lemma state_change drained t x v p (q : P) :
  state_at drained t x v p → publication q = publication p → state_at drained t (remainder q) v q.
Proof.
  intros [[H1 H2 H3 H4 H5 H6] Hx Hv] Eq.
  assert (all_sent drained q = all_sent drained p) as Es by (unfold all_sent; by rewrite Eq).
  split; [|done|unfold all_shown; by rewrite Es]. split; rewrite ?Es, ?Eq; done.
Qed.

Lemma rule_modify drained t x y v f (F : E → P → Prop) :
  (∀ p, publication (f p) = publication p) → (∀ p, remainder p = x → remainder (f p) = y) →
  triple (state_at drained t x v) (method_modify f) (post (λ _, state_at drained t y v) F).
Proof.
  intros Hp Hr p Hs. simpl. rewrite <- (Hr p (sa_remainder _ _ _ _ _ Hs)). by eapply state_change.
Qed.

(** Draining moves the pending events to the drained ones. *)
Lemma state_drain drained t x v p (q : P) :
  state_at drained t x v p → remainder q = remainder p →
  publication q = mkPublication (pub_source (publication p)) (pub_sequence (publication p)) [] →
  state_at (drained ++ pub_pending (publication p)) t x v q.
Proof.
  intros [[H1 H2 H3 H4 H5 H6] Hx Hv] Er Ep.
  assert (all_sent (drained ++ pub_pending (publication p)) q = all_sent drained p) as Es.
  { unfold all_sent. rewrite Ep. simpl. by rewrite app_nil_r. }
  split; [|congruence|unfold all_shown; by rewrite Es]. split; rewrite ?Es, ?Ep; done.
Qed.

(** What the runtime shows of everything published. *)
Lemma state_shows drained t x v p es :
  state_at drained t x v p →
  observations es = observations (drained ++ pub_pending (publication p)) →
  Forall (λ e, observation_of e = None → event_wf e) es → Z.of_nat (length es) ≤ U64_MAX →
  view_of (run_events RuntimeState_default es).1 = v.
Proof.
  intros [Hp _ Hv] He Hw Hn. rewrite <- Hv.
  by apply (runtime_shows source t0); [apply Hp|apply Hp|..].
Qed.
End Publishing.

(** ** The view of one deck *)

Definition put (v : SourceView) (d : DeckId) (w : DeckView) : SourceView := mkSourceView (<[d := w]> (sv_decks v)) (sv_leader v).

(** What an observation of its load does to a deck. *)
Definition deck_step (w : DeckView) (o : DeckObservation) : DeckView :=
  match o with
  | PlaybackPosition _ load beat =>
      if beat <? dv_beat w then w else mkDeckView load (dv_metadata w) beat (dv_phrase w) (dv_playing w)
  | PlaybackPositionSeeked _ load beat =>
      mkDeckView load (dv_metadata w) beat (phrase_index_at_beat (dv_metadata w) beat) (dv_playing w)
  | PlaybackStateChanged _ load playing =>
      mkDeckView load (dv_metadata w) (dv_beat w) (dv_phrase w) playing
  | PhraseChanged _ load i =>
      if bool_decide (is_Some (TrackMetadata_phrase (dv_metadata w) i))
      then mkDeckView load (dv_metadata w) (dv_beat w) (Some i) (dv_playing w) else w
  | TrackMetadataHydrated _ m load =>
      mkDeckView load m (dv_beat w) (phrase_index_at_beat m (dv_beat w)) (dv_playing w)
  | _ => w
  end.

(** The observations of the load on a deck that stays loaded. *)
Definition of_deck (d : DeckId) (load : TrackLoadId) (o : DeckObservation) : Prop :=
  match o with
  | PlaybackPosition d' l _ | PlaybackPositionSeeked d' l _ | PlaybackStateChanged d' l _
  | PhraseChanged d' l _ | PlaybackTempoChanged d' l _ | TrackMetadataHydrated d' _ l => d' = d ∧ l = load
  | _ => False
  end.

Lemma deck_step_load (w : DeckView) o d : of_deck d (dv_load w) o → dv_load (deck_step w o) = dv_load w.
Proof. destruct o; simpl; intros H; try done; destruct H as [? ->]; try done; by case_match. Qed.

Lemma put_step v d (w : DeckView) o : of_deck d (dv_load w) o → view_step (put v d w) o = put v d (deck_step w o).
Proof.
  destruct o; simpl; intros H; try done; destruct H as [-> ->]; try done;
    unfold on_deck, put; simpl; rewrite lookup_insert_eq, Z.eqb_refl, insert_insert_eq; try done.
Qed.

Lemma put_self v d (w : DeckView) : sv_decks v !! d = Some w → put v d w = v.
Proof. intros H. unfold put. rewrite insert_id by done. by destruct v. Qed.

(** The title of a track that is announced before its metadata is known. *)
Lemma external_title_named n : str_is_blank (lit "External track " ++ show_u n) = false.
Proof. apply not_true_is_false. rewrite str_is_blank_spec. simpl. intros E. by apply Forall_inv in E. Qed.
