(* ===== verification/LocalPlayback.v ===== *)
(** * Local playback

    Models [lumi-local-playback/src/lib.rs]: the deck source of the desktop
    application, which turns the transport of its two local decks into normalized
    observations.  Every method of the provider is one definition; the [BTreeMap] of
    the decks is a [gmap], read in the order of the decks where the code iterates.
    The proofs relate what the provider believes to what the runtime sees. *)

From stdpp Require Import prelude list gmap strings.
From Stdlib Require Import ZArith Lia.
From S2P Require Import Prelude.
From S2P Require Import Track.
From S2P Require Import Plan.
From S2P Require Import Event.
From S2P Require Import State.
From S2P Require Import Reducer.
From S2P Require Import ReducerProps.
From S2P Require Import Demo.
From S2P Require Import DeckSource.
Open Scope Z_scope.

Definition LOCAL_SOURCE_ID : Z := 20.

Record LocalDeck := mkLocalDeck {
  ld_track_load_id : TrackLoadId;
  ld_metadata : TrackMetadata;
  ld_beat : Z;
  ld_phrase_index : Z;
  ld_playing : bool;
  ld_pending_phrase_activation : bool;
}.

Record LocalPlaybackDeckSourceProvider := mkLocalPlayback {
  lp_source_id : SourceId;
  lp_decks : gmap Z LocalDeck;
  lp_leader_deck_id : option DeckId;
  lp_next_track_load_id : Z;
  lp_sequence : Z;
  lp_pending_events : list DomainEvent;
}.

Inductive LocalPlaybackError : Type :=
| LPUnknownDeck (deck_id : DeckId)
| LPDeckNotLoaded (deck_id : DeckId)
| LPStaleTrackLoad (expected actual : TrackLoadId)
| LPTrackLoadIdOverflow
| LPSequenceOverflow.

Notation provider := LocalPlaybackDeckSourceProvider.
Notation local A := (method provider LocalPlaybackError A).

Implicit Types p : provider.

Definition set_lp_decks (x : gmap Z LocalDeck) p : provider :=
  mkLocalPlayback (lp_source_id p) x (lp_leader_deck_id p) (lp_next_track_load_id p) (lp_sequence p)
    (lp_pending_events p).
Definition set_lp_leader (x : option DeckId) p : provider :=
  mkLocalPlayback (lp_source_id p) (lp_decks p) x (lp_next_track_load_id p) (lp_sequence p)
    (lp_pending_events p).
Definition set_lp_next_track_load_id (x : Z) p : provider :=
  mkLocalPlayback (lp_source_id p) (lp_decks p) (lp_leader_deck_id p) x (lp_sequence p)
    (lp_pending_events p).

(** ** Operations *)

Definition validate_deck (deck_id : DeckId) : result unit LocalPlaybackError :=
  if (deck_id =? 1) || (deck_id =? 2) then Ok tt else Err (LPUnknownDeck deck_id).

Definition local_emit (at_ : MonotonicTime) (observation : DeckObservation) : local unit := λ p,
  match checked_add_u64 (lp_sequence p) 1 with
  | None => (p, Err LPSequenceOverflow)
  | Some sequence =>
      (mkLocalPlayback (lp_source_id p) (lp_decks p) (lp_leader_deck_id p) (lp_next_track_load_id p)
         sequence
         (lp_pending_events p ++
            [Observation (mkObservationEnvelope (lp_source_id p) sequence at_ observation)]),
       Ok tt)
  end.

Definition LocalPlayback_new (at_ : MonotonicTime) : provider * result unit LocalPlaybackError :=
  local_emit at_ (SourceStatusChanged SourceReady) (mkLocalPlayback LOCAL_SOURCE_ID ∅ None 1 0 []).

(** [self.decks.get(&deck_id).ok_or(DeckNotLoaded(deck_id))?] *)
Definition loaded_deck (deck_id : DeckId) : local LocalDeck := λ p,
  (p, ok_or (lp_decks p !! deck_id) (LPDeckNotLoaded deck_id)).

Definition emit_position_state (deck_id : DeckId) (at_ : MonotonicTime) : local unit :=
  let! deck := loaded_deck deck_id in
  do! local_emit at_ (PlaybackPosition deck_id (ld_track_load_id deck) 0) then
  do! local_emit at_ (PhraseChanged deck_id (ld_track_load_id deck) 0) then
  local_emit at_ (PlaybackStateChanged deck_id (ld_track_load_id deck) false).

Definition set_leader (deck_id : DeckId) (at_ : MonotonicTime) : local unit :=
  let! deck := loaded_deck deck_id in
  do! method_modify (set_lp_leader (Some deck_id)) then
  local_emit at_ (LeaderChanged deck_id (ld_track_load_id deck)).

Definition local_load_track (deck_id : DeckId) (metadata : TrackMetadata) (at_ : MonotonicTime) :
    local TrackLoadId :=
  do! method_result (validate_deck deck_id) then
  let! previous := method_get (λ p, lp_decks p !! deck_id) in
  do! match previous with
      | Some previous => local_emit at_ (TrackUnloaded deck_id (ld_track_load_id previous))
      | None => method_ret tt
      end then
  let! track_load_id := method_get lp_next_track_load_id in
  let! next := method_result (ok_or (checked_add_u64 track_load_id 1) LPTrackLoadIdOverflow) in
  do! method_modify (set_lp_next_track_load_id next) then
  do! method_modify (λ p, set_lp_decks
        (<[deck_id := mkLocalDeck track_load_id metadata 0 0 false true]> (lp_decks p)) p) then
  do! local_emit at_ (TrackLoaded deck_id metadata track_load_id) then
  do! emit_position_state deck_id at_ then
  let! leader := method_get lp_leader_deck_id in
  do! match leader with None => set_leader deck_id at_ | Some _ => method_ret tt end then
  method_ret track_load_id.

(** The phrase at a beat, or the last one behind the end. *)
Definition local_phrase (metadata : TrackMetadata) (beat : Z) : Z :=
  match List.find (λ phrase, (tp_start_beat phrase <=? beat) && (beat <? tp_end_beat phrase))
          (tm_phrases metadata) with
  | Some phrase => tp_index phrase
  | None => match last (tm_phrases metadata) with Some phrase => tp_index phrase | None => 0 end
  end.

Definition update_transport (deck_id : DeckId) (track_load_id : TrackLoadId) (beat : Z)
    (playing : bool) (at_ : MonotonicTime) : local unit :=
  let! deck := loaded_deck deck_id in
  if negb (ld_track_load_id deck =? track_load_id)
  then method_fail (LPStaleTrackLoad (ld_track_load_id deck) track_load_id)
  else
    let duration := tm_duration_beats (ld_metadata deck) in
    let normalized_beat := Z.min beat duration in
    let phrase_index := local_phrase (ld_metadata deck) normalized_beat in
    let normalized_playing := playing && (normalized_beat <? duration) in
    let phrase_changed := negb (ld_phrase_index deck =? phrase_index) in
    let started_playing := negb (ld_playing deck) && normalized_playing in
    let should_activate_phrase :=
      normalized_playing && (phrase_changed || (started_playing && ld_pending_phrase_activation deck)) in
    let pending :=
      if phrase_changed && negb normalized_playing then true
      else if should_activate_phrase then false
      else ld_pending_phrase_activation deck in
    do! method_modify (λ p, set_lp_decks
          (<[deck_id := mkLocalDeck track_load_id (ld_metadata deck) normalized_beat phrase_index
                          normalized_playing pending]> (lp_decks p)) p) then
    do! (if negb (ld_beat deck =? normalized_beat) then
           local_emit at_ (if normalized_beat <? ld_beat deck
                           then PlaybackPositionSeeked deck_id track_load_id normalized_beat
                           else PlaybackPosition deck_id track_load_id normalized_beat)
         else method_ret tt) then
    do! (if negb (Bool.eqb (ld_playing deck) normalized_playing) then
           local_emit at_ (PlaybackStateChanged deck_id track_load_id normalized_playing)
         else method_ret tt) then
    if phrase_changed || should_activate_phrase
    then local_emit at_ (PhraseChanged deck_id track_load_id phrase_index)
    else method_ret tt.

(** The decks in the order of their identifiers, as the map iterates. *)
Definition loaded_decks p : list (Z * LocalDeck) := sort_by_key fst (map_to_list (lp_decks p)).

Fixpoint unload_all (at_ : MonotonicTime) (loaded : list (Z * LocalDeck)) : local unit :=
  match loaded with
  | [] => method_ret tt
  | (deck_id, deck) :: loaded =>
      do! local_emit at_ (TrackUnloaded deck_id (ld_track_load_id deck)) then
      unload_all at_ loaded
  end.

Definition local_clear (at_ : MonotonicTime) : local unit :=
  let! loaded := method_get loaded_decks in
  do! unload_all at_ loaded then
  do! method_modify (set_lp_decks ∅) then
  method_modify (set_lp_leader None).

#[global] Instance local_deck_source : DeckSourceProvider provider LocalPlaybackError := {
  provider_kind _ := lit "localPlayback";
  drain_events p :=
    (mkLocalPlayback (lp_source_id p) (lp_decks p) (lp_leader_deck_id p) (lp_next_track_load_id p)
       (lp_sequence p) [],
     Ok (lp_pending_events p));
}.

(** ** What an operation publishes *)

Definition numbered (source sequence at_ : Z) (os : list DeckObservation) : list ObservationEnvelope :=
  imap (λ i o, mkObservationEnvelope source (sequence + 1 + Z.of_nat i) at_ o) os.

Definition emitted (at_ : Z) (os : list DeckObservation) p : provider :=
  mkLocalPlayback (lp_source_id p) (lp_decks p) (lp_leader_deck_id p) (lp_next_track_load_id p)
    (lp_sequence p + Z.of_nat (length os))
    (lp_pending_events p ++ (Observation <$> numbered (lp_source_id p) (lp_sequence p) at_ os)).

Lemma numbered_app source sequence at_ os1 os2 :
  numbered source sequence at_ (os1 ++ os2) =
  numbered source sequence at_ os1 ++
  numbered source (sequence + Z.of_nat (length os1)) at_ os2.
Proof.
  unfold numbered. rewrite imap_app. f_equal. apply imap_ext. intros i o _. simpl. f_equal. lia.
Qed.

Lemma numbered_observations source sequence at_ os :
  obs_observation <$> numbered source sequence at_ os = os.
Proof. unfold numbered. rewrite fmap_imap. by apply list_eq; intros i; rewrite list_lookup_imap; destruct (os !! i). Qed.

Lemma emitted_nil at_ p : emitted at_ [] p = p.
Proof. unfold emitted. simpl. rewrite Z.add_0_r, app_nil_r. by destruct p. Qed.

Lemma emitted_app at_ os1 os2 p : emitted at_ os2 (emitted at_ os1 p) = emitted at_ (os1 ++ os2) p.
Proof.
  unfold emitted. simpl. rewrite numbered_app, fmap_app, length_app, app_assoc. f_equal. lia.
Qed.

Lemma local_emit_Ok at_ o p :
  lp_sequence p < U64_MAX → local_emit at_ o p = (emitted at_ [o] p, Ok tt).
Proof.
  intros Hs. unfold local_emit.
  rewrite (proj2 (checked_add_u64_Some (lp_sequence p) 1 (lp_sequence p + 1))) by lia.
  unfold emitted, numbered. simpl. by rewrite Z.add_0_r.
Qed.

(** Emissions and changes of the decks and the leader are independent. *)
Lemma emitted_set_decks at_ os x p : set_lp_decks x (emitted at_ os p) = emitted at_ os (set_lp_decks x p).
Proof. done. Qed.

Lemma emitted_set_leader at_ os x p : set_lp_leader x (emitted at_ os p) = emitted at_ os (set_lp_leader x p).
Proof. done. Qed.

Lemma emitted_set_next at_ os x p :
  set_lp_next_track_load_id x (emitted at_ os p) = emitted at_ os (set_lp_next_track_load_id x p).
Proof. done. Qed.

Definition position_state (d : DeckId) (load : TrackLoadId) : list DeckObservation :=
  [PlaybackPosition d load 0; PhraseChanged d load 0; PlaybackStateChanged d load false].

Lemma emit_position_state_Ok d at_ p deck :
  lp_decks p !! d = Some deck → lp_sequence p + 3 ≤ U64_MAX →
  emit_position_state d at_ p = (emitted at_ (position_state d (ld_track_load_id deck)) p, Ok tt).
Proof.
  intros Hd Hs. unfold emit_position_state, method_bind, loaded_deck. rewrite Hd. cbn [ok_or].
  rewrite local_emit_Ok by lia. cbv iota beta.
  rewrite local_emit_Ok by (simpl; lia). cbv iota beta.
  rewrite local_emit_Ok by (simpl; lia). by rewrite !emitted_app.
Qed.

Lemma set_leader_spec d at_ p :
  lp_sequence p < U64_MAX →
  set_leader d at_ p =
  match lp_decks p !! d with
  | Some deck => (emitted at_ [LeaderChanged d (ld_track_load_id deck)] (set_lp_leader (Some d) p), Ok tt)
  | None => (p, Err (LPDeckNotLoaded d))
  end.
Proof.
  intros Hs. unfold set_leader, method_bind, loaded_deck. destruct (lp_decks p !! d); cbn [ok_or]; [|done].
  unfold method_modify. by rewrite local_emit_Ok.
Qed.

(** What loading a track publishes. *)
Definition load_observations p (d : DeckId) (m : TrackMetadata) : list DeckObservation :=
  let load := lp_next_track_load_id p in
  match lp_decks p !! d with Some deck => [TrackUnloaded d (ld_track_load_id deck)] | None => [] end
  ++ TrackLoaded d m load :: position_state d load
  ++ match lp_leader_deck_id p with None => [LeaderChanged d load] | Some _ => [] end.

Definition loaded p (d : DeckId) (m : TrackMetadata) : provider :=
  set_lp_leader (match lp_leader_deck_id p with None => Some d | leader => leader end)
    (set_lp_decks (<[d := mkLocalDeck (lp_next_track_load_id p) m 0 0 false true]> (lp_decks p))
      (set_lp_next_track_load_id (lp_next_track_load_id p + 1) p)).

Lemma load_track_spec d m at_ p :
  lp_sequence p + 6 ≤ U64_MAX → lp_next_track_load_id p < U64_MAX →
  local_load_track d m at_ p =
  match validate_deck d with
  | Ok _ => (emitted at_ (load_observations p d m) (loaded p d m), Ok (lp_next_track_load_id p))
  | Err e => (p, Err e)
  end.
Proof.
  intros Hs Hn. unfold local_load_track, method_bind at 1, method_result at 1.
  destruct (validate_deck d) as [[]|e]; [|done].
  unfold method_bind at 1, method_get at 1. cbv iota beta.
  set (unload := match lp_decks p !! d with
                 | Some deck => [TrackUnloaded d (ld_track_load_id deck)] | None => [] end).
  assert (Hu : (length unload ≤ 1)%nat) by (unfold unload; case_match; simpl; lia).
  assert (E : match lp_decks p !! d with
     | Some previous => local_emit at_ (TrackUnloaded d (ld_track_load_id previous))
     | None => method_ret tt
     end p = (emitted at_ unload p, Ok tt)).
  { unfold unload. destruct (lp_decks p !! d); [apply local_emit_Ok; lia|].
    unfold method_ret. by rewrite emitted_nil. }
  unfold method_bind at 1. rewrite E. unfold method_bind at 1, method_get at 1. cbv iota beta.
  cbn [emitted lp_next_track_load_id]. unfold method_bind at 1, method_result at 1.
  rewrite (proj2 (checked_add_u64_Some (lp_next_track_load_id p) 1 (lp_next_track_load_id p + 1))) by lia.
  cbn [ok_or]. unfold method_bind at 1 2, method_modify. cbv iota beta.
  unfold method_bind at 1. rewrite local_emit_Ok by (simpl; lia).
  unfold method_bind at 1.
  rewrite (emit_position_state_Ok d at_ _ (mkLocalDeck (lp_next_track_load_id p) m 0 0 false true))
    by (simpl; rewrite ?lookup_insert_eq; done || lia).
  unfold method_bind at 1, method_get. cbv iota beta.
  rewrite !emitted_set_next, !emitted_set_decks, !emitted_app.
  match goal with |- context [match lp_leader_deck_id ?q with _ => _ end] =>
    change (lp_leader_deck_id q) with (lp_leader_deck_id p) end.
  unfold method_bind, load_observations, loaded. fold unload.
  destruct (lp_leader_deck_id p) as [leader|] eqn:Hl.
  - unfold method_ret. f_equal. rewrite app_nil_r. unfold set_lp_leader, emitted. simpl. by rewrite Hl.
  - rewrite set_leader_spec by (simpl; rewrite length_app; simpl; lia).
    cbn [emitted lp_decks set_lp_decks].
    rewrite lookup_insert_eq. f_equal. rewrite emitted_set_leader, emitted_app, <- app_assoc. done.
Qed.

(** The deck after a transport update, and what the update publishes. *)
Definition moved (deck : LocalDeck) (beat : Z) (playing : bool) : LocalDeck :=
  let duration := tm_duration_beats (ld_metadata deck) in
  let b := Z.min beat duration in
  let i := local_phrase (ld_metadata deck) b in
  let plays := playing && (b <? duration) in
  let changed := negb (ld_phrase_index deck =? i) in
  let activate := plays && (changed || (negb (ld_playing deck) && plays && ld_pending_phrase_activation deck)) in
  mkLocalDeck (ld_track_load_id deck) (ld_metadata deck) b i plays
    (if changed && negb plays then true else if activate then false
     else ld_pending_phrase_activation deck).

Definition transport_observations (d : DeckId) (deck : LocalDeck) (beat : Z) (playing : bool) :
    list DeckObservation :=
  let after := moved deck beat playing in
  let load := ld_track_load_id deck in
  let changed := negb (ld_phrase_index deck =? ld_phrase_index after) in
  let activate := ld_playing after &&
    (changed || (negb (ld_playing deck) && ld_playing after && ld_pending_phrase_activation deck)) in
  (if ld_beat deck =? ld_beat after then []
   else if ld_beat after <? ld_beat deck then [PlaybackPositionSeeked d load (ld_beat after)]
   else [PlaybackPosition d load (ld_beat after)])
  ++ (if Bool.eqb (ld_playing deck) (ld_playing after) then []
      else [PlaybackStateChanged d load (ld_playing after)])
  ++ (if changed || activate then [PhraseChanged d load (ld_phrase_index after)] else []).

Lemma emit_if at_ (b : bool) o p :
  lp_sequence p < U64_MAX →
  (if b then local_emit at_ o else method_ret tt) p = (emitted at_ (if b then [o] else []) p, Ok tt).
Proof. intros Hs. destruct b; [by apply local_emit_Ok|]. by rewrite emitted_nil. Qed.

Lemma update_transport_spec d load beat playing at_ p :
  lp_sequence p + 3 ≤ U64_MAX →
  update_transport d load beat playing at_ p =
  match lp_decks p !! d with
  | None => (p, Err (LPDeckNotLoaded d))
  | Some deck =>
      if ld_track_load_id deck =? load then
        (emitted at_ (transport_observations d deck beat playing)
           (set_lp_decks (<[d := moved deck beat playing]> (lp_decks p)) p), Ok tt)
      else (p, Err (LPStaleTrackLoad (ld_track_load_id deck) load))
  end.
Proof.
  intros Hs. unfold update_transport, method_bind at 1, loaded_deck.
  destruct (lp_decks p !! d) as [deck|]; cbn [ok_or]; [|done].
  destruct (Z.eqb_spec (ld_track_load_id deck) load) as [<-|]; cbn [negb]; [|done]. cbv zeta.
  unfold method_bind at 1, method_modify. cbv iota beta.
  unfold method_bind at 1. rewrite emit_if by (simpl; lia). cbv iota beta.
  unfold method_bind at 1. rewrite emit_if by (simpl; case_match; simpl; lia). cbv iota beta.
  rewrite emit_if by (simpl; repeat case_match; simpl; lia). rewrite !emitted_app. do 2 f_equal.
  unfold transport_observations, moved. simpl. f_equal; [|f_equal].
  - destruct (_ =? _); [done|]. simpl. by destruct (_ <? _).
  - by destruct (Bool.eqb _ _).
Qed.

Definition unloads (decks : list (Z * LocalDeck)) : list DeckObservation :=
  (λ '(d, k), TrackUnloaded d (ld_track_load_id k)) <$> decks.

Lemma unload_all_spec at_ decks : ∀ p,
  lp_sequence p + Z.of_nat (length decks) ≤ U64_MAX →
  unload_all at_ decks p = (emitted at_ (unloads decks) p, Ok tt).
Proof.
  induction decks as [|[d k] decks IH]; intros p Hs; cbn [unload_all]; [by rewrite emitted_nil|].
  rewrite length_cons in Hs. unfold method_bind. rewrite local_emit_Ok by lia.
  rewrite IH by (simpl; lia). by rewrite emitted_app.
Qed.

Lemma clear_spec at_ p :
  lp_sequence p + Z.of_nat (length (loaded_decks p)) ≤ U64_MAX →
  local_clear at_ p =
  (emitted at_ (unloads (loaded_decks p)) (set_lp_leader None (set_lp_decks ∅ p)), Ok tt).
Proof.
  intros Hs. unfold local_clear, method_bind at 1, method_get. cbv iota beta.
  unfold method_bind. by rewrite unload_all_spec.
Qed.

(** ** Provider and view agree *)

Definition phrase_seen (m : TrackMetadata) (i : Z) : option Z :=
  match tm_phrases m with [] => None | _ => Some i end.

Definition shown (k : LocalDeck) : DeckView :=
  mkDeckView (ld_track_load_id k) (ld_metadata k) (ld_beat k)
    (phrase_seen (ld_metadata k) (ld_phrase_index k)) (ld_playing k).

(** The decks are the same; the leader is the same, or missing from the view. *)
Record agrees p (v : SourceView) : Prop := {
  ag_decks : sv_decks v = shown <$> lp_decks p;
  ag_leader : sv_leader v = lp_leader_deck_id p ∨ sv_leader v = None;
}.

(** Metadata of the machine's widths. *)
Definition track_typed (m : TrackMetadata) : Prop :=
  metadata_wf m ∧ in_u32 (tm_duration_beats m) ∧ Forall (λ ph, in_u16 (tp_index ph)) (tm_phrases m).

Record local_deck_wf (k : LocalDeck) : Prop := {
  lk_track : track_typed (ld_metadata k);
  lk_beat : 0 ≤ ld_beat k ≤ tm_duration_beats (ld_metadata k);
  lk_phrase : ld_phrase_index k = local_phrase (ld_metadata k) (ld_beat k);
}.

Lemma metadata_partition m :
  metadata_wf m → tm_phrases m ≠ [] →
  indexed 0 (tm_phrases m) ∧ tiles 0 (tm_phrases m) (tm_duration_beats m).
Proof. intros [_ [?|?]] ?; [done|done]. Qed.

Lemma phrase_at_beat m b :
  metadata_wf m → tm_phrases m ≠ [] → 0 ≤ b < tm_duration_beats m →
  phrase_index_at_beat m b = Some (local_phrase m b) ∧
  is_Some (TrackMetadata_phrase m (local_phrase m b)).
Proof.
  intros Hm Hne Hb. destruct (metadata_partition m Hm Hne) as [Hi Ht].
  destruct (tiles_find _ _ _ Ht Hi Hb) as (x & Hf & Hl & _).
  unfold phrase_index_at_beat, local_phrase, TrackMetadata_phrase.
  change (List.find (covers b) (tm_phrases m)) with
    (List.find (λ ph, (tp_start_beat ph <=? b) && (b <? tp_end_beat ph)) (tm_phrases m)) in Hf.
  rewrite Hf. by split.
Qed.

Lemma local_phrase_valid m b :
  metadata_wf m → tm_phrases m ≠ [] → 0 ≤ b ≤ tm_duration_beats m →
  is_Some (TrackMetadata_phrase m (local_phrase m b)).
Proof.
  intros Hm Hne Hb. destruct (decide (b < tm_duration_beats m)).
  { apply phrase_at_beat; [done|done|lia]. }
  destruct (metadata_partition m Hm Hne) as [Hi Ht].
  unfold local_phrase. destruct (List.find _ _) as [x|] eqn:Hf.
  - apply find_some in Hf as [Hin Hc]. apply list_elem_of_In in Hin.
    destruct (tiles_elem _ _ _ _ Ht Hin) as (_ & _ & He). simpl in He. lia.
  - destruct (last (tm_phrases m)) as [x|] eqn:Hl; [|by apply last_None in Hl].
    rewrite last_lookup in Hl. unfold TrackMetadata_phrase.
    pose proof (indexed_lookup _ _ _ _ Hi Hl) as Hx. simpl in Hx. rewrite Hx, Z.add_0_l, Nat2Z.id. by rewrite Hl.
Qed.

Lemma local_phrase_zero m : metadata_wf m → local_phrase m 0 = 0.
Proof.
  intros Hm. destruct (tm_phrases m) as [|x l] eqn:E.
  { unfold local_phrase. by rewrite E. }
  destruct (metadata_partition m Hm) as [Hi Ht]; [by rewrite E|].
  unfold local_phrase. rewrite E in *. destruct Hi as [Hi _], Ht as (Hs & Hx & _). simpl in *.
  rewrite Hs. rewrite (proj2 (Z.ltb_lt 0 (tp_end_beat x))) by lia. done.
Qed.

Lemma local_phrase_u16 m b : track_typed m → in_u16 (local_phrase m b).
Proof.
  intros (_ & _ & Hf). rewrite Forall_forall in Hf. unfold local_phrase.
  destruct (List.find _ _) as [x|] eqn:E.
  - apply find_some in E as [Hin _]. apply Hf. by apply list_elem_of_In.
  - destruct (last (tm_phrases m)) as [x|] eqn:Hl; [|unfold in_u16, U16_MAX; lia].
    apply Hf. apply last_Some in Hl as [l' ->]. set_solver.
Qed.

(** A single deck of the view. *)
Definition view_set (v : SourceView) (d : DeckId) (k : DeckView) : SourceView :=
  mkSourceView (<[d := k]> (sv_decks v)) (sv_leader v).

Lemma on_deck_set v d k f : on_deck (view_set v d k) d (dv_load k) f = view_set v d (f k).
Proof.
  unfold on_deck, view_set. simpl. rewrite lookup_insert_eq, Z.eqb_refl. by rewrite insert_insert_eq.
Qed.

Lemma view_set_id v d k : sv_decks v !! d = Some k → view_set v d k = v.
Proof. intros Hk. unfold view_set. rewrite insert_id by done. by destruct v. Qed.

Lemma phrase_step i k :
  (tm_phrases (dv_metadata k) ≠ [] → is_Some (TrackMetadata_phrase (dv_metadata k) i)) →
  (tm_phrases (dv_metadata k) = [] → dv_phrase k = None) →
  (if bool_decide (is_Some (TrackMetadata_phrase (dv_metadata k) i))
   then mkDeckView (dv_load k) (dv_metadata k) (dv_beat k) (Some i) (dv_playing k) else k) =
  mkDeckView (dv_load k) (dv_metadata k) (dv_beat k) (phrase_seen (dv_metadata k) i) (dv_playing k).
Proof.
  intros Hi Hp. unfold phrase_seen. destruct k as [load m b ph pl]; simpl in *.
  destruct (tm_phrases m) eqn:E.
  - rewrite bool_decide_false by (unfold TrackMetadata_phrase; rewrite E; intros []; done). by rewrite Hp.
  - rewrite bool_decide_true; [done|]. by apply Hi.
Qed.

(** The three parts of a transport update, on the deck it moves. *)
Lemma view_position v d k b :
  metadata_wf (dv_metadata k) → 0 ≤ b → dv_beat k ≤ tm_duration_beats (dv_metadata k) →
  view_run (view_set v d k)
    (if dv_beat k =? b then []
     else if b <? dv_beat k then [PlaybackPositionSeeked d (dv_load k) b]
     else [PlaybackPosition d (dv_load k) b]) =
  view_set v d (mkDeckView (dv_load k) (dv_metadata k) b
    (if b <? dv_beat k then phrase_seen (dv_metadata k) (local_phrase (dv_metadata k) b) else dv_phrase k)
    (dv_playing k)).
Proof.
  intros Hm Hb Hd. unfold view_run. destruct (Z.eqb_spec (dv_beat k) b) as [<-|Hne].
  - rewrite Z.ltb_irrefl. by destruct k.
  - destruct (Z.ltb_spec b (dv_beat k)) as [Hlt|Hge]; simpl; rewrite on_deck_set; f_equal.
    + f_equal. unfold phrase_seen. destruct (tm_phrases (dv_metadata k)) eqn:Et.
      * unfold phrase_index_at_beat. by rewrite Et.
      * apply phrase_at_beat; [done|by rewrite Et|lia].
    + destruct (Z.ltb_spec b (dv_beat k)); [lia|done].
Qed.

Lemma view_playing v d k b :
  view_run (view_set v d k)
    (if Bool.eqb (dv_playing k) b then [] else [PlaybackStateChanged d (dv_load k) b]) =
  view_set v d (mkDeckView (dv_load k) (dv_metadata k) (dv_beat k) (dv_phrase k) b).
Proof.
  unfold view_run. destruct (Bool.eqb_spec (dv_playing k) b) as [<-|]; simpl; [by destruct k|].
  by rewrite on_deck_set.
Qed.

Lemma view_phrase v d k (b : bool) i :
  (tm_phrases (dv_metadata k) ≠ [] → is_Some (TrackMetadata_phrase (dv_metadata k) i)) →
  (tm_phrases (dv_metadata k) = [] → dv_phrase k = None) →
  (b = false → dv_phrase k = phrase_seen (dv_metadata k) i) →
  view_run (view_set v d k) (if b then [PhraseChanged d (dv_load k) i] else []) =
  view_set v d (mkDeckView (dv_load k) (dv_metadata k) (dv_beat k) (phrase_seen (dv_metadata k) i)
    (dv_playing k)).
Proof.
  intros Hi Hn Hb. unfold view_run. destruct b; simpl.
  - rewrite on_deck_set. f_equal. by apply phrase_step.
  - rewrite <- Hb by done. by destruct k.
Qed.

Lemma agrees_transport p v d deck beat playing :
  agrees p v → lp_decks p !! d = Some deck → local_deck_wf deck → 0 ≤ beat →
  view_run v (transport_observations d deck beat playing) = view_set v d (shown (moved deck beat playing)).
Proof.
  intros [Hd Hl] Hk [(Hm & Hdur & _) Hb Hph] Hbeat.
  assert (Hv : v = view_set v d (shown deck)).
  { symmetry. apply view_set_id. by rewrite Hd, lookup_fmap, Hk. }
  rewrite Hv at 1. clear Hv Hd Hl Hk. unfold transport_observations. cbv zeta.
  unfold view_run. rewrite !foldl_app. fold (view_run (view_set v d (shown deck))).
  rewrite (view_position v d (shown deck)) by (simpl; done || lia).
  match goal with |- context [foldl view_step (view_set v d ?w) (if Bool.eqb _ _ then _ else _)] =>
    fold (view_run (view_set v d w)); rewrite (view_playing v d w) end.
  match goal with |- foldl view_step (view_set v d ?w) _ = _ =>
    fold (view_run (view_set v d w)); rewrite (view_phrase v d w) end.
  - done.
  - intros Hne. apply local_phrase_valid; [done|done|simpl; lia].
  - simpl. unfold phrase_seen. intros ->. by destruct (_ <? _).
  - cbn [dv_phrase dv_metadata shown]. intros [Hc _]%orb_false_iff. apply negb_false_iff, Z.eqb_eq in Hc.
    rewrite Hc. by destruct (_ <? _).
Qed.

Lemma view_loaded v d m load :
  metadata_wf m →
  view_run v (TrackLoaded d m load :: position_state d load) =
  view_set v d (mkDeckView load m 0 (phrase_seen m 0) false).
Proof.
  intros Hm. unfold view_run, position_state. cbn [foldl].
  change (view_step v (TrackLoaded d m load)) with (view_set v d (mkDeckView load m 0 None false)).
  cbn [view_step]. rewrite (on_deck_set _ _ (mkDeckView load m 0 None false)). simpl.
  rewrite (on_deck_set _ _ (mkDeckView load m 0 None false)).
  assert (Hp : tm_phrases m ≠ [] → is_Some (TrackMetadata_phrase m 0)).
  { intros Hne. rewrite <- (local_phrase_zero m Hm). destruct (metadata_partition m Hm Hne) as [_ Ht].
    apply local_phrase_valid; [done|done|]. pose proof (tiles_le _ _ _ Ht). lia. }
  pose proof (phrase_step 0 (mkDeckView load m 0 None false) Hp ltac:(done)) as E. simpl in *. rewrite E.
  by rewrite (on_deck_set _ _ (mkDeckView load m 0 (phrase_seen m 0) false)).
Qed.

(** Unloading the deck first takes the leader away when it was the deck's. *)
Lemma view_unload p v d :
  agrees p v →
  let os := match lp_decks p !! d with
            | Some deck => [TrackUnloaded d (ld_track_load_id deck)] | None => [] end in
  sv_decks (view_run v os) = delete d (sv_decks v) ∧
  (sv_leader (view_run v os) = if bool_decide (is_Some (lp_decks p !! d) ∧ sv_leader v = Some d) then None
                               else sv_leader v).
Proof.
  intros [Hd _]. destruct (lp_decks p !! d) as [deck|] eqn:Hk; cbn -[bool_decide].
  - rewrite Hd, lookup_fmap, Hk. cbn -[bool_decide]. rewrite Z.eqb_refl. cbn -[bool_decide].
    split; [by rewrite <- Hd|]. repeat case_bool_decide; naive_solver.
  - split; [|by rewrite bool_decide_false by (intros [[] _]; done)].
    rewrite delete_id; [done|]. by rewrite Hd, lookup_fmap, Hk.
Qed.

Lemma agrees_load p v d m :
  agrees p v → metadata_wf m →
  agrees (loaded p d m) (view_run v (load_observations p d m)) ∧
  (is_Some (lp_decks p !! d) → lp_leader_deck_id p = Some d →
   sv_leader (view_run v (load_observations p d m)) = None).
Proof.
  intros Ha Hm. pose proof (view_unload p v d Ha) as Hu. unfold load_observations. cbv zeta in *.
  destruct Ha as [Hd Hl].
  set (os := match lp_decks p !! d with
             | Some deck => [TrackUnloaded d (ld_track_load_id deck)] | None => [] end) in *.
  unfold view_run. rewrite foldl_app. fold (view_run v os). destruct Hu as [Hud Hul].
  set (v1 := view_run v os) in *.
  rewrite app_comm_cons, foldl_app. fold (view_run v1).
  change (foldl view_step v1) with (view_run v1). rewrite (view_loaded v1) by done.
  set (k := mkDeckView (lp_next_track_load_id p) m 0 (phrase_seen m 0) false).
  assert (Hdecks : <[d := k]> (sv_decks v1) =
    shown <$> <[d := mkLocalDeck (lp_next_track_load_id p) m 0 0 false true]> (lp_decks p)).
  { rewrite fmap_insert, Hud, insert_delete_eq. by rewrite Hd. }
  destruct (lp_leader_deck_id p) as [leader|] eqn:El; simpl.
  - split.
    + split; simpl; [done|]. rewrite El, Hul. case_bool_decide; [by right|done].
    + intros Hs [= ->]. rewrite Hul. destruct Hl as [Hv|Hv].
      * by rewrite bool_decide_true.
      * rewrite Hv. by rewrite bool_decide_false by (intros [_ ?]; done).
  - split; [|done]. rewrite lookup_insert_eq. simpl. rewrite Z.eqb_refl.
    split; simpl; [done|]. rewrite El. by left.
Qed.

Lemma view_unloads (decks : list (Z * LocalDeck)) : ∀ v,
  NoDup (decks.*1) → sv_decks v = shown <$> list_to_map decks →
  (sv_leader v = None ∨ ∃ d, sv_leader v = Some d ∧ d ∈ decks.*1) →
  view_run v (unloads decks) = empty_view.
Proof.
  induction decks as [|[d k] decks IH]; intros v Hn Hd Hl; simpl in *.
  - destruct v as [ds l]. simpl in *. rewrite fmap_empty in Hd. subst.
    destruct Hl as [->|(d & _ & Hd)]; [done|]. by apply not_elem_of_nil in Hd.
  - apply NoDup_cons in Hn as [Hd' Hn]. rewrite Hd. rewrite lookup_fmap, lookup_insert_eq. simpl.
    rewrite Z.eqb_refl. apply IH; [done| |].
    + simpl. rewrite fmap_insert, delete_insert_id; [done|]. rewrite lookup_fmap.
      by rewrite (not_elem_of_list_to_map_1 _ _ Hd').
    + simpl. case_bool_decide as E; [by left|]. destruct Hl as [->|(d1 & E1 & Hin)]; [by left|].
      right. exists d1. split; [done|]. apply elem_of_cons in Hin as [->|]; [|done]. congruence.
Qed.

(** ** Runs *)

Inductive LocalOp : Type :=
| LLoad (deck_id : DeckId) (metadata : TrackMetadata) (at_ : MonotonicTime)
| LLeader (deck_id : DeckId) (at_ : MonotonicTime)
| LTransport (deck_id : DeckId) (track_load_id : TrackLoadId) (beat : Z) (playing : bool)
    (at_ : MonotonicTime)
| LClear (at_ : MonotonicTime)
| LDrain.

(** One call, with the events it hands out. *)
Definition local_step p (op : LocalOp) : provider * list DomainEvent :=
  match op with
  | LLoad d m at_ => ((local_load_track d m at_ p).1, [])
  | LLeader d at_ => ((set_leader d at_ p).1, [])
  | LTransport d load beat playing at_ => ((update_transport d load beat playing at_ p).1, [])
  | LClear at_ => ((local_clear at_ p).1, [])
  | LDrain => let '(p, r) := drain_events p in (p, match r with Ok es => es | Err _ => [] end)
  end.

Fixpoint local_run p (ops : list LocalOp) : provider * list DomainEvent :=
  match ops with
  | [] => (p, [])
  | op :: ops =>
      let '(p, es) := local_step p op in
      let '(p, rest) := local_run p ops in (p, es ++ rest)
  end.

Definition local_start (at_ : MonotonicTime) : provider := (LocalPlayback_new at_).1.

Definition local_op_wf (op : LocalOp) : Prop :=
  match op with
  | LLoad _ m _ => track_typed m
  | LTransport _ _ beat _ _ => in_u32 beat
  | _ => True
  end.

(** The instants of the calls do not go back. *)
Definition local_op_time (t : Z) (op : LocalOp) : Z :=
  match op with
  | LLoad _ _ at_ | LLeader _ at_ | LTransport _ _ _ _ at_ | LClear at_ => at_
  | LDrain => t
  end.

Fixpoint times_from (t : Z) (ops : list LocalOp) : Prop :=
  match ops with
  | [] => True
  | op :: ops => t ≤ local_op_time t op ∧ times_from (local_op_time t op) ops
  end.

Lemma numbered_cons source sequence at_ o os :
  numbered source sequence at_ (o :: os) =
  mkObservationEnvelope source (sequence + 1) at_ o :: numbered source (sequence + 1) at_ os.
Proof.
  change (o :: os) with ([o] ++ os). rewrite numbered_app. unfold numbered at 1. simpl. by rewrite Z.add_0_r.
Qed.

Lemma numbered_stream source at_ os : ∀ sequence, ordered_stream source sequence at_ (numbered source sequence at_ os).
Proof.
  induction os as [|o os IH]; intros sequence; [done|]. rewrite numbered_cons. simpl. split_and!; [done|lia|lia|apply IH].
Qed.

Lemma numbered_before source at_ os : ∀ sequence,
  Forall (before (sequence + Z.of_nat (length os)) at_) (numbered source sequence at_ os).
Proof.
  induction os as [|o os IH]; intros sequence; [constructor|]. rewrite numbered_cons, length_cons. constructor.
  - split; simpl; lia.
  - eapply Forall_impl; [apply IH|]. intros x [? ?]. split; [lia|done].
Qed.

Record local_inv p : Prop := {
  li_source : lp_source_id p = LOCAL_SOURCE_ID;
  li_decks : map_Forall (λ d k, (d = 1 ∨ d = 2) ∧ local_deck_wf k) (lp_decks p);
  li_leader : ∀ d, lp_leader_deck_id p = Some d → is_Some (lp_decks p !! d);
  li_sequence : 0 ≤ lp_sequence p;
}.

(** What was published up to time [t], drained or still pending, and that provider and
    view agree on it. *)
Record tracked (t0 t : Z) p (sent : list ObservationEnvelope) : Prop := {
  tr_inv : local_inv p;
  tr_time : t0 ≤ t;
  tr_stream : ordered_stream LOCAL_SOURCE_ID 0 t0 sent;
  tr_before : Forall (before (lp_sequence p) t) sent;
  tr_wf : Forall (λ o, observation_wf (obs_observation o)) sent;
  tr_agrees : agrees p (view_run empty_view (obs_observation <$> sent));
}.

(** Publishing keeps the relation when the new provider agrees with the longer view. *)
Lemma tracked_emit t0 t at_ p p' sent os :
  tracked t0 t p sent → t ≤ at_ → local_inv p' → lp_sequence p' = lp_sequence p →
  Forall observation_wf os →
  agrees p' (view_run (view_run empty_view (obs_observation <$> sent)) os) →
  tracked t0 at_ (emitted at_ os p') (sent ++ numbered LOCAL_SOURCE_ID (lp_sequence p) at_ os).
Proof.
  intros [Hi Ht Hs Hb Hw Ha] Hat Hi' Hseq Hos Hag.
  assert (Hb' : Forall (before (lp_sequence p) at_) sent)
    by (eapply Forall_impl; [exact Hb|]; intros o [? ?]; split; lia).
  split; [|lia| | | |].
  - destruct Hi' as [H1 H2 H3 H4]. split; simpl; [done|done|done|lia].
  - eapply ordered_stream_app; [done|exact Hb'|apply Hi|lia|]. apply numbered_stream.
  - simpl. rewrite Hseq. apply Forall_app. split; [|apply numbered_before].
    eapply Forall_impl; [exact Hb'|]. intros o [? ?]. split; lia.
  - apply Forall_app. split; [done|].
    rewrite <- (numbered_observations LOCAL_SOURCE_ID (lp_sequence p) at_ os) in Hos.
    exact (proj1 (Forall_fmap _ _ _) Hos).
  - rewrite fmap_app, numbered_observations. unfold view_run in *. rewrite foldl_app.
    destruct Hag as [? ?]. by split.
Qed.

(** *** The invariant of each operation *)

Lemma shown_decks_length p : local_inv p → (length (loaded_decks p) ≤ 2)%nat.
Proof.
  intros Hi. unfold loaded_decks. rewrite sort_by_key_length, length_map_to_list.
  enough (dom (lp_decks p) ⊆ {[1; 2]}) as Hs.
  { apply subseteq_size in Hs. rewrite size_dom in Hs. etrans; [exact Hs|]. by vm_compute. }
  intros d [k Hk]%elem_of_dom. destruct (li_decks p Hi d k Hk) as [[-> | ->] _]; set_solver.
Qed.

Lemma inv_insert p d k :
  local_inv p → d = 1 ∨ d = 2 → local_deck_wf k →
  local_inv (set_lp_decks (<[d := k]> (lp_decks p)) p).
Proof.
  intros [H1 H2 H3 H4] Hd Hk. split; simpl; [done| |..|done].
  - by apply map_Forall_insert_2.
  - intros d' Hd'. rewrite lookup_insert_is_Some'. right. by apply H3.
Qed.

Lemma loaded_inv p d m :
  local_inv p → d = 1 ∨ d = 2 → track_typed m → local_inv (loaded p d m).
Proof.
  intros Hi Hd (Hm & Hdur & Hf).
  destruct (inv_insert p d (mkLocalDeck (lp_next_track_load_id p) m 0 0 false true)) as [H1 H2 H3 H4];
    [done|done| |].
  { split; simpl; [done|unfold in_u32 in Hdur; lia|by rewrite local_phrase_zero]. }
  split; simpl in *; [done|done| |done]. intros d'. destruct (lp_leader_deck_id p) as [l|] eqn:El.
  - intros [= <-]. by apply H3.
  - intros [= <-]. rewrite lookup_insert_eq. by eexists.
Qed.

Lemma moved_wf k beat playing : local_deck_wf k → in_u32 beat → local_deck_wf (moved k beat playing).
Proof.
  intros [(Hm & Hdur & Hf) Hb Hp] Hbeat. unfold in_u32 in *. split; simpl; [done|lia|done].
Qed.

Lemma load_observations_wf p d m :
  local_inv p → track_typed m → Forall observation_wf (load_observations p d m).
Proof.
  intros Hi (Hm & _). unfold load_observations, position_state. apply Forall_app. split.
  - destruct (lp_decks p !! d); by repeat constructor.
  - rewrite app_comm_cons. apply Forall_app. split; [|destruct (lp_leader_deck_id p); by repeat constructor].
    rewrite !Forall_cons. split_and!; simpl; try done; unfold in_u32, in_u16, U32_MAX, U16_MAX; lia.
Qed.

Lemma transport_observations_wf d k beat playing :
  local_deck_wf k → in_u32 beat → Forall observation_wf (transport_observations d k beat playing).
Proof.
  intros Hk Hb. destruct (moved_wf k beat playing Hk Hb) as [Ht Hbe Hph].
  unfold transport_observations. cbv zeta. destruct Ht as (Hm & Hdur & Hf).
  assert (in_u32 (ld_beat (moved k beat playing))) by (unfold in_u32 in *; lia).
  assert (in_u16 (ld_phrase_index (moved k beat playing))).
  { rewrite Hph. by apply local_phrase_u16. }
  apply Forall_app; split; [|apply Forall_app; split];
    repeat (match goal with |- context [if ?b then _ else _] => destruct b end);
    repeat first [apply Forall_nil_2 | apply Forall_cons_2]; done.
Qed.

Lemma tracked_later t0 t t' p sent : tracked t0 t p sent → t ≤ t' → tracked t0 t' p sent.
Proof.
  intros [? ? ? Hb ? ?] ?. split; try done; [lia|]. eapply Forall_impl; [exact Hb|]. intros o [? ?]. split; lia.
Qed.

(** An operation that publishes [os] from the provider [q]. *)
Lemma tracked_publish t0 t at_ p q os drained :
  tracked t0 t p (observations (drained ++ lp_pending_events p)) → t ≤ at_ → local_inv q →
  lp_sequence q = lp_sequence p → lp_pending_events q = lp_pending_events p →
  Forall observation_wf os → (length os ≤ 6)%nat →
  agrees q (view_run (view_run empty_view
    (obs_observation <$> observations (drained ++ lp_pending_events p))) os) →
  let p' := emitted at_ os q in
  tracked t0 at_ p' (observations (drained ++ lp_pending_events p')) ∧
  lp_sequence p' ≤ lp_sequence p + 6.
Proof.
  intros Htr Hat Hq Hs Hp Hos Hlen Hag p'. split; [|unfold p'; simpl; lia].
  pose proof (tracked_emit t0 t at_ p q _ os Htr Hat Hq Hs Hos Hag) as H.
  unfold p'. cbn [emitted lp_pending_events]. rewrite app_assoc, observations_app, observations_fmap.
  rewrite (li_source q Hq), Hs, Hp. exact H.
Qed.

Lemma validate_deck_Ok d : validate_deck d = Ok tt → d = 1 ∨ d = 2.
Proof.
  unfold validate_deck. destruct (Z.eqb_spec d 1), (Z.eqb_spec d 2); simpl; try done; auto.
Qed.

Lemma agrees_leader p v d :
  agrees p v → is_Some (lp_decks p !! d) →
  ∀ deck, lp_decks p !! d = Some deck →
  agrees (set_lp_leader (Some d) p) (view_run v [LeaderChanged d (ld_track_load_id deck)]) ∧
  sv_leader (view_run v [LeaderChanged d (ld_track_load_id deck)]) = Some d.
Proof.
  intros [Hd Hl] _ deck Hk. simpl. rewrite Hd, lookup_fmap, Hk. simpl. rewrite Z.eqb_refl.
  split; [|done]. split; simpl; [by rewrite <- Hd|by left].
Qed.

Lemma agrees_clear p v :
  local_inv p → agrees p v → view_run v (unloads (loaded_decks p)) = empty_view.
Proof.
  intros Hi [Hd Hl].
  assert (Hperm : loaded_decks p ≡ₚ map_to_list (lp_decks p)) by apply sort_by_key_perm.
  assert (Hnd : NoDup ((loaded_decks p).*1)) by (rewrite Hperm; apply NoDup_fst_map_to_list).
  apply view_unloads; [done| |].
  - rewrite Hd. f_equal. rewrite (list_to_map_proper _ _ Hnd Hperm). symmetry. apply list_to_map_to_list.
  - destruct Hl as [-> | ->]; [|by left]. destruct (lp_leader_deck_id p) as [d|] eqn:El; [right|by left].
    exists d. split; [done|]. destruct (li_leader p Hi d El) as [k Hk]. rewrite Hperm.
    apply list_elem_of_fmap. exists (d, k). split; [done|]. by apply elem_of_map_to_list.
Qed.

Lemma transport_length d k beat playing : (length (transport_observations d k beat playing) ≤ 6)%nat.
Proof.
  unfold transport_observations. cbv zeta. rewrite !length_app.
  repeat (match goal with |- context [if ?b then _ else _] => destruct b end); simpl; lia.
Qed.

Lemma load_length p d m : (length (load_observations p d m) ≤ 6)%nat.
Proof.
  unfold load_observations. cbv zeta. rewrite length_app. simpl.
  destruct (lp_decks p !! d), (lp_leader_deck_id p); simpl; lia.
Qed.

Lemma local_step_tracked t0 t p drained op p' es :
  tracked t0 t p (observations (drained ++ lp_pending_events p)) → local_op_wf op →
  t ≤ local_op_time t op → lp_sequence p + 6 ≤ U64_MAX → lp_next_track_load_id p < U64_MAX →
  local_step p op = (p', es) →
  tracked t0 (local_op_time t op) p' (observations ((drained ++ es) ++ lp_pending_events p')) ∧
  lp_sequence p' ≤ lp_sequence p + 6 ∧ lp_next_track_load_id p' ≤ lp_next_track_load_id p + 1.
Proof.
  intros Htr Hop Hat Hs Hn. pose proof (tr_inv _ _ _ _ Htr) as Hi. pose proof (tr_agrees _ _ _ _ Htr) as Ha.
  assert (Hsame : tracked t0 (local_op_time t op) p (observations ((drained ++ []) ++ lp_pending_events p))
    ∧ lp_sequence p ≤ lp_sequence p + 6 ∧ lp_next_track_load_id p ≤ lp_next_track_load_id p + 1).
  { rewrite app_nil_r. split; [by eapply tracked_later|]. lia. }
  destruct op as [d m at_ | d at_ | d load beat playing at_ | at_ | ]; simpl in *.
  - rewrite load_track_spec by lia. destruct (validate_deck d) as [[]|] eqn:Hd; intros [= <- <-]; [|done].
    rewrite app_nil_r. apply validate_deck_Ok in Hd.
    destruct (tracked_publish t0 t at_ p (loaded p d m) (load_observations p d m) drained) as [H1 H2];
      try done.
    { by apply loaded_inv. }
    { by apply load_observations_wf. }
    { apply load_length. }
    apply agrees_load; [done|apply Hop].
  - rewrite set_leader_spec by lia. destruct (lp_decks p !! d) as [k|] eqn:Hk; intros [= <- <-]; [|done].
    rewrite app_nil_r.
    destruct (tracked_publish t0 t at_ p (set_lp_leader (Some d) p) [LeaderChanged d (ld_track_load_id k)] drained)
      as [H1 H2]; try done; [|by repeat constructor|simpl; lia|..].
    { destruct Hi as [? ? Hl ?]. split; simpl; try done. intros ? [= <-]. by rewrite Hk. }
    { by eapply agrees_leader. }
    split_and!; [done|done|simpl; lia].
  - rewrite update_transport_spec by lia.
    destruct (lp_decks p !! d) as [k|] eqn:Hk; [|intros [= <- <-]; done].
    destruct (ld_track_load_id k =? load); intros [= <- <-]; [|done]. rewrite app_nil_r.
    destruct (li_decks p Hi d k Hk) as [Hdd Hkw].
    destruct (tracked_publish t0 t at_ p (set_lp_decks (<[d := moved k beat playing]> (lp_decks p)) p)
      (transport_observations d k beat playing) drained) as [H1 H2]; try done.
    { apply inv_insert; [done|done|]. by apply moved_wf. }
    { by apply transport_observations_wf. }
    { apply transport_length. }
    { rewrite (agrees_transport p _ d k) by (done || unfold in_u32 in *; lia).
      destruct Ha as [Had Hal]. split; simpl; [|done]. by rewrite fmap_insert, Had. }
    split_and!; [done|done|simpl; lia].
  - pose proof (shown_decks_length p Hi) as Hlen. rewrite clear_spec by lia. intros [= <- <-]. rewrite app_nil_r.
    destruct (tracked_publish t0 t at_ p (set_lp_leader None (set_lp_decks ∅ p)) (unloads (loaded_decks p)) drained)
      as [H1 H2]; try done.
    { destruct Hi as [? ? ? ?]. split; simpl; done. }
    { apply Forall_forall. intros o (x & -> & _)%list_elem_of_fmap. by destruct x. }
    { unfold unloads. rewrite length_fmap. lia. }
    { rewrite agrees_clear by done. split; simpl; [by rewrite fmap_empty|by left]. }
    split_and!; [done|done|simpl; lia].
  - intros [= <- <-]. simpl. rewrite app_nil_r. split; [|lia].
    destruct Htr as [[? ? ? ?] ? ? ? ? [? ?]]. split; [by split|done..|by split].
Qed.

Lemma local_run_cons p op ops :
  local_run p (op :: ops) =
  ((local_run (local_step p op).1 ops).1, (local_step p op).2 ++ (local_run (local_step p op).1 ops).2).
Proof. simpl. destruct (local_step p op) as [p1 es]. simpl. by destruct (local_run p1 ops). Qed.

Lemma local_run_app p ops1 ops2 :
  local_run p (ops1 ++ ops2) =
  ((local_run (local_run p ops1).1 ops2).1, (local_run p ops1).2 ++ (local_run (local_run p ops1).1 ops2).2).
Proof.
  revert p. induction ops1 as [|op ops1 IH]; intros p.
  - simpl. by rewrite <- surjective_pairing.
  - rewrite <- app_comm_cons, !local_run_cons, IH. simpl. by rewrite app_assoc.
Qed.

(** The sequence of calls keeps provider and view in agreement. *)
Lemma local_run_tracked t0 ops : ∀ t p drained,
  tracked t0 t p (observations (drained ++ lp_pending_events p)) → Forall local_op_wf ops →
  times_from t ops → lp_sequence p + 6 * Z.of_nat (length ops) ≤ U64_MAX →
  lp_next_track_load_id p + Z.of_nat (length ops) ≤ U64_MAX →
  let r := local_run p ops in
  ∃ t', tracked t0 t' r.1 (observations ((drained ++ r.2) ++ lp_pending_events r.1)) ∧
    lp_sequence r.1 ≤ lp_sequence p + 6 * Z.of_nat (length ops) ∧
    lp_next_track_load_id r.1 ≤ lp_next_track_load_id p + Z.of_nat (length ops) ∧
    ∀ op, times_from t (ops ++ [op]) → t' ≤ local_op_time t' op.
Proof.
  induction ops as [|op ops IH]; intros t p drained Htr Hw Ht Hs Hn.
  - exists t. simpl. rewrite app_nil_r. split_and!; [done|lia|lia|]. by intros op [? _].
  - apply Forall_cons in Hw as [Hop Hw]. destruct Ht as [Hat Ht]. rewrite length_cons in Hs, Hn.
    destruct (local_step p op) as [p1 es] eqn:E.
    destruct (local_step_tracked t0 t p drained op p1 es) as (Htr1 & Hs1 & Hn1); try done; [lia|lia|].
    cbv zeta. rewrite local_run_cons, E. cbn [fst snd].
    destruct (IH (local_op_time t op) p1 (drained ++ es)) as (t' & Htr' & Hs' & Hn' & Hlast);
      try done; [lia|lia|].
    exists t'. rewrite length_cons. rewrite (app_assoc drained). split_and!; [done|lia|lia|].
    intros op' Hx. rewrite <- app_comm_cons in Hx. destruct Hx as [_ Hx]. by apply Hlast.
Qed.

Lemma local_start_tracked t0 :
  tracked t0 t0 (local_start t0) (observations ([] ++ lp_pending_events (local_start t0))) ∧
  lp_sequence (local_start t0) = 1 ∧ lp_next_track_load_id (local_start t0) = 1.
Proof.
  unfold local_start, LocalPlayback_new. rewrite local_emit_Ok by (by vm_compute).
  cbn [fst]. split; [|done]. split.
  - split; simpl; [done|apply map_Forall_empty|done|lia].
  - lia.
  - simpl. split_and!; [done|lia|lia|done].
  - repeat constructor; simpl; lia.
  - by repeat constructor.
  - split; simpl; [by rewrite fmap_empty|by left].
Qed.

(** The runtime sees what the provider published. *)
Lemma runtime_sees t0 t p sent es :
  tracked t0 t p sent → observations es = sent →
  Forall (λ e, observation_of e = None → event_wf e) es → Z.of_nat (length es) ≤ U64_MAX →
  view_of (run_events RuntimeState_default es).1 = view_run empty_view (obs_observation <$> sent).
Proof.
  intros Htr Ho Hw Hn. eapply runtime_shows; [apply (tr_stream _ _ _ _ Htr)|apply (tr_wf _ _ _ _ Htr)|done..].
Qed.


(** Loading a track again on the leading deck loses the leader.  The provider
    unloads the deck first, upon which the runtime forgets that it leads, and does not
    announce it again: the provider still calls the deck the leader, the runtime has no
    leader, so no cue can be scheduled until the operator selects the leader again. *)
Theorem reload_loses_leader t0 ops d m at_ es :
  Forall local_op_wf ops → track_typed m → times_from t0 (ops ++ [LLoad d m at_]) →
  6 * (Z.of_nat (length ops) + 1) < U64_MAX →
  lp_leader_deck_id (local_run (local_start t0) ops).1 = Some d →
  let '(p, drained) := local_run (local_start t0) (ops ++ [LLoad d m at_]) in
  observations es = observations (drained ++ lp_pending_events p) →
  Forall (λ e, observation_of e = None → event_wf e) es → Z.of_nat (length es) ≤ U64_MAX →
  lp_leader_deck_id p = Some d ∧ is_Some (lp_decks p !! d) ∧
  rs_leader_deck (run_events RuntimeState_default es).1 = None.
Proof.
  intros Hw Hm Ht Hn Hld. destruct (local_start_tracked t0) as (Htr & Hs & Hl).
  assert (Ht' : times_from t0 ops).
  { clear -Ht. revert t0 Ht. induction ops as [|op ops IH]; intros t0; [done|]. intros [? ?]. by split; auto. }
  destruct (local_run_tracked t0 ops t0 _ [] Htr Hw Ht') as (t' & Htr' & Hs' & Hn' & Hlast); [lia|lia|].
  rewrite local_run_app. rewrite app_nil_l in Htr'.
  destruct (local_run (local_start t0) ops) as [p drained]. cbn [fst snd] in *.
  pose proof (tr_inv _ _ _ _ Htr') as Hi. destruct (li_leader p Hi d Hld) as [k Hk].
  assert (Hd : validate_deck d = Ok tt).
  { destruct (li_decks p Hi d k Hk) as [[-> | ->] _]; done. }
  destruct (local_step p (LLoad d m at_)) as [p1 es1] eqn:E.
  destruct (local_step_tracked t0 t' p drained (LLoad d m at_) p1 es1 Htr' Hm) as (Htr1 & _ & _); [..|exact E|].
  { by apply Hlast. }
  { lia. }
  { lia. }
  rewrite local_run_cons, E. cbn [local_run fst snd]. rewrite app_nil_r. intros Ho Hes Hlen.
  simpl in E. rewrite load_track_spec, Hd in E by lia. cbn [fst] in E. injection E as <- <-.
  split_and!.
  - simpl. by rewrite Hld.
  - simpl. rewrite lookup_insert_eq. by eexists.
  - pose proof (runtime_sees _ _ _ _ es Htr1 Ho Hes Hlen) as Hv.
    change (sv_leader (view_of (run_events RuntimeState_default es).1) = None). rewrite Hv, app_nil_r.
    cbn [emitted lp_pending_events]. rewrite app_assoc, observations_app, observations_fmap, fmap_app.
    rewrite numbered_observations. unfold view_run. rewrite foldl_app.
    destruct (agrees_load p _ d m (tr_agrees _ _ _ _ Htr') (proj1 Hm)) as [_ Hx].
    apply Hx; [by eexists|done].
Qed.

(** ** Witnesses *)

Definition demo_local_ops : list LocalOp :=
  [LLoad 1 demo_metadata 1; LTransport 1 1 20 true 2; LDrain; LLoad 2 demo_metadata 3;
   LTransport 1 1 4 true 4; LTransport 1 9 8 true 5].

Lemma demo_metadata_typed : track_typed demo_metadata.
Proof.
  split; [apply demo_metadata_wf|]. split; [by vm_compute|].
  repeat constructor; unfold in_u16, U16_MAX; simpl; lia.
Qed.

Lemma demo_local_ops_wf : Forall local_op_wf demo_local_ops.
Proof.
  repeat apply Forall_cons_2; try apply Forall_nil_2; simpl; try done; try apply demo_metadata_typed;
    unfold in_u32, U32_MAX; lia.
Qed.


Lemma reload_loses_leader_witness :
  let '(p, drained) := local_run (local_start 0) (demo_local_ops ++ [LLoad 1 demo_metadata 6]) in
  lp_leader_deck_id p = Some 1 ∧
  rs_leader_deck (run_events RuntimeState_default (drained ++ lp_pending_events p)).1 = None.
Proof.
  pose proof (reload_loses_leader 0 demo_local_ops 1 demo_metadata 6
    ((local_run (local_start 0) (demo_local_ops ++ [LLoad 1 demo_metadata 6])).2 ++
       lp_pending_events (local_run (local_start 0) (demo_local_ops ++ [LLoad 1 demo_metadata 6])).1)
    demo_local_ops_wf demo_metadata_typed) as H.
  destruct (local_run (local_start 0) (demo_local_ops ++ [LLoad 1 demo_metadata 6])) as [p drained] eqn:E.
  cbn [fst snd] in H.
  destruct H as (H1 & _ & H3); [by repeat split|by vm_compute|by vm_compute|done| | |by split].
  - vm_compute in E. injection E as <- <-. by repeat constructor.
  - vm_compute in E. injection E as <- <-. by vm_compute.
Defined.
