(* ===== verification/LaunchPolicy.v ===== *)
(** * The launch gate

    Models [lumi-engine/src/launch_policy.rs]: whether the first cue of a show is sent at
    once or waits for the next phrase boundary.  The boundaries an observation
    iterates over are a list. *)

From stdpp Require Import prelude list strings.
From Stdlib Require Import ZArith Lia.
From S2P Require Import Prelude.
From S2P Require Import Track.
From S2P Require Import Plan.
Open Scope Z_scope.

Inductive LaunchPolicy : Type := Immediate | OnPhraseStart.

#[global] Instance LaunchPolicy_eq_dec : EqDecision LaunchPolicy.
Proof. solve_decision. Defined.

Record LaunchContext := mkLaunchContext {
  lc_deck : DeckId;
  lc_load : TrackLoadId;
  lc_revision : PlanRevision;
  lc_epoch : Z;
}.

Record LaunchBoundary := mkLaunchBoundary { lb_phrase : Z; lb_beat : Z }.

#[global] Instance LaunchContext_eq_dec : EqDecision LaunchContext.
Proof. solve_decision. Defined.
#[global] Instance LaunchBoundary_eq_dec : EqDecision LaunchBoundary.
Proof. solve_decision. Defined.

Inductive LaunchState : Type :=
| WaitingForPlayback
| Waiting (context : LaunchContext) (target : LaunchBoundary)
| NoUpcomingBoundary (context : LaunchContext)
| Launched.

#[global] Instance LaunchState_eq_dec : EqDecision LaunchState.
Proof. solve_decision. Defined.

(** The gate is a struct of one field. *)
Record LaunchGate := mkLaunchGate { gate_state : LaunchState }.

Definition LaunchGate_default : LaunchGate := mkLaunchGate WaitingForPlayback.

Definition gate_arm (g : LaunchGate) : LaunchGate := mkLaunchGate WaitingForPlayback.

Definition gate_cancel_pending (g : LaunchGate) : LaunchGate :=
  if negb (bool_decide (gate_state g = Launched)) then gate_arm g else g.

(** The loop of [observe]: [None] is the early return that keeps the target. *)
Fixpoint next_boundary (state : LaunchState) (context : LaunchContext) (beat : Z)
    (next : option LaunchBoundary) (boundaries : list LaunchBoundary) :
    option (option LaunchBoundary) :=
  match boundaries with
  | [] => Some next
  | boundary :: rest =>
      if match state with
         | Waiting previous target =>
             bool_decide (previous = context) && bool_decide (boundary = target)
         | _ => false
         end
      then None
      else
        let next :=
          if (beat <=? lb_beat boundary)
             && match next with Some existing => lb_beat boundary <? lb_beat existing | None => true end
          then Some boundary else next in
        next_boundary state context beat next rest
  end.

Definition gate_observe (policy : LaunchPolicy) (context : LaunchContext) (playing : bool) (beat : Z)
    (boundaries : list LaunchBoundary) (g : LaunchGate) : LaunchGate :=
  if bool_decide (gate_state g = Launched) then g
  else if negb playing then gate_cancel_pending g
  else if bool_decide (policy = Immediate) then g
  else match next_boundary (gate_state g) context beat None boundaries with
  | None => g
  | Some (Some target) => mkLaunchGate (Waiting context target)
  | Some None => mkLaunchGate (NoUpcomingBoundary context)
  end.

Definition gate_allows (policy : LaunchPolicy) (context : LaunchContext) (phrase : Z) (g : LaunchGate) :
    bool :=
  bool_decide (policy = Immediate) || bool_decide (gate_state g = Launched)
  || match gate_state g with
     | Waiting selected target => bool_decide (selected = context) && (lb_phrase target =? phrase)
     | _ => false
     end.

Definition gate_did_launch (policy : LaunchPolicy) (context : LaunchContext) (phrase : Z)
    (g : LaunchGate) : LaunchGate * bool :=
  if negb (gate_allows policy context phrase g) then (g, false) else (mkLaunchGate Launched, true).

(** ** Runs *)

Inductive LaunchOp : Type :=
| OpArmGate
| OpCancelPending
| OpObserve (policy : LaunchPolicy) (context : LaunchContext) (playing : bool) (beat : Z)
    (boundaries : list LaunchBoundary)
| OpDidLaunch (policy : LaunchPolicy) (context : LaunchContext) (phrase : Z).

Definition launch_step (g : LaunchGate) (op : LaunchOp) : LaunchGate :=
  match op with
  | OpArmGate => gate_arm g
  | OpCancelPending => gate_cancel_pending g
  | OpObserve policy context playing beat boundaries =>
      gate_observe policy context playing beat boundaries g
  | OpDidLaunch policy context phrase => (gate_did_launch policy context phrase g).1
  end.

(** The first of the nearest boundaries at or after a beat. *)
Definition upcoming (beat : Z) (boundaries : list LaunchBoundary) (target : LaunchBoundary) : Prop :=
  target ∈ boundaries ∧ beat ≤ lb_beat target ∧
  ∀ b, b ∈ boundaries → beat ≤ lb_beat b → lb_beat target ≤ lb_beat b.

Lemma next_boundary_Some state context beat boundaries : ∀ next r,
  next_boundary state context beat next boundaries = Some r →
  match r with
  | Some target =>
      (next = Some target ∨ (target ∈ boundaries ∧ beat ≤ lb_beat target)) ∧
      (∀ b, b ∈ boundaries → beat ≤ lb_beat b → lb_beat target ≤ lb_beat b) ∧
      (∀ b, next = Some b → lb_beat target ≤ lb_beat b)
  | None => next = None ∧ ∀ b, b ∈ boundaries → lb_beat b < beat
  end.
Proof.
  induction boundaries as [|b boundaries IH]; intros next r; cbn [next_boundary].
  { intros [= <-]. destruct next as [n|].
    - split_and!; [by left| |naive_solver lia]. intros b Hb. by apply not_elem_of_nil in Hb.
    - split; [done|]. intros b Hb. by apply not_elem_of_nil in Hb. }
  match goal with |- (if ?c then _ else _) = _ → _ => destruct c; [done|] end. cbv zeta.
  set (next' := if _ && _ then Some b else next). intros H%IH.
  assert (Hn : (next' = Some b ∧ beat ≤ lb_beat b ∧ ∀ n, next = Some n → lb_beat b < lb_beat n) ∨
               (next' = next ∧ (beat ≤ lb_beat b → ∃ n, next = Some n ∧ lb_beat n ≤ lb_beat b))).
  { unfold next'. destruct (Z.leb_spec beat (lb_beat b)); simpl; [|right; split; [done|lia]].
    destruct next as [n|]; [|left; naive_solver].
    destruct (Z.ltb_spec (lb_beat b) (lb_beat n)); [left; naive_solver|right; split; [done|]; eauto]. }
  destruct r as [target|].
  - destruct H as (H1 & H2 & H3). split_and!.
    + destruct H1 as [E|[Hin Hb]]; [|right; split; [by right|done]].
      destruct Hn as [(E' & Hb & _)|[E' _]]; [|left; congruence].
      right. replace target with b by congruence. split; [by left|done].
    + intros c [->|Hc]%elem_of_cons Hbc; [|by apply H2].
      destruct Hn as [(E' & _)|[E' Hx]]; [by apply H3|].
      destruct (Hx Hbc) as (n & En & ?). rewrite E' in H3. specialize (H3 n En). lia.
    + intros n En. destruct Hn as [(E' & _ & Hx)|[E' _]].
      * specialize (H3 b E'). specialize (Hx n En). lia.
      * apply H3. congruence.
  - destruct H as [H1 H2]. destruct Hn as [(E' & _)|[E' Hx]]; [congruence|]. split; [congruence|].
    intros c [->|Hc]%elem_of_cons; [|by apply H2].
    destruct (Z.le_gt_cases beat (lb_beat b)) as [Hle|]; [|done].
    destruct (Hx Hle) as (n & En & _). congruence.
Qed.

Lemma next_boundary_None state context beat boundaries : ∀ next,
  next_boundary state context beat next boundaries = None ↔
  ∃ target, state = Waiting context target ∧ target ∈ boundaries.
Proof.
  induction boundaries as [|b boundaries IH]; intros next; cbn [next_boundary].
  { split; [done|]. by intros (? & _ & ?%not_elem_of_nil). }
  destruct (match state with Waiting p t => bool_decide (p = context) && bool_decide (b = t) | _ => false end)
    eqn:Hc.
  - split; [intros _|done]. destruct state as [|p t| |]; try done.
    apply andb_true_iff in Hc as [<-%bool_decide_eq_true <-%bool_decide_eq_true]. exists b. split; [done|by left].
  - cbv zeta. rewrite IH. split; intros (t & -> & Hin).
    + exists t. split; [done|by right].
    + exists t. split; [done|]. apply elem_of_cons in Hin as [->|]; [|done].
      by rewrite !bool_decide_true in Hc.
Qed.

(** The launch gate.  Under the policy that waits for a phrase, observing a playing
    deck before the launch keeps a target that is still among the boundaries of the same
    context, and otherwise selects the nearest boundary that is not behind the beat, or
    says that there is none; only that target's phrase, in that context, is then
    admitted.  A launched show admits everything until it is armed again, whatever is
    observed. *)
Theorem launch_gate_spec g context beat boundaries :
  gate_state g ≠ Launched →
  let g' := gate_observe OnPhraseStart context true beat boundaries g in
  match gate_state g' with
  | Waiting c target =>
      c = context ∧ target ∈ boundaries ∧
      ((gate_state g = Waiting context target ∧ g' = g) ∨ upcoming beat boundaries target) ∧
      ∀ c' phrase, gate_allows OnPhraseStart c' phrase g' = true ↔ c' = context ∧ phrase = lb_phrase target
  | NoUpcomingBoundary c =>
      c = context ∧ (∀ b, b ∈ boundaries → lb_beat b < beat) ∧
      ∀ c' phrase, gate_allows OnPhraseStart c' phrase g' = false
  | _ => False
  end ∧
  ∀ ops, OpArmGate ∉ ops → gate_state (foldl launch_step (mkLaunchGate Launched) ops) = Launched.
Proof.
  intros Hg g'. split.
  - unfold g', gate_observe. rewrite bool_decide_false by done. cbn [negb].
    rewrite bool_decide_false by done.
    destruct (next_boundary _ _ _ _ _) as [[target|]|] eqn:Hn.
    + apply next_boundary_Some in Hn as (H1 & H2 & _). simpl.
      destruct H1 as [?|[Hin Hb]]; [done|]. split_and!; [done|done|by right|].
      intros c' phrase. unfold gate_allows. simpl. rewrite andb_true_iff, bool_decide_eq_true, Z.eqb_eq.
      naive_solver.
    + apply next_boundary_Some in Hn as (_ & H2). simpl. by split_and!.
    + apply next_boundary_None in Hn as (target & Hw & Hin). rewrite Hw. split_and!; [done|done|by left|].
      intros c' phrase. unfold gate_allows. rewrite Hw. simpl.
      rewrite andb_true_iff, bool_decide_eq_true, Z.eqb_eq. naive_solver.
  - intros ops. assert (∀ g0, gate_state g0 = Launched → OpArmGate ∉ ops →
      gate_state (foldl launch_step g0 ops) = Launched) as H; [|by apply H].
    clear. induction ops as [|op ops IH]; intros g Hg Hin; [done|]. simpl.
    apply not_elem_of_cons in Hin as [Hop Hin]. apply IH; [|done].
    destruct op; simpl; [done| | |].
    + unfold gate_cancel_pending. by rewrite bool_decide_true.
    + unfold gate_observe. by rewrite bool_decide_true.
    + unfold gate_did_launch. by destruct (negb _).
Qed.

Lemma launch_gate_spec_witness :
  let boundaries := [mkLaunchBoundary 0 0; mkLaunchBoundary 1 32; mkLaunchBoundary 2 64] in
  let context := mkLaunchContext 1 1 1 1 in
  gate_allows OnPhraseStart context 1
    (gate_observe OnPhraseStart context true 20 boundaries LaunchGate_default) = true.
Proof.
  intros boundaries context.
  destruct (launch_gate_spec LaunchGate_default context 20 boundaries ltac:(discriminate)) as [H _].
  vm_compute in H. destruct H as (_ & _ & _ & H). apply (H context 1). split; reflexivity.
Defined.
