(* ===== verification/RekordboxAnalysis.v ===== *)
(** The reader of Rekordbox analysis files (lumi-rekordbox-analysis/src/lib.rs).

    An analysis file is a header and a sequence of tagged sections with big-endian
    lengths; the reader walks the sections and decodes beat grids, phrases, hot cues and
    waveforms.  The bytes come from files the program did not write, so the model keeps
    every way a slice access can go wrong: a checked access ([get]) returns the error of
    the source, an unchecked one ([bytes[a..b]], [entry[28]]) returns [Panic], and the
    loop over the sections takes fuel and returns [Stuck] when it runs out.  The theorems
    on the reader are in the file of its properties; they show that neither [Panic] nor
    [Stuck] is ever returned.

    A [usize] has 64 bits.  The [checked_] operations are modelled at that width; the
    plain additions on offsets are exact, every offset being below the length of a slice
    (at most [isize::MAX]) or below [2^32 * 56 + 64]. *)

From stdpp Require Import prelude list strings.
From Stdlib Require Import ZArith Lia.
From S2P Require Import Prelude.
Open Scope Z_scope.

(** * Errors *)

Inductive AnalysisError :=
| AEIo (message : str)
| AEInvalidAnalysisRoot
| AEInvalidRequestedTrackCount (count : Z)
| AESnapshotRootNotEmpty
| AESnapshotInsideAnalysisRoot
| AEInvalidSnapshotRoot
| AETraversalLimitExceeded
| AEInvalidFileSize (size : Z)
| AEMalformedAnalysisFile
| AESourceChangedDuringSnapshot
| AEInvalidResolvedIdentity
| AEDuplicateResolvedIdentity
| AEResolvedFileOutsideAnalysisRoot.

(** What a run of the reader can end in besides a value: an error of the source, a panic
    of the language, or the fuel of the model. *)
Inductive fault := Raised (e : AnalysisError) | Panic | Stuck.

Notation parse A := (result A fault).
Notation malformed := (Err (Raised AEMalformedAnalysisFile)).

(** * Slices *)

Definition zlen {A} (l : list A) : Z := Z.of_nat (length l).

(** [l.get(a..b)]. *)
Definition slice (l : list Z) (a b : Z) : option (list Z) :=
  if (0 <=? a) && (a <=? b) && (b <=? zlen l)
  then Some (take (Z.to_nat (b - a)) (drop (Z.to_nat a) l)) else None.

(** [l.get(a..b).ok_or(AnalysisError::MalformedAnalysisFile)?]. *)
Definition get (l : list Z) (a b : Z) : parse (list Z) :=
  ok_or (slice l a b) (Raised AEMalformedAnalysisFile).

(** [&l[a..b]]. *)
Definition index_range (l : list Z) (a b : Z) : parse (list Z) := ok_or (slice l a b) Panic.

(** [l[i]]. *)
Definition index_byte (l : list Z) (i : Z) : parse Z :=
  ok_or (if 0 <=? i then l !! Z.to_nat i else None) Panic.

(** [usize::saturating_sub] and the checked operations on [usize]. *)
Definition saturating_sub (x y : Z) : Z := Z.max 0 (x - y).

Definition checked_mul_u64 (x y : Z) : option Z :=
  if x * y <=? U64_MAX then Some (x * y) else None.

Definition be_u16 (bytes : list Z) (offset : Z) : parse Z :=
  let? value := get bytes offset (offset + 2) in
  let? b0 := index_byte value 0 in
  let? b1 := index_byte value 1 in
  Ok (256 * b0 + b1).

Definition be_u32 (bytes : list Z) (offset : Z) : parse Z :=
  let? value := get bytes offset (offset + 4) in
  let? b0 := index_byte value 0 in
  let? b1 := index_byte value 1 in
  let? b2 := index_byte value 2 in
  let? b3 := index_byte value 3 in
  Ok (256 * (256 * (256 * b0 + b1) + b2) + b3).

(** [usize::try_from] on a [u32]: a [usize] has 64 bits. *)
Definition usize_from_u32 (value : Z) : parse Z :=
  if value <=? U64_MAX then Ok value else malformed.

(** [u8::try_from(...).map_err(...)]. *)
Definition u8_try_from (value : Z) : parse Z :=
  if value <=? U8_MAX then Ok value else malformed.

(** * Data *)

Record WaveformCoverage := mkWaveformCoverage {
  wc_preview_points : Z;
  wc_detailed_points : Z;
  wc_color_preview_points : Z;
  wc_color_detailed_points : Z;
  wc_three_band_preview_points : Z;
  wc_three_band_detailed_points : Z;
}.

Definition WaveformCoverage_default : WaveformCoverage := mkWaveformCoverage 0 0 0 0 0 0.

Definition WaveformCoverage_merge (self other : WaveformCoverage) : WaveformCoverage :=
  mkWaveformCoverage
    (Z.max (wc_preview_points self) (wc_preview_points other))
    (Z.max (wc_detailed_points self) (wc_detailed_points other))
    (Z.max (wc_color_preview_points self) (wc_color_preview_points other))
    (Z.max (wc_color_detailed_points self) (wc_color_detailed_points other))
    (Z.max (wc_three_band_preview_points self) (wc_three_band_preview_points other))
    (Z.max (wc_three_band_detailed_points self) (wc_three_band_detailed_points other)).

Definition has_color_waveform (self : WaveformCoverage) : bool :=
  (0 <? wc_color_preview_points self) || (0 <? wc_color_detailed_points self).

Record TrackAnalysisCoverage := mkTrackAnalysisCoverage {
  tac_beat_grid_entries : Z;
  tac_phrase_entries : Z;
  tac_hot_cue_entries : Z;
  tac_waveform : WaveformCoverage;
}.

Record AnalysisBeat := mkAnalysisBeat {
  abt_beat_number : Z;
  abt_tempo_centi_bpm : Z;
  abt_time_millis : Z;
}.

Record AnalysisWaveformPoint := mkAnalysisWaveformPoint {
  awp_low : Z;
  awp_mid : Z;
  awp_high : Z;
}.

Record AnalysisPhrase := mkAnalysisPhrase {
  aph_start_beat : Z;
  aph_end_beat : Z;
  aph_source_label : str;
}.

Record AnalysisHotCue := mkAnalysisHotCue {
  ahc_index : Z;
  ahc_time_millis : Z;
  ahc_loop_end_millis : option Z;
  ahc_comment : str;
  ahc_color_rgb : Z * Z * Z;
}.

Record ParsedAnalysisFile := mkParsedAnalysisFile {
  paf_audio_location : option str;
  paf_beat_grid : list AnalysisBeat;
  paf_phrases : list AnalysisPhrase;
  paf_hot_cues : list AnalysisHotCue;
  paf_hot_cue_priority : Z;
  paf_waveform : list AnalysisWaveformPoint;
  paf_waveform_priority : Z;
  paf_waveform_coverage : WaveformCoverage;
}.

Definition ParsedAnalysisFile_default : ParsedAnalysisFile :=
  mkParsedAnalysisFile None [] [] [] 0 [] 0 WaveformCoverage_default.

Definition coverage (self : ParsedAnalysisFile) : TrackAnalysisCoverage :=
  mkTrackAnalysisCoverage (zlen (paf_beat_grid self)) (zlen (paf_phrases self))
    (zlen (paf_hot_cues self)) (paf_waveform_coverage self).

(** [ParsedAnalysisFile::merge]: the longer beat grid and phrases, the hot cues and the
    waveform of the better source; the location stays the receiver's. *)
Definition merge (self other : ParsedAnalysisFile) : ParsedAnalysisFile :=
  let cues := (paf_hot_cue_priority self <? paf_hot_cue_priority other) ||
    ((paf_hot_cue_priority other =? paf_hot_cue_priority self) &&
     (zlen (paf_hot_cues self) <? zlen (paf_hot_cues other))) in
  let wave := (paf_waveform_priority self <? paf_waveform_priority other) ||
    ((paf_waveform_priority other =? paf_waveform_priority self) &&
     (zlen (paf_waveform self) <? zlen (paf_waveform other))) in
  mkParsedAnalysisFile
    (paf_audio_location self)
    (if zlen (paf_beat_grid self) <? zlen (paf_beat_grid other)
     then paf_beat_grid other else paf_beat_grid self)
    (if zlen (paf_phrases self) <? zlen (paf_phrases other)
     then paf_phrases other else paf_phrases self)
    (if cues then paf_hot_cues other else paf_hot_cues self)
    (if cues then paf_hot_cue_priority other else paf_hot_cue_priority self)
    (if wave then paf_waveform other else paf_waveform self)
    (if wave then paf_waveform_priority other else paf_waveform_priority self)
    (WaveformCoverage_merge (paf_waveform_coverage self) (paf_waveform_coverage other)).

(** Field updates, [parsed.field = value]. *)
Definition set_audio_location (v : option str) (p : ParsedAnalysisFile) : ParsedAnalysisFile :=
  mkParsedAnalysisFile v (paf_beat_grid p) (paf_phrases p) (paf_hot_cues p)
    (paf_hot_cue_priority p) (paf_waveform p) (paf_waveform_priority p)
    (paf_waveform_coverage p).
Definition set_beat_grid (v : list AnalysisBeat) (p : ParsedAnalysisFile) : ParsedAnalysisFile :=
  mkParsedAnalysisFile (paf_audio_location p) v (paf_phrases p) (paf_hot_cues p)
    (paf_hot_cue_priority p) (paf_waveform p) (paf_waveform_priority p)
    (paf_waveform_coverage p).
Definition set_phrases (v : list AnalysisPhrase) (p : ParsedAnalysisFile) : ParsedAnalysisFile :=
  mkParsedAnalysisFile (paf_audio_location p) (paf_beat_grid p) v (paf_hot_cues p)
    (paf_hot_cue_priority p) (paf_waveform p) (paf_waveform_priority p)
    (paf_waveform_coverage p).
Definition set_hot_cues (v : list AnalysisHotCue) (priority : Z) (p : ParsedAnalysisFile) :
    ParsedAnalysisFile :=
  mkParsedAnalysisFile (paf_audio_location p) (paf_beat_grid p) (paf_phrases p) v
    priority (paf_waveform p) (paf_waveform_priority p) (paf_waveform_coverage p).
Definition set_waveform (v : list AnalysisWaveformPoint) (priority : Z)
    (p : ParsedAnalysisFile) : ParsedAnalysisFile :=
  mkParsedAnalysisFile (paf_audio_location p) (paf_beat_grid p) (paf_phrases p)
    (paf_hot_cues p) (paf_hot_cue_priority p) v priority (paf_waveform_coverage p).
Definition set_coverage (v : WaveformCoverage) (p : ParsedAnalysisFile) : ParsedAnalysisFile :=
  mkParsedAnalysisFile (paf_audio_location p) (paf_beat_grid p) (paf_phrases p)
    (paf_hot_cues p) (paf_hot_cue_priority p) (paf_waveform p) (paf_waveform_priority p) v.

Definition with_preview_points (n : Z) (w : WaveformCoverage) : WaveformCoverage :=
  mkWaveformCoverage n (wc_detailed_points w) (wc_color_preview_points w)
    (wc_color_detailed_points w) (wc_three_band_preview_points w)
    (wc_three_band_detailed_points w).
Definition with_detailed_points (n : Z) (w : WaveformCoverage) : WaveformCoverage :=
  mkWaveformCoverage (wc_preview_points w) n (wc_color_preview_points w)
    (wc_color_detailed_points w) (wc_three_band_preview_points w)
    (wc_three_band_detailed_points w).
Definition with_color_preview_points (n : Z) (w : WaveformCoverage) : WaveformCoverage :=
  mkWaveformCoverage (wc_preview_points w) (wc_detailed_points w) n
    (wc_color_detailed_points w) (wc_three_band_preview_points w)
    (wc_three_band_detailed_points w).
Definition with_color_detailed_points (n : Z) (w : WaveformCoverage) : WaveformCoverage :=
  mkWaveformCoverage (wc_preview_points w) (wc_detailed_points w)
    (wc_color_preview_points w) n (wc_three_band_preview_points w)
    (wc_three_band_detailed_points w).
Definition with_three_band_preview_points (n : Z) (w : WaveformCoverage) : WaveformCoverage :=
  mkWaveformCoverage (wc_preview_points w) (wc_detailed_points w)
    (wc_color_preview_points w) (wc_color_detailed_points w) n
    (wc_three_band_detailed_points w).
Definition with_three_band_detailed_points (n : Z) (w : WaveformCoverage) : WaveformCoverage :=
  mkWaveformCoverage (wc_preview_points w) (wc_detailed_points w)
    (wc_color_preview_points w) (wc_color_detailed_points w)
    (wc_three_band_preview_points w) n.

(** * Texts *)

(** [bytes.chunks_exact(2).map(u16::from_be_bytes)]: a trailing odd byte is left out. *)
Fixpoint be_words (bytes : list Z) : list Z :=
  match bytes with
  | b0 :: b1 :: rest => 256 * b0 + b1 :: be_words rest
  | _ => []
  end.

(** [String::from_utf16]: lone surrogates are errors. *)
Fixpoint from_utf16 (words : list Z) : option str :=
  match words with
  | [] => Some []
  | u :: rest =>
      if (u <? 0xD800) || (0xDFFF <? u) then cons u <$> from_utf16 rest
      else if 0xDC00 <=? u then None
      else
        match rest with
        | v :: rest' =>
            if (0xDC00 <=? v) && (v <=? 0xDFFF)
            then cons (0x10000 + 0x400 * (u - 0xD800) + (v - 0xDC00)) <$> from_utf16 rest'
            else None
        | [] => None
        end
  end.

Fixpoint take_while {A} (p : A → bool) (l : list A) : list A :=
  match l with
  | [] => []
  | x :: rest => if p x then x :: take_while p rest else []
  end.

Definition parse_utf16be (bytes : list Z) : parse str :=
  ok_or (from_utf16 (take_while (λ word, negb (word =? 0)) (be_words bytes)))
    (Raised AEMalformedAnalysisFile).

(** [String::from_utf8]: the well-formed sequences of the Unicode standard. *)
Definition is_cont (b : Z) : bool := (0x80 <=? b) && (b <=? 0xBF).

Fixpoint from_utf8 (bytes : list Z) : option str :=
  match bytes with
  | [] => Some []
  | b0 :: r0 =>
      if b0 <? 0x80 then cons b0 <$> from_utf8 r0
      else
        match r0 with
        | [] => None
        | b1 :: r1 =>
            if (0xC2 <=? b0) && (b0 <=? 0xDF) then
              if is_cont b1 then cons (64 * (b0 - 0xC0) + (b1 - 0x80)) <$> from_utf8 r1
              else None
            else
              match r1 with
              | [] => None
              | b2 :: r2 =>
                  if (0xE0 <=? b0) && (b0 <=? 0xEF) then
                    if (is_cont b1 && is_cont b2 &&
                        ((negb (b0 =? 0xE0) || (0xA0 <=? b1)) &&
                         (negb (b0 =? 0xED) || (b1 <=? 0x9F))))
                    then cons (4096 * (b0 - 0xE0) + 64 * (b1 - 0x80) + (b2 - 0x80)) <$>
                         from_utf8 r2
                    else None
                  else
                    match r2 with
                    | [] => None
                    | b3 :: r3 =>
                        if ((0xF0 <=? b0) && (b0 <=? 0xF4) &&
                            (is_cont b1 && is_cont b2 && is_cont b3) &&
                            ((negb (b0 =? 0xF0) || (0x90 <=? b1)) &&
                             (negb (b0 =? 0xF4) || (b1 <=? 0x8F))))
                        then cons (262144 * (b0 - 0xF0) + 4096 * (b1 - 0x80) +
                                   64 * (b2 - 0x80) + (b3 - 0x80)) <$> from_utf8 r3
                        else None
                    end
              end
        end
  end.

Definition hex_nibble (value : Z) : option Z :=
  if (48 <=? value) && (value <=? 57) then Some (value - 48)
  else if (97 <=? value) && (value <=? 102) then Some (value - 97 + 10)
  else if (65 <=? value) && (value <=? 70) then Some (value - 65 + 10)
  else None.

Definition checked_mul_u8 (x y : Z) : option Z := if x * y <=? U8_MAX then Some (x * y) else None.
Definition checked_add_u8 (x y : Z) : option Z := if x + y <=? U8_MAX then Some (x + y) else None.

(** The loop of [percent_decode], on the bytes from [index] on. *)
Fixpoint percent_decode (value : list Z) : option (list Z) :=
  match value with
  | [] => Some []
  | b :: rest =>
      if b =? 37 then
        match rest with
        | high :: low :: rest' =>
            h ← hex_nibble high; h16 ← checked_mul_u8 h 16; l ← hex_nibble low;
            byte ← checked_add_u8 h16 l; cons byte <$> percent_decode rest'
        | _ => None
        end
      else cons b <$> percent_decode rest
  end.

(** [str::trim_end_matches('\0')]. *)
Fixpoint drop_zeros (s : str) : str :=
  match s with
  | [] => []
  | c :: rest => if c =? 0 then drop_zeros rest else s
  end.
Definition trim_end_zeros (s : str) : str := reverse (drop_zeros (reverse s)).

(** * Locations *)

Section location.
(** [fs::canonicalize]: [None] when it fails, and otherwise the canonical path when that
    is valid UTF-8. *)
Context (canonicalize : str → option (option str)).

Definition normalize_location (value : str) : option str :=
  let trimmed := trim_end_zeros (trim value) in
  let without_scheme :=
    match strip_prefix (lit "file://localhost") trimmed with
    | Some rest => rest
    | None => default trimmed (strip_prefix (lit "file://") trimmed)
    end in
  bytes ← percent_decode (str_as_bytes without_scheme);
  decoded ← from_utf8 bytes;
  match canonicalize decoded with
  | None => Some decoded
  | Some canonical => canonical
  end.

Definition parse_path_tag (body : list Z) : parse (option str) :=
  let? n := be_u32 body 0 in
  let? byte_count := usize_from_u32 n in
  if (byte_count <? 2) || (saturating_sub (zlen body) 4 <? byte_count) ||
     negb (byte_count mod 2 =? 0)
  then malformed
  else
    let? path_bytes := index_range body 4 (4 + byte_count - 2) in
    let? path := ok_or (from_utf16 (be_words path_bytes)) (Raised AEMalformedAnalysisFile) in
    Ok (normalize_location path).
End location.

(** * Entry counts *)

Definition validate_entry_range (body : list Z) (count entry_bytes data_offset : Z) : parse unit :=
  let? data_bytes := ok_or (checked_mul_u64 count entry_bytes) (Raised AEMalformedAnalysisFile) in
  let? end_ := ok_or (checked_add_u64 data_offset data_bytes) (Raised AEMalformedAnalysisFile) in
  if zlen body <? end_ then malformed else Ok tt.

Definition parse_byte_entries (body : list Z) (count_offset data_offset : Z) : parse Z :=
  let? n := be_u32 body count_offset in
  let? count := usize_from_u32 n in
  if saturating_sub (zlen body) data_offset <? count then malformed else Ok count.

Definition parse_fixed_entries (body : list Z) (entry_bytes data_offset : Z) : parse Z :=
  let? n := be_u32 body 8 in
  let? count := usize_from_u32 n in
  let? _ := validate_entry_range body count entry_bytes data_offset in
  Ok count.

Definition parse_declared_entries (body : list Z) (expected_entry_bytes : Z) : parse Z :=
  let? n := be_u32 body 0 in
  let? entry_bytes := usize_from_u32 n in
  let? m := be_u32 body 4 in
  let? count := usize_from_u32 m in
  if negb (entry_bytes =? expected_entry_bytes) then malformed
  else
    let? _ := validate_entry_range body count entry_bytes 12 in
    Ok count.

Definition parse_compact_declared_entries (body : list Z) (expected_entry_bytes : Z) : parse Z :=
  let? n := be_u32 body 0 in
  let? entry_bytes := usize_from_u32 n in
  let? m := be_u32 body 4 in
  let? count := usize_from_u32 m in
  if negb (entry_bytes =? expected_entry_bytes) then malformed
  else
    let? _ := validate_entry_range body count entry_bytes 8 in
    Ok count.

(** * Beat grids and waveforms *)

Definition beat_entry (body : list Z) (index : Z) : parse AnalysisBeat :=
  let offset := 12 + index * 8 in
  let? beat_number := be_u16 body offset in
  if negb ((1 <=? beat_number) && (beat_number <=? 4)) then malformed
  else
    let? tempo_centi_bpm := be_u16 body (offset + 2) in
    let? time_millis := be_u32 body (offset + 4) in
    Ok (mkAnalysisBeat beat_number tempo_centi_bpm time_millis).

Definition parse_beat_grid (body : list Z) : parse (list AnalysisBeat) :=
  let? count := parse_fixed_entries body 8 12 in
  collect (beat_entry body) (seqZ 0 count).

(** The closure [scale]: the hue normalized around the height of the point. *)
Definition scale (strongest_color height component : Z) : parse Z :=
  if (strongest_color =? 0) || (height =? 0) then Ok 0
  else u8_try_from (component * height * 255 / (strongest_color * 31)).

Definition color_point (value : Z) : parse AnalysisWaveformPoint :=
  let red := Z.shiftr (Z.land value 0xE000) 13 in
  let blue := Z.shiftr (Z.land value 0x1C00) 10 in
  let green := Z.shiftr (Z.land value 0x0380) 7 in
  let height := Z.shiftr (Z.land value 0x007C) 2 in
  let strongest_color := Z.max (Z.max red green) blue in
  let? low := scale strongest_color height blue in
  let? mid := scale strongest_color height green in
  let? high := scale strongest_color height red in
  Ok (mkAnalysisWaveformPoint low mid high).

Definition parse_color_detailed_waveform (body : list Z) : parse (list AnalysisWaveformPoint) :=
  let? count := parse_declared_entries body 2 in
  collect (λ index, let? value := be_u16 body (12 + index * 2) in color_point value)
    (seqZ 0 count).

Definition three_band_point (body : list Z) (data_offset index : Z) :
    parse AnalysisWaveformPoint :=
  let offset := data_offset + index * 3 in
  let? bytes := get body offset (offset + 3) in
  let? low := index_byte bytes 2 in
  let? mid := index_byte bytes 0 in
  let? high := index_byte bytes 1 in
  Ok (mkAnalysisWaveformPoint low mid high).

Definition parse_three_band_waveform (body : list Z) (data_offset : Z) :
    parse (list AnalysisWaveformPoint) :=
  let? count := if data_offset =? 8 then parse_compact_declared_entries body 3
                else parse_declared_entries body 3 in
  collect (three_band_point body data_offset) (seqZ 0 count).

(** * Phrases *)

(** The mask of newer exports, [base[index % base.len()].wrapping_add(increment)]. *)
Definition mask_base : list Z :=
  [0xCB; 0xE1; 0xEE; 0xFA; 0xE5; 0xEE; 0xAD; 0xEE; 0xE9; 0xD2; 0xE9; 0xEB; 0xE1; 0xE9;
   0xF3; 0xE8; 0xE9; 0xF4; 0xE1].

Definition mask_byte (increment : Z) (index : nat) : Z :=
  (nth (index mod 19) mask_base 0 + increment) mod 256.

(** The loop over [decoded[6..]]. *)
Definition apply_mask (increment : Z) (bytes : list Z) : list Z :=
  imap (λ index byte, Z.lxor byte (mask_byte increment index)) bytes.

Definition unmask (body : list Z) (count : Z) : parse (list Z) :=
  let? style := be_u16 body 6 in
  if 20 <? style then
    let? increment := u8_try_from count in
    let? tail := index_range body 6 (zlen body) in
    Ok (take 6 body ++ apply_mask increment tail)
  else Ok body.

Definition show_label (prefix : string) (n : Z) : str := lit prefix ++ show_u n.

Definition rekordbox_phrase_label (mood kind k1 k2 k3 : Z) : str :=
  if mood =? 1 then
    if kind =? 1 then show_label "Intro " (if k1 =? 1 then 1 else 2)
    else if kind =? 2 then
      show_label "Up "
        (if (k2 =? 0) && (k3 =? 0) then 1
         else if (k2 =? 0) && (k3 =? 1) then 2
         else if (k2 =? 1) && (k3 =? 0) then 3 else 1)
    else if kind =? 3 then lit "Down"
    else if kind =? 5 then show_label "Chorus " (if k1 =? 1 then 1 else 2)
    else if kind =? 6 then show_label "Outro " (if k1 =? 1 then 1 else 2)
    else show_label "High " kind
  else if mood =? 2 then
    if kind =? 1 then lit "Intro"
    else if (2 <=? kind) && (kind <=? 7) then show_label "Verse " (kind - 1)
    else if kind =? 8 then lit "Bridge"
    else if kind =? 9 then lit "Chorus"
    else if kind =? 10 then lit "Outro"
    else show_label "Mid " kind
  else if mood =? 3 then
    if kind =? 1 then lit "Intro"
    else if (2 <=? kind) && (kind <=? 4) then lit "Verse 1"
    else if (5 <=? kind) && (kind <=? 7) then lit "Verse 2"
    else if kind =? 8 then lit "Bridge"
    else if kind =? 9 then lit "Chorus"
    else if kind =? 10 then lit "Outro"
    else show_label "Low " kind
  else show_label "Phrase " kind.

Definition phrase_raw : Type := Z * Z * Z * Z * Z.

(** An entry: its beat, kind and the three flags. *)
Definition phrase_entry (decoded : list Z) (index : Z) : parse phrase_raw :=
  let entry_offset := 20 + index * 24 in
  let? beat := be_u16 decoded (entry_offset + 2) in
  let? kind := be_u16 decoded (entry_offset + 4) in
  if beat =? 0 then malformed
  else
    let? k1 := index_byte decoded (entry_offset + 6) in
    let? k2 := index_byte decoded (entry_offset + 7) in
    let? k3 := index_byte decoded (entry_offset + 19) in
    Ok (beat, kind, k1, k2, k3).

Definition raw_beat (e : phrase_raw) : Z := let '(beat, _, _, _, _) := e in beat.

(** A phrase ends where the next entry starts, the last one after the final beat. *)
Definition phrase_of_entry (mood final_end_beat : Z) (entries : list phrase_raw) (index : nat)
    (e : phrase_raw) : parse AnalysisPhrase :=
  let '(beat, kind, k1, k2, k3) := e in
  let next := from_option raw_beat (saturating_add_u32 final_end_beat 1)
                (entries !! S index) in
  let start_beat := saturating_sub beat 1 in
  let end_beat := saturating_sub next 1 in
  if end_beat <=? start_beat then malformed
  else Ok (mkAnalysisPhrase start_beat end_beat (rekordbox_phrase_label mood kind k1 k2 k3)).

Definition parse_phrases (body : list Z) : parse (list AnalysisPhrase) :=
  if zlen body <? 20 then malformed
  else
    let? count := be_u16 body 4 in
    let? decoded := unmask body count in
    let? mood := be_u16 decoded 6 in
    if negb ((1 <=? mood) && (mood <=? 3)) then malformed
    else
      let? _ := validate_entry_range decoded count 24 20 in
      let? final_end_beat := be_u16 decoded 14 in
      let? entries := collect (phrase_entry decoded) (seqZ 0 count) in
      collect (λ '(index, e), phrase_of_entry mood final_end_beat entries index e)
        (imap pair entries).

(** * Hot cues *)

Definition default_hot_cue_color : Z * Z * Z := (0x00, 0xd8, 0x7f).

(** [cues.sort_by_key(...)] and the check on neighbouring pairs. *)
Fixpoint has_equal_neighbours (cues : list AnalysisHotCue) : bool :=
  match cues with
  | a :: (b :: _) as rest => (ahc_index a =? ahc_index b) || has_equal_neighbours rest
  | _ => false
  end.

Definition normalize_hot_cues (cues : list AnalysisHotCue) : parse (list AnalysisHotCue) :=
  let cues := sort_by_key ahc_index cues in
  if has_equal_neighbours cues then malformed else Ok cues.

(** [(cue_type == 2 && loop_time > time_millis).then_some(loop_time)]. *)
Definition loop_end (cue_type time_millis loop_time : Z) : option Z :=
  if (cue_type =? 2) && (time_millis <? loop_time) then Some loop_time else None.

(** One round of the loop of [parse_legacy_hot_cues]; [None] is its [continue]. *)
Definition legacy_entry (body : list Z) (entry_index : Z) : parse (option AnalysisHotCue) :=
  let offset := 12 + entry_index * 56 in
  let? entry := get body offset (offset + 56) in
  let? magic := index_range entry 0 4 in
  if negb (bool_decide (magic = lit "PCPT")) then malformed
  else
    let? n := be_u32 entry 8 in
    let? entry_bytes := usize_from_u32 n in
    if negb (entry_bytes =? 56) then malformed
    else
      let? hot_cue := be_u32 entry 12 in
      if hot_cue =? 0 then Ok None
      else
        let? index := u8_try_from hot_cue in
        let? cue_type := index_byte entry 28 in
        if negb ((0 <=? cue_type) && (cue_type <=? 2)) then malformed
        else
          let? time_millis := be_u32 entry 32 in
          let? loop_time := be_u32 entry 36 in
          Ok (Some (mkAnalysisHotCue index time_millis (loop_end cue_type time_millis loop_time)
                      [] default_hot_cue_color)).

Definition parse_legacy_hot_cues (body : list Z) : parse (list AnalysisHotCue) :=
  if zlen body <? 12 then malformed
  else
    let? list_type := be_u32 body 0 in
    let? count := be_u16 body 6 in
    if negb (list_type =? 1) then Ok []
    else
      let? _ := validate_entry_range body count 56 12 in
      let? cues := collect (legacy_entry body) (seqZ 0 count) in
      normalize_hot_cues (omap id cues).

(** The comment and the colour of an extended entry. *)
Definition extended_text (entry : list Z) (entry_bytes : Z) : parse (str * (Z * Z * Z)) :=
  if 44 <=? entry_bytes then
    let? n := be_u32 entry 40 in
    let? comment_bytes := usize_from_u32 n in
    let? comment_end := ok_or (checked_add_u64 44 comment_bytes)
                          (Raised AEMalformedAnalysisFile) in
    if (entry_bytes <? comment_end) || negb (comment_bytes mod 2 =? 0) then malformed
    else
      let? text := index_range entry 44 comment_end in
      let? comment := parse_utf16be text in
      match slice entry comment_end (comment_end + 4) with
      | None => Ok (comment, default_hot_cue_color)
      | Some bytes =>
          let? r := index_byte bytes 1 in
          let? g := index_byte bytes 2 in
          let? b := index_byte bytes 3 in
          Ok (comment, if bool_decide ((r, g, b) = (0, 0, 0)) then default_hot_cue_color
                       else (r, g, b))
      end
  else Ok ([], default_hot_cue_color).

(** One round of the loop of [parse_extended_hot_cues]: the cue it pushes, if any, and the
    length of the entry. *)
Definition extended_entry (body : list Z) (offset : Z) : parse (option AnalysisHotCue * Z) :=
  let? header := get body offset (offset + 12) in
  let? magic := index_range header 0 4 in
  if negb (bool_decide (magic = lit "PCP2")) then malformed
  else
    let? n := be_u32 header 8 in
    let? entry_bytes := usize_from_u32 n in
    if entry_bytes <? 28 then malformed
    else
      let? entry := get body offset (offset + entry_bytes) in
      let? hot_cue := be_u32 entry 12 in
      if hot_cue =? 0 then Ok (None, entry_bytes)
      else
        let? index := u8_try_from hot_cue in
        let? cue_type := index_byte entry 16 in
        if negb ((0 <=? cue_type) && (cue_type <=? 2)) then malformed
        else
          let? time_millis := be_u32 entry 20 in
          let? loop_time := be_u32 entry 24 in
          let? text := extended_text entry entry_bytes in
          Ok (Some (mkAnalysisHotCue index time_millis (loop_end cue_type time_millis loop_time)
                      text.1 text.2), entry_bytes).

(** [for _ in 0..count], the offset advancing by the length of each entry. *)
Fixpoint extended_entries (count : nat) (body : list Z) (offset : Z)
    (cues : list AnalysisHotCue) : parse (list AnalysisHotCue) :=
  match count with
  | O => Ok cues
  | S count =>
      let? e := extended_entry body offset in
      let? offset := ok_or (checked_add_u64 offset e.2) (Raised AEMalformedAnalysisFile) in
      extended_entries count body offset (cues ++ option_list e.1)
  end.

Definition parse_extended_hot_cues (body : list Z) : parse (list AnalysisHotCue) :=
  if zlen body <? 8 then malformed
  else
    let? list_type := be_u32 body 0 in
    let? count := be_u16 body 4 in
    if negb (list_type =? 1) then Ok []
    else
      let? cues := extended_entries (Z.to_nat count) body 8 [] in
      normalize_hot_cues cues.

(** * The file *)

Definition ANALYSIS_MAGIC : str := lit "PMAI".
Definition TAG_HEADER_BYTES : Z := 12.

Section file.
Context (canonicalize : str → option (option str)).

(** The [match tag_id] of the loop: the effect of one section on what was parsed. *)
Definition apply_tag (tag_id : str) (body : list Z) (parsed : ParsedAnalysisFile) :
    parse ParsedAnalysisFile :=
  let w := paf_waveform_coverage parsed in
  if bool_decide (tag_id = lit "PPTH") then
    let? v := parse_path_tag canonicalize body in Ok (set_audio_location v parsed)
  else if bool_decide (tag_id = lit "PQTZ") then
    let? v := parse_beat_grid body in Ok (set_beat_grid v parsed)
  else if bool_decide (tag_id = lit "PWAV") then
    let? n := parse_byte_entries body 0 8 in Ok (set_coverage (with_preview_points n w) parsed)
  else if bool_decide (tag_id = lit "PWV2") then
    let? n := parse_byte_entries body 0 8 in
    Ok (set_coverage (with_preview_points (Z.max (wc_preview_points w) n) w) parsed)
  else if bool_decide (tag_id = lit "PWV3") then
    let? n := parse_declared_entries body 1 in Ok (set_coverage (with_detailed_points n w) parsed)
  else if bool_decide (tag_id = lit "PWV4") then
    let? n := parse_declared_entries body 6 in
    Ok (set_coverage (with_color_preview_points n w) parsed)
  else if bool_decide (tag_id = lit "PWV5") then
    let? n := parse_declared_entries body 2 in
    let parsed := set_coverage (with_color_detailed_points n w) parsed in
    let? waveform := parse_color_detailed_waveform body in
    Ok (if paf_waveform_priority parsed <? 4 then set_waveform waveform 4 parsed else parsed)
  else if bool_decide (tag_id = lit "PWV6") then
    let? n := parse_compact_declared_entries body 3 in
    let parsed := set_coverage (with_three_band_preview_points n w) parsed in
    let? waveform := parse_three_band_waveform body 8 in
    Ok (if paf_waveform_priority parsed <? 2 then set_waveform waveform 2 parsed else parsed)
  else if bool_decide (tag_id = lit "PWV7") then
    let? n := parse_declared_entries body 3 in
    let parsed := set_coverage (with_three_band_detailed_points n w) parsed in
    if paf_waveform_priority parsed <? 3 then
      let? waveform := parse_three_band_waveform body 12 in
      Ok (set_waveform waveform 3 parsed)
    else Ok parsed
  else if bool_decide (tag_id = lit "PSSI") then
    let? v := parse_phrases body in Ok (set_phrases v parsed)
  else if bool_decide (tag_id = lit "PCOB") then
    let? hot_cues := parse_legacy_hot_cues body in
    Ok (if (paf_hot_cue_priority parsed <? 1) && negb (bool_decide (zlen hot_cues = 0))
        then set_hot_cues hot_cues 1 parsed else parsed)
  else if bool_decide (tag_id = lit "PCO2") then
    let? hot_cues := parse_extended_hot_cues body in
    Ok (if negb (bool_decide (zlen hot_cues = 0)) then set_hot_cues hot_cues 2 parsed else parsed)
  else Ok parsed.

(** The head of a round of the loop: the section at [offset] as its name, its bytes after
    the common header, and its length. *)
Definition read_tag (bytes : list Z) (declared_length offset : Z) : parse (str * list Z * Z) :=
  if declared_length - offset <? TAG_HEADER_BYTES then malformed
  else
    let? tag := index_range bytes offset declared_length in
    let? tag_id := index_range tag 0 4 in
    let? h := be_u32 tag 4 in
    let? header_bytes := usize_from_u32 h in
    let? t := be_u32 tag 8 in
    let? tag_bytes := usize_from_u32 t in
    if (header_bytes <? TAG_HEADER_BYTES) || (tag_bytes <? header_bytes) ||
       (zlen tag <? tag_bytes)
    then malformed
    else
      let? body := index_range tag TAG_HEADER_BYTES tag_bytes in
      Ok (tag_id, body, tag_bytes).

(** [while offset < declared_length]. *)
Fixpoint tag_loop (fuel : nat) (bytes : list Z) (declared_length offset : Z)
    (parsed : ParsedAnalysisFile) : parse ParsedAnalysisFile :=
  if offset <? declared_length then
    match fuel with
    | O => Err Stuck
    | S fuel =>
        let? t := read_tag bytes declared_length offset in
        let? parsed := apply_tag t.1.1 t.1.2 parsed in
        let? offset := ok_or (checked_add_u64 offset t.2) (Raised AEMalformedAnalysisFile) in
        tag_loop fuel bytes declared_length offset parsed
    end
  else Ok parsed.

Definition parse_analysis_file (bytes : list Z) : parse ParsedAnalysisFile :=
  if zlen bytes <? TAG_HEADER_BYTES then malformed
  else
    let? magic := index_range bytes 0 4 in
    if negb (bool_decide (magic = ANALYSIS_MAGIC)) then malformed
    else
      let? h := be_u32 bytes 4 in
      let? header_length := usize_from_u32 h in
      let? d := be_u32 bytes 8 in
      let? declared_length := usize_from_u32 d in
      if (header_length <? TAG_HEADER_BYTES) || (declared_length <? header_length) ||
         (zlen bytes <? declared_length)
      then malformed
      else tag_loop (length bytes) bytes declared_length header_length ParsedAnalysisFile_default.

(** [read_bounded], on the contents of the file. *)
Definition read_bounded (contents : list Z) (maximum_file_bytes : Z) : parse (list Z) :=
  if (zlen contents <? TAG_HEADER_BYTES) || (maximum_file_bytes <? zlen contents)
  then Err (Raised (AEInvalidFileSize (zlen contents)))
  else Ok contents.

(** The loop of [snapshot_resolved_analysis_data] over the copied files of one track, on
    their contents. *)
Fixpoint merge_analysis_set (maximum_file_bytes : Z) (copied : list (list Z))
    (merged : ParsedAnalysisFile) : parse ParsedAnalysisFile :=
  match copied with
  | [] => Ok merged
  | contents :: rest =>
      let? bytes := read_bounded contents maximum_file_bytes in
      let? parsed := parse_analysis_file bytes in
      merge_analysis_set maximum_file_bytes rest (merge merged parsed)
  end.
End file.
