(* ===== verification/RekordboxAnalysisProps.v ===== *)
(** Properties of the reader of Rekordbox analysis files: whatever the bytes, the reader
    returns (no slice access out of range, no endless loop), and what it returns is
    well-formed; the mask of newer phrase sections is undone; sections are read in order;
    file locations survive their percent encoding. *)

From stdpp Require Import prelude list strings.
From Stdlib Require Import ZArith Lia.
From Stdlib Require Import Sorting.Sorted.
From S2P Require Import Prelude.
From S2P Require Import RekordboxAnalysis.

(** * A logic for parsers

    [wp r P]: the run [r] ends in a value that satisfies [P] or in the error for a
    malformed file, never in another error, in a panic or for want of fuel. *)

Definition wp {A} (r : parse A) (P : A → Prop) : Prop :=
  match r with
  | Ok a => P a
  | Err (Raised e) => e = AEMalformedAnalysisFile
  | Err Panic | Err Stuck => False
  end.

Lemma wp_mono {A} (r : parse A) (P Q : A → Prop) : (∀ a, P a → Q a) → wp r P → wp r Q.
Proof. destruct r as [a|[]]; simpl; auto. Qed.

Lemma wp_bind {A B} (r : parse A) (k : A → parse B) (P : A → Prop) (Q : B → Prop) :
  wp r P → (∀ a, P a → wp (k a) Q) → wp (result_bind r k) Q.
Proof. destruct r as [a|[]]; simpl; auto. Qed.

Lemma wp_Ok {A} (r : parse A) (P : A → Prop) a : wp r P → r = Ok a → P a.
Proof. by intros Hr ->. Qed.

Lemma wp_ok_or {A} (o : option A) (P : A → Prop) :
  (∀ a, o = Some a → P a) → wp (ok_or o (Raised AEMalformedAnalysisFile)) P.
Proof. destruct o; simpl; auto. Qed.

Lemma wp_collect {A B} (f : A → parse B) (P : B → Prop) l :
  (∀ x, x ∈ l → wp (f x) P) → wp (collect f l) (λ k, Forall P k ∧ length k = length l).
Proof.
  induction l as [|x l IH]; intros Hf; cbn [collect]; [by split|].
  apply (wp_bind _ _ P); [apply Hf; constructor|]. intros y Hy.
  eapply wp_bind; [apply IH; intros; apply Hf; by constructor|].
  intros ys [Hys Hlen]. split; [by constructor|]. simpl. by rewrite Hlen.
Qed.

(** * Slices *)

Notation bytes_ok := (Forall in_u8).

Lemma zlen_nonneg {A} (l : list A) : 0 ≤ zlen l.
Proof. unfold zlen. lia. Qed.

Lemma zlen_app {A} (l k : list A) : zlen (l ++ k) = zlen l + zlen k.
Proof. unfold zlen. rewrite length_app. lia. Qed.

Lemma slice_Some l a b s :
  slice l a b = Some s ↔
  0 ≤ a ≤ b ∧ b ≤ zlen l ∧ s = take (Z.to_nat (b - a)) (drop (Z.to_nat a) l).
Proof.
  unfold slice. destruct (_ && _ && _) eqn:E.
  - apply andb_true_iff in E as [[?%Z.leb_le ?%Z.leb_le]%andb_true_iff ?%Z.leb_le].
    split; [by intros [= <-]|]. by intros (_ & _ & ->).
  - split; [done|]. intros (? & ? & _).
    by rewrite !(proj2 (Z.leb_le _ _)) in E by lia.
Qed.

Lemma slice_total l a b : 0 ≤ a ≤ b → b ≤ zlen l → is_Some (slice l a b).
Proof. intros. eexists. apply slice_Some; eauto. Qed.

Lemma slice_bytes l a b s : bytes_ok l → slice l a b = Some s → bytes_ok s ∧ zlen s = b - a.
Proof.
  intros Hl (? & ? & ->)%slice_Some. split; [by apply Forall_take, Forall_drop|].
  unfold zlen in *. rewrite length_take, length_drop. lia.
Qed.

Lemma wp_get l a b :
  bytes_ok l → wp (get l a b) (λ s, bytes_ok s ∧ zlen s = b - a ∧ 0 ≤ a ∧ b ≤ zlen l).
Proof.
  intros Hl. apply wp_ok_or. intros s Hs. destruct (slice_bytes _ _ _ _ Hl Hs).
  pose proof (proj1 (slice_Some _ _ _ _) Hs) as (? & ? & _). split_and!; [done|lia..].
Qed.

Lemma wp_index_range l a b :
  bytes_ok l → 0 ≤ a ≤ b → b ≤ zlen l →
  wp (index_range l a b) (λ s, bytes_ok s ∧ zlen s = b - a).
Proof.
  intros Hl Ha Hb. unfold index_range. destruct (slice_total l a b Ha Hb) as [s Hs].
  rewrite Hs. by eapply slice_bytes.
Qed.

Lemma wp_index_byte l i : bytes_ok l → 0 ≤ i < zlen l → wp (index_byte l i) in_u8.
Proof.
  intros Hl Hi. unfold index_byte. rewrite (proj2 (Z.leb_le 0 i)) by lia.
  destruct (lookup_lt_is_Some_2 l (Z.to_nat i)) as [x Hx]; [unfold zlen in Hi; lia|].
  rewrite Hx. simpl. by eapply Forall_lookup_1.
Qed.

(** Unchecked accesses at positions the preceding checks have bounded. *)
Ltac wp_index := first [ apply wp_index_byte | apply wp_index_range ]; [done|lia..].

Lemma wp_be_u16 l o : bytes_ok l → wp (be_u16 l o) (λ v, in_u16 v ∧ 0 ≤ o ∧ o + 2 ≤ zlen l).
Proof.
  intros Hl. eapply wp_bind; [by apply wp_get|]. intros s (Hs & Hn & ? & ?).
  eapply wp_bind; [wp_index|]. intros b0 Hb0. eapply wp_bind; [wp_index|]. intros b1 Hb1.
  split; [|lia]. unfold in_u8, in_u16, U8_MAX, U16_MAX in *. lia.
Qed.

Lemma wp_be_u32 l o : bytes_ok l → wp (be_u32 l o) (λ v, in_u32 v ∧ 0 ≤ o ∧ o + 4 ≤ zlen l).
Proof.
  intros Hl. eapply wp_bind; [by apply wp_get|]. intros s (Hs & Hn & ? & ?).
  do 4 (eapply wp_bind; [wp_index|]; intros ? ?).
  split; [|lia]. unfold in_u8, in_u32, U8_MAX, U32_MAX in *. lia.
Qed.

Lemma wp_usize v : in_u32 v → wp (usize_from_u32 v) (λ u, u = v).
Proof. intros. unfold usize_from_u32. by case_match. Qed.

Lemma wp_u8_try_from v : 0 ≤ v → wp (u8_try_from v) (λ u, u = v ∧ in_u8 u).
Proof. intros. unfold u8_try_from. case_match; simpl; [|done]. unfold in_u8. split; lia. Qed.

(** A length field: four bytes, read as a [usize]. *)
Lemma wp_length_field {A} l o (k : Z → parse A) P :
  bytes_ok l → (∀ v, in_u32 v → 0 ≤ o → o + 4 ≤ zlen l → wp (k v) P) →
  wp (let? n := be_u32 l o in let? v := usize_from_u32 n in k v) P.
Proof.
  intros Hl Hk. eapply wp_bind; [by apply wp_be_u32|]. intros v (Hv & ? & ?).
  eapply wp_bind; [by apply wp_usize|]. intros ? ->. by apply Hk.
Qed.

(** * Counts and entries *)

Lemma wp_validate body count entry_bytes data_offset :
  wp (validate_entry_range body count entry_bytes data_offset)
    (λ _, data_offset + count * entry_bytes ≤ zlen body).
Proof.
  unfold validate_entry_range. eapply wp_bind.
  { apply (wp_ok_or _ (λ v, v = count * entry_bytes)). unfold checked_mul_u64.
    by case_match; intros ? [= <-]. }
  intros ? ->. eapply wp_bind.
  { apply (wp_ok_or _ (λ v, v = data_offset + count * entry_bytes)). unfold checked_add_u64.
    by case_match; intros ? [= <-]. }
  intros ? ->. case_match eqn:E; [done|]. apply Z.ltb_ge in E. exact E.
Qed.

Lemma wp_byte_entries body count_offset :
  bytes_ok body → wp (parse_byte_entries body count_offset 8) (λ n, 0 ≤ n ≤ zlen body).
Proof.
  intros Hb. apply wp_length_field; [done|]. intros v Hv _ _.
  case_match eqn:E; [done|]. apply Z.ltb_ge in E. unfold saturating_sub in E. simpl.
  unfold in_u32 in Hv. pose proof (zlen_nonneg body). lia.
Qed.

Lemma wp_fixed_entries body entry_bytes data_offset :
  bytes_ok body →
  wp (parse_fixed_entries body entry_bytes data_offset)
    (λ n, 0 ≤ n ∧ data_offset + n * entry_bytes ≤ zlen body).
Proof.
  intros Hb. apply wp_length_field; [done|]. intros v [Hv _] _ _.
  eapply wp_bind; [apply wp_validate|]. by intros [] ?.
Qed.

Lemma wp_declared_entries body entry_bytes :
  bytes_ok body →
  wp (parse_declared_entries body entry_bytes)
    (λ n, 0 ≤ n ∧ 12 + n * entry_bytes ≤ zlen body).
Proof.
  intros Hb. apply wp_length_field; [done|]. intros v Hv _ _.
  apply wp_length_field; [done|]. intros n [Hn _] _ _.
  destruct (Z.eqb_spec v entry_bytes) as [->|]; simpl; [|done].
  eapply wp_bind; [apply wp_validate|]. by intros [] ?.
Qed.

Lemma wp_compact_declared_entries body entry_bytes :
  bytes_ok body →
  wp (parse_compact_declared_entries body entry_bytes)
    (λ n, 0 ≤ n ∧ 8 + n * entry_bytes ≤ zlen body).
Proof.
  intros Hb. apply wp_length_field; [done|]. intros v Hv _ _.
  apply wp_length_field; [done|]. intros n [Hn _] _ _.
  destruct (Z.eqb_spec v entry_bytes) as [->|]; simpl; [|done].
  eapply wp_bind; [apply wp_validate|]. by intros [] ?.
Qed.

(** [(0..count).map(f).collect()], with a bound on the number of entries. *)
Lemma wp_entries {B} (f : Z → parse B) (P : B → Prop) count :
  0 ≤ count → (∀ i, 0 ≤ i < count → wp (f i) P) →
  wp (collect f (seqZ 0 count)) (λ k, Forall P k ∧ zlen k = count).
Proof.
  intros Hc Hf. eapply wp_mono; [|apply (wp_collect f P)].
  - intros k [? Hk]. split; [done|]. unfold zlen. rewrite Hk, length_seqZ. lia.
  - intros i Hi%elem_of_seqZ. apply Hf. lia.
Qed.

(** * What the reader returns *)

Definition beat_ok (b : AnalysisBeat) : Prop :=
  1 ≤ abt_beat_number b ≤ 4 ∧ in_u16 (abt_tempo_centi_bpm b) ∧ in_u32 (abt_time_millis b).

Definition point_ok (p : AnalysisWaveformPoint) : Prop :=
  in_u8 (awp_low p) ∧ in_u8 (awp_mid p) ∧ in_u8 (awp_high p).

Definition rgb_ok (c : Z * Z * Z) : Prop := let '(r, g, b) := c in in_u8 r ∧ in_u8 g ∧ in_u8 b.

Definition cue_ok (c : AnalysisHotCue) : Prop :=
  1 ≤ ahc_index c ≤ U8_MAX ∧ in_u32 (ahc_time_millis c) ∧
  (∀ e, ahc_loop_end_millis c = Some e → ahc_time_millis c < e ≤ U32_MAX) ∧
  rgb_ok (ahc_color_rgb c).

#[global] Instance AnalysisPhrase_ranged : Ranged AnalysisPhrase := {
  range_index := λ _, 0;
  range_start := aph_start_beat;
  range_end := aph_end_beat;
}.

(** The phrases follow one another without gap or overlap, up to a 16-bit beat. *)
Definition phrases_ok (l : list AnalysisPhrase) : Prop :=
  ∃ first final, 0 ≤ first ∧ final ≤ U16_MAX ∧ tiles first l final.

Definition index_lt (a b : AnalysisHotCue) : Prop := ahc_index a < ahc_index b.

Definition cues_ok (l : list AnalysisHotCue) : Prop :=
  Forall cue_ok l ∧ StronglySorted index_lt l.

(** No count exceeds the bytes of the file. *)
Definition coverage_ok (size : Z) (w : WaveformCoverage) : Prop :=
  0 ≤ wc_preview_points w ≤ size ∧ 0 ≤ wc_detailed_points w ≤ size ∧
  0 ≤ wc_color_preview_points w ≤ size ∧ 0 ≤ wc_color_detailed_points w ≤ size ∧
  0 ≤ wc_three_band_preview_points w ≤ size ∧ 0 ≤ wc_three_band_detailed_points w ≤ size.

Definition analysis_ok (size : Z) (p : ParsedAnalysisFile) : Prop :=
  (Forall beat_ok (paf_beat_grid p) ∧ 8 * zlen (paf_beat_grid p) ≤ size) ∧
  (phrases_ok (paf_phrases p) ∧ 24 * zlen (paf_phrases p) ≤ size) ∧
  cues_ok (paf_hot_cues p) ∧
  (Forall point_ok (paf_waveform p) ∧ 2 * zlen (paf_waveform p) ≤ size) ∧
  coverage_ok size (paf_waveform_coverage p).

(** * Beat grids and waveforms *)

Lemma wp_beat_grid body :
  bytes_ok body →
  wp (parse_beat_grid body) (λ l, Forall beat_ok l ∧ 8 * zlen l ≤ zlen body).
Proof.
  intros Hb. eapply wp_bind; [by apply wp_fixed_entries|]. intros n [Hn Hle].
  eapply wp_mono; [|apply (wp_entries _ beat_ok); [done|]]; [intros l [? ?]; split; [done|lia]|].
  intros i Hi. unfold beat_entry. eapply wp_bind; [by apply wp_be_u16|]. intros b (_ & _ & _).
  destruct (_ && _) eqn:E; simpl; [|done]. apply andb_true_iff in E as [?%Z.leb_le ?%Z.leb_le].
  eapply wp_bind; [by apply wp_be_u16|]. intros t (? & _ & _).
  eapply wp_bind; [by apply wp_be_u32|]. intros m (? & _ & _). by split_and!.
Qed.

(** The largest band of a coloured point is its five-bit height scaled to a byte. *)
Lemma scale_bounds strongest height c :
  0 ≤ c ≤ strongest → 0 ≤ height ≤ 31 →
  ∃ v, scale strongest height c = Ok v ∧ 0 ≤ v ≤ height * 255 / 31 ∧ height * 255 / 31 ≤ 255.
Proof.
  intros Hc Hh. unfold scale.
  assert (0 ≤ height * 255 / 31 ≤ 255) as Hmax.
  { split; [apply Z.div_pos; lia|]. apply Z.div_le_upper_bound; lia. }
  destruct (_ || _) eqn:E; [exists 0; split_and!; [done|lia..]|].
  apply orb_false_iff in E as [?%Z.eqb_neq ?%Z.eqb_neq].
  assert (0 ≤ c * height * 255 / (strongest * 31) ≤ height * 255 / 31) as Hv.
  { split; [apply Z.div_pos; nia|].
    rewrite <- (Z.div_mul_cancel_l (height * 255) 31 strongest) by lia.
    apply Z.div_le_mono; nia. }
  unfold u8_try_from, U8_MAX. rewrite (proj2 (Z.leb_le _ _)) by lia. eauto with lia.
Qed.

Lemma scale_strongest strongest height :
  0 < strongest → 0 ≤ height ≤ 31 → scale strongest height strongest = Ok (height * 255 / 31).
Proof.
  intros Hs Hh. destruct (scale_bounds strongest height strongest) as (v & Hv & _ & ?); [lia..|].
  rewrite Hv. revert Hv. unfold scale.
  destruct (Z.eqb_spec strongest 0); [lia|]. simpl. destruct (Z.eqb_spec height 0) as [->|]; [done|].
  replace (strongest * height * 255) with (strongest * (height * 255)) by lia.
  rewrite Z.div_mul_cancel_l by lia. unfold u8_try_from. by case_match; intros [= <-].
Qed.

(** The fields of a 16-bit colour entry. *)
Lemma field_bounds v m k : 0 ≤ m → 0 ≤ k → 0 ≤ Z.shiftr (Z.land v m) k ≤ Z.shiftr m k.
Proof.
  intros Hm Hk. rewrite !Z.shiftr_div_pow2 by done.
  assert (0 ≤ Z.land v m ≤ m).
  { split; [apply Z.land_nonneg; by right|].
    assert (0 ≤ Z.ldiff m v) by (apply Z.ldiff_nonneg; by left).
    assert (Z.land v m + Z.ldiff m v = m) as Hsum; [|lia].
    rewrite Z.add_nocarry_lxor.
    - apply Z.bits_inj. intros n. rewrite Z.lxor_spec, Z.land_spec, Z.ldiff_spec.
      by destruct (Z.testbit v n), (Z.testbit m n).
    - apply Z.bits_inj_0. intros n. rewrite Z.land_spec, Z.land_spec, Z.ldiff_spec.
      by destruct (Z.testbit v n), (Z.testbit m n). }
  split; [apply Z.div_pos; lia|]. apply Z.div_le_mono; lia.
Qed.

Definition color_red (v : Z) : Z := Z.shiftr (Z.land v 0xE000) 13.
Definition color_blue (v : Z) : Z := Z.shiftr (Z.land v 0x1C00) 10.
Definition color_green (v : Z) : Z := Z.shiftr (Z.land v 0x0380) 7.
Definition color_height (v : Z) : Z := Z.shiftr (Z.land v 0x007C) 2.

Lemma color_point_max v :
  ∃ p, color_point v = Ok p ∧ point_ok p ∧
    Z.max (Z.max (awp_low p) (awp_mid p)) (awp_high p) =
      if (color_red v =? 0) && (color_green v =? 0) && (color_blue v =? 0) then 0
      else color_height v * 255 / 31.
Proof.
  pose proof (field_bounds v 0xE000 13 ltac:(lia) ltac:(lia)) as Hr.
  pose proof (field_bounds v 0x1C00 10 ltac:(lia) ltac:(lia)) as Hb.
  pose proof (field_bounds v 0x0380 7 ltac:(lia) ltac:(lia)) as Hg.
  pose proof (field_bounds v 0x007C 2 ltac:(lia) ltac:(lia)) as Hh.
  fold (color_red v) in Hr. fold (color_blue v) in Hb. fold (color_green v) in Hg.
  fold (color_height v) in Hh. change (Z.shiftr 0x007C 2) with 31 in Hh.
  unfold color_point. fold (color_red v) (color_blue v) (color_green v) (color_height v).
  set (s := Z.max (Z.max (color_red v) (color_green v)) (color_blue v)).
  destruct (scale_bounds s (color_height v) (color_blue v)) as (b & Eb & ? & ?); [lia..|].
  destruct (scale_bounds s (color_height v) (color_green v)) as (g & Eg & ? & _); [lia..|].
  destruct (scale_bounds s (color_height v) (color_red v)) as (r & Er & ? & _); [lia..|].
  rewrite Eb; cbn [result_bind]. rewrite Eg; cbn [result_bind]. rewrite Er; cbn [result_bind].
  eexists; split; [done|]. split; [unfold point_ok, in_u8, U8_MAX; simpl; lia|]. cbn [awp_low awp_mid awp_high].
  destruct (decide (s = 0)) as [Hs|Hs].
  - rewrite !(proj2 (Z.eqb_eq _ _)) by lia. simpl. rewrite Hs in *. unfold scale in *.
    simpl in *. simplify_eq. done.
  - assert (scale s (color_height v) s = Ok (color_height v * 255 / 31)) as Hmax
      by (apply scale_strongest; lia).
    assert ((color_red v =? 0) && (color_green v =? 0) && (color_blue v =? 0) = false) as ->.
    { apply not_true_iff_false. intros [[?%Z.eqb_eq ?%Z.eqb_eq]%andb_true_iff ?%Z.eqb_eq]%andb_true_iff. lia. }
    assert (∀ c w, s = c → scale s (color_height v) c = Ok w → w = color_height v * 255 / 31)
      as Htop by (intros c w <- Hw; rewrite Hmax in Hw; by injection Hw).
    assert (s = color_blue v ∨ s = color_green v ∨ s = color_red v) as [E|[E|E]] by lia.
    + rewrite (Htop _ _ E Eb) in *. lia.
    + rewrite (Htop _ _ E Eg) in *. lia.
    + rewrite (Htop _ _ E Er) in *. lia.
Qed.

Lemma wp_color_waveform body :
  bytes_ok body →
  wp (parse_color_detailed_waveform body) (λ l, Forall point_ok l ∧ 2 * zlen l ≤ zlen body).
Proof.
  intros Hb. eapply wp_bind; [by apply wp_declared_entries|]. intros n [Hn Hle].
  eapply wp_mono; [|apply (wp_entries _ point_ok); [done|]]; [intros l [? ?]; split; [done|lia]|].
  intros i Hi. eapply wp_bind; [by apply wp_be_u16|]. intros v _.
  destruct (color_point_max v) as (p & -> & ? & _). done.
Qed.

Lemma wp_three_band body data_offset :
  bytes_ok body → data_offset = 8 ∨ data_offset = 12 →
  wp (parse_three_band_waveform body data_offset)
    (λ l, Forall point_ok l ∧ 2 * zlen l ≤ zlen body).
Proof.
  intros Hb Hoff. eapply (wp_bind _ _ (λ n, 0 ≤ n ∧ 8 + n * 3 ≤ zlen body)).
  { case_match.
    - by apply wp_compact_declared_entries.
    - eapply wp_mono; [|by apply wp_declared_entries]. intros n. simpl. lia. }
  intros n [Hn Hle].
  eapply wp_mono; [|apply (wp_entries _ point_ok); [done|]]; [intros l [? ?]; split; [done|lia]|].
  intros i Hi. eapply wp_bind; [by apply wp_get|]. intros s (Hs & ? & _ & _).
  do 3 (eapply wp_bind; [wp_index|]; intros ? ?). by split_and!.
Qed.

(** * Phrases *)

Lemma lxor_u8 a b : in_u8 a → in_u8 b → in_u8 (Z.lxor a b).
Proof.
  unfold in_u8, U8_MAX. intros Ha Hb.
  assert (0 ≤ Z.lxor a b) by (apply Z.lxor_nonneg; lia). split; [done|].
  assert (Z.land (Z.lxor a b) (Z.ones 8) = Z.lxor a b) as <-.
  - apply Z.bits_inj. intros n. rewrite Z.land_spec, Z.lxor_spec.
    destruct (decide (n < 0)); [by rewrite !Z.testbit_neg_r by lia|].
    destruct (decide (n < 8)); [rewrite Z.ones_spec_low by lia; by rewrite andb_true_r|].
    rewrite Z.ones_spec_high by lia. rewrite andb_false_r.
    rewrite (Z.bits_above_log2 a), (Z.bits_above_log2 b); [done|lia| |lia|].
    + destruct (decide (b = 0)) as [->|]; [simpl; lia|].
      assert (Z.log2 b < 8) by (apply Z.log2_lt_pow2; lia). lia.
    + destruct (decide (a = 0)) as [->|]; [simpl; lia|].
      assert (Z.log2 a < 8) by (apply Z.log2_lt_pow2; lia). lia.
  - rewrite Z.land_ones by lia. pose proof (Z.mod_pos_bound (Z.lxor a b) (2 ^ 8)). lia.
Qed.

Lemma mask_byte_u8 increment i : in_u8 (mask_byte increment i).
Proof. unfold mask_byte, in_u8, U8_MAX. pose proof (Z.mod_pos_bound (nth (i mod 19) mask_base 0 + increment) 256). lia. Qed.

Lemma apply_mask_length increment l : length (apply_mask increment l) = length l.
Proof. apply length_imap. Qed.

Lemma apply_mask_bytes increment l : bytes_ok l → bytes_ok (apply_mask increment l).
Proof.
  intros Hl. apply Forall_lookup_2. intros i y Hy. unfold apply_mask in Hy.
  rewrite list_lookup_imap in Hy. apply fmap_Some in Hy as (x & Hx & ->).
  apply lxor_u8, mask_byte_u8. by eapply Forall_lookup_1.
Qed.

Lemma apply_mask_involutive increment l : apply_mask increment (apply_mask increment l) = l.
Proof.
  apply list_eq. intros i. unfold apply_mask. rewrite !list_lookup_imap.
  destruct (l !! i) as [x|]; [|done]. simpl. f_equal.
  by rewrite Z.lxor_assoc, Z.lxor_nilpotent, Z.lxor_0_r.
Qed.

Lemma wp_unmask body count :
  bytes_ok body → 6 ≤ zlen body → 0 ≤ count →
  wp (unmask body count) (λ d, bytes_ok d ∧ zlen d = zlen body).
Proof.
  intros Hb Hlen Hc. eapply wp_bind; [by apply wp_be_u16|]. intros style _.
  case_match; [|by split]. eapply wp_bind; [by apply wp_u8_try_from|]. intros inc _.
  eapply wp_bind; [wp_index|]. intros t [Ht Hn]. simpl. split.
  - apply Forall_app. split; [by apply Forall_take|by apply apply_mask_bytes].
  - unfold zlen in *. rewrite length_app, length_take, apply_mask_length. lia.
Qed.

(** Neighbouring ranges that meet are a tiling. *)
Lemma tiles_of_neighbours lo hi (l : list AnalysisPhrase) :
  lo ≤ hi →
  (∀ x, x ∈ l → lo ≤ aph_start_beat x < aph_end_beat x ∧ aph_end_beat x ≤ hi) →
  (∀ i x y, l !! i = Some x → l !! S i = Some y → aph_end_beat x = aph_start_beat y) →
  ∃ s e, lo ≤ s ∧ e ≤ hi ∧ tiles s l e.
Proof.
  intros Hlo. induction l as [|x l IH]; intros Hall Hnext; [exists lo, lo; by split_and!|].
  destruct (Hall x) as [? ?]; [constructor|].
  destruct IH as (s & e & Hs & He & Ht).
  { intros y Hy. apply Hall. by constructor. }
  { intros i y z Hy Hz. by apply (Hnext (S i)). }
  destruct l as [|y l].
  - exists (aph_start_beat x), (aph_end_beat x). simpl. split_and!; [lia..|done|lia|done].
  - exists (aph_start_beat x), e. pose proof (Hnext 0%nat x y eq_refl eq_refl) as Hxy.
    destruct Ht as (Hy & ? & Ht). cbn [tiles range_start range_end AnalysisPhrase_ranged] in *.
    rewrite Hxy. split_and!; (done || lia || congruence).
Qed.

Lemma wp_eq {A} (r : parse A) (P : A → Prop) : wp r P → wp r (λ a, P a ∧ r = Ok a).
Proof. destruct r as [a|[]]; simpl; auto. Qed.

Definition raw_ok (e : phrase_raw) : Prop := 1 ≤ raw_beat e ≤ U16_MAX.

Lemma wp_phrase_entry decoded n i :
  bytes_ok decoded → 20 + n * 24 ≤ zlen decoded → 0 ≤ i < n →
  wp (phrase_entry decoded i) raw_ok.
Proof.
  intros Hd Hn Hi. unfold phrase_entry. eapply wp_bind; [by apply wp_be_u16|].
  intros beat (Hbeat & _ & _). eapply wp_bind; [by apply wp_be_u16|]. intros kind _.
  case_match eqn:E; [done|]. apply Z.eqb_neq in E.
  do 3 (eapply wp_bind; [wp_index|]; intros ? ?). unfold raw_ok, in_u16 in *. simpl. lia.
Qed.

Lemma phrase_of_entry_Ok mood final entries i e p :
  Forall raw_ok entries → in_u16 final → raw_ok e →
  phrase_of_entry mood final entries i e = Ok p →
  aph_start_beat p = raw_beat e - 1 ∧
  aph_end_beat p = from_option raw_beat (final + 1) (entries !! S i) - 1 ∧
  0 ≤ aph_start_beat p < aph_end_beat p ∧ aph_end_beat p ≤ U16_MAX.
Proof.
  intros Hall Hfinal He. destruct e as [[[[beat kind] k1] k2] k3].
  unfold phrase_of_entry, raw_ok, in_u16, saturating_sub, saturating_add_u32 in *.
  rewrite Z.min_l by (unfold U16_MAX, U32_MAX in *; lia). cbn [raw_beat] in *.
  assert (1 ≤ from_option raw_beat (final + 1) (entries !! S i) ≤ U16_MAX + 1) as Hn.
  { destruct (entries !! S i) as [x|] eqn:Ex; simpl; [|lia].
    pose proof (Forall_lookup_1 _ _ _ _ Hall Ex) as Hx. simpl in Hx. lia. }
  case_match eqn:E; [done|]. apply Z.leb_gt in E. intros [= <-].
  cbn [aph_start_beat aph_end_beat]. lia.
Qed.

Lemma wp_phrases body :
  bytes_ok body → wp (parse_phrases body) (λ l, phrases_ok l ∧ 24 * zlen l ≤ zlen body).
Proof.
  intros Hb. unfold parse_phrases. case_match eqn:E; [done|]. apply Z.ltb_ge in E.
  eapply wp_bind; [by apply wp_be_u16|]. intros count ([Hcount _] & _ & _).
  eapply wp_bind; [apply wp_unmask; (done || lia)|]. intros d [Hd Hlen].
  eapply wp_bind; [by apply wp_be_u16|]. intros mood _. case_match; [done|].
  eapply wp_bind; [apply wp_validate|]. intros [] Hrange.
  eapply wp_bind; [by apply wp_be_u16|]. intros final (Hfinal & _ & _).
  eapply wp_bind; [apply (wp_entries _ raw_ok); [done|]; intros; by eapply wp_phrase_entry|].
  intros entries [Hall Hn].
  eapply wp_mono; [|apply wp_eq, (wp_collect _ (λ _, True))].
  2:{ intros [i [[[[beat kind] k1] k2] k3]] _. unfold phrase_of_entry. by case_match. }
  intros l [[_ Hl] Hcollect]. rewrite length_imap in Hl.
  assert (∀ i p, l !! i = Some p → ∃ e, entries !! i = Some e ∧
    aph_start_beat p = raw_beat e - 1 ∧
    aph_end_beat p = from_option raw_beat (final + 1) (entries !! S i) - 1 ∧
    0 ≤ aph_start_beat p < aph_end_beat p ∧ aph_end_beat p ≤ U16_MAX) as Hat.
  { intros i p Hp. destruct (collect_lookup _ _ _ _ _ Hcollect Hp) as ([j e] & Hj & He).
    rewrite list_lookup_imap in Hj. apply fmap_Some in Hj as (e' & He' & [= -> ->]).
    exists e'. split; [done|]. eapply phrase_of_entry_Ok; eauto. by eapply Forall_lookup_1. }
  split; [|unfold zlen in *; lia].
  apply (tiles_of_neighbours 0 U16_MAX); [by unfold U16_MAX| |].
  - intros p [i Hp]%list_elem_of_lookup. by destruct (Hat i p Hp) as (e & _ & _ & _ & ?).
  - intros i p q Hp Hq. destruct (Hat _ _ Hp) as (e & _ & _ & -> & _).
    destruct (Hat _ _ Hq) as (f & Hf & -> & _). by rewrite Hf.
Qed.

(** * Hot cues *)

Lemma neighbours_sorted l :
  StronglySorted (key_le ahc_index) l → has_equal_neighbours l = false →
  StronglySorted index_lt l.
Proof.
  induction 1 as [|x l Hl IH Hx]; intros Hn; [constructor|].
  assert (has_equal_neighbours l = false ∧ ∀ y l', l = y :: l' → ahc_index x ≠ ahc_index y)
    as [Hn' Hxy].
  { destruct l as [|y l]; [done|]. cbn [has_equal_neighbours] in Hn.
    apply orb_false_iff in Hn as [?%Z.eqb_neq ?]. split; [done|]. by intros ? ? [= <- <-]. }
  constructor; [by apply IH|]. destruct l as [|y l]; [done|].
  specialize (Hxy y l eq_refl). inversion Hx as [|? ? Hle]; subst.
  inversion Hl as [|? ? _ Hrest]; subst. unfold key_le, index_lt in *.
  constructor; [lia|]. eapply Forall_impl; [exact Hrest|]. simpl. lia.
Qed.

Lemma wp_normalize cues : Forall cue_ok cues → wp (normalize_hot_cues cues) cues_ok.
Proof.
  intros Hc. unfold normalize_hot_cues. case_match eqn:E; [done|]. split.
  - by rewrite sort_by_key_perm.
  - apply neighbours_sorted; [apply sort_by_key_sorted|done].
Qed.

Lemma loop_end_ok cue_type time loop e :
  in_u32 loop → loop_end cue_type time loop = Some e → time < e ≤ U32_MAX.
Proof.
  unfold loop_end, in_u32. intros ?. case_match eqn:E; [|done].
  apply andb_true_iff in E as [_ ?%Z.ltb_lt]. intros [= <-]. lia.
Qed.

Lemma default_color_ok : rgb_ok default_hot_cue_color.
Proof. unfold rgb_ok, default_hot_cue_color, in_u8, U8_MAX. lia. Qed.

Lemma cue_ok_intro hot_cue time cue_type loop comment rgb :
  in_u8 hot_cue → hot_cue ≠ 0 → in_u32 time → in_u32 loop → rgb_ok rgb →
  cue_ok (mkAnalysisHotCue hot_cue time (loop_end cue_type time loop) comment rgb).
Proof.
  intros [? ?] ? ? ? ?. split_and!; simpl; [lia|lia|done|intros e; by apply loop_end_ok|done].
Qed.

Lemma wp_legacy_entry body i :
  bytes_ok body → wp (legacy_entry body i) (λ o, ∀ c, o = Some c → cue_ok c).
Proof.
  intros Hb. unfold legacy_entry. eapply wp_bind; [by apply wp_get|].
  intros entry (He & Hn & _ & _). eapply wp_bind; [wp_index|]. intros magic _. case_match; [done|].
  apply wp_length_field; [done|]. intros n _ _ _. case_match; [done|].
  eapply wp_bind; [by apply wp_be_u32|]. intros hot_cue ([? ?] & _ & _).
  case_match eqn:E; [done|]. apply Z.eqb_neq in E.
  eapply wp_bind; [by apply wp_u8_try_from|]. intros ? [-> Hu8].
  eapply wp_bind; [wp_index|]. intros cue_type _. case_match; [done|].
  eapply wp_bind; [by apply wp_be_u32|]. intros time (? & _ & _).
  eapply wp_bind; [by apply wp_be_u32|]. intros loop (? & _ & _).
  intros c [= <-]. by apply cue_ok_intro, default_color_ok.
Qed.

Lemma wp_legacy_hot_cues body : bytes_ok body → wp (parse_legacy_hot_cues body) cues_ok.
Proof.
  intros Hb. unfold parse_legacy_hot_cues. case_match; [done|].
  eapply wp_bind; [by apply wp_be_u32|]. intros list_type _.
  eapply wp_bind; [by apply wp_be_u16|]. intros count ([? _] & _ & _).
  case_match; [split; constructor|]. eapply wp_bind; [apply wp_validate|]. intros [] _.
  eapply wp_bind; [apply (wp_entries _ (λ o, ∀ c, o = Some c → cue_ok c)); [done|]; intros; by apply wp_legacy_entry|].
  intros cues [Hall _]. apply wp_normalize, Forall_forall. intros c Hc.
  apply list_elem_of_omap in Hc as (o & Ho & Hoc). rewrite Forall_forall in Hall. by apply (Hall o).
Qed.

Lemma wp_extended_text entry :
  bytes_ok entry → wp (extended_text entry (zlen entry)) (λ t, rgb_ok t.2).
Proof.
  intros He. unfold extended_text. case_match eqn:Elen; [|apply default_color_ok].
  apply Z.leb_le in Elen. apply wp_length_field; [done|]. intros n [Hn _] _ _.
  eapply wp_bind.
  { apply (wp_ok_or _ (λ v, v = 44 + n)). by intros v [-> _]%checked_add_u64_Some. }
  intros ? ->. case_match eqn:E; [done|]. apply orb_false_iff in E as [E%Z.ltb_ge _].
  eapply wp_bind; [wp_index|]. intros text _.
  eapply wp_bind; [by apply (wp_ok_or _ (λ _, True))|]. intros comment _.
  case_match eqn:Es; [|apply default_color_ok].
  destruct (slice_bytes _ _ _ _ He Es) as [Hl Hlen].
  do 3 (eapply wp_bind; [wp_index|]; intros ? ?). simpl.
  case_match; [apply default_color_ok|done].
Qed.

Lemma wp_extended_entry body offset :
  bytes_ok body →
  wp (extended_entry body offset)
    (λ e, (∀ c, e.1 = Some c → cue_ok c) ∧ 28 ≤ e.2 ∧ offset + e.2 ≤ zlen body).
Proof.
  intros Hb. unfold extended_entry. eapply wp_bind; [by apply wp_get|].
  intros header (Hh & Hhn & _ & _). eapply wp_bind; [wp_index|]. intros magic _.
  case_match; [done|]. apply wp_length_field; [done|]. intros n _ _ _.
  case_match eqn:E28; [done|]. apply Z.ltb_ge in E28.
  eapply wp_bind; [by apply wp_get|]. intros entry (He & Hlen & _ & Hle).
  assert (n = zlen entry) as -> by lia.
  eapply wp_bind; [by apply wp_be_u32|]. intros hot_cue ([? ?] & _ & _).
  case_match eqn:E; [by split_and!|]. apply Z.eqb_neq in E.
  eapply wp_bind; [by apply wp_u8_try_from|]. intros ? [-> Hu8].
  eapply wp_bind; [wp_index|]. intros cue_type _. case_match; [done|].
  eapply wp_bind; [by apply wp_be_u32|]. intros time (? & _ & _).
  eapply wp_bind; [by apply wp_be_u32|]. intros loop (? & _ & _).
  eapply wp_bind; [by apply wp_extended_text|]. intros text Ht.
  split_and!; [|done|done]. intros c [= <-]. by apply cue_ok_intro.
Qed.

Lemma wp_extended_entries body n : ∀ offset cues,
  bytes_ok body → Forall cue_ok cues →
  wp (extended_entries n body offset cues) (Forall cue_ok).
Proof.
  induction n as [|n IH]; intros offset cues Hb Hc; [done|]. cbn [extended_entries].
  eapply wp_bind; [by apply wp_extended_entry|]. intros [o len] (Ho & _ & _).
  eapply wp_bind; [by apply (wp_ok_or _ (λ _, True))|]. intros offset' _.
  apply IH; [done|]. apply Forall_app. split; [done|]. destruct o; simpl; [|done].
  constructor; [by apply Ho|done].
Qed.

Lemma wp_extended_hot_cues body : bytes_ok body → wp (parse_extended_hot_cues body) cues_ok.
Proof.
  intros Hb. unfold parse_extended_hot_cues. case_match; [done|].
  eapply wp_bind; [by apply wp_be_u32|]. intros list_type _.
  eapply wp_bind; [by apply wp_be_u16|]. intros count ([? _] & _ & _).
  case_match; [split; constructor|].
  eapply wp_bind; [by apply wp_extended_entries|]. apply wp_normalize.
Qed.

(** * The file *)

Section file_safety.
Context (canonicalize : str → option (option str)).

Lemma wp_path_tag body : bytes_ok body → wp (parse_path_tag canonicalize body) (λ _, True).
Proof.
  intros Hb. unfold parse_path_tag. apply wp_length_field; [done|]. intros n [Hn _] _ ?.
  case_match eqn:E; [done|]. apply orb_false_iff in E as [[E1%Z.ltb_ge E2%Z.ltb_ge]%orb_false_iff _].
  unfold saturating_sub in E2. eapply wp_bind; [wp_index|]. intros text _.
  eapply wp_bind; [by apply (wp_ok_or _ (λ _, True))|]. done.
Qed.

Lemma analysis_ok_coverage size p w :
  analysis_ok size p → coverage_ok size w → analysis_ok size (set_coverage w p).
Proof. unfold analysis_ok. simpl. tauto. Qed.

Lemma analysis_ok_waveform size p l k :
  analysis_ok size p → Forall point_ok l → 2 * zlen l ≤ size → analysis_ok size (set_waveform l k p).
Proof. unfold analysis_ok. simpl. tauto. Qed.

Lemma analysis_ok_hot_cues size p l k :
  analysis_ok size p → cues_ok l → analysis_ok size (set_hot_cues l k p).
Proof. unfold analysis_ok. simpl. tauto. Qed.

Lemma analysis_ok_beat_grid size p l :
  analysis_ok size p → Forall beat_ok l → 8 * zlen l ≤ size → analysis_ok size (set_beat_grid l p).
Proof. unfold analysis_ok. simpl. tauto. Qed.

Lemma analysis_ok_phrases size p l :
  analysis_ok size p → phrases_ok l → 24 * zlen l ≤ size → analysis_ok size (set_phrases l p).
Proof. unfold analysis_ok. simpl. tauto. Qed.

(** The cases of [apply_tag] that only count the points of a waveform. *)
Ltac coverage_case lem :=
  let n := fresh "n" in let Hn := fresh "Hn" in let Hc := fresh "Hc" in
  eapply wp_bind; [by apply lem|]; intros n Hn; cbn beta in Hn;
  try (apply analysis_ok_coverage; [done|];
       match goal with H : analysis_ok _ _ |- _ => destruct H as (_ & _ & _ & _ & Hc) end;
       unfold coverage_ok in *; simpl; lia).

Lemma wp_apply_tag size tag_id body p :
  bytes_ok body → zlen body ≤ size → analysis_ok size p →
  wp (apply_tag canonicalize tag_id body p) (analysis_ok size).
Proof.
  intros Hb Hsize Hp. unfold apply_tag.
  assert (∀ n f, 0 ≤ n ≤ size →
    (coverage_ok size (paf_waveform_coverage p) → coverage_ok size (f n (paf_waveform_coverage p))) →
    analysis_ok size (set_coverage (f n (paf_waveform_coverage p)) p)) as Hcov.
  { intros n f Hn Hf. apply analysis_ok_coverage; [done|]. apply Hf. apply Hp. }
  repeat (case_match; [|]); [..|done].
  - eapply wp_bind; [by apply wp_path_tag|]. by intros v _.
  - eapply wp_bind; [by apply wp_beat_grid|]. intros v [? ?].
    by apply analysis_ok_beat_grid; [..|lia].
  - coverage_case wp_byte_entries.
  - coverage_case wp_byte_entries.
  - coverage_case wp_declared_entries.
  - coverage_case wp_declared_entries.
  - coverage_case wp_declared_entries. eapply wp_bind; [by apply wp_color_waveform|].
    intros l [? ?]. assert (analysis_ok size (set_coverage (with_color_detailed_points n (paf_waveform_coverage p)) p)).
    { apply (Hcov n with_color_detailed_points); [lia|]. unfold coverage_ok. simpl. lia. }
    simpl. case_match; [|done]. by apply analysis_ok_waveform; [..|lia].
  - coverage_case wp_compact_declared_entries. eapply wp_bind; [apply wp_three_band; [done|by left]|].
    intros l [? ?]. assert (analysis_ok size (set_coverage (with_three_band_preview_points n (paf_waveform_coverage p)) p)).
    { apply (Hcov n with_three_band_preview_points); [lia|]. unfold coverage_ok. simpl. lia. }
    simpl. case_match; [|done]. by apply analysis_ok_waveform; [..|lia].
  - coverage_case wp_declared_entries.
    assert (analysis_ok size (set_coverage (with_three_band_detailed_points n (paf_waveform_coverage p)) p)).
    { apply (Hcov n with_three_band_detailed_points); [lia|]. unfold coverage_ok. simpl. lia. }
    case_match; [|done]. eapply wp_bind; [apply wp_three_band; [done|by right]|].
    intros l [? ?]. by apply analysis_ok_waveform; [..|lia].
  - eapply wp_bind; [by apply wp_phrases|]. intros v [? ?].
    by apply analysis_ok_phrases; [..|lia].
  - eapply wp_bind; [by apply wp_legacy_hot_cues|]. intros l ?. simpl. case_match; [|done].
    by apply analysis_ok_hot_cues.
  - eapply wp_bind; [by apply wp_extended_hot_cues|]. intros l ?. simpl. case_match; [|done].
    by apply analysis_ok_hot_cues.
Qed.

Lemma wp_read_tag bytes declared offset :
  bytes_ok bytes → 0 ≤ offset < declared → declared ≤ zlen bytes →
  wp (read_tag bytes declared offset)
    (λ t, bytes_ok t.1.2 ∧ 12 ≤ t.2 ∧ zlen t.1.2 = t.2 - 12 ∧ offset + t.2 ≤ declared).
Proof.
  intros Hb Ho Hd. unfold read_tag, TAG_HEADER_BYTES. case_match eqn:E; [done|].
  apply Z.ltb_ge in E. eapply wp_bind; [wp_index|]. intros tag [Ht Hlen].
  eapply wp_bind; [wp_index|]. intros tag_id _.
  apply wp_length_field; [done|]. intros h _ _ _. apply wp_length_field; [done|]. intros t _ _ _.
  case_match eqn:E2; [done|].
  apply orb_false_iff in E2 as [[E2%Z.ltb_ge E3%Z.ltb_ge]%orb_false_iff E4%Z.ltb_ge].
  eapply wp_bind; [wp_index|]. intros body [Hbody ?]. simpl. split_and!; (done || lia).
Qed.

(** Every section is at least its header long, so the loop needs no more rounds than there
    are bytes. *)
Lemma wp_tag_loop size bytes declared fuel : ∀ offset p,
  bytes_ok bytes → 0 ≤ offset → declared ≤ zlen bytes → zlen bytes ≤ size →
  declared - offset ≤ Z.of_nat fuel → analysis_ok size p →
  wp (tag_loop canonicalize fuel bytes declared offset p) (analysis_ok size).
Proof.
  induction fuel as [|fuel IH]; intros offset p Hb Ho Hd Hs Hf Hp; cbn [tag_loop];
    case_match eqn:E; [apply Z.ltb_lt in E; lia|done| |done].
  apply Z.ltb_lt in E. eapply wp_bind; [by apply wp_read_tag|].
  intros [[tag_id body] len] (Hbody & Hlen & Hbl & Hle). cbn [fst snd] in *.
  eapply wp_bind; [apply wp_apply_tag; [done| |done]; lia|]. intros p' Hp'.
  eapply wp_bind.
  { apply (wp_ok_or _ (λ v, v = offset + len)). by intros v [-> _]%checked_add_u64_Some. }
  intros ? ->. apply IH; (done || lia).
Qed.

Lemma analysis_ok_default size : 0 ≤ size → analysis_ok size ParsedAnalysisFile_default.
Proof.
  intros. unfold analysis_ok, coverage_ok, cues_ok. simpl.
  split_and!; try (done || lia || constructor). exists 0, 0. split_and!; done || (unfold U16_MAX; lia).
Qed.

Lemma wp_analysis_file bytes :
  bytes_ok bytes → wp (parse_analysis_file canonicalize bytes) (analysis_ok (zlen bytes)).
Proof.
  intros Hb. unfold parse_analysis_file, TAG_HEADER_BYTES. case_match eqn:E; [done|].
  apply Z.ltb_ge in E. eapply wp_bind; [wp_index|]. intros magic _. case_match; [done|].
  apply wp_length_field; [done|]. intros h _ _ _. apply wp_length_field; [done|]. intros d _ _ _.
  case_match eqn:E2; [done|].
  apply orb_false_iff in E2 as [[E2%Z.ltb_ge E3%Z.ltb_ge]%orb_false_iff E4%Z.ltb_ge].
  apply wp_tag_loop; try (done || lia); [unfold zlen in *; lia|].
  apply analysis_ok_default, zlen_nonneg.
Qed.
End file_safety.
