(* ===== verification/RekordboxFormat.v ===== *)
(** The format of Rekordbox analysis files: sections are read in order whatever their
    names, the mask of newer phrase sections is undone, a set of files is read into a
    well-formed analysis, and file locations survive their percent encoding. *)

From stdpp Require Import prelude list strings.
From Stdlib Require Import ZArith Lia.
From S2P Require Import Prelude.
From S2P Require Import RekordboxAnalysis.
From S2P Require Import RekordboxAnalysisProps.

(** * Field accesses at known positions *)

Lemma slice_app a b c : slice (a ++ b ++ c) (zlen a) (zlen a + zlen b) = Some b.
Proof.
  apply slice_Some. rewrite !zlen_app. pose proof (zlen_nonneg a). pose proof (zlen_nonneg b).
  pose proof (zlen_nonneg c). split_and!; [lia..|]. replace (zlen a + zlen b - zlen a) with (zlen b) by lia.
  unfold zlen. rewrite !Nat2Z.id. by rewrite drop_app_length, take_app_length.
Qed.

Lemma slice_tail a b : slice (a ++ b) (zlen a) (zlen (a ++ b)) = Some b.
Proof. rewrite zlen_app. rewrite <- (app_nil_r b) at 1. apply slice_app. Qed.

Lemma be_u16_app a x y c : be_u16 (a ++ x :: y :: c) (zlen a) = Ok (256 * x + y).
Proof. unfold be_u16, get. assert (slice (a ++ x :: y :: c) (zlen a) (zlen a + 2) = Some [x; y])
  as -> by exact (slice_app a [x; y] c). done. Qed.

Lemma be_u32_app a w x y z c :
  be_u32 (a ++ w :: x :: y :: z :: c) (zlen a) = Ok (256 * (256 * (256 * w + x) + y) + z).
Proof. unfold be_u32, get. assert (slice (a ++ w :: x :: y :: z :: c) (zlen a) (zlen a + 4) =
  Some [w; x; y; z]) as -> by exact (slice_app a [w; x; y; z] c). done. Qed.

Lemma bytes_check l : forallb (λ b, (0 <=? b) && (b <=? 255)) l = true → Forall in_u8 l.
Proof.
  rewrite forallb_forall, Forall_forall. intros Hl b Hb%list_elem_of_In.
  apply Hl, andb_true_iff in Hb as [?%Z.leb_le ?%Z.leb_le]. unfold in_u8, U8_MAX. lia.
Qed.

(** * The mask of phrase sections *)

(** The section as newer exports write it: everything after the count is masked. *)
Definition mask_section (increment : Z) (body : list Z) : list Z :=
  take 6 body ++ apply_mask increment (drop 6 body).

Lemma first_eight (body : list Z) :
  20 ≤ zlen body → ∃ b0 b1 b2 b3 b4 b5 b6 b7 r, body = b0 :: b1 :: b2 :: b3 :: b4 :: b5 :: b6 :: b7 :: r.
Proof. unfold zlen. intros. do 8 (destruct body as [|? body]; [simpl in *; lia|]). repeat eexists. Qed.

(** The first masked byte is zero for a count of 53 only, and the second one then hides a
    mood below the threshold of [parse_phrases] for the mood 2 only. *)
Lemma masked_style count mood :
  0 ≤ count ≤ 255 → 1 ≤ mood ≤ 3 →
  (256 * Z.lxor 0 (mask_byte count 0) + Z.lxor mood (mask_byte count 1) <=? 20) =
  (count =? 53) && (mood =? 2).
Proof.
  intros Hc Hm.
  assert (forallb (λ c, forallb (λ m, Bool.eqb
    (256 * Z.lxor 0 (mask_byte c 0) + Z.lxor m (mask_byte c 1) <=? 20) ((c =? 53) && (m =? 2)))
    (seqZ 1 3)) (seqZ 0 256) = true) as Hall by by vm_compute.
  rewrite forallb_forall in Hall. specialize (Hall count).
  rewrite <- list_elem_of_In, elem_of_seqZ in Hall. specialize (Hall ltac:(lia)).
  rewrite forallb_forall in Hall. specialize (Hall mood).
  rewrite <- list_elem_of_In, elem_of_seqZ in Hall. specialize (Hall ltac:(lia)).
  by apply eqb_prop.
Qed.

Lemma unmask_plain body count mood :
  be_u16 body 6 = Ok mood → mood ≤ 20 → unmask body count = Ok body.
Proof. intros Hm Hle. unfold unmask. rewrite Hm. simpl. by rewrite (proj2 (Z.ltb_ge _ _)). Qed.

Lemma unmask_masked body count style :
  20 ≤ zlen body → 0 ≤ count ≤ 255 → be_u16 (mask_section count body) 6 = Ok style → 20 < style →
  unmask (mask_section count body) count = Ok body.
Proof.
  intros Hlen Hc Hs H20. unfold unmask. rewrite Hs. cbn [result_bind].
  rewrite (proj2 (Z.ltb_lt _ _)) by done. unfold u8_try_from, U8_MAX.
  rewrite (proj2 (Z.leb_le _ _)) by lia. cbn [result_bind].
  assert (zlen (take 6 body) = 6) as H6 by (unfold zlen in *; rewrite length_take; lia).
  assert (index_range (mask_section count body) 6 (zlen (mask_section count body)) =
    Ok (apply_mask count (drop 6 body))) as ->.
  { unfold index_range, mask_section.
    pose proof (slice_tail (take 6 body) (apply_mask count (drop 6 body))) as Ht.
    rewrite H6 in Ht. by rewrite Ht. }
  simpl result_bind. f_equal. unfold mask_section.
  rewrite take_app_le by (unfold zlen in H6; lia). rewrite take_take, Nat.min_id.
  by rewrite apply_mask_involutive, take_drop.
Qed.

(** (the mask of phrase sections) Reading a masked phrase section gives what the plain
    section gives, for every section of at most 255 entries with a known mood, except for a
    section of 53 entries with mood 2: its masked mood reads as 20, which the reader takes
    for an unmasked section, and the section is rejected as malformed. *)
Theorem masked_phrases_roundtrip body count mood :
  Forall in_u8 body → 20 ≤ zlen body →
  be_u16 body 4 = Ok count → count ≤ 255 →
  be_u16 body 6 = Ok mood → 1 ≤ mood ≤ 3 →
  parse_phrases (mask_section count body) =
    if (count =? 53) && (mood =? 2) then malformed else parse_phrases body.
Proof.
  intros Hb Hlen Hcount Hc Hmood Hm.
  pose proof (wp_Ok _ _ _ (wp_be_u16 body 4 Hb) Hcount) as ([? _] & _ & _).
  destruct (first_eight body Hlen) as (b0 & b1 & b2 & b3 & b4 & b5 & b6 & b7 & r & ->).
  pose proof (be_u16_app [b0; b1; b2; b3] b4 b5 (b6 :: b7 :: r)) as E4.
  pose proof (be_u16_app [b0; b1; b2; b3; b4; b5] b6 b7 r) as E6.
  cbn in E4, E6. change (zlen [b0; b1; b2; b3]) with 4 in E4.
  change (zlen [b0; b1; b2; b3; b4; b5]) with 6 in E6. rewrite Hcount in E4. rewrite Hmood in E6.
  injection E4 as Ec. injection E6 as Em.
  assert (in_u8 b6 ∧ in_u8 b7) as [Hb6 Hb7] by (do 6 (apply Forall_cons in Hb as [_ Hb]);
    apply Forall_cons in Hb as [? Hb]; by apply Forall_cons in Hb as [? _]).
  assert (b6 = 0) as -> by (unfold in_u8 in *; lia). assert (b7 = mood) as -> by lia.
  set (body := b0 :: b1 :: b2 :: b3 :: b4 :: b5 :: 0 :: mood :: r) in *.
  assert (mask_section count body = [b0; b1; b2; b3] ++ b4 :: b5 :: Z.lxor 0 (mask_byte count 0)
    :: Z.lxor mood (mask_byte count 1) :: drop 8 (mask_section count body)) as Hmask by done.
  assert (be_u16 (mask_section count body) 4 = Ok count) as Hcount'.
  { rewrite Hmask. rewrite (be_u16_app [b0; b1; b2; b3]). by rewrite Ec. }
  assert (be_u16 (mask_section count body) 6 = Ok (256 * Z.lxor 0 (mask_byte count 0) +
    Z.lxor mood (mask_byte count 1))) as Hstyle.
  { rewrite Hmask. apply (be_u16_app [b0; b1; b2; b3; b4; b5]). }
  pose proof (masked_style count mood ltac:(lia) Hm) as Hcoll.
  unfold parse_phrases.
  assert (zlen (mask_section count body) = zlen body) as Hzlen.
  { unfold mask_section. rewrite zlen_app. unfold zlen. rewrite apply_mask_length.
    rewrite length_take, length_drop. unfold zlen in Hlen. lia. }
  rewrite Hzlen, (proj2 (Z.ltb_ge _ _)) by lia. rewrite Hcount, Hcount'. cbn [result_bind].
  destruct (_ && _) eqn:E.
  - apply Z.leb_le in Hcoll. rewrite (unmask_plain _ _ _ Hstyle Hcoll). cbn [result_bind].
    rewrite Hstyle. apply andb_true_iff in E as [->%Z.eqb_eq ->%Z.eqb_eq]. by vm_compute.
  - apply Z.leb_gt in Hcoll. rewrite (unmask_masked body count _ Hlen ltac:(lia) Hstyle Hcoll).
    by rewrite (unmask_plain body count mood Hmood ltac:(lia)).
Qed.

(** A plain section with [count] phrases of one beat each. *)
Definition demo_section (count mood : Z) : list Z :=
  [0; 0; 0; 24; count / 256; count mod 256; 0; mood; 0; 0; 0; 0; 0; 0; 0; count; 0; 0; 0; 0] ++
  (seqZ 1 count ≫= λ i, [0; 0; 0; i; 0; 1] ++ replicate 18 0).

Lemma masked_phrases_roundtrip_witness :
  (parse_phrases (mask_section 2 (demo_section 2 1)) = parse_phrases (demo_section 2 1) ∧
   is_ok (parse_phrases (demo_section 2 1))) ∧
  (parse_phrases (mask_section 53 (demo_section 53 2)) = malformed ∧
   is_ok (parse_phrases (demo_section 53 2))).
Proof.
  split; (split; [|eexists; by vm_compute]).
  - apply (masked_phrases_roundtrip (demo_section 2 1) 2 1); try (by vm_compute).
    apply bytes_check. by vm_compute.
  - apply (masked_phrases_roundtrip (demo_section 53 2) 53 2); try (by vm_compute).
    apply bytes_check. by vm_compute.
Defined.

(** * Sections in order *)

(** The layout of a file: [len_header] of a section counts some of its own fields, so it
    lies between the common header and the whole section. *)
Record TagSection := mkTagSection {
  ts_id : list Z;
  ts_header : Z;
  ts_body : list Z;
}.

Definition be32 (n : Z) : list Z :=
  [n / 2 ^ 24; n / 2 ^ 16 mod 256; n / 2 ^ 8 mod 256; n mod 256].

Definition encode_section (s : TagSection) : list Z :=
  ts_id s ++ be32 (ts_header s) ++ be32 (12 + zlen (ts_body s)) ++ ts_body s.

Definition encode_file (extra : list Z) (sections : list TagSection) (trailing : list Z) : list Z :=
  ANALYSIS_MAGIC ++ be32 (12 + zlen extra) ++
  be32 (12 + zlen extra + zlen (sections ≫= encode_section)) ++
  extra ++ (sections ≫= encode_section) ++ trailing.

Definition section_ok (s : TagSection) : Prop :=
  length (ts_id s) = 4%nat ∧ 12 ≤ ts_header s ≤ 12 + zlen (ts_body s) ∧
  12 + zlen (ts_body s) ≤ U32_MAX.

Lemma length_field_app {A} l a n c (k : Z → parse A) :
  l = a ++ be32 n ++ c → 0 ≤ n ≤ U32_MAX →
  (let? v := be_u32 l (zlen a) in let? u := usize_from_u32 v in k u) = k n.
Proof.
  intros -> Hn. unfold be32. cbn [app]. rewrite be_u32_app. cbn [result_bind].
  replace (256 * _ + _) with n; [|unfold U32_MAX in Hn; Z.to_euclidean_division_equations; lia].
  unfold usize_from_u32. rewrite (proj2 (Z.leb_le _ _)); [done|].
  unfold U32_MAX, U64_MAX in *. lia.
Qed.

Lemma encode_section_length s :
  length (ts_id s) = 4%nat → zlen (encode_section s) = 12 + zlen (ts_body s).
Proof. intros H. unfold encode_section, zlen. rewrite !length_app, H. simpl. lia. Qed.

Lemma read_tag_encoded pre s rest post declared :
  section_ok s → declared = zlen pre + zlen (encode_section s ++ rest) →
  read_tag (pre ++ (encode_section s ++ rest) ++ post) declared (zlen pre) =
    Ok (ts_id s, ts_body s, 12 + zlen (ts_body s)).
Proof.
  intros (Hid & Hh & Hb) ->. pose proof (encode_section_length s Hid) as Hlen.
  pose proof (zlen_nonneg rest). pose proof (zlen_nonneg (ts_body s)).
  assert (zlen (ts_id s) = 4) as Hid4 by (unfold zlen; lia).
  unfold read_tag, TAG_HEADER_BYTES. rewrite (proj2 (Z.ltb_ge _ _)) by (rewrite zlen_app; lia).
  unfold index_range. rewrite slice_app. cbn [ok_or result_bind].
  unfold encode_section. rewrite <- !app_assoc.
  pose proof (slice_app [] (ts_id s) (be32 (ts_header s) ++ be32 (12 + zlen (ts_body s)) ++
    ts_body s ++ rest)) as Hs. cbn [app] in Hs. rewrite Hid4 in Hs. change (zlen [] + 4) with 4 in Hs.
  change (zlen []) with 0 in Hs. rewrite Hs. cbn [ok_or result_bind].
  rewrite <- Hid4. rewrite (length_field_app _ (ts_id s) (ts_header s) _ _ eq_refl) by lia.
  replace 8 with (zlen (ts_id s ++ be32 (ts_header s))) by (rewrite zlen_app, Hid4; done).
  rewrite (length_field_app _ (ts_id s ++ be32 (ts_header s)) (12 + zlen (ts_body s))
    (ts_body s ++ rest)); [|by rewrite <- app_assoc|lia].
  assert (zlen (be32 (ts_header s)) = 4 ∧ zlen (be32 (12 + zlen (ts_body s))) = 4) as [Hz1 Hz2] by done.
  rewrite !(proj2 (Z.ltb_ge _ _)) by (rewrite ?zlen_app, ?Hid4, ?Hz1, ?Hz2; lia).
  pose proof (slice_app (ts_id s ++ be32 (ts_header s) ++ be32 (12 + zlen (ts_body s)))
    (ts_body s) rest) as Hbody. rewrite <- !app_assoc, !zlen_app, Hid4 in Hbody.
  change (zlen (be32 (ts_header s))) with 4 in Hbody.
  change (zlen (be32 (12 + zlen (ts_body s)))) with 4 in Hbody.
  change (4 + (4 + 4)) with 12 in Hbody. simpl orb. by rewrite Hbody.
Qed.

Section sections.
Context (canonicalize : str → option (option str)).

(** The sections applied one after the other, stopping at the first malformed one. *)
Fixpoint apply_sections (sections : list TagSection) (p : ParsedAnalysisFile) :
    parse ParsedAnalysisFile :=
  match sections with
  | [] => Ok p
  | s :: rest => let? p := apply_tag canonicalize (ts_id s) (ts_body s) p in apply_sections rest p
  end.

Lemma tag_loop_encoded sections post declared fuel : ∀ pre p,
  Forall section_ok sections →
  declared = zlen pre + zlen (sections ≫= encode_section) → declared ≤ U64_MAX →
  declared - zlen pre ≤ Z.of_nat fuel →
  tag_loop canonicalize fuel (pre ++ (sections ≫= encode_section) ++ post) declared (zlen pre) p =
    apply_sections sections p.
Proof.
  revert fuel. induction sections as [|s sections IH]; intros fuel pre p Hok Hd Hmax Hf.
  { simpl in Hd. change (zlen []) with 0 in Hd. destruct fuel; cbn [tag_loop];
      by rewrite (proj2 (Z.ltb_ge _ _)) by lia. }
  apply Forall_cons in Hok as [Hs Hok]. rewrite bind_cons in *.
  pose proof (encode_section_length s (proj1 Hs)) as Hlen.
  pose proof (zlen_nonneg (ts_body s)). pose proof (zlen_nonneg (sections ≫= encode_section)).
  rewrite zlen_app in Hd. destruct fuel as [|fuel]; [lia|]. cbn [tag_loop].
  rewrite (proj2 (Z.ltb_lt _ _)) by lia.
  rewrite (read_tag_encoded pre s _ post declared Hs) by (rewrite zlen_app; lia).
  cbn [result_bind fst snd apply_sections].
  destruct (apply_tag _ _ _ _) as [p'|]; [|done]. cbn [result_bind].
  assert (checked_add_u64 (zlen pre) (12 + zlen (ts_body s)) =
    Some (zlen (pre ++ encode_section s))) as ->.
  { apply checked_add_u64_Some. rewrite zlen_app. lia. }
  cbn [ok_or result_bind].
  pose proof (IH fuel (pre ++ encode_section s) p' Hok) as IH'.
  rewrite <- !app_assoc in IH'. rewrite <- app_assoc. rewrite zlen_app in *. apply IH'; lia.
Qed.

(** (sections are read in order) A file that lays out any sections after its header,
    whatever follows them, is read as the effects of its sections one after the other, up
    to the first malformed one: no section is skipped or read twice, and the bytes after
    the declared length are ignored. *)
Theorem sections_in_order extra sections trailing :
  Forall section_ok sections →
  12 + zlen extra + zlen (sections ≫= encode_section) ≤ U32_MAX →
  parse_analysis_file canonicalize (encode_file extra sections trailing) =
    apply_sections sections ParsedAnalysisFile_default.
Proof.
  intros Hok Hmax. set (mid := sections ≫= encode_section) in *.
  pose proof (zlen_nonneg extra). pose proof (zlen_nonneg mid).
  set (h := 12 + zlen extra) in *. unfold parse_analysis_file, TAG_HEADER_BYTES.
  pose proof (zlen_nonneg trailing).
  unfold encode_file. fold mid h. set (tail := extra ++ mid ++ trailing).
  assert (zlen (ANALYSIS_MAGIC ++ be32 h ++ be32 (h + zlen mid) ++ tail) =
    h + zlen mid + zlen trailing) as Hlen.
  { unfold tail. rewrite !zlen_app. change (zlen ANALYSIS_MAGIC) with 4.
    change (zlen (be32 h)) with 4. change (zlen (be32 (h + zlen mid))) with 4. lia. }
  rewrite Hlen, (proj2 (Z.ltb_ge _ _)) by lia.
  assert (index_range (ANALYSIS_MAGIC ++ be32 h ++ be32 (h + zlen mid) ++ tail) 0 4 = Ok ANALYSIS_MAGIC)
    as -> by exact (f_equal (λ o, ok_or o Panic) (slice_app [] ANALYSIS_MAGIC _)).
  cbn [result_bind]. rewrite bool_decide_true by done. cbn [negb].
  change 4 with (zlen ANALYSIS_MAGIC) at 1. rewrite (length_field_app _ ANALYSIS_MAGIC h _ _ eq_refl) by lia.
  change 8 with (zlen (ANALYSIS_MAGIC ++ be32 h)).
  rewrite (length_field_app _ (ANALYSIS_MAGIC ++ be32 h) (h + zlen mid) tail); [|done|lia].
  rewrite ?Hlen, !(proj2 (Z.ltb_ge _ _)) by lia. cbn [orb].
  replace (ANALYSIS_MAGIC ++ be32 h ++ be32 (h + zlen mid) ++ tail) with
    ((ANALYSIS_MAGIC ++ be32 h ++ be32 (h + zlen mid) ++ extra) ++ mid ++ trailing)
    by (unfold tail; by rewrite <- !app_assoc).
  assert (h = zlen (ANALYSIS_MAGIC ++ be32 h ++ be32 (h + zlen mid) ++ extra)) as Hh.
  { rewrite !zlen_app. change (zlen ANALYSIS_MAGIC) with 4. change (zlen (be32 h)) with 4.
    change (zlen (be32 (h + zlen mid))) with 4. lia. }
  set (pre := ANALYSIS_MAGIC ++ be32 h ++ be32 (h + zlen mid) ++ extra) in *.
  clearbody pre h. subst h.
  apply tag_loop_encoded; [done..|unfold U32_MAX, U64_MAX in *; lia|].
  fold mid. unfold zlen in *. rewrite !length_app. lia.
Qed.
End sections.

(** A header of 24 bytes, a section with two beats, one with a name the reader does not
    know and one with a malformed grid. *)
Lemma sections_in_order_witness :
  let canonicalize := λ _ : str, None in
  let grid := mkTagSection (lit "PQTZ") 24
    [0; 0; 0; 0; 0; 8; 0; 0; 0; 0; 0; 2; 0; 1; 49; 206; 0; 0; 0; 9; 0; 2; 49; 206; 0; 0; 1; 214] in
  let other := mkTagSection (lit "PVBR") 12 [1; 2; 3] in
  let short := mkTagSection (lit "PQTZ") 12 [0; 0] in
  let file := encode_file (replicate 12 0) [grid; other] [7; 7] in
  (parse_analysis_file canonicalize file =
     apply_sections canonicalize [grid; other] ParsedAnalysisFile_default ∧
   result_ok (parse_analysis_file canonicalize file) =
     Some (set_beat_grid [mkAnalysisBeat 1 12750 9; mkAnalysisBeat 2 12750 470]
             ParsedAnalysisFile_default)) ∧
  parse_analysis_file canonicalize (encode_file [] [grid; short; other] []) = malformed.
Proof.
  cbv zeta. split; [split|].
  - apply sections_in_order; [repeat constructor; by vm_compute|by vm_compute].
  - by vm_compute.
  - rewrite sections_in_order; [by vm_compute| |by vm_compute]. repeat constructor; by vm_compute.
Defined.

(** * Analysis sets *)

Lemma analysis_ok_mono size size' p : size ≤ size' → analysis_ok size p → analysis_ok size' p.
Proof.
  intros Hle (Hb & Hp & Hc & Hw & Hcov). unfold analysis_ok, coverage_ok in *.
  destruct Hb, Hp, Hw. split_and!; (done || lia || (split; done || lia)).
Qed.

Lemma merge_ok size p q : analysis_ok size p → analysis_ok size q → analysis_ok size (merge p q).
Proof.
  intros (? & ? & ? & ? & Hp) (? & ? & ? & ? & Hq). unfold merge, analysis_ok. cbn -[zlen].
  split; [by case_match|]. split; [by case_match|]. split; [by case_match|].
  split; [by case_match|]. unfold coverage_ok in *. simpl. lia.
Qed.

(** What a run over the files of a track can end in. *)
Definition set_outcome (maximum : Z) (files : list (list Z)) (r : parse ParsedAnalysisFile) : Prop :=
  match r with
  | Ok p => analysis_ok maximum p
  | Err (Raised AEMalformedAnalysisFile) => True
  | Err (Raised (AEInvalidFileSize n)) =>
      ∃ f, f ∈ files ∧ n = zlen f ∧ (n < 12 ∨ maximum < n)
  | Err _ => False
  end.

(** C35: (the reader is total and returns well-formed analyses) On arbitrary bytes the
    reader returns: no slice is accessed out of range, the loop over the sections ends
    within as many rounds as there are bytes, and the only error is the one for a
    malformed file.  What it returns is well-formed: beats are numbered 1 to 4, phrases
    follow one another without gap or overlap, hot cues have distinct increasing non-zero
    indexes and loops that end after they start, and no list or count is larger than the
    bytes of the file allow.  The same holds of the merged analysis of a set of files,
    with the errors for the sizes of files that are too short or too long. *)
Theorem analysis_reader_total canonicalize maximum files :
  Forall (Forall in_u8) files → 0 ≤ maximum →
  (∀ bytes, bytes ∈ files →
     match parse_analysis_file canonicalize bytes with
     | Ok p => analysis_ok (zlen bytes) p
     | Err e => e = Raised AEMalformedAnalysisFile
     end) ∧
  set_outcome maximum files
    (merge_analysis_set canonicalize maximum files ParsedAnalysisFile_default).
Proof.
  intros Hall Hmax. split.
  { intros bytes Hb. rewrite Forall_forall in Hall.
    pose proof (wp_analysis_file canonicalize bytes (Hall _ Hb)) as Hwp.
    destruct (parse_analysis_file _ _) as [p|[]]; naive_solver. }
  assert (∀ merged, analysis_ok maximum merged →
    set_outcome maximum files (merge_analysis_set canonicalize maximum files merged)) as Hset.
  { induction Hall as [|f files Hf _ IH]; intros merged Hm; [done|]. cbn [merge_analysis_set].
    unfold read_bounded, TAG_HEADER_BYTES. destruct (_ || _) eqn:E; cbn [result_bind].
    - exists f. split_and!; [constructor|done|].
      apply orb_true_iff in E as [?%Z.ltb_lt|?%Z.ltb_lt]; auto.
    - apply orb_false_iff in E as [_ E%Z.ltb_ge].
      pose proof (wp_analysis_file canonicalize f Hf) as Hwp.
      destruct (parse_analysis_file _ _) as [p|[]]; simpl in Hwp |- *; simplify_eq; try done.
      assert (set_outcome maximum files (merge_analysis_set canonicalize maximum files (merge merged p)))
        as Hrest by (apply IH, merge_ok; [done|by eapply analysis_ok_mono]).
      destruct (merge_analysis_set _ _ _ _) as [|[[] | |]]; try done.
      destruct Hrest as (g & ? & ?). exists g. split; [by constructor|done]. }
  apply Hset, analysis_ok_default, Hmax.
Qed.

Lemma analysis_reader_total_witness :
  let canonicalize := λ _ : str, None in
  let cues := mkTagSection (lit "PCO2") 12
    ([0; 0; 0; 1; 0; 2; 0; 0] ++
     lit "PCP2" ++ be32 16 ++ be32 28 ++ be32 3 ++ [1; 0; 0; 0] ++ be32 900 ++ be32 0 ++
     lit "PCP2" ++ be32 16 ++ be32 28 ++ be32 1 ++ [2; 0; 0; 0] ++ be32 100 ++ be32 600) in
  let dat := encode_file [] [mkTagSection (lit "PSSI") 12 (demo_section 3 2)] [] in
  let ext := encode_file [] [cues] [] in
  (∃ p, merge_analysis_set canonicalize 1000 [dat; ext] ParsedAnalysisFile_default = Ok p ∧
        analysis_ok 1000 p ∧
        (λ c, (ahc_index c, ahc_loop_end_millis c)) <$> paf_hot_cues p = [(1, Some 600); (3, None)] ∧
        (λ h, (aph_start_beat h, aph_end_beat h)) <$> paf_phrases p = [(0, 1); (1, 2); (2, 3)]).
Proof.
  intros canonicalize cues dat ext.
  destruct (analysis_reader_total canonicalize 1000 [dat; ext]) as [_ Hset]; [|lia|].
  { constructor; [|constructor; [|constructor]]; apply bytes_check; by vm_compute. }
  destruct (merge_analysis_set _ _ _ _) as [p|] eqn:E; [|by vm_compute in E].
  exists p. split; [done|]. split; [exact Hset|]. vm_compute in E.
  injection E as <-. by vm_compute.
Defined.

(** * Locations *)

Definition is_scalar (c : Z) : Prop := 0 ≤ c < 0xD800 ∨ 0xE000 ≤ c ≤ 0x10FFFF.

Lemma lor_small k n x :
  forallb (λ x, Z.lor k x =? k + x) (seqZ 0 n) = true → 0 ≤ x < n → Z.lor k x = k + x.
Proof.
  rewrite forallb_forall. intros Hall Hx. apply Z.eqb_eq, Hall. apply list_elem_of_In, elem_of_seqZ. lia.
Qed.

Lemma continuation_eq c n :
  0 ≤ n → Z.lor 128 (Z.land (Z.shiftr c n) 63) = 128 + (c / 2 ^ n) mod 64.
Proof.
  intros Hn. change 63 with (Z.ones 6). rewrite Z.land_ones, Z.shiftr_div_pow2 by lia.
  apply (lor_small 128 64); [by vm_compute|]. apply Z.mod_pos_bound. lia.
Qed.

Lemma is_cont_eq x : is_cont (128 + x mod 64) = true.
Proof.
  pose proof (Z.mod_pos_bound x 64 ltac:(lia)). unfold is_cont.
  rewrite !(proj2 (Z.leb_le _ _)) by lia. done.
Qed.

Lemma ltb_false x y : y ≤ x → (x <? y) = false.
Proof. apply Z.ltb_ge. Qed.

(** The forms of a sequence, from the digits of the code point in base 64. *)
Lemma from_utf8_two h l rest :
  2 ≤ h < 32 → 0 ≤ l < 64 →
  from_utf8 (192 + h :: 128 + l :: rest) = cons (64 * h + l) <$> from_utf8 rest.
Proof.
  intros Hh Hl. cbn [from_utf8]. unfold is_cont.
  rewrite ltb_false, !(proj2 (Z.leb_le _ _)) by lia. cbn [andb].
  replace (64 * (192 + h - 0xC0) + (128 + l - 0x80)) with (64 * h + l) by lia. done.
Qed.

Lemma from_utf8_three h m l rest :
  0 ≤ h < 16 → 0 ≤ m < 64 → 0 ≤ l < 64 → (h = 0 → 32 ≤ m) → (h = 13 → m < 32) →
  from_utf8 (224 + h :: 128 + m :: 128 + l :: rest) =
    cons (4096 * h + 64 * m + l) <$> from_utf8 rest.
Proof.
  intros Hh Hm Hl H0 H13. cbn [from_utf8]. unfold is_cont.
  rewrite ltb_false, (proj2 (Z.leb_gt (224 + h) 0xDF)), andb_false_r by lia.
  rewrite !(proj2 (Z.leb_le 0x80 _)), !(proj2 (Z.leb_le _ 0xBF)), !(proj2 (Z.leb_le 0xE0 _)),
    !(proj2 (Z.leb_le _ 0xEF)) by lia. cbn [andb].
  assert ((negb (224 + h =? 0xE0) || (0xA0 <=? 128 + m)) && (negb (224 + h =? 0xED) || (128 + m <=? 0x9F))
    = true) as ->.
  { destruct (Z.eqb_spec (224 + h) 0xE0), (Z.eqb_spec (224 + h) 0xED); simpl;
      rewrite ?(proj2 (Z.leb_le _ _)) by lia; done. }
  by replace (4096 * (224 + h - 0xE0) + 64 * (128 + m - 0x80) + (128 + l - 0x80))
    with (4096 * h + 64 * m + l) by lia.
Qed.

Lemma from_utf8_four h k m l rest :
  0 ≤ h < 5 → 0 ≤ k < 64 → 0 ≤ m < 64 → 0 ≤ l < 64 → (h = 0 → 16 ≤ k) → (h = 4 → k < 16) →
  from_utf8 (240 + h :: 128 + k :: 128 + m :: 128 + l :: rest) =
    cons (262144 * h + 4096 * k + 64 * m + l) <$> from_utf8 rest.
Proof.
  intros Hh Hk Hm Hl H0 H4. cbn [from_utf8]. unfold is_cont.
  rewrite ltb_false, (proj2 (Z.leb_gt (240 + h) 0xDF)), andb_false_r by lia.
  rewrite (proj2 (Z.leb_gt (240 + h) 0xEF)), andb_false_r by lia.
  rewrite !(proj2 (Z.leb_le 0x80 _)), !(proj2 (Z.leb_le _ 0xBF)), !(proj2 (Z.leb_le 0xF0 _)),
    !(proj2 (Z.leb_le _ 0xF4)) by lia. cbn [andb].
  assert ((negb (240 + h =? 0xF0) || (0x90 <=? 128 + k)) && (negb (240 + h =? 0xF4) || (128 + k <=? 0x8F))
    = true) as ->.
  { destruct (Z.eqb_spec (240 + h) 0xF0), (Z.eqb_spec (240 + h) 0xF4); simpl;
      rewrite ?(proj2 (Z.leb_le _ _)) by lia; done. }
  by replace (262144 * (240 + h - 0xF0) + 4096 * (128 + k - 0x80) + 64 * (128 + m - 0x80) +
    (128 + l - 0x80)) with (262144 * h + 4096 * k + 64 * m + l) by lia.
Qed.

Lemma from_utf8_char c rest :
  is_scalar c → from_utf8 (char_encode_utf8 c ++ rest) = cons c <$> from_utf8 rest.
Proof.
  intros Hc. unfold is_scalar, char_encode_utf8 in *. rewrite !continuation_eq by lia.
  rewrite !Z.shiftr_div_pow2 by lia. change (2 ^ 0) with 1. change (2 ^ 6) with 64.
  change (2 ^ 12) with 4096. change (2 ^ 18) with 262144. rewrite Z.div_1_r.
  pose proof (Z.mod_pos_bound c 64 ltac:(lia)). pose proof (Z.mod_pos_bound (c / 64) 64 ltac:(lia)).
  pose proof (Z.mod_pos_bound (c / 4096) 64 ltac:(lia)).
  assert (c = 64 * (c / 64) + c mod 64) as D1 by (apply Z.div_mod; lia).
  assert (c / 64 = 64 * (c / 4096) + (c / 64) mod 64) as D2.
  { replace (c / 4096) with (c / 64 / 64) by (rewrite Z.div_div by lia; done). apply Z.div_mod. lia. }
  assert (c / 4096 = 64 * (c / 262144) + (c / 4096) mod 64) as D3.
  { replace (c / 262144) with (c / 4096 / 64) by (rewrite Z.div_div by lia; done). apply Z.div_mod. lia. }
  destruct (c <? 128) eqn:E1.
  { apply Z.ltb_lt in E1. cbn [app from_utf8]. by rewrite (proj2 (Z.ltb_lt _ _)) by lia. }
  apply Z.ltb_ge in E1. destruct (c <? 2048) eqn:E2.
  { apply Z.ltb_lt in E2. rewrite (lor_small 192 32); [|by vm_compute|lia].
    cbn [app]. rewrite from_utf8_two by lia. by rewrite <- D1. }
  apply Z.ltb_ge in E2. destruct (c <? 65536) eqn:E3.
  { apply Z.ltb_lt in E3. rewrite (lor_small 224 16); [|by vm_compute|lia].
    cbn [app]. rewrite from_utf8_three by lia. by replace (4096 * _ + _ + _) with c by lia. }
  apply Z.ltb_ge in E3. rewrite (lor_small 240 5); [|by vm_compute|lia].
  cbn [app]. rewrite from_utf8_four by lia. by replace (262144 * _ + _ + _ + _) with c by lia.
Qed.

(** [String::from_utf8] inverts [str::as_bytes]. *)
Lemma from_utf8_as_bytes s : Forall is_scalar s → from_utf8 (str_as_bytes s) = Some s.
Proof.
  induction 1 as [|c s Hc _ IH]; [done|]. unfold str_as_bytes in *.
  by rewrite bind_cons, from_utf8_char, IH.
Qed.

Lemma char_encode_u8 c : is_scalar c → Forall in_u8 (char_encode_utf8 c).
Proof.
  intros Hc. unfold is_scalar, char_encode_utf8, in_u8, U8_MAX in *. rewrite !continuation_eq by lia.
  rewrite !Z.shiftr_div_pow2 by lia.
  assert (∀ n, 0 ≤ 128 + (c / 2 ^ n) mod 64 ≤ 2 ^ 8 - 1) as Hcont.
  { intros n. pose proof (Z.mod_pos_bound (c / 2 ^ n) 64). lia. }
  assert (∀ k m n, forallb (λ x, Z.lor k x =? k + x) (seqZ 0 m) = true → 0 ≤ k → k + m ≤ 256 →
    0 ≤ n → c < m * 2 ^ n → 0 ≤ Z.lor k (c / 2 ^ n) ≤ 2 ^ 8 - 1) as Hlead.
  { intros k m n Hall Hk Hm Hn Hlt. assert (0 ≤ c / 2 ^ n < m).
    { split; [apply Z.div_pos; lia|]. apply Z.div_lt_upper_bound; lia. }
    rewrite (lor_small k m _ Hall) by lia. lia. }
  repeat case_match; repeat match goal with
    | H : (_ <? _) = true |- _ => apply Z.ltb_lt in H
    | H : (_ <? _) = false |- _ => apply Z.ltb_ge in H end;
    repeat apply Forall_cons_2; try apply Hcont; try apply Forall_nil_2; try lia.
  - apply (Hlead 192 32); [by vm_compute|lia..].
  - apply (Hlead 224 16); [by vm_compute|lia..].
  - apply (Hlead 240 5); [by vm_compute|lia..].
Qed.

Lemma str_as_bytes_u8 s : Forall is_scalar s → Forall in_u8 (str_as_bytes s).
Proof.
  induction 1 as [|c s Hc _ IH]; [constructor|]. unfold str_as_bytes in *. rewrite bind_cons.
  apply Forall_app. split; [by apply char_encode_u8|done].
Qed.

(** Percent encoding as Rekordbox writes it in locations: everything but letters, digits
    and the marks [-], [.], [/], [_] and [~]. *)
Definition is_unreserved (b : Z) : bool :=
  ((48 <=? b) && (b <=? 57)) || ((65 <=? b) && (b <=? 90)) || ((97 <=? b) && (b <=? 122)) ||
  ((45 <=? b) && (b <=? 47)) || (b =? 95) || (b =? 126).

Definition hex_digit (n : Z) : Z := if n <? 10 then 48 + n else 55 + n.

Definition percent_encode_byte (b : Z) : list Z :=
  if is_unreserved b then [b] else [37; hex_digit (b / 16); hex_digit (b mod 16)].

Definition percent_encode (bytes : list Z) : list Z := bytes ≫= percent_encode_byte.

(** The encoded bytes are graphic ASCII characters; checked for each of the 256 bytes. *)
Definition graphic (c : Z) : Prop := 33 ≤ c ≤ 126.

Lemma graphic_check l : forallb (λ c, (33 <=? c) && (c <=? 126)) l = true → Forall graphic l.
Proof.
  rewrite forallb_forall, Forall_forall. intros Hl c Hc%list_elem_of_In.
  apply Hl, andb_true_iff in Hc as [?%Z.leb_le ?%Z.leb_le]. unfold graphic. lia.
Qed.

Lemma percent_encode_byte_graphic b : in_u8 b → Forall graphic (percent_encode_byte b).
Proof.
  intros Hb.
  assert (forallb (λ b, forallb (λ c, (33 <=? c) && (c <=? 126)) (percent_encode_byte b)) (seqZ 0 256)
    = true) as Hall by by vm_compute.
  rewrite forallb_forall in Hall. specialize (Hall b). rewrite <- list_elem_of_In, elem_of_seqZ in Hall.
  apply graphic_check, Hall. unfold in_u8, U8_MAX in Hb. lia.
Qed.

Lemma percent_encode_graphic bytes : Forall in_u8 bytes → Forall graphic (percent_encode bytes).
Proof.
  induction 1 as [|b bytes Hb _ IH]; [constructor|]. unfold percent_encode in *. rewrite bind_cons.
  apply Forall_app. split; [by apply percent_encode_byte_graphic|done].
Qed.

Lemma hex_nibble_digit n : 0 ≤ n < 16 → hex_nibble (hex_digit n) = Some n.
Proof.
  intros Hn.
  assert (forallb (λ n, bool_decide (hex_nibble (hex_digit n) = Some n)) (seqZ 0 16) = true) as Hall
    by by vm_compute.
  rewrite forallb_forall in Hall. eapply bool_decide_eq_true_1, Hall, list_elem_of_In, elem_of_seqZ. lia.
Qed.

Lemma percent_decode_byte b rest :
  in_u8 b → percent_decode (percent_encode_byte b ++ rest) = cons b <$> percent_decode rest.
Proof.
  intros Hb. unfold percent_encode_byte. destruct (is_unreserved b) eqn:E; cbn [app percent_decode].
  - destruct (Z.eqb_spec b 37) as [->|]; [done|done].
  - change (37 =? 37) with true. cbv iota. unfold in_u8, U8_MAX in Hb.
    pose proof (Z.mod_pos_bound b 16 ltac:(lia)). pose proof (Z.div_mod b 16 ltac:(lia)).
    assert (0 ≤ b / 16 < 16) by (split; [apply Z.div_pos|apply Z.div_lt_upper_bound]; lia).
    rewrite !hex_nibble_digit by lia. cbn [mbind option_bind].
    unfold checked_mul_u8, checked_add_u8, U8_MAX. rewrite (proj2 (Z.leb_le _ _)) by lia.
    cbn [mbind option_bind]. rewrite (proj2 (Z.leb_le _ _)) by lia. cbn [mbind option_bind].
    by replace (b / 16 * 16 + b mod 16) with b by lia.
Qed.

(** [percent_decode] inverts the encoding. *)
Lemma percent_decode_encode bytes :
  Forall in_u8 bytes → percent_decode (percent_encode bytes) = Some bytes.
Proof.
  induction 1 as [|b bytes Hb _ IH]; [done|]. unfold percent_encode in *.
  by rewrite bind_cons, percent_decode_byte, IH.
Qed.

Lemma graphic_as_bytes s : Forall graphic s → str_as_bytes s = s.
Proof.
  induction 1 as [|c s Hc _ IH]; [done|]. unfold str_as_bytes, graphic in *. rewrite bind_cons, IH.
  unfold char_encode_utf8. by rewrite (proj2 (Z.ltb_lt _ _)) by lia.
Qed.

Lemma graphic_not_space c : graphic c → char_is_whitespace c = false.
Proof.
  unfold graphic, char_is_whitespace. intros Hc.
  repeat (apply orb_false_intro); try (apply Z.eqb_neq; lia); apply andb_false_iff;
    rewrite !Z.leb_gt; lia.
Qed.

Lemma trim_graphic s : Forall graphic s → trim s = s.
Proof.
  assert (∀ t, Forall graphic t → trim_start t = t) as Hstart.
  { intros [|c t]; [done|]. intros [Hc _]%Forall_cons. cbn [trim_start]. by rewrite graphic_not_space. }
  intros Hs. unfold trim. rewrite (Hstart s Hs), Hstart; [apply reverse_involutive|by rewrite Forall_reverse].
Qed.

Lemma trim_end_zeros_graphic s : Forall graphic s → trim_end_zeros s = s.
Proof.
  intros Hs. unfold trim_end_zeros. assert (Forall graphic (reverse s)) as Hr by by rewrite Forall_reverse.
  replace (drop_zeros (reverse s)) with (reverse s); [apply reverse_involutive|].
  destruct Hr as [|c t Hc]; [done|]. cbn [drop_zeros]. unfold graphic in Hc.
  destruct (Z.eqb_spec c 0); [lia|done].
Qed.

Lemma strip_prefix_app p s : strip_prefix p (p ++ s) = Some s.
Proof. induction p as [|x p IH]; [done|]. simpl. by rewrite Z.eqb_refl. Qed.

(** (locations survive their encoding) The location Rekordbox writes for a path, a
    [file://localhost] address with the UTF-8 bytes of the path percent-encoded, is
    normalized to the canonical path of the file when the file system finds one and to the
    path itself otherwise. *)
Theorem location_roundtrip canonicalize path :
  Forall is_scalar path →
  normalize_location canonicalize
    (lit "file://localhost" ++ percent_encode (str_as_bytes path)) =
  match canonicalize path with None => Some path | Some canonical => canonical end.
Proof.
  intros Hp. pose proof (str_as_bytes_u8 path Hp) as Hb.
  pose proof (percent_encode_graphic _ Hb) as Hg.
  assert (Forall graphic (lit "file://localhost" ++ percent_encode (str_as_bytes path))) as Hurl.
  { apply Forall_app. split; [|done]. apply graphic_check. by vm_compute. }
  unfold normalize_location. rewrite trim_graphic, trim_end_zeros_graphic, strip_prefix_app by done.
  rewrite graphic_as_bytes, percent_decode_encode by done. cbn [mbind option_bind].
  by rewrite from_utf8_as_bytes.
Qed.

Lemma location_roundtrip_witness :
  let path := lit "/Music/" ++ [233; 0x1F3B5] ++ lit " 100%.mp3" in
  let url := lit "file://localhost/Music/%C3%A9%F0%9F%8E%B5%20100%25.mp3" in
  lit "file://localhost" ++ percent_encode (str_as_bytes path) = url ∧
  normalize_location (λ _, None) url = Some path.
Proof.
  intros path url. assert (lit "file://localhost" ++ percent_encode (str_as_bytes path) = url) as Hurl
    by by vm_compute.
  split; [exact Hurl|]. rewrite <- Hurl. apply location_roundtrip.
  apply (Forall_impl (λ c, bool_decide (0 ≤ c < 0xD800) || bool_decide (0xE000 ≤ c ≤ 0x10FFFF) = true)).
  - repeat (apply Forall_cons_2; [by vm_compute|]). apply Forall_nil_2.
  - intros c [?%bool_decide_eq_true|?%bool_decide_eq_true]%orb_true_iff; [by left|by right].
Defined.
