(* ===== verification/OutputWorker.v ===== *)
(** * The output worker

    Models the [OutputWorker] of [lumi-engine/src/session.rs], which turns the effects of
    the reducer into MIDI: it admits a cue through the launch gate, records it with the
    dry-run provider, hands it to the Autoloop executor and the realtime lane, toggles
    static looks, prepares the next Autoloop from exact beats, and reports every effect
    back to the runtime.

    The worker runs beside the thread of the realtime lane.  A [World] holds the worker,
    the runtime, and what the environment does: before every access to the lane its
    thread takes the next list of [w_turns] (commands received, deadlines passed), and
    the reading of the clock number [w_reads] is [w_instants w_reads].  [w_inputs],
    [w_dispatches] and [w_presses] record what happened at the lane.  The JSON timing
    diagnostics of the worker are left out. *)

From stdpp Require Import prelude list gmap strings.
From Stdlib Require Import ZArith Lia.
From S2P Require Import Prelude.
From S2P Require Import Track.
From S2P Require Import Plan.
From S2P Require Import Event.
From S2P Require Import State.
From S2P Require Import Reducer.
From S2P Require Import Runtime.
From S2P Require Import Planner.
From S2P Require Import LightPlans.
From S2P Require Import AutoloopExecutor.
From S2P Require Import Output.
From S2P Require Import LaunchPolicy.
From S2P Require Import Midi.
From S2P Require Import MidiLane.
From S2P Require Import MidiClock.
Open Scope Z_scope.

(** ** Data *)

Definition LIBRARY_CONTEXT_CAPACITY : nat := 256.
Definition AUTOLOOP_FORECAST_HORIZON_BEATS : Z := 4.
(** Durations in nanoseconds. *)
Definition INTEGRATION_PUMP_INTERVAL : Z := 5 * 1000000.
Definition AUTOLOOP_DEADLINE_REPLACEMENT_TOLERANCE : Z := 10 * 1000000.

Record StaticLookTarget := mkStaticLookTarget {
  sl_modifier_id : str;
  sl_display_name : str;
  sl_number : Z;
}.

Inductive StaticLookTransition : Type :=
| SLActivate (target : StaticLookTarget)
| SLRelease (target : StaticLookTarget).

Definition static_look_transition (active desired : option StaticLookTarget) :
    option StaticLookTransition :=
  match active, desired with
  | None, None => None
  | Some a, Some d => if sl_number a =? sl_number d then None else Some (SLActivate d)
  | None, Some d => Some (SLActivate d)
  | Some a, None => Some (SLRelease a)
  end.

Inductive TransportEpochCause : Type :=
| CauseOperationStart | CausePlaybackStarted | CausePositionLanding | CauseMasterHandoff
| CauseTrackLoad.

Record ScheduledFutureAutoloop := mkScheduledFutureAutoloop {
  sfa_generation : Z;
  sfa_identity : AutoloopExecutionIdentity;
  sfa_target : AutoloopTarget;
  sfa_deadline : Z;
  sfa_effective_bpm_milli : Z;
}.

Record AutoloopScheduleRecord := mkAutoloopScheduleRecord {
  asr_generation : Z;
  asr_identity : AutoloopExecutionIdentity;
  asr_target : AutoloopTarget;
  asr_observed_beat : option Z;
  asr_scheduled_at : Z;
  asr_deadline : Z;
  asr_offset_millis : Z;
}.

Record OutputWorker (P : Type) := mkOutputWorker {
  ow_launch_policy : LaunchPolicy;
  ow_launch_gate : LaunchGate;
  ow_provider : DryRunLightingOutputProvider;
  ow_midi_output : Lane P;
  ow_midi_clock : MidiClock P;
  ow_effect_sequence : Z;
  ow_midi_auto_publish_enabled : bool;
  ow_timing_offset_millis : Z;
  ow_pending_timing_offset_millis : option Z;
  ow_last_midi_publish_attempt : option Z;
  ow_realtime_generation : Z;
  ow_autoloop_executor : AutoloopCueExecutor;
  ow_transport_epoch_cause : option TransportEpochCause;
  ow_reassert_current_on_next_cue : bool;
  ow_scheduled_future_autoloop : option ScheduledFutureAutoloop;
  ow_recent_autoloop_schedules : list AutoloopScheduleRecord;
  ow_static_look_plans : gmap Z (gmap Z StaticLookTarget);
  ow_active_static_look : option StaticLookTarget;
  ow_static_look_transition_count : Z;
  ow_static_look_release_count : Z;
  ow_static_look_unchanged_count : Z;
  ow_static_look_failed_count : Z;
}.
Arguments mkOutputWorker {P}.
Arguments ow_launch_policy {P}.
Arguments ow_launch_gate {P}.
Arguments ow_provider {P}.
Arguments ow_midi_output {P}.
Arguments ow_midi_clock {P}.
Arguments ow_effect_sequence {P}.
Arguments ow_midi_auto_publish_enabled {P}.
Arguments ow_timing_offset_millis {P}.
Arguments ow_pending_timing_offset_millis {P}.
Arguments ow_last_midi_publish_attempt {P}.
Arguments ow_realtime_generation {P}.
Arguments ow_autoloop_executor {P}.
Arguments ow_transport_epoch_cause {P}.
Arguments ow_reassert_current_on_next_cue {P}.
Arguments ow_scheduled_future_autoloop {P}.
Arguments ow_recent_autoloop_schedules {P}.
Arguments ow_static_look_plans {P}.
Arguments ow_active_static_look {P}.
Arguments ow_static_look_transition_count {P}.
Arguments ow_static_look_release_count {P}.
Arguments ow_static_look_unchanged_count {P}.
Arguments ow_static_look_failed_count {P}.

Definition set_ow_launch_policy {P} (x : LaunchPolicy) (o : OutputWorker P) : OutputWorker P :=
  mkOutputWorker x (ow_launch_gate o) (ow_provider o) (ow_midi_output o) (ow_midi_clock o)
    (ow_effect_sequence o) (ow_midi_auto_publish_enabled o) (ow_timing_offset_millis o)
    (ow_pending_timing_offset_millis o) (ow_last_midi_publish_attempt o)
    (ow_realtime_generation o) (ow_autoloop_executor o) (ow_transport_epoch_cause o)
    (ow_reassert_current_on_next_cue o) (ow_scheduled_future_autoloop o)
    (ow_recent_autoloop_schedules o) (ow_static_look_plans o) (ow_active_static_look o)
    (ow_static_look_transition_count o) (ow_static_look_release_count o)
    (ow_static_look_unchanged_count o) (ow_static_look_failed_count o).
Definition set_ow_launch_gate {P} (x : LaunchGate) (o : OutputWorker P) : OutputWorker P :=
  mkOutputWorker (ow_launch_policy o) x (ow_provider o) (ow_midi_output o) (ow_midi_clock o)
    (ow_effect_sequence o) (ow_midi_auto_publish_enabled o) (ow_timing_offset_millis o)
    (ow_pending_timing_offset_millis o) (ow_last_midi_publish_attempt o)
    (ow_realtime_generation o) (ow_autoloop_executor o) (ow_transport_epoch_cause o)
    (ow_reassert_current_on_next_cue o) (ow_scheduled_future_autoloop o)
    (ow_recent_autoloop_schedules o) (ow_static_look_plans o) (ow_active_static_look o)
    (ow_static_look_transition_count o) (ow_static_look_release_count o)
    (ow_static_look_unchanged_count o) (ow_static_look_failed_count o).
Definition set_ow_provider {P} (x : DryRunLightingOutputProvider) (o : OutputWorker P) : OutputWorker P :=
  mkOutputWorker (ow_launch_policy o) (ow_launch_gate o) x (ow_midi_output o) (ow_midi_clock o)
    (ow_effect_sequence o) (ow_midi_auto_publish_enabled o) (ow_timing_offset_millis o)
    (ow_pending_timing_offset_millis o) (ow_last_midi_publish_attempt o)
    (ow_realtime_generation o) (ow_autoloop_executor o) (ow_transport_epoch_cause o)
    (ow_reassert_current_on_next_cue o) (ow_scheduled_future_autoloop o)
    (ow_recent_autoloop_schedules o) (ow_static_look_plans o) (ow_active_static_look o)
    (ow_static_look_transition_count o) (ow_static_look_release_count o)
    (ow_static_look_unchanged_count o) (ow_static_look_failed_count o).
Definition set_ow_midi_output {P} (x : Lane P) (o : OutputWorker P) : OutputWorker P :=
  mkOutputWorker (ow_launch_policy o) (ow_launch_gate o) (ow_provider o) x (ow_midi_clock o)
    (ow_effect_sequence o) (ow_midi_auto_publish_enabled o) (ow_timing_offset_millis o)
    (ow_pending_timing_offset_millis o) (ow_last_midi_publish_attempt o)
    (ow_realtime_generation o) (ow_autoloop_executor o) (ow_transport_epoch_cause o)
    (ow_reassert_current_on_next_cue o) (ow_scheduled_future_autoloop o)
    (ow_recent_autoloop_schedules o) (ow_static_look_plans o) (ow_active_static_look o)
    (ow_static_look_transition_count o) (ow_static_look_release_count o)
    (ow_static_look_unchanged_count o) (ow_static_look_failed_count o).
Definition set_ow_midi_clock {P} (x : MidiClock P) (o : OutputWorker P) : OutputWorker P :=
  mkOutputWorker (ow_launch_policy o) (ow_launch_gate o) (ow_provider o) (ow_midi_output o) x
    (ow_effect_sequence o) (ow_midi_auto_publish_enabled o) (ow_timing_offset_millis o)
    (ow_pending_timing_offset_millis o) (ow_last_midi_publish_attempt o)
    (ow_realtime_generation o) (ow_autoloop_executor o) (ow_transport_epoch_cause o)
    (ow_reassert_current_on_next_cue o) (ow_scheduled_future_autoloop o)
    (ow_recent_autoloop_schedules o) (ow_static_look_plans o) (ow_active_static_look o)
    (ow_static_look_transition_count o) (ow_static_look_release_count o)
    (ow_static_look_unchanged_count o) (ow_static_look_failed_count o).
Definition set_ow_effect_sequence {P} (x : Z) (o : OutputWorker P) : OutputWorker P :=
  mkOutputWorker (ow_launch_policy o) (ow_launch_gate o) (ow_provider o) (ow_midi_output o)
    (ow_midi_clock o) x (ow_midi_auto_publish_enabled o) (ow_timing_offset_millis o)
    (ow_pending_timing_offset_millis o) (ow_last_midi_publish_attempt o)
    (ow_realtime_generation o) (ow_autoloop_executor o) (ow_transport_epoch_cause o)
    (ow_reassert_current_on_next_cue o) (ow_scheduled_future_autoloop o)
    (ow_recent_autoloop_schedules o) (ow_static_look_plans o) (ow_active_static_look o)
    (ow_static_look_transition_count o) (ow_static_look_release_count o)
    (ow_static_look_unchanged_count o) (ow_static_look_failed_count o).
Definition set_ow_midi_auto_publish_enabled {P} (x : bool) (o : OutputWorker P) : OutputWorker P :=
  mkOutputWorker (ow_launch_policy o) (ow_launch_gate o) (ow_provider o) (ow_midi_output o)
    (ow_midi_clock o) (ow_effect_sequence o) x (ow_timing_offset_millis o)
    (ow_pending_timing_offset_millis o) (ow_last_midi_publish_attempt o)
    (ow_realtime_generation o) (ow_autoloop_executor o) (ow_transport_epoch_cause o)
    (ow_reassert_current_on_next_cue o) (ow_scheduled_future_autoloop o)
    (ow_recent_autoloop_schedules o) (ow_static_look_plans o) (ow_active_static_look o)
    (ow_static_look_transition_count o) (ow_static_look_release_count o)
    (ow_static_look_unchanged_count o) (ow_static_look_failed_count o).
Definition set_ow_timing_offset_millis {P} (x : Z) (o : OutputWorker P) : OutputWorker P :=
  mkOutputWorker (ow_launch_policy o) (ow_launch_gate o) (ow_provider o) (ow_midi_output o)
    (ow_midi_clock o) (ow_effect_sequence o) (ow_midi_auto_publish_enabled o) x
    (ow_pending_timing_offset_millis o) (ow_last_midi_publish_attempt o)
    (ow_realtime_generation o) (ow_autoloop_executor o) (ow_transport_epoch_cause o)
    (ow_reassert_current_on_next_cue o) (ow_scheduled_future_autoloop o)
    (ow_recent_autoloop_schedules o) (ow_static_look_plans o) (ow_active_static_look o)
    (ow_static_look_transition_count o) (ow_static_look_release_count o)
    (ow_static_look_unchanged_count o) (ow_static_look_failed_count o).
Definition set_ow_pending_timing_offset_millis {P} (x : option Z) (o : OutputWorker P) : OutputWorker P :=
  mkOutputWorker (ow_launch_policy o) (ow_launch_gate o) (ow_provider o) (ow_midi_output o)
    (ow_midi_clock o) (ow_effect_sequence o) (ow_midi_auto_publish_enabled o)
    (ow_timing_offset_millis o) x (ow_last_midi_publish_attempt o) (ow_realtime_generation o)
    (ow_autoloop_executor o) (ow_transport_epoch_cause o) (ow_reassert_current_on_next_cue o)
    (ow_scheduled_future_autoloop o) (ow_recent_autoloop_schedules o) (ow_static_look_plans o)
    (ow_active_static_look o) (ow_static_look_transition_count o) (ow_static_look_release_count o)
    (ow_static_look_unchanged_count o) (ow_static_look_failed_count o).
Definition set_ow_last_midi_publish_attempt {P} (x : option Z) (o : OutputWorker P) : OutputWorker P :=
  mkOutputWorker (ow_launch_policy o) (ow_launch_gate o) (ow_provider o) (ow_midi_output o)
    (ow_midi_clock o) (ow_effect_sequence o) (ow_midi_auto_publish_enabled o)
    (ow_timing_offset_millis o) (ow_pending_timing_offset_millis o) x (ow_realtime_generation o)
    (ow_autoloop_executor o) (ow_transport_epoch_cause o) (ow_reassert_current_on_next_cue o)
    (ow_scheduled_future_autoloop o) (ow_recent_autoloop_schedules o) (ow_static_look_plans o)
    (ow_active_static_look o) (ow_static_look_transition_count o) (ow_static_look_release_count o)
    (ow_static_look_unchanged_count o) (ow_static_look_failed_count o).
Definition set_ow_realtime_generation {P} (x : Z) (o : OutputWorker P) : OutputWorker P :=
  mkOutputWorker (ow_launch_policy o) (ow_launch_gate o) (ow_provider o) (ow_midi_output o)
    (ow_midi_clock o) (ow_effect_sequence o) (ow_midi_auto_publish_enabled o)
    (ow_timing_offset_millis o) (ow_pending_timing_offset_millis o)
    (ow_last_midi_publish_attempt o) x (ow_autoloop_executor o) (ow_transport_epoch_cause o)
    (ow_reassert_current_on_next_cue o) (ow_scheduled_future_autoloop o)
    (ow_recent_autoloop_schedules o) (ow_static_look_plans o) (ow_active_static_look o)
    (ow_static_look_transition_count o) (ow_static_look_release_count o)
    (ow_static_look_unchanged_count o) (ow_static_look_failed_count o).
Definition set_ow_autoloop_executor {P} (x : AutoloopCueExecutor) (o : OutputWorker P) : OutputWorker P :=
  mkOutputWorker (ow_launch_policy o) (ow_launch_gate o) (ow_provider o) (ow_midi_output o)
    (ow_midi_clock o) (ow_effect_sequence o) (ow_midi_auto_publish_enabled o)
    (ow_timing_offset_millis o) (ow_pending_timing_offset_millis o)
    (ow_last_midi_publish_attempt o) (ow_realtime_generation o) x (ow_transport_epoch_cause o)
    (ow_reassert_current_on_next_cue o) (ow_scheduled_future_autoloop o)
    (ow_recent_autoloop_schedules o) (ow_static_look_plans o) (ow_active_static_look o)
    (ow_static_look_transition_count o) (ow_static_look_release_count o)
    (ow_static_look_unchanged_count o) (ow_static_look_failed_count o).
Definition set_ow_transport_epoch_cause {P} (x : option TransportEpochCause) (o : OutputWorker P) : OutputWorker P :=
  mkOutputWorker (ow_launch_policy o) (ow_launch_gate o) (ow_provider o) (ow_midi_output o)
    (ow_midi_clock o) (ow_effect_sequence o) (ow_midi_auto_publish_enabled o)
    (ow_timing_offset_millis o) (ow_pending_timing_offset_millis o)
    (ow_last_midi_publish_attempt o) (ow_realtime_generation o) (ow_autoloop_executor o) x
    (ow_reassert_current_on_next_cue o) (ow_scheduled_future_autoloop o)
    (ow_recent_autoloop_schedules o) (ow_static_look_plans o) (ow_active_static_look o)
    (ow_static_look_transition_count o) (ow_static_look_release_count o)
    (ow_static_look_unchanged_count o) (ow_static_look_failed_count o).
Definition set_ow_reassert_current_on_next_cue {P} (x : bool) (o : OutputWorker P) : OutputWorker P :=
  mkOutputWorker (ow_launch_policy o) (ow_launch_gate o) (ow_provider o) (ow_midi_output o)
    (ow_midi_clock o) (ow_effect_sequence o) (ow_midi_auto_publish_enabled o)
    (ow_timing_offset_millis o) (ow_pending_timing_offset_millis o)
    (ow_last_midi_publish_attempt o) (ow_realtime_generation o) (ow_autoloop_executor o)
    (ow_transport_epoch_cause o) x (ow_scheduled_future_autoloop o)
    (ow_recent_autoloop_schedules o) (ow_static_look_plans o) (ow_active_static_look o)
    (ow_static_look_transition_count o) (ow_static_look_release_count o)
    (ow_static_look_unchanged_count o) (ow_static_look_failed_count o).
Definition set_ow_scheduled_future_autoloop {P} (x : option ScheduledFutureAutoloop) (o : OutputWorker P) : OutputWorker P :=
  mkOutputWorker (ow_launch_policy o) (ow_launch_gate o) (ow_provider o) (ow_midi_output o)
    (ow_midi_clock o) (ow_effect_sequence o) (ow_midi_auto_publish_enabled o)
    (ow_timing_offset_millis o) (ow_pending_timing_offset_millis o)
    (ow_last_midi_publish_attempt o) (ow_realtime_generation o) (ow_autoloop_executor o)
    (ow_transport_epoch_cause o) (ow_reassert_current_on_next_cue o) x
    (ow_recent_autoloop_schedules o) (ow_static_look_plans o) (ow_active_static_look o)
    (ow_static_look_transition_count o) (ow_static_look_release_count o)
    (ow_static_look_unchanged_count o) (ow_static_look_failed_count o).
Definition set_ow_recent_autoloop_schedules {P} (x : list AutoloopScheduleRecord) (o : OutputWorker P) : OutputWorker P :=
  mkOutputWorker (ow_launch_policy o) (ow_launch_gate o) (ow_provider o) (ow_midi_output o)
    (ow_midi_clock o) (ow_effect_sequence o) (ow_midi_auto_publish_enabled o)
    (ow_timing_offset_millis o) (ow_pending_timing_offset_millis o)
    (ow_last_midi_publish_attempt o) (ow_realtime_generation o) (ow_autoloop_executor o)
    (ow_transport_epoch_cause o) (ow_reassert_current_on_next_cue o)
    (ow_scheduled_future_autoloop o) x (ow_static_look_plans o) (ow_active_static_look o)
    (ow_static_look_transition_count o) (ow_static_look_release_count o)
    (ow_static_look_unchanged_count o) (ow_static_look_failed_count o).
Definition set_ow_static_look_plans {P} (x : gmap Z (gmap Z StaticLookTarget)) (o : OutputWorker P) : OutputWorker P :=
  mkOutputWorker (ow_launch_policy o) (ow_launch_gate o) (ow_provider o) (ow_midi_output o)
    (ow_midi_clock o) (ow_effect_sequence o) (ow_midi_auto_publish_enabled o)
    (ow_timing_offset_millis o) (ow_pending_timing_offset_millis o)
    (ow_last_midi_publish_attempt o) (ow_realtime_generation o) (ow_autoloop_executor o)
    (ow_transport_epoch_cause o) (ow_reassert_current_on_next_cue o)
    (ow_scheduled_future_autoloop o) (ow_recent_autoloop_schedules o) x (ow_active_static_look o)
    (ow_static_look_transition_count o) (ow_static_look_release_count o)
    (ow_static_look_unchanged_count o) (ow_static_look_failed_count o).
Definition set_ow_active_static_look {P} (x : option StaticLookTarget) (o : OutputWorker P) : OutputWorker P :=
  mkOutputWorker (ow_launch_policy o) (ow_launch_gate o) (ow_provider o) (ow_midi_output o)
    (ow_midi_clock o) (ow_effect_sequence o) (ow_midi_auto_publish_enabled o)
    (ow_timing_offset_millis o) (ow_pending_timing_offset_millis o)
    (ow_last_midi_publish_attempt o) (ow_realtime_generation o) (ow_autoloop_executor o)
    (ow_transport_epoch_cause o) (ow_reassert_current_on_next_cue o)
    (ow_scheduled_future_autoloop o) (ow_recent_autoloop_schedules o) (ow_static_look_plans o) x
    (ow_static_look_transition_count o) (ow_static_look_release_count o)
    (ow_static_look_unchanged_count o) (ow_static_look_failed_count o).
Definition set_ow_static_look_transition_count {P} (x : Z) (o : OutputWorker P) : OutputWorker P :=
  mkOutputWorker (ow_launch_policy o) (ow_launch_gate o) (ow_provider o) (ow_midi_output o)
    (ow_midi_clock o) (ow_effect_sequence o) (ow_midi_auto_publish_enabled o)
    (ow_timing_offset_millis o) (ow_pending_timing_offset_millis o)
    (ow_last_midi_publish_attempt o) (ow_realtime_generation o) (ow_autoloop_executor o)
    (ow_transport_epoch_cause o) (ow_reassert_current_on_next_cue o)
    (ow_scheduled_future_autoloop o) (ow_recent_autoloop_schedules o) (ow_static_look_plans o)
    (ow_active_static_look o) x (ow_static_look_release_count o)
    (ow_static_look_unchanged_count o) (ow_static_look_failed_count o).
Definition set_ow_static_look_release_count {P} (x : Z) (o : OutputWorker P) : OutputWorker P :=
  mkOutputWorker (ow_launch_policy o) (ow_launch_gate o) (ow_provider o) (ow_midi_output o)
    (ow_midi_clock o) (ow_effect_sequence o) (ow_midi_auto_publish_enabled o)
    (ow_timing_offset_millis o) (ow_pending_timing_offset_millis o)
    (ow_last_midi_publish_attempt o) (ow_realtime_generation o) (ow_autoloop_executor o)
    (ow_transport_epoch_cause o) (ow_reassert_current_on_next_cue o)
    (ow_scheduled_future_autoloop o) (ow_recent_autoloop_schedules o) (ow_static_look_plans o)
    (ow_active_static_look o) (ow_static_look_transition_count o) x
    (ow_static_look_unchanged_count o) (ow_static_look_failed_count o).
Definition set_ow_static_look_unchanged_count {P} (x : Z) (o : OutputWorker P) : OutputWorker P :=
  mkOutputWorker (ow_launch_policy o) (ow_launch_gate o) (ow_provider o) (ow_midi_output o)
    (ow_midi_clock o) (ow_effect_sequence o) (ow_midi_auto_publish_enabled o)
    (ow_timing_offset_millis o) (ow_pending_timing_offset_millis o)
    (ow_last_midi_publish_attempt o) (ow_realtime_generation o) (ow_autoloop_executor o)
    (ow_transport_epoch_cause o) (ow_reassert_current_on_next_cue o)
    (ow_scheduled_future_autoloop o) (ow_recent_autoloop_schedules o) (ow_static_look_plans o)
    (ow_active_static_look o) (ow_static_look_transition_count o) (ow_static_look_release_count o)
    x (ow_static_look_failed_count o).
Definition set_ow_static_look_failed_count {P} (x : Z) (o : OutputWorker P) : OutputWorker P :=
  mkOutputWorker (ow_launch_policy o) (ow_launch_gate o) (ow_provider o) (ow_midi_output o)
    (ow_midi_clock o) (ow_effect_sequence o) (ow_midi_auto_publish_enabled o)
    (ow_timing_offset_millis o) (ow_pending_timing_offset_millis o)
    (ow_last_midi_publish_attempt o) (ow_realtime_generation o) (ow_autoloop_executor o)
    (ow_transport_epoch_cause o) (ow_reassert_current_on_next_cue o)
    (ow_scheduled_future_autoloop o) (ow_recent_autoloop_schedules o) (ow_static_look_plans o)
    (ow_active_static_look o) (ow_static_look_transition_count o) (ow_static_look_release_count o)
    (ow_static_look_unchanged_count o) x.

(** The errors that the workers of the session raise. *)
Inductive SerializedRuntimeError : Type :=
| SREInvalidCapacity
| SREIngress (e : IngressError)
| SREReducer (e : ReducerError)
| SREStartupEventMissing.

Inductive EngineError : Type :=
| EngDomainRuntime (e : SerializedRuntimeError)
| EngSubmittedEventMissing
| EngOutputEffectSequenceOverflow
| EngDryRunOutput (e : DryRunOutputError)
| EngMidi (message : str)
| EngPlanner (e : PlannerError)
| EngLightPlan (e : LightPlanError)
| EngPlanMaterialization (e : PlanValidationError)
| EngMissingLibraryAutoloopResolution
| EngNoExecutableLibraryTheme
| EngPlanningEffectSequenceOverflow
| EngRevisedPlanNotAccepted.

Definition realtime_error_to_string (e : RealtimeMidiError) : str :=
  match e with
  | LaneWorkerUnavailable => lit "the realtime MIDI lane is unavailable"
  | LaneQueueSaturated => lit "the realtime MIDI lane is saturated"
  | LaneProvider error => lit "the MIDI provider failed: " ++ error
  end.

Definition clock_error_to_string (e : MidiClockError) : str :=
  match e with
  | ClockWorkerUnavailable => lit "the MIDI clock worker is unavailable"
  | ClockProvider error => lit "the MIDI clock provider failed: " ++ error
  | ClockInvalidTempo => lit "the MIDI clock BPM is outside the supported range"
  | ClockInvalidSongPosition =>
      lit "the MIDI clock song position exceeds the MIDI 1.0 range"
  end.

(** ** Timing *)

(** [Duration::MAX], at which durations saturate. *)
Definition DURATION_MAX : Z := 2 ^ 64 * 1000000000 - 1.

Definition positive_timing_delay (offset_millis : Z) : Z := Z.max offset_millis 0 * 1000000.

Definition negative_timing_advance (offset_millis : Z) : Z :=
  Z.abs (Z.min offset_millis 0) * 1000000.

Definition phrase_trigger_delay (beats_until bpm_milli offset_millis : Z) : option Z :=
  if (beats_until =? 0) || negb ((20000 <=? bpm_milli) && (bpm_milli <=? 300000)) then None
  else
    let target := Z.min (60000000000 / bpm_milli * 1000 * beats_until) DURATION_MAX in
    let delay :=
      if offset_millis <? 0 then Z.max 0 (target - negative_timing_advance offset_millis)
      else Z.min (target + positive_timing_delay offset_millis) DURATION_MAX in
    if Z.min (BANK_SETTLE_DELAY + INTEGRATION_PUMP_INTERVAL) DURATION_MAX <=? delay
    then Some delay else None.

Definition deadline_drift_exceeds_tolerance (current candidate tolerance : Z) : bool :=
  if candidate <=? current then tolerance <? current - candidate
  else tolerance <? candidate - current.

(** [deadline.checked_sub(d).unwrap_or_else(Instant::now)]: an instant is at or after the
    origin of the clock. *)
Definition bank_deadline (deadline now : Z) : Z :=
  if deadline <? BANK_SETTLE_DELAY then now else deadline - BANK_SETTLE_DELAY.

(** ** Targets *)

Definition automatic_midi_target (action : SemanticLightingAction) :
    result (option (Z * Z)) EngineError :=
  match action with
  | HoldCurrentLook => Ok None
  | ApplyLook look =>
      if U8_MAX <? look_theme_id look
      then Err (EngMidi (lit "Theme bank does not fit the MIDI profile"))
      else if U8_MAX <? look_scene_id look
      then Err (EngMidi (lit "Autoloop button does not fit the MIDI profile"))
      else Ok (Some (look_theme_id look, look_scene_id look))
  end.

Definition has_midi_target (action : SemanticLightingAction) : bool :=
  match automatic_midi_target action with Ok (Some _) => true | _ => false end.

Definition static_look_target (choice : CompiledModifierChoice) : option (Z * StaticLookTarget) :=
  if negb (bool_decide (cm_kind choice = KindAtmosphere))
     || negb (bool_decide (cm_provider_kind choice = lit "soundswitch"))
     || negb (cm_midi_channel choice =? STATIC_LOOK_CHANNEL)
     || negb ((64 <=? cm_midi_note choice) && (cm_midi_note choice <=? 95))
  then None
  else Some (cm_phrase_index choice,
             mkStaticLookTarget (cm_modifier_id choice) (cm_display_name choice)
               (cm_midi_note choice - 63)).

Definition execution_context_is_current (state : RuntimeState) (request : OutputExecutionRequest) :
    bool :=
  bool_decide (rs_operation state = OpLive)
  && bool_decide (rs_leader_deck state = Some (req_deck_id request))
  && match rs_decks state !! req_deck_id request with
     | Some deck => deck_track_load_id deck =? req_track_load_id request
     | None => false
     end
  && match rs_active_plan state with
     | Some plan =>
         (plan_id plan =? req_plan_id request)
         && (plan_revision plan =? req_plan_revision request)
         && (plan_track_load_id plan =? req_track_load_id request)
         && match plan_cues plan !! Z.to_nat (req_phrase_index request) with
            | Some cue => (cue_id cue =? req_cue_id request)
                          && bool_decide (cue_action cue = req_action request)
            | None => false
            end
     | None => false
     end.

Definition transport_epoch_cause (state : RuntimeState) (event : DomainEvent) :
    option TransportEpochCause :=
  match event with
  | Observation envelope =>
      match obs_observation envelope with
      | PlaybackPositionSeeked deck_id _ _ =>
          if bool_decide (rs_leader_deck state = Some deck_id) then Some CausePositionLanding else None
      | PlaybackStateChanged deck_id _ true =>
          if bool_decide (rs_leader_deck state = Some deck_id)
             && match rs_decks state !! deck_id with
                | Some deck => negb (deck_playing deck)
                | None => false
                end
          then Some CausePlaybackStarted else None
      | LeaderChanged deck_id _ =>
          if negb (bool_decide (rs_leader_deck state = Some deck_id))
          then Some CauseMasterHandoff else None
      | TrackLoaded deck_id _ track_load_id =>
          if bool_decide (rs_leader_deck state = Some deck_id)
             && match rs_decks state !! deck_id with
                | Some deck => negb (deck_track_load_id deck =? track_load_id)
                | None => false
                end
          then Some CauseTrackLoad else None
      | _ => None
      end
  | _ => None
  end.

(** ** The world *)

(** A turn of the lane's thread. *)
Inductive LaneTurn : Type :=
| TurnReceive (now : Z)
| TurnTimeout (now : Z) (readings : list (Z * Z)).

Definition turn_input (t : LaneTurn) : LaneInput :=
  match t with
  | TurnReceive now => InReceive now
  | TurnTimeout now readings => InTimeout now readings
  end.

Record World (P : Type) := mkWorld {
  w_worker : OutputWorker P;
  w_runtime : SerializedRuntime;
  w_turns : list (list LaneTurn);
  w_instants : nat → Z;
  w_reads : nat;
  w_inputs : list LaneInput;
  w_dispatches : list RealtimeDispatchRecord;
  w_presses : list Z;
}.
Arguments mkWorld {P}.
Arguments w_worker {P}.
Arguments w_runtime {P}.
Arguments w_turns {P}.
Arguments w_instants {P}.
Arguments w_reads {P}.
Arguments w_inputs {P}.
Arguments w_dispatches {P}.
Arguments w_presses {P}.

Section Worker.
Context {P E : Type} `{MidiSourceProvider P E}.
Implicit Types w : World P.

Notation worker A := (method (World P) EngineError A).

Definition set_worker (o : OutputWorker P) w : World P :=
  mkWorld o (w_runtime w) (w_turns w) (w_instants w) (w_reads w) (w_inputs w) (w_dispatches w) (w_presses w).
Definition set_runtime (rt : SerializedRuntime) w : World P :=
  mkWorld (w_worker w) rt (w_turns w) (w_instants w) (w_reads w) (w_inputs w) (w_dispatches w) (w_presses w).

Definition upd (f : OutputWorker P → OutputWorker P) : worker unit :=
  method_modify (λ w, set_worker (f (w_worker w)) w).
Definition ask {A} (f : OutputWorker P → A) : worker A := method_get (λ w, f (w_worker w)).
(** The outcome of a call whose error the caller handles. *)
Definition attempt {A} (m : worker A) : worker (result A EngineError) := λ w,
  let '(w, r) := m w in (w, Ok r).

(** [Instant::now()]. *)
Definition instant_now : worker Z := λ w,
  (mkWorld (w_worker w) (w_runtime w) (w_turns w) (w_instants w) (S (w_reads w)) (w_inputs w)
     (w_dispatches w) (w_presses w), Ok (w_instants w (w_reads w))).

(** *** The lane, and its thread *)

Definition lane_turns : worker unit := λ w,
  let inputs := turn_input <$> default [] (head (w_turns w)) in
  let '(l, records) := lane_run (ow_midi_output (w_worker w)) inputs in
  (mkWorld (set_ow_midi_output l (w_worker w)) (w_runtime w) (tail (w_turns w)) (w_instants w)
     (w_reads w) (w_inputs w ++ inputs) (w_dispatches w ++ records) (w_presses w), Ok tt).

Definition midi_status : worker RealtimeMidiStatus :=
  do! lane_turns then ask (λ o, lane_status (ow_midi_output o)).

(** A command that is queued without waiting. *)
Definition lane_send (command : RealtimeMidiCommand) : worker (result unit RealtimeMidiError) :=
  do! lane_turns then λ w,
    let '(l, r) := try_send command (ow_midi_output (w_worker w)) in
    (mkWorld (set_ow_midi_output l (w_worker w)) (w_runtime w) (w_turns w) (w_instants w)
       (w_reads w) (w_inputs w ++ [InTrySend command]) (w_dispatches w) (w_presses w), Ok r).

(** The press of a static look, when the call for it succeeds. *)
Definition pressed (command : RealtimeMidiCommand) (r : result unit RealtimeMidiError) : list Z :=
  match command, r with
  | CmdToggleStaticLook number, Ok _ => [number]
  | _, _ => []
  end.

(** A command whose reply is awaited. *)
Definition lane_call (command : RealtimeMidiCommand) : worker (result unit RealtimeMidiError) :=
  do! lane_turns then
  let! now := instant_now in λ w,
    let '(l, r) := synchronous (λ _, now) command (ow_midi_output (w_worker w)) in
    (mkWorld (set_ow_midi_output l (w_worker w)) (w_runtime w) (w_turns w) (w_instants w)
       (w_reads w) (w_inputs w ++ [InSynchronous (λ _, now) command]) (w_dispatches w)
       (w_presses w ++ pressed command r), Ok r).

(** [.map_err(|error| EngineError::Midi(error.to_string()))?] *)
Definition midi_or_fail (r : result unit RealtimeMidiError) : worker unit :=
  method_result (map_err (λ e, EngMidi (realtime_error_to_string e)) r).

Definition bump_counter (get : OutputWorker P → Z) (set : Z → OutputWorker P → OutputWorker P) :
    worker unit := upd (λ o, set (saturating_add_u64 (get o) 1) o).

Definition on_executor (f : AutoloopCueExecutor → AutoloopCueExecutor) : worker unit :=
  upd (λ o, set_ow_autoloop_executor (f (ow_autoloop_executor o)) o).

Definition on_gate (f : LaunchGate → LaunchGate) : worker unit :=
  upd (λ o, set_ow_launch_gate (f (ow_launch_gate o)) o).

(** *** Static looks *)

(** The choices of a plan as a map: a later choice for a phrase replaces an earlier one. *)
Definition static_look_choices (compiled : option CompiledLightPlan) : gmap Z StaticLookTarget :=
  foldl (λ m '(phrase, target), <[phrase := target]> m) ∅
    (omap static_look_target (from_option clp_modifier_choices [] compiled)).

Definition oldest_plan (plans : gmap Z (gmap Z StaticLookTarget)) : option Z :=
  head (sort_by_key id (map_to_list plans).*1).

(** [while self.static_look_plans.len() > LIBRARY_CONTEXT_CAPACITY]; every round removes an
    entry, so as many rounds as there are entries are enough. *)
Fixpoint evict_oldest (rounds : nat) (plans : gmap Z (gmap Z StaticLookTarget)) :
    gmap Z (gmap Z StaticLookTarget) :=
  match rounds with
  | O => plans
  | S rounds =>
      if (LIBRARY_CONTEXT_CAPACITY <? size plans)%nat then
        match oldest_plan plans with
        | None => plans
        | Some oldest => evict_oldest rounds (delete oldest plans)
        end
      else plans
  end.

Definition synchronize_static_look_plan (track_load_id : TrackLoadId)
    (compiled : option CompiledLightPlan) : worker unit :=
  let choices := static_look_choices compiled in
  do! upd (λ o, set_ow_static_look_plans
        (if bool_decide (choices = ∅) then delete track_load_id (ow_static_look_plans o)
         else <[track_load_id := choices]> (ow_static_look_plans o)) o) then
  upd (λ o, set_ow_static_look_plans
        (evict_oldest (size (ow_static_look_plans o)) (ow_static_look_plans o)) o).

Definition remove_static_look_plan (track_load_id : TrackLoadId) : worker unit :=
  upd (λ o, set_ow_static_look_plans (delete track_load_id (ow_static_look_plans o)) o).

Definition count_failed : worker unit :=
  bump_counter ow_static_look_failed_count set_ow_static_look_failed_count.

Definition ensure_lighting_midi : worker unit :=
  let! enabled := ask ow_midi_auto_publish_enabled in
  if negb enabled then method_ret tt
  else
    let! status := midi_status in
    if bool_decide (mss_state (rms_source status) = Midi.SourceReady) then method_ret tt
    else
      let! now := instant_now in
      let! last := ask ow_last_midi_publish_attempt in
      if match last with
         | Some attempt => duration_since now attempt <? 1000000000
         | None => false
         end
      then method_ret tt
      else
        do! upd (set_ow_last_midi_publish_attempt (Some now)) then
        let! r := lane_call CmdPublish in
        midi_or_fail r.

Definition desired_static_look (request : OutputExecutionRequest) (o : OutputWorker P) :
    option StaticLookTarget :=
  choices ← ow_static_look_plans o !! req_track_load_id request;
  choices !! req_phrase_index request.

Definition transition_target (transition : StaticLookTransition) : StaticLookTarget :=
  match transition with SLActivate target | SLRelease target => target end.

Definition execute_static_look_transition (request : OutputExecutionRequest) : worker unit :=
  let! desired := ask (desired_static_look request) in
  let! active := ask ow_active_static_look in
  match static_look_transition active desired with
  | None =>
      do! (match desired with
           | Some _ => upd (set_ow_active_static_look desired)
           | None => method_ret tt
           end) then
      bump_counter ow_static_look_unchanged_count set_ow_static_look_unchanged_count
  | Some transition =>
      let! ensured := attempt ensure_lighting_midi in
      let! ready :=
        (match ensured with
         | Err _ => method_ret false
         | Ok _ =>
             let! status := midi_status in
             method_ret (bool_decide (mss_state (rms_source status) = Midi.SourceReady))
         end) in
      if negb ready then count_failed
      else
        let! r := lane_call (CmdToggleStaticLook (sl_number (transition_target transition))) in
        match r with
        | Ok _ =>
            do! (match transition with
                 | SLRelease _ =>
                     bump_counter ow_static_look_release_count set_ow_static_look_release_count
                 | SLActivate _ =>
                     bump_counter ow_static_look_transition_count
                       set_ow_static_look_transition_count
                 end) then
            upd (set_ow_active_static_look desired)
        | Err _ => count_failed
        end
  end.

Definition toggle_static_look_manually (number : Z) : worker unit :=
  let! r := lane_call (CmdToggleStaticLook number) in
  do! midi_or_fail r then
  upd (λ o, set_ow_active_static_look
        (match ow_active_static_look o with
         | Some active =>
             if sl_number active =? number then None
             else Some (mkStaticLookTarget (lit "manual-static-look-" ++ show_u number)
                          (lit "Static Look " ++ show_u number) number)
         | None => Some (mkStaticLookTarget (lit "manual-static-look-" ++ show_u number)
                           (lit "Static Look " ++ show_u number) number)
         end) o).

Definition release_active_static_look : worker unit :=
  let! active := ask ow_active_static_look in
  match active with
  | None => method_ret tt
  | Some active =>
      let! r := lane_call (CmdToggleStaticLook (sl_number active)) in
      match r with
      | Ok _ =>
          do! upd (set_ow_active_static_look None) then
          bump_counter ow_static_look_release_count set_ow_static_look_release_count
      | Err _ => count_failed
      end
  end.

(** *** Generations and deadlines *)

Definition begin_realtime_generation : worker (option Z) :=
  let! generation := ask ow_realtime_generation in
  match checked_add_u64 generation 1 with
  | None => method_ret None
  | Some next =>
      do! upd (set_ow_realtime_generation next) then
      let! r := lane_send (CmdSetGeneration next) in
      method_ret (match r with Ok _ => Some next | Err _ => None end)
  end.

Definition invalidate_autoloop_deadline : worker unit :=
  let! _generation := begin_realtime_generation in
  let! _cancelled := lane_send CmdCancelAll in
  do! on_executor cancel_pending then
  upd (set_ow_scheduled_future_autoloop None).

(** The launch context of an identity. *)
Definition launch_context (identity : AutoloopExecutionIdentity) : LaunchContext :=
  mkLaunchContext (id_deck_id identity) (id_track_load_id identity) (id_plan_revision identity)
    (id_execution_epoch identity).

Definition complete_emitted : worker unit :=
  let! status := midi_status in
  on_executor (complete_if_emitted (rms_emitted_count status)).

Definition service_pending_autoloop : worker unit :=
  let! _status := midi_status in
  do! complete_emitted then
  let! state := ask (λ o, x_state (ow_autoloop_executor o)) in
  match state with
  | XCompleted identity _ =>
      let! policy := ask ow_launch_policy in
      on_gate (λ g, (gate_did_launch policy (launch_context identity) (id_phrase_index identity) g).1)
  | _ => method_ret tt
  end.

Definition cue_boundaries (plan : LightingPlan) : list LaunchBoundary :=
  (λ cue, mkLaunchBoundary (cue_phrase_index cue) (cue_start_beat cue)) <$>
    List.filter (λ cue, has_midi_target (cue_action cue)) (plan_cues plan).

Definition plan_for_deck (state : RuntimeState) (deck_id : DeckId) (deck : DeckState) :
    option LightingPlan :=
  match rs_active_plan state with
  | Some plan =>
      if (plan_deck_id plan =? deck_id) && (plan_track_load_id plan =? deck_track_load_id deck)
      then Some plan else None
  | None => None
  end.

Definition update_initial_launch (state : RuntimeState) : worker unit :=
  let! policy := ask ow_launch_policy in
  if bool_decide (policy = Immediate) then method_ret tt
  else
    match rs_leader_deck state with
    | None => on_gate gate_cancel_pending
    | Some deck_id =>
        match rs_decks state !! deck_id with
        | None => on_gate gate_cancel_pending
        | Some deck =>
            match plan_for_deck state deck_id deck with
            | None => on_gate gate_cancel_pending
            | Some plan =>
                let! epoch := ask (λ o, x_execution_epoch (ow_autoloop_executor o)) in
                on_gate (gate_observe policy
                  (mkLaunchContext deck_id (plan_track_load_id plan) (plan_revision plan) epoch)
                  (bool_decide (rs_operation state = OpLive) && deck_playing deck)
                  (deck_beat deck) (cue_boundaries plan))
            end
        end
    end.

Definition initial_launch_allows (identity : AutoloopExecutionIdentity) (o : OutputWorker P) : bool :=
  gate_allows (ow_launch_policy o) (launch_context identity) (id_phrase_index identity)
    (ow_launch_gate o).

Definition begin_autoloop_execution_epoch (cause : TransportEpochCause) : worker unit :=
  let! executor := ask ow_autoloop_executor in
  match begin_execution_epoch executor with
  | (_, None) => method_fail (EngMidi (lit "AutoLoop execution epoch overflowed"))
  | (executor, Some _) =>
      do! upd (set_ow_autoloop_executor executor) then
      let! r := lane_send CmdCancelAll in
      do! midi_or_fail r then
      do! upd (set_ow_transport_epoch_cause (Some cause)) then
      do! upd (set_ow_reassert_current_on_next_cue true) then
      upd (set_ow_scheduled_future_autoloop None)
  end.

Definition record_autoloop_schedule (record : AutoloopScheduleRecord) : worker unit :=
  upd (λ o, set_ow_recent_autoloop_schedules
        (push_bounded 128 (ow_recent_autoloop_schedules o) record) o).

Definition initial_phrase_launch (o : OutputWorker P) : bool :=
  bool_decide (ow_launch_policy o = OnPhraseStart)
  && match gate_state (ow_launch_gate o) with Waiting _ _ => true | _ => false end.

(** The bank, if it has to be selected, then the Autoloop; [None] when the lane refused
    one of them, and otherwise the number of actions. *)
Definition schedule_bank_action (select_bank : bool) (generation bank deadline : Z) :
    worker (option Z) :=
  if select_bank then
    let! r := lane_send (CmdSchedule (mkScheduled generation deadline (ActSelectBank bank))) in
    method_ret (match r with Ok _ => Some 1 | Err _ => None end)
  else method_ret (Some 0).

Definition schedule_autoloop_action (generation : Z) (target : AutoloopTarget) (deadline : Z) :
    worker (result unit RealtimeMidiError) :=
  lane_send (CmdSchedule (mkScheduled generation deadline
    (ActTriggerAutoloop (bank_number target) (autoloop_number target)))).

Definition execute_autoloop (request : OutputExecutionRequest) (bank autoloop : Z) : worker unit :=
  do! complete_emitted then
  let! lane_before := midi_status in
  let! executor := ask ow_autoloop_executor in
  let scheduled := AutoloopExecutor.schedule request (mkAutoloopTarget bank autoloop)
    (mss_active_bank (rms_source lane_before)) executor in
  do! upd (set_ow_autoloop_executor scheduled.1) then
  match scheduled.2 with
  | None => method_ret tt
  | Some schedule =>
      let! begun := begin_realtime_generation in
      match begun with
      | None => on_executor (fail (sch_identity schedule))
      | Some generation =>
          let! now := instant_now in
          let! immediate_landing := ask ow_reassert_current_on_next_cue in
          do! upd (set_ow_reassert_current_on_next_cue false) then
          do! upd (set_ow_scheduled_future_autoloop None) then
          let! waiting := ask initial_phrase_launch in
          let! offset := ask ow_timing_offset_millis in
          let configured_delay := if immediate_landing && negb waiting then 0
                                  else positive_timing_delay offset in
          let! actions := schedule_bank_action (sch_select_bank schedule) generation bank now in
          match actions with
          | None => on_executor (fail (sch_identity schedule))
          | Some actions =>
              do! on_executor (mark_bank_prepared schedule) then
              let deadline := now + (if sch_select_bank schedule
                                     then Z.max BANK_SETTLE_DELAY configured_delay
                                     else configured_delay) in
              do! record_autoloop_schedule (mkAutoloopScheduleRecord generation
                    (sch_identity schedule) (mkAutoloopTarget bank autoloop) None now deadline
                    offset) then
              let! r := schedule_autoloop_action generation (mkAutoloopTarget bank autoloop)
                          deadline in
              match r with
              | Err _ =>
                  let! _cancelled := lane_send CmdCancelAll in
                  on_executor (fail (sch_identity schedule))
              | Ok _ =>
                  on_executor (mark_triggered schedule
                    (saturating_add_u64 (rms_emitted_count lane_before) (actions + 1)))
              end
          end
      end
  end.

(** *** The next Autoloop, prepared from an exact beat *)

Definition cancel_future_autoloop_deadline : worker unit :=
  let! taken := ask ow_scheduled_future_autoloop in
  do! upd (set_ow_scheduled_future_autoloop None) then
  match taken with
  | None => method_ret tt
  | Some scheduled =>
      let! state := ask (λ o, x_state (ow_autoloop_executor o)) in
      if match state with
         | XCompleted identity _ => bool_decide (identity = sfa_identity scheduled)
         | _ => false
         end
      then method_ret tt
      else
        let! _generation := begin_realtime_generation in
        let! _cancelled := lane_send CmdCancelAll in
        on_executor cancel_pending
  end.

Definition retime_future_autoloop (scheduled : ScheduledFutureAutoloop) (deadline bpm : Z) :
    worker unit :=
  if negb (deadline_drift_exceeds_tolerance (sfa_deadline scheduled) deadline
             AUTOLOOP_DEADLINE_REPLACEMENT_TOLERANCE)
  then method_ret tt
  else
    let! now := instant_now in
    let! r := lane_send (CmdRetimePending (sfa_generation scheduled) deadline
                           (bank_deadline deadline now)) in
    match r with
    | Err _ => method_ret tt
    | Ok _ =>
        do! on_executor (λ x, (record_pending_retime (sfa_identity scheduled) x).1) then
        upd (set_ow_scheduled_future_autoloop
               (Some (mkScheduledFutureAutoloop (sfa_generation scheduled) (sfa_identity scheduled)
                        (sfa_target scheduled) deadline bpm)))
    end.

Definition scheduling_timing_offset_millis (o : OutputWorker P) : Z :=
  default (ow_timing_offset_millis o) (ow_pending_timing_offset_millis o).

(** The admitted send whose boundary has come: the cue of the scheduled Autoloop. *)
Definition admitted_cue (o : OutputWorker P) (deck_id : DeckId) (plan : LightingPlan) (beat : Z) :
    option (ScheduledFutureAutoloop * LightingCue) :=
  match ow_scheduled_future_autoloop o with
  | None => None
  | Some scheduled =>
      let identity := sfa_identity scheduled in
      if (id_deck_id identity =? deck_id)
         && (id_track_load_id identity =? plan_track_load_id plan)
         && (id_plan_revision identity =? plan_revision plan)
         && match x_state (ow_autoloop_executor o) with
            | XTriggered triggered _ _ => bool_decide (triggered = identity)
            | _ => false
            end
      then
        cue ← List.find (λ cue, (cue_phrase_index cue =? id_phrase_index identity)
                                && (cue_start_beat cue <=? beat)) (plan_cues plan);
        Some (scheduled, cue)
      else None
  end.

(** The cue within the forecast horizon after a beat. *)
Definition upcoming_cue (waiting : bool) (plan : LightingPlan) (beat : Z) : option LightingCue :=
  List.find (λ cue,
    (beat <? cue_start_beat cue)
    && (Z.max 0 (cue_start_beat cue - beat) <=? AUTOLOOP_FORECAST_HORIZON_BEATS)
    && (negb waiting || has_midi_target (cue_action cue))) (plan_cues plan).

(** A new deadline for an Autoloop that is already prepared. *)
Definition refresh_future_autoloop (existing : ScheduledFutureAutoloop) (deadline bpm : Z) :
    worker unit :=
  let! state := ask (λ o, x_state (ow_autoloop_executor o)) in
  if match state with
     | XCompleted completed _ => bool_decide (completed = sfa_identity existing)
     | _ => false
     end
  then method_ret tt
  else if negb (deadline_drift_exceeds_tolerance (sfa_deadline existing) deadline
                  AUTOLOOP_DEADLINE_REPLACEMENT_TOLERANCE)
  then method_ret tt
  else retime_future_autoloop existing deadline bpm.

(** The rest of [observe_exact_live_beat], once the cue and its deadline are known. *)
Definition prepare_future_autoloop (identity : AutoloopExecutionIdentity) (target : AutoloopTarget)
    (deadline beat bpm offset : Z) : worker unit :=
  let! lane_before := midi_status in
  let! executor := ask ow_autoloop_executor in
  let scheduled := schedule_identity identity target
    (mss_active_bank (rms_source lane_before)) executor in
  do! upd (set_ow_autoloop_executor scheduled.1) then
  match scheduled.2 with
  | None => method_ret tt
  | Some schedule =>
      let! begun := begin_realtime_generation in
      match begun with
      | None => on_executor (fail identity)
      | Some generation =>
          let! now := instant_now in
          let! actions := schedule_bank_action (sch_select_bank schedule) generation
                            (bank_number target) (bank_deadline deadline now) in
          match actions with
          | None => on_executor (fail identity)
          | Some actions =>
              do! on_executor (mark_bank_prepared schedule) then
              let! r := schedule_autoloop_action generation target deadline in
              match r with
              | Err _ =>
                  let! _cancelled := lane_send CmdCancelAll in
                  on_executor (fail identity)
              | Ok _ =>
                  do! on_executor (mark_triggered schedule
                        (saturating_add_u64 (rms_emitted_count lane_before) (actions + 1))) then
                  do! upd (set_ow_scheduled_future_autoloop
                        (Some (mkScheduledFutureAutoloop generation identity target deadline bpm))) then
                  let! scheduled_at := instant_now in
                  record_autoloop_schedule (mkAutoloopScheduleRecord generation identity target
                    (Some beat) scheduled_at deadline offset)
              end
          end
      end
  end.

Definition observe_exact_live_beat (state : RuntimeState) (deck_id : DeckId) (absolute_beat : Z) :
    worker unit :=
  do! update_initial_launch state then
  do! complete_emitted then
  let! offset := ask scheduling_timing_offset_millis in
  let! waiting := ask initial_phrase_launch in
  if negb (bool_decide (rs_operation state = OpLive))
     || negb (bool_decide (rs_leader_deck state = Some deck_id))
  then cancel_future_autoloop_deadline
  else
    match rs_decks state !! deck_id with
    | None => cancel_future_autoloop_deadline
    | Some deck =>
        if negb (deck_playing deck) then cancel_future_autoloop_deadline
        else
          match plan_for_deck state deck_id deck with
          | None => cancel_future_autoloop_deadline
          | Some plan =>
              let! admitted := ask (λ o, admitted_cue o deck_id plan absolute_beat) in
              match admitted with
              | Some (scheduled, cue) =>
                  if cue_start_beat cue =? absolute_beat then
                    let! now := instant_now in
                    retime_future_autoloop scheduled (now + Z.max offset 0 * 1000000)
                      (deck_effective_bpm_milli deck)
                  else method_ret tt
              | None =>
                  match upcoming_cue waiting plan absolute_beat with
                  | None => cancel_future_autoloop_deadline
                  | Some cue =>
                      match automatic_midi_target (cue_action cue) with
                      | Ok (Some (bank, autoloop)) =>
                          match phrase_trigger_delay (Z.max 0 (cue_start_beat cue - absolute_beat))
                                  (deck_effective_bpm_milli deck) offset with
                          | None => method_ret tt
                          | Some trigger_delay =>
                              let! epoch := ask (λ o, x_execution_epoch (ow_autoloop_executor o)) in
                              let identity := mkAutoloopExecutionIdentity epoch deck_id
                                (plan_track_load_id plan) (plan_revision plan)
                                (cue_phrase_index cue) in
                              let! allowed := ask (initial_launch_allows identity) in
                              if negb allowed then method_ret tt
                              else
                                let! now := instant_now in
                                let deadline := now + trigger_delay in
                                let bpm := deck_effective_bpm_milli deck in
                                let! future := ask ow_scheduled_future_autoloop in
                                match future with
                                | Some existing =>
                                    if bool_decide (sfa_identity existing = identity)
                                    then refresh_future_autoloop existing deadline bpm
                                    else prepare_future_autoloop identity
                                           (mkAutoloopTarget bank autoloop) deadline absolute_beat
                                           bpm offset
                                | None => prepare_future_autoloop identity
                                            (mkAutoloopTarget bank autoloop) deadline absolute_beat
                                            bpm offset
                                end
                          end
                      | _ => cancel_future_autoloop_deadline
                      end
                  end
              end
          end
    end.

(** *** Effects *)

Definition submit_and_process (event : DomainEvent) : worker ProcessResult := λ w,
  let '(rt, submitted) := submit event (w_runtime w) in
  match submitted with
  | Err e => (set_runtime rt w, Err (EngDomainRuntime (SREIngress e)))
  | Ok _ =>
      let '(rt, processed) := process_next rt in
      (set_runtime rt w,
       match processed with
       | Err e => Err (EngDomainRuntime (SREReducer e))
       | Ok None => Err EngSubmittedEventMissing
       | Ok (Some processed) => Ok processed
       end)
  end.

Definition execute_provider (request : OutputExecutionRequest) : worker OutputEffectResult :=
  let! p := ask ow_provider in
  let executed := execute request (req_scheduled_at request) p in
  do! upd (set_ow_provider executed.1) then
  method_result (map_err EngDryRunOutput executed.2).

(** The MIDI of a cue that is executed. *)
Definition drive_midi (request : OutputExecutionRequest) : worker unit :=
  let! target := method_result (automatic_midi_target (req_action request)) in
  match target with
  | None => method_ret tt
  | Some (bank, autoloop) =>
      let! _ensured := attempt ensure_lighting_midi in
      let! status := midi_status in
      if bool_decide (mss_state (rms_source status) = Midi.SourceReady)
      then execute_autoloop request bank autoloop
      else method_ret tt
  end.

Definition execute_cue (request : OutputExecutionRequest) : worker OutputEffectResult :=
  let! is_current := method_get (λ w, execution_context_is_current (rt_state (w_runtime w)) request) in
  let! state := method_get (λ w, rt_state (w_runtime w)) in
  do! update_initial_launch state then
  let! launch_allowed := ask (λ o, initial_launch_allows
        (identity_from_request request (x_execution_epoch (ow_autoloop_executor o))) o) in
  if is_current && launch_allowed then
    let! result := execute_provider request in
    do! drive_midi request then
    do! execute_static_look_transition request then
    method_ret result
  else
    method_ret (mkOutputEffectResult request (req_scheduled_at request) StatusSkipped
      (if is_current then InitialLaunchDeferred else StaleExecutionContext)).

Definition close_output : worker unit :=
  do! release_active_static_look then
  let! _cancelled := lane_send CmdCancelAll in
  on_executor cancel_pending.

Definition perform_effect (effect : Effect) : worker (EffectResult * MonotonicTime) :=
  match effect with
  | EnsureOutputClosed _ =>
      do! close_output then method_ret (OutputGateClosed, 0)
  | ExecuteCue request =>
      let! result := execute_cue request in
      method_ret (OutputEffectRecorded result, oer_actual_at result)
  end.

Definition next_effect_sequence : worker Z :=
  let! sequence := ask ow_effect_sequence in
  match checked_add_u64 sequence 1 with
  | None => method_fail EngOutputEffectSequenceOverflow
  | Some next => do! upd (set_ow_effect_sequence next) then method_ret next
  end.

Definition report_effect (sequence : Z) (result : EffectResult) (completed_at : MonotonicTime) :
    worker unit :=
  do! submit_and_process (EffectResultEvent
        (mkEffectResultEnvelope sequence 2 sequence completed_at result)) then
  method_ret tt.

Fixpoint process_effects (effects : list Effect) : worker unit :=
  match effects with
  | [] => method_ret tt
  | effect :: effects =>
      let! performed := perform_effect effect in
      let! sequence := next_effect_sequence in
      do! report_effect sequence performed.1 performed.2 then
      process_effects effects
  end.

Definition process_domain_event (event : DomainEvent) : worker unit :=
  let! processed := submit_and_process event in
  process_effects (pr_effects processed).

(** *** Timing and publication *)

Definition request_timing_offset_millis (millis : Z) (defer_until_phrase : bool) : worker unit :=
  let requested := Z.max (-250) (Z.min millis 250) in
  let! current := ask ow_timing_offset_millis in
  if defer_until_phrase && negb (requested =? current)
  then upd (set_ow_pending_timing_offset_millis (Some requested))
  else
    do! upd (set_ow_timing_offset_millis requested) then
    upd (set_ow_pending_timing_offset_millis None).

Definition activate_pending_timing_offset : worker unit :=
  let! pending := ask ow_pending_timing_offset_millis in
  do! upd (set_ow_pending_timing_offset_millis None) then
  match pending with
  | Some pending => upd (set_ow_timing_offset_millis pending)
  | None => method_ret tt
  end.

(** A call of the clock worker; its thread is modelled with the clock. *)
Definition clock_method (f : (nat → Z) → MidiClock P → MidiClock P * result unit MidiClockError) :
    worker (result unit MidiClockError) :=
  let! now := instant_now in
  let! k := ask ow_midi_clock in
  let called := f (λ _, now) k in
  do! upd (set_ow_midi_clock called.1) then
  method_ret called.2.

Definition clock_or_fail (r : result unit MidiClockError) : worker unit :=
  method_result (map_err (λ e, EngMidi (clock_error_to_string e)) r).

Definition publish_midi : worker unit :=
  do! upd (set_ow_midi_auto_publish_enabled true) then
  let! now := instant_now in
  do! upd (set_ow_last_midi_publish_attempt (Some now)) then
  let! r := lane_call CmdPublish in
  do! midi_or_fail r then
  let! c := clock_method MidiClock_publish in
  clock_or_fail c.

Definition stop_midi : worker unit :=
  do! release_active_static_look then
  do! upd (set_ow_midi_auto_publish_enabled false) then
  do! upd (set_ow_last_midi_publish_attempt None) then
  let! _stopped := lane_call CmdStop in
  let! c := clock_method MidiClock_stop in
  clock_or_fail c.

(** *** Runs *)

Definition OutputWorker_new (lane_provider clock_provider : P) : OutputWorker P :=
  mkOutputWorker Immediate LaunchGate_default DryRun_default (lane_new lane_provider)
    (MidiClock_new clock_provider) 0 false 0 None None 0 AutoloopCueExecutor_default None false
    None [] ∅ None 0 0 0 0.

(** What the engine calls the worker for. *)
Inductive WorkerOp : Type :=
| OpDomainEvent (event : DomainEvent)
| OpExactBeat (deck_id : DeckId) (beat : Z)
| OpServicePending
| OpBeginEpoch (cause : TransportEpochCause)
| OpInvalidateDeadline
| OpStaticLookPlan (track_load_id : TrackLoadId) (compiled : option CompiledLightPlan)
| OpRemoveStaticLookPlan (track_load_id : TrackLoadId)
| OpToggleManually (number : Z)
| OpRequestOffset (millis : Z) (defer_until_phrase : bool)
| OpActivateOffset
| OpEnsureMidi
| OpPublishMidi
| OpStopMidi
| OpArmLaunch
| OpCancelLaunch
| OpSetLaunchPolicy (policy : LaunchPolicy).

Definition worker_op (op : WorkerOp) : worker unit :=
  match op with
  | OpDomainEvent event => process_domain_event event
  | OpExactBeat deck_id beat =>
      let! state := method_get (λ w, rt_state (w_runtime w)) in
      observe_exact_live_beat state deck_id beat
  | OpServicePending => service_pending_autoloop
  | OpBeginEpoch cause => begin_autoloop_execution_epoch cause
  | OpInvalidateDeadline => invalidate_autoloop_deadline
  | OpStaticLookPlan track_load_id compiled => synchronize_static_look_plan track_load_id compiled
  | OpRemoveStaticLookPlan track_load_id => remove_static_look_plan track_load_id
  | OpToggleManually number => toggle_static_look_manually number
  | OpRequestOffset millis defer => request_timing_offset_millis millis defer
  | OpActivateOffset => activate_pending_timing_offset
  | OpEnsureMidi => ensure_lighting_midi
  | OpPublishMidi => publish_midi
  | OpStopMidi => stop_midi
  | OpArmLaunch => on_gate gate_arm
  | OpCancelLaunch => on_gate gate_cancel_pending
  | OpSetLaunchPolicy policy => upd (set_ow_launch_policy policy)
  end.

(** A run: an operation that fails leaves what it did, and the next one follows. *)
Definition worker_run (w : World P) (ops : list WorkerOp) : World P :=
  foldl (λ w op, (worker_op op w).1) w ops.
End Worker.
