(* ===== verification/OutputWorkerProps.v ===== *)
(** * What the output worker guarantees

    For every interleaving of the engine's calls with the thread of the realtime lane:
    at most one Autoloop and one bank are sent per generation, a bank settles before its
    Autoloop, closing the output silences what is pending, the remembered static look is
    the one the lighting software shows, and every effect is answered. *)

From stdpp Require Import prelude list gmap strings.
From Stdlib Require Import ZArith Lia.
From S2P Require Import Prelude.
From S2P Require Import Track.
From S2P Require Import Plan.
From S2P Require Import Event.
From S2P Require Import State.
From S2P Require Import Reducer.
From S2P Require Import Demo.
From S2P Require Import Runtime.
From S2P Require Import LightPlans.
From S2P Require Import AutoloopExecutor.
From S2P Require Import Output.
From S2P Require Import LaunchPolicy.
From S2P Require Import Midi.
From S2P Require Import MidiLane.
From S2P Require Import MidiLaneProps.
From S2P Require Import MidiClock.
From S2P Require Import OutputWorker.
Open Scope Z_scope.

(** ** The recorded run of the lane *)

Section Worker.
Context {P E : Type} `{MidiSourceProvider P E}.
Implicit Types (w : World (Traced P)).

Notation world := (World (Traced P)).
Notation worker A := (method world EngineError A).
Notation lane w := (ow_midi_output (w_worker w)).

Lemma lane_run_app (l : Lane (Traced P)) (i1 i2 : list LaneInput) :
  lane_run l (i1 ++ i2) =
    (let '(l1, r1) := lane_run l i1 in let '(l2, r2) := lane_run l1 i2 in (l2, r1 ++ r2)).
Proof.
  revert l. induction i1 as [|i i1 IH]; intros l; simpl.
  { by destruct (lane_run l i2). }
  destruct (lane_step l i) as [l1 r1]. rewrite IH. destruct (lane_run l1 i1) as [l2 r2].
  destruct (lane_run l2 i2) as [l3 r3]. by rewrite app_assoc.
Qed.

(** The commands given to the lane, the generation of the worker and the clock: what the
    worker is responsible for. *)
Definition input_command (i : LaneInput) : option RealtimeMidiCommand :=
  match i with InTrySend command | InSynchronous _ command => Some command | _ => None end.

Definition commands w : list RealtimeMidiCommand := omap input_command (w_inputs w).

Definition view w : list RealtimeMidiCommand * Z * (nat → Z) :=
  (commands w, ow_realtime_generation (w_worker w), w_instants w).

(** The lane is where its recorded inputs lead, with the recorded dispatches. *)
Definition recorded (l0 : Lane (Traced P)) w : Prop :=
  lane_run l0 (w_inputs w) = (lane w, w_dispatches w).

(** A method that gives no command and leaves the generation. *)
Definition framed {A} (m : worker A) : Prop :=
  ∀ w, view (m w).1 = view w ∧ ∀ l0, recorded l0 w → recorded l0 (m w).1.

Lemma framed_bind {A B} (m : worker A) (k : A → worker B) :
  framed m → (∀ a, framed (k a)) → framed (method_bind m k).
Proof.
  intros Hm Hk w. unfold method_bind. destruct (Hm w) as [Hv Hr].
  destruct (m w) as [w1 [a|e]]; simpl in *; [|done].
  destruct (Hk a w1) as [Hv' Hr']. split; [congruence|auto].
Qed.

Lemma framed_turns : framed (A:=unit) lane_turns.
Proof.
  intros w. unfold lane_turns. set (turns := default [] _).
  destruct (lane_run (lane w) (turn_input <$> turns)) as [l r] eqn:Er. split.
  - unfold view, commands. simpl. rewrite omap_app.
    assert (omap input_command (turn_input <$> turns) = []) as ->; [|by rewrite app_nil_r].
    clear. induction turns as [|[] turns IH]; done.
  - intros l0 Hw. unfold recorded in *. simpl. by rewrite lane_run_app, Hw, Er.
Qed.

(** A command, however it is sent. *)
Definition gives {A} (m : worker A) (command : RealtimeMidiCommand) : Prop :=
  ∀ w, view (m w).1 = (commands w ++ [command], ow_realtime_generation (w_worker w), w_instants w) ∧
       ∀ l0, recorded l0 w → recorded l0 (m w).1.

Lemma gives_send command : gives (lane_send command) command.
Proof.
  intros w. unfold lane_send, method_bind. destruct (framed_turns w) as [Hv Hr].
  destruct (lane_turns w) as [w1 [[]|e]] eqn:Et; [|by unfold lane_turns in Et; destruct (lane_run _ _)].
  simpl in Hv, Hr. destruct (try_send command (lane w1)) as [l r] eqn:Er. split.
  - unfold view in *. injection Hv as Hc Hg Hi. unfold commands in *. simpl. rewrite omap_app. simpl.
    by rewrite Hc, Hg, Hi.
  - intros l0 Hw. specialize (Hr l0 Hw). unfold recorded in *. simpl.
    rewrite lane_run_app, Hr. simpl. rewrite Er. simpl. by rewrite app_nil_r.
Qed.

Lemma gives_call command : gives (lane_call command) command.
Proof.
  intros w. unfold lane_call, method_bind. destruct (framed_turns w) as [Hv Hr].
  destruct (lane_turns w) as [w1 [[]|e]] eqn:Et; [|by unfold lane_turns in Et; destruct (lane_run _ _)].
  simpl in Hv, Hr. set (now := w_instants w1 (w_reads w1)). cbn [instant_now fst snd].
  simpl. fold now. destruct (synchronous (λ _, now) command (lane w1)) as [l r] eqn:Er. split.
  - unfold view in *. injection Hv as Hc Hg Hi. unfold commands in *. simpl. rewrite omap_app. simpl.
    by rewrite Hc, Hg, Hi.
  - intros l0 Hw. specialize (Hr l0 Hw). unfold recorded in *. simpl.
    rewrite lane_run_app, Hr. simpl. rewrite Er. simpl. by rewrite app_nil_r.
Qed.

(** ** Requests: one Autoloop and one bank per generation, the bank first *)

Definition request_kind (command : RealtimeMidiCommand) : option (Z * RealtimeMidiActionKind) :=
  match command with
  | CmdSchedule item => Some (sch_generation item, (realtime_action_identity (sch_action item)).1)
  | _ => None
  end.

Definition kinds (cs : list RealtimeMidiCommand) : list (Z * RealtimeMidiActionKind) :=
  omap request_kind cs.

(** Every bank is selected early enough before the Autoloop of its generation, and so it
    is when both are moved. *)
Definition settled (cs : list RealtimeMidiCommand) : Prop :=
  (∀ g d1 b d2 b' a, CmdSchedule (mkScheduled g d1 (ActSelectBank b)) ∈ cs →
     CmdSchedule (mkScheduled g d2 (ActTriggerAutoloop b' a)) ∈ cs →
     d1 + BANK_SETTLE_DELAY ≤ d2) ∧
  (∀ g d b, CmdRetimePending g d b ∈ cs → b + BANK_SETTLE_DELAY ≤ d).

Definition discipline (v : list RealtimeMidiCommand * Z * (nat → Z)) : Prop :=
  let '(cs, g, clock) := v in
  NoDup (kinds cs) ∧ Forall (λ k, k.1 ≤ g) (kinds cs) ∧ settled cs ∧
  ∀ n, BANK_SETTLE_DELAY ≤ clock n.

(** A generation for which nothing was requested, and one whose Autoloop may be requested
    for a deadline. *)
Definition fresh_generation (g : Z) (v : list RealtimeMidiCommand * Z * (nat → Z)) : Prop :=
  discipline v ∧ v.1.2 = g ∧ Forall (λ k, k.1 < g) (kinds v.1.1).

Definition ready (g deadline : Z) (v : list RealtimeMidiCommand * Z * (nat → Z)) : Prop :=
  discipline v ∧ v.1.2 = g ∧ (g, ActionAutoloop) ∉ kinds v.1.1 ∧
  ∀ d b, CmdSchedule (mkScheduled g d (ActSelectBank b)) ∈ v.1.1 → d + BANK_SETTLE_DELAY ≤ deadline.

Lemma kinds_app cs ds : kinds (cs ++ ds) = kinds cs ++ kinds ds.
Proof. apply omap_app. Qed.

Lemma kinds_elem item cs :
  CmdSchedule item ∈ cs →
  (sch_generation item, (realtime_action_identity (sch_action item)).1) ∈ kinds cs.
Proof. intros Hin. apply list_elem_of_omap. by exists (CmdSchedule item). Qed.

Definition plain_command (command : RealtimeMidiCommand) : bool :=
  match command with CmdSchedule _ | CmdRetimePending _ _ _ => false | _ => true end.

(** What a command that requests and moves nothing leaves. *)
Lemma kinds_plain cs c : plain_command c = true → kinds (cs ++ [c]) = kinds cs.
Proof. intros Hc. rewrite kinds_app. destruct c; simpl; try done; by rewrite app_nil_r. Qed.

Lemma elem_of_plain cs c d : plain_command c = true → plain_command d = false → d ∈ cs ++ [c] → d ∈ cs.
Proof.
  intros Hc Hd [?|?%list_elem_of_singleton]%elem_of_app; [done|]. subst. congruence.
Qed.

Lemma settled_plain cs c : plain_command c = true → settled cs → settled (cs ++ [c]).
Proof.
  intros Hc [H1 H2]. split.
  - intros g d1 b d2 b' a Hb Ha. apply (elem_of_plain cs c _ Hc) in Hb, Ha; [|done..]. by eapply H1.
  - intros g d b Hr. apply (elem_of_plain cs c _ Hc) in Hr; [|done]. by eapply H2.
Qed.

(** A property of what the worker is responsible for that plain commands keep. *)
Definition stable (J : list RealtimeMidiCommand * Z * (nat → Z) → Prop) : Prop :=
  ∀ cs g k c, plain_command c = true → J (cs, g, k) → J (cs ++ [c], g, k).

Lemma stable_discipline : stable discipline.
Proof.
  intros cs g k c Hc (? & ? & ? & ?). unfold discipline. rewrite kinds_plain by done.
  split_and!; [done|done|by apply settled_plain|done].
Qed.

Lemma stable_fresh g : stable (fresh_generation g).
Proof.
  intros cs g' k c Hc (? & ? & ?). split_and!; simpl; [by apply stable_discipline|done|].
  by rewrite kinds_plain.
Qed.

Lemma stable_ready g deadline : stable (ready g deadline).
Proof.
  intros cs g' k c Hc (? & ? & ? & Hb). split_and!; simpl; [by apply stable_discipline|done| |].
  - by rewrite kinds_plain.
  - intros d b Hin. apply (elem_of_plain cs c _ Hc) in Hin; [|done]. by eapply Hb.
Qed.

Lemma fresh_ready g deadline v : fresh_generation g v → ready g deadline v.
Proof.
  destruct v as [[cs g'] k]. intros (Hd & Hg & Hlt). simpl in *. rewrite Forall_forall in Hlt.
  split_and!; simpl; [done|done| |].
  - intros Hin%Hlt. simpl in Hin. lia.
  - intros d b Hin%kinds_elem%Hlt. simpl in Hin. lia.
Qed.

(** One more request. *)
Lemma discipline_snoc cs g k item :
  discipline (cs, g, k) → sch_generation item = g →
  (g, (realtime_action_identity (sch_action item)).1) ∉ kinds cs →
  settled (cs ++ [CmdSchedule item]) → discipline (cs ++ [CmdSchedule item], g, k).
Proof.
  intros (Hn & Hg & _ & Hk) Hi Hnot Hs. unfold discipline. rewrite kinds_app. simpl. rewrite Hi.
  split_and!; [|apply Forall_app; split; [done|by repeat constructor]|done|done].
  apply NoDup_app. split_and!; [done| |apply NoDup_singleton].
  intros x Hx ->%list_elem_of_singleton. done.
Qed.

Lemma request_bank cs g k d b deadline :
  fresh_generation g (cs, g, k) → d + BANK_SETTLE_DELAY ≤ deadline →
  ready g deadline (cs ++ [CmdSchedule (mkScheduled g d (ActSelectBank b))], g, k).
Proof.
  intros Hf Hd. pose proof (fresh_ready g deadline _ Hf) as (_ & _ & Ha & Hb). simpl in Ha, Hb.
  destruct Hf as (Hdisc & _ & Hlt). simpl in Hlt. rewrite Forall_forall in Hlt.
  assert (∀ d' a, CmdSchedule (mkScheduled g d' a) ∉ cs) as Hnone.
  { intros d' a Hin%kinds_elem%Hlt. simpl in Hin. lia. }
  split_and!; simpl; [|done| |].
  - apply discipline_snoc; [done|done| |].
    + intros Hin%Hlt. simpl in Hin. lia.
    + destruct Hdisc as (_ & _ & [H1 H2] & _). split.
      * intros g0 d1 b0 d2 b' a [Hx|[= -> -> ->]%list_elem_of_singleton]%elem_of_app
          [Hy|?%list_elem_of_singleton]%elem_of_app; try done; [by eapply H1|by apply Hnone in Hy].
      * intros g0 d0 b0 [Hx|?%list_elem_of_singleton]%elem_of_app; [by eapply H2|done].
  - rewrite kinds_app. simpl. intros [?|?%list_elem_of_singleton]%elem_of_app; done.
  - intros d0 b0 [?%Hnone|[= -> ->]%list_elem_of_singleton]%elem_of_app; done.
Qed.

Lemma request_autoloop cs g k b a deadline :
  ready g deadline (cs, g, k) →
  discipline (cs ++ [CmdSchedule (mkScheduled g deadline (ActTriggerAutoloop b a))], g, k).
Proof.
  intros (Hdisc & _ & Ha & Hb). simpl in Ha, Hb. apply discipline_snoc; [done..|].
  destruct Hdisc as (_ & _ & [H1 H2] & _). split.
  - intros g0 d1 b0 d2 b' a' [Hx|?%list_elem_of_singleton]%elem_of_app
      [Hy|[= -> -> -> ->]%list_elem_of_singleton]%elem_of_app; try done; [by eapply H1|by eapply Hb].
  - intros g0 d0 b0 [Hx|?%list_elem_of_singleton]%elem_of_app; [by eapply H2|done].
Qed.

Lemma request_retime cs g k g' d b :
  discipline (cs, g, k) → b + BANK_SETTLE_DELAY ≤ d →
  discipline (cs ++ [CmdRetimePending g' d b], g, k).
Proof.
  intros (? & ? & [H1 H2] & ?) Hb. unfold discipline. rewrite kinds_app. simpl. rewrite app_nil_r.
  split_and!; try done. split.
  - intros g0 d1 b0 d2 b' a' [Hx|?%list_elem_of_singleton]%elem_of_app
      [Hy|?%list_elem_of_singleton]%elem_of_app; try done. by eapply H1.
  - intros g0 d0 b0 [Hx|[= -> -> ->]%list_elem_of_singleton]%elem_of_app; [by eapply H2|done].
Qed.

(** ** Methods that give no command *)

Lemma framed_upd (f : OutputWorker (Traced P) → OutputWorker (Traced P)) :
  (∀ o, ow_midi_output (f o) = ow_midi_output o ∧
        ow_realtime_generation (f o) = ow_realtime_generation o) → framed (upd f).
Proof.
  intros Hf w. destruct (Hf (w_worker w)) as [Hl Hg]. unfold upd, method_modify, view, recorded. simpl.
  by rewrite Hl, Hg.
Qed.

Lemma framed_ret {A} (a : A) : framed (method_ret a).
Proof. by intros w. Qed.
Lemma framed_fail {A} e : framed (A:=A) (method_fail e).
Proof. by intros w. Qed.
Lemma framed_get {A} (f : world → A) : framed (method_get f).
Proof. by intros w. Qed.
Lemma framed_result {A} (r : result A EngineError) : framed (method_result r).
Proof. by intros w. Qed.
Lemma framed_now : framed instant_now.
Proof. by intros w. Qed.

Lemma framed_attempt {A} (m : worker A) : framed m → framed (attempt m).
Proof. intros Hm w. specialize (Hm w). unfold attempt. by destruct (m w). Qed.

Lemma framed_submit event : framed (submit_and_process event).
Proof.
  intros w. unfold submit_and_process. destruct (submit event _) as [rt [a|e]]; [|done].
  by destruct (process_next rt).
Qed.

Create HintDb framed discriminated.
#[local] Hint Resolve framed_turns framed_ret framed_fail framed_get framed_result framed_now
  framed_attempt framed_submit : framed.

(** Goes through a method: binds, case distinctions, updates of other fields. *)
Ltac framed_step :=
  first
    [ solve [eauto 2 with framed]
    | apply framed_bind; [|intros ?]
    | apply framed_upd; intros ?; split; reflexivity
    | match goal with
      | |- framed (match ?x with _ => _ end) => destruct x
      | |- framed (if ?x then _ else _) => destruct x
      | |- framed (method_bind _ _) => fail 1
      end ].
Ltac framed_auto := repeat framed_step.

Lemma framed_status : framed midi_status.
Proof. unfold midi_status, ask. framed_auto. Qed.
#[local] Hint Resolve framed_status : framed.

Lemma framed_executor f : framed (on_executor f).
Proof. unfold on_executor. framed_auto. Qed.
Lemma framed_gate f : framed (on_gate f).
Proof. unfold on_gate. framed_auto. Qed.
#[local] Hint Resolve framed_executor framed_gate : framed.

Lemma framed_complete : framed complete_emitted.
Proof. unfold complete_emitted. framed_auto. Qed.
#[local] Hint Resolve framed_complete : framed.

Lemma framed_initial_launch state : framed (update_initial_launch state).
Proof. unfold update_initial_launch, ask. framed_auto. Qed.
#[local] Hint Resolve framed_initial_launch : framed.

Lemma framed_service : framed service_pending_autoloop.
Proof. unfold service_pending_autoloop, ask. framed_auto. Qed.

Lemma framed_record record : framed (record_autoloop_schedule record).
Proof. unfold record_autoloop_schedule. framed_auto. Qed.
#[local] Hint Resolve framed_service framed_record : framed.

Lemma framed_ask {A} (f : OutputWorker (Traced P) → A) : framed (ask f).
Proof. by intros w. Qed.
#[local] Hint Resolve framed_ask : framed.

(** ** Methods that give commands *)

Section Run.
Context (l0 : Lane (Traced P)).
Implicit Types J : list RealtimeMidiCommand * Z * (nat → Z) → Prop.

Definition at_view J w : Prop := recorded l0 w ∧ J (view w).

Lemma keeps_framed {A} J (m : worker A) : framed m → keeps (at_view J) m.
Proof. intros Hm w [Hr Hj]. destruct (Hm w) as [Hv Hr']. split; [auto|by rewrite Hv]. Qed.

Lemma keeps_plain {A} J (m : worker A) c : gives m c → plain_command c = true → stable J → keeps (at_view J) m.
Proof.
  intros Hm Hc Hs w [Hr Hj]. destruct (Hm w) as [Hv Hr']. split; [auto|]. rewrite Hv. by apply Hs.
Qed.

(** Whatever the outcome, from the precondition to the discipline. *)
Lemma disciplined_framed {A B} J (m : worker A) (k : A → worker B) K :
  framed m → (∀ a, triple (at_view J) (k a) (λ _, at_view K)) →
  (∀ v, J v → K v) → triple (at_view J) (method_bind m k) (λ _, at_view K).
Proof.
  intros Hm Hk HJK. apply (triple_bind _ _ _ (λ _, at_view J)); [|done].
  intros w Hw. pose proof (keeps_framed J m Hm w Hw) as [? ?].
  destruct (m w).2; simpl; [done|]. split; [done|auto].
Qed.

Lemma at_view_mono J K w : (∀ v, J v → K v) → at_view J w → at_view K w.
Proof. intros HJK [? ?]. split; auto. Qed.

Lemma fresh_discipline g v : fresh_generation g v → discipline v.
Proof. by intros (? & _). Qed.
Lemma ready_discipline g d v : ready g d v → discipline v.
Proof. by intros (? & _). Qed.

Lemma begin_generation_fresh :
  triple (at_view discipline) begin_realtime_generation
    (λ r w, match r with Ok (Some g) => at_view (fresh_generation g) w | _ => at_view discipline w end).
Proof.
  intros w [Hr Hd]. unfold begin_realtime_generation, method_bind. cbn [ask method_get].
  destruct (checked_add_u64 _ 1) as [next|] eqn:En; [|by split].
  apply checked_add_u64_Some in En as [-> _]. set (g := ow_realtime_generation (w_worker w)).
  cbn [upd method_modify]. set (w1 := set_worker _ w).
  assert (at_view (fresh_generation (g + 1)) w1) as Hf.
  { split; [exact Hr|]. destruct Hd as (Hn & Hle & Hs & Hk). unfold view. simpl.
    split_and!; simpl; [|done|].
    - split_and!; [done| |done|done]. eapply Forall_impl; [exact Hle|]. simpl. fold g. lia.
    - eapply Forall_impl; [exact Hle|]. simpl. fold g. lia. }
  pose proof (keeps_plain _ _ _ (gives_send (CmdSetGeneration (g + 1))) eq_refl
    (stable_fresh (g + 1)) w1 Hf) as Hf'.
  destruct (lane_send _ w1) as [w2 [[[]|e]|e]]; simpl in *; [done| |];
    by eapply at_view_mono; [apply fresh_discipline|].
Qed.

Lemma schedule_bank_ready wanted g b d deadline :
  (wanted = true → d + BANK_SETTLE_DELAY ≤ deadline) →
  triple (at_view (fresh_generation g)) (schedule_bank_action wanted g b d)
    (λ r w, match r with Ok (Some _) => at_view (ready g deadline) w | _ => at_view discipline w end).
Proof.
  intros Hd w Hw. unfold schedule_bank_action. destruct wanted.
  2:{ simpl. eapply at_view_mono; [apply fresh_ready|done]. }
  unfold method_bind.
  destruct (gives_send (CmdSchedule (mkScheduled g d (ActSelectBank b))) w) as [Hv Hrec].
  assert (at_view (ready g deadline)
    (lane_send (CmdSchedule (mkScheduled g d (ActSelectBank b))) w).1) as Hready.
  { destruct Hw as [Hr Hf]. split; [auto|]. rewrite Hv. pose proof Hf as (_ & Hg & _). simpl in Hg.
    unfold view in Hf. rewrite Hg in Hf |- *. apply request_bank; [done|auto]. }
  destruct (lane_send _ w) as [w1 [[[]|e]|e]]; simpl in *; [done| |];
    by eapply at_view_mono; [apply ready_discipline|].
Qed.

Lemma schedule_autoloop_disciplined g target deadline :
  triple (at_view (ready g deadline)) (schedule_autoloop_action g target deadline)
    (λ _, at_view discipline).
Proof.
  intros w [Hr Hready]. unfold schedule_autoloop_action.
  match goal with |- context [lane_send ?c] => destruct (gives_send c w) as [Hv Hrec] end.
  split; [auto|]. rewrite Hv. pose proof Hready as (_ & Hg & _). simpl in Hg.
  unfold view in Hready. rewrite Hg in Hready |- *. by apply request_autoloop.
Qed.

(** The discipline as an invariant of methods. *)
Notation disciplined m := (keeps (at_view discipline) m).

Lemma disciplined_frame {A} (m : worker A) : framed m → disciplined m.
Proof. apply keeps_framed. Qed.

Lemma disciplined_send c : plain_command c = true → disciplined (lane_send c).
Proof. intros Hc. by eapply keeps_plain; [apply gives_send| |apply stable_discipline]. Qed.

Lemma disciplined_call c : plain_command c = true → disciplined (lane_call c).
Proof. intros Hc. by eapply keeps_plain; [apply gives_call| |apply stable_discipline]. Qed.

Lemma disciplined_begin : disciplined begin_realtime_generation.
Proof.
  intros w Hw. pose proof (begin_generation_fresh w Hw) as Hb.
  destruct (begin_realtime_generation w) as [w1 [[g|]|e]]; simpl in *; [|done|done].
  by eapply at_view_mono; [apply fresh_discipline|].
Qed.

Create HintDb disciplined discriminated.
#[local] Hint Resolve disciplined_begin : disciplined.

Ltac disciplined_step :=
  first
    [ solve [eauto 2 with disciplined]
    | apply disciplined_send; reflexivity
    | apply disciplined_call; reflexivity
    | apply keeps_bind; [|intros ?]
    | match goal with
      | |- keeps _ (match ?x with _ => _ end) => destruct x
      | |- keeps _ (if ?x then _ else _) => destruct x
      end
    | apply disciplined_frame; framed_auto ].
Ltac disciplined_auto := repeat disciplined_step.

(** The tail of the two methods that schedule a cue, from a new generation on. *)
Lemma bank_then g wanted bank bank_at deadline (failed : worker unit) (k : Z → worker unit) :
  (wanted = true → bank_at + BANK_SETTLE_DELAY ≤ deadline) → framed failed →
  (∀ n, triple (at_view (ready g deadline)) (k n) (λ _, at_view discipline)) →
  triple (at_view (fresh_generation g))
    (let! actions := schedule_bank_action wanted g bank bank_at in
     match actions with None => failed | Some actions => k actions end) (λ _, at_view discipline).
Proof.
  intros Hd Hfail Hk.
  apply (triple_bind _ _ _ (λ a, match a with Some _ => at_view (ready g deadline)
                                        | None => at_view discipline end)).
  { intros w Hw. pose proof (schedule_bank_ready wanted g bank bank_at deadline Hd w Hw) as Hb.
    by destruct (schedule_bank_action _ _ _ _ w) as [w1 [[a|]|e]]. }
  intros [actions|]; [apply Hk|by apply disciplined_frame].
Qed.

Lemma autoloop_then g target deadline (failed after : worker unit) :
  framed failed → framed after →
  triple (at_view (ready g deadline))
    (let! r := schedule_autoloop_action g target deadline in
     match r with
     | Err _ => let! _cancelled := lane_send CmdCancelAll in failed
     | Ok _ => after
     end) (λ _, at_view discipline).
Proof.
  intros Hfail Hafter. apply (triple_bind _ _ _ (λ _, at_view discipline)).
  { intros w Hw. pose proof (schedule_autoloop_disciplined g target deadline w Hw) as Ha.
    by destruct (schedule_autoloop_action _ _ _ w) as [w1 [a|e]]. }
  intros [[]|e]; [by apply disciplined_frame|]. apply keeps_bind; [by apply disciplined_send|].
  intros _. by apply disciplined_frame.
Qed.

(** A new generation, then what it is for. *)
Lemma begin_then (failed : worker unit) (k : Z → worker unit) :
  framed failed → (∀ g, triple (at_view (fresh_generation g)) (k g) (λ _, at_view discipline)) →
  disciplined (let! begun := begin_realtime_generation in
               match begun with None => failed | Some g => k g end).
Proof.
  intros Hfail Hk. apply (triple_bind _ _ _
    (λ o, match o with Some g => at_view (fresh_generation g) | None => at_view discipline end)).
  { intros w Hw. pose proof (begin_generation_fresh w Hw) as Hb.
    by destruct (begin_realtime_generation w) as [w1 [[g|]|e]]. }
  intros [g|]; [apply Hk|by apply disciplined_frame].
Qed.

Lemma disciplined_execute_autoloop request bank autoloop :
  disciplined (execute_autoloop request bank autoloop).
Proof.
  unfold execute_autoloop. do 4 (apply keeps_bind; [apply disciplined_frame; framed_auto|intros ?]).
  match goal with |- context [match ?x with Some _ => _ | None => _ end] => destruct x as [s|] end;
    [|apply disciplined_frame; framed_auto].
  apply begin_then; [framed_auto|]. intros g.
  do 6 (apply disciplined_framed; [framed_auto| |apply fresh_discipline]; intros ?).
  eapply bank_then; [|framed_auto|].
  2:{ intros n. do 2 (apply disciplined_framed; [framed_auto| |apply ready_discipline]; intros _).
      apply autoloop_then; framed_auto. }
  intros ->. apply Z.add_le_mono_l, Z.le_max_l.
Qed.

Lemma bank_deadline_settles deadline now :
  BANK_SETTLE_DELAY ≤ deadline → bank_deadline deadline now + BANK_SETTLE_DELAY ≤ deadline.
Proof. intros Hd. unfold bank_deadline. rewrite (proj2 (Z.ltb_ge _ _)) by done. lia. Qed.

Lemma disciplined_prepare identity target deadline beat bpm offset :
  BANK_SETTLE_DELAY ≤ deadline →
  disciplined (prepare_future_autoloop identity target deadline beat bpm offset).
Proof.
  intros Hd. unfold prepare_future_autoloop.
  do 3 (apply keeps_bind; [apply disciplined_frame; framed_auto|intros ?]).
  match goal with |- context [match ?x with Some _ => _ | None => _ end] => destruct x as [s|] end;
    [|apply disciplined_frame; framed_auto].
  apply begin_then; [framed_auto|]. intros g.
  apply disciplined_framed; [framed_auto| |apply fresh_discipline]; intros now.
  apply (bank_then _ _ _ _ deadline); [intros _; by apply bank_deadline_settles|framed_auto|].
  intros n. apply disciplined_framed; [framed_auto| |apply ready_discipline]; intros _.
  apply autoloop_then; framed_auto.
Qed.

Lemma disciplined_retime scheduled deadline bpm :
  BANK_SETTLE_DELAY ≤ deadline → disciplined (retime_future_autoloop scheduled deadline bpm).
Proof.
  intros Hd. unfold retime_future_autoloop. case_match; [by apply keeps_ret|].
  apply keeps_bind; [by apply disciplined_frame, framed_now|]. intros now.
  apply keeps_bind.
  - intros w [Hr Hj]. match goal with |- context [lane_send ?c] => destruct (gives_send c w) as [Hv Hrec] end.
    split; [auto|]. rewrite Hv. apply request_retime; [exact Hj|by apply bank_deadline_settles].
  - intros [[]|e]; apply disciplined_frame; framed_auto.
Qed.

Lemma disciplined_cancel_future : disciplined cancel_future_autoloop_deadline.
Proof. unfold cancel_future_autoloop_deadline. disciplined_auto. Qed.

Lemma disciplined_refresh existing deadline bpm :
  BANK_SETTLE_DELAY ≤ deadline → disciplined (refresh_future_autoloop existing deadline bpm).
Proof.
  intros Hd. pose proof (disciplined_retime existing deadline bpm Hd).
  unfold refresh_future_autoloop. disciplined_auto.
Qed.

Lemma now_then (k : Z → worker unit) :
  (∀ now, BANK_SETTLE_DELAY ≤ now → disciplined (k now)) →
  disciplined (let! now := instant_now in k now).
Proof.
  intros Hk w Hw. pose proof (disciplined_frame _ framed_now w Hw) as Hw'.
  unfold method_bind. cbn [instant_now] in *. simpl in Hw'. apply Hk; [|done].
  destruct Hw as [_ (_ & _ & _ & Hclock)]. apply Hclock.
Qed.

Lemma trigger_delay_positive beats bpm offset d : phrase_trigger_delay beats bpm offset = Some d → 0 ≤ d.
Proof.
  unfold phrase_trigger_delay. case_match; [done|]. case_match eqn:Hle; [|done].
  apply Z.leb_le in Hle. intros [= <-]. revert Hle.
  unfold DURATION_MAX, BANK_SETTLE_DELAY, INTEGRATION_PUMP_INTERVAL. lia.
Qed.

Lemma disciplined_observe state deck beat : disciplined (observe_exact_live_beat state deck beat).
Proof.
  pose proof disciplined_cancel_future. unfold observe_exact_live_beat.
  do 4 (apply keeps_bind; [apply disciplined_frame; framed_auto|intros ?]).
  case_match; [done|]. case_match; [|done]. case_match; [done|]. case_match; [|done].
  apply keeps_bind; [apply disciplined_frame; framed_auto|]. intros [[scheduled cue]|].
  - case_match; [|by apply keeps_ret]. apply now_then. intros now Hnow.
    apply disciplined_retime. lia.
  - case_match; [|done]. case_match; [|done]. case_match; [|done]. case_match.
    case_match eqn:Hd; [|by apply keeps_ret]. apply trigger_delay_positive in Hd.
    apply keeps_bind; [apply disciplined_frame; framed_auto|]. intros epoch.
    apply keeps_bind; [apply disciplined_frame; framed_auto|]. intros allowed.
    case_match; [by apply keeps_ret|]. apply now_then. intros now Hnow.
    apply keeps_bind; [apply disciplined_frame; framed_auto|]. intros [existing|].
    + case_match; [apply disciplined_refresh; lia|apply disciplined_prepare; lia].
    + apply disciplined_prepare; lia.
Qed.
#[local] Hint Resolve disciplined_cancel_future disciplined_observe disciplined_execute_autoloop
  : disciplined.

Lemma disciplined_ensure : disciplined ensure_lighting_midi.
Proof. unfold ensure_lighting_midi, midi_or_fail. disciplined_auto. Qed.
#[local] Hint Resolve disciplined_ensure : disciplined.

Lemma disciplined_attempt {A} (m : worker A) : disciplined m → disciplined (attempt m).
Proof. intros Hm w Hw. specialize (Hm w Hw). unfold attempt. by destruct (m w). Qed.
#[local] Hint Resolve disciplined_attempt : disciplined.

Lemma disciplined_transition request : disciplined (execute_static_look_transition request).
Proof. unfold execute_static_look_transition, count_failed, bump_counter. disciplined_auto. Qed.

Lemma disciplined_release : disciplined release_active_static_look.
Proof. unfold release_active_static_look, count_failed, bump_counter. disciplined_auto. Qed.
#[local] Hint Resolve disciplined_transition disciplined_release : disciplined.

Lemma disciplined_execute_cue request : disciplined (execute_cue request).
Proof. unfold execute_cue, execute_provider, drive_midi. disciplined_auto. Qed.

Lemma disciplined_close : disciplined close_output.
Proof. unfold close_output. disciplined_auto. Qed.
#[local] Hint Resolve disciplined_execute_cue disciplined_close : disciplined.

Lemma disciplined_effects effects : disciplined (process_effects effects).
Proof.
  induction effects as [|effect effects IH]; cbn [process_effects]; [by apply keeps_ret|].
  unfold perform_effect, next_effect_sequence, report_effect. disciplined_auto.
Qed.
#[local] Hint Resolve disciplined_effects : disciplined.

Lemma disciplined_op op : disciplined (worker_op op).
Proof.
  destruct op; cbn [worker_op];
    unfold process_domain_event, begin_autoloop_execution_epoch, invalidate_autoloop_deadline,
      synchronize_static_look_plan, remove_static_look_plan, toggle_static_look_manually,
      request_timing_offset_millis, activate_pending_timing_offset, publish_midi, stop_midi,
      clock_method, clock_or_fail, midi_or_fail; disciplined_auto.
Qed.

Lemma disciplined_run ops : ∀ w, at_view discipline w → at_view discipline (worker_run w ops).
Proof.
  induction ops as [|op ops IH]; intros w Hw; [done|]. apply IH. by apply disciplined_op.
Qed.
End Run.

(** A world in which the worker has just been created. *)
Definition new_world (p : P) (clock : Traced P) (runtime : SerializedRuntime)
    (turns : list (list LaneTurn)) (instants : nat → Z) : world :=
  mkWorld (OutputWorker_new (mkTraced p []) clock) runtime turns instants 0 [] [] [].

Lemma new_world_disciplined p clock runtime turns instants :
  (∀ n, BANK_SETTLE_DELAY ≤ instants n) →
  at_view (lane_new (mkTraced p [])) discipline (new_world p clock runtime turns instants).
Proof.
  intros Hclock. split; [done|]. unfold view, commands, kinds. simpl.
  split_and!; [constructor|constructor| |done].
  split; intros; by apply not_elem_of_nil in H0.
Qed.

(** ** One Autoloop per generation *)

Definition ident_kind (i : Z * (RealtimeMidiActionKind * Z)) : Z * RealtimeMidiActionKind :=
  (i.1, i.2.1).

Lemma kinds_requested inputs :
  kinds (omap input_command inputs) = ident_kind <$> (inputs ≫= requested).
Proof.
  induction inputs as [|i inputs IH]; [done|]. rewrite bind_cons, fmap_app, <- IH.
  destruct i as [c|now c|now|now r]; try done; destruct c; done.
Qed.

Lemma NoDup_submseteq_l {A} (l k : list A) : NoDup k → l ⊆+ k → NoDup l.
Proof.
  intros Hk [m Hm]%submseteq_Permutation. rewrite Hm in Hk. by apply NoDup_app in Hk as [? _].
Qed.

(** C9: what is sent per generation.  For every interleaving of the engine's calls with
    the thread of the lane, every generation sends at most one bank and one Autoloop, and
    nothing of a kind that is still pending was already sent; every bank is requested, and
    moved, to come at least the settle delay before the Autoloop of its generation.  The
    clock is read no earlier than the settle delay after its origin, so that the code's
    [checked_sub] has an answer. *)
Theorem one_autoloop_per_generation p clock runtime turns instants ops :
  (∀ n, BANK_SETTLE_DELAY ≤ instants n) →
  let w := worker_run (new_world p clock runtime turns instants) ops in
  NoDup (ident_kind <$> ((record_ident <$> w_dispatches w) ++ pending (lane w))) ∧
  settled (commands w).
Proof.
  intros Hclock w.
  destruct (disciplined_run (lane_new (mkTraced p [])) ops _
    (new_world_disciplined p clock runtime turns instants Hclock)) as [Hrec (Hn & _ & Hs & _)].
  fold w in Hrec, Hn, Hs. split; [|done].
  pose proof (lane_run_pending (w_inputs w) (lane_new (mkTraced p []))) as Hp.
  unfold recorded in Hrec. rewrite Hrec in Hp. simpl in Hp.
  unfold commands in Hn. rewrite kinds_requested in Hn.
  eapply NoDup_submseteq_l; [exact Hn|]. by apply fmap_submseteq.
Qed.
End Worker.

(** ** A concrete run *)

Definition one_second : Z := 1000000000.

Definition demo_world (turns : list (list LaneTurn)) : World (Traced (list bool)) :=
  new_world (replicate 8 true) (mkTraced (replicate 8 true) [])
    (mkSerializedRuntime RuntimeState_default (mkBoundedEventQueue 8 [] None)) turns
    (λ _, one_second).

(** The demonstration goes live, enters its second phrase, and the lane's thread receives a
    command and passes a deadline before every access. *)
Definition demo_ops : list WorkerOp :=
  OpPublishMidi :: (OpDomainEvent <$> (demo_start ++ demo_phrases)).

Definition demo_turns : list (list LaneTurn) :=
  replicate 40 [TurnReceive one_second; TurnTimeout (one_second + 100000000) [(0, 0)]].

(** The first cue was sent with its bank, the second is pending. *)
Lemma one_autoloop_per_generation_witness :
  let w := worker_run (demo_world demo_turns) demo_ops in
  record_ident <$> w_dispatches w = [(1, (ActionBank, 1)); (1, (ActionAutoloop, 1))] ∧
  pending (ow_midi_output (w_worker w)) = [(2, (ActionAutoloop, 2))] ∧
  NoDup (ident_kind <$> ((record_ident <$> w_dispatches w) ++ pending (ow_midi_output (w_worker w)))).
Proof.
  split_and!; [vm_compute; reflexivity..|].
  apply (one_autoloop_per_generation (replicate 8 true) (mkTraced (replicate 8 true) [])
    (mkSerializedRuntime RuntimeState_default (mkBoundedEventQueue 8 [] None)) demo_turns
    (λ _, one_second) demo_ops).
  intros n. vm_compute. discriminate.
Defined.

(** ** The static look plans are bounded *)

Lemma oldest_plan_Some plans :
  plans ≠ ∅ → ∃ oldest, oldest_plan plans = Some oldest ∧ is_Some (plans !! oldest).
Proof.
  intros Hm. unfold oldest_plan.
  destruct (sort_by_key id (map_to_list plans).*1) as [|oldest l] eqn:E.
  - destruct Hm. apply map_to_list_empty_iff. apply (fmap_nil_inv fst), Permutation_nil.
    by rewrite <- E, (sort_by_key_perm id).
  - exists oldest. split; [done|]. assert (oldest ∈ (map_to_list plans).*1) as Hin.
    { rewrite <- (sort_by_key_perm id), E. by left. }
    apply list_elem_of_fmap in Hin as ([key look] & -> & Hin). exists look. by apply elem_of_map_to_list.
Qed.

(** As many rounds as there are plans are enough, and no plan is made up. *)
Lemma evict_oldest_spec rounds plans :
  (size plans ≤ rounds)%nat →
  (size (evict_oldest rounds plans) ≤ LIBRARY_CONTEXT_CAPACITY)%nat ∧ evict_oldest rounds plans ⊆ plans.
Proof.
  revert plans. induction rounds as [|rounds IH]; intros m Hm; cbn [evict_oldest]; [split; [lia|done]|].
  destruct (Nat.ltb_spec LIBRARY_CONTEXT_CAPACITY (size m)); [|done].
  destruct (oldest_plan_Some m) as (key & Hk & Hkey).
  { intros ->. rewrite map_size_empty in *. lia. }
  rewrite Hk. destruct (IH (delete key m)) as [H1 H2].
  { rewrite map_size_delete_Some by done. lia. }
  split; [done|]. etrans; [exact H2|]. apply delete_subseteq.
Qed.
