(* ===== verification/OutputWorkerEffects.v ===== *)
(** * Static looks, closing and the answers of the output worker

    The remembered static look is the one the lighting software shows; a closed output
    stays silent; every effect is answered once; and a cue that is replaced while its
    predecessor is being sent is taken for completed too early. *)

From stdpp Require Import prelude list gmap strings.
From Stdlib Require Import ZArith Lia.
From S2P Require Import Prelude.
From S2P Require Import Track.
From S2P Require Import Plan.
From S2P Require Import Event.
From S2P Require Import State.
From S2P Require Import Reducer.
From S2P Require Import Runtime.
From S2P Require Import LightPlans.
From S2P Require Import AutoloopExecutor.
From S2P Require Import Output.
From S2P Require Import LaunchPolicy.
From S2P Require Import Midi.
From S2P Require Import MidiLane.
From S2P Require Import MidiLaneProps.
From S2P Require Import MidiClock.
From S2P Require Import OutputWorker.
From S2P Require Import OutputWorkerProps.
Open Scope Z_scope.

(** ** Static looks *)

(** SoundSwitch shows one static look at a time: the press of the look that is shown
    releases it, the press of another replaces it. *)
Definition press (shown : option Z) (number : Z) : option Z :=
  if bool_decide (shown = Some number) then None else Some number.

Section Looks.
Context {P E : Type} `{MidiSourceProvider P E}.
Implicit Types (w : World P).

Notation worker A := (method (World P) EngineError A).

Definition looks w : option Z * list Z :=
  (sl_number <$> ow_active_static_look (w_worker w), w_presses w).

Definition follows w : Prop := (looks w).1 = foldl press None (looks w).2.

(** A method that presses nothing and leaves the remembered look. *)
Definition quiet {A} (m : worker A) : Prop := ∀ w, looks (m w).1 = looks w.

Lemma quiet_bind {A B} (m : worker A) (k : A → worker B) :
  quiet m → (∀ a, quiet (k a)) → quiet (method_bind m k).
Proof.
  intros Hm Hk w. unfold method_bind. specialize (Hm w).
  destruct (m w) as [w1 [a|e]]; simpl in *; [|done]. by rewrite Hk.
Qed.

Lemma quiet_upd (f : OutputWorker P → OutputWorker P) :
  (∀ o, ow_active_static_look (f o) = ow_active_static_look o) → quiet (upd f).
Proof. intros Hf w. unfold looks. simpl. by rewrite Hf. Qed.

Lemma quiet_ret {A} (a : A) : quiet (method_ret a).
Proof. by intros w. Qed.
Lemma quiet_fail {A} e : quiet (A:=A) (method_fail e).
Proof. by intros w. Qed.
Lemma quiet_get {A} (f : World P → A) : quiet (method_get f).
Proof. by intros w. Qed.
Lemma quiet_ask {A} (f : OutputWorker P → A) : quiet (ask f).
Proof. by intros w. Qed.
Lemma quiet_result {A} (r : result A EngineError) : quiet (method_result r).
Proof. by intros w. Qed.
Lemma quiet_now : quiet instant_now.
Proof. by intros w. Qed.
Lemma quiet_attempt {A} (m : worker A) : quiet m → quiet (attempt m).
Proof. intros Hm w. specialize (Hm w). unfold attempt. by destruct (m w). Qed.

Lemma quiet_turns : quiet lane_turns.
Proof. intros w. unfold lane_turns. by destruct (lane_run _ _). Qed.

Lemma quiet_submit event : quiet (submit_and_process event).
Proof.
  intros w. unfold submit_and_process. destruct (submit event _) as [rt [a|e]]; [|done].
  by destruct (process_next rt).
Qed.

Lemma quiet_send command : quiet (lane_send command).
Proof.
  apply quiet_bind; [apply quiet_turns|]. intros _ w. by destruct (try_send _ _).
Qed.

(** What a call adds to the presses. *)
Lemma call_looks command w :
  looks (lane_call command w).1 =
    ((looks w).1, (looks w).2 ++ match (lane_call command w).2 with
                                 | Ok r => pressed command r | Err _ => [] end).
Proof.
  unfold lane_call, method_bind. pose proof (quiet_turns w) as Ht.
  destruct (lane_turns w) as [w1 [[]|e]]; unfold looks in *; simpl in *; injection Ht as Ha Hp.
  2:{ by rewrite Ha, Hp, app_nil_r. }
  destruct (synchronous _ _ _) as [l r]. simpl. by rewrite Ha, Hp.
Qed.

Lemma quiet_call command : (∀ n, command ≠ CmdToggleStaticLook n) → quiet (lane_call command).
Proof.
  intros Hc w. rewrite call_looks. destruct (lane_call command w).2 as [r|e].
  - assert (pressed command r = []) as ->; [|by rewrite app_nil_r; destruct (looks w)].
    destruct command; try done. by destruct (Hc number).
  - by rewrite app_nil_r; destruct (looks w).
Qed.

Create HintDb quiet discriminated.
#[local] Hint Resolve quiet_ret quiet_fail quiet_get quiet_ask quiet_result quiet_now quiet_attempt
  quiet_turns quiet_submit quiet_send : quiet.

Ltac quiet_step :=
  first
    [ solve [eauto 2 with quiet]
    | apply quiet_call; intros ?; discriminate
    | apply quiet_bind; [|intros ?]
    | apply quiet_upd; intros ?; reflexivity
    | match goal with
      | |- quiet (match ?x with _ => _ end) => destruct x
      | |- quiet (if ?x then _ else _) => destruct x
      end ].
Ltac quiet_auto := repeat quiet_step.

Lemma quiet_status : quiet midi_status.
Proof. unfold midi_status. quiet_auto. Qed.
#[local] Hint Resolve quiet_status : quiet.

Lemma quiet_ensure : quiet ensure_lighting_midi.
Proof. unfold ensure_lighting_midi, midi_or_fail. quiet_auto. Qed.
#[local] Hint Resolve quiet_ensure : quiet.

Lemma quiet_begin : quiet begin_realtime_generation.
Proof. unfold begin_realtime_generation. quiet_auto. Qed.
Lemma quiet_executor f : quiet (on_executor f).
Proof. unfold on_executor. quiet_auto. Qed.
Lemma quiet_gate f : quiet (on_gate f).
Proof. unfold on_gate. quiet_auto. Qed.
#[local] Hint Resolve quiet_begin quiet_executor quiet_gate : quiet.

Lemma quiet_execute_autoloop request bank autoloop : quiet (execute_autoloop request bank autoloop).
Proof.
  unfold execute_autoloop, complete_emitted, schedule_bank_action, schedule_autoloop_action,
    record_autoloop_schedule. quiet_auto.
Qed.
Lemma quiet_initial_launch state : quiet (update_initial_launch state).
Proof. unfold update_initial_launch. quiet_auto. Qed.
Lemma quiet_cancel_future : quiet cancel_future_autoloop_deadline.
Proof. unfold cancel_future_autoloop_deadline. quiet_auto. Qed.
Lemma quiet_retime scheduled deadline bpm : quiet (retime_future_autoloop scheduled deadline bpm).
Proof. unfold retime_future_autoloop. quiet_auto. Qed.
#[local] Hint Resolve quiet_execute_autoloop quiet_initial_launch quiet_cancel_future quiet_retime
  : quiet.

Lemma quiet_prepare identity target deadline beat bpm offset :
  quiet (prepare_future_autoloop identity target deadline beat bpm offset).
Proof.
  unfold prepare_future_autoloop, schedule_bank_action, schedule_autoloop_action,
    record_autoloop_schedule. quiet_auto.
Qed.
#[local] Hint Resolve quiet_prepare : quiet.

Lemma quiet_observe state deck beat : quiet (observe_exact_live_beat state deck beat).
Proof. unfold observe_exact_live_beat, complete_emitted, refresh_future_autoloop. quiet_auto. Qed.
#[local] Hint Resolve quiet_observe : quiet.

(** *** The looks as an invariant *)

Definition at_looks (J : option Z * list Z → Prop) w : Prop := J (looks w).

Lemma keeps_quiet {A} J (m : worker A) : quiet m → keeps (at_looks J) m.
Proof. intros Hm w Hw. unfold at_looks in *. by rewrite Hm. Qed.

Lemma tracks_quiet {A} (m : worker A) : quiet m → keeps follows m.
Proof. apply (keeps_quiet (λ v, v.1 = foldl press None v.2)). Qed.

Lemma quiet_count get set :
  (∀ x o, ow_active_static_look (set x o) = ow_active_static_look o) → quiet (bump_counter get set).
Proof. intros Hs. apply quiet_upd. intros o. apply Hs. Qed.

(** A press of [number], then the look it shows is remembered. *)
Lemma press_then number (k : result unit RealtimeMidiError → worker unit) shown :
  (∀ e, quiet (k (Err e))) →
  (∀ w, (looks w).1 = shown → looks (k (Ok tt) w).1 = (press shown number, (looks w).2)) →
  triple (λ w, follows w ∧ (looks w).1 = shown)
    (let! r := lane_call (CmdToggleStaticLook number) in k r) (λ _, follows).
Proof.
  intros Hk Ho w [Ht Hs]. unfold method_bind. pose proof (call_looks (CmdToggleStaticLook number) w) as Hc.
  unfold follows in *.
  destruct (lane_call _ w) as [w1 [[[]|e]|e]]; cbn [fst snd pressed] in Hc |- *.
  - rewrite Ho, Hc by (by rewrite Hc). cbn [fst snd]. rewrite foldl_app. cbn [foldl].
    by rewrite <- Ht, Hs.
  - rewrite Hk, Hc. cbn [fst snd]. by rewrite app_nil_r.
  - rewrite Hc. cbn [fst snd]. by rewrite app_nil_r.
Qed.

(** Quiet steps before a method whose precondition is about the looks. *)
Lemma quiet_then {A B} J (m : worker A) (k : A → worker B) :
  quiet m → (∀ a, triple (at_looks J) (k a) (λ _, follows)) → (∀ w, at_looks J w → follows w) →
  triple (at_looks J) (method_bind m k) (λ _, follows).
Proof.
  intros Hm Hk HJ. apply (triple_bind _ _ _ (λ _, at_looks J)); [|done].
  intros w Hw. pose proof (keeps_quiet J m Hm w Hw). destruct (m w).2; simpl; [done|auto].
Qed.

(** The shown look together with what is remembered of it. *)
Definition shows (shown : option Z) (v : option Z * list Z) : Prop :=
  v.1 = foldl press None v.2 ∧ v.1 = shown.

Lemma tracks_ask {A B} (f : OutputWorker P → A) (k : A → worker B) :
  (∀ o, triple (λ w, follows w ∧ w_worker w = o) (k (f o)) (λ _, follows)) →
  keeps follows (let! a := ask f in k a).
Proof. intros Hk w Hw. by apply (Hk (w_worker w)). Qed.

Lemma quiet_shows {A} shown (m : worker A) :
  quiet m → triple (at_looks (shows shown)) m (λ _, follows).
Proof. intros Hm w [Hw _]. by apply tracks_quiet. Qed.

Lemma quiet_failed : quiet count_failed.
Proof. by apply quiet_count. Qed.
#[local] Hint Resolve quiet_failed : quiet.

(** The press of a transition shows the look that is wanted. *)
Lemma transition_press active desired transition :
  static_look_transition active desired = Some transition →
  sl_number <$> desired =
    press (sl_number <$> active) (sl_number (transition_target transition)).
Proof.
  unfold press. destruct active as [a|], desired as [d|]; simpl; intros Ht; simplify_eq/=; try done.
  - destruct (Z.eqb_spec (sl_number a) (sl_number d)) as [He|He]; simplify_eq/=.
    by rewrite bool_decide_eq_false_2 by congruence.
  - by rewrite bool_decide_eq_true_2.
Qed.

Lemma tracks_transition request : keeps follows (execute_static_look_transition request).
Proof.
  unfold execute_static_look_transition. apply keeps_bind; [apply tracks_quiet, quiet_ask|].
  intros desired. apply tracks_ask. intros o.
  apply (triple_mono (at_looks (shows (sl_number <$> ow_active_static_look o))) _ _ (λ _, follows));
    [by intros w [Ht <-]|done|].
  destruct (static_look_transition _ _) as [transition|] eqn:Htr.
  - do 2 (apply quiet_then; [quiet_auto| |by intros w [? _]]; intros ?).
    case_match; [apply quiet_shows; quiet_auto|].
    eapply press_then; [intros e; quiet_auto|]. intros w _.
    rewrite <- (transition_press _ _ _ Htr). by destruct transition.
  - destruct (ow_active_static_look o) as [a|] eqn:Ha, desired as [d|]; simplify_eq/=.
    + destruct (Z.eqb_spec (sl_number a) (sl_number d)) as [He|He]; [|done].
      intros w [Hw Hs]. unfold follows, looks in *. simpl in *. congruence.
    + apply quiet_shows. quiet_auto.
Qed.

Lemma tracks_manual number : keeps follows (toggle_static_look_manually number).
Proof.
  intros w Hw. unfold toggle_static_look_manually.
  eapply (press_then number); [intros e; by intros w'| |done]. intros w' <-.
  unfold press, looks. simpl. destruct (ow_active_static_look _) as [active|]; simpl; [|done].
  destruct (Z.eqb_spec (sl_number active) number) as [->|Hn]; simpl.
  - by rewrite bool_decide_eq_true_2.
  - by rewrite bool_decide_eq_false_2 by congruence.
Qed.

Lemma tracks_release : keeps follows release_active_static_look.
Proof.
  unfold release_active_static_look. apply tracks_ask. intros o.
  destruct (ow_active_static_look o) as [a|] eqn:Ha; [|by intros w [? _]].
  apply (triple_mono (λ w, follows w ∧ (looks w).1 = Some (sl_number a)) _ _ (λ _, follows));
    [|done|].
  { intros w [Ht <-]. split; [done|]. unfold looks. by rewrite Ha. }
  apply press_then; [intros e; quiet_auto|]. intros w _. unfold press.
  by rewrite bool_decide_eq_true_2.
Qed.

Create HintDb follows discriminated.
#[local] Hint Resolve tracks_transition tracks_manual tracks_release : follows.

Ltac tracks_step :=
  first
    [ solve [eauto 2 with follows]
    | apply tracks_quiet; solve [quiet_auto]
    | apply keeps_bind; [|intros ?]
    | match goal with
      | |- keeps _ (match ?x with _ => _ end) => destruct x
      | |- keeps _ (if ?x then _ else _) => destruct x
      end ].
Ltac tracks_auto := repeat tracks_step.

Lemma tracks_effects effects : keeps follows (process_effects effects).
Proof.
  induction effects as [|effect effects IH]; cbn [process_effects]; [by apply keeps_ret|].
  unfold perform_effect, next_effect_sequence, report_effect, execute_cue, execute_provider,
    drive_midi, close_output. tracks_auto.
Qed.
#[local] Hint Resolve tracks_effects : follows.

Lemma tracks_op op : keeps follows (worker_op op).
Proof.
  destruct op; cbn [worker_op];
    unfold process_domain_event, begin_autoloop_execution_epoch, invalidate_autoloop_deadline,
      service_pending_autoloop, complete_emitted, synchronize_static_look_plan,
      remove_static_look_plan, request_timing_offset_millis,
      activate_pending_timing_offset, publish_midi, stop_midi, clock_method, clock_or_fail,
      midi_or_fail; tracks_auto.
Qed.

(** The remembered static look.  For every sequence of operations of the worker, every
    interleaving with the thread of the lane and every outcome of its calls, the static
    look the worker remembers as active is the one that the presses it made leave shown. *)
Theorem static_look_tracks_device lane_provider clock runtime turns instants ops :
  let w := worker_run (mkWorld (OutputWorker_new lane_provider clock) runtime turns instants
                         0 [] [] []) ops in
  sl_number <$> ow_active_static_look (w_worker w) = foldl press None (w_presses w).
Proof.
  intros w. enough (follows w) by done. subst w.
  generalize (mkWorld (OutputWorker_new lane_provider clock) runtime turns instants 0 [] [] [])
    (eq_refl : follows (mkWorld (OutputWorker_new lane_provider clock) runtime turns instants 0 [] [] [])).
  induction ops as [|op ops IH]; intros w Hw; [done|]. apply IH. by apply tracks_op.
Qed.
End Looks.

(** ** A closed output is silent *)

(** Whether something may still be sent: what is scheduled, after the queued commands. *)
Definition loads (armed : bool) (command : RealtimeMidiCommand) : bool :=
  match command with
  | CmdSchedule _ => true
  | CmdCancelAll | CmdStop => false
  | _ => armed
  end.

Lemma loads_mono a b command : (a = true → b = true) → loads a command = true → loads b command = true.
Proof. destruct command; simpl; auto. Qed.

Lemma foldl_loads_mono queue : ∀ a b, (a = true → b = true) →
  foldl loads a queue = true → foldl loads b queue = true.
Proof.
  induction queue as [|c queue IH]; intros a b Hab; simpl; [done|].
  apply IH. by apply loads_mono.
Qed.

Section Silence.
Context {P E : Type} `{MidiSourceProvider P E}.
Implicit Types (l : Lane (Traced P)).
Notation world := (World (Traced P)).
Notation worker A := (method world EngineError A).
Notation lane w := (ow_midi_output (w_worker w)).

Definition holds_items l : bool := negb (bool_decide (lane_scheduled l = [])).
Definition armed l : bool := foldl loads (holds_items l) (lane_queue l).
Definition silenced l : Prop := lane_alive l = true → armed l = false.

Lemma holds_items_false l : holds_items l = false ↔ lane_scheduled l = [].
Proof. unfold holds_items. rewrite negb_false_iff. apply bool_decide_eq_true. Qed.

Lemma handle_command_holds now command l :
  holds_items (handle_command now command l).1 = true → loads (holds_items l) command = true.
Proof.
  rewrite <- !not_false_iff_true. intros Hh Hl. apply Hh. apply holds_items_false.
  destruct command; simpl in *; try done; try (by apply holds_items_false in Hl).
  - apply holds_items_false in Hl. unfold lane_set_generation. simpl. by rewrite Hl.
  - apply holds_items_false in Hl. unfold lane_retime_pending. simpl. by rewrite Hl, andb_false_r.
Qed.

Lemma handle_command_alive now command l :
  lane_alive (handle_command now command l).1 = true → lane_alive l = true.
Proof.
  destruct command; simpl; try done.
  - unfold lane_schedule. repeat case_match; done.
  - unfold lane_retime_pending. by case_match.
Qed.

(** A command that is handled, with the rest of the queue. *)
Lemma handle_silenced now command l :
  (lane_alive l = true → foldl loads (loads (holds_items l) command) (lane_queue l) = false) →
  silenced (handle_command now command l).1.
Proof.
  intros Hs Ha. apply handle_command_alive in Ha. specialize (Hs Ha). unfold armed.
  rewrite handle_command_queue. apply not_true_iff_false. intros Hf.
  rewrite (foldl_loads_mono _ _ _ (handle_command_holds now command l) Hf) in Hs. done.
Qed.

Lemma receive_silenced now l : silenced l → silenced (worker_receive now l).1.
Proof.
  intros Hs. unfold worker_receive. destruct (lane_queue l) as [|command queue] eqn:Hq; [done|].
  destruct (lane_alive l) eqn:Ha; [|by intros Ha'; simpl in Ha'; congruence].
  apply handle_silenced. intros _. specialize (Hs Ha). unfold armed in Hs. by rewrite Hq in Hs.
Qed.

Lemma drain_silenced now n : ∀ l, silenced l → silenced (drain now n l).
Proof. induction n as [|n IH]; intros l Hl; simpl; [done|]. by apply IH, receive_silenced. Qed.

Definition schedules (command : RealtimeMidiCommand) : bool :=
  match command with CmdSchedule _ => true | _ => false end.

Lemma loads_le a command : schedules command = false → loads a command = true → a = true.
Proof. by destruct command. Qed.

Lemma synchronous_silenced now command l :
  schedules command = false → silenced l → silenced (synchronous now command l).1.
Proof.
  intros Hc Hl. unfold synchronous. pose proof (drain_silenced now (length (lane_queue l)) l Hl) as Hd.
  set (l1 := drain now (length (lane_queue l)) l) in *.
  destruct (lane_alive l1) eqn:Ha; [|by intros Ha'; simpl in Ha'; congruence].
  assert (silenced (handle_command (now 0%nat) command l1).1) as Hs.
  { apply handle_silenced. intros _. specialize (Hd Ha). apply not_true_iff_false. intros Hf.
    assert (armed l1 = true) by (eapply foldl_loads_mono; [|exact Hf]; by apply loads_le). congruence. }
  by destruct (handle_command _ _ _).
Qed.

Lemma try_send_silenced command l :
  schedules command = false → silenced l → silenced (try_send command l).1.
Proof.
  intros Hc Hl. unfold try_send. simpl. destruct (lane_alive l) eqn:Ha; simpl.
  - specialize (Hl Ha). destruct (_ <? _)%nat; simpl; [|by intros _].
    intros _. unfold armed. simpl. rewrite foldl_app. simpl. apply not_true_iff_false.
    intros Hf. apply loads_le in Hf; [|done]. unfold armed, holds_items in Hl. simpl in *.
    unfold holds_items in Hf. simpl in Hf. congruence.
  - intros Ha'. simpl in Ha'. congruence.
Qed.

Definition input_schedules (i : LaneInput) : bool :=
  match i with
  | InTrySend command | InSynchronous _ command => schedules command
  | _ => false
  end.

Lemma lane_step_silenced l i :
  input_schedules i = false → silenced l → silenced (lane_step l i).1 ∧ (lane_step l i).2 = [].
Proof.
  intros Hi Hl. destruct i as [command|now command|now|now readings]; cbn [lane_step fst snd].
  - split; [by apply try_send_silenced|done].
  - split; [by apply synchronous_silenced|done].
  - split; [by apply receive_silenced|done].
  - destruct (lane_alive l) eqn:Ha; [|done]. case_bool_decide as Hq; [|done].
    case_bool_decide as Hn; [|done]. exfalso. specialize (Hl Ha). unfold armed in Hl.
    rewrite Hq in Hl. simpl in Hl. apply holds_items_false in Hl.
    unfold next_deadline in Hn. rewrite Hl in Hn. by destruct Hn.
Qed.

Lemma lane_run_silenced inputs : ∀ l,
  Forall (λ i, input_schedules i = false) inputs → silenced l → (lane_run l inputs).2 = [].
Proof.
  induction inputs as [|i inputs IH]; intros l Hi Hl; [done|].
  apply Forall_cons in Hi as [Hi Hr]. destruct (lane_step_silenced l i Hi Hl) as [Hl1 He].
  simpl. destruct (lane_step l i) as [l1 r1]. simpl in *. subst r1. specialize (IH l1 Hr Hl1).
  by destruct (lane_run l1 inputs).
Qed.

(** *** Room in the channel *)

Definition room l : Prop := (length (lane_queue l) < REALTIME_COMMAND_CAPACITY)%nat.

Lemma receive_room now l : room l → room (worker_receive now l).1.
Proof.
  intros Hr. unfold worker_receive, room in *. destruct (lane_queue l) as [|command queue] eqn:Hq;
    [by simpl; rewrite Hq|].
  destruct (lane_alive l); [|by simpl; rewrite Hq]. rewrite handle_command_queue. simpl in *. lia.
Qed.

Lemma drain_room now n : ∀ l, room l → room (drain now n l).
Proof. induction n as [|n IH]; intros l Hl; simpl; [done|]. by apply IH, receive_room. Qed.

Lemma synchronous_room now command l : room l → room (synchronous now command l).1.
Proof.
  intros Hr. unfold synchronous. pose proof (drain_room now (length (lane_queue l)) l Hr) as Hd.
  destruct (lane_alive _); [|done]. unfold room in *.
  rewrite <- (handle_command_queue (now 0%nat) command) in Hd. by destruct (handle_command _ _ _).
Qed.

Lemma turn_room l t : room l → room (lane_step l (turn_input t)).1.
Proof.
  intros Hr. destruct t as [now|now readings]; simpl; [by apply receive_room|].
  destruct (_ && _); [|done]. unfold handle_timeout.
  match goal with |- context [dispatch_all ?d ?r ?x] =>
    pose proof (dispatch_all_spec d r x) as Hs; destruct (dispatch_all d r x) as [l' records] end.
  destruct Hs as ((_ & _ & Hq & _) & _). unfold room in *. simpl in *. by rewrite Hq.
Qed.

Lemma turns_room turns : ∀ l, room l → room (lane_run l (turn_input <$> turns)).1.
Proof.
  induction turns as [|t turns IH]; intros l Hl; simpl; [done|].
  pose proof (turn_room l t Hl) as Ht. destruct (lane_step l (turn_input t)) as [l1 r1].
  specialize (IH l1 Ht). by destruct (lane_run l1 _).
Qed.

Definition has_room (w : world) : Prop := room (lane w).

Lemma has_room_turns : keeps (E:=EngineError) (A:=unit) has_room lane_turns.
Proof.
  intros w Hw. unfold lane_turns. pose proof (turns_room (default [] (head (w_turns w))) _ Hw).
  by destruct (lane_run _ _).
Qed.

Lemma has_room_call command : keeps has_room (lane_call command).
Proof.
  apply keeps_bind; [apply has_room_turns|]. intros _ w Hw. cbn.
  match goal with |- context [synchronous ?n ?c ?l] => pose proof (synchronous_room n c l Hw);
    by destruct (synchronous n c l) end.
Qed.

Lemma has_room_upd f : (∀ o, ow_midi_output (f o) = ow_midi_output o) → keeps has_room (upd f).
Proof. intros Hf w Hw. unfold has_room. simpl. by rewrite Hf. Qed.

Lemma has_room_release : keeps has_room release_active_static_look.
Proof.
  unfold release_active_static_look, count_failed, bump_counter.
  apply keeps_bind; [by intros w|]. intros [a|]; [|by apply keeps_ret].
  apply keeps_bind; [apply has_room_call|].
  intros [[]|e]; [apply keeps_bind; [|intros _]|]; by apply has_room_upd.
Qed.

(** The cancellation is accepted, and silences the lane. *)
Lemma cancel_silences : triple has_room (lane_send CmdCancelAll) (λ _ w, silenced (lane w)).
Proof.
  intros w Hw. unfold lane_send, method_bind. pose proof (has_room_turns w Hw) as Hr.
  destruct (lane_turns w) as [w1 [[]|e]] eqn:Et; [|by unfold lane_turns in Et; destruct (lane_run _ _)].
  simpl in *. unfold try_send. simpl. destruct (lane_alive (lane w1)) eqn:Ha; simpl.
  - unfold has_room, room in Hr. rewrite (proj2 (Nat.ltb_lt _ _)) by done. intros _. simpl.
    unfold armed. simpl. by rewrite foldl_app.
  - intros Ha'. simpl in Ha'. congruence.
Qed.

Lemma release_ok (w : world) : (release_active_static_look w).2 = Ok tt.
Proof.
  unfold release_active_static_look, method_bind, ask, method_get.
  destruct (ow_active_static_look (w_worker w)) as [a|]; [|done].
  unfold lane_call, method_bind. destruct (lane_turns w) as [w1 [[]|e]] eqn:Et;
    [|by unfold lane_turns in Et; destruct (lane_run _ _)].
  simpl. destruct (synchronous _ _ _) as [l [[]|e]]; done.
Qed.

(** A closed output is silent.  When the channel of the lane has room, closing the
    output cannot fail, leaves nothing pending in the executor, and nothing that was
    scheduled before is sent after it: whatever the lane's thread, timeouts and further
    commands do, there is no dispatch until something new is scheduled. *)
Theorem closed_output_silent (w : world) inputs :
  (length (lane_queue (lane w)) < REALTIME_COMMAND_CAPACITY)%nat →
  Forall (λ i, input_schedules i = false) inputs →
  (close_output w).2 = Ok tt ∧
  x_state (ow_autoloop_executor (w_worker (close_output w).1)) = XIdle ∧
  (lane_run (lane (close_output w).1) inputs).2 = [].
Proof.
  intros Hr Hi. unfold close_output.
  pose proof (has_room_release w Hr) as Hr1. pose proof (release_ok w) as Ho.
  unfold method_bind at 1 3 5. destruct (release_active_static_look w) as [w1 r1]. simpl in *. subst r1.
  pose proof (cancel_silences w1 Hr1) as Hs. unfold method_bind.
  destruct (lane_send CmdCancelAll w1) as [w2 [r2|e]] eqn:El.
  - split_and!; [done|done|]. by apply lane_run_silenced.
  - exfalso. unfold lane_send, method_bind in El.
    destruct (lane_turns w1) as [w3 [[]|e']] eqn:Et; [by destruct (try_send _ _)|].
    by unfold lane_turns in Et; destruct (lane_run _ _).
Qed.
End Silence.

(** ** A completion that comes too early *)

Definition race_identity (phrase : Z) : AutoloopExecutionIdentity :=
  mkAutoloopExecutionIdentity 0 1 100 1 phrase.

(** Two Autoloops are prepared one after the other, the second before the deadline of the
    first; then the worker looks for completed sends, and the second is cancelled. *)
Definition race : method (World (Traced (list bool))) EngineError unit :=
  do! publish_midi then
  do! prepare_future_autoloop (race_identity 1) (mkAutoloopTarget 2 7) (2 * one_second) 28 120000 0 then
  do! prepare_future_autoloop (race_identity 2) (mkAutoloopTarget 2 8) (3 * one_second) 29 120000 0 then
  do! service_pending_autoloop then
  cancel_future_autoloop_deadline.

(** The turns of the lane's thread: the requests for the first Autoloop are received and
    its bank is sent before the worker reads the status for the second one; the first
    Autoloop is sent between that reading and the new generation. *)
Definition race_turns : list (list LaneTurn) :=
  [[]; []; []; []; [];
   [TurnReceive one_second; TurnReceive one_second; TurnReceive one_second;
    TurnTimeout (2 * one_second - 1) [(2 * one_second - 1, 2 * one_second - 1)]];
   [TurnTimeout (2 * one_second) [(2 * one_second, 2 * one_second)]];
   [];
   [TurnReceive (2 * one_second); TurnReceive (2 * one_second)]].

(** A premature completion.  The number of sends the worker waits for is counted from
    a status it read before it began the new generation.  When the lane sends the previous
    Autoloop in between, that send is taken for the new one: the new Autoloop is completed
    while it is still scheduled, cancelling it leaves it scheduled, and it is sent. *)
Theorem premature_completion :
  let w := (race (demo_world race_turns)).1 in
  x_state (ow_autoloop_executor (w_worker w)) = XCompleted (race_identity 2) (mkAutoloopTarget 2 8) ∧
  ow_scheduled_future_autoloop (w_worker w) = None ∧
  record_ident <$> w_dispatches w = [(1, (ActionBank, 2)); (1, (ActionAutoloop, 7))] ∧
  record_ident <$> (lane_run (ow_midi_output (w_worker w))
    [InTimeout (3 * one_second) [(3 * one_second, 3 * one_second)]]).2 = [(2, (ActionAutoloop, 8))].
Proof. vm_compute. split_and!; reflexivity. Qed.

(** ** Concrete inputs *)

(** Both Autoloops of the race are prepared, and the second is still scheduled. *)
Definition prepared_world : World (Traced (list bool)) := (race (demo_world race_turns)).1.

Lemma closed_output_silent_witness :
  lane_scheduled (ow_midi_output (w_worker prepared_world)) ≠ [] ∧
  (lane_run (ow_midi_output (w_worker (close_output prepared_world).1))
     [InReceive 0; InTimeout (9 * one_second) []]).2 = [].
Proof.
  split; [vm_compute; discriminate|].
  apply (closed_output_silent prepared_world [InReceive 0; InTimeout (9 * one_second) []]);
    [vm_compute; lia|repeat constructor].
Defined.

(** *** A full channel *)

(** The prepared Autoloop is moved to each of the deadlines. *)
Fixpoint move_to (deadlines : list Z) : method (World (Traced (list bool))) EngineError unit :=
  match deadlines with
  | [] => method_ret tt
  | deadline :: deadlines =>
      let! scheduled := ask ow_scheduled_future_autoloop in
      do! (match scheduled with
           | Some scheduled => retime_future_autoloop scheduled deadline 120000
           | None => method_ret tt
           end) then
      move_to deadlines
  end.

Definition flood : method (World (Traced (list bool))) EngineError unit :=
  do! publish_midi then
  do! prepare_future_autoloop (race_identity 1) (mkAutoloopTarget 2 7) (2 * one_second) 28 120000 0 then
  do! move_to ((λ n, (2 + Z.of_nat n mod 2) * one_second) <$> seq 1 64) then
  close_output.

Definition flood_turns : list (list LaneTurn) :=
  [[]; []; []; []; [];
   [TurnReceive one_second; TurnReceive one_second; TurnReceive one_second]].

(** When the channel of the lane is full, closing the output reports no error, but its
    cancellation is dropped: the bank and the Autoloop that were prepared are sent although
    the output is closed. *)
Theorem saturated_close_still_sends :
  let '(w, r) := flood (demo_world flood_turns) in
  r = Ok tt ∧ x_state (ow_autoloop_executor (w_worker w)) = XIdle ∧
  mss_last_error (rms_source (lane_status (ow_midi_output (w_worker w)))) =
    Some (lit "Realtime MIDI lane saturated; output failed closed") ∧
  record_ident <$> (lane_run (ow_midi_output (w_worker w))
    (replicate 64 (InReceive one_second) ++
     [InTimeout (3 * one_second) [(3 * one_second, 3 * one_second); (3 * one_second, 3 * one_second)]])).2 =
    [(1, (ActionBank, 2)); (1, (ActionAutoloop, 7))].
Proof. vm_compute. split_and!; reflexivity. Qed.
