(* ===== verification/OutputWorkerAnswers.v ===== *)
(** * The answers of the output worker

    Every effect of the reducer is answered: a domain event that is processed on an idle
    runtime is the event followed by the answers of the worker to its effects, in order,
    with consecutive sequence numbers. *)

From stdpp Require Import prelude list gmap strings.
From Stdlib Require Import ZArith Lia.
From S2P Require Import Prelude.
From S2P Require Import Track.
From S2P Require Import Plan.
From S2P Require Import Event.
From S2P Require Import State.
From S2P Require Import Reducer.
From S2P Require Import ReducerInv.
From S2P Require Import ReducerSafety.
From S2P Require Import Demo.
From S2P Require Import ReducerProps.
From S2P Require Import Runtime.
From S2P Require Import LightPlans.
From S2P Require Import AutoloopExecutor.
From S2P Require Import Output.
From S2P Require Import LaunchPolicy.
From S2P Require Import Midi.
From S2P Require Import MidiLane.
From S2P Require Import MidiClock.
From S2P Require Import OutputWorker.
From S2P Require Import OutputWorkerProps.
Open Scope Z_scope.

(** ** What an effect is answered with *)

(** Under the immediate launch policy a cue is executed exactly when it is current. *)
Definition expected_answer (s : RuntimeState) (effect : Effect) : EffectResult * MonotonicTime :=
  match effect with
  | EnsureOutputClosed _ => (OutputGateClosed, 0)
  | ExecuteCue request =>
      (OutputEffectRecorded
         (if execution_context_is_current s request
          then mkOutputEffectResult request (req_scheduled_at request) StatusSimulated PhraseBoundary
          else mkOutputEffectResult request (req_scheduled_at request) StatusSkipped
                 StaleExecutionContext),
       req_scheduled_at request)
  end.

Definition answer_event (sequence : Z) (answer : EffectResult * MonotonicTime) : DomainEvent :=
  EffectResultEvent (mkEffectResultEnvelope sequence 2 sequence answer.2 answer.1).

(** The answers to the effects of one event, numbered after [sequence]. *)
Fixpoint answer_events (s : RuntimeState) (sequence : Z) (effects : list Effect) : list DomainEvent :=
  match effects with
  | [] => []
  | effect :: effects =>
      answer_event (sequence + 1) (expected_answer s effect)
        :: answer_events s (sequence + 1) effects
  end.

Lemma current_ext s t request :
  rs_operation t = rs_operation s → rs_leader_deck t = rs_leader_deck s →
  rs_decks t = rs_decks s → rs_active_plan t = rs_active_plan s →
  execution_context_is_current t request = execution_context_is_current s request.
Proof. intros H1 H2 H3 H4. unfold execution_context_is_current. by rewrite H1, H2, H3, H4. Qed.

Lemma expected_ext s t effect :
  (∀ request, execution_context_is_current t request = execution_context_is_current s request) →
  expected_answer t effect = expected_answer s effect.
Proof. intros Hc. destruct effect; simpl; by rewrite ?Hc. Qed.

Lemma answer_events_ext s t effects : ∀ sequence,
  (∀ request, execution_context_is_current t request = execution_context_is_current s request) →
  answer_events t sequence effects = answer_events s sequence effects.
Proof.
  induction effects as [|effect effects IH]; intros sequence Hc; simpl; [done|].
  rewrite IH by done. by rewrite (expected_ext s t) by done.
Qed.

(** Reducing an answer: it is accepted, has no effects and leaves what is current. *)
Lemma answer_reduced s sequence effect :
  state_wf s → rs_processed_events s < U64_MAX →
  ∃ r, reduce s (answer_event sequence (expected_answer s effect)) = Ok r ∧ red_effects r = [] ∧
    rs_processed_events (red_state r) = rs_processed_events s + 1 ∧
    ∀ request, execution_context_is_current (red_state r) request = execution_context_is_current s request.
Proof.
  intros Hs Hp.
  assert (∃ s1 d ch, reduce_event s (answer_event sequence (expected_answer s effect)) = Ok (s1, d, [], ch)
    ∧ ∀ request, execution_context_is_current s1 request = execution_context_is_current s request)
    as (s1 & d & ch & He & Hc).
  { simpl. unfold reduce_effect_result. destruct (sequence_stale _ _ _); [by eexists _, _, _|].
    destruct effect; by eexists _, _, _. }
  destruct (proj2 (reduce_is_ok s (answer_event sequence (expected_answer s effect)) Hs Hp))
    as [r Hr]; [by eexists|].
  exists r. split; [done|]. pose proof Hr as (s2 & He2 & Hf & Ho & _ & Hd & _ & Hl & Ha & _)%reduce_Ok.
  rewrite He in He2. injection He2 as <- _ Heff _. split; [done|]. split.
  - apply finish_reduction_Ok in Hf as (_ & _ & ->). simpl.
    apply reduce_event_ok in He as [[Hled _] _]. injection Hled as _ Hpr _ _.
    destruct (red_state_changed r); simpl; by rewrite Hpr.
  - intros request. rewrite <- Hc. by apply current_ext.
Qed.

(** ** An idle runtime *)

(** Nothing is queued, and there is room for an event. *)
Definition idle (rt : SerializedRuntime) : Prop :=
  q_events (rt_ingress rt) = [] ∧ q_pending_overload (rt_ingress rt) = None ∧
  (0 < q_capacity (rt_ingress rt))%nat.

Section Answers.
Context {P E : Type} `{MidiSourceProvider P E}.
Implicit Types (w : World P).
Notation worker A := (method (World P) EngineError A).

Lemma submit_idle event w r :
  idle (w_runtime w) → reduce (rt_state (w_runtime w)) event = Ok r →
  submit_and_process event w =
    (set_runtime (mkSerializedRuntime (red_state r) (rt_ingress (w_runtime w))) w,
     Ok (mkProcessResult (DomainEvent_kind event) (rs_revision (red_state r)) (red_decision r)
           (red_effects r))).
Proof.
  intros (Hq & Ho & Hc) Hr. unfold submit_and_process, submit, queue_push.
  destruct (rt_ingress (w_runtime w)) as [capacity events overload] eqn:Hi. simpl in *. subst.
  rewrite bool_decide_eq_true_2 by (simpl; lia). simpl. unfold process_next. simpl. by rewrite Hr.
Qed.

(** *** Methods that leave the runtime, the numbering and the policy *)

Definition core w : SerializedRuntime * Z * LaunchPolicy :=
  (w_runtime w, ow_effect_sequence (w_worker w), ow_launch_policy (w_worker w)).

Definition steady {A} (m : worker A) : Prop := ∀ w, core (m w).1 = core w.

(** Steady, and without an error. *)
Definition calm {A} (m : worker A) : Prop := ∀ w, core (m w).1 = core w ∧ is_ok (m w).2.

Lemma calm_steady {A} (m : worker A) : calm m → steady m.
Proof. intros Hm w. apply Hm. Qed.

Lemma steady_bind {A B} (m : worker A) (k : A → worker B) :
  steady m → (∀ a, steady (k a)) → steady (method_bind m k).
Proof.
  intros Hm Hk w. unfold method_bind. specialize (Hm w).
  destruct (m w) as [w1 [a|e]]; simpl in *; [|done]. by rewrite Hk.
Qed.

Lemma calm_bind {A B} (m : worker A) (k : A → worker B) :
  calm m → (∀ a, calm (k a)) → calm (method_bind m k).
Proof.
  intros Hm Hk w. unfold method_bind. destruct (Hm w) as [Hc [a Ha]].
  destruct (m w) as [w1 r]. simpl in *. subst r. destruct (Hk a w1) as [Hc' Hr]. split; [congruence|done].
Qed.

Lemma calm_ret {A} (a : A) : calm (method_ret a).
Proof. intros w. split; [done|by eexists]. Qed.
Lemma calm_get {A} (f : World P → A) : calm (method_get f).
Proof. intros w. split; [done|by eexists]. Qed.
Lemma calm_ask {A} (f : OutputWorker P → A) : calm (ask f).
Proof. intros w. split; [done|by eexists]. Qed.
Lemma calm_now : calm instant_now.
Proof. intros w. split; [done|by eexists]. Qed.
Lemma calm_attempt {A} (m : worker A) : steady m → calm (attempt m).
Proof.
  intros Hm w. specialize (Hm w). unfold attempt. destruct (m w). split; [done|by eexists].
Qed.
Lemma calm_upd (f : OutputWorker P → OutputWorker P) :
  (∀ o, ow_effect_sequence (f o) = ow_effect_sequence o ∧ ow_launch_policy (f o) = ow_launch_policy o) →
  calm (upd f).
Proof.
  intros Hf w. destruct (Hf (w_worker w)) as [H1 H2]. split; [|by eexists].
  unfold core. simpl. by rewrite H1, H2.
Qed.
Lemma calm_turns : calm lane_turns.
Proof. intros w. unfold lane_turns. destruct (lane_run _ _). split; [done|by eexists]. Qed.
Lemma calm_send command : calm (lane_send command).
Proof.
  apply calm_bind; [apply calm_turns|]. intros _ w. destruct (try_send _ _). split; [done|by eexists].
Qed.
Lemma calm_call command : calm (lane_call command).
Proof.
  apply calm_bind; [apply calm_turns|]. intros _. apply calm_bind; [apply calm_now|].
  intros now w. destruct (synchronous _ _ _). split; [done|by eexists].
Qed.

Create HintDb calm discriminated.
#[local] Hint Resolve calm_ret calm_get calm_ask calm_now calm_turns calm_send calm_call : calm.

Ltac calm_step :=
  first
    [ solve [eauto 2 with calm]
    | apply calm_upd; intros ?; split; reflexivity
    | apply calm_bind; [|intros ?]
    | match goal with
      | |- calm (match ?x with _ => _ end) => destruct x
      | |- calm (if ?x then _ else _) => destruct x
      end ].
Ltac calm_auto := repeat calm_step.

Lemma calm_status : calm midi_status.
Proof. unfold midi_status. calm_auto. Qed.
#[local] Hint Resolve calm_status : calm.

Lemma calm_ensure : calm (attempt ensure_lighting_midi).
Proof.
  apply calm_attempt. unfold ensure_lighting_midi, midi_or_fail.
  repeat first
    [ apply calm_steady; solve [calm_auto]
    | apply steady_bind; [|intros ?]
    | match goal with |- steady (if ?x then _ else _) => destruct x end
    | by intros w ].
Qed.
#[local] Hint Resolve calm_ensure : calm.

Lemma calm_execute_autoloop request bank autoloop : calm (execute_autoloop request bank autoloop).
Proof.
  unfold execute_autoloop, complete_emitted, on_executor, begin_realtime_generation,
    schedule_bank_action, schedule_autoloop_action, record_autoloop_schedule. calm_auto.
Qed.
#[local] Hint Resolve calm_execute_autoloop : calm.

Lemma calm_transition request : calm (execute_static_look_transition request).
Proof. unfold execute_static_look_transition, count_failed, bump_counter. calm_auto. Qed.
#[local] Hint Resolve calm_transition : calm.

Lemma calm_initial_launch state : calm (update_initial_launch state).
Proof. unfold update_initial_launch, on_gate. calm_auto. Qed.
#[local] Hint Resolve calm_initial_launch : calm.

Lemma calm_close : calm close_output.
Proof.
  unfold close_output, release_active_static_look, count_failed, bump_counter, on_executor. calm_auto.
Qed.
#[local] Hint Resolve calm_close : calm.

(** *** One effect *)

(** The numbers of the action fit the MIDI profile. *)
Definition fits (effect : Effect) : Prop :=
  match effect with
  | ExecuteCue request => is_ok (automatic_midi_target (req_action request))
  | EnsureOutputClosed _ => True
  end.

Lemma calm_drive request : fits (ExecuteCue request) → calm (drive_midi request).
Proof. intros [target Ht]. unfold drive_midi. rewrite Ht. calm_auto. Qed.

(** A run that succeeds with [a] and leaves the core of [w]. *)
Definition yields {A} w (a : A) (x : World P * result A EngineError) : Prop :=
  x.2 = Ok a ∧ core x.1 = core w.

(** A calm method in front of another. *)
Lemma calm_run {A B} (m : worker A) (k : A → worker B) w w0 b :
  calm m → core w = core w0 → (∀ w1 a, core w1 = core w0 → yields w0 b (k a w1)) →
  yields w0 b (method_bind m k w).
Proof.
  intros Hm Hw Hk. unfold method_bind. destruct (Hm w) as [Hc [a Ha]].
  destruct (m w) as [w1 r]. simpl in *. subst r. apply Hk. congruence.
Qed.

(** What a cue is answered with. *)
Definition cue_result (s : RuntimeState) (request : OutputExecutionRequest) : OutputEffectResult :=
  if execution_context_is_current s request
  then mkOutputEffectResult request (req_scheduled_at request) StatusSimulated PhraseBoundary
  else mkOutputEffectResult request (req_scheduled_at request) StatusSkipped StaleExecutionContext.

Lemma provider_run {B} request (k : OutputEffectResult → worker B) w w0 b :
  core w = core w0 →
  (∀ w1, core w1 = core w0 → yields w0 b
     (k (mkOutputEffectResult request (req_scheduled_at request) StatusSimulated PhraseBoundary) w1)) →
  yields w0 b (method_bind (execute_provider request) k w).
Proof. intros Hw Hk. unfold method_bind. simpl. by apply Hk. Qed.

Lemma cue_answers request w :
  ow_launch_policy (w_worker w) = Immediate → fits (ExecuteCue request) →
  yields w (cue_result (rt_state (w_runtime w)) request) (execute_cue request w).
Proof.
  intros Hp Hf. unfold execute_cue. unfold method_bind at 1 2, method_get. cbn [fst snd].
  apply calm_run; [apply calm_initial_launch|done|]. intros w1 [] Hc1.
  unfold method_bind at 1. unfold ask, method_get, initial_launch_allows, gate_allows.
  assert (ow_launch_policy (w_worker w1) = Immediate) as -> by (injection Hc1; congruence).
  rewrite bool_decide_eq_true_2 by done. rewrite andb_true_r. unfold cue_result.
  destruct (execution_context_is_current _ request); [|done].
  apply provider_run; [done|]. intros w2 Hc2.
  apply calm_run; [by apply calm_drive|done|]. intros w3 [] Hc3.
  apply calm_run; [apply calm_transition|done|]. intros w4 [] Hc4. done.
Qed.

Lemma perform_answers effect w :
  ow_launch_policy (w_worker w) = Immediate → fits effect →
  yields w (expected_answer (rt_state (w_runtime w)) effect) (perform_effect effect w).
Proof.
  intros Hp Hf. destruct effect as [reason|request]; cbn [perform_effect expected_answer].
  { apply calm_run; [apply calm_close|done|]. by intros w1 []. }
  destruct (cue_answers request w Hp Hf) as [Hr Hc]. unfold method_bind.
  destruct (execute_cue request w) as [w1 r]. simpl in *. subst r. split; [|done]. simpl.
  unfold cue_result. by destruct (execution_context_is_current _ _).
Qed.

(** *** All effects of an event *)

Definition answerable (n : Z) w : Prop :=
  idle (w_runtime w) ∧ state_wf (rt_state (w_runtime w)) ∧
  rs_processed_events (rt_state (w_runtime w)) + n ≤ U64_MAX ∧
  0 ≤ ow_effect_sequence (w_worker w) ∧ ow_effect_sequence (w_worker w) + n ≤ U64_MAX ∧
  ow_launch_policy (w_worker w) = Immediate.

(** One effect is performed, numbered and reported; the others follow. *)
Lemma effect_answered effect effects w n :
  0 ≤ n → answerable (n + 1) w → fits effect →
  let s := rt_state (w_runtime w) in
  let event := answer_event (ow_effect_sequence (w_worker w) + 1) (expected_answer s effect) in
  ∃ w1 r, process_effects (effect :: effects) w = process_effects effects w1 ∧
    reduce s event = Ok r ∧ red_effects r = [] ∧
    w_runtime w1 = mkSerializedRuntime (red_state r) (rt_ingress (w_runtime w)) ∧
    ow_effect_sequence (w_worker w1) = ow_effect_sequence (w_worker w) + 1 ∧
    answerable n w1 ∧
    ∀ request, execution_context_is_current (red_state r) request = execution_context_is_current s request.
Proof.
  intros Hn (Hi & Hs & Hp & H0 & He & Hl) Hf s event.
  destruct (answer_reduced s (ow_effect_sequence (w_worker w) + 1) effect Hs ltac:(subst s; lia))
    as (r & Hr & Heff & Hproc & Hcur).
  destruct (perform_answers effect w Hl Hf) as [Ha Hc].
  cbn [process_effects]. unfold method_bind at 1. destruct (perform_effect effect w) as [w1 a].
  simpl in Ha, Hc. subst a. injection Hc as Hrt Hseq Hpol.
  unfold method_bind at 1. unfold next_effect_sequence. unfold method_bind at 1. unfold ask, method_get.
  rewrite Hseq. assert (checked_add_u64 (ow_effect_sequence (w_worker w)) 1 =
    Some (ow_effect_sequence (w_worker w) + 1)) as ->.
  { unfold checked_add_u64. rewrite (proj2 (Z.leb_le _ _)); [done|lia]. }
  unfold upd, method_modify. unfold method_bind at 1. unfold method_ret at 1.
  set (w2 := set_worker _ w1). unfold method_bind at 1. unfold report_effect, method_bind.
  fold (answer_event (ow_effect_sequence (w_worker w) + 1) (expected_answer (rt_state (w_runtime w)) effect)).
  rewrite (submit_idle _ w2 r); [|by subst w2; simpl; rewrite Hrt..].
  eexists _, r. split; [reflexivity|]. subst w2. simpl. split_and!; [done|done|by rewrite Hrt|done| |done].
  assert (state_wf (red_state r)).
  { eapply reduce_preserves_wf; [exact Hs| |exact Hr]. by destruct effect. }
  unfold answerable. simpl. rewrite Hrt, Hpol. split_and!; try done; try lia. subst s. lia.
Qed.

Lemma effects_answered effects : ∀ w,
  answerable (Z.of_nat (length effects)) w → Forall fits effects →
  let s := rt_state (w_runtime w) in
  let answers := answer_events s (ow_effect_sequence (w_worker w)) effects in
  let '(w1, r) := process_effects effects w in
  r = Ok tt ∧ w_runtime w1 = mkSerializedRuntime (run_events s answers).1 (rt_ingress (w_runtime w)) ∧
  (run_events s answers).2 = [] ∧
  ow_effect_sequence (w_worker w1) = ow_effect_sequence (w_worker w) + Z.of_nat (length effects).
Proof.
  induction effects as [|effect effects IH]; intros w Hw Hf.
  { cbn. split_and!; [done|by destruct (w_runtime w)|done|lia]. }
  apply Forall_cons in Hf as [Hf Hfs].
  destruct (effect_answered effect effects w (Z.of_nat (length effects)))
    as (w1 & r & -> & Hr & Heff & Hrt & Hseq & Hw1 & Hcur); [lia| |done|].
  { replace (Z.of_nat (length effects) + 1) with (Z.of_nat (length (effect :: effects))); [done|].
    simpl. lia. }
  intros s answers. specialize (IH w1 Hw1 Hfs). cbv zeta in IH.
  rewrite Hrt, Hseq in IH. cbn [rt_state rt_ingress] in IH.
  rewrite (answer_events_ext s (red_state r)) in IH by done.
  subst answers. cbn [answer_events]. rewrite run_events_cons. unfold step_event.
  fold s in Hr. rewrite Hr.
  cbn [fst snd]. rewrite Heff. destruct (process_effects effects w1) as [w2 r2].
  destruct IH as (-> & -> & -> & ->). split_and!; [done..|]. simpl. lia.
Qed.

(** C10: every effect is answered.  On an idle runtime, a domain event the reducer accepts
    is processed together with the answers to its effects: the state afterwards is that of
    the reducer run over the event and one answer per effect, in order, with consecutive
    numbers; a cue is answered as simulated exactly when it is still current, and otherwise
    as skipped; the runtime is idle again.  The state is well formed, the launch policy
    the immediate one, every requested action has a target or needs none ([fits]), and the
    counters of events and effects have room for the answers ([answerable]). *)
Theorem domain_event_answered event w r :
  answerable (1 + Z.of_nat (length (red_effects r))) w → event_wf event → Forall fits (red_effects r) →
  reduce (rt_state (w_runtime w)) event = Ok r →
  let answers := answer_events (red_state r) (ow_effect_sequence (w_worker w)) (red_effects r) in
  let '(w1, outcome) := process_domain_event event w in
  outcome = Ok tt ∧
  w_runtime w1 = mkSerializedRuntime (run_events (rt_state (w_runtime w)) (event :: answers)).1
                   (rt_ingress (w_runtime w)) ∧
  (run_events (rt_state (w_runtime w)) (event :: answers)).2 = red_effects r ∧
  ow_effect_sequence (w_worker w1) =
    ow_effect_sequence (w_worker w) + Z.of_nat (length (red_effects r)) ∧
  idle (w_runtime w1).
Proof.
  intros (Hi & Hs & Hp & H0 & He & Hl) Hev Hf Hr answers.
  unfold process_domain_event, method_bind. rewrite (submit_idle _ _ _ Hi Hr). cbn [pr_effects].
  set (w1 := set_runtime _ w).
  pose proof (reduce_Ok _ _ _ Hr) as (s1 & Hre & Hfin & _).
  apply reduce_event_ok in Hre as [[Hled _] _]. injection Hled as _ Hpr _ _.
  apply finish_reduction_Ok in Hfin as (_ & _ & Hfin).
  assert (rs_processed_events (red_state r) = rs_processed_events (rt_state (w_runtime w)) + 1) as Hproc.
  { rewrite Hfin. destruct (red_state_changed r); simpl; by rewrite Hpr. }
  pose proof (effects_answered (red_effects r) w1) as Ha.
  destruct (process_effects (red_effects r) w1) as [w2 r2].
  destruct Ha as (-> & Hrt & Heff & Hseq); [|done|].
  { split_and!; try done; simpl; [|lia|lia]. by eapply reduce_preserves_wf. }
  rewrite run_events_cons. unfold step_event. rewrite Hr. cbn [fst snd].
  simpl in Hrt, Heff, Hseq. fold answers in Hrt, Heff. rewrite Hrt, Heff, app_nil_r.
  split_and!; try done; apply Hi.
Qed.
End Answers.

(** ** A concrete event *)

(** The demonstration is live in its first phrase; the second one begins. *)
Definition live_world : World (Traced (list bool)) :=
  set_runtime (mkSerializedRuntime demo_live (mkBoundedEventQueue 8 [] None)) (demo_world []).

Definition next_phrase : DomainEvent := demo_observation 5 6 (PhraseChanged 1 100 1).

Definition next_phrase_reduction : Reduction :=
  match reduce (rt_state (w_runtime live_world)) next_phrase with
  | Ok r => r
  | Err _ => mkReduction RuntimeState_default DRuntimeInitialized [] false
  end.

Lemma live_world_answerable : answerable 2 live_world.
Proof.
  split; [split_and!; vm_compute; reflexivity || lia|]. split; [exact demo_live_wf|].
  split_and!; vm_compute; reflexivity || discriminate.
Qed.

Lemma domain_event_answered_witness :
  length (red_effects next_phrase_reduction) = 1%nat ∧
  (process_domain_event next_phrase live_world).2 = Ok tt ∧
  ow_effect_sequence (w_worker (process_domain_event next_phrase live_world).1) = 1 ∧
  oer_status <$> rs_output_effects
    (rt_state (w_runtime (process_domain_event next_phrase live_world).1)) = [StatusSimulated].
Proof.
  split_and!; [vm_compute; reflexivity| |vm_compute; reflexivity..].
  pose proof (domain_event_answered next_phrase live_world next_phrase_reduction) as Ha.
  destruct (process_domain_event next_phrase live_world) as [w1 outcome].
  apply Ha; [exact live_world_answerable|by vm_compute| |vm_compute; reflexivity].
  vm_compute. repeat constructor. by eexists.
Defined.
