(* ===== verification/LibraryContext.v ===== *)
(** * The prepared track of the library

    Models [LibraryPlanContext] of [lumi-engine/src/library.rs]: a track prepared for
    playback with its beat grid, hot cues, phrases and roles, and the catalogue that
    maps roles to Autoloops.  It decides which Themes can start the track and cover it,
    resolves and compiles Autoloops, and anchors the MIDI clock.  The reads of the
    repository are arguments; the waveform previews of the record, which are JSON
    values, are left out, and the selection of their points is modelled on its own. *)

From stdpp Require Import prelude list gmap strings.
From Stdlib Require Import ZArith Lia.
From S2P Require Import Prelude.
From S2P Require Import Track.
From S2P Require Import LightPlans.
From S2P Require Import PhraseTimeline.
From S2P Require Import LibrarySource.
From S2P Require Import PhraseRoles.
From S2P Require Import AutoloopCatalog.
Open Scope Z_scope.

(** ** Data *)

Record LibraryPhrasePlanContext := mkLibraryPhrasePlanContext {
  lpp_phrase_index : Z;
  lpp_start_beat : Z;
  lpp_end_beat : Z;
  lpp_role_id : PhraseRoleId;
  lpp_role_name : str;
  lpp_role_color_rgb : Z;
  lpp_strategy : PhraseLoopStrategy;
}.

Record LibraryPlanContext := mkLibraryPlanContext {
  lpc_provider_kind : str;
  lpc_source_id : str;
  lpc_source_name : str;
  lpc_source_track_id : str;
  lpc_analysis_revision : str;
  lpc_timeline_revision : Z;
  lpc_audio_uri : str;
  lpc_duration_millis : Z;
  lpc_beat_grid : BeatGrid;
  lpc_hot_cues : list HotCue;
  lpc_track_color : option TrackColor;
  lpc_catalog : AutoloopCatalog;
  lpc_phrases : list LibraryPhrasePlanContext;
  lpc_autoloop_overrides : gmap Z VariantId;
}.

Definition set_lpc_autoloop_overrides (x : gmap Z VariantId) (c : LibraryPlanContext) :
    LibraryPlanContext :=
  mkLibraryPlanContext (lpc_provider_kind c) (lpc_source_id c) (lpc_source_name c)
    (lpc_source_track_id c) (lpc_analysis_revision c) (lpc_timeline_revision c) (lpc_audio_uri c)
    (lpc_duration_millis c) (lpc_beat_grid c) (lpc_hot_cues c) (lpc_track_color c) (lpc_catalog c)
    (lpc_phrases c) x.

Record ResolvedLibraryCue := mkResolvedLibraryCue {
  rlc_phrase_index : Z;
  rlc_role_id : str;
  rlc_role_name : str;
  rlc_strategy : str;
  rlc_variant_id : str;
  rlc_entry_id : str;
  rlc_entry_name : str;
  rlc_bank_number : Z;
  rlc_autoloop_number : option Z;
  rlc_catalog_revision : Z;
  rlc_resolution_reason : str;
}.

(** [delay_to_next_tick] in nanoseconds. *)
Record LocalPlaybackClockAnchor := mkLocalPlaybackClockAnchor {
  anchor_bpm_milli : Z;
  anchor_beat_index : Z;
  anchor_song_position_16th : Z;
  anchor_delay_to_next_tick : Z;
}.

Implicit Types (c : LibraryPlanContext) (phrase : LibraryPhrasePlanContext).

Definition has_same_prepared_revision c (other : LibraryPlanContext) : bool :=
  bool_decide (lpc_analysis_revision c = lpc_analysis_revision other)
  && (lpc_timeline_revision c =? lpc_timeline_revision other)
  && (ac_revision (lpc_catalog c) =? ac_revision (lpc_catalog other)).

Definition inherit_autoloop_overrides (previous : LibraryPlanContext) (changed_phrase_index : Z) c :
    LibraryPlanContext :=
  set_lpc_autoloop_overrides (delete changed_phrase_index (lpc_autoloop_overrides previous)) c.

Definition lpc_catalog_revision c : Z := ac_revision (lpc_catalog c).

Definition track_color_rgb c : option Z := TrackColor_rgb_u32 <$> lpc_track_color c.

(** ** Resolution *)

Definition loop_strategy_name (strategy : PhraseLoopStrategy) : str :=
  match strategy with
  | StrategyAuto => lit "auto"
  | StrategyFixedVariant _ => lit "fixedVariant"
  | StrategyThemeSpecificExact _ => lit "themeSpecificExact"
  end.

Definition autoloop_resolution_reason_name (reason : AutoloopResolutionReason) : str :=
  match reason with
  | ReasonAutomatic => lit "automatic"
  | ReasonExactVariant => lit "exactVariant"
  | ReasonThemeSpecificExact => lit "themeSpecificExact"
  | ReasonSameRoleFallback requested => lit "sameRoleFallback:" ++ requested
  end.

(** The button of a mapping: 1 to 32. *)
Definition mapping_number (variant_id : VariantId) : option Z :=
  value ← catalog_mapping_number variant_id;
  if (1 <=? value) && (value <=? 32) then Some value else None.

Definition resolve_phrase c (theme_id : ThemeId) phrase :
    result AutoloopResolution AutoloopCatalogError :=
  match lpc_autoloop_overrides c !! lpp_phrase_index phrase with
  | Some variant_id =>
      catalog_resolve (lpc_catalog c) theme_id (lpp_role_id phrase) (Some variant_id)
        (ac_revision (lpc_catalog c))
  | None =>
      resolve_loop_strategy (lpc_catalog c) theme_id (lpp_role_id phrase) (lpp_strategy phrase)
        (ac_revision (lpc_catalog c))
  end.

Definition resolves c (theme_id : ThemeId) phrase : bool :=
  match resolve_phrase c theme_id phrase with Ok _ => true | Err _ => false end.

Definition phrase_at c (phrase_index : Z) : option LibraryPhrasePlanContext :=
  List.find (λ phrase, lpp_phrase_index phrase =? phrase_index) (lpc_phrases c).

Definition strategy_text c phrase (phrase_index : Z) : str :=
  if bool_decide (is_Some (lpc_autoloop_overrides c !! phrase_index))
  then lit "planOverride" else loop_strategy_name (lpp_strategy phrase).

Definition resolved_autoloop c (theme_id : ThemeId) (phrase_index : Z) : option ResolvedLibraryCue :=
  phrase ← phrase_at c phrase_index;
  match resolve_phrase c theme_id phrase with
  | Err _ => None
  | Ok resolution =>
      Some (mkResolvedLibraryCue phrase_index (lpp_role_id phrase) (lpp_role_name phrase)
              (strategy_text c phrase phrase_index) (AutoloopCatalog.ar_variant_id resolution)
              (AutoloopCatalog.ar_entry_id resolution) (AutoloopCatalog.ar_display_name resolution)
              theme_id (mapping_number (AutoloopCatalog.ar_variant_id resolution))
              (AutoloopCatalog.ar_catalog_revision resolution)
              (autoloop_resolution_reason_name (AutoloopCatalog.ar_reason resolution)))
  end.

(** The mapped cells of a Theme for the role of a phrase. *)
Definition choice_of_cell c (theme_id : ThemeId) phrase (phrase_index : Z)
    (cell : AutoloopMatrixCell) : option ResolvedLibraryCue :=
  number ← mapping_number (amc_variant_id cell);
  Some (mkResolvedLibraryCue phrase_index (lpp_role_id phrase) (lpp_role_name phrase)
          (strategy_text c phrase phrase_index) (amc_variant_id cell) (amc_entry_id cell)
          (amc_display_name cell) theme_id (Some number) (ac_revision (lpc_catalog c))
          (strategy_text c phrase phrase_index)).

(** Every choice has a number, so that the order of the options is the one of the numbers. *)
Definition autoloop_choices c (theme_id : ThemeId) (phrase_index : Z) : list ResolvedLibraryCue :=
  match phrase_at c phrase_index with
  | None => []
  | Some phrase =>
      sort_by_key (λ choice, default 0 (rlc_autoloop_number choice))
        (omap (choice_of_cell c theme_id phrase phrase_index)
           (List.filter (λ cell, (amc_theme_id cell =? theme_id)
                                 && bool_decide (amc_role_id cell = lpp_role_id phrase))
              (ac_cells (lpc_catalog c))))
  end.

Definition set_autoloop_override (theme_id : ThemeId) (phrase_index autoloop_number : Z) c :
    result LibraryPlanContext AutoloopCatalogError :=
  match phrase_at c phrase_index with
  | None => Err ACUnknownPhraseRole
  | Some phrase =>
      let? cell := ok_or (List.find (λ cell, (amc_theme_id cell =? theme_id)
                            && bool_decide (amc_role_id cell = lpp_role_id phrase)
                            && bool_decide (mapping_number (amc_variant_id cell) = Some autoloop_number))
                          (ac_cells (lpc_catalog c))) ACMissingExactCell in
      Ok (set_lpc_autoloop_overrides
            (<[phrase_index := amc_variant_id cell]> (lpc_autoloop_overrides c)) c)
  end.

(** ** Themes *)

Definition startable_themes c : list (ThemeId * str) :=
  omap (λ theme, if match lpc_phrases c with
                    | [] => false
                    | phrase :: _ => resolves c (at_id theme) phrase
                    end
                 then Some (at_id theme, at_display_name theme) else None)
    (ac_themes (lpc_catalog c)).

Definition mapped_phrases c (theme_id : ThemeId) : nat :=
  length (List.filter (resolves c theme_id) (lpc_phrases c)).

Definition best_covered_themes c (themes : list (ThemeId * str)) : list (ThemeId * str) :=
  match themes with
  | [] => []
  | _ =>
      let maximum := foldr Nat.max 0%nat ((λ theme, mapped_phrases c theme.1) <$> themes) in
      List.filter (λ theme, Nat.eqb (mapped_phrases c theme.1) maximum) themes
  end.

Definition theme_rule_for (policy : LightPlanningPolicy) (theme_id : ThemeId) : option ThemeRule :=
  List.find (λ rule, tr_theme_id rule =? theme_id) (lp_theme_rules policy).

Definition color_only_match (policy : LightPlanningPolicy) (color : option Z) (theme_id : ThemeId) :
    bool :=
  match theme_rule_for policy theme_id with
  | Some rule =>
      tr_enabled rule && bool_decide (tr_color_behavior rule = LCOnly)
      && match color with Some color => bool_decide (color ∈ tr_color_rgb rule) | None => false end
  | None => false
  end.

Definition policy_eligible_executable_themes (themes : list (ThemeId * str)) (color : option Z)
    (policy : LightPlanningPolicy) : list (ThemeId * str) :=
  if bool_decide (lp_theme_rules policy = []) then themes
  else
    let matching_only := List.filter (λ theme, color_only_match policy color theme.1) themes in
    List.filter (λ theme,
      match theme_rule_for policy theme.1 with
      | None => false
      | Some rule =>
          tr_enabled rule
          && if bool_decide (matching_only = [])
             then negb (bool_decide (tr_color_behavior rule = LCOnly))
             else bool_decide (theme.1 ∈ matching_only.*1)
      end) themes.

Definition eligible_best_covered_themes c (policy : LightPlanningPolicy) : list (ThemeId * str) :=
  best_covered_themes c
    (policy_eligible_executable_themes (startable_themes c) (track_color_rgb c) policy).

Definition missing_role_names c (theme_id : ThemeId) : list str :=
  foldl (λ missing phrase,
    if bool_decide (lpp_role_name phrase ∈ missing) then missing
    else if resolves c theme_id phrase then missing else missing ++ [lpp_role_name phrase])
    [] (lpc_phrases c).

Definition theme_coverage c : list (ThemeId * str * list str) :=
  (λ theme, (at_id theme, at_display_name theme, missing_role_names c (at_id theme)))
    <$> ac_themes (lpc_catalog c).

(** ** Compilation *)

Definition phrase_selection c (theme_id : ThemeId) phrase : PhraseSelection :=
  match lpc_autoloop_overrides c !! lpp_phrase_index phrase with
  | Some variant => SelPlanOverride variant
  | None =>
      match lpp_strategy phrase with
      | StrategyAuto => SelAutomatic
      | StrategyFixedVariant variant => SelFixedVariant variant
      | StrategyThemeSpecificExact overrides =>
          match List.find (λ value, tsv_theme_id value =? theme_id) overrides with
          | Some value => SelFixedVariant (tsv_variant_id value)
          | None => SelAutomatic
          end
      end
  end.

Definition phrase_requests c (theme_id : ThemeId) (phrase_indices : list Z) : list PhraseRequest :=
  (λ phrase, mkPhraseRequest (lpp_phrase_index phrase) (lpp_role_id phrase)
               (phrase_selection c theme_id phrase))
    <$> List.filter (λ phrase, bool_decide (phrase_indices = [])
                               || bool_decide (lpp_phrase_index phrase ∈ phrase_indices))
          (lpc_phrases c).

Definition light_plan_candidates c : list Candidate :=
  omap (λ cell, number ← mapping_number (amc_variant_id cell);
          Some (mkCandidate (amc_theme_id cell) (amc_role_id cell) (amc_variant_id cell)
                  (amc_entry_id cell) (amc_display_name cell) number))
    (ac_cells (lpc_catalog c)).

(** [depth] bounds the levels of calls of [compile]. *)
Definition compile_light_plan_for_phrases c (depth : nat) (theme_id : ThemeId)
    (phrase_indices : list Z) (policy : LightPlanningPolicy) (variation_seed : Z)
    (history : VariationHistory) : option (result CompiledLightPlan LightPlanError) :=
  compile policy theme_id (track_color_rgb c) (light_plan_candidates c) depth variation_seed
    (phrase_requests c theme_id phrase_indices) history.

Definition compile_light_plan c (depth : nat) (theme_id : ThemeId) (policy : LightPlanningPolicy)
    (variation_seed : Z) (history : VariationHistory) :
    option (result CompiledLightPlan LightPlanError) :=
  compile_light_plan_for_phrases c depth theme_id [] policy variation_seed history.

(** ** Why no plan is made *)

Fixpoint join (separator : str) (parts : list str) : str :=
  match parts with
  | [] => []
  | [part] => part
  | part :: parts => part ++ separator ++ join separator parts
  end.

(** The separators [" · "] and [" — "]. *)
Definition middle_dot : str := lit " " ++ [183] ++ lit " ".
Definition em_dash : str := lit " " ++ [8212] ++ lit " ".

Definition coverage_detail (entry : ThemeId * str * list str) : option str :=
  let '(_, theme_name, missing) := entry in
  if bool_decide (missing = []) then None
  else Some (theme_name ++ lit ": " ++ join (lit ", ") (take 3 missing)).

Definition library_plan_hold_reason c (policy : LightPlanningPolicy) : str :=
  let startable := startable_themes c in
  if negb (bool_decide (eligible_best_covered_themes c policy = []))
  then lit "Automatic planning is waiting for a new plan generation event."
  else if negb (bool_decide (startable = [])) then
    let names := join (lit ", ") startable.*2 in
    match track_color_rgb c with
    | Some _ => lit "Mapped Theme " ++ names ++ lit " is excluded by this track's Track Color rules. Adjust Theme Strategy or the Rekordbox Track Color."
    | None => lit "Mapped Theme " ++ names ++ lit " requires a Track Color match. Add and sync the Rekordbox Track Color or adjust Theme Strategy."
    end
  else
    let details := join middle_dot (take 3 (omap coverage_detail (theme_coverage c))) in
    if bool_decide (details = [])
    then lit "No enabled Theme can safely start this track with an exact AutoLoop mapping."
    else lit "No Theme can safely start this track. Map the opening Phrase Role in Lighting Outputs"
         ++ em_dash ++ details ++ lit ".".

(** ** Positions *)

(** [partition_point]: the length of the prefix that satisfies the predicate. *)
Fixpoint partition_point {A} (p : A → bool) (l : list A) : nat :=
  match l with
  | [] => 0%nat
  | x :: l => if p x then S (partition_point p l) else 0%nat
  end.

Definition markers_through c (position_millis : Z) : nat :=
  partition_point (λ marker, bm_time_millis marker <=? position_millis) (bg_markers (lpc_beat_grid c)).

Definition beat_at_millis c (position_millis : Z) : Z :=
  u32_or_max (Z.of_nat (markers_through c position_millis - 1)).

Definition is_hot_cue_beat c (beat : Z) : bool :=
  existsb (λ cue, Z.abs (beat_at_millis c (hc_time_millis cue) - beat) <=? 1) (lpc_hot_cues c).

Definition millis_at_beat c (beat : Z) : option Z :=
  bm_time_millis <$> bg_markers (lpc_beat_grid c) !! Z.to_nat beat.


(** [markers[i]]; the indices used are in range. *)
Definition marker_time (markers : list BeatMarker) (i : nat) : Z :=
  from_option bm_time_millis 0 (markers !! i).

(** The tempo measured over up to sixteen beats around the current one. *)
Definition measured_bpm (markers : list BeatMarker) (current : nat) (fallback : Z) : Z :=
  let last_index := (length markers - 1)%nat in
  let window_start := (current - 8)%nat in
  let window_end := Nat.min (current + 8) last_index in
  if (window_start <? window_end)%nat then
    let elapsed := Z.max 0 (marker_time markers window_end - marker_time markers window_start) in
    if elapsed =? 0 then fallback
    else
      let measured := saturating_mul_u64 (Z.of_nat (window_end - window_start)) 60000000 / elapsed in
      if (20000 <=? measured) && (measured <=? 300000) then measured else fallback
  else fallback.

(** The next of the 24 ticks of the current beat, in microseconds from the position. *)
Definition delay_within_beat (current next position : Z) : Z :=
  let beat_micros := saturating_mul_u64 (Z.max 0 (next - current)) 1000 in
  let elapsed_micros :=
    Z.min (saturating_mul_u64 (Z.max 0 (position - current)) 1000) beat_micros in
  let elapsed_ticks := saturating_mul_u64 elapsed_micros 24 / Z.max beat_micros 1 in
  let next_tick_offset := saturating_mul_u64 (saturating_add_u64 elapsed_ticks 1) beat_micros / 24 in
  Z.max 0 (next_tick_offset - elapsed_micros).

(** A division by zero. *)
Inductive panic : Type := DivisionByZero.

Definition delay_to_next_tick (markers : list BeatMarker) (first_time : Z) (current_index : nat)
    (position bpm_milli : Z) : result Z panic :=
  let current := marker_time markers current_index in
  if position <? first_time
  then Ok (saturating_mul_u64 (Z.max 0 (first_time - position)) 1000 * 1000)
  else if position =? current then Ok 0
  else match markers !! S current_index with
  | Some next => Ok (delay_within_beat current (bm_time_millis next) position * 1000)
  | None =>
      let divisor := saturating_mul_u64 bpm_milli 24 in
      if divisor =? 0 then Err DivisionByZero else Ok (60000000000000 / divisor)
  end.

Definition clock_anchor_at_millis c (position_millis fallback_bpm_milli : Z) :
    result (option LocalPlaybackClockAnchor) panic :=
  let markers := bg_markers (lpc_beat_grid c) in
  match markers with
  | [] => Ok None
  | first :: _ =>
      let current_index := (markers_through c position_millis - 1)%nat in
      let current := default first (markers !! current_index) in
      let position_16th := bm_beat_index current * 4 in
      if U16_MAX <? position_16th then Ok None
      else
        let bpm_milli := measured_bpm markers current_index fallback_bpm_milli in
        let? delay := delay_to_next_tick markers (bm_time_millis first) current_index position_millis
                        bpm_milli in
        Ok (Some (mkLocalPlaybackClockAnchor bpm_milli (bm_beat_index current) position_16th delay))
  end.

(** ** Waveform previews *)

Definition MAX_DECK_WAVEFORM_PREVIEW_POINTS : nat := 1024.
Definition MAX_DECK_WAVEFORM_DETAIL_POINTS : nat := 16384.

Definition div_ceil (n d : nat) : nat := (n / d + (if (n mod d =? 0)%nat then 0 else 1))%nat.

(** [chunks]: as many rounds as there are elements are enough for a positive size. *)
Fixpoint chunks_from {A} (rounds size : nat) (l : list A) : list (list A) :=
  match rounds, l with
  | S rounds, _ :: _ => take size l :: chunks_from rounds size (drop size l)
  | _, _ => []
  end.

Definition chunks {A} (size : nat) (l : list A) : list (list A) := chunks_from (length l) size l.

Definition point_key (point : WaveformPoint) : Z * Z :=
  (Z.max (Z.max (wp_low point) (wp_mid point)) (wp_high point),
   wp_low point + wp_mid point + wp_high point).

Definition key_leb (a b : Z * Z) : bool := (a.1 <? b.1) || ((a.1 =? b.1) && (a.2 <=? b.2)).

(** [max_by_key]: the last of the largest. *)
Definition loudest (points : list WaveformPoint) : option WaveformPoint :=
  foldl (λ best point, match best with
                       | None => Some point
                       | Some best => if key_leb (point_key best) (point_key point)
                                      then Some point else Some best
                       end) None points.

Definition deck_waveform_preview_points (points : list WaveformPoint) (maximum : nat) :
    list (Z * Z * Z) :=
  match points, maximum with
  | [], _ | _, O => []
  | _, _ =>
      (λ chunk, match loudest chunk with
                | Some point => (wp_low point, wp_mid point, wp_high point)
                | None => (0, 0, 0)
                end) <$> chunks (div_ceil (length points) maximum) points
  end.

(** ** Preparation *)

Definition role_display_name (roles : list PhraseRole) (id : PhraseRoleId) : str :=
  from_option pr_display_name id (List.find (λ role, bool_decide (pr_id role = id)) roles).

Definition role_color_rgb (roles : list PhraseRole) (id : PhraseRoleId) : Z :=
  match List.find (λ role, bool_decide (pr_id role = id)) roles with
  | Some role => pr_color_rgb role
  | None => default_phrase_role_color_rgb id
  end.

Definition planner_phrase_kind (phrase : PhraseInstance) (phrase_count : nat) : PhraseKind :=
  let role := pi_role_id phrase in
  let named (name : string) := bool_decide (role = lit name) in
  if named "intro-outro" then
    if (pi_index phrase + 1 =? Z.of_nat phrase_count) then KindOutro else KindIntro
  else if named "bridge" then KindVerse
  else if named "breakdown-1" || named "breakdown-2" || named "breakdown-3" then KindBreakdown
  else if named "synth" || named "pre-drop" || named "buildup-1" || named "buildup-2" || named "buildup-3"
  then KindBuild
  else if named "drop" then KindDrop
  else KindVerse.

(** The library a worker reads: its source, and the audio address found for a track. *)
Record LibrarySourceFacts := mkLibrarySourceFacts {
  lsf_kind : str;
  lsf_id : str;
  lsf_name : str;
}.

Definition plan_context_of (source : LibrarySourceFacts) (timeline : LumiPhraseTimeline)
    (track : StoredTrack) (roles : PhraseRoleCatalog) (catalog : AutoloopCatalog) (audio_uri : str) :
    LibraryPlanContext :=
  let summary := st_summary track in
  mkLibraryPlanContext (lsf_kind source) (lsf_id source) (lsf_name source)
    (ts_source_track_id summary) (ts_source_revision summary) (lpt_revision timeline) audio_uri
    (ts_duration_millis summary) (st_beat_grid track) (st_hot_cues track) (ts_color summary) catalog
    ((λ phrase : PhraseInstance, mkLibraryPhrasePlanContext (pi_index phrase) (pi_start_beat phrase)
        (pi_end_beat phrase) (pi_role_id phrase)
        (role_display_name (prc_roles roles) (pi_role_id phrase))
        (role_color_rgb (prc_roles roles) (pi_role_id phrase)) (pi_loop_strategy phrase))
      <$> lpt_phrases timeline) ∅.

Definition track_phrases_of (timeline : LumiPhraseTimeline) : list TrackPhrase :=
  (λ phrase : PhraseInstance, mkTrackPhrase (pi_index phrase) (pi_start_beat phrase) (pi_end_beat phrase)
               (planner_phrase_kind phrase (length (lpt_phrases timeline)))) <$> lpt_phrases timeline.

(** The tracks, roles and catalogue read from the repository are arguments, as is the
    audio address, which is empty for a connected player. *)
Definition playback_track_for_timeline_mode (source : LibrarySourceFacts)
    (timeline : LumiPhraseTimeline) (track : StoredTrack) (roles : PhraseRoleCatalog)
    (catalog : AutoloopCatalog) (audio_uri : str) :
    result (TrackMetadata * LibraryPlanContext) TrackValidationError :=
  let summary := st_summary track in
  let? identity := TrackIdentityFacts_try_new (lsf_kind source) (lsf_id source)
                     (ts_source_track_id summary) (ts_source_revision summary)
                     (lpt_revision timeline) in
  let? metadata := TrackMetadata_try_new_with_color (lpt_track_id timeline) (ts_title summary)
                     (ts_artist summary) (ts_bpm_milli summary) (ts_musical_key summary)
                     (ts_color summary) (lpt_total_beats timeline) (track_phrases_of timeline) in
  Ok (TrackMetadata_with_identity_facts metadata identity,
      plan_context_of source timeline track roles catalog audio_uri).
