(* ===== verification/LibraryContextProps.v ===== *)
(** * Properties of prepared library tracks

    The beat of a position and the MIDI clock anchor at it; the Themes chosen for a
    track; Autoloop overrides; the size of waveform previews; and, for the planning
    worker, that every Autoloop a prepared track offers is a mapped cell. *)

From stdpp Require Import prelude list gmap strings.
From Stdlib Require Import ZArith Lia Sorted.
From S2P Require Import Prelude.
From S2P Require Import Track.
From S2P Require Import LightPlans.
From S2P Require Import PhraseTimeline.
From S2P Require Import LibrarySource.
From S2P Require Import PhraseRoles.
From S2P Require Import AutoloopCatalog.
From S2P Require Import AutoloopCatalogProps.
From S2P Require Import MidiClock.
From S2P Require Import LibraryContext.
Open Scope Z_scope.

Implicit Types (c : LibraryPlanContext) (phrase : LibraryPhrasePlanContext).

(** ** The beat of a position *)

Notation increasing := (StronglySorted (λ a b, bm_time_millis a < bm_time_millis b)).

Lemma partition_point_le {A} (p : A → bool) l : (partition_point p l ≤ length l)%nat.
Proof. induction l as [|x l IH]; simpl; [lia|]. destruct (p x); lia. Qed.

(** For increasing times the partition point separates the times up to the position from
    the later ones. *)
Lemma partition_point_spec (markers : list BeatMarker) (position : Z) i m :
  increasing markers → markers !! i = Some m →
  (i < partition_point (λ marker, (bm_time_millis marker <=? position)%Z) markers)%nat
  ↔ bm_time_millis m ≤ position.
Proof.
  intros Hs. revert i. induction Hs as [|x l Hs IH Hx]; intros [|i] Hm; simplify_eq/=.
  - destruct (Z.leb_spec (bm_time_millis m) position); lia.
  - destruct (Z.leb_spec (bm_time_millis x) position).
    + rewrite <- (IH i Hm). lia.
    + rewrite Forall_forall in Hx. specialize (Hx m (list_elem_of_lookup_2 _ _ _ Hm)). lia.
Qed.

(** A grid that [BeatGrid_try_new] accepted, with times a track can have. *)
Definition grid_of (c : LibraryPlanContext) (beats_per_bar : Z) : Prop :=
  BeatGrid_try_new beats_per_bar (bg_markers (lpc_beat_grid c)) = Ok (lpc_beat_grid c) ∧
  Forall (λ m, 0 ≤ bm_time_millis m ≤ 2 ^ 40) (bg_markers (lpc_beat_grid c)).

Section Grid.
Context (c : LibraryPlanContext) (beats_per_bar : Z) (Hgrid : grid_of c beats_per_bar).

Notation markers := (bg_markers (lpc_beat_grid c)).

Lemma grid_facts :
  increasing markers ∧ 0 < Z.of_nat (length markers) ≤ U32_MAX + 1 ∧
  (∀ i m, markers !! i = Some m → bm_beat_index m = Z.of_nat i).
Proof.
  destruct Hgrid as [Hg _]. apply BeatGrid_try_new_Ok in Hg as (_ & _ & Hl & _ & Hi & Hs).
  split_and!; [done|lia..|]. intros i m Hm. by destruct (Hi i m Hm).
Qed.

Lemma marker_time_range i m : markers !! i = Some m → 0 ≤ bm_time_millis m ≤ 2 ^ 40.
Proof.
  destruct Hgrid as [_ Ht]. rewrite Forall_forall in Ht. intros Hm. apply Ht.
  by eapply list_elem_of_lookup_2.
Qed.

Lemma marker_time_lt i j m m' :
  (i < j)%nat → markers !! i = Some m → markers !! j = Some m' → bm_time_millis m < bm_time_millis m'.
Proof.
  destruct grid_facts as [Hs _]. revert i j. clear -Hs. intros i j.
  revert i j. induction Hs as [|x l Hs IH Hx]; intros [|i] [|j] Hij Hm Hm'; simplify_eq/=; [lia| |lia|].
  - rewrite Forall_forall in Hx. apply Hx. by eapply list_elem_of_lookup_2.
  - eapply (IH i j); [lia|done..].
Qed.

(** The current beat: its marker, and where the position lies from it. *)
Lemma current_marker position :
  ∃ m, markers !! (markers_through c position - 1)%nat = Some m ∧
       beat_at_millis c position = bm_beat_index m ∧
       (bm_time_millis m ≤ position ∨
        (markers_through c position = 0)%nat ∧ position < bm_time_millis m) ∧
       (∀ next, markers !! S (markers_through c position - 1) = Some next →
          position < bm_time_millis next).
Proof.
  destruct grid_facts as (Hs & Hl & Hi). set (n := markers_through c position).
  assert (n ≤ length markers)%nat as Hn by apply partition_point_le.
  destruct (lookup_lt_is_Some_2 markers (n - 1)) as [m Hm]; [lia|]. exists m.
  assert (∀ i m, markers !! i = Some m → (i < n)%nat ↔ bm_time_millis m ≤ position) as Hp
    by (intros i m' Hm'; by apply partition_point_spec).
  split_and!; [done| | |].
  - unfold beat_at_millis, u32_or_max. fold n. rewrite (Hi _ _ Hm).
    rewrite (proj2 (Z.leb_le _ _)) by lia. done.
  - destruct (decide (n = 0%nat)) as [E|E]; [|left; apply (Hp _ _ Hm); lia].
    destruct (Z.le_gt_cases (bm_time_millis m) position); [by left|by right].
  - intros next Hnext. destruct (Z.le_gt_cases (bm_time_millis next) position) as [E|]; [|done].
    apply (Hp _ _ Hnext) in E.
    destruct (decide (n = 0%nat)); [lia|]. lia.
Qed.

(** ** The clock anchor *)

Lemma measured_bpm_range current fallback :
  20000 ≤ fallback ≤ 300000 → 20000 ≤ measured_bpm markers current fallback ≤ 300000.
Proof.
  intros Hf. unfold measured_bpm. cbv zeta. destruct (_ <? _)%nat; [|done].
  destruct (_ =? 0); [done|].
  destruct (Z.leb_spec 20000 (saturating_mul_u64 (Z.of_nat
     (Nat.min (current + 8) (length markers - 1) - (current - 8))) 60000000 /
     Z.max 0 (marker_time markers (Nat.min (current + 8) (length markers - 1)) -
              marker_time markers (current - 8)))); cbn [andb]; [|done].
  match goal with |- context [?x <=? 300000] => destruct (Z.leb_spec x 300000) end; [lia|done].
Qed.

(** The delay lands on the next tick of the beat, rounded down to a microsecond. *)
Definition on_next_tick (current next position delay : Z) : Prop :=
  let beat := (next - current) * 1000 in
  let elapsed := (position - current) * 1000 in
  ∃ tick, 0 ≤ tick < 24 ∧ tick * beat ≤ 24 * elapsed < (tick + 1) * beat ∧
          elapsed + delay = (tick + 1) * beat / 24 ∧ 0 ≤ delay.

Lemma delay_within_beat_spec current next position :
  0 ≤ current → current ≤ position < next → next ≤ 2 ^ 40 →
  on_next_tick current next position (delay_within_beat current next position).
Proof.
  intros H0 H1 H2. unfold on_next_tick, delay_within_beat, saturating_mul_u64, saturating_add_u64.
  change U64_MAX with 18446744073709551615. change (2 ^ 40) with 1099511627776 in H2.
  rewrite (Z.max_r 0 (next - current)), (Z.max_r 0 (position - current)) by lia.
  set (beat := (next - current) * 1000).
  set (elapsed := (position - current) * 1000).
  assert (0 ≤ elapsed < beat ∧ beat ≤ 1099511627776000) as [He Hb] by lia.
  rewrite (Z.min_l beat), (Z.min_l elapsed 18446744073709551615), (Z.min_l elapsed) by lia.
  rewrite (Z.min_l (elapsed * 24)), (Z.max_l beat) by lia.
  set (k := elapsed * 24 / beat).
  pose proof (Z.div_mod (elapsed * 24) beat ltac:(lia)) as Hd. fold k in Hd.
  pose proof (Z.mod_pos_bound (elapsed * 24) beat ltac:(lia)) as Hm.
  assert (0 ≤ k < 24) as Hk by (split; [apply Z.div_pos; lia|apply Z.div_lt_upper_bound; lia]).
  rewrite (Z.min_l (k + 1)), (Z.min_l ((k + 1) * beat)) by nia.
  assert (elapsed ≤ (k + 1) * beat / 24) by (apply Z.div_le_lower_bound; nia).
  rewrite Z.max_r by lia. exists k. split_and!; try nia; lia.
Qed.

(** Where the next clock tick is: at the first marker, now, on the grid of the beat, or one
    tick of the tempo later. *)
Definition tick_delay_ok (position bpm : Z) (delay : Z) : Prop :=
  match markers !! 0%nat, markers !! (markers_through c position - 1)%nat with
  | Some first, Some current =>
      if position <? bm_time_millis first then delay = (bm_time_millis first - position) * 1000000
      else if position =? bm_time_millis current then delay = 0
      else match markers !! S (markers_through c position - 1) with
      | Some next =>
          ∃ micros, delay = micros * 1000 ∧
            on_next_tick (bm_time_millis current) (bm_time_millis next) position micros
      | None => delay = 60000000000000 / (24 * bpm)
      end
  | _, _ => False
  end.

Lemma delay_to_next_tick_spec first position bpm :
  markers !! 0%nat = Some first → 0 ≤ position ≤ 2 ^ 40 → 20000 ≤ bpm ≤ 300000 →
  ∃ delay, delay_to_next_tick markers (bm_time_millis first) (markers_through c position - 1)
             position bpm = Ok delay ∧ tick_delay_ok position bpm delay.
Proof.
  intros Hfirst Hp Hbpm. destruct (current_marker position) as (m & Hm & _ & Hcur & Hnext).
  unfold delay_to_next_tick, tick_delay_ok, marker_time. rewrite Hfirst, Hm. cbn [from_option].
  pose proof (marker_time_range _ _ Hfirst). pose proof (marker_time_range _ _ Hm).
  destruct (Z.ltb_spec position (bm_time_millis first)).
  { eexists. split; [done|]. unfold saturating_mul_u64. change U64_MAX with 18446744073709551615.
    rewrite Z.max_r, Z.min_l by lia. lia. }
  destruct (Z.eqb_spec position (bm_time_millis m)); [by eexists|].
  destruct (markers !! S _) as [next|] eqn:En.
  - eexists. split; [done|]. eexists. split; [done|]. specialize (Hnext _ eq_refl).
    pose proof (marker_time_range _ _ En). apply delay_within_beat_spec; [lia| |lia].
    destruct Hcur as [|[E]]; [lia|]. rewrite E in Hm. simplify_eq/=. lia.
  - unfold saturating_mul_u64. change U64_MAX with 18446744073709551615. rewrite Z.min_l by lia.
    rewrite (proj2 (Z.eqb_neq _ _)) by lia. eexists. split; [done|]. f_equal. lia.
Qed.

Lemma match_head {A B} (l : list A) (x : A) (z : B) (f : A → B) :
  l !! 0%nat = Some x → match l with [] => z | y :: _ => f y end = f x.
Proof. destruct l; intros; by simplify_eq/=. Qed.

Lemma clock_anchor_Ok position fallback :
  0 ≤ position ≤ 2 ^ 40 → 20000 ≤ fallback ≤ 300000 →
  ∃ anchor, clock_anchor_at_millis c position fallback = Ok anchor ∧
    match anchor with
    | None => U16_MAX < 4 * beat_at_millis c position
    | Some anchor =>
        anchor_beat_index anchor = beat_at_millis c position ∧
        anchor_song_position_16th anchor = 4 * beat_at_millis c position ∧
        4 * beat_at_millis c position ≤ U16_MAX ∧
        20000 ≤ anchor_bpm_milli anchor ≤ 300000 ∧
        tick_delay_ok position (anchor_bpm_milli anchor) (anchor_delay_to_next_tick anchor)
    end.
Proof.
  intros Hp Hf. destruct (current_marker position) as (m & Hm & Hbeat & _).
  destruct (markers !! 0%nat) as [first|] eqn:Hfirst;
    [|destruct grid_facts as (_ & Hl & _); apply lookup_ge_None in Hfirst; lia].
  destruct (delay_to_next_tick_spec first position (measured_bpm markers
    (markers_through c position - 1) fallback)) as (delay & Hd & Hok);
    [done..|by apply measured_bpm_range|].
  unfold clock_anchor_at_millis.
  rewrite (match_head markers first) by done. rewrite Hm. cbv zeta. cbn [from_option id].
  destruct (Z.ltb_spec U16_MAX (bm_beat_index m * 4)).
  { eexists. split; [done|]. cbn iota. lia. }
  rewrite Hd. eexists. split; [done|]. cbn [anchor_beat_index anchor_song_position_16th
    anchor_bpm_milli anchor_delay_to_next_tick].
  pose proof (measured_bpm_range (markers_through c position - 1) fallback Hf).
  split_and!; try done; lia.
Qed.
End Grid.

(** For an accepted beat grid the clock anchor is always computed, without overflow and
    without dividing by zero.  The beat is the last one at or before the position, the
    song position four times the beat, the tempo within the range of the MIDI clock; the
    next tick is the first marker, now at a marker, on the grid of 24 ticks of the beat
    rounded down to a microsecond, and one tick of the tempo after the last marker.  There
    is no anchor exactly when the song position does not fit 16 bits. *)
Theorem clock_anchor_spec c beats_per_bar position fallback :
  grid_of c beats_per_bar → 0 ≤ position ≤ 2 ^ 40 → 20000 ≤ fallback ≤ 300000 →
  ∃ anchor, clock_anchor_at_millis c position fallback = Ok anchor ∧
    match anchor with
    | None => U16_MAX < 4 * beat_at_millis c position
    | Some anchor =>
        anchor_beat_index anchor = beat_at_millis c position ∧
        anchor_song_position_16th anchor = 4 * beat_at_millis c position ∧
        4 * beat_at_millis c position ≤ U16_MAX ∧
        20000 ≤ anchor_bpm_milli anchor ≤ 300000 ∧
        tick_delay_ok c position (anchor_bpm_milli anchor) (anchor_delay_to_next_tick anchor)
    end.
Proof. intros Hg. by apply (clock_anchor_Ok c beats_per_bar). Qed.

(** ** The limit of the MIDI clock *)

Section Clock.
Context {P : Type}.
Implicit Types k : MidiClock P.

(** The clock message of an anchor. *)
Definition anchor_sync (anchor : LocalPlaybackClockAnchor) (playing rephase : bool) : MidiClockSync :=
  mkMidiClockSync (anchor_bpm_milli anchor) playing (anchor_song_position_16th anchor)
    (anchor_delay_to_next_tick anchor) rephase.

Lemma synchronize_song_position anchor playing rephase k :
  20000 ≤ anchor_bpm_milli anchor ≤ 300000 →
  (MidiClock_synchronize (anchor_sync anchor playing rephase) k).2 = Err ClockInvalidSongPosition ↔
  16384 ≤ anchor_song_position_16th anchor.
Proof.
  intros Hb. unfold MidiClock_synchronize, anchor_sync. simpl sync_bpm_milli.
  rewrite !(proj2 (Z.leb_le _ _)) by lia. cbn [andb negb sync_song_position_16th].
  destruct (Z.leb_spec 16384 (anchor_song_position_16th anchor)); [done|].
  split; [|lia]. by repeat case_match.
Qed.
End Clock.

(** ** Mapped cells *)

(** The catalogue of the track maps button [number] of a Theme to a cell with this name for
    the role of the phrase. *)
Definition offers c (theme_id : ThemeId) (phrase_index number : Z) (name : str) : Prop :=
  ∃ phrase cell, phrase_at c phrase_index = Some phrase ∧ cell ∈ ac_cells (lpc_catalog c) ∧
    amc_theme_id cell = theme_id ∧ amc_role_id cell = lpp_role_id phrase ∧
    mapping_number (amc_variant_id cell) = Some number ∧ amc_display_name cell = name.

Lemma mapping_number_range variant_id number :
  mapping_number variant_id = Some number → 1 ≤ number ≤ 32.
Proof.
  unfold mapping_number. intros (value & _ & H)%bind_Some.
  destruct (Z.leb_spec 1 value), (Z.leb_spec value 32); simplify_eq/=; lia.
Qed.

Lemma catalog_cell_elem catalog theme_id role_id variant_id cell :
  catalog_cell catalog theme_id role_id variant_id = Some cell →
  cell ∈ ac_cells catalog ∧ amc_theme_id cell = theme_id ∧ amc_role_id cell = role_id ∧
  amc_variant_id cell = variant_id.
Proof.
  unfold catalog_cell. intros [Hin Hc]%find_some.
  unfold cell_is in Hc. rewrite !andb_true_iff, Z.eqb_eq, !bool_decide_eq_true in Hc.
  apply list_elem_of_In in Hin. naive_solver.
Qed.

(** A resolution is a cell of the Theme and the role. *)
Definition of_cell catalog (theme_id : ThemeId) (role_id : PhraseRoleId) (r : AutoloopResolution) :
    Prop :=
  ∃ cell reason, cell ∈ ac_cells catalog ∧ amc_theme_id cell = theme_id ∧
    amc_role_id cell = role_id ∧ r = resolution catalog cell reason.

Lemma of_cell_catalog catalog theme_id role_id variant_id cell reason :
  catalog_cell catalog theme_id role_id variant_id = Some cell →
  of_cell catalog theme_id role_id (resolution catalog cell reason).
Proof. intros (H1 & H2 & H3 & _)%catalog_cell_elem. by exists cell, reason. Qed.

Lemma catalog_resolve_cell catalog theme_id role_id preferred revision r :
  catalog_resolve catalog theme_id role_id preferred revision = Ok r →
  of_cell catalog theme_id role_id r.
Proof.
  unfold catalog_resolve. destruct (_ =? _); [|done]. destruct (has_theme _ _); [|done]. cbn [negb].
  case_bool_decide; [done|]. destruct (preferred_cell _ _ _ _) as [cell|] eqn:Ep.
  - intros [= <-]. unfold preferred_cell in Ep.
    apply bind_Some in Ep as (? & _ & (v & _ & Ec)%bind_Some). by eapply of_cell_catalog.
  - destruct (find_map _ _) as [cell|] eqn:Ef; [|done]. intros [= <-].
    apply find_map_first in Ef as (l1 & v & l2 & _ & Ec & _). by eapply of_cell_catalog.
Qed.

Lemma resolve_exact_cell catalog theme_id role_id variant_id reason r :
  resolve_exact_strategy catalog theme_id role_id variant_id reason = Ok r →
  of_cell catalog theme_id role_id r.
Proof.
  unfold resolve_exact_strategy. destruct (require_active_role_variant _ _ _); [|done]. simpl.
  destruct (catalog_cell _ _ _ _) eqn:Ec; [|done]. intros [= <-]. by eapply of_cell_catalog.
Qed.

Lemma resolve_phrase_cell c theme_id phrase r :
  resolve_phrase c theme_id phrase = Ok r →
  of_cell (lpc_catalog c) theme_id (lpp_role_id phrase) r.
Proof.
  unfold resolve_phrase. destruct (_ !! _); [apply catalog_resolve_cell|].
  unfold resolve_loop_strategy. destruct (_ =? _); [|done]. destruct (has_theme _ _); [|done].
  cbn [negb]. destruct (lpp_strategy phrase).
  - apply catalog_resolve_cell.
  - apply resolve_exact_cell.
  - destruct (List.find _ _); [apply resolve_exact_cell|apply catalog_resolve_cell].
Qed.

Lemma resolved_autoloop_offers c theme_id phrase_index choice number :
  resolved_autoloop c theme_id phrase_index = Some choice →
  rlc_autoloop_number choice = Some number →
  offers c theme_id phrase_index number (rlc_entry_name choice).
Proof.
  unfold resolved_autoloop. intros (phrase & Hp & H)%bind_Some Hn.
  destruct (resolve_phrase c theme_id phrase) as [r|] eqn:Er; [|done]. simplify_eq/=.
  apply resolve_phrase_cell in Er as (cell & reason & Hin & Ht & Hr & ->).
  by exists phrase, cell.
Qed.

Lemma autoloop_choices_offer c theme_id phrase_index choice number :
  choice ∈ autoloop_choices c theme_id phrase_index →
  rlc_autoloop_number choice = Some number →
  offers c theme_id phrase_index number (rlc_entry_name choice).
Proof.
  unfold autoloop_choices. destruct (phrase_at c phrase_index) as [phrase|] eqn:Hp;
    [|by intros ?%not_elem_of_nil].
  rewrite sort_by_key_perm. intros (cell & [Hin Hc]%list_elem_of_In%filter_In & Hch)%list_elem_of_omap Hn.
  rewrite andb_true_iff, Z.eqb_eq, bool_decide_eq_true in Hc. destruct Hc as [<- Hr].
  unfold choice_of_cell in Hch. apply bind_Some in Hch as (n & Hm & [= <-]). simplify_eq/=.
  exists phrase, cell. apply list_elem_of_In in Hin. done.
Qed.

Lemma candidate_offers c phrase_index phrase candidate :
  phrase_at c phrase_index = Some phrase → candidate ∈ light_plan_candidates c →
  cd_role_id candidate = lpp_role_id phrase →
  offers c (cd_theme_id candidate) phrase_index (cd_autoloop_number candidate)
    (cd_display_name candidate).
Proof.
  unfold light_plan_candidates. intros Hp (cell & Hin & Hc)%list_elem_of_omap Hr.
  apply bind_Some in Hc as (n & Hm & [= <-]). simpl in *. by exists phrase, cell.
Qed.

(** ** Overrides *)

Lemma set_override_inv theme_id phrase_index number c c' :
  set_autoloop_override theme_id phrase_index number c = Ok c' →
  ∃ phrase cell, phrase_at c phrase_index = Some phrase ∧ cell ∈ ac_cells (lpc_catalog c) ∧
    amc_theme_id cell = theme_id ∧ amc_role_id cell = lpp_role_id phrase ∧
    mapping_number (amc_variant_id cell) = Some number ∧
    c' = set_lpc_autoloop_overrides
           (<[phrase_index := amc_variant_id cell]> (lpc_autoloop_overrides c)) c.
Proof.
  unfold set_autoloop_override. destruct (phrase_at c phrase_index) as [phrase|] eqn:Hp; [|done].
  destruct (List.find _ _) as [cell|] eqn:Ef; [|done]. intros [= <-].
  apply find_some in Ef as [Hin Hc]. apply list_elem_of_In in Hin.
  rewrite !andb_true_iff, Z.eqb_eq, !bool_decide_eq_true in Hc. destruct Hc as [[<- Hr] Hm].
  by exists phrase, cell.
Qed.

(** The cell of an active variant is the one its row resolves to. *)
Lemma resolve_active catalog theme_id role_id cell :
  has_theme catalog theme_id = true → cell ∈ ac_cells catalog →
  amc_theme_id cell = theme_id → amc_role_id cell = role_id →
  amc_variant_id cell ∈ av_id <$> active_variants catalog role_id →
  ∃ r, catalog_resolve catalog theme_id role_id (Some (amc_variant_id cell)) (ac_revision catalog)
         = Ok r ∧ AutoloopCatalog.ar_variant_id r = amc_variant_id cell.
Proof.
  intros Ht Hin Hct Hcr Ha. unfold catalog_resolve. rewrite Z.eqb_refl, Ht. cbn [negb].
  apply list_elem_of_fmap in Ha as (v & Hv & Hva).
  rewrite bool_decide_false by (intros E%length_zero_iff_nil; rewrite E in Hva;
    by apply not_elem_of_nil in Hva).
  unfold preferred_cell. cbn [mbind option_bind].
  destruct (List.find _ (active_variants _ _)) as [w|] eqn:Ew; cbn [mbind option_bind].
  2:{ eapply find_none in Ew; [|apply list_elem_of_In; exact Hva].
      apply bool_decide_eq_false in Ew. congruence. }
  apply find_some in Ew as [_ Ew%bool_decide_eq_true]. rewrite Ew.
  destruct (catalog_cell _ _ _ _) as [found|] eqn:Ec.
  - eexists. split; [done|]. by apply catalog_cell_elem in Ec as (_ & _ & _ & Hf).
  - exfalso. unfold catalog_cell in Ec. eapply find_none in Ec; [|apply list_elem_of_In; exact Hin].
    unfold cell_is in Ec. rewrite Hct, Hcr, Z.eqb_refl, !bool_decide_true in Ec by done. done.
Qed.

(** After an override the phrase plays the chosen button in that Theme, as long as the
    variant of the button is not archived; the resolutions of all other phrases, in all
    Themes, are as before; and the override survives a new preparation of the track
    unless the phrase itself changed. *)
Theorem override_roundtrip theme_id phrase_index number c c' variant phrase next changed :
  set_autoloop_override theme_id phrase_index number c = Ok c' →
  phrase_at c phrase_index = Some phrase →
  has_theme (lpc_catalog c) theme_id = true →
  lpc_autoloop_overrides c' !! phrase_index = Some variant →
  variant ∈ av_id <$> active_variants (lpc_catalog c) (lpp_role_id phrase) →
  (∃ choice, resolved_autoloop c' theme_id phrase_index = Some choice ∧
     rlc_autoloop_number choice = Some number ∧ rlc_strategy choice = lit "planOverride") ∧
  (∀ theme other, other ≠ phrase_index →
     resolved_autoloop c' theme other = resolved_autoloop c theme other) ∧
  lpc_autoloop_overrides (inherit_autoloop_overrides c' changed next) !! phrase_index
    = (if changed =? phrase_index then None else Some variant).
Proof.
  intros Hs Hp Ht Ho Ha.
  apply set_override_inv in Hs as (phrase' & cell' & Hp' & Hin & Hct & Hcr & Hm & ->).
  rewrite Hp in Hp'. injection Hp' as <-. simpl in Ho. rewrite lookup_insert_eq in Ho.
  injection Ho as Ho. rewrite <- Ho in Ha |- *. split_and!.
  - destruct (resolve_active (lpc_catalog c) theme_id (lpp_role_id phrase) cell')
      as (r & Hr & Hv); [done..|].
    assert (lpp_phrase_index phrase = phrase_index) as Hi
      by (apply find_some in Hp as [_ ?%Z.eqb_eq]; done).
    unfold resolved_autoloop. replace (phrase_at _ _) with (Some phrase). cbn [mbind option_bind].
    unfold resolve_phrase. cbn [lpc_autoloop_overrides set_lpc_autoloop_overrides lpc_catalog].
    rewrite Hi, lookup_insert_eq, Hr. eexists. split; [done|]. cbn [rlc_autoloop_number rlc_strategy].
    rewrite Hv. split; [done|]. unfold strategy_text. simpl.
    rewrite lookup_insert_eq. by rewrite bool_decide_true.
  - intros theme other Hne. unfold resolved_autoloop, phrase_at. simpl.
    destruct (List.find _ _) as [p|] eqn:Ef; [|done]. cbn [mbind option_bind].
    assert (lpp_phrase_index p = other) as Hi by (apply find_some in Ef as [_ ?%Z.eqb_eq]; done).
    unfold resolve_phrase, strategy_text. simpl. by rewrite Hi, lookup_insert_ne by done.
  - simpl. destruct (Z.eqb_spec changed phrase_index) as [->|].
    + apply lookup_delete_eq.
    + rewrite lookup_delete_ne by done. apply lookup_insert_eq.
Qed.

(** ** Themes for a track *)

(** The Themes that can start the track and that the policy lets it use. *)
Definition allowed_themes c (policy : LightPlanningPolicy) : list (ThemeId * str) :=
  policy_eligible_executable_themes (startable_themes c) (track_color_rgb c) policy.

Lemma foldr_max_spec (l : list nat) x : x ∈ l → (x ≤ foldr Nat.max 0%nat l)%nat.
Proof. induction 1; simpl; lia. Qed.

Lemma foldr_max_elem (l : list nat) : l ≠ [] → foldr Nat.max 0%nat l ∈ l.
Proof.
  induction l as [|x l IH]; [done|]. intros _. simpl.
  destruct (decide (l = [])) as [->|Hl]; [simpl; rewrite Nat.max_0_r; by left|].
  specialize (IH Hl). destruct (Nat.max_spec x (foldr Nat.max 0%nat l)) as [[_ ->]|[_ ->]];
    [by right|by left].
Qed.

Lemma best_covered_spec c themes theme :
  theme ∈ best_covered_themes c themes ↔
  theme ∈ themes ∧ ∀ other, other ∈ themes → (mapped_phrases c other.1 ≤ mapped_phrases c theme.1)%nat.
Proof.
  unfold best_covered_themes. destruct themes as [|t themes].
  { split; [by intros ?%not_elem_of_nil|by intros [?%not_elem_of_nil _]]. }
  set (l := t :: themes). set (maximum := foldr _ _ _).
  rewrite (list_elem_of_In (List.filter _ _)), filter_In, <- list_elem_of_In, Nat.eqb_eq. split.
  - intros [Hin E]. split; [done|]. intros other Ho. rewrite E. apply foldr_max_spec.
    apply list_elem_of_fmap. by exists other.
  - intros [Hin Hmax]. split; [done|]. apply Nat.le_antisymm.
    + apply foldr_max_spec, list_elem_of_fmap. by exists theme.
    + assert (maximum ∈ (λ theme, mapped_phrases c theme.1) <$> l) as Hm by (by apply foldr_max_elem).
      apply list_elem_of_fmap in Hm as (other & -> & Ho). auto.
Qed.

Lemma best_covered_nil c themes : best_covered_themes c themes = [] ↔ themes = [].
Proof.
  split; [|by intros ->]. intros E. destruct themes as [|t themes]; [done|]. exfalso.
  assert (foldr Nat.max 0%nat ((λ theme, mapped_phrases c theme.1) <$> t :: themes)
    ∈ (λ theme, mapped_phrases c theme.1) <$> t :: themes) as Hm by (by apply foldr_max_elem).
  apply list_elem_of_fmap in Hm as (theme & Em & Hin).
  apply (not_elem_of_nil theme). rewrite <- E. apply best_covered_spec. split; [done|].
  intros other Ho. rewrite <- Em. apply foldr_max_spec, list_elem_of_fmap. by exists other.
Qed.

Lemma startable_spec c theme :
  theme ∈ startable_themes c ↔
  ∃ t first rest, t ∈ ac_themes (lpc_catalog c) ∧ theme = (at_id t, at_display_name t) ∧
    lpc_phrases c = first :: rest ∧ resolves c theme.1 first = true.
Proof.
  unfold startable_themes. rewrite list_elem_of_omap. split.
  - intros (t & Ht & E). destruct (lpc_phrases c) as [|first rest]; [done|].
    destruct (resolves c (at_id t) first) eqn:Er; [|done]. injection E as <-. naive_solver.
  - intros (t & first & rest & Ht & -> & Hp & Hr). exists t. split; [done|].
    simpl in Hr. by rewrite Hp, Hr.
Qed.

(** A Theme is kept when its rule is enabled, and it is reserved for the colour of the track
    exactly when some Theme is. *)
Definition policy_allows (policy : LightPlanningPolicy) (color : option Z)
    (themes : list (ThemeId * str)) (theme_id : ThemeId) : Prop :=
  lp_theme_rules policy = [] ∨
  ∃ rule, theme_rule_for policy theme_id = Some rule ∧ tr_enabled rule = true ∧
    if bool_decide (Exists (λ t, color_only_match policy color t.1 = true) themes)
    then color_only_match policy color theme_id = true
    else tr_color_behavior rule ≠ LCOnly.

Lemma policy_eligible_spec themes color policy theme :
  theme ∈ policy_eligible_executable_themes themes color policy ↔
  theme ∈ themes ∧ policy_allows policy color themes theme.1.
Proof.
  unfold policy_eligible_executable_themes, policy_allows. case_bool_decide as Hr; [naive_solver|].
  set (only := List.filter (λ t : Z * str, color_only_match policy color t.1) themes).
  assert (∀ t, t ∈ only ↔ t ∈ themes ∧ color_only_match policy color t.1 = true) as Ho.
  { intros t. unfold only. by rewrite list_elem_of_In, filter_In, <- list_elem_of_In. }
  clearbody only.
  assert (only = [] ↔ ¬ Exists (λ t, color_only_match policy color t.1 = true) themes) as Hn.
  { rewrite Exists_exists. split.
    - intros E (t & Ht). apply (not_elem_of_nil t). rewrite <- E. by apply Ho.
    - intros Hno. destruct only as [|t l]; [done|]. destruct Hno. exists t. apply Ho. by left. }
  assert (theme ∈ themes → theme.1 ∈ only.*1 ↔ color_only_match policy color theme.1 = true) as Hc.
  { intros Hin. rewrite list_elem_of_fmap. split.
    - intros (t & -> & Ht). by apply Ho.
    - intros Hm. exists theme. split; [done|]. by apply Ho. }
  rewrite (list_elem_of_In (List.filter _ _)), filter_In, <- list_elem_of_In.
  destruct (theme_rule_for policy theme.1) as [rule|] eqn:Er; [|naive_solver].
  rewrite andb_true_iff. rewrite (bool_decide_ext _ _ Hn).
  destruct (decide (Exists (λ t, color_only_match policy color t.1 = true) themes)) as [He|He].
  - rewrite (bool_decide_false (¬ _)), (bool_decide_true (Exists _ _)), bool_decide_eq_true by tauto.
    naive_solver.
  - rewrite (bool_decide_true (¬ _)), (bool_decide_false (Exists _ _)) by tauto.
    rewrite negb_true_iff, bool_decide_eq_false. naive_solver.
Qed.

Lemma eligible_elem c policy theme :
  theme ∈ eligible_best_covered_themes c policy ↔
  theme ∈ startable_themes c ∧
  policy_allows policy (track_color_rgb c) (startable_themes c) theme.1 ∧
  ∀ other, other ∈ startable_themes c →
    policy_allows policy (track_color_rgb c) (startable_themes c) other.1 →
    (mapped_phrases c other.1 ≤ mapped_phrases c theme.1)%nat.
Proof.
  unfold eligible_best_covered_themes. rewrite best_covered_spec.
  setoid_rewrite policy_eligible_spec. naive_solver.
Qed.

(** The Themes offered for a track are exactly the Themes of the catalogue that resolve
    the opening phrase, that the policy allows for the colour of the track, and than which
    no other such Theme resolves more phrases; there is one whenever some Theme can start
    the track and is allowed. *)
Theorem eligible_themes_spec c policy theme :
  (theme ∈ eligible_best_covered_themes c policy ↔
   theme ∈ startable_themes c ∧
   policy_allows policy (track_color_rgb c) (startable_themes c) theme.1 ∧
   ∀ other, other ∈ startable_themes c →
     policy_allows policy (track_color_rgb c) (startable_themes c) other.1 →
     (mapped_phrases c other.1 ≤ mapped_phrases c theme.1)%nat) ∧
  (theme ∈ startable_themes c ↔
   ∃ t first rest, t ∈ ac_themes (lpc_catalog c) ∧ theme = (at_id t, at_display_name t) ∧
     lpc_phrases c = first :: rest ∧ resolves c theme.1 first = true) ∧
  (eligible_best_covered_themes c policy = [] ↔
   ∀ other, other ∈ startable_themes c →
     ¬ policy_allows policy (track_color_rgb c) (startable_themes c) other.1).
Proof.
  split_and!; [apply eligible_elem|apply startable_spec|].
  unfold eligible_best_covered_themes. rewrite best_covered_nil. split.
  - intros E other Ho Ha. apply (not_elem_of_nil other). rewrite <- E. by apply policy_eligible_spec.
  - intros Hno. destruct (policy_eligible_executable_themes _ _ _) as [|t l] eqn:E; [done|].
    assert (t ∈ t :: l) as Ht by left. rewrite <- E in Ht.
    apply policy_eligible_spec in Ht as [Ht Ha]. by destruct (Hno t).
Qed.

(** ** Waveform previews *)

Lemma div_ceil_pos n d : (0 < n)%nat → (0 < d)%nat → (0 < div_ceil n d)%nat.
Proof.
  intros Hn Hd. unfold div_ceil. destruct (Nat.eqb_spec (n mod d) 0) as [E|]; [|lia].
  pose proof (Nat.div_mod n d). destruct (n / d)%nat; lia.
Qed.

(** Chunk [i] holds the elements from [i * size], up to [size] of them. *)
Lemma chunks_lookup {A} rounds size (l : list A) i :
  (0 < size)%nat → (length l ≤ rounds)%nat →
  chunks_from rounds size l !! i
  = if (i * size <? length l)%nat then Some (take size (drop (i * size) l)) else None.
Proof.
  intros Hs. revert l i. induction rounds as [|rounds IH]; intros l i Hl.
  { destruct l; simpl in *; [|lia]. destruct (Nat.ltb_spec (i * size) 0); [lia|done]. }
  destruct l as [|x l]; [destruct (Nat.ltb_spec (i * size) (@length A [])); simpl in *; [lia|done]|].
  cbn [chunks_from]. destruct i as [|i]; [done|]. cbn [lookup list_lookup].
  rewrite IH by (rewrite length_drop; simpl in *; lia).
  rewrite length_drop, drop_drop. replace (size + i * size)%nat with (S i * size)%nat by lia.
  destruct (Nat.ltb_spec (i * size) (length (x :: l) - size)),
    (Nat.ltb_spec (S i * size) (length (x :: l))); try done; lia.
Qed.

Lemma chunks_length {A} size (l : list A) i :
  (0 < size)%nat → (i < length (chunks size l))%nat ↔ (i * size < length l)%nat.
Proof.
  intros Hs. rewrite <- lookup_lt_is_Some. unfold chunks. rewrite chunks_lookup by lia.
  destruct (Nat.ltb_spec (i * size) (length l)); split; naive_solver (done || lia).
Qed.

Lemma key_leb_total a b : key_leb a b = false → key_leb b a = true.
Proof.
  unfold key_leb. rewrite orb_false_iff, andb_false_iff, orb_true_iff, andb_true_iff,
    !Z.ltb_lt, Z.eqb_eq, Z.ltb_ge, Z.eqb_neq, !Z.leb_le, Z.leb_gt. lia.
Qed.

Lemma key_leb_trans a b d : key_leb a b = true → key_leb b d = true → key_leb a d = true.
Proof.
  unfold key_leb. rewrite !orb_true_iff, !andb_true_iff, !Z.ltb_lt, !Z.eqb_eq, !Z.leb_le. lia.
Qed.

Lemma key_leb_refl a : key_leb a a = true.
Proof. unfold key_leb. rewrite Z.eqb_refl, Z.leb_refl. by destruct (_ <? _). Qed.

(** The loudest point of a part of the waveform. *)
Definition loudest_of (points : list WaveformPoint) (p : WaveformPoint) : Prop :=
  p ∈ points ∧ ∀ q, q ∈ points → key_leb (point_key q) (point_key p) = true.

Lemma loudest_spec points : points ≠ [] → ∃ p, loudest points = Some p ∧ loudest_of points p.
Proof.
  intros Hne. unfold loudest.
  assert (∀ l seen best, loudest_of seen best →
    ∃ p, foldl (λ best point, match best with
               | None => Some point
               | Some best => if key_leb (point_key best) (point_key point)
                              then Some point else Some best
               end) (Some best) l = Some p ∧ loudest_of (seen ++ l) p) as Hg.
  { induction l as [|x l IH]; intros seen best [Hb Hm]; simpl.
    { exists best. by rewrite app_nil_r. }
    replace (seen ++ x :: l) with ((seen ++ [x]) ++ l) by by rewrite <- app_assoc.
    destruct (key_leb _ _) eqn:Ek; apply IH; (split; [set_solver|]);
      intros q [Hq| ->%list_elem_of_singleton]%elem_of_app; auto using key_leb_refl, key_leb_total.
    eapply key_leb_trans; eauto. }
  destruct points as [|x l]; [done|]. apply (Hg l [x] x). split; [by left|].
  intros q ->%list_elem_of_singleton. apply key_leb_refl.
Qed.

(** A preview has no more points than asked for and at least one for a waveform that has
    any; its points stand for consecutive parts of equal length that make up the whole
    waveform, and each is a point of its part that no other point there is louder than. *)
Theorem waveform_preview_spec points maximum size :
  points ≠ [] → (0 < maximum)%nat → size = div_ceil (length points) maximum →
  (0 < length (deck_waveform_preview_points points maximum) ≤ maximum)%nat ∧
  (length points ≤ length (deck_waveform_preview_points points maximum) * size)%nat ∧
  ∀ i rgb, deck_waveform_preview_points points maximum !! i = Some rgb →
    ∃ p, rgb = (wp_low p, wp_mid p, wp_high p) ∧ loudest_of (take size (drop (i * size) points)) p.
Proof.
  intros Hp Hm ->. assert (0 < length points)%nat as Hl by (destruct points; simpl; [done|lia]).
  pose proof (div_ceil_pos _ _ Hl Hm) as Hs. set (size := div_ceil _ _) in *.
  assert (deck_waveform_preview_points points maximum
    = (λ chunk, match loudest chunk with
                | Some point => (wp_low point, wp_mid point, wp_high point)
                | None => (0, 0, 0)
                end) <$> chunks size points) as ->
    by (destruct points, maximum; [done|done|lia|done]).
  rewrite length_fmap. pose proof (λ i, chunks_length size points i Hs) as Hc.
  set (n := length (chunks size points)) in *.
  assert (length points ≤ maximum * size)%nat.
  { unfold size, div_ceil. pose proof (Nat.div_mod (length points) maximum ltac:(lia)).
    pose proof (Nat.mod_upper_bound (length points) maximum ltac:(lia)).
    destruct (Nat.eqb_spec (length points mod maximum) 0); nia. }
  split_and!.
  - apply Hc. lia.
  - destruct (decide (n ≤ maximum)%nat); [done|]. assert (maximum < n)%nat as E by lia.
    apply Hc in E. lia.
  - destruct (decide (length points ≤ n * size)%nat); [done|]. assert (n < n)%nat; [apply Hc|]; lia.
  - intros i rgb (chunk & -> & Hi)%list_lookup_fmap_Some. unfold chunks in Hi.
    rewrite chunks_lookup in Hi by lia. destruct (Nat.ltb_spec (i * size) (length points)); [|done].
    injection Hi as <-. destruct (loudest_spec (take size (drop (i * size) points))) as (p & -> & Hmax).
    { intros E%(f_equal length). rewrite length_take, length_drop in E. simpl in E. lia. }
    by exists p.
Qed.

(** ** A small track *)

Definition demo_track_catalog : AutoloopCatalog :=
  let theme n := mkAutoloopTheme n (lit "Theme " ++ show_u n) n in
  let variant role order :=
    mkAutoloopVariant (lit role) (lit "mapping-" ++ show_u order) (lit "Loop " ++ show_u order) 1 false in
  let cell theme role number :=
    mkAutoloopMatrixCell theme (lit role) (lit "mapping-" ++ show_u number)
      (lit "entry-" ++ show_u theme ++ lit "-" ++ show_u number) (lit "Loop " ++ show_u number) in
  mkAutoloopCatalog 3 AUTOLOOP_CATALOG_DEFAULTS_VERSION (theme <$> [1; 2; 3; 4])
    [variant "intro-outro" 1; variant "drop" 2; mkAutoloopVariant (lit "drop") (lit "mapping-5") (lit "Loop 5") 2 false]
    [cell 1 "intro-outro" 1; cell 1 "drop" 2; cell 1 "drop" 5; cell 2 "drop" 2; cell 3 "intro-outro" 1].

Definition demo_markers : list BeatMarker :=
  (λ i, mkBeatMarker (Z.of_nat i) (100 + 500 * Z.of_nat i) (Z.of_nat i / 4 + 1) (Z.of_nat i mod 4 + 1))
    <$> seq 0 8.

Definition demo_context : LibraryPlanContext :=
  mkLibraryPlanContext (lit "rekordbox") (lit "library") (lit "Library") (lit "track") (lit "analysis") 1
    [] 4200 (mkBeatGrid 4 demo_markers) [] None demo_track_catalog
    [mkLibraryPhrasePlanContext 0 0 4 (lit "intro-outro") (lit "Intro") 0 StrategyAuto;
     mkLibraryPhrasePlanContext 1 4 8 (lit "drop") (lit "Drop") 0 StrategyAuto] ∅.

Lemma demo_grid : grid_of demo_context 4.
Proof. split; [by vm_compute|]. repeat constructor; by vm_compute. Qed.

Lemma clock_anchor_spec_witness :
  ∃ anchor, clock_anchor_at_millis demo_context 1234 120000 = Ok (Some anchor) ∧
    anchor_beat_index anchor = 2 ∧
    tick_delay_ok demo_context 1234 (anchor_bpm_milli anchor) (anchor_delay_to_next_tick anchor).
Proof.
  destruct (clock_anchor_spec demo_context 4 1234 120000 demo_grid ltac:(lia) ltac:(lia))
    as ([anchor|] & Ha & H); [|by vm_compute in H].
  exists anchor. split; [exact Ha|]. destruct H as (Hb & _ & _ & _ & Ht). by rewrite Hb.
Defined.

Lemma override_roundtrip_witness :
  ∃ c', set_autoloop_override 1 1 5 demo_context = Ok c' ∧
    ∃ choice, resolved_autoloop c' 1 1 = Some choice ∧ rlc_autoloop_number choice = Some 5.
Proof.
  destruct (set_autoloop_override 1 1 5 demo_context) as [c'|e] eqn:E; [|by vm_compute in E].
  exists c'. split; [done|].
  destruct (override_roundtrip 1 1 5 demo_context c' (lit "mapping-5")
    (mkLibraryPhrasePlanContext 1 4 8 (lit "drop") (lit "Drop") 0 StrategyAuto) demo_context 0)
    as ((choice & Hc & Hn & _) & _); [exact E|by vm_compute..| | |by eauto].
  - vm_compute in E. injection E as <-. by vm_compute.
  - apply (bool_decide_unpack _). by vm_compute.
Defined.

Definition demo_waveform : list WaveformPoint :=
  (λ i, mkWaveformPoint i (10 - i) 3) <$> [0; 1; 2; 3; 4; 5; 6; 7; 8; 9].

Lemma waveform_preview_spec_witness :
  (0 < length (deck_waveform_preview_points demo_waveform 4) ≤ 4)%nat.
Proof.
  destruct (waveform_preview_spec demo_waveform 4 3) as (H & _); [done|lia|by vm_compute|exact H].
Defined.
