(* ===== verification/PlanningWorker.v ===== *)
(** * The planning worker

    Models the [PlanningWorker] of [lumi-engine/src/session.rs], which turns loaded tracks
    into lighting plans: it chooses a planner for the Themes that can be executed, keeps
    the Themes of recent and reserved plans apart, compiles the Autoloops of a library
    track, and hands the plan to the runtime; and [process_source_event], which ties it to
    the runtime and the output worker.  A [Session] holds the planning worker and the
    [World] of the output worker.  The JSON timing diagnostics are left out. *)

From stdpp Require Import prelude list gmap strings.
From Stdlib Require Import ZArith Lia.
From S2P Require Import Prelude.
From S2P Require Import Track.
From S2P Require Import Plan.
From S2P Require Import Event.
From S2P Require Import State.
From S2P Require Import Reducer.
From S2P Require Import Runtime.
From S2P Require Import Mixing.
From S2P Require Import Planner.
From S2P Require Import LightPlans.
From S2P Require Import AutoloopCatalog.
From S2P Require Import Midi.
From S2P Require Import OutputWorker.
From S2P Require Import LibraryContext.
Open Scope Z_scope.

(** ** Planners for the executable Themes *)

Definition theme_options (catalog : AutoloopCatalog) : list ThemeOption :=
  (λ theme, mkThemeOption (at_id theme) (at_display_name theme)) <$> ac_themes catalog.

Definition track_color_from_rgb (rgb : Z) : TrackColor :=
  mkTrackColor (Z.land (Z.shiftr rgb 16) 0xff) (Z.land (Z.shiftr rgb 8) 0xff) (Z.land rgb 0xff).

Definition rule_behavior (behavior : ColorBehavior) : ThemeRuleColorBehavior :=
  match behavior with
  | LCPrefer => BehaviorPrefer
  | LCOnly => BehaviorOnly
  | LCNeutral => BehaviorNeutral
  end.

Definition selection_rule (policy : LightPlanningPolicy) (theme : ThemeOption) :
    option ThemeSelectionRule :=
  rule ← theme_rule_for policy (to_id theme);
  Some (mkThemeSelectionRule (to_id theme) true (ThemeRule_effective_weight rule)
          (rule_behavior (tr_color_behavior rule)) (track_color_from_rgb <$> tr_color_rgb rule)).

Definition enabled_themes (policy : LightPlanningPolicy) (themes : list ThemeOption) :
    list ThemeOption :=
  if bool_decide (lp_theme_rules policy = []) then themes
  else List.filter (λ theme, from_option tr_enabled false (theme_rule_for policy (to_id theme))) themes.

Definition planner_for_theme_options (catalog_revision : Z) (themes : list ThemeOption)
    (policy : LightPlanningPolicy) : result (DeterministicPlanner StableChoiceSource) EngineError :=
  let themes := enabled_themes policy themes in
  match themes with
  | [] => Err EngNoExecutableLibraryTheme
  | first :: _ =>
      let default_theme :=
        match lp_default_theme_id policy with
        | Some candidate => if bool_decide (candidate ∈ to_id <$> themes) then candidate else to_id first
        | None => to_id first
        end in
      let configuration :=
        with_default_theme (with_themes PlanningConfiguration_epic_one (Z.max catalog_revision 1) themes)
          default_theme in
      let configuration :=
        if bool_decide (lp_theme_rules policy = []) then configuration
        else with_theme_selection_rules (with_color_rules configuration [])
               (omap (selection_rule policy) themes) in
      Ok (mkDeterministicPlanner configuration mkStableChoiceSource)
  end.

Definition planner_for_themes (catalog_revision : Z) (themes : list (ThemeId * str))
    (policy : LightPlanningPolicy) : result (DeterministicPlanner StableChoiceSource) EngineError :=
  planner_for_theme_options catalog_revision ((λ theme, mkThemeOption theme.1 theme.2) <$> themes) policy.

Definition planner_for_executable_themes (catalog_revision : Z) (themes : list (ThemeId * str))
    (policy : LightPlanningPolicy) :
    result (option (DeterministicPlanner StableChoiceSource)) EngineError :=
  if bool_decide (themes = []) then Ok None
  else match planner_for_themes catalog_revision themes policy with
  | Ok planner => Ok (Some planner)
  | Err EngNoExecutableLibraryTheme => Ok None
  | Err error => Err error
  end.

(** ** Materialization *)

(** A call that fails, or one that never returns from [compile]. *)
Inductive SessionFault : Type :=
| Fails (e : EngineError)
| NoReturn.

Inductive PlanMaterializationScope : Type :=
| ScopeAll
| ScopeFromPhrase (first : Z)
| ScopeOnePhrase (selected : Z)
| ScopeNone.

Definition reselects (scope : PlanMaterializationScope) (phrase_index : Z) : bool :=
  match scope with
  | ScopeAll => true
  | ScopeFromPhrase first => first <=? phrase_index
  | ScopeOnePhrase selected => phrase_index =? selected
  | ScopeNone => false
  end.

Definition planner_track (metadata : TrackMetadata) : PlannerTrack :=
  if bool_decide (tm_phrases metadata = [])
  then PlannerTrack_without_analysis (tm_id metadata) (tm_duration_beats metadata)
  else PlannerTrack_analyzed metadata.

Definition action_theme_id (action : SemanticLightingAction) : option ThemeId :=
  match action with
  | ApplyLook look => Some (look_theme_id look)
  | HoldCurrentLook => None
  end.

Definition compiled_choice_from_resolution (choice : ResolvedLibraryCue) : CompiledAutoloopChoice :=
  mkCompiledAutoloopChoice (rlc_phrase_index choice) (rlc_role_id choice) (rlc_variant_id choice)
    (rlc_entry_id choice) (rlc_entry_name choice) (default 0 (rlc_autoloop_number choice))
    (mkSelectionEvidence (lit "preserved accepted live choice") 0 (lit "not re-evaluated")
       (lit "existing phrase choice preserved")).

Definition mix_compiled_selection (hash : Z) (theme_id : ThemeId) (value : str) : Z :=
  foldl (λ hash byte, wrapping_mul_u64 (Z.lxor hash byte) FNV_PRIME)
    (wrapping_mul_u64 (Z.lxor hash theme_id) FNV_PRIME) (str_as_bytes value).

Definition initial_theme (plan : LightingPlan) : option ThemeId :=
  match plan_theme_decision plan with
  | Some decision => Some (td_theme_id decision)
  | None => find_map (λ cue, action_theme_id (cue_action cue)) (plan_cues plan)
  end.

(** The phrases of each Theme but the first one, by Theme. *)
Definition phrase_indices_by_theme (initial : ThemeId) (cues : list LightingCue) : gmap Z (list Z) :=
  foldl (λ by_theme cue,
    match action_theme_id (cue_action cue) with
    | Some theme_id =>
        if theme_id =? initial then by_theme
        else <[theme_id := default [] (by_theme !! theme_id) ++ [cue_phrase_index cue]]> by_theme
    | None => by_theme
    end) ∅ cues.

(** A map in the order of its keys. *)
Definition entries {A} (m : gmap Z A) : list (Z * A) := sort_by_key fst (map_to_list m).

Definition compiled_or_fault {A} (r : option (result A LightPlanError)) : result A SessionFault :=
  match r with
  | None => Err NoReturn
  | Some (Err e) => Err (Fails (EngLightPlan e))
  | Some (Ok plan) => Ok plan
  end.

Section Materialize.
Variable depth : nat.
Variable policy : LightPlanningPolicy.
Variable history : VariationHistory.
Variable variation_seed : Z.
Variable context : LibraryPlanContext.

Fixpoint compile_themes (themes : list (Z * list Z)) (compiled : gmap Z CompiledLightPlan) :
    result (gmap Z CompiledLightPlan) SessionFault :=
  match themes with
  | [] => Ok compiled
  | (theme_id, phrase_indices) :: themes =>
      let? plan := compiled_or_fault (compile_light_plan_for_phrases context depth theme_id
                     phrase_indices policy variation_seed history) in
      compile_themes themes (<[theme_id := plan]> compiled)
  end.

Definition compile_by_theme (initial : ThemeId) (cues : list LightingCue) :
    result (gmap Z CompiledLightPlan) SessionFault :=
  if bool_decide (lp_rules policy = []) then Ok ∅
  else
    let? first := compiled_or_fault (compile_light_plan context depth initial policy variation_seed
                    history) in
    compile_themes (entries (phrase_indices_by_theme initial cues)) {[initial := first]}.

Definition compiled_choice_for (compiled : gmap Z CompiledLightPlan) (theme_id : ThemeId)
    (phrase_index : Z) : option CompiledAutoloopChoice :=
  plan ← compiled !! theme_id;
  List.find (λ choice, cc_phrase_index choice =? phrase_index) (clp_choices plan).

Definition preserved_choice (scope : PlanMaterializationScope) (look : LightingLook)
    (phrase_index : Z) : option ResolvedLibraryCue :=
  if reselects scope phrase_index then None
  else if U16_MAX <? look_scene_id look then None
  else List.find (λ choice, bool_decide (rlc_autoloop_number choice = Some (look_scene_id look)))
         (autoloop_choices context (look_theme_id look) phrase_index).

(** The Autoloop of one cue: its number, its name and the compiled choice behind it. *)
Definition cue_autoloop (scope : PlanMaterializationScope) (compiled : gmap Z CompiledLightPlan)
    (look : LightingLook) (phrase_index : Z) : option (Z * str * option CompiledAutoloopChoice) :=
  let theme_id := look_theme_id look in
  let compiled_choice := compiled_choice_for compiled theme_id phrase_index in
  match preserved_choice scope look phrase_index with
  | Some preserved =>
      number ← rlc_autoloop_number preserved;
      let choice := match compiled_choice with
                    | Some choice => if cc_autoloop_number choice =? number then choice
                                     else compiled_choice_from_resolution preserved
                    | None => compiled_choice_from_resolution preserved
                    end in
      Some (number, rlc_entry_name preserved, Some choice)
  | None =>
      match compiled_choice with
      | Some choice => Some (cc_autoloop_number choice, cc_display_name choice, Some choice)
      | None =>
          if bool_decide (lp_rules policy = []) then
            choice ← resolved_autoloop context theme_id phrase_index;
            number ← rlc_autoloop_number choice;
            Some (number, rlc_entry_name choice, None)
          else None
      end
  end.

(** The resolved Autoloops, the compiled choices and their signature. *)
Record Resolved := mkResolved {
  rs_numbers : gmap Z (Z * str);
  rs_choices : list CompiledAutoloopChoice;
  rs_signature : Z;
}.

Definition resolve_cue (scope : PlanMaterializationScope) (compiled : gmap Z CompiledLightPlan)
    (resolved : Resolved) (cue : LightingCue) : Resolved :=
  match cue_action cue with
  | HoldCurrentLook => resolved
  | ApplyLook look =>
      match cue_autoloop scope compiled look (cue_phrase_index cue) with
      | None => resolved
      | Some (number, name, choice) =>
          let numbers := <[cue_phrase_index cue := (number, name)]> (rs_numbers resolved) in
          match choice with
          | Some choice =>
              mkResolved numbers (rs_choices resolved ++ [choice])
                (mix_compiled_selection (rs_signature resolved) (look_theme_id look)
                   (cc_variant_id choice))
          | None => mkResolved numbers (rs_choices resolved) (rs_signature resolved)
          end
      end
  end.

Definition resolve_cues (scope : PlanMaterializationScope) (compiled : gmap Z CompiledLightPlan)
    (cues : list LightingCue) : Resolved :=
  foldl (resolve_cue scope compiled) (mkResolved ∅ [] 0xcbf29ce484222325) cues.

Definition final_compiled (initial : ThemeId) (compiled : gmap Z CompiledLightPlan)
    (resolved : Resolved) : option CompiledLightPlan :=
  if bool_decide (lp_rules policy = []) then None
  else
    let modifiers := from_option clp_modifier_choices [] (compiled !! initial) in
    let signature := foldl (λ hash modifier, mix_compiled_selection hash initial (cm_modifier_id modifier))
                       (rs_signature resolved) modifiers in
    Some (mkCompiledLightPlan (lp_revision policy) variation_seed initial (rs_choices resolved)
            modifiers signature).

Definition materialized_cue (numbers : gmap Z (Z * str)) (cue : LightingCue) :
    result LightingCue SessionFault :=
  match cue_action cue with
  | HoldCurrentLook => Ok cue
  | ApplyLook look =>
      match numbers !! cue_phrase_index cue with
      | None => Ok (hold_for_missing_autoloop_mapping cue)
      | Some (number, name) =>
          let? look := map_err (λ e, Fails (EngPlanMaterialization e))
            (LightingLook_try_new (look_theme_id look) (look_theme_name look) number name
               (look_category look) (look_loop_selection look)) in
          Ok (LightingCue_revised cue (ApplyLook look) (cue_origin cue) (cue_locked cue))
      end
  end.

Definition prepare_in_context (plan : LightingPlan) (scope : PlanMaterializationScope) :
    result (LightingPlan * option CompiledLightPlan) SessionFault :=
  let? initial := ok_or (initial_theme plan) (Fails EngMissingLibraryAutoloopResolution) in
  let? compiled := compile_by_theme initial (plan_cues plan) in
  let resolved := resolve_cues scope compiled (plan_cues plan) in
  let? cues := collect (materialized_cue (rs_numbers resolved)) (plan_cues plan) in
  let? plan := map_err (λ e, Fails (EngPlanMaterialization e)) (with_materialized_cues plan cues) in
  Ok (plan, final_compiled initial compiled resolved).
End Materialize.

(** ** The worker *)

Record PlanningWorker := mkPlanningWorker {
  pw_planner : DeterministicPlanner StableChoiceSource;
  pw_planner_catalog_revision : Z;
  pw_planner_theme_options : list ThemeOption;
  pw_effect_sequence : Z;
  pw_recent_theme_ids : list ThemeId;
  pw_reserved_theme_ids : gmap Z ThemeId;
  pw_library_contexts : gmap Z LibraryPlanContext;
  pw_light_policy : LightPlanningPolicy;
  pw_variation_history : VariationHistory;
  pw_compiled_light_plans : gmap Z CompiledLightPlan;
}.

Definition set_pw_planner (x : DeterministicPlanner StableChoiceSource) (s : PlanningWorker) : PlanningWorker :=
  mkPlanningWorker x (pw_planner_catalog_revision s) (pw_planner_theme_options s)
    (pw_effect_sequence s) (pw_recent_theme_ids s) (pw_reserved_theme_ids s)
    (pw_library_contexts s) (pw_light_policy s) (pw_variation_history s)
    (pw_compiled_light_plans s).

Definition set_pw_planner_catalog_revision (x : Z) (s : PlanningWorker) : PlanningWorker :=
  mkPlanningWorker (pw_planner s) x (pw_planner_theme_options s) (pw_effect_sequence s)
    (pw_recent_theme_ids s) (pw_reserved_theme_ids s) (pw_library_contexts s) (pw_light_policy
    s) (pw_variation_history s) (pw_compiled_light_plans s).

Definition set_pw_planner_theme_options (x : list ThemeOption) (s : PlanningWorker) : PlanningWorker :=
  mkPlanningWorker (pw_planner s) (pw_planner_catalog_revision s) x (pw_effect_sequence s)
    (pw_recent_theme_ids s) (pw_reserved_theme_ids s) (pw_library_contexts s) (pw_light_policy
    s) (pw_variation_history s) (pw_compiled_light_plans s).

Definition set_pw_effect_sequence (x : Z) (s : PlanningWorker) : PlanningWorker :=
  mkPlanningWorker (pw_planner s) (pw_planner_catalog_revision s) (pw_planner_theme_options s) x
    (pw_recent_theme_ids s) (pw_reserved_theme_ids s) (pw_library_contexts s) (pw_light_policy
    s) (pw_variation_history s) (pw_compiled_light_plans s).

Definition set_pw_recent_theme_ids (x : list ThemeId) (s : PlanningWorker) : PlanningWorker :=
  mkPlanningWorker (pw_planner s) (pw_planner_catalog_revision s) (pw_planner_theme_options s)
    (pw_effect_sequence s) x (pw_reserved_theme_ids s) (pw_library_contexts s) (pw_light_policy
    s) (pw_variation_history s) (pw_compiled_light_plans s).

Definition set_pw_reserved_theme_ids (x : gmap Z ThemeId) (s : PlanningWorker) : PlanningWorker :=
  mkPlanningWorker (pw_planner s) (pw_planner_catalog_revision s) (pw_planner_theme_options s)
    (pw_effect_sequence s) (pw_recent_theme_ids s) x (pw_library_contexts s) (pw_light_policy s)
    (pw_variation_history s) (pw_compiled_light_plans s).

Definition set_pw_library_contexts (x : gmap Z LibraryPlanContext) (s : PlanningWorker) : PlanningWorker :=
  mkPlanningWorker (pw_planner s) (pw_planner_catalog_revision s) (pw_planner_theme_options s)
    (pw_effect_sequence s) (pw_recent_theme_ids s) (pw_reserved_theme_ids s) x (pw_light_policy
    s) (pw_variation_history s) (pw_compiled_light_plans s).

Definition set_pw_light_policy (x : LightPlanningPolicy) (s : PlanningWorker) : PlanningWorker :=
  mkPlanningWorker (pw_planner s) (pw_planner_catalog_revision s) (pw_planner_theme_options s)
    (pw_effect_sequence s) (pw_recent_theme_ids s) (pw_reserved_theme_ids s)
    (pw_library_contexts s) x (pw_variation_history s) (pw_compiled_light_plans s).

Definition set_pw_variation_history (x : VariationHistory) (s : PlanningWorker) : PlanningWorker :=
  mkPlanningWorker (pw_planner s) (pw_planner_catalog_revision s) (pw_planner_theme_options s)
    (pw_effect_sequence s) (pw_recent_theme_ids s) (pw_reserved_theme_ids s)
    (pw_library_contexts s) (pw_light_policy s) x (pw_compiled_light_plans s).

Definition set_pw_compiled_light_plans (x : gmap Z CompiledLightPlan) (s : PlanningWorker) : PlanningWorker :=
  mkPlanningWorker (pw_planner s) (pw_planner_catalog_revision s) (pw_planner_theme_options s)
    (pw_effect_sequence s) (pw_recent_theme_ids s) (pw_reserved_theme_ids s)
    (pw_library_contexts s) (pw_light_policy s) (pw_variation_history s) x.

Definition PlanningWorker_new (catalog : AutoloopCatalog) : PlanningWorker :=
  let options := theme_options catalog in
  let policy := LightPlanningPolicy_default in
  mkPlanningWorker
    (match planner_for_theme_options (ac_revision catalog) options policy with
     | Ok planner => planner
     | Err _ => DeterministicPlanner_epic_one
     end) (ac_revision catalog) options 0 [] ∅ ∅ policy VariationHistory_default ∅.

Definition rebuild_planner (p : PlanningWorker) : PlanningWorker :=
  match planner_for_theme_options (pw_planner_catalog_revision p) (pw_planner_theme_options p)
          (pw_light_policy p) with
  | Ok planner => set_pw_planner planner p
  | Err _ => p
  end.

Definition synchronize_themes (catalog : AutoloopCatalog) (p : PlanningWorker) : PlanningWorker :=
  rebuild_planner (set_pw_planner_theme_options (theme_options catalog)
    (set_pw_planner_catalog_revision (ac_revision catalog) p)).

Definition synchronize_light_policy (policy : LightPlanningPolicy) (p : PlanningWorker) :
    PlanningWorker := rebuild_planner (set_pw_light_policy policy p).

(** [while map.len() > LIBRARY_CONTEXT_CAPACITY] with [keys().next()]: every round removes
    the least key, so as many rounds as there are entries are enough. *)
Definition least_key {A} (m : gmap Z A) : option Z := fst <$> head (entries m).

Fixpoint evict {A} (rounds : nat) (m : gmap Z A) : gmap Z A :=
  match rounds with
  | O => m
  | S rounds =>
      if (LIBRARY_CONTEXT_CAPACITY <? size m)%nat then
        match least_key m with
        | None => m
        | Some oldest => evict rounds (delete oldest m)
        end
      else m
  end.

Definition insert_bounded {A} (key : Z) (value : A) (m : gmap Z A) : gmap Z A :=
  let m := <[key := value]> m in evict (size m) m.

Definition register_library_context (track_load_id : TrackLoadId) (context : LibraryPlanContext)
    (p : PlanningWorker) : PlanningWorker :=
  set_pw_library_contexts (insert_bounded track_load_id context (pw_library_contexts p)) p.

Definition library_context (p : PlanningWorker) (track_load_id : TrackLoadId) :
    option LibraryPlanContext := pw_library_contexts p !! track_load_id.

Definition prepare_library_plan (depth : nat) (p : PlanningWorker) (plan : LightingPlan)
    (scope : PlanMaterializationScope) (context : option LibraryPlanContext) :
    result (LightingPlan * option CompiledLightPlan) SessionFault :=
  match context with
  | None => Ok (plan, None)
  | Some context =>
      prepare_in_context depth (pw_light_policy p) (pw_variation_history p)
        (Z.lxor (pw_effect_sequence p) (plan_track_load_id plan)) context plan scope
  end.

Definition reservation_id (track_load_id : TrackLoadId) : str :=
  lit "track-load:" ++ show_u track_load_id.

Definition commit_compiled_plan (track_load_id : TrackLoadId) (compiled : option CompiledLightPlan)
    (p : PlanningWorker) : PlanningWorker :=
  match compiled with
  | Some compiled =>
      set_pw_compiled_light_plans (insert_bounded track_load_id compiled (pw_compiled_light_plans p))
        (set_pw_variation_history
           (reserve (reservation_id track_load_id) compiled (pw_variation_history p)) p)
  | None =>
      set_pw_variation_history (release (reservation_id track_load_id) (pw_variation_history p))
        (set_pw_compiled_light_plans (delete track_load_id (pw_compiled_light_plans p)) p)
  end.

Definition materialize_library_plan (depth : nat) (plan : LightingPlan) (p : PlanningWorker) :
    PlanningWorker * result LightingPlan SessionFault :=
  match prepare_library_plan depth p plan ScopeAll (library_context p (plan_track_load_id plan)) with
  | Err fault => (p, Err fault)
  | Ok (plan, compiled) =>
      (commit_compiled_plan (plan_track_load_id plan) compiled p, Ok plan)
  end.

(** *** Themes that are in use *)

Definition unavailable_themes (p : PlanningWorker) (track_load_id : TrackLoadId) : list ThemeId :=
  take (Z.to_nat (lp_theme_cooldown_tracks (pw_light_policy p))) (reverse (pw_recent_theme_ids p))
  ++ (snd <$> List.filter (λ entry, negb (entry.1 =? track_load_id)) (entries (pw_reserved_theme_ids p))).

(** The plan for an input; [None] when no Theme may start the track. *)
Definition generate_for (p : PlanningWorker) (input : PlanningInput) :
    result (option LightingPlan) EngineError :=
  let context := ThemeSelectionContext_new (unavailable_themes p (in_track_load_id input)) in
  match library_context p (in_track_load_id input) with
  | Some library =>
      let? planner := planner_for_executable_themes (lpc_catalog_revision library)
                        (eligible_best_covered_themes library (pw_light_policy p))
                        (pw_light_policy p) in
      match planner with
      | None => Ok None
      | Some planner =>
          let? plan := map_err EngPlanner (generate_with_context planner input context) in
          Ok (Some plan)
      end
  | None =>
      let? plan := map_err EngPlanner (generate_with_context (pw_planner p) input context) in
      Ok (Some plan)
  end.

(** *** What an event asks for *)

Definition replaced_reservation (state : RuntimeState) (event : DomainEvent) : option TrackLoadId :=
  match event with
  | Observation envelope =>
      match obs_observation envelope with
      | TrackLoaded deck_id _ track_load_id =>
          deck ← rs_decks state !! deck_id;
          if deck_track_load_id deck =? track_load_id then None else Some (deck_track_load_id deck)
      | TrackUnloaded _ track_load_id => Some track_load_id
      | _ => None
      end
  | _ => None
  end.

Definition stops_live_transport (state : RuntimeState) (event : DomainEvent) : bool :=
  match event with
  | Observation envelope =>
      match obs_observation envelope with
      | PlaybackStateChanged deck_id _ false => bool_decide (rs_leader_deck state = Some deck_id)
      | _ => false
      end
  | _ => false
  end.

Definition exact_live_beat (event : DomainEvent) : option (DeckId * Z) :=
  match event with
  | Observation envelope =>
      match obs_observation envelope with
      | PlaybackPosition deck_id _ beat => Some (deck_id, beat)
      | _ => None
      end
  | _ => None
  end.

Definition activates_pending_timing (state : RuntimeState) (leader : option DeckId)
    (event : DomainEvent) : bool :=
  match event with
  | Observation envelope =>
      match obs_observation envelope with
      | PhraseChanged deck_id _ _ =>
          bool_decide (Some deck_id = leader) && bool_decide (rs_operation state = OpLive)
          && match rs_decks state !! deck_id with Some deck => deck_playing deck | None => false end
      | _ => false
      end
  | _ => false
  end.

Definition planning_input (p : PlanningWorker) (event : DomainEvent) : option PlanningInput :=
  match event with
  | Observation envelope =>
      match obs_observation envelope with
      | TrackLoaded deck_id metadata track_load_id
      | TrackMetadataHydrated deck_id metadata track_load_id =>
          if negb (bool_decide (tm_phrases metadata = []))
             || bool_decide (is_Some (library_context p track_load_id))
          then Some (mkPlanningInput deck_id track_load_id (planner_track metadata))
          else None
      | _ => None
      end
  | _ => None
  end.

(** *** Changes of the worker during an event *)

Definition forget_load (track_load_id : TrackLoadId) (p : PlanningWorker) : PlanningWorker :=
  set_pw_reserved_theme_ids (delete track_load_id (pw_reserved_theme_ids p))
    (set_pw_compiled_light_plans (delete track_load_id (pw_compiled_light_plans p))
       (set_pw_variation_history (release (reservation_id track_load_id) (pw_variation_history p)) p)).

(** The plan of the leading load was played: its variations and Theme become recent. *)
Definition commit_load (track_load_id : TrackLoadId) (p : PlanningWorker) : PlanningWorker :=
  let p := set_pw_variation_history (commit (reservation_id track_load_id) (pw_variation_history p)) p in
  match pw_reserved_theme_ids p !! track_load_id with
  | Some theme_id =>
      set_pw_recent_theme_ids (push_bounded 32 (pw_recent_theme_ids p) theme_id)
        (set_pw_reserved_theme_ids (delete track_load_id (pw_reserved_theme_ids p)) p)
  | None => p
  end.

(** No Theme may start the track: nothing is planned for the load. *)
Definition drop_plan_of (track_load_id : TrackLoadId) (p : PlanningWorker) : PlanningWorker :=
  set_pw_reserved_theme_ids (delete track_load_id (pw_reserved_theme_ids p))
    (set_pw_compiled_light_plans (delete track_load_id (pw_compiled_light_plans p)) p).

Definition reserve_theme (plan : LightingPlan) (p : PlanningWorker) : PlanningWorker :=
  match plan_theme_decision plan with
  | Some decision =>
      set_pw_reserved_theme_ids
        (<[plan_track_load_id plan := td_theme_id decision]> (pw_reserved_theme_ids p)) p
  | None => p
  end.

(** ** The session *)

Record Session (P : Type) := mkSession {
  se_planning : PlanningWorker;
  se_world : World P;
}.
Arguments mkSession {P}.
Arguments se_planning {P}.
Arguments se_world {P}.

Section Session.
Context {P E : Type} `{MidiSourceProvider P E}.
Variable depth : nat.
Implicit Types (s : Session P).

Notation session A := (method (Session P) SessionFault A).

Definition on_planning (f : PlanningWorker → PlanningWorker) : session unit :=
  method_modify (λ s, mkSession (f (se_planning s)) (se_world s)).

Definition planning {A} (f : PlanningWorker → A) : session A := method_get (λ s, f (se_planning s)).

(** A method of the output worker. *)
Definition in_world {A} (m : method (World P) EngineError A) : session A := λ s,
  let '(w, r) := m (se_world s) in (mkSession (se_planning s) w, map_err Fails r).

Definition runtime_state : session RuntimeState :=
  method_get (λ s, rt_state (w_runtime (se_world s))).

Definition materialize (plan : LightingPlan) : session LightingPlan := λ s,
  let '(p, r) := materialize_library_plan depth plan (se_planning s) in (mkSession p (se_world s), r).

Definition next_planning_sequence : session Z :=
  let! sequence := planning pw_effect_sequence in
  match checked_add_u64 sequence 1 with
  | None => method_fail (Fails EngPlanningEffectSequenceOverflow)
  | Some next => do! on_planning (set_pw_effect_sequence next) then method_ret next
  end.

Definition plan_event (sequence : Z) (observed_at : MonotonicTime) (plan : LightingPlan) : DomainEvent :=
  EffectResultEvent (mkEffectResultEnvelope sequence 1 sequence observed_at (PlanGenerated plan)).

(** A plan for the input is generated, materialized, reserved and reported. *)
Definition plan_input (input : PlanningInput) (observed_at : MonotonicTime) : session unit :=
  let! sequence := next_planning_sequence in
  let! p := planning id in
  let! generated := method_result (map_err Fails (generate_for p input)) in
  match generated with
  | None =>
      do! on_planning (drop_plan_of (in_track_load_id input)) then
      in_world (remove_static_look_plan (in_track_load_id input))
  | Some generated =>
      let! plan := materialize generated in
      let! compiled := planning (λ p, pw_compiled_light_plans p !! plan_track_load_id plan) in
      do! in_world (synchronize_static_look_plan (plan_track_load_id plan) compiled) then
      do! on_planning (reserve_theme plan) then
      in_world (process_domain_event (plan_event sequence observed_at plan))
  end.

(** A new epoch, or the end of the pending deadline when the leader stops. *)
Definition follow_transport (state : RuntimeState) (event : DomainEvent) :
    method (World P) EngineError unit :=
  match transport_epoch_cause state event with
  | Some cause => begin_autoloop_execution_epoch cause
  | None =>
      if stops_live_transport state event then
        do! invalidate_autoloop_deadline then
        upd (set_ow_reassert_current_on_next_cue false)
      else method_ret tt
  end.

Definition process_source_event (event : DomainEvent) (leader_deck_id : option DeckId) : session unit :=
  let! state := runtime_state in
  let replaced := replaced_reservation state event in
  do! in_world (follow_transport state event) then
  let activates := activates_pending_timing state leader_deck_id event in
  let! input := planning (λ p, planning_input p event) in
  do! (if activates then in_world activate_pending_timing_offset else method_ret tt) then
  do! in_world (process_domain_event event) then
  do! (match replaced with
       | Some track_load_id =>
           do! on_planning (forget_load track_load_id) then
           in_world (remove_static_look_plan track_load_id)
       | None => method_ret tt
       end) then
  let! state := runtime_state in
  do! (match (if activates then leader_deck_id ≫= λ deck_id, rs_decks state !! deck_id else None) with
       | Some deck => on_planning (commit_load (deck_track_load_id deck))
       | None => method_ret tt
       end) then
  do! (match exact_live_beat event with
       | Some (deck_id, beat) => in_world (observe_exact_live_beat state deck_id beat)
       | None => method_ret tt
       end) then
  match input with
  | Some input => plan_input input (DomainEvent_monotonic_time event)
  | None => method_ret tt
  end.

(** The events a deck source drained, in order. *)
Fixpoint process_source_events (events : list DomainEvent) (leader_deck_id : option DeckId) : session unit :=
  match events with
  | [] => method_ret tt
  | event :: events =>
      do! process_source_event event leader_deck_id then process_source_events events leader_deck_id
  end.

(** *** Revised plans *)

(** The runtime with the plan accepted, on a copy. *)
Definition prepare_revised_state (p : PlanningWorker) (rt : SerializedRuntime) (plan : LightingPlan) :
    result (SerializedRuntime * Z) EngineError :=
  match checked_add_u64 (pw_effect_sequence p) 1 with
  | None => Err EngPlanningEffectSequenceOverflow
  | Some sequence =>
      let '(rt, submitted) := submit (plan_event sequence 0 plan) rt in
      match submitted with
      | Err e => Err (EngDomainRuntime (SREIngress e))
      | Ok _ =>
          let '(rt, processed) := process_next rt in
          match processed with
          | Err e => Err (EngDomainRuntime (SREReducer e))
          | Ok None => Err EngSubmittedEventMissing
          | Ok (Some processed) =>
              if bool_decide (pr_decision processed = DPlanAccepted) then Ok (rt, sequence)
              else Err EngRevisedPlanNotAccepted
          end
      end
  end.
End Session.
