(* ===== verification/PlanningWorkerProps.v ===== *)
(** * Properties of the planning worker

    What a materialized plan plays; the Themes of recent and reserved plans; the bounded
    maps; failures that leave the worker as it was; and the opening cue that cannot be
    played. *)

From stdpp Require Import prelude list gmap strings.
From Stdlib Require Import ZArith Lia.
From S2P Require Import Prelude.
From S2P Require Import Track.
From S2P Require Import Plan.
From S2P Require Import Event.
From S2P Require Import State.
From S2P Require Import Reducer.
From S2P Require Import Runtime.
From S2P Require Import Mixing.
From S2P Require Import Planner.
From S2P Require Import PlannerProps.
From S2P Require Import PlanGeneration.
From S2P Require Import LightPlans.
From S2P Require Import LightPlansProps.
From S2P Require Import PhraseTimeline.
From S2P Require Import LibrarySource.
From S2P Require Import AutoloopCatalog.
From S2P Require Import Midi.
From S2P Require Import OutputWorker.
From S2P Require Import LibraryContext.
From S2P Require Import LibraryContextProps.
From S2P Require Import PlanningWorker.
Open Scope Z_scope.

(** ** Materialized plans *)

Lemma Forall2_impl_elem {A B} (R R' : A → B → Prop) l k :
  Forall2 R l k → (∀ x y, x ∈ l → R x y → R' x y) → Forall2 R' l k.
Proof.
  induction 1 as [|x y l k ? ? IH]; intros Hi; constructor; [by apply Hi; [left|]|].
  apply IH. intros a b Ha. apply Hi. by right.
Qed.

Lemma plays_elem policy theme_id color candidates history prior phrases choices choice :
  plays policy theme_id color candidates history prior phrases choices → choice ∈ choices →
  ∃ earlier phrase x, phrase ∈ phrases ∧
    chosen policy theme_id color candidates history earlier phrase choice x.
Proof.
  induction 1 as [|? phrase phrases choices ? ? IH|prior phrase phrases c x choices Hc ? IH].
  - by intros ?%not_elem_of_nil.
  - intros (earlier & p & y & Hp & ?)%IH. exists earlier, p, y. split; [by right|done].
  - intros [->|(earlier & p & y & Hp & ?)%IH]%elem_of_cons.
    + exists prior, phrase, x. split; [by left|done].
    + exists earlier, p, y. split; [by right|done].
Qed.

Definition distinct_phrases (c : LibraryPlanContext) : Prop := NoDup (lpp_phrase_index <$> lpc_phrases c).

Lemma phrase_at_elem c phrase :
  distinct_phrases c → phrase ∈ lpc_phrases c → phrase_at c (lpp_phrase_index phrase) = Some phrase.
Proof.
  unfold distinct_phrases, phrase_at. induction (lpc_phrases c) as [|p l IH]; [by intros ? ?%not_elem_of_nil|].
  rewrite fmap_cons. intros [Hn Hd]%NoDup_cons Hin. simpl. destruct (Z.eqb_spec (lpp_phrase_index p) (lpp_phrase_index phrase)) as [E|E].
  - apply elem_of_cons in Hin as [->|Hin]; [done|]. destruct Hn. rewrite E. by apply list_elem_of_fmap_2.
  - apply IH; [done|]. by apply elem_of_cons in Hin as [->|].
Qed.

(** A choice plays a phrase of the track with a button that its Theme maps for it. *)
Definition choice_offered (c : LibraryPlanContext) (theme_id : ThemeId)
    (choice : CompiledAutoloopChoice) : Prop :=
  offers c theme_id (cc_phrase_index choice) (cc_autoloop_number choice) (cc_display_name choice).

Lemma compiled_choices_offered c depth theme_id phrase_indices policy seed history plan choice :
  distinct_phrases c →
  compile_light_plan_for_phrases c depth theme_id phrase_indices policy seed history = Some (Ok plan) →
  choice ∈ clp_choices plan → choice_offered c theme_id choice.
Proof.
  intros Hd (Hp & _)%compile_plays Hin.
  destruct (plays_elem _ _ _ _ _ _ _ _ _ Hp Hin) as (earlier & request & x & Hr & [[E1 _] (Hx & Ht & Hrole) (_ & _ & E2 & E3) _]).
  unfold phrase_requests in Hr. apply list_elem_of_fmap in Hr as (phrase & -> & Hph).
  apply list_elem_of_In, filter_In in Hph as [Hph _]. apply list_elem_of_In in Hph.
  unfold choice_offered. rewrite E1, E2, E3, <- Ht. simpl.
  eapply candidate_offers; [by apply phrase_at_elem|done|done].
Qed.

Section Materialized.
Variable depth : nat.
Variable policy : LightPlanningPolicy.
Variable history : VariationHistory.
Variable variation_seed : Z.
Variable c : LibraryPlanContext.
Hypothesis Hphrases : distinct_phrases c.

(** Every compiled plan is one of its Theme. *)
Definition compiled_offered (compiled : gmap Z CompiledLightPlan) : Prop :=
  ∀ theme_id plan choice, compiled !! theme_id = Some plan → choice ∈ clp_choices plan →
    choice_offered c theme_id choice.

Lemma compiled_insert theme_id phrase_indices plan compiled :
  compiled_or_fault (compile_light_plan_for_phrases c depth theme_id phrase_indices policy
    variation_seed history) = Ok plan →
  compiled_offered compiled → compiled_offered (<[theme_id := plan]> compiled).
Proof.
  unfold compiled_or_fault. destruct (compile_light_plan_for_phrases _ _ _ _ _ _ _) as [[p|]|] eqn:Ec;
    [|done..]. intros [= ->] Hc t q choice Ht Hin.
  destruct (decide (t = theme_id)) as [->|Hne].
  - rewrite lookup_insert_eq in Ht. injection Ht as <-. by eapply compiled_choices_offered.
  - rewrite lookup_insert_ne in Ht by done. by eapply Hc.
Qed.

Lemma compile_themes_offered themes compiled compiled' :
  compile_themes depth policy history variation_seed c themes compiled = Ok compiled' →
  compiled_offered compiled → compiled_offered compiled'.
Proof.
  revert compiled. induction themes as [|[theme_id indices] themes IH]; simpl; intros compiled.
  { by intros [= <-]. }
  destruct (compiled_or_fault _) as [plan|] eqn:Ec; [|done]. simpl. intros H Ho.
  eapply IH; [exact H|]. by eapply compiled_insert.
Qed.

Lemma compile_by_theme_offered initial cues compiled :
  compile_by_theme depth policy history variation_seed c initial cues = Ok compiled →
  compiled_offered compiled.
Proof.
  unfold compile_by_theme. case_bool_decide; [by intros [= <-] ??? ?%lookup_empty_Some|].
  unfold compile_light_plan. destruct (compiled_or_fault _) as [plan|] eqn:Ec; [|done]. simpl. intros Ht.
  eapply compile_themes_offered; [exact Ht|]. rewrite <- insert_empty.
  eapply compiled_insert; [exact Ec|]. by intros ??? ?%lookup_empty_Some.
Qed.

Lemma preserved_choice_Some scope look phrase_index choice :
  preserved_choice c scope look phrase_index = Some choice →
  reselects scope phrase_index = false ∧ rlc_autoloop_number choice = Some (look_scene_id look) ∧
  choice ∈ autoloop_choices c (look_theme_id look) phrase_index.
Proof.
  unfold preserved_choice. destruct (reselects _ _); [done|]. destruct (_ <? _); [done|].
  intros [Hin ?%bool_decide_eq_true]%find_some. by apply list_elem_of_In in Hin.
Qed.

Lemma cue_autoloop_offered scope compiled look phrase_index number name choice :
  compiled_offered compiled →
  cue_autoloop policy c scope compiled look phrase_index = Some (number, name, choice) →
  offers c (look_theme_id look) phrase_index number name ∧
  (∀ kept, preserved_choice c scope look phrase_index = Some kept → number = look_scene_id look).
Proof.
  intros Ho. unfold cue_autoloop.
  destruct (preserved_choice c scope look phrase_index) as [kept|] eqn:Ep.
  - apply preserved_choice_Some in Ep as (_ & Hn & Hin). rewrite Hn. cbn [mbind option_bind].
    intros [= <- <- _]. split; [|naive_solver]. by eapply autoloop_choices_offer.
  - destruct (compiled_choice_for compiled (look_theme_id look) phrase_index) as [found|] eqn:Ec.
    + intros [= <- <- _]. split; [|done]. unfold compiled_choice_for in Ec.
      apply bind_Some in Ec as (plan & Hp & [Hin Hi]%find_some). apply Z.eqb_eq in Hi.
      rewrite <- Hi. apply (Ho _ plan); [done|]. by apply list_elem_of_In.
    + case_bool_decide; [|done]. intros (r & Hr & (n & Hn & [= <- <- _])%bind_Some)%bind_Some.
      split; [|done]. by eapply resolved_autoloop_offers.
Qed.

(** What the numbers found for the cues say. *)
Definition numbers_of scope compiled (cues : list LightingCue) (numbers : gmap Z (Z * str)) : Prop :=
  ∀ phrase_index number name, numbers !! phrase_index = Some (number, name) →
    ∃ cue look choice, cue ∈ cues ∧ cue_phrase_index cue = phrase_index ∧
      cue_action cue = ApplyLook look ∧
      cue_autoloop policy c scope compiled look phrase_index = Some (number, name, choice).

Lemma resolve_cues_numbers scope compiled cues :
  numbers_of scope compiled cues (rs_numbers (resolve_cues policy c scope compiled cues)).
Proof.
  clear Hphrases. unfold resolve_cues.
  assert (∀ rest seen resolved, numbers_of scope compiled seen (rs_numbers resolved) →
    numbers_of scope compiled (seen ++ rest)
      (rs_numbers (foldl (resolve_cue policy c scope compiled) resolved rest))) as Hg.
  { induction rest as [|cue rest IH]; intros seen resolved Hn; simpl; [by rewrite app_nil_r|].
    replace (seen ++ cue :: rest) with ((seen ++ [cue]) ++ rest) by (by rewrite <- app_assoc).
    apply IH. intros i number name. unfold resolve_cue.
    assert (rs_numbers resolved !! i = Some (number, name) → ∃ cue0 look choice,
      cue0 ∈ seen ++ [cue] ∧ cue_phrase_index cue0 = i ∧ cue_action cue0 = ApplyLook look ∧
      cue_autoloop policy c scope compiled look i = Some (number, name, choice)) as Hold
      by (intros (x & look & choice & ? & ?)%Hn; exists x, look, choice; set_solver).
    destruct (cue_action cue) as [look|] eqn:Ea; [|done].
    destruct (cue_autoloop _ _ _ _ _ _) as [[[n m] choice]|] eqn:Ec; [|done].
    assert (rs_numbers (match choice with
      | Some choice => mkResolved (<[cue_phrase_index cue := (n, m)]> (rs_numbers resolved))
          (rs_choices resolved ++ [choice])
          (mix_compiled_selection (rs_signature resolved) (look_theme_id look) (cc_variant_id choice))
      | None => mkResolved (<[cue_phrase_index cue := (n, m)]> (rs_numbers resolved))
          (rs_choices resolved) (rs_signature resolved) end)
      = <[cue_phrase_index cue := (n, m)]> (rs_numbers resolved)) as -> by by destruct choice.
    destruct (decide (cue_phrase_index cue = i)) as [<-|Hne].
    - rewrite lookup_insert_eq. intros [= <- <-]. exists cue, look, choice. set_solver.
    - by rewrite lookup_insert_ne by done. }
  apply (Hg cues []). intros ??? H; simpl in H; by apply lookup_empty_Some in H.
Qed.
End Materialized.

(** What materialization does to a cue: a hold stays; a look gets a button that its Theme maps
    for the role of the phrase, the one it had when it is kept; a look without a button
    becomes a hold. *)
Definition materialized_from (c : LibraryPlanContext) (scope : PlanMaterializationScope)
    (cue cue' : LightingCue) : Prop :=
  match cue_action cue with
  | HoldCurrentLook => cue' = cue
  | ApplyLook look =>
      cue' = hold_for_missing_autoloop_mapping cue ∨
      ∃ number name,
        cue' = LightingCue_revised cue
                 (ApplyLook (mkLightingLook (look_theme_id look) (look_theme_name look) number name
                    (look_category look) (look_loop_selection look))) (cue_origin cue) (cue_locked cue) ∧
        1 ≤ number ≤ 32 ∧ offers c (look_theme_id look) (cue_phrase_index cue) number name ∧
        (∀ kept, preserved_choice c scope look (cue_phrase_index cue) = Some kept →
           number = look_scene_id look)
  end.

Lemma offers_range c theme_id phrase_index number name :
  offers c theme_id phrase_index number name → 1 ≤ number ≤ 32.
Proof. intros (phrase & cell & _ & _ & _ & _ & Hm & _). by eapply mapping_number_range. Qed.

Lemma same_cue plan (a b : LightingCue) :
  plan_wf plan → a ∈ plan_cues plan → b ∈ plan_cues plan →
  cue_phrase_index a = cue_phrase_index b → a = b.
Proof.
  intros Hp [i Hi]%list_elem_of_lookup [j Hj]%list_elem_of_lookup E.
  pose proof (indexed_lookup _ _ _ _ (plan_wf_indexed _ Hp) Hi).
  pose proof (indexed_lookup _ _ _ _ (plan_wf_indexed _ Hp) Hj).
  replace j with i in Hj by (simpl in *; lia). congruence.
Qed.

Lemma materialized_cue_from c depth policy history seed scope initial compiled plan cue cue' :
  distinct_phrases c → plan_wf plan →
  compile_by_theme depth policy history seed c initial (plan_cues plan) = Ok compiled →
  cue ∈ plan_cues plan →
  materialized_cue (rs_numbers (resolve_cues policy c scope compiled (plan_cues plan))) cue = Ok cue' →
  materialized_from c scope cue cue'.
Proof.
  intros Hd Hp Hc Hin. unfold materialized_cue, materialized_from.
  destruct (cue_action cue) as [look|] eqn:Ea; [|by intros [= <-]].
  destruct (rs_numbers _ !! _) as [[number name]|] eqn:En; [|intros [= <-]; by left].
  unfold LightingLook_try_new. destruct (str_is_blank _); [done|]. destruct (str_is_blank _); [done|].
  intros [= <-]. right. exists number, name. split; [done|].
  apply resolve_cues_numbers in En as (own & look' & choice & Ho & Hi & Ha & Hl).
  assert (own = cue) as -> by (by eapply same_cue). rewrite Ea in Ha. injection Ha as <-.
  apply cue_autoloop_offered in Hl as [Hof Hk]; [|by eapply compile_by_theme_offered].
  pose proof (offers_range _ _ _ _ _ Hof) as []. by split_and!.
Qed.


(** A plan whose opening cue has no button is never materialized: the constructor of plans
    wants the opening cue to play the decided Theme. *)
Lemma opening_without_button depth policy history seed c plan scope initial compiled first rest look :
  plan_wf plan → plan_status plan = PlanReady → plan_cues plan = first :: rest →
  cue_action first = ApplyLook look →
  compile_by_theme depth policy history seed c initial (plan_cues plan) = Ok compiled →
  initial_theme plan = Some initial →
  cue_autoloop policy c scope compiled look (cue_phrase_index first) = None →
  ¬ is_ok (prepare_in_context depth policy history seed c plan scope).
Proof.
  intros Hp Hr Hc Ha Hcomp Hi Hn [[plan' out] H]. unfold prepare_in_context in H. rewrite Hi in H.
  cbn [ok_or result_bind] in H. rewrite Hcomp in H. cbn [result_bind] in H. unbind H. injection H as <- _.
  apply with_materialized_cues_Ok in E0 as [-> Hwf]. apply collect_Ok in E.
  destruct (rs_numbers (resolve_cues policy c scope compiled (plan_cues plan)) !! cue_phrase_index first)
    as [[number name]|] eqn:En.
  - apply resolve_cues_numbers in En as (own & look' & choice & Ho & Hx & Hl & Hauto).
    assert (own = first) as -> by (eapply same_cue; [exact Hp|done|rewrite Hc; by left|done]).
    rewrite Ha in Hl. injection Hl as <-. congruence.
  - rewrite Hc in E. inversion E as [|? first' ? ? Hf]; subst. rewrite <- Hc in *.
    unfold materialized_cue in Hf. rewrite Ha, En in Hf. injection Hf as <-.
    pose proof (plan_wf_theme _ Hwf) as Ht. simpl in Ht. apply Ht in Hr as [d Hd].
    pose proof (plan_wf_consistent _ Hwf d Hd) as Hcons. by simpl in Hcons.
Qed.

(** ** Bounded maps *)

Lemma entries_length {A} (m : gmap Z A) : length (entries m) = size m.
Proof. unfold entries. by rewrite sort_by_key_length, length_map_to_list. Qed.

Lemma least_key_Some {A} (m : gmap Z A) : m ≠ ∅ → ∃ key, least_key m = Some key ∧ is_Some (m !! key).
Proof.
  intros Hm. unfold least_key. destruct (entries m) as [|[key x] l] eqn:E.
  { destruct Hm. apply map_size_empty_iff. by rewrite <- entries_length, E. }
  exists key. split; [done|]. exists x. apply elem_of_map_to_list.
  rewrite <- (sort_by_key_perm fst (map_to_list m)). fold (entries m). rewrite E. by left.
Qed.

(** As many rounds as there are entries are enough; no entry is made up. *)
Lemma evict_spec {A} rounds (m : gmap Z A) :
  (size m ≤ rounds)%nat →
  (size (evict rounds m) ≤ LIBRARY_CONTEXT_CAPACITY)%nat ∧ evict rounds m ⊆ m.
Proof.
  revert m. induction rounds as [|rounds IH]; intros m Hm; cbn [evict]; [split; [lia|done]|].
  destruct (Nat.ltb_spec LIBRARY_CONTEXT_CAPACITY (size m)); [|done].
  destruct (least_key_Some m) as (key & Hk & Hkey).
  { intros ->. rewrite map_size_empty in *. lia. }
  rewrite Hk. destruct (IH (delete key m)) as [H1 H2].
  { rewrite map_size_delete_Some by done. lia. }
  split; [done|]. etrans; [exact H2|]. apply delete_subseteq.
Qed.

Lemma insert_bounded_spec {A} key (x : A) m :
  (size (insert_bounded key x m) ≤ LIBRARY_CONTEXT_CAPACITY)%nat ∧
  insert_bounded key x m ⊆ <[key := x]> m.
Proof. by apply evict_spec. Qed.

Lemma evict_small {A} rounds (m : gmap Z A) :
  (size m ≤ LIBRARY_CONTEXT_CAPACITY)%nat → evict rounds m = m.
Proof.
  destruct rounds; cbn [evict]; [done|]. intros H.
  by rewrite (proj2 (Nat.ltb_ge _ _) H).
Qed.

(** ** The Themes kept apart *)

Lemma context_keeps_last recent :
  recent_theme_ids (ThemeSelectionContext_new recent) = drop (length recent - 8) recent.
Proof.
  unfold ThemeSelectionContext_new. cbn [recent_theme_ids]. rewrite take_reverse, reverse_involutive.
  by rewrite length_reverse || done.
Qed.

(** The selection context keeps eight Themes, the last ones of the list.  The worker lists the
    most recently played Theme first, so that with more than eight Themes to avoid it is the
    newest one that is forgotten, although it is the oldest that should be. *)
Theorem newest_theme_forgotten p track_load_id older newest :
  pw_recent_theme_ids p = older ++ [newest] →
  0 < lp_theme_cooldown_tracks (pw_light_policy p) →
  (8 < length (unavailable_themes p track_load_id))%nat →
  newest ∉ drop 1 (unavailable_themes p track_load_id) →
  head (unavailable_themes p track_load_id) = Some newest ∧
  newest ∉ recent_theme_ids (ThemeSelectionContext_new (unavailable_themes p track_load_id)).
Proof.
  intros Hr Hc Hl Hn. split.
  - unfold unavailable_themes. rewrite Hr, reverse_app. destruct (Z.to_nat _) eqn:E; [lia|done].
  - rewrite context_keeps_last. intros Hin. apply Hn.
    replace (length (unavailable_themes p track_load_id) - 8)%nat
      with (1 + (length (unavailable_themes p track_load_id) - 9))%nat in Hin by lia.
    rewrite <- drop_drop in Hin. rewrite list_elem_of_lookup in Hin |- *. destruct Hin as [j Hj].
    rewrite lookup_drop in Hj. by eexists.
Qed.

(** ** The planner of a library track *)

(** Themes a planner can be made for. *)
Definition options_wf (themes : list ThemeOption) : Prop :=
  Forall (λ theme, str_is_blank (to_name theme) = false) themes ∧
  Z.of_nat (length themes) * U16_MAX ≤ U64_MAX.

Lemma color_rules_wf theme_ids rules :
  Forall (λ rule, Z.of_nat (length (cr_candidates rule)) * U16_MAX ≤ U64_MAX ∧
                  Forall (λ c, wc_weight c ≤ U16_MAX) (cr_candidates rule)) rules →
  Forall (λ rule, Forall (λ c, 1 ≤ wc_weight c) (cr_candidates rule)) rules →
  Forall (λ rule, cr_candidates rule ≠ [] ∧ Z.of_nat (length (cr_candidates rule)) * U16_MAX ≤ U64_MAX ∧
      Forall (λ c, 1 ≤ wc_weight c ≤ U16_MAX ∧ wc_theme_id c ∈ theme_ids) (cr_candidates rule))
    (List.filter (λ rule, existsb (λ candidate, 0 <? wc_weight candidate) (cr_candidates rule))
      ((λ rule, mkThemeColorRule (cr_color rule) (cr_mode rule)
          (List.filter (λ candidate, contains theme_ids (wc_theme_id candidate)) (cr_candidates rule)))
        <$> rules)).
Proof.
  rewrite !Forall_forall. intros Hw Hp rule [Hr He]%list_elem_of_In%filter_In.
  apply list_elem_of_In, list_elem_of_fmap in Hr as (old & -> & Ho). simpl in *.
  destruct (Hw _ Ho) as [Hl Hwm]. specialize (Hp _ Ho). split_and!.
  - intros E. by rewrite E in He.
  - etrans; [|exact Hl]. apply Z.mul_le_mono_nonneg_r; [done|].
    apply Nat2Z.inj_le, List.filter_length_le.
  - apply Forall_forall. intros x [Hx Hc]%list_elem_of_In%filter_In. apply list_elem_of_In in Hx.
    rewrite Forall_forall in Hwm, Hp. apply bool_decide_eq_true in Hc. auto.
Qed.

Lemma enabled_themes_elem policy themes theme :
  theme ∈ enabled_themes policy themes → theme ∈ themes.
Proof.
  unfold enabled_themes. case_bool_decide; [done|]. rewrite !list_elem_of_In, filter_In. tauto.
Qed.

Lemma selection_rule_Some policy theme rule :
  selection_rule policy theme = Some rule →
  sr_theme_id rule = to_id theme ∧ sr_enabled rule = true ∧ 1 ≤ sr_weight rule ≤ 4.
Proof.
  unfold selection_rule. intros (r & _ & [= <-])%bind_Some. simpl.
  unfold ThemeRule_effective_weight, clamp_weight. split_and!; [done|done|lia|lia].
Qed.

Lemma omap_length {A B} (f : A → option B) l : (length (omap f l) ≤ length l)%nat.
Proof. induction l as [|x l IH]; [done|]. cbn. destruct (f x); cbn; lia. Qed.

(** The planner made for Themes, some of which are enabled, is usable. *)
Lemma planner_for_options_wf revision themes policy :
  options_wf themes → enabled_themes policy themes ≠ [] →
  ∃ planner, planner_for_theme_options revision themes policy = Ok planner ∧
    config_wf (dp_configuration planner) ∧
    th_id <$> cfg_themes (dp_configuration planner) = to_id <$> enabled_themes policy themes ∧
    cfg_theme_selection_rules (dp_configuration planner)
      = if bool_decide (lp_theme_rules policy = []) then []
        else omap (selection_rule policy) (enabled_themes policy themes).
Proof.
  intros [Hn Hl] He. unfold planner_for_theme_options.
  assert (∀ theme, theme ∈ enabled_themes policy themes → str_is_blank (to_name theme) = false) as Hnames.
  { intros theme Ht%enabled_themes_elem. rewrite Forall_forall in Hn. auto. }
  assert (length (enabled_themes policy themes) ≤ length themes)%nat as Hlen.
  { unfold enabled_themes. case_bool_decide; [done|]. apply List.filter_length_le. }
  set (enabled := enabled_themes policy themes) in *. destruct enabled as [|first rest] eqn:E; [done|].
  rewrite <- E in *. clear He. cbv zeta.
  set (default_theme := match lp_default_theme_id policy with Some _ => _ | None => _ end).
  assert (default_theme ∈ to_id <$> enabled) as Hd.
  { subst default_theme. assert (to_id first ∈ to_id <$> enabled) by (rewrite E; by left).
    destruct (lp_default_theme_id policy); [|done]. by case_bool_decide. }
  clearbody default_theme.
  assert (th_id <$> ((λ theme, mkThemeDefinition (to_id theme) (to_name theme)) <$> enabled)
    = to_id <$> enabled) as Hids by (by rewrite <- list_fmap_compose).
  eexists. split; [reflexivity|]. cbn [dp_configuration].
  assert (Forall (λ def, str_is_blank (th_name def) = false)
    ((λ theme, mkThemeDefinition (to_id theme) (to_name theme)) <$> enabled)) as Hnamed.
  { apply Forall_fmap, Forall_forall. intros theme Ht. by apply Hnames. }
  pose proof epic_one_wf as [_ _ Hscenes Hcats _ _ _ _ _].
  case_bool_decide; (split; [split; cbn; try done|split; [exact Hids|done]]).
  - lia.
  - by rewrite Hids.
  - rewrite Hids. apply (color_rules_wf (to_id <$> enabled) (cfg_color_rules PlanningConfiguration_epic_one));
      repeat constructor; vm_compute; congruence.
  - lia.
  - by rewrite Hids.
  - apply Forall_forall. intros rule (theme & Ht & Hr)%list_elem_of_omap.
    apply selection_rule_Some in Hr as (-> & _ & Hw). rewrite Hids.
    split; [unfold in_u16, U16_MAX; lia|by apply list_elem_of_fmap_2].
  - pose proof (omap_length (selection_rule policy) enabled). unfold U16_MAX, U64_MAX in *. lia.
Qed.

(** The Themes of a library track as options of a planner. *)
Definition library_options (themes : list (ThemeId * str)) : list ThemeOption :=
  (λ theme, mkThemeOption theme.1 theme.2) <$> themes.

Lemma library_themes_enabled c policy :
  enabled_themes policy (library_options (eligible_best_covered_themes c policy))
  = library_options (eligible_best_covered_themes c policy).
Proof.
  unfold enabled_themes. case_bool_decide as Hr; [done|].

  assert (∀ l, (∀ theme : ThemeId * str, theme ∈ l →
     from_option tr_enabled false (theme_rule_for policy theme.1) = true) →
     List.filter (λ theme, from_option tr_enabled false (theme_rule_for policy (to_id theme)))
       (library_options l) = library_options l) as Hf.
  { induction l as [|x l IH]; intros Hl; [done|]. cbn. rewrite (Hl x) by (by left).
    f_equal. apply IH. intros y Hy. apply Hl. by right. }
  apply Hf. intros theme (_ & Ha & _)%eligible_elem.
  destruct Ha as [|(rule & Hru & He & _)]; [done|]. by rewrite Hru.
Qed.

Lemma track_color_roundtrip color : color_wf color → track_color_from_rgb (TrackColor_rgb_u32 color) = color.
Proof. intros Hc. apply (rgb_u32_roundtrip color Hc). Qed.

(** The planner sees the rule of a Theme reserved for the colour of the track as one. *)
Lemma only_rule_matches policy theme rule track color :
  color_wf color → pt_color track = Some color →
  theme_rule_for policy (to_id theme) = Some rule →
  color_only_match policy (Some (TrackColor_rgb_u32 color)) (to_id theme) = true →
  ∃ selected, selection_rule policy theme = Some selected ∧ sr_enabled selected = true ∧
    sr_color_behavior selected = BehaviorOnly ∧ matches_color track selected = true.
Proof.
  intros Hw Hc Hr Hm. unfold color_only_match in Hm. rewrite Hr in Hm.
  rewrite !andb_true_iff, !bool_decide_eq_true in Hm. destruct Hm as [[_ Hb] Hin].
  unfold selection_rule. rewrite Hr. cbn [mbind option_bind]. eexists. split; [reflexivity|].
  cbn [sr_enabled sr_color_behavior]. rewrite Hb. split_and!; [done|done|].
  unfold matches_color. rewrite Hc. unfold contains. cbn [sr_colors]. apply bool_decide_eq_true.
  rewrite <- (track_color_roundtrip color Hw). by apply list_elem_of_fmap_2.
Qed.

Lemma library_selectable c policy (planner : DeterministicPlanner StableChoiceSource) track :
  cfg_theme_selection_rules (dp_configuration planner)
    = (if bool_decide (lp_theme_rules policy = []) then []
       else omap (selection_rule policy) (library_options (eligible_best_covered_themes c policy))) →
  eligible_best_covered_themes c policy ≠ [] →
  pt_color track = lpc_track_color c → (∀ color, pt_color track = Some color → color_wf color) →
  selectable planner track.
Proof.
  intros Hrules He Hcolor Hw Hne. rewrite Hrules in Hne. case_bool_decide as Hr; [done|].
  destruct (eligible_best_covered_themes c policy) as [|t l] eqn:El; [done|].
  assert (t ∈ eligible_best_covered_themes c policy) as Ht by (rewrite El; by left).
  apply eligible_elem in Ht as (Hs & [|(rule & Hru & Hen & Hcase)] & _); [done|].
  assert (∀ selected, selection_rule policy (mkThemeOption t.1 t.2) = Some selected →
    selected ∈ cfg_theme_selection_rules (dp_configuration planner)) as Hin.
  { intros selected Hsel. rewrite Hrules. apply list_elem_of_omap. exists (mkThemeOption t.1 t.2).
    split; [by left|done]. }
  intros Hnone. destruct (uses_color_only planner track) eqn:Hu; unfold eligible_rules in Hnone; rewrite Hu in Hnone.
  { unfold uses_color_only in Hu. by apply negb_true_iff, bool_decide_eq_false in Hu. }
  unfold uses_color_only in Hu. apply negb_false_iff, bool_decide_eq_true in Hu.
  case_bool_decide as Hex.
  - unfold track_color_rgb in Hcase. rewrite <- Hcolor in Hcase.
    destruct (pt_color track) as [color|] eqn:Ec.
    + destruct (only_rule_matches policy (mkThemeOption t.1 t.2) rule track color)
        as (selected & Hsel & H1 & H2 & H3); [by apply Hw|done|done|exact Hcase|].
      apply (not_elem_of_nil selected). rewrite <- Hu. apply list_elem_of_In, filter_In.
      split; [by apply list_elem_of_In, Hin|]. by rewrite H1, H2, H3, bool_decide_true.
    + unfold color_only_match in Hcase. simpl in Hcase. rewrite Hru, andb_false_r in Hcase. done.
  - assert (selection_rule policy (mkThemeOption t.1 t.2) =
      Some (mkThemeSelectionRule t.1 true (ThemeRule_effective_weight rule)
              (rule_behavior (tr_color_behavior rule)) (track_color_from_rgb <$> tr_color_rgb rule))) as Hsel.
    { unfold selection_rule. simpl. by rewrite Hru. }
    eapply (not_elem_of_nil). rewrite <- Hnone. apply list_elem_of_In, filter_In.
    split; [apply list_elem_of_In, Hin; exact Hsel|]. cbn [sr_enabled sr_color_behavior].
    rewrite bool_decide_false; [done|]. by destruct (tr_color_behavior rule).
Qed.

Lemma options_length c policy :
  (length (eligible_best_covered_themes c policy) ≤ length (ac_themes (lpc_catalog c)))%nat.
Proof.
  unfold eligible_best_covered_themes, best_covered_themes.
  set (allowed := policy_eligible_executable_themes _ _ _).
  assert (length allowed ≤ length (ac_themes (lpc_catalog c)))%nat as Ha.
  { unfold allowed, policy_eligible_executable_themes.
    assert (length (startable_themes c) ≤ length (ac_themes (lpc_catalog c)))%nat by apply omap_length.
    case_bool_decide; [done|]. etrans; [apply List.filter_length_le|done]. }
  destruct allowed; [simpl; lia|]. etrans; [apply List.filter_length_le|done].
Qed.

Lemma library_options_wf c policy :
  Forall (λ t, str_is_blank (at_display_name t) = false) (ac_themes (lpc_catalog c)) →
  (length (ac_themes (lpc_catalog c)) ≤ 4)%nat →
  options_wf (library_options (eligible_best_covered_themes c policy)).
Proof.
  intros Hn Hl. split.
  - apply Forall_fmap, Forall_forall. intros theme (Hs & _)%eligible_elem.
    apply startable_spec in Hs as (t & _ & _ & Ht & -> & _). rewrite Forall_forall in Hn. by apply Hn.
  - unfold library_options. rewrite length_fmap. pose proof (options_length c policy).
    unfold U16_MAX, U64_MAX. lia.
Qed.

(** Planning a library track.  Nothing is planned exactly when no Theme of the catalogue
    may open the track; otherwise the planner made for the Themes that may is usable and
    finds one for every analysed track: the filter by policy and colour of the library and
    the one of the planner never contradict each other.  The plan is ready and starts in one
    of those Themes, whatever Themes are in use elsewhere. *)
Theorem library_generation p input library phrases :
  library_context p (in_track_load_id input) = Some library →
  Forall (λ t, str_is_blank (at_display_name t) = false) (ac_themes (lpc_catalog library)) →
  (length (ac_themes (lpc_catalog library)) ≤ 4)%nat →
  pt_color (in_track input) = lpc_track_color library →
  (∀ color, pt_color (in_track input) = Some color → color_wf color) →
  input_wf input → pt_phrases (in_track input) = Some phrases →
  analysis_is_complete phrases (pt_duration_beats (in_track input)) = true →
  let themes := eligible_best_covered_themes library (pw_light_policy p) in
  match generate_for p input with
  | Err _ => False
  | Ok None => themes = []
  | Ok (Some plan) => plan_wf plan ∧ plan_status plan = PlanReady ∧
      plan_track_load_id plan = in_track_load_id input ∧ plan_deck_id plan = in_deck_id input ∧
      ∃ d, plan_theme_decision plan = Some d ∧ td_theme_id d ∈ themes.*1
  end.
Proof.
  intros Hlib Hn Hl Hcolor Hw Hin Hph Hc themes. unfold generate_for. rewrite Hlib.
  unfold planner_for_executable_themes. fold themes. case_bool_decide as He; [done|].
  assert (library_options themes ≠ []) as Hne by (by intros ?%fmap_nil_inv).
  destruct (planner_for_options_wf (lpc_catalog_revision library) (library_options themes)
    (pw_light_policy p)) as (planner & Hp & Hcfg & Hids & Hrules);
    [by apply library_options_wf|by unfold themes; rewrite library_themes_enabled|].
  unfold themes in Hids, Hrules. rewrite library_themes_enabled in Hids, Hrules.
  unfold planner_for_themes. fold (library_options themes). rewrite Hp. cbn [result_bind].
  destruct (generate_analyzed planner input
    (ThemeSelectionContext_new (unavailable_themes p (in_track_load_id input))) phrases)
    as (d & cues & Hg & Hd & _); [done|by eapply library_selectable|done..|].
  rewrite Hg. cbn [map_err result_bind]. split; [by eapply generate_wf|]. split_and!; [done..|].
  exists d. split; [done|]. apply select_initial_theme_Ok in Hd as (def & Hf & _).
  unfold theme in Hf. apply find_some in Hf as [Hf <-%Z.eqb_eq]. apply list_elem_of_In in Hf.
  apply (list_elem_of_fmap_2 th_id) in Hf. rewrite Hids in Hf. unfold library_options in Hf.
  rewrite <- list_fmap_compose in Hf. exact Hf.
Qed.

(** A Theme that can start a track need not be playable there.  Starting only asks that
    the opening phrase resolves to a cell; if that cell is on no button from 1 to 32, the
    opening cue becomes a hold, which the constructor of plans refuses, so that the plan of
    the Theme is never materialized and the load ends in an error instead of no plan. *)
Theorem startable_without_button depth policy history seed c plan first rest look d opening phrases
    choice :
  plan_wf plan → plan_status plan = PlanReady → plan_cues plan = first :: rest →
  cue_action first = ApplyLook look → plan_theme_decision plan = Some d →
  lpc_phrases c = opening :: phrases → lpp_phrase_index opening = cue_phrase_index first →
  lp_rules policy = [] →
  resolved_autoloop c (look_theme_id look) (cue_phrase_index first) = Some choice →
  rlc_autoloop_number choice = None →
  resolves c (look_theme_id look) opening = true ∧
  ¬ is_ok (prepare_in_context depth policy history seed c plan ScopeAll).
Proof.
  intros Hp Hr Hc Ha Hd Hopen Hi Hrules Hres Hnum. split.
  - unfold resolved_autoloop in Hres. apply bind_Some in Hres as (p & Hph & Hres).
    unfold phrase_at in Hph. rewrite Hopen in Hph. cbn [List.find] in Hph.
    rewrite Hi, Z.eqb_refl in Hph. injection Hph as <-. unfold resolves. by case_match.
  - eapply opening_without_button; [done..| | |].
    + unfold compile_by_theme. by rewrite bool_decide_true.
    + unfold initial_theme. by rewrite Hd.
    + unfold cue_autoloop. cbn [preserved_choice]. unfold preserved_choice, compiled_choice_for.
      cbn [reselects]. rewrite lookup_empty. cbn [mbind option_bind].
      rewrite bool_decide_true by done. rewrite Hres. cbn [mbind option_bind]. by rewrite Hnum.
Qed.

(** ** The generated plan belongs to the load *)

(** The plan is the first one for this load of the track. *)
Definition plan_for (input : PlanningInput) (plan : LightingPlan) : Prop :=
  plan_wf plan ∧ plan_deck_id plan = in_deck_id input ∧
  plan_track_load_id plan = in_track_load_id input ∧ plan_track_id plan = pt_id (in_track input) ∧
  plan_revision plan = PlanRevision_initial.

Lemma generate_plan_for `{ChoiceSource C} (planner : DeterministicPlanner C) input context plan :
  generate_with_context planner input context = Ok plan → plan_for input plan.
Proof.
  unfold generate_with_context. destruct (_ =? 0); [done|].
  rewrite result_bind_Ok. intros ([d cues] & _ & Hp).
  by apply map_err_Ok, plan_constructor_iff in Hp as [-> ?].
Qed.

Lemma generate_for_plan p input plan : generate_for p input = Ok (Some plan) → plan_for input plan.
Proof.
  unfold generate_for. destruct (library_context p _).
  - intros H. unbind H. destruct v as [planner|]; [|done]. unbind H. injection H as <-.
    by eapply generate_plan_for.
  - intros H. unbind H. injection H as <-. by eapply generate_plan_for.
Qed.

Lemma materialize_plan_for depth p input plan p' plan' :
  plan_for input plan → materialize_library_plan depth plan p = (p', Ok plan') → plan_for input plan'.
Proof.
  intros (Hwf & H1 & H2 & H3 & H4). unfold materialize_library_plan, prepare_library_plan.
  destruct (library_context p _) as [c|]; [|by intros [= _ <-]].
  destruct (prepare_in_context _ _ _ _ _ _ _) as [[q compiled]|] eqn:E; [|done]. intros [= _ <-].
  unfold prepare_in_context in E. unbind E. injection E as <- _.
  by apply with_materialized_cues_Ok in E3 as [-> ?].
Qed.

(** ** A concrete plan *)

Definition demo_library_input : PlanningInput :=
  mkPlanningInput 2 200 (PlannerTrack_with_analysis 8 8 [mkTrackPhrase 0 0 4 KindIntro; mkTrackPhrase 1 4 8 KindDrop]).

Definition demo_worker (c : LibraryPlanContext) : PlanningWorker :=
  register_library_context 200 c (PlanningWorker_new (lpc_catalog c)).

Lemma library_generation_witness :
  eligible_best_covered_themes demo_context LightPlanningPolicy_default = [(1, lit "Theme 1")] ∧
  ∃ plan d, generate_for (demo_worker demo_context) demo_library_input = Ok (Some plan) ∧
    plan_theme_decision plan = Some d ∧ td_theme_id d = 1.
Proof.
  split; [by vm_compute|].
  pose proof (library_generation (demo_worker demo_context) demo_library_input demo_context
    [mkTrackPhrase 0 0 4 KindIntro; mkTrackPhrase 1 4 8 KindDrop]) as Hg.
  destruct (generate_for _ _) as [[plan|]|] eqn:E; [|by vm_compute in E..].
  destruct Hg as (_ & _ & _ & _ & d & Hd & Ht); [vm_compute; reflexivity|repeat constructor|simpl; lia|done|done| |done|done|].
  - split; simpl; [lia|unfold in_u64, U64_MAX; lia|]. intros ? [= <-].
    repeat constructor; simpl; unfold U16_MAX; lia.
  - exists plan, d. split; [done|]. split; [done|].
    assert ((eligible_best_covered_themes demo_context LightPlanningPolicy_default).*1 = [1]) as El by by vm_compute.
    change (pw_light_policy (demo_worker demo_context)) with LightPlanningPolicy_default in Ht.
    rewrite El in Ht. by apply list_elem_of_singleton in Ht.
Defined.

Definition demo_library_plan : LightingPlan :=
  match generate_for (demo_worker demo_context) demo_library_input with
  | Ok (Some plan) => plan
  | _ => mkLightingPlan 0 0 0 0 0 0 0 0 PlanReady None []
  end.

Lemma demo_library_plan_wf : plan_wf demo_library_plan.
Proof.
  assert (generate_for (demo_worker demo_context) demo_library_input = Ok (Some demo_library_plan)) as H
    by (vm_compute; reflexivity).
  exact (proj1 (generate_for_plan _ _ _ H)).
Qed.


(** The same track with a catalogue that maps its opening to no button. *)
Definition demo_unmapped : LibraryPlanContext :=
  let cell theme role variant :=
    mkAutoloopMatrixCell theme (lit role) (lit variant) (lit role ++ show_u theme) (lit "Loop") in
  mkLibraryPlanContext (lit "rekordbox") (lit "library") (lit "Library") (lit "track") (lit "analysis") 1
    [] 4200 (mkBeatGrid 4 demo_markers) [] None
    (mkAutoloopCatalog 3 AUTOLOOP_CATALOG_DEFAULTS_VERSION (ac_themes demo_track_catalog)
       [mkAutoloopVariant (lit "intro-outro") (lit "variant-1") (lit "Loop") 1 false;
        mkAutoloopVariant (lit "drop") (lit "mapping-2") (lit "Loop") 1 false]
       [cell 1 "intro-outro" "variant-1"; cell 1 "drop" "mapping-2"])
    (lpc_phrases demo_context) ∅.

Lemma startable_without_button_witness :
  startable_themes demo_unmapped = [(1, lit "Theme 1")] ∧
  ¬ is_ok (prepare_in_context 2 LightPlanningPolicy_default VariationHistory_default 42 demo_unmapped
             demo_library_plan ScopeAll).
Proof.
  split; [by vm_compute|].
  destruct (plan_cues demo_library_plan) as [|first rest] eqn:Ec; [by vm_compute in Ec|].
  destruct (cue_action first) as [look|] eqn:Ea;
    [|vm_compute in Ec; injection Ec as <- _; vm_compute in Ea; discriminate Ea].
  destruct (plan_theme_decision demo_library_plan) as [d|] eqn:Ed; [|by vm_compute in Ed].
  assert (cue_phrase_index first = 0 ∧ look_theme_id look = 1) as [E0 E1].
  { vm_compute in Ec. injection Ec as <- _. vm_compute in Ea. injection Ea as <-. split; reflexivity. }
  destruct (resolved_autoloop demo_unmapped 1 0) as [choice|] eqn:Er; [|by vm_compute in Er].
  eapply (startable_without_button 2 LightPlanningPolicy_default VariationHistory_default 42 demo_unmapped
    demo_library_plan first rest look d _ _ choice demo_library_plan_wf);
    [vm_compute; reflexivity|exact Ec|exact Ea|exact Ed|reflexivity|rewrite E0; reflexivity|reflexivity
    |rewrite E0, E1; exact Er|].
  vm_compute in Er. injection Er as <-. reflexivity.
Defined.
