(* ===== verification/PlanningSession.v ===== *)
(** * Planning a loaded track

    The whole session: what [process_source_event] does with a track that is loaded on a
    deck, from the observation to the accepted plan; and the sizes the worker keeps to,
    whatever happens. *)

From stdpp Require Import prelude list gmap strings.
From Stdlib Require Import ZArith Lia.
From S2P Require Import Prelude.
From S2P Require Import Track.
From S2P Require Import Plan.
From S2P Require Import Event.
From S2P Require Import State.
From S2P Require Import Reducer.
From S2P Require Import ReducerInv.
From S2P Require Import ReducerSafety.
From S2P Require Import ReducerProps.
From S2P Require Import Runtime.
From S2P Require Import Mixing.
From S2P Require Import Planner.
From S2P Require Import PlannerProps.
From S2P Require Import PlanGeneration.
From S2P Require Import LightPlans.
From S2P Require Import Midi.
From S2P Require Import OutputWorker.
From S2P Require Import OutputWorkerProps.
From S2P Require Import OutputWorkerAnswers.
From S2P Require Import LibraryContext.
From S2P Require Import LibraryContextProps.
From S2P Require Import PlanningWorker.
From S2P Require Import PlanningWorkerProps.
Open Scope Z_scope.

(** ** The reductions *)

(** What a reduction without effects leaves of the state its handler returned. *)
Lemma quiet_reduction s event s1 decision changed :
  state_wf s → rs_processed_events s < U64_MAX → event_wf event →
  reduce_event s event = Ok (s1, decision, [], changed) →
  ∃ r, reduce s event = Ok r ∧ red_effects r = [] ∧ red_decision r = decision ∧
    state_wf (red_state r) ∧ rs_decks (red_state r) = rs_decks s1 ∧
    rs_plans (red_state r) = rs_plans s1 ∧
    rs_effect_sequences (red_state r) = rs_effect_sequences s1 ∧
    rs_processed_events (red_state r) = rs_processed_events s + 1.
Proof.
  intros Hs Hp Hev He. destruct (finish_total _ _ _ _ _ _ Hs Hp He) as [r Hr].
  pose proof Hr as (s2 & He2 & Hf & _ & _ & Hd & Hpl & _)%reduce_Ok. rewrite He in He2.
  injection He2 as <- Hdec Heff Hch. exists r. split_and!; try done.
  - by eapply reduce_preserves_wf.
  - apply finish_reduction_Ok in Hf as (_ & _ & ->). simpl. by destruct (red_state_changed r).
  - apply finish_reduction_Ok in Hf as (_ & _ & ->).
    apply reduce_event_ok in He as [[Hled _] _]. injection Hled as _ Hpr _ _.
    simpl. destruct (red_state_changed r); simpl; by rewrite Hpr.
Qed.

(** A track is loaded on a deck by an observation that is not a repetition. *)
Record track_load (s : RuntimeState) (envelope : ObservationEnvelope) (deck_id : DeckId)
    (metadata : TrackMetadata) (track_load_id : TrackLoadId) : Prop := {
  tl_observation : obs_observation envelope = TrackLoaded deck_id metadata track_load_id;
  tl_wf : event_wf (Observation envelope);
  tl_new : sequence_stale (rs_source_sequences s) (obs_source_id envelope) (obs_sequence envelope) = false;
  tl_time : time_regressed (rs_source_times s) (obs_source_id envelope) (obs_observed_at envelope) = false;
}.

(** The track is on the deck, and the deck has this plan. *)
Definition holds_track (s : RuntimeState) (deck_id : DeckId) (metadata : TrackMetadata)
    (track_load_id : TrackLoadId) (plan : option LightingPlan) : Prop :=
  rs_plans s !! deck_id = plan ∧
  ∃ deck, rs_decks s !! deck_id = Some deck ∧ deck_metadata deck = metadata ∧
          deck_track_load_id deck = track_load_id.

Lemma load_track_fields deck_id metadata track_load_id at_ s :
  let s1 := load_track deck_id metadata track_load_id at_ s in
  holds_track s1 deck_id metadata track_load_id None ∧ rs_effect_sequences s1 = rs_effect_sequences s.
Proof.
  assert (∀ s, rs_decks (forget_active_plan deck_id s) = rs_decks s ∧
    rs_plans (forget_active_plan deck_id s) = rs_plans s ∧
    rs_effect_sequences (forget_active_plan deck_id s) = rs_effect_sequences s) as Ha
    by (intros x; unfold forget_active_plan; by repeat case_match).
  assert (∀ s, rs_decks (forget_scheduled_cue deck_id s) = rs_decks s ∧
    rs_plans (forget_scheduled_cue deck_id s) = rs_plans s ∧
    rs_effect_sequences (forget_scheduled_cue deck_id s) = rs_effect_sequences s) as Hf
    by (intros x; unfold forget_scheduled_cue; by repeat case_match).
  unfold load_track, holds_track. cbv zeta. rewrite !(proj1 (Ha _)), !(proj1 (proj2 (Ha _))), !(proj2 (proj2 (Ha _))).
  rewrite !(proj1 (Hf _)), !(proj1 (proj2 (Hf _))), !(proj2 (proj2 (Hf _))). simpl.
  rewrite lookup_delete_eq, lookup_insert_eq. split; [|done]. split; [done|]. by eexists.
Qed.

Lemma load_reduced s envelope deck_id metadata track_load_id :
  state_wf s → rs_processed_events s < U64_MAX →
  track_load s envelope deck_id metadata track_load_id →
  ∃ r, reduce s (Observation envelope) = Ok r ∧ red_effects r = [] ∧ state_wf (red_state r) ∧
    holds_track (red_state r) deck_id metadata track_load_id None ∧
    rs_effect_sequences (red_state r) = rs_effect_sequences s ∧
    rs_processed_events (red_state r) = rs_processed_events s + 1.
Proof.
  intros Hs Hp [Ho Hwf Hn Ht].
  assert (∃ s0, rs_effect_sequences s0 = rs_effect_sequences s ∧
    reduce_event s (Observation envelope)
    = Ok (load_track deck_id metadata track_load_id (obs_observed_at envelope) s0,
          DTrackLoadAccepted, [], true)) as (s0 & E0 & He).
  { simpl. unfold reduce_observation. rewrite Hn. cbn [rs_source_times set_source_sequences]. rewrite Ht.
    unfold dispatch_observation. rewrite Ho. cbn [result_bind]. eexists. split; [|reflexivity]. done. }
  destruct (quiet_reduction _ _ _ _ _ Hs Hp Hwf He) as (r & Hr & H1 & _ & H2 & Hd & Hpl & Hq & Hpr).
  destruct (load_track_fields deck_id metadata track_load_id (obs_observed_at envelope) s0) as [Hl Hse].
  exists r. unfold holds_track in *. rewrite Hd, Hpl, Hq, Hse, E0. done.
Qed.

Lemma plan_reduced s sequence observed_at input plan metadata :
  state_wf s → rs_processed_events s < U64_MAX →
  plan_for input plan → pt_id (in_track input) = tm_id metadata →
  holds_track s (in_deck_id input) metadata (in_track_load_id input) None →
  sequence_stale (rs_effect_sequences s) 1 sequence = false →
  ∃ r, reduce s (plan_event sequence observed_at plan) = Ok r ∧ red_effects r = [] ∧
    holds_track (red_state r) (in_deck_id input) metadata (in_track_load_id input) (Some plan).
Proof.
  intros Hs Hp (Hwf & Hd & Hload & Htrack & Hrev) Hid (Hpl & deck & Hdeck & Hm & Hl) Hn.
  assert (∃ s1, reduce_event s (plan_event sequence observed_at plan) = Ok (s1, DPlanAccepted, [], true) ∧
    rs_decks s1 = rs_decks s ∧ rs_plans s1 = <[plan_deck_id plan := plan]> (rs_plans s))
    as (s1 & He & Hds & Hps).
  { simpl. unfold reduce_effect_result. simpl. rewrite Hn. unfold reduce_plan_generated. simpl.
    rewrite Hd, Hdeck, Hload, Htrack, Hid, Hl. unfold deck_track_id. rewrite Hm, !Z.eqb_refl. simpl.
    rewrite Hpl. simpl. rewrite Hrev. rewrite (proj2 (Z.ltb_ge _ _)) by done. rewrite Z.eqb_refl. simpl.
    eexists. split; [reflexivity|]. by case_bool_decide. }
  destruct (quiet_reduction s (plan_event sequence observed_at plan) _ _ _ Hs Hp Hwf He) as (r & Hr & H1 & _ & _ & Hd' & Hp' & _).
  exists r. split; [done|]. split; [done|]. unfold holds_track. rewrite Hd', Hp', Hds, Hps, Hd, lookup_insert_eq.
  split; [done|]. by exists deck.
Qed.

(** ** Runs of the session *)

Section Runs.
Context {P E : Type} `{MidiSourceProvider P E}.
Implicit Types (s : Session P) (w : World P).
Notation session A := (method (Session P) SessionFault A).

Lemma run_bind {A B} (m : session A) (k : A → session B) s s1 a :
  m s = (s1, Ok a) → method_bind m k s = k a s1.
Proof. intros E1. unfold method_bind. by rewrite E1. Qed.

Lemma run_fault {A B} (m : session A) (k : A → session B) s s1 fault :
  m s = (s1, Err fault) → method_bind m k s = (s1, Err fault).
Proof. intros E1. unfold method_bind. by rewrite E1. Qed.

Lemma run_in_world {A} (m : method (World P) EngineError A) s w a :
  m (se_world s) = (w, Ok a) → in_world m s = (mkSession (se_planning s) w, Ok a).
Proof. intros E1. unfold in_world. by rewrite E1. Qed.

(** An event without effects only changes the state of the runtime. *)
Lemma run_event event s r :
  idle (w_runtime (se_world s)) → reduce (rt_state (w_runtime (se_world s))) event = Ok r →
  red_effects r = [] →
  in_world (process_domain_event event) s
    = (mkSession (se_planning s)
         (set_runtime (mkSerializedRuntime (red_state r) (rt_ingress (w_runtime (se_world s))))
            (se_world s)), Ok tt).
Proof.
  intros Hi Hr He. apply run_in_world. unfold process_domain_event, method_bind.
  rewrite (submit_idle _ _ _ Hi Hr). cbn [pr_effects]. by rewrite He.
Qed.

(** A change of the static look plans leaves the runtime. *)
Lemma run_static_look m s :
  (∃ f, m = upd (P:=P) (λ o, set_ow_static_look_plans (f o) o)) →
  ∃ w, in_world m s = (mkSession (se_planning s) w, Ok tt) ∧ w_runtime w = w_runtime (se_world s).
Proof. intros [f ->]. eexists. split; [by apply run_in_world|done]. Qed.

Lemma run_synchronize track_load_id compiled s :
  ∃ w, in_world (synchronize_static_look_plan track_load_id compiled) s
         = (mkSession (se_planning s) w, Ok tt) ∧ w_runtime w = w_runtime (se_world s).
Proof. eexists. split; [by apply run_in_world|done]. Qed.

(** ** A plan for an input *)

Lemma run_sequence s :
  0 ≤ pw_effect_sequence (se_planning s) < U64_MAX →
  next_planning_sequence s
    = (mkSession (set_pw_effect_sequence (pw_effect_sequence (se_planning s) + 1) (se_planning s))
         (se_world s), Ok (pw_effect_sequence (se_planning s) + 1)).
Proof.
  intros Hs. unfold next_planning_sequence, planning. rewrite (run_bind _ _ _ _ _ eq_refl).
  unfold checked_add_u64. rewrite (proj2 (Z.leb_le _ _)) by lia. reflexivity.
Qed.

(** The worker with the next effect sequence, in which the plan is made. *)
Definition next_worker (p : PlanningWorker) : PlanningWorker :=
  set_pw_effect_sequence (pw_effect_sequence p + 1) p.

(** What becomes of an input, for a worker that already has its new sequence: the result and
    the plan that is reported. *)
Definition planned (depth : nat) (p : PlanningWorker) (input : PlanningInput) :
    result (option LightingPlan) SessionFault :=
  match generate_for p input with
  | Err e => Err (Fails e)
  | Ok None => Ok None
  | Ok (Some generated) =>
      match (materialize_library_plan depth generated p).2 with
      | Err fault => Err fault
      | Ok plan => Ok (Some plan)
      end
  end.

Definition outcome_of (r : result (option LightingPlan) SessionFault) : result unit SessionFault :=
  match r with Ok _ => Ok tt | Err fault => Err fault end.

Definition plan_of (r : result (option LightingPlan) SessionFault) : option LightingPlan :=
  match r with Ok plan => plan | Err _ => None end.

(** The Theme that is kept for the load. *)
Definition reserved_after (p : PlanningWorker) (input : PlanningInput)
    (r : result (option LightingPlan) SessionFault) : option ThemeId :=
  match r with
  | Ok (Some plan) =>
      match plan_theme_decision plan with
      | Some d => Some (td_theme_id d)
      | None => pw_reserved_theme_ids p !! in_track_load_id input
      end
  | Ok None => None
  | Err _ => pw_reserved_theme_ids p !! in_track_load_id input
  end.

Lemma materialize_reserved depth plan p :
  pw_reserved_theme_ids (materialize_library_plan depth plan p).1 = pw_reserved_theme_ids p.
Proof.
  unfold materialize_library_plan, commit_compiled_plan. by repeat case_match.
Qed.

Lemma run_plan_input depth input metadata observed_at s :
  let st := rt_state (w_runtime (se_world s)) in
  idle (w_runtime (se_world s)) → state_wf st → rs_processed_events st < U64_MAX →
  0 ≤ pw_effect_sequence (se_planning s) < U64_MAX →
  sequence_stale (rs_effect_sequences st) 1 (pw_effect_sequence (se_planning s) + 1) = false →
  pt_id (in_track input) = tm_id metadata →
  holds_track st (in_deck_id input) metadata (in_track_load_id input) None →
  let r := planned depth (next_worker (se_planning s)) input in
  let '(s1, outcome) := plan_input depth input observed_at s in
  outcome = outcome_of r ∧ idle (w_runtime (se_world s1)) ∧
  holds_track (rt_state (w_runtime (se_world s1))) (in_deck_id input) metadata (in_track_load_id input)
    (plan_of r) ∧
  pw_reserved_theme_ids (se_planning s1) !! in_track_load_id input
    = reserved_after (se_planning s) input r.
Proof.
  intros st Hi Hs Hp Hseq Hn Hid Hl r. subst r. unfold plan_input, planned.
  rewrite (run_bind _ _ _ _ _ (run_sequence s Hseq)). fold (next_worker (se_planning s)).
  unfold planning at 1. rewrite (run_bind _ _ _ _ _ eq_refl). cbn [se_planning id].
  destruct (generate_for (next_worker (se_planning s)) input) as [[generated|]|e] eqn:Eg; cbn [map_err].
  - unfold method_result. rewrite (run_bind _ _ _ _ _ eq_refl).
    unfold materialize at 1.
    destruct (materialize_library_plan depth generated (next_worker (se_planning s))) as [p1 [plan|fault]] eqn:Em;
      cbn [snd outcome_of plan_of].
    2:{ erewrite run_fault; [|cbn [se_planning se_world]; rewrite Em; reflexivity].
        split_and!; try done; [apply Hi..|]. simpl. pose proof (materialize_reserved depth generated (next_worker (se_planning s))) as Hr.
        rewrite Em in Hr. simpl in Hr. by rewrite Hr. }
    erewrite run_bind; [|cbn [se_planning se_world]; rewrite Em; reflexivity].
    unfold planning at 1. rewrite (run_bind _ _ _ _ _ eq_refl).
    match goal with |- context [synchronize_static_look_plan ?l ?c] =>
      match goal with |- context [method_bind _ _ ?s0] =>
        destruct (run_synchronize l c s0) as (w1 & E1 & Hw1) end end.
    rewrite (run_bind _ _ _ _ _ E1). unfold on_planning at 1, method_modify at 1.
    rewrite (run_bind _ _ _ _ _ eq_refl). cbn [se_planning se_world] in *.
    assert (plan_for input plan) as Hplan
      by (eapply materialize_plan_for; [by eapply generate_for_plan|exact Em]).
    destruct (plan_reduced st (pw_effect_sequence (se_planning s) + 1) observed_at input plan metadata)
      as (r & Hr & He & Hload); [done..|].
    erewrite run_event; [|by cbn [se_world]; rewrite Hw1|cbn [se_world]; rewrite Hw1; exact Hr|done].
    split_and!; try done; [simpl; rewrite Hw1; apply Hi..|].
    simpl. unfold reserve_theme. pose proof Hplan as (_ & _ & Hpl & _).
    pose proof (materialize_reserved depth generated (next_worker (se_planning s))) as Hres.
    rewrite Em in Hres. simpl in Hres.
    destruct (plan_theme_decision plan); simpl; [by rewrite Hpl, lookup_insert_eq|by rewrite Hres].
  - unfold method_result. rewrite (run_bind _ _ _ _ _ eq_refl). unfold on_planning, method_modify.
    rewrite (run_bind _ _ _ _ _ eq_refl).
    unfold remove_static_look_plan. match goal with |- context [in_world ?m ?s0] =>
      destruct (run_static_look m s0) as (w1 & -> & Hw1); [by eexists|] end.
    cbn [se_planning se_world] in *. rewrite Hw1. split_and!; try done; [apply Hi..|].
    simpl. apply lookup_delete_eq.
  - unfold method_result. erewrite run_fault by reflexivity. split_and!; try done; apply Hi.
Qed.

(** ** A loaded track *)

(** The worker after it forgot the load that the track replaces. *)
Definition after_replacing (st : RuntimeState) (event : DomainEvent) (p : PlanningWorker) :
    PlanningWorker :=
  match replaced_reservation st event with
  | Some track_load_id => forget_load track_load_id p
  | None => p
  end.

Lemma after_replacing_sequence st event p :
  pw_effect_sequence (after_replacing st event p) = pw_effect_sequence p.
Proof. unfold after_replacing. by case_match. Qed.

Lemma run_replaced st event s :
  ∃ w, (match replaced_reservation st event with
        | Some track_load_id =>
            do! on_planning (forget_load track_load_id) then
            in_world (remove_static_look_plan track_load_id)
        | None => method_ret tt
        end) s = (mkSession (after_replacing st event (se_planning s)) w, Ok tt) ∧
       w_runtime w = w_runtime (se_world s).
Proof.
  unfold after_replacing. destruct (replaced_reservation st event) as [load|].
  - unfold on_planning, method_modify. rewrite (run_bind _ _ _ _ _ eq_refl).
    unfold remove_static_look_plan. match goal with |- context [in_world ?m ?s0] =>
      destruct (run_static_look m s0) as (w1 & -> & Hw1); [by eexists|] end.
    by exists w1.
  - exists (se_world s). by destruct s.
Qed.

(** What happens when a track is loaded on a deck that does not lead, and there is
    something to plan for it.  Whatever becomes of the plan, the deck holds the track and the
    runtime is ready for the next event.  A plan that can be generated and materialized is
    the plan of the deck when the event has been processed, and its Theme is kept for the
    load; without a Theme that may start the track the deck has no plan and no error is
    reported; and an error of the planner or of the materialization is reported and leaves
    the deck without a plan. *)
Theorem loaded_track_planned depth s envelope deck_id metadata track_load_id input leader :
  let st := rt_state (w_runtime (se_world s)) in
  let event := Observation envelope in
  idle (w_runtime (se_world s)) → state_wf st → rs_processed_events st + 2 ≤ U64_MAX →
  0 ≤ pw_effect_sequence (se_planning s) < U64_MAX →
  sequence_stale (rs_effect_sequences st) 1 (pw_effect_sequence (se_planning s) + 1) = false →
  track_load st envelope deck_id metadata track_load_id → rs_leader_deck st ≠ Some deck_id →
  planning_input (se_planning s) event = Some input →
  let p := after_replacing st event (se_planning s) in
  let r := planned depth (next_worker p) input in
  let '(s1, outcome) := process_source_event depth event leader s in
  outcome = outcome_of r ∧ idle (w_runtime (se_world s1)) ∧
  holds_track (rt_state (w_runtime (se_world s1))) deck_id metadata track_load_id (plan_of r) ∧
  pw_reserved_theme_ids (se_planning s1) !! track_load_id = reserved_after p input r.
Proof.
  intros st event Hi Hs Hp Hseq Hn Hload Hlead Hinput p r.
  pose proof Hload as [Hobs _ _ _].
  assert (input = mkPlanningInput deck_id track_load_id (planner_track metadata)) as ->.
  { revert Hinput. unfold planning_input. simpl. rewrite Hobs. case_match; [|done]. by intros [= <-]. }
  destruct (load_reduced st envelope deck_id metadata track_load_id)
    as (red & Hred & He & Hwf & Hl & Hes & Hpr); [done|lia|done|].
  unfold process_source_event, runtime_state. rewrite (run_bind _ _ _ _ _ eq_refl). fold st.
  assert (follow_transport (P:=P) st event = method_ret tt) as ->.
  { unfold follow_transport, transport_epoch_cause, stops_live_transport. simpl. rewrite Hobs.
    by rewrite bool_decide_false. }
  rewrite (run_bind _ _ s s tt) by (by destruct s).
  unfold planning at 1. rewrite (run_bind _ _ _ _ _ eq_refl). rewrite Hinput.
  assert (activates_pending_timing st leader event = false) as ->
    by (unfold activates_pending_timing; simpl; by rewrite Hobs).
  rewrite (run_bind _ _ s s tt) by (by destruct s).
  rewrite (run_bind _ _ _ _ _ (run_event event s red Hi Hred He)).
  match goal with |- context [method_bind (match replaced_reservation st event with _ => _ end) _ ?s0] =>
    destruct (run_replaced st event s0) as (w1 & E1 & Hw1) end.
  rewrite (run_bind _ _ _ _ _ E1). cbn [se_planning se_world] in *. simpl w_runtime in Hw1.
  rewrite (run_bind _ _ _ _ _ eq_refl). cbn beta iota.
  rewrite (run_bind _ _ _ _ _ eq_refl). cbn beta iota.
  assert (exact_live_beat event = None) as -> by (unfold exact_live_beat; simpl; by rewrite Hobs).
  rewrite (run_bind _ _ _ _ _ eq_refl). cbn beta iota.
  apply run_plan_input with (metadata := metadata); cbn [se_planning se_world in_deck_id in_track_load_id];
    rewrite ?Hw1; cbn [rt_state rt_ingress]; fold p; unfold p; rewrite ?after_replacing_sequence;
    [apply Hi|done|lia|done|by rewrite Hes| |done].
  simpl. unfold planner_track. by case_bool_decide.
Qed.
End Runs.

(** ** Sizes *)

(** The worker's maps hold at most 256 loads and 32 Themes are recent. *)
Definition worker_bounded (p : PlanningWorker) : Prop :=
  (size (pw_library_contexts p) ≤ LIBRARY_CONTEXT_CAPACITY)%nat ∧
  (size (pw_compiled_light_plans p) ≤ LIBRARY_CONTEXT_CAPACITY)%nat ∧
  (length (pw_recent_theme_ids p) ≤ 32)%nat.

(** The operations that reach the worker. *)
Inductive SessionOp : Type :=
| OpSourceEvents (events : list DomainEvent) (leader : option DeckId)
| OpRegisterContext (track_load_id : TrackLoadId) (context : LibraryPlanContext)
| OpSynchronizeThemes (catalog : AutoloopCatalog.AutoloopCatalog)
| OpSynchronizePolicy (policy : LightPlanningPolicy)
| OpMaterialize (plan : LightingPlan)
| OpWorld (op : WorkerOp).

Section Bounds.
Context {P E : Type} `{MidiSourceProvider P E}.
Variable depth : nat.
Notation session A := (method (Session P) SessionFault A).

Definition bounded_session (s : Session P) : Prop := worker_bounded (se_planning s).

Definition session_op (op : SessionOp) : session unit :=
  match op with
  | OpSourceEvents events leader => process_source_events depth events leader
  | OpRegisterContext load context => on_planning (register_library_context load context)
  | OpSynchronizeThemes catalog => on_planning (synchronize_themes catalog)
  | OpSynchronizePolicy policy => on_planning (synchronize_light_policy policy)
  | OpMaterialize plan => do! materialize depth plan then method_ret tt
  | OpWorld op => in_world (worker_op op)
  end.

(** A run: an operation that fails leaves what it did, and the next one follows. *)
Definition session_run (s : Session P) (ops : list SessionOp) : Session P :=
  foldl (λ s op, (session_op op s).1) s ops.

Lemma bounded_world {A} (m : method (World P) EngineError A) : keeps bounded_session (in_world m).
Proof. intros s Hs. unfold in_world. by destruct (m (se_world s)). Qed.

Lemma bounded_planning f :
  (∀ p, worker_bounded p → worker_bounded (f p)) → keeps bounded_session (on_planning (P:=P) f).
Proof. intros Hf s Hs. by apply Hf. Qed.

Lemma bounded_commit load compiled p :
  worker_bounded p → worker_bounded (commit_compiled_plan load compiled p).
Proof.
  intros (H1 & H2 & H3). unfold commit_compiled_plan, worker_bounded. destruct compiled; simpl.
  - split_and!; [done|apply insert_bounded_spec|done].
  - split_and!; [done| |done]. etrans; [apply map_subseteq_size, delete_subseteq|done].
Qed.

Lemma bounded_materialize plan : keeps bounded_session (materialize (P:=P) depth plan).
Proof.
  intros s Hs. unfold materialize, materialize_library_plan.
  destruct (prepare_library_plan _ _ _ _ _) as [[q compiled]|]; [|done].
  by apply bounded_commit.
Qed.

Lemma bounded_forget load p : worker_bounded p → worker_bounded (forget_load load p).
Proof.
  intros (H1 & H2 & H3). split_and!; [done| |done].
  etrans; [apply map_subseteq_size, delete_subseteq|done].
Qed.

Lemma bounded_drop load p : worker_bounded p → worker_bounded (drop_plan_of load p).
Proof.
  intros (H1 & H2 & H3). split_and!; [done| |done].
  etrans; [apply map_subseteq_size, delete_subseteq|done].
Qed.

Lemma bounded_reserve plan p : worker_bounded p → worker_bounded (reserve_theme plan p).
Proof. unfold reserve_theme. by destruct (plan_theme_decision plan). Qed.

Lemma bounded_commit_load load p : worker_bounded p → worker_bounded (commit_load load p).
Proof.
  intros (H1 & H2 & H3). unfold commit_load. simpl. case_match; [|done].
  split_and!; [done..|]. simpl. apply push_bounded_length; [lia|done].
Qed.

Lemma bounded_rebuild p : worker_bounded p → worker_bounded (rebuild_planner p).
Proof. unfold rebuild_planner. by case_match. Qed.

Hint Resolve bounded_world bounded_materialize bounded_forget bounded_drop bounded_reserve
  bounded_commit_load : keeps.
Hint Extern 3 (keeps _ (on_planning _)) => apply bounded_planning : keeps.

Lemma bounded_event event leader : keeps bounded_session (process_source_event (P:=P) depth event leader).
Proof.
  unfold process_source_event, plan_input, runtime_state, next_planning_sequence, planning. keeps_auto.
Qed.

Lemma bounded_op op : keeps bounded_session (session_op op).
Proof.
  destruct op as [events leader|load context|catalog|policy|plan|op]; simpl.
  - induction events as [|event events IH]; simpl; [apply keeps_ret|].
    apply keeps_bind; [apply bounded_event|done].
  - apply bounded_planning. intros p (H1 & H2 & H3). split_and!; [apply insert_bounded_spec|done..].
  - apply bounded_planning. intros p Hp. by apply bounded_rebuild.
  - apply bounded_planning. intros p Hp. by apply bounded_rebuild.
  - keeps_auto.
  - apply bounded_world.
Qed.

(** Whatever the session does, in any order and with any failures, the worker stays
    within its bounds: at most 256 prepared tracks, at most 256 compiled plans and at most 32
    recent Themes. *)
Theorem planning_worker_bounded catalog world ops :
  worker_bounded (se_planning (session_run (mkSession (PlanningWorker_new catalog) world) ops)).
Proof.
  set (s := mkSession _ world). assert (bounded_session s) as Hs.
  { split_and!; simpl; unfold LIBRARY_CONTEXT_CAPACITY; rewrite ?map_size_empty; lia. }
  clearbody s. revert s Hs. induction ops as [|op ops IH]; intros s Hs; [done|].
  apply IH. by apply bounded_op.
Qed.
End Bounds.

(** ** A concrete session *)

(** The small track of the library on deck 2, while the demonstration is live on deck 1. *)
Definition demo_library_metadata : TrackMetadata :=
  mkTrackMetadata 8 (lit "Library title") (lit "Artist") 120000 (mkMusicalKey PitchA KeyMinor) None 8
    [mkTrackPhrase 0 0 4 KindIntro; mkTrackPhrase 1 4 8 KindDrop] None.

Definition demo_load_envelope : ObservationEnvelope :=
  mkObservationEnvelope 1 5 6 (TrackLoaded 2 demo_library_metadata 200).

Definition demo_session : Session (Traced (list bool)) :=
  mkSession (set_pw_effect_sequence 1
               (register_library_context 200 demo_context (PlanningWorker_new demo_track_catalog)))
    live_world.

Lemma demo_track_load :
  track_load (rt_state (w_runtime (se_world demo_session))) demo_load_envelope 2 demo_library_metadata 200.
Proof.
  split; [done| |by vm_compute|by vm_compute].
  split; [repeat split; vm_compute; congruence|]. right. vm_compute. repeat split; congruence.
Qed.

Definition scenes (plan : LightingPlan) : list (option SceneId) :=
  (λ cue, match cue_action cue with ApplyLook look => Some (look_scene_id look) | HoldCurrentLook => None end)
    <$> plan_cues plan.

Lemma loaded_track_planned_witness :
  let '(s1, outcome) := process_source_event 2 (Observation demo_load_envelope) (Some 1) demo_session in
  outcome = Ok tt ∧
  ∃ plan, rs_plans (rt_state (w_runtime (se_world s1))) !! 2 = Some plan ∧ scenes plan = [Some 1; Some 2].
Proof.
  pose proof live_world_answerable as (Hi & Hs & Hp & _).
  pose proof (loaded_track_planned 2 demo_session demo_load_envelope 2 demo_library_metadata 200
    (mkPlanningInput 2 200 (planner_track demo_library_metadata)) (Some 1) Hi Hs Hp) as Hr.
  destruct (process_source_event 2 (Observation demo_load_envelope) (Some 1) demo_session) as [s1 outcome].
  destruct Hr as (Ho & _ & (Hplan & _) & _);
    [vm_compute; split; congruence|vm_compute; reflexivity|exact demo_track_load
    |vm_compute; congruence|vm_compute; reflexivity|].
  destruct (planned 2 _ _) as [[plan|]|fault] eqn:E; [|vm_compute in E; discriminate E..].
  split; [exact Ho|]. exists plan. split; [exact Hplan|]. vm_compute in E. injection E as <-. reflexivity.
Defined.
