(* ===== verification/Float64.v ===== *)
(** * Binary floating point

    Rust's [f64] as the sources use it: the binary64 numbers of the Standard Library's
    [SpecFloat], correctly rounded arithmetic on them, comparison of their exact values,
    [round] (half away from zero), remainder, maximum and the saturating conversions to
    integers; and the parsers [str::parse] of unsigned integers and of [f64] and the format
    [{:.3}].  Numbers are data and every operation evaluates. *)

From stdpp Require Import prelude list strings.
From Stdlib Require Import ZArith Lia.
From Stdlib Require Import Floats.SpecFloat.
From S2P Require Import Prelude.
Open Scope Z_scope.

Notation f64 := spec_float.

Definition f64_prec : Z := 53.
Definition f64_emax : Z := 1024.

(** The number nearest to [m * 2 ^ e]. *)
Definition f64_scaled (m e : Z) : f64 := binary_normalize f64_prec f64_emax m e false.

(** [n as f64] *)
Definition f64_of_Z (n : Z) : f64 := f64_scaled n 0.

Definition f64_mul : f64 → f64 → f64 := SFmul f64_prec f64_emax.
Definition f64_add : f64 → f64 → f64 := SFadd f64_prec f64_emax.
Definition f64_div : f64 → f64 → f64 := SFdiv f64_prec f64_emax.

Definition f64_is_finite (x : f64) : bool :=
  match x with S754_zero _ | S754_finite _ _ _ => true | _ => false end.

(** [a * 2 ^ e <= b * 2 ^ f], in integers. *)
Definition scaled_leb (a e b f : Z) : bool :=
  let k := Z.min e f in a * 2 ^ (e - k) <=? b * 2 ^ (f - k).

Definition signed (negative : bool) (m : positive) : Z := if negative then Zneg m else Zpos m.

(** [x <= y]: of the exact values, and never with a number that is none. *)
Definition f64_leb (x y : f64) : bool :=
  match x, y with
  | S754_nan, _ | _, S754_nan => false
  | S754_infinity true, _ | _, S754_infinity false => true
  | S754_infinity false, _ | _, S754_infinity true => false
  | S754_zero _, S754_zero _ => true
  | S754_zero _, S754_finite s _ _ => negb s
  | S754_finite s _ _, S754_zero _ => s
  | S754_finite s m e, S754_finite t n f => scaled_leb (signed s m) e (signed t n) f
  end.

(** [x < y] *)
Definition f64_ltb (x y : f64) : bool :=
  match x, y with
  | S754_nan, _ | _, S754_nan => false
  | _, _ => negb (f64_leb y x)
  end.

(** [x.round()]: to the nearest integer, half away from zero. *)
Definition f64_round (x : f64) : f64 :=
  match x with
  | S754_finite s m e =>
      if 0 <=? e then x
      else
        let unit := 2 ^ (- e) in
        let rounded := (2 * Zpos m + unit) / (2 * unit) in
        if rounded =? 0 then S754_zero s else f64_scaled (if s then - rounded else rounded) 0
  | _ => x
  end.

(** [x as u32]: truncated towards zero, saturating. *)
Definition f64_as_u32 (x : f64) : Z :=
  match x with
  | S754_finite false m e =>
      Z.min U32_MAX (if 0 <=? e then Zpos m * 2 ^ e else Zpos m / 2 ^ (- e))
  | S754_infinity false => U32_MAX
  | _ => 0
  end.

(** Integers below [2 ^ 53] have an exact number. *)
Example f64_of_Z_exact : f64_of_Z 300000 = S754_finite false 5153960755200000 (-34).
Proof. vm_compute. reflexivity. Qed.

(** A number between two integers is converted to one between them. *)
Lemma f64_as_u32_bounds m e n f p g :
  g ≤ 0 → f ≤ 0 →
  scaled_leb (Zpos n) f (Zpos m) e = true → scaled_leb (Zpos m) e (Zpos p) g = true →
  Zpos n / 2 ^ (- f) ≤ (if 0 <=? e then Zpos m * 2 ^ e else Zpos m / 2 ^ (- e)) ≤ Zpos p / 2 ^ (- g).
Proof.
  intros Hg Hf H1%Z.leb_le H2%Z.leb_le.
  pose proof (Z.pow_pos_nonneg 2 (- f) ltac:(lia) ltac:(lia)) as Pf.
  pose proof (Z.pow_pos_nonneg 2 (- g) ltac:(lia) ltac:(lia)) as Pg.
  destruct (Z.leb_spec 0 e) as [He|He].
  - rewrite (Z.min_l f e), (Z.sub_diag f), Z.mul_1_r in H1 by lia.
    rewrite (Z.min_r e g), (Z.sub_diag g), Z.mul_1_r in H2 by lia.
    replace (e - f) with (e + - f) in H1 by lia. replace (e - g) with (e + - g) in H2 by lia.
    rewrite (Z.pow_add_r 2 e (- f)) in H1 by lia. rewrite (Z.pow_add_r 2 e (- g)) in H2 by lia.
    split; [apply Z.div_le_upper_bound|apply Z.div_le_lower_bound]; nia.
  - pose proof (Z.pow_pos_nonneg 2 (- e) ltac:(lia) ltac:(lia)) as Pe.
    assert (Zpos n * 2 ^ (- e) ≤ Zpos m * 2 ^ (- f)) as H1'.
    { destruct (Z.le_ge_cases f e).
      - rewrite Z.min_l, Z.sub_diag, Z.mul_1_r in H1 by lia.
        replace (- f) with ((e - f) + (- e)) by lia. rewrite Z.pow_add_r by lia. nia.
      - rewrite Z.min_r, Z.sub_diag, Z.mul_1_r in H1 by lia.
        replace (- e) with ((f - e) + (- f)) by lia. rewrite Z.pow_add_r by lia. nia. }
    assert (Zpos m * 2 ^ (- g) ≤ Zpos p * 2 ^ (- e)) as H2'.
    { destruct (Z.le_ge_cases e g).
      - rewrite Z.min_l, Z.sub_diag, Z.mul_1_r in H2 by lia.
        replace (- e) with ((g - e) + (- g)) by lia. rewrite Z.pow_add_r by lia. nia.
      - rewrite Z.min_r, Z.sub_diag, Z.mul_1_r in H2 by lia.
        replace (- g) with ((e - g) + (- e)) by lia. rewrite Z.pow_add_r by lia. nia. }
    clear H1 H2. split; apply Z.div_le_lower_bound; try lia.
    + pose proof (Z.mul_div_le (Zpos n) _ Pf) as Hd.
      pose proof (Z.div_pos (Zpos n) (2 ^ (- f)) ltac:(lia) Pf). nia.
    + pose proof (Z.mul_div_le (Zpos m) _ Pe) as Hd.
      pose proof (Z.div_pos (Zpos m) (2 ^ (- e)) ltac:(lia) Pe). nia.
Qed.

(** ** Arithmetic *)

Definition f64_sub : f64 → f64 → f64 := SFsub f64_prec f64_emax.
Definition f64_opp : f64 → f64 := SFopp.

Definition f64_zero : f64 := S754_zero false.

(** [x % y]: exact, with the sign of [x]. *)
Definition f64_rem (x y : f64) : f64 :=
  match x, y with
  | S754_nan, _ | _, S754_nan | S754_infinity _, _ | _, S754_zero _ => S754_nan
  | S754_zero _, _ | _, S754_infinity _ => x
  | S754_finite s m e, S754_finite _ n f =>
      let k := Z.min e f in
      let r := (Zpos m * 2 ^ (e - k)) mod (Zpos n * 2 ^ (f - k)) in
      if r =? 0 then S754_zero s else f64_scaled (if s then - r else r) k
  end.

(** [x.max(y)]: the other one of a number that is none. *)
Definition f64_max (x y : f64) : f64 :=
  match x, y with
  | S754_nan, _ => y
  | _, S754_nan => x
  | _, _ => if f64_ltb x y then y else x
  end.

(** The magnitude truncated towards zero. *)
Definition f64_trunc (m : positive) (e : Z) : Z := if 0 <=? e then Zpos m * 2 ^ e else Zpos m / 2 ^ (- e).

Definition I64_MAX : Z := 2 ^ 63 - 1.
Definition I64_MIN : Z := - 2 ^ 63.

(** [x as u64], [x as i64] *)
Definition f64_as_u64 (x : f64) : Z :=
  match x with
  | S754_finite false m e => Z.min U64_MAX (f64_trunc m e)
  | S754_infinity false => U64_MAX
  | _ => 0
  end.

Definition f64_as_i64 (x : f64) : Z :=
  match x with
  | S754_finite false m e => Z.min I64_MAX (f64_trunc m e)
  | S754_finite true m e => Z.max I64_MIN (- f64_trunc m e)
  | S754_infinity false => I64_MAX
  | S754_infinity true => I64_MIN
  | _ => 0
  end.

(** ** Parsing *)

Definition is_digit (c : Z) : bool := (48 <=? c) && (c <=? 57).

(** The digits at the head of a text. *)
Fixpoint span_digits (s : str) : str * str :=
  match s with
  | c :: s' => if is_digit c then let '(d, r) := span_digits s' in (c :: d, r) else ([], s)
  | [] => ([], [])
  end.

(** [parse::<u32>], [parse::<u64>]: an optional plus sign and digits, within the width. *)
Definition parse_unsigned (max : Z) (s : str) : option Z :=
  let '(digits, rest) := span_digits (match s with 43 :: s => s | _ => s end) in
  if bool_decide (digits ≠ [] ∧ rest = []) then
    let n := read_digits digits in if n <=? max then Some n else None
  else None.

(** The number nearest to [n / d]: twice the quotient with at least 55 bits, and one more
    where there is a remainder, lies on the same side of every midpoint. *)
Definition f64_of_ratio (n d : positive) : f64 :=
  let s := Z.max 0 (60 + Z.log2 (Zpos d) - Z.log2 (Zpos n)) in
  let q := (Zpos n * 2 ^ s) / Zpos d in
  let sticky := if (Zpos n * 2 ^ s) mod Zpos d =? 0 then 0 else 1 in
  f64_scaled (2 * q + sticky) (- s - 1).

(** [m * 10 ^ e] *)
Definition f64_of_decimal (m e : Z) : f64 :=
  match m with
  | Zpos p =>
      match e with
      | Z0 => f64_of_ratio p 1
      | Zpos k => f64_of_ratio (p * 10 ^ k) 1
      | Zneg k => f64_of_ratio p (10 ^ k)
      end
  | _ => f64_zero
  end.

(** The exponent behind the digits, if any. *)
Definition parse_exponent (s : str) : option Z :=
  match s with
  | [] => Some 0
  | c :: s =>
      if (c =? 101) || (c =? 69) then
        let '(negative, s) := match s with
                              | 43 :: s => (false, s)
                              | 45 :: s => (true, s)
                              | _ => (false, s)
                              end in
        let '(digits, rest) := span_digits s in
        if bool_decide (digits ≠ [] ∧ rest = [])
        then Some (if negative : bool then - read_digits digits else read_digits digits) else None
      else None
  end.

Definition parse_decimal (s : str) : option f64 :=
  let '(whole, s) := span_digits s in
  let '(fraction, s) := match s with 46 :: s => span_digits s | _ => ([], s) end in
  if bool_decide (whole = [] ∧ fraction = []) then None
  else
    e ← parse_exponent s;
    Some (f64_of_decimal (read_digits (whole ++ fraction)) (e - Z.of_nat (length fraction))).

(** [parse::<f64>] *)
Definition parse_f64 (s : str) : option f64 :=
  let '(negative, s) := match s with
                        | 43 :: s => (false, s)
                        | 45 :: s => (true, s)
                        | _ => (false, s)
                        end in
  let signed x := if negative : bool then f64_opp x else x in
  if eq_ignore_ascii_case s (lit "inf") || eq_ignore_ascii_case s (lit "infinity")
  then Some (signed (S754_infinity false))
  else if eq_ignore_ascii_case s (lit "nan") then Some S754_nan
  else signed <$> parse_decimal s.

(** ** The format [{:.3}] *)

(** The integer nearest to [n / d], ties to even. *)
Definition round_ratio (n d : Z) : Z :=
  let q := n / d in
  let r := 2 * (n mod d) in
  if (d <? r) || ((d =? r) && Z.odd q) then q + 1 else q.

Definition show_thousandths (n : Z) : str :=
  let f := n mod 1000 in
  show_u (n / 1000) ++ 46 :: (48 + f / 100) :: (48 + f / 10 mod 10) :: [48 + f mod 10].

Definition show_f64_3 (x : f64) : str :=
  match x with
  | S754_nan => lit "NaN"
  | S754_infinity s => (if s : bool then lit "-" else []) ++ lit "inf"
  | S754_zero s => (if s : bool then lit "-" else []) ++ show_thousandths 0
  | S754_finite s m e =>
      (if s : bool then lit "-" else []) ++
      show_thousandths (if 0 <=? e then Zpos m * 2 ^ e * 1000 else round_ratio (Zpos m * 1000) (2 ^ (- e)))
  end.

Example parse_f64_third : parse_f64 (lit "0.1") = Some (f64_div (f64_of_Z 1) (f64_of_Z 10)).
Proof. vm_compute. reflexivity. Qed.

Example show_f64_bpm : show_f64_3 (f64_div (f64_of_Z 174999) (f64_of_Z 1000)) = lit "174.999".
Proof. vm_compute. reflexivity. Qed.

(** ** Numbers that were written are read back *)

Lemma span_digits_spec s : ∀ d r, span_digits s = (d, r) → Forall (λ c, is_digit c = true) d.
Proof.
  induction s as [|c s IH]; intros d r; cbn [span_digits]; [by intros [= <- _]; constructor|].
  destruct (is_digit c) eqn:Ec; [|intros [= <- _]; constructor]. destruct (span_digits s) as [d' r'] eqn:E.
  intros [= <- _]. constructor; [done|]. by eapply IH.
Qed.

Lemma span_digits_all s : Forall (λ c, is_digit c = true) s → span_digits s = (s, []).
Proof. induction 1 as [|c s Hc _ IH]; [done|]. cbn [span_digits]. by rewrite Hc, IH. Qed.

Lemma read_digits_nonneg s : Forall (λ c, is_digit c = true) s → 0 ≤ read_digits s.
Proof.
  unfold read_digits. assert (H : ∀ n, 0 ≤ n → Forall (λ c, is_digit c = true) s → 0 ≤ foldl (λ n c, 10 * n + (c - 48)) n s); [|by apply H].
  induction s as [|c s IH]; intros n Hn Hs; [done|]. apply Forall_cons in Hs as [Hc Hs]. cbn [foldl].
  apply IH; [|done]. unfold is_digit in Hc. apply andb_true_iff in Hc as [Hc _]. apply Z.leb_le in Hc. lia.
Qed.

Lemma parse_unsigned_range max s n : parse_unsigned max s = Some n → 0 ≤ n ≤ max.
Proof.
  unfold parse_unsigned. destruct (span_digits _) as [d r] eqn:E. case_bool_decide; [|done].
  destruct (Z.leb_spec (read_digits d) max); [|done]. intros [= <-]. split; [|done].
  by apply read_digits_nonneg, (span_digits_spec _ _ _ E).
Qed.

Lemma show_digits_are fuel : ∀ n acc, Forall (λ c, is_digit c = true) acc →
  Forall (λ c, is_digit c = true) (show_digits fuel n acc).
Proof.
  induction fuel as [|fuel IH]; intros n acc Ha; [done|]. cbn [show_digits].
  assert (Hd : is_digit (48 + n mod 10) = true).
  { unfold is_digit. pose proof (Z.mod_pos_bound n 10). apply andb_true_iff. rewrite !Z.leb_le. lia. }
  destruct (n <? 10); [by constructor|]. apply IH. by constructor.
Qed.

Lemma show_u_nonempty n : show_u n ≠ [].
Proof.
  unfold show_u. change (show_digits 20 n []) with
    (let acc := [48 + n mod 10] in if n <? 10 then acc else show_digits 19 (n / 10) acc).
  cbv zeta. destruct (n <? 10); [done|]. rewrite show_digits_acc. by destruct (show_digits 19 (n / 10) []).
Qed.

Lemma parse_show_u n : in_u64 n → parse_unsigned U64_MAX (show_u n) = Some n.
Proof.
  intros Hn. pose proof (show_digits_are 20 n [] (List.Forall_nil _)) as Hd. fold (show_u n) in Hd.
  pose proof (show_u_nonempty n) as Hne. pose proof (read_show_digits 20 n) as Hr. fold (show_u n) in Hr.
  unfold parse_unsigned. assert (E : match show_u n with 43 :: s => s | _ => show_u n end = show_u n).
  { destruct (show_u n) as [|c s]; [done|]. apply Forall_cons in Hd as [Hc _].
    destruct (decide (c = 43)) as [->|Hc']; [done|]. repeat (case_match; try done). }
  rewrite E, (span_digits_all _ Hd). rewrite bool_decide_true by done.
  destruct Hn as [H1 H2]. rewrite Hr by (unfold U64_MAX in H2; simpl; lia). by rewrite (proj2 (Z.leb_le _ _) H2).
Qed.
