(* ===== verification/ProLink.v ===== *)
(** * The Pro DJ Link bridge: messages and their decoder

    Models [lumi-prolink-input/src/lib.rs]: the messages of the supervised bridge process
    and the decoder of its line protocol, with every validation error.  serde_json is a
    parameter: how a line is read as an envelope, and how the payload of each kind of
    event is read.  Names that other files use for other types have the prefix
    [Bridge]. *)

From stdpp Require Import prelude list strings.
From Stdlib Require Import ZArith Lia.
From S2P Require Import Prelude.
From S2P Require Import Float64.
Open Scope Z_scope.

Definition BRIDGE_PROTOCOL_NAME : str := lit "lumi-prolink-bridge".
Definition BRIDGE_PROTOCOL_VERSION : Z := 1.

(** ** Messages *)

(** The address is kept as its text. *)
Record PacketOrigin := mkPacketOrigin {
  po_address : str;
  po_received_at_nanos : Z;
}.

Inductive BridgeTrafficClass : Type := ClassCritical | ClassTempo | ClassTransport | ClassDisplay.

#[global] Instance BridgeTrafficClass_eq_dec : EqDecision BridgeTrafficClass.
Proof. solve_decision. Defined.

Record Hello := mkHello {
  hello_bridge_version : str;
  hello_beat_link_version : str;
  hello_read_only : bool;
}.

Inductive SourceCondition : Type :=
| ConditionStarting | ConditionDiscovering | ConditionReady | ConditionDegraded | ConditionStopped.

Record BridgeSourceStatus := mkBridgeSourceStatus {
  ss_status : SourceCondition;
  ss_detail : str;
}.

Record Device := mkDevice {
  dev_device_number : Z;
  dev_device_name : str;
  dev_address : str;
}.

Record USBMedia := mkUSBMedia {
  um_device_number : Z;
  um_color_id : option Z;
}.

Inductive USBMountState : Type := MountLoaded | MountUnloading | MountEmpty | MountUnknown.

Record USBMount := mkUSBMount {
  mnt_device_number : Z;
  mnt_state : USBMountState;
}.

Record DeckStatus := mkDeckStatus {
  ds_device_number : Z;
  ds_device_name : str;
  ds_playing : bool;
  ds_paused : bool;
  ds_cued : bool;
  ds_tempo_master : bool;
  ds_on_air : bool;
  ds_source_player : Z;
  ds_source_slot : str;
  ds_track_type : str;
  ds_rekordbox_id : Z;
  ds_track_bpm : f64;
  ds_effective_bpm : f64;
  ds_beat_number : Z;
  ds_beat_within_bar : Z;
  ds_raw_pitch : Z;
}.

Record BridgeBeat := mkBridgeBeat {
  bt_device_number : Z;
  bt_device_name : str;
  bt_effective_bpm : f64;
  bt_beat_within_bar : Z;
  bt_tempo_master : bool;
}.

Record TempoStatus := mkTempoStatus {
  ts_device_number : Z;
  ts_device_name : str;
  ts_effective_bpm : f64;
  ts_beat_within_bar : Z;
  ts_tempo_master : bool;
  ts_playing : bool;
}.

Record PrecisePosition := mkPrecisePosition {
  pp_device_number : Z;
  pp_device_name : str;
  pp_playback_position_millis : Z;
  pp_effective_bpm : f64;
  pp_beat_within_bar : Z;
  pp_tempo_master : bool;
}.

Record BridgeTrackMetadata := mkBridgeTrackMetadata {
  btm_deck_number : Z;
  btm_available : bool;
  btm_source_player : option Z;
  btm_source_slot : option str;
  btm_track_type : option str;
  btm_rekordbox_id : option Z;
  btm_title : option str;
  btm_artist : option str;
  btm_duration_seconds : option Z;
  btm_track_bpm : option f64;
  btm_musical_key : option str;
  btm_color : option str;
}.

Record TrackSignature := mkTrackSignature {
  sig_deck_number : Z;
  sig_signature : option str;
}.

Record BridgeFailure := mkBridgeFailure {
  fail_operation : str;
  fail_message : str;
}.

Inductive BridgeEvent : Type :=
| BridgeHello (hello : Hello)
| BridgeStatus (status : BridgeSourceStatus)
| DeviceFound (device : Device)
| DeviceLost (device : Device)
| BridgeUSBMedia (media : USBMedia)
| BridgeUSBMount (mount : USBMount)
| BridgeDeckStatus (status : DeckStatus)
| BridgeBeatEvent (beat : BridgeBeat)
| BridgeTempoStatus (tempo : TempoStatus)
| BridgePrecisePosition (position : PrecisePosition)
| BridgeMetadata (metadata : BridgeTrackMetadata)
| BridgeSignature (signature : TrackSignature)
| BridgeError (failure : BridgeFailure).

Record BridgeMessage := mkBridgeMessage {
  bm_packet_origin : option PacketOrigin;
  bm_sequence : Z;
  bm_observed_at_nanos : Z;
  bm_traffic_class : BridgeTrafficClass;
  bm_bridge_queue_age_micros : Z;
  bm_ingress_queue_age_micros : Z;
  bm_event : BridgeEvent;
}.

Inductive BridgeDecodeError : Type :=
| InvalidJson
| UnexpectedProtocol (protocol : str)
| UnsupportedVersion (version : Z)
| NonMonotoneSequence (expected actual : Z)
| HelloRequired
| DuplicateHello
| UnknownEventType (message_type : str)
| InvalidPayload (name : str).

(** ** Validation *)

Definition valid_bpm (value : f64) : bool :=
  f64_is_finite value && (f64_leb (f64_of_Z 20) value && f64_leb value (f64_of_Z 300)).

Definition validate_device (device : Device) : result unit BridgeDecodeError :=
  if (dev_device_number device =? 0) || str_is_blank (dev_device_name device)
     || str_is_blank (dev_address device)
  then Err (InvalidPayload (lit "device")) else Ok tt.

Definition signature_invalid (value : str) : bool :=
  negb (str_len value =? 40) || negb (forallb is_ascii_hexdigit (str_as_bytes value)).

Definition deck_status_invalid (status : DeckStatus) : bool :=
  let has_track_id := negb (ds_rekordbox_id status =? 0) in
  let has_source_player := negb (ds_source_player status =? 0) in
  let loaded_track_is_invalid :=
    has_track_id
    && (negb (valid_bpm (ds_track_bpm status)) || negb (valid_bpm (ds_effective_bpm status))
        || (ds_beat_number status <? 0) || str_is_blank (ds_source_slot status)
        || str_is_blank (ds_track_type status)) in
  (ds_device_number status =? 0) || (has_track_id && negb has_source_player)
  || loaded_track_is_invalid || (4 <? ds_beat_within_bar status).

Definition validate_event (event : BridgeEvent) : result unit BridgeDecodeError :=
  let refuse (name : String.string) (invalid : bool) :=
    if invalid then Err (InvalidPayload (lit name)) else Ok tt in
  match event with
  | BridgeHello hello =>
      refuse "hello" (str_is_blank (hello_bridge_version hello)
        || str_is_blank (hello_beat_link_version hello) || negb (hello_read_only hello))
  | DeviceFound device | DeviceLost device => validate_device device
  | BridgeUSBMedia media =>
      refuse "usbMedia" (negb (in_range 1 6 (um_device_number media))
        || option_is_some_and (λ id, 8 <? id) (um_color_id media))
  | BridgeUSBMount mount => refuse "usbMount" (negb (in_range 1 6 (mnt_device_number mount)))
  | BridgeDeckStatus status => refuse "deckStatus" (deck_status_invalid status)
  | BridgeBeatEvent beat =>
      refuse "beat" ((bt_device_number beat =? 0) || negb (valid_bpm (bt_effective_bpm beat))
        || negb (in_range 1 4 (bt_beat_within_bar beat)))
  | BridgeTempoStatus tempo =>
      refuse "tempoStatus" ((ts_device_number tempo =? 0) || str_is_blank (ts_device_name tempo)
        || negb (valid_bpm (ts_effective_bpm tempo)) || (4 <? ts_beat_within_bar tempo))
  | BridgePrecisePosition position =>
      refuse "precisePosition" ((pp_device_number position =? 0)
        || str_is_blank (pp_device_name position) || negb (valid_bpm (pp_effective_bpm position))
        || (4 <? pp_beat_within_bar position)
        || (24 * 60 * 60 * 1000 <? pp_playback_position_millis position))
  | BridgeMetadata metadata =>
      refuse "trackMetadata" ((btm_deck_number metadata =? 0)
        || (btm_available metadata
            && (bool_decide (btm_rekordbox_id metadata = None)
                || bool_decide (btm_duration_seconds metadata = None)
                || negb (option_is_some_and (λ _, true) (btm_track_bpm metadata)))))
  | BridgeSignature signature =>
      refuse "trackSignature" ((sig_deck_number signature =? 0)
        || option_is_some_and signature_invalid (sig_signature signature))
  | BridgeStatus status => refuse "sourceStatus" (str_is_blank (ss_detail status))
  | BridgeError failure =>
      refuse "error" (str_is_blank (fail_operation failure) || str_is_blank (fail_message failure))
  end.

(** ** The decoder *)

Record WireEnvelope (V : Type) := mkWireEnvelope {
  we_packet_origin : option PacketOrigin;
  we_protocol : str;
  we_protocol_version : Z;
  we_sequence : Z;
  we_observed_at_nanos : Z;
  we_traffic_class : BridgeTrafficClass;
  we_bridge_queue_age_micros : Z;
  we_message_type : str;
  we_payload : V;
}.
Arguments mkWireEnvelope {V}.
Arguments we_packet_origin {V}.
Arguments we_protocol {V}.
Arguments we_protocol_version {V}.
Arguments we_sequence {V}.
Arguments we_observed_at_nanos {V}.
Arguments we_traffic_class {V}.
Arguments we_bridge_queue_age_micros {V}.
Arguments we_message_type {V}.
Arguments we_payload {V}.

(** [serde_json::from_value] at the type [A]. *)
Class Deserialize (V A : Type) := from_value : V → option A.

Record BridgeDecoder := mkBridgeDecoder {
  bd_last_sequence : option Z;
  bd_hello_received : bool;
}.

Definition BridgeDecoder_new : BridgeDecoder := mkBridgeDecoder None false.

Definition is_hello (event : BridgeEvent) : bool :=
  match event with BridgeHello _ => true | _ => false end.

Section Decoder.
Context {V : Type} (from_str : str → option (WireEnvelope V)).
Context `{!Deserialize V Hello, !Deserialize V BridgeSourceStatus, !Deserialize V Device,
  !Deserialize V USBMedia, !Deserialize V USBMount, !Deserialize V DeckStatus,
  !Deserialize V BridgeBeat, !Deserialize V TempoStatus, !Deserialize V PrecisePosition,
  !Deserialize V BridgeTrackMetadata, !Deserialize V TrackSignature, !Deserialize V BridgeFailure}.

Definition decode_payload {A} `{!Deserialize V A} (payload : V) : result A BridgeDecodeError :=
  ok_or (from_value payload) InvalidJson.

Definition decode_event (message_type : str) (payload : V) : result BridgeEvent BridgeDecodeError :=
  let named (name : String.string) : bool := bool_decide (message_type = lit name) in
  if named "hello" then let? x := decode_payload payload in Ok (BridgeHello x)
  else if named "sourceStatus" then let? x := decode_payload payload in Ok (BridgeStatus x)
  else if named "deviceFound" then let? x := decode_payload payload in Ok (DeviceFound x)
  else if named "deviceLost" then let? x := decode_payload payload in Ok (DeviceLost x)
  else if named "usbMedia" then let? x := decode_payload payload in Ok (BridgeUSBMedia x)
  else if named "usbMount" then let? x := decode_payload payload in Ok (BridgeUSBMount x)
  else if named "deckStatus" || named "transportStatus"
  then let? x := decode_payload payload in Ok (BridgeDeckStatus x)
  else if named "beat" then let? x := decode_payload payload in Ok (BridgeBeatEvent x)
  else if named "tempoStatus" then let? x := decode_payload payload in Ok (BridgeTempoStatus x)
  else if named "precisePosition" then let? x := decode_payload payload in Ok (BridgePrecisePosition x)
  else if named "trackMetadata" then let? x := decode_payload payload in Ok (BridgeMetadata x)
  else if named "trackSignature" then let? x := decode_payload payload in Ok (BridgeSignature x)
  else if named "error" then let? x := decode_payload payload in Ok (BridgeError x)
  else Err (UnknownEventType message_type).

Definition expected_sequence (d : BridgeDecoder) : Z :=
  match bd_last_sequence d with None => 1 | Some sequence => saturating_add_u64 sequence 1 end.

(** The decoder is only written after the last error, so it is returned with the message. *)
Definition decode_line (line : str) (d : BridgeDecoder) :
    result (BridgeMessage * BridgeDecoder) BridgeDecodeError :=
  let? envelope := ok_or (from_str line) InvalidJson in
  if negb (bool_decide (we_protocol envelope = BRIDGE_PROTOCOL_NAME))
  then Err (UnexpectedProtocol (we_protocol envelope))
  else if negb (we_protocol_version envelope =? BRIDGE_PROTOCOL_VERSION)
  then Err (UnsupportedVersion (we_protocol_version envelope))
  else if negb (we_sequence envelope =? expected_sequence d)
  then Err (NonMonotoneSequence (expected_sequence d) (we_sequence envelope))
  else if negb (bd_hello_received d) && negb (bool_decide (we_message_type envelope = lit "hello"))
  then Err HelloRequired
  else
    let? event := decode_event (we_message_type envelope) (we_payload envelope) in
    let? _ := validate_event event in
    if is_hello event && bd_hello_received d then Err DuplicateHello
    else
      Ok (mkBridgeMessage (we_packet_origin envelope) (we_sequence envelope)
            (we_observed_at_nanos envelope) (we_traffic_class envelope)
            (we_bridge_queue_age_micros envelope) 0 event,
          mkBridgeDecoder (Some (we_sequence envelope)) (bd_hello_received d || is_hello event)).
End Decoder.
