(* ===== verification/ProLinkProvider.v ===== *)
(** * Pro DJ Link: the deck source

    Models [lumi-prolink-input/src/provider.rs]: the provider that turns the messages of
    the bridge into normalized observations.  Every method that changes its state is a
    method over the provider; a [BTreeMap] is a [gmap], read in the order of its keys
    where the code iterates.  [Instant::now()] is an argument: [now n] is what the call
    reads the n-th time. *)

From stdpp Require Import prelude list gmap strings.
From Stdlib Require Import ZArith Lia.
From S2P Require Import Prelude.
From S2P Require Import Track.
From S2P Require Import Plan.
From S2P Require Import Event.
From S2P Require Import DeckSource.
From S2P Require Import Float64.
From S2P Require Import ProLink.
Open Scope Z_scope.

Definition PROLINK_SOURCE_ID : Z := 31.
Definition DEFAULT_TRACK_MINUTES : Z := 10.
(** 2.25 *)
Definition POSITION_CONTINUITY_TOLERANCE_BEATS : f64 := f64_scaled 9 (-2).
Definition POSITION_AUTHORITY_DIAGNOSTIC_MAX_AGE_MILLIS : Z := 500.
Definition PRECISE_POSITION_FORWARD_SEEK_TOLERANCE_MILLIS : Z := 750.
Definition PRECISE_POSITION_HOT_CUE_CONFIRMATIONS : Z := 2.
Definition PRECISE_POSITION_STATUS_TOLERANCE_BEATS : Z := 1.
Definition STATUS_DISCONTINUITY_CONFIRMATIONS : Z := 3.
Definition STATUS_DISCONTINUITY_MAX_AGE_NANOS : Z := 1000000000.
Definition STATUS_BACKWARD_JITTER_MAX_BEATS : Z := 8.

(** Nanoseconds on the monotonic clock of the process. *)
Definition Instant : Type := Z.

(** ** Data *)

Record ProLinkTrackIdentity := mkProLinkTrackIdentity {
  pti_rekordbox_id : Z;
  pti_source_player : Z;
  pti_source_slot : str;
  pti_signature : option str;
}.

#[global] Instance ProLinkTrackIdentity_eq_dec : EqDecision ProLinkTrackIdentity.
Proof. solve_decision. Defined.

Record ProLinkTransportSnapshot := mkProLinkTransportSnapshot {
  pts_beat : Z;
  pts_effective_bpm_milli : Z;
  pts_playing : bool;
  pts_discontinuity_revision : Z;
  pts_anchor_observed_at : Instant;
}.

Record ProLinkTimingObservation := mkProLinkTimingObservation {
  pto_deck_id : DeckId;
  pto_observed_at_nanos : Z;
  pto_absolute_beat : Z;
  pto_effective_bpm_milli : Z;
  pto_beat_within_bar : Z;
  pto_playing : bool;
  pto_generation : Z;
  pto_discontinuity : bool;
}.

Record ProLinkPrecisePositionObservation := mkProLinkPrecisePositionObservation {
  ppo_deck_id : DeckId;
  ppo_track_load_id : TrackLoadId;
  ppo_observed_at_nanos : Z;
  ppo_playback_position_millis : Z;
  ppo_effective_bpm_milli : Z;
  ppo_beat_within_bar : Z;
}.

Record ProLinkAuthoritativePosition := mkProLinkAuthoritativePosition {
  pap_deck_id : DeckId;
  pap_track_load_id : TrackLoadId;
  pap_absolute_beat : Z;
  pap_effective_bpm_milli : Z;
  pap_playing : bool;
  pap_generation : Z;
  pap_discontinuity : bool;
}.

Record PendingPreciseDiscontinuity := mkPendingPreciseDiscontinuity {
  ppd_playback_position_millis : Z;
  ppd_absolute_beat : Z;
  ppd_observed_at_nanos : Z;
  ppd_confirmation_count : Z;
}.

Record StatusDiscontinuity := mkStatusDiscontinuity {
  sd_absolute_beat : Z;
  sd_observed_at_nanos : Z;
}.

Record PendingStatusDiscontinuity := mkPendingStatusDiscontinuity {
  psd_absolute_beat : Z;
  psd_observed_at_nanos : Z;
  psd_confirmation_count : Z;
}.

Record PrecisePositionCandidate := mkPrecisePositionCandidate {
  ppc_playback_position_millis : Z;
  ppc_absolute_beat : Z;
  ppc_observed_at_nanos : Z;
  ppc_track_bpm_milli : Z;
  ppc_effective_bpm_milli : Z;
  ppc_playing : bool;
}.

Record ProLinkDiscoveredDevice := mkProLinkDiscoveredDevice {
  pdd_name : str;
  pdd_address : str;
}.

Inductive ProLinkProviderError : Type :=
| PLSequenceOverflow
| PLTrackLoadIdOverflow
| PLTimingGenerationOverflow
| PLLoadedDeckMissing
| PLInvalidBpm (bpm : f64)
| PLInvalidBeatNumber (beat_number : Z)
| PLInvalidTrack (error : TrackValidationError).

Record LoadedDeck := mkLoadedDeck {
  pd_identity : ProLinkTrackIdentity;
  pd_track_load_id : TrackLoadId;
  pd_metadata : TrackMetadata;
  pd_beat : Z;
  pd_last_status_beat : Z;
  pd_last_status_observed_at_nanos : Z;
  pd_pending_status_discontinuity : option PendingStatusDiscontinuity;
  pd_last_status_discontinuity : option StatusDiscontinuity;
  pd_phrase_index : option Z;
  pd_precise_position_seen : bool;
  pd_last_precise_position_received_at : option Instant;
  pd_last_exact_beat_received_at : option Instant;
  pd_last_precise_position_millis : option Z;
  pd_last_precise_position_observed_at_nanos : option Z;
  pd_pending_precise_discontinuity : option PendingPreciseDiscontinuity;
  pd_last_position_observed_at_nanos : Z;
  pd_effective_bpm_milli : Z;
  pd_playing : bool;
  pd_discontinuity_revision : Z;
  pd_transport_anchor_observed_at : Instant;
}.

Definition set_pd_identity (x : ProLinkTrackIdentity) (s : LoadedDeck) : LoadedDeck :=
  mkLoadedDeck x (pd_track_load_id s) (pd_metadata s) (pd_beat s) (pd_last_status_beat s)
    (pd_last_status_observed_at_nanos s) (pd_pending_status_discontinuity s)
    (pd_last_status_discontinuity s) (pd_phrase_index s) (pd_precise_position_seen s)
    (pd_last_precise_position_received_at s) (pd_last_exact_beat_received_at s)
    (pd_last_precise_position_millis s) (pd_last_precise_position_observed_at_nanos s)
    (pd_pending_precise_discontinuity s) (pd_last_position_observed_at_nanos s)
    (pd_effective_bpm_milli s) (pd_playing s) (pd_discontinuity_revision s)
    (pd_transport_anchor_observed_at s).

Definition set_pd_metadata (x : TrackMetadata) (s : LoadedDeck) : LoadedDeck :=
  mkLoadedDeck (pd_identity s) (pd_track_load_id s) x (pd_beat s) (pd_last_status_beat s)
    (pd_last_status_observed_at_nanos s) (pd_pending_status_discontinuity s)
    (pd_last_status_discontinuity s) (pd_phrase_index s) (pd_precise_position_seen s)
    (pd_last_precise_position_received_at s) (pd_last_exact_beat_received_at s)
    (pd_last_precise_position_millis s) (pd_last_precise_position_observed_at_nanos s)
    (pd_pending_precise_discontinuity s) (pd_last_position_observed_at_nanos s)
    (pd_effective_bpm_milli s) (pd_playing s) (pd_discontinuity_revision s)
    (pd_transport_anchor_observed_at s).

Definition set_pd_beat (x : Z) (s : LoadedDeck) : LoadedDeck :=
  mkLoadedDeck (pd_identity s) (pd_track_load_id s) (pd_metadata s) x (pd_last_status_beat s)
    (pd_last_status_observed_at_nanos s) (pd_pending_status_discontinuity s)
    (pd_last_status_discontinuity s) (pd_phrase_index s) (pd_precise_position_seen s)
    (pd_last_precise_position_received_at s) (pd_last_exact_beat_received_at s)
    (pd_last_precise_position_millis s) (pd_last_precise_position_observed_at_nanos s)
    (pd_pending_precise_discontinuity s) (pd_last_position_observed_at_nanos s)
    (pd_effective_bpm_milli s) (pd_playing s) (pd_discontinuity_revision s)
    (pd_transport_anchor_observed_at s).

Definition set_pd_last_status_beat (x : Z) (s : LoadedDeck) : LoadedDeck :=
  mkLoadedDeck (pd_identity s) (pd_track_load_id s) (pd_metadata s) (pd_beat s) x
    (pd_last_status_observed_at_nanos s) (pd_pending_status_discontinuity s)
    (pd_last_status_discontinuity s) (pd_phrase_index s) (pd_precise_position_seen s)
    (pd_last_precise_position_received_at s) (pd_last_exact_beat_received_at s)
    (pd_last_precise_position_millis s) (pd_last_precise_position_observed_at_nanos s)
    (pd_pending_precise_discontinuity s) (pd_last_position_observed_at_nanos s)
    (pd_effective_bpm_milli s) (pd_playing s) (pd_discontinuity_revision s)
    (pd_transport_anchor_observed_at s).

Definition set_pd_last_status_observed_at_nanos (x : Z) (s : LoadedDeck) : LoadedDeck :=
  mkLoadedDeck (pd_identity s) (pd_track_load_id s) (pd_metadata s) (pd_beat s)
    (pd_last_status_beat s) x (pd_pending_status_discontinuity s) (pd_last_status_discontinuity
    s) (pd_phrase_index s) (pd_precise_position_seen s) (pd_last_precise_position_received_at s)
    (pd_last_exact_beat_received_at s) (pd_last_precise_position_millis s)
    (pd_last_precise_position_observed_at_nanos s) (pd_pending_precise_discontinuity s)
    (pd_last_position_observed_at_nanos s) (pd_effective_bpm_milli s) (pd_playing s)
    (pd_discontinuity_revision s) (pd_transport_anchor_observed_at s).

Definition set_pd_pending_status_discontinuity (x : option PendingStatusDiscontinuity) (s : LoadedDeck) : LoadedDeck :=
  mkLoadedDeck (pd_identity s) (pd_track_load_id s) (pd_metadata s) (pd_beat s)
    (pd_last_status_beat s) (pd_last_status_observed_at_nanos s) x (pd_last_status_discontinuity
    s) (pd_phrase_index s) (pd_precise_position_seen s) (pd_last_precise_position_received_at s)
    (pd_last_exact_beat_received_at s) (pd_last_precise_position_millis s)
    (pd_last_precise_position_observed_at_nanos s) (pd_pending_precise_discontinuity s)
    (pd_last_position_observed_at_nanos s) (pd_effective_bpm_milli s) (pd_playing s)
    (pd_discontinuity_revision s) (pd_transport_anchor_observed_at s).

Definition set_pd_last_status_discontinuity (x : option StatusDiscontinuity) (s : LoadedDeck) : LoadedDeck :=
  mkLoadedDeck (pd_identity s) (pd_track_load_id s) (pd_metadata s) (pd_beat s)
    (pd_last_status_beat s) (pd_last_status_observed_at_nanos s)
    (pd_pending_status_discontinuity s) x (pd_phrase_index s) (pd_precise_position_seen s)
    (pd_last_precise_position_received_at s) (pd_last_exact_beat_received_at s)
    (pd_last_precise_position_millis s) (pd_last_precise_position_observed_at_nanos s)
    (pd_pending_precise_discontinuity s) (pd_last_position_observed_at_nanos s)
    (pd_effective_bpm_milli s) (pd_playing s) (pd_discontinuity_revision s)
    (pd_transport_anchor_observed_at s).

Definition set_pd_phrase_index (x : option Z) (s : LoadedDeck) : LoadedDeck :=
  mkLoadedDeck (pd_identity s) (pd_track_load_id s) (pd_metadata s) (pd_beat s)
    (pd_last_status_beat s) (pd_last_status_observed_at_nanos s)
    (pd_pending_status_discontinuity s) (pd_last_status_discontinuity s) x
    (pd_precise_position_seen s) (pd_last_precise_position_received_at s)
    (pd_last_exact_beat_received_at s) (pd_last_precise_position_millis s)
    (pd_last_precise_position_observed_at_nanos s) (pd_pending_precise_discontinuity s)
    (pd_last_position_observed_at_nanos s) (pd_effective_bpm_milli s) (pd_playing s)
    (pd_discontinuity_revision s) (pd_transport_anchor_observed_at s).

Definition set_pd_precise_position_seen (x : bool) (s : LoadedDeck) : LoadedDeck :=
  mkLoadedDeck (pd_identity s) (pd_track_load_id s) (pd_metadata s) (pd_beat s)
    (pd_last_status_beat s) (pd_last_status_observed_at_nanos s)
    (pd_pending_status_discontinuity s) (pd_last_status_discontinuity s) (pd_phrase_index s) x
    (pd_last_precise_position_received_at s) (pd_last_exact_beat_received_at s)
    (pd_last_precise_position_millis s) (pd_last_precise_position_observed_at_nanos s)
    (pd_pending_precise_discontinuity s) (pd_last_position_observed_at_nanos s)
    (pd_effective_bpm_milli s) (pd_playing s) (pd_discontinuity_revision s)
    (pd_transport_anchor_observed_at s).

Definition set_pd_last_precise_position_received_at (x : option Instant) (s : LoadedDeck) : LoadedDeck :=
  mkLoadedDeck (pd_identity s) (pd_track_load_id s) (pd_metadata s) (pd_beat s)
    (pd_last_status_beat s) (pd_last_status_observed_at_nanos s)
    (pd_pending_status_discontinuity s) (pd_last_status_discontinuity s) (pd_phrase_index s)
    (pd_precise_position_seen s) x (pd_last_exact_beat_received_at s)
    (pd_last_precise_position_millis s) (pd_last_precise_position_observed_at_nanos s)
    (pd_pending_precise_discontinuity s) (pd_last_position_observed_at_nanos s)
    (pd_effective_bpm_milli s) (pd_playing s) (pd_discontinuity_revision s)
    (pd_transport_anchor_observed_at s).

Definition set_pd_last_exact_beat_received_at (x : option Instant) (s : LoadedDeck) : LoadedDeck :=
  mkLoadedDeck (pd_identity s) (pd_track_load_id s) (pd_metadata s) (pd_beat s)
    (pd_last_status_beat s) (pd_last_status_observed_at_nanos s)
    (pd_pending_status_discontinuity s) (pd_last_status_discontinuity s) (pd_phrase_index s)
    (pd_precise_position_seen s) (pd_last_precise_position_received_at s) x
    (pd_last_precise_position_millis s) (pd_last_precise_position_observed_at_nanos s)
    (pd_pending_precise_discontinuity s) (pd_last_position_observed_at_nanos s)
    (pd_effective_bpm_milli s) (pd_playing s) (pd_discontinuity_revision s)
    (pd_transport_anchor_observed_at s).

Definition set_pd_last_precise_position_millis (x : option Z) (s : LoadedDeck) : LoadedDeck :=
  mkLoadedDeck (pd_identity s) (pd_track_load_id s) (pd_metadata s) (pd_beat s)
    (pd_last_status_beat s) (pd_last_status_observed_at_nanos s)
    (pd_pending_status_discontinuity s) (pd_last_status_discontinuity s) (pd_phrase_index s)
    (pd_precise_position_seen s) (pd_last_precise_position_received_at s)
    (pd_last_exact_beat_received_at s) x (pd_last_precise_position_observed_at_nanos s)
    (pd_pending_precise_discontinuity s) (pd_last_position_observed_at_nanos s)
    (pd_effective_bpm_milli s) (pd_playing s) (pd_discontinuity_revision s)
    (pd_transport_anchor_observed_at s).

Definition set_pd_last_precise_position_observed_at_nanos (x : option Z) (s : LoadedDeck) : LoadedDeck :=
  mkLoadedDeck (pd_identity s) (pd_track_load_id s) (pd_metadata s) (pd_beat s)
    (pd_last_status_beat s) (pd_last_status_observed_at_nanos s)
    (pd_pending_status_discontinuity s) (pd_last_status_discontinuity s) (pd_phrase_index s)
    (pd_precise_position_seen s) (pd_last_precise_position_received_at s)
    (pd_last_exact_beat_received_at s) (pd_last_precise_position_millis s) x
    (pd_pending_precise_discontinuity s) (pd_last_position_observed_at_nanos s)
    (pd_effective_bpm_milli s) (pd_playing s) (pd_discontinuity_revision s)
    (pd_transport_anchor_observed_at s).

Definition set_pd_pending_precise_discontinuity (x : option PendingPreciseDiscontinuity) (s : LoadedDeck) : LoadedDeck :=
  mkLoadedDeck (pd_identity s) (pd_track_load_id s) (pd_metadata s) (pd_beat s)
    (pd_last_status_beat s) (pd_last_status_observed_at_nanos s)
    (pd_pending_status_discontinuity s) (pd_last_status_discontinuity s) (pd_phrase_index s)
    (pd_precise_position_seen s) (pd_last_precise_position_received_at s)
    (pd_last_exact_beat_received_at s) (pd_last_precise_position_millis s)
    (pd_last_precise_position_observed_at_nanos s) x (pd_last_position_observed_at_nanos s)
    (pd_effective_bpm_milli s) (pd_playing s) (pd_discontinuity_revision s)
    (pd_transport_anchor_observed_at s).

Definition set_pd_last_position_observed_at_nanos (x : Z) (s : LoadedDeck) : LoadedDeck :=
  mkLoadedDeck (pd_identity s) (pd_track_load_id s) (pd_metadata s) (pd_beat s)
    (pd_last_status_beat s) (pd_last_status_observed_at_nanos s)
    (pd_pending_status_discontinuity s) (pd_last_status_discontinuity s) (pd_phrase_index s)
    (pd_precise_position_seen s) (pd_last_precise_position_received_at s)
    (pd_last_exact_beat_received_at s) (pd_last_precise_position_millis s)
    (pd_last_precise_position_observed_at_nanos s) (pd_pending_precise_discontinuity s) x
    (pd_effective_bpm_milli s) (pd_playing s) (pd_discontinuity_revision s)
    (pd_transport_anchor_observed_at s).

Definition set_pd_effective_bpm_milli (x : Z) (s : LoadedDeck) : LoadedDeck :=
  mkLoadedDeck (pd_identity s) (pd_track_load_id s) (pd_metadata s) (pd_beat s)
    (pd_last_status_beat s) (pd_last_status_observed_at_nanos s)
    (pd_pending_status_discontinuity s) (pd_last_status_discontinuity s) (pd_phrase_index s)
    (pd_precise_position_seen s) (pd_last_precise_position_received_at s)
    (pd_last_exact_beat_received_at s) (pd_last_precise_position_millis s)
    (pd_last_precise_position_observed_at_nanos s) (pd_pending_precise_discontinuity s)
    (pd_last_position_observed_at_nanos s) x (pd_playing s) (pd_discontinuity_revision s)
    (pd_transport_anchor_observed_at s).

Definition set_pd_playing (x : bool) (s : LoadedDeck) : LoadedDeck :=
  mkLoadedDeck (pd_identity s) (pd_track_load_id s) (pd_metadata s) (pd_beat s)
    (pd_last_status_beat s) (pd_last_status_observed_at_nanos s)
    (pd_pending_status_discontinuity s) (pd_last_status_discontinuity s) (pd_phrase_index s)
    (pd_precise_position_seen s) (pd_last_precise_position_received_at s)
    (pd_last_exact_beat_received_at s) (pd_last_precise_position_millis s)
    (pd_last_precise_position_observed_at_nanos s) (pd_pending_precise_discontinuity s)
    (pd_last_position_observed_at_nanos s) (pd_effective_bpm_milli s) x
    (pd_discontinuity_revision s) (pd_transport_anchor_observed_at s).

Definition set_pd_discontinuity_revision (x : Z) (s : LoadedDeck) : LoadedDeck :=
  mkLoadedDeck (pd_identity s) (pd_track_load_id s) (pd_metadata s) (pd_beat s)
    (pd_last_status_beat s) (pd_last_status_observed_at_nanos s)
    (pd_pending_status_discontinuity s) (pd_last_status_discontinuity s) (pd_phrase_index s)
    (pd_precise_position_seen s) (pd_last_precise_position_received_at s)
    (pd_last_exact_beat_received_at s) (pd_last_precise_position_millis s)
    (pd_last_precise_position_observed_at_nanos s) (pd_pending_precise_discontinuity s)
    (pd_last_position_observed_at_nanos s) (pd_effective_bpm_milli s) (pd_playing s) x
    (pd_transport_anchor_observed_at s).

Definition set_pd_transport_anchor_observed_at (x : Instant) (s : LoadedDeck) : LoadedDeck :=
  mkLoadedDeck (pd_identity s) (pd_track_load_id s) (pd_metadata s) (pd_beat s)
    (pd_last_status_beat s) (pd_last_status_observed_at_nanos s)
    (pd_pending_status_discontinuity s) (pd_last_status_discontinuity s) (pd_phrase_index s)
    (pd_precise_position_seen s) (pd_last_precise_position_received_at s)
    (pd_last_exact_beat_received_at s) (pd_last_precise_position_millis s)
    (pd_last_precise_position_observed_at_nanos s) (pd_pending_precise_discontinuity s)
    (pd_last_position_observed_at_nanos s) (pd_effective_bpm_milli s) (pd_playing s)
    (pd_discontinuity_revision s) x.

Record ProLinkDeckSourceProvider := mkProLink {
  pk_source_id : SourceId;
  pk_sequence : Z;
  pk_next_track_load_id : Z;
  pk_decks : gmap Z LoadedDeck;
  pk_devices : gmap Z ProLinkDiscoveredDevice;
  pk_signatures : gmap Z (option str);
  pk_leader_deck_id : option DeckId;
  pk_pending_events : list DomainEvent;
  pk_source_status : DeckSourceStatus;
  pk_received_message_count : Z;
  pk_ignored_message_count : Z;
  pk_last_bridge_sequence : option Z;
  pk_bridge_version : option str;
  pk_beat_link_version : option str;
  pk_last_error : option str;
  pk_ingress_queue_capacity : nat;
  pk_ingress_queue_depth : nat;
  pk_ingress_queue_high_water : nat;
  pk_ingress_coalesced_message_count : Z;
  pk_ingress_critical_saturation_count : Z;
  pk_ingress_source_age_sample_count : Z;
  pk_ingress_source_age_p50_micros : Z;
  pk_ingress_source_age_p95_micros : Z;
  pk_ingress_source_age_p99_micros : Z;
  pk_ingress_source_age_max_micros : Z;
  pk_precise_position_message_count : Z;
  pk_authoritative_position_count : Z;
  pk_position_discontinuity_count : Z;
  pk_timing_generation : Z;
  pk_timing_observations : list ProLinkTimingObservation;
  pk_precise_position_observations : list ProLinkPrecisePositionObservation;
}.

Definition set_pk_sequence (x : Z) (s : ProLinkDeckSourceProvider) : ProLinkDeckSourceProvider :=
  mkProLink (pk_source_id s) x (pk_next_track_load_id s) (pk_decks s) (pk_devices s)
    (pk_signatures s) (pk_leader_deck_id s) (pk_pending_events s) (pk_source_status s)
    (pk_received_message_count s) (pk_ignored_message_count s) (pk_last_bridge_sequence s)
    (pk_bridge_version s) (pk_beat_link_version s) (pk_last_error s) (pk_ingress_queue_capacity
    s) (pk_ingress_queue_depth s) (pk_ingress_queue_high_water s)
    (pk_ingress_coalesced_message_count s) (pk_ingress_critical_saturation_count s)
    (pk_ingress_source_age_sample_count s) (pk_ingress_source_age_p50_micros s)
    (pk_ingress_source_age_p95_micros s) (pk_ingress_source_age_p99_micros s)
    (pk_ingress_source_age_max_micros s) (pk_precise_position_message_count s)
    (pk_authoritative_position_count s) (pk_position_discontinuity_count s)
    (pk_timing_generation s) (pk_timing_observations s) (pk_precise_position_observations s).

Definition set_pk_next_track_load_id (x : Z) (s : ProLinkDeckSourceProvider) : ProLinkDeckSourceProvider :=
  mkProLink (pk_source_id s) (pk_sequence s) x (pk_decks s) (pk_devices s) (pk_signatures s)
    (pk_leader_deck_id s) (pk_pending_events s) (pk_source_status s) (pk_received_message_count
    s) (pk_ignored_message_count s) (pk_last_bridge_sequence s) (pk_bridge_version s)
    (pk_beat_link_version s) (pk_last_error s) (pk_ingress_queue_capacity s)
    (pk_ingress_queue_depth s) (pk_ingress_queue_high_water s)
    (pk_ingress_coalesced_message_count s) (pk_ingress_critical_saturation_count s)
    (pk_ingress_source_age_sample_count s) (pk_ingress_source_age_p50_micros s)
    (pk_ingress_source_age_p95_micros s) (pk_ingress_source_age_p99_micros s)
    (pk_ingress_source_age_max_micros s) (pk_precise_position_message_count s)
    (pk_authoritative_position_count s) (pk_position_discontinuity_count s)
    (pk_timing_generation s) (pk_timing_observations s) (pk_precise_position_observations s).

Definition set_pk_decks (x : gmap Z LoadedDeck) (s : ProLinkDeckSourceProvider) : ProLinkDeckSourceProvider :=
  mkProLink (pk_source_id s) (pk_sequence s) (pk_next_track_load_id s) x (pk_devices s)
    (pk_signatures s) (pk_leader_deck_id s) (pk_pending_events s) (pk_source_status s)
    (pk_received_message_count s) (pk_ignored_message_count s) (pk_last_bridge_sequence s)
    (pk_bridge_version s) (pk_beat_link_version s) (pk_last_error s) (pk_ingress_queue_capacity
    s) (pk_ingress_queue_depth s) (pk_ingress_queue_high_water s)
    (pk_ingress_coalesced_message_count s) (pk_ingress_critical_saturation_count s)
    (pk_ingress_source_age_sample_count s) (pk_ingress_source_age_p50_micros s)
    (pk_ingress_source_age_p95_micros s) (pk_ingress_source_age_p99_micros s)
    (pk_ingress_source_age_max_micros s) (pk_precise_position_message_count s)
    (pk_authoritative_position_count s) (pk_position_discontinuity_count s)
    (pk_timing_generation s) (pk_timing_observations s) (pk_precise_position_observations s).

Definition set_pk_devices (x : gmap Z ProLinkDiscoveredDevice) (s : ProLinkDeckSourceProvider) : ProLinkDeckSourceProvider :=
  mkProLink (pk_source_id s) (pk_sequence s) (pk_next_track_load_id s) (pk_decks s) x
    (pk_signatures s) (pk_leader_deck_id s) (pk_pending_events s) (pk_source_status s)
    (pk_received_message_count s) (pk_ignored_message_count s) (pk_last_bridge_sequence s)
    (pk_bridge_version s) (pk_beat_link_version s) (pk_last_error s) (pk_ingress_queue_capacity
    s) (pk_ingress_queue_depth s) (pk_ingress_queue_high_water s)
    (pk_ingress_coalesced_message_count s) (pk_ingress_critical_saturation_count s)
    (pk_ingress_source_age_sample_count s) (pk_ingress_source_age_p50_micros s)
    (pk_ingress_source_age_p95_micros s) (pk_ingress_source_age_p99_micros s)
    (pk_ingress_source_age_max_micros s) (pk_precise_position_message_count s)
    (pk_authoritative_position_count s) (pk_position_discontinuity_count s)
    (pk_timing_generation s) (pk_timing_observations s) (pk_precise_position_observations s).

Definition set_pk_signatures (x : gmap Z (option str)) (s : ProLinkDeckSourceProvider) : ProLinkDeckSourceProvider :=
  mkProLink (pk_source_id s) (pk_sequence s) (pk_next_track_load_id s) (pk_decks s) (pk_devices
    s) x (pk_leader_deck_id s) (pk_pending_events s) (pk_source_status s)
    (pk_received_message_count s) (pk_ignored_message_count s) (pk_last_bridge_sequence s)
    (pk_bridge_version s) (pk_beat_link_version s) (pk_last_error s) (pk_ingress_queue_capacity
    s) (pk_ingress_queue_depth s) (pk_ingress_queue_high_water s)
    (pk_ingress_coalesced_message_count s) (pk_ingress_critical_saturation_count s)
    (pk_ingress_source_age_sample_count s) (pk_ingress_source_age_p50_micros s)
    (pk_ingress_source_age_p95_micros s) (pk_ingress_source_age_p99_micros s)
    (pk_ingress_source_age_max_micros s) (pk_precise_position_message_count s)
    (pk_authoritative_position_count s) (pk_position_discontinuity_count s)
    (pk_timing_generation s) (pk_timing_observations s) (pk_precise_position_observations s).

Definition set_pk_leader_deck_id (x : option DeckId) (s : ProLinkDeckSourceProvider) : ProLinkDeckSourceProvider :=
  mkProLink (pk_source_id s) (pk_sequence s) (pk_next_track_load_id s) (pk_decks s) (pk_devices
    s) (pk_signatures s) x (pk_pending_events s) (pk_source_status s) (pk_received_message_count
    s) (pk_ignored_message_count s) (pk_last_bridge_sequence s) (pk_bridge_version s)
    (pk_beat_link_version s) (pk_last_error s) (pk_ingress_queue_capacity s)
    (pk_ingress_queue_depth s) (pk_ingress_queue_high_water s)
    (pk_ingress_coalesced_message_count s) (pk_ingress_critical_saturation_count s)
    (pk_ingress_source_age_sample_count s) (pk_ingress_source_age_p50_micros s)
    (pk_ingress_source_age_p95_micros s) (pk_ingress_source_age_p99_micros s)
    (pk_ingress_source_age_max_micros s) (pk_precise_position_message_count s)
    (pk_authoritative_position_count s) (pk_position_discontinuity_count s)
    (pk_timing_generation s) (pk_timing_observations s) (pk_precise_position_observations s).

Definition set_pk_pending_events (x : list DomainEvent) (s : ProLinkDeckSourceProvider) : ProLinkDeckSourceProvider :=
  mkProLink (pk_source_id s) (pk_sequence s) (pk_next_track_load_id s) (pk_decks s) (pk_devices
    s) (pk_signatures s) (pk_leader_deck_id s) x (pk_source_status s) (pk_received_message_count
    s) (pk_ignored_message_count s) (pk_last_bridge_sequence s) (pk_bridge_version s)
    (pk_beat_link_version s) (pk_last_error s) (pk_ingress_queue_capacity s)
    (pk_ingress_queue_depth s) (pk_ingress_queue_high_water s)
    (pk_ingress_coalesced_message_count s) (pk_ingress_critical_saturation_count s)
    (pk_ingress_source_age_sample_count s) (pk_ingress_source_age_p50_micros s)
    (pk_ingress_source_age_p95_micros s) (pk_ingress_source_age_p99_micros s)
    (pk_ingress_source_age_max_micros s) (pk_precise_position_message_count s)
    (pk_authoritative_position_count s) (pk_position_discontinuity_count s)
    (pk_timing_generation s) (pk_timing_observations s) (pk_precise_position_observations s).

Definition set_pk_source_status (x : DeckSourceStatus) (s : ProLinkDeckSourceProvider) : ProLinkDeckSourceProvider :=
  mkProLink (pk_source_id s) (pk_sequence s) (pk_next_track_load_id s) (pk_decks s) (pk_devices
    s) (pk_signatures s) (pk_leader_deck_id s) (pk_pending_events s) x
    (pk_received_message_count s) (pk_ignored_message_count s) (pk_last_bridge_sequence s)
    (pk_bridge_version s) (pk_beat_link_version s) (pk_last_error s) (pk_ingress_queue_capacity
    s) (pk_ingress_queue_depth s) (pk_ingress_queue_high_water s)
    (pk_ingress_coalesced_message_count s) (pk_ingress_critical_saturation_count s)
    (pk_ingress_source_age_sample_count s) (pk_ingress_source_age_p50_micros s)
    (pk_ingress_source_age_p95_micros s) (pk_ingress_source_age_p99_micros s)
    (pk_ingress_source_age_max_micros s) (pk_precise_position_message_count s)
    (pk_authoritative_position_count s) (pk_position_discontinuity_count s)
    (pk_timing_generation s) (pk_timing_observations s) (pk_precise_position_observations s).

Definition set_pk_received_message_count (x : Z) (s : ProLinkDeckSourceProvider) : ProLinkDeckSourceProvider :=
  mkProLink (pk_source_id s) (pk_sequence s) (pk_next_track_load_id s) (pk_decks s) (pk_devices
    s) (pk_signatures s) (pk_leader_deck_id s) (pk_pending_events s) (pk_source_status s) x
    (pk_ignored_message_count s) (pk_last_bridge_sequence s) (pk_bridge_version s)
    (pk_beat_link_version s) (pk_last_error s) (pk_ingress_queue_capacity s)
    (pk_ingress_queue_depth s) (pk_ingress_queue_high_water s)
    (pk_ingress_coalesced_message_count s) (pk_ingress_critical_saturation_count s)
    (pk_ingress_source_age_sample_count s) (pk_ingress_source_age_p50_micros s)
    (pk_ingress_source_age_p95_micros s) (pk_ingress_source_age_p99_micros s)
    (pk_ingress_source_age_max_micros s) (pk_precise_position_message_count s)
    (pk_authoritative_position_count s) (pk_position_discontinuity_count s)
    (pk_timing_generation s) (pk_timing_observations s) (pk_precise_position_observations s).

Definition set_pk_last_bridge_sequence (x : option Z) (s : ProLinkDeckSourceProvider) : ProLinkDeckSourceProvider :=
  mkProLink (pk_source_id s) (pk_sequence s) (pk_next_track_load_id s) (pk_decks s) (pk_devices
    s) (pk_signatures s) (pk_leader_deck_id s) (pk_pending_events s) (pk_source_status s)
    (pk_received_message_count s) (pk_ignored_message_count s) x (pk_bridge_version s)
    (pk_beat_link_version s) (pk_last_error s) (pk_ingress_queue_capacity s)
    (pk_ingress_queue_depth s) (pk_ingress_queue_high_water s)
    (pk_ingress_coalesced_message_count s) (pk_ingress_critical_saturation_count s)
    (pk_ingress_source_age_sample_count s) (pk_ingress_source_age_p50_micros s)
    (pk_ingress_source_age_p95_micros s) (pk_ingress_source_age_p99_micros s)
    (pk_ingress_source_age_max_micros s) (pk_precise_position_message_count s)
    (pk_authoritative_position_count s) (pk_position_discontinuity_count s)
    (pk_timing_generation s) (pk_timing_observations s) (pk_precise_position_observations s).

Definition set_pk_bridge_version (x : option str) (s : ProLinkDeckSourceProvider) : ProLinkDeckSourceProvider :=
  mkProLink (pk_source_id s) (pk_sequence s) (pk_next_track_load_id s) (pk_decks s) (pk_devices
    s) (pk_signatures s) (pk_leader_deck_id s) (pk_pending_events s) (pk_source_status s)
    (pk_received_message_count s) (pk_ignored_message_count s) (pk_last_bridge_sequence s) x
    (pk_beat_link_version s) (pk_last_error s) (pk_ingress_queue_capacity s)
    (pk_ingress_queue_depth s) (pk_ingress_queue_high_water s)
    (pk_ingress_coalesced_message_count s) (pk_ingress_critical_saturation_count s)
    (pk_ingress_source_age_sample_count s) (pk_ingress_source_age_p50_micros s)
    (pk_ingress_source_age_p95_micros s) (pk_ingress_source_age_p99_micros s)
    (pk_ingress_source_age_max_micros s) (pk_precise_position_message_count s)
    (pk_authoritative_position_count s) (pk_position_discontinuity_count s)
    (pk_timing_generation s) (pk_timing_observations s) (pk_precise_position_observations s).

Definition set_pk_beat_link_version (x : option str) (s : ProLinkDeckSourceProvider) : ProLinkDeckSourceProvider :=
  mkProLink (pk_source_id s) (pk_sequence s) (pk_next_track_load_id s) (pk_decks s) (pk_devices
    s) (pk_signatures s) (pk_leader_deck_id s) (pk_pending_events s) (pk_source_status s)
    (pk_received_message_count s) (pk_ignored_message_count s) (pk_last_bridge_sequence s)
    (pk_bridge_version s) x (pk_last_error s) (pk_ingress_queue_capacity s)
    (pk_ingress_queue_depth s) (pk_ingress_queue_high_water s)
    (pk_ingress_coalesced_message_count s) (pk_ingress_critical_saturation_count s)
    (pk_ingress_source_age_sample_count s) (pk_ingress_source_age_p50_micros s)
    (pk_ingress_source_age_p95_micros s) (pk_ingress_source_age_p99_micros s)
    (pk_ingress_source_age_max_micros s) (pk_precise_position_message_count s)
    (pk_authoritative_position_count s) (pk_position_discontinuity_count s)
    (pk_timing_generation s) (pk_timing_observations s) (pk_precise_position_observations s).

Definition set_pk_last_error (x : option str) (s : ProLinkDeckSourceProvider) : ProLinkDeckSourceProvider :=
  mkProLink (pk_source_id s) (pk_sequence s) (pk_next_track_load_id s) (pk_decks s) (pk_devices
    s) (pk_signatures s) (pk_leader_deck_id s) (pk_pending_events s) (pk_source_status s)
    (pk_received_message_count s) (pk_ignored_message_count s) (pk_last_bridge_sequence s)
    (pk_bridge_version s) (pk_beat_link_version s) x (pk_ingress_queue_capacity s)
    (pk_ingress_queue_depth s) (pk_ingress_queue_high_water s)
    (pk_ingress_coalesced_message_count s) (pk_ingress_critical_saturation_count s)
    (pk_ingress_source_age_sample_count s) (pk_ingress_source_age_p50_micros s)
    (pk_ingress_source_age_p95_micros s) (pk_ingress_source_age_p99_micros s)
    (pk_ingress_source_age_max_micros s) (pk_precise_position_message_count s)
    (pk_authoritative_position_count s) (pk_position_discontinuity_count s)
    (pk_timing_generation s) (pk_timing_observations s) (pk_precise_position_observations s).

Definition set_pk_ingress_queue_capacity (x : nat) (s : ProLinkDeckSourceProvider) : ProLinkDeckSourceProvider :=
  mkProLink (pk_source_id s) (pk_sequence s) (pk_next_track_load_id s) (pk_decks s) (pk_devices
    s) (pk_signatures s) (pk_leader_deck_id s) (pk_pending_events s) (pk_source_status s)
    (pk_received_message_count s) (pk_ignored_message_count s) (pk_last_bridge_sequence s)
    (pk_bridge_version s) (pk_beat_link_version s) (pk_last_error s) x (pk_ingress_queue_depth
    s) (pk_ingress_queue_high_water s) (pk_ingress_coalesced_message_count s)
    (pk_ingress_critical_saturation_count s) (pk_ingress_source_age_sample_count s)
    (pk_ingress_source_age_p50_micros s) (pk_ingress_source_age_p95_micros s)
    (pk_ingress_source_age_p99_micros s) (pk_ingress_source_age_max_micros s)
    (pk_precise_position_message_count s) (pk_authoritative_position_count s)
    (pk_position_discontinuity_count s) (pk_timing_generation s) (pk_timing_observations s)
    (pk_precise_position_observations s).

Definition set_pk_ingress_queue_depth (x : nat) (s : ProLinkDeckSourceProvider) : ProLinkDeckSourceProvider :=
  mkProLink (pk_source_id s) (pk_sequence s) (pk_next_track_load_id s) (pk_decks s) (pk_devices
    s) (pk_signatures s) (pk_leader_deck_id s) (pk_pending_events s) (pk_source_status s)
    (pk_received_message_count s) (pk_ignored_message_count s) (pk_last_bridge_sequence s)
    (pk_bridge_version s) (pk_beat_link_version s) (pk_last_error s) (pk_ingress_queue_capacity
    s) x (pk_ingress_queue_high_water s) (pk_ingress_coalesced_message_count s)
    (pk_ingress_critical_saturation_count s) (pk_ingress_source_age_sample_count s)
    (pk_ingress_source_age_p50_micros s) (pk_ingress_source_age_p95_micros s)
    (pk_ingress_source_age_p99_micros s) (pk_ingress_source_age_max_micros s)
    (pk_precise_position_message_count s) (pk_authoritative_position_count s)
    (pk_position_discontinuity_count s) (pk_timing_generation s) (pk_timing_observations s)
    (pk_precise_position_observations s).

Definition set_pk_ingress_queue_high_water (x : nat) (s : ProLinkDeckSourceProvider) : ProLinkDeckSourceProvider :=
  mkProLink (pk_source_id s) (pk_sequence s) (pk_next_track_load_id s) (pk_decks s) (pk_devices
    s) (pk_signatures s) (pk_leader_deck_id s) (pk_pending_events s) (pk_source_status s)
    (pk_received_message_count s) (pk_ignored_message_count s) (pk_last_bridge_sequence s)
    (pk_bridge_version s) (pk_beat_link_version s) (pk_last_error s) (pk_ingress_queue_capacity
    s) (pk_ingress_queue_depth s) x (pk_ingress_coalesced_message_count s)
    (pk_ingress_critical_saturation_count s) (pk_ingress_source_age_sample_count s)
    (pk_ingress_source_age_p50_micros s) (pk_ingress_source_age_p95_micros s)
    (pk_ingress_source_age_p99_micros s) (pk_ingress_source_age_max_micros s)
    (pk_precise_position_message_count s) (pk_authoritative_position_count s)
    (pk_position_discontinuity_count s) (pk_timing_generation s) (pk_timing_observations s)
    (pk_precise_position_observations s).

Definition set_pk_ingress_coalesced_message_count (x : Z) (s : ProLinkDeckSourceProvider) : ProLinkDeckSourceProvider :=
  mkProLink (pk_source_id s) (pk_sequence s) (pk_next_track_load_id s) (pk_decks s) (pk_devices
    s) (pk_signatures s) (pk_leader_deck_id s) (pk_pending_events s) (pk_source_status s)
    (pk_received_message_count s) (pk_ignored_message_count s) (pk_last_bridge_sequence s)
    (pk_bridge_version s) (pk_beat_link_version s) (pk_last_error s) (pk_ingress_queue_capacity
    s) (pk_ingress_queue_depth s) (pk_ingress_queue_high_water s) x
    (pk_ingress_critical_saturation_count s) (pk_ingress_source_age_sample_count s)
    (pk_ingress_source_age_p50_micros s) (pk_ingress_source_age_p95_micros s)
    (pk_ingress_source_age_p99_micros s) (pk_ingress_source_age_max_micros s)
    (pk_precise_position_message_count s) (pk_authoritative_position_count s)
    (pk_position_discontinuity_count s) (pk_timing_generation s) (pk_timing_observations s)
    (pk_precise_position_observations s).

Definition set_pk_ingress_critical_saturation_count (x : Z) (s : ProLinkDeckSourceProvider) : ProLinkDeckSourceProvider :=
  mkProLink (pk_source_id s) (pk_sequence s) (pk_next_track_load_id s) (pk_decks s) (pk_devices
    s) (pk_signatures s) (pk_leader_deck_id s) (pk_pending_events s) (pk_source_status s)
    (pk_received_message_count s) (pk_ignored_message_count s) (pk_last_bridge_sequence s)
    (pk_bridge_version s) (pk_beat_link_version s) (pk_last_error s) (pk_ingress_queue_capacity
    s) (pk_ingress_queue_depth s) (pk_ingress_queue_high_water s)
    (pk_ingress_coalesced_message_count s) x (pk_ingress_source_age_sample_count s)
    (pk_ingress_source_age_p50_micros s) (pk_ingress_source_age_p95_micros s)
    (pk_ingress_source_age_p99_micros s) (pk_ingress_source_age_max_micros s)
    (pk_precise_position_message_count s) (pk_authoritative_position_count s)
    (pk_position_discontinuity_count s) (pk_timing_generation s) (pk_timing_observations s)
    (pk_precise_position_observations s).

Definition set_pk_ingress_source_age_sample_count (x : Z) (s : ProLinkDeckSourceProvider) : ProLinkDeckSourceProvider :=
  mkProLink (pk_source_id s) (pk_sequence s) (pk_next_track_load_id s) (pk_decks s) (pk_devices
    s) (pk_signatures s) (pk_leader_deck_id s) (pk_pending_events s) (pk_source_status s)
    (pk_received_message_count s) (pk_ignored_message_count s) (pk_last_bridge_sequence s)
    (pk_bridge_version s) (pk_beat_link_version s) (pk_last_error s) (pk_ingress_queue_capacity
    s) (pk_ingress_queue_depth s) (pk_ingress_queue_high_water s)
    (pk_ingress_coalesced_message_count s) (pk_ingress_critical_saturation_count s) x
    (pk_ingress_source_age_p50_micros s) (pk_ingress_source_age_p95_micros s)
    (pk_ingress_source_age_p99_micros s) (pk_ingress_source_age_max_micros s)
    (pk_precise_position_message_count s) (pk_authoritative_position_count s)
    (pk_position_discontinuity_count s) (pk_timing_generation s) (pk_timing_observations s)
    (pk_precise_position_observations s).

Definition set_pk_ingress_source_age_p50_micros (x : Z) (s : ProLinkDeckSourceProvider) : ProLinkDeckSourceProvider :=
  mkProLink (pk_source_id s) (pk_sequence s) (pk_next_track_load_id s) (pk_decks s) (pk_devices
    s) (pk_signatures s) (pk_leader_deck_id s) (pk_pending_events s) (pk_source_status s)
    (pk_received_message_count s) (pk_ignored_message_count s) (pk_last_bridge_sequence s)
    (pk_bridge_version s) (pk_beat_link_version s) (pk_last_error s) (pk_ingress_queue_capacity
    s) (pk_ingress_queue_depth s) (pk_ingress_queue_high_water s)
    (pk_ingress_coalesced_message_count s) (pk_ingress_critical_saturation_count s)
    (pk_ingress_source_age_sample_count s) x (pk_ingress_source_age_p95_micros s)
    (pk_ingress_source_age_p99_micros s) (pk_ingress_source_age_max_micros s)
    (pk_precise_position_message_count s) (pk_authoritative_position_count s)
    (pk_position_discontinuity_count s) (pk_timing_generation s) (pk_timing_observations s)
    (pk_precise_position_observations s).

Definition set_pk_ingress_source_age_p95_micros (x : Z) (s : ProLinkDeckSourceProvider) : ProLinkDeckSourceProvider :=
  mkProLink (pk_source_id s) (pk_sequence s) (pk_next_track_load_id s) (pk_decks s) (pk_devices
    s) (pk_signatures s) (pk_leader_deck_id s) (pk_pending_events s) (pk_source_status s)
    (pk_received_message_count s) (pk_ignored_message_count s) (pk_last_bridge_sequence s)
    (pk_bridge_version s) (pk_beat_link_version s) (pk_last_error s) (pk_ingress_queue_capacity
    s) (pk_ingress_queue_depth s) (pk_ingress_queue_high_water s)
    (pk_ingress_coalesced_message_count s) (pk_ingress_critical_saturation_count s)
    (pk_ingress_source_age_sample_count s) (pk_ingress_source_age_p50_micros s) x
    (pk_ingress_source_age_p99_micros s) (pk_ingress_source_age_max_micros s)
    (pk_precise_position_message_count s) (pk_authoritative_position_count s)
    (pk_position_discontinuity_count s) (pk_timing_generation s) (pk_timing_observations s)
    (pk_precise_position_observations s).

Definition set_pk_ingress_source_age_p99_micros (x : Z) (s : ProLinkDeckSourceProvider) : ProLinkDeckSourceProvider :=
  mkProLink (pk_source_id s) (pk_sequence s) (pk_next_track_load_id s) (pk_decks s) (pk_devices
    s) (pk_signatures s) (pk_leader_deck_id s) (pk_pending_events s) (pk_source_status s)
    (pk_received_message_count s) (pk_ignored_message_count s) (pk_last_bridge_sequence s)
    (pk_bridge_version s) (pk_beat_link_version s) (pk_last_error s) (pk_ingress_queue_capacity
    s) (pk_ingress_queue_depth s) (pk_ingress_queue_high_water s)
    (pk_ingress_coalesced_message_count s) (pk_ingress_critical_saturation_count s)
    (pk_ingress_source_age_sample_count s) (pk_ingress_source_age_p50_micros s)
    (pk_ingress_source_age_p95_micros s) x (pk_ingress_source_age_max_micros s)
    (pk_precise_position_message_count s) (pk_authoritative_position_count s)
    (pk_position_discontinuity_count s) (pk_timing_generation s) (pk_timing_observations s)
    (pk_precise_position_observations s).

Definition set_pk_ingress_source_age_max_micros (x : Z) (s : ProLinkDeckSourceProvider) : ProLinkDeckSourceProvider :=
  mkProLink (pk_source_id s) (pk_sequence s) (pk_next_track_load_id s) (pk_decks s) (pk_devices
    s) (pk_signatures s) (pk_leader_deck_id s) (pk_pending_events s) (pk_source_status s)
    (pk_received_message_count s) (pk_ignored_message_count s) (pk_last_bridge_sequence s)
    (pk_bridge_version s) (pk_beat_link_version s) (pk_last_error s) (pk_ingress_queue_capacity
    s) (pk_ingress_queue_depth s) (pk_ingress_queue_high_water s)
    (pk_ingress_coalesced_message_count s) (pk_ingress_critical_saturation_count s)
    (pk_ingress_source_age_sample_count s) (pk_ingress_source_age_p50_micros s)
    (pk_ingress_source_age_p95_micros s) (pk_ingress_source_age_p99_micros s) x
    (pk_precise_position_message_count s) (pk_authoritative_position_count s)
    (pk_position_discontinuity_count s) (pk_timing_generation s) (pk_timing_observations s)
    (pk_precise_position_observations s).

Definition set_pk_precise_position_message_count (x : Z) (s : ProLinkDeckSourceProvider) : ProLinkDeckSourceProvider :=
  mkProLink (pk_source_id s) (pk_sequence s) (pk_next_track_load_id s) (pk_decks s) (pk_devices
    s) (pk_signatures s) (pk_leader_deck_id s) (pk_pending_events s) (pk_source_status s)
    (pk_received_message_count s) (pk_ignored_message_count s) (pk_last_bridge_sequence s)
    (pk_bridge_version s) (pk_beat_link_version s) (pk_last_error s) (pk_ingress_queue_capacity
    s) (pk_ingress_queue_depth s) (pk_ingress_queue_high_water s)
    (pk_ingress_coalesced_message_count s) (pk_ingress_critical_saturation_count s)
    (pk_ingress_source_age_sample_count s) (pk_ingress_source_age_p50_micros s)
    (pk_ingress_source_age_p95_micros s) (pk_ingress_source_age_p99_micros s)
    (pk_ingress_source_age_max_micros s) x (pk_authoritative_position_count s)
    (pk_position_discontinuity_count s) (pk_timing_generation s) (pk_timing_observations s)
    (pk_precise_position_observations s).

Definition set_pk_authoritative_position_count (x : Z) (s : ProLinkDeckSourceProvider) : ProLinkDeckSourceProvider :=
  mkProLink (pk_source_id s) (pk_sequence s) (pk_next_track_load_id s) (pk_decks s) (pk_devices
    s) (pk_signatures s) (pk_leader_deck_id s) (pk_pending_events s) (pk_source_status s)
    (pk_received_message_count s) (pk_ignored_message_count s) (pk_last_bridge_sequence s)
    (pk_bridge_version s) (pk_beat_link_version s) (pk_last_error s) (pk_ingress_queue_capacity
    s) (pk_ingress_queue_depth s) (pk_ingress_queue_high_water s)
    (pk_ingress_coalesced_message_count s) (pk_ingress_critical_saturation_count s)
    (pk_ingress_source_age_sample_count s) (pk_ingress_source_age_p50_micros s)
    (pk_ingress_source_age_p95_micros s) (pk_ingress_source_age_p99_micros s)
    (pk_ingress_source_age_max_micros s) (pk_precise_position_message_count s) x
    (pk_position_discontinuity_count s) (pk_timing_generation s) (pk_timing_observations s)
    (pk_precise_position_observations s).

Definition set_pk_position_discontinuity_count (x : Z) (s : ProLinkDeckSourceProvider) : ProLinkDeckSourceProvider :=
  mkProLink (pk_source_id s) (pk_sequence s) (pk_next_track_load_id s) (pk_decks s) (pk_devices
    s) (pk_signatures s) (pk_leader_deck_id s) (pk_pending_events s) (pk_source_status s)
    (pk_received_message_count s) (pk_ignored_message_count s) (pk_last_bridge_sequence s)
    (pk_bridge_version s) (pk_beat_link_version s) (pk_last_error s) (pk_ingress_queue_capacity
    s) (pk_ingress_queue_depth s) (pk_ingress_queue_high_water s)
    (pk_ingress_coalesced_message_count s) (pk_ingress_critical_saturation_count s)
    (pk_ingress_source_age_sample_count s) (pk_ingress_source_age_p50_micros s)
    (pk_ingress_source_age_p95_micros s) (pk_ingress_source_age_p99_micros s)
    (pk_ingress_source_age_max_micros s) (pk_precise_position_message_count s)
    (pk_authoritative_position_count s) x (pk_timing_generation s) (pk_timing_observations s)
    (pk_precise_position_observations s).

Definition set_pk_timing_generation (x : Z) (s : ProLinkDeckSourceProvider) : ProLinkDeckSourceProvider :=
  mkProLink (pk_source_id s) (pk_sequence s) (pk_next_track_load_id s) (pk_decks s) (pk_devices
    s) (pk_signatures s) (pk_leader_deck_id s) (pk_pending_events s) (pk_source_status s)
    (pk_received_message_count s) (pk_ignored_message_count s) (pk_last_bridge_sequence s)
    (pk_bridge_version s) (pk_beat_link_version s) (pk_last_error s) (pk_ingress_queue_capacity
    s) (pk_ingress_queue_depth s) (pk_ingress_queue_high_water s)
    (pk_ingress_coalesced_message_count s) (pk_ingress_critical_saturation_count s)
    (pk_ingress_source_age_sample_count s) (pk_ingress_source_age_p50_micros s)
    (pk_ingress_source_age_p95_micros s) (pk_ingress_source_age_p99_micros s)
    (pk_ingress_source_age_max_micros s) (pk_precise_position_message_count s)
    (pk_authoritative_position_count s) (pk_position_discontinuity_count s) x
    (pk_timing_observations s) (pk_precise_position_observations s).

Definition set_pk_timing_observations (x : list ProLinkTimingObservation) (s : ProLinkDeckSourceProvider) : ProLinkDeckSourceProvider :=
  mkProLink (pk_source_id s) (pk_sequence s) (pk_next_track_load_id s) (pk_decks s) (pk_devices
    s) (pk_signatures s) (pk_leader_deck_id s) (pk_pending_events s) (pk_source_status s)
    (pk_received_message_count s) (pk_ignored_message_count s) (pk_last_bridge_sequence s)
    (pk_bridge_version s) (pk_beat_link_version s) (pk_last_error s) (pk_ingress_queue_capacity
    s) (pk_ingress_queue_depth s) (pk_ingress_queue_high_water s)
    (pk_ingress_coalesced_message_count s) (pk_ingress_critical_saturation_count s)
    (pk_ingress_source_age_sample_count s) (pk_ingress_source_age_p50_micros s)
    (pk_ingress_source_age_p95_micros s) (pk_ingress_source_age_p99_micros s)
    (pk_ingress_source_age_max_micros s) (pk_precise_position_message_count s)
    (pk_authoritative_position_count s) (pk_position_discontinuity_count s)
    (pk_timing_generation s) x (pk_precise_position_observations s).

Definition set_pk_precise_position_observations (x : list ProLinkPrecisePositionObservation) (s : ProLinkDeckSourceProvider) : ProLinkDeckSourceProvider :=
  mkProLink (pk_source_id s) (pk_sequence s) (pk_next_track_load_id s) (pk_decks s) (pk_devices
    s) (pk_signatures s) (pk_leader_deck_id s) (pk_pending_events s) (pk_source_status s)
    (pk_received_message_count s) (pk_ignored_message_count s) (pk_last_bridge_sequence s)
    (pk_bridge_version s) (pk_beat_link_version s) (pk_last_error s) (pk_ingress_queue_capacity
    s) (pk_ingress_queue_depth s) (pk_ingress_queue_high_water s)
    (pk_ingress_coalesced_message_count s) (pk_ingress_critical_saturation_count s)
    (pk_ingress_source_age_sample_count s) (pk_ingress_source_age_p50_micros s)
    (pk_ingress_source_age_p95_micros s) (pk_ingress_source_age_p99_micros s)
    (pk_ingress_source_age_max_micros s) (pk_precise_position_message_count s)
    (pk_authoritative_position_count s) (pk_position_discontinuity_count s)
    (pk_timing_generation s) (pk_timing_observations s) x.

(** ** Beats and positions *)

(** [min_by_key]: the first of the least elements. *)
Definition min_by_key {A} (key : A → Z) (l : list A) : option A :=
  foldl (λ best x, match best with
                   | None => Some x
                   | Some b => if key x <? key b then Some x else Some b
                   end) None l.

(** [saturating_sub] of any unsigned width. *)
Definition saturating_sub_unsigned (a b : Z) : Z := Z.max 0 (a - b).
Definition abs_diff (a b : Z) : Z := Z.abs (a - b).

Definition source_status (condition : SourceCondition) : DeckSourceStatus :=
  match condition with
  | ConditionStarting | ConditionDiscovering => SourceStarting
  | ConditionReady => SourceReady
  | ConditionDegraded => SourceDegraded
  | ConditionStopped => SourceDisconnected
  end.

Definition bpm_milli (bpm : f64) : result Z ProLinkProviderError :=
  let milli := f64_round (f64_mul bpm (f64_of_Z 1000)) in
  if negb (f64_leb (f64_of_Z 20000) milli && f64_leb milli (f64_of_Z 300000))
  then Err (PLInvalidBpm bpm)
  else Ok (f64_as_u32 milli).

Definition placeholder_duration_beats (bpm_milli current_beat : Z) : Z :=
  let ten_minutes := saturating_mul_u32 bpm_milli DEFAULT_TRACK_MINUTES / 1000 in
  Z.max ten_minutes (saturating_add_u32 current_beat 1).

Definition track_identity_key (identity : ProLinkTrackIdentity) : Z :=
  Z.lor (Z.shiftl (pti_source_player identity) 56) (pti_rekordbox_id identity).

Definition phrase_index_at (metadata : TrackMetadata) (beat : Z) : option Z :=
  tp_index <$>
    match List.find (λ phrase, (tp_start_beat phrase <=? beat) && (beat <? tp_end_beat phrase))
            (tm_phrases metadata) with
    | Some phrase => Some phrase
    | None =>
        match last (tm_phrases metadata) with
        | Some phrase => if tp_start_beat phrase <=? beat then Some phrase else None
        | None => None
        end
    end.

(** The beat with the remainder that is nearest to the reference. *)
Definition nearest_in_bar (reference remainder otherwise : Z) : Z :=
  let base := saturating_add_u32 (saturating_sub_unsigned reference (reference mod 4)) remainder in
  default otherwise
    (min_by_key (λ candidate, abs_diff candidate reference)
       [saturating_sub_unsigned base 4; base; saturating_add_u32 base 4]).

Definition bar_remainder (beat_within_bar : Z) : Z := Z.min (saturating_sub_unsigned beat_within_bar 1) 3.

Definition precise_absolute_beat (status_beat : Z) (previous_precise_beat : option Z)
    (beat_within_bar : Z) : Z :=
  let reference := match previous_precise_beat with
                   | None => status_beat
                   | Some beat => Z.max status_beat (saturating_add_u32 beat 1)
                   end in
  nearest_in_bar reference (bar_remainder beat_within_bar) status_beat.

Definition align_beat_within_bar (reference beat_within_bar : Z) : Z :=
  nearest_in_bar reference (bar_remainder beat_within_bar) reference.

Definition position_is_discontinuous (previous_beat candidate_beat previous_observed_at_nanos
    observed_at_nanos effective_bpm_milli : Z) (playing : bool) : bool :=
  if negb playing then negb (previous_beat =? candidate_beat)
  else
    let elapsed_nanos := saturating_sub_unsigned observed_at_nanos previous_observed_at_nanos in
    let expected_progress :=
      f64_div (f64_div (f64_mul (f64_of_Z elapsed_nanos) (f64_of_Z effective_bpm_milli))
                 (f64_of_Z 1000)) (f64_of_Z 60000000000) in
    let expected_beat := f64_add (f64_of_Z previous_beat) expected_progress in
    f64_ltb (f64_add (f64_of_Z candidate_beat) POSITION_CONTINUITY_TOLERANCE_BEATS)
      (f64_of_Z previous_beat)
    || f64_ltb (f64_add expected_beat POSITION_CONTINUITY_TOLERANCE_BEATS) (f64_of_Z candidate_beat).

(** [checked_div] by a divisor that is at least one. *)
Definition position_millis_is_discontinuous (previous_position_millis : option Z)
    (candidate_position_millis : Z) (previous_observed_at_nanos : option Z)
    (observed_at_nanos track_bpm_milli effective_bpm_milli : Z) (playing : bool) : bool :=
  match previous_position_millis, previous_observed_at_nanos with
  | Some previous_position_millis, Some previous_observed_at_nanos =>
      if negb playing then negb (previous_position_millis =? candidate_position_millis)
      else if candidate_position_millis <? previous_position_millis then true
      else
        let elapsed_millis :=
          saturating_sub_unsigned observed_at_nanos previous_observed_at_nanos / 1000000 in
        let expected_progress :=
          Z.min (elapsed_millis * effective_bpm_milli / Z.max track_bpm_milli 1) U64_MAX in
        let expected := saturating_add_u64 previous_position_millis expected_progress in
        saturating_add_u64 expected PRECISE_POSITION_FORWARD_SEEK_TOLERANCE_MILLIS
          <? candidate_position_millis
  | _, _ => false
  end.

Definition saturating_add_u8 (a b : Z) : Z := Z.min (a + b) U8_MAX.

Definition confirmed_precise_discontinuity (pending : option PendingPreciseDiscontinuity)
    (candidate : PrecisePositionCandidate) : PendingPreciseDiscontinuity :=
  let confirmation_count :=
    match pending with
    | Some pending =>
        if (abs_diff (ppd_absolute_beat pending) (ppc_absolute_beat candidate) <=? 1)
           && negb (position_millis_is_discontinuous (Some (ppd_playback_position_millis pending))
                (ppc_playback_position_millis candidate) (Some (ppd_observed_at_nanos pending))
                (ppc_observed_at_nanos candidate) (ppc_track_bpm_milli candidate)
                (ppc_effective_bpm_milli candidate) (ppc_playing candidate))
        then saturating_add_u8 (ppd_confirmation_count pending) 1
        else 1
    | None => 1
    end in
  mkPendingPreciseDiscontinuity (ppc_playback_position_millis candidate)
    (ppc_absolute_beat candidate) (ppc_observed_at_nanos candidate) confirmation_count.

Definition status_timeline_matches (status_beat status_observed_at_nanos absolute_beat
    observed_at_nanos : Z) : bool :=
  (abs_diff status_beat absolute_beat <=? PRECISE_POSITION_STATUS_TOLERANCE_BEATS)
  && (abs_diff observed_at_nanos status_observed_at_nanos <=? STATUS_DISCONTINUITY_MAX_AGE_NANOS).

Definition status_corroborates_discontinuity (status : option StatusDiscontinuity)
    (absolute_beat observed_at_nanos : Z) : bool :=
  option_is_some_and (λ status,
    (abs_diff (sd_absolute_beat status) absolute_beat <=? PRECISE_POSITION_STATUS_TOLERANCE_BEATS)
    && (abs_diff observed_at_nanos (sd_observed_at_nanos status)
        <=? STATUS_DISCONTINUITY_MAX_AGE_NANOS)) status.

Definition status_jump_can_be_discontinuity (previous_beat candidate_beat : Z) : bool :=
  (previous_beat <=? candidate_beat)
  || (STATUS_BACKWARD_JITTER_MAX_BEATS <? abs_diff previous_beat candidate_beat).

Definition status_discontinuity_is_still_supported (candidate : StatusDiscontinuity)
    (current_beat observed_at_nanos : Z) : bool :=
  (abs_diff (sd_absolute_beat candidate) current_beat <=? PRECISE_POSITION_STATUS_TOLERANCE_BEATS)
  && (abs_diff observed_at_nanos (sd_observed_at_nanos candidate)
      <=? STATUS_DISCONTINUITY_MAX_AGE_NANOS).

Definition advance_confirmed_status_landing (candidate : StatusDiscontinuity)
    (previous_beat previous_observed_at_nanos beat observed_at_nanos bpm_milli : Z) :
    option StatusDiscontinuity :=
  if (observed_at_nanos <? previous_observed_at_nanos)
     || negb (status_discontinuity_is_still_supported candidate previous_beat
                previous_observed_at_nanos)
     || (STATUS_DISCONTINUITY_MAX_AGE_NANOS
           <? abs_diff observed_at_nanos (sd_observed_at_nanos candidate))
     || (beat <? previous_beat)
     || position_is_discontinuous previous_beat beat previous_observed_at_nanos observed_at_nanos
          bpm_milli true
  then None
  else Some (mkStatusDiscontinuity beat (sd_observed_at_nanos candidate)).

Definition confirmed_status_discontinuity (pending : option PendingStatusDiscontinuity)
    (absolute_beat observed_at_nanos effective_bpm_milli : Z) : PendingStatusDiscontinuity :=
  let confirmation_count :=
    match pending with
    | Some pending =>
        if negb (position_is_discontinuous (psd_absolute_beat pending) absolute_beat
                   (psd_observed_at_nanos pending) observed_at_nanos effective_bpm_milli true)
        then saturating_add_u8 (psd_confirmation_count pending) 1
        else 1
    | None => 1
    end in
  mkPendingStatusDiscontinuity absolute_beat observed_at_nanos confirmation_count.

(** ** The building blocks of the methods *)

Notation prolink A := (method ProLinkDeckSourceProvider ProLinkProviderError A).

Implicit Types p : ProLinkDeckSourceProvider.

Definition when {S E} (b : bool) (m : method S E unit) : method S E unit :=
  if b then m else method_ret tt.

Definition prolink_emit (at_ : MonotonicTime) (observation : DeckObservation) : prolink unit :=
  let! sequence := method_get pk_sequence in
  let! sequence := method_result (ok_or (checked_add_u64 sequence 1) PLSequenceOverflow) in
  do! method_modify (set_pk_sequence sequence) then
  method_modify (λ p, set_pk_pending_events
    (pk_pending_events p ++
       [Observation (mkObservationEnvelope (pk_source_id p) (pk_sequence p) at_ observation)]) p).

Definition advance_timing_generation : prolink unit :=
  let! generation := method_get pk_timing_generation in
  let! generation := method_result (ok_or (checked_add_u64 generation 1) PLTimingGenerationOverflow) in
  method_modify (set_pk_timing_generation generation).

(** [if let Some(deck) = self.decks.get_mut(&deck_id)] *)
Definition on_loaded (deck_id : DeckId) (f : LoadedDeck → LoadedDeck) : prolink unit :=
  method_modify (λ p, set_pk_decks (alter f deck_id (pk_decks p)) p).

Definition push_timing (observation : ProLinkTimingObservation) : prolink unit :=
  method_modify (λ p, set_pk_timing_observations (pk_timing_observations p ++ [observation]) p).

Definition unload_deck (deck_id : DeckId) (at_ : MonotonicTime) : prolink unit :=
  let! previous := method_get (λ p, pk_decks p !! deck_id) in
  do! (match previous with
       | Some previous =>
           do! method_modify (λ p, set_pk_decks (delete deck_id (pk_decks p)) p) then
           prolink_emit at_ (TrackUnloaded deck_id (pd_track_load_id previous))
       | None => method_ret tt
       end) then
  method_modify (λ p, if bool_decide (pk_leader_deck_id p = Some deck_id)
                      then set_pk_leader_deck_id None p else p).

Definition update_source_status (status : DeckSourceStatus) (at_ : MonotonicTime) : prolink unit :=
  let! previous := method_get pk_source_status in
  when (negb (bool_decide (previous = status)))
    (do! method_modify (set_pk_source_status status) then
     do! when (bool_decide (status = SourceReady)) (method_modify (set_pk_last_error None)) then
     prolink_emit at_ (SourceStatusChanged status)).

(** The decks of a list, one after the other. *)
Fixpoint unload_decks (deck_ids : list DeckId) (at_ : MonotonicTime) : prolink unit :=
  match deck_ids with
  | [] => method_ret tt
  | deck_id :: deck_ids => do! unload_deck deck_id at_ then unload_decks deck_ids at_
  end.

(** The decks in the order of the map. *)
Definition decks_in_order p : list (Z * LoadedDeck) := sort_by_key fst (map_to_list (pk_decks p)).

Definition prolink_clear (at_ : MonotonicTime) : prolink unit :=
  let! decks := method_get decks_in_order in
  do! unload_decks decks.*1 at_ then
  method_modify (set_pk_leader_deck_id None).

Definition invalidate_source_media (source_player : Z) (at_ : MonotonicTime) : prolink unit :=
  let! decks := method_get decks_in_order in
  unload_decks
    (List.filter (λ '(_, loaded), (pti_source_player (pd_identity loaded) =? source_player)
        && bool_decide (pti_source_slot (pd_identity loaded) = lit "USB_SLOT")) decks).*1 at_.

Definition mark_degraded (message : str) (at_ : MonotonicTime) : prolink unit :=
  do! method_modify (set_pk_last_error (Some message)) then
  update_source_status SourceDegraded at_.

(** ** Deck status *)

Section Methods.
Variable now : nat → Instant.

(** [signatures.get(&n).cloned().flatten()] *)
Definition signature_of p (device_number : Z) : option str :=
  match pk_signatures p !! device_number with Some signature => signature | None => None end.

Definition status_identity (status : DeckStatus) (signature : option str) : ProLinkTrackIdentity :=
  mkProLinkTrackIdentity (ds_rekordbox_id status) (ds_source_player status) (ds_source_slot status)
    signature.

Definition loaded_from_status (identity : ProLinkTrackIdentity) (track_load_id : TrackLoadId)
    (metadata : TrackMetadata) (beat observed_at_nanos effective_bpm_milli : Z) (playing : bool)
    (generation : Z) : LoadedDeck :=
  mkLoadedDeck identity track_load_id metadata beat beat observed_at_nanos None None None false
    None None None None None observed_at_nanos effective_bpm_milli playing generation (now 0).

(** Another track is on the deck: the old one is unloaded and the new one announced. *)
Definition load_from_status (status : DeckStatus) (identity : ProLinkTrackIdentity)
    (beat track_bpm_milli effective_bpm_milli observed_at_nanos : Z) (at_ : MonotonicTime) :
    prolink unit :=
  let deck_id := ds_device_number status in
  do! advance_timing_generation then
  do! unload_deck deck_id at_ then
  let! track_load_id := method_get pk_next_track_load_id in
  let! next := method_result (ok_or (checked_add_u64 track_load_id 1) PLTrackLoadIdOverflow) in
  do! method_modify (set_pk_next_track_load_id next) then
  let! metadata := method_result (map_err PLInvalidTrack
    (TrackMetadata_try_new_unanalyzed (track_identity_key identity)
       (lit "External track " ++ show_u (pti_rekordbox_id identity)) (ds_device_name status)
       track_bpm_milli (mkMusicalKey PitchC KeyMinor)
       (placeholder_duration_beats track_bpm_milli beat))) in
  do! method_modify (λ p, set_pk_decks (<[deck_id :=
        loaded_from_status identity track_load_id metadata beat observed_at_nanos
          effective_bpm_milli (ds_playing status) (pk_timing_generation p)]> (pk_decks p)) p) then
  do! prolink_emit at_ (TrackLoaded deck_id metadata track_load_id) then
  do! prolink_emit at_ (PlaybackPosition deck_id track_load_id beat) then
  do! when (negb (effective_bpm_milli =? track_bpm_milli))
        (prolink_emit at_ (PlaybackTempoChanged deck_id track_load_id effective_bpm_milli)) then
  prolink_emit at_ (PlaybackStateChanged deck_id track_load_id (ds_playing status)).

Definition stopped_seek (previous : LoadedDeck) (beat observed_at_nanos : Z) : bool :=
  negb (pd_playing previous) && negb (pd_beat previous =? beat)
  && position_is_discontinuous (pd_beat previous) beat (pd_last_position_observed_at_nanos previous)
       observed_at_nanos (pd_effective_bpm_milli previous) (pd_playing previous).

Definition status_jump (previous : LoadedDeck) (playing : bool) (beat observed_at_nanos : Z) : bool :=
  pd_playing previous && playing
  && status_jump_can_be_discontinuity (pd_last_status_beat previous) beat
  && position_is_discontinuous (pd_last_status_beat previous) beat
       (pd_last_status_observed_at_nanos previous) observed_at_nanos
       (pd_effective_bpm_milli previous) true.

(** The baseline of the status frames and the jump they confirm. *)
Definition status_baseline (previous : LoadedDeck) (candidate : bool)
    (beat observed_at_nanos effective_bpm_milli : Z) (deck : LoadedDeck) : LoadedDeck :=
  let accept deck := set_pd_pending_status_discontinuity None
    (set_pd_last_status_observed_at_nanos observed_at_nanos (set_pd_last_status_beat beat deck)) in
  if candidate then
    let pending := confirmed_status_discontinuity (pd_pending_status_discontinuity previous) beat
                     observed_at_nanos effective_bpm_milli in
    if STATUS_DISCONTINUITY_CONFIRMATIONS <=? psd_confirmation_count pending
    then set_pd_last_status_discontinuity (Some (mkStatusDiscontinuity beat observed_at_nanos))
           (accept deck)
    else set_pd_pending_status_discontinuity (Some pending) deck
  else
    set_pd_last_status_discontinuity
      (candidate ← pd_last_status_discontinuity previous;
       advance_confirmed_status_landing candidate (pd_last_status_beat previous)
         (pd_last_status_observed_at_nanos previous) beat observed_at_nanos effective_bpm_milli)
      (accept deck).

Definition after_status (previous : LoadedDeck) (playing seeked candidate discontinuity : bool)
    (beat observed_at_nanos effective_bpm_milli generation : Z) (deck : LoadedDeck) : LoadedDeck :=
  let deck := if seeked || negb (pd_playing previous) then set_pd_beat beat deck else deck in
  let deck := if seeked || (negb (pd_playing previous) && negb (pd_beat previous =? beat))
                 || negb (Bool.eqb (pd_playing previous) playing)
              then set_pd_transport_anchor_observed_at (now 0) deck else deck in
  let deck := set_pd_last_position_observed_at_nanos observed_at_nanos deck in
  let deck := status_baseline previous candidate beat observed_at_nanos effective_bpm_milli deck in
  let deck := set_pd_playing playing (set_pd_effective_bpm_milli effective_bpm_milli deck) in
  if discontinuity then set_pd_discontinuity_revision generation deck else deck.

(** What happened to the timing of a deck: the three flags of [apply_status]. *)
Record StatusFlags := mkStatusFlags {
  sf_discontinuity : bool;
  sf_stopped_timing_changed : bool;
  sf_playing_tempo_changed : bool;
}.

(** The track that is already on the deck. *)
Definition update_from_status (status : DeckStatus) (previous : LoadedDeck)
    (beat effective_bpm_milli observed_at_nanos : Z) (at_ : MonotonicTime) : prolink StatusFlags :=
  let deck_id := ds_device_number status in
  let load := pd_track_load_id previous in
  let playing := ds_playing status in
  let tempo_changed := negb (pd_effective_bpm_milli previous =? effective_bpm_milli) in
  do! when tempo_changed (prolink_emit at_ (PlaybackTempoChanged deck_id load effective_bpm_milli)) then
  let seeked := stopped_seek previous beat observed_at_nanos in
  let candidate := status_jump previous playing beat observed_at_nanos in
  do! when (negb (pd_beat previous =? beat))
        (if seeked then
           do! advance_timing_generation then
           prolink_emit at_ (PlaybackPositionSeeked deck_id load beat)
         else when (negb (pd_playing previous)) (prolink_emit at_ (PlaybackPosition deck_id load beat))) then
  let started := negb (pd_playing previous) && playing in
  do! when started advance_timing_generation then
  let toggled := negb (Bool.eqb (pd_playing previous) playing) in
  do! when toggled (prolink_emit at_ (PlaybackStateChanged deck_id load playing)) then
  let discontinuity := seeked || started in
  let! generation := method_get pk_timing_generation in
  do! on_loaded deck_id (after_status previous playing seeked candidate discontinuity beat
                           observed_at_nanos effective_bpm_milli generation) then
  method_ret (mkStatusFlags discontinuity (tempo_changed || seeked || toggled)
                (tempo_changed && pd_playing previous && playing)).

(** The deck that is the tempo master leads. *)
Definition follow_tempo_master (status : DeckStatus) (at_ : MonotonicTime) (flags : StatusFlags) :
    prolink StatusFlags :=
  let deck_id := ds_device_number status in
  let! leader := method_get pk_leader_deck_id in
  if ds_tempo_master status && negb (bool_decide (leader = Some deck_id)) then
    do! advance_timing_generation then
    let! deck := method_get (λ p, pk_decks p !! deck_id) in
    let! deck := method_result (ok_or deck PLLoadedDeckMissing) in
    do! method_modify (set_pk_leader_deck_id (Some deck_id)) then
    do! prolink_emit at_ (LeaderChanged deck_id (pd_track_load_id deck)) then
    method_ret (mkStatusFlags true true (sf_playing_tempo_changed flags))
  else method_ret flags.

Definition publish_status_timing (status : DeckStatus) (flags : StatusFlags)
    (beat effective_bpm_milli observed_at_nanos : Z) : prolink unit :=
  let deck_id := ds_device_number status in
  let! generation := method_get pk_timing_generation in
  if ds_tempo_master status && negb (ds_playing status) && sf_stopped_timing_changed flags then
    push_timing (mkProLinkTimingObservation deck_id observed_at_nanos beat effective_bpm_milli
                   (Z.max (ds_beat_within_bar status) 1) (ds_playing status) generation
                   (sf_discontinuity flags))
  else if ds_tempo_master status && ds_playing status && sf_playing_tempo_changed flags
          && negb (sf_discontinuity flags) then
    let! deck := method_get (λ p, pk_decks p !! deck_id) in
    push_timing (mkProLinkTimingObservation deck_id observed_at_nanos (from_option pd_beat beat deck)
                   effective_bpm_milli (Z.max (ds_beat_within_bar status) 1) true generation false)
  else method_ret tt.

Definition u32_try_from (n : Z) : option Z := if (0 <=? n) && (n <=? U32_MAX) then Some n else None.

Definition apply_status (status : DeckStatus) (observed_at_nanos : Z) (at_ : MonotonicTime) :
    prolink unit :=
  let deck_id := ds_device_number status in
  if (ds_rekordbox_id status =? 0) || (ds_source_player status =? 0) then unload_deck deck_id at_
  else
    let! track_bpm_milli := method_result (bpm_milli (ds_track_bpm status)) in
    let! effective_bpm_milli := method_result (bpm_milli (ds_effective_bpm status)) in
    let! beat_number := method_result
      (ok_or (u32_try_from (ds_beat_number status)) (PLInvalidBeatNumber (ds_beat_number status))) in
    let beat := saturating_sub_unsigned beat_number 1 in
    let! identity := method_get (λ p, status_identity status (signature_of p deck_id)) in
    let! previous := method_get (λ p, pk_decks p !! deck_id) in
    let! flags :=
      match previous with
      | Some previous =>
          if bool_decide (pd_identity previous = identity)
          then update_from_status status previous beat effective_bpm_milli observed_at_nanos at_
          else
            do! load_from_status status identity beat track_bpm_milli effective_bpm_milli
                  observed_at_nanos at_ then
            method_ret (mkStatusFlags true true false)
      | None =>
          do! load_from_status status identity beat track_bpm_milli effective_bpm_milli
                observed_at_nanos at_ then
          method_ret (mkStatusFlags true true false)
      end in
    let! flags := follow_tempo_master status at_ flags in
    publish_status_timing status flags beat effective_bpm_milli observed_at_nanos.

(** ** Precise positions, beats and tempo *)

Definition queue_precise_position (position : PrecisePosition) (observed_at_nanos : Z) : prolink unit :=
  if negb (pp_tempo_master position) then method_ret tt
  else
    let deck_id := pp_device_number position in
    let! deck := method_get (λ p, pk_decks p !! deck_id) in
    match deck with
    | None => method_ret tt
    | Some deck =>
        do! method_modify (λ p, set_pk_precise_position_message_count
              (saturating_add_u64 (pk_precise_position_message_count p) 1) p) then
        do! on_loaded deck_id (set_pd_last_precise_position_received_at (Some (now 0))) then
        method_modify (λ p, set_pk_precise_position_observations
          (pk_precise_position_observations p ++
             [mkProLinkPrecisePositionObservation deck_id (pd_track_load_id deck) observed_at_nanos
                (pp_playback_position_millis position) (pd_effective_bpm_milli deck)
                (pp_beat_within_bar position)]) p)
    end.

(** The confirmed jump of the status frames, while they still support it. *)
Definition supported_status_seek (previous : LoadedDeck) (observed_at_nanos : Z) :
    option StatusDiscontinuity :=
  match pd_last_status_discontinuity previous with
  | Some candidate =>
      if status_discontinuity_is_still_supported candidate (pd_last_status_beat previous)
           observed_at_nanos
      then Some candidate else None
  | None => None
  end.

(** The beat a Beat packet stands for. *)
Definition beat_landing (previous : LoadedDeck) (beat_within_bar observed_at_nanos : Z) : Z :=
  match supported_status_seek previous observed_at_nanos with
  | Some candidate => align_beat_within_bar (sd_absolute_beat candidate) beat_within_bar
  | None =>
      if saturating_sub_unsigned observed_at_nanos (pd_last_status_observed_at_nanos previous)
           <? 60000000000000 / Z.max (pd_effective_bpm_milli previous) 1
      then align_beat_within_bar (pd_last_status_beat previous) beat_within_bar
      else precise_absolute_beat (pd_last_status_beat previous) (Some (pd_beat previous))
             beat_within_bar
  end.

(** The phrase that starts to be played, if it is another one. *)
Definition changed_phrase (previous : LoadedDeck) (absolute_beat : Z) : option Z :=
  match phrase_index_at (pd_metadata previous) absolute_beat with
  | Some phrase_index =>
      if bool_decide (Some phrase_index = pd_phrase_index previous) then None else Some phrase_index
  | None => None
  end.

Definition or_else {A} (o otherwise : option A) : option A :=
  match o with Some a => Some a | None => otherwise end.

Definition after_beat (previous : LoadedDeck) (seeked continuous : bool)
    (absolute_beat observed_at_nanos generation : Z) (deck : LoadedDeck) : LoadedDeck :=
  let deck := set_pd_beat absolute_beat deck in
  let deck := set_pd_phrase_index
    (or_else (changed_phrase previous absolute_beat) (pd_phrase_index previous)) deck in
  let deck := set_pd_transport_anchor_observed_at (now 0) deck in
  let deck := set_pd_last_exact_beat_received_at (Some (now 1%nat)) deck in
  let deck := set_pd_last_position_observed_at_nanos observed_at_nanos deck in
  let deck := if seeked then set_pd_pending_precise_discontinuity None deck else deck in
  let deck := if seeked || continuous
              then set_pd_last_status_discontinuity None
                     (set_pd_pending_status_discontinuity None deck)
              else deck in
  if seeked then set_pd_discontinuity_revision generation deck else deck.

(** [PlaybackPositionSeeked] or [PlaybackPosition], when the beat is another one. *)
Definition emit_position (at_ : MonotonicTime) (deck_id : DeckId) (load : TrackLoadId)
    (previous_beat absolute_beat : Z) (seeked : bool) : prolink unit :=
  when (negb (previous_beat =? absolute_beat))
    (prolink_emit at_ (if seeked then PlaybackPositionSeeked deck_id load absolute_beat
                       else PlaybackPosition deck_id load absolute_beat)).

Definition emit_phrase (at_ : MonotonicTime) (deck_id : DeckId) (load : TrackLoadId)
    (phrase_index : option Z) : prolink unit :=
  match phrase_index with
  | Some phrase_index => prolink_emit at_ (PhraseChanged deck_id load phrase_index)
  | None => method_ret tt
  end.

(** A seek starts a new timing generation and is counted. *)
Definition count_seek : prolink unit :=
  do! advance_timing_generation then
  method_modify (λ p, set_pk_position_discontinuity_count
    (saturating_add_u64 (pk_position_discontinuity_count p) 1) p).

Definition apply_beat (beat : BridgeBeat) (observed_at_nanos : Z) (at_ : MonotonicTime) : prolink unit :=
  if negb (bt_tempo_master beat) then method_ret tt
  else
    let deck_id := bt_device_number beat in
    let! deck := method_get (λ p, pk_decks p !! deck_id) in
    match deck with
    | None => method_ret tt
    | Some previous =>
        let load := pd_track_load_id previous in
        let status_seek := bool_decide (is_Some (supported_status_seek previous observed_at_nanos)) in
        let absolute_beat := beat_landing previous (bt_beat_within_bar beat) observed_at_nanos in
        let far := 1 <? abs_diff absolute_beat (pd_beat previous) in
        let continuous := status_seek && negb far in
        let seeked := status_seek && far in
        if negb seeked
           && ((absolute_beat <? pd_beat previous)
               || ((absolute_beat =? pd_beat previous)
                   && bool_decide (is_Some (pd_last_exact_beat_received_at previous))))
        then method_ret tt
        else
          do! when seeked count_seek then
          do! emit_position at_ deck_id load (pd_beat previous) absolute_beat seeked then
          let! generation := method_get pk_timing_generation in
          do! on_loaded deck_id (after_beat previous seeked continuous absolute_beat
                                   observed_at_nanos generation) then
          do! emit_phrase at_ deck_id load (changed_phrase previous absolute_beat) then
          push_timing (mkProLinkTimingObservation deck_id observed_at_nanos absolute_beat
                         (pd_effective_bpm_milli previous) (bt_beat_within_bar beat)
                         (pd_playing previous) generation seeked)
    end.

Definition apply_tempo_status (tempo : TempoStatus) (observed_at_nanos : Z) : prolink unit :=
  if negb (ts_tempo_master tempo) then method_ret tt
  else
    let deck_id := ts_device_number tempo in
    let! deck := method_get (λ p, pk_decks p !! deck_id) in
    match deck with
    | None => method_ret tt
    | Some deck =>
        let! effective_bpm_milli := method_result (bpm_milli (ts_effective_bpm tempo)) in
        let! generation := method_get pk_timing_generation in
        push_timing (mkProLinkTimingObservation deck_id observed_at_nanos (pd_beat deck)
                       effective_bpm_milli (Z.max (ts_beat_within_bar tempo) 1) (ts_playing tempo)
                       generation false)
    end.

(** ** Positions the engine mapped through the beat grid *)

(** The precise baseline of a deck. *)
Definition precise_baseline (observation : ProLinkPrecisePositionObservation) (deck : LoadedDeck) :
    LoadedDeck :=
  set_pd_effective_bpm_milli (ppo_effective_bpm_milli observation)
    (set_pd_last_position_observed_at_nanos (ppo_observed_at_nanos observation)
      (set_pd_last_precise_position_observed_at_nanos (Some (ppo_observed_at_nanos observation))
        (set_pd_last_precise_position_millis (Some (ppo_playback_position_millis observation))
          (set_pd_precise_position_seen true deck)))).

Definition count_authoritative : prolink unit :=
  method_modify (λ p, set_pk_authoritative_position_count
    (saturating_add_u64 (pk_authoritative_position_count p) 1) p).

Definition discontinuity_candidate (previous : LoadedDeck)
    (observation : ProLinkPrecisePositionObservation) (absolute_beat : Z) : bool :=
  if negb (pd_precise_position_seen previous)
  then 2 <? abs_diff (pd_beat previous) absolute_beat
  else
    position_millis_is_discontinuous (pd_last_precise_position_millis previous)
      (ppo_playback_position_millis observation)
      (pd_last_precise_position_observed_at_nanos previous) (ppo_observed_at_nanos observation)
      (tm_bpm_milli (pd_metadata previous)) (ppo_effective_bpm_milli observation)
      (pd_playing previous).

Definition pending_precise (previous : LoadedDeck)
    (observation : ProLinkPrecisePositionObservation) (absolute_beat : Z) :
    PendingPreciseDiscontinuity :=
  confirmed_precise_discontinuity (pd_pending_precise_discontinuity previous)
    (mkPrecisePositionCandidate (ppo_playback_position_millis observation) absolute_beat
       (ppo_observed_at_nanos observation) (tm_bpm_milli (pd_metadata previous))
       (ppo_effective_bpm_milli observation) (pd_playing previous)).

Definition corroborated_by_status (previous : LoadedDeck) (pending : PendingPreciseDiscontinuity)
    (observed_at_nanos : Z) (known_hot_cue_target : bool) : bool :=
  status_corroborates_discontinuity (pd_last_status_discontinuity previous)
    (ppd_absolute_beat pending) observed_at_nanos
  || (known_hot_cue_target
      && status_timeline_matches (pd_last_status_beat previous)
           (pd_last_status_observed_at_nanos previous) (ppd_absolute_beat pending)
           observed_at_nanos).

Definition after_authoritative (previous : LoadedDeck) (seeked : bool)
    (observation : ProLinkPrecisePositionObservation) (absolute_beat generation : Z)
    (deck : LoadedDeck) : LoadedDeck :=
  let deck := set_pd_beat absolute_beat deck in
  let deck := set_pd_phrase_index
    (or_else (changed_phrase previous absolute_beat) (pd_phrase_index previous)) deck in
  let deck := set_pd_transport_anchor_observed_at (now 0) deck in
  let deck := set_pd_pending_precise_discontinuity None (precise_baseline observation deck) in
  if seeked
  then set_pd_discontinuity_revision generation
         (set_pd_last_status_discontinuity None (set_pd_pending_status_discontinuity None deck))
  else deck.

(** The position is taken over: the end of [apply_authoritative_position]. *)
Definition commit_authoritative (previous : LoadedDeck) (seeked candidate : bool)
    (observation : ProLinkPrecisePositionObservation) (absolute_beat : Z) (at_ : MonotonicTime) :
    prolink (option ProLinkAuthoritativePosition) :=
  let deck_id := ppo_deck_id observation in
  let load := ppo_track_load_id observation in
  let first := negb (pd_precise_position_seen previous) in
  do! when seeked count_seek then
  do! count_authoritative then
  if pd_playing previous && negb first && negb seeked then
    do! on_loaded deck_id (λ deck,
      let deck := precise_baseline observation deck in
      if negb candidate then set_pd_pending_precise_discontinuity None deck else deck) then
    method_ret None
  else
    do! emit_position at_ deck_id load (pd_beat previous) absolute_beat seeked then
    let! generation := method_get pk_timing_generation in
    do! on_loaded deck_id (after_authoritative previous seeked observation absolute_beat generation) then
    do! emit_phrase at_ deck_id load (changed_phrase previous absolute_beat) then
    do! when (first || seeked
              || negb (pd_effective_bpm_milli previous =? ppo_effective_bpm_milli observation))
          (push_timing (mkProLinkTimingObservation deck_id (ppo_observed_at_nanos observation)
             absolute_beat (ppo_effective_bpm_milli observation)
             (Z.max (ppo_beat_within_bar observation) 1) (pd_playing previous) generation seeked)) then
    method_ret (Some (mkProLinkAuthoritativePosition deck_id load absolute_beat
      (ppo_effective_bpm_milli observation) (pd_playing previous) generation seeked)).

Definition apply_authoritative_position (observation : ProLinkPrecisePositionObservation)
    (absolute_beat : Z) (known_hot_cue_target : bool) (at_ : MonotonicTime) :
    prolink (option ProLinkAuthoritativePosition) :=
  let deck_id := ppo_deck_id observation in
  let! deck := method_get (λ p, pk_decks p !! deck_id) in
  match deck with
  | None => method_ret None
  | Some previous =>
      let first := negb (pd_precise_position_seen previous) in
      if negb (pd_track_load_id previous =? ppo_track_load_id observation) then method_ret None
      else if pd_playing previous && first then
        do! count_authoritative then
        do! on_loaded deck_id (precise_baseline observation) then
        method_ret None
      else
        let candidate := discontinuity_candidate previous observation absolute_beat in
        if pd_playing previous && candidate && (abs_diff (pd_beat previous) absolute_beat <=? 1) then
          do! count_authoritative then
          do! on_loaded deck_id (λ deck,
            set_pd_pending_precise_discontinuity None (precise_baseline observation deck)) then
          method_ret None
        else if candidate && negb first then
          let pending := pending_precise previous observation absolute_beat in
          if negb known_hot_cue_target
             || (ppd_confirmation_count pending <? PRECISE_POSITION_HOT_CUE_CONFIRMATIONS)
             || negb (corroborated_by_status previous pending (ppo_observed_at_nanos observation)
                        known_hot_cue_target)
          then
            do! on_loaded deck_id (set_pd_pending_precise_discontinuity (Some pending)) then
            method_ret None
          else commit_authoritative previous true candidate observation absolute_beat at_
        else commit_authoritative previous false candidate observation absolute_beat at_
  end.

(** ** Metadata of the library *)

(** [self.decks.values().find(|deck| deck.track_load_id == track_load_id)] *)
Definition deck_of_load p (track_load_id : TrackLoadId) : option (Z * LoadedDeck) :=
  List.find (λ '(_, deck), pd_track_load_id deck =? track_load_id) (decks_in_order p).

Definition hydrate_track_metadata (track_load_id : TrackLoadId) (metadata : TrackMetadata) : prolink bool :=
  let! found := method_get (λ p, deck_of_load p track_load_id) in
  match found with
  | None => method_ret false
  | Some (deck_id, _) =>
      do! on_loaded deck_id (λ deck, set_pd_phrase_index None (set_pd_metadata metadata deck)) then
      method_ret true
  end.

Definition publish_hydrated_track (track_load_id : TrackLoadId) (metadata : TrackMetadata)
    (at_ : MonotonicTime) : prolink bool :=
  let! found := method_get (λ p, deck_of_load p track_load_id) in
  match found with
  | None => method_ret false
  | Some (deck_id, _) =>
      do! hydrate_track_metadata track_load_id metadata then
      do! prolink_emit at_ (TrackMetadataHydrated deck_id metadata track_load_id) then
      method_ret true
  end.

(** ** Messages *)

Definition note_message (message : BridgeMessage) p : ProLinkDeckSourceProvider :=
  set_pk_last_bridge_sequence
    (Some (match pk_last_bridge_sequence p with
           | None => bm_sequence message
           | Some previous => Z.max previous (bm_sequence message)
           end))
    (set_pk_received_message_count (saturating_add_u64 (pk_received_message_count p) 1) p).

Definition ingest (message : BridgeMessage) (at_ : MonotonicTime) : prolink unit :=
  let observed_at_nanos := bm_observed_at_nanos message in
  do! method_modify (note_message message) then
  match bm_event message with
  | BridgeHello hello =>
      do! method_modify (set_pk_bridge_version (Some (hello_bridge_version hello))) then
      method_modify (set_pk_beat_link_version (Some (hello_beat_link_version hello)))
  | BridgeStatus status => update_source_status (source_status (ss_status status)) at_
  | DeviceFound device =>
      method_modify (λ p, set_pk_devices
        (<[dev_device_number device :=
             mkProLinkDiscoveredDevice (dev_device_name device) (dev_address device)]>
           (pk_devices p)) p)
  | DeviceLost device =>
      do! method_modify (λ p, set_pk_devices (delete (dev_device_number device) (pk_devices p)) p) then
      unload_deck (dev_device_number device) at_
  | BridgeDeckStatus status => apply_status status observed_at_nanos at_
  | BridgeSignature signature =>
      do! method_modify (λ p, set_pk_signatures
        (<[sig_deck_number signature := sig_signature signature]> (pk_signatures p)) p) then
      on_loaded (sig_deck_number signature) (λ deck,
        set_pd_identity
          (mkProLinkTrackIdentity (pti_rekordbox_id (pd_identity deck))
             (pti_source_player (pd_identity deck)) (pti_source_slot (pd_identity deck))
             (sig_signature signature)) deck)
  | BridgeError failure =>
      do! method_modify (set_pk_last_error
            (Some (fail_operation failure ++ lit ": " ++ fail_message failure))) then
      update_source_status SourceDegraded at_
  | BridgeBeatEvent beat => apply_beat beat observed_at_nanos at_
  | BridgeTempoStatus tempo => apply_tempo_status tempo observed_at_nanos
  | BridgePrecisePosition position => queue_precise_position position observed_at_nanos
  | BridgeMetadata _ | BridgeUSBMedia _ | BridgeUSBMount _ => method_ret tt
  end.

(** ** The provider *)

Definition empty_provider : ProLinkDeckSourceProvider :=
  mkProLink PROLINK_SOURCE_ID 0 1 ∅ ∅ ∅ None [] SourceStarting 0 0 None None None None
    0 0 0 0 0 0 0 0 0 0 0 0 0 0 [] [].

Definition ProLink_new (at_ : MonotonicTime) : ProLinkDeckSourceProvider * result unit ProLinkProviderError :=
  prolink_emit at_ (SourceStatusChanged SourceStarting) empty_provider.

(** What a new bridge session starts without. *)
Definition forget_session p : ProLinkDeckSourceProvider :=
  set_pk_precise_position_observations [] (set_pk_timing_observations []
    (set_pk_last_error None (set_pk_beat_link_version None (set_pk_bridge_version None
      (set_pk_last_bridge_sequence None (set_pk_leader_deck_id None
        (set_pk_signatures ∅ (set_pk_devices ∅ p)))))))).

Definition begin_bridge_recovery (at_ : MonotonicTime) : prolink unit :=
  do! prolink_clear at_ then
  do! method_modify forget_session then
  update_source_status SourceStarting at_.

Definition drain_timing_observations : prolink (list ProLinkTimingObservation) :=
  let! generation := method_get pk_timing_generation in
  let! observations := method_get pk_timing_observations in
  do! method_modify (set_pk_timing_observations []) then
  method_ret (List.filter (λ observation, pto_generation observation =? generation) observations).

Definition drain_precise_position_observations : prolink (list ProLinkPrecisePositionObservation) :=
  let! observations := method_get pk_precise_position_observations in
  do! method_modify (set_pk_precise_position_observations []) then
  method_ret observations.

#[global] Instance prolink_deck_source :
    DeckSourceProvider ProLinkDeckSourceProvider ProLinkProviderError := {
  provider_kind _ := lit "directProDjLink";
  drain_events p := (set_pk_pending_events [] p, Ok (pk_pending_events p));
}.

Definition track_identity p (track_load_id : TrackLoadId) : option ProLinkTrackIdentity :=
  (λ '(_, deck), pd_identity deck) <$> deck_of_load p track_load_id.

Definition device_name p (deck_id : DeckId) : option str := pdd_name <$> pk_devices p !! deck_id.

Definition transport p (track_load_id : TrackLoadId) : option ProLinkTransportSnapshot :=
  (λ '(_, deck), mkProLinkTransportSnapshot (pd_beat deck) (pd_effective_bpm_milli deck)
     (pd_playing deck) (pd_discontinuity_revision deck) (pd_transport_anchor_observed_at deck))
    <$> deck_of_load p track_load_id.

(** [received.elapsed() <= max_age], in nanoseconds. *)
Definition received_within (max_age_millis : Z) (at_ : Instant) (received : option Instant) : bool :=
  option_is_some_and (λ received, Z.max 0 (at_ - received) <=? max_age_millis * 1000000) received.

(** [position_authority_ready] of [diagnostics]: the other fields copy the state. *)
Definition position_authority_ready p : bool :=
  option_is_some_and (λ deck,
    let beat_max_age := Z.min (Z.max (120000000 / Z.max (pd_effective_bpm_milli deck) 1) 500) 3000 in
    (pd_playing deck
     && received_within beat_max_age (now 0) (pd_last_exact_beat_received_at deck))
    || (pd_precise_position_seen deck
        && received_within POSITION_AUTHORITY_DIAGNOSTIC_MAX_AGE_MILLIS (now 1%nat)
             (pd_last_precise_position_received_at deck)))
    (deck_id ← pk_leader_deck_id p; pk_decks p !! deck_id).
End Methods.
