(* ===== verification/ProLinkProps.v ===== *)
(** * What the Pro DJ Link provider guarantees

    The runtime shows the decks as the provider believes them to be ([prolink_shown]),
    for every sequence of messages and calls; the timeline of a playing deck goes back
    only with a seek that starts a new timing generation ([playing_beat_guarded]); beats
    are aligned to the bar, except at the start of a track ([align_spec]).  Methods are
    executed symbolically: an assertion [at_] names the decks, the leader, the counters
    and the abstract view of everything published. *)

From stdpp Require Import prelude list gmap strings.
From Stdlib Require Import ZArith Lia.
From S2P Require Import Prelude.
From S2P Require Import Track.
From S2P Require Import Plan.
From S2P Require Import Event.
From S2P Require Import State.
From S2P Require Import Reducer.
From S2P Require Import ReducerProps.
From S2P Require Import Demo.
From S2P Require Import DeckSource.
From S2P Require Import Publishing.
From S2P Require Import LocalPlayback.
From S2P Require Import Float64.
From S2P Require Import ProLink.
From S2P Require Import ProLinkProvider.
Open Scope Z_scope.

Implicit Types (p : ProLinkDeckSourceProvider) (k : LoadedDeck) (w : DeckView) (v : SourceView).

(** ** Beats in the bar *)

Lemma nearest_in_bar_cases reference remainder otherwise :
  let base := saturating_add_u32 (saturating_sub_unsigned reference (reference mod 4)) remainder in
  nearest_in_bar reference remainder otherwise
    ∈ [saturating_sub_unsigned base 4; base; saturating_add_u32 base 4] ∧
  ∀ x, x ∈ [saturating_sub_unsigned base 4; base; saturating_add_u32 base 4] →
    abs_diff (nearest_in_bar reference remainder otherwise) reference ≤ abs_diff x reference.
Proof.
  intros base. unfold nearest_in_bar. fold base. set (l := [_; _; _]).
  unfold l, min_by_key. simpl. set (a := saturating_sub_unsigned base 4). set (c := saturating_add_u32 base 4).
  destruct (Z.ltb_spec (abs_diff base reference) (abs_diff a reference));
    [destruct (Z.ltb_spec (abs_diff c reference) (abs_diff base reference))
    |destruct (Z.ltb_spec (abs_diff c reference) (abs_diff a reference))]; simpl;
    (split; [set_solver|]); intros x Hx; rewrite !elem_of_cons, elem_of_nil in Hx;
    destruct Hx as [->|[->|[->|[]]]]; lia.
Qed.

Lemma bar_remainder_bounds b : 0 ≤ bar_remainder b ≤ 3.
Proof. unfold bar_remainder, saturating_sub_unsigned. lia. Qed.

Lemma nearest_in_bar_u32 reference b otherwise :
  in_u32 reference → in_u32 (nearest_in_bar reference (bar_remainder b) otherwise).
Proof.
  intros Hr. destruct (nearest_in_bar_cases reference (bar_remainder b) otherwise) as [Hin _].
  pose proof (bar_remainder_bounds b). pose proof (Z.mod_pos_bound reference 4 ltac:(lia)).
  revert Hin. unfold saturating_add_u32, saturating_sub_unsigned, in_u32, U32_MAX in *.
  rewrite !elem_of_cons, elem_of_nil. lia.
Qed.

(** The beat of the bar that is nearest to the reference: for every reference from the
    third beat of the track on. *)
Lemma nearest_in_bar_aligned reference remainder otherwise :
  2 ≤ reference → reference + 8 ≤ U32_MAX → 0 ≤ remainder ≤ 3 →
  let beat := nearest_in_bar reference remainder otherwise in
  beat mod 4 = remainder ∧ abs_diff beat reference ≤ 2.
Proof.
  intros Hr Hm Hb beat. pose proof (nearest_in_bar_cases reference remainder otherwise) as [Hin Hleast].
  fold beat in Hin, Hleast. pose proof (Z.mod_pos_bound reference 4 ltac:(lia)) as Hmod.
  pose proof (Z.div_mod reference 4 ltac:(lia)) as Hdiv.
  set (q := reference / 4) in *. set (m := reference mod 4) in *.
  assert (saturating_add_u32 (saturating_sub_unsigned reference m) remainder = 4 * q + remainder) as Hbase.
  { unfold saturating_add_u32, saturating_sub_unsigned. lia. }
  rewrite Hbase in Hin, Hleast.
  assert (saturating_add_u32 (4 * q + remainder) 4 = 4 * (q + 1) + remainder) as Hnext
    by (unfold saturating_add_u32; lia).
  rewrite Hnext in Hin, Hleast.
  pose proof (Hleast _ (list_elem_of_here _ _)) as H1.
  pose proof (Hleast (4 * q + remainder) ltac:(set_solver)) as H2.
  pose proof (Hleast (4 * (q + 1) + remainder) ltac:(set_solver)) as H3.
  assert (∀ n, (4 * n + remainder) mod 4 = remainder) as Hmul.
  { intros n. rewrite Z.mul_comm, Z.add_comm, Z_mod_plus_full. apply Z.mod_small. lia. }
  unfold abs_diff, saturating_sub_unsigned in *.
  rewrite !elem_of_cons, elem_of_nil in Hin. destruct Hin as [E|[E|[E|[]]]].
  - destruct (decide (4 ≤ 4 * q + remainder)) as [Hge|Hlt].
    + rewrite Z.max_r in E, H1 by lia.
      replace (4 * q + remainder - 4) with (4 * (q - 1) + remainder) in E by lia.
      split; [by rewrite E|lia].
    + assert (q = 0) by lia. subst q. rewrite Z.max_l in E, H1 by lia. split; [|lia].
      rewrite E in *. assert (remainder = 0 ∨ reference = 2 ∧ False) as [->|[_ []]]; [lia|done].
  - split; [by rewrite E|lia].
  - split; [by rewrite E|lia].
Qed.

(** A beat of the bar is aligned to the absolute beat of that place in the bar that is
    nearest to the reference, at most two beats away, for every reference from the third
    beat of the track on.  For the first two beats the saturating subtraction offers beat
    zero as a candidate whatever the place in the bar, and it wins: the second to fourth
    beat are taken for beat zero there. *)
Theorem align_spec reference beat_within_bar :
  1 ≤ beat_within_bar ≤ 4 → 0 ≤ reference → reference + 8 ≤ U32_MAX →
  let beat := align_beat_within_bar reference beat_within_bar in
  if decide (2 ≤ reference)
  then beat mod 4 = beat_within_bar - 1 ∧ abs_diff beat reference ≤ 2
  else beat = if bool_decide (reference = 1 ∧ beat_within_bar = 2) then 1 else 0.
Proof.
  intros Hb Hr Hm beat. unfold beat, align_beat_within_bar.
  assert (bar_remainder beat_within_bar = beat_within_bar - 1) as ->
    by (unfold bar_remainder, saturating_sub_unsigned; lia).
  destruct (decide (2 ≤ reference)) as [H2|H2]; [by apply nearest_in_bar_aligned; lia|].
  assert (reference = 0 ∨ reference = 1) as Href by lia.
  assert (beat_within_bar = 1 ∨ beat_within_bar = 2 ∨ beat_within_bar = 3 ∨ beat_within_bar = 4) as Hbar by lia.
  destruct Href as [-> | ->]; destruct Hbar as [->|[->|[->| ->]]]; by vm_compute.
Qed.

(** ** Publishing *)

Section Shown.
(** What was drained before, the time of the first call, and whether no stopped deck was
    moved back by a position. *)
Variables (drained : list DomainEvent) (t0 : Z) (exact : Prop).

Definition sent p : list ObservationEnvelope := observations (drained ++ pk_pending_events p).

Definition published p : SourceView := view_run empty_view (obs_observation <$> sent p).

Record stream_ok (t : Z) p : Prop := {
  st_source : pk_source_id p = PROLINK_SOURCE_ID;
  st_sequence : 0 ≤ pk_sequence p;
  st_time : t0 ≤ t;
  st_stream : ordered_stream PROLINK_SOURCE_ID 0 t0 (sent p);
  st_before : Forall (before (pk_sequence p) t) (sent p);
  st_wf : Forall (λ o, observation_wf (obs_observation o)) (sent p);
}.

(** The state a method works on. *)
Record at_ (t : Z) (decks : gmap Z LoadedDeck) (leader : option DeckId) (next generation : Z) v p :
    Prop := {
  at_stream : stream_ok t p;
  at_decks : pk_decks p = decks;
  at_leader : pk_leader_deck_id p = leader;
  at_next : pk_next_track_load_id p = next;
  at_generation : pk_timing_generation p = generation;
  at_view : published p = v;
}.

Definition overflow (e : ProLinkProviderError) : Prop :=
  e = PLSequenceOverflow ∨ e = PLTrackLoadIdOverflow ∨ e = PLTimingGenerationOverflow.

(** *** The deck of the provider and the deck of the runtime *)

Record deck_ok (next generation : Z) k : Prop := {
  dk_track : track_typed (pd_metadata k);
  dk_beat : in_u32 (pd_beat k);
  dk_status : in_u32 (pd_last_status_beat k);
  dk_jump : ∀ jump, pd_last_status_discontinuity k = Some jump → in_u32 (sd_absolute_beat jump);
  dk_load : pd_track_load_id k < next;
  dk_revision : pd_discontinuity_revision k ≤ generation;
}.

Record deck_shown k w : Prop := {
  ds_load : dv_load w = pd_track_load_id k;
  ds_play : dv_playing w = pd_playing k;
  ds_behind : pd_beat k ≤ dv_beat w;
  ds_exact : exact → dv_beat w = pd_beat k;
}.

Definition decks_shown (decks : gmap Z LoadedDeck) (views : gmap Z DeckView) : Prop :=
  ∀ d, match decks !! d, views !! d with
       | Some k, Some w => deck_shown k w
       | None, None => True
       | _, _ => False
       end.

Record good (decks : gmap Z LoadedDeck) (leader : option DeckId) (next generation : Z) v : Prop := {
  gd_decks : map_Forall (λ _, deck_ok next generation) decks;
  gd_loads : ∀ d d' k k', decks !! d = Some k → decks !! d' = Some k' →
    pd_track_load_id k = pd_track_load_id k' → d = d';
  gd_leader : ∀ d, leader = Some d → is_Some (decks !! d);
  gd_shown : decks_shown decks (sv_decks v);
  gd_lead : sv_leader v = leader;
}.

Definition inv (t : Z) p : Prop :=
  ∃ decks leader next generation v, at_ t decks leader next generation v p ∧ good decks leader next generation v.

(** An error is an overflow of a counter, or leaves the invariant. *)
Definition failed (t : Z) (e : ProLinkProviderError) p : Prop := overflow e ∨ inv t p.

Notation runs I m J t := (triple I m (post J (failed t))).

Lemma runs_bind {A B} t I (m : prolink A) (f : A → prolink B) J J' :
  runs I m J t → (∀ a, runs (J a) (f a) J' t) → runs I (method_bind m f) J' t.
Proof. apply post_bind. Qed.

Lemma runs_ret {A} t I (a : A) J : (∀ p, I p → J a p) → runs I (method_ret a) J t.
Proof. apply post_ret. Qed.

Lemma runs_get {A} t I (f : _ → A) J : (∀ p, I p → J (f p) p) → runs I (method_get f) J t.
Proof. apply post_get. Qed.

Lemma runs_modify t I f J : (∀ p, I p → J tt (f p)) → runs I (method_modify f) J t.
Proof. apply post_modify. Qed.

Lemma runs_pure {A} t (φ : Prop) I (m : prolink A) J :
  (φ → runs I m J t) → runs (λ p, I p ∧ φ) m J t.
Proof. intros H p [Hp Hφ]. by apply H. Qed.

Lemma runs_weaken {A} t (I I' : ProLinkDeckSourceProvider → Prop) (m : prolink A) (J J' : A → _ → Prop) :
  (∀ p, I' p → I p) → (∀ a p, J a p → J' a p) → runs I m J t → runs I' m J' t.
Proof.
  intros HI HJ. apply triple_mono; [done|]. intros [a|e] p; simpl; [apply HJ|done].
Qed.

(** Starting from the invariant: a proof for every state that satisfies it. *)
Lemma runs_inv {A} t (m : prolink A) J :
  (∀ decks leader next generation v, good decks leader next generation v →
     runs (at_ t decks leader next generation v) m J t) → runs (inv t) m J t.
Proof. intros H p (decks & leader & next & generation & v & Hat & Hg). by eapply H. Qed.

Lemma runs_inv_decks {A} t (Φ : gmap Z LoadedDeck → Prop) (m : prolink A) J :
  (∀ decks leader next generation v, good decks leader next generation v → Φ decks →
     runs (at_ t decks leader next generation v) m J t) → runs (λ p, inv t p ∧ Φ (pk_decks p)) m J t.
Proof.
  intros H p [(decks & leader & next & generation & v & Hat & Hg) HΦ]. eapply H; [exact Hg| |exact Hat].
  by rewrite <- (at_decks _ _ _ _ _ _ _ Hat).
Qed.

Lemma inv_intro t decks leader next generation v p :
  at_ t decks leader next generation v p → good decks leader next generation v → inv t p.
Proof. intros H1 H2. by exists decks, leader, next, generation, v. Qed.

Lemma stream_ok_later t t' p : stream_ok t p → t ≤ t' → stream_ok t' p.
Proof.
  intros [? ? ? ? Hb ?] ?. split; try done; [lia|]. eapply Forall_impl; [exact Hb|].
  intros o [? ?]. split; lia.
Qed.

Lemma inv_later t t' p : inv t p → t ≤ t' → inv t' p.
Proof.
  intros (decks & leader & next & generation & v & [H1 ? ? ? ? ?] & Hg) Ht.
  exists decks, leader, next, generation, v. split; [split; try done|done]. by eapply stream_ok_later.
Qed.

(** A change of fields that the assertion does not name. *)
Definition hidden (f : ProLinkDeckSourceProvider → ProLinkDeckSourceProvider) : Prop :=
  ∀ p, pk_source_id (f p) = pk_source_id p ∧ pk_sequence (f p) = pk_sequence p ∧
    pk_pending_events (f p) = pk_pending_events p ∧ pk_decks (f p) = pk_decks p ∧
    pk_leader_deck_id (f p) = pk_leader_deck_id p ∧
    pk_next_track_load_id (f p) = pk_next_track_load_id p ∧
    pk_timing_generation (f p) = pk_timing_generation p.

Lemma stream_ok_same t p q :
  pk_source_id q = pk_source_id p → pk_sequence q = pk_sequence p →
  pk_pending_events q = pk_pending_events p → stream_ok t p → stream_ok t q ∧ published q = published p.
Proof.
  intros H1 H2 H3 [? ? ? ? ? ?]. assert (sent q = sent p) as E by (unfold sent; by rewrite H3).
  split; [|unfold published; by rewrite E]. split; rewrite ?E, ?H1, ?H2; done.
Qed.

Lemma at_change t decks leader next generation v p q decks' leader' next' generation' :
  at_ t decks leader next generation v p →
  pk_source_id q = pk_source_id p → pk_sequence q = pk_sequence p →
  pk_pending_events q = pk_pending_events p →
  pk_decks q = decks' → pk_leader_deck_id q = leader' → pk_next_track_load_id q = next' →
  pk_timing_generation q = generation' → at_ t decks' leader' next' generation' v q.
Proof.
  intros [Hs ? ? ? ? Hv] H1 H2 H3 ? ? ? ?.
  destruct (stream_ok_same t p q H1 H2 H3 Hs) as [? ?]. split; try done. congruence.
Qed.

Lemma runs_hidden t decks leader next generation v f :
  hidden f →
  runs (at_ t decks leader next generation v) (method_modify f)
    (λ _, at_ t decks leader next generation v) t.
Proof.
  intros Hf. apply runs_modify. intros p Hp. destruct (Hf p) as (? & ? & ? & ? & ? & ? & ?).
  pose proof Hp as [? ? ? ? ? ?]. eapply at_change; [exact Hp|congruence..].
Qed.

Lemma runs_emit t decks leader next generation v o :
  observation_wf o →
  runs (at_ t decks leader next generation v) (prolink_emit t o)
    (λ _, at_ t decks leader next generation (view_step v o)) t.
Proof.
  intros Ho p [[H1 H2 H3 H4 H5 H6] Hd Hl Hn Hg Hv]. unfold prolink_emit, method_bind, method_get,
    method_result, method_modify. destruct (checked_add_u64 (pk_sequence p) 1) as [n|] eqn:En; simpl;
    [|by left; left].
  apply checked_add_u64_Some in En as [-> _]. rewrite H1.
  set (e := mkObservationEnvelope _ _ _ _). set (q := set_pk_pending_events _ _).
  assert (sent q = sent p ++ [e]) as E.
  { unfold sent, q. simpl. by rewrite app_assoc, observations_app. }
  assert (Forall (before (pk_sequence p + 1) t) (sent p)) as Hb.
  { eapply Forall_impl; [exact H5|]. intros x [? ?]. split; lia. }
  split; try done.
  - split; rewrite ?E; simpl; try done; try lia.
    + eapply ordered_stream_app; [done|exact H5|lia|lia|]. simpl. split_and!; try done; lia.
    + apply Forall_app. split; [done|]. repeat constructor; simpl; lia.
    + apply Forall_app. split; [done|]. by repeat constructor.
  - unfold published. rewrite E, fmap_app. unfold view_run. rewrite foldl_app. simpl.
    by rewrite <- Hv.
Qed.

Lemma runs_advance t decks leader next generation v :
  runs (at_ t decks leader next generation v) advance_timing_generation
    (λ _, at_ t decks leader next (generation + 1) v) t.
Proof.
  intros p Hp. pose proof Hp as [? ? ? ? Hg ?].
  unfold advance_timing_generation, method_bind, method_get, method_result, method_modify.
  destruct (checked_add_u64 (pk_timing_generation p) 1) as [n|] eqn:En; simpl; [|by left; right; right].
  apply checked_add_u64_Some in En as [-> _]. eapply at_change; [exact Hp|done..|]. simpl. by rewrite Hg.
Qed.

Lemma runs_on_loaded t decks leader next generation v d f :
  runs (at_ t decks leader next generation v) (on_loaded d f)
    (λ _, at_ t (alter f d decks) leader next generation v) t.
Proof.
  apply runs_modify. intros p Hp. pose proof Hp as [? ? ? ? ? ?]. eapply at_change; [exact Hp|simpl; congruence..].
Qed.

Lemma runs_when t (b : bool) (m : prolink unit) I J :
  (b = true → runs I m J t) → (b = false → ∀ p, I p → J tt p) → runs I (when b m) J t.
Proof. intros H1 H2. destruct b; [by apply H1|]. apply runs_ret. by apply H2. Qed.

(** *** The view of one deck *)

Lemma runs_emit_deck t decks leader next generation v d w o :
  of_deck d (dv_load w) o → observation_wf o →
  runs (at_ t decks leader next generation (put v d w)) (prolink_emit t o)
    (λ _, at_ t decks leader next generation (put v d (deck_step w o))) t.
Proof. intros Ho Hw. rewrite <- put_step by done. by apply runs_emit. Qed.

(** [when b (emit o)] *)
Lemma runs_emit_when t decks leader next generation v d w (b : bool) o :
  of_deck d (dv_load w) o → (b = true → observation_wf o) →
  runs (at_ t decks leader next generation (put v d w)) (when b (prolink_emit t o))
    (λ _, at_ t decks leader next generation (put v d (if b then deck_step w o else w))) t.
Proof.
  intros Ho Hw. apply runs_when; intros ->; [|done]. by apply runs_emit_deck; [|apply Hw].
Qed.

(** *** Keeping the relation *)

Lemma good_put decks leader next generation v d k k' w' :
  good decks leader next generation v → decks !! d = Some k →
  pd_track_load_id k' = pd_track_load_id k → deck_ok next generation k' → deck_shown k' w' →
  good (<[d := k']> decks) leader next generation (put v d w').
Proof.
  intros [Hd Hu Hl Hs Hle] Hk Hid Hok Hsh. split; simpl.
  - by apply map_Forall_insert_2.
  - intros d1 d2 k1 k2 H1%lookup_insert_Some H2%lookup_insert_Some Heq.
    destruct H1 as [[<- <-]|[? H1]], H2 as [[<- <-]|[? H2]]; [done|..].
    + apply (Hu d d2 k k2 Hk H2). congruence.
    + symmetry. apply (Hu d d1 k k1 Hk H1). congruence.
    + by apply (Hu d1 d2 k1 k2).
  - intros d' Hd'. rewrite lookup_insert_is_Some'. right. by apply Hl.
  - intros d'. destruct (decide (d = d')) as [<-|Hne]; [by rewrite !lookup_insert_eq|].
    rewrite !lookup_insert_ne by done. apply Hs.
  - done.
Qed.

Lemma deck_ok_more next generation next' generation' k :
  deck_ok next generation k → next ≤ next' → generation ≤ generation' → deck_ok next' generation' k.
Proof. intros [? ? ? ? ? ?] ? ?. split; try done; lia. Qed.

Lemma good_more decks leader next generation next' generation' v :
  good decks leader next generation v → next ≤ next' → generation ≤ generation' →
  good decks leader next' generation' v.
Proof.
  intros [Hd ? ? ? ?] ? ?. split; try done. eapply map_Forall_impl; [exact Hd|].
  intros d k Hk. by eapply deck_ok_more; [exact Hk|..].
Qed.

Lemma good_deck decks leader next generation v d k :
  good decks leader next generation v → decks !! d = Some k →
  deck_ok next generation k ∧ ∃ w, sv_decks v !! d = Some w ∧ deck_shown k w.
Proof.
  intros [Hd _ _ Hs _] Hk. split; [by eapply Hd|]. specialize (Hs d). rewrite Hk in Hs.
  destruct (sv_decks v !! d) as [w|]; [|done]. by exists w.
Qed.

(** A deck whose view has advanced is put back into the invariant. *)
Lemma inv_put t decks leader next generation generation' v d f k w' p :
  good decks leader next generation v → decks !! d = Some k → generation ≤ generation' →
  pd_track_load_id (f k) = pd_track_load_id k → deck_ok next generation' (f k) → deck_shown (f k) w' →
  at_ t (alter f d decks) leader next generation' (put v d w') p → inv t p.
Proof.
  intros Hg Hk Hle Hid Hok Hsh Hp. eapply inv_intro; [exact Hp|].
  assert (alter f d decks = <[d := f k]> decks) as ->.
  { apply map_eq. intros d'. destruct (decide (d = d')) as [<-|Hne].
    - by rewrite lookup_alter_eq, Hk, lookup_insert_eq.
    - by rewrite lookup_alter_ne, lookup_insert_ne. }
  eapply good_put; [|done..]. eapply good_more; [exact Hg|lia|done].
Qed.

(** ** Unloading *)

Lemma good_delete decks leader next generation v d k :
  good decks leader next generation v → decks !! d = Some k →
  good (delete d decks) (if bool_decide (leader = Some d) then None else leader) next generation
    (view_step v (TrackUnloaded d (pd_track_load_id k))).
Proof.
  intros Hg Hk. destruct (good_deck _ _ _ _ _ d k Hg Hk) as (_ & w & Hw & [Hload _ _ _]).
  destruct Hg as [Hd Hu Hl Hs Hle]. simpl. rewrite Hw, Hload, Z.eqb_refl. split; simpl.
  - by apply map_Forall_delete.
  - intros d1 d2 k1 k2 [_ H1]%lookup_delete_Some [_ H2]%lookup_delete_Some. by apply Hu.
  - intros d' Hd'. case_bool_decide as E; [done|]. destruct (Hl d' Hd') as [k' Hk']. exists k'.
    apply lookup_delete_Some. split; [|done]. congruence.
  - intros d'. destruct (decide (d = d')) as [<-|Hne]; [by rewrite !lookup_delete_eq|].
    rewrite !lookup_delete_ne by done. apply Hs.
  - by rewrite Hle.
Qed.

Lemma good_no_leader decks leader next generation v d :
  good decks leader next generation v → decks !! d = None →
  (if bool_decide (leader = Some d) then None else leader) = leader.
Proof.
  intros [_ _ Hl _ _] Hd. case_bool_decide as E; [|done]. destruct (Hl d E) as [k Hk]. congruence.
Qed.

(** The decks, which unloading changes as it should. *)
Lemma runs_unload t d D :
  runs (λ p, inv t p ∧ pk_decks p = D) (unload_deck d t) (λ _ p, inv t p ∧ pk_decks p = delete d D) t.
Proof.
  intros p0 [(decks & leader & next & generation & v & Hp0 & Hg) HD]. revert p0 Hp0 HD.
  enough (runs (λ p, at_ t decks leader next generation v p ∧ D = decks) (unload_deck d t)
    (λ _ p, inv t p ∧ pk_decks p = delete d D) t) as H.
  { intros p Hp HD. apply H. split; [done|]. by rewrite <- HD, (at_decks _ _ _ _ _ _ _ Hp). }
  apply runs_pure. intros ->. unfold unload_deck.
  eapply runs_bind; [eapply (runs_get t _ _ (λ previous p, at_ t decks leader next generation v p
    ∧ previous = decks !! d)); intros p Hp; split; [done|]; by rewrite (at_decks _ _ _ _ _ _ _ Hp)|].
  intros previous. apply runs_pure. intros ->. destruct (decks !! d) as [k|] eqn:Hk.
  - eapply runs_bind.
    { eapply runs_bind; [|intros ?; by apply runs_emit].
      eapply (runs_modify t _ _ (λ _, at_ t (delete d decks) leader next generation v)).
      intros p Hp. pose proof Hp as [? ? ? ? ? ?]. eapply at_change; [exact Hp|simpl; congruence..]. }
    intros ?; cbn beta. apply runs_modify. intros p Hp. pose proof Hp as [? ? Hlead ? ? ?]. rewrite Hlead. split.
    + eapply inv_intro; [|by apply (good_delete decks leader next generation v d k)].
      case_bool_decide as E; [|by eapply at_change; [exact Hp|simpl; congruence..]].
      eapply at_change; [exact Hp|simpl; congruence..].
    + transitivity (pk_decks p); [by case_bool_decide|]. by rewrite (at_decks _ _ _ _ _ _ _ Hp).
  - eapply runs_bind; [by eapply (runs_ret t _ _ (λ _, at_ t decks leader next generation v))|].
    intros ?; cbn beta. apply runs_modify. intros p Hp. pose proof Hp as [? ? Hlead ? ? ?].
    rewrite Hlead. pose proof (good_no_leader _ _ _ _ _ d Hg Hk) as E.
    assert (bool_decide (leader = Some d) = false) as ->.
    { case_bool_decide; [|done]. congruence. }
    split; [by eapply inv_intro|]. by rewrite (at_decks _ _ _ _ _ _ _ Hp), delete_id.
Qed.

Lemma runs_unload_inv t d : runs (inv t) (unload_deck d t) (λ _, inv t) t.
Proof.
  intros p Hp. pose proof (runs_unload t d (pk_decks p) p (conj Hp eq_refl)) as H.
  destruct (unload_deck d t p).2; [by destruct H|done].
Qed.

Lemma runs_unload_decks t ds D :
  runs (λ p, inv t p ∧ pk_decks p = D) (unload_decks ds t)
    (λ _ p, inv t p ∧ pk_decks p = foldl (λ D d, delete d D) D ds) t.
Proof.
  revert D. induction ds as [|d ds IH]; intros D; [by apply runs_ret|].
  eapply runs_bind; [apply runs_unload|]. intros ?; cbn beta. apply IH.
Qed.

Lemma runs_unload_decks_inv t ds : runs (inv t) (unload_decks ds t) (λ _, inv t) t.
Proof.
  intros p Hp. pose proof (runs_unload_decks t ds (pk_decks p) p (conj Hp eq_refl)) as H.
  destruct (unload_decks ds t p).2; [by destruct H|done].
Qed.

Lemma runs_to_inv {A} t I (m : prolink A) decks leader next generation v :
  good decks leader next generation v → runs I m (λ _, at_ t decks leader next generation v) t →
  runs I m (λ _, inv t) t.
Proof. intros Hg. apply runs_weaken; [done|]. intros _ p Hp. by eapply inv_intro. Qed.

Lemma runs_last t I (m : prolink unit) decks leader next generation v J :
  runs I m (λ _, at_ t decks leader next generation v) t →
  (∀ p, at_ t decks leader next generation v p → J tt p) → runs I m J t.
Proof. intros Hm HJ. eapply runs_weaken; [done| |exact Hm]. intros [] p. apply HJ. Qed.

Lemma runs_hidden_inv t f : hidden f → runs (inv t) (method_modify f) (λ _, inv t) t.
Proof.
  intros Hf. apply runs_inv. intros decks leader next generation v Hg.
  eapply runs_to_inv; [exact Hg|by apply runs_hidden].
Qed.

Lemma runs_get_inv {A} t (f : ProLinkDeckSourceProvider → A) :
  runs (inv t) (method_get f) (λ _, inv t) t.
Proof. by apply runs_get. Qed.

Lemma runs_status t status : runs (inv t) (update_source_status status t) (λ _, inv t) t.
Proof.
  unfold update_source_status. eapply runs_bind; [apply runs_get_inv|]. intros previous. simpl.
  apply runs_when; [intros _|done].
  eapply runs_bind; [by apply runs_hidden_inv|]. intros ?; cbn beta.
  eapply runs_bind; [apply runs_when; [intros _; by apply (runs_hidden_inv t)|done]|]. intros ?; cbn beta.
  apply runs_inv. intros decks leader next generation v Hg.
  eapply runs_to_inv; [exact Hg|by apply runs_emit].
Qed.

(** Unloading every deck leaves none. *)
Lemma delete_all (ds : list Z) : ∀ D : gmap Z LoadedDeck,
  (∀ d, is_Some (D !! d) → d ∈ ds) → foldl (λ D d, delete d D) D ds = ∅.
Proof.
  induction ds as [|d ds IH]; intros D HD; simpl.
  - apply map_empty. intros d. destruct (D !! d) as [k|] eqn:Hk; [|done].
    specialize (HD d ltac:(by rewrite Hk)). by apply not_elem_of_nil in HD.
  - apply IH. intros d' [k [Hne Hk]%lookup_delete_Some]. specialize (HD d' ltac:(by rewrite Hk)).
    apply elem_of_cons in HD as [->|?]; done.
Qed.

Lemma decks_in_order_elem p d k : pk_decks p !! d = Some k ↔ (d, k) ∈ decks_in_order p.
Proof. unfold decks_in_order. rewrite sort_by_key_perm. symmetry. apply elem_of_map_to_list. Qed.

Lemma runs_clear t :
  runs (inv t) (prolink_clear t) (λ _ p, inv t p ∧ pk_decks p = ∅ ∧ pk_leader_deck_id p = None) t.
Proof.
  intros p0 Hp0. unfold prolink_clear, method_bind at 1, method_get. cbv iota beta.
  pose proof (runs_unload_decks t (decks_in_order p0).*1 _ p0 (conj Hp0 eq_refl)) as H.
  rewrite delete_all in H.
  2:{ intros d [k Hk]. apply list_elem_of_fmap. exists (d, k). by rewrite <- decks_in_order_elem. }
  unfold method_bind. destruct (unload_decks _ _ _) as [p [[]|e]]; simpl in *; [|done].
  destruct H as [(decks & leader & next & generation & v & Hp & Hg) Hd].
  assert (leader = None) as ->.
  { destruct leader as [d|]; [|done]. destruct (gd_leader _ _ _ _ _ Hg d eq_refl) as [k Hk].
    rewrite <- (at_decks _ _ _ _ _ _ _ Hp), Hd in Hk. done. }
  split; [|done]. eapply inv_intro; [|exact Hg]. pose proof Hp as [? ? ? ? ? ?].
  eapply at_change; [exact Hp|simpl; congruence..].
Qed.

(** ** Deck status *)

Lemma placeholder_track_typed id title artist bpm key beat m :
  in_u32 beat → TrackMetadata_try_new_unanalyzed id title artist bpm key (placeholder_duration_beats bpm beat) = Ok m →
  track_typed m.
Proof.
  unfold TrackMetadata_try_new_unanalyzed. intros Hb Hm.
  apply result_bind_Ok in Hm as ([] & Hf%validate_track_facts_Ok & [= <-]).
  split; [|split]; simpl; [by split; [|left]| |constructor].
  destruct Hf as (_ & _ & Hbpm & _).
  unfold placeholder_duration_beats, saturating_mul_u32, saturating_add_u32, in_u32, U32_MAX,
    DEFAULT_TRACK_MINUTES in *.
  pose proof (Z.div_le_mono (Z.min (bpm * 10) 4294967295) 4294967295 1000 ltac:(lia) ltac:(lia)) as H1.
  change (4294967295 / 1000) with 4294967 in H1. change (2 ^ 32 - 1) with 4294967295 in *. lia.
Qed.

Lemma good_insert decks leader next generation v d k w :
  good decks leader next generation v → decks !! d = None → pd_track_load_id k = next →
  deck_ok (next + 1) generation k → deck_shown k w →
  good (<[d := k]> decks) leader (next + 1) generation (put v d w).
Proof.
  intros Hg Hd Hk Hok Hsh. destruct (good_more _ _ _ _ (next + 1) generation _ Hg) as [H1 H2 H3 H4 H5]; [lia..|].
  split; simpl.
  - by apply map_Forall_insert_2.
  - assert (∀ d' k', decks !! d' = Some k' → pd_track_load_id k' ≠ pd_track_load_id k) as Hne.
    { intros d' k' Hk'. pose proof (dk_load _ _ _ (gd_decks _ _ _ _ _ Hg d' k' Hk')). lia. }
    intros d1 d2 k1 k2 E1%lookup_insert_Some E2%lookup_insert_Some Heq.
    destruct E1 as [[<- <-]|[? E1]], E2 as [[<- <-]|[? E2]]; [done|..].
    + by destruct (Hne _ _ E2).
    + by destruct (Hne _ _ E1).
    + by apply (H2 d1 d2 k1 k2).
  - intros d' Hd'. rewrite lookup_insert_is_Some'. right. by apply H3.
  - intros d'. destruct (decide (d = d')) as [<-|Hne]; [by rewrite !lookup_insert_eq|].
    rewrite !lookup_insert_ne by done. apply H4.
  - done.
Qed.

(** A result that is no error keeps its assertion; an error must keep the invariant. *)
Lemma runs_result {A} t I (r : result A ProLinkProviderError) J :
  (∀ a p, r = Ok a → I p → J a p) → (∀ e p, r = Err e → I p → failed t e p) →
  runs I (method_result r) J t.
Proof. intros H1 H2 p Hp. unfold method_result. simpl. destruct r; simpl; auto. Qed.

Lemma runs_load now t status identity beat bpm eff observed :
  in_u32 beat →
  runs (inv t) (load_from_status now status identity beat bpm eff observed t)
    (λ _ p, inv t p ∧ is_Some (pk_decks p !! ds_device_number status)) t.
Proof.
  intros Hb. set (d := ds_device_number status). unfold load_from_status. fold d.
  eapply runs_bind.
  { apply runs_inv. intros decks leader next generation v Hg.
    eapply runs_to_inv; [|by apply runs_advance]. eapply good_more; [exact Hg|lia|lia]. }
  intros ?; cbn beta. eapply (runs_bind t _ _ _ (λ _ p, inv t p ∧ pk_decks p !! d = None)).
  { intros p Hp. pose proof (runs_unload t d (pk_decks p) p (conj Hp eq_refl)) as H.
    destruct (unload_deck d t p) as [q [[]|e]]; simpl in *; [|done]. destruct H as [? ->].
    split; [done|apply lookup_delete_eq]. }
  intros ?; cbn beta. apply (runs_inv_decks t (λ decks, decks !! d = None)).
  intros decks leader next generation v Hg Hd.
  set (k m := loaded_from_status now identity next m beat observed eff (ds_playing status) generation).
  eapply runs_bind; [apply (runs_get t _ _ (λ n p, at_ t decks leader next generation v p ∧ n = next));
    intros p Hp; split; [done|apply Hp]|]. intros n. apply runs_pure. intros ->.
  eapply runs_bind; [apply (runs_result t _ _ (λ n p, at_ t decks leader next generation v p ∧ n = next + 1))|].
  { intros n p E Hp. split; [done|]. unfold ok_or in E. case_match eqn:En; [|done].
    apply checked_add_u64_Some in En as [-> _]. by injection E as <-. }
  { intros e p E Hp. unfold ok_or in E. case_match; [done|]. injection E as <-. left. by right; left. }
  intros n. apply runs_pure. intros ->.
  eapply runs_bind; [apply (runs_modify t _ _ (λ _, at_ t decks leader (next + 1) generation v))|].
  { intros p Hp. pose proof Hp as [? ? ? ? ? ?]. eapply at_change; [exact Hp|simpl; congruence..]. }
  intros ?; cbn beta.
  eapply runs_bind; [apply (runs_result t _ _ (λ m p, at_ t decks leader (next + 1) generation v p ∧ track_typed m))|].
  { intros m p E Hp. split; [done|]. unfold map_err in E. case_match eqn:Em; [|done]. injection E as <-.
    by eapply placeholder_track_typed. }
  { intros e p E Hp. right. eapply inv_intro; [exact Hp|]. eapply good_more; [exact Hg|lia|lia]. }
  intros m. apply runs_pure. intros Hm.
  eapply runs_bind; [apply (runs_modify t _ _ (λ _, at_ t (<[d := k m]> decks) leader (next + 1) generation v))|].
  { intros p Hp. pose proof Hp as [? ? ? ? Hge ?]. eapply at_change; [exact Hp|simpl; unfold k; congruence..]. }
  intros ?; cbn beta. eapply runs_bind; [by apply runs_emit, Hm|]. intros ?; cbn beta.
  set (w0 := mkDeckView next m 0 None false).
  change (view_step v (TrackLoaded d m next)) with (put v d w0).
  eapply runs_bind; [by apply runs_emit_deck|]. intros ?; cbn beta.
  eapply runs_bind; [apply runs_emit_when; [|done]; simpl; by case_match|]. intros ?; cbn beta.
  assert (0 ≤ beat) as Hb0 by (unfold in_u32 in Hb; lia).
  eapply runs_last; [apply runs_emit_deck; [|done]|].
  2:{ intros p Hp. split; [|rewrite (at_decks _ _ _ _ _ _ _ Hp), lookup_insert_eq; by eexists].
    eapply inv_intro; [exact Hp|]. apply good_insert; [done|done|done| |].
    + split; simpl; try done. lia.
    + simpl. rewrite (proj2 (Z.ltb_ge beat 0)) by done. split; simpl; destruct (negb _); simpl; done || lia. }
  simpl. rewrite (proj2 (Z.ltb_ge beat 0)) by done. by destruct (negb _).
Qed.

(** A stopped deck that reports another beat has been moved. *)
Lemma stopped_seek_spec k beat observed :
  stopped_seek k beat observed = negb (pd_playing k) && negb (pd_beat k =? beat).
Proof.
  unfold stopped_seek, position_is_discontinuous. destruct (pd_playing k); simpl; [done|].
  by destruct (pd_beat k =? beat).
Qed.

Lemma runs_advance_when t decks leader next generation v (b : bool) :
  runs (at_ t decks leader next generation v) (when b advance_timing_generation)
    (λ _, at_ t decks leader next (generation + Z.b2z b) v) t.
Proof.
  apply runs_when; intros ->; simpl; [by apply runs_advance|].
  intros p Hp. by rewrite Z.add_0_r.
Qed.

(** The fields of the deck that a status frame leaves alone, and those it sets. *)
Lemma status_baseline_fields k candidate beat observed eff k' :
  let r := status_baseline k candidate beat observed eff k' in
  pd_metadata r = pd_metadata k' ∧ pd_track_load_id r = pd_track_load_id k' ∧
  pd_beat r = pd_beat k' ∧ pd_playing r = pd_playing k' ∧
  pd_discontinuity_revision r = pd_discontinuity_revision k' ∧
  (pd_last_status_beat r = beat ∨ pd_last_status_beat r = pd_last_status_beat k') ∧
  (∀ jump, pd_last_status_discontinuity r = Some jump →
     sd_absolute_beat jump = beat ∨ pd_last_status_discontinuity k' = Some jump).
Proof.
  unfold status_baseline. destruct candidate; [destruct (_ <=? _)|]; simpl; split_and!; try done; auto.
  - intros jump [= <-]. by left.
  - intros jump Hj. left. apply bind_Some in Hj as (c & _ & Hc).
    unfold advance_confirmed_status_landing in Hc. case_match; [done|]. by injection Hc as <-.
Qed.

Lemma after_status_fields now k playing seeked candidate discontinuity beat observed eff generation :
  let r := after_status now k playing seeked candidate discontinuity beat observed eff generation k in
  pd_metadata r = pd_metadata k ∧ pd_track_load_id r = pd_track_load_id k ∧
  pd_beat r = (if seeked || negb (pd_playing k) then beat else pd_beat k) ∧ pd_playing r = playing ∧
  pd_discontinuity_revision r = (if discontinuity then generation else pd_discontinuity_revision k) ∧
  (pd_last_status_beat r = beat ∨ pd_last_status_beat r = pd_last_status_beat k) ∧
  (∀ jump, pd_last_status_discontinuity r = Some jump →
     sd_absolute_beat jump = beat ∨ pd_last_status_discontinuity k = Some jump).
Proof.
  unfold after_status. cbv zeta.
  match goal with |- context [status_baseline ?a ?b ?c ?e ?f ?g] =>
    pose proof (status_baseline_fields a b c e f g) as (H1 & H2 & H3 & H4 & H5 & H6 & H7);
    set (r := status_baseline a b c e f g) in * end.
  destruct discontinuity; simpl; rewrite ?H1, ?H2, ?H3, ?H5; clear H1 H2 H3 H4 H5;
    destruct (seeked || negb (pd_playing k)), (_ || _ || _); simpl in *; split_and!; done.
Qed.

Lemma runs_update now t status k beat eff observed decks leader next generation v :
  let d := ds_device_number status in
  good decks leader next generation v → decks !! d = Some k → in_u32 beat →
  runs (at_ t decks leader next generation v) (update_from_status now status k beat eff observed t)
    (λ _ p, inv t p ∧ is_Some (pk_decks p !! d)) t.
Proof.
  intros d Hg Hk Hb. destruct (good_deck _ _ _ _ _ _ _ Hg Hk) as (Hok & w & Hw & Hsh).
  pose proof (ds_load _ _ Hsh) as Hload. rewrite <- (put_self v d w Hw).
  unfold update_from_status. fold d. rewrite stopped_seek_spec. cbv zeta.
  set (candidate := status_jump k _ _ _). clearbody candidate.
  set (seeked := negb (pd_playing k) && negb (pd_beat k =? beat)).
  set (started := negb (pd_playing k) && ds_playing status).
  set (toggled := negb (Bool.eqb (pd_playing k) (ds_playing status))).
  eapply runs_bind; [apply runs_emit_when; [by rewrite Hload|done]|]. intros ?; cbn beta.
  set (w1 := if negb _ then deck_step w _ else w). assert (w1 = w) as -> by (unfold w1; by case_match).
  set (w2 := if seeked then deck_step w (PlaybackPositionSeeked d (pd_track_load_id k) beat) else w).
  eapply (runs_bind t _ _ _ (λ _, at_ t decks leader next (generation + Z.b2z seeked) (put v d w2))).
  { unfold w2, seeked. destruct (negb (pd_beat k =? beat)); [|rewrite andb_false_r; simpl].
    - rewrite andb_true_r. destruct (pd_playing k); cbn [negb when Z.b2z];
        [by apply runs_ret; intros p Hp; rewrite Z.add_0_r|].
      eapply runs_bind; [apply runs_advance|]. intros ?; cbn beta.
      by apply runs_emit_deck; [rewrite Hload|].
    - apply runs_ret. intros p Hp. by rewrite Z.add_0_r. }
  intros ?; cbn beta. eapply runs_bind; [apply runs_advance_when|]. intros ?; cbn beta.
  assert (dv_load w2 = pd_track_load_id k) as Hw2 by (unfold w2; by destruct seeked).
  eapply runs_bind; [apply runs_emit_when; [by rewrite Hw2|done]|]. intros ?; cbn beta.
  set (w3 := if toggled then _ else w2). set (generation' := generation + Z.b2z seeked + Z.b2z started).
  eapply runs_bind; [apply (runs_get t _ _ (λ g p, at_ t decks leader next generation' (put v d w3) p
    ∧ g = generation')); intros p Hp; split; [done|apply Hp]|].
  intros g. apply runs_pure. intros ->.
  eapply runs_bind; [apply runs_on_loaded|]. intros ?; cbn beta. apply runs_ret. intros p Hp.
  set (f := after_status _ _ _ _ _ _ _ _ _ _) in Hp.
  pose proof (after_status_fields now k (ds_playing status) seeked candidate (seeked || started) beat observed
    eff generation') as (F1 & F2 & F3 & F4 & F5 & F6 & F7). fold f in F1, F2, F3, F4, F5, F6, F7.
  assert (generation ≤ generation') as Hle by (unfold generation'; destruct seeked, started; simpl; lia).
  split.
  - eapply inv_put; [exact Hg|exact Hk|exact Hle|done| | |exact Hp].
    + destruct Hok as [K1 K2 K3 K4 K5 K6]. split; rewrite ?F1, ?F2, ?F3, ?F5; try done.
      * destruct (seeked || negb (pd_playing k)); [exact Hb|exact K2].
      * destruct F6 as [-> | ->]; done.
      * intros jump [-> | Hj]%F7; [done|by eapply K4].
      * destruct (seeked || started); lia.
    + destruct Hsh as [S1 S2 S3 S4]. split; rewrite ?F2, ?F3, ?F4.
      * unfold w3. by destruct toggled.
      * unfold w3, w2, toggled. destruct (pd_playing k), (ds_playing status), seeked; simpl; done.
      * unfold w3, w2, seeked. destruct (pd_playing k), toggled, (Z.eqb_spec (pd_beat k) beat); simpl in *; lia.
      * unfold w3, w2, seeked. intros He. specialize (S4 He).
        destruct (pd_playing k), toggled, (Z.eqb_spec (pd_beat k) beat); simpl in *; lia.
  - rewrite (at_decks _ _ _ _ _ _ _ Hp), lookup_alter_eq, Hk. by eexists.
Qed.

Lemma good_lead decks leader next generation v d k :
  good decks leader next generation v → decks !! d = Some k →
  good decks (Some d) next generation (view_step v (LeaderChanged d (pd_track_load_id k))).
Proof.
  intros Hg Hk. destruct (good_deck _ _ _ _ _ _ _ Hg Hk) as (_ & w & Hw & [Hload _ _ _]).
  simpl. rewrite Hw, Hload, Z.eqb_refl. destruct Hg as [? ? ? ? ?]. split; try done.
  intros d' [= <-]. by eexists.
Qed.

Lemma runs_follow t status flags :
  runs (λ p, inv t p ∧ is_Some (pk_decks p !! ds_device_number status))
    (follow_tempo_master status t flags) (λ _, inv t) t.
Proof.
  apply (runs_inv_decks t (λ decks, is_Some (decks !! ds_device_number status))).
  intros decks leader next generation v Hg [k Hk]. unfold follow_tempo_master.
  eapply runs_bind; [apply (runs_get t _ _ (λ _, at_ t decks leader next generation v)); done|].
  intros l; cbn beta. destruct (_ && _); [|by apply runs_ret; intros p Hp; eapply inv_intro; [exact Hp|]].
  eapply runs_bind; [apply runs_advance|]. intros ?; cbn beta.
  assert (good decks leader next (generation + 1) v) as Hg' by (eapply good_more; [exact Hg|lia|lia]).
  eapply runs_bind; [apply (runs_get t _ _ (λ o p, at_ t decks leader next (generation + 1) v p
    ∧ o = Some k)); intros p Hp; split; [done|]; by rewrite (at_decks _ _ _ _ _ _ _ Hp)|].
  intros o. apply runs_pure. intros ->. cbn [ok_or].
  eapply runs_bind; [apply (runs_ret t _ k (λ r p, at_ t decks leader next (generation + 1) v p ∧ r = k)); done|].
  intros r. apply runs_pure. intros ->.
  eapply runs_bind; [apply (runs_modify t _ _ (λ _, at_ t decks (Some (ds_device_number status)) next (generation + 1) v))|].
  { intros p Hp. pose proof Hp as [? ? ? ? ? ?]. eapply at_change; [exact Hp|simpl; congruence..]. }
  intros ?; cbn beta. eapply runs_bind; [by apply runs_emit|]. intros ?; cbn beta.
  apply runs_ret. intros p Hp. eapply inv_intro; [exact Hp|by eapply good_lead].
Qed.

(** The methods that only record: get values and change hidden fields. *)
Lemma runs_push_timing t o : runs (inv t) (push_timing o) (λ _, inv t) t.
Proof. by apply runs_hidden_inv. Qed.

Lemma runs_publish_timing t status flags beat eff observed :
  runs (inv t) (publish_status_timing status flags beat eff observed) (λ _, inv t) t.
Proof.
  unfold publish_status_timing. eapply runs_bind; [apply runs_get_inv|]. intros g; cbn beta.
  destruct (_ && _); [apply runs_push_timing|]. destruct (_ && _); [|by apply runs_ret].
  eapply runs_bind; [apply runs_get_inv|]. intros k; cbn beta. apply runs_push_timing.
Qed.

Lemma runs_checked {A} t (r : result A ProLinkProviderError) :
  runs (inv t) (method_result r) (λ a p, inv t p ∧ r = Ok a) t.
Proof. intros p Hp. unfold method_result. simpl. destruct r; simpl; [done|by right]. Qed.

Lemma runs_apply_status now t status observed : runs (inv t) (apply_status now status observed t) (λ _, inv t) t.
Proof.
  unfold apply_status. destruct (_ || _); [apply runs_unload_inv|].
  eapply runs_bind; [apply runs_checked|]. intros bpm. apply runs_pure. intros _.
  eapply runs_bind; [apply runs_checked|]. intros eff. apply runs_pure. intros _.
  eapply runs_bind; [apply runs_checked|]. intros n. apply runs_pure. intros Hn.
  assert (in_u32 (saturating_sub_unsigned n 1)) as Hb.
  { unfold ok_or, u32_try_from in Hn. case_match eqn:E; [|done]. injection Hn as <-.
    unfold u32_try_from in E. destruct ((0 <=? _) && _) eqn:Ew; [|done]. injection E as <-.
    unfold in_u32, saturating_sub_unsigned. lia. }
  set (beat := saturating_sub_unsigned n 1) in *. set (d := ds_device_number status).
  eapply runs_bind; [apply runs_get_inv|]. intros identity; cbn beta.
  eapply runs_bind; [apply (runs_get t _ _ (λ o p, inv t p ∧ pk_decks p !! d = o)); done|].
  intros o; cbn beta.
  eapply (runs_bind t _ _ _ (λ _ p, inv t p ∧ is_Some (pk_decks p !! d))).
  - assert (∀ I, (∀ p, I p → inv t p) →
      runs I (do! load_from_status now status identity beat bpm eff observed t then
        method_ret (mkStatusFlags true true false)) (λ _ p, inv t p ∧ is_Some (pk_decks p !! d)) t) as Hload.
    { intros I HI. eapply runs_bind; [eapply runs_weaken; [exact HI|intros a p H; exact H|by apply runs_load]|].
      intros ?; cbn beta. by apply runs_ret. }
    destruct o as [k|]; [case_bool_decide|]; [|by apply Hload; intros p []..].
    apply (runs_inv_decks t (λ decks, decks !! d = Some k)). intros decks leader next generation v Hg Hk.
    by apply runs_update.
  - intros flags; cbn beta. eapply runs_bind; [apply runs_follow|]. intros flags'; cbn beta.
    apply runs_publish_timing.
Qed.

(** ** Beats and positions *)

Lemma changed_phrase_u16 next generation k beat i :
  deck_ok next generation k → changed_phrase k beat = Some i → in_u16 i.
Proof.
  intros [(_ & _ & Hf) _ _ _ _ _] Hi. unfold changed_phrase in Hi.
  destruct (phrase_index_at _ _) as [j|] eqn:E; [|done]. case_bool_decide; [done|]. injection Hi as <-.
  rewrite Forall_forall in Hf. unfold phrase_index_at in E. apply fmap_Some in E as (ph & Hph & ->). apply Hf.
  destruct (List.find _ _) as [ph'|] eqn:Ef.
  - injection Hph as <-. apply find_some in Ef as [Hin _]. by apply list_elem_of_In.
  - destruct (last _) as [ph'|] eqn:El; [|done]. case_match; [|done]. injection Hph as <-.
    by apply last_Some_elem_of.
Qed.

Lemma beat_landing_u32 next generation k b observed :
  deck_ok next generation k → in_u32 (beat_landing k b observed).
Proof.
  intros [_ Hb Hs Hj _ _]. unfold beat_landing, align_beat_within_bar, precise_absolute_beat.
  destruct (supported_status_seek k observed) as [jump|] eqn:E; [|case_match];
    apply nearest_in_bar_u32; try done.
  - unfold supported_status_seek in E. destruct (pd_last_status_discontinuity k) as [j|] eqn:Ej; [|done].
    case_match; [|done]. injection E as ->. by apply Hj.
  - unfold saturating_add_u32, in_u32 in *. lia.
Qed.

(** The view of a deck after its position, and after its phrase. *)
Definition positioned w d (load before beat : Z) (seeked : bool) : DeckView :=
  if negb (before =? beat)
  then deck_step w (if seeked then PlaybackPositionSeeked d load beat else PlaybackPosition d load beat)
  else w.

Definition phrased w d (load : Z) (phrase : option Z) : DeckView :=
  match phrase with Some i => deck_step w (PhraseChanged d load i) | None => w end.

Lemma phrased_fields w d phrase :
  dv_load (phrased w d (dv_load w) phrase) = dv_load w ∧
  dv_playing (phrased w d (dv_load w) phrase) = dv_playing w ∧
  dv_beat (phrased w d (dv_load w) phrase) = dv_beat w.
Proof. destruct phrase; [|done]. simpl. by case_match. Qed.

Lemma positioned_fields w d before beat seeked :
  let r := positioned w d (dv_load w) before beat seeked in
  dv_load r = dv_load w ∧ dv_playing r = dv_playing w ∧
  dv_beat r = (if before =? beat then dv_beat w else if seeked then beat else Z.max (dv_beat w) beat).
Proof.
  unfold positioned. destruct (before =? beat); [done|]. destruct seeked; simpl; [done|].
  destruct (Z.ltb_spec beat (dv_beat w)); simpl; split_and!; try done; lia.
Qed.

Lemma runs_emit_position t decks leader next generation v d w before beat seeked :
  in_u32 beat →
  runs (at_ t decks leader next generation (put v d w)) (emit_position t d (dv_load w) before beat seeked)
    (λ _, at_ t decks leader next generation (put v d (positioned w d (dv_load w) before beat seeked))) t.
Proof.
  intros Hb. unfold emit_position, positioned. apply runs_emit_when; intros; by destruct seeked.
Qed.

Lemma runs_emit_phrase t decks leader next generation v d w phrase :
  (∀ i, phrase = Some i → in_u16 i) →
  runs (at_ t decks leader next generation (put v d w)) (emit_phrase t d (dv_load w) phrase)
    (λ _, at_ t decks leader next generation (put v d (phrased w d (dv_load w) phrase))) t.
Proof.
  intros Hi. unfold emit_phrase, phrased. destruct phrase as [i|]; [|by apply runs_ret].
  apply runs_emit_deck; [done|]. by apply Hi.
Qed.

(** Where a deck and its view are after the position and the phrase of a new beat. *)
Lemma deck_shown_moved k k' w d beat seeked phrase :
  deck_shown k w → pd_track_load_id k' = pd_track_load_id k → pd_playing k' = pd_playing k →
  pd_beat k' = beat → (exact → seeked = false → pd_beat k ≤ beat) →
  deck_shown k' (phrased (positioned w d (dv_load w) (pd_beat k) beat seeked) d (dv_load w) phrase).
Proof.
  intros [S1 S2 S3 S4] H1 H2 H3 H4.
  destruct (positioned_fields w d (pd_beat k) beat seeked) as (P1 & P2 & P3).
  set (r := positioned w d (dv_load w) (pd_beat k) beat seeked) in *.
  rewrite <- P1. destruct (phrased_fields r d phrase) as (Q1 & Q2 & Q3).
  split; rewrite ?Q1, ?Q2, ?Q3, ?P1, ?P2, ?P3, ?H1, ?H2, ?H3; [done|done| |].
  - destruct (Z.eqb_spec (pd_beat k) beat), seeked; lia.
  - intros He. specialize (S4 He). specialize (H4 He).
    destruct (Z.eqb_spec (pd_beat k) beat), seeked; lia.
Qed.

Lemma runs_count_seek t decks leader next generation v (b : bool) :
  runs (at_ t decks leader next generation v) (when b count_seek)
    (λ _, at_ t decks leader next (generation + Z.b2z b) v) t.
Proof.
  apply runs_when; intros ->; simpl; [|intros p Hp; by rewrite Z.add_0_r].
  eapply runs_bind; [apply runs_advance|]. intros ?; cbn beta. by apply runs_hidden.
Qed.

Lemma runs_get_generation t decks leader next generation v :
  runs (at_ t decks leader next generation v) (method_get pk_timing_generation)
    (λ g p, at_ t decks leader next generation v p ∧ g = generation) t.
Proof. apply runs_get. intros p Hp. split; [done|apply Hp]. Qed.

Lemma after_beat_fields now k seeked continuous beat observed generation :
  let r := after_beat now k seeked continuous beat observed generation k in
  pd_metadata r = pd_metadata k ∧ pd_track_load_id r = pd_track_load_id k ∧
  pd_beat r = beat ∧ pd_playing r = pd_playing k ∧
  pd_discontinuity_revision r = (if seeked then generation else pd_discontinuity_revision k) ∧
  pd_last_status_beat r = pd_last_status_beat k ∧
  (∀ jump, pd_last_status_discontinuity r = Some jump → pd_last_status_discontinuity k = Some jump).
Proof. unfold after_beat. destruct seeked, continuous; simpl; split_and!; done. Qed.

(** A deck whose fields are those of [k] but for the beat is well formed. *)
Lemma deck_ok_moved next generation generation' k k' (revised : bool) :
  deck_ok next generation k → generation ≤ generation' →
  pd_metadata k' = pd_metadata k → pd_track_load_id k' = pd_track_load_id k → in_u32 (pd_beat k') →
  pd_discontinuity_revision k' = (if revised then generation' else pd_discontinuity_revision k) →
  pd_last_status_beat k' = pd_last_status_beat k →
  (∀ jump, pd_last_status_discontinuity k' = Some jump → pd_last_status_discontinuity k = Some jump) →
  deck_ok next generation' k'.
Proof.
  intros [K1 K2 K3 K4 K5 K6] Hle F1 F2 F3 F4 F5 F6. split; rewrite ?F1, ?F2, ?F4, ?F5; try done.
  - intros jump Hj%F6. by eapply K4.
  - destruct revised; lia.
Qed.

Lemma runs_apply_beat now t beat observed : runs (inv t) (apply_beat now beat observed t) (λ _, inv t) t.
Proof.
  unfold apply_beat. destruct (negb _); [by apply runs_ret|]. set (d := bt_device_number beat).
  eapply runs_bind; [apply (runs_get t _ _ (λ o p, inv t p ∧ pk_decks p !! d = o)); done|].
  intros [k|]; cbn beta; [|apply runs_ret; by intros p []].
  apply (runs_inv_decks t (λ decks, decks !! d = Some k)). intros decks leader next generation v Hg Hk.
  destruct (good_deck _ _ _ _ _ _ _ Hg Hk) as (Hok & w & Hw & Hsh).
  pose proof (ds_load _ _ Hsh) as Hload. rewrite <- (put_self v d w Hw), <- Hload.
  pose proof (beat_landing_u32 _ _ _ (bt_beat_within_bar beat) observed Hok) as Hbu.
  set (b := beat_landing k _ _) in *. cbv zeta. set (far := 1 <? abs_diff b (pd_beat k)).
  set (seek := bool_decide (is_Some (supported_status_seek k observed))).
  set (seeked := seek && far). destruct (negb seeked && _) eqn:Erej.
  { apply runs_ret. intros p Hp. eapply inv_intro; [exact Hp|]. by rewrite put_self. }
  assert (exact → seeked = false → pd_beat k ≤ b) as Hfwd.
  { intros _ Hs. rewrite Hs in Erej. simpl in Erej. apply orb_false_iff in Erej as [?%Z.ltb_ge _]. done. }
  eapply runs_bind; [apply runs_count_seek|]. intros ?; cbn beta.
  eapply runs_bind; [by apply runs_emit_position|]. intros ?; cbn beta.
  set (w1 := positioned _ _ _ _ _ _). assert (dv_load w1 = dv_load w) as Hw1 by apply positioned_fields.
  eapply runs_bind; [apply runs_get_generation|]. intros g. apply runs_pure. intros ->.
  eapply runs_bind; [apply runs_on_loaded|]. intros ?; cbn beta. rewrite <- Hw1.
  eapply runs_bind; [apply runs_emit_phrase; intros i; by eapply changed_phrase_u16|]. intros ?; cbn beta.
  rewrite Hw1. set (f := after_beat _ _ _ _ _ _ _).
  destruct (after_beat_fields now k seeked (seek && negb far) b observed (generation + Z.b2z seeked))
    as (F1 & F2 & F3 & F4 & F5 & F6 & F7). fold f in F1, F2, F3, F4, F5, F6, F7.
  assert (generation ≤ generation + Z.b2z seeked) as Hle by (destruct seeked; simpl; lia).
  eapply runs_weaken; [|intros ? ? H; exact H|apply runs_push_timing]. intros p Hp.
  eapply inv_put; [exact Hg|exact Hk|exact Hle|exact F2| |by apply deck_shown_moved with (k := k)|exact Hp].
  eapply deck_ok_moved; [exact Hok|exact Hle|done|done|by rewrite F3|exact F5|done|done].
Qed.

(** A change of a deck in fields that neither the invariant nor the view names. *)
Definition unnamed (f : LoadedDeck → LoadedDeck) : Prop :=
  ∀ k, pd_metadata (f k) = pd_metadata k ∧ pd_track_load_id (f k) = pd_track_load_id k ∧
    pd_beat (f k) = pd_beat k ∧ pd_playing (f k) = pd_playing k ∧
    pd_discontinuity_revision (f k) = pd_discontinuity_revision k ∧
    pd_last_status_beat (f k) = pd_last_status_beat k ∧
    pd_last_status_discontinuity (f k) = pd_last_status_discontinuity k.

Lemma runs_on_loaded_unnamed t d f : unnamed f → runs (inv t) (on_loaded d f) (λ _, inv t) t.
Proof.
  intros Hf. apply runs_inv. intros decks leader next generation v Hg.
  destruct (decks !! d) as [k|] eqn:Hk.
  - destruct (good_deck _ _ _ _ _ _ _ Hg Hk) as (Hok & w & Hw & [S1 S2 S3 S4]).
    rewrite <- (put_self v d w Hw). eapply runs_last; [apply runs_on_loaded|]. intros p Hp.
    destruct (Hf k) as (F1 & F2 & F3 & F4 & F5 & F6 & F7).
    eapply inv_put; [exact Hg|exact Hk|done|exact F2| | |exact Hp].
    + eapply (deck_ok_moved _ _ _ _ _ false); [exact Hok|done|done|done| |exact F5|done|].
      * rewrite F3. apply Hok.
      * intros jump. by rewrite F7.
    + split; rewrite ?F2, ?F3, ?F4; done.
  - eapply runs_last; [apply runs_on_loaded|]. intros p Hp. eapply inv_intro; [|exact Hg].
    assert (alter f d decks = decks) as <-; [|exact Hp]. by apply alter_id; intros ? ?; congruence.
Qed.

Lemma after_authoritative_fields now k seeked o beat generation :
  let r := after_authoritative now k seeked o beat generation k in
  pd_metadata r = pd_metadata k ∧ pd_track_load_id r = pd_track_load_id k ∧
  pd_beat r = beat ∧ pd_playing r = pd_playing k ∧
  pd_discontinuity_revision r = (if seeked then generation else pd_discontinuity_revision k) ∧
  pd_last_status_beat r = pd_last_status_beat k ∧
  (∀ jump, pd_last_status_discontinuity r = Some jump → pd_last_status_discontinuity k = Some jump).
Proof. unfold after_authoritative. destruct seeked; simpl; split_and!; done. Qed.

Lemma runs_commit now t k seeked candidate o beat decks leader next generation v :
  good decks leader next generation v → decks !! ppo_deck_id o = Some k → in_u32 beat →
  pd_track_load_id k = ppo_track_load_id o → pd_playing k && negb (pd_precise_position_seen k) = false →
  (exact → pd_playing k = false → pd_beat k ≤ beat) →
  runs (at_ t decks leader next generation v) (commit_authoritative now k seeked candidate o beat t)
    (λ _, inv t) t.
Proof.
  intros Hg Hk Hb Hid Hpf Hex. destruct (good_deck _ _ _ _ _ _ _ Hg Hk) as (Hok & w & Hw & Hsh).
  pose proof (ds_load _ _ Hsh) as Hload. unfold commit_authoritative. rewrite <- Hid, <- Hload.
  set (d := ppo_deck_id o) in *. eapply runs_bind; [apply runs_count_seek|]. intros ?; cbn beta.
  set (generation' := generation + Z.b2z seeked).
  assert (generation ≤ generation') as Hle by (unfold generation'; destruct seeked; simpl; lia).
  eapply runs_bind; [by apply runs_hidden|]. intros ?; cbn beta.
  destruct (_ && negb seeked) eqn:Equiet.
  - eapply (runs_bind t _ _ _ (λ _, inv t)); [|intros ?; cbn beta; by apply runs_ret].
    eapply (runs_weaken t (inv t) _ _ (λ _, inv t)); [|done|apply runs_on_loaded_unnamed].
    + intros p Hp. eapply inv_intro; [exact Hp|]. eapply good_more; [exact Hg|lia|done].
    + intros k'. destruct candidate; simpl; by split_and!.
  - rewrite <- (put_self v d w Hw).
    eapply runs_bind; [by apply runs_emit_position|]. intros ?; cbn beta.
    set (w1 := positioned _ _ _ _ _ _). assert (dv_load w1 = dv_load w) as Hw1 by apply positioned_fields.
    eapply runs_bind; [apply runs_get_generation|]. intros g. apply runs_pure. intros ->.
    eapply runs_bind; [apply runs_on_loaded|]. intros ?; cbn beta. rewrite <- Hw1.
    eapply runs_bind; [apply runs_emit_phrase; intros i; by eapply changed_phrase_u16|]. intros ?; cbn beta.
    rewrite Hw1. set (f := after_authoritative _ _ _ _ _ _).
    destruct (after_authoritative_fields now k seeked o beat generation') as (F1 & F2 & F3 & F4 & F5 & F6 & F7).
    fold f in F1, F2, F3, F4, F5, F6, F7.
    eapply (runs_bind t _ _ _ (λ _, inv t)); [|intros ?; cbn beta; by apply runs_ret].
    eapply (runs_weaken t (inv t) _ _ (λ _, inv t)); [|done|apply runs_when; [intros _; apply runs_push_timing|done]].
    intros p Hp.
    eapply inv_put; [exact Hg|exact Hk|exact Hle|exact F2| 
      |apply (deck_shown_moved k _ w d beat seeked); [exact Hsh|exact F2|exact F4|exact F3|]|exact Hp].
    + eapply deck_ok_moved; [exact Hok|exact Hle|done|done|by rewrite F3|exact F5|done|done].
    + intros He Hs. apply Hex; [done|]. rewrite Hs in Equiet. simpl in Equiet.
      destruct (pd_playing k), (pd_precise_position_seen k); done.
Qed.

Lemma runs_authoritative now t o beat hot :
  in_u32 beat →
  runs (λ p, inv t p ∧ ∀ k, exact → pk_decks p !! ppo_deck_id o = Some k → pd_playing k = false → pd_beat k ≤ beat)
    (apply_authoritative_position now o beat hot t) (λ _, inv t) t.
Proof.
  intros Hb. set (d := ppo_deck_id o).
  apply (runs_inv_decks t (λ decks, ∀ k, exact → decks !! d = Some k → pd_playing k = false → pd_beat k ≤ beat)).
  intros decks leader next generation v Hg Hex. unfold apply_authoritative_position. fold d.
  eapply runs_bind; [apply (runs_get t _ _ (λ r p, at_ t decks leader next generation v p ∧ r = decks !! d));
    intros p Hp; split; [done|]; by rewrite (at_decks _ _ _ _ _ _ _ Hp)|].
  intros r. apply runs_pure. intros ->.
  assert (∀ A (m : prolink A) J, runs (inv t) m J t → runs (at_ t decks leader next generation v) m J t) as Hinv.
  { intros A m J. apply runs_weaken; [|done]. intros p Hp. by eapply inv_intro. }
  destruct (decks !! d) as [k|] eqn:Hk; [|by apply Hinv, runs_ret].
  destruct (Z.eqb_spec (pd_track_load_id k) (ppo_track_load_id o)) as [Hid|]; simpl; [|by apply Hinv, runs_ret].
  destruct (pd_playing k && negb (pd_precise_position_seen k)) eqn:Hpf.
  { apply Hinv. eapply runs_bind; [by apply runs_hidden_inv|]. intros ?; cbn beta.
    eapply runs_bind; [by apply runs_on_loaded_unnamed|]. intros ?; cbn beta. by apply runs_ret. }
  set (candidate := discontinuity_candidate _ _ _).
  destruct (pd_playing k && candidate && _).
  { apply Hinv. eapply runs_bind; [by apply runs_hidden_inv|]. intros ?; cbn beta.
    eapply runs_bind; [by apply runs_on_loaded_unnamed|]. intros ?; cbn beta. by apply runs_ret. }
  destruct (candidate && _); [destruct (_ || _)|].
  - apply Hinv. eapply runs_bind; [by apply runs_on_loaded_unnamed|]. intros ?; cbn beta. by apply runs_ret.
  - apply runs_commit; try done. intros He. by apply Hex.
  - apply runs_commit; try done. intros He. by apply Hex.
Qed.

(** ** Metadata, messages and sessions *)

Lemma deck_of_load_Some p load d k :
  deck_of_load p load = Some (d, k) → pk_decks p !! d = Some k ∧ pd_track_load_id k = load.
Proof.
  unfold deck_of_load. intros [Hin Hl%Z.eqb_eq]%find_some.
  split; [|done]. apply decks_in_order_elem. by apply list_elem_of_In.
Qed.

Lemma runs_get_found t load :
  runs (inv t) (method_get (λ p, deck_of_load p load))
    (λ found p, inv t p ∧ match found with
       | Some (d, k) => pk_decks p !! d = Some k ∧ pd_track_load_id k = load
       | None => True
       end) t.
Proof.
  apply runs_get. intros p Hp. split; [done|]. destruct (deck_of_load p load) as [[d k]|] eqn:E; [|done].
  by apply deck_of_load_Some.
Qed.

(** The metadata of a deck is replaced. *)
Lemma good_hydrated decks leader next generation v d k m w' :
  good decks leader next generation v → decks !! d = Some k → track_typed m →
  (∀ w, sv_decks v !! d = Some w → deck_shown k w → deck_shown k w') →
  good (alter (λ deck, set_pd_phrase_index None (set_pd_metadata m deck)) d decks) leader next generation (put v d w').
Proof.
  intros Hg Hk Hm Hw'. destruct (good_deck _ _ _ _ _ _ _ Hg Hk) as ([K1 K2 K3 K4 K5 K6] & w & Hw & Hsh).
  set (f := λ deck, _). assert (alter f d decks = <[d := f k]> decks) as ->.
  { apply map_eq. intros d'. destruct (decide (d = d')) as [<-|Hne].
    - by rewrite lookup_alter_eq, Hk, lookup_insert_eq.
    - by rewrite lookup_alter_ne, lookup_insert_ne. }
  eapply good_put; [done|exact Hk|done|by split|]. destruct (Hw' w Hw Hsh). by split.
Qed.

Lemma runs_hydrate t load m :
  track_typed m → runs (inv t) (hydrate_track_metadata load m) (λ _, inv t) t.
Proof.
  intros Hm. unfold hydrate_track_metadata. eapply runs_bind; [apply runs_get_found|].
  intros [[d k]|]; cbn beta iota; [|apply runs_ret; by intros p []].
  eapply runs_bind; [|intros ?; cbn beta; apply (runs_ret t (inv t)); done].
  intros p [(decks & leader & next & generation & v & Hp & Hg) [Hk _]].
  rewrite (at_decks _ _ _ _ _ _ _ Hp) in Hk. revert p Hp.
  destruct (good_deck _ _ _ _ _ _ _ Hg Hk) as (_ & w & Hw & Hsh).
  set (f := λ deck, set_pd_phrase_index None (set_pd_metadata m deck)).
  apply (runs_last t (at_ t decks leader next generation v) (on_loaded d f) (alter f d decks) leader next
    generation v (λ _, inv t)); [apply runs_on_loaded|].
  intros p Hp. eapply inv_intro; [exact Hp|]. rewrite <- (put_self v d w Hw).
  eapply good_hydrated; [exact Hg|exact Hk|done|]. intros w0 Hw0. rewrite Hw in Hw0. by injection Hw0 as <-.
Qed.

Lemma publish_spec t load m p :
  publish_hydrated_track load m t p =
  match deck_of_load p load with
  | None => (p, Ok false)
  | Some (d, _) =>
      (do! prolink_emit t (TrackMetadataHydrated d m load) then method_ret true)
        (set_pk_decks (alter (λ deck, set_pd_phrase_index None (set_pd_metadata m deck)) d (pk_decks p)) p)
  end.
Proof.
  unfold publish_hydrated_track, hydrate_track_metadata, on_loaded, method_modify, method_get.
  unfold method_bind at 1. destruct (deck_of_load p load) as [[d k]|] eqn:E; [|done].
  unfold method_bind at 1. unfold method_bind at 1. cbv beta iota. rewrite E. done.
Qed.

Lemma runs_publish t load m :
  track_typed m → runs (inv t) (publish_hydrated_track load m t) (λ _, inv t) t.
Proof.
  intros Hm p Hinv. rewrite publish_spec. destruct (deck_of_load p load) as [[d k]|] eqn:E; [|exact Hinv].
  destruct Hinv as (decks & leader & next & generation & v & Hp & Hg).
  apply deck_of_load_Some in E as [Hk Hl]. rewrite (at_decks _ _ _ _ _ _ _ Hp) in Hk |- *.
  destruct (good_deck _ _ _ _ _ _ _ Hg Hk) as (_ & w & Hw & Hsh). pose proof (ds_load _ _ Hsh) as Hload.
  set (f := λ deck, set_pd_phrase_index None (set_pd_metadata m deck)). set (q := set_pk_decks _ p).
  assert (at_ t (alter f d decks) leader next generation (put v d w) q) as Hq.
  { rewrite put_self by done. pose proof Hp as [? ? ? ? ? ?]. eapply at_change; [exact Hp|simpl; congruence..]. }
  clearbody q. revert q Hq. set (w' := deck_step w (TrackMetadataHydrated d m load)).
  assert (runs (at_ t (alter f d decks) leader next generation (put v d w))
    (do! prolink_emit t (TrackMetadataHydrated d m load) then method_ret true) (λ _, inv t) t) as H; [|exact H].
  eapply runs_bind; [apply runs_emit_deck; [by rewrite Hload, Hl|apply Hm]|]. intros ?; cbn beta.
  apply runs_ret. intros q Hq. eapply inv_intro; [exact Hq|].
  eapply good_hydrated; [exact Hg|exact Hk|done|]. intros w0 Hw0 [S1 S2 S3 S4]. rewrite Hw in Hw0. injection Hw0 as <-.
  by split.
Qed.

Lemma runs_queue_position now t position observed :
  runs (inv t) (queue_precise_position now position observed) (λ _, inv t) t.
Proof.
  unfold queue_precise_position. destruct (negb _); [by apply runs_ret|].
  eapply runs_bind; [apply runs_get_inv|]. intros [k|]; cbn beta iota; [|by apply runs_ret].
  eapply runs_bind; [by apply runs_hidden_inv|]. intros ?; cbn beta.
  eapply runs_bind; [by apply runs_on_loaded_unnamed|]. intros ?; cbn beta. by apply runs_hidden_inv.
Qed.

Lemma runs_tempo t tempo observed : runs (inv t) (apply_tempo_status tempo observed) (λ _, inv t) t.
Proof.
  unfold apply_tempo_status. destruct (negb _); [by apply runs_ret|].
  eapply runs_bind; [apply runs_get_inv|]. intros [k|]; cbn beta iota; [|by apply runs_ret].
  eapply runs_bind; [apply runs_checked|]. intros eff. apply runs_pure. intros _.
  eapply runs_bind; [apply runs_get_inv|]. intros g; cbn beta. apply runs_push_timing.
Qed.

Lemma runs_degraded t message : runs (inv t) (mark_degraded message t) (λ _, inv t) t.
Proof.
  eapply runs_bind; [by apply runs_hidden_inv|]. intros ?; cbn beta. apply runs_status.
Qed.

Lemma runs_ingest now t message : runs (inv t) (ingest now message t) (λ _, inv t) t.
Proof.
  unfold ingest. eapply runs_bind; [by apply runs_hidden_inv|]. intros ?; cbn beta.
  destruct (bm_event message); try by apply runs_ret.
  - eapply runs_bind; [by apply runs_hidden_inv|]. intros ?; cbn beta. by apply runs_hidden_inv.
  - apply runs_status.
  - by apply runs_hidden_inv.
  - eapply runs_bind; [by apply runs_hidden_inv|]. intros ?; cbn beta. apply runs_unload_inv.
  - apply runs_apply_status.
  - apply runs_apply_beat.
  - apply runs_tempo.
  - apply runs_queue_position.
  - eapply runs_bind; [by apply runs_hidden_inv|]. intros ?; cbn beta. by apply runs_on_loaded_unnamed.
  - apply runs_degraded.
Qed.

Lemma runs_invalidate t player : runs (inv t) (invalidate_source_media player t) (λ _, inv t) t.
Proof.
  eapply runs_bind; [apply runs_get_inv|]. intros ?; cbn beta. apply runs_unload_decks_inv.
Qed.

Lemma runs_clear_inv t : runs (inv t) (prolink_clear t) (λ _, inv t) t.
Proof. eapply (runs_weaken t (inv t)); [done| |apply runs_clear]. by intros _ p []. Qed.

Lemma runs_recovery t : runs (inv t) (begin_bridge_recovery t) (λ _, inv t) t.
Proof.
  unfold begin_bridge_recovery. eapply runs_bind; [apply runs_clear|]. intros ?; cbn beta.
  eapply (runs_bind t _ _ _ (λ _, inv t)); [|intros ?; cbn beta; apply runs_status].
  apply runs_modify. intros p ((decks & leader & next & generation & v & Hp & Hg) & Hd & Hl).
  assert (leader = None) as -> by (by rewrite <- (at_leader _ _ _ _ _ _ _ Hp)).
  eapply inv_intro; [|exact Hg]. pose proof Hp as [? ? ? ? ? ?].
  eapply at_change; [exact Hp|simpl; congruence..].
Qed.

End Shown.

(** ** Runs *)

Inductive ProLinkOp : Type :=
| PIngest (message : BridgeMessage) (t : MonotonicTime)
| PAuthoritative (observation : ProLinkPrecisePositionObservation) (beat : Z) (hot : bool)
    (t : MonotonicTime)
| PHydrate (track_load_id : TrackLoadId) (metadata : TrackMetadata)
| PPublish (track_load_id : TrackLoadId) (metadata : TrackMetadata) (t : MonotonicTime)
| PInvalidate (source_player : Z) (t : MonotonicTime)
| PDegraded (message : str) (t : MonotonicTime)
| PRecovery (t : MonotonicTime)
| PClear (t : MonotonicTime)
| PDrainTiming
| PDrainPrecise
| PDrain.

Definition forget_value {A} (m : prolink A) : prolink unit := do! m then method_ret tt.

Definition prolink_op (now : nat → Instant) (op : ProLinkOp) : prolink unit :=
  match op with
  | PIngest message t => ingest now message t
  | PAuthoritative o beat hot t => forget_value (apply_authoritative_position now o beat hot t)
  | PHydrate load m => forget_value (hydrate_track_metadata load m)
  | PPublish load m t => forget_value (publish_hydrated_track load m t)
  | PInvalidate player t => invalidate_source_media player t
  | PDegraded message t => mark_degraded message t
  | PRecovery t => begin_bridge_recovery t
  | PClear t => prolink_clear t
  | PDrainTiming => forget_value drain_timing_observations
  | PDrainPrecise => forget_value drain_precise_position_observations
  | PDrain => method_ret tt
  end.

(** A position behind the beat of a stopped deck. *)
Definition moves_back p (op : ProLinkOp) : bool :=
  match op with
  | PAuthoritative o beat _ _ =>
      option_is_some_and (λ k, negb (pd_playing k) && (beat <? pd_beat k)) (pk_decks p !! ppo_deck_id o)
  | _ => false
  end.

Definition is_overflow (e : ProLinkProviderError) : bool :=
  match e with
  | PLSequenceOverflow | PLTrackLoadIdOverflow | PLTimingGenerationOverflow => true
  | _ => false
  end.

(** The provider after a run, what was drained, whether a counter overflowed, whether a
    position moved a stopped deck back, and the outcomes of the calls. *)
Record ProLinkRun := mkProLinkRun {
  run_provider : ProLinkDeckSourceProvider;
  run_drained : list DomainEvent;
  run_overflowed : bool;
  run_moved_back : bool;
}.

Definition prolink_step (r : ProLinkRun) (call : (nat → Instant) * ProLinkOp) : ProLinkRun :=
  let p := run_provider r in
  let '(p', outcome) := prolink_op call.1 call.2 p in
  let '(p', es) := match call.2 with
                   | PDrain => (set_pk_pending_events [] p', pk_pending_events p')
                   | _ => (p', [])
                   end in
  mkProLinkRun p' (run_drained r ++ es)
    (run_overflowed r || match outcome with Err e => is_overflow e | Ok _ => false end)
    (run_moved_back r || moves_back p call.2).

Definition prolink_start (t : MonotonicTime) : ProLinkRun := mkProLinkRun (ProLink_new t).1 [] false false.

Definition prolink_run (t : MonotonicTime) (calls : list ((nat → Instant) * ProLinkOp)) : ProLinkRun :=
  foldl prolink_step (prolink_start t) calls.

Definition prolink_op_wf (op : ProLinkOp) : Prop :=
  match op with
  | PAuthoritative _ beat _ _ => in_u32 beat
  | PHydrate _ m | PPublish _ m _ => track_typed m
  | _ => True
  end.

Definition prolink_op_time (last : Z) (op : ProLinkOp) : Z :=
  match op with
  | PIngest _ t | PAuthoritative _ _ _ t | PPublish _ _ t | PInvalidate _ t | PDegraded _ t
  | PRecovery t | PClear t => t
  | PHydrate _ _ | PDrainTiming | PDrainPrecise | PDrain => last
  end.

Fixpoint calls_in_order (last : Z) (calls : list ((nat → Instant) * ProLinkOp)) : Prop :=
  match calls with
  | [] => True
  | (_, op) :: calls => last ≤ prolink_op_time last op ∧ calls_in_order (prolink_op_time last op) calls
  end.

Lemma runs_forget {A} drained t0 exact t I (m : prolink A) :
  triple I m (post (λ _, inv drained t0 exact t) (failed drained t0 exact t)) →
  triple I (forget_value m) (post (λ _, inv drained t0 exact t) (failed drained t0 exact t)).
Proof. intros Hm. eapply runs_bind; [exact Hm|]. intros ?; cbn beta. by apply runs_ret. Qed.

Lemma op_keeps drained t0 exact last now op p :
  prolink_op_wf op → last ≤ prolink_op_time last op → inv drained t0 exact last p →
  (exact → moves_back p op = false) →
  let t := prolink_op_time last op in
  post (λ _, inv drained t0 exact t) (failed drained t0 exact t) (prolink_op now op p).2 (prolink_op now op p).1.
Proof.
  intros Hw Ht Hp Hex t. apply (inv_later _ _ _ _ t) in Hp; [|done].
  destruct op as [message t'|o beat hot t'|load m|load m t'|player t'|message t'|t'|t'| | |];
    simpl in *; subst t.
  - by apply runs_ingest.
  - apply (runs_forget _ _ _ _ _ _ (runs_authoritative drained t0 exact now t' o beat hot Hw)).
    split; [done|]. intros k He Hk Hs. specialize (Hex He). rewrite Hk in Hex. simpl in Hex. rewrite Hs in Hex.
    simpl in Hex. by apply Z.ltb_ge in Hex.
  - by apply (runs_forget _ _ _ _ _ _ (runs_hydrate drained t0 exact last load m Hw)).
  - by apply (runs_forget _ _ _ _ _ _ (runs_publish drained t0 exact t' load m Hw)).
  - by apply runs_invalidate.
  - by apply runs_degraded.
  - by apply runs_recovery.
  - by apply runs_clear_inv.
  - apply (runs_forget _ _ _ _ (inv drained t0 exact last) drain_timing_observations); [|done].
    eapply runs_bind; [apply runs_get_inv|]. intros ?; cbn beta.
    eapply runs_bind; [apply runs_get_inv|]. intros ?; cbn beta.
    eapply runs_bind; [by apply runs_hidden_inv|]. intros ?; cbn beta. by apply runs_ret.
  - apply (runs_forget _ _ _ _ (inv drained t0 exact last) drain_precise_position_observations); [|done].
    eapply runs_bind; [apply runs_get_inv|]. intros ?; cbn beta.
    eapply runs_bind; [by apply runs_hidden_inv|]. intros ?; cbn beta. by apply runs_ret.
  - done.
Qed.

(** Draining moves the events from the pending to the drained ones. *)
Lemma inv_drain drained t0 exact t p :
  inv drained t0 exact t p → inv (drained ++ pk_pending_events p) t0 exact t (set_pk_pending_events [] p).
Proof.
  intros (decks & leader & next & generation & v & [Hs ? ? ? ? Hv] & Hg).
  exists decks, leader, next, generation, v. split; [|done].
  assert (sent (drained ++ pk_pending_events p) (set_pk_pending_events [] p) = sent drained p) as E.
  { unfold sent. simpl. by rewrite app_nil_r. }
  split; try done; [|unfold published; by rewrite E].
  destruct Hs as [H1 H2 H3 H4 H5 H6]. split; rewrite ?E; done.
Qed.

Lemma failed_not_overflow drained t0 exact t e p :
  failed drained t0 exact t e p → is_overflow e = false → inv drained t0 exact t p.
Proof. intros [[->|[->| ->]]|Hp]; done. Qed.

Lemma start_inv t exact : inv [] t exact t (run_provider (prolink_start t)).
Proof.
  assert (at_ [] t t ∅ None 1 0 empty_view empty_provider) as H0.
  { split; try done. }
  assert (good exact ∅ None 1 0 empty_view) as Hg.
  { split; try done. }
  pose proof (runs_emit [] t exact t _ _ _ _ _ (SourceStatusChanged SourceStarting) I _ H0) as H.
  change (prolink_emit t (SourceStatusChanged SourceStarting) empty_provider) with (ProLink_new t) in H.
  assert ((ProLink_new t).2 = Ok tt) as E by (vm_compute; reflexivity). rewrite E in H. simpl in H.
  eapply inv_intro; [exact H|exact Hg].
Qed.

Definition run_inv (t0 : Z) (exact : Prop) (t : Z) (r : ProLinkRun) : Prop :=
  inv (run_drained r) t0 exact t (run_provider r).

Lemma step_inv t0 exact last r call :
  prolink_op_wf call.2 → last ≤ prolink_op_time last call.2 → run_inv t0 exact last r →
  run_overflowed (prolink_step r call) = false → (exact → run_moved_back (prolink_step r call) = false) →
  run_inv t0 exact (prolink_op_time last call.2) (prolink_step r call).
Proof.
  intros Hw Ht Hr Ho Hm.
  assert (∃ p1 outcome, prolink_op call.1 call.2 (run_provider r) = (p1, outcome)) as (p1 & outcome & E)
    by (destruct (prolink_op _ _ _) as [p1 outcome]; by exists p1, outcome).
  unfold run_inv, prolink_step in *. rewrite E in Ho, Hm |- *.
  pose proof (op_keeps (run_drained r) t0 exact last call.1 call.2 (run_provider r) Hw Ht Hr) as H.
  rewrite E in H. cbv zeta in H. cbn [fst snd] in H.
  assert (inv (run_drained r) t0 exact (prolink_op_time last call.2) p1) as H1.
  { destruct outcome as [[]|e]; cbn [post] in H.
    - apply H. intros He. specialize (Hm He). destruct call as [now op]. destruct op; simpl in *;
        by apply orb_false_iff in Hm as [_ ?].
    - eapply failed_not_overflow; [apply H|].
      + intros He. specialize (Hm He). destruct call as [now op]. destruct op; simpl in *;
          by apply orb_false_iff in Hm as [_ ?].
      + destruct call as [now op]. destruct op; simpl in *; by apply orb_false_iff in Ho as [_ ?]. }
  destruct call as [now op]. destruct op; simpl in *; rewrite ?app_nil_r; try exact H1. by apply inv_drain.
Qed.

Lemma step_flags r call :
  (run_overflowed (prolink_step r call) = false → run_overflowed r = false) ∧
  (run_moved_back (prolink_step r call) = false → run_moved_back r = false).
Proof.
  unfold prolink_step. destruct (prolink_op _ _ _) as [p1 o].
  destruct call as [now op]. destruct op; simpl; split; intros [? _]%orb_false_iff; done.
Qed.

Lemma run_flags calls : ∀ r,
  (run_overflowed (foldl prolink_step r calls) = false → run_overflowed r = false) ∧
  (run_moved_back (foldl prolink_step r calls) = false → run_moved_back r = false).
Proof.
  induction calls as [|call calls IH]; intros r; [done|]. simpl.
  destruct (IH (prolink_step r call)) as [H1 H2], (step_flags r call) as [H3 H4].
  split; auto.
Qed.

Lemma run_keeps t0 exact calls : ∀ last r,
  Forall (λ call, prolink_op_wf call.2) calls → calls_in_order last calls → run_inv t0 exact last r →
  run_overflowed (foldl prolink_step r calls) = false →
  (exact → run_moved_back (foldl prolink_step r calls) = false) →
  ∃ t, run_inv t0 exact t (foldl prolink_step r calls).
Proof.
  induction calls as [|[now op] calls IH]; intros last r Hw Hc Hr Ho Hm; [by exists last|].
  apply Forall_cons in Hw as [Hw Hws]. destruct Hc as [Ht Hc].
  destruct (run_flags calls (prolink_step r (now, op))) as [F1 F2].
  apply (IH (prolink_op_time last op)); try done.
  apply step_inv; [done|done|done|by apply F1|]. intros He. by apply F2, Hm.
Qed.

(** C30: the runtime shows the Pro DJ Link decks as the provider believes them to be.  For
    every sequence of bridge messages, mapped positions, hydrations, media changes, errors,
    recoveries and drains at times that do not go back, without an overflow of a 64-bit
    counter and with at most 2^64 - 1 events, and for every interleaving of what was published with commands, plans, output
    results and reports: the same decks are loaded with the same loads, and they play or
    stand still alike; the leader is the same and has a track; no load is on two decks.  The
    beat of the provider is never ahead of the one of the runtime, and they are equal unless
    a mapped position has moved a stopped deck back. *)
Theorem prolink_shown t0 calls es :
  Forall (λ call, prolink_op_wf call.2) calls → calls_in_order t0 calls →
  let r := prolink_run t0 calls in
  let p := run_provider r in
  run_overflowed r = false → observations es = observations (run_drained r ++ pk_pending_events p) →
  Forall (λ e, observation_of e = None → event_wf e) es → Z.of_nat (length es) ≤ U64_MAX →
  let s := (run_events RuntimeState_default es).1 in
  (∀ d, match pk_decks p !! d, rs_decks s !! d with
        | Some k, Some deck => deck_shown (run_moved_back r = false) k (deck_view deck)
        | None, None => True
        | _, _ => False
        end) ∧
  rs_leader_deck s = pk_leader_deck_id p ∧
  (∀ d, pk_leader_deck_id p = Some d → is_Some (pk_decks p !! d)) ∧
  (∀ d d' k k', pk_decks p !! d = Some k → pk_decks p !! d' = Some k' →
     pd_track_load_id k = pd_track_load_id k' → d = d').
Proof.
  intros Hw Hc r p Ho Hes Hwf Hn s.
  destruct (run_keeps t0 (run_moved_back r = false) calls t0 (prolink_start t0) Hw Hc (start_inv _ _) Ho)
    as (t & decks & leader & next & generation & v & [[S1 S2 S3 S4 S5 S6] A2 A3 A4 A5 A6] & [G1 G2 G3 G4 G5]);
    [done|].
  change (run_provider (foldl prolink_step (prolink_start t0) calls)) with p in *. subst decks leader v.
  pose proof (runtime_shows PROLINK_SOURCE_ID t0 _ es S4 S6 Hes Hwf Hn) as Hv. fold s in Hv.
  unfold published in G4, G5. change (foldl prolink_step (prolink_start t0) calls) with r in *.
  rewrite <- Hv in G4, G5. split_and!; [|exact G5|exact G3|exact G2].
  intros d. specialize (G4 d). unfold view_of in G4. simpl in G4. rewrite lookup_fmap in G4.
  destruct (pk_decks p !! d), (rs_decks s !! d); done.
Qed.

(** ** The timeline of a playing deck *)

Section Guard.
(** A playing deck, and the timing generation at the time. *)
Variables (d : DeckId) (k : LoadedDeck) (generation : Z).

(** The deck is as it was. *)
Definition untouched p : Prop :=
  pk_decks p !! d = Some k ∧ generation ≤ pk_timing_generation p ∧
  pd_track_load_id k < pk_next_track_load_id p.

(** Another load, or the same beat. *)
Definition same_beat p : Prop :=
  ∀ k', pk_decks p !! d = Some k' → pd_track_load_id k' = pd_track_load_id k → pd_beat k' = pd_beat k.

Definition seek_published (beat : Z) p : Prop :=
  ∃ e, Observation e ∈ pk_pending_events p ∧
    obs_observation e = PlaybackPositionSeeked d (pd_track_load_id k) beat.

(** Another load, a beat that is not behind, or a published seek of a new generation. *)
Definition guarded p : Prop :=
  ∀ k', pk_decks p !! d = Some k' → pd_track_load_id k' = pd_track_load_id k →
    pd_beat k ≤ pd_beat k' ∨ generation < pd_discontinuity_revision k' ∧ seek_published (pd_beat k') p.

Lemma untouched_same p : untouched p → same_beat p.
Proof. intros (H & _) k' H' _. rewrite H in H'. by injection H' as <-. Qed.

Lemma same_guarded p : same_beat p → guarded p.
Proof. intros H k' H1 H2. left. by rewrite (H k' H1 H2). Qed.

(** The decks are the same, no event is lost, the counters are not lower. *)
Definition calm_step p q : Prop :=
  pk_decks q = pk_decks p ∧ pk_timing_generation p ≤ pk_timing_generation q ∧
  pk_pending_events p ⊆ pk_pending_events q ∧
  pk_next_track_load_id p ≤ pk_next_track_load_id q.

Class Steady (I : ProLinkDeckSourceProvider → Prop) : Prop := steady : ∀ p q, calm_step p q → I p → I q.

#[export] Instance untouched_steady : Steady untouched.
Proof. intros p q (E & ? & _ & ?) (H1 & H2 & H3). split_and!; [by rewrite E|lia|lia]. Qed.

#[export] Instance same_beat_steady : Steady same_beat.
Proof. intros p q (E & _ & _) H k'. rewrite E. apply H. Qed.

#[export] Instance guarded_steady : Steady guarded.
Proof.
  intros p q (E & _ & Hsub & _) H k' H1 H2. rewrite E in H1.
  destruct (H k' H1 H2) as [?|[? (e & He & Ho)]]; [by left|right]. split; [done|]. exists e. auto.
Qed.

Section Keeps.
Context (I : ProLinkDeckSourceProvider → Prop) `{!Steady I}.

Lemma keeps_calm f : (∀ p, calm_step p (f p)) → keeps I (@method_modify _ ProLinkProviderError f).
Proof. intros Hf p Hp. eapply steady; [apply Hf|done]. Qed.

Lemma keeps_emit t o : keeps I (prolink_emit t o).
Proof.
  unfold prolink_emit. apply keeps_bind; [apply keeps_get|intros n].
  apply keeps_bind; [apply keeps_result|intros m].
  apply keeps_bind; [by apply keeps_calm|intros []].
  apply keeps_calm. intros p. split_and!; simpl; [done|lia| |lia]. set_solver.
Qed.

Lemma keeps_advance : keeps I advance_timing_generation.
Proof.
  intros p Hp. unfold advance_timing_generation, method_bind, method_get, method_result, method_modify.
  destruct (checked_add_u64 _ _) as [n|] eqn:E; simpl; [|done].
  apply checked_add_u64_Some in E as [-> _]. eapply steady; [|exact Hp]. split_and!; simpl; [done|lia|done|lia].
Qed.

Lemma keeps_when (b : bool) (m : prolink unit) : keeps I m → keeps I (when b m).
Proof. destruct b; [done|]. intros _. apply keeps_ret. Qed.

Lemma keeps_push o : keeps I (push_timing o).
Proof. by apply keeps_calm. Qed.

Lemma keeps_count_seek : keeps I count_seek.
Proof. apply keeps_bind; [apply keeps_advance|intros _]. by apply keeps_calm. Qed.

Lemma keeps_count_authoritative : keeps I count_authoritative.
Proof. by apply keeps_calm. Qed.

Lemma keeps_emit_position t d' l b1 b2 s : keeps I (emit_position t d' l b1 b2 s).
Proof. apply keeps_when, keeps_emit. Qed.

Lemma keeps_emit_phrase t d' l i : keeps I (emit_phrase t d' l i).
Proof. destruct i; [apply keeps_emit|apply keeps_ret]. Qed.

Lemma keeps_status status t : keeps I (update_source_status status t).
Proof.
  apply keeps_bind; [apply keeps_get|intros previous]. apply keeps_when.
  apply keeps_bind; [by apply keeps_calm|intros _].
  apply keeps_bind; [by apply keeps_when, keeps_calm|intros _]. apply keeps_emit.
Qed.

Lemma keeps_follow status t flags : keeps I (follow_tempo_master status t flags).
Proof.
  apply keeps_bind; [apply keeps_get|intros l]. destruct (_ && _); [|apply keeps_ret].
  apply keeps_bind; [apply keeps_advance|intros _].
  apply keeps_bind; [apply keeps_get|intros o]. apply keeps_bind; [apply keeps_result|intros x].
  apply keeps_bind; [by apply keeps_calm|intros _].
  apply keeps_bind; [apply keeps_emit|intros _]. apply keeps_ret.
Qed.

Lemma keeps_publish status flags b e n : keeps I (publish_status_timing status flags b e n).
Proof.
  apply keeps_bind; [apply keeps_get|intros g]. destruct (_ && _); [apply keeps_push|].
  destruct (_ && _); [|apply keeps_ret]. apply keeps_bind; [apply keeps_get|intros o]. apply keeps_push.
Qed.
End Keeps.

(** *** Methods that change decks *)

Lemma keeps_unload d' t : keeps same_beat (unload_deck d' t).
Proof.
  apply keeps_bind; [apply keeps_get|intros o]. apply keeps_bind.
  - destruct o as [k'|]; [|apply keeps_ret]. apply keeps_bind; [|intros _; by apply keeps_emit, same_beat_steady].
    intros p Hp k1 H1. simpl in H1. apply lookup_delete_Some in H1 as [_ H1]. by apply Hp.
  - intros _. apply keeps_calm; [apply same_beat_steady|]. intros p. by case_bool_decide.
Qed.

Lemma keeps_unload_decks ds t : keeps same_beat (unload_decks ds t).
Proof.
  induction ds as [|d' ds IH]; [apply keeps_ret|]. apply keeps_bind; [apply keeps_unload|by intros _].
Qed.

(** A change of a deck that keeps its beat and its load. *)
Lemma keeps_on_loaded d' f :
  (∀ k', pd_beat (f k') = pd_beat k' ∧ pd_track_load_id (f k') = pd_track_load_id k') →
  keeps same_beat (on_loaded d' f).
Proof.
  intros Hf p Hp k' Hk'. simpl in Hk'. destruct (decide (d' = d)) as [->|Hne].
  - rewrite lookup_alter_eq in Hk'. apply fmap_Some in Hk' as (k1 & Hk1 & ->). destruct (Hf k1) as [-> ->].
    by apply Hp.
  - rewrite lookup_alter_ne in Hk' by done. by apply Hp.
Qed.

Lemma untouched_other d' f : d' ≠ d → keeps untouched (on_loaded d' f).
Proof. intros Hne p (H1 & H2 & H3). split_and!; simpl; [by rewrite lookup_alter_ne|done|done]. Qed.

(** [untouched] until the end: nothing has happened. *)
Lemma triple_untouched {A} (m : prolink A) (K : ProLinkDeckSourceProvider → Prop) :
  (∀ p, untouched p → K p) → keeps untouched m → triple untouched m (λ _, K).
Proof. intros HK Hm p Hp. apply HK, (Hm p Hp). Qed.

Lemma triple_start {A B} (m : prolink A) (f : A → prolink B) (K : ProLinkDeckSourceProvider → Prop) :
  (∀ p, untouched p → K p) → keeps untouched m → (∀ a, triple untouched (f a) (λ _, K)) →
  triple untouched (method_bind m f) (λ _, K).
Proof.
  intros HK Hm Hf. apply (triple_bind _ _ _ (λ _, untouched)); [|done].
  intros p Hp. specialize (Hm p Hp). destruct (m p).2; simpl; [done|by apply HK].
Qed.

(** The deck that is read. *)
Lemma triple_read {B} d' (f : option LoadedDeck → prolink B) (K : ProLinkDeckSourceProvider → Prop) :
  (∀ o, (d' = d → o = Some k) → triple untouched (f o) (λ _, K)) →
  triple untouched (let! o := method_get (λ p, pk_decks p !! d') in f o) (λ _, K).
Proof.
  intros Hf p Hp. unfold method_bind, method_get. apply Hf; [|done]. intros ->. apply Hp.
Qed.

(** No deck of the same load has another beat, and new loads are other ones. *)
Definition fresh_deck p : Prop := same_beat p ∧ pd_track_load_id k < pk_next_track_load_id p.

#[export] Instance fresh_steady : Steady fresh_deck.
Proof. intros p q Hc [H1 H2]. split; [by eapply same_beat_steady|]. destruct Hc as (_ & _ & _ & ?). lia. Qed.

Lemma unload_fresh d' t : keeps fresh_deck (unload_deck d' t).
Proof.
  intros p [Hp Hn]. split; [by apply keeps_unload|]. unfold unload_deck, method_bind, method_get.
  destruct (pk_decks p !! d') as [k'|]; simpl.
  - assert (pk_next_track_load_id (prolink_emit t (TrackUnloaded d' (pd_track_load_id k'))
      (set_pk_decks (delete d' (pk_decks p)) p)).1 = pk_next_track_load_id p) as E.
    { unfold prolink_emit, method_bind, method_get, method_result, method_modify. by destruct (ok_or _ _). }
    destruct (prolink_emit _ _ _) as [q [[]|e]]; simpl in *; [case_bool_decide; simpl|]; by rewrite E.
  - by case_bool_decide.
Qed.

Lemma load_same_beat now t status identity beat bpm eff observed :
  triple fresh_deck (load_from_status now status identity beat bpm eff observed t) (λ _, same_beat).
Proof.
  assert (∀ p, fresh_deck p → same_beat p) as Hf by (by intros p []).
  unfold load_from_status.
  apply (triple_bind _ _ _ (λ _, fresh_deck)).
  { intros p Hp. pose proof (keeps_advance fresh_deck p Hp). destruct (advance_timing_generation p).2; simpl; auto. }
  intros _. apply (triple_bind _ _ _ (λ _, fresh_deck)).
  { intros p Hp. pose proof (unload_fresh (ds_device_number status) t p Hp).
    destruct (unload_deck _ _ _).2; simpl; auto. }
  intros _. apply (triple_bind _ _ _ (λ n p, same_beat p ∧ pd_track_load_id k < n)); [by intros p []|].
  intros n. apply (triple_bind _ _ _ (λ _ p, same_beat p ∧ pd_track_load_id k < n)).
  { intros p Hp. unfold method_result. simpl. destruct (ok_or _ _); [exact Hp|apply Hp]. }
  intros n'. apply (triple_bind _ _ _ (λ _ p, same_beat p ∧ pd_track_load_id k < n)); [by intros p []|].
  intros _. apply (triple_bind _ _ _ (λ _ p, same_beat p ∧ pd_track_load_id k < n)).
  { intros p Hp. unfold method_result. simpl. destruct (map_err _ _); [exact Hp|apply Hp]. }
  intros m. apply (triple_bind _ _ _ (λ _, same_beat)).
  { intros p [Hp Hn] k' H1 H2. simpl in H1. apply lookup_insert_Some in H1 as [[_ <-]|[_ H1]]; [|by apply Hp].
    simpl in H2. lia. }
  intros _. change (keeps same_beat (do! prolink_emit t (TrackLoaded (ds_device_number status) m n) then
    do! prolink_emit t (PlaybackPosition (ds_device_number status) n beat) then
    do! when (negb (eff =? bpm)) (prolink_emit t (PlaybackTempoChanged (ds_device_number status) n eff)) then
    prolink_emit t (PlaybackStateChanged (ds_device_number status) n (ds_playing status)))).
  apply keeps_bind; [apply keeps_emit, _|intros _]. apply keeps_bind; [apply keeps_emit, _|intros _].
  apply keeps_bind; [apply keeps_when, keeps_emit, _|intros _]. apply keeps_emit, _.
Qed.

Lemma update_same_beat now t status previous beat eff observed :
  pd_playing k = true → (ds_device_number status = d → previous = k) →
  triple untouched (update_from_status now status previous beat eff observed t) (λ _, same_beat).
Proof.
  intros Hpl Hprev. unfold update_from_status. rewrite stopped_seek_spec. cbv zeta.
  apply triple_start; [apply untouched_same|apply keeps_when, keeps_emit, _|intros _].
  apply triple_start; [apply untouched_same| |intros _].
  { apply keeps_when. destruct (_ && _); [|apply keeps_when, keeps_emit, _].
    apply keeps_bind; [apply keeps_advance, _|intros _; apply keeps_emit, _]. }
  apply triple_start; [apply untouched_same|apply keeps_when, keeps_advance, _|intros _].
  apply triple_start; [apply untouched_same|apply keeps_when, keeps_emit, _|intros _].
  apply triple_start; [apply untouched_same|apply keeps_get|intros g].
  apply (triple_bind _ _ _ (λ _, same_beat)); [|intros ?; by intros p].
  intros p Hp. destruct (decide (ds_device_number status = d)) as [E|Hne].
  - rewrite E, (Hprev E), Hpl. cbn [negb andb orb]. unfold on_loaded, method_modify.
    cbn [fst snd ok_then]. intros k' Hk' Hl. cbn [pk_decks set_pk_decks] in Hk'. rewrite lookup_alter_eq in Hk'. destruct Hp as (Hk & _). rewrite Hk in Hk'. apply (inj Some) in Hk' as <-.
    match goal with |- context [after_status ?a ?b ?c ?s ?e ?f ?g ?h ?i ?j ?l] =>
      pose proof (after_status_fields a b c s e f g h i j) as (_ & _ & F & _) end.
    rewrite F. cbn [orb negb]. by rewrite Hpl.
  - simpl. apply untouched_same. by apply (untouched_other _ _ Hne p).
Qed.

Lemma follow_publish status t flags beat eff observed :
  keeps same_beat (let! flags := follow_tempo_master status t flags in
                   publish_status_timing status flags beat eff observed).
Proof. apply keeps_bind; [apply keeps_follow, _|intros flags']. apply keeps_publish, _. Qed.

Lemma triple_then {A B} I (m : prolink A) (f : A → prolink B) (K : ProLinkDeckSourceProvider → Prop) :
  triple I m (λ _, K) → (∀ a, keeps K (f a)) → triple I (method_bind m f) (λ _, K).
Proof.
  intros Hm Hf. apply (triple_bind _ _ _ (λ _, K)); [|exact Hf].
  intros p Hp. specialize (Hm p Hp). by destruct (m p).2.
Qed.

Lemma untouched_fresh p : untouched p → fresh_deck p.
Proof. intros Hp. split; [by apply untouched_same|apply Hp]. Qed.

(** Status frames never move a playing deck. *)
Lemma status_same_beat now t status observed :
  pd_playing k = true → triple untouched (apply_status now status observed t) (λ _, same_beat).
Proof.
  intros Hpl. unfold apply_status.
  destruct (_ || _); [by intros p Hp; apply keeps_unload, untouched_same|].
  apply triple_start; [apply untouched_same|apply keeps_result|intros bpm].
  apply triple_start; [apply untouched_same|apply keeps_result|intros eff].
  apply triple_start; [apply untouched_same|apply keeps_result|intros n].
  apply triple_start; [apply untouched_same|apply keeps_get|intros identity].
  apply triple_read. intros o Ho.
  apply triple_then; [|intros flags; apply follow_publish].
  assert (∀ beat, triple untouched (do! load_from_status now status identity beat bpm eff observed t then
    method_ret (mkStatusFlags true true false)) (λ _, same_beat)) as Hload.
  { intros beat. apply triple_then; [|intros ?; apply keeps_ret].
    intros p Hp. by apply load_same_beat, untouched_fresh. }
  destruct o as [previous|]; [|apply Hload]. case_bool_decide; [|apply Hload].
  apply update_same_beat; [done|]. intros E. specialize (Ho E). by injection Ho.
Qed.

(** The generation is a new one after a seek. *)
Definition counted (seeked : bool) p : Prop :=
  pk_decks p !! d = Some k ∧ (seeked = true → generation < pk_timing_generation p).

#[export] Instance counted_steady seeked : Steady (counted seeked).
Proof. intros p q (E & ? & _) (H1 & H2). split; [by rewrite E|]. intros Hs. specialize (H2 Hs). lia. Qed.

Lemma counted_guarded seeked p : counted seeked p → guarded p.
Proof. intros [H _] k' H' _. left. rewrite H in H'. by injection H' as <-. Qed.

Lemma count_seek_counted seeked :
  triple untouched (when seeked count_seek) (ok_then (λ _, counted seeked) guarded).
Proof.
  intros p (Hk & Hg & Hn). destruct seeked; [|by split].
  unfold when, count_seek, advance_timing_generation, method_bind, method_get, method_result, method_modify.
  destruct (checked_add_u64 _ _) as [n|] eqn:E; simpl; [|by apply (counted_guarded false)].
  apply checked_add_u64_Some in E as [-> _]. split; simpl; [done|]. intros _. lia.
Qed.

(** The position is published and the deck moved to it. *)
Lemma move_guarded {A} t seeked beat (f : Z → LoadedDeck → LoadedDeck) (rest : Z → prolink A) :
  (seeked = false → pd_beat k ≤ beat) →
  (∀ g, pd_beat (f g k) = beat ∧ (seeked = true → pd_discontinuity_revision (f g k) = g)) →
  (∀ g, keeps guarded (rest g)) →
  triple (counted seeked)
    (do! emit_position t d (pd_track_load_id k) (pd_beat k) beat seeked then
     let! g := method_get pk_timing_generation in
     do! on_loaded d (f g) then rest g) (λ _, guarded).
Proof.
  intros Hfwd Hf Hrest. set (J p := counted seeked p ∧ (seeked = true → pd_beat k = beat ∨ seek_published beat p)).
  apply (triple_bind _ _ _ (λ _, J)).
  { intros p Hp. unfold emit_position, when. destruct (Z.eqb_spec (pd_beat k) beat) as [E|E]; simpl.
    { split; [done|]. by left. }
    pose proof (keeps_emit (counted seeked) t (if seeked then PlaybackPositionSeeked d (pd_track_load_id k) beat
      else PlaybackPosition d (pd_track_load_id k) beat) p Hp) as H.
    unfold prolink_emit, method_bind, method_get, method_result, method_modify in H |- *.
    destruct (checked_add_u64 _ _) as [n|]; simpl in *; [|exact (counted_guarded seeked _ Hp)].
    split; [done|]. intros ->. right. eexists. split; [apply elem_of_app; right; apply list_elem_of_here|done]. }
  intros _ p [[Hk Hg] Hs]. unfold method_bind at 1, method_get. unfold method_bind, on_loaded, method_modify.
  apply Hrest. destruct (Hf (pk_timing_generation p)) as [F1 F2].
  intros k' Hk' _. cbn [pk_decks set_pk_decks] in Hk'. rewrite lookup_alter_eq, Hk in Hk'. apply (inj Some) in Hk' as <-.
  rewrite F1. destruct seeked; [|left; by apply Hfwd].
  destruct (Hs eq_refl) as [->|Hpub]; [by left|]. right. rewrite F2 by done. split; [by apply Hg|done].
Qed.

Lemma beat_guarded now t beat observed : triple untouched (apply_beat now beat observed t) (λ _, guarded).
Proof.
  assert (∀ p, untouched p → guarded p) as Hug by (intros p Hp; by apply same_guarded, untouched_same).
  unfold apply_beat. destruct (negb _); [by intros p Hp; apply Hug|].
  apply triple_read. intros [previous|] Ho; [|by intros p Hp; apply Hug]. cbv zeta.
  set (b := beat_landing _ _ _). set (seeked := _ && (1 <? _)). destruct (negb seeked && _) eqn:Erej.
  { intros p Hp. by apply Hug. }
  destruct (decide (bt_device_number beat = d)) as [E|Hne].
  - specialize (Ho E). injection Ho as ->. rewrite E.
    apply (triple_bind _ _ _ (λ _, counted seeked)); [apply count_seek_counted|intros _].
    apply (move_guarded t seeked b (λ g, after_beat now k seeked _ b observed g)
      (λ g, do! emit_phrase t d (pd_track_load_id k) (changed_phrase k b) then push_timing _)).
    + intros Hs. rewrite Hs in Erej. simpl in Erej. by apply orb_false_iff in Erej as [?%Z.ltb_ge _].
    + intros g. match goal with |- context [after_beat _ _ _ ?c _ _ _ _] =>
        destruct (after_beat_fields now k seeked c b observed g) as (_ & _ & F1 & _ & F2 & _) end.
      split; [exact F1|]. intros Hs. by rewrite F2, Hs.
    + intros g. apply keeps_bind; [apply keeps_emit_phrase, _|intros _]. apply keeps_push, _.
  - apply triple_untouched; [exact Hug|].
    apply keeps_bind; [apply keeps_when, keeps_count_seek, _|intros _].
    apply keeps_bind; [apply keeps_emit_position, _|intros _].
    apply keeps_bind; [apply keeps_get|intros g].
    apply keeps_bind; [by apply untouched_other|intros _].
    apply keeps_bind; [apply keeps_emit_phrase, _|intros _]. apply keeps_push, _.
Qed.

Lemma baseline_same o k' : pd_beat (precise_baseline o k') = pd_beat k' ∧
  pd_track_load_id (precise_baseline o k') = pd_track_load_id k'.
Proof. done. Qed.

(** Without a seek a playing deck is only given another baseline. *)
Lemma commit_same_beat now t candidate o beat :
  pd_playing k = true → pd_precise_position_seen k = true →
  keeps same_beat (commit_authoritative now k false candidate o beat t).
Proof.
  intros Hpl Hseen. unfold commit_authoritative. rewrite Hpl, Hseen. cbn [negb andb].
  apply keeps_bind; [apply keeps_when, keeps_count_seek, _|intros _].
  apply keeps_bind; [apply keeps_count_authoritative, _|intros _].
  apply keeps_bind; [|intros _; apply keeps_ret]. apply keeps_on_loaded. intros k'. by destruct candidate.
Qed.

Lemma commit_guarded now t candidate o beat :
  ppo_deck_id o = d → ppo_track_load_id o = pd_track_load_id k →
  triple untouched (commit_authoritative now k true candidate o beat t) (λ _, guarded).
Proof.
  intros Hd Hl. unfold commit_authoritative. rewrite Hd, Hl, andb_false_r.
  apply (triple_bind _ _ _ (λ _, counted true)); [apply (count_seek_counted true)|intros _].
  apply (triple_bind _ _ _ (λ _, counted true)); [by intros p [? ?]|intros _].
  apply (move_guarded t true beat (λ g, after_authoritative now k true o beat g)
    (λ g, do! emit_phrase t d (pd_track_load_id k) (changed_phrase k beat) then
          do! when _ (push_timing _) then method_ret _)); [done| |].
  - intros g. by destruct (after_authoritative_fields now k true o beat g) as (_ & _ & F1 & _ & F2 & _).
  - intros g. apply keeps_bind; [apply keeps_emit_phrase, _|intros _].
    apply keeps_bind; [apply keeps_when, keeps_push, _|intros _]. apply keeps_ret.
Qed.

Lemma commit_other now t previous seeked candidate o beat :
  ppo_deck_id o ≠ d → keeps untouched (commit_authoritative now previous seeked candidate o beat t).
Proof.
  intros Hne. unfold commit_authoritative.
  apply keeps_bind; [apply keeps_when, keeps_count_seek, _|intros _].
  apply keeps_bind; [apply keeps_count_authoritative, _|intros _]. destruct (_ && _).
  - apply keeps_bind; [by apply untouched_other|intros _]. apply keeps_ret.
  - apply keeps_bind; [apply keeps_emit_position, _|intros _]. apply keeps_bind; [apply keeps_get|intros g].
    apply keeps_bind; [by apply untouched_other|intros _].
    apply keeps_bind; [apply keeps_emit_phrase, _|intros _].
    apply keeps_bind; [apply keeps_when, keeps_push, _|intros _]. apply keeps_ret.
Qed.

Lemma on_loaded_quiet {A} d' f (m : prolink A) :
  (∀ k', pd_beat (f k') = pd_beat k' ∧ pd_track_load_id (f k') = pd_track_load_id k') →
  keeps same_beat m → triple untouched (do! on_loaded d' f then m) (λ _, same_beat).
Proof.
  intros Hf Hm p Hp. apply (keeps_bind same_beat); [by apply keeps_on_loaded|by intros _|by apply untouched_same].
Qed.

(** A mapped position moves a playing deck only when it is a hot cue. *)
Lemma authoritative_guarded now t o beat (hot : bool) :
  pd_playing k = true →
  triple untouched (apply_authoritative_position now o beat hot t) (λ _, if hot then guarded else same_beat).
Proof.
  intros Hpl.
  assert (∀ p, same_beat p → (if hot then guarded else same_beat) p) as Hsg
    by (intros p; destruct hot; [apply same_guarded|done]).
  assert (∀ p, untouched p → (if hot then guarded else same_beat) p) as Hug
    by (intros p Hp; by apply Hsg, untouched_same).
  assert (∀ A (m : prolink A), triple untouched m (λ _, same_beat) →
    triple untouched m (λ _, if hot then guarded else same_beat)) as Hquiet.
  { intros A m Hm p Hp. apply Hsg, (Hm p Hp). }
  unfold apply_authoritative_position. apply triple_read.
  intros [previous|] Ho; [|by intros p Hp; apply Hug].
  destruct (Z.eqb_spec (pd_track_load_id previous) (ppo_track_load_id o)) as [Hid|]; cbn [negb];
    [|by intros p Hp; apply Hug].
  destruct (_ && negb (pd_precise_position_seen previous)) eqn:Hfirst.
  { apply triple_start; [exact Hug|apply keeps_count_authoritative, _|intros _]. apply Hquiet, on_loaded_quiet; [done|].
    apply keeps_ret. }
  set (candidate := discontinuity_candidate _ _ _). destruct (_ && candidate && _).
  { apply triple_start; [exact Hug|apply keeps_count_authoritative, _|intros _]. apply Hquiet, on_loaded_quiet; [done|].
    apply keeps_ret. }
  assert (ppo_deck_id o = d → previous = k) as Hprev by (intros E; specialize (Ho E); by injection Ho).
  destruct (candidate && _); [destruct (_ || _) eqn:Eref|].
  - apply Hquiet, on_loaded_quiet; [done|]. apply keeps_ret.
  - apply orb_false_iff in Eref as [[->%negb_false_iff _]%orb_false_iff _].
    destruct (decide (ppo_deck_id o = d)) as [E|Hne].
    + rewrite (Hprev E) in *. by apply commit_guarded.
    + apply triple_untouched; [exact Hug|by apply commit_other].
  - destruct (decide (ppo_deck_id o = d)) as [E|Hne].
    + rewrite (Hprev E) in *. rewrite Hpl in Hfirst. apply negb_false_iff in Hfirst.
      apply Hquiet. intros p Hp. apply commit_same_beat; [done|done|by apply untouched_same].
    + apply triple_untouched; [exact Hug|by apply commit_other].
Qed.

(** Everything else leaves the beats of the decks alone. *)
Lemma ingest_other now t message :
  pd_playing k = true → (∀ beat, bm_event message ≠ BridgeBeatEvent beat) →
  triple untouched (ingest now message t) (λ _, same_beat).
Proof.
  intros Hpl Hnb. unfold ingest.
  apply triple_start; [apply untouched_same|by apply keeps_calm; [apply _|]|intros _].
  assert (∀ m : prolink unit, keeps same_beat m → triple untouched m (λ _, same_beat)) as Hk
    by (intros m Hm p Hp; by apply Hm, untouched_same).
  destruct (bm_event message) as [h|st|dv|dv|um|um|st|bt|ts|pp|md|sg|er]; try (apply Hk, keeps_ret).
  - apply Hk, keeps_bind; [by apply keeps_calm; [apply _|]|intros _]. by apply keeps_calm; [apply _|].
  - apply Hk, keeps_status, _.
  - apply Hk. by apply keeps_calm; [apply _|].
  - apply Hk, keeps_bind; [by apply keeps_calm; [apply _|]|intros _]. apply keeps_unload.
  - by apply status_same_beat.
  - by destruct (Hnb bt).
  - apply Hk. unfold apply_tempo_status. destruct (negb _); [apply keeps_ret|].
    apply keeps_bind; [apply keeps_get|intros [k'|]]; [|apply keeps_ret].
    apply keeps_bind; [apply keeps_result|intros eff]. apply keeps_bind; [apply keeps_get|intros g].
    apply keeps_push, _.
  - apply Hk. unfold queue_precise_position. destruct (negb _); [apply keeps_ret|].
    apply keeps_bind; [apply keeps_get|intros [k'|]]; [|apply keeps_ret].
    apply keeps_bind; [by apply keeps_calm; [apply _|]|intros _].
    apply keeps_bind; [by apply keeps_on_loaded|intros _]. by apply keeps_calm; [apply _|].
  - apply Hk, keeps_bind; [by apply keeps_calm; [apply _|]|intros _]. by apply keeps_on_loaded.
  - apply Hk, keeps_bind; [by apply keeps_calm; [apply _|]|intros _]. apply keeps_status, _.
Qed.

End Guard.

(** The calls that may move a playing deck: Beat packets and hot cues. *)
Definition may_move (op : ProLinkOp) : bool :=
  match op with
  | PIngest message _ => match bm_event message with BridgeBeatEvent _ => true | _ => false end
  | PAuthoritative _ _ hot _ => hot
  | _ => false
  end.

Lemma forget_keeps {A} I (m : prolink A) (K : ProLinkDeckSourceProvider → Prop) :
  triple I m (λ _, K) → triple I (forget_value m) (λ _, K).
Proof. intros Hm. apply triple_then; [exact Hm|]. intros a. apply keeps_ret. Qed.

Lemma op_guarded d k generation now op :
  pd_playing k = true →
  triple (untouched d k generation) (prolink_op now op)
    (λ _, if may_move op then guarded d k generation else same_beat d k).
Proof.
  intros Hpl.
  assert (∀ m : prolink unit, keeps (same_beat d k) m → triple (untouched d k generation) m (λ _, same_beat d k)) as Hk.
  { intros m Hm p Hp. by eapply Hm, untouched_same. }
  assert (∀ ds t, keeps (same_beat d k) (unload_decks ds t)) as Hun by (intros; apply keeps_unload_decks).
  destruct op as [message t|o beat hot t|load m|load m t|player t|message t|t|t| | |]; cbn [prolink_op may_move].
  - destruct (bm_event message) eqn:E; try by (apply ingest_other; [done|]; intros ?; rewrite E).
    unfold ingest. apply triple_start;
      [intros p Hp; by eapply same_guarded, untouched_same|by apply keeps_calm; [apply _|]|intros _].
    rewrite E. apply beat_guarded.
  - apply forget_keeps. by apply authoritative_guarded.
  - apply forget_keeps. unfold hydrate_track_metadata. intros p Hp. apply untouched_same in Hp. revert p Hp.
    apply keeps_bind; [apply keeps_get|intros [[d' k']|]]; [|apply keeps_ret].
    apply keeps_bind; [by apply keeps_on_loaded|intros _]. apply keeps_ret.
  - apply forget_keeps. unfold publish_hydrated_track. intros p Hp. apply untouched_same in Hp. revert p Hp.
    apply keeps_bind; [apply keeps_get|intros [[d' k']|]]; [|apply keeps_ret].
    apply keeps_bind; [|intros _; apply keeps_bind; [apply keeps_emit, _|intros _; apply keeps_ret]].
    apply keeps_bind; [apply keeps_get|intros [[d1 k1]|]]; [|apply keeps_ret].
    apply keeps_bind; [by apply keeps_on_loaded|intros _]. apply keeps_ret.
  - apply Hk. apply keeps_bind; [apply keeps_get|intros ds]. apply Hun.
  - apply Hk. apply keeps_bind; [by apply keeps_calm; [apply _|]|intros _]. apply keeps_status, _.
  - apply Hk. apply keeps_bind.
    { apply keeps_bind; [apply keeps_get|intros ds]. apply keeps_bind; [apply Hun|intros _].
      by apply keeps_calm; [apply _|]. }
    intros _. apply keeps_bind; [by apply keeps_calm; [apply _|]|intros _]. apply keeps_status, _.
  - apply Hk. apply keeps_bind; [apply keeps_get|intros ds]. apply keeps_bind; [apply Hun|intros _].
    by apply keeps_calm; [apply _|].
  - apply forget_keeps. intros p Hp. apply untouched_same in Hp. revert p Hp.
    apply keeps_bind; [apply keeps_get|intros g]. apply keeps_bind; [apply keeps_get|intros os].
    apply keeps_bind; [by apply keeps_calm; [apply _|]|intros _]. apply keeps_ret.
  - apply forget_keeps. intros p Hp. apply untouched_same in Hp. revert p Hp.
    apply keeps_bind; [apply keeps_get|intros os].
    apply keeps_bind; [by apply keeps_calm; [apply _|]|intros _]. apply keeps_ret.
  - intros p Hp. by eapply untouched_same.
Qed.

(** The timeline of a playing deck is not scrubbed.  After any run, and whatever the
    next call is and whether or not it fails: a deck that plays and keeps its load has the
    same beat after every call but a Beat packet or a mapped position that is a hot cue; status frames,
    tempo updates and other positions never move it.  A Beat packet or a hot cue moves it
    forwards, or with a published seek under a timing generation that is newer than the call. *)
Theorem playing_beat_guarded t0 calls now op d k k' :
  Forall (λ call, prolink_op_wf call.2) calls → calls_in_order t0 calls →
  run_overflowed (prolink_run t0 calls) = false →
  let p := run_provider (prolink_run t0 calls) in
  let p' := (prolink_op now op p).1 in
  pk_decks p !! d = Some k → pd_playing k = true →
  pk_decks p' !! d = Some k' → pd_track_load_id k' = pd_track_load_id k →
  if may_move op then
    pd_beat k ≤ pd_beat k' ∨
    pk_timing_generation p < pd_discontinuity_revision k' ∧
    ∃ e, Observation e ∈ pk_pending_events p' ∧
      obs_observation e = PlaybackPositionSeeked d (pd_track_load_id k) (pd_beat k')
  else pd_beat k' = pd_beat k.
Proof.
  intros Hw Hc Ho p p' Hk Hpl Hk' Hl.
  destruct (run_keeps t0 (run_moved_back (prolink_run t0 calls) = false) calls t0 (prolink_start t0)
    Hw Hc (start_inv _ _) Ho) as (t & decks & leader & next & generation & v & Hp & Hg); [done|].
  change (run_provider _) with p in Hp. destruct Hp as [_ <- _ <- _ _].
  pose proof (dk_load _ _ _ (gd_decks _ _ _ _ _ _ Hg d k Hk)) as Hnext.
  pose proof (op_guarded d k (pk_timing_generation p) now op Hpl p) as H.
  fold p' in H. specialize (H ltac:(split_and!; [exact Hk|lia|exact Hnext])). cbn beta in H.
  destruct (may_move op); by apply H.
Qed.

(** ** Decks without a name *)

(** The frame with another name of the device. *)
Definition set_ds_device_name (name : str) (s : DeckStatus) : DeckStatus :=
  mkDeckStatus (ds_device_number s) name (ds_playing s) (ds_paused s) (ds_cued s)
    (ds_tempo_master s) (ds_on_air s) (ds_source_player s) (ds_source_slot s) (ds_track_type s)
    (ds_rekordbox_id s) (ds_track_bpm s) (ds_effective_bpm s) (ds_beat_number s)
    (ds_beat_within_bar s) (ds_raw_pitch s).

Lemma unload_deck_spent d t n g :
  triple (λ p, pk_next_track_load_id p = n ∧ pk_timing_generation p = g) (unload_deck d t)
    (post (λ _ p, pk_decks p !! d = None ∧ pk_next_track_load_id p = n ∧ pk_timing_generation p = g)
       (λ e _, overflow e)).
Proof.
  intros p [Hn Hg]. unfold unload_deck, method_bind, method_get, prolink_emit, method_result,
    method_modify, method_ret.
  destruct (pk_decks p !! d) as [k|] eqn:E; cbn -[checked_add_u64].
  - destruct (checked_add_u64 _ _); cbn -[checked_add_u64]; [|by left].
    case_bool_decide; simpl; by rewrite lookup_delete_eq.
  - case_bool_decide; done.
Qed.

(** The deck is empty, and a load id and a timing generation are spent. *)
Definition load_refused d n g (e : ProLinkProviderError) p : Prop :=
  is_overflow e = true ∨
  e = PLInvalidTrack TrackEmptyArtist ∧ pk_decks p !! d = None ∧
  pk_next_track_load_id p = n + 1 ∧ pk_timing_generation p = g + 1.

Lemma overflow_refused d n g e p : overflow e → load_refused d n g e p.
Proof. intros He. left. by destruct He as [->|[->| ->]]. Qed.

Lemma nameless_track status id n bpm key dur :
  str_is_blank (ds_device_name status) = true →
  TrackMetadata_try_new_unanalyzed id (lit "External track " ++ show_u n) (ds_device_name status)
    bpm key dur = Err TrackEmptyArtist.
Proof.
  intros Hname. unfold TrackMetadata_try_new_unanalyzed, validate_track_facts.
  by rewrite external_title_named, Hname.
Qed.

Lemma nameless_load now status identity beat track_bpm effective_bpm at_nanos t n g :
  str_is_blank (ds_device_name status) = true →
  triple (λ p, pk_next_track_load_id p = n ∧ pk_timing_generation p = g)
    (load_from_status now status identity beat track_bpm effective_bpm at_nanos t)
    (post (λ _ _, False) (load_refused (ds_device_number status) n g)).
Proof.
  intros Hname. unfold load_from_status.
  apply (post_bind _ _ _ (λ _ p, pk_next_track_load_id p = n ∧ pk_timing_generation p = g + 1)).
  { intros p [Hn Hg]. unfold advance_timing_generation, method_bind, method_get, method_result, method_modify.
    destruct (checked_add_u64 _ _) as [m|] eqn:E; cbn; [|by left].
    apply checked_add_u64_Some in E as [-> _]. by rewrite <- Hg. }
  intros _. apply (post_bind _ _ _ (λ _ p, pk_decks p !! ds_device_number status = None ∧
                            pk_next_track_load_id p = n ∧ pk_timing_generation p = g + 1)).
  { eapply triple_mono; [| |apply (unload_deck_spent _ _ n (g + 1))]; [done|].
    intros [a|e] s Hs; [exact Hs|by apply overflow_refused]. }
  intros _ p (Hd & Hn & Hg). unfold method_bind, method_get, method_result, method_modify.
  destruct (checked_add_u64 _ _) as [m|] eqn:E; cbn [ok_or];
    [|by left]. apply checked_add_u64_Some in E as [-> _].
  rewrite nameless_track by done. right. by rewrite <- Hn.
Qed.

(** A deck whose frames carry no name of the device is never loaded.  The validation of
    the bridge messages does not look at the name, but a track cannot be announced without
    an artist, for which the name stands: every frame of a track that is not yet on the
    deck fails, leaves the deck empty, and uses up a load id and a timing generation. *)
Theorem nameless_deck_never_loads now status observed_at_nanos t p track_bpm effective_bpm :
  str_is_blank (ds_device_name status) = true →
  ds_rekordbox_id status ≠ 0 → ds_source_player status ≠ 0 →
  bpm_milli (ds_track_bpm status) = Ok track_bpm →
  bpm_milli (ds_effective_bpm status) = Ok effective_bpm →
  1 ≤ ds_beat_number status ≤ U32_MAX →
  (∀ k, pk_decks p !! ds_device_number status = Some k →
     pd_identity k ≠ status_identity status (signature_of p (ds_device_number status))) →
  (∀ name, validate_event (BridgeDeckStatus (set_ds_device_name name status)) =
           validate_event (BridgeDeckStatus status)) ∧
  let '(p', outcome) := apply_status now status observed_at_nanos t p in
  ∃ e, outcome = Err e ∧
    load_refused (ds_device_number status) (pk_next_track_load_id p) (pk_timing_generation p) e p'.
Proof.
  intros Hname Hid Hplayer Htb Heb Hbeat Hother. split; [done|].
  set (refused := load_refused _ _ _).
  assert (triple (λ q, q = p) (apply_status now status observed_at_nanos t) (post (λ _ _, False) refused))
    as H; [|specialize (H p eq_refl); destruct (apply_status _ _ _ _ p) as [p' [a|e]]; [done|by exists e]].
  unfold apply_status. destruct (Z.eqb_spec (ds_rekordbox_id status) 0); [done|].
  destruct (Z.eqb_spec (ds_source_player status) 0); [done|]. cbn [orb].
  rewrite Htb, Heb. unfold u32_try_from.
  rewrite (proj2 (Z.leb_le 0 _)), (proj2 (Z.leb_le _ U32_MAX)) by lia. cbn [andb ok_or].
  intros ? ->. cbn [method_bind method_result method_get].
  set (load := load_from_status _ _ _ _ _ _ _ _).
  assert (post (λ _ _, False) refused ((do! load then method_ret (mkStatusFlags true true false)) p).2
    ((do! load then method_ret (mkStatusFlags true true false)) p).1) as Hload.
  { apply (post_bind (λ q, pk_next_track_load_id q = pk_next_track_load_id p ∧
                           pk_timing_generation q = pk_timing_generation p) _ _ (λ _ _, False));
      [by apply nameless_load|by intros ? ? []|done]. }
  unfold method_bind in *.
  destruct (pk_decks p !! ds_device_number status) as [k|] eqn:Ek;
    [rewrite bool_decide_eq_false_2 by by apply Hother|]; cbv iota;
    by destruct (load p) as [q [a|e]].
Qed.

(** ** A small session *)

Definition demo_deck_status (name : String.string) (playing : bool) (beat_number : Z) : DeckStatus :=
  mkDeckStatus 2 (lit name) playing (negb playing) false true true 3 (lit "USB_SLOT")
    (lit "REKORDBOX") 77 (f64_of_Z 120) (f64_of_Z 120) beat_number 1 1048576.

Definition demo_message (sequence observed_at_nanos : Z) (event : BridgeEvent) : BridgeMessage :=
  mkBridgeMessage None sequence observed_at_nanos ClassTransport 0 0 event.

Definition demo_beat (beat_within_bar : Z) : BridgeEvent :=
  BridgeBeatEvent (mkBridgeBeat 2 (lit "CDJ-3000") (f64_of_Z 120) beat_within_bar true).

Definition demo_position (millis : Z) : ProLinkPrecisePositionObservation :=
  mkProLinkPrecisePositionObservation 2 1 2000000000 millis 120000 1.

(** Stopped at beat 16, played from there to beat 17, the events drained, and stopped. *)
Definition demo_calls : list ((nat → Instant) * ProLinkOp) :=
  (λ op, (λ _, 0, op)) <$>
    [PIngest (demo_message 1 0 (BridgeDeckStatus (demo_deck_status "CDJ-3000" false 17))) 1000;
     PIngest (demo_message 2 1000000000 (BridgeDeckStatus (demo_deck_status "CDJ-3000" true 17))) 2000;
     PIngest (demo_message 3 1500000000 (demo_beat 2)) 3000;
     PDrain].

Definition demo_stop : (nat → Instant) * ProLinkOp :=
  (λ _, 0, PIngest (demo_message 4 2000000000 (BridgeDeckStatus (demo_deck_status "CDJ-3000" false 18))) 4000).

Lemma nameless_deck_never_loads_witness :
  validate_event (BridgeDeckStatus (demo_deck_status " " true 17)) = Ok tt ∧
  ∃ e, (apply_status (λ _, 0) (demo_deck_status " " true 17) 0 1000 empty_provider).2 = Err e.
Proof.
  split; [vm_compute; reflexivity|].
  assert (bpm_milli (f64_of_Z 120) = Ok 120000) as Hbpm by (vm_compute; reflexivity).
  destruct (nameless_deck_never_loads (λ _, 0) (demo_deck_status " " true 17) 0 1000 empty_provider
    120000 120000) as [_ H]; [vm_compute; reflexivity|discriminate|discriminate|exact Hbpm|exact Hbpm|
    |discriminate|]; [vm_compute; split; discriminate|].
  destruct (apply_status _ _ _ _ _) as [p' outcome]. destruct H as (e & -> & _). by exists e.
Defined.

Lemma align_spec_witness :
  align_beat_within_bar 17 1 mod 4 = 0 ∧ align_beat_within_bar 1 4 = 0.
Proof.
  split; [|apply (align_spec 1 4); unfold U32_MAX; lia].
  apply (align_spec 17 1); unfold U32_MAX; lia.
Defined.

Definition demo_events : list DomainEvent :=
  let r := prolink_run 0 (demo_calls ++ [demo_stop]) in
  run_drained r ++ pk_pending_events (run_provider r).

Lemma prolink_shown_witness :
  (pd_beat <$> pk_decks (run_provider (prolink_run 0 (demo_calls ++ [demo_stop]))) !! 2) = Some 17 ∧
  rs_leader_deck (run_events RuntimeState_default demo_events).1 = Some 2.
Proof.
  split; [vm_compute; reflexivity|].
  refine (eq_trans (proj1 (proj2 (prolink_shown 0 (demo_calls ++ [demo_stop]) demo_events _ _ _ _ _ _))) _).
  - repeat constructor.
  - vm_compute. split_and!; done.
  - vm_compute; reflexivity.
  - vm_compute; reflexivity.
  - assert (Forall (λ e, is_Some (observation_of e)) demo_events) as H
      by (apply (bool_decide_eq_true_1 _); vm_compute; reflexivity).
    eapply Forall_impl; [exact H|]. intros e [o Ho] Hn. congruence.
  - vm_compute. discriminate.
  - vm_compute. reflexivity.
Defined.

Lemma playing_beat_guarded_witness :
  let p := run_provider (prolink_run 0 demo_calls) in
  let p' := (prolink_op (λ _, 0) demo_stop.2 p).1 in
  (pd_beat <$> pk_decks p' !! 2) = (pd_beat <$> pk_decks p !! 2).
Proof.
  intros p p'. 
  destruct (pk_decks p !! 2) as [k|] eqn:Hk; [|by vm_compute in Hk].
  destruct (pk_decks p' !! 2) as [k'|] eqn:Hk'; [|by vm_compute in Hk'].
  pose proof (playing_beat_guarded 0 demo_calls (λ _, 0) demo_stop.2 2 k k') as H. simpl. f_equal.
  apply H.
  - repeat constructor.
  - vm_compute. split_and!; done.
  - vm_compute; reflexivity.
  - exact Hk.
  - vm_compute in Hk. apply (inj Some) in Hk. by subst k.
  - exact Hk'.
  - vm_compute in Hk, Hk'. apply (inj Some) in Hk, Hk'. by subst k k'.
Defined.
