(* ===== verification/ProLinkQueue.v ===== *)
(** * Pro DJ Link: the supervisor of the bridge

    Models [lumi-prolink-input/src/supervisor.rs]: the check of the UDP ports, the thread
    that decodes the output of the bridge into a bounded queue, the coalescing of the
    messages that a later one replaces, the drain by traffic class, the histogram of the
    ages, and the diagnostics.  The processes, pipes and sockets themselves are outside:
    what they answer is an argument.  A lock is taken for a whole step, so every interleaving
    of the threads is a sequence of steps. *)

From stdpp Require Import prelude list gmap strings.
From Stdlib Require Import ZArith Lia.
From S2P Require Import Prelude.
From S2P Require Import Float64.
From S2P Require Import ProLink.
From S2P Require Import ProLinkProvider.
Open Scope Z_scope.

Definition STDERR_TAIL_CAPACITY : nat := 40.
Definition PROCESS_OUTPUT_CAPACITY : nat := 512.
Definition INGRESS_LATENCY_BOUNDS_MICROS : list Z :=
  [100; 250; 500; 1000; 2000; 5000; 10000; 20000; 40000; 100000; 250000; 500000; 1000000].
Definition PRO_DJ_LINK_UDP_PORTS : list Z := [50000; 50001; 50002].

(** [iter().position(p)] *)
Definition index_of {A} (p : A → bool) (l : list A) : option nat := fst <$> list_find (λ x, p x = true) l.

(** ** The network preflight *)

Record ProLinkNetworkConflict := mkProLinkNetworkConflict {
  conflict_ports : list Z;
  conflict_owners : list str;
}.

(** [Vec::dedup]: of neighbours. *)
Fixpoint dedup (l : list Z) : list Z :=
  match l with
  | x :: (y :: _) as l' => if x =? y then dedup l' else x :: dedup l'
  | _ => l
  end.

Section Preflight.
(** The owner of a port that [macos_udp_port_owner] finds, none on other systems, and
    whether the port can be bound. *)
Variables (owner : Z → option str) (bind : Z → bool).

Definition occupied_udp_ports (ports : list Z) : list Z * list str :=
  let '(occupied_ports, owners) :=
    foldl (λ '(occupied_ports, owners) port,
             match owner port with
             | Some name =>
                 (occupied_ports ++ [port],
                  if bool_decide (name ∈ owners) then owners else owners ++ [name])
             | None => (occupied_ports, owners)
             end) ([], []) ports in
  let occupied_ports :=
    foldl (λ occupied_ports port,
             if bool_decide (port ∈ occupied_ports) then occupied_ports
             else if bind port then occupied_ports else occupied_ports ++ [port])
      occupied_ports ports in
  (dedup (sort_by_key id occupied_ports), owners).

Definition ensure_udp_ports_available_with (ports : list Z) : result unit ProLinkNetworkConflict :=
  let '(occupied_ports, owners) := occupied_udp_ports ports in
  if bool_decide (occupied_ports = []) then Ok tt
  else Err (mkProLinkNetworkConflict occupied_ports owners).

Definition ensure_prolink_network_available : result unit ProLinkNetworkConflict :=
  ensure_udp_ports_available_with PRO_DJ_LINK_UDP_PORTS.
End Preflight.

(** ** The ages of the messages *)

Record IngressLatencyHistogram := mkIngressLatencyHistogram {
  ilh_buckets : list Z;
  ilh_sample_count : Z;
  ilh_maximum_micros : Z;
}.

Definition IngressLatencyHistogram_default : IngressLatencyHistogram :=
  mkIngressLatencyHistogram (replicate 14 0) 0 0.

Definition latency_bucket (micros : Z) : nat :=
  default (length INGRESS_LATENCY_BOUNDS_MICROS)
    (index_of (λ bound, micros <=? bound) INGRESS_LATENCY_BOUNDS_MICROS).

Definition record_latency (micros : Z) (h : IngressLatencyHistogram) : IngressLatencyHistogram :=
  mkIngressLatencyHistogram
    (alter (λ count, saturating_add_u64 count 1) (latency_bucket micros) (ilh_buckets h))
    (saturating_add_u64 (ilh_sample_count h) 1)
    (Z.max (ilh_maximum_micros h) micros).

(** The [for] loop: the first bucket with which the target is reached. *)
Fixpoint reached_bucket (target cumulative : Z) (index : nat) (buckets : list Z) : option nat :=
  match buckets with
  | [] => None
  | count :: buckets =>
      let cumulative := saturating_add_u64 cumulative count in
      if target <=? cumulative then Some index
      else reached_bucket target cumulative (S index) buckets
  end.

Definition latency_percentile (percentile : Z) (h : IngressLatencyHistogram) : Z :=
  if ilh_sample_count h =? 0 then 0
  else
    let target := saturating_add_u64 (saturating_mul_u64 (ilh_sample_count h) percentile) 99 / 100 in
    match reached_bucket target 0 0 (ilh_buckets h) with
    | Some index => default (ilh_maximum_micros h) (INGRESS_LATENCY_BOUNDS_MICROS !! index)
    | None => ilh_maximum_micros h
    end.

(** ** The queue *)

Inductive CoalescingKey : Type :=
| KeyUSBMedia (device_number : Z)
| KeyDeckStatus (device_number : Z)
| KeyTempoStatus (device_number : Z)
| KeyPrecisePosition (device_number : Z)
| KeyTrackMetadata (deck_number : Z)
| KeyTrackSignature (deck_number : Z).

#[global] Instance CoalescingKey_eq_dec : EqDecision CoalescingKey.
Proof. solve_decision. Defined.

Definition coalescing_key (message : BridgeMessage) : option CoalescingKey :=
  if bool_decide (bm_traffic_class message = ClassCritical) then None
  else
    match bm_event message with
    | BridgeUSBMedia media => Some (KeyUSBMedia (um_device_number media))
    | BridgeDeckStatus status => Some (KeyDeckStatus (ds_device_number status))
    | BridgeTempoStatus status => Some (KeyTempoStatus (ts_device_number status))
    | BridgePrecisePosition position => Some (KeyPrecisePosition (pp_device_number position))
    | BridgeMetadata metadata => Some (KeyTrackMetadata (btm_deck_number metadata))
    | BridgeSignature signature => Some (KeyTrackSignature (sig_deck_number signature))
    | BridgeHello _ | BridgeStatus _ | DeviceFound _ | DeviceLost _ | BridgeUSBMount _
    | BridgeBeatEvent _ | BridgeError _ => None
    end.

Record ProcessOutputQueue := mkProcessOutputQueue {
  poq_messages : list BridgeMessage;
  poq_received_at : gmap Z Instant;
  poq_capacity : nat;
  poq_high_water : nat;
  poq_coalesced_message_count : Z;
  poq_critical_saturation_count : Z;
  poq_last_sequence : option Z;
  poq_source_age : IngressLatencyHistogram;
  poq_terminal_error : option str;
  poq_stdout_closed : bool;
}.

Definition set_poq_messages (x : list BridgeMessage) (s : ProcessOutputQueue) : ProcessOutputQueue :=
  mkProcessOutputQueue x (poq_received_at s) (poq_capacity s) (poq_high_water s)
    (poq_coalesced_message_count s) (poq_critical_saturation_count s) (poq_last_sequence s)
    (poq_source_age s) (poq_terminal_error s) (poq_stdout_closed s).

Definition set_poq_received_at (x : gmap Z Instant) (s : ProcessOutputQueue) : ProcessOutputQueue :=
  mkProcessOutputQueue (poq_messages s) x (poq_capacity s) (poq_high_water s)
    (poq_coalesced_message_count s) (poq_critical_saturation_count s) (poq_last_sequence s)
    (poq_source_age s) (poq_terminal_error s) (poq_stdout_closed s).

Definition set_poq_high_water (x : nat) (s : ProcessOutputQueue) : ProcessOutputQueue :=
  mkProcessOutputQueue (poq_messages s) (poq_received_at s) (poq_capacity s) x
    (poq_coalesced_message_count s) (poq_critical_saturation_count s) (poq_last_sequence s)
    (poq_source_age s) (poq_terminal_error s) (poq_stdout_closed s).

Definition set_poq_coalesced_message_count (x : Z) (s : ProcessOutputQueue) : ProcessOutputQueue :=
  mkProcessOutputQueue (poq_messages s) (poq_received_at s) (poq_capacity s) (poq_high_water s)
    x (poq_critical_saturation_count s) (poq_last_sequence s) (poq_source_age s)
    (poq_terminal_error s) (poq_stdout_closed s).

Definition set_poq_critical_saturation_count (x : Z) (s : ProcessOutputQueue) : ProcessOutputQueue :=
  mkProcessOutputQueue (poq_messages s) (poq_received_at s) (poq_capacity s) (poq_high_water s)
    (poq_coalesced_message_count s) x (poq_last_sequence s) (poq_source_age s)
    (poq_terminal_error s) (poq_stdout_closed s).

Definition set_poq_last_sequence (x : option Z) (s : ProcessOutputQueue) : ProcessOutputQueue :=
  mkProcessOutputQueue (poq_messages s) (poq_received_at s) (poq_capacity s) (poq_high_water s)
    (poq_coalesced_message_count s) (poq_critical_saturation_count s) x (poq_source_age s)
    (poq_terminal_error s) (poq_stdout_closed s).

Definition set_poq_source_age (x : IngressLatencyHistogram) (s : ProcessOutputQueue) : ProcessOutputQueue :=
  mkProcessOutputQueue (poq_messages s) (poq_received_at s) (poq_capacity s) (poq_high_water s)
    (poq_coalesced_message_count s) (poq_critical_saturation_count s) (poq_last_sequence s) x
    (poq_terminal_error s) (poq_stdout_closed s).

Definition set_poq_terminal_error (x : option str) (s : ProcessOutputQueue) : ProcessOutputQueue :=
  mkProcessOutputQueue (poq_messages s) (poq_received_at s) (poq_capacity s) (poq_high_water s)
    (poq_coalesced_message_count s) (poq_critical_saturation_count s) (poq_last_sequence s)
    (poq_source_age s) x (poq_stdout_closed s).

Definition set_poq_stdout_closed (x : bool) (s : ProcessOutputQueue) : ProcessOutputQueue :=
  mkProcessOutputQueue (poq_messages s) (poq_received_at s) (poq_capacity s) (poq_high_water s)
    (poq_coalesced_message_count s) (poq_critical_saturation_count s) (poq_last_sequence s)
    (poq_source_age s) (poq_terminal_error s) x.

Definition ProcessOutputQueue_new (capacity : nat) : ProcessOutputQueue :=
  mkProcessOutputQueue [] ∅ capacity 0 0 0 None IngressLatencyHistogram_default None false.

Implicit Types (q : ProcessOutputQueue).

(** [messages.remove(index)] of a message that another one makes dispensable. *)
Definition discard_queued (index : nat) q : ProcessOutputQueue :=
  let q := match poq_messages q !! index with
           | Some replaced => set_poq_received_at (delete (bm_sequence replaced) (poq_received_at q)) q
           | None => q
           end in
  set_poq_coalesced_message_count (saturating_add_u64 (poq_coalesced_message_count q) 1)
    (set_poq_messages (delete index (poq_messages q)) q).

Definition has_key (key : CoalescingKey) (queued : BridgeMessage) : bool :=
  bool_decide (coalescing_key queued = Some key).

Definition coalescible (queued : BridgeMessage) : bool :=
  bool_decide (is_Some (coalescing_key queued)).

(** The queue without the message that the new one replaces. *)
Definition replace_keyed (message : BridgeMessage) q : ProcessOutputQueue :=
  match coalescing_key message with
  | Some key =>
      match index_of (has_key key) (poq_messages q) with
      | Some index => discard_queued index q
      | None => q
      end
  | None => q
  end.

Definition enqueue (now : Instant) (message : BridgeMessage) q : ProcessOutputQueue :=
  let messages := poq_messages q ++ [message] in
  set_poq_high_water (Nat.max (poq_high_water q) (length messages))
    (set_poq_messages messages
      (set_poq_received_at (<[bm_sequence message := now]> (poq_received_at q)) q)).

Definition saturated_text (capacity : nat) : str :=
  lit "bounded Pro DJ Link ingress saturated at " ++ show_u (Z.of_nat capacity)
    ++ lit " critical messages".

Definition poq_push (now : Instant) (message : BridgeMessage) q : ProcessOutputQueue * bool :=
  let q := set_poq_last_sequence (Some (bm_sequence message)) q in
  let q := replace_keyed message q in
  if bool_decide (length (poq_messages q) = poq_capacity q) then
    match index_of coalescible (poq_messages q) with
    | Some index => (enqueue now message (discard_queued index q), true)
    | None =>
        (set_poq_terminal_error (Some (saturated_text (poq_capacity q)))
           (set_poq_critical_saturation_count
              (saturating_add_u64 (poq_critical_saturation_count q) 1) q), false)
    end
  else (enqueue now message q, true).

(** ** The drain *)

Definition set_bm_ingress_queue_age_micros (x : Z) (s : BridgeMessage) : BridgeMessage :=
  mkBridgeMessage (bm_packet_origin s) (bm_sequence s) (bm_observed_at_nanos s)
    (bm_traffic_class s) (bm_bridge_queue_age_micros s) x (bm_event s).

(** [received.elapsed().as_micros()], at most [u64::MAX]. *)
Definition supervisor_age (now : Instant) (received : option Instant) : Z :=
  match received with
  | Some received => Z.min (Z.max 0 (now - received) / 1000) U64_MAX
  | None => 0
  end.

(** The loop over the drained messages; [now n] is the clock when message [n] is reached. *)
Fixpoint age_messages (now : nat → Instant) (n : nat) (messages : list BridgeMessage) q :
    list BridgeMessage * ProcessOutputQueue :=
  match messages with
  | [] => ([], q)
  | message :: messages =>
      let age := supervisor_age (now n) (poq_received_at q !! bm_sequence message) in
      let q := set_poq_received_at (delete (bm_sequence message) (poq_received_at q)) q in
      let q := set_poq_source_age
        (record_latency (saturating_add_u64 (bm_bridge_queue_age_micros message) age)
           (poq_source_age q)) q in
      let '(aged, q) := age_messages now (S n) messages q in
      (set_bm_ingress_queue_age_micros age message :: aged, q)
  end.

Definition class_priority (c : BridgeTrafficClass) : Z :=
  match c with ClassCritical => 0 | ClassTempo => 1 | ClassTransport => 2 | ClassDisplay => 3 end.

(** The order of [(priority, sequence)]. *)
Definition drain_leb (a b : BridgeMessage) : bool :=
  let pa := class_priority (bm_traffic_class a) in
  let pb := class_priority (bm_traffic_class b) in
  (pa <? pb) || ((pa =? pb) && (bm_sequence a <=? bm_sequence b)).

(** An error is reported once: [terminal_error.take()]. *)
Definition drain_messages (now : nat → Instant) q :
    ProcessOutputQueue * result (list BridgeMessage) str :=
  match poq_terminal_error q with
  | Some message => (set_poq_terminal_error None q, Err message)
  | None =>
      let '(messages, q) := age_messages now 0 (poq_messages q) (set_poq_messages [] q) in
      (q, Ok (sort_by drain_leb messages))
  end.

(** ** The thread that reads the output *)

(** The text of an error of the decoder; the one of serde_json is a parameter. *)
Definition show_decode_error (json_error : str) (e : BridgeDecodeError) : str :=
  match e with
  | InvalidJson => lit "invalid Pro DJ Link bridge JSON: " ++ json_error
  | UnexpectedProtocol protocol => lit "unexpected bridge protocol '" ++ protocol ++ lit "'"
  | UnsupportedVersion version =>
      lit "unsupported Pro DJ Link bridge protocol version " ++ show_u version
  | NonMonotoneSequence expected actual =>
      lit "bridge sequence mismatch: expected " ++ show_u expected ++ lit ", got " ++ show_u actual
  | HelloRequired => lit "the first bridge envelope must be hello"
  | DuplicateHello => lit "the bridge emitted hello more than once"
  | UnknownEventType message_type => lit "unknown bridge event type '" ++ message_type ++ lit "'"
  | InvalidPayload name => lit "invalid bridge payload for " ++ name
  end.

(** The decoder of the thread, the queue it shares, and whether it still reads. *)
Record BridgeReader := mkBridgeReader {
  br_decoder : BridgeDecoder;
  br_queue : ProcessOutputQueue;
  br_reading : bool;
}.

Section Reader.
Context {V : Type} (from_str : str → option (WireEnvelope V)) (json_error : str → str).
Context `{!Deserialize V Hello, !Deserialize V BridgeSourceStatus, !Deserialize V Device,
  !Deserialize V USBMedia, !Deserialize V USBMount, !Deserialize V DeckStatus,
  !Deserialize V BridgeBeat, !Deserialize V TempoStatus, !Deserialize V PrecisePosition,
  !Deserialize V BridgeTrackMetadata, !Deserialize V TrackSignature, !Deserialize V BridgeFailure}.

Definition fail_reader (message : str) (r : BridgeReader) : BridgeReader :=
  mkBridgeReader (br_decoder r) (set_poq_terminal_error (Some message) (br_queue r)) false.

(** One line of the output, or the error of reading it. *)
Definition reader_line (now : Instant) (line : result str str) (r : BridgeReader) : BridgeReader :=
  if negb (br_reading r) then r
  else
    match line with
    | Err error => fail_reader error r
    | Ok line =>
        match decode_line from_str line (br_decoder r) with
        | Err error =>
            fail_reader (lit "invalid Pro DJ Link bridge message: "
                           ++ show_decode_error (json_error line) error) r
        | Ok (message, decoder) =>
            let '(queue, reading) := poq_push now message (br_queue r) in
            mkBridgeReader decoder queue reading
        end
    end.

Definition reader_closed (r : BridgeReader) : BridgeReader :=
  if negb (br_reading r) then r
  else mkBridgeReader (br_decoder r) (set_poq_stdout_closed true (br_queue r)) false.
End Reader.

(** The tail of the error output. *)
Definition stderr_line (line : str) (lines : list str) : list str :=
  push_bounded STDERR_TAIL_CAPACITY lines line.

(** ** Diagnostics *)

Record BridgeProcessDiagnostics := mkBridgeProcessDiagnostics {
  bpd_running : bool;
  bpd_last_sequence : option Z;
  bpd_queue_capacity : nat;
  bpd_queue_depth : nat;
  bpd_queue_high_water : nat;
  bpd_coalesced_message_count : Z;
  bpd_critical_saturation_count : Z;
  bpd_source_age_sample_count : Z;
  bpd_source_age_p50_micros : Z;
  bpd_source_age_p95_micros : Z;
  bpd_source_age_p99_micros : Z;
  bpd_source_age_max_micros : Z;
  bpd_stderr_tail : list str;
}.

Definition bridge_diagnostics (process_running : bool) (stderr_tail : list str) q :
    BridgeProcessDiagnostics :=
  let age := poq_source_age q in
  mkBridgeProcessDiagnostics
    (process_running && negb (poq_stdout_closed q) && bool_decide (poq_terminal_error q = None))
    (poq_last_sequence q) (poq_capacity q) (length (poq_messages q)) (poq_high_water q)
    (poq_coalesced_message_count q) (poq_critical_saturation_count q)
    (ilh_sample_count age) (latency_percentile 50 age) (latency_percentile 95 age) (latency_percentile 99 age)
    (ilh_maximum_micros age) stderr_tail.

(** What the provider takes over: [record_ingress_metrics] of provider.rs. *)
Definition record_ingress_metrics (d : BridgeProcessDiagnostics) (p : ProLinkDeckSourceProvider) :
    ProLinkDeckSourceProvider :=
  set_pk_ingress_queue_capacity (bpd_queue_capacity d)
    (set_pk_ingress_queue_depth (bpd_queue_depth d)
      (set_pk_ingress_queue_high_water (bpd_queue_high_water d)
        (set_pk_ingress_coalesced_message_count (bpd_coalesced_message_count d)
          (set_pk_ingress_critical_saturation_count (bpd_critical_saturation_count d)
            (set_pk_ingress_source_age_sample_count (bpd_source_age_sample_count d)
              (set_pk_ingress_source_age_p50_micros (bpd_source_age_p50_micros d)
                (set_pk_ingress_source_age_p95_micros (bpd_source_age_p95_micros d)
                  (set_pk_ingress_source_age_p99_micros (bpd_source_age_p99_micros d)
                    (set_pk_ingress_source_age_max_micros (bpd_source_age_max_micros d) p))))))))).
