(* ===== verification/ProLinkQueueProps.v ===== *)
(** * What the ingress queue guarantees

    A batch that is drained holds every message that no later one may replace, and of the
    others the latest ones ([ingress_batch]); a whole session of the reader thread, with
    drains in between, loses none of the former and decodes consecutive sequences
    ([reader_lossless]); a percentile of the ages is a bound that the histogram justifies
    ([percentile_spec]). *)

From stdpp Require Import prelude list gmap strings.
From Stdlib Require Import ZArith Lia Sorted.
From S2P Require Import Prelude.
From S2P Require Import Float64.
From S2P Require Import ProLink.
From S2P Require Import ProLinkProvider.
From S2P Require Import ProLinkQueue.
Open Scope Z_scope.

Implicit Types (q : ProcessOutputQueue) (m : BridgeMessage) (l ms : list BridgeMessage).

(** ** The reference: what later messages leave of a list *)

Definition unkeyed m : bool := negb (coalescible m).

Definition superseded m l : bool :=
  match coalescing_key m with Some key => existsb (has_key key) l | None => false end.

(** Each message whose key no later message has. *)
Fixpoint latest l : list BridgeMessage :=
  match l with
  | [] => []
  | m :: l => if superseded m l then latest l else m :: latest l
  end.

Definition without_key m l : list BridgeMessage :=
  match coalescing_key m with
  | Some key => List.filter (λ x, negb (has_key key x)) l
  | None => l
  end.

Lemma has_key_spec key m : has_key key m = true ↔ coalescing_key m = Some key.
Proof. unfold has_key. by rewrite bool_decide_eq_true. Qed.

Lemma superseded_snoc x l m :
  superseded x (l ++ [m]) = superseded x l || bool_decide (is_Some (coalescing_key x) ∧ coalescing_key x = coalescing_key m).
Proof.
  unfold superseded. destruct (coalescing_key x) as [key|]; simpl.
  - rewrite existsb_app. simpl. rewrite orb_false_r. f_equal. unfold has_key.
    apply bool_decide_ext. split; [by intros ->|]. by intros [_ <-].
  - done.
Qed.

Lemma latest_snoc l m : latest (l ++ [m]) = without_key m (latest l) ++ [m].
Proof.
  unfold without_key. induction l as [|x l IH]; simpl.
  { replace (superseded m []) with false by (unfold superseded; by destruct (coalescing_key m)).
    by destruct (coalescing_key m). }
  rewrite superseded_snoc, IH. destruct (superseded x l) eqn:E; simpl; [done|].
  destruct (coalescing_key m) as [key|] eqn:Em.
  - simpl. destruct (has_key key x) eqn:Ex; simpl.
    + apply has_key_spec in Ex. by rewrite Ex, bool_decide_eq_true_2 by eauto.
    + rewrite bool_decide_eq_false_2; [done|]. intros [_ H]. apply has_key_spec in H. congruence.
  - rewrite bool_decide_eq_false_2; [done|]. intros [[? ?] ?]. congruence.
Qed.

Lemma omap_sublist {A B} (f : A → option B) (l k : list A) : l `sublist_of` k → omap f l `sublist_of` omap f k.
Proof. induction 1; simpl; [done| |]; case_match; first [done|by constructor]. Qed.

Lemma omap_key_elem key l : key ∈ omap coalescing_key l ↔ existsb (has_key key) l = true.
Proof.
  rewrite list_elem_of_omap, existsb_exists. setoid_rewrite has_key_spec.
  by setoid_rewrite list_elem_of_In.
Qed.

Lemma latest_sublist l : latest l `sublist_of` l.
Proof. induction l as [|m l IH]; simpl; [done|]. case_match; by constructor. Qed.

(** No two of the latest messages have a key in common. *)
Lemma latest_keys l : NoDup (omap coalescing_key (latest l)).
Proof.
  induction l as [|m l IH]; simpl; [constructor|].
  destruct (superseded m l) eqn:E; simpl; [done|].
  unfold superseded in E. destruct (coalescing_key m) as [key|]; [|done].
  constructor; [|done]. intros Hin. apply (sublist_subseteq _ _ (omap_sublist _ _ _ (latest_sublist l))) in Hin.
  apply omap_key_elem in Hin. congruence.
Qed.

Lemma latest_unkeyed l : List.filter unkeyed (latest l) = List.filter unkeyed l.
Proof.
  induction l as [|m l IH]; simpl; [done|].
  destruct (superseded m l) eqn:E; simpl; [|by rewrite IH].
  unfold superseded in E. unfold unkeyed at 2, coalescible. destruct (coalescing_key m); [|done].
  by rewrite bool_decide_eq_true_2 by eauto.
Qed.

(** ** Removing from the queue *)

Lemma index_of_cons {A} (p : A → bool) x (l : list A) :
  index_of p (x :: l) = if p x then Some 0%nat else S <$> index_of p l.
Proof.
  unfold index_of. simpl. destruct (p x) eqn:E.
  - by rewrite decide_True.
  - rewrite decide_False by congruence. by destruct (list_find _ l) as [[? ?]|].
Qed.

Lemma index_of_Some {A} (p : A → bool) (l : list A) i :
  index_of p l = Some i → ∃ x, l !! i = Some x ∧ p x = true.
Proof.
  unfold index_of. destruct (list_find _ l) as [[j x]|] eqn:E; [|done]. intros [= <-].
  apply list_find_Some in E as (? & ? & _). by exists x.
Qed.

Lemma index_of_None {A} (p : A → bool) (l : list A) : index_of p l = None → Forall (λ x, p x = false) l.
Proof.
  unfold index_of. destruct (list_find _ l) as [[j x]|] eqn:E; [done|]. intros _.
  apply list_find_None in E. eapply Forall_impl; [exact E|]. simpl. intros x Hx. by destruct (p x).
Qed.

Lemma delete_index_of {A} (p : A → bool) (l : list A) i :
  index_of p l = Some i → delete i l `sublist_of` l ∧ length l = S (length (delete i l)).
Proof.
  intros (x & Hx & _)%index_of_Some. split; [apply sublist_delete|].
  rewrite length_delete by eauto. apply lookup_lt_Some in Hx. lia.
Qed.

(** The one message of the key is removed. *)
Lemma delete_keyed key l :
  NoDup (omap coalescing_key l) →
  match index_of (has_key key) l with Some i => delete i l | None => l end
    = List.filter (λ x, negb (has_key key x)) l.
Proof.
  induction l as [|x l IH]; [done|]. intros Hn. rewrite index_of_cons. simpl in *.
  destruct (has_key key x) eqn:E; simpl.
  - apply has_key_spec in E. rewrite E in Hn. apply NoDup_cons in Hn as [Hin Hn].
    rewrite <- (IH Hn). destruct (index_of _ l) as [i|] eqn:Ei; [|done].
    apply index_of_Some in Ei as (y & Hy & Hk). exfalso. apply Hin, omap_key_elem, existsb_exists.
    exists y. split; [|done]. apply list_elem_of_In. by eapply list_elem_of_lookup_2.
  - assert (NoDup (omap coalescing_key l)) as Hn'.
    { destruct (coalescing_key x); [by apply NoDup_cons in Hn as [_ ?]|done]. }
    rewrite <- (IH Hn'). by destruct (index_of _ l).
Qed.

Lemma delete_unkeyed l i x :
  l !! i = Some x → coalescible x = true → List.filter unkeyed (delete i l) = List.filter unkeyed l.
Proof.
  revert i. induction l as [|y l IH]; intros [|i] Hi Hx; simpl in *; try done.
  - injection Hi as ->. unfold unkeyed at 2. by rewrite Hx.
  - by rewrite (IH i).
Qed.

Lemma filter_unkeyed_without m l : List.filter unkeyed (without_key m l) = List.filter unkeyed l.
Proof.
  unfold without_key. destruct (coalescing_key m) as [key|]; [|done].
  induction l as [|x l IH]; simpl; [done|].
  destruct (has_key key x) eqn:E; simpl; rewrite IH; [|done].
  apply has_key_spec in E. unfold unkeyed at 2, coalescible. by rewrite E, bool_decide_eq_true_2 by eauto.
Qed.

Lemma sublist_without m l k : l `sublist_of` k → without_key m l `sublist_of` without_key m k.
Proof.
  unfold without_key. destruct (coalescing_key m) as [key|]; [|done].
  induction 1; simpl; [done| |]; destruct (has_key key x); simpl; first [done|by constructor].
Qed.

Lemma without_length m l :
  NoDup (omap coalescing_key l) → (length l ≤ S (length (without_key m l)))%nat.
Proof.
  unfold without_key. destruct (coalescing_key m) as [key|]; [|lia]. intros Hn.
  rewrite <- delete_keyed by done. destruct (index_of _ l) as [i|] eqn:E; [|lia].
  apply delete_index_of in E as [_ ->]. done.
Qed.

(** ** Pushing *)

(** The queue that a batch starts with: new, or just drained. *)
Record drained_queue q : Prop := {
  fr_messages : poq_messages q = [];
  fr_received_at : poq_received_at q = ∅;
  fr_error : poq_terminal_error q = None;
  fr_capacity : (0 < poq_capacity q)%nat;
}.

Definition sequences l : gset Z := list_to_set (bm_sequence <$> l).

(** What a queue of the capacity [c] keeps of the messages [ms]. *)
Record keeps_of (c : nat) ms l : Prop := {
  ko_latest : l `sublist_of` latest ms;
  ko_unkeyed : List.filter unkeyed l = List.filter unkeyed ms;
  ko_length : (length l ≤ c)%nat;
  ko_all : (length l < c)%nat → l = latest ms;
}.

(** A queue after the messages [ms] of a batch; [coalesced] were counted before. *)
Record holding (c : nat) (coalesced : Z) ms q : Prop := {
  hq_keeps : keeps_of c ms (poq_messages q);
  hq_received_at : dom (poq_received_at q) = sequences (poq_messages q);
  hq_coalesced : poq_coalesced_message_count q =
    Z.min U64_MAX (coalesced + Z.of_nat (length ms - length (poq_messages q)));
  hq_error : poq_terminal_error q = None;
  hq_capacity : poq_capacity q = c;
}.

(** A step between two messages: a queue from which dispensable ones were removed. *)
Record thinned (c : nat) (coalesced : Z) (n : nat) l q : Prop := {
  tq_messages : poq_messages q = l;
  tq_received_at : dom (poq_received_at q) = sequences l;
  tq_coalesced : poq_coalesced_message_count q = Z.min U64_MAX (coalesced + Z.of_nat (n - length l));
  tq_length : (length l ≤ n)%nat;
  tq_error : poq_terminal_error q = None;
  tq_capacity : poq_capacity q = c;
}.

Lemma sequences_delete l i x :
  NoDup (bm_sequence <$> l) → l !! i = Some x → sequences (delete i l) = sequences l ∖ {[bm_sequence x]}.
Proof.
  unfold sequences. revert i. induction l as [|y l IH]; intros [|i] Hn Hi; csimpl in *; try done;
    apply NoDup_cons in Hn as [Hy Hn].
  - injection Hi as ->. rewrite <- (elem_of_list_to_set (C := gset Z)) in Hy. clear IH Hn. set_solver.
  - rewrite (IH i Hn Hi).
    assert (bm_sequence y ≠ bm_sequence x) as Hne.
    { intros E. apply Hy. rewrite E. apply list_elem_of_fmap. exists x. split; [done|].
      by eapply list_elem_of_lookup_2. }
    clear IH Hn Hi Hy. set_solver.
Qed.

Lemma discard_thinned c coalesced n l i q :
  0 ≤ coalesced → NoDup (bm_sequence <$> l) → (i < length l)%nat → thinned c coalesced n l q →
  thinned c coalesced n (delete i l) (discard_queued i q).
Proof.
  intros Hc Hn Hi [Hm Hr Hk Hl He Hcap]. destruct (lookup_lt_is_Some_2 _ _ Hi) as [x Hx].
  unfold discard_queued. rewrite Hm, Hx. simpl.
  assert (length l = S (length (delete i l))) as El by (rewrite length_delete by eauto; lia).
  split; simpl; try done.
  - by rewrite Hm.
  - by rewrite dom_delete_L, Hr, (sequences_delete _ _ _ Hn Hx).
  - unfold saturating_add_u64. rewrite Hk. unfold U64_MAX. lia.
  - lia.
Qed.

Lemma fmap_sublist {A B} (f : A → B) (l k : list A) : l `sublist_of` k → f <$> l `sublist_of` f <$> k.
Proof. induction 1; csimpl; [done|by constructor|by constructor]. Qed.

Lemma sublist_sequences l k : l `sublist_of` k → NoDup (bm_sequence <$> k) → NoDup (bm_sequence <$> l).
Proof. intros Hs. intros Hn. eapply sublist_NoDup; [exact Hn|]. by apply fmap_sublist. Qed.

Lemma replace_thinned c coalesced n l m q :
  0 ≤ coalesced → NoDup (bm_sequence <$> l) → NoDup (omap coalescing_key l) →
  thinned c coalesced n l q → thinned c coalesced n (without_key m l) (replace_keyed m q).
Proof.
  intros Hc Hn Hk Hq. unfold replace_keyed, without_key. destruct (coalescing_key m) as [key|]; [|done].
  rewrite (tq_messages _ _ _ _ _ Hq), <- delete_keyed by done.
  destruct (index_of _ l) as [i|] eqn:E; [|done]. apply discard_thinned; try done.
  apply index_of_Some in E as (x & Hx & _). by eapply lookup_lt_Some.
Qed.

Lemma enqueue_holding c coalesced ms l now m q :
  keeps_of c (ms ++ [m]) (l ++ [m]) → thinned c coalesced (length ms) l q →
  holding c coalesced (ms ++ [m]) (enqueue now m q).
Proof.
  intros Hk [Hm Hr Hco Hl He Hcap]. split; simpl; rewrite ?Hm; try done.
  - rewrite dom_insert_L, Hr. unfold sequences. rewrite fmap_app, list_to_set_app_L. simpl. set_solver.
  - rewrite Hco, !length_app. simpl. do 2 f_equal. lia.
Qed.

(** The queue is full of messages that must be kept. *)
Record queue_saturated (c : nat) ms q : Prop := {
  sat_messages : poq_messages q = List.filter unkeyed ms;
  sat_length : length (poq_messages q) = c;
  sat_error : poq_terminal_error q = Some (saturated_text c);
}.

Lemma keeps_of_snoc c ms l l' m :
  keeps_of c ms l → without_key m l = l' → (length l' < c)%nat → keeps_of c (ms ++ [m]) (l' ++ [m]).
Proof.
  intros [Hs Hu Hl Ha] <- Hlt. split.
  - rewrite latest_snoc. apply sublist_app; [by apply sublist_without|done].
  - rewrite !List.filter_app, filter_unkeyed_without. by rewrite Hu.
  - rewrite length_app. simpl. lia.
  - rewrite length_app. simpl. intros Hlt'. rewrite latest_snoc, <- Ha; [done|].
    pose proof (without_length m l (sublist_NoDup _ _ (latest_keys ms) (omap_sublist _ _ _ Hs))). lia.
Qed.

Lemma push_holding c coalesced ms now m q :
  0 ≤ coalesced → (0 < c)%nat → NoDup (bm_sequence <$> ms ++ [m]) → holding c coalesced ms q →
  let '(q', ok) := poq_push now m q in
  if ok then holding c coalesced (ms ++ [m]) q' else queue_saturated c ms q'.
Proof.
  intros Hco Hc Hn [Hk Hr Hcount He Hcap]. unfold poq_push. set (q0 := set_poq_last_sequence _ _).
  set (l := poq_messages q) in *. pose proof Hk as [Hs Hu Hl Ha].
  assert (NoDup (bm_sequence <$> ms)) as Hn1 by (rewrite fmap_app in Hn; by apply NoDup_app in Hn as (? & _)).
  assert (NoDup (bm_sequence <$> l)) as Hn2.
  { eapply sublist_sequences; [|exact Hn1]. etransitivity; [exact Hs|apply latest_sublist]. }
  assert (NoDup (omap coalescing_key l)) as Hn3
    by (eapply sublist_NoDup; [apply latest_keys|apply omap_sublist, Hs]).
  assert (length l ≤ length ms)%nat as Hlm.
  { apply sublist_length. etransitivity; [exact Hs|apply latest_sublist]. }
  assert (thinned c coalesced (length ms) l q0) as H0 by (split; try done; simpl; lia).
  apply (replace_thinned _ _ _ _ m) in H0; [|done..]. set (q1 := replace_keyed m q0) in *.
  pose proof H0 as [Hm1 _ _ Hl1 _ Hcap1]. rewrite Hm1, Hcap1. set (l1 := without_key m l) in *.
  pose proof (without_length m l Hn3) as Hw. fold l1 in Hw.
  assert (length l1 ≤ length l)%nat as Hw'.
  { unfold l1, without_key. destruct (coalescing_key m); [apply List.filter_length_le|done]. }
  case_bool_decide as Hfull.
  - assert (l1 = l) as El.
    { assert (length l1 = length l) as El by lia. revert El. unfold l1, without_key.
      destruct (coalescing_key m); [intros E; by apply List.forallb_filter_id, List.filter_length_forallb|done]. }
    destruct (index_of coalescible l1) as [i|] eqn:Ei.
    + pose proof (delete_index_of _ _ _ Ei) as [Hd1 Hd2]. apply index_of_Some in Ei as (x & Hx & Hcx).
      assert (i < length l1)%nat as Hi by by eapply lookup_lt_Some.
      apply (enqueue_holding _ _ _ (delete i l1)).
      * split.
        -- rewrite latest_snoc. apply sublist_app; [|done]. etransitivity; [exact Hd1|].
           by apply sublist_without.
        -- rewrite !List.filter_app, (delete_unkeyed _ _ _ Hx Hcx), El. by rewrite Hu.
        -- rewrite length_app. simpl. lia.
        -- rewrite length_app. simpl. lia.
      * apply discard_thinned; [done| |done|done]. by rewrite El.
    + apply index_of_None in Ei. split; simpl; rewrite ?Hm1, ?Hcap1; try done.
      rewrite <- Hu, <- El. symmetry. apply List.forallb_filter_id, List.forallb_forall.
      intros x Hx. unfold unkeyed. rewrite Forall_forall in Ei.
      by rewrite (Ei x) by by apply list_elem_of_In.
  - apply (enqueue_holding _ _ _ l1); [|done]. eapply keeps_of_snoc; [done..|]. lia.
Qed.

(** The messages of a batch, until one is refused. *)
Fixpoint push_all (calls : list (Instant * BridgeMessage)) q : ProcessOutputQueue * bool :=
  match calls with
  | [] => (q, true)
  | (now, m) :: calls =>
      let '(q, ok) := poq_push now m q in if ok then push_all calls q else (q, false)
  end.

Lemma push_all_holding c coalesced calls : ∀ ms q,
  0 ≤ coalesced → (0 < c)%nat → NoDup (bm_sequence <$> ms ++ calls.*2) → holding c coalesced ms q →
  let '(q', ok) := push_all calls q in
  if ok then holding c coalesced (ms ++ calls.*2) q'
  else ∃ done, ms `prefix_of` done ∧ done `prefix_of` ms ++ calls.*2 ∧ queue_saturated c done q'.
Proof.
  induction calls as [|[now m] calls IH]; intros ms q Hco Hc Hn Hq; simpl.
  { by rewrite app_nil_r. }
  simpl in Hn. rewrite cons_middle, app_assoc in Hn.
  assert (NoDup (bm_sequence <$> ms ++ [m])) as Hn' by (rewrite fmap_app in Hn; by apply NoDup_app in Hn as (? & _)).
  pose proof (push_holding c coalesced ms now m q Hco Hc Hn' Hq) as H.
  destruct (poq_push now m q) as [q1 [|]].
  - specialize (IH (ms ++ [m]) q1 Hco Hc Hn H). destruct (push_all calls q1) as [q2 [|]].
    + by rewrite cons_middle, app_assoc.
    + destruct IH as (d & H1 & H2 & H3). exists d. split_and!; [|by rewrite cons_middle, app_assoc|done].
      etransitivity; [|exact H1]. by exists [m].
  - exists ms. split_and!; [done| |done]. by exists (m :: calls.*2).
Qed.

(** ** Draining *)

#[global] Instance list_filter_perm {A} (f : A → bool) : Proper ((≡ₚ) ==> (≡ₚ)) (List.filter f).
Proof.
  induction 1 as [|x l k _ IH|x y l|l1 l2 l3 _ IH1 _ IH2]; simpl; [done| | |by rewrite IH1].
  - destruct (f x); by rewrite IH.
  - destruct (f x), (f y); try done. apply perm_swap.
Qed.

(** A message without the age that the drain fills in. *)
Definition forget_age m : BridgeMessage := set_bm_ingress_queue_age_micros 0 m.

Lemma unkeyed_forget m : unkeyed (forget_age m) = unkeyed m.
Proof. by destruct m. Qed.

Lemma filter_forget l : List.filter unkeyed (forget_age <$> l) = forget_age <$> List.filter unkeyed l.
Proof.
  induction l as [|m l IH]; [done|]. csimpl. rewrite unkeyed_forget, IH. by destruct (unkeyed m).
Qed.

Lemma age_messages_spec now l : ∀ n q,
  let '(aged, q') := age_messages now n l q in
  forget_age <$> aged = forget_age <$> l ∧ poq_messages q' = poq_messages q ∧
  dom (poq_received_at q') = dom (poq_received_at q) ∖ sequences l ∧
  poq_terminal_error q' = poq_terminal_error q ∧ poq_capacity q' = poq_capacity q ∧
  poq_coalesced_message_count q' = poq_coalesced_message_count q.
Proof.
  induction l as [|m l IH]; intros n q; simpl.
  { split_and!; try done. unfold sequences. simpl. set_solver. }
  match goal with |- context [age_messages now (S n) l ?q1] => specialize (IH (S n) q1); revert IH end.
  destruct (age_messages _ _ l _) as [aged q']. csimpl. intros (-> & H1 & H2 & H3 & H4 & H5).
  split_and!; try done. rewrite H2, dom_delete_L. unfold sequences. csimpl. set_solver.
Qed.

#[global] Instance drain_leb_trans : Transitive (by_leb drain_leb).
Proof.
  intros x y z. unfold by_leb, drain_leb.
  rewrite !orb_true_iff, !andb_true_iff, !Z.ltb_lt, !Z.eqb_eq, !Z.leb_le. lia.
Qed.

Lemma drain_leb_total x y : drain_leb x y = false → drain_leb y x = true.
Proof.
  unfold drain_leb. rewrite orb_false_iff, andb_false_iff, orb_true_iff, andb_true_iff,
    !Z.ltb_lt, !Z.ltb_ge, !Z.eqb_eq, Z.eqb_neq, Z.leb_le, Z.leb_gt. lia.
Qed.

Lemma drain_holding now c coalesced ms q :
  (0 < c)%nat → holding c coalesced ms q →
  ∃ batch q', drain_messages now q = (q', Ok batch) ∧ drained_queue q' ∧ poq_capacity q' = c ∧
    poq_coalesced_message_count q' = poq_coalesced_message_count q ∧
    StronglySorted (by_leb drain_leb) batch ∧
    forget_age <$> batch ≡ₚ forget_age <$> poq_messages q.
Proof.
  intros Hc [Hk Hr Hco He Hcap]. unfold drain_messages. rewrite He.
  pose proof (age_messages_spec now (poq_messages q) 0 (set_poq_messages [] q)) as H.
  destruct (age_messages _ _ _ _) as [aged q']. destruct H as (H1 & H2 & H3 & H4 & H5 & H6). simpl in *.
  exists (sort_by drain_leb aged), q'. split_and!; [done| |congruence|done| |].
  - split; [done| |congruence|lia]. apply dom_empty_inv_L. rewrite H3, Hr. set_solver.
  - apply sort_by_sorted, drain_leb_total. apply _.
  - by rewrite sort_by_perm, H1.
Qed.

Lemma fresh_holding q :
  drained_queue q → in_u64 (poq_coalesced_message_count q) →
  holding (poq_capacity q) (poq_coalesced_message_count q) [] q.
Proof.
  intros [Hm Hr He Hc] Hco. split; rewrite ?Hm; try done.
  - split; simpl; done || lia.
  - rewrite Hr. unfold sequences. simpl. set_solver.
  - unfold in_u64 in Hco. simpl. lia.
Qed.

(** The ingress queue refines the batch of the latest messages.  From a queue that is
    new or just drained: unless it is filled up, the next drain delivers every message that
    has no key (critical messages and beats among them) and of the others no two of one
    key; with room left these are exactly the latest ones of their keys.  The batch is
    sorted by traffic class and sequence, never longer than the capacity, and what is
    missing is counted as coalesced.  A message is refused only when the queue is full of
    messages without a key: the drain reports it, and none of them is lost. *)
Theorem ingress_batch calls now q :
  drained_queue q → in_u64 (poq_coalesced_message_count q) → NoDup (bm_sequence <$> calls.*2) →
  let ms := calls.*2 in
  let '(q1, ok) := push_all calls q in
  if ok then
    ∃ batch kept q2, drain_messages now q1 = (q2, Ok batch) ∧ drained_queue q2 ∧
      StronglySorted (by_leb drain_leb) batch ∧
      forget_age <$> batch ≡ₚ forget_age <$> kept ∧ keeps_of (poq_capacity q) ms kept ∧
      NoDup (omap coalescing_key kept) ∧
      poq_coalesced_message_count q2 = Z.min U64_MAX
        (poq_coalesced_message_count q + Z.of_nat (length ms - length batch))
  else
    ∃ pushed, pushed `prefix_of` ms ∧ poq_messages q1 = List.filter unkeyed pushed ∧
      length (poq_messages q1) = poq_capacity q ∧
      (drain_messages now q1).2 = Err (saturated_text (poq_capacity q)).
Proof.
  intros Hf Hco Hn ms. pose proof (fr_capacity _ Hf) as Hc.
  pose proof (push_all_holding (poq_capacity q) (poq_coalesced_message_count q) calls [] q
    ltac:(unfold in_u64 in Hco; lia) Hc Hn (fresh_holding _ Hf Hco)) as H.
  simpl in H. fold ms in H. destruct (push_all calls q) as [q1 [|]].
  - destruct (drain_holding now _ _ _ _ Hc H) as (batch & q2 & H1 & H2 & H3 & H4 & H5 & H6).
    pose proof H as [Hk _ Hcount _ _].
    assert (length batch = length (poq_messages q1)) as El.
    { apply Permutation_length in H6. by rewrite !length_fmap in H6. }
    exists batch, (poq_messages q1), q2. split_and!; try done.
    + eapply sublist_NoDup; [apply latest_keys|apply omap_sublist, Hk].
    + by rewrite H4, Hcount, El.
  - destruct H as (pushed & _ & H1 & [H2 H3 H4]). exists pushed. split_and!; try done.
    unfold drain_messages. by rewrite H4.
Qed.

(** ** Percentiles *)

(** How many of the samples are at most the bound. *)
Definition count_le (bound : Z) (samples : list Z) : Z :=
  Z.of_nat (length (List.filter (λ x, x <=? bound) samples)).

Definition histogram (samples : list Z) : IngressLatencyHistogram :=
  foldl (λ h x, record_latency x h) IngressLatencyHistogram_default samples.

Definition in_buckets (p : nat → bool) (samples : list Z) : Z :=
  Z.of_nat (length (List.filter (λ x, p (latency_bucket x)) samples)).

Lemma index_of_bound x bounds : ∀ i bound,
  StronglySorted Z.le bounds → bounds !! i = Some bound →
  Nat.leb (default (length bounds) (index_of (λ b, x <=? b) bounds)) i = (x <=? bound).
Proof.
  induction bounds as [|b bounds IH]; [done|]. intros i bound [Hs Hb]%StronglySorted_inv Hi.
  rewrite index_of_cons. destruct (Z.leb_spec x b) as [Hx|Hx].
  - simpl. symmetry. apply Z.leb_le. destruct i as [|i]; simpl in Hi; [by injection Hi as <-|].
    rewrite List.Forall_forall in Hb. specialize (Hb bound). etransitivity; [exact Hx|].
    apply Hb, list_elem_of_In. by eapply list_elem_of_lookup_2.
  - assert (default (length (b :: bounds)) (S <$> index_of (λ b, x <=? b) bounds)
      = S (default (length bounds) (index_of (λ b, x <=? b) bounds))) as -> by by destruct (index_of _ _).
    destruct i as [|i]; simpl in *; [|by apply IH]. injection Hi as <-. symmetry. by apply Z.leb_gt.
Qed.

Lemma latency_bounds_sorted : StronglySorted Z.le INGRESS_LATENCY_BOUNDS_MICROS.
Proof. unfold INGRESS_LATENCY_BOUNDS_MICROS. repeat constructor; discriminate. Qed.

Lemma latency_bucket_bound x i bound :
  INGRESS_LATENCY_BOUNDS_MICROS !! i = Some bound → Nat.leb (latency_bucket x) i = (x <=? bound).
Proof. apply index_of_bound, latency_bounds_sorted. Qed.

Lemma latency_bucket_last x : (latency_bucket x ≤ 13)%nat.
Proof.
  unfold latency_bucket. destruct (index_of _ _) as [i|] eqn:E; simpl; [|lia].
  apply index_of_Some in E as (b & Hb & _). apply lookup_lt_Some in Hb. simpl in Hb. lia.
Qed.

Lemma histogram_snoc samples x : histogram (samples ++ [x]) = record_latency x (histogram samples).
Proof. unfold histogram. by rewrite foldl_app. Qed.

Lemma in_buckets_snoc p samples x :
  in_buckets p (samples ++ [x]) = in_buckets p samples + if p (latency_bucket x) then 1 else 0.
Proof.
  unfold in_buckets. rewrite List.filter_app, length_app. simpl. destruct (p _); simpl; lia.
Qed.

Lemma in_buckets_le p samples : 0 ≤ in_buckets p samples ≤ Z.of_nat (length samples).
Proof. unfold in_buckets. pose proof (List.filter_length_le (λ x, p (latency_bucket x)) samples). lia. Qed.

Lemma in_no_bucket samples : in_buckets (λ b, Nat.ltb b 0) samples = 0.
Proof. unfold in_buckets. induction samples as [|x samples IH]; [done|exact IH]. Qed.

Definition buckets_of (samples : list Z) (from count : nat) : list Z :=
  (λ i, in_buckets (Nat.eqb i) samples) <$> seq from count.

(** While no counter overflows, the histogram counts the samples of each bucket. *)
Lemma histogram_counts samples :
  Z.of_nat (length samples) ≤ U64_MAX → Forall (λ x, 0 ≤ x) samples →
  ilh_buckets (histogram samples) = buckets_of samples 0 14 ∧
  ilh_sample_count (histogram samples) = Z.of_nat (length samples) ∧
  Forall (λ x, x ≤ ilh_maximum_micros (histogram samples)) samples ∧
  (samples ≠ [] → ilh_maximum_micros (histogram samples) ∈ samples).
Proof.
  induction samples as [|x samples IH] using rev_ind; [done|]. rewrite length_app. simpl. intros Hn.
  intros [Hs Hx]%Forall_app. apply Forall_inv in Hx.
  rewrite histogram_snoc. destruct IH as (H1 & H2 & H3 & H4); [lia|done|]. simpl. split_and!.
  - rewrite H1. unfold buckets_of. apply list_eq. intros i.
    rewrite list_lookup_alter, !list_lookup_fmap.
    destruct (seq 0 14 !! i) as [j|] eqn:Ej.
    + pose proof Ej as [Hj _]%lookup_seq. simpl in Hj. subst j.
      pose proof (in_buckets_le (Nat.eqb i) samples).
      destruct (decide (latency_bucket x = i)) as [Hi|Hne].
      * rewrite Hi, Ej. simpl. rewrite in_buckets_snoc, Hi, Nat.eqb_refl. f_equal. unfold saturating_add_u64. lia.
      * simpl. rewrite in_buckets_snoc, (proj2 (Nat.eqb_neq i (latency_bucket x))) by done. f_equal. lia.
    + case_decide as Hi; [by rewrite Hi, Ej|done].
  - rewrite H2. unfold saturating_add_u64. lia.
  - apply Forall_app. split; [|repeat constructor; lia].
    eapply Forall_impl; [exact H3|]. simpl. intros y ?. lia.
  - intros _. apply elem_of_app. destruct (Z.max_spec (ilh_maximum_micros (histogram samples)) x) as [[? ->]|[? ->]];
      [right; by left|]. destruct samples as [|y samples]; [|left; by apply H4].
    simpl in *. assert (x = 0) as -> by lia. right. by left.
Qed.

(** The loop over the buckets from [i] on. *)
Lemma reached_bucket_spec samples target k : ∀ i,
  Z.of_nat (length samples) ≤ U64_MAX →
  match reached_bucket target (in_buckets (λ b, Nat.ltb b i) samples) i (buckets_of samples i k) with
  | Some j => (i ≤ j < i + k)%nat ∧ target ≤ in_buckets (λ b, Nat.leb b j) samples ∧
      ∀ j', (i ≤ j' < j)%nat → in_buckets (λ b, Nat.leb b j') samples < target
  | None => ∀ j', (i ≤ j' < i + k)%nat → in_buckets (λ b, Nat.leb b j') samples < target
  end.
Proof.
  assert (∀ i, in_buckets (λ b, Nat.ltb b i) samples + in_buckets (Nat.eqb i) samples
    = in_buckets (λ b, Nat.leb b i) samples) as Hsum.
  { intros i. unfold in_buckets. induction samples as [|x samples IH]; [done|]. cbn [List.filter].
    destruct (Nat.ltb_spec (latency_bucket x) i), (Nat.eqb_spec i (latency_bucket x)),
      (Nat.leb_spec (latency_bucket x) i); try lia; cbn [length]; lia. }
  induction k as [|k IH]; intros i Hn; [simpl; intros; lia|].
  unfold buckets_of. cbn [seq]. rewrite fmap_cons. cbn [reached_bucket].
  fold (buckets_of samples (S i) k).
  assert (saturating_add_u64 (in_buckets (λ b, Nat.ltb b i) samples) (in_buckets (Nat.eqb i) samples)
    = in_buckets (λ b, Nat.leb b i) samples) as ->.
  { unfold saturating_add_u64. rewrite Hsum. pose proof (in_buckets_le (λ b, Nat.leb b i) samples). lia. }
  destruct (Z.leb_spec target (in_buckets (λ b, Nat.leb b i) samples)).
  - split_and!; [lia|lia|done|]. intros; lia.
  - specialize (IH (S i) Hn).
    change (in_buckets (λ b, Nat.ltb b (S i)) samples) with (in_buckets (λ b, Nat.leb b i) samples) in IH.
    destruct (reached_bucket _ _ _ _) as [j|].
    + destruct IH as (H1 & H2 & H3). split_and!; [lia|lia|done|]. intros j' Hj'.
      destruct (decide (j' = i)) as [->|]; [done|]. apply H3. lia.
    + intros j' Hj'. destruct (decide (j' = i)) as [->|]; [done|]. apply IH. lia.
Qed.

Lemma in_buckets_bound samples i bound :
  INGRESS_LATENCY_BOUNDS_MICROS !! i = Some bound →
  in_buckets (λ b, Nat.leb b i) samples = count_le bound samples.
Proof.
  intros Hi. unfold in_buckets, count_le. do 2 f_equal. apply List.filter_ext.
  intros x. by apply latency_bucket_bound.
Qed.

Lemma count_le_all bound samples :
  Forall (λ x, x ≤ bound) samples → count_le bound samples = Z.of_nat (length samples).
Proof.
  intros H. unfold count_le. rewrite List.forallb_filter_id; [done|]. apply List.forallb_forall.
  intros x Hx. apply Z.leb_le. rewrite Forall_forall in H. by apply H, list_elem_of_In.
Qed.

Lemma bounds_lookup_le (l : list Z) : ∀ i j x y,
  StronglySorted Z.le l → l !! i = Some x → l !! j = Some y → (i ≤ j)%nat → x ≤ y.
Proof.
  induction l as [|z l IH]; [done|]. intros [|i] [|j] x y [Hs Hz]%StronglySorted_inv Hi Hj Hij;
    simpl in *; [by simplify_eq| |lia|by eapply (IH i j); [..|lia]].
  injection Hi as <-. rewrite List.Forall_forall in Hz. apply Hz, list_elem_of_In.
  by eapply list_elem_of_lookup_2.
Qed.

(** A percentile of the histogram of the ages is the least of its bounds that at least
    that share of the samples does not exceed, or their maximum when that lies beyond every
    bound; the histogram keeps fourteen counters for any number of samples.  It holds as
    long as the hundredfold number of samples fits into 64 bits. *)
Theorem percentile_spec samples p :
  Forall (λ x, 0 ≤ x) samples → samples ≠ [] → 0 < p ≤ 100 →
  Z.of_nat (length samples) * 100 + 99 ≤ U64_MAX →
  let value := latency_percentile p (histogram samples) in
  let enough bound := Z.of_nat (length samples) * p ≤ 100 * count_le bound samples in
  (value ∈ INGRESS_LATENCY_BOUNDS_MICROS ∨ value ∈ samples ∧ Forall (λ x, x ≤ value) samples) ∧
  enough value ∧
  (∀ bound, bound ∈ INGRESS_LATENCY_BOUNDS_MICROS → enough bound → value ≤ bound) ∧
  length (ilh_buckets (histogram samples)) = 14%nat.
Proof.
  intros Hs Hne Hp Hn value enough. set (n := Z.of_nat (length samples)) in *.
  assert (0 < n) as Hn0 by (destruct samples; [done|]; unfold n; simpl; lia).
  destruct (histogram_counts samples) as (H1 & H2 & H3 & H4); [unfold U64_MAX in *; lia|done|].
  unfold value, latency_percentile. rewrite H2. fold n. rewrite (proj2 (Z.eqb_neq n 0)) by lia.
  assert (saturating_add_u64 (saturating_mul_u64 n p) 99 = n * p + 99) as ->
    by (unfold saturating_add_u64, saturating_mul_u64; nia).
  set (target := (n * p + 99) / 100).
  assert (∀ c, target ≤ c ↔ n * p ≤ 100 * c) as Ht.
  { intros c. unfold target. split; intros; Z.div_mod_to_equations; lia. }
  pose proof (reached_bucket_spec samples target 14 0 ltac:(unfold U64_MAX in *; lia)) as H.
  rewrite in_no_bucket, <- H1 in H.
  assert (n * p ≤ 100 * n) as Hall by nia.
  assert (in_buckets (λ b, Nat.leb b 13) samples = n) as Hlast.
  { unfold in_buckets. rewrite List.forallb_filter_id; [done|]. apply List.forallb_forall.
    intros x _. apply Nat.leb_le, latency_bucket_last. }
  destruct (reached_bucket _ _ _ _) as [j|]; [|specialize (H 13%nat ltac:(lia)); rewrite Hlast in H;
    apply Ht in Hall; lia].
  destruct H as (Hj & Hreach & Hleast).
  assert (length (ilh_buckets (histogram samples)) = 14%nat) as Hlen
    by (rewrite H1; unfold buckets_of; by rewrite length_fmap, length_seq).
  assert (∀ i bound, INGRESS_LATENCY_BOUNDS_MICROS !! i = Some bound → enough bound → (j ≤ i)%nat) as Hmin.
  { intros i bound Hi He. unfold enough in He. rewrite <- (in_buckets_bound _ _ _ Hi) in He.
    apply Ht in He. destruct (decide (i < j)%nat); [|lia]. specialize (Hleast i ltac:(lia)). lia. }
  destruct (INGRESS_LATENCY_BOUNDS_MICROS !! j) as [b|] eqn:Eb; cbn [default].
  - split_and!; [left; by eapply list_elem_of_lookup_2| | |done].
    + unfold enough. rewrite <- (in_buckets_bound _ _ _ Eb). by apply Ht.
    + intros bound [i Hi]%list_elem_of_lookup_1 He. pose proof (Hmin _ _ Hi He) as Hij.
      by apply (bounds_lookup_le _ j i _ _ latency_bounds_sorted).
  - split_and!; [right; split; [by apply H4|done]| | |done].
    + unfold enough. by rewrite count_le_all by done.
    + intros bound [i Hi]%list_elem_of_lookup_1 He. pose proof (Hmin _ _ Hi He) as Hij.
      apply lookup_ge_None in Eb. apply lookup_lt_Some in Hi. lia.
Qed.

(** ** A session of the reader *)

Section Session.
Context {V : Type} (from_str : str → option (WireEnvelope V)) (json_error : str → str).
Context `{!Deserialize V Hello, !Deserialize V BridgeSourceStatus, !Deserialize V Device,
  !Deserialize V USBMedia, !Deserialize V USBMount, !Deserialize V DeckStatus,
  !Deserialize V BridgeBeat, !Deserialize V TempoStatus, !Deserialize V PrecisePosition,
  !Deserialize V BridgeTrackMetadata, !Deserialize V TrackSignature, !Deserialize V BridgeFailure}.

(** What the two threads do: the reader handles a line or the end of the output, the engine
    drains. *)
Inductive ReaderStep : Type :=
| RLine (now : Instant) (line : result str str)
| RClosed
| RDrain (now : nat → Instant).

(** The reader, and what the drains have returned. *)
Record ReaderRun := mkReaderRun {
  rr_reader : BridgeReader;
  rr_batches : list (result (list BridgeMessage) str);
}.

Definition reader_start : BridgeReader :=
  mkBridgeReader BridgeDecoder_new (ProcessOutputQueue_new PROCESS_OUTPUT_CAPACITY) true.

Definition reader_step (s : ReaderRun) (step : ReaderStep) : ReaderRun :=
  let r := rr_reader s in
  match step with
  | RLine now line => mkReaderRun (reader_line from_str json_error now line r) (rr_batches s)
  | RClosed => mkReaderRun (reader_closed r) (rr_batches s)
  | RDrain now =>
      let '(q, batch) := drain_messages now (br_queue r) in
      mkReaderRun (mkBridgeReader (br_decoder r) q (br_reading r)) (rr_batches s ++ [batch])
  end.

Definition reader_run (steps : list ReaderStep) : ReaderRun :=
  foldl reader_step (mkReaderRun reader_start []) steps.

(** The messages the bridge has sent: the lines until the output ends, up to the first that
    is none. *)
Fixpoint sent_messages (d : BridgeDecoder) (steps : list ReaderStep) : list BridgeMessage :=
  match steps with
  | [] | RClosed :: _ => []
  | RDrain _ :: steps => sent_messages d steps
  | RLine _ line :: steps =>
      match line with
      | Err _ => []
      | Ok line =>
          match decode_line from_str line d with
          | Err _ => []
          | Ok (m, d) => m :: sent_messages d steps
          end
      end
  end.

(** The decoder of a stream. *)
Lemma decode_line_Ok line d m d' :
  decode_line from_str line d = Ok (m, d') →
  bm_sequence m = expected_sequence d ∧ bd_last_sequence d' = Some (bm_sequence m) ∧
  bd_hello_received d' = true ∧ is_hello (bm_event m) = negb (bd_hello_received d) ∧
  validate_event (bm_event m) = Ok tt.
Proof.
  unfold decode_line. intros H. unbind H. rename v into envelope.
  destruct (negb (bool_decide _)); [done|]. destruct (negb (_ =? BRIDGE_PROTOCOL_VERSION)); [done|].
  destruct (Z.eqb_spec (we_sequence envelope) (expected_sequence d)) as [Hs|]; [|done]. simpl in H.
  destruct (negb (bd_hello_received d) && _) eqn:Hh; [done|]. unbind H. destruct v0.
  destruct (is_hello v && bd_hello_received d) eqn:Hd; [done|]. injection H as <- <-. simpl.
  assert (bd_hello_received d = false → is_hello v = true) as Hfirst.
  { intros Hr. rewrite Hr in Hh. simpl in Hh. apply negb_false_iff, bool_decide_eq_true in Hh.
    rewrite Hh in E0. unfold decode_event in E0. rewrite bool_decide_eq_true_2 in E0 by done.
    unbind E0. by injection E0 as <-. }
  destruct (bd_hello_received d), (is_hello v); try done; by (specialize (Hfirst eq_refl)).
Qed.

(** A decoder after [n] messages. *)
Definition decoder_at (n : nat) (d : BridgeDecoder) : Prop :=
  expected_sequence d = Z.of_nat n + 1 ∧ (bd_hello_received d = true ↔ n ≠ 0%nat).

(** The messages of a stream from number [n] on. *)
Fixpoint stream_from (n : nat) ms : Prop :=
  match ms with
  | [] => True
  | m :: ms =>
      bm_sequence m = Z.of_nat n + 1 ∧ is_hello (bm_event m) = bool_decide (n = 0%nat) ∧
      validate_event (bm_event m) = Ok tt ∧ stream_from (S n) ms
  end.

Lemma stream_from_app n l k : stream_from n (l ++ k) ↔ stream_from n l ∧ stream_from (n + length l) k.
Proof.
  revert n. induction l as [|m l IH]; intros n; simpl; [rewrite Nat.add_0_r; tauto|].
  rewrite IH, Nat.add_succ_comm. tauto.
Qed.

Lemma stream_from_NoDup n l : stream_from n l → NoDup (bm_sequence <$> l).
Proof.
  assert (∀ l n, stream_from n l → Forall (λ m, Z.of_nat n < bm_sequence m) l) as Hlt.
  { intros k. induction k as [|m k IH]; [done|]. intros i (Hm & _ & _ & Hk). constructor; [lia|].
    eapply Forall_impl; [by apply (IH (S i))|]. simpl. lia. }
  revert n. induction l as [|m l IH]; intros n; csimpl; [constructor|]. intros (Hs & _ & _ & Hl).
  constructor; [|by eapply IH]. intros (x & Hx & Hin)%list_elem_of_fmap.
  pose proof (Hlt _ _ Hl) as H. rewrite Forall_forall in H. specialize (H _ Hin). lia.
Qed.

Lemma decoder_next n line d m d' :
  Z.of_nat n + 2 ≤ U64_MAX → decoder_at n d → decode_line from_str line d = Ok (m, d') →
  decoder_at (S n) d' ∧ stream_from n [m].
Proof.
  intros Hn [He Hh] (H1 & H2 & H3 & H4 & H5)%decode_line_Ok. rewrite He in H1. split.
  - split; [|by rewrite H3]. unfold expected_sequence. rewrite H2, H1. cbv iota. unfold saturating_add_u64. lia.
  - simpl. split_and!; [done| |done|done]. rewrite H4.
    destruct (bd_hello_received d), n; try done; by destruct Hh as [Hh1 Hh2]; (specialize (Hh1 eq_refl) || specialize (Hh2 ltac:(done))).
Qed.

(** ** What a session keeps *)

Definition delivered (batches : list (result (list BridgeMessage) str)) : list BridgeMessage :=
  batches ≫= λ batch, match batch with Ok l => l | Err _ => [] end.

Definition batch_ok {A E} (r : result A E) : bool := match r with Ok _ => true | Err _ => false end.

(** No failure is reported or pending. *)
Definition healthy (s : ReaderRun) : Prop :=
  poq_terminal_error (br_queue (rr_reader s)) = None ∧ forallb batch_ok (rr_batches s) = true.

(** After the messages [sent]: the last [ms] of them belong to the batch in the queue. *)
Record session (sent : list BridgeMessage) (s : ReaderRun) : Prop := {
  se_stream : stream_from 0 sent;
  se_decoder : br_reading (rr_reader s) = true → decoder_at (length sent) (br_decoder (rr_reader s));
  se_batch : ∃ before ms, sent = before ++ ms ∧
    holding PROCESS_OUTPUT_CAPACITY
      (Z.of_nat (length before) - Z.of_nat (length (delivered (rr_batches s)))) ms
      (br_queue (rr_reader s)) ∧
    (length (delivered (rr_batches s)) ≤ length before)%nat ∧
    forget_age <$> List.filter unkeyed (delivered (rr_batches s))
      ≡ₚ forget_age <$> List.filter unkeyed before;
  se_ok : forallb batch_ok (rr_batches s) = true;
}.

(** A failure stays, and ends the reader. *)
Definition broken (s : ReaderRun) : Prop :=
  br_reading (rr_reader s) = false ∧ ¬ healthy s.

Lemma broken_step s step : broken s → broken (reader_step s step).
Proof.
  intros [Hr Hh]. unfold broken, healthy in *. destruct step as [now line| |now]; simpl.
  - unfold reader_line. by rewrite Hr.
  - unfold reader_closed. by rewrite Hr.
  - unfold drain_messages. destruct (poq_terminal_error _) eqn:E; simpl.
    + split; [done|]. intros [_ H]. rewrite forallb_app, andb_true_iff in H. by destruct H.
    + pose proof (age_messages_spec now (poq_messages (br_queue (rr_reader s))) 0
        (set_poq_messages [] (br_queue (rr_reader s)))) as H.
      destruct (age_messages _ _ _ _) as [aged q]. destruct H as (_ & _ & _ & H & _). simpl in *.
      split; [done|]. rewrite forallb_app, andb_true_iff, H. tauto.
Qed.

Lemma fail_broken s message :
  broken (mkReaderRun (fail_reader message (rr_reader s)) (rr_batches s)).
Proof. split; [done|]. by intros [? _]. Qed.

Lemma drain_session sent now s :
  Z.of_nat (length sent) ≤ U64_MAX → session sent s → session sent (reader_step s (RDrain now)).
Proof.
  intros Hn [Hs Hd (before & ms & -> & Hq & Hlen & Hperm) Hok]. simpl.
  destruct (drain_holding now _ _ _ _ (Nat.lt_0_succ _) Hq) as (batch & q & -> & Hf & Hcap & Hco & _ & Hb).
  pose proof Hq as [Hk _ Hcount _ _]. rewrite length_app in Hn.
  assert (length batch = length (poq_messages (br_queue (rr_reader s)))) as El.
  { apply Permutation_length in Hb. by rewrite !length_fmap in Hb. }
  assert (length batch ≤ length ms)%nat as Hle.
  { rewrite El. apply sublist_length. etransitivity; [apply Hk|apply latest_sublist]. }
  assert (delivered (rr_batches s ++ [Ok batch]) = delivered (rr_batches s) ++ batch) as Ed.
  { unfold delivered. rewrite bind_app. simpl. by rewrite app_nil_r. }
  split; [done|done| |cbn [rr_batches]; by rewrite forallb_app, Hok].
  exists (before ++ ms), []. cbn [rr_batches rr_reader br_queue]. rewrite app_nil_r, Ed, !length_app. split_and!; [done| |lia|].
  - pose proof (fresh_holding q Hf) as H. rewrite Hcap, Hco, Hcount in H.
    match type of H with _ → holding _ ?c _ _ => match goal with |- holding _ ?c' _ _ =>
      replace c' with c; [apply H; unfold in_u64, U64_MAX in *; lia|unfold U64_MAX in *; lia] end end.
  - rewrite !List.filter_app, !fmap_app, Hperm. f_equiv.
    rewrite <- !filter_forget, Hb, !filter_forget. by rewrite (ko_unkeyed _ _ _ Hk).
Qed.

Lemma line_session sent now line s :
  Z.of_nat (length sent) + 2 ≤ U64_MAX → br_reading (rr_reader s) = true → session sent s →
  match decode_line from_str line (br_decoder (rr_reader s)) with
  | Ok (m, d) =>
      broken (reader_step s (RLine now (Ok line))) ∨
      session (sent ++ [m]) (reader_step s (RLine now (Ok line))) ∧
      br_reading (rr_reader (reader_step s (RLine now (Ok line)))) = true ∧
      br_decoder (rr_reader (reader_step s (RLine now (Ok line)))) = d
  | Err _ => broken (reader_step s (RLine now (Ok line)))
  end.
Proof.
  intros Hn Hr [Hs Hd (before & ms & -> & Hq & Hlen & Hperm) Hok]. specialize (Hd Hr).
  cbn [reader_step]. unfold reader_line. rewrite Hr. cbn [negb].
  destruct (decode_line from_str line _) as [[m d]|e] eqn:E; [|apply fail_broken].
  destruct (decoder_next _ _ _ _ _ Hn Hd E) as [Hd' Hm].
  assert (stream_from 0 ((before ++ ms) ++ [m])) as Hs' by (by apply stream_from_app).
  assert (NoDup (bm_sequence <$> ms ++ [m])) as Hnd.
  { rewrite <- app_assoc in Hs'. apply stream_from_app in Hs' as [_ Hs']. by eapply stream_from_NoDup. }
  pose proof (push_holding _ (Z.of_nat (length before) - Z.of_nat (length (delivered (rr_batches s))))
    ms now m _ ltac:(lia) (Nat.lt_0_succ _) Hnd Hq) as H.
  destruct (poq_push now m _) as [q [|]]; [right|left].
  - split_and!; [|done|done]. split; [done| |by exists before, (ms ++ [m]); rewrite app_assoc|done].
    intros _. rewrite length_app. simpl. by rewrite Nat.add_1_r.
  - split; [done|]. intros [He _]. simpl in He. by rewrite (sat_error _ _ _ H) in He.
Qed.

Lemma closed_session sent s :
  session sent s → session sent (reader_step s RClosed) ∧ br_reading (rr_reader (reader_step s RClosed)) = false.
Proof.
  intros H. simpl. unfold reader_closed. destruct (br_reading (rr_reader s)) eqn:E; simpl; [|by destruct s].
  split; [|done]. destruct H as [Hs Hd (before & ms & He & [H1 H2 H3 H4 H5] & Hr) Hok].
  split; [done|done| |done]. by exists before, ms.
Qed.

(** The messages of the rest of a run; none after the reader has ended. *)
Definition sent_from (r : BridgeReader) (steps : list ReaderStep) : list BridgeMessage :=
  if br_reading r then sent_messages (br_decoder r) steps else [].

Lemma run_broken steps : ∀ s, broken s → broken (foldl reader_step s steps).
Proof. induction steps as [|step steps IH]; intros s H; simpl; [done|]. by apply IH, broken_step. Qed.

Lemma run_session steps : ∀ sent s,
  Z.of_nat (length sent + length steps) + 2 ≤ U64_MAX → session sent s →
  let s' := foldl reader_step s steps in
  broken s' ∨ session (sent ++ sent_from (rr_reader s) steps) s'.
Proof.
  induction steps as [|step steps IH]; intros sent s Hn Hs; cbn [foldl]; cbv zeta.
  { right. unfold sent_from. cbn [sent_messages]. destruct (br_reading _); by rewrite app_nil_r. }
  cbn [length] in Hn. destruct step as [now line| |now].
  - destruct (br_reading (rr_reader s)) eqn:Er.
    + unfold sent_from. rewrite Er. destruct line as [line|e]; cbn [sent_messages].
      * pose proof (line_session sent now line s ltac:(lia) Er Hs) as H.
        destruct (decode_line from_str line _) as [[m d]|e]; [|left; by apply run_broken].
        destruct H as [H|(H & Hr & Hd)]; [left; by apply run_broken|].
        destruct (IH (sent ++ [m]) _ ltac:(rewrite length_app; simpl; lia) H) as [Hb|Hb]; [by left|right].
        unfold sent_from in Hb. rewrite Hr, Hd, <- app_assoc in Hb. exact Hb.
      * left. apply run_broken. cbn [reader_step]. unfold reader_line. rewrite Er. apply fail_broken.
    + assert (reader_step s (RLine now line) = s) as ->.
      { cbn [reader_step]. unfold reader_line. rewrite Er. by destruct s. }
      destruct (IH sent s ltac:(lia) Hs) as [Hb|Hb]; [by left|right].
      unfold sent_from in *. by rewrite Er in *.
  - destruct (closed_session sent s Hs) as [Hc Hr].
    destruct (IH sent _ ltac:(lia) Hc) as [Hb|Hb]; [by left|right].
    unfold sent_from in *. rewrite Hr in Hb. by destruct (br_reading (rr_reader s)).
  - pose proof (drain_session sent now s ltac:(lia) Hs) as H.
    destruct (IH sent _ ltac:(lia) H) as [Hb|Hb]; [by left|right].
    assert (sent_from (rr_reader (reader_step s (RDrain now))) steps = sent_from (rr_reader s) (RDrain now :: steps))
      as E; [|by rewrite <- E].
    unfold sent_from. cbn [reader_step]. by destruct (drain_messages _ _).
Qed.

Lemma start_session : session [] (mkReaderRun reader_start []).
Proof.
  split; [done|done| |done]. exists [], []. split_and!; [done| |done|done].
  apply (fresh_holding (ProcessOutputQueue_new PROCESS_OUTPUT_CAPACITY)); [|by vm_compute].
  split; [done|done|done|]. apply Nat.lt_0_succ.
Qed.

Lemma sent_messages_length steps : ∀ d, (length (sent_messages d steps) ≤ length steps)%nat.
Proof.
  induction steps as [|[now [line|e]| |now] steps IH]; intros d; simpl; [lia| |lia|lia|].
  - destruct (decode_line from_str line d) as [[m d']|e]; simpl; [|lia]. specialize (IH d'). lia.
  - specialize (IH d). lia.
Qed.

#[global] Instance healthy_dec s : Decision (healthy s).
Proof. unfold healthy. apply _. Defined.

(** A session of the bridge loses nothing that must be kept.  For every interleaving
    of lines, drains and the end of the output, as long as no failure is reported or
    pending: the messages sent are numbered from one without a gap, the first and only the
    first is the hello, all are valid; the messages without a key are delivered by the
    drains or still queued, each exactly once; and the queue and its table of times stay
    within the capacity.  After a failure the reader has stopped. *)
Theorem reader_lossless steps :
  Z.of_nat (length steps) + 2 ≤ U64_MAX →
  let s := reader_run steps in
  let sent := sent_messages BridgeDecoder_new steps in
  let q := br_queue (rr_reader s) in
  if decide (healthy s) then
    stream_from 0 sent ∧
    forget_age <$> List.filter unkeyed (delivered (rr_batches s) ++ poq_messages q)
      ≡ₚ forget_age <$> List.filter unkeyed sent ∧
    (length (poq_messages q) ≤ PROCESS_OUTPUT_CAPACITY)%nat ∧
    dom (poq_received_at q) = sequences (poq_messages q) ∧
    poq_coalesced_message_count q + Z.of_nat (length (delivered (rr_batches s)) + length (poq_messages q))
      = Z.of_nat (length sent)
  else br_reading (rr_reader s) = false.
Proof.
  intros Hn s sent q.
  destruct (run_session steps [] (mkReaderRun reader_start []) Hn start_session) as [[Hr Hh]|H].
  { fold s in Hr, Hh. by rewrite decide_False. }
  change (session sent s) in H. pose proof H as [Hs Hd (before & ms & E & [Hk H1 H2 H3 H4] & Hlen & Hperm) Hok].
  rewrite decide_True by done. split_and!; [done| |apply Hk|done|].
  - rewrite E, !List.filter_app, !fmap_app, Hperm. pose proof (ko_unkeyed _ _ _ Hk) as Hu. fold q in Hu. by rewrite Hu.
  - assert (length (poq_messages q) ≤ length ms)%nat as Hle.
    { apply sublist_length. etransitivity; [apply Hk|apply latest_sublist]. }
    pose proof (sent_messages_length steps BridgeDecoder_new) as Hsent. fold sent in Hsent.
    rewrite E, length_app in *. fold q in H2. rewrite H2. lia.
Qed.
End Session.

(** ** A small session *)

Definition queue_message (sequence : Z) (event : BridgeEvent) : BridgeMessage :=
  mkBridgeMessage None sequence 0 ClassTransport 0 0 event.

Definition queue_position (device : Z) : BridgeEvent :=
  BridgePrecisePosition (mkPrecisePosition device (lit "CDJ") 0 (f64_of_Z 120) 1 true).

Definition queue_beat : BridgeEvent :=
  BridgeBeatEvent (mkBridgeBeat 1 (lit "CDJ") (f64_of_Z 120) 1 true).

Lemma ingress_batch_witness :
  let calls := [(0, queue_message 1 (queue_position 1)); (0, queue_message 2 queue_beat);
                (0, queue_message 3 (queue_position 1)); (0, queue_message 4 queue_beat)] in
  let q := ProcessOutputQueue_new 2 in
  (push_all calls q).2 = true ∧
  (bm_sequence <$> poq_messages (push_all calls q).1) = [2; 4] ∧
  ∃ batch kept q2, drain_messages (λ _, 0) (push_all calls q).1 = (q2, Ok batch) ∧
    forget_age <$> batch ≡ₚ forget_age <$> kept ∧ keeps_of 2 calls.*2 kept.
Proof.
  intros calls q. split; [vm_compute; reflexivity|]. split; [vm_compute; reflexivity|].
  pose proof (ingress_batch calls (λ _, 0) q) as H.
  assert (drained_queue q) as Hf by (split; [done|done|done|apply Nat.lt_0_succ]).
  assert (NoDup (bm_sequence <$> calls.*2)) as Hn
    by (apply (bool_decide_eq_true_1 _); vm_compute; reflexivity).
  specialize (H Hf ltac:(by vm_compute) Hn). cbv zeta in H.
  assert ((push_all calls q).2 = true) as Hok by (vm_compute; reflexivity).
  destruct (push_all calls q) as [q1 [|]]; [|done].
  destruct H as (batch & kept & q2 & H1 & _ & _ & H2 & H3 & _). by exists batch, kept, q2.
Defined.

Lemma percentile_spec_witness :
  let ages := [20; 90; 90; 240; 3000; 2000000] in
  latency_percentile 50 (histogram ages) = 100 ∧ 6 * 50 ≤ 100 * count_le 100 ages ∧
  latency_percentile 99 (histogram ages) = 2000000.
Proof.
  intros ages. split; [vm_compute; reflexivity|]. split; [|vm_compute; reflexivity].
  apply (percentile_spec ages 50); [repeat constructor; lia|done|lia|vm_compute; discriminate].
Defined.

(** A bridge whose lines are a sequence number and a kind. *)
Definition demo_from_str (line : str) : option (WireEnvelope BridgeEvent) :=
  match line with
  | [sequence; 0] => Some (mkWireEnvelope None BRIDGE_PROTOCOL_NAME BRIDGE_PROTOCOL_VERSION sequence 0
      ClassCritical 0 (lit "hello") (BridgeHello (mkHello (lit "1") (lit "8") true)))
  | [sequence; 1] => Some (mkWireEnvelope None BRIDGE_PROTOCOL_NAME BRIDGE_PROTOCOL_VERSION sequence 0
      ClassTempo 0 (lit "beat") queue_beat)
  | [sequence; 2] => Some (mkWireEnvelope None BRIDGE_PROTOCOL_NAME BRIDGE_PROTOCOL_VERSION sequence 0
      ClassTransport 0 (lit "precisePosition") (queue_position 1))
  | _ => None
  end.

Section DemoBridge.
#[local] Instance read_hello : Deserialize BridgeEvent Hello :=
  λ e, match e with BridgeHello x => Some x | _ => None end.
#[local] Instance read_beat : Deserialize BridgeEvent BridgeBeat :=
  λ e, match e with BridgeBeatEvent x => Some x | _ => None end.
#[local] Instance read_position : Deserialize BridgeEvent PrecisePosition :=
  λ e, match e with BridgePrecisePosition x => Some x | _ => None end.
#[local] Instance read_other A : Deserialize BridgeEvent A | 100 := λ _, None.

Definition demo_steps : list ReaderStep :=
  [RLine 0 (Ok [1; 0]); RLine 0 (Ok [2; 2]); RLine 0 (Ok [3; 1]); RDrain (λ _, 0);
   RLine 0 (Ok [4; 2]); RLine 0 (Ok [5; 2]); RLine 0 (Ok [6; 1])].

Lemma reader_lossless_witness :
  let s := reader_run demo_from_str (λ _, []) demo_steps in
  healthy s ∧ length (delivered (rr_batches s)) = 3%nat ∧
  (bm_sequence <$> poq_messages (br_queue (rr_reader s))) = [5; 6] ∧
  stream_from 0 (sent_messages demo_from_str BridgeDecoder_new demo_steps).
Proof.
  intros s. assert (healthy s) as Hs by (split; vm_compute; reflexivity).
  split; [exact Hs|]. split; [vm_compute; reflexivity|]. split; [vm_compute; reflexivity|].
  pose proof (reader_lossless demo_from_str (λ _, []) demo_steps) as H.
  specialize (H ltac:(vm_compute; discriminate)). cbv zeta in H. fold s in H.
  rewrite decide_True in H by exact Hs. by destruct H.
Defined.
End DemoBridge.
