(* ===== verification/Blt.v ===== *)
(** * Beat Link Trigger MIDI input

    Models [lumi-blt-midi/src/lib.rs]: Beat Link Trigger sends one frame of control
    changes per player, each a seven-bit digit of a field, and a commit; complete frames
    become normalized observations.  A [\[T; 2\]] of the two players is a pair read by the
    index, which the channel check keeps at most one.  [Instant::now()] is an argument. *)

From stdpp Require Import prelude list gmap strings.
From Stdlib Require Import ZArith Lia.
From S2P Require Import Prelude.
From S2P Require Import Track.
From S2P Require Import Plan.
From S2P Require Import Event.
From S2P Require Import DeckSource.
From S2P Require Import ProLinkProvider.
Open Scope Z_scope.

(** [lumi-midi-coremidi/src/lib.rs] *)
Record MidiChannelVoiceMessage := mkMidiChannelVoiceMessage {
  mvm_status : Z;
  mvm_channel : Z;
  mvm_data_one : Z;
  mvm_data_two : Z;
}.

Definition BLT_PROTOCOL_VERSION : Z := 4.
Definition BLT_SOURCE_ID : Z := 30.
Definition CONTROL_CHANGE_STATUS : Z := 11.
Definition FLAGS_CC : Z := 16.
Definition REKORDBOX_ID_CC : Z := 17.
Definition SOURCE_PLAYER_CC : Z := 21.
Definition SOURCE_SLOT_CC : Z := 22.
Definition BPM_MILLI_CC : Z := 23.
Definition BEAT_CC : Z := 26.
Definition DURATION_SECONDS_CC : Z := 29.
Definition FRAME_SEQUENCE_CC : Z := 32.
Definition EFFECTIVE_BPM_MILLI_CC : Z := 33.
Definition SIMULATOR_SIGNATURE_CC : Z := 36.
Definition PLAYBACK_POSITION_MILLIS_CC : Z := 41.
Definition COMMIT_CC : Z := 119.

Definition FLAG_LOADED : Z := 1.
Definition FLAG_PLAYING : Z := 2.
Definition FLAG_MASTER : Z := 4.
Definition FLAG_ON_AIR : Z := 8.
Definition FLAG_POSITION_KNOWN : Z := 16.

(** ** Data *)

Record FrameAssembler := mkFrameAssembler {
  fa_present_fields : Z;
  fa_flags : Z;
  fa_rekordbox_id : list Z;
  fa_source_player : Z;
  fa_source_slot : Z;
  fa_track_bpm_milli : list Z;
  fa_beat : list Z;
  fa_duration_seconds : list Z;
  fa_frame_sequence : Z;
  fa_effective_bpm_milli : list Z;
  fa_simulator_signature : list Z;
  fa_playback_position_millis : list Z;
}.

Definition FrameAssembler_default : FrameAssembler :=
  mkFrameAssembler 0 0 [0; 0; 0; 0] 0 0 [0; 0; 0] [0; 0; 0] [0; 0; 0] 0 [0; 0; 0] [0; 0; 0; 0; 0] [0; 0; 0].

Record DeckFrame := mkDeckFrame {
  df_loaded : bool;
  df_playing : bool;
  df_master : bool;
  df_on_air : bool;
  df_rekordbox_id : Z;
  df_source_player : Z;
  df_source_slot : Z;
  df_track_bpm_milli : Z;
  df_effective_bpm_milli : Z;
  df_beat : Z;
  df_duration_seconds : Z;
  df_frame_sequence : Z;
  df_simulator_signature : Z;
  df_playback_position_millis : option Z;
}.

Record BltTrackIdentity := mkBltTrackIdentity {
  bti_rekordbox_id : Z;
  bti_source_player : Z;
  bti_source_slot : Z;
  bti_simulator_signature : Z;
}.

Record BltLoadedDeck := mkBltLoadedDeck {
  bd_identity : Z;
  bd_track_load_id : TrackLoadId;
  bd_beat : Z;
  bd_effective_bpm_milli : Z;
  bd_playing : bool;
  bd_media_identity : BltTrackIdentity;
  bd_playback_position_millis : option Z;
}.

Record BltTransportSnapshot := mkBltTransportSnapshot {
  bts_position_millis : option Z;
  bts_effective_bpm_milli : Z;
  bts_playing : bool;
}.

Inductive BltMidiError : Type :=
| BltIncompleteFrame
| BltFrameValueOverflow
| BltSequenceOverflow
| BltTrackLoadIdOverflow
| BltLoadedDeckMissing
| BltTrack (error : TrackValidationError).

(** [\[T; 2\]] *)
Record PerPlayer (A : Type) := both { player_one : A; player_two : A }.
Arguments both {A} _ _.
Arguments player_one {A} _.
Arguments player_two {A} _.

Definition player_get {A} (index : nat) (x : PerPlayer A) : A :=
  match index with O => player_one x | _ => player_two x end.

Definition player_set {A} (index : nat) (a : A) (x : PerPlayer A) : PerPlayer A :=
  match index with O => both a (player_two x) | _ => both (player_one x) a end.

Record BltMidiDeckSourceProvider := mkBlt {
  blt_source_id : SourceId;
  blt_sequence : Z;
  blt_next_track_load_id : Z;
  blt_assemblers : PerPlayer FrameAssembler;
  blt_last_frame_received_at : PerPlayer (option Instant);
  blt_last_frame_sequences : PerPlayer (option Z);
  blt_decks : gmap Z BltLoadedDeck;
  blt_leader_deck_id : option DeckId;
  blt_pending_events : list DomainEvent;
  blt_committed_frame_count : Z;
  blt_ignored_message_count : Z;
  blt_duplicate_frame_count : Z;
  blt_last_frame : option (DeckId * DeckFrame);
  blt_ready_emitted : bool;
}.

Notation blt A := (method BltMidiDeckSourceProvider BltMidiError A).

Definition set_blt_next_track_load_id (x : Z) (s : BltMidiDeckSourceProvider) : BltMidiDeckSourceProvider :=
  mkBlt (blt_source_id s) (blt_sequence s) x (blt_assemblers s) (blt_last_frame_received_at s)
    (blt_last_frame_sequences s) (blt_decks s) (blt_leader_deck_id s) (blt_pending_events s)
    (blt_committed_frame_count s) (blt_ignored_message_count s) (blt_duplicate_frame_count s)
    (blt_last_frame s) (blt_ready_emitted s).

Definition set_blt_assemblers (x : PerPlayer FrameAssembler) (s : BltMidiDeckSourceProvider) : BltMidiDeckSourceProvider :=
  mkBlt (blt_source_id s) (blt_sequence s) (blt_next_track_load_id s) x
    (blt_last_frame_received_at s) (blt_last_frame_sequences s) (blt_decks s)
    (blt_leader_deck_id s) (blt_pending_events s) (blt_committed_frame_count s)
    (blt_ignored_message_count s) (blt_duplicate_frame_count s) (blt_last_frame s)
    (blt_ready_emitted s).

Definition set_blt_last_frame_received_at (x : PerPlayer (option Instant)) (s : BltMidiDeckSourceProvider) : BltMidiDeckSourceProvider :=
  mkBlt (blt_source_id s) (blt_sequence s) (blt_next_track_load_id s) (blt_assemblers s) x
    (blt_last_frame_sequences s) (blt_decks s) (blt_leader_deck_id s) (blt_pending_events s)
    (blt_committed_frame_count s) (blt_ignored_message_count s) (blt_duplicate_frame_count s)
    (blt_last_frame s) (blt_ready_emitted s).

Definition set_blt_last_frame_sequences (x : PerPlayer (option Z)) (s : BltMidiDeckSourceProvider) : BltMidiDeckSourceProvider :=
  mkBlt (blt_source_id s) (blt_sequence s) (blt_next_track_load_id s) (blt_assemblers s)
    (blt_last_frame_received_at s) x (blt_decks s) (blt_leader_deck_id s) (blt_pending_events s)
    (blt_committed_frame_count s) (blt_ignored_message_count s) (blt_duplicate_frame_count s)
    (blt_last_frame s) (blt_ready_emitted s).

Definition set_blt_decks (x : gmap Z BltLoadedDeck) (s : BltMidiDeckSourceProvider) : BltMidiDeckSourceProvider :=
  mkBlt (blt_source_id s) (blt_sequence s) (blt_next_track_load_id s) (blt_assemblers s)
    (blt_last_frame_received_at s) (blt_last_frame_sequences s) x (blt_leader_deck_id s)
    (blt_pending_events s) (blt_committed_frame_count s) (blt_ignored_message_count s)
    (blt_duplicate_frame_count s) (blt_last_frame s) (blt_ready_emitted s).

Definition set_blt_leader_deck_id (x : option DeckId) (s : BltMidiDeckSourceProvider) : BltMidiDeckSourceProvider :=
  mkBlt (blt_source_id s) (blt_sequence s) (blt_next_track_load_id s) (blt_assemblers s)
    (blt_last_frame_received_at s) (blt_last_frame_sequences s) (blt_decks s) x
    (blt_pending_events s) (blt_committed_frame_count s) (blt_ignored_message_count s)
    (blt_duplicate_frame_count s) (blt_last_frame s) (blt_ready_emitted s).

Definition set_blt_committed_frame_count (x : Z) (s : BltMidiDeckSourceProvider) : BltMidiDeckSourceProvider :=
  mkBlt (blt_source_id s) (blt_sequence s) (blt_next_track_load_id s) (blt_assemblers s)
    (blt_last_frame_received_at s) (blt_last_frame_sequences s) (blt_decks s)
    (blt_leader_deck_id s) (blt_pending_events s) x (blt_ignored_message_count s)
    (blt_duplicate_frame_count s) (blt_last_frame s) (blt_ready_emitted s).

Definition set_blt_ignored_message_count (x : Z) (s : BltMidiDeckSourceProvider) : BltMidiDeckSourceProvider :=
  mkBlt (blt_source_id s) (blt_sequence s) (blt_next_track_load_id s) (blt_assemblers s)
    (blt_last_frame_received_at s) (blt_last_frame_sequences s) (blt_decks s)
    (blt_leader_deck_id s) (blt_pending_events s) (blt_committed_frame_count s) x
    (blt_duplicate_frame_count s) (blt_last_frame s) (blt_ready_emitted s).

Definition set_blt_duplicate_frame_count (x : Z) (s : BltMidiDeckSourceProvider) : BltMidiDeckSourceProvider :=
  mkBlt (blt_source_id s) (blt_sequence s) (blt_next_track_load_id s) (blt_assemblers s)
    (blt_last_frame_received_at s) (blt_last_frame_sequences s) (blt_decks s)
    (blt_leader_deck_id s) (blt_pending_events s) (blt_committed_frame_count s)
    (blt_ignored_message_count s) x (blt_last_frame s) (blt_ready_emitted s).

Definition set_blt_last_frame (x : option (DeckId * DeckFrame)) (s : BltMidiDeckSourceProvider) : BltMidiDeckSourceProvider :=
  mkBlt (blt_source_id s) (blt_sequence s) (blt_next_track_load_id s) (blt_assemblers s)
    (blt_last_frame_received_at s) (blt_last_frame_sequences s) (blt_decks s)
    (blt_leader_deck_id s) (blt_pending_events s) (blt_committed_frame_count s)
    (blt_ignored_message_count s) (blt_duplicate_frame_count s) x (blt_ready_emitted s).

Definition set_blt_ready_emitted (x : bool) (s : BltMidiDeckSourceProvider) : BltMidiDeckSourceProvider :=
  mkBlt (blt_source_id s) (blt_sequence s) (blt_next_track_load_id s) (blt_assemblers s)
    (blt_last_frame_received_at s) (blt_last_frame_sequences s) (blt_decks s)
    (blt_leader_deck_id s) (blt_pending_events s) (blt_committed_frame_count s)
    (blt_ignored_message_count s) (blt_duplicate_frame_count s) (blt_last_frame s) x.

(** ** The wire format *)

(** [REKORDBOX_ID_CC..=20] and the like. *)
Definition cc_between (controller first last : Z) : bool := (first <=? controller) && (controller <=? last).

(** [array\[usize::from(controller - first)\] = value], in the arm of that range. *)
Definition write_digit (controller first value : Z) (digits : list Z) : list Z :=
  <[Z.to_nat (controller - first) := value]> digits.

(** The assembler after the write and whether the controller is a field. *)
Definition write_field (frame : FrameAssembler) (controller value : Z) : FrameAssembler * bool :=
  let '(mkFrameAssembler present flags id player slot bpm beat duration seq eff signature position) := frame in
  if controller =? FLAGS_CC then
    (mkFrameAssembler present value id player slot bpm beat duration seq eff signature position, true)
  else if cc_between controller REKORDBOX_ID_CC 20 then
    (mkFrameAssembler present flags (write_digit controller REKORDBOX_ID_CC value id) player slot bpm beat
       duration seq eff signature position, true)
  else if controller =? SOURCE_PLAYER_CC then
    (mkFrameAssembler present flags id value slot bpm beat duration seq eff signature position, true)
  else if controller =? SOURCE_SLOT_CC then
    (mkFrameAssembler present flags id player value bpm beat duration seq eff signature position, true)
  else if cc_between controller BPM_MILLI_CC 25 then
    (mkFrameAssembler present flags id player slot (write_digit controller BPM_MILLI_CC value bpm) beat
       duration seq eff signature position, true)
  else if cc_between controller BEAT_CC 28 then
    (mkFrameAssembler present flags id player slot bpm (write_digit controller BEAT_CC value beat) duration
       seq eff signature position, true)
  else if cc_between controller DURATION_SECONDS_CC 31 then
    (mkFrameAssembler present flags id player slot bpm beat
       (write_digit controller DURATION_SECONDS_CC value duration) seq eff signature position, true)
  else if controller =? FRAME_SEQUENCE_CC then
    (mkFrameAssembler present flags id player slot bpm beat duration value eff signature position, true)
  else if cc_between controller EFFECTIVE_BPM_MILLI_CC 35 then
    (mkFrameAssembler present flags id player slot bpm beat duration seq
       (write_digit controller EFFECTIVE_BPM_MILLI_CC value eff) signature position, true)
  else if cc_between controller SIMULATOR_SIGNATURE_CC 40 then
    (mkFrameAssembler present flags id player slot bpm beat duration seq eff
       (write_digit controller SIMULATOR_SIGNATURE_CC value signature) position, true)
  else if cc_between controller PLAYBACK_POSITION_MILLIS_CC 43 then
    (mkFrameAssembler present flags id player slot bpm beat duration seq eff signature
       (write_digit controller PLAYBACK_POSITION_MILLIS_CC value position), true)
  else (frame, false).

Definition mark_present (controller : Z) (frame : FrameAssembler) : FrameAssembler :=
  let '(mkFrameAssembler present flags id player slot bpm beat duration seq eff signature position) := frame in
  mkFrameAssembler (Z.lor present (Z.shiftl 1 (controller - FLAGS_CC))) flags id player slot bpm beat duration
    seq eff signature position.

(** The loop of [decode_7bit], from the digit [index]; shifting a [u32] drops the bits
    above its width.  The conversion of the index and the product with seven cannot
    overflow on the arrays of the frame, which have at most five digits. *)
Fixpoint decode_digits (index value : Z) (chunks : list Z) : Z :=
  match chunks with
  | [] => value
  | chunk :: chunks =>
      decode_digits (index + 1) (Z.lor value (Z.shiftl chunk (index * 7) mod 2 ^ 32)) chunks
  end.

Definition decode_7bit (chunks : list Z) : Z := decode_digits 0 0 chunks.

Definition flag_set (flags flag : Z) : bool := negb (Z.land flags flag =? 0).

Definition REQUIRED_FIELDS : Z := Z.shiftl 1 28 - 1.

Definition bpm_in_range (bpm_milli : Z) : bool := (20000 <=? bpm_milli) && (bpm_milli <=? 300000).

Definition decode_frame (frame : FrameAssembler) : result DeckFrame BltMidiError :=
  if negb (fa_present_fields frame =? REQUIRED_FIELDS) then Err BltIncompleteFrame
  else
    let rekordbox_id := decode_7bit (fa_rekordbox_id frame) in
    let track_bpm_milli := decode_7bit (fa_track_bpm_milli frame) in
    let effective_bpm_milli := decode_7bit (fa_effective_bpm_milli frame) in
    let beat := decode_7bit (fa_beat frame) in
    let duration_seconds := decode_7bit (fa_duration_seconds frame) in
    let simulator_signature := decode_7bit (fa_simulator_signature frame) in
    let playback_position_millis := decode_7bit (fa_playback_position_millis frame) in
    let loaded := flag_set (fa_flags frame) FLAG_LOADED in
    if loaded && ((rekordbox_id =? 0) || negb (bpm_in_range track_bpm_milli)
                  || negb (bpm_in_range effective_bpm_milli) || (duration_seconds =? 0))
    then Err BltIncompleteFrame
    else Ok (mkDeckFrame loaded (flag_set (fa_flags frame) FLAG_PLAYING) (flag_set (fa_flags frame) FLAG_MASTER)
               (flag_set (fa_flags frame) FLAG_ON_AIR) rekordbox_id (fa_source_player frame)
               (fa_source_slot frame) track_bpm_milli effective_bpm_milli beat duration_seconds
               (fa_frame_sequence frame) simulator_signature
               (if flag_set (fa_flags frame) FLAG_POSITION_KNOWN then Some playback_position_millis else None)).

Definition blt_track_identity (frame : DeckFrame) : Z :=
  let provider_track_id :=
    if df_simulator_signature frame =? 0 then df_rekordbox_id frame else df_simulator_signature frame in
  Z.lor (Z.lor (Z.shiftl (df_source_player frame) 40) (Z.shiftl (df_source_slot frame) 32)) provider_track_id.

Definition checked_u64 (x : Z) : option Z := if x <=? U64_MAX then Some x else None.

Definition blt_duration_beats (frame : DeckFrame) : result Z BltMidiError :=
  let? product := ok_or (checked_u64 (df_duration_seconds frame * df_track_bpm_milli frame)) BltFrameValueOverflow in
  let? rounded := ok_or (checked_add_u64 product 30000) BltFrameValueOverflow in
  let estimated := rounded / 60000 in
  if estimated <=? U32_MAX
  then Ok (Z.max (Z.max estimated (saturating_add_u32 (df_beat frame) 1)) 1)
  else Err BltFrameValueOverflow.

(** ** The provider *)

Definition blt_emit (at_ : MonotonicTime) (observation : DeckObservation) : blt unit := λ p,
  match checked_add_u64 (blt_sequence p) 1 with
  | None => (p, Err BltSequenceOverflow)
  | Some sequence =>
      (mkBlt (blt_source_id p) sequence (blt_next_track_load_id p) (blt_assemblers p)
         (blt_last_frame_received_at p) (blt_last_frame_sequences p) (blt_decks p) (blt_leader_deck_id p)
         (blt_pending_events p ++ [Observation (mkObservationEnvelope (blt_source_id p) sequence at_ observation)])
         (blt_committed_frame_count p) (blt_ignored_message_count p) (blt_duplicate_frame_count p)
         (blt_last_frame p) (blt_ready_emitted p), Ok tt)
  end.

Definition Blt_new (at_ : MonotonicTime) : BltMidiDeckSourceProvider * result unit BltMidiError :=
  blt_emit at_ (SourceStatusChanged SourceStarting)
    (mkBlt BLT_SOURCE_ID 0 1 (both FrameAssembler_default FrameAssembler_default) (both None None)
       (both None None) ∅ None [] 0 0 0 None false).

(** [if condition { self.emit(at, observation)?; }] *)
Definition blt_emit_when (condition : bool) (at_ : MonotonicTime) (observation : DeckObservation) : blt unit :=
  if condition then blt_emit at_ observation else method_ret tt.

(** [if let Some(previous) = self.decks.remove(&deck_id) { self.emit(at, TrackUnloaded ..)?; }] *)
Definition blt_remove_deck (deck_id : DeckId) (at_ : MonotonicTime) : blt unit :=
  let! previous := method_get (λ p, blt_decks p !! deck_id) in
  match previous with
  | Some previous =>
      do! method_modify (λ p, set_blt_decks (delete deck_id (blt_decks p)) p) then
      blt_emit at_ (TrackUnloaded deck_id (bd_track_load_id previous))
  | None => method_ret tt
  end.

(** The arm [needs_load] of [apply_frame]. *)
Definition blt_load (deck_id : DeckId) (frame : DeckFrame) (at_ : MonotonicTime) : blt unit :=
  let identity := blt_track_identity frame in
  do! blt_remove_deck deck_id at_ then
  let! track_load_id := method_get blt_next_track_load_id in
  let! next := method_result (ok_or (checked_add_u64 track_load_id 1) BltTrackLoadIdOverflow) in
  do! method_modify (set_blt_next_track_load_id next) then
  let! duration_beats := method_result (blt_duration_beats frame) in
  let! metadata := method_result (map_err BltTrack
    (TrackMetadata_try_new_unanalyzed identity (lit "External track " ++ show_u (df_rekordbox_id frame))
       (lit "Beat Link Trigger") (df_track_bpm_milli frame) (mkMusicalKey PitchC KeyMinor) duration_beats)) in
  let beat := Z.min (df_beat frame) duration_beats in
  do! method_modify (λ p, set_blt_decks (<[deck_id :=
        mkBltLoadedDeck identity track_load_id beat (df_effective_bpm_milli frame) (df_playing frame)
          (mkBltTrackIdentity (df_rekordbox_id frame) (df_source_player frame) (df_source_slot frame)
             (df_simulator_signature frame))
          (df_playback_position_millis frame)]> (blt_decks p)) p) then
  do! blt_emit at_ (TrackLoaded deck_id metadata track_load_id) then
  do! blt_emit_when (negb (df_effective_bpm_milli frame =? df_track_bpm_milli frame)) at_
        (PlaybackTempoChanged deck_id track_load_id (df_effective_bpm_milli frame)) then
  do! blt_emit at_ (PlaybackPosition deck_id track_load_id beat) then
  blt_emit at_ (PlaybackStateChanged deck_id track_load_id (df_playing frame)).

(** The arm of a deck that holds the track of the frame. *)
Definition blt_update (deck_id : DeckId) (frame : DeckFrame) (previous : BltLoadedDeck) (at_ : MonotonicTime) :
    blt unit :=
  let load := bd_track_load_id previous in
  let! duration := method_result (blt_duration_beats frame) in
  let beat := Z.min (df_beat frame) duration in
  do! blt_emit_when (negb (bd_effective_bpm_milli previous =? df_effective_bpm_milli frame)) at_
        (PlaybackTempoChanged deck_id load (df_effective_bpm_milli frame)) then
  do! blt_emit_when (negb (bd_beat previous =? beat)) at_
        (if beat <? bd_beat previous then PlaybackPositionSeeked deck_id load beat
         else PlaybackPosition deck_id load beat) then
  do! blt_emit_when (negb (eqb (bd_playing previous) (df_playing frame))) at_
        (PlaybackStateChanged deck_id load (df_playing frame)) then
  method_modify (λ p, set_blt_decks (alter (λ deck,
    mkBltLoadedDeck (bd_identity deck) (bd_track_load_id deck) beat (df_effective_bpm_milli frame)
      (df_playing frame) (bd_media_identity deck) (df_playback_position_millis frame)) deck_id (blt_decks p)) p).

(** [frame.master && self.leader_deck_id != Some(deck_id)] *)
Definition blt_follow_master (deck_id : DeckId) (frame : DeckFrame) (at_ : MonotonicTime) : blt unit :=
  let! leader := method_get blt_leader_deck_id in
  if df_master frame && negb (bool_decide (leader = Some deck_id)) then
    let! deck := method_get (λ p, blt_decks p !! deck_id) in
    let! deck := method_result (ok_or deck BltLoadedDeckMissing) in
    do! method_modify (set_blt_leader_deck_id (Some deck_id)) then
    blt_emit at_ (LeaderChanged deck_id (bd_track_load_id deck))
  else method_ret tt.

Definition blt_announce_ready (at_ : MonotonicTime) : blt unit :=
  let! ready := method_get blt_ready_emitted in
  if negb ready then
    do! blt_emit at_ (SourceStatusChanged SourceReady) then
    method_modify (set_blt_ready_emitted true)
  else method_ret tt.

Definition blt_apply_frame (deck_id : DeckId) (frame : DeckFrame) (at_ : MonotonicTime) : blt unit :=
  do! blt_announce_ready at_ then
  if negb (df_loaded frame) then blt_remove_deck deck_id at_
  else
    let! deck := method_get (λ p, blt_decks p !! deck_id) in
    do! match deck with
        | Some previous =>
            if bd_identity previous =? blt_track_identity frame then blt_update deck_id frame previous at_
            else blt_load deck_id frame at_
        | None => blt_load deck_id frame at_
        end then
    blt_follow_master deck_id frame at_.

Definition blt_ignore : blt unit :=
  method_modify (λ p, set_blt_ignored_message_count (saturating_add_u64 (blt_ignored_message_count p) 1) p).

Definition set_blt_assembler (index : nat) (frame : FrameAssembler) (p : BltMidiDeckSourceProvider) :
    BltMidiDeckSourceProvider := set_blt_assemblers (player_set index frame (blt_assemblers p)) p.

(** A complete frame. *)
Definition blt_accept (now : Instant) (index : nat) (channel : Z) (frame : DeckFrame) (at_ : MonotonicTime) :
    blt unit :=
  let! last := method_get (λ p, player_get index (blt_last_frame_sequences p)) in
  if bool_decide (last = Some (df_frame_sequence frame)) then
    method_modify (λ p, set_blt_duplicate_frame_count (saturating_add_u64 (blt_duplicate_frame_count p) 1) p)
  else
    do! method_modify (λ p, set_blt_last_frame_sequences
          (player_set index (Some (df_frame_sequence frame)) (blt_last_frame_sequences p)) p) then
    do! method_modify (λ p, set_blt_last_frame_received_at
          (player_set index (Some now) (blt_last_frame_received_at p)) p) then
    do! method_modify (λ p, set_blt_committed_frame_count
          (saturating_add_u64 (blt_committed_frame_count p) 1) p) then
    do! blt_apply_frame channel frame at_ then
    method_modify (set_blt_last_frame (Some (channel, frame))).

(** The commit of the version the adapter speaks. *)
Definition blt_commit (now : Instant) (index : nat) (channel : Z) (at_ : MonotonicTime) : blt unit :=
  let! assembler := method_get (λ p, player_get index (blt_assemblers p)) in
  do! method_modify (set_blt_assembler index FrameAssembler_default) then
  match decode_frame assembler with
  | Err _ => blt_ignore
  | Ok frame => blt_accept now index channel frame at_
  end.

Definition blt_ingest (now : Instant) (message : MidiChannelVoiceMessage) (at_ : MonotonicTime) : blt unit :=
  let '(mkMidiChannelVoiceMessage status channel data_one data_two) := message in
  if negb (status =? CONTROL_CHANGE_STATUS) || negb (cc_between channel 1 2) then blt_ignore
  else
    let index := Z.to_nat (channel - 1) in
    if data_one =? COMMIT_CC then
      if negb (data_two =? BLT_PROTOCOL_VERSION) then blt_ignore else blt_commit now index channel at_
    else
      let! assembler := method_get (λ p, player_get index (blt_assemblers p)) in
      let '(written, field) := write_field assembler data_one data_two in
      do! method_modify (set_blt_assembler index written) then
      if field then
        method_modify (set_blt_assembler index (mark_present data_one written))
      else blt_ignore.

(** One index of the loop of [expire_stale]; [Instant::saturating_duration_since]. *)
Definition blt_expire_player (now : Instant) (maximum_age : Z) (at_ : MonotonicTime) (index : nat) : blt unit :=
  let! last := method_get (λ p, player_get index (blt_last_frame_received_at p)) in
  match last with
  | None => method_ret tt
  | Some last_received_at =>
      if Z.max 0 (now - last_received_at) <=? maximum_age then method_ret tt
      else
        do! method_modify (λ p, set_blt_last_frame_received_at
              (player_set index None (blt_last_frame_received_at p)) p) then
        do! method_modify (λ p, set_blt_last_frame_sequences
              (player_set index None (blt_last_frame_sequences p)) p) then
        do! method_modify (set_blt_assembler index FrameAssembler_default) then
        let deck_id := if bool_decide (index = 0%nat) then 1 else 2 in
        do! blt_remove_deck deck_id at_ then
        method_modify (λ p, if bool_decide (blt_leader_deck_id p = Some deck_id)
                            then set_blt_leader_deck_id None p else p)
  end.

Definition blt_expire_stale (now : Instant) (maximum_age : Z) (at_ : MonotonicTime) : blt unit :=
  do! blt_expire_player now maximum_age at_ 0 then
  blt_expire_player now maximum_age at_ 1.

(** The emissions of [clear], in the order of the decks. *)
Fixpoint blt_unload_all (loaded : list (DeckId * TrackLoadId)) (at_ : MonotonicTime) : blt unit :=
  match loaded with
  | [] => method_ret tt
  | (deck_id, track_load_id) :: loaded =>
      do! blt_emit at_ (TrackUnloaded deck_id track_load_id) then blt_unload_all loaded at_
  end.

Definition blt_decks_in_order (p : BltMidiDeckSourceProvider) : list (DeckId * BltLoadedDeck) :=
  sort_by_key fst (map_to_list (blt_decks p)).

Definition blt_clear (at_ : MonotonicTime) : blt unit :=
  let! loaded := method_get (λ p, prod_map id bd_track_load_id <$> blt_decks_in_order p) in
  do! blt_unload_all loaded at_ then
  do! method_modify (set_blt_decks ∅) then
  do! method_modify (set_blt_leader_deck_id None) then
  do! method_modify (set_blt_last_frame_received_at (both None None)) then
  do! method_modify (set_blt_last_frame_sequences (both None None)) then
  method_modify (set_blt_assemblers (both FrameAssembler_default FrameAssembler_default)).

Definition blt_find (track_load_id : TrackLoadId) (p : BltMidiDeckSourceProvider) : option BltLoadedDeck :=
  List.find (λ deck, bd_track_load_id deck =? track_load_id) (snd <$> blt_decks_in_order p).

Definition blt_track_identity_of (track_load_id : TrackLoadId) (p : BltMidiDeckSourceProvider) :
    option BltTrackIdentity := bd_media_identity <$> blt_find track_load_id p.

Definition blt_transport (track_load_id : TrackLoadId) (p : BltMidiDeckSourceProvider) :
    option BltTransportSnapshot :=
  (λ deck, mkBltTransportSnapshot (bd_playback_position_millis deck) (bd_effective_bpm_milli deck)
             (bd_playing deck)) <$> blt_find track_load_id p.

Record BltMidiDiagnostics := mkBltMidiDiagnostics {
  bmd_committed_frame_count : Z;
  bmd_ignored_message_count : Z;
  bmd_duplicate_frame_count : Z;
  bmd_last_deck_id : option DeckId;
  bmd_last_frame_sequence : option Z;
}.

Definition blt_diagnostics (p : BltMidiDeckSourceProvider) : BltMidiDiagnostics :=
  mkBltMidiDiagnostics (blt_committed_frame_count p) (blt_ignored_message_count p)
    (blt_duplicate_frame_count p) (fst <$> blt_last_frame p)
    (df_frame_sequence ∘ snd <$> blt_last_frame p).

#[global] Instance blt_deck_source : DeckSourceProvider BltMidiDeckSourceProvider BltMidiError := {|
  provider_kind _ := lit "beatLinkTriggerMidi";
  drain_events p :=
    (mkBlt (blt_source_id p) (blt_sequence p) (blt_next_track_load_id p) (blt_assemblers p)
       (blt_last_frame_received_at p) (blt_last_frame_sequences p) (blt_decks p) (blt_leader_deck_id p) []
       (blt_committed_frame_count p) (blt_ignored_message_count p) (blt_duplicate_frame_count p)
       (blt_last_frame p) (blt_ready_emitted p), Ok (blt_pending_events p));
|}.
