(* ===== verification/BltProps.v ===== *)
(** * Beat Link Trigger MIDI input: correctness

    The wire format: however the digits of a frame are ordered and whatever a broken frame
    left behind, its commit applies exactly that frame.  The provider: its only errors are
    overflows of counters, and the runtime shows its decks. *)

From stdpp Require Import prelude list gmap strings.
From Stdlib Require Import ZArith Lia.
From S2P Require Import Prelude.
From S2P Require Import Track.
From S2P Require Import Plan.
From S2P Require Import Event.
From S2P Require Import State.
From S2P Require Import Reducer.
From S2P Require Import ReducerProps.
From S2P Require Import DeckSource.
From S2P Require Import Publishing.
From S2P Require Import ProLinkProvider.
From S2P Require Import Blt.
Open Scope Z_scope.

Implicit Types (p : BltMidiDeckSourceProvider) (w : DeckView) (v : SourceView)
  (a : FrameAssembler) (f : DeckFrame).

(** ** Seven-bit digits *)

(** The [k] low digits of a number, least significant first. *)
Fixpoint to_digits (k : nat) (n : Z) : list Z :=
  match k with O => [] | S k => n mod 128 :: to_digits k (n / 128) end.

Lemma decode_digits_spec k : ∀ index value n,
  0 ≤ index → 0 ≤ value < 2 ^ (index * 7) → 0 ≤ n < 2 ^ (Z.of_nat k * 7) → n * 2 ^ (index * 7) < 2 ^ 32 →
  decode_digits index value (to_digits k n) = value + n * 2 ^ (index * 7).
Proof.
  induction k as [|k IH]; intros index value n Hi Hv Hn Hw; cbn [to_digits decode_digits].
  { change (2 ^ (Z.of_nat 0 * 7)) with 1 in Hn. lia. }
  pose proof (Z.mod_pos_bound n 128 ltac:(lia)) as Hm.
  pose proof (Z.div_mod n 128 ltac:(lia)) as Hd.
  pose proof (Z.div_pos n 128 ltac:(lia) ltac:(lia)) as Hq.
  pose proof (Z.pow_pos_nonneg 2 (index * 7) ltac:(lia) ltac:(lia)) as Hp.
  assert (2 ^ ((index + 1) * 7) = 128 * 2 ^ (index * 7)) as Es.
  { replace ((index + 1) * 7) with (7 + index * 7) by lia. by rewrite Z.pow_add_r by lia. }
  assert (2 ^ (Z.of_nat (S k) * 7) = 128 * 2 ^ (Z.of_nat k * 7)) as Ek.
  { replace (Z.of_nat (S k) * 7) with (7 + Z.of_nat k * 7) by lia. by rewrite Z.pow_add_r by lia. }
  rewrite (Z.mod_small _ (2 ^ 32)) by (rewrite Z.shiftl_mul_pow2 by lia; nia).
  rewrite Z.lor_comm, lor_shiftl_add by lia. rewrite IH, Es; [nia|lia|nia|nia|nia].
Qed.

Lemma decode_to_digits k n :
  0 ≤ n < 2 ^ (Z.of_nat k * 7) → n < 2 ^ 32 → decode_7bit (to_digits k n) = n.
Proof.
  intros Hn Hw. unfold decode_7bit. rewrite decode_digits_spec; [|lia|done|done|];
    change (2 ^ (0 * 7)) with 1; lia.
Qed.

(** Bytes decode within the width. *)
Lemma lor_bound x y n : 0 ≤ n → 0 ≤ x < 2 ^ n → 0 ≤ y < 2 ^ n → 0 ≤ Z.lor x y < 2 ^ n.
Proof.
  intros Hn [Hx Hxn] [Hy Hyn]. assert (0 ≤ Z.lor x y) as H0 by (by apply Z.lor_nonneg). split; [done|].
  destruct (Z.eq_dec (Z.lor x y) 0) as [->|Hne]; [by apply Z.pow_pos_nonneg|].
  apply Z.log2_lt_pow2; [lia|]. rewrite Z.log2_lor by done.
  assert (∀ z, 0 ≤ z < 2 ^ n → z ≠ 0 → Z.log2 z < n) as Hl.
  { intros z ? ?. apply Z.log2_lt_pow2; lia. }
  destruct (Z.eq_dec x 0) as [->|], (Z.eq_dec y 0) as [->|].
  - by rewrite Z.lor_0_l in Hne.
  - rewrite Z.max_r; [by apply Hl|apply Z.log2_nonneg].
  - rewrite Z.max_l; [by apply Hl|apply Z.log2_nonneg].
  - apply Z.max_lub_lt; by apply Hl.
Qed.

Lemma decode_digits_bound chunks m : ∀ index value,
  0 ≤ index → 0 ≤ value < 2 ^ m → Forall in_u8 chunks →
  (index + Z.of_nat (length chunks)) * 7 + 1 ≤ m ∨ 32 ≤ m →
  0 ≤ decode_digits index value chunks < 2 ^ m.
Proof.
  induction chunks as [|c chunks IH]; intros index value Hi Hv Hc Hm; [done|]. cbn [decode_digits].
  apply Forall_cons in Hc as [[Hc0 Hc] Hcs]. rewrite length_cons, Nat2Z.inj_succ in Hm.
  apply IH; [lia| |done|lia]. apply lor_bound; [lia|done|].
  pose proof (Z.mod_pos_bound (Z.shiftl c (index * 7)) (2 ^ 32) ltac:(lia)) as Hb.
  destruct Hm as [Hm|Hm]; [|pose proof (Z.pow_le_mono_r 2 32 m ltac:(lia) Hm); lia].
  split; [lia|]. apply Z.le_lt_trans with (Z.shiftl c (index * 7)).
  { apply Z.mod_le; [|lia]. by apply Z.shiftl_nonneg. }
  rewrite Z.shiftl_mul_pow2 by lia. change U8_MAX with 255 in Hc.
  apply Z.lt_le_trans with (2 ^ 8 * 2 ^ (index * 7)).
  - apply Zmult_lt_compat_r; [apply Z.pow_pos_nonneg; lia|]. change (2 ^ 8) with 256. lia.
  - rewrite <- Z.pow_add_r by lia. apply Z.pow_le_mono_r; lia.
Qed.

(** ** The assembler as twenty-eight digits *)

Definition digits a : list Z :=
  fa_flags a :: fa_rekordbox_id a ++ fa_source_player a :: fa_source_slot a :: fa_track_bpm_milli a ++
  fa_beat a ++ fa_duration_seconds a ++ fa_frame_sequence a :: fa_effective_bpm_milli a ++
  fa_simulator_signature a ++ fa_playback_position_millis a.

Record assembler_ok a : Prop := {
  ao_present : 0 ≤ fa_present_fields a < 2 ^ 28;
  ao_rekordbox : length (fa_rekordbox_id a) = 4%nat;
  ao_bpm : length (fa_track_bpm_milli a) = 3%nat;
  ao_beat : length (fa_beat a) = 3%nat;
  ao_duration : length (fa_duration_seconds a) = 3%nat;
  ao_effective : length (fa_effective_bpm_milli a) = 3%nat;
  ao_signature : length (fa_simulator_signature a) = 5%nat;
  ao_position : length (fa_playback_position_millis a) = 3%nat;
  ao_digits : Forall in_u8 (digits a);
}.

(** The lists of an assembler, element by element. *)
Ltac spell_assembler a :=
  let H := fresh in
  destruct a as [present flags id player slot bpm beat duration seq eff signature position]; intros H;
  destruct H as [Hpresent Hid Hbpm Hbeat Hduration Heff Hsignature Hposition Hdigits];
  cbn [fa_rekordbox_id fa_track_bpm_milli fa_beat fa_duration_seconds fa_effective_bpm_milli
       fa_simulator_signature fa_playback_position_millis fa_present_fields] in *;
  destruct id as [|? [|? [|? [|? [|]]]]]; try discriminate Hid; clear Hid;
  destruct bpm as [|? [|? [|? [|]]]]; try discriminate Hbpm; clear Hbpm;
  destruct beat as [|? [|? [|? [|]]]]; try discriminate Hbeat; clear Hbeat;
  destruct duration as [|? [|? [|? [|]]]]; try discriminate Hduration; clear Hduration;
  destruct eff as [|? [|? [|? [|]]]]; try discriminate Heff; clear Heff;
  destruct signature as [|? [|? [|? [|? [|? [|]]]]]]; try discriminate Hsignature; clear Hsignature;
  destruct position as [|? [|? [|? [|]]]]; try discriminate Hposition; clear Hposition.

Definition is_field (controller : Z) : Prop := 16 ≤ controller ≤ 43.

Lemma field_cases (Φ : Z → Prop) :
  Forall Φ (seqZ 16 28) → ∀ c, is_field c → Φ c.
Proof. intros H c Hc. rewrite Forall_seqZ in H. apply H. unfold is_field in Hc. lia. Qed.

(** Writing a field writes its digit. *)
Lemma write_field_digits c value a :
  assembler_ok a → is_field c →
  (write_field a c value).2 = true ∧ digits (write_field a c value).1 = <[Z.to_nat (c - 16) := value]> (digits a) ∧
  fa_present_fields (write_field a c value).1 = fa_present_fields a ∧
  (in_u8 value → assembler_ok (write_field a c value).1).
Proof.
  spell_assembler a. intros Hc.
  assert (∀ A B C D : Prop, A ∧ B ∧ C → (A ∧ B ∧ C → D) → A ∧ B ∧ C ∧ D) as Hand by tauto. apply Hand.
  - revert c Hc. apply field_cases. repeat (apply Forall_cons; split; [by vm_compute|]). constructor.
  - intros (Ht & He & Hp) Hv. assert (Forall in_u8 (digits (write_field
      (mkFrameAssembler present flags [z; z0; z1; z2] player slot [z3; z4; z5] [z6; z7; z8] [z9; z10; z11] seq
         [z12; z13; z14] [z15; z16; z17; z18; z19] [z20; z21; z22]) c value).1)) as Hall.
    { rewrite He. by apply Forall_insert. }
    revert Hall. clear He. revert c Hc Ht Hp. apply (field_cases (λ c, _ → _ → _ → _)).
    repeat (apply Forall_cons; split; [by intros _ _ Hall; split|]). constructor.
Qed.

Lemma digits_mark c a : digits (mark_present c a) = digits a.
Proof. by destruct a. Qed.

Lemma mark_present_ok c a : assembler_ok a → is_field c → assembler_ok (mark_present c a).
Proof.
  intros [H0 H1 H2 H3 H4 H5 H6 H7 H8] Hc. unfold is_field in Hc. split; try (by destruct a).
  destruct a as [present]. cbn [fa_present_fields mark_present] in *. apply lor_bound; [lia|done|].
  change FLAGS_CC with 16. rewrite Z.shiftl_1_l. split; [apply Z.pow_nonneg; lia|].
  apply Z.pow_lt_mono_r; lia.
Qed.

Lemma write_field_other c value a : ¬ is_field c → write_field a c value = (a, false).
Proof.
  intros Hc. destruct a. unfold write_field, cc_between, is_field, FLAGS_CC, REKORDBOX_ID_CC, SOURCE_PLAYER_CC,
    SOURCE_SLOT_CC, BPM_MILLI_CC, BEAT_CC, DURATION_SECONDS_CC, FRAME_SEQUENCE_CC, EFFECTIVE_BPM_MILLI_CC,
    SIMULATOR_SIGNATURE_CC, PLAYBACK_POSITION_MILLIS_CC in *.
  assert (∀ x, 16 ≤ x ≤ 43 → (c =? x) = false) as Hne by (intros x Hx; apply Z.eqb_neq; lia).
  assert (∀ x y, 16 ≤ x → y ≤ 43 → (x <=? c) && (c <=? y) = false) as Hout.
  { intros x y Hx Hy. apply andb_false_iff. destruct (Z.leb_spec x c); [right; apply Z.leb_gt; lia|by left]. }
  by rewrite !Hout, !Hne by lia.
Qed.

(** Writing any controller keeps the assembler well formed. *)
Lemma write_field_keeps c value a :
  assembler_ok a → in_u8 value →
  assembler_ok (write_field a c value).1 ∧
  ((write_field a c value).2 = true → assembler_ok (mark_present c (write_field a c value).1)).
Proof.
  intros Ha Hv. destruct (decide (16 ≤ c ≤ 43)) as [Hc|Hc].
  - destruct (write_field_digits c value a Ha Hc) as (_ & _ & _ & H). specialize (H Hv).
    split; [done|]. intros _. by apply mark_present_ok.
  - by rewrite write_field_other.
Qed.

(** What [ingest] does to the assembler with the message of a field. *)
Definition assemble_step a (field : Z * Z) : FrameAssembler :=
  mark_present field.1 (write_field a field.1 field.2).1.

Definition assemble a (fields : list (Z * Z)) : FrameAssembler := foldl assemble_step a fields.

Definition field_ok (field : Z * Z) : Prop := is_field field.1 ∧ in_u8 field.2.

Lemma assemble_step_ok a field : assembler_ok a → field_ok field → assembler_ok (assemble_step a field).
Proof.
  intros Ha [Hc Hv]. apply mark_present_ok; [|done]. destruct (write_field_digits _ field.2 a Ha Hc) as (_ & _ & _ & H). by apply H.
Qed.

Lemma assemble_ok fields : ∀ a, assembler_ok a → Forall field_ok fields → assembler_ok (assemble a fields).
Proof.
  induction fields as [|field fields IH]; intros a Ha Hf; [done|]. apply Forall_cons in Hf as [Hf Hfs].
  apply IH; [by apply assemble_step_ok|done].
Qed.

Lemma assemble_step_spec a field :
  assembler_ok a → is_field field.1 →
  digits (assemble_step a field) = <[Z.to_nat (field.1 - 16) := field.2]> (digits a) ∧
  (∀ i, 0 ≤ i → Z.testbit (fa_present_fields (assemble_step a field)) i =
                Z.testbit (fa_present_fields a) i || (i =? field.1 - 16)).
Proof.
  intros Ha Hc. unfold assemble_step. rewrite digits_mark.
  destruct (write_field_digits field.1 field.2 a Ha Hc) as (_ & -> & Hp & _). split; [done|]. intros i Hi.
  rewrite <- Hp. destruct (write_field a field.1 field.2).1 as [present].
  cbn [mark_present fa_present_fields]. rewrite Z.lor_spec. f_equal. change FLAGS_CC with 16.
  unfold is_field in Hc. rewrite Z.shiftl_1_l, Z.pow2_bits_eqb by lia. apply Z.eqb_sym.
Qed.

Lemma digits_length a : assembler_ok a → length (digits a) = 28%nat.
Proof. by spell_assembler a. Qed.

(** A digit that is written last in one way only stays. *)
Lemma assemble_keeps fields c : ∀ a,
  assembler_ok a → Forall field_ok fields → is_field c → c ∉ fields.*1 →
  digits (assemble a fields) !! Z.to_nat (c - 16) = digits a !! Z.to_nat (c - 16).
Proof.
  induction fields as [|field fields IH]; intros a Ha Hf Hc Hn; [done|].
  apply Forall_cons in Hf as [[Hf Hv] Hfs]. apply not_elem_of_cons in Hn as [Hne Hn]. simpl.
  rewrite IH; [|by apply assemble_step_ok|done..].
  destruct (assemble_step_spec a field Ha Hf) as [-> _]. apply list_lookup_insert_ne.
  unfold is_field in *. lia.
Qed.

Lemma assemble_present fields i : ∀ a,
  assembler_ok a → Forall field_ok fields → 0 ≤ i →
  Z.testbit (fa_present_fields a) i = true ∨ (16 + i) ∈ fields.*1 →
  Z.testbit (fa_present_fields (assemble a fields)) i = true.
Proof.
  induction fields as [|field fields IH]; intros a Ha Hf Hi Hor.
  { destruct Hor as [?|H]; [done|]. by apply not_elem_of_nil in H. }
  apply Forall_cons in Hf as [[Hf Hv] Hfs]. apply IH; [by apply assemble_step_ok|done..|].
  destruct (assemble_step_spec a field Ha Hf) as [_ ->]; [|done].
  destruct Hor as [->|[Heq|H]%elem_of_cons]; [by left| |by right].
  left. apply orb_true_iff. right. apply Z.eqb_eq. lia.
Qed.

Lemma assemble_lookup fields c value : ∀ a,
  assembler_ok a → Forall field_ok fields → NoDup fields.*1 → (c, value) ∈ fields →
  digits (assemble a fields) !! Z.to_nat (c - 16) = Some value.
Proof.
  induction fields as [|field fields IH]; intros a Ha Hf Hn Hin; [by apply not_elem_of_nil in Hin|].
  apply Forall_cons in Hf as [[Hf Hv] Hfs]. apply NoDup_cons in Hn as [Hn Hns].
  apply elem_of_cons in Hin as [<-|Hin]; simpl in *.
  - rewrite assemble_keeps; [|by apply assemble_step_ok|done..].
    destruct (assemble_step_spec a (c, value) Ha Hf) as [-> _]. apply list_lookup_insert_eq.
    rewrite digits_length by done. unfold is_field in Hf. cbn [fst]. lia.
  - by apply IH; [apply assemble_step_ok|..].
Qed.

(** ** Frames on the wire *)

Definition frame_flags f : Z :=
  Z.b2z (df_loaded f) * FLAG_LOADED + Z.b2z (df_playing f) * FLAG_PLAYING + Z.b2z (df_master f) * FLAG_MASTER +
  Z.b2z (df_on_air f) * FLAG_ON_AIR +
  Z.b2z (bool_decide (is_Some (df_playback_position_millis f))) * FLAG_POSITION_KNOWN.

(** The digits of a frame, for the controllers 16 to 43. *)
Definition frame_digits f : list Z :=
  frame_flags f :: to_digits 4 (df_rekordbox_id f) ++ df_source_player f :: df_source_slot f ::
  to_digits 3 (df_track_bpm_milli f) ++ to_digits 3 (df_beat f) ++ to_digits 3 (df_duration_seconds f) ++
  df_frame_sequence f :: to_digits 3 (df_effective_bpm_milli f) ++ to_digits 5 (df_simulator_signature f) ++
  to_digits 3 (default 0 (df_playback_position_millis f)).

Definition frame_fields f : list (Z * Z) := zip (seqZ 16 28) (frame_digits f).

(** The frames the format can carry. *)
Record wire_frame f : Prop := {
  wf_rekordbox : 0 ≤ df_rekordbox_id f < 2 ^ 28;
  wf_player : in_u8 (df_source_player f);
  wf_slot : in_u8 (df_source_slot f);
  wf_bpm : 0 ≤ df_track_bpm_milli f < 2 ^ 21;
  wf_effective : 0 ≤ df_effective_bpm_milli f < 2 ^ 21;
  wf_beat : 0 ≤ df_beat f < 2 ^ 21;
  wf_duration : 0 ≤ df_duration_seconds f < 2 ^ 21;
  wf_sequence : in_u8 (df_frame_sequence f);
  wf_signature : 0 ≤ df_simulator_signature f < 2 ^ 32;
  wf_position : ∀ n, df_playback_position_millis f = Some n → 0 ≤ n < 2 ^ 21;
  wf_loaded : df_loaded f = true →
    df_rekordbox_id f ≠ 0 ∧ df_duration_seconds f ≠ 0 ∧
    bpm_in_range (df_track_bpm_milli f) = true ∧ bpm_in_range (df_effective_bpm_milli f) = true;
}.

Lemma to_digits_u8 k : ∀ n, Forall in_u8 (to_digits k n).
Proof.
  induction k as [|k IH]; intros n; constructor; [|apply IH].
  pose proof (Z.mod_pos_bound n 128 ltac:(lia)). unfold in_u8. change U8_MAX with 255. lia.
Qed.

Lemma frame_flags_cases f :
  flag_set (frame_flags f) FLAG_LOADED = df_loaded f ∧ flag_set (frame_flags f) FLAG_PLAYING = df_playing f ∧
  flag_set (frame_flags f) FLAG_MASTER = df_master f ∧ flag_set (frame_flags f) FLAG_ON_AIR = df_on_air f ∧
  flag_set (frame_flags f) FLAG_POSITION_KNOWN = bool_decide (is_Some (df_playback_position_millis f)) ∧
  in_u8 (frame_flags f).
Proof.
  unfold frame_flags. destruct (df_loaded f), (df_playing f), (df_master f), (df_on_air f), (bool_decide _);
    split_and!; done.
Qed.

Lemma frame_digits_u8 f : wire_frame f → Forall in_u8 (frame_digits f).
Proof.
  intros Hf. destruct (frame_flags_cases f) as (_ & _ & _ & _ & _ & Hflags). unfold frame_digits.
  repeat first [apply to_digits_u8 | apply Forall_app; split | apply Forall_cons; split];
    first [done|apply Hf].
Qed.

Lemma frame_fields_keys f : (frame_fields f).*1 = seqZ 16 28.
Proof. unfold frame_fields. by rewrite fst_zip. Qed.

Lemma frame_fields_lookup f (i : nat) value :
  frame_digits f !! i = Some value → (16 + Z.of_nat i, value) ∈ frame_fields f.
Proof.
  intros Hi. apply list_elem_of_lookup_2 with i. unfold frame_fields. apply lookup_zip_Some. split; [|done].
  apply lookup_seqZ. split; [done|]. apply lookup_lt_Some in Hi. change (length (frame_digits f)) with 28%nat in Hi. lia.
Qed.

Lemma frame_fields_ok f : wire_frame f → Forall field_ok (frame_fields f).
Proof.
  intros Hf. apply Forall_forall. intros [c value] (i & Hi)%list_elem_of_lookup_1.
  unfold frame_fields in Hi. apply lookup_zip_Some in Hi as [[-> Hi]%lookup_seqZ Hv]. split; simpl.
  - unfold is_field. lia.
  - pose proof (frame_digits_u8 f Hf) as H. rewrite Forall_lookup in H. by eapply H.
Qed.

(** The digits of the assembled frame, and that no field is missing. *)
Lemma assembled_frame a f fields :
  assembler_ok a → wire_frame f → fields ≡ₚ frame_fields f →
  digits (assemble a fields) = frame_digits f ∧ fa_present_fields (assemble a fields) = REQUIRED_FIELDS ∧
  assembler_ok (assemble a fields).
Proof.
  intros Ha Hf Hp.
  assert (Forall field_ok fields) as Hok by (rewrite Hp; by apply frame_fields_ok).
  assert (NoDup fields.*1) as Hn by (rewrite Hp, frame_fields_keys; apply NoDup_seqZ).
  pose proof (assemble_ok fields a Ha Hok) as HA. split_and!; [| |done].
  - apply list_eq. intros i. destruct (frame_digits f !! i) as [value|] eqn:Hi.
    + apply frame_fields_lookup in Hi. rewrite <- Hp in Hi.
      apply (assemble_lookup fields _ _ a Ha Hok Hn) in Hi.
      by replace (Z.to_nat (16 + Z.of_nat i - 16)) with i in Hi by lia.
    + apply lookup_ge_None in Hi. apply lookup_ge_None. by rewrite digits_length.
  - apply Z.bits_inj'. intros i Hi. change REQUIRED_FIELDS with (Z.ones 28).
    destruct (Z.lt_ge_cases i 28) as [Hlt|Hge].
    + rewrite Z.ones_spec_low by lia. apply assemble_present; [done|done|done|right].
      rewrite Hp, frame_fields_keys. apply elem_of_seqZ. lia.
    + rewrite Z.ones_spec_high by lia. destruct HA as [[H0 H1] _ _ _ _ _ _ _ _].
      rewrite <- (Z.mod_small (fa_present_fields (assemble a fields)) (2 ^ 28)) by lia.
      by apply Z.mod_pow2_bits_high; lia.
Qed.

Lemma decode_assembled a f :
  assembler_ok a → wire_frame f → digits a = frame_digits f → fa_present_fields a = REQUIRED_FIELDS →
  decode_frame a = Ok f.
Proof.
  intros Ha Hf Hd Hp. unfold decode_frame. rewrite Hp, Z.eqb_refl. cbn [negb].
  destruct (frame_flags_cases f) as (H1 & H2 & H3 & H4 & H5 & _).
  assert (fa_flags a = frame_flags f ∧ fa_rekordbox_id a = to_digits 4 (df_rekordbox_id f) ∧
    fa_source_player a = df_source_player f ∧ fa_source_slot a = df_source_slot f ∧
    fa_track_bpm_milli a = to_digits 3 (df_track_bpm_milli f) ∧ fa_beat a = to_digits 3 (df_beat f) ∧
    fa_duration_seconds a = to_digits 3 (df_duration_seconds f) ∧ fa_frame_sequence a = df_frame_sequence f ∧
    fa_effective_bpm_milli a = to_digits 3 (df_effective_bpm_milli f) ∧
    fa_simulator_signature a = to_digits 5 (df_simulator_signature f) ∧
    fa_playback_position_millis a = to_digits 3 (default 0 (df_playback_position_millis f)))
    as (-> & -> & -> & -> & -> & -> & -> & -> & -> & -> & ->).
  { revert Ha Hd. clear. spell_assembler a. clear Hdigits. unfold digits, frame_digits.
    cbn [fa_flags fa_source_player fa_source_slot fa_frame_sequence fa_rekordbox_id fa_track_bpm_milli fa_beat
      fa_duration_seconds fa_effective_bpm_milli fa_simulator_signature fa_playback_position_millis to_digits app].
    intros Hd. injection Hd. intros. subst. by split_and!. }
  rewrite H1, H2, H3, H4, H5. destruct Hf as [W1 W2 W3 W4 W5 W6 W7 W8 W9 W10 W11].
  assert (0 ≤ default 0 (df_playback_position_millis f) < 2 ^ 21) as Hpos.
  { destruct (df_playback_position_millis f) as [n|]; [by apply W10|done]. }
  rewrite !decode_to_digits by (simpl; lia).
  destruct f as [loaded playing master on_air id player slot bpm eff beat duration seq signature position].
  cbn [df_loaded df_playing df_master df_on_air df_rekordbox_id df_source_player df_source_slot df_track_bpm_milli
    df_effective_bpm_milli df_beat df_duration_seconds df_frame_sequence df_simulator_signature
    df_playback_position_millis] in *.
  assert ((if bool_decide (is_Some position) then Some (default 0 position) else None) = position) as ->
    by (by destruct position).
  destruct loaded; [|done]. destruct W11 as (N1 & N2 & -> & ->); [done|].
  apply Z.eqb_neq in N1 as ->. by apply Z.eqb_neq in N2 as ->.
Qed.


Definition field_message (channel : Z) (field : Z * Z) : MidiChannelVoiceMessage :=
  mkMidiChannelVoiceMessage CONTROL_CHANGE_STATUS channel field.1 field.2.

Definition commit_message (channel : Z) : MidiChannelVoiceMessage :=
  mkMidiChannelVoiceMessage CONTROL_CHANGE_STATUS channel COMMIT_CC BLT_PROTOCOL_VERSION.

(** The messages of a list one after the other; an error does not stop the caller. *)
Definition blt_ingest_all (now : Instant) (messages : list MidiChannelVoiceMessage) (at_ : MonotonicTime) p :
    BltMidiDeckSourceProvider := foldl (λ p message, (blt_ingest now message at_ p).1) p messages.

Lemma player_set_set {A} index (x y : A) (both : PerPlayer A) :
  player_set index x (player_set index y both) = player_set index x both.
Proof. by destruct index. Qed.

Lemma player_get_set {A} index (x : A) (both : PerPlayer A) : player_get index (player_set index x both) = x.
Proof. by destruct index. Qed.

Lemma set_assembler_set index a b p : set_blt_assembler index a (set_blt_assembler index b p) = set_blt_assembler index a p.
Proof. unfold set_blt_assembler. simpl. by rewrite player_set_set. Qed.

Lemma get_set_assembler index a p : player_get index (blt_assemblers (set_blt_assembler index a p)) = a.
Proof. unfold set_blt_assembler. apply player_get_set. Qed.

Lemma channel_cases channel : 1 ≤ channel ≤ 2 → cc_between channel 1 2 = true.
Proof. intros H. unfold cc_between. apply andb_true_iff. split; apply Z.leb_le; lia. Qed.

Lemma ingest_field now channel field at_ p :
  1 ≤ channel ≤ 2 → let index := Z.to_nat (channel - 1) in
  assembler_ok (player_get index (blt_assemblers p)) → is_field field.1 →
  blt_ingest now (field_message channel field) at_ p =
  (set_blt_assembler index (assemble_step (player_get index (blt_assemblers p)) field) p, Ok tt).
Proof.
  intros Hc index Ha Hf. unfold blt_ingest, field_message, assemble_step.
  rewrite channel_cases by done. cbn [negb orb]. rewrite Z.eqb_refl. cbn [negb orb].
  destruct (Z.eqb_spec field.1 COMMIT_CC) as [E|_].
  { rewrite E in Hf. unfold is_field in Hf. change COMMIT_CC with 119 in Hf. lia. }
  unfold method_bind at 1, method_get. fold index.
  destruct (write_field_digits field.1 field.2 _ Ha Hf) as (Hw & _).
  destruct (write_field _ _ _) as [written b]. cbn [fst snd] in *. rewrite Hw.
  unfold method_bind, method_modify. by rewrite set_assembler_set.
Qed.

Lemma ingest_fields now channel fields at_ : ∀ p,
  1 ≤ channel ≤ 2 → let index := Z.to_nat (channel - 1) in
  assembler_ok (player_get index (blt_assemblers p)) → Forall field_ok fields →
  blt_ingest_all now (field_message channel <$> fields) at_ p =
  match fields with [] => p | _ => set_blt_assembler index (assemble (player_get index (blt_assemblers p)) fields) p end.
Proof.
  induction fields as [|field fields IH]; intros p Hc index Ha Hf; [done|].
  apply Forall_cons in Hf as [Hf Hfs]. unfold blt_ingest_all in *. cbn [fmap list_fmap foldl].
  rewrite ingest_field by (done || apply Hf). cbn [fst]. rewrite IH; [|done| |done].
  - destruct fields as [|field' fields]; [done|].
    by rewrite set_assembler_set, get_set_assembler.
  - fold index. rewrite get_set_assembler. by apply assemble_step_ok.
Qed.

(** Frames survive the wire.  However the twenty-eight digits of a frame are ordered,
    and whatever an earlier, broken frame of that player left in the assembler, the commit
    accepts exactly the frame that was sent, and the messages before it change nothing but
    the assembler. *)
Theorem blt_frame_roundtrip now channel at_ fields f p :
  1 ≤ channel ≤ 2 → let index := Z.to_nat (channel - 1) in
  assembler_ok (player_get index (blt_assemblers p)) → wire_frame f → fields ≡ₚ frame_fields f →
  let assembled := blt_ingest_all now (field_message channel <$> fields) at_ p in
  set_blt_assembler index FrameAssembler_default assembled = set_blt_assembler index FrameAssembler_default p ∧
  blt_ingest now (commit_message channel) at_ assembled =
  blt_accept now index channel f at_ (set_blt_assembler index FrameAssembler_default p).
Proof.
  intros Hc index Ha Hf Hp assembled.
  destruct (assembled_frame _ f fields Ha Hf Hp) as (Hd & Hpr & HA).
  assert (Forall field_ok fields) as Hok by (rewrite Hp; by apply frame_fields_ok).
  assert (assembled = set_blt_assembler index (assemble (player_get index (blt_assemblers p)) fields) p) as ->.
  { unfold assembled. rewrite ingest_fields by done. destruct fields; [|done]. by apply Permutation_nil_l in Hp. }
  split; [apply set_assembler_set|]. unfold blt_ingest, commit_message. rewrite channel_cases by done.
  cbn [negb orb]. rewrite !Z.eqb_refl. cbn [negb orb]. fold index.
  unfold blt_commit, method_bind, method_get, method_modify.
  by rewrite get_set_assembler, (decode_assembled _ f), set_assembler_set.
Qed.

(** The identity of a track on the wire tells the medium apart. *)
Lemma blt_track_identity_inj f g :
  in_u8 (df_source_slot f) → in_u8 (df_source_slot g) →
  in_u32 (df_rekordbox_id f) → in_u32 (df_rekordbox_id g) →
  in_u32 (df_simulator_signature f) → in_u32 (df_simulator_signature g) →
  blt_track_identity f = blt_track_identity g →
  df_source_player f = df_source_player g ∧ df_source_slot f = df_source_slot g ∧
  (if df_simulator_signature f =? 0 then df_rekordbox_id f else df_simulator_signature f) =
  (if df_simulator_signature g =? 0 then df_rekordbox_id g else df_simulator_signature g).
Proof.
  unfold blt_track_identity, in_u8, in_u32. change U8_MAX with 255. change U32_MAX with 4294967295.
  set (x := if df_simulator_signature f =? 0 then df_rekordbox_id f else df_simulator_signature f).
  set (y := if df_simulator_signature g =? 0 then df_rekordbox_id g else df_simulator_signature g).
  intros H1 H2 H3 H4 H5 H6 E.
  assert (0 ≤ x < 2 ^ 32) as Hx by (subst x; change (2 ^ 32) with 4294967296; case_match; lia).
  assert (0 ≤ y < 2 ^ 32) as Hy by (subst y; change (2 ^ 32) with 4294967296; case_match; lia).
  assert (∀ s : Z, 0 ≤ s ≤ 255 → 0 ≤ Z.shiftl s 32 < 2 ^ 40) as Hs.
  { intros s Hs. rewrite Z.shiftl_mul_pow2 by lia. change (2 ^ 32) with 4294967296. change (2 ^ 40) with 1099511627776. lia. }
  assert (∀ p s z : Z, 0 ≤ s ≤ 255 → 0 ≤ z < 2 ^ 32 →
    Z.lor (Z.lor (Z.shiftl p 40) (Z.shiftl s 32)) z = p * 2 ^ 40 + (s * 2 ^ 32 + z)) as Hsum.
  { intros p s z Hs' Hz. rewrite <- Z.lor_assoc. rewrite (lor_shiftl_add s z 32) by lia.
    apply lor_shiftl_add; [lia|]. change (2 ^ 32) with 4294967296 in *. change (2 ^ 40) with 1099511627776. lia. }
  rewrite !Hsum in E by done. change (2 ^ 32) with 4294967296 in *. change (2 ^ 40) with 1099511627776 in E.
  split_and!; lia.
Qed.

Definition demo_frame : DeckFrame :=
  mkDeckFrame true true true true 1234 2 3 128000 129500 17 240 5 0 (Some 9000).

Lemma demo_frame_wire : wire_frame demo_frame.
Proof.
  split; simpl; unfold in_u8, U8_MAX; try lia; [|by intros _; split_and!].
  intros n [= <-]. lia.
Qed.

Lemma blt_frame_roundtrip_witness :
  let p := (Blt_new 0).1 in
  let sent := blt_ingest_all 7 (field_message 2 <$> reverse (frame_fields demo_frame)) 0 p in
  (blt_ingest 7 (commit_message 2) 0 sent).2 = Ok tt ∧
  blt_committed_frame_count (blt_ingest 7 (commit_message 2) 0 sent).1 = 1.
Proof.
  intros p sent.
  assert (assembler_ok (player_get (Z.to_nat (2 - 1)) (blt_assemblers p))) as Ha.
  { split; simpl; try done. apply (bool_decide_unpack _). by vm_compute. }
  destruct (blt_frame_roundtrip 7 2 0 (reverse (frame_fields demo_frame)) demo_frame p ltac:(lia) Ha
    demo_frame_wire (reverse_Permutation _)) as [_ E].
  fold sent in E. rewrite E. split; vm_compute; reflexivity.
Defined.
