(* ===== verification/BltShown.v ===== *)
(** * Beat Link Trigger MIDI input: what the runtime shows

    From any sequence of messages, expiries and clears the provider fails only when a
    64-bit counter overflows, and the runtime shows its decks. *)

From stdpp Require Import prelude list gmap strings.
From Stdlib Require Import ZArith Lia.
From S2P Require Import Prelude.
From S2P Require Import Track.
From S2P Require Import Plan.
From S2P Require Import Event.
From S2P Require Import State.
From S2P Require Import Reducer.
From S2P Require Import ReducerProps.
From S2P Require Import DeckSource.
From S2P Require Import LocalPlayback.
From S2P Require Import Publishing.
From S2P Require Import ProLinkProvider.
From S2P Require Import Blt.
From S2P Require Import BltProps.
Open Scope Z_scope.

Implicit Types (p : BltMidiDeckSourceProvider) (w : DeckView) (v : SourceView) (f : DeckFrame).

(** ** The state the proofs follow *)

Record BltRest := mkBltRest {
  br_decks : gmap Z BltLoadedDeck;
  br_leader : option DeckId;
  br_next : Z;
  br_assemblers : PerPlayer FrameAssembler;
}.

#[export] Instance blt_publisher : Publisher BltMidiDeckSourceProvider BltRest := {|
  publication p := mkPublication (blt_source_id p) (blt_sequence p) (blt_pending_events p);
  remainder p := mkBltRest (blt_decks p) (blt_leader_deck_id p) (blt_next_track_load_id p) (blt_assemblers p);
|}.

Lemma blt_emits : emits BltSequenceOverflow blt_emit.
Proof. intros t o p. unfold blt_emit. simpl. by destruct (checked_add_u64 _ _). Qed.

Definition blt_overflow (e : BltMidiError) : Prop := e = BltSequenceOverflow ∨ e = BltTrackLoadIdOverflow.

(** ** Frames *)

(** What a decoded frame satisfies. *)
Record blt_frame_ok f : Prop := {
  fo_loaded : df_loaded f = true →
    bpm_in_range (df_track_bpm_milli f) = true ∧ 0 < df_duration_seconds f < 2 ^ 22;
  fo_beat : in_u32 (df_beat f);
}.

Lemma decode_frame_ok a f : assembler_ok a → decode_frame a = Ok f → blt_frame_ok f.
Proof.
  intros [_ _ _ Hb Hd _ _ _ Hall] H. unfold decode_frame in H.
  assert (Forall in_u8 (fa_duration_seconds a) ∧ Forall in_u8 (fa_beat a)) as [Hd8 Hb8].
  { unfold digits in Hall. repeat first [rewrite Forall_cons in Hall | rewrite Forall_app in Hall]. tauto. }
  pose proof (decode_digits_bound _ 22 0 0 ltac:(lia) ltac:(done) Hd8) as Hdb.
  pose proof (decode_digits_bound _ 32 0 0 ltac:(lia) ltac:(done) Hb8 ltac:(right; lia)) as Hbb.
  rewrite Hd in Hdb. specialize (Hdb ltac:(left; done)). fold (decode_7bit (fa_duration_seconds a)) in Hdb.
  fold (decode_7bit (fa_beat a)) in Hbb.
  destruct (negb _) in H; [done|]. destruct (flag_set _ FLAG_LOADED) eqn:El; cbn [andb] in H.
  - destruct (_ || _) eqn:E in H; [done|]. injection H as <-.
    apply orb_false_iff in E as [[[_ E1]%orb_false_iff _]%orb_false_iff E2].
    split; cbn [df_loaded df_track_bpm_milli df_duration_seconds df_beat].
    + intros _. apply negb_false_iff in E1. apply Z.eqb_neq in E2. split; [done|lia].
    + unfold in_u32, U32_MAX. lia.
  - injection H as <-. split; cbn [df_loaded df_beat]; [done|]. unfold in_u32, U32_MAX. lia.
Qed.

Lemma blt_duration_ok f :
  blt_frame_ok f → df_loaded f = true → ∃ n, blt_duration_beats f = Ok n ∧ 1 ≤ n ≤ U32_MAX.
Proof.
  intros [Hl [Hb1 Hb2]] Hf. destruct (Hl Hf) as [Hbpm Hd]. apply andb_true_iff in Hbpm as [?%Z.leb_le ?%Z.leb_le].
  unfold blt_duration_beats, checked_u64, checked_add_u64.
  change U64_MAX with 18446744073709551615. change U32_MAX with 4294967295 in *.
  change (2 ^ 22) with 4194304 in Hd.
  set (x := df_duration_seconds f * df_track_bpm_milli f).
  assert (0 ≤ x ≤ 4194304 * 300000) as Hx by (subst x; nia).
  rewrite (proj2 (Z.leb_le _ _)) by lia. cbn [ok_or result_bind].
  rewrite (proj2 (Z.leb_le _ _)) by lia. cbn [ok_or result_bind].
  assert (0 ≤ (x + 30000) / 60000 ≤ 4294967295) as Hq.
  { split; [apply Z.div_pos; lia|]. apply Z.div_le_upper_bound; lia. }
  rewrite (proj2 (Z.leb_le _ _)) by lia. eexists. split; [done|].
  unfold saturating_add_u32. change U32_MAX with 4294967295. lia.
Qed.

Definition blt_metadata f (duration_beats : Z) : TrackMetadata :=
  mkTrackMetadata (blt_track_identity f) (lit "External track " ++ show_u (df_rekordbox_id f))
    (lit "Beat Link Trigger") (df_track_bpm_milli f) (mkMusicalKey PitchC KeyMinor) None duration_beats [] None.

(** The metadata of a loaded frame is always valid. *)
Lemma blt_metadata_ok f n :
  blt_frame_ok f → df_loaded f = true → 1 ≤ n →
  TrackMetadata_try_new_unanalyzed (blt_track_identity f) (lit "External track " ++ show_u (df_rekordbox_id f))
    (lit "Beat Link Trigger") (df_track_bpm_milli f) (mkMusicalKey PitchC KeyMinor) n = Ok (blt_metadata f n) ∧
  metadata_wf (blt_metadata f n).
Proof.
  intros [Hl _] Hf Hn. destruct (Hl Hf) as [Hbpm _].
  assert (validate_track_facts (lit "External track " ++ show_u (df_rekordbox_id f)) (lit "Beat Link Trigger")
    (df_track_bpm_milli f) n = Ok ()) as Hv.
  { unfold validate_track_facts. rewrite external_title_named.
    change (str_is_blank (lit "Beat Link Trigger")) with false. unfold bpm_in_range in Hbpm. rewrite Hbpm.
    by rewrite (proj2 (Z.eqb_neq _ _)) by lia. }
  split; [unfold TrackMetadata_try_new_unanalyzed; by rewrite Hv|].
  apply validate_track_facts_Ok in Hv. by split; [|left].
Qed.

(** ** Decks of the provider and of the runtime *)

Record blt_deck_shown (k : BltLoadedDeck) w : Prop := {
  bs_load : dv_load w = bd_track_load_id k;
  bs_track : tm_id (dv_metadata w) = bd_identity k;
  bs_beat : dv_beat w = bd_beat k;
  bs_playing : dv_playing w = bd_playing k;
}.

Record blt_good (x : BltRest) v : Prop := {
  bg_decks : ∀ d, match br_decks x !! d, sv_decks v !! d with
                  | Some k, Some w => blt_deck_shown k w
                  | None, None => True
                  | _, _ => False
                  end;
  bg_loads : map_Forall (λ _ k, bd_track_load_id k < br_next x) (br_decks x);
  bg_distinct : ∀ d d' k k', br_decks x !! d = Some k → br_decks x !! d' = Some k' →
    bd_track_load_id k = bd_track_load_id k' → d = d';
  bg_leader : sv_leader v = None ∨ sv_leader v = br_leader x;
  bg_led : ∀ d, sv_leader v = Some d → is_Some (br_decks x !! d);
  bg_assemblers : assembler_ok (player_one (br_assemblers x)) ∧ assembler_ok (player_two (br_assemblers x));
}.

Lemma bg_assembler x v index : blt_good x v → assembler_ok (player_get index (br_assemblers x)).
Proof. intros [_ _ _ _ _ [? ?]]. by destruct index. Qed.

Definition with_decks (decks : gmap Z BltLoadedDeck) (x : BltRest) : BltRest :=
  mkBltRest decks (br_leader x) (br_next x) (br_assemblers x).

(** A deck of the view. *)
Lemma good_lookup x v d k :
  blt_good x v → br_decks x !! d = Some k → ∃ w, sv_decks v !! d = Some w ∧ blt_deck_shown k w.
Proof.
  intros [H _ _ _ _ _] Hk. specialize (H d). rewrite Hk in H.
  destruct (sv_decks v !! d) as [w|]; [by exists w|done].
Qed.

(** Unloading a deck. *)
Lemma good_unload x v d k :
  blt_good x v → br_decks x !! d = Some k →
  blt_good (with_decks (delete d (br_decks x)) x) (view_step v (TrackUnloaded d (bd_track_load_id k))) ∧
  sv_leader (view_step v (TrackUnloaded d (bd_track_load_id k))) ≠ Some d.
Proof.
  intros Hg Hk. destruct (good_lookup _ _ _ _ Hg Hk) as (w & Hw & [Hl _ _ _]).
  destruct Hg as [H1 H2 H3 H4 H5 H6]. unfold view_step. rewrite Hw, Hl, Z.eqb_refl.
  split; [split; simpl|].
  - intros d'. destruct (decide (d = d')) as [<-|]; [by rewrite !lookup_delete_eq|].
    rewrite !lookup_delete_ne by done. apply H1.
  - by apply map_Forall_delete.
  - intros d1 d2 k1 k2 [_ E1]%lookup_delete_Some [_ E2]%lookup_delete_Some. by apply H3.
  - case_bool_decide; [by left|done].
  - intros d'. case_bool_decide as E; [done|]. intros Hd'. rewrite lookup_delete_ne; [by apply H5|].
    intros ->. congruence.
  - done.
  - simpl. by case_bool_decide.
Qed.

(** A deck that keeps its load. *)
Lemma good_update x v d k k' w' :
  blt_good x v → br_decks x !! d = Some k → bd_track_load_id k' = bd_track_load_id k → blt_deck_shown k' w' →
  blt_good (with_decks (<[d := k']> (br_decks x)) x) (put v d w').
Proof.
  intros [H1 H2 H3 H4 H5 H6] Hk Hl Hs. split; simpl.
  - intros d'. destruct (decide (d = d')) as [<-|]; [by rewrite !lookup_insert_eq|].
    rewrite !lookup_insert_ne by done. apply H1.
  - apply map_Forall_insert_2; [|done]. rewrite Hl. by apply (H2 d).
  - intros d1 d2 k1 k2 E1 E2 Heq.
    assert (∀ d' k1, <[d := k']> (br_decks x) !! d' = Some k1 →
      ∃ k2, br_decks x !! d' = Some k2 ∧ bd_track_load_id k2 = bd_track_load_id k1) as Hold.
    { intros d' k0 [[<- <-]|[? ?]]%lookup_insert_Some; eauto. }
    destruct (Hold _ _ E1) as (j1 & F1 & G1), (Hold _ _ E2) as (j2 & F2 & G2).
    apply (H3 _ _ _ _ F1 F2). congruence.
  - done.
  - intros d' Hd'. rewrite lookup_insert_is_Some'. right. by apply H5.
  - done.
Qed.

(** A fresh load on an empty deck. *)
Lemma good_load x v d k w :
  blt_good x v → br_decks x !! d = None → bd_track_load_id k = br_next x → blt_deck_shown k w →
  blt_good (mkBltRest (<[d := k]> (br_decks x)) (br_leader x) (br_next x + 1) (br_assemblers x)) (put v d w).
Proof.
  intros [H1 H2 H3 H4 H5 H6] Hd Hl Hs. split; simpl.
  - intros d'. destruct (decide (d = d')) as [<-|]; [by rewrite !lookup_insert_eq|].
    rewrite !lookup_insert_ne by done. apply H1.
  - apply map_Forall_insert_2; [lia|]. intros d' k' Hk'. specialize (H2 d' k' Hk'). simpl in H2. lia.
  - intros d1 d2 k1 k2 [[<- <-]|[? E1]]%lookup_insert_Some [[<- <-]|[? E2]]%lookup_insert_Some Heq; [done|..].
    + specialize (H2 _ _ E2). simpl in H2. lia.
    + specialize (H2 _ _ E1). simpl in H2. lia.
    + by eapply H3.
  - done.
  - intros d' Hd'. rewrite lookup_insert_is_Some'. right. by apply H5.
  - done.
Qed.

(** The leader after [LeaderChanged]. *)
Lemma blt_good_lead x v d k :
  blt_good x v → br_decks x !! d = Some k →
  blt_good (mkBltRest (br_decks x) (Some d) (br_next x) (br_assemblers x))
    (view_step v (LeaderChanged d (bd_track_load_id k))).
Proof.
  intros Hg Hk. destruct (good_lookup _ _ _ _ Hg Hk) as (w & Hw & [Hl _ _ _]).
  destruct Hg as [H1 H2 H3 H4 H5 H6]. unfold view_step. rewrite Hw, Hl, Z.eqb_refl.
  split; try done; [by right|]. intros d' [= <-]. by exists k.
Qed.

(** ** The methods *)

Section Shown.
(** What was drained before, and the time of the first call. *)
Variables (drained : list DomainEvent) (t0 : Z).

Notation holds t x v := (state_at BLT_SOURCE_ID t0 drained t x v).
(** An error is an overflow of a counter. *)
Notation runs I m J := (triple I m (post J (λ e _, blt_overflow e))).

Definition blt_inv (t : Z) p : Prop := ∃ x v, holds t x v p ∧ blt_good x v.

Lemma blt_inv_intro t x v p : holds t x v p → blt_good x v → blt_inv t p.
Proof. intros ? ?. by exists x, v. Qed.

Lemma runs_seq {A B} I (K : BltMidiDeckSourceProvider → Prop) (m : blt A) (k : blt B) J :
  runs I m (λ _, K) → runs K k J → runs I (do! m then k) J.
Proof. intros Hm Hk. eapply post_bind; [exact Hm|]. done. Qed.

(** Reading what the assertion determines. *)
Lemma runs_read {A B} t x v (f : BltMidiDeckSourceProvider → A) a (k : A → blt B) J :
  (∀ p, remainder p = x → f p = a) → runs (holds t x v) (k a) J →
  runs (holds t x v) (method_bind (method_get f) k) J.
Proof.
  intros Hf Hk p Hp. unfold method_bind, method_get. rewrite (Hf p (sa_remainder _ _ _ _ _ _ _ Hp)). by apply Hk.
Qed.

Lemma runs_read_any {A B} I (f : BltMidiDeckSourceProvider → A) (k : A → blt B) J :
  (∀ a, runs I (k a) J) → runs I (method_bind (method_get f) k) J.
Proof. intros Hk p Hp. unfold method_bind, method_get. by apply Hk. Qed.

(** A change of fields the assertion does not name. *)
Lemma runs_same t (f : BltMidiDeckSourceProvider → BltMidiDeckSourceProvider) :
  (∀ p, publication (f p) = publication p) → (∀ p, remainder (f p) = remainder p) →
  runs (blt_inv t) (method_modify f) (λ _, blt_inv t).
Proof.
  intros Hp Hr p (x & v & Hs & Hg). exists x, v. split; [|done].
  rewrite <- (sa_remainder _ _ _ _ _ _ _ Hs), <- Hr. eapply state_change; [exact Hs|apply Hp].
Qed.

Lemma runs_from t {A} (m : blt A) J :
  (∀ x v, blt_good x v → runs (holds t x v) m J) → runs (blt_inv t) m J.
Proof. intros H p (x & v & Hs & Hg). by eapply H. Qed.

Lemma runs_to t {A} I (m : blt A) x v :
  blt_good x v → runs I m (λ _, holds t x v) → runs I m (λ _, blt_inv t).
Proof.
  intros Hg. apply triple_mono; [done|]. intros [a|e] p; simpl; [|done]. intros ?. by eapply blt_inv_intro.
Qed.

Lemma blt_rule_emit t x v o :
  observation_wf o → runs (holds t x v) (blt_emit t o) (λ _, holds t x (view_step v o)).
Proof. intros Ho. eapply rule_emit; [apply blt_emits|done|by left]. Qed.

Lemma blt_rule_emit_deck t x v d w o :
  of_deck d (dv_load w) o → observation_wf o →
  runs (holds t x (put v d w)) (blt_emit t o) (λ _, holds t x (put v d (deck_step w o))).
Proof. intros Ho Hw. rewrite <- put_step by done. by apply blt_rule_emit. Qed.

Lemma blt_rule_emit_when t x v d w (b : bool) o :
  of_deck d (dv_load w) o → observation_wf o →
  runs (holds t x (put v d w)) (blt_emit_when b t o) (λ _, holds t x (put v d (if b then deck_step w o else w))).
Proof. intros Ho Hw. destruct b; [by apply blt_rule_emit_deck|]. by apply post_ret. Qed.

Lemma blt_rule_modify t x y v (f : BltMidiDeckSourceProvider → BltMidiDeckSourceProvider) :
  (∀ p, publication (f p) = publication p) → (∀ p, remainder p = x → remainder (f p) = y) →
  runs (holds t x v) (method_modify f) (λ _, holds t y v).
Proof. by apply rule_modify. Qed.

(** [remove] leaves the deck empty, and the runtime is not led by it. *)
Lemma blt_runs_remove t x v d :
  blt_good x v →
  runs (holds t x v) (blt_remove_deck d t)
    (λ _ p, ∃ v', holds t (with_decks (delete d (br_decks x)) x) v' p ∧
       blt_good (with_decks (delete d (br_decks x)) x) v' ∧ sv_leader v' ≠ Some d).
Proof.
  intros Hg. apply (runs_read _ _ _ _ (br_decks x !! d)); [by intros p <-|]. destruct (br_decks x !! d) as [k|] eqn:Hk; cbn [remainder] in *.
  - eapply runs_seq.
    { apply (blt_rule_modify t x (with_decks (delete d (br_decks x)) x)); [done|]. by intros p <-. }
    pose proof (good_unload x v d k Hg Hk) as [? ?].
    eapply triple_mono; [done| |by apply blt_rule_emit]. intros [a|e] p; simpl; [|done]. eauto.
  - rewrite delete_id by done. apply post_ret. intros p Hp. exists v. destruct x. split_and!; [done..|].
    intros E. destruct (bg_led _ _ Hg d E) as [k' Hk']. simpl in *. congruence.
Qed.

Lemma runs_ok {A B} I (r : result A BltMidiError) a (k : A → blt B) J :
  r = Ok a → runs I (k a) J → runs I (method_bind (method_result r) k) J.
Proof. intros -> Hk p Hp. unfold method_bind, method_result. by apply Hk. Qed.

Lemma runs_take_id {B} t x v (k : Z → blt B) J :
  runs (holds t (mkBltRest (br_decks x) (br_leader x) (br_next x + 1) (br_assemblers x)) v) (k (br_next x)) J →
  runs (holds t x v)
    (let! track_load_id := method_get blt_next_track_load_id in
     let! next := method_result (ok_or (checked_add_u64 track_load_id 1) BltTrackLoadIdOverflow) in
     do! method_modify (set_blt_next_track_load_id next) then k track_load_id) J.
Proof.
  intros Hk. apply (runs_read _ _ _ _ (br_next x)); [by intros p <-|].
  destruct (checked_add_u64 (br_next x) 1) as [n|] eqn:En; cbn [ok_or].
  - apply checked_add_u64_Some in En as [-> _]. eapply runs_ok; [done|]. eapply runs_seq; [|exact Hk].
    apply blt_rule_modify; [done|]. by intros p <-.
  - intros p Hp. by right.
Qed.

Lemma deck_step_position w d load b :
  dv_load w = load → dv_beat w ≤ b →
  deck_step w (PlaybackPosition d load b) = mkDeckView load (dv_metadata w) b (dv_phrase w) (dv_playing w).
Proof. intros Hl Hb. simpl. by rewrite (proj2 (Z.ltb_ge _ _)). Qed.

Lemma blt_runs_load t d f :
  blt_frame_ok f → df_loaded f = true →
  runs (blt_inv t) (blt_load d f t) (λ _ p, blt_inv t p ∧ is_Some (blt_decks p !! d)).
Proof.
  intros Hf Hl. apply runs_from. intros x0 v0 Hg0. unfold blt_load.
  eapply post_bind; [by apply blt_runs_remove|]. intros _ p (v & Hp & Hg & _).
  set (x := with_decks _ x0) in *. assert (br_decks x !! d = None) as Hd by apply lookup_delete_eq.
  revert p Hp. clearbody x. clear x0 v0 Hg0. apply runs_take_id.
  destruct (blt_duration_ok f Hf Hl) as (n & Hn & Hn1). apply (runs_ok _ _ _ _ _ Hn).
  destruct (blt_metadata_ok f n Hf Hl) as [Hm Hmw]; [lia|].
  apply (runs_ok _ _ (blt_metadata f n)); [by rewrite Hm|]. destruct Hf as [_ Hbeat].
  set (beat := Z.min (df_beat f) n). set (load := br_next x).
  assert (in_u32 beat) as Hb by (unfold in_u32, beat in *; lia).
  set (k := mkBltLoadedDeck _ _ _ _ _ _ _).
  set (y := mkBltRest (<[d := k]> (br_decks x)) (br_leader x) (br_next x + 1) (br_assemblers x)).
  set (w := mkDeckView load (blt_metadata f n) beat None (df_playing f)).
  eapply runs_seq. { apply (blt_rule_modify t _ y v); [done|]. intros p [= E1 E2 E3 E4]. simpl. by rewrite E1, E2, E3, E4. }
  eapply runs_seq; [by apply (blt_rule_emit t y v)|].
  change (view_step v (TrackLoaded d (blt_metadata f n) load)) with
    (put v d (mkDeckView load (blt_metadata f n) 0 None false)).
  eapply runs_seq; [by apply blt_rule_emit_when|].
  replace (if negb _ then _ else _) with (mkDeckView load (blt_metadata f n) 0 None false) by (by case_match).
  eapply runs_seq; [by apply blt_rule_emit_deck|].
  rewrite deck_step_position by (done || (simpl; unfold in_u32 in Hb; lia)).
  eapply triple_mono; [done| |by apply blt_rule_emit_deck].
  intros [a|e] p; cbn [post]; [|done]. intros Hp. split.
  - eapply blt_inv_intro; [exact Hp|]. by apply good_load.
  - change (blt_decks p) with (br_decks (remainder p)).
    rewrite (sa_remainder _ _ _ _ _ _ _ Hp). exists k. apply lookup_insert_eq.
Qed.

(** The three changes of a deck in the order of the code. *)
Definition updated w (d load beat : Z) (moved started playing : bool) : DeckView :=
  let w1 := if moved
            then deck_step w (if beat <? dv_beat w then PlaybackPositionSeeked d load beat
                              else PlaybackPosition d load beat) else w in
  if started then deck_step w1 (PlaybackStateChanged d load playing) else w1.

Lemma updated_shown k w d f beat identity :
  blt_deck_shown k w → identity = bd_media_identity k →
  blt_deck_shown
    (mkBltLoadedDeck (bd_identity k) (bd_track_load_id k) beat (df_effective_bpm_milli f) (df_playing f)
       identity (df_playback_position_millis f))
    (updated w d (bd_track_load_id k) beat (negb (bd_beat k =? beat)) (negb (eqb (bd_playing k) (df_playing f)))
       (df_playing f)).
Proof.
  intros [H1 H2 H3 H4] _. unfold updated. rewrite H3.
  destruct (Z.eqb_spec (bd_beat k) beat) as [<-|Hb]; cbn [negb];
    [|destruct (Z.ltb_spec beat (bd_beat k)); cbn [deck_step]];
    rewrite ?H3, ?(proj2 (Z.ltb_ge beat (bd_beat k))) by lia;
    (destruct (eqb (bd_playing k) (df_playing f)) eqn:E; cbn [negb];
      [apply eqb_prop in E|]; split; simpl; congruence).
Qed.

Lemma blt_runs_update t d f k x v :
  blt_frame_ok f → df_loaded f = true → blt_good x v → br_decks x !! d = Some k →
  runs (holds t x v) (blt_update d f k t) (λ _ p, blt_inv t p ∧ is_Some (blt_decks p !! d)).
Proof.
  intros Hf Hl Hg Hk. unfold blt_update. destruct (blt_duration_ok f Hf Hl) as (n & Hn & Hn1).
  apply (runs_ok _ _ _ _ _ Hn). destruct Hf as [_ Hbeat]. set (beat := Z.min (df_beat f) n).
  assert (in_u32 beat) as Hb by (unfold in_u32, beat in *; lia).
  destruct (good_lookup _ _ _ _ Hg Hk) as (w & Hw & Hs). pose proof Hs as [Hload _ Hwb _].
  rewrite <- (put_self v d w Hw). set (load := bd_track_load_id k) in *.
  eapply runs_seq; [by apply blt_rule_emit_when|].
  replace (if negb (_ =? df_effective_bpm_milli f) then _ else _) with w by (by case_match).
  eapply runs_seq; [by apply blt_rule_emit_when; case_match|].
  eapply runs_seq; [apply blt_rule_emit_when; [|done]|].
  { split; [done|]. destruct (negb _); [|done]. by destruct (beat <? bd_beat k); cbn [deck_step]; [|case_match]. }
  eapply triple_mono; [done| |eapply (blt_rule_modify t x
    (with_decks (<[d := mkBltLoadedDeck (bd_identity k) load beat (df_effective_bpm_milli f) (df_playing f)
       (bd_media_identity k) (df_playback_position_millis f)]> (br_decks x)) x)); [done|]].
  - intros [a|e] p; cbn [post]; [|done]. intros Hp. split.
    + eapply blt_inv_intro; [exact Hp|]. eapply good_update; [exact Hg|exact Hk|done|].
      pose proof (updated_shown k w d f beat _ Hs eq_refl) as Hu. unfold updated in Hu. by rewrite Hwb in Hu.
    + change (blt_decks p) with (br_decks (remainder p)).
      rewrite (sa_remainder _ _ _ _ _ _ _ Hp). eexists. apply lookup_insert_eq.
  - intros p <-. simpl. unfold with_decks. simpl. f_equal. simpl in Hk.
    apply map_eq. intros d'. destruct (decide (d = d')) as [<-|].
    + by rewrite lookup_alter_eq, lookup_insert_eq, Hk.
    + by rewrite lookup_alter_ne, lookup_insert_ne.
Qed.

Lemma blt_runs_follow t d f :
  runs (λ p, blt_inv t p ∧ is_Some (blt_decks p !! d)) (blt_follow_master d f t) (λ _, blt_inv t).
Proof.
  intros p0 [(x & v & Hp0 & Hg) [k Hk]]. change (blt_decks p0) with (br_decks (remainder p0)) in Hk.
  rewrite (sa_remainder _ _ _ _ _ _ _ Hp0) in Hk. revert p0 Hp0. unfold blt_follow_master.
  apply (runs_read _ _ _ _ (br_leader x)); [by intros p <-|]. destruct (_ && _).
  - apply (runs_read _ _ _ _ (Some k)); [by intros p <-|]. apply (runs_ok _ _ k); [done|].
    eapply runs_seq.
    { apply (blt_rule_modify t x (mkBltRest (br_decks x) (Some d) (br_next x) (br_assemblers x))); [done|].
      by intros p <-. }
    eapply runs_to; [by apply blt_good_lead|]. by apply blt_rule_emit.
  - apply post_ret. intros p Hp. by eapply blt_inv_intro.
Qed.

Lemma blt_runs_ready t : runs (blt_inv t) (blt_announce_ready t) (λ _, blt_inv t).
Proof.
  apply runs_read_any. intros ready. destruct (negb ready); [|by apply post_ret].
  eapply runs_seq; [|by apply (runs_same t)]. apply runs_from. intros x v Hg.
  eapply runs_to; [exact Hg|by apply (blt_rule_emit t x v)].
Qed.

Lemma blt_runs_apply t d f : blt_frame_ok f → runs (blt_inv t) (blt_apply_frame d f t) (λ _, blt_inv t).
Proof.
  intros Hf. eapply runs_seq; [apply blt_runs_ready|]. destruct (df_loaded f) eqn:Hl; cbn [negb].
  - apply runs_from. intros x v Hg. apply (runs_read _ _ _ _ (br_decks x !! d)); [by intros p <-|].
    eapply runs_seq; [|apply blt_runs_follow].
    assert (runs (holds t x v) (blt_load d f t) (λ _ p, blt_inv t p ∧ is_Some (blt_decks p !! d))) as Hload.
    { intros p Hp. apply blt_runs_load; [done|done|by eapply blt_inv_intro]. }
    destruct (br_decks x !! d) as [k|] eqn:Hk; [|exact Hload]. destruct (_ =? _); [|exact Hload].
    by apply blt_runs_update.
  - apply runs_from. intros x v Hg. eapply triple_mono; [done| |by apply blt_runs_remove].
    intros [a|e] p; cbn [post]; [|done]. intros (v' & Hp & Hg' & _). by eapply blt_inv_intro.
Qed.

Lemma blt_runs_ignore t : runs (blt_inv t) blt_ignore (λ _, blt_inv t).
Proof. by apply runs_same. Qed.

Lemma good_assembler x v index a :
  blt_good x v → assembler_ok a →
  blt_good (mkBltRest (br_decks x) (br_leader x) (br_next x) (player_set index a (br_assemblers x))) v.
Proof. intros [? ? ? ? ? [? ?]] Ha. split; try done. by destruct index. Qed.

Lemma blt_rule_assembler t x v index a :
  runs (holds t x v) (method_modify (set_blt_assembler index a))
    (λ _, holds t (mkBltRest (br_decks x) (br_leader x) (br_next x) (player_set index a (br_assemblers x))) v).
Proof. apply blt_rule_modify; [done|]. by intros p <-. Qed.

Lemma blt_runs_assembler t index a :
  assembler_ok a → runs (blt_inv t) (method_modify (set_blt_assembler index a)) (λ _, blt_inv t).
Proof.
  intros Ha. apply runs_from. intros x v Hg. eapply runs_to; [|apply blt_rule_assembler]. by apply good_assembler.
Qed.

Lemma default_ok : assembler_ok FrameAssembler_default.
Proof. split; try done. apply (bool_decide_unpack _). by vm_compute. Qed.

Lemma blt_runs_accept now index channel f t :
  blt_frame_ok f → runs (blt_inv t) (blt_accept now index channel f t) (λ _, blt_inv t).
Proof.
  intros Hf. apply runs_read_any. intros last. case_bool_decide; [by apply runs_same|].
  eapply runs_seq; [by apply (runs_same t)|]. eapply runs_seq; [by apply (runs_same t)|].
  eapply runs_seq; [by apply (runs_same t)|]. eapply runs_seq; [by apply blt_runs_apply|].
  by apply runs_same.
Qed.

Lemma blt_runs_ingest now message t :
  in_u8 (mvm_data_two message) → runs (blt_inv t) (blt_ingest now message t) (λ _, blt_inv t).
Proof.
  destruct message as [status channel c value]. cbn [mvm_data_two]. intros Hv. unfold blt_ingest.
  destruct (_ || _); [apply blt_runs_ignore|]. cbv zeta. set (index := Z.to_nat (channel - 1)).
  destruct (c =? COMMIT_CC).
  - destruct (negb _); [apply blt_runs_ignore|]. apply runs_from. intros x v Hg. unfold blt_commit.
    apply (runs_read _ _ _ _ (player_get index (br_assemblers x))); [by intros p <-|].
    pose proof (bg_assembler x v index Hg) as Ha.
    eapply runs_seq; [eapply runs_to; [apply (good_assembler x v index _ Hg default_ok)|apply blt_rule_assembler]|].
    destruct (decode_frame _) as [f|e] eqn:Ef; [|apply blt_runs_ignore].
    apply blt_runs_accept. by eapply decode_frame_ok.
  - apply runs_from. intros x v Hg.
    apply (runs_read _ _ _ _ (player_get index (br_assemblers x))); [by intros p <-|].
    pose proof (bg_assembler x v index Hg) as Ha.
    pose proof (write_field_keeps c value _ Ha Hv) as [Hw Hm].
    destruct (write_field _ _ _) as [written b]. cbn [fst snd] in *.
    eapply runs_seq; [eapply runs_to; [apply (good_assembler x v index _ Hg Hw)|apply blt_rule_assembler]|].
    destruct b; [|apply blt_runs_ignore]. apply blt_runs_assembler. by apply Hm.
Qed.

Lemma blt_runs_expire_player now age t index :
  runs (blt_inv t) (blt_expire_player now age t index) (λ _, blt_inv t).
Proof.
  apply runs_read_any. intros [received|]; [|by apply post_ret]. destruct (_ <=? age); [by apply post_ret|].
  eapply runs_seq; [by apply (runs_same t)|]. eapply runs_seq; [by apply (runs_same t)|].
  eapply runs_seq; [by apply blt_runs_assembler, default_ok|].
  apply runs_from. intros x v Hg. set (d := if bool_decide _ then 1 else 2).
  eapply post_bind; [by apply blt_runs_remove|]. intros _ p (v' & Hp & [H1 H2 H3 H4 H5 H6] & Hne).
  set (y := with_decks _ x) in *.
  assert (blt_leader_deck_id p = br_leader y) as El.
  { change (blt_leader_deck_id p) with (br_leader (remainder p)). by rewrite (sa_remainder _ _ _ _ _ _ _ Hp). }
  cbn [method_modify post fst snd]. rewrite El. case_bool_decide as E; [|by eapply blt_inv_intro; [exact Hp|]].
  exists (mkBltRest (br_decks y) None (br_next y) (br_assemblers y)), v'. split.
  - pose proof (blt_rule_modify t y (mkBltRest (br_decks y) None (br_next y) (br_assemblers y)) v'
      (set_blt_leader_deck_id None)) as Hm. apply Hm; [done| |exact Hp]. by intros q <-.
  - split; try done. left. destruct H4 as [?|H4]; [done|]. by rewrite H4, E in Hne.
Qed.

Lemma blt_runs_expire now age t : runs (blt_inv t) (blt_expire_stale now age t) (λ _, blt_inv t).
Proof. eapply runs_seq; apply blt_runs_expire_player. Qed.

(** What the runtime sees of the emissions of [clear]. *)
Definition view_unload_all v (loaded : list (DeckId * TrackLoadId)) : SourceView :=
  foldl (λ v d, view_step v (TrackUnloaded d.1 d.2)) v loaded.

Lemma view_unload_all_empty loaded : ∀ v,
  (∀ d w, sv_decks v !! d = Some w → (d, dv_load w) ∈ loaded) →
  (∀ d, sv_leader v = Some d → is_Some (sv_decks v !! d)) →
  view_unload_all v loaded = empty_view.
Proof.
  induction loaded as [|[d load] loaded IH]; intros v Hall Hled.
  - assert (sv_decks v = ∅) as Ed.
    { apply map_empty. intros d. destruct (sv_decks v !! d) as [w|] eqn:Hw; [|done].
      by apply Hall, not_elem_of_nil in Hw. }
    destruct v as [decks leader]. simpl in *. subst decks. destruct leader as [d|]; [|done].
    by destruct (Hled d eq_refl).
  - apply IH; simpl.
    + intros d' w'. destruct (sv_decks v !! d) as [w|] eqn:Hw; [destruct (Z.eqb_spec (dv_load w) load)|]; simpl.
      * intros [Hne Hw']%lookup_delete_Some. apply Hall in Hw' as [[= -> _]|Hin]%elem_of_cons; [done|exact Hin].
      * intros Hw'. apply Hall in Hw' as Hin. apply elem_of_cons in Hin as [?|?]; [|done]. simplify_eq.
      * intros Hw'. apply Hall in Hw' as Hin. apply elem_of_cons in Hin as [?|?]; [|done]. simplify_eq.
    + intros d'. destruct (sv_decks v !! d) as [w|] eqn:Hw; [destruct (Z.eqb_spec (dv_load w) load)|]; simpl;
        try apply Hled.
      case_bool_decide as E; [done|]. intros Hd'. rewrite lookup_delete_ne; [by apply Hled|].
      intros ->. congruence.
Qed.

Lemma blt_runs_unload_all t x loaded : ∀ v,
  runs (holds t x v) (blt_unload_all loaded t) (λ _, holds t x (view_unload_all v loaded)).
Proof.
  induction loaded as [|[d load] loaded IH]; intros v; [by apply post_ret|].
  eapply runs_seq; [by apply (blt_rule_emit t x v)|]. apply IH.
Qed.

Lemma blt_runs_clear t : runs (blt_inv t) (blt_clear t) (λ _, blt_inv t).
Proof.
  apply runs_from. intros x v Hg. set (loaded := prod_map id bd_track_load_id <$> sort_by_key fst (map_to_list (br_decks x))).
  apply (runs_read _ _ _ _ loaded); [by intros p <-|].
  assert (view_unload_all v loaded = empty_view) as Ev.
  { destruct Hg as [H1 _ _ _ H5 _]. apply view_unload_all_empty.
    - intros d w Hw. specialize (H1 d). rewrite Hw in H1. destruct (br_decks x !! d) as [k|] eqn:Hk; [|done].
      destruct H1 as [-> _ _ _]. apply list_elem_of_fmap. exists (d, k). split; [done|].
      rewrite sort_by_key_perm. by apply elem_of_map_to_list.
    - intros d Hd. specialize (H1 d). destruct (H5 d Hd) as [k Hk]. rewrite Hk in H1.
      destruct (sv_decks v !! d) as [w|]; [by exists w|done]. }
  set (y := mkBltRest ∅ None (br_next x) (br_assemblers x)).
  eapply runs_seq; [apply blt_runs_unload_all|]. rewrite Ev.
  eapply runs_seq.
  { apply (blt_rule_modify t x (with_decks ∅ x) empty_view); [done|]. by intros p <-. }
  eapply runs_seq. { apply (blt_rule_modify t _ y empty_view); [done|]. intros p [= E1 E2 E3 E4]. simpl. unfold y. by rewrite E1, E3, E4. }
  eapply (runs_seq _ (blt_inv t)).
  { eapply (runs_to t _ _ y empty_view); [split; try done; try (by left); apply Hg|].
    apply blt_rule_modify; [done|]. by intros p <-. }
  eapply runs_seq; [by apply (runs_same t)|].
  apply runs_from. intros z u Hz. eapply (runs_to t _ _
    (mkBltRest (br_decks z) (br_leader z) (br_next z) (both FrameAssembler_default FrameAssembler_default)) u).
  - destruct Hz. split; try done. split; apply default_ok.
  - apply blt_rule_modify; [done|]. by intros p <-.
Qed.
End Shown.

(** ** Runs *)

Inductive BltOp : Type :=
| BIngest (now : Instant) (message : MidiChannelVoiceMessage) (t : MonotonicTime)
| BExpire (now : Instant) (maximum_age : Z) (t : MonotonicTime)
| BClear (t : MonotonicTime)
| BDrain.

Definition blt_op (op : BltOp) : blt unit :=
  match op with
  | BIngest now message t => blt_ingest now message t
  | BExpire now age t => blt_expire_stale now age t
  | BClear t => blt_clear t
  | BDrain => method_ret tt
  end.

(** The provider after a run, what was drained, and the first error. *)
Record BltRun := mkBltRun {
  br_provider : BltMidiDeckSourceProvider;
  br_drained : list DomainEvent;
  br_error : option BltMidiError;
}.

Definition blt_step (r : BltRun) (op : BltOp) : BltRun :=
  let '(p, outcome) := blt_op op (br_provider r) in
  let '(p, es) := match op with
                  | BDrain => ((drain_events p).1, blt_pending_events p)
                  | _ => (p, [])
                  end in
  mkBltRun p (br_drained r ++ es)
    (match br_error r, outcome with None, Err e => Some e | e, _ => e end).

Definition blt_start (t : MonotonicTime) : BltRun := mkBltRun (Blt_new t).1 [] None.

Definition blt_run (t : MonotonicTime) (ops : list BltOp) : BltRun := foldl blt_step (blt_start t) ops.

(** The second data byte of a message is a byte. *)
Definition blt_op_wf (op : BltOp) : Prop :=
  match op with BIngest _ message _ => in_u8 (mvm_data_two message) | _ => True end.

Definition blt_op_time (last : Z) (op : BltOp) : Z :=
  match op with BIngest _ _ t | BExpire _ _ t | BClear t => t | BDrain => last end.

Fixpoint blt_in_order (last : Z) (ops : list BltOp) : Prop :=
  match ops with
  | [] => True
  | op :: ops => last ≤ blt_op_time last op ∧ blt_in_order (blt_op_time last op) ops
  end.

(** What holds of a run up to its first error. *)
Definition blt_run_inv (t0 t : Z) (r : BltRun) : Prop :=
  match br_error r with Some e => blt_overflow e | None => blt_inv (br_drained r) t0 t (br_provider r) end.

Lemma blt_step_inv t0 last r op :
  blt_op_wf op → last ≤ blt_op_time last op → blt_run_inv t0 last r →
  blt_run_inv t0 (blt_op_time last op) (blt_step r op).
Proof.
  intros Hw Ht Hr. unfold blt_run_inv, blt_step in *.
  destruct (br_error r) as [e|] eqn:Er.
  { destruct (blt_op op _) as [p o]. destruct op; simpl; done. }
  set (t := blt_op_time last op) in *.
  assert (blt_inv (br_drained r) t0 t (br_provider r)) as Hi.
  { destruct Hr as (x & v & Hs & Hg). exists x, v. split; [by eapply state_later|done]. }
  assert (post (λ _, blt_inv (br_drained r) t0 t) (λ e _, blt_overflow e) (blt_op op (br_provider r)).2
    (blt_op op (br_provider r)).1) as H.
  { destruct op as [now message t'|now age t'|t'|]; simpl in *; subst t.
    - by apply blt_runs_ingest.
    - by apply blt_runs_expire.
    - by apply blt_runs_clear.
    - done. }
  destruct (blt_op op (br_provider r)) as [p [[]|e]]; cbn [fst snd post] in H; [|by destruct op].
  destruct op; cbn [br_error br_drained br_provider]; rewrite ?app_nil_r; try exact H.
  destruct H as (x & v & Hs & Hg). exists x, v. split; [|done].
  exact (state_drain _ _ _ _ _ _ p (drain_events p).1 Hs eq_refl eq_refl).
Qed.

Lemma blt_run_keeps t0 ops : ∀ last r,
  Forall blt_op_wf ops → blt_in_order last ops → blt_run_inv t0 last r →
  ∃ t, blt_run_inv t0 t (foldl blt_step r ops).
Proof.
  induction ops as [|op ops IH]; intros last r Hw Ho Hr; [by exists last|].
  apply Forall_cons in Hw as [Hw Hws]. destruct Ho as [Ht Ho].
  apply (IH (blt_op_time last op)); [done|done|]. by apply blt_step_inv.
Qed.

Lemma blt_start_inv t : blt_run_inv t t (blt_start t).
Proof.
  set (p := mkBlt BLT_SOURCE_ID 0 1 (both FrameAssembler_default FrameAssembler_default) (both None None)
    (both None None) ∅ None [] 0 0 0 None false).
  assert (state_at BLT_SOURCE_ID t [] t (remainder p) empty_view p) as H0 by (split; [split|..]; done).
  assert (blt_good (remainder p) empty_view) as Hg.
  { split; try done; [by left|]. split; apply default_ok. }
  pose proof (blt_rule_emit [] t t _ _ (SourceStatusChanged SourceStarting) I p H0) as H.
  change (blt_emit t (SourceStatusChanged SourceStarting) p) with (Blt_new t) in H.
  assert ((Blt_new t).2 = Ok tt) as E by (vm_compute; reflexivity). rewrite E in H. cbn [post] in H.
  exists (remainder p), empty_view. by split.
Qed.

(** The runtime shows the decks of Beat Link Trigger.  For every sequence of MIDI
    messages of any kind, heartbeat checks, clears and drains at times that do not go back,
    the only errors are overflows of the 64-bit counters; without one, and for every
    interleaving of what was published with commands, plans, output results and reports, the
    runtime has exactly the decks of the provider, each with the same load, the track of the
    same identity, the same beat and the same playing state, and no load is on two decks.
    The runtime follows the leader of the provider, or none. *)
Theorem blt_shown t0 ops es :
  Forall blt_op_wf ops → blt_in_order t0 ops →
  let r := blt_run t0 ops in
  let p := br_provider r in
  match br_error r with
  | Some e => blt_overflow e
  | None =>
      observations es = observations (br_drained r ++ blt_pending_events p) →
      Forall (λ e, observation_of e = None → event_wf e) es → Z.of_nat (length es) ≤ U64_MAX →
      let s := (run_events RuntimeState_default es).1 in
      (∀ d, match blt_decks p !! d, rs_decks s !! d with
            | Some k, Some deck => blt_deck_shown k (deck_view deck)
            | None, None => True
            | _, _ => False
            end) ∧
      (rs_leader_deck s = None ∨ rs_leader_deck s = blt_leader_deck_id p) ∧
      (∀ d d' k k', blt_decks p !! d = Some k → blt_decks p !! d' = Some k' →
         bd_track_load_id k = bd_track_load_id k' → d = d')
  end.
Proof.
  intros Hw Ho r p. destruct (blt_run_keeps t0 ops t0 (blt_start t0) Hw Ho (blt_start_inv t0)) as [t Hr].
  change (foldl blt_step (blt_start t0) ops) with r in Hr. unfold blt_run_inv in Hr.
  destruct (br_error r) as [e|]; [done|]. destruct Hr as (x & v & Hs & Hg). intros Hes Hwf Hn s.
  pose proof (state_shows _ _ _ _ _ _ _ es Hs Hes Hwf Hn) as Hv. fold s in Hv.
  pose proof (sa_remainder _ _ _ _ _ _ _ Hs) as Hx. subst v x. destruct Hg as [H1 H2 H3 H4 H5 H6].
  split_and!; [|exact H4|exact H3]. intros d. specialize (H1 d). rewrite lookup_view in H1.
  change (br_decks (remainder (br_provider r))) with (blt_decks p) in H1.
  by destruct (blt_decks p !! d), (rs_decks s !! d).
Qed.

(** A frame of another track of the deck that leads, with the master flag: the deck is
    unloaded, upon which the runtime has no leader, and because the provider still calls it
    the leader it is not announced again, by this frame or by a later one. *)
Definition frame_ops (now : Instant) (channel : Z) (f : DeckFrame) (t : MonotonicTime) : list BltOp :=
  ((λ field, BIngest now (field_message channel field) t) <$> frame_fields f) ++
  [BIngest now (commit_message channel) t].

Definition another_track (sequence : Z) : DeckFrame :=
  mkDeckFrame true true true true 1235 2 3 126000 126000 1 300 sequence 0 None.

Definition demo_blt_ops : list BltOp :=
  frame_ops 0 1 demo_frame 1 ++ [BDrain] ++ frame_ops 1000 1 (another_track 6) 2.

Definition blt_events (r : BltRun) : list DomainEvent := br_drained r ++ blt_pending_events (br_provider r).

Example blt_reload_loses_leader :
  let before := blt_run 0 (frame_ops 0 1 demo_frame 1) in
  let after := blt_run 0 (demo_blt_ops ++ frame_ops 2000 1 (another_track 7) 3) in
  rs_leader_deck (run_events RuntimeState_default (blt_events before)).1 = Some 1 ∧
  blt_leader_deck_id (br_provider after) = Some 1 ∧ is_Some (blt_decks (br_provider after) !! 1) ∧
  rs_leader_deck (run_events RuntimeState_default (blt_events after)).1 = None.
Proof.
  intros before after. repeat split; try (vm_compute; reflexivity).
  assert (bool_decide (is_Some (blt_decks (br_provider after) !! 1)) = true) as H by (vm_compute; reflexivity).
  by apply bool_decide_eq_true in H.
Qed.

Lemma demo_blt_ops_wf : Forall blt_op_wf demo_blt_ops.
Proof.
  assert (∀ f, wire_frame f → ∀ now channel t, Forall blt_op_wf (frame_ops now channel f t)) as H.
  { intros f Hf now channel t. apply Forall_app. split; [|by repeat constructor]. apply Forall_fmap.
    eapply Forall_impl; [by apply frame_fields_ok|]. by intros field [_ ?]. }
  apply Forall_app. split; [apply H, demo_frame_wire|]. apply Forall_app. split; [by repeat constructor|].
  apply H. split; simpl; unfold in_u8, U8_MAX; try lia; [done|by intros _; split_and!].
Qed.

Lemma blt_shown_witness :
  let r := blt_run 0 demo_blt_ops in
  bd_beat <$> blt_decks (br_provider r) !! 1 = Some 1 ∧
  is_Some (rs_decks (run_events RuntimeState_default (blt_events r)).1 !! 1).
Proof.
  intros r. split; [vm_compute; reflexivity|].
  pose proof (blt_shown 0 demo_blt_ops (blt_events r) demo_blt_ops_wf) as H. cbv zeta in H. fold r in H.
  assert (br_error r = None) as E by (vm_compute; reflexivity). rewrite E in H.
  destruct H as (H & _); [vm_compute; repeat split; discriminate|unfold blt_events; reflexivity| |vm_compute; discriminate|].
  - assert (Forall (λ e, is_Some (observation_of e)) (blt_events r)) as Hs
      by (apply (bool_decide_eq_true_1 _); vm_compute; reflexivity).
    eapply Forall_impl; [exact Hs|]. intros e [o Ho] Hn. congruence.
  - specialize (H 1). destruct (rs_decks _ !! 1) as [deck|]; [exists deck; reflexivity|].
    destruct (blt_decks (br_provider r) !! 1) as [k|] eqn:Hk; [destruct H|].
    vm_compute in Hk. discriminate Hk.
Defined.
