(* ===== verification/TimingOutput.v ===== *)
(** * Musical timing output

    Models [lumi-timing-output/src/lib.rs] and [carabiner.rs]: the port of the timing
    output and the Ableton Link adapter, which is a queue of commands, the latest
    observation, and a worker that talks to the helper process Carabiner over a socket.
    The operating system and the helper are the operations of a class: what a socket
    delivers after a command, whether a process runs.  The worker and its callers share
    the state of this file; every step of either is one method, so that their
    interleavings are sequences of steps.  [Instant::now()] is an argument. *)

From stdpp Require Import prelude list strings.
From Stdlib Require Import ZArith Lia.
From Stdlib Require Import Floats.SpecFloat.
From S2P Require Import Prelude.
From S2P Require Import Float64.
From S2P Require Import ProLinkProvider.
Open Scope Z_scope.

(** ** Data *)

Inductive TimingSourceKind : Type := LocalPlaybackTiming | ProDjLinkTiming.

Inductive TimingDiscontinuity : Type :=
| TDContinuous | TDStarted | TDResumed | TDSeeked | TDTrackChanged | TDMasterChanged.

#[global] Instance TimingSourceKind_eq_dec : EqDecision TimingSourceKind.
Proof. solve_decision. Defined.

Record LinkClockObservation := mkLinkClockObservation {
  lco_source : TimingSourceKind;
  lco_deck_number : option Z;
  lco_bpm_milli : Z;
  lco_beat_within_bar : Z;
  lco_playing : bool;
  lco_observed_at_micros : option Z;
}.

#[global] Instance LinkClockObservation_eq_dec : EqDecision LinkClockObservation.
Proof. solve_decision. Defined.

Inductive TimingOutputValidationError : Type := TVTempo | TVBeatWithinBar | TVDeckRequired.

Definition LinkClockObservation_validate (o : LinkClockObservation) :
    result LinkClockObservation TimingOutputValidationError :=
  if negb ((20000 <=? lco_bpm_milli o) && (lco_bpm_milli o <=? 300000)) then Err TVTempo
  else if negb ((1 <=? lco_beat_within_bar o) && (lco_beat_within_bar o <=? 4)) then Err TVBeatWithinBar
  else if bool_decide (lco_source o = ProDjLinkTiming) && bool_decide (lco_deck_number o = None)
  then Err TVDeckRequired
  else Ok o.

Definition phase_beat (o : LinkClockObservation) : Z := lco_beat_within_bar o - 1.

Definition validation_message (e : TimingOutputValidationError) : str :=
  match e with
  | TVTempo => lit "timing BPM is outside the supported range"
  | TVBeatWithinBar => lit "timing beat-within-bar must be in the range 1 through 4"
  | TVDeckRequired => lit "Pro DJ Link timing requires a deck number"
  end.

Inductive TimingOutputState : Type := TOStopped | TOStarting | TOReady | TORunning | TODegraded.

Record TimingOutputStatus := mkTimingOutputStatus {
  ts_state : TimingOutputState;
  ts_provider : str;
  ts_helper_version : option str;
  ts_peers : Z;
  ts_source : option TimingSourceKind;
  ts_deck_number : option Z;
  ts_bpm_milli : option Z;
  ts_beat_within_bar : option Z;
  ts_playing : bool;
  ts_generation : option Z;
  ts_last_anchor_at : option Instant;
  ts_last_anchor_age_millis : option Z;
  ts_phase_error_micros : option Z;
  ts_received_anchor_count : Z;
  ts_applied_anchor_count : Z;
  ts_coalesced_anchor_count : Z;
  ts_hard_reanchor_count : Z;
  ts_soft_correction_count : Z;
  ts_fail_closed_count : Z;
  ts_failure_count : Z;
  ts_max_abs_phase_error_micros : Z;
  ts_last_reanchor : option TimingDiscontinuity;
  ts_last_event : option str;
  ts_last_error : option str;
}.

Definition set_ts_state (x : TimingOutputState) (s : TimingOutputStatus) : TimingOutputStatus :=
  mkTimingOutputStatus x (ts_provider s) (ts_helper_version s) (ts_peers s) (ts_source s)
    (ts_deck_number s) (ts_bpm_milli s) (ts_beat_within_bar s) (ts_playing s) (ts_generation s)
    (ts_last_anchor_at s) (ts_last_anchor_age_millis s) (ts_phase_error_micros s)
    (ts_received_anchor_count s) (ts_applied_anchor_count s) (ts_coalesced_anchor_count s)
    (ts_hard_reanchor_count s) (ts_soft_correction_count s) (ts_fail_closed_count s)
    (ts_failure_count s) (ts_max_abs_phase_error_micros s) (ts_last_reanchor s) (ts_last_event
    s) (ts_last_error s).

Definition set_ts_helper_version (x : option str) (s : TimingOutputStatus) : TimingOutputStatus :=
  mkTimingOutputStatus (ts_state s) (ts_provider s) x (ts_peers s) (ts_source s) (ts_deck_number
    s) (ts_bpm_milli s) (ts_beat_within_bar s) (ts_playing s) (ts_generation s)
    (ts_last_anchor_at s) (ts_last_anchor_age_millis s) (ts_phase_error_micros s)
    (ts_received_anchor_count s) (ts_applied_anchor_count s) (ts_coalesced_anchor_count s)
    (ts_hard_reanchor_count s) (ts_soft_correction_count s) (ts_fail_closed_count s)
    (ts_failure_count s) (ts_max_abs_phase_error_micros s) (ts_last_reanchor s) (ts_last_event
    s) (ts_last_error s).

Definition set_ts_peers (x : Z) (s : TimingOutputStatus) : TimingOutputStatus :=
  mkTimingOutputStatus (ts_state s) (ts_provider s) (ts_helper_version s) x (ts_source s)
    (ts_deck_number s) (ts_bpm_milli s) (ts_beat_within_bar s) (ts_playing s) (ts_generation s)
    (ts_last_anchor_at s) (ts_last_anchor_age_millis s) (ts_phase_error_micros s)
    (ts_received_anchor_count s) (ts_applied_anchor_count s) (ts_coalesced_anchor_count s)
    (ts_hard_reanchor_count s) (ts_soft_correction_count s) (ts_fail_closed_count s)
    (ts_failure_count s) (ts_max_abs_phase_error_micros s) (ts_last_reanchor s) (ts_last_event
    s) (ts_last_error s).

Definition set_ts_playing (x : bool) (s : TimingOutputStatus) : TimingOutputStatus :=
  mkTimingOutputStatus (ts_state s) (ts_provider s) (ts_helper_version s) (ts_peers s)
    (ts_source s) (ts_deck_number s) (ts_bpm_milli s) (ts_beat_within_bar s) x (ts_generation s)
    (ts_last_anchor_at s) (ts_last_anchor_age_millis s) (ts_phase_error_micros s)
    (ts_received_anchor_count s) (ts_applied_anchor_count s) (ts_coalesced_anchor_count s)
    (ts_hard_reanchor_count s) (ts_soft_correction_count s) (ts_fail_closed_count s)
    (ts_failure_count s) (ts_max_abs_phase_error_micros s) (ts_last_reanchor s) (ts_last_event
    s) (ts_last_error s).

Definition set_ts_last_anchor_age_millis (x : option Z) (s : TimingOutputStatus) : TimingOutputStatus :=
  mkTimingOutputStatus (ts_state s) (ts_provider s) (ts_helper_version s) (ts_peers s)
    (ts_source s) (ts_deck_number s) (ts_bpm_milli s) (ts_beat_within_bar s) (ts_playing s)
    (ts_generation s) (ts_last_anchor_at s) x (ts_phase_error_micros s)
    (ts_received_anchor_count s) (ts_applied_anchor_count s) (ts_coalesced_anchor_count s)
    (ts_hard_reanchor_count s) (ts_soft_correction_count s) (ts_fail_closed_count s)
    (ts_failure_count s) (ts_max_abs_phase_error_micros s) (ts_last_reanchor s) (ts_last_event
    s) (ts_last_error s).

Definition set_ts_received_anchor_count (x : Z) (s : TimingOutputStatus) : TimingOutputStatus :=
  mkTimingOutputStatus (ts_state s) (ts_provider s) (ts_helper_version s) (ts_peers s)
    (ts_source s) (ts_deck_number s) (ts_bpm_milli s) (ts_beat_within_bar s) (ts_playing s)
    (ts_generation s) (ts_last_anchor_at s) (ts_last_anchor_age_millis s) (ts_phase_error_micros
    s) x (ts_applied_anchor_count s) (ts_coalesced_anchor_count s) (ts_hard_reanchor_count s)
    (ts_soft_correction_count s) (ts_fail_closed_count s) (ts_failure_count s)
    (ts_max_abs_phase_error_micros s) (ts_last_reanchor s) (ts_last_event s) (ts_last_error s).

Definition set_ts_coalesced_anchor_count (x : Z) (s : TimingOutputStatus) : TimingOutputStatus :=
  mkTimingOutputStatus (ts_state s) (ts_provider s) (ts_helper_version s) (ts_peers s)
    (ts_source s) (ts_deck_number s) (ts_bpm_milli s) (ts_beat_within_bar s) (ts_playing s)
    (ts_generation s) (ts_last_anchor_at s) (ts_last_anchor_age_millis s) (ts_phase_error_micros
    s) (ts_received_anchor_count s) (ts_applied_anchor_count s) x (ts_hard_reanchor_count s)
    (ts_soft_correction_count s) (ts_fail_closed_count s) (ts_failure_count s)
    (ts_max_abs_phase_error_micros s) (ts_last_reanchor s) (ts_last_event s) (ts_last_error s).

Definition set_ts_fail_closed_count (x : Z) (s : TimingOutputStatus) : TimingOutputStatus :=
  mkTimingOutputStatus (ts_state s) (ts_provider s) (ts_helper_version s) (ts_peers s)
    (ts_source s) (ts_deck_number s) (ts_bpm_milli s) (ts_beat_within_bar s) (ts_playing s)
    (ts_generation s) (ts_last_anchor_at s) (ts_last_anchor_age_millis s) (ts_phase_error_micros
    s) (ts_received_anchor_count s) (ts_applied_anchor_count s) (ts_coalesced_anchor_count s)
    (ts_hard_reanchor_count s) (ts_soft_correction_count s) x (ts_failure_count s)
    (ts_max_abs_phase_error_micros s) (ts_last_reanchor s) (ts_last_event s) (ts_last_error s).

Definition set_ts_failure_count (x : Z) (s : TimingOutputStatus) : TimingOutputStatus :=
  mkTimingOutputStatus (ts_state s) (ts_provider s) (ts_helper_version s) (ts_peers s)
    (ts_source s) (ts_deck_number s) (ts_bpm_milli s) (ts_beat_within_bar s) (ts_playing s)
    (ts_generation s) (ts_last_anchor_at s) (ts_last_anchor_age_millis s) (ts_phase_error_micros
    s) (ts_received_anchor_count s) (ts_applied_anchor_count s) (ts_coalesced_anchor_count s)
    (ts_hard_reanchor_count s) (ts_soft_correction_count s) (ts_fail_closed_count s) x
    (ts_max_abs_phase_error_micros s) (ts_last_reanchor s) (ts_last_event s) (ts_last_error s).

Definition set_ts_last_event (x : option str) (s : TimingOutputStatus) : TimingOutputStatus :=
  mkTimingOutputStatus (ts_state s) (ts_provider s) (ts_helper_version s) (ts_peers s)
    (ts_source s) (ts_deck_number s) (ts_bpm_milli s) (ts_beat_within_bar s) (ts_playing s)
    (ts_generation s) (ts_last_anchor_at s) (ts_last_anchor_age_millis s) (ts_phase_error_micros
    s) (ts_received_anchor_count s) (ts_applied_anchor_count s) (ts_coalesced_anchor_count s)
    (ts_hard_reanchor_count s) (ts_soft_correction_count s) (ts_fail_closed_count s)
    (ts_failure_count s) (ts_max_abs_phase_error_micros s) (ts_last_reanchor s) x (ts_last_error
    s).

Definition set_ts_last_error (x : option str) (s : TimingOutputStatus) : TimingOutputStatus :=
  mkTimingOutputStatus (ts_state s) (ts_provider s) (ts_helper_version s) (ts_peers s)
    (ts_source s) (ts_deck_number s) (ts_bpm_milli s) (ts_beat_within_bar s) (ts_playing s)
    (ts_generation s) (ts_last_anchor_at s) (ts_last_anchor_age_millis s) (ts_phase_error_micros
    s) (ts_received_anchor_count s) (ts_applied_anchor_count s) (ts_coalesced_anchor_count s)
    (ts_hard_reanchor_count s) (ts_soft_correction_count s) (ts_fail_closed_count s)
    (ts_failure_count s) (ts_max_abs_phase_error_micros s) (ts_last_reanchor s) (ts_last_event
    s) x.

Definition TimingOutputStatus_default : TimingOutputStatus :=
  mkTimingOutputStatus TOStopped (lit "Carabiner") None 0 None None None None false None None None None
    0 0 0 0 0 0 0 0 None None None.

(** ** The port *)

Class TimingOutputProvider (P E : Type) := {
  timing_provider_kind : P → str;
  timing_publish : method P E unit;
  timing_request_publish : method P E unit;
  timing_synchronize : LinkClockObservation → method P E unit;
  timing_hold : method P E unit;
  timing_fail_closed : str → method P E unit;
  timing_stop : method P E unit;
  timing_status : P → TimingOutputStatus;
  timing_error_message : E → str;
}.

(** The body the trait gives [fail_closed]. *)
Definition default_fail_closed {P E} `{TimingOutputProvider P E} (reason : str) : method P E unit := timing_hold.

(** ** The helper and the operating system *)

(** [W] is the state of the system, [C] of a connection, [K] of a child process.  A socket
    delivers lines, of which an empty one is the end of the stream, or errors; the list of
    what follows a command ends where the next read would wait. *)
Class CarabinerPeer (W C K : Type) := {
  tcp_connect : Z → W → W * result C str;
  tcp_greeting : C → list (result str str);
  tcp_write : str → C → C * result (list (result str str)) str;
  read_timed_out : str;
  process_spawn : str → list str → W → W * result K str;
  (** [try_wait]: whether the process has exited. *)
  process_exited : K → W → W * result bool str;
  (** [kill]: whether it succeeded. *)
  process_kill : K → W → W * bool;
}.

Definition CARABINER_DEFAULT_PORT : Z := 17001.
Definition CARABINER_EXPECTED_VERSION : str := lit "1.2.0".
Definition START_RETRIES : nat := 30.
Definition MAX_SHARED_EPOCH_SKEW_MICROS : Z := 5000000.

(** [CHILD_TERMINATION_TIMEOUT / PROCESS_POLL_INTERVAL]: each poll of the loop of
    [terminate_child] sleeps that interval. *)
Definition TERMINATION_POLLS : nat := 75.

Record CarabinerConfiguration := mkCarabinerConfiguration {
  cc_executable : option str;
  cc_port : Z;
  cc_expected_version : str;
}.

Definition CarabinerConfiguration_default : CarabinerConfiguration :=
  mkCarabinerConfiguration None CARABINER_DEFAULT_PORT CARABINER_EXPECTED_VERSION.

Inductive CarabinerError : Type :=
| WorkerUnavailable
| InvalidAnchor (message : str)
| HelperFailed (message : str).

Definition carabiner_message (e : CarabinerError) : str :=
  match e with
  | WorkerUnavailable => lit "the Ableton Link timing worker is unavailable"
  | InvalidAnchor m => lit "invalid timing anchor: " ++ m
  | HelperFailed m => lit "Carabiner failed: " ++ m
  end.

(** The commands; [reply] says whether the sender waits for an answer. *)
Inductive WorkerCommand : Type :=
| WPublish (reply : bool)
| WSynchronize (generation : Z)
| WHold
| WFailClosed (reason : str)
| WStop
| WShutdown.

Record PendingAnchor := mkPendingAnchor {
  pa_generation : Z;
  pa_latest : option LinkClockObservation;
}.

(** ** The session *)

Record LinkSnapshot := mkLinkSnapshot {
  ls_peers : Z;
  ls_bpm : f64;
  ls_start_micros : Z;
  ls_beat : f64;
}.

(** [self.beat * 60_000_000.0 / self.bpm] *)
Definition timeline_micros (s : LinkSnapshot) : Z :=
  let elapsed := f64_max (f64_div (f64_mul (ls_beat s) (f64_of_Z 60000000)) (ls_bpm s)) f64_zero in
  saturating_add_u64 (ls_start_micros s) (f64_as_u64 (f64_round elapsed)).

Fixpoint starts_with (prefix s : str) : bool :=
  match prefix, s with
  | [], _ => true
  | p :: prefix, c :: s => (p =? c) && starts_with prefix s
  | _ :: _, [] => false
  end.

(** [s.trim_end_matches(c)], [s.trim_start_matches(c)] *)
Fixpoint trim_start_char (c : Z) (s : str) : str :=
  match s with
  | x :: s' => if x =? c then trim_start_char c s' else s
  | [] => []
  end.

Definition trim_end_char (c : Z) (s : str) : str := reverse (trim_start_char c (reverse s)).

(** The second of the first two neighbours of which the first is [name]. *)
Fixpoint value_after (name : str) (words : list str) : option str :=
  match words with
  | a :: (b :: _) as rest => if bool_decide (a = name) then Some b else value_after name rest
  | _ => None
  end.

Definition parse_field {T} (parse : str → option T) (line name : str) : result T str :=
  match value_after name (split_whitespace line) with
  | None => Err (lit "missing " ++ name ++ lit " in Carabiner status")
  | Some value => ok_or (parse (trim_end_char 125 value)) (lit "invalid " ++ name ++ lit " in Carabiner status")
  end.

Definition parse_status (line : str) : result LinkSnapshot str :=
  let? peers := parse_field (parse_unsigned U32_MAX) line (lit ":peers") in
  let? bpm := parse_field parse_f64 line (lit ":bpm") in
  let? start := parse_field (parse_unsigned U64_MAX) line (lit ":start") in
  let? beat := parse_field parse_f64 line (lit ":beat") in
  Ok (mkLinkSnapshot peers bpm start beat).

Section Carabiner.
Context {W C K : Type} `{CarabinerPeer W C K}.

Record CarabinerSession := mkCarabinerSession {
  cs_writer : C;
  cs_incoming : list (result str str);
}.

Notation session A := (method CarabinerSession str A).

(** The loop of [read_until]. *)
Fixpoint session_lines (response_prefix : str) (incoming : list (result str str)) :
    list (result str str) * result str str :=
  match incoming with
  | [] => ([], Err read_timed_out)
  | Err e :: incoming => (incoming, Err e)
  | Ok [] :: incoming => (incoming, Err (lit "Carabiner closed the timing connection"))
  | Ok line :: incoming =>
      let line := trim line in
      if starts_with response_prefix line then (incoming, Ok line)
      else if starts_with (lit "bad-") line || starts_with (lit "unsupported") line then (incoming, Err line)
      else session_lines response_prefix incoming
  end.

Definition read_until (response_prefix : str) : session str := λ s,
  let '(incoming, r) := session_lines response_prefix (cs_incoming s) in
  (mkCarabinerSession (cs_writer s) incoming, r).

(** The command and its newline are written, then the answer is read. *)
Definition session_command (command response_prefix : str) : session str :=
  do! (λ s, let '(writer, r) := tcp_write (command ++ [10]) (cs_writer s) in
            match r with
            | Ok delivered => (mkCarabinerSession writer (cs_incoming s ++ delivered), Ok tt)
            | Err e => (mkCarabinerSession writer (cs_incoming s), Err e)
            end) then
  read_until response_prefix.

Definition session_connect (port : Z) (w : W) : W * result CarabinerSession str :=
  let '(w, r) := tcp_connect port w in
  (w, let? writer := r in
      let '(s, greeting) := read_until (lit "status ") (mkCarabinerSession writer (tcp_greeting writer)) in
      let? _ := greeting in Ok s).

Definition session_version : session str :=
  let! response := session_command (lit "version") (lit "version ") in
  method_result
    (match (λ value, trim_end_char 34 (trim_start_char 34 (trim value))) <$> strip_prefix (lit "version ") response with
     | Some (c :: value) => Ok (c :: value)
     | _ => Err (lit "invalid version response: " ++ response)
     end).

Definition session_status : session LinkSnapshot :=
  let! response := session_command (lit "status") (lit "status ") in
  method_result (parse_status response).

Definition bpm_command (bpm_milli : Z) : str :=
  lit "bpm " ++ show_f64_3 (f64_div (f64_of_Z bpm_milli) (f64_of_Z 1000)).

Definition session_set_bpm (bpm_milli : Z) : session unit :=
  do! session_command (bpm_command bpm_milli) (lit "status ") then method_ret tt.

(** ** Phase *)

Definition positive_modulo (value quantum : f64) : f64 :=
  f64_rem (f64_add (f64_rem value quantum) quantum) quantum.

Definition projected_phase (anchor_phase micros_per_beat : f64) (anchor_time_micros target_time_micros : Z) : f64 :=
  let elapsed_micros := target_time_micros - anchor_time_micros in
  positive_modulo (f64_add anchor_phase (f64_div (f64_of_Z elapsed_micros) micros_per_beat)) (f64_of_Z 4).

Definition shortest_phase_delta (current target quantum : f64) : f64 :=
  let delta := f64_sub target current in
  let half := f64_div quantum (f64_of_Z 2) in
  if f64_ltb half delta then f64_sub delta quantum
  else if f64_ltb delta (f64_opp half) then f64_add delta quantum
  else delta.

Record AnchorOutcome := mkAnchorOutcome {
  ao_peers : Z;
  ao_phase_error_micros : option Z;
  ao_reanchored : bool;
  ao_corrected : bool;
  ao_alignment_reason : option TimingDiscontinuity;
  ao_event : str;
}.

Definition tempo_changed (previous : option LinkClockObservation) (anchor : LinkClockObservation) : bool :=
  match previous with
  | None => true
  | Some value => negb (lco_bpm_milli value =? lco_bpm_milli anchor)
  end.

Definition apply_anchor (previous : option LinkClockObservation) (anchor : LinkClockObservation) :
    session AnchorOutcome :=
  let changed := tempo_changed previous anchor in
  do! (if changed then session_set_bpm (lco_bpm_milli anchor) else method_ret tt) then
  let! snapshot := session_status in
  let target_phase := f64_of_Z (phase_beat anchor) in
  let snapshot_time := timeline_micros snapshot in
  let shared_epoch_time :=
    match lco_observed_at_micros anchor with
    | Some observed => if Z.abs (observed - snapshot_time) <=? MAX_SHARED_EPOCH_SKEW_MICROS then Some observed else None
    | None => None
    end in
  let anchor_time := default snapshot_time shared_epoch_time in
  let micros_per_beat :=
    f64_div (f64_of_Z 60000000) (f64_div (f64_of_Z (lco_bpm_milli anchor)) (f64_of_Z 1000)) in
  let expected_phase := projected_phase target_phase micros_per_beat anchor_time snapshot_time in
  let current_phase := positive_modulo (ls_beat snapshot) (f64_of_Z 4) in
  let phase_beats := shortest_phase_delta current_phase expected_phase (f64_of_Z 4) in
  let phase_error_micros := f64_as_i64 (f64_round (f64_mul phase_beats micros_per_beat)) in
  method_ret (mkAnchorOutcome (ls_peers snapshot) (Some phase_error_micros) false false None
    (if bool_decide (is_Some (lco_observed_at_micros anchor)) && bool_decide (shared_epoch_time = None)
     then lit "Ableton Link synchronized with receive-time fallback"
     else if changed then lit "Ableton Link tempo updated with phase preserved"
     else lit "Ableton Link tempo unchanged")).

(** ** The shared state and the locals of the worker *)

Record CarabinerTimingOutput := mkCarabinerTimingOutput {
  ct_configuration : CarabinerConfiguration;
  ct_commands : list WorkerCommand;
  ct_latest_anchor : PendingAnchor;
  ct_status : TimingOutputStatus;
  ct_shutting_down : bool;
  ct_owned_child : option K;
  (** Whether the worker still receives. *)
  ct_running : bool;
  (** The answers sent to callers that wait. *)
  ct_replies : list (result unit str);
  ct_session : option CarabinerSession;
  ct_last_anchor : option LinkClockObservation;
  ct_recovery_requires_publish : bool;
  ct_world : W;
}.

Definition set_ct_commands (x : list WorkerCommand) (s : CarabinerTimingOutput) : CarabinerTimingOutput :=
  mkCarabinerTimingOutput (ct_configuration s) x (ct_latest_anchor s) (ct_status s)
    (ct_shutting_down s) (ct_owned_child s) (ct_running s) (ct_replies s) (ct_session s)
    (ct_last_anchor s) (ct_recovery_requires_publish s) (ct_world s).

Definition set_ct_latest_anchor (x : PendingAnchor) (s : CarabinerTimingOutput) : CarabinerTimingOutput :=
  mkCarabinerTimingOutput (ct_configuration s) (ct_commands s) x (ct_status s) (ct_shutting_down
    s) (ct_owned_child s) (ct_running s) (ct_replies s) (ct_session s) (ct_last_anchor s)
    (ct_recovery_requires_publish s) (ct_world s).

Definition set_ct_status (x : TimingOutputStatus) (s : CarabinerTimingOutput) : CarabinerTimingOutput :=
  mkCarabinerTimingOutput (ct_configuration s) (ct_commands s) (ct_latest_anchor s) x
    (ct_shutting_down s) (ct_owned_child s) (ct_running s) (ct_replies s) (ct_session s)
    (ct_last_anchor s) (ct_recovery_requires_publish s) (ct_world s).

Definition set_ct_shutting_down (x : bool) (s : CarabinerTimingOutput) : CarabinerTimingOutput :=
  mkCarabinerTimingOutput (ct_configuration s) (ct_commands s) (ct_latest_anchor s) (ct_status
    s) x (ct_owned_child s) (ct_running s) (ct_replies s) (ct_session s) (ct_last_anchor s)
    (ct_recovery_requires_publish s) (ct_world s).

Definition set_ct_owned_child (x : option K) (s : CarabinerTimingOutput) : CarabinerTimingOutput :=
  mkCarabinerTimingOutput (ct_configuration s) (ct_commands s) (ct_latest_anchor s) (ct_status
    s) (ct_shutting_down s) x (ct_running s) (ct_replies s) (ct_session s) (ct_last_anchor s)
    (ct_recovery_requires_publish s) (ct_world s).

Definition set_ct_running (x : bool) (s : CarabinerTimingOutput) : CarabinerTimingOutput :=
  mkCarabinerTimingOutput (ct_configuration s) (ct_commands s) (ct_latest_anchor s) (ct_status
    s) (ct_shutting_down s) (ct_owned_child s) x (ct_replies s) (ct_session s) (ct_last_anchor
    s) (ct_recovery_requires_publish s) (ct_world s).

Definition set_ct_replies (x : list (result unit str)) (s : CarabinerTimingOutput) : CarabinerTimingOutput :=
  mkCarabinerTimingOutput (ct_configuration s) (ct_commands s) (ct_latest_anchor s) (ct_status
    s) (ct_shutting_down s) (ct_owned_child s) (ct_running s) x (ct_session s) (ct_last_anchor
    s) (ct_recovery_requires_publish s) (ct_world s).

Definition set_ct_session (x : option CarabinerSession) (s : CarabinerTimingOutput) : CarabinerTimingOutput :=
  mkCarabinerTimingOutput (ct_configuration s) (ct_commands s) (ct_latest_anchor s) (ct_status
    s) (ct_shutting_down s) (ct_owned_child s) (ct_running s) (ct_replies s) x (ct_last_anchor
    s) (ct_recovery_requires_publish s) (ct_world s).

Definition set_ct_last_anchor (x : option LinkClockObservation) (s : CarabinerTimingOutput) : CarabinerTimingOutput :=
  mkCarabinerTimingOutput (ct_configuration s) (ct_commands s) (ct_latest_anchor s) (ct_status
    s) (ct_shutting_down s) (ct_owned_child s) (ct_running s) (ct_replies s) (ct_session s) x
    (ct_recovery_requires_publish s) (ct_world s).

Definition set_ct_recovery_requires_publish (x : bool) (s : CarabinerTimingOutput) : CarabinerTimingOutput :=
  mkCarabinerTimingOutput (ct_configuration s) (ct_commands s) (ct_latest_anchor s) (ct_status
    s) (ct_shutting_down s) (ct_owned_child s) (ct_running s) (ct_replies s) (ct_session s)
    (ct_last_anchor s) x (ct_world s).

Definition set_ct_world (x : W) (s : CarabinerTimingOutput) : CarabinerTimingOutput :=
  mkCarabinerTimingOutput (ct_configuration s) (ct_commands s) (ct_latest_anchor s) (ct_status
    s) (ct_shutting_down s) (ct_owned_child s) (ct_running s) (ct_replies s) (ct_session s)
    (ct_last_anchor s) (ct_recovery_requires_publish s) x.

Notation carabiner E A := (method CarabinerTimingOutput E A).

Definition update_status {E} (f : TimingOutputStatus → TimingOutputStatus) : carabiner E unit :=
  method_modify (λ t, set_ct_status (f (ct_status t)) t).

Definition set_degraded {E} (error : str) : carabiner E unit :=
  update_status (λ s, set_ts_last_error (Some error)
    (set_ts_failure_count (saturating_add_u64 (ts_failure_count s) 1) (set_ts_state TODegraded s))).

(** *** The child process *)

(** The loop of [terminate_child]; nothing but the system changes. *)
Fixpoint poll_exit (polls : nat) (child : K) (w : W) : W :=
  match polls with
  | O => w
  | S polls =>
      let '(w, r) := process_exited child w in
      match r with Ok false => poll_exit polls child w | _ => w end
  end.

Definition terminate_child {E} : carabiner E unit := λ t,
  match ct_owned_child t with
  | None => (t, Ok tt)
  | Some child =>
      let t := set_ct_owned_child None t in
      let '(w, r) := process_exited child (ct_world t) in
      match r with
      | Ok true => (set_ct_world w t, Ok tt)
      | _ =>
          let '(w, killed) := process_kill child w in
          (set_ct_world (if killed then poll_exit TERMINATION_POLLS child w else w) t, Ok tt)
      end
  end.

Definition managed_helper_arguments (port : Z) : list str :=
  [lit "--port=" ++ show_u port; lit "--poll=10"].

(** [CarabinerSession::connect(configuration.port)] *)
Definition connect : carabiner str CarabinerSession := λ t,
  let '(w, r) := session_connect (cc_port (ct_configuration t)) (ct_world t) in (set_ct_world w t, r).

Fixpoint connect_retry (retries : nat) : carabiner str CarabinerSession :=
  match retries with
  | O => method_fail (lit "managed Carabiner did not open its loopback port")
  | S retries => λ t,
      let '(t, r) := connect t in
      match r with Ok s => (t, Ok s) | Err _ => connect_retry retries t end
  end.

(** A child that exited is forgotten, one that runs is terminated. *)
Definition discard_child : carabiner str unit := λ t,
  match ct_owned_child t with
  | None => (t, Ok tt)
  | Some child =>
      let '(w, r) := process_exited child (ct_world t) in
      let t := set_ct_world w t in
      match r with
      | Ok false => terminate_child t
      | _ => (set_ct_owned_child None t, Ok tt)
      end
  end.

Definition launch (executable : str) : carabiner str unit := λ t,
  let '(w, r) := process_spawn executable (managed_helper_arguments (cc_port (ct_configuration t))) (ct_world t) in
  match r with
  | Ok child => (set_ct_owned_child (Some child) (set_ct_world w t), Ok tt)
  | Err e => (set_ct_world w t, Err (lit "could not launch " ++ executable ++ lit ": " ++ e))
  end.

(** The helper is launched when nothing listens on the port. *)
Definition launch_and_connect : carabiner str CarabinerSession :=
  let! executable := method_get (λ t, cc_executable (ct_configuration t)) in
  let! executable := method_result (ok_or executable (lit "managed Carabiner executable is unavailable")) in
  do! discard_child then
  do! launch executable then
  connect_retry START_RETRIES.

Definition connect_or_launch : carabiner str CarabinerSession := λ t,
  let '(t, r) := connect t in
  match r with Ok s => (t, Ok s) | Err _ => launch_and_connect t end.

(** A command to a session that is not yet the one of the worker. *)
Definition on_session {A} (s : CarabinerSession) (m : session A) : carabiner str (CarabinerSession * A) :=
  let '(s, r) := m s in method_result (let? a := r in Ok (s, a)).

Definition open_session : carabiner str unit :=
  let! connected := connect_or_launch in
  let! answer := on_session connected session_version in
  let '(connected, version) := answer in
  let! expected := method_get (λ t, cc_expected_version (ct_configuration t)) in
  if negb (bool_decide (version = expected)) then
    method_fail (lit "expected Carabiner " ++ expected ++ lit ", found " ++ version)
  else
    let! answer := on_session connected session_status in
    let '(connected, snapshot) := answer in
    do! update_status (λ s, set_ts_last_error None
          (set_ts_last_event (Some (lit "Ableton Link ready; waiting for timing source"))
          (set_ts_peers (ls_peers snapshot) (set_ts_helper_version (Some version) (set_ts_state TOReady s))))) then
    method_modify (set_ct_session (Some connected)).

(** *** The commands of the worker *)

Definition send_reply {E} (r : result unit str) : carabiner E unit :=
  method_modify (λ t, set_ct_replies (ct_replies t ++ [r]) t).

Definition starting_status (s : TimingOutputStatus) : TimingOutputStatus :=
  set_ts_last_error None (set_ts_last_event (Some (lit "Starting managed Ableton Link output"))
    (set_ts_state TOStarting s)).

(** [let result = m; ...]: the value or the error of a method. *)
Definition method_outcome {E F A} (m : carabiner E A) : carabiner F (result A E) := λ t,
  let '(t, r) := m t in (t, Ok r).

Definition worker_publish {E} (reply : bool) : carabiner E unit :=
  do! method_modify (set_ct_recovery_requires_publish false) then
  do! method_modify (set_ct_last_anchor None) then
  do! update_status starting_status then
  let! result := method_outcome open_session in
  do! match result with
      | Err error =>
          do! set_degraded error then method_modify (set_ct_recovery_requires_publish true)
      | Ok _ => method_ret tt
      end then
  if reply then send_reply result else method_ret tt.

(** The status after an anchor was applied. *)
Definition applied_status (now : Instant) (anchor : LinkClockObservation) (outcome : AnchorOutcome)
    (s : TimingOutputStatus) : TimingOutputStatus :=
  let hard := if ao_reanchored outcome then saturating_add_u64 (ts_hard_reanchor_count s) 1
              else ts_hard_reanchor_count s in
  mkTimingOutputStatus (if lco_playing anchor then TORunning else TOReady) (ts_provider s) (ts_helper_version s)
    (ao_peers outcome) (Some (lco_source anchor)) (lco_deck_number anchor) (Some (lco_bpm_milli anchor))
    (Some (lco_beat_within_bar anchor)) (lco_playing anchor)
    (if ao_reanchored outcome then Some hard else ts_generation s) (Some now) (Some 0)
    (ao_phase_error_micros outcome) (ts_received_anchor_count s)
    (saturating_add_u64 (ts_applied_anchor_count s) 1) (ts_coalesced_anchor_count s) hard
    (if negb (ao_reanchored outcome) && ao_corrected outcome
     then saturating_add_u64 (ts_soft_correction_count s) 1 else ts_soft_correction_count s)
    (ts_fail_closed_count s) (ts_failure_count s)
    (Z.max (ts_max_abs_phase_error_micros s) (Z.abs (default 0 (ao_phase_error_micros outcome))))
    (if ao_reanchored outcome then ao_alignment_reason outcome else ts_last_reanchor s)
    (Some (ao_event outcome)) None.

(** [latest_anchor] of the generation of the wake-up, taken. *)
Definition take_anchor {E} (generation : Z) : carabiner E (option LinkClockObservation) := λ t,
  let pending := ct_latest_anchor t in
  if pa_generation pending =? generation
  then (set_ct_latest_anchor (mkPendingAnchor (pa_generation pending) None) t, Ok (pa_latest pending))
  else (t, Ok None).

Definition SESSION_UNAVAILABLE : str :=
  lit "Ableton Link session is unavailable; disable and enable Link to recover".

(** An anchor that was taken. *)
Definition worker_anchor {E} (now : Instant) (anchor : LinkClockObservation) : carabiner E unit :=
  let! recovery := method_get ct_recovery_requires_publish in
  if recovery : bool then method_ret tt
  else
    let! connected := method_get ct_session in
    match connected with
    | None =>
        do! set_degraded SESSION_UNAVAILABLE then
        method_modify (set_ct_recovery_requires_publish true)
    | Some connected =>
        let! last_anchor := method_get ct_last_anchor in
        match apply_anchor last_anchor anchor connected with
        | (connected, Ok outcome) =>
            do! method_modify (set_ct_session (Some connected)) then
            do! method_modify (set_ct_last_anchor (Some anchor)) then
            update_status (applied_status now anchor outcome)
        | (connected, Err error) =>
            do! set_degraded error then
            do! method_modify (set_ct_session None) then
            method_modify (set_ct_recovery_requires_publish true)
        end
    end.

Definition worker_synchronize {E} (now : Instant) (generation : Z) : carabiner E unit :=
  let! anchor := take_anchor generation in
  match anchor with
  | None => method_ret tt
  | Some anchor => worker_anchor now anchor
  end.

Definition worker_hold {E} : carabiner E unit :=
  update_status (λ s, set_ts_last_event (Some (lit "Ableton Link source held; tempo preserved"))
    (set_ts_playing false (set_ts_state TOReady s))).

Definition worker_fail_closed {E} (reason : str) : carabiner E unit :=
  update_status (λ s, set_ts_last_error (Some reason)
    (set_ts_last_event (Some (lit "Ableton Link source unavailable; last tempo preserved"))
    (set_ts_fail_closed_count (saturating_add_u64 (ts_fail_closed_count s) 1)
    (set_ts_playing false (set_ts_state TODegraded s))))).

Definition worker_stop {E} : carabiner E unit :=
  do! method_modify (set_ct_session None) then
  do! method_modify (set_ct_recovery_requires_publish false) then
  do! terminate_child then
  do! method_modify (set_ct_last_anchor None) then
  do! update_status (λ s, set_ts_last_event (Some (lit "Ableton Link stopped safely"))
        (set_ts_helper_version (ts_helper_version s) TimingOutputStatus_default)) then
  send_reply (Ok tt).

Definition worker_command {E} (now : Instant) (command : WorkerCommand) : carabiner E unit :=
  let! shutting_down := method_get ct_shutting_down in
  match command with
  | WShutdown =>
      do! method_modify (set_ct_running false) then
      terminate_child
  | _ =>
      if shutting_down : bool then method_ret tt
      else
        match command with
        | WPublish reply => worker_publish reply
        | WSynchronize generation => worker_synchronize now generation
        | WHold => worker_hold
        | WFailClosed reason => worker_fail_closed reason
        | WStop => worker_stop
        | WShutdown => method_ret tt
        end
  end.

(** One turn of [run_worker]: the next command, when there is one. *)
Definition worker_turn (now : Instant) : carabiner CarabinerError unit := λ t,
  match ct_commands t with
  | command :: commands =>
      if ct_running t then worker_command now command (set_ct_commands commands t) else (t, Ok tt)
  | [] => (t, Ok tt)
  end.

(** *** The callers *)

Definition CarabinerTimingOutput_new (configuration : CarabinerConfiguration) (spawned : bool) (w : W) :
    CarabinerTimingOutput :=
  mkCarabinerTimingOutput configuration [] (mkPendingAnchor 0 None) TimingOutputStatus_default false None spawned []
    None None false w.

Definition send (command : WorkerCommand) : carabiner CarabinerError unit := λ t,
  if ct_running t then (set_ct_commands (ct_commands t ++ [command]) t, Ok tt)
  else (t, Err WorkerUnavailable).

Definition publish_async : carabiner CarabinerError unit :=
  do! update_status starting_status then send (WPublish false).

Definition enqueue_source_barrier (command : WorkerCommand) : carabiner CarabinerError unit :=
  do! method_modify (λ t, set_ct_latest_anchor
        (mkPendingAnchor (wrapping_add_u64 (pa_generation (ct_latest_anchor t)) 1) None) t) then
  send command.

Definition carabiner_fail_closed (reason : str) : carabiner CarabinerError unit :=
  enqueue_source_barrier (WFailClosed reason).

Definition carabiner_hold : carabiner CarabinerError unit := enqueue_source_barrier WHold.

Definition carabiner_synchronize (observation : LinkClockObservation) : carabiner CarabinerError unit :=
  let! observation := method_result (map_err (λ e, InvalidAnchor (validation_message e))
    (LinkClockObservation_validate observation)) in
  let! pending := method_get ct_latest_anchor in
  do! method_modify (set_ct_latest_anchor (mkPendingAnchor (pa_generation pending) (Some observation))) then
  do! update_status (λ s,
        let s := set_ts_received_anchor_count (saturating_add_u64 (ts_received_anchor_count s) 1) s in
        if bool_decide (is_Some (pa_latest pending))
        then set_ts_coalesced_anchor_count (saturating_add_u64 (ts_coalesced_anchor_count s) 1) s else s) then
  if bool_decide (pa_latest pending = None) then send (WSynchronize (pa_generation pending)) else method_ret tt.

(** What a caller that waits makes of the answer it gets in time, if any. *)
Definition reply_result (answer : option (result unit str)) : result unit CarabinerError :=
  match answer with
  | Some r => map_err HelperFailed r
  | None => Err WorkerUnavailable
  end.

Definition carabiner_publish (answer : option (result unit str)) : carabiner CarabinerError unit :=
  do! send (WPublish true) then method_result (reply_result answer).

(** [stop] is the request and, after the wait, what the caller does with the answer. *)
Definition carabiner_request_stop : carabiner CarabinerError unit := enqueue_source_barrier WStop.

Definition carabiner_stopped (answer : option (result unit str)) : carabiner CarabinerError unit :=
  do! (if bool_decide (answer = None) then terminate_child else method_ret tt) then
  method_result (reply_result answer).

Definition carabiner_stop (answer : option (result unit str)) : carabiner CarabinerError unit :=
  do! carabiner_request_stop then carabiner_stopped answer.

(** [status]: [now - observed] in milliseconds. *)
Definition carabiner_status (now : Instant) (t : CarabinerTimingOutput) : TimingOutputStatus :=
  set_ts_last_anchor_age_millis
    ((λ observed, Z.min (Z.max 0 (now - observed) / 1000000) U64_MAX) <$> ts_last_anchor_at (ct_status t))
    (ct_status t).

(** [drop], up to the bounded wait for the worker. *)
Definition carabiner_drop : carabiner CarabinerError unit := λ t,
  let '(t, _) := (do! method_modify (E := CarabinerError) (set_ct_shutting_down true) then terminate_child) t in
  let '(t, _) := send WShutdown t in
  (t, Ok tt).

(** [str::lines] *)
Fixpoint text_lines (line : str) (s : str) : list str :=
  match s with
  | [] => if bool_decide (line = []) then [] else [reverse line]
  | 10 :: s => reverse (match line with 13 :: line => line | _ => line end) :: text_lines [] s
  | c :: s => text_lines (c :: line) s
  end.

(** [self_test_helper]; [run] is what starting the executable with [--version] gives:
    whether it succeeded, its status in words, and its output when that is UTF-8. *)
Definition self_test_helper (run : str → result (bool * str * option str) str) :
    carabiner CarabinerError str := λ t,
  match cc_executable (ct_configuration t) with
  | None => (t, Err (HelperFailed (lit "managed executable is unavailable")))
  | Some executable =>
      match run executable with
      | Err error => (t, Err (HelperFailed error))
      | Ok (false, status, _) => (t, Err (HelperFailed (lit "version self-test exited with " ++ status)))
      | Ok (true, _, None) => (t, Err (HelperFailed (lit "version output was not UTF-8")))
      | Ok (true, _, Some stdout) =>
          let wanted := cc_expected_version (ct_configuration t) in
          let expected := lit "Carabiner version " ++ wanted in
          if existsb (λ line, bool_decide (trim line = expected)) (text_lines [] stdout) then
            (set_ct_status (set_ts_last_error None
               (set_ts_last_event (Some (lit "Ableton Link helper self-test passed; idle"))
               (set_ts_peers 0 (set_ts_helper_version (Some wanted) (set_ts_state TOStopped (ct_status t)))))) t,
             Ok wanted)
          else
            (t, Err (HelperFailed (lit "expected " ++ wanted ++ lit ", found " ++
               default (lit "no version") (head (text_lines [] stdout)))))
      end
  end.

(** *** The port, for callers that get the answer [answer] and read the clock at [now] *)

#[export] Instance carabiner_provider (answer : option (result unit str)) (now : Instant) :
    TimingOutputProvider CarabinerTimingOutput CarabinerError := {|
  timing_provider_kind _ := lit "abletonLink";
  timing_publish := carabiner_publish answer;
  timing_request_publish := publish_async;
  timing_synchronize := carabiner_synchronize;
  timing_hold := carabiner_hold;
  timing_fail_closed := carabiner_fail_closed;
  timing_stop := carabiner_stop answer;
  timing_status := carabiner_status now;
  timing_error_message := carabiner_message;
|}.
End Carabiner.

Arguments CarabinerSession C : clear implicits.
Arguments CarabinerTimingOutput W C K : clear implicits.
