(* ===== verification/TimingOutputProps.v ===== *)
(** * Musical timing output: correctness

    The queue of the Ableton Link adapter refines a mailbox in which observations
    coalesce and a barrier discards what precedes it; the adapter never sends anything but
    a tempo or a query; and after a failure it reaches no helper until it is published
    again. *)

From stdpp Require Import prelude list strings.
From Stdlib Require Import ZArith Lia.
From Stdlib Require Import Floats.SpecFloat.
From S2P Require Import Prelude.
From S2P Require Import Float64.
From S2P Require Import ProLinkProvider.
From S2P Require Import TimingOutput.
Open Scope Z_scope.

(** ** The mailbox *)

Inductive Work : Type :=
| DoPublish (reply : bool)
| DoApply (observation : LinkClockObservation)
| DoHold
| DoFailClosed (reason : str)
| DoStop.

Definition is_apply (w : Work) : bool := match w with DoApply _ => true | _ => false end.

(** An observation replaces the one that waits, or waits behind the others. *)
Definition mail_observation (o : LinkClockObservation) (q : list Work) : list Work :=
  if existsb is_apply q then (λ w, if is_apply w then DoApply o else w) <$> q else q ++ [DoApply o].

(** A barrier discards the observation that waits. *)
Definition mail_barrier (w : Work) (q : list Work) : list Work := filter (λ w, is_apply w = false) q ++ [w].

Section Queue.
Context {W C K : Type} `{CarabinerPeer W C K}.
Implicit Types t : CarabinerTimingOutput W C K.

(** The work a queued command stands for; a wake-up of an earlier generation is none. *)
Definition work_of (pending : PendingAnchor) (command : WorkerCommand) : option Work :=
  match command with
  | WPublish reply => Some (DoPublish reply)
  | WSynchronize g => if g =? pa_generation pending then DoApply <$> pa_latest pending else None
  | WHold => Some DoHold
  | WFailClosed reason => Some (DoFailClosed reason)
  | WStop => Some DoStop
  | WShutdown => None
  end.

Definition pending_work t : list Work := omap (work_of (ct_latest_anchor t)) (ct_commands t).

(** What the worker does with one piece of work. *)
Definition do_work (now : Instant) (w : Work) : method (CarabinerTimingOutput W C K) CarabinerError unit :=
  match w with
  | DoPublish reply => worker_publish reply
  | DoApply o => worker_anchor now o
  | DoHold => worker_hold
  | DoFailClosed reason => worker_fail_closed reason
  | DoStop => worker_stop
  end.

(** The steps of the callers and of the worker, without the end of the adapter. *)
Inductive TimingAction : Type :=
| TPublishAsync
| TPublish (answer : option (result unit str))
| TSynchronize (o : LinkClockObservation)
| THold
| TFailClosed (reason : str)
| TRequestStop
| TStopped (answer : option (result unit str))
| TWorker (now : Instant).

Definition timing_act (a : TimingAction) : method (CarabinerTimingOutput W C K) CarabinerError unit :=
  match a with
  | TPublishAsync => publish_async
  | TPublish answer => carabiner_publish answer
  | TSynchronize o => carabiner_synchronize o
  | THold => carabiner_hold
  | TFailClosed reason => carabiner_fail_closed reason
  | TRequestStop => carabiner_request_stop
  | TStopped answer => carabiner_stopped answer
  | TWorker now => worker_turn now
  end.

Definition timing_run t (actions : list TimingAction) : CarabinerTimingOutput W C K :=
  foldl (λ t a, (timing_act a t).1) t actions.

(** ** The parts of the state the worker does not touch *)

Definition queue_part t := (ct_commands t, ct_latest_anchor t, ct_running t, ct_shutting_down t, ct_configuration t).

Notation keeps_queue m := (∀ x, keeps (λ t, queue_part t = x) m).

Lemma queue_modify {E} (f : CarabinerTimingOutput W C K → CarabinerTimingOutput W C K) x :
  (∀ t, queue_part (f t) = queue_part t) → keeps (λ t, queue_part t = x) (method_modify (E := E) f).
Proof. intros Hf t Ht. simpl. by rewrite Hf. Qed.

(** Reaching the helper changes nothing but the system and the child. *)
Definition rest_part t :=
  (ct_configuration t, ct_commands t, ct_latest_anchor t, ct_status t, ct_shutting_down t, ct_running t,
   ct_replies t, ct_session t, ct_last_anchor t, ct_recovery_requires_publish t).

Notation keeps_rest m := (∀ x, keeps (λ t, rest_part t = x) m).

Lemma rest_terminate {E} : keeps_rest (terminate_child (E := E)).
Proof.
  intros x t Ht. unfold terminate_child. destruct (ct_owned_child t) as [k|]; [|done].
  destruct (process_exited _ _) as [w [[]|]]; [done|..]; by destruct (process_kill _ _).
Qed.

Lemma rest_connect : keeps_rest connect.
Proof. intros x t Ht. unfold connect. by destruct (session_connect _ _). Qed.

Lemma rest_connect_retry n : keeps_rest (connect_retry n).
Proof.
  induction n as [|n IH]; intros x t Ht; [done|]. simpl. pose proof (rest_connect x t Ht) as Hc.
  destruct (connect t) as [t' [s|e]]; [done|]. by apply IH.
Qed.

Lemma rest_discard : keeps_rest discard_child.
Proof.
  intros x t Ht. unfold discard_child. destruct (ct_owned_child t) as [k|]; [|done].
  destruct (process_exited _ _) as [w [[]|]]; [done| |done]. by apply rest_terminate.
Qed.

Lemma rest_launch e : keeps_rest (launch e).
Proof. intros x t Ht. unfold launch. by destruct (process_spawn _ _ _) as [w [k|]]. Qed.

Lemma rest_launch_and_connect : keeps_rest launch_and_connect.
Proof.
  intros x. apply keeps_bind; [apply keeps_get|intros ?]. apply keeps_bind; [apply keeps_result|intros ?].
  apply keeps_bind; [apply rest_discard|intros ?]. apply keeps_bind; [apply rest_launch|intros ?].
  apply rest_connect_retry.
Qed.

Lemma rest_connect_or_launch : keeps_rest connect_or_launch.
Proof.
  intros x t Ht. unfold connect_or_launch. pose proof (rest_connect x t Ht) as Hc.
  destruct (connect t) as [t' [s|e]]; [done|]. by apply rest_launch_and_connect.
Qed.

Lemma rest_queue t t' : rest_part t' = rest_part t → queue_part t' = queue_part t.
Proof. intros [= E1 E2 E3 _ E5 E6 _ _ _ _]. unfold queue_part. by rewrite E1, E2, E3, E5, E6. Qed.

Lemma queue_rest {E A} (m : method (CarabinerTimingOutput W C K) E A) : keeps_rest m → keeps_queue m.
Proof. intros Hm x t <-. apply rest_queue. by apply Hm. Qed.

Lemma queue_terminate {E} : keeps_queue (terminate_child (E := E)).
Proof. apply queue_rest, rest_terminate. Qed.

Lemma queue_connect_or_launch : keeps_queue connect_or_launch.
Proof. apply queue_rest, rest_connect_or_launch. Qed.

Lemma queue_on_session {A} s (m : method (CarabinerSession C) str A) : keeps_queue (on_session s m).
Proof. intros x t Ht. unfold on_session. by destruct (m s). Qed.

Lemma queue_open : keeps_queue open_session.
Proof.
  intros x. unfold open_session. apply keeps_bind; [apply queue_connect_or_launch|intros connected].
  apply keeps_bind; [apply queue_on_session|intros [s version]]. apply keeps_bind; [apply keeps_get|intros expected].
  destruct (negb _); [apply keeps_fail|]. apply keeps_bind; [apply queue_on_session|intros [s' snapshot]].
  apply keeps_bind; [by apply queue_modify|intros _]. by apply queue_modify.
Qed.

Lemma queue_outcome {E F A} (m : method (CarabinerTimingOutput W C K) E A) :
  keeps_queue m → keeps_queue (method_outcome (F := F) m).
Proof. intros Hm x t Ht. specialize (Hm x t Ht). unfold method_outcome. by destruct (m t). Qed.
End Queue.

#[export] Hint Resolve queue_terminate queue_open queue_outcome : keeps.
#[export] Hint Extern 4 (keeps _ (method_modify _)) => (apply queue_modify; done) : keeps.
#[export] Hint Extern 4 (keeps _ (update_status _)) => (apply queue_modify; done) : keeps.
#[export] Hint Extern 4 (keeps _ (set_degraded _)) => (apply queue_modify; done) : keeps.
#[export] Hint Extern 4 (keeps _ (send_reply _)) => (apply queue_modify; done) : keeps.

Section Refinement.
Context {W C K : Type} `{CarabinerPeer W C K}.
Implicit Types (t : CarabinerTimingOutput W C K) (cs : list WorkerCommand) (l : option LinkClockObservation).

Lemma queue_do_work now w x : keeps (λ t : CarabinerTimingOutput W C K, queue_part t = x) (do_work now w).
Proof.
  destruct w as [reply|o| |reason|]; cbn [do_work]; unfold worker_publish, worker_anchor, worker_hold,
    worker_fail_closed, worker_stop; keeps_auto.
Qed.

(** ** The wake-ups *)

Definition is_wake (g : Z) (c : WorkerCommand) : bool :=
  match c with WSynchronize g' => g' =? g | _ => false end.

(** The wake-ups of a generation in the queue. *)
Definition wakes (g : Z) (commands : list WorkerCommand) : nat :=
  length (filter (λ c, is_wake g c = true) commands).

Definition old_command (n : Z) (c : WorkerCommand) : Prop :=
  match c with WSynchronize g => 0 ≤ g ≤ n | WShutdown => False | _ => True end.

(** After [n] barriers: one wake-up of this generation is queued while an observation
    waits, and none otherwise. *)
Record wake_inv (n : Z) t : Prop := {
  wi_running : ct_running t = true;
  wi_up : ct_shutting_down t = false;
  wi_generation : pa_generation (ct_latest_anchor t) = n;
  wi_old : Forall (old_command n) (ct_commands t);
  wi_one : wakes n (ct_commands t) = match pa_latest (ct_latest_anchor t) with Some _ => 1%nat | None => 0%nat end;
}.

Lemma wakes_app g cs cs' : wakes g (cs ++ cs') = (wakes g cs + wakes g cs')%nat.
Proof. unfold wakes. by rewrite filter_app, length_app. Qed.

Lemma wakes_cons g c cs : wakes g (c :: cs) = ((if is_wake g c then 1 else 0) + wakes g cs)%nat.
Proof. unfold wakes. rewrite filter_cons. by destruct (is_wake g c). Qed.

Lemma wakes_later n g cs : Forall (old_command n) cs → n < g → wakes g cs = 0%nat.
Proof.
  induction 1 as [|c cs Hc Hcs IH]; intros Hg; [done|]. rewrite wakes_cons, IH by done.
  destruct c; simpl in *; try done. by rewrite (proj2 (Z.eqb_neq _ _)) by lia.
Qed.

Lemma old_command_later n m cs : Forall (old_command n) cs → n ≤ m → Forall (old_command m) cs.
Proof. intros Hf Hm. eapply Forall_impl; [exact Hf|]. intros [] ?; simpl in *; lia || done. Qed.

(** Replacing the observation that waits. *)
Lemma work_replace n o o' cs :
  omap (work_of (mkPendingAnchor n (Some o'))) cs =
  (λ w, if is_apply w then DoApply o' else w) <$> omap (work_of (mkPendingAnchor n (Some o))) cs.
Proof.
  induction cs as [|c cs IH]; [done|]. destruct c as [| g| | | |]; csimpl; rewrite ?IH; try done. by destruct (g =? n).
Qed.

(** Without a wake-up nothing waits to be applied, whatever the latest observation. *)
Lemma work_no_wake n l l' cs :
  wakes n cs = 0%nat → omap (work_of (mkPendingAnchor n l)) cs = omap (work_of (mkPendingAnchor n l')) cs.
Proof.
  induction cs as [|c cs IH]; [done|]. rewrite wakes_cons. intros Hw.
  assert (wakes n cs = 0%nat) as Hcs by lia. specialize (IH Hcs).
  destruct c as [| g| | | |]; csimpl in *; rewrite ?IH; try done. by destruct (g =? n).
Qed.

Lemma work_barrier n m l cs :
  Forall (old_command n) cs → n < m →
  omap (work_of (mkPendingAnchor m None)) cs =
  filter (λ w, is_apply w = false) (omap (work_of (mkPendingAnchor n l)) cs).
Proof.
  intros Hf Hm. induction Hf as [|c cs Hc Hcs IH]; [done|].
  destruct c as [| g| | | |]; csimpl in *; rewrite ?IH; try done.
  rewrite (proj2 (Z.eqb_neq g m)) by lia. csimpl. destruct (g =? n); [|done]. by destruct l.
Qed.

Lemma existsb_apply n l cs :
  existsb is_apply (omap (work_of (mkPendingAnchor n l)) cs) =
  match l with Some _ => negb (Nat.eqb (wakes n cs) 0) | None => false end.
Proof.
  induction cs as [|c cs IH]; [by destruct l|]. rewrite wakes_cons.
  destruct c as [| g| | | |]; csimpl; rewrite ?IH; try done. destruct (g =? n); by destruct l.
Qed.

(** ** The steps *)

Definition accepted (o : LinkClockObservation) : bool :=
  match LinkClockObservation_validate o with Ok _ => true | Err _ => false end.

Lemma validate_same o o' : LinkClockObservation_validate o = Ok o' → o' = o.
Proof. unfold LinkClockObservation_validate. repeat case_match; by intros [= ->]. Qed.

(** The state with the work [w] taken from the queue. *)
Definition taken (w : Work) (commands : list WorkerCommand) t : CarabinerTimingOutput W C K :=
  let t := set_ct_commands commands t in
  if is_apply w then set_ct_latest_anchor (mkPendingAnchor (pa_generation (ct_latest_anchor t)) None) t else t.

(** What a step does to the mailbox. *)
Definition mailbox_step (a : TimingAction) t t' : Prop :=
  match a with
  | TPublishAsync => pending_work t' = pending_work t ++ [DoPublish false]
  | TPublish _ => pending_work t' = pending_work t ++ [DoPublish true]
  | TSynchronize o =>
      pending_work t' = if accepted o then mail_observation o (pending_work t) else pending_work t
  | THold => pending_work t' = mail_barrier DoHold (pending_work t)
  | TFailClosed reason => pending_work t' = mail_barrier (DoFailClosed reason) (pending_work t)
  | TRequestStop => pending_work t' = mail_barrier DoStop (pending_work t)
  | TStopped _ => pending_work t' = pending_work t
  | TWorker now =>
      match ct_commands t with
      | [] => t' = t
      | c :: cs =>
          (** a wake-up that came too late *)
          (pending_work t' = pending_work t ∧ t' = set_ct_commands cs t) ∨
          ∃ w, pending_work t = w :: pending_work t' ∧ t' = (do_work now w (taken w cs t)).1
      end
  end.

Lemma send_step t c :
  ct_running t = true → (send c t).1 = set_ct_commands (ct_commands t ++ [c]) t.
Proof. intros Hr. unfold send. by rewrite Hr. Qed.

Lemma barrier_step n t c w :
  wake_inv n t → n + 1 < 2 ^ 64 → 0 ≤ n → work_of (mkPendingAnchor (n + 1) None) c = Some w →
  old_command (n + 1) c → is_wake (n + 1) c = false →
  let t' := (enqueue_source_barrier c t).1 in
  wake_inv (n + 1) t' ∧ pending_work t' = mail_barrier w (pending_work t).
Proof.
  intros [H1 H2 H3 H4 H5] Hn H0 Hw Hc Hk. unfold enqueue_source_barrier, method_bind, method_modify.
  rewrite send_step by done. unfold wrapping_add_u64. rewrite H3, Z.mod_small by lia. split.
  - split; simpl; try done.
    + apply Forall_app. split; [eapply old_command_later; [exact H4|lia]|by repeat constructor].
    + rewrite wakes_app, (wakes_later n), wakes_cons, Hk by (done || lia). done.
  - unfold pending_work, mail_barrier. cbn [ct_commands ct_latest_anchor set_ct_commands set_ct_latest_anchor].
    rewrite omap_app. cbn [omap list_omap]. rewrite Hw.
    destruct (ct_latest_anchor t) as [g l] eqn:El. simpl in H3. subst g.
    by rewrite (work_barrier n (n + 1) l) by (done || lia).
Qed.

Lemma queued_step n t c w :
  wake_inv n t → work_of (ct_latest_anchor t) c = Some w → old_command n c → is_wake n c = false →
  let t' := (send c t).1 in
  wake_inv n t' ∧ pending_work t' = pending_work t ++ [w].
Proof.
  intros [H1 H2 H3 H4 H5] Hw Hc Hk. cbv zeta. rewrite send_step by done. split.
  - split; simpl; try done.
    + apply Forall_app. split; [done|by repeat constructor].
    + by rewrite wakes_app, wakes_cons, Hk, Nat.add_0_r.
  - unfold pending_work. simpl. rewrite omap_app. simpl. by rewrite Hw.
Qed.

(** The status is not part of the queue. *)
Lemma wake_inv_part n t t' : queue_part t' = queue_part t → wake_inv n t → wake_inv n t'.
Proof. intros [= E1 E2 E3 E4 E5] [? ? ? ? ?]. split; rewrite ?E1, ?E2, ?E3, ?E4; done. Qed.

Lemma pending_part t t' : queue_part t' = queue_part t → pending_work t' = pending_work t.
Proof. intros [= E1 E2 _ _ _]. unfold pending_work. by rewrite E1, E2. Qed.

Lemma synchronize_step n t o :
  wake_inv n t → 0 ≤ n →
  let t' := (carabiner_synchronize o t).1 in
  wake_inv n t' ∧
  pending_work t' = if accepted o then mail_observation o (pending_work t) else pending_work t.
Proof.
  intros [H1 H2 H3 H4 H5] H0. cbv zeta. unfold carabiner_synchronize, accepted.
  destruct (LinkClockObservation_validate o) as [o'|e] eqn:Ev; [|by split].
  apply validate_same in Ev as ->. unfold update_status, method_bind, method_result, method_get, method_modify. cbn [map_err].
  destruct t as [cfg cs [g l] st down child run rep ses last rec w]. simpl in H1, H2, H3, H4, H5. subst g run down.
  unfold pending_work, mail_observation. cbn [ct_latest_anchor ct_commands]. rewrite existsb_apply, H5.
  destruct l as [p|]; cbn [pa_latest pa_generation].
  - rewrite (bool_decide_false (Some p = None)) by done. split; [by split|]. simpl. apply work_replace.
  - rewrite (bool_decide_true (None = None)) by done. cbv beta iota. rewrite send_step by done. split.
    + split; simpl; try done.
      * apply Forall_app. split; [done|]. repeat constructor; simpl; lia.
      * rewrite wakes_app, H5. unfold wakes, is_wake. by rewrite filter_cons, Z.eqb_refl.
    + simpl. rewrite omap_app. f_equal; [by apply work_no_wake|]. simpl. by rewrite Z.eqb_refl.
Qed.

Lemma set_commands_inv n t c cs :
  wake_inv n t → ct_commands t = c :: cs → is_wake n c = false → wake_inv n (set_ct_commands cs t).
Proof.
  intros [H1 H2 H3 H4 H5] Hc Hk. rewrite Hc in H4, H5. apply Forall_cons in H4 as [_ H4].
  rewrite wakes_cons, Hk in H5. by split.
Qed.

(** The outcome of a turn that finds the commands [cs] behind the first. *)
Definition turned (n : Z) (now : Instant) t cs t' : Prop :=
  wake_inv n t' ∧
  ((pending_work t' = pending_work t ∧ t' = set_ct_commands cs t) ∨
   ∃ w, pending_work t = w :: pending_work t' ∧ t' = (do_work now w (taken w cs t)).1).

Lemma turned_done n now t cs w :
  wake_inv n (taken w cs t) → pending_work t = w :: pending_work (taken w cs t) →
  turned n now t cs (do_work now w (taken w cs t)).1.
Proof.
  intros Hi Hp. assert (queue_part (do_work now w (taken w cs t)).1 = queue_part (taken w cs t)) as Hq
    by (by apply queue_do_work).
  split; [by eapply wake_inv_part|]. right. exists w. split; [|done]. by rewrite (pending_part _ _ Hq).
Qed.

Lemma turned_other n now t c cs w :
  wake_inv n t → ct_commands t = c :: cs → work_of (ct_latest_anchor t) c = Some w →
  is_apply w = false → is_wake n c = false →
  worker_command (E := CarabinerError) now c (set_ct_commands cs t) = do_work now w (set_ct_commands cs t) →
  turned n now t cs (worker_command (E := CarabinerError) now c (set_ct_commands cs t)).1.
Proof.
  intros Hi Ec Hw Ha Hk ->. assert (set_ct_commands cs t = taken w cs t) as E by (unfold taken; by rewrite Ha).
  rewrite E. apply turned_done; rewrite <- E.
  - by eapply set_commands_inv.
  - unfold pending_work. rewrite Ec. cbn [omap list_omap]. by rewrite Hw.
Qed.

Lemma turned_wake n now t g cs :
  wake_inv n t → ct_commands t = WSynchronize g :: cs →
  turned n now t cs (worker_synchronize (E := CarabinerError) now g (set_ct_commands cs t)).1.
Proof.
  intros Hi Ec. pose proof Hi as [H1 H2 H3 H4 H5]. rewrite Ec in H4, H5. apply Forall_cons in H4 as [_ H4].
  unfold worker_synchronize, method_bind, take_anchor.
  change (ct_latest_anchor (set_ct_commands cs t)) with (ct_latest_anchor t). rewrite H3.
  rewrite wakes_cons in H5. unfold is_wake in H5 at 1. rewrite (Z.eqb_sym g) in H5.
  destruct (Z.eqb_spec n g) as [<-|Hg].
  - destruct (ct_latest_anchor t) as [g' l] eqn:El. simpl in H3, H5. subst g'.
    destruct l as [o|]; [|lia]. cbn [pa_latest].
    replace (set_ct_latest_anchor (mkPendingAnchor n None) (set_ct_commands cs t)) with (taken (DoApply o) cs t)
      by (unfold taken; simpl; by rewrite El).
    apply (turned_done n now t cs (DoApply o)).
    + unfold taken. simpl. rewrite El. split; simpl; try done. lia.
    + unfold taken, pending_work. rewrite Ec, El. simpl. rewrite Z.eqb_refl, El. simpl. f_equal.
      apply work_no_wake. lia.
  - split.
    + eapply set_commands_inv; [done|exact Ec|]. simpl. apply Z.eqb_neq. lia.
    + left. split; [|done]. unfold pending_work. rewrite Ec. simpl. by rewrite H3, (proj2 (Z.eqb_neq g n)) by lia.
Qed.

Lemma worker_up now c t :
  ct_shutting_down t = false →
  worker_command (E := CarabinerError) now c t =
  match c with
  | WPublish reply => worker_publish reply
  | WSynchronize generation => worker_synchronize now generation
  | WHold => worker_hold
  | WFailClosed reason => worker_fail_closed reason
  | WStop => worker_stop
  | WShutdown => do! method_modify (set_ct_running false) then terminate_child
  end t.
Proof. intros Hs. unfold worker_command, method_bind at 1, method_get. rewrite Hs. by destruct c. Qed.

Lemma worker_step n t now :
  wake_inv n t → wake_inv n (worker_turn now t).1 ∧ mailbox_step (TWorker now) t (worker_turn now t).1.
Proof.
  intros Hi. pose proof Hi as [H1 H2 _ H4 _]. unfold mailbox_step, worker_turn.
  destruct (ct_commands t) as [|c cs] eqn:Ec; [done|]. rewrite H1.
  assert (∀ c, worker_command (E := CarabinerError) now c (set_ct_commands cs t) = _) as Hup
    by (intros c'; by apply worker_up).
  destruct c as [reply|g| |reason| |].
  - by apply (turned_other n now t _ cs (DoPublish reply)).
  - rewrite Hup. by apply turned_wake.
  - by apply (turned_other n now t _ cs DoHold).
  - by apply (turned_other n now t _ cs (DoFailClosed reason)).
  - by apply (turned_other n now t _ cs DoStop).
  - by apply Forall_cons in H4 as [[] _].
Qed.

(** Every step keeps the wake-ups and steps the mailbox. *)
Lemma act_step n t a :
  wake_inv n t → 0 ≤ n → n + 1 < 2 ^ 64 →
  (∃ n', n ≤ n' ≤ n + 1 ∧ wake_inv n' (timing_act a t).1) ∧ mailbox_step a t (timing_act a t).1.
Proof.
  intros Hi H0 Hn.
  assert (∀ t' n' (Φ : Prop), n ≤ n' ≤ n + 1 → wake_inv n' t' ∧ Φ → (∃ n', n ≤ n' ≤ n + 1 ∧ wake_inv n' t') ∧ Φ)
    as Hand by (intros t' n' Φ Hle [? ?]; split; [by exists n'|done]).
  assert (∀ c w, work_of (ct_latest_anchor t) c = Some w → old_command n c → is_wake n c = false → ∀ t0,
    queue_part t0 = queue_part t → wake_inv n (send c t0).1 ∧ pending_work (send c t0).1 = pending_work t ++ [w])
    as Hsend.
  { intros c w Hw Hc Hk t0 Hq. rewrite <- (pending_part _ _ Hq). apply queued_step; [by eapply wake_inv_part| |done..].
    by injection Hq as _ -> _ _ _. }
  destruct a as [|answer|o| |reason| |answer|now]; cbn [timing_act mailbox_step].
  - apply (Hand _ n); [lia|]. by apply (Hsend (WPublish false)).
  - apply (Hand _ n); [lia|]. unfold carabiner_publish, method_bind.
    destruct (Hsend (WPublish true) (DoPublish true) eq_refl I eq_refl t eq_refl) as [? ?].
    by destruct (send (WPublish true) t) as [t' [|]].
  - apply (Hand _ n); [lia|]. by apply synchronize_step.
  - apply (Hand _ (n + 1)); [lia|]. by apply barrier_step.
  - apply (Hand _ (n + 1)); [lia|]. by apply barrier_step.
  - apply (Hand _ (n + 1)); [lia|]. by apply barrier_step.
  - apply (Hand _ n); [lia|]. unfold carabiner_stopped, method_bind.
    assert (queue_part ((if bool_decide (answer = None) then terminate_child else method_ret tt) t).1 = queue_part t)
      as Hq by (destruct (bool_decide _); [by apply (queue_terminate (E := CarabinerError))|done]).
    destruct ((if bool_decide (answer = None) then terminate_child else method_ret tt) t) as [t' [|]];
      (split; [by eapply wake_inv_part|by apply pending_part]).
  - apply (Hand _ n); [lia|]. by apply worker_step.
Qed.

Lemma run_inv actions : ∀ n t,
  wake_inv n t → 0 ≤ n → n + Z.of_nat (length actions) < 2 ^ 64 →
  ∃ n', n ≤ n' ≤ n + Z.of_nat (length actions) ∧ wake_inv n' (timing_run t actions).
Proof.
  induction actions as [|a actions IH]; intros n t Hi H0 Hn; [exists n; split; [simpl; lia|done]|].
  rewrite length_cons, Nat2Z.inj_succ in Hn |- *.
  destruct (act_step n t a Hi H0) as [(n' & Hle & Hi') _]; [lia|].
  destruct (IH n' _ Hi') as (m & Hm & Hmi); [lia|lia|]. exists m. split; [lia|done].
Qed.

Lemma fresh_inv cfg w : wake_inv 0 (CarabinerTimingOutput_new cfg true w).
Proof. by split. Qed.

(** C34: the queue of the Ableton Link output is a mailbox.  In every state that callers and
    worker reach together, however their steps interleave, a waiting observation is the one
    pending work item that applies it, so no wake-up is lost and none is queued twice; and
    every step does to the pending work what the mailbox does: an accepted observation
    replaces the one that waits, or queues behind the others; hold, fail-closed and stop
    discard the observation that waits and queue behind the others; the worker does the
    first item, to the end, or drops a wake-up that an earlier barrier has made void.  The
    generations of the barriers, 64 bits wide, do not wrap around in the run. *)
Theorem carabiner_mailbox cfg w actions a :
  Z.of_nat (length actions) + 1 < 2 ^ 64 →
  let t := timing_run (CarabinerTimingOutput_new cfg true w) actions in
  (∀ o, pa_latest (ct_latest_anchor t) = Some o ↔ DoApply o ∈ pending_work t) ∧
  (length (filter (λ w, is_apply w = true) (pending_work t)) ≤ 1)%nat ∧
  mailbox_step a t (timing_act a t).1.
Proof.
  intros Hn t. destruct (run_inv actions 0 _ (fresh_inv cfg w)) as (n & Hle & Hi); [lia|lia|]. fold t in Hi.
  destruct (act_step n t a Hi) as [_ Hs]; [lia|lia|]. destruct Hi as [_ _ H3 _ H5].
  assert (filter (λ w, is_apply w = true) (pending_work t) =
    match pa_latest (ct_latest_anchor t) with Some o => replicate (wakes n (ct_commands t)) (DoApply o) | None => [] end)
    as Hf.
  { unfold pending_work. destruct (ct_latest_anchor t) as [g l]. simpl in H3. subst g. simpl. clear.
    induction (ct_commands t) as [|c cs IH]; [by destruct l|]. rewrite wakes_cons.
    destruct c as [| g| | | |]; csimpl; rewrite ?IH; try done. 
    destruct (g =? n); destruct l as [o|]; csimpl; rewrite ?filter_cons_True by done; by rewrite ?IH. }
  split_and!; [| |done].
  - intros o. assert (DoApply o ∈ pending_work t ↔ DoApply o ∈ filter (λ w, is_apply w = true) (pending_work t)) as ->
      by (rewrite list_elem_of_filter; simpl; tauto).
    rewrite Hf. destruct (pa_latest (ct_latest_anchor t)) as [o'|].
    + rewrite H5. simpl. rewrite list_elem_of_singleton. naive_solver.
    + split; [done|]. by intros ?%not_elem_of_nil.
  - rewrite Hf. destruct (pa_latest _); [rewrite length_replicate, H5|]; simpl; lia.
Qed.
End Refinement.

(** ** Failures *)

Section Failure.
Context {W C K : Type} `{CarabinerPeer W C K}.
Implicit Types t : CarabinerTimingOutput W C K.

Definition publishes (a : TimingAction) : bool :=
  match a with TPublishAsync | TPublish _ => true | _ => false end.

Definition publish_command (c : WorkerCommand) : bool := match c with WPublish _ => true | _ => false end.

(** No session, no request for one, and no child but the one there was. *)
Record cut_off (child : option K) t : Prop := {
  co_session : ct_session t = None;
  co_commands : Forall (λ c, publish_command c = false) (ct_commands t);
  co_child : ct_owned_child t = child ∨ ct_owned_child t = None;
}.

Lemma cut_off_modify {E} child (f : CarabinerTimingOutput W C K → CarabinerTimingOutput W C K) :
  (∀ t, ct_session t = None → ct_session (f t) = None) → (∀ t, ct_commands (f t) = ct_commands t) →
  (∀ t, ct_owned_child (f t) = ct_owned_child t) → keeps (cut_off child) (method_modify (E := E) f).
Proof. intros H1 H2 H3 t [? ? ?]. split; simpl; [by apply H1|by rewrite H2|by rewrite H3]. Qed.

Lemma cut_off_terminate {E} child : keeps (cut_off child) (terminate_child (E := E)).
Proof.
  intros t Ht. unfold terminate_child. destruct (ct_owned_child t) as [k|]; [|done]. destruct Ht as [? ? ?].
  destruct (process_exited _ _) as [w [[]|]]; try (destruct (process_kill _ _) as [w' b]); split; simpl; auto.
Qed.

Lemma cut_off_send child c : publish_command c = false → keeps (cut_off child) (send c).
Proof.
  intros Hc t [H1 H2 H3]. unfold send. destruct (ct_running t); [|by split]. split; simpl; try done.
  apply Forall_app. split; [done|by repeat constructor].
Qed.

Lemma cut_off_anchor child now o : keeps (cut_off child) (worker_anchor (E := CarabinerError) now o).
Proof.
  intros t Ht. pose proof Ht as [H1 H2 H3]. unfold worker_anchor, method_bind, method_get.
  destruct (ct_recovery_requires_publish t); [done|]. rewrite H1. by split.
Qed.
End Failure.

#[export] Hint Resolve cut_off_terminate cut_off_anchor : keeps.
#[export] Hint Extern 4 (keeps (cut_off _) (method_modify _)) => (apply cut_off_modify; done) : keeps.
#[export] Hint Extern 4 (keeps (cut_off _) (update_status _)) => (apply cut_off_modify; done) : keeps.
#[export] Hint Extern 4 (keeps (cut_off _) (set_degraded _)) => (apply cut_off_modify; done) : keeps.
#[export] Hint Extern 4 (keeps (cut_off _) (send_reply _)) => (apply cut_off_modify; done) : keeps.
#[export] Hint Extern 4 (keeps (cut_off _) (send _)) => (apply cut_off_send; done) : keeps.

Section Latch.
Context {W C K : Type} `{CarabinerPeer W C K}.
Implicit Types t : CarabinerTimingOutput W C K.

Lemma cut_off_synchronize child now g : keeps (cut_off child) (worker_synchronize (E := CarabinerError) now g).
Proof.
  apply keeps_bind; [|intros [o|]; [apply cut_off_anchor|apply keeps_ret]].
  intros t [? ? ?]. unfold take_anchor. by destruct (_ =? g).
Qed.

#[local] Hint Resolve cut_off_synchronize : keeps.

Lemma cut_off_worker child now : keeps (cut_off child) (worker_turn now).
Proof.
  intros t [H1 H2 H3]. unfold worker_turn. destruct (ct_commands t) as [|c cs] eqn:Ec; [split; simpl; rewrite ?Ec; auto|].
  destruct (ct_running t); [|split; simpl; rewrite ?Ec; auto]. apply Forall_cons in H2 as [Hc Hcs].
  enough (keeps (cut_off child) (worker_command (E := CarabinerError) now c)) as Hk by (by apply Hk).
  unfold worker_command. apply keeps_bind; [apply keeps_get|intros down].
  destruct c as [reply|g| |reason| |], down; try done; unfold worker_hold, worker_fail_closed, worker_stop;
    keeps_auto.
Qed.

Lemma cut_off_act child a : publishes a = false → keeps (cut_off child) (timing_act a).
Proof.
  destruct a as [|answer|o| |reason| |answer|now]; intros Ha; try done; cbn [timing_act].
  - unfold carabiner_synchronize. keeps_auto.
  - unfold carabiner_hold, enqueue_source_barrier. keeps_auto.
  - unfold carabiner_fail_closed, enqueue_source_barrier. keeps_auto.
  - unfold carabiner_request_stop, enqueue_source_barrier. keeps_auto.
  - unfold carabiner_stopped. keeps_auto.
  - apply cut_off_worker.
Qed.

Lemma cut_off_run child actions : ∀ t,
  Forall (λ a, publishes a = false) actions → cut_off child t → cut_off child (timing_run t actions).
Proof.
  induction actions as [|a actions IH]; intros t Ha Ht; [done|]. apply Forall_cons in Ha as [Ha Has].
  apply IH; [done|]. by apply cut_off_act.
Qed.

(** A failed exchange with the helper is not repaired in silence.  The worker drops
    the session and reports the failure; from then on, whatever observations, holds, stops
    and further failures follow in any interleaving, there is no session, so that nothing is
    sent to any helper, and no helper is launched, until a caller publishes again. *)
Theorem failure_latches now o t session error connected actions :
  ct_session t = Some session → ct_recovery_requires_publish t = false →
  apply_anchor (ct_last_anchor t) o session = (connected, Err error) →
  Forall (λ c, publish_command c = false) (ct_commands t) → Forall (λ a, publishes a = false) actions →
  let t' := (do_work now (DoApply o) t).1 in
  ct_session t' = None ∧ ct_recovery_requires_publish t' = true ∧ ts_state (ct_status t') = TODegraded ∧
  ts_last_error (ct_status t') = Some error ∧
  let t'' := timing_run t' actions in
  ct_session t'' = None ∧ (ct_owned_child t'' = ct_owned_child t ∨ ct_owned_child t'' = None).
Proof.
  intros Hs Hr Ha Hc Has. cbn [do_work]. unfold worker_anchor, method_bind, method_get. rewrite Hr, Hs, Ha.
  cbn [fst]. split_and!; try done.
  all: match goal with |- context [timing_run ?t' _] =>
    assert (cut_off (ct_owned_child t) (timing_run t' actions)) as [? ? ?]
      by (apply cut_off_run; [done|]; split; [done|exact Hc|by left]) end; done.
Qed.
End Latch.

(** ** What is sent to the helper *)

Section Tempo.
Context {W C K : Type} `{CarabinerPeer W C K}.
(** What was written to a connection: nothing to a new one, and every line that is
    written. *)
Variable sent : C → list str.
Hypothesis sent_connect : ∀ port w c, (tcp_connect port w).2 = Ok c → sent c = [].
Hypothesis sent_write : ∀ line c, sent (tcp_write line c).1 = sent c ++ [line].

Implicit Types t : CarabinerTimingOutput W C K.
Implicit Types s : CarabinerSession C.

Definition with_newline (command : str) : str := command ++ [10].

Definition query (line : str) : Prop := line = with_newline (lit "version") ∨ line = with_newline (lit "status").

Definition tempo_line (bpm_milli : Z) : str := with_newline (bpm_command bpm_milli).

Definition allowed (line : str) : Prop :=
  query line ∨ ∃ bpm_milli, 20000 ≤ bpm_milli ≤ 300000 ∧ line = tempo_line bpm_milli.

(** Queries and tempos of the range were sent, and [tempo] last. *)
Definition tempo_sent (tempo : option Z) (lines : list str) : Prop :=
  Forall allowed lines ∧
  match tempo with
  | None => Forall query lines
  | Some bpm_milli => ∃ before after, lines = before ++ tempo_line bpm_milli :: after ∧ Forall query after
  end.

Notation log s := (sent (cs_writer s)).

Lemma read_until_log prefix s : log (read_until prefix s).1 = log s.
Proof. unfold read_until. by destruct (session_lines _ _). Qed.

Lemma command_log command prefix s : log (session_command command prefix s).1 = log s ++ [with_newline command].
Proof.
  unfold session_command, method_bind. pose proof (sent_write (with_newline command) (cs_writer s)) as Hw.
  unfold with_newline in Hw at 1. destruct (tcp_write _ _) as [c [delivered|e]]; cbn [fst] in *; [|done].
  by rewrite read_until_log.
Qed.

Lemma bind_log {A B} (m : method (CarabinerSession C) str A) (f : A → result B str) s :
  log (method_bind m (λ a, method_result (f a)) s).1 = log (m s).1.
Proof. unfold method_bind. by destruct (m s) as [s' [a|e]]. Qed.

Lemma version_log s : log (session_version s).1 = log s ++ [with_newline (lit "version")].
Proof. unfold session_version. by rewrite bind_log, command_log. Qed.

Lemma status_log s : log (session_status s).1 = log s ++ [with_newline (lit "status")].
Proof. unfold session_status. by rewrite bind_log, command_log. Qed.

Lemma set_bpm_log b s : log (session_set_bpm b s).1 = log s ++ [tempo_line b].
Proof.
  unfold session_set_bpm. change (method_ret tt) with (method_result (S := CarabinerSession C) (Ok (E := str) tt)).
  by rewrite bind_log, command_log.
Qed.

Lemma query_allowed line : query line → allowed line.
Proof. by left. Qed.

Lemma Forall_snoc_2 {A} (P : A → Prop) l x : Forall P l → P x → Forall P (l ++ [x]).
Proof. intros Hl Hx. apply Forall_app. split; [done|]. by apply Forall_singleton. Qed.

Lemma tempo_sent_query tempo lines line : tempo_sent tempo lines → query line → tempo_sent tempo (lines ++ [line]).
Proof.
  intros [Ha Ht] Hq. split; [by apply Forall_snoc_2; [|left]|].
  destruct tempo as [b|]; [|by apply Forall_snoc_2].
  destruct Ht as (before & after & -> & Haft). exists before, (after ++ [line]).
  rewrite <- app_assoc. split; [done|]. by apply Forall_snoc_2.
Qed.

Lemma tempo_sent_bpm tempo lines b :
  tempo_sent tempo lines → 20000 ≤ b ≤ 300000 → tempo_sent (Some b) (lines ++ [tempo_line b]).
Proof.
  intros [Ha _] Hb. split; [|by exists lines, []]. apply Forall_snoc_2; [done|]. right. by exists b.
Qed.

Lemma connect_log port w w' s : session_connect port w = (w', Ok s) → log s = [].
Proof.
  unfold session_connect. pose proof (sent_connect port w) as Hc. destruct (tcp_connect port w) as [w1 [c|e]]; [|done].
  cbn [snd] in Hc. specialize (Hc c eq_refl). simpl.
  pose proof (read_until_log (lit "status ") (mkCarabinerSession c (tcp_greeting c))) as Hl.
  destruct (read_until _ _) as [s' [a|e]]; simpl in *; [|done]. intros [= _ <-]. by rewrite Hl.
Qed.

(** *** Opening a session *)

Lemma retry_log n t : ∀ s, (connect_retry n t).2 = Ok s → log s = [].
Proof.
  revert t. induction n as [|n IH]; intros t s; [done|]. simpl. unfold connect at 1.
  destruct (session_connect _ _) as [w [s'|e]] eqn:E; [|apply IH]. intros [= <-]. by eapply connect_log.
Qed.

Lemma launch_log : triple (λ _ : CarabinerTimingOutput W C K, True) launch_and_connect (post (λ s _, log s = []) (λ _ _, True)).
Proof.
  unfold launch_and_connect. do 4 (eapply (post_bind _ _ _ (λ _ _, True)); [intros t _; by destruct (_ t).2|intros ?]).
  intros t _. pose proof (retry_log START_RETRIES t) as Hr. destruct (connect_retry START_RETRIES t) as [t' [s|e]]; [|done].
  by apply Hr.
Qed.

Lemma connect_or_launch_log t s : (connect_or_launch t).2 = Ok s → log s = [].
Proof.
  unfold connect_or_launch, connect at 1. destruct (session_connect _ _) as [w [s'|e]] eqn:E.
  - intros [= <-]. by eapply connect_log.
  - intros Hs. pose proof (launch_log (set_ct_world w t) I) as Hl. rewrite Hs in Hl. exact Hl.
Qed.

(** What of the worker's state the tempo depends on. *)
Definition link_part t :=
  (ct_session t, ct_last_anchor t, ct_recovery_requires_publish t, pa_latest (ct_latest_anchor t)).

Lemma rest_link t t' : rest_part t' = rest_part t → link_part t' = link_part t.
Proof. intros [= _ _ E3 _ _ _ _ E8 E9 E10]. unfold link_part. by rewrite E3, E8, E9, E10. Qed.

Lemma on_session_eq {A} s (m : method (CarabinerSession C) str A) t :
  on_session s m t = (t, match (m s).2 with Ok a => Ok ((m s).1, a) | Err e => Err e end).
Proof. unfold on_session. by destruct (m s) as [s' [a|e]]. Qed.

Lemma open_log t t' r :
  open_session t = (t', r) →
  let '(session, last_anchor, recovery, latest) := link_part t in
  match r with
  | Ok _ => ∃ s, link_part t' = (Some s, last_anchor, recovery, latest) ∧ Forall query (log s)
  | Err _ => link_part t' = link_part t
  end.
Proof.
  unfold open_session, method_bind. intros Ho. pose proof (rest_connect_or_launch _ t eq_refl) as Hr.
  pose proof (connect_or_launch_log t) as Hl.
  destruct (connect_or_launch t) as [t1 [s|e]]; cbn [fst snd] in *; [|injection Ho as <- <-; by apply rest_link].
  apply rest_link in Hr. specialize (Hl s eq_refl). rewrite on_session_eq in Ho.
  pose proof (version_log s) as Hv. destruct (session_version s) as [s1 [v|e]]; cbn [fst snd] in *;
    [|by injection Ho as <- <-].
  unfold method_get in Ho. destruct (negb _); [by injection Ho as <- <-|]. rewrite on_session_eq in Ho.
  pose proof (status_log s1) as Hst. destruct (session_status s1) as [s2 [snap|e]]; cbn [fst snd] in *;
    [|by injection Ho as <- <-].
  injection Ho as <- <-. rewrite <- Hr. exists s2. split; [done|]. rewrite Hst, Hv, Hl.
  apply Forall_cons. split; [by left|]. apply Forall_singleton. by right.
Qed.

Lemma apply_log previous anchor s s' outcome :
  20000 ≤ lco_bpm_milli anchor ≤ 300000 → tempo_sent (lco_bpm_milli <$> previous) (log s) →
  apply_anchor previous anchor s = (s', Ok outcome) → tempo_sent (Some (lco_bpm_milli anchor)) (log s').
Proof.
  intros Hb Ht. unfold apply_anchor, method_bind.
  assert (∀ s1, tempo_sent (Some (lco_bpm_milli anchor)) (log s1) →
    ∀ x : CarabinerSession C * result LinkSnapshot str, session_status s1 = x →
    tempo_sent (Some (lco_bpm_milli anchor)) (log x.1)) as Hq.
  { intros s1 Hs1 x <-. rewrite status_log. apply tempo_sent_query; [done|by right]. }
  assert (tempo_changed previous anchor = false → (lco_bpm_milli <$> previous) = Some (lco_bpm_milli anchor)) as Hsame.
  { destruct previous as [o|]; [|done]. simpl. intros E%negb_false_iff%Z.eqb_eq. by rewrite E. }
  destruct (tempo_changed previous anchor).
  - pose proof (set_bpm_log (lco_bpm_milli anchor) s) as Hl.
    destruct (session_set_bpm _ s) as [s1 [[]|e]]; [|done]. cbn [fst] in Hl.
    specialize (Hq s1 ltac:(rewrite Hl; by eapply tempo_sent_bpm) _ eq_refl).
    destruct (session_status s1) as [s2 [snap|e]]; [|done].
    intros E. apply (f_equal fst) in E. cbn [fst] in E. rewrite <- E. exact Hq.
  - rewrite Hsame in Ht by done. cbn [method_ret]. specialize (Hq s Ht _ eq_refl).
    destruct (session_status s) as [s2 [snap|e]]; [|done].
    intros E. apply (f_equal fst) in E. cbn [fst] in E. rewrite <- E. exact Hq.
Qed.

(** *** The states that are reached *)

Definition link_inv (part : option (CarabinerSession C) * option LinkClockObservation * bool *
    option LinkClockObservation) : Prop :=
  let '(session, last_anchor, recovery, latest) := part in
  (∀ o, latest = Some o → 20000 ≤ lco_bpm_milli o ≤ 300000) ∧
  (∀ s, session = Some s → Forall allowed (log s) ∧
     (recovery = false → tempo_sent (lco_bpm_milli <$> last_anchor) (log s))).

Lemma link_publish reply t :
  link_inv (link_part t) → link_inv (link_part (worker_publish (E := CarabinerError) reply t).1).
Proof.
  intros [Hl Hs]. unfold worker_publish, update_status, method_bind, method_modify, method_outcome. cbv beta iota.
  set (t0 := set_ct_status _ _). destruct (open_session t0) as [t1 r] eqn:Eo.
  pose proof (open_log _ _ _ Eo) as Hp. cbn in Hp.
  assert (∀ t2, link_part ((if reply then send_reply (E := CarabinerError) r else method_ret tt) t2).1 = link_part t2)
    as Hrep by (intros t2; by destruct reply).
  destruct r as [[]|e].
  - destruct Hp as (s & Hp & Hq). cbn [method_ret]. cbv beta iota. rewrite Hrep, Hp. split; [done|].
    intros s' [= <-]. assert (Forall allowed (log s)) by (eapply Forall_impl; [exact Hq|by left]). by repeat split.
  - unfold set_degraded, update_status, method_modify. cbv beta iota. rewrite Hrep.
    injection Hp as E1 E2 E3 E4. unfold link_part in *. cbn. rewrite E1, E4. split; [done|].
    intros s Es. split; [exact (proj1 (Hs s Es))|done].
Qed.

Lemma link_anchor now o t :
  20000 ≤ lco_bpm_milli o ≤ 300000 → link_inv (link_part t) →
  link_inv (link_part (worker_anchor (E := CarabinerError) now o t).1).
Proof.
  intros Hb Hi. pose proof Hi as [Hl Hs]. unfold worker_anchor, method_bind, method_get.
  destruct (ct_recovery_requires_publish t) eqn:Er; [done|]. destruct (ct_session t) as [s|] eqn:Es.
  - destruct (Hs s eq_refl) as [_ Ht]. specialize (Ht eq_refl).
    destruct (apply_anchor _ _ _) as [s' [outcome|e]] eqn:Ea; [|by split].
    apply (apply_log _ _ _ _ _ Hb Ht) in Ea. split; [exact Hl|]. intros s1 [= <-]. split; [apply Ea|done].
  - split; [exact Hl|]. cbn. by rewrite Es.
Qed.

Lemma link_take g t :
  link_inv (link_part t) →
  let '(t', r) := take_anchor (E := CarabinerError) g t in
  link_inv (link_part t') ∧ match r with Ok (Some o) => 20000 ≤ lco_bpm_milli o ≤ 300000 | _ => True end.
Proof.
  intros [Hl Hs]. unfold take_anchor. destruct (_ =? g); [|done]. split; [by split|].
  destruct (pa_latest (ct_latest_anchor t)) as [o|] eqn:E; [|done]. by apply Hl.
Qed.

Lemma link_same t t' : link_part t' = link_part t → link_inv (link_part t) → link_inv (link_part t').
Proof. by intros ->. Qed.

Lemma link_command now c t :
  link_inv (link_part t) → link_inv (link_part (worker_command (E := CarabinerError) now c t).1).
Proof.
  intros Hi. unfold worker_command, method_bind at 1, method_get.
  assert (∀ t, link_part (terminate_child (E := CarabinerError) t).1 = link_part t) as Hterm
    by (intros t'; by apply rest_link, rest_terminate).
  destruct c as [reply|g| |reason| |].
  - destruct (ct_shutting_down t); [done|]. by apply link_publish.
  - destruct (ct_shutting_down t); [done|]. unfold worker_synchronize, method_bind. pose proof (link_take g t Hi) as Ht.
    destruct (take_anchor g t) as [t' r]. destruct Ht as [Ht Hr].
    destruct r as [[o|]|e]; [by apply link_anchor|exact Ht..].
  - by destruct (ct_shutting_down t).
  - by destruct (ct_shutting_down t).
  - destruct (ct_shutting_down t); [done|]. unfold worker_stop, method_bind at 1 2 3 4 5, method_modify, update_status.
    cbv beta iota.
    match goal with |- context [terminate_child ?t1] => pose proof (Hterm t1) as Ht; destruct (terminate_child t1) as [t2 [[]|e]] end.
    + injection Ht as E1 E2 E3 E4. unfold link_part. cbn. rewrite E1, E4. split; [apply Hi|]. done.
    + cbn [fst] in Ht |- *. rewrite Ht. split; [apply Hi|done].
  - unfold method_bind, method_modify. cbv beta iota. by rewrite Hterm.
Qed.

Lemma link_act a t : link_inv (link_part t) → link_inv (link_part (timing_act a t).1).
Proof.
  intros Hi.
  assert (∀ c t, link_part (send c t).1 = link_part t) as Hsend
    by (intros c t'; unfold send; by destruct (ct_running t')).
  destruct a as [|answer|o| |reason| |answer|now]; cbn [timing_act].
  - unfold publish_async, update_status, method_bind, method_modify. by rewrite Hsend.
  - unfold carabiner_publish, method_bind. pose proof (Hsend (WPublish true) t) as E.
    destruct (send (WPublish true) t) as [t' [[]|e]]; cbn [fst method_result] in *; by rewrite E.
  - unfold carabiner_synchronize, update_status, method_bind, method_result, method_get, method_modify.
    destruct (LinkClockObservation_validate o) as [o'|e] eqn:Ev; [|done]. cbn [map_err].
    assert (20000 ≤ lco_bpm_milli o' ≤ 300000) as Hb.
    { pose proof (validate_same _ _ Ev) as ->. unfold LinkClockObservation_validate in Ev.
      destruct (Z.leb_spec 20000 (lco_bpm_milli o)), (Z.leb_spec (lco_bpm_milli o) 300000); done || lia. }
    destruct Hi as [Hl Hs].
    destruct (bool_decide (pa_latest _ = None)); [rewrite Hsend|]; (split; [by intros o1 [= <-]|exact Hs]).
  - unfold carabiner_hold, enqueue_source_barrier, method_bind, method_modify. rewrite Hsend. split; [done|apply Hi].
  - unfold carabiner_fail_closed, enqueue_source_barrier, method_bind, method_modify. rewrite Hsend. split; [done|apply Hi].
  - unfold carabiner_request_stop, enqueue_source_barrier, method_bind, method_modify. rewrite Hsend. split; [done|apply Hi].
  - unfold carabiner_stopped, method_bind. destruct (bool_decide _); [|by destruct answer as [[]|]].
    pose proof (rest_link _ _ (rest_terminate (E := CarabinerError) _ t eq_refl)) as E.
    destruct (terminate_child t) as [t' [[]|e]]; cbn [fst method_result] in *; by rewrite E.
  - unfold worker_turn. destruct (ct_commands t) as [|c cs]; [done|]. destruct (ct_running t); [|done].
    by apply link_command.
Qed.

Lemma link_run actions : ∀ t, link_inv (link_part t) → link_inv (link_part (timing_run t actions)).
Proof. induction actions as [|a actions IH]; intros t Hi; [done|]. by apply IH, link_act. Qed.

(** Lumi publishes its tempo and nothing else.  Whatever the callers and the worker do,
    in any interleaving, and whatever the helper answers: the lines sent over the session
    are queries of version and status and tempos of 20 to 300 BPM, so that no other peer is
    started, stopped or moved; and unless a failure awaits a new publish, the last tempo
    sent is the one of the last observation that was applied, and none when none was. *)
Theorem only_tempo cfg spawned w actions session :
  let t := timing_run (CarabinerTimingOutput_new cfg spawned w) actions in
  ct_session t = Some session →
  Forall allowed (log session) ∧
  (ct_recovery_requires_publish t = false →
   tempo_sent (lco_bpm_milli <$> ct_last_anchor t) (log session)).
Proof.
  intros t Hs. assert (link_inv (link_part t)) as [_ Hi] by (apply link_run; split; [done|by intros s]).
  by apply Hi.
Qed.
End Tempo.

(** ** A helper to try the theorems on *)

(** A connection remembers what was written to it; one that starts with an empty line is
    broken. *)
Definition demo_answer (line : str) : str :=
  if bool_decide (line = lit "version" ++ [10]) then lit "version " ++ [34] ++ lit "1.2.0" ++ [34]
  else lit "status { :peers 1 :bpm 128.500000 :start 1000 :beat 2.25 }".

Definition demo_peer : CarabinerPeer unit (list str) unit := {|
  tcp_connect _ w := (w, Ok []);
  tcp_greeting _ := [Ok (demo_answer [])];
  tcp_write line c :=
    (c ++ [line], if bool_decide (head c = Some []) then Err (lit "broken pipe") else Ok [Ok (demo_answer line)]);
  read_timed_out := lit "timed out";
  process_spawn _ _ w := (w, Ok tt);
  process_exited _ w := (w, Ok false);
  process_kill _ w := (w, true);
|}.

Definition demo_anchor (bpm_milli : Z) : LinkClockObservation :=
  mkLinkClockObservation ProDjLinkTiming (Some 2) bpm_milli 3 true (Some 1051000).

Definition demo_actions : list TimingAction :=
  [TPublishAsync; TWorker 0; TSynchronize (demo_anchor 128000); TSynchronize (demo_anchor 128500);
   TWorker 1; TWorker 2].

Notation demo_run := (timing_run (H := demo_peer)
  (CarabinerTimingOutput_new CarabinerConfiguration_default true tt)).

(** The first observation is superseded; the tempo of the second is sent. *)
Example demo_log :
  (λ s, cs_writer s) <$> ct_session (demo_run demo_actions) =
  Some (with_newline <$> [lit "version"; lit "status"; lit "bpm 128.500"; lit "status"]).
Proof. vm_compute. reflexivity. Qed.

Lemma only_tempo_witness :
  ∃ session, ct_session (demo_run demo_actions) = Some session ∧
    tempo_sent (Some 128500) (cs_writer session).
Proof.
  destruct (ct_session (demo_run demo_actions)) as [session|] eqn:E; [|vm_compute in E; discriminate E].
  exists session. split; [reflexivity|].
  assert (∀ (port : Z) (w : unit) c, (tcp_connect (CarabinerPeer := demo_peer) port w).2 = Ok c → id c = []) as H1
    by (intros port w c Hc; injection Hc as <-; reflexivity).
  destruct (only_tempo (H := demo_peer) id H1 (λ line c, eq_refl) CarabinerConfiguration_default true tt
    demo_actions session E) as [_ H].
  apply H. vm_compute. reflexivity.
Defined.

Lemma carabiner_mailbox_witness :
  let t := demo_run (firstn 3 demo_actions) in
  pending_work (timing_act (H := demo_peer) (TSynchronize (demo_anchor 128500)) t).1 =
  [DoApply (demo_anchor 128500)].
Proof.
  intros t.
  destruct (carabiner_mailbox (H := demo_peer) CarabinerConfiguration_default tt (firstn 3 demo_actions)
    (TSynchronize (demo_anchor 128500)) ltac:(vm_compute; reflexivity)) as (_ & _ & H).
  unfold mailbox_step in H. etransitivity; [exact H|]. vm_compute. reflexivity.
Defined.

Lemma failure_latches_witness :
  let t := set_ct_session (Some (mkCarabinerSession [[]] [])) (CarabinerTimingOutput_new (K := unit)
    CarabinerConfiguration_default true tt) in
  ct_session (timing_run (H := demo_peer) (do_work (H := demo_peer) 0 (DoApply (demo_anchor 128000)) t).1
    [TSynchronize (demo_anchor 128500); TWorker 1]) = None.
Proof.
  intros t.
  destruct (failure_latches (H := demo_peer) 0 (demo_anchor 128000) t (mkCarabinerSession [[]] [])
    (lit "broken pipe") (mkCarabinerSession [[]; tempo_line 128000] []) [TSynchronize (demo_anchor 128500); TWorker 1]
    eq_refl eq_refl ltac:(vm_compute; reflexivity) ltac:(constructor) ltac:(repeat constructor)) as (_ & _ & _ & _ & H & _).
  exact H.
Defined.
