(* ===== verification/LinkRelay.v ===== *)
(** * The relay of the musical clock

    Models [lumi-engine/src/link_relay.rs] and the forwarding of the Pro DJ Link clock in
    [session.rs].  The relay is generic in its timing output and its theorems are proved
    against the port [TimingOutputProvider]; [Instant::now()] is an argument. *)

From stdpp Require Import prelude list strings.
From Stdlib Require Import ZArith Lia.
From S2P Require Import Prelude.
From S2P Require Import ProLinkProvider.
From S2P Require Import TimingOutput.
Open Scope Z_scope.

(** Durations are nanoseconds. *)
Definition MINIMUM_PROLINK_TIMING_STALE_AFTER : Z := 3 * 1000000000.
Definition MAXIMUM_PROLINK_TIMING_STALE_AFTER : Z := 8 * 1000000000.
Definition PROLINK_TIMING_STALE_BEATS : Z := 8.

Section LinkRelay.
Context {P E : Type} `{TimingOutputProvider P E}.

Record LinkRelay := mkLinkRelay {
  lr_provider : P;
  lr_enabled : bool;
  lr_last_prolink_timing_at : option Instant;
  lr_last_prolink_bpm_milli : option Z;
  lr_last_prolink_playing : option bool;
  lr_last_prolink_deck_number : option Z;
  lr_last_prolink_observed_at_micros : option Z;
  lr_prolink_timing_stale : bool;
}.

Notation relay A := (method LinkRelay str A).

Definition LinkRelay_new (provider : P) : LinkRelay :=
  mkLinkRelay provider false None None None None None false.

Definition set_lr_provider (x : P) (r : LinkRelay) : LinkRelay :=
  mkLinkRelay x (lr_enabled r) (lr_last_prolink_timing_at r) (lr_last_prolink_bpm_milli r)
    (lr_last_prolink_playing r) (lr_last_prolink_deck_number r) (lr_last_prolink_observed_at_micros r)
    (lr_prolink_timing_stale r).

Definition set_lr_enabled (x : bool) (r : LinkRelay) : LinkRelay :=
  mkLinkRelay (lr_provider r) x (lr_last_prolink_timing_at r) (lr_last_prolink_bpm_milli r)
    (lr_last_prolink_playing r) (lr_last_prolink_deck_number r) (lr_last_prolink_observed_at_micros r)
    (lr_prolink_timing_stale r).

Definition set_lr_stale (x : bool) (r : LinkRelay) : LinkRelay :=
  mkLinkRelay (lr_provider r) (lr_enabled r) (lr_last_prolink_timing_at r) (lr_last_prolink_bpm_milli r)
    (lr_last_prolink_playing r) (lr_last_prolink_deck_number r) (lr_last_prolink_observed_at_micros r) x.

(** [self.provider.method().map_err(|error| error.to_string())] *)
Definition on_provider {A} (m : method P E A) : relay A := λ r,
  let '(p, o) := m (lr_provider r) in (set_lr_provider p r, map_err timing_error_message o).

Definition reset_prolink_freshness (r : LinkRelay) : LinkRelay :=
  mkLinkRelay (lr_provider r) (lr_enabled r) None None None None None false.

(** The result of the stop is returned after the relay was reset. *)
Definition set_enabled (enabled : bool) : relay unit := λ r,
  if eqb enabled (lr_enabled r) then (r, Ok tt)
  else if enabled then
    (do! on_provider timing_request_publish then method_modify (set_lr_enabled true)) r
  else
    let '(r, stop_result) := on_provider timing_stop r in
    (reset_prolink_freshness (set_lr_enabled false r), stop_result).

(** [current < previous], when both are known. *)
Definition observed_before (r : LinkRelay) (o : LinkClockObservation) : bool :=
  match lr_last_prolink_observed_at_micros r, lco_observed_at_micros o with
  | Some previous, Some current => current <? previous
  | _, _ => false
  end.

Definition materially_changed (r : LinkRelay) (o : LinkClockObservation) : bool :=
  lr_prolink_timing_stale r
  || negb (bool_decide (lr_last_prolink_bpm_milli r = Some (lco_bpm_milli o)))
  || negb (bool_decide (lr_last_prolink_playing r = Some (lco_playing o)))
  || negb (bool_decide (lr_last_prolink_deck_number r = lco_deck_number o)).

(** What the relay remembers of an observation of Pro DJ Link. *)
Definition remember (now : Instant) (o : LinkClockObservation) (r : LinkRelay) : LinkRelay :=
  mkLinkRelay (lr_provider r) (lr_enabled r) (Some now) (Some (lco_bpm_milli o)) (Some (lco_playing o))
    (lco_deck_number o) (lco_observed_at_micros o) false.

Definition relay_synchronize (now : Instant) (o : LinkClockObservation) : relay unit := λ r,
  if negb (lr_enabled r) then (r, Ok tt)
  else
    match lco_source o with
    | ProDjLinkTiming =>
        if observed_before r o then (r, Ok tt)
        else
          let changed := materially_changed r o in
          let r := remember now o r in
          if changed then on_provider (timing_synchronize o) r else (r, Ok tt)
    | LocalPlaybackTiming => on_provider (timing_synchronize o) (reset_prolink_freshness r)
    end.

Definition relay_fail_closed (reason : str) : relay unit := λ r,
  if negb (lr_enabled r) || lr_prolink_timing_stale r then (r, Ok tt)
  else (do! on_provider (timing_fail_closed reason) then method_modify (set_lr_stale true)) r.

(** [Duration::from_micros(60_000_000_000 * 8 / bpm)], clamped; no tempo or none above zero
    gives the minimum. *)
Definition prolink_timing_stale_after (bpm_milli : option Z) : Z :=
  let beat_window :=
    match bpm_milli with
    | Some bpm =>
        if 0 <? bpm then saturating_mul_u64 60000000000 PROLINK_TIMING_STALE_BEATS / bpm * 1000
        else MINIMUM_PROLINK_TIMING_STALE_AFTER
    | None => MINIMUM_PROLINK_TIMING_STALE_AFTER
    end in
  Z.max MINIMUM_PROLINK_TIMING_STALE_AFTER (Z.min beat_window MAXIMUM_PROLINK_TIMING_STALE_AFTER).

Definition reconcile_prolink_freshness (now : Instant) (source_ready : bool) (source_status : str) :
    relay unit := λ r,
  if negb (lr_enabled r) || lr_prolink_timing_stale r then (r, Ok tt)
  else
    match lr_last_prolink_timing_at r with
    | None => (r, Ok tt)
    | Some last_timing_at =>
        if source_ready && bool_decide (lr_last_prolink_playing r = Some false) then (r, Ok tt)
        else
          let age := Z.max 0 (now - last_timing_at) in
          if source_ready && (age <=? prolink_timing_stale_after (lr_last_prolink_bpm_milli r)) then (r, Ok tt)
          else
            relay_fail_closed
              (if source_ready
               then lit "Pro DJ Link timing is stale (" ++ show_u (age / 1000000) ++
                    lit " ms without a clock observation); last Link tempo preserved"
               else lit "Pro DJ Link source is " ++ source_status ++ lit "; last Link tempo preserved") r
    end.

(** [prolink_link_clock] of [session.rs] *)
Definition prolink_link_clock (o : ProLinkTimingObservation) : LinkClockObservation :=
  mkLinkClockObservation ProDjLinkTiming (Some (pto_deck_id o)) (pto_effective_bpm_milli o)
    (pto_beat_within_bar o) (pto_playing o) (Some (pto_observed_at_nanos o / 1000)).

(** [forward_direct_prolink_clock] of [session.rs], on the drained observations. *)
Fixpoint forward_prolink_clock (now : Instant) (os : list ProLinkTimingObservation) (r : LinkRelay) : LinkRelay :=
  match os with
  | [] => r
  | o :: os =>
      let '(r, outcome) := relay_synchronize now (prolink_link_clock o) r in
      let r := match outcome with
               | Ok _ => r
               | Err error => (relay_fail_closed (lit "Ableton Link clock relay failed: " ++ error) r).1
               end in
      forward_prolink_clock now os r
  end.

(** ** What reaches the timing output *)

Inductive TimingCall : Type :=
| CallPublish
| CallSynchronize (o : LinkClockObservation)
| CallFailClosed
| CallStop.

(** The calls a timing output has got; each of the operations the relay uses is one. *)
Class Recorded := {
  calls : P → list TimingCall;
  calls_publish : ∀ p, calls (timing_request_publish p).1 = calls p ++ [CallPublish];
  calls_synchronize : ∀ o p, calls (timing_synchronize o p).1 = calls p ++ [CallSynchronize o];
  calls_fail_closed : ∀ reason p, calls (timing_fail_closed reason p).1 = calls p ++ [CallFailClosed];
  calls_stop : ∀ p, calls (timing_stop p).1 = calls p ++ [CallStop];
}.

Inductive RelayOp : Type :=
| REnable (enabled : bool)
| RSynchronize (now : Instant) (o : LinkClockObservation)
| RFailClosed (reason : str)
| RReconcile (now : Instant) (source_ready : bool) (source_status : str).

Definition relay_op (op : RelayOp) : relay unit :=
  match op with
  | REnable enabled => set_enabled enabled
  | RSynchronize now o => relay_synchronize now o
  | RFailClosed reason => relay_fail_closed reason
  | RReconcile now ready status => reconcile_prolink_freshness now ready status
  end.

Definition relay_run (r : LinkRelay) (ops : list RelayOp) : LinkRelay :=
  foldl (λ r op, (relay_op op r).1) r ops.

(** What makes an observation worth forwarding. *)
Definition clock_key (o : LinkClockObservation) : Z * bool * option Z :=
  (lco_bpm_milli o, lco_playing o, lco_deck_number o).

(** Two observations of Pro DJ Link with the same key, one right after the other. *)
Definition repeated (a b : TimingCall) : Prop :=
  match a, b with
  | CallSynchronize x, CallSynchronize y =>
      lco_source x = ProDjLinkTiming ∧ lco_source y = ProDjLinkTiming ∧ clock_key x = clock_key y
  | _, _ => False
  end.

Fixpoint no_repetition (l : list TimingCall) : Prop :=
  match l with
  | a :: (b :: _) as rest => ¬ repeated a b ∧ no_repetition rest
  | _ => True
  end.

Definition is_prolink_call (c : TimingCall) : Prop :=
  match c with CallSynchronize o => lco_source o = ProDjLinkTiming | _ => False end.

(** The last observation handed over; at most failures to stop came after it. *)
Definition current (o : LinkClockObservation) (log : list TimingCall) : Prop :=
  ∃ earlier later, log = earlier ++ CallSynchronize o :: later ∧ Forall (eq CallFailClosed) later.

Context `{Recorded}.

(** What the relay remembers and the calls [log] it made. *)
Record relay_inv (before log : list TimingCall) (r : LinkRelay) : Prop := {
  ri_calls : calls (lr_provider r) = before ++ log;
  ri_once : no_repetition log;
  ri_stale : lr_prolink_timing_stale r = true → last log = Some CallFailClosed;
  ri_off : lr_enabled r = false → lr_last_prolink_bpm_milli r = None ∧ lr_prolink_timing_stale r = false;
  ri_current : match lr_last_prolink_bpm_milli r with
               | Some bpm => ∃ o, current o log ∧ lco_source o = ProDjLinkTiming ∧ lco_bpm_milli o = bpm ∧
                   lr_last_prolink_playing r = Some (lco_playing o) ∧
                   lr_last_prolink_deck_number r = lco_deck_number o
               | None => ∀ c, last log = Some c → ¬ is_prolink_call c
               end;
}.

Lemma no_repetition_snoc log c :
  no_repetition log → (∀ a, last log = Some a → ¬ repeated a c) → no_repetition (log ++ [c]).
Proof.
  induction log as [|a [|b log] IH]; intros Hl Hc; simpl in *; [done| |].
  - split; [|done]. by apply Hc.
  - destruct Hl as [? ?]. split; [done|]. by apply IH.
Qed.

Lemma provider_call {A} (m : method P E A) r c before log :
  (∀ p, calls (m p).1 = calls p ++ [c]) → calls (lr_provider r) = before ++ log →
  let r' := (on_provider m r).1 in
  r' = set_lr_provider (lr_provider r') r ∧ calls (lr_provider r') = before ++ (log ++ [c]).
Proof.
  intros Hm Hl. unfold on_provider. specialize (Hm (lr_provider r)). destruct (m (lr_provider r)) as [p o].
  simpl in *. split; [done|]. by rewrite Hm, Hl, app_assoc.
Qed.

Lemma inv_new p : relay_inv (calls p) [] (LinkRelay_new p).
Proof. split; simpl; try done. by rewrite app_nil_r. Qed.

Lemma inv_fail_closed before log r reason :
  relay_inv before log r → ∃ log', relay_inv before log' (relay_fail_closed reason r).1.
Proof.
  intros Hi. unfold relay_fail_closed. destruct (lr_enabled r) eqn:Ee; [|by exists log]. cbn [negb orb].
  destruct (lr_prolink_timing_stale r) eqn:Es; [by exists log|]. destruct Hi as [H1 H2 H3 H4 H5].
  exists (log ++ [CallFailClosed]).
  destruct (provider_call (timing_fail_closed reason) r CallFailClosed before log (calls_fail_closed reason) H1)
    as [Hr Hc].
  unfold method_bind. destruct (on_provider _ r) as [r' o]. cbn [fst] in *.
  assert (relay_inv before (log ++ [CallFailClosed]) r') as Hi'.
  { rewrite Hr. rewrite Hr in Hc. split; simpl in *; try done.
    - apply no_repetition_snoc; [done|]. by intros [] _ [].
    - intros _. apply last_snoc.
    - destruct (lr_last_prolink_bpm_milli r) as [b|]; [|intros c; rewrite last_snoc; by intros [= <-] []].
      destruct H5 as (x & (earlier & later & -> & Hl) & Hx). exists x. split; [|done].
      exists earlier, (later ++ [CallFailClosed]). rewrite <- app_assoc. split; [done|].
      apply Forall_app. by split; [|apply Forall_singleton]. }
  destruct o as [[]|e]; [|done]. destruct Hi' as [G1 G2 G3 G4 G5]. split; simpl; try done.
  - intros _. apply last_snoc.
  - rewrite Hr. simpl. by rewrite Ee.
Qed.

(** The key the relay remembers is the one of the last call, unless something was said in
    between. *)
Lemma changed_not_repeated before log r o :
  relay_inv before log r → lco_source o = ProDjLinkTiming → materially_changed r o = true →
  ∀ a, last log = Some a → ¬ repeated a (CallSynchronize o).
Proof.
  intros [_ _ H3 _ H5] Ho Hm a Ha Hrep. destruct a as [|x| |]; try done. destruct Hrep as (Hx & _ & Hk).
  destruct (lr_prolink_timing_stale r) eqn:Es; [rewrite H3 in Ha; done|].
  destruct (lr_last_prolink_bpm_milli r) as [b|] eqn:Eb; [|by apply (H5 _ Ha)].
  destruct H5 as (y & (earlier & later & -> & Hl) & _ & <- & Hp & Hd).
  assert (later = [] ∨ ∃ l, later = l ++ [CallFailClosed]) as [->|(l & ->)].
  { destruct later as [|c l _] using rev_ind; [by left|right]. apply Forall_app in Hl as [_ Hl].
    apply Forall_inv in Hl. exists l. by rewrite <- Hl. }
  - rewrite last_snoc in Ha. injection Ha as ->. unfold materially_changed in Hm.
    rewrite Es, Eb, Hp, Hd in Hm. injection Hk as E1 E2 E3. rewrite E1, E2, E3 in Hm.
    by rewrite !bool_decide_true in Hm by done.
  - change (CallSynchronize y :: l ++ [CallFailClosed]) with ((CallSynchronize y :: l) ++ [CallFailClosed]) in Ha.
    by rewrite app_assoc, last_snoc in Ha.
Qed.

Lemma inv_synchronize before log r now o :
  relay_inv before log r →
  ∃ log', relay_inv before log' (relay_synchronize now o r).1 ∧
    (lr_enabled r = true → lco_source o = ProDjLinkTiming → observed_before r o = false →
     let r' := (relay_synchronize now o r).1 in
     (∃ x, current x log' ∧ clock_key x = clock_key o) ∧ lr_prolink_timing_stale r' = false ∧
     (lr_prolink_timing_stale r = true → log' = log ++ [CallSynchronize o])).
Proof.
  intros Hi. unfold relay_synchronize. destruct (lr_enabled r) eqn:Ee; [|by exists log]. cbn [negb].
  destruct (lco_source o) eqn:Eo.
  { exists (log ++ [CallSynchronize o]). split; [|done]. destruct Hi as [H1 H2 H3 H4 H5].
    destruct (provider_call (timing_synchronize o) (reset_prolink_freshness r) _ before log (calls_synchronize o) H1)
      as [Hr Hc].
    rewrite Hr in Hc |- *. split; simpl in *; try done.
    - apply no_repetition_snoc; [done|]. intros [|x| |] _ Hx; try done. destruct Hx as (_ & Hx & _). congruence.
    - intros c. rewrite last_snoc. intros [= <-]. simpl. congruence. }
  destruct (observed_before r o) eqn:Eob; [by exists log|]. destruct (materially_changed r o) eqn:Em.
  - exists (log ++ [CallSynchronize o]). pose proof (changed_not_repeated _ _ _ _ Hi Eo Em) as Hne.
    destruct Hi as [H1 H2 H3 H4 H5].
    destruct (provider_call (timing_synchronize o) (remember now o r) _ before log (calls_synchronize o) H1) as [Hr Hc].
    rewrite Hr in Hc |- *.
    assert (current o (log ++ [CallSynchronize o])) as Hcur by (by exists log, []).
    split; [|intros _ _ _; split_and!; [by exists o|done|done]].
    split; simpl in *; try done.
    + by apply no_repetition_snoc.
    + by rewrite Ee.
    + by exists o.
  - exists log. destruct Hi as [H1 H2 H3 H4 H5]. unfold materially_changed in Em.
    apply orb_false_iff in Em as [Em E4%negb_false_iff%bool_decide_eq_true].
    apply orb_false_iff in Em as [Em E3%negb_false_iff%bool_decide_eq_true].
    apply orb_false_iff in Em as [E1 E2%negb_false_iff%bool_decide_eq_true].
    rewrite E2 in H5. destruct H5 as (x & Hx & Hs & Hb & Hp & Hd).
    assert (lco_playing x = lco_playing o) as Hpl by congruence.
    assert (lco_deck_number x = lco_deck_number o) as Hdk by congruence.
    split; [split; simpl; try done|].
    + by rewrite Ee.
    + exists x. split_and!; try done; congruence.
    + intros _ _ _. cbn. split_and!; [|done|congruence]. exists x. split; [done|].
      unfold clock_key. by rewrite Hb, Hpl, Hdk.
Qed.

Lemma inv_enable before log r enabled :
  relay_inv before log r → ∃ log', relay_inv before log' (set_enabled enabled r).1.
Proof.
  intros Hi. unfold set_enabled. destruct (eqb enabled (lr_enabled r)) eqn:Eq; [by exists log|].
  destruct Hi as [H1 H2 H3 H4 H5]. destruct enabled.
  - exists (log ++ [CallPublish]). assert (lr_enabled r = false) as Ee by (by destruct (lr_enabled r)).
    destruct (H4 Ee) as [Hb Hs].
    destruct (provider_call timing_request_publish r CallPublish before log calls_publish H1) as [Hr Hc].
    assert (∀ b, relay_inv before (log ++ [CallPublish]) (set_lr_enabled b (set_lr_provider
      (lr_provider (on_provider timing_request_publish r).1) r))) as Hb'.
    { intros b. split; simpl; try done.
      - apply no_repetition_snoc; [done|]. by intros [] _ [].
      - by rewrite Hs.
      - rewrite Hb. intros c. rewrite last_snoc. by intros [= <-] []. }
    unfold method_bind. destruct (on_provider _ r) as [r' o]. cbn [fst] in *. rewrite Hr.
    destruct o as [[]|e]; [apply (Hb' true)|]. specialize (Hb' false). unfold set_lr_enabled in Hb'. simpl in Hb'.
    unfold set_lr_provider in *. by rewrite Ee.
  - exists (log ++ [CallStop]).
    destruct (provider_call timing_stop r CallStop before log calls_stop H1) as [Hr Hc].
    destruct (on_provider timing_stop r) as [r' o]. cbn [fst] in *. rewrite Hr in Hc |- *. split; simpl in *; try done.
    + apply no_repetition_snoc; [done|]. by intros [] _ [].
    + intros c. rewrite last_snoc. by intros [= <-] [].
Qed.

Lemma inv_op before log r op :
  relay_inv before log r → ∃ log', relay_inv before log' (relay_op op r).1.
Proof.
  intros Hi. destruct op as [enabled|now o|reason|now ready status]; cbn [relay_op].
  - by eapply inv_enable.
  - destruct (inv_synchronize before log r now o Hi) as (log' & ? & _). by exists log'.
  - by eapply inv_fail_closed.
  - unfold reconcile_prolink_freshness. destruct (_ || _); [by exists log|].
    destruct (lr_last_prolink_timing_at r); [|by exists log]. destruct (_ && _); [by exists log|]. cbv zeta.
    destruct (_ && _); [by exists log|]. by eapply inv_fail_closed.
Qed.

Lemma inv_run before ops : ∀ log r,
  relay_inv before log r → ∃ log', relay_inv before log' (relay_run r ops).
Proof.
  induction ops as [|op ops IH]; intros log r Hi; [by exists log|].
  destruct (inv_op before log r op Hi) as [log' Hi']. by apply (IH log').
Qed.

(** The timing output always has the selected clock.  However enabling, observations,
    failures and freshness checks follow one another, and whether the timing output accepts
    or refuses: an observation of Pro DJ Link that is not older than the last leaves the
    timing output with an observation of the same tempo, deck and playing state as the last
    one it was given, and the relay fresh; the first one after a failure is handed over even
    when nothing changed; and no two observations that agree in all three are handed over
    one right after the other. *)
Theorem relay_forwards p ops now o :
  let r := relay_run (LinkRelay_new p) ops in
  let r' := (relay_synchronize now o r).1 in
  ∃ log log', calls (lr_provider r) = calls p ++ log ∧ calls (lr_provider r') = calls p ++ log' ∧
    no_repetition log' ∧
    (lr_prolink_timing_stale r = true → last log = Some CallFailClosed) ∧
    (lr_enabled r = true → lco_source o = ProDjLinkTiming → observed_before r o = false →
     (∃ x, current x log' ∧ clock_key x = clock_key o) ∧ lr_prolink_timing_stale r' = false ∧
     (lr_prolink_timing_stale r = true → log' = log ++ [CallSynchronize o])).
Proof.
  intros r r'. destruct (inv_run (calls p) ops [] _ (inv_new p)) as [log Hi]. fold r in Hi.
  destruct (inv_synchronize _ log r now o Hi) as (log' & Hi' & Hs). exists log, log'.
  split_and!; [apply Hi|apply Hi'|apply Hi'|apply Hi|exact Hs].
Qed.

(** How long a silent source is trusted.  The window is eight beats of the last tempo,
    but at least three and at most eight seconds, and a faster tempo never lengthens it;
    while the relay is enabled and not yet stale, a ready source that plays is reported
    exactly when its last observation is older than the window, a ready source that stands
    still never is, and a source that is not ready always is. *)
Theorem relay_staleness r now status bpm bpm' :
  lr_enabled r = true → lr_prolink_timing_stale r = false →
  lr_last_prolink_bpm_milli r = Some bpm → 0 < bpm ≤ bpm' →
  let window := prolink_timing_stale_after (Some bpm) in
  (3000000000 ≤ window ≤ 8000000000 ∧ prolink_timing_stale_after (Some bpm') ≤ window ∧
   (60000 ≤ bpm ≤ 160000 → window * bpm ≤ 8 * 60000000000000 < (window + 1000) * bpm)) ∧
  ∀ at_, lr_last_prolink_timing_at r = Some at_ →
    (lr_last_prolink_playing r = Some false → (reconcile_prolink_freshness now true status r).1 = r) ∧
    (lr_last_prolink_playing r = Some true →
       (now - at_ ≤ window → (reconcile_prolink_freshness now true status r).1 = r) ∧
       (window < now - at_ → ∃ reason, reconcile_prolink_freshness now true status r = relay_fail_closed reason r)) ∧
    ∃ reason, reconcile_prolink_freshness now false status r = relay_fail_closed reason r.
Proof.
  intros He Hs Hb Hbpm window.
  assert (∀ b, 0 < b → prolink_timing_stale_after (Some b) =
    Z.max 3000000000 (Z.min (480000000000 / b * 1000) 8000000000)) as Hw.
  { intros b Hb0. unfold prolink_timing_stale_after. by rewrite (proj2 (Z.ltb_lt 0 b) Hb0). }
  assert (3000000000 ≤ window ≤ 8000000000) as Hwin by (unfold window; rewrite Hw by lia; lia).
  split; [split_and!; [lia|lia| |]|].
  - unfold window. rewrite !Hw by lia.
    assert (480000000000 / bpm' ≤ 480000000000 / bpm) by (apply Z.div_le_compat_l; lia). lia.
  - intros Hr. unfold window. rewrite Hw by lia.
    pose proof (Z.mul_div_le 480000000000 bpm ltac:(lia)) as H1.
    pose proof (Z.mul_succ_div_gt 480000000000 bpm ltac:(lia)) as H2.
    assert (3000000 ≤ 480000000000 / bpm ≤ 8000000) as H3.
    { split; [apply Z.div_le_lower_bound; lia|apply Z.div_le_upper_bound; lia]. }
    rewrite Z.min_l, Z.max_r by lia. nia.
  - intros at_ Hat. unfold reconcile_prolink_freshness. rewrite He, Hs, Hat. cbn [negb orb].
    split_and!.
    + intros Hp. by rewrite Hp.
    + intros Hp. rewrite Hp, Hb. cbn [andb]. rewrite (bool_decide_false (Some true = Some false)) by done.
      fold window. split; intros Hage.
      * by rewrite (proj2 (Z.leb_le _ _)) by lia.
      * rewrite (proj2 (Z.leb_gt _ _)) by lia. by eexists.
    + by eexists.
Qed.
End LinkRelay.

(** Every timing output can be watched: the calls are kept beside it. *)
Section Logged.
Context {P E : Type} `{TimingOutputProvider P E}.

Definition logged {A} (c : TimingCall) (m : method P E A) : method (P * list TimingCall) E A := λ p,
  let '(p', r) := m p.1 in (p', p.2 ++ [c], r).

Definition unlogged {A} (m : method P E A) : method (P * list TimingCall) E A := λ p,
  let '(p', r) := m p.1 in (p', p.2, r).

#[export] Instance logged_provider : TimingOutputProvider (P * list TimingCall) E := {|
  timing_provider_kind p := timing_provider_kind p.1;
  timing_publish := unlogged timing_publish;
  timing_request_publish := logged CallPublish timing_request_publish;
  timing_synchronize o := logged (CallSynchronize o) (timing_synchronize o);
  timing_hold := unlogged timing_hold;
  timing_fail_closed reason := logged CallFailClosed (timing_fail_closed reason);
  timing_stop := logged CallStop timing_stop;
  timing_status p := timing_status p.1;
  timing_error_message := timing_error_message;
|}.

#[export, program] Instance logged_recorded : Recorded (P := P * list TimingCall) (E := E) := {| calls := snd |}.
Next Obligation. intros p. simpl. unfold logged. by destruct (timing_request_publish p.1). Qed.
Next Obligation. intros o p. simpl. unfold logged. by destruct (timing_synchronize o p.1). Qed.
Next Obligation. intros reason p. simpl. unfold logged. by destruct (timing_fail_closed reason p.1). Qed.
Next Obligation. intros p. simpl. unfold logged. by destruct (timing_stop p.1). Qed.
End Logged.

(** A timing output that only keeps its calls. *)
Definition silent_provider : TimingOutputProvider unit unit := {|
  timing_provider_kind _ := lit "silent";
  timing_publish := method_ret tt;
  timing_request_publish := method_ret tt;
  timing_synchronize _ := method_ret tt;
  timing_hold := method_ret tt;
  timing_fail_closed _ := method_ret tt;
  timing_stop := method_ret tt;
  timing_status _ := TimingOutputStatus_default;
  timing_error_message _ := [];
|}.

Definition demo_tick (bpm_milli at_micros : Z) : LinkClockObservation :=
  mkLinkClockObservation ProDjLinkTiming (Some 2) bpm_milli 1 true (Some at_micros).

Definition demo_relay : LinkRelay (P := unit * list TimingCall) :=
  relay_run (H := logged_provider (H := silent_provider)) (LinkRelay_new (tt, []))
    [REnable true; RSynchronize 0 (demo_tick 128000 10); RSynchronize 1000 (demo_tick 128000 20);
     RReconcile 5000000000 true []].

(** An identical observation is not handed over; after the outage it is. *)
Lemma relay_forwards_witness :
  (lr_provider demo_relay).2 = [CallPublish; CallSynchronize (demo_tick 128000 10); CallFailClosed] ∧
  ∃ log', log' = (lr_provider demo_relay).2 ++ [CallSynchronize (demo_tick 128000 30)].
Proof.
  split; [vm_compute; reflexivity|].
  destruct (relay_forwards (H := logged_provider (H := silent_provider)) (H0 := logged_recorded) (tt, [])
    [REnable true; RSynchronize 0 (demo_tick 128000 10); RSynchronize 1000 (demo_tick 128000 20);
     RReconcile 5000000000 true []] 6000000000 (demo_tick 128000 30)) as (log & log' & Hl & _ & _ & _ & Hs).
  exists log'. destruct Hs as (_ & _ & Hs); [vm_compute; reflexivity..|]. cbn [calls logged_recorded snd app] in Hl.
  unfold demo_relay. rewrite Hl. apply Hs. vm_compute. reflexivity.
Defined.

Lemma relay_staleness_witness :
  let r := mkLinkRelay tt true (Some 0) (Some 120000) (Some true) (Some 2) None false in
  prolink_timing_stale_after (Some 120000) = 4000000000 ∧
  (reconcile_prolink_freshness (H := silent_provider) 4000000000 true [] r).1 = r.
Proof.
  intros r. split; [vm_compute; reflexivity|].
  destruct (relay_staleness (H := silent_provider) r 4000000000 [] 120000 120000 eq_refl eq_refl eq_refl ltac:(lia))
    as [_ H].
  destruct (H 0 eq_refl) as (_ & H1 & _). apply H1; [reflexivity|]. vm_compute. discriminate.
Defined.
