(* ===== verification/RemoteCommands.v ===== *)
(** * The contract of Lumi Remote: commands and authentication

    Models [command.rs] and [auth.rs] of [lumi-remote-protocol]: what a phone may ask for,
    the greeting with which it authenticates or pairs, and the validation of both.  The JSON
    of these messages is derived code of [serde], a library. *)

From stdpp Require Import prelude list gmap strings.
From Stdlib Require Import ZArith Lia.
From S2P Require Import Prelude.
Open Scope Z_scope.

(** ** Identifiers *)

Definition has_control (value : str) : bool := existsb char_is_control value.

(** [value.is_empty() || value.len() > maximum || value.chars().any(char::is_control)]. *)
Definition identifier_invalid (maximum : Z) (value : str) : bool :=
  bool_decide (value = []) || (maximum <? str_len value) || has_control value.

(** What the validation of an identifier accepts. *)
Definition identifier_ok (maximum : Z) (value : str) : Prop :=
  value ≠ [] ∧ str_len value ≤ maximum ∧ Forall (λ c, char_is_control c = false) value.

Lemma has_control_spec value : has_control value = false ↔ Forall (λ c, char_is_control c = false) value.
Proof.
  unfold has_control. induction value as [|c value IH]; simpl.
  - split; [constructor|done].
  - rewrite orb_false_iff, Forall_cons. by rewrite IH.
Qed.

Lemma identifier_invalid_spec maximum value :
  identifier_invalid maximum value = false ↔ identifier_ok maximum value.
Proof.
  unfold identifier_invalid, identifier_ok. rewrite !orb_false_iff, bool_decide_eq_false, Z.ltb_ge, has_control_spec.
  tauto.
Qed.

(** ** Commands *)

Inductive OperationTarget : Type := TargetOff | TargetArmed | TargetLive | TargetPaused.

Inductive RemoteLaunchPolicy : Type := RemoteImmediate | RemoteOnPhraseStart.

Inductive RemoteCommandKind : Type :=
| RcSetOperationState (operation_state : OperationTarget) (expected_state_revision : Z)
| RcSetAbletonLinkEnabled (enabled : bool) (expected_state_revision : Z)
| RcSetOutputTimingOffset (millis expected_state_revision : Z)
    (expected_timing_offset_millis : option Z)
| RcSetLaunchPolicy (policy expected_policy : RemoteLaunchPolicy)
| RcSelectThemeFromPhrase (plan_id : str) (track_load_id expected_plan_revision phrase_index theme_id : Z)
| RcSelectAutoloopForPhrase (plan_id : str)
    (track_load_id expected_plan_revision phrase_index autoloop_number : Z)
| RcChangePhraseRole (plan_id : str) (track_load_id expected_plan_revision phrase_index : Z)
    (role_id : str)
| RcSetCueLock (plan_id : str) (track_load_id expected_plan_revision phrase_index : Z) (locked : bool)
| RcRequestSnapshot.

Record RemoteCommand := mkRemoteCommand {
  rc_command_id : str;
  rc_controller_lease_id : str;
  rc_issued_at_unix_millis : Z;
  rc_command : RemoteCommandKind;
}.

#[global] Instance OperationTarget_eq_dec : EqDecision OperationTarget.
Proof. solve_decision. Defined.
#[global] Instance RemoteLaunchPolicy_eq_dec : EqDecision RemoteLaunchPolicy.
Proof. solve_decision. Defined.
#[global] Instance RemoteCommandKind_eq_dec : EqDecision RemoteCommandKind.
Proof. solve_decision. Defined.
#[global] Instance RemoteCommand_eq_dec : EqDecision RemoteCommand.
Proof. solve_decision. Defined.

Inductive RemoteCommandError : Type :=
| RceInvalidIdentifier (field : string)
| RceTimingOffsetOutOfRange
| RceAutoloopOutOfRange.

Definition command_identifier (field : string) (value : str) (maximum : Z) :
    result unit RemoteCommandError :=
  if identifier_invalid maximum value then Err (RceInvalidIdentifier field) else Ok tt.

(** [(-250..=250).contains(millis)]. *)
Definition offset_in_range (millis : Z) : bool := (-250 <=? millis) && (millis <=? 250).

(** [is_some_and(|value| !(-250..=250).contains(&value))]. *)
Definition offset_out_of_range (millis : option Z) : bool :=
  match millis with Some value => negb (offset_in_range value) | None => false end.

Definition RemoteCommand_validate (command : RemoteCommand) : result unit RemoteCommandError :=
  let? _ := command_identifier "commandId" (rc_command_id command) 128 in
  let? _ := command_identifier "controllerLeaseId" (rc_controller_lease_id command) 128 in
  match rc_command command with
  | RcSetOutputTimingOffset millis _ expected_timing_offset_millis =>
      if negb (offset_in_range millis) || offset_out_of_range expected_timing_offset_millis
      then Err RceTimingOffsetOutOfRange
      else Ok tt
  | RcSelectAutoloopForPhrase plan_id _ _ _ autoloop_number =>
      let? _ := command_identifier "planId" plan_id 128 in
      if negb ((1 <=? autoloop_number) && (autoloop_number <=? 32)) then Err RceAutoloopOutOfRange
      else Ok tt
  | RcSelectThemeFromPhrase plan_id _ _ _ _ | RcSetCueLock plan_id _ _ _ _ =>
      command_identifier "planId" plan_id 128
  | RcChangePhraseRole plan_id _ _ _ role_id =>
      let? _ := command_identifier "planId" plan_id 128 in
      command_identifier "roleId" role_id 128
  | _ => Ok tt
  end.

Definition RemoteCommand_is_mutating (command : RemoteCommand) : bool :=
  match rc_command command with RcRequestSnapshot => false | _ => true end.

Inductive RemoteCommandResultStatus : Type :=
| ResultAccepted | ResultDuplicate | ResultConflict | ResultRejected.

Record RemoteCommandResult := mkRemoteCommandResult {
  rr_command_id : str;
  rr_status : RemoteCommandResultStatus;
  rr_state_revision : option Z;
  rr_plan_revision : option Z;
  rr_reason_code : option str;
}.

Definition RemoteCommandResult_validate (r : RemoteCommandResult) : result unit RemoteCommandError :=
  let? _ := command_identifier "commandId" (rr_command_id r) 128 in
  match rr_reason_code r with
  | Some reason => command_identifier "reasonCode" reason 64
  | None => Ok tt
  end.

(** ** Authentication *)

Inductive RemoteClientHello : Type :=
| HelloAuthenticate (device_id credential : str) (client_version : option str)
| HelloPair (invitation_id invitation_secret device_id display_name device_credential : str)
    (client_version : option str).

Inductive RemoteServerHello : Type :=
| HelloAuthenticated (installation_id : str) (controller_lease_id controller_display_name : option str)
| HelloPaired (installation_id : str) (controller_lease_id controller_display_name : option str).

Inductive RemoteAuthenticationError : Type := AuthInvalidIdentifier | AuthInvalidSecret.

Definition auth_identifier (value : str) (maximum : Z) : result unit RemoteAuthenticationError :=
  if identifier_invalid maximum value then Err AuthInvalidIdentifier else Ok tt.

Definition validate_version (value : option str) : result unit RemoteAuthenticationError :=
  match value with Some value => auth_identifier value 64 | None => Ok tt end.

Definition validate_secret (value : str) : result unit RemoteAuthenticationError :=
  if negb ((32 <=? str_len value) && (str_len value <=? 512)) || has_control value
  then Err AuthInvalidSecret else Ok tt.

Definition RemoteClientHello_validate (hello : RemoteClientHello) : result unit RemoteAuthenticationError :=
  match hello with
  | HelloAuthenticate device_id credential client_version =>
      let? _ := auth_identifier device_id 128 in
      let? _ := validate_secret credential in
      validate_version client_version
  | HelloPair invitation_id invitation_secret device_id display_name device_credential client_version =>
      let? _ := auth_identifier invitation_id 128 in
      let? _ := validate_secret invitation_secret in
      let? _ := auth_identifier device_id 128 in
      let? _ := auth_identifier display_name 128 in
      let? _ := validate_secret device_credential in
      validate_version client_version
  end.

(** ** What the validation accepts *)

Definition offset_ok (millis : Z) : Prop := -250 ≤ millis ≤ 250.

Record command_ok (command : RemoteCommand) : Prop := {
  co_command_id : identifier_ok 128 (rc_command_id command);
  co_lease_id : identifier_ok 128 (rc_controller_lease_id command);
  co_kind :
    match rc_command command with
    | RcSetOutputTimingOffset millis _ expected =>
        offset_ok millis ∧ from_option offset_ok True expected
    | RcSelectAutoloopForPhrase plan_id _ _ _ number => identifier_ok 128 plan_id ∧ 1 ≤ number ≤ 32
    | RcSelectThemeFromPhrase plan_id _ _ _ _ | RcSetCueLock plan_id _ _ _ _ => identifier_ok 128 plan_id
    | RcChangePhraseRole plan_id _ _ _ role_id => identifier_ok 128 plan_id ∧ identifier_ok 128 role_id
    | _ => True
    end;
}.

Lemma command_identifier_Ok field value maximum u :
  command_identifier field value maximum = Ok u ↔ identifier_ok maximum value.
Proof.
  unfold command_identifier. rewrite <- identifier_invalid_spec. destruct u.
  by destruct (identifier_invalid maximum value).
Qed.

Lemma offset_in_range_spec millis : offset_in_range millis = true ↔ offset_ok millis.
Proof. unfold offset_in_range, offset_ok. rewrite andb_true_iff. lia. Qed.

Lemma offset_out_of_range_spec millis :
  offset_out_of_range millis = false ↔ from_option offset_ok True millis.
Proof.
  destruct millis as [m|]; simpl; [|done]. rewrite negb_false_iff. apply offset_in_range_spec.
Qed.

(** A command passes the validation exactly when its identifiers are within their limits and
    its numbers within the ranges of the booth. *)
Lemma command_validate_spec command u : RemoteCommand_validate command = Ok u ↔ command_ok command.
Proof.
  destruct u. unfold RemoteCommand_validate. transitivity
    (identifier_ok 128 (rc_command_id command) ∧ identifier_ok 128 (rc_controller_lease_id command) ∧
     match rc_command command with
     | RcSetOutputTimingOffset millis _ expected => offset_ok millis ∧ from_option offset_ok True expected
     | RcSelectAutoloopForPhrase plan_id _ _ _ number => identifier_ok 128 plan_id ∧ 1 ≤ number ≤ 32
     | RcSelectThemeFromPhrase plan_id _ _ _ _ | RcSetCueLock plan_id _ _ _ _ => identifier_ok 128 plan_id
     | RcChangePhraseRole plan_id _ _ _ role_id => identifier_ok 128 plan_id ∧ identifier_ok 128 role_id
     | _ => True
     end); [|split; [intros (? & ? & ?); by split|by intros [? ? ?]]].
  split.
  - intros H. unbind H. apply command_identifier_Ok in E, E0. split_and!; [done|done|]. rename H into H3.
    destruct (rc_command command); try done.
    + destruct (negb _ || _) eqn:Er; [done|]. apply orb_false_iff in Er as [E1 E2].
      apply negb_false_iff in E1. by rewrite <- offset_in_range_spec, <- offset_out_of_range_spec.
    + by eapply command_identifier_Ok.
    + apply result_bind_Ok in H3 as ([] & Hp & Hr). apply command_identifier_Ok in Hp.
      destruct (negb _) eqn:Er; [done|]. apply negb_false_iff, andb_true_iff in Er. split; [done|lia].
    + apply result_bind_Ok in H3 as ([] & Hp & Hr). by apply command_identifier_Ok in Hp, Hr.
    + by eapply command_identifier_Ok.
  - intros (H1 & H2 & H3). apply result_bind_Ok. exists tt. split; [by apply command_identifier_Ok|].
    apply result_bind_Ok. exists tt. split; [by apply command_identifier_Ok|]. destruct (rc_command command); try done.
    + rewrite <- offset_in_range_spec, <- offset_out_of_range_spec in H3. by destruct H3 as [-> ->].
    + by apply command_identifier_Ok.
    + destruct H3 as (Hp & Hn & Hn'). apply result_bind_Ok. exists tt. split; [by apply command_identifier_Ok|].
      by rewrite (proj2 (Z.leb_le _ _) Hn), (proj2 (Z.leb_le _ _) Hn').
    + destruct H3 as [Hp Hr]. apply result_bind_Ok. exists tt. split; by apply command_identifier_Ok.
    + by apply command_identifier_Ok.
Qed.

Definition secret_ok (value : str) : Prop :=
  32 ≤ str_len value ≤ 512 ∧ Forall (λ c, char_is_control c = false) value.

Lemma validate_secret_Ok value u : validate_secret value = Ok u ↔ secret_ok value.
Proof.
  destruct u. unfold validate_secret, secret_ok. rewrite <- has_control_spec.
  destruct (Z.leb_spec 32 (str_len value)), (Z.leb_spec (str_len value) 512), (has_control value); simpl;
    split; intros; destruct_and?; try done; lia.
Qed.

Lemma auth_identifier_Ok value maximum u : auth_identifier value maximum = Ok u ↔ identifier_ok maximum value.
Proof.
  unfold auth_identifier. rewrite <- identifier_invalid_spec. destruct u.
  by destruct (identifier_invalid maximum value).
Qed.
