(* ===== verification/RemoteProjection.v ===== *)
(** * What a phone sees: the Live projection

    Models [projection.rs] of [lumi-remote-protocol]: the bounded, path-free picture of the
    running show that is sent to phones, its validation, and its derivation from the engine's
    snapshot.  Parsing the snapshot is derived code of [serde], a parameter here. *)

From stdpp Require Import prelude list gmap sets strings.
From Stdlib Require Import ZArith Lia.
From S2P Require Import Prelude.
From S2P Require Import RemoteCommands.
Open Scope Z_scope.

(** ** The projection *)

Definition MAX_REMOTE_PLAYERS : nat := 2.
Definition MAX_REMOTE_PHRASES : nat := 256.
Definition MAX_REMOTE_HOT_CUES : nat := 16.
Definition MAX_REMOTE_WAVEFORM_POINTS : Z := 16384.
Definition MAX_REMOTE_BEATS : Z := 16384.

Inductive RemoteOperationState : Type := RemoteOff | RemoteArmed | RemoteLive | RemotePaused.

Inductive IntegrationHealth : Type :=
| HealthUnavailable | HealthStarting | IntegrationReady | IntegrationDegraded.

Record RemoteInitialLaunch := mkRemoteInitialLaunch {
  ril_version : Z;
  ril_policy : RemoteLaunchPolicy;
  ril_status : str;
  ril_target_phrase_index : option Z;
  ril_target_beat : option Z;
  ril_target_player : option Z;
  ril_remaining_beats : option Z;
  ril_save_pending : bool;
  ril_save_error : option str;
}.

Record RemoteIntegrationStatus := mkRemoteIntegrationStatus {
  ris_pro_dj_link : IntegrationHealth;
  ris_light_output : IntegrationHealth;
  ris_ableton_link : IntegrationHealth;
  ris_ableton_link_enabled : bool;
  ris_ableton_link_bpm_milli : option Z;
  ris_timing_offset_millis : Z;
  ris_pending_timing_offset_millis : option Z;
  ris_launch : option RemoteInitialLaunch;
}.

Record RemotePlayerUSB := mkRemotePlayerUSB {
  rpu_player_number : Z;
  rpu_state : str;
  rpu_source_name : option str;
  rpu_color_id : option Z;
}.

Record RemoteTrackSource := mkRemoteTrackSource {
  rts_player_number : option Z;
  rts_slot : str;
  rts_state : str;
  rts_source_name : option str;
  rts_color_id : option Z;
}.

Record RemoteTransportAnchor := mkRemoteTransportAnchor {
  rta_track_load_id : Z;
  rta_beat : Z;
  rta_position_millis : option Z;
  rta_effective_bpm_milli : Z;
  rta_playing : bool;
  rta_discontinuity_revision : Z;
  rta_observed_at_unix_millis : Z;
  rta_published_at_unix_millis : option Z;
}.

Record RemoteBeatGrid := mkRemoteBeatGrid {
  rbg_beats_per_bar : Z;
  rbg_duration_millis : Z;
  rbg_times_millis : list Z;
}.

Record RemoteWaveformPoint := mkRemoteWaveformPoint { rwp_low : Z; rwp_mid : Z; rwp_high : Z }.

Record RemoteHotCue := mkRemoteHotCue {
  rhc_index : Z;
  rhc_time_millis : Z;
  rhc_loop_end_millis : option Z;
  rhc_color_rgb : Z;
}.

Record RemotePhrase := mkRemotePhrase {
  rp_index : Z;
  rp_start_beat : Z;
  rp_end_beat : Z;
  rp_kind : str;
  rp_role_id : option str;
  rp_role_name : option str;
  rp_color_rgb : option Z;
}.

Record RemoteTrack := mkRemoteTrack {
  rt_track_id : option Z;
  rt_title : str;
  rt_artist : str;
  rt_original_bpm_milli : Z;
  rt_color_rgb : option Z;
  rt_key : str;
  rt_duration_beats : Z;
  rt_beat_grid : option RemoteBeatGrid;
  rt_waveform : list RemoteWaveformPoint;
  rt_hot_cues : list RemoteHotCue;
  rt_phrases : list RemotePhrase;
}.

Record RemotePlayer := mkRemotePlayer {
  rpl_player_number : Z;
  rpl_hardware_model : option str;
  rpl_track_load_id : Z;
  rpl_transport : RemoteTransportAnchor;
  rpl_track : RemoteTrack;
  rpl_track_source : option RemoteTrackSource;
}.

Record RemoteAutoloopChoice := mkRemoteAutoloopChoice {
  rac_number : Z;
  rac_name : str;
  rac_bank_number : Z;
}.

Record RemotePlanCue := mkRemotePlanCue {
  rpc_phrase_index : Z;
  rpc_start_beat : Z;
  rpc_end_beat : Z;
  rpc_locked : bool;
  rpc_theme_id : option Z;
  rpc_theme_name : option str;
  rpc_autoloop_number : option Z;
  rpc_autoloop_name : option str;
  rpc_static_look_name : option str;
  rpc_available_autoloops : list RemoteAutoloopChoice;
}.

Record RemoteLightPlan := mkRemoteLightPlan {
  rlp_plan_id : str;
  rlp_player_number : Z;
  rlp_track_load_id : Z;
  rlp_revision : Z;
  rlp_theme_id : option Z;
  rlp_theme_name : option str;
  rlp_cues : list RemotePlanCue;
}.

Record RemoteThemeOption := mkRemoteThemeOption { rto_id : Z; rto_name : str }.

Record RemotePhraseRoleOption := mkRemotePhraseRoleOption {
  rpo_id : str;
  rpo_name : str;
  rpo_color_rgb : Z;
}.

Record RemoteLiveProjection := mkRemoteLiveProjection {
  rlv_projection_revision : Z;
  rlv_state_revision : Z;
  rlv_engine_version : str;
  rlv_operation_state : RemoteOperationState;
  rlv_leader_player_number : option Z;
  rlv_integrations : RemoteIntegrationStatus;
  rlv_players : list RemotePlayer;
  rlv_player_usbs : list RemotePlayerUSB;
  rlv_live_plan : option RemoteLightPlan;
  rlv_next_plan : option RemoteLightPlan;
  rlv_theme_options : list RemoteThemeOption;
  rlv_phrase_role_options : list RemotePhraseRoleOption;
}.

Inductive ProjectionError : Type :=
| TooManyPlayers
| InvalidTimingOffset
| UnknownLeader
| InvalidPlayerIdentity
| InvalidTransportAnchor
| WaveformOversized
| BeatGridOversized
| RemoteInvalidBeatGrid
| RemoteTooManyHotCues
| RemoteTooManyPhrases
| RemoteInvalidPhraseRange
| PlanPlayerMismatch
| TooManyPlanCues
| InvalidPlanCue
| InvalidText (field : string)
| InvalidEngineSnapshot (error : str)
| NotConnectedDecks
| InvalidOperationState
| InvalidWaveformStyle.

(** ** Packed waveform points *)

(** [format!("{value:02x}")] of a byte. *)
Definition hex_lower_digit (n : Z) : Z := if n <? 10 then 48 + n else 87 + n.
Definition hex_lower_byte (b : Z) : str := [hex_lower_digit (b / 16); hex_lower_digit (b mod 16)].

Definition waveform_serialize (p : RemoteWaveformPoint) : str :=
  hex_lower_byte (rwp_low p) ++ hex_lower_byte (rwp_mid p) ++ hex_lower_byte (rwp_high p).

(** [serde]'s untagged choice in_range the packed and the expanded form. *)
Inductive WaveformWire : Type := Packed (value : str) | Expanded (low mid high : Z).

Definition remote_hex_nibble (byte : Z) : option Z :=
  if (48 <=? byte) && (byte <=? 57) then Some (byte - 48)
  else if (97 <=? byte) && (byte <=? 102) then Some (byte - 97 + 10)
  else if (65 <=? byte) && (byte <=? 70) then Some (byte - 65 + 10)
  else None.

Definition decode_pair (high low : Z) : option Z :=
  high ← remote_hex_nibble high; low ← remote_hex_nibble low; Some (Z.lor (Z.shiftl high 4) low).

(** [None] is the error of the deserializer. *)
Definition waveform_deserialize (wire : WaveformWire) : option RemoteWaveformPoint :=
  match wire with
  | Expanded low mid high => Some (mkRemoteWaveformPoint low mid high)
  | Packed value =>
      match str_as_bytes value with
      | [b0; b1; b2; b3; b4; b5] =>
          low ← decode_pair b0 b1; mid ← decode_pair b2 b3; high ← decode_pair b4 b5;
          Some (mkRemoteWaveformPoint low mid high)
      | _ => None
      end
  end.

(** ** Validation *)

Definition validate_text (field : string) (value : str) (maximum : Z) (may_be_empty : bool) :
    result unit ProjectionError :=
  if (negb may_be_empty && bool_decide (value = [])) || (maximum <? str_len value) || has_control value
  then Err (InvalidText field) else Ok tt.

Definition validate_optional (field : string) (value : option str) (maximum : Z) (may_be_empty : bool) :
    result unit ProjectionError :=
  match value with Some value => validate_text field value maximum may_be_empty | None => Ok tt end.

(** [Option::is_some]. *)
Definition is_some {A} (o : option A) : bool := option_is_some_and (λ _, true) o.

(** [times.windows(2).any(|window| window[0] >= window[1])]. *)
Fixpoint some_not_later (times : list Z) : bool :=
  match times with
  | a :: ((b :: _) as rest) => (b <=? a) || some_not_later rest
  | _ => false
  end.

Definition beat_grid_invalid (grid : RemoteBeatGrid) : bool :=
  negb (in_range 1 16 (rbg_beats_per_bar grid)) || (rbg_duration_millis grid =? 0)
  || some_not_later (rbg_times_millis grid)
  || option_is_some_and (λ t, rbg_duration_millis grid <? t) (last (rbg_times_millis grid)).

Definition validate_beat_grid (grid : RemoteBeatGrid) : result unit ProjectionError :=
  let? _ := refuse (MAX_REMOTE_BEATS <? Z.of_nat (length (rbg_times_millis grid))) BeatGridOversized in
  refuse (beat_grid_invalid grid) RemoteInvalidBeatGrid.

(** The loop over the phrases, which remembers where the last one ended. *)
Fixpoint validate_remote_phrases (prior_end : Z) (phrases : list RemotePhrase) : result unit ProjectionError :=
  match phrases with
  | [] => Ok tt
  | phrase :: phrases =>
      let? _ := validate_text "phraseKind" (rp_kind phrase) 64 true in
      let? _ := validate_optional "phraseRoleId" (rp_role_id phrase) 128 true in
      let? _ := validate_optional "phraseRoleName" (rp_role_name phrase) 128 true in
      let? _ := refuse ((rp_start_beat phrase <? prior_end) || (rp_end_beat phrase <=? rp_start_beat phrase))
                  RemoteInvalidPhraseRange in
      validate_remote_phrases (rp_end_beat phrase) phrases
  end.

Definition RemoteTrack_validate (t : RemoteTrack) : result unit ProjectionError :=
  let? _ := validate_text "title" (rt_title t) 512 true in
  let? _ := validate_text "artist" (rt_artist t) 512 true in
  let? _ := validate_text "key" (rt_key t) 32 true in
  let? _ := refuse (MAX_REMOTE_WAVEFORM_POINTS <? Z.of_nat (length (rt_waveform t))) WaveformOversized in
  let? _ := refuse (MAX_REMOTE_HOT_CUES <? length (rt_hot_cues t))%nat RemoteTooManyHotCues in
  let? _ := refuse (MAX_REMOTE_PHRASES <? length (rt_phrases t))%nat RemoteTooManyPhrases in
  let? _ := match rt_beat_grid t with Some grid => validate_beat_grid grid | None => Ok tt end in
  validate_remote_phrases 0 (rt_phrases t).

Definition TRACK_SOURCE_STATES : list str :=
  [lit "trusted"; lit "unknown"; lit "conflict"; lit "unavailable"; lit "resolving"].

Definition USB_STATES : list str := TRACK_SOURCE_STATES ++ [lit "empty"; lit "unloading"].

(** [state != "trusted" && (source_name.is_some() || color_id.is_some())]. *)
Definition untrusted_details (state : str) (source_name : option str) (color_id : option Z) : bool :=
  negb (bool_decide (state = lit "trusted")) && (is_some source_name || is_some color_id).

Definition validate_track_source (source : RemoteTrackSource) : result unit ProjectionError :=
  let? _ := refuse (option_is_some_and (λ n, negb (in_range 1 6 n)) (rts_player_number source)
      || negb (bool_decide (rts_state source ∈ TRACK_SOURCE_STATES))
      || option_is_some_and (λ id, 8 <? id) (rts_color_id source)
      || untrusted_details (rts_state source) (rts_source_name source) (rts_color_id source))
      InvalidPlayerIdentity in
  let? _ := validate_text "trackSourceSlot" (rts_slot source) 32 false in
  validate_optional "trackSourceName" (rts_source_name source) 128 false.

Definition RemotePlayer_validate (p : RemotePlayer) : result unit ProjectionError :=
  let? _ := refuse (negb (in_range 1 6 (rpl_player_number p)) || (rpl_track_load_id p =? 0)
      || negb (rta_track_load_id (rpl_transport p) =? rpl_track_load_id p)) InvalidPlayerIdentity in
  let? _ := refuse (option_is_some_and (λ published, published <? rta_observed_at_unix_millis (rpl_transport p))
      (rta_published_at_unix_millis (rpl_transport p))) InvalidTransportAnchor in
  let? _ := validate_optional "hardwareModel" (rpl_hardware_model p) 96 true in
  let? _ := match rpl_track_source p with Some source => validate_track_source source | None => Ok tt end in
  RemoteTrack_validate (rpl_track p).

Definition validate_choice (choice : RemoteAutoloopChoice) : result unit ProjectionError :=
  let? _ := refuse (negb (in_range 1 32 (rac_number choice)) || negb (in_range 1 4 (rac_bank_number choice)))
              InvalidPlanCue in
  validate_text "autoloopChoiceName" (rac_name choice) 256 false.

Definition validate_cue (index : Z) (cue : RemotePlanCue) : result unit ProjectionError :=
  let? _ := refuse (negb (rpc_phrase_index cue =? index) || (rpc_end_beat cue <=? rpc_start_beat cue))
              InvalidPlanCue in
  let? _ := refuse (option_is_some_and (λ n, negb (in_range 1 32 n)) (rpc_autoloop_number cue)) InvalidPlanCue in
  let? _ := validate_optional "themeName" (rpc_theme_name cue) 256 true in
  let? _ := validate_optional "autoloopName" (rpc_autoloop_name cue) 256 true in
  let? _ := validate_optional "staticLookName" (rpc_static_look_name cue) 256 true in
  try_each validate_choice (rpc_available_autoloops cue).

Fixpoint validate_remote_cues (index : Z) (cues : list RemotePlanCue) : result unit ProjectionError :=
  match cues with
  | [] => Ok tt
  | cue :: cues => let? _ := validate_cue index cue in validate_remote_cues (index + 1) cues
  end.

Definition RemoteLightPlan_validate (players : list RemotePlayer) (p : RemoteLightPlan) :
    result unit ProjectionError :=
  let? _ := validate_text "planId" (rlp_plan_id p) 128 false in
  let? _ := refuse (negb (existsb (λ player, (rpl_player_number player =? rlp_player_number p)
      && (rpl_track_load_id player =? rlp_track_load_id p)) players)) PlanPlayerMismatch in
  let? _ := refuse (MAX_REMOTE_PHRASES <? length (rlp_cues p))%nat TooManyPlanCues in
  validate_remote_cues 0 (rlp_cues p).

(** The loop over the mounted media, which remembers the Players it has seen. *)
Fixpoint validate_usbs (seen : list Z) (usbs : list RemotePlayerUSB) : result unit ProjectionError :=
  match usbs with
  | [] => Ok tt
  | usb :: usbs =>
      let? _ := refuse (negb (in_range 1 6 (rpu_player_number usb))
          || bool_decide (rpu_player_number usb ∈ seen)
          || negb (bool_decide (rpu_state usb ∈ USB_STATES))
          || option_is_some_and (λ id, 8 <? id) (rpu_color_id usb)
          || untrusted_details (rpu_state usb) (rpu_source_name usb) (rpu_color_id usb))
          InvalidPlayerIdentity in
      let? _ := validate_optional "usbSourceName" (rpu_source_name usb) 128 false in
      validate_usbs (rpu_player_number usb :: seen) usbs
  end.

Definition plans_of (p : RemoteLiveProjection) : list RemoteLightPlan :=
  omap id [rlv_live_plan p; rlv_next_plan p].

Definition unknown_leader (p : RemoteLiveProjection) : bool :=
  option_is_some_and (λ leader, negb (existsb (λ player, rpl_player_number player =? leader) (rlv_players p)))
    (rlv_leader_player_number p).

Definition RemoteLiveProjection_validate (p : RemoteLiveProjection) : result unit ProjectionError :=
  let? _ := validate_text "engineVersion" (rlv_engine_version p) 64 false in
  let? _ := refuse (MAX_REMOTE_PLAYERS <? length (rlv_players p))%nat TooManyPlayers in
  let? _ := refuse (6 <? length (rlv_player_usbs p))%nat TooManyPlayers in
  let? _ := validate_usbs [] (rlv_player_usbs p) in
  let? _ := refuse ((250 <? Z.abs (ris_timing_offset_millis (rlv_integrations p)))
      || option_is_some_and (λ value, 250 <? Z.abs value)
           (ris_pending_timing_offset_millis (rlv_integrations p))) InvalidTimingOffset in
  let? _ := refuse (unknown_leader p) UnknownLeader in
  let? _ := try_each RemotePlayer_validate (rlv_players p) in
  let? _ := try_each (RemoteLightPlan_validate (rlv_players p)) (plans_of p) in
  let? _ := try_each (λ theme, validate_text "themeOptionName" (rto_name theme) 128 false)
              (rlv_theme_options p) in
  try_each (λ role,
    let? _ := validate_text "phraseRoleOptionId" (rpo_id role) 128 false in
    validate_text "phraseRoleOptionName" (rpo_name role) 128 false) (rlv_phrase_role_options p).

(** ** The snapshot of the engine, as far as it is read *)

Record EngineDeckSourceWire := mkEngineDeckSourceWire { eds_mode : str; eds_status : str }.

Record EngineUSBMediaWire := mkEngineUSBMediaWire {
  eum_state : str;
  eum_source_name : option str;
  eum_color_id : option Z;
}.

Record EngineDiscoveredPlayerWire := mkEngineDiscoveredPlayerWire {
  edp_player_number : Z;
  edp_usb_media : option EngineUSBMediaWire;
}.

Record EngineDeckInputWire := mkEngineDeckInputWire {
  edi_discovered_players : list EngineDiscoveredPlayerWire;
}.

Record EngineMidiStatusWire := mkEngineMidiStatusWire {
  ems_state : str;
  ems_timing_offset_millis : Z;
  ems_pending_timing_offset_millis : option Z;
  ems_launch : option RemoteInitialLaunch;
}.

Record EngineLinkStatusWire := mkEngineLinkStatusWire {
  els_enabled : bool;
  els_state : str;
  els_bpm_milli : option Z;
}.

Record EngineKeyWire := mkEngineKeyWire { ekw_pitch_class : str; ekw_mode : str; ekw_known : bool }.

Record EngineWaveformWire := mkEngineWaveformWire {
  eww_style : str;
  eww_points : list RemoteWaveformPoint;
}.

Record EnginePhraseRoleWire := mkEnginePhraseRoleWire {
  epr_role_id : str;
  epr_role_name : str;
  epr_color_rgb : option Z;
}.

Record EnginePhraseWire := mkEnginePhraseWire {
  epw_index : Z;
  epw_start_beat : Z;
  epw_end_beat : Z;
  epw_kind : str;
  epw_role : option EnginePhraseRoleWire;
}.

Record EngineTrackWire := mkEngineTrackWire {
  etw_id : option Z;
  etw_title : str;
  etw_artist : str;
  etw_bpm_milli : Z;
  etw_color_rgb : option Z;
  etw_key : EngineKeyWire;
  etw_duration_beats : Z;
  etw_beat_grid : option RemoteBeatGrid;
  etw_waveform_preview : option EngineWaveformWire;
  etw_hot_cues : list RemoteHotCue;
  etw_phrases : list EnginePhraseWire;
}.

Record EngineDeckWire := mkEngineDeckWire {
  edw_deck_id : Z;
  edw_hardware_model : option str;
  edw_track_load_id : Z;
  edw_beat : Z;
  edw_effective_bpm_milli : Z;
  edw_playing : bool;
  edw_playback_position_millis : option Z;
  edw_playback_position_observed_at_unix_millis : option Z;
  edw_transport_revision : option Z;
  edw_track : EngineTrackWire;
  edw_track_source : option RemoteTrackSource;
}.

Record EngineThemeDecisionWire := mkEngineThemeDecisionWire { etd_theme_id : Z; etd_theme_name : str }.

Record EnginePlanActionWire := mkEnginePlanActionWire {
  epa_theme_id : option Z;
  epa_theme_name : option str;
}.

Record EngineNamedEntryWire := mkEngineNamedEntryWire { ene_name : str }.

Record EngineAutoloopChoiceWire := mkEngineAutoloopChoiceWire {
  eac_id : Z;
  eac_name : str;
  eac_bank_number : Z;
}.

Record EngineModifierChoiceWire := mkEngineModifierChoiceWire { emc_name : str; emc_kind : str }.

Record EngineLibraryResolutionWire := mkEngineLibraryResolutionWire {
  elr_autoloop_number : option Z;
  elr_dry_run_entry : option EngineNamedEntryWire;
  elr_choices : list EngineAutoloopChoiceWire;
  elr_modifier_choices : list EngineModifierChoiceWire;
}.

Record EnginePlanCueWire := mkEnginePlanCueWire {
  epc_phrase_index : Z;
  epc_start_beat : Z;
  epc_end_beat : Z;
  epc_locked : bool;
  epc_action : EnginePlanActionWire;
  epc_library_resolution : option EngineLibraryResolutionWire;
}.

Record EnginePlanWire := mkEnginePlanWire {
  epl_plan_id : str;
  epl_deck_id : Z;
  epl_track_load_id : Z;
  epl_revision : Z;
  epl_theme_decision : option EngineThemeDecisionWire;
  epl_cues : list EnginePlanCueWire;
}.

Record EngineThemeWire := mkEngineThemeWire { eth_id : Z; eth_name : str }.

Record EnginePhraseRoleOptionWire := mkEnginePhraseRoleOptionWire {
  ero_id : str;
  ero_name : str;
  ero_color_rgb : Z;
}.

Record EnginePlanningOptionsWire := mkEnginePlanningOptionsWire {
  epo_themes : list EngineThemeWire;
  epo_phrase_roles : list EnginePhraseRoleOptionWire;
}.

Record EngineSnapshotWire := mkEngineSnapshotWire {
  esw_kind : str;
  esw_state_revision : Z;
  esw_operation_state : str;
  esw_engine_version : str;
  esw_leader_deck_id : option Z;
  esw_deck_source : EngineDeckSourceWire;
  esw_deck_input_integration : option EngineDeckInputWire;
  esw_midi_integration : option EngineMidiStatusWire;
  esw_ableton_link_integration : option EngineLinkStatusWire;
  esw_decks : list EngineDeckWire;
  esw_live_plan : option EnginePlanWire;
  esw_next_plan : option EnginePlanWire;
  esw_planning_options : EnginePlanningOptionsWire;
}.

(** ** From the snapshot to the projection *)

(** [u8::try_from] and [u16::try_from] of an unsigned number. *)
Definition try_u8 (n : Z) : option Z := if n <=? U8_MAX then Some n else None.
Definition try_u16 (n : Z) : option Z := if n <=? U16_MAX then Some n else None.

Definition operation_state (value : str) : result RemoteOperationState ProjectionError :=
  if bool_decide (value = lit "off") then Ok RemoteOff
  else if bool_decide (value = lit "armed") then Ok RemoteArmed
  else if bool_decide (value = lit "live") then Ok RemoteLive
  else if bool_decide (value = lit "paused") then Ok RemotePaused
  else Err InvalidOperationState.

Definition integration_health (value : str) : IntegrationHealth :=
  if bool_decide (value ∈ [lit "ready"; lit "running"]) then IntegrationReady
  else if bool_decide (value = lit "starting") then HealthStarting
  else if bool_decide (value ∈ [lit "degraded"; lit "error"; lit "failed"]) then IntegrationDegraded
  else HealthUnavailable.

Definition phrase_into_remote (p : EnginePhraseWire) : result RemotePhrase ProjectionError :=
  let? index := ok_or (try_u16 (epw_index p)) RemoteTooManyPhrases in
  Ok (mkRemotePhrase index (epw_start_beat p) (epw_end_beat p) (epw_kind p)
        (epr_role_id <$> epw_role p) (epr_role_name <$> epw_role p) (epw_role p ≫= epr_color_rgb)).

Definition track_into_remote (t : EngineTrackWire) : result RemoteTrack ProjectionError :=
  let? _ := refuse (option_is_some_and (λ w, negb (bool_decide (eww_style w = lit "rgb"))) (etw_waveform_preview t))
              InvalidWaveformStyle in
  let? phrases := collect phrase_into_remote (etw_phrases t) in
  Ok (mkRemoteTrack (etw_id t) (etw_title t) (etw_artist t) (etw_bpm_milli t) (etw_color_rgb t)
        (if ekw_known (etw_key t)
         then ekw_pitch_class (etw_key t) ++ lit " " ++ ekw_mode (etw_key t) else [])
        (etw_duration_beats t) (etw_beat_grid t) (from_option eww_points [] (etw_waveform_preview t))
        (etw_hot_cues t) phrases).

Definition deck_into_remote (observed_at_unix_millis : Z) (d : EngineDeckWire) :
    result RemotePlayer ProjectionError :=
  let? player_number := ok_or (try_u8 (edw_deck_id d)) InvalidPlayerIdentity in
  let? track := track_into_remote (edw_track d) in
  Ok (mkRemotePlayer player_number (edw_hardware_model d) (edw_track_load_id d)
        (mkRemoteTransportAnchor (edw_track_load_id d) (edw_beat d) (edw_playback_position_millis d)
           (edw_effective_bpm_milli d) (edw_playing d) (default 0 (edw_transport_revision d))
           (default observed_at_unix_millis (edw_playback_position_observed_at_unix_millis d))
           (Some observed_at_unix_millis))
        track (edw_track_source d)).

Definition choice_into_remote (choice : EngineAutoloopChoiceWire) : option RemoteAutoloopChoice :=
  number ← try_u8 (eac_id choice); bank ← try_u8 (eac_bank_number choice);
  Some (mkRemoteAutoloopChoice number (eac_name choice) bank).

Definition cue_into_remote (c : EnginePlanCueWire) : result RemotePlanCue ProjectionError :=
  let? phrase_index := ok_or (try_u16 (epc_phrase_index c)) TooManyPlanCues in
  let resolution := epc_library_resolution c in
  Ok (mkRemotePlanCue phrase_index (epc_start_beat c) (epc_end_beat c) (epc_locked c)
        (epa_theme_id (epc_action c)) (epa_theme_name (epc_action c))
        (resolution ≫= elr_autoloop_number)
        (ene_name <$> (resolution ≫= elr_dry_run_entry))
        (emc_name <$> (resolution ≫= λ r,
           List.find (λ m, bool_decide (emc_kind m = lit "staticLook")) (elr_modifier_choices r)))
        (from_option (λ r, omap choice_into_remote (elr_choices r)) [] resolution)).

Definition plan_into_remote (p : EnginePlanWire) : result RemoteLightPlan ProjectionError :=
  let? player_number := ok_or (try_u8 (epl_deck_id p)) InvalidPlayerIdentity in
  let? cues := collect cue_into_remote (epl_cues p) in
  Ok (mkRemoteLightPlan (epl_plan_id p) player_number (epl_track_load_id p) (epl_revision p)
        (etd_theme_id <$> epl_theme_decision p) (etd_theme_name <$> epl_theme_decision p) cues).

(** [Option::map(f).transpose()?]. *)
Definition transpose_map {A B E} (f : A → result B E) (o : option A) : result (option B) E :=
  match o with Some a => let? b := f a in Ok (Some b) | None => Ok None end.

(** One turn of the loop that selects the two Players to show. *)
Definition select_candidate (decks : list EngineDeckWire) (selected : list Z) (candidate : Z) : list Z :=
  if bool_decide (length selected < MAX_REMOTE_PLAYERS)%nat
     && negb (bool_decide (candidate ∈ selected))
     && existsb (λ deck, edw_deck_id deck =? candidate) decks
  then selected ++ [candidate] else selected.

Definition player_candidates (wire : EngineSnapshotWire) : list Z :=
  option_list (esw_leader_deck_id wire) ++ option_list (epl_deck_id <$> esw_live_plan wire)
  ++ option_list (epl_deck_id <$> esw_next_plan wire)
  ++ sort_by_key id (edw_deck_id <$> esw_decks wire).

Definition selected_players (wire : EngineSnapshotWire) : list Z :=
  foldl (select_candidate (esw_decks wire)) [] (player_candidates wire).

(** [Option::filter]. *)
Definition option_filter {A} (f : A → bool) (o : option A) : option A :=
  match o with Some a => if f a then Some a else None | None => None end.

Definition usb_into_remote (player : EngineDiscoveredPlayerWire) : option RemotePlayerUSB :=
  if negb (in_range 1 6 (edp_player_number player)) then None
  else
    media ← edp_usb_media player;
    let trusted := bool_decide (eum_state media = lit "trusted") in
    Some (mkRemotePlayerUSB (edp_player_number player) (eum_state media)
            (option_filter (λ _, trusted) (eum_source_name media))
            (option_filter (λ _, trusted) (eum_color_id media))).

Definition integrations_of (wire : EngineSnapshotWire) : RemoteIntegrationStatus :=
  mkRemoteIntegrationStatus
    (integration_health (eds_status (esw_deck_source wire)))
    (from_option (λ s, integration_health (ems_state s)) HealthUnavailable (esw_midi_integration wire))
    (from_option (λ s, integration_health (els_state s)) HealthUnavailable (esw_ableton_link_integration wire))
    (option_is_some_and els_enabled (esw_ableton_link_integration wire))
    (esw_ableton_link_integration wire ≫= els_bpm_milli)
    (from_option ems_timing_offset_millis 0 (esw_midi_integration wire))
    (esw_midi_integration wire ≫= ems_pending_timing_offset_millis)
    (esw_midi_integration wire ≫= ems_launch).

(** The longest prefix of the printable characters that fits. *)
Fixpoint push_while_fits (maximum used : Z) (characters : str) : str :=
  match characters with
  | [] => []
  | c :: rest =>
      if maximum <? used + char_len_utf8 c then []
      else c :: push_while_fits maximum (used + char_len_utf8 c) rest
  end.

Definition display_text (maximum : Z) (value : str) : str :=
  push_while_fits maximum 0 (List.filter (λ c, negb (char_is_control c)) value).

Definition normalize_usb (u : RemotePlayerUSB) : RemotePlayerUSB :=
  mkRemotePlayerUSB (rpu_player_number u) (rpu_state u) (display_text 128 <$> rpu_source_name u) (rpu_color_id u).

Definition normalize_source (s : RemoteTrackSource) : RemoteTrackSource :=
  mkRemoteTrackSource (rts_player_number s) (rts_slot s) (rts_state s)
    (display_text 128 <$> rts_source_name s) (rts_color_id s).

Definition normalize_phrase (p : RemotePhrase) : RemotePhrase :=
  mkRemotePhrase (rp_index p) (rp_start_beat p) (rp_end_beat p) (rp_kind p) (rp_role_id p)
    (display_text 128 <$> rp_role_name p) (rp_color_rgb p).

Definition normalize_track (t : RemoteTrack) : RemoteTrack :=
  mkRemoteTrack (rt_track_id t) (display_text 512 (rt_title t)) (display_text 512 (rt_artist t))
    (rt_original_bpm_milli t) (rt_color_rgb t) (rt_key t) (rt_duration_beats t) (rt_beat_grid t)
    (rt_waveform t) (rt_hot_cues t) (normalize_phrase <$> rt_phrases t).

Definition normalize_player (p : RemotePlayer) : RemotePlayer :=
  mkRemotePlayer (rpl_player_number p) (display_text 96 <$> rpl_hardware_model p) (rpl_track_load_id p)
    (rpl_transport p) (normalize_track (rpl_track p)) (normalize_source <$> rpl_track_source p).

Definition normalize_choice (c : RemoteAutoloopChoice) : RemoteAutoloopChoice :=
  mkRemoteAutoloopChoice (rac_number c) (display_text 256 (rac_name c)) (rac_bank_number c).

Definition normalize_cue (c : RemotePlanCue) : RemotePlanCue :=
  mkRemotePlanCue (rpc_phrase_index c) (rpc_start_beat c) (rpc_end_beat c) (rpc_locked c) (rpc_theme_id c)
    (display_text 256 <$> rpc_theme_name c) (rpc_autoloop_number c) (display_text 256 <$> rpc_autoloop_name c)
    (display_text 256 <$> rpc_static_look_name c) (normalize_choice <$> rpc_available_autoloops c).

Definition normalize_plan (p : RemoteLightPlan) : RemoteLightPlan :=
  mkRemoteLightPlan (rlp_plan_id p) (rlp_player_number p) (rlp_track_load_id p) (rlp_revision p)
    (rlp_theme_id p) (rlp_theme_name p) (normalize_cue <$> rlp_cues p).

Definition normalize_theme (t : RemoteThemeOption) : RemoteThemeOption :=
  mkRemoteThemeOption (rto_id t) (display_text 128 (rto_name t)).

Definition normalize_role (r : RemotePhraseRoleOption) : RemotePhraseRoleOption :=
  mkRemotePhraseRoleOption (rpo_id r) (display_text 128 (rpo_name r)) (rpo_color_rgb r).

Definition normalize_display_text (p : RemoteLiveProjection) : RemoteLiveProjection :=
  mkRemoteLiveProjection (rlv_projection_revision p) (rlv_state_revision p) (rlv_engine_version p)
    (rlv_operation_state p) (rlv_leader_player_number p) (rlv_integrations p)
    (normalize_player <$> rlv_players p) (normalize_usb <$> rlv_player_usbs p)
    (normalize_plan <$> rlv_live_plan p) (normalize_plan <$> rlv_next_plan p)
    (normalize_theme <$> rlv_theme_options p) (normalize_role <$> rlv_phrase_role_options p).

(** The projection before its texts are cut to length. *)
Definition project_snapshot (wire : EngineSnapshotWire) (projection_revision observed_at_unix_millis : Z) :
    result RemoteLiveProjection ProjectionError :=
  let selected := selected_players wire in
  let shown id := bool_decide (id ∈ selected) in
  let shown_plan plan := shown (epl_deck_id plan) in
  let? players := collect (deck_into_remote observed_at_unix_millis)
                    (List.filter (λ deck, shown (edw_deck_id deck)) (esw_decks wire)) in
  let? state := operation_state (esw_operation_state wire) in
  let? leader := transpose_map (λ value, ok_or (try_u8 value) InvalidPlayerIdentity)
                   (option_filter shown (esw_leader_deck_id wire)) in
  let? live_plan := transpose_map plan_into_remote (option_filter shown_plan (esw_live_plan wire)) in
  let? next_plan := transpose_map plan_into_remote (option_filter shown_plan (esw_next_plan wire)) in
  Ok (mkRemoteLiveProjection projection_revision (esw_state_revision wire) (esw_engine_version wire)
        state leader (integrations_of wire) players
        (from_option (λ input, omap usb_into_remote (edi_discovered_players input)) []
           (esw_deck_input_integration wire))
        live_plan next_plan
        ((λ t, mkRemoteThemeOption (eth_id t) (eth_name t)) <$> epo_themes (esw_planning_options wire))
        ((λ r, mkRemotePhraseRoleOption (ero_id r) (ero_name r) (ero_color_rgb r))
           <$> epo_phrase_roles (esw_planning_options wire))).

Section Snapshot.
(** [serde_json::from_value] of the payload, or its error. *)
Context {Payload : Type} (from_value : Payload → result EngineSnapshotWire str).

Definition from_engine_snapshot_payload (payload : Payload)
    (projection_revision observed_at_unix_millis : Z) : result RemoteLiveProjection ProjectionError :=
  let? wire := map_err InvalidEngineSnapshot (from_value payload) in
  let? _ := refuse (negb (bool_decide (esw_kind wire = lit "stateSnapshot"))
                    || negb (bool_decide (eds_mode (esw_deck_source wire) = lit "connectedDecks")))
              NotConnectedDecks in
  let? projection := project_snapshot wire projection_revision observed_at_unix_millis in
  let projection := normalize_display_text projection in
  let? _ := RemoteLiveProjection_validate projection in
  Ok projection.
End Snapshot.
