(* ===== verification/RemoteProjectionProps.v ===== *)
(** * The Live projection: properties

    What the validation of a projection accepts, that its texts are cut to length without
    breaking a character, which Players are shown, that packed waveforms are read back, and
    that what is derived from a snapshot keeps all of it. *)

From stdpp Require Import prelude list gmap sets strings.
From Stdlib Require Import ZArith Lia.
From Stdlib Require Import Sorting.Sorted.
From S2P Require Import Prelude.
From S2P Require Import RemoteCommands.
From S2P Require Import RemoteProjection.
Open Scope Z_scope.

(** ** What the validation accepts *)

Definition text_ok (maximum : Z) (may_be_empty : bool) (value : str) : Prop :=
  (may_be_empty = false → value ≠ []) ∧ str_len value ≤ maximum ∧
  Forall (λ c, char_is_control c = false) value.

Definition optional_ok {A} (P : A → Prop) (o : option A) : Prop := from_option P True o.

Definition beat_grid_ok (grid : RemoteBeatGrid) : Prop :=
  Z.of_nat (length (rbg_times_millis grid)) ≤ MAX_REMOTE_BEATS ∧ 1 ≤ rbg_beats_per_bar grid ≤ 16 ∧
  rbg_duration_millis grid ≠ 0 ∧ StronglySorted Z.lt (rbg_times_millis grid) ∧
  Forall (λ t, t ≤ rbg_duration_millis grid) (rbg_times_millis grid).

Record phrase_ok (p : RemotePhrase) : Prop := {
  po_kind : text_ok 64 true (rp_kind p);
  po_role_id : optional_ok (text_ok 128 true) (rp_role_id p);
  po_role_name : optional_ok (text_ok 128 true) (rp_role_name p);
  po_range : rp_start_beat p < rp_end_beat p;
}.

(** Phrases that follow one another from a beat on. *)
Fixpoint phrases_follow (from : Z) (phrases : list RemotePhrase) : Prop :=
  match phrases with
  | [] => True
  | p :: phrases => from ≤ rp_start_beat p ∧ phrases_follow (rp_end_beat p) phrases
  end.

Record remote_track_ok (t : RemoteTrack) : Prop := {
  rto_title : text_ok 512 true (rt_title t);
  rto_artist : text_ok 512 true (rt_artist t);
  rto_key : text_ok 32 true (rt_key t);
  rto_waveform : Z.of_nat (length (rt_waveform t)) ≤ MAX_REMOTE_WAVEFORM_POINTS;
  rto_hot_cues : (length (rt_hot_cues t) ≤ MAX_REMOTE_HOT_CUES)%nat;
  rto_phrase_count : (length (rt_phrases t) ≤ MAX_REMOTE_PHRASES)%nat;
  rto_beat_grid : optional_ok beat_grid_ok (rt_beat_grid t);
  rto_phrases : Forall phrase_ok (rt_phrases t);
  rto_order : phrases_follow 0 (rt_phrases t);
}.

(** Names and colours are shown only of media that are trusted. *)
Definition details_ok (state : str) (source_name : option str) (color_id : option Z) : Prop :=
  optional_ok (text_ok 128 false) source_name ∧ optional_ok (λ id, id ≤ 8) color_id ∧
  (state ≠ lit "trusted" → source_name = None ∧ color_id = None).

Definition track_source_ok (s : RemoteTrackSource) : Prop :=
  optional_ok (λ n, 1 ≤ n ≤ 6) (rts_player_number s) ∧ rts_state s ∈ TRACK_SOURCE_STATES ∧
  text_ok 32 false (rts_slot s) ∧ details_ok (rts_state s) (rts_source_name s) (rts_color_id s).

Record remote_player_ok (p : RemotePlayer) : Prop := {
  rpo_number : 1 ≤ rpl_player_number p ≤ 6;
  rpo_load : rpl_track_load_id p ≠ 0 ∧ rta_track_load_id (rpl_transport p) = rpl_track_load_id p;
  rpo_published : optional_ok (λ t, rta_observed_at_unix_millis (rpl_transport p) ≤ t)
                    (rta_published_at_unix_millis (rpl_transport p));
  rpo_model : optional_ok (text_ok 96 true) (rpl_hardware_model p);
  rpo_source : optional_ok track_source_ok (rpl_track_source p);
  rpo_track : remote_track_ok (rpl_track p);
}.

Definition choice_ok (c : RemoteAutoloopChoice) : Prop :=
  1 ≤ rac_number c ≤ 32 ∧ 1 ≤ rac_bank_number c ≤ 4 ∧ text_ok 256 false (rac_name c).

Record remote_cue_ok (index : Z) (c : RemotePlanCue) : Prop := {
  rco_index : rpc_phrase_index c = index;
  rco_range : rpc_start_beat c < rpc_end_beat c;
  rco_autoloop : optional_ok (λ n, 1 ≤ n ≤ 32) (rpc_autoloop_number c);
  rco_names : Forall (optional_ok (text_ok 256 true))
                [rpc_theme_name c; rpc_autoloop_name c; rpc_static_look_name c];
  rco_choices : Forall choice_ok (rpc_available_autoloops c);
}.

(** The plan of a load that is shown, with a cue per phrase in order. *)
Record remote_plan_ok (players : list RemotePlayer) (p : RemoteLightPlan) : Prop := {
  rpn_id : text_ok 128 false (rlp_plan_id p);
  rpn_player : ∃ player, player ∈ players ∧ rpl_player_number player = rlp_player_number p ∧
                 rpl_track_load_id player = rlp_track_load_id p;
  rpn_count : (length (rlp_cues p) ≤ MAX_REMOTE_PHRASES)%nat;
  rpn_cues : ∀ i c, rlp_cues p !! i = Some c → remote_cue_ok (Z.of_nat i) c;
}.

Definition usb_ok (u : RemotePlayerUSB) : Prop :=
  1 ≤ rpu_player_number u ≤ 6 ∧ rpu_state u ∈ USB_STATES ∧
  details_ok (rpu_state u) (rpu_source_name u) (rpu_color_id u).

Record projection_ok (p : RemoteLiveProjection) : Prop := {
  pj_version : text_ok 64 false (rlv_engine_version p);
  pj_players : (length (rlv_players p) ≤ MAX_REMOTE_PLAYERS)%nat;
  pj_usb_count : (length (rlv_player_usbs p) ≤ 6)%nat;
  pj_usbs : Forall usb_ok (rlv_player_usbs p) ∧ NoDup (rpu_player_number <$> rlv_player_usbs p);
  pj_offsets : offset_ok (ris_timing_offset_millis (rlv_integrations p)) ∧
               optional_ok offset_ok (ris_pending_timing_offset_millis (rlv_integrations p));
  pj_leader : optional_ok (λ n, n ∈ rpl_player_number <$> rlv_players p) (rlv_leader_player_number p);
  pj_player : Forall remote_player_ok (rlv_players p);
  pj_plans : Forall (remote_plan_ok (rlv_players p)) (plans_of p);
  pj_themes : Forall (λ t, text_ok 128 false (rto_name t)) (rlv_theme_options p);
  pj_roles : Forall (λ r, text_ok 128 false (rpo_id r) ∧ text_ok 128 false (rpo_name r))
               (rlv_phrase_role_options p);
}.

(** ** The validation, check by check *)

Lemma bind_unit {E} (r k : result unit E) : (let? _ := r in k) = Ok tt ↔ r = Ok tt ∧ k = Ok tt.
Proof. rewrite result_bind_Ok. split; [by intros ([] & ? & ?)|intros []; by exists tt]. Qed.

Lemma validate_text_Ok field value maximum empty :
  validate_text field value maximum empty = Ok tt ↔ text_ok maximum empty value.
Proof.
  unfold validate_text, text_ok. rewrite <- has_control_spec.
  destruct empty; simpl.
  - destruct (Z.ltb_spec maximum (str_len value)), (has_control value); simpl; naive_solver lia.
  - case_bool_decide; destruct (Z.ltb_spec maximum (str_len value)), (has_control value); simpl; naive_solver lia.
Qed.

Lemma validate_optional_Ok field value maximum empty :
  validate_optional field value maximum empty = Ok tt ↔ optional_ok (text_ok maximum empty) value.
Proof. destruct value as [v|]; simpl; [apply validate_text_Ok|done]. Qed.

Lemma forall_iff {A} (P Q : A → Prop) l : (∀ x, P x ↔ Q x) → Forall P l ↔ Forall Q l.
Proof. intros H. by apply Forall_iff. Qed.

Lemma none_optional {A} (f : A → bool) (P : A → Prop) o :
  (∀ x, f x = false ↔ P x) → option_is_some_and f o = false ↔ optional_ok P o.
Proof. intros H. destruct o; simpl; [apply H|done]. Qed.

Lemma not_in_range low high n : negb (in_range low high n) = false ↔ low ≤ n ≤ high.
Proof. rewrite negb_false_iff. apply in_range_spec. Qed.

Lemma some_not_later_spec l : some_not_later l = false ↔ StronglySorted Z.lt l.
Proof.
  induction l as [|a l IH]; simpl; [split; [constructor|done]|]. destruct l as [|b l].
  - split; [repeat constructor|done].
  - rewrite orb_false_iff, IH, Z.leb_gt. split.
    + intros [Hab Hs]. constructor; [done|]. constructor; [done|]. apply StronglySorted_inv in Hs as [_ Hs].
      eapply Forall_impl; [exact Hs|]. simpl. lia.
    + intros Hs. apply StronglySorted_inv in Hs as [Hs Hf]. split; [by inversion Hf|done].
Qed.

Lemma sorted_last_bound times d :
  StronglySorted Z.lt times →
  option_is_some_and (λ t, d <? t) (last times) = false ↔ Forall (λ t, t ≤ d) times.
Proof.
  induction 1 as [|a l Hs IH Hf]; [split; [constructor|done]|].
  destruct l as [|b l]; [simpl; rewrite Forall_singleton; apply Z.ltb_ge|].
  rewrite last_cons_cons, IH, (Forall_cons _ a). split; [|by intros []].
  intros H. split; [|done]. apply Forall_cons in Hf as [Hf _]. apply Forall_cons in H as [H _]. lia.
Qed.

Lemma validate_beat_grid_Ok grid : validate_beat_grid grid = Ok tt ↔ beat_grid_ok grid.
Proof.
  unfold validate_beat_grid, beat_grid_ok, beat_grid_invalid.
  rewrite bind_unit, !refuse_Ok, Z.ltb_ge, !orb_false_iff, not_in_range, Z.eqb_neq, some_not_later_spec.
  split.
  - intros (H1 & [[H2 H3] H4] & Hl). split_and!; try done; [apply H2|apply H2|]. by apply sorted_last_bound.
  - intros (H1 & H2 & H3 & H4 & Hl). split; [done|]. split; [by split|]. by apply sorted_last_bound.
Qed.

Lemma validate_remote_phrases_Ok from phrases :
  validate_remote_phrases from phrases = Ok tt ↔ Forall phrase_ok phrases ∧ phrases_follow from phrases.
Proof.
  revert from. induction phrases as [|p phrases IH]; intros from; simpl; [split; [split; [constructor|done]|done]|].
  rewrite !bind_unit, refuse_Ok, IH, validate_text_Ok, !validate_optional_Ok, orb_false_iff, Z.ltb_ge, Z.leb_gt,
    Forall_cons. split; [|intros [[[] ?] ?]; tauto].
  intros (? & ? & ? & [? ?] & ? & ?). split; [split|]; [by split|tauto|tauto].
Qed.

Lemma track_validate_Ok t : RemoteTrack_validate t = Ok tt ↔ remote_track_ok t.
Proof.
  unfold RemoteTrack_validate.
  rewrite !bind_unit, !refuse_Ok, !validate_text_Ok, validate_remote_phrases_Ok, Z.ltb_ge, !Nat.ltb_ge.
  assert (match rt_beat_grid t with Some grid => validate_beat_grid grid | None => Ok tt end = Ok tt ↔
    optional_ok beat_grid_ok (rt_beat_grid t)) as ->
    by (destruct (rt_beat_grid t); simpl; [apply validate_beat_grid_Ok|done]).
  split; [intros; destruct_and!; by split|by intros []].
Qed.

Lemma untrusted_details_Ok state name color :
  untrusted_details state name color = false ↔ (state ≠ lit "trusted" → name = None ∧ color = None).
Proof.
  unfold untrusted_details. case_bool_decide as E; cbn [negb andb]; [by split|].
  rewrite orb_false_iff. split.
  - intros [? ?] _. by destruct name, color.
  - intros H. by destruct (H E) as [-> ->].
Qed.

Lemma not_state states state : negb (bool_decide (state ∈ (states : list str))) = false ↔ state ∈ states.
Proof. by rewrite negb_false_iff, bool_decide_eq_true. Qed.

Lemma validate_track_source_Ok s : validate_track_source s = Ok tt ↔ track_source_ok s.
Proof.
  unfold validate_track_source, track_source_ok, details_ok.
  rewrite !bind_unit, refuse_Ok, validate_text_Ok, validate_optional_Ok, !orb_false_iff, not_state,
    untrusted_details_Ok, (none_optional _ (λ n, 1 ≤ n ≤ 6)), (none_optional _ (λ id, id ≤ 8)); [tauto| |].
  - intros n. apply Z.ltb_ge.
  - intros n. apply not_in_range.
Qed.

Lemma player_validate_Ok p : RemotePlayer_validate p = Ok tt ↔ remote_player_ok p.
Proof.
  unfold RemotePlayer_validate.
  rewrite !bind_unit, !refuse_Ok, !orb_false_iff, not_in_range, Z.eqb_neq, negb_false_iff, Z.eqb_eq,
    validate_optional_Ok, track_validate_Ok,
    (none_optional _ (λ t, rta_observed_at_unix_millis (rpl_transport p) ≤ t)) by (intros; apply Z.ltb_ge).
  assert (match rpl_track_source p with Some source => validate_track_source source | None => Ok tt end = Ok tt ↔
    optional_ok track_source_ok (rpl_track_source p)) as ->
    by (destruct (rpl_track_source p); simpl; [apply validate_track_source_Ok|done]).
  split; [intros ([[? ?] ?] & ? & ? & ? & ?); by split|intros [? [? ?] ? ? ? ?]; tauto].
Qed.

Lemma validate_choice_Ok c : validate_choice c = Ok tt ↔ choice_ok c.
Proof.
  unfold validate_choice, choice_ok. rewrite bind_unit, refuse_Ok, orb_false_iff, !not_in_range, validate_text_Ok.
  tauto.
Qed.

Lemma validate_cue_Ok index c : validate_cue index c = Ok tt ↔ remote_cue_ok index c.
Proof.
  unfold validate_cue.
  rewrite !bind_unit, !refuse_Ok, orb_false_iff, negb_false_iff, Z.eqb_eq, Z.leb_gt, !validate_optional_Ok,
    try_each_Ok, (forall_iff _ choice_ok) by apply validate_choice_Ok.
  rewrite (none_optional _ (λ n, 1 ≤ n ≤ 32)) by (intros; apply not_in_range).
  split.
  - intros ([? ?] & ? & ? & ? & ? & ?). split; try done. by repeat constructor.
  - intros [? ? ? Hn ?]. repeat (apply Forall_cons in Hn as [? Hn]). tauto.
Qed.

Lemma validate_remote_cues_Ok cues : ∀ index,
  validate_remote_cues index cues = Ok tt ↔ ∀ i c, cues !! i = Some c → remote_cue_ok (index + Z.of_nat i) c.
Proof.
  induction cues as [|c cues IH]; intros index; simpl; [done|]. rewrite bind_unit, IH, validate_cue_Ok. split.
  - intros [Hc Hs] [|i] c'; simpl; [intros [= <-]; by rewrite Z.add_0_r|]. intros Hi.
    replace (index + Z.of_nat (S i)) with (index + 1 + Z.of_nat i) by lia. by apply Hs.
  - intros H. split; [specialize (H 0%nat c eq_refl); by rewrite Z.add_0_r in H|]. intros i c' Hi.
    replace (index + 1 + Z.of_nat i) with (index + Z.of_nat (S i)) by lia. by apply H.
Qed.

Lemma plan_validate_Ok players p : RemoteLightPlan_validate players p = Ok tt ↔ remote_plan_ok players p.
Proof.
  unfold RemoteLightPlan_validate.
  rewrite !bind_unit, !refuse_Ok, validate_text_Ok, negb_false_iff, existsb_exists, Nat.ltb_ge, validate_remote_cues_Ok.
  assert ((∃ x, In x players ∧ (rpl_player_number x =? rlp_player_number p)
      && (rpl_track_load_id x =? rlp_track_load_id p) = true) ↔
    ∃ player, player ∈ players ∧ rpl_player_number player = rlp_player_number p ∧
      rpl_track_load_id player = rlp_track_load_id p) as ->.
  { apply exist_proper. intros x. by rewrite list_elem_of_In, andb_true_iff, !Z.eqb_eq. }
  split; [intros (? & ? & ? & ?); by split|intros [? ? ? ?]; tauto].
Qed.

Lemma validate_usbs_Ok usbs : ∀ seen,
  validate_usbs seen usbs = Ok tt ↔
  Forall usb_ok usbs ∧ NoDup (rpu_player_number <$> usbs) ∧ Forall (λ u, rpu_player_number u ∉ seen) usbs.
Proof.
  induction usbs as [|u usbs IH]; intros seen; csimpl.
  { split; [intros _; split_and!; constructor|done]. }
  rewrite !bind_unit, refuse_Ok, IH, validate_optional_Ok, !orb_false_iff, not_in_range, not_state,
    bool_decide_eq_false, untrusted_details_Ok, (none_optional _ (λ id, id ≤ 8)) by (intros; apply Z.ltb_ge).
  rewrite !Forall_cons, NoDup_cons. unfold usb_ok, details_ok at 2.
  assert (Forall (λ v, rpu_player_number v ∉ rpu_player_number u :: seen) usbs ↔
    rpu_player_number u ∉ rpu_player_number <$> usbs ∧ Forall (λ v, rpu_player_number v ∉ seen) usbs) as ->.
  { rewrite !Forall_forall. split.
    - intros H. split.
      + intros (v & E & Hv)%list_elem_of_fmap. apply (H v Hv). rewrite E. by left.
      + intros v Hv Hs. apply (H v Hv). by right.
    - intros [Hu Hs] v Hv [E|E]%elem_of_cons; [|by apply (Hs v Hv)].
      apply Hu, list_elem_of_fmap. by exists v. }
  tauto.
Qed.

(** What passes the validation.  A projection is accepted exactly when its texts are
    within their limits and free of control characters; at most two Players are shown, each
    with a load, and the leader is one of them; every plan is that of a load that is shown,
    with one cue per phrase in order and buttons that exist; phrases and beats are in order;
    every mounted medium belongs to a Player of its own, and names and colours are given
    only of media that are trusted. *)
Theorem projection_validate_spec p : RemoteLiveProjection_validate p = Ok tt ↔ projection_ok p.
Proof.
  unfold RemoteLiveProjection_validate.
  rewrite !bind_unit, !refuse_Ok, !try_each_Ok, validate_text_Ok, !Nat.ltb_ge, validate_usbs_Ok, orb_false_iff,
    Z.ltb_ge.
  rewrite (none_optional _ offset_ok) by (intros; unfold offset_ok; rewrite Z.ltb_ge; lia).
  rewrite (forall_iff _ remote_player_ok) by apply player_validate_Ok.
  rewrite (forall_iff _ (remote_plan_ok (rlv_players p))) by apply plan_validate_Ok.
  rewrite (forall_iff _ (λ t, text_ok 128 false (rto_name t))) by (intros; apply validate_text_Ok).
  rewrite (forall_iff _ (λ r, text_ok 128 false (rpo_id r) ∧ text_ok 128 false (rpo_name r)))
    by (intros; rewrite bind_unit, !validate_text_Ok; done).
  unfold unknown_leader. rewrite (none_optional _ (λ n, n ∈ rpl_player_number <$> rlv_players p)).
  2:{ intros n. rewrite negb_false_iff, existsb_exists, list_elem_of_fmap. apply exist_proper.
      intros x. rewrite list_elem_of_In, Z.eqb_eq. naive_solver. }
  assert (∀ n, Z.abs n ≤ 250 ↔ offset_ok n) as -> by (intros; unfold offset_ok; lia).
  split.
  - intros (? & ? & ? & (? & ? & _) & [? ?] & ? & ? & ? & ? & ?). by split.
  - intros [? ? ? [? ?] [? ?] ? ? ? ? ?]. split_and!; try done. by apply Forall_forall; intros ? ? ?%not_elem_of_nil.
Qed.

(** ** Packed waveform points *)

Lemma nibble_digit n : 0 ≤ n < 16 → remote_hex_nibble (hex_lower_digit n) = Some n.
Proof.
  intros Hn. unfold hex_lower_digit, remote_hex_nibble. destruct (Z.ltb_spec n 10) as [Hd|Hd].
  - rewrite (proj2 (Z.leb_le 48 (48 + n))), (proj2 (Z.leb_le (48 + n) 57)) by lia. simpl. f_equal. lia.
  - rewrite (proj2 (Z.leb_gt (87 + n) 57)), andb_false_r by lia.
    rewrite (proj2 (Z.leb_le 97 (87 + n))), (proj2 (Z.leb_le (87 + n) 102)) by lia. simpl. f_equal. lia.
Qed.

Lemma decode_byte b : in_u8 b → decode_pair (hex_lower_digit (b / 16)) (hex_lower_digit (b mod 16)) = Some b.
Proof.
  unfold in_u8, U8_MAX. intros Hb. assert (0 ≤ b / 16 < 16) by (split; [apply Z.div_pos|apply Z.div_lt_upper_bound]; lia).
  assert (0 ≤ b mod 16 < 16) by (apply Z.mod_pos_bound; lia).
  unfold decode_pair. rewrite !nibble_digit by done. cbn [mbind option_bind]. f_equal.
  rewrite lor_shiftl_add by lia. change (2 ^ 4) with 16.
  pose proof (Z.div_mod b 16). lia.
Qed.

Lemma hex_digit_ascii n : 0 ≤ n < 16 → char_encode_utf8 (hex_lower_digit n) = [hex_lower_digit n].
Proof.
  intros Hn. unfold char_encode_utf8, hex_lower_digit. destruct (n <? 10) eqn:E.
  - by rewrite (proj2 (Z.ltb_lt (48 + n) 128)) by lia.
  - apply Z.ltb_ge in E. by rewrite (proj2 (Z.ltb_lt (87 + n) 128)) by lia.
Qed.

Lemma hex_byte_ascii b s : in_u8 b → str_as_bytes (hex_lower_byte b ++ s) = hex_lower_byte b ++ str_as_bytes s.
Proof.
  unfold in_u8, U8_MAX. intros Hb. assert (0 ≤ b / 16 < 16) by (split; [apply Z.div_pos|apply Z.div_lt_upper_bound]; lia).
  assert (0 ≤ b mod 16 < 16) by (apply Z.mod_pos_bound; lia).
  unfold str_as_bytes, hex_lower_byte. rewrite bind_app. f_equal. csimpl.
  by rewrite !hex_digit_ascii by done.
Qed.

(** Packed waveform points are read back: every point is written as six hexadecimal
    digits, from which exactly its three bytes are read. *)
Theorem waveform_roundtrip p :
  in_u8 (rwp_low p) → in_u8 (rwp_mid p) → in_u8 (rwp_high p) →
  waveform_deserialize (Packed (waveform_serialize p)) = Some p ∧ str_len (waveform_serialize p) = 6.
Proof.
  intros Hl Hm Hh.
  assert (str_as_bytes (waveform_serialize p) = waveform_serialize p) as E.
  { unfold waveform_serialize. rewrite !hex_byte_ascii by done. f_equal. f_equal.
    rewrite <- (app_nil_r (hex_lower_byte (rwp_high p))) at 1. by rewrite hex_byte_ascii, app_nil_r. }
  split; [|by rewrite <- str_as_bytes_len, E]. unfold waveform_deserialize. rewrite E.
  unfold waveform_serialize, hex_lower_byte. cbn [app]. rewrite !decode_byte by done. cbn [mbind option_bind].
  by destruct p.
Qed.

Lemma waveform_roundtrip_witness :
  waveform_deserialize (Packed (waveform_serialize (mkRemoteWaveformPoint 0 171 255))) =
  Some (mkRemoteWaveformPoint 0 171 255) ∧ waveform_serialize (mkRemoteWaveformPoint 0 171 255) = lit "00abff".
Proof.
  split; [|reflexivity].
  apply (waveform_roundtrip (mkRemoteWaveformPoint 0 171 255)); split; vm_compute; discriminate.
Defined.

(** ** Texts cut to length *)

Lemma str_len_app s t : str_len (s ++ t) = str_len s + str_len t.
Proof. unfold str_len. induction s as [|c s IH]; simpl; [done|]. rewrite IH. lia. Qed.

Lemma char_len_pos c : 0 < char_len_utf8 c.
Proof. unfold char_len_utf8. repeat case_match; lia. Qed.

Lemma str_len_nonneg s : 0 ≤ str_len s.
Proof. unfold str_len. induction s as [|c s IH]; simpl; [done|]. pose proof (char_len_pos c). lia. Qed.

Lemma push_while_fits_spec maximum l : ∀ used,
  used ≤ maximum →
  ∃ rest, l = push_while_fits maximum used l ++ rest ∧ used + str_len (push_while_fits maximum used l) ≤ maximum ∧
    (∀ c rest', rest = c :: rest' → maximum < used + str_len (push_while_fits maximum used l ++ [c])).
Proof.
  induction l as [|c l IH]; intros used Hu; simpl.
  { exists []. split_and!; [done|simpl; lia|done]. }
  destruct (Z.ltb_spec maximum (used + char_len_utf8 c)) as [Hc|Hc].
  - exists (c :: l). split_and!; [done|simpl; lia|]. intros c' rest' [= <- <-]. simpl. lia.
  - destruct (IH (used + char_len_utf8 c) Hc) as (rest & E & Hle & Hmax). exists rest. split_and!.
    + simpl. by rewrite <- E.
    + simpl. lia.
    + intros c' rest' Er. specialize (Hmax c' rest' Er). rewrite str_len_app in Hmax |- *. simpl in *. lia.
Qed.

Definition printable (value : str) : str := List.filter (λ c, negb (char_is_control c)) value.

Lemma printable_no_control value : Forall (λ c, char_is_control c = false) (printable value).
Proof.
  apply Forall_forall. intros c Hc. unfold printable in Hc.
  rewrite list_elem_of_In, filter_In in Hc. destruct Hc as [_ Hc]. by apply negb_true_iff.
Qed.

Lemma printable_id value : Forall (λ c, char_is_control c = false) value → printable value = value.
Proof. unfold printable. induction 1 as [|c l Hc Hl IH]; simpl; [done|]. by rewrite Hc, IH. Qed.

(** How display texts are cut.  The text is the longest beginning of the printable
    characters that fits into the limit, so that no character is broken and the validation
    accepts it; and a text that needs no change is left as it is. *)
Theorem display_text_spec maximum value :
  0 ≤ maximum →
  text_ok maximum true (display_text maximum value) ∧
  (∃ rest, printable value = display_text maximum value ++ rest ∧
     ∀ c rest', rest = c :: rest' → maximum < str_len (display_text maximum value ++ [c])) ∧
  (text_ok maximum true value → display_text maximum value = value).
Proof.
  intros Hm. unfold display_text. fold (printable value).
  destruct (push_while_fits_spec maximum (printable value) 0 Hm) as (rest & E & Hle & Hmax). split_and!.
  - split_and!; [done|lia|]. pose proof (printable_no_control value) as H. rewrite E in H. by apply Forall_app in H as [H _].
  - exists rest. split; [done|]. intros c rest' Er. by apply Hmax in Er.
  - intros (_ & Hl & Hc). rewrite (printable_id _ Hc) in *. destruct rest as [|c rest].
    + by rewrite app_nil_r in E.
    + exfalso. specialize (Hmax c rest eq_refl). apply (f_equal str_len) in E. rewrite !str_len_app in *.
      simpl in *. pose proof (str_len_nonneg rest). lia.
Qed.

Lemma display_text_spec_witness :
  display_text 5 [72; 10; 233; 8364; 33] = [72; 233] ∧ text_ok 5 true (display_text 5 [72; 10; 233; 8364; 33]).
Proof. split; [reflexivity|]. apply (display_text_spec 5 [72; 10; 233; 8364; 33]). lia. Defined.

(** ** Which Players are shown *)

Definition deck_loaded (wire : EngineSnapshotWire) (d : Z) : bool :=
  existsb (λ deck, edw_deck_id deck =? d) (esw_decks wire).

(** A list without what was seen and without repetitions. *)
Fixpoint firsts (seen l : list Z) : list Z :=
  match l with
  | [] => []
  | x :: l => if bool_decide (x ∈ seen) then firsts seen l else x :: firsts (seen ++ [x]) l
  end.

(** The first two decks that have a track among the leader, the deck of the live plan, that
    of the next plan and the others in ascending order. *)
Definition shown_players (wire : EngineSnapshotWire) : list Z :=
  take MAX_REMOTE_PLAYERS (firsts [] (List.filter (deck_loaded wire) (player_candidates wire))).

Lemma select_candidates wire l : ∀ selected,
  (length selected ≤ MAX_REMOTE_PLAYERS)%nat →
  foldl (select_candidate (esw_decks wire)) selected l =
  take MAX_REMOTE_PLAYERS (selected ++ firsts selected (List.filter (deck_loaded wire) l)).
Proof.
  induction l as [|c l IH]; intros selected Hs; cbn [foldl List.filter].
  { simpl. rewrite app_nil_r. by rewrite take_ge. }
  unfold select_candidate at 2. fold (deck_loaded wire c).
  destruct (deck_loaded wire c) eqn:Hl; [|by rewrite andb_false_r, IH].
  cbn [firsts]. rewrite andb_true_r. case_bool_decide as Hroom; simpl.
  - case_bool_decide as Hc; simpl; [by rewrite IH|].
    rewrite IH by (rewrite length_app; simpl; lia). by rewrite <- app_assoc.
  - rewrite IH by done. assert (length selected = MAX_REMOTE_PLAYERS) as Hn by lia.
    by rewrite !take_app_length'.
Qed.

Lemma take_more (x : Z) n m l : (n ≤ m)%nat → x ∈ take n l → x ∈ take m l.
Proof.
  intros Hn [i [Hi Hl]%lookup_take_Some]%list_elem_of_lookup. apply list_elem_of_lookup. exists i.
  apply lookup_take_Some. split; [done|lia].
Qed.

Lemma firsts_take l : ∀ seen i x, l !! i = Some x → x ∉ seen → x ∈ take (S i) (firsts seen l).
Proof.
  induction l as [|y l IH]; intros seen i x Hi Hx; [done|]. cbn [firsts].
  destruct i as [|i]; simpl in Hi.
  - injection Hi as <-. rewrite bool_decide_eq_false_2 by done. simpl. by left.
  - case_bool_decide as Hy.
    + apply (take_more x (S i)); [lia|]. by apply IH.
    + rewrite firstn_cons. destruct (decide (x = y)) as [->|Hn]; [by left|]. right. apply IH; [done|].
      rewrite not_elem_of_app, list_elem_of_singleton. naive_solver.
Qed.

Lemma selected_shown wire : selected_players wire = shown_players wire.
Proof. unfold selected_players, shown_players. rewrite select_candidates; [done|simpl; lia]. Qed.

Lemma filter_option_list (f : Z → bool) o : List.filter f (option_list o) = option_list (option_filter f o).
Proof. destruct o as [x|]; simpl; [|done]. by destruct (f x). Qed.

(** The leader and the deck of the live plan are shown whenever they have a track. *)
Lemma leader_shown wire d : esw_leader_deck_id wire = Some d → deck_loaded wire d = true → d ∈ shown_players wire.
Proof.
  intros Hd Hl. unfold shown_players, player_candidates. rewrite Hd. simpl. rewrite Hl.
  by left.
Qed.

Lemma live_shown wire d :
  epl_deck_id <$> esw_live_plan wire = Some d → deck_loaded wire d = true → d ∈ shown_players wire.
Proof.
  intros Hd Hl. unfold shown_players, player_candidates. rewrite Hd. simpl.
  destruct (esw_leader_deck_id wire) as [leader|]; simpl; [destruct (deck_loaded wire leader)|]; rewrite Hl.
  - apply (firsts_take _ [] 1 d); [done|apply not_elem_of_nil].
  - apply (take_more d 1); [unfold MAX_REMOTE_PLAYERS; lia|].
    apply (firsts_take _ [] 0 d); [done|apply not_elem_of_nil].
  - by left.
Qed.

Lemma try_u8_Some n m : try_u8 n = Some m → m = n.
Proof. unfold try_u8. destruct (n <=? U8_MAX); [by intros [= <-]|done]. Qed.

Lemma deck_into_remote_Ok now d player :
  deck_into_remote now d = Ok player →
  rpl_player_number player = edw_deck_id d ∧ rpl_track_load_id player = edw_track_load_id d ∧
  rta_playing (rpl_transport player) = edw_playing d ∧ rta_beat (rpl_transport player) = edw_beat d ∧
  rta_effective_bpm_milli (rpl_transport player) = edw_effective_bpm_milli d.
Proof.
  unfold deck_into_remote. intros H. unbind H. injection H as <-. apply try_u8_Some in E as ->. done.
Qed.

Lemma plan_into_remote_Ok plan p :
  plan_into_remote plan = Ok p →
  rlp_player_number p = epl_deck_id plan ∧ rlp_track_load_id p = epl_track_load_id plan ∧
  rlp_plan_id p = epl_plan_id plan ∧ rlp_revision p = epl_revision plan.
Proof.
  unfold plan_into_remote. intros H. unbind H. injection H as <-. by apply try_u8_Some in E as ->.
Qed.

(** What a phone is told of a deck: its number, the load, and whether and where it plays. *)
Definition deck_line (d : EngineDeckWire) : Z * Z * bool * Z * Z :=
  (edw_deck_id d, edw_track_load_id d, edw_playing d, edw_beat d, edw_effective_bpm_milli d).

Definition player_line (p : RemotePlayer) : Z * Z * bool * Z * Z :=
  (rpl_player_number p, rpl_track_load_id p, rta_playing (rpl_transport p), rta_beat (rpl_transport p),
   rta_effective_bpm_milli (rpl_transport p)).

Definition plan_wire_line (p : EnginePlanWire) : str * Z * Z * Z :=
  (epl_plan_id p, epl_deck_id p, epl_track_load_id p, epl_revision p).

Definition plan_line (p : RemoteLightPlan) : str * Z * Z * Z :=
  (rlp_plan_id p, rlp_player_number p, rlp_track_load_id p, rlp_revision p).

Lemma transpose_plan o r :
  transpose_map plan_into_remote o = Ok r → plan_line <$> (normalize_plan <$> r) = plan_wire_line <$> o.
Proof.
  destruct o as [plan|]; simpl; [|by intros [= <-]]. intros H. unbind H. injection H as <-. simpl.
  apply plan_into_remote_Ok in E as (? & ? & ? & ?). unfold plan_line, plan_wire_line. simpl. congruence.
Qed.

Lemma project_snapshot_lines wire revision now p :
  project_snapshot wire revision now = Ok p → let q := normalize_display_text p in
  rlv_projection_revision q = revision ∧ rlv_state_revision q = esw_state_revision wire ∧
  player_line <$> rlv_players q =
    deck_line <$> List.filter (λ deck, bool_decide (edw_deck_id deck ∈ selected_players wire)) (esw_decks wire) ∧
  rlv_leader_player_number q =
    option_filter (λ d, bool_decide (d ∈ selected_players wire)) (esw_leader_deck_id wire) ∧
  plan_line <$> rlv_live_plan q = plan_wire_line <$>
    option_filter (λ plan, bool_decide (epl_deck_id plan ∈ selected_players wire)) (esw_live_plan wire) ∧
  plan_line <$> rlv_next_plan q = plan_wire_line <$>
    option_filter (λ plan, bool_decide (epl_deck_id plan ∈ selected_players wire)) (esw_next_plan wire).
Proof.
  unfold project_snapshot. cbv zeta. intros H. unbind H. injection H as H. subst p. apply collect_Ok in E.
  split; [done|]. split; [done|]. split_and!.
  - simpl. rewrite <- list_fmap_compose. symmetry. clear -E.
    induction E as [|d player ds players Hd _ IH]; csimpl; [done|]. rewrite IH. f_equal.
    apply deck_into_remote_Ok in Hd as (? & ? & ? & ? & ?). unfold player_line, deck_line. simpl. congruence.
  - simpl. destruct (option_filter _ (esw_leader_deck_id wire)) as [d|]; simpl in E1; [|by injection E1 as <-].
    apply result_bind_Ok in E1 as (n & Hn & [= <-]). apply ok_or_Ok, try_u8_Some in Hn as ->. done.
  - by apply transpose_plan.
  - by apply transpose_plan.
Qed.

Lemma shown_loaded wire d : d ∈ shown_players wire → deck_loaded wire d = true.
Proof.
  intros Hd. assert (∀ l seen, d ∈ firsts seen l → d ∈ l) as Hf.
  { induction l as [|x l IH]; intros seen; cbn [firsts]; [done|]. case_bool_decide.
    - intros ?. right. by eapply IH.
    - intros [->|?]%elem_of_cons; [by left|right; by eapply IH]. }
  apply list_elem_of_lookup in Hd as [i [Hi _]%lookup_take_Some]. apply list_elem_of_lookup_2, Hf in Hi.
  by apply list_elem_of_In, filter_In in Hi as [_ ->].
Qed.

Section Snapshot.
Context {Payload : Type} (from_value : Payload → result EngineSnapshotWire str).

(** C29: what a phone is told of a snapshot.  A snapshot that is accepted gives a projection
    that satisfies the whole contract of the phones.  It shows, in the engine's order and
    with their loads and transports as they are, the decks of the first two Players that
    have a track among the leader, the live plan's, the next plan's and the others; the
    leader and the live plan are told exactly when their deck has a track, and the next plan
    when its deck is shown. *)
Theorem snapshot_projected payload revision now p :
  from_engine_snapshot_payload from_value payload revision now = Ok p →
  ∃ wire, from_value payload = Ok wire ∧ eds_mode (esw_deck_source wire) = lit "connectedDecks" ∧
    projection_ok p ∧ rlv_projection_revision p = revision ∧ rlv_state_revision p = esw_state_revision wire ∧
    player_line <$> rlv_players p =
      deck_line <$> List.filter (λ deck, bool_decide (edw_deck_id deck ∈ shown_players wire)) (esw_decks wire) ∧
    rlv_leader_player_number p = option_filter (deck_loaded wire) (esw_leader_deck_id wire) ∧
    plan_line <$> rlv_live_plan p =
      plan_wire_line <$> option_filter (λ plan, deck_loaded wire (epl_deck_id plan)) (esw_live_plan wire) ∧
    plan_line <$> rlv_next_plan p =
      plan_wire_line <$> option_filter (λ plan, bool_decide (epl_deck_id plan ∈ shown_players wire))
                           (esw_next_plan wire).
Proof.
  unfold from_engine_snapshot_payload. intros H. unbind H. injection H as <-.
  apply orb_false_iff in E0 as [_ Em]. apply negb_false_iff, bool_decide_eq_true in Em.
  destruct v2. apply projection_validate_spec in E2.
  destruct (project_snapshot_lines v revision now v1 E1) as (H1 & H2 & H3 & H4 & H5 & H6).
  rewrite selected_shown in *. exists v. split_and!; try done.
  - rewrite H4. destruct (esw_leader_deck_id v) as [d|] eqn:Ed; [|done]. simpl. case_bool_decide as Hd.
    + by rewrite (shown_loaded _ _ Hd).
    + destruct (deck_loaded v d) eqn:Hl; [|done]. destruct Hd. by apply leader_shown.
  - rewrite H5. destruct (esw_live_plan v) as [plan|] eqn:Ed; [|done]. simpl. case_bool_decide as Hd.
    + by rewrite (shown_loaded _ _ Hd).
    + destruct (deck_loaded v (epl_deck_id plan)) eqn:Hl; [|done]. destruct Hd. apply live_shown; [by rewrite Ed|done].
Qed.
End Snapshot.

(** Three decks, of which the third leads and the second has the live plan. *)
Definition demo_deck_wire (d : Z) : EngineDeckWire :=
  mkEngineDeckWire d (Some (lit "CDJ")) (10 + d) 32 128000 true None (Some 900) None
    (mkEngineTrackWire None (lit "Title") (lit "Artist") 128000 None
       (mkEngineKeyWire (lit "A") (lit "minor") true) 64 None None []
       [mkEnginePhraseWire 0 0 32 (lit "intro") None; mkEnginePhraseWire 1 32 64 (lit "up") None]) None.

Definition demo_snapshot : EngineSnapshotWire :=
  mkEngineSnapshotWire (lit "stateSnapshot") 7 (lit "live") (lit "1.0") (Some 3)
    (mkEngineDeckSourceWire (lit "connectedDecks") (lit "ready")) None None None
    (demo_deck_wire <$> [1; 2; 3])
    (Some (mkEnginePlanWire (lit "5") 2 12 1 None
       [mkEnginePlanCueWire 0 0 32 false (mkEnginePlanActionWire (Some 1) (Some (lit "Warm"))) None]))
    None (mkEnginePlanningOptionsWire [mkEngineThemeWire 1 (lit "Warm")] []).

Lemma snapshot_projected_witness :
  ∃ p, from_engine_snapshot_payload Ok demo_snapshot 9 1000 = Ok p ∧ projection_ok p ∧
    (rpl_player_number <$> rlv_players p) = [2; 3] ∧ rlv_leader_player_number p = Some 3.
Proof.
  destruct (from_engine_snapshot_payload Ok demo_snapshot 9 1000) as [p|e] eqn:E;
    [|vm_compute in E; discriminate].
  exists p. split; [reflexivity|].
  destruct (snapshot_projected Ok demo_snapshot 9 1000 p E) as (w & [= <-] & _ & Hok & _ & _ & Hp & Hl & _).
  split; [exact Hok|]. split; [|exact Hl].
  apply (f_equal (fmap (λ line, line.1.1.1.1))) in Hp. rewrite <- !list_fmap_compose in Hp. exact Hp.
Defined.
