(* ===== verification/RemoteGateway.v ===== *)
(** * The gateway for phones: buffering and authorization

    Models [lumi-remote-gateway/src/lib.rs]: the hub that buffers what is sent to the phones,
    the policy and the ledger of their commands, the limiter of attempts, and the registry of
    pairings.  SHA-256 and JSON are libraries and variables of the sections that use them. *)

From stdpp Require Import prelude list gmap sets strings.
From Stdlib Require Import ZArith Lia.
From S2P Require Import Prelude.
From S2P Require Import Protocol.
From S2P Require Import RemoteCommands.
From S2P Require Import RemoteProjection.
Open Scope Z_scope.

Definition MAX_REMOTE_CLIENTS : Z := 8.
Definition MAX_PAIRED_DEVICES : nat := 8.
Definition MAX_INVITATION_LIFETIME_MILLIS : Z := 5 * 60 * 1000.
Definition DEFAULT_COMMAND_LEDGER_CAPACITY : nat := 1024.

(** ** Configuration *)

Inductive ReleaseChannel : Type := ChannelDev | ChannelRc | ChannelProduction.

Definition bonjour_service_type (c : ReleaseChannel) : str :=
  match c with
  | ChannelDev => lit "_lumi-remote-dev._tcp"
  | ChannelRc => lit "_lumi-remote-rc._tcp"
  | ChannelProduction => lit "_lumi-remote._tcp"
  end.

Definition channel_as_str (c : ReleaseChannel) : str :=
  match c with
  | ChannelDev => lit "dev"
  | ChannelRc => lit "rc"
  | ChannelProduction => lit "production"
  end.

Inductive GatewayConfigError : Type :=
| EngineMustRemainLoopback
| InvalidClientLimit
| InvalidCriticalQueueCapacity
| InvalidInstallationIdentity.

Definition discovery_metadata (c : ReleaseChannel) (installation_id : str) (port : Z) :
    result (list (str * str)) GatewayConfigError :=
  if identifier_invalid 128 installation_id then Err InvalidInstallationIdentity
  else Ok [(lit "id", installation_id); (lit "pv", show_u REMOTE_PROTOCOL_VERSION);
           (lit "channel", channel_as_str c); (lit "port", show_u port)].

(** [std::net::IpAddr], as its octets or its segments, and [is_loopback]. *)
Inductive IpAddr : Type := V4 (a b c d : Z) | V6 (segments : list Z).

Definition is_loopback (address : IpAddr) : bool :=
  match address with
  | V4 a _ _ _ => a =? 127
  | V6 segments => bool_decide (segments = [0; 0; 0; 0; 0; 0; 0; 1])
  end.

Record GatewayConfig := mkGatewayConfig {
  gc_release_channel : ReleaseChannel;
  gc_engine_host : IpAddr;
  gc_maximum_clients : Z;
  gc_critical_queue_capacity : Z;
}.

Definition GatewayConfig_validate (c : GatewayConfig) : result unit GatewayConfigError :=
  let? _ := refuse (negb (is_loopback (gc_engine_host c))) EngineMustRemainLoopback in
  let? _ := refuse (negb (in_range 1 MAX_REMOTE_CLIENTS (gc_maximum_clients c))) InvalidClientLimit in
  refuse (negb (in_range 8 256 (gc_critical_queue_capacity c))) InvalidCriticalQueueCapacity.

(** ** The buffer of a client and the hub *)

Inductive HubError : Type :=
| ClientLimitReached
| UnknownClient
| CriticalQueueSaturated
| HubInvalidTransportAnchor
| NonIncreasingProjectionRevision
| InvalidProjection (error : ProjectionError)
| SerializeProjection.

Record ClientBufferMetrics := mkClientBufferMetrics {
  cbm_critical_depth : nat;
  cbm_latest_anchor_count : nat;
  cbm_coalesced_anchor_count : Z;
}.

Section Hub.
Context {Value : Type}.
(** [serde_json::to_value]. *)
Variable to_value : RemoteLiveProjection → option Value.

Record ClientBuffer := mkClientBuffer {
  cb_critical : list (RemoteFrame Value);
  cb_latest_anchors : gmap Z (RemoteFrame Value);
  cb_critical_capacity : Z;
  cb_coalesced_anchor_count : Z;
  cb_next_delivery_sequence : Z;
}.

Definition ClientBuffer_new (critical_capacity : Z) : ClientBuffer :=
  mkClientBuffer [] ∅ critical_capacity 0 1.

Definition enqueue_critical (frame : RemoteFrame Value) (c : ClientBuffer) : result ClientBuffer HubError :=
  if cb_critical_capacity c <=? Z.of_nat (length (cb_critical c)) then Err CriticalQueueSaturated
  else Ok (mkClientBuffer (cb_critical c ++ [frame]) (cb_latest_anchors c) (cb_critical_capacity c)
             (cb_coalesced_anchor_count c) (cb_next_delivery_sequence c)).

Definition enqueue_projection_kind (projection : RemoteLiveProjection) (frame_kind : RemoteFrameKind)
    (c : ClientBuffer) : result ClientBuffer HubError :=
  let? payload := ok_or (to_value projection) SerializeProjection in
  enqueue_critical (mkRemoteFrame REMOTE_PROTOCOL_VERSION frame_kind 0 None payload) c.

Definition enqueue_snapshot (projection : RemoteLiveProjection) : ClientBuffer → result ClientBuffer HubError :=
  enqueue_projection_kind projection FrameSnapshot.

Definition enqueue_projection (projection : RemoteLiveProjection) : ClientBuffer → result ClientBuffer HubError :=
  enqueue_projection_kind projection FrameProjection.

Definition enqueue_transport_anchor (player_number : Z) (frame : RemoteFrame Value) (c : ClientBuffer) :
    ClientBuffer :=
  mkClientBuffer (cb_critical c) (<[player_number := frame]> (cb_latest_anchors c)) (cb_critical_capacity c)
    (match cb_latest_anchors c !! player_number with
     | Some _ => saturating_add_u64 (cb_coalesced_anchor_count c) 1
     | None => cb_coalesced_anchor_count c
     end) (cb_next_delivery_sequence c).

(** [BTreeMap::keys], in order. *)
Definition ordered_keys {A} (m : gmap Z A) : list Z := sort_by_key id (map_to_list m).*1.

(** The frame to send next: the oldest critical one, else the anchor of the first Player. *)
Definition take_frame (c : ClientBuffer) : option (RemoteFrame Value * ClientBuffer) :=
  match cb_critical c with
  | frame :: critical =>
      Some (frame, mkClientBuffer critical (cb_latest_anchors c) (cb_critical_capacity c)
                     (cb_coalesced_anchor_count c) (cb_next_delivery_sequence c))
  | [] =>
      player_number ← head (ordered_keys (cb_latest_anchors c));
      frame ← cb_latest_anchors c !! player_number;
      Some (frame, mkClientBuffer [] (delete player_number (cb_latest_anchors c)) (cb_critical_capacity c)
                     (cb_coalesced_anchor_count c) (cb_next_delivery_sequence c))
  end.

Definition with_sequence (sequence : Z) (f : RemoteFrame Value) : RemoteFrame Value :=
  mkRemoteFrame (rf_protocol_version f) (rf_frame_kind f) sequence (rf_correlation_id f) (rf_payload f).

Definition buffer_next_frame (c : ClientBuffer) : ClientBuffer * option (RemoteFrame Value) :=
  match take_frame c with
  | None => (c, None)
  | Some (frame, c') =>
      (mkClientBuffer (cb_critical c') (cb_latest_anchors c') (cb_critical_capacity c')
         (cb_coalesced_anchor_count c') (saturating_add_u64 (cb_next_delivery_sequence c') 1),
       Some (with_sequence (cb_next_delivery_sequence c) frame))
  end.

Definition buffer_metrics (c : ClientBuffer) : ClientBufferMetrics :=
  mkClientBufferMetrics (length (cb_critical c)) (size (cb_latest_anchors c)) (cb_coalesced_anchor_count c).

Record ProjectionHub := mkProjectionHub {
  hub_latest_projection : option RemoteLiveProjection;
  hub_clients : gmap Z ClientBuffer;
  hub_next_client_id : Z;
  hub_maximum_clients : Z;
  hub_critical_queue_capacity : Z;
}.

Definition ProjectionHub_new (maximum_clients critical_queue_capacity : Z) :
    result ProjectionHub GatewayConfigError :=
  let? _ := GatewayConfig_validate
    (mkGatewayConfig ChannelDev (V4 127 0 0 1) maximum_clients critical_queue_capacity) in
  Ok (mkProjectionHub None ∅ 1 maximum_clients critical_queue_capacity).

Definition set_hub_clients (clients : gmap Z ClientBuffer) (h : ProjectionHub) : ProjectionHub :=
  mkProjectionHub (hub_latest_projection h) clients (hub_next_client_id h) (hub_maximum_clients h)
    (hub_critical_queue_capacity h).

Definition hub_connect (h : ProjectionHub) : ProjectionHub * result Z HubError :=
  if hub_maximum_clients h <=? Z.of_nat (size (hub_clients h)) then (h, Err ClientLimitReached)
  else
    let client_id := hub_next_client_id h in
    let h := mkProjectionHub (hub_latest_projection h) (hub_clients h) (saturating_add_u64 client_id 1)
               (hub_maximum_clients h) (hub_critical_queue_capacity h) in
    let client := ClientBuffer_new (hub_critical_queue_capacity h) in
    match match hub_latest_projection h with
          | Some projection => enqueue_snapshot projection client
          | None => Ok client
          end with
    | Err error => (h, Err error)
    | Ok client => (set_hub_clients (<[client_id := client]> (hub_clients h)) h, Ok client_id)
    end.

Definition hub_disconnect (client_id : Z) (h : ProjectionHub) : ProjectionHub :=
  set_hub_clients (delete client_id (hub_clients h)) h.

Definition not_newer (projection latest : RemoteLiveProjection) : bool :=
  rlv_projection_revision projection <=? rlv_projection_revision latest.

(** The client after the projection was offered to it: unchanged when it does not fit. *)
Definition offer_projection (projection : RemoteLiveProjection) (c : ClientBuffer) : ClientBuffer :=
  match enqueue_projection projection c with Ok c' => c' | Err _ => c end.

Definition is_saturated (projection : RemoteLiveProjection) (c : ClientBuffer) : bool :=
  match enqueue_projection projection c with Ok _ => false | Err _ => true end.

Definition saturated_clients (projection : RemoteLiveProjection) (clients : gmap Z ClientBuffer) : list Z :=
  List.filter (λ id, option_is_some_and (is_saturated projection) (clients !! id)) (ordered_keys clients).

Definition publish_projection (projection : RemoteLiveProjection) (h : ProjectionHub) :
    ProjectionHub * result (list Z) HubError :=
  match RemoteLiveProjection_validate projection with
  | Err error => (h, Err (InvalidProjection error))
  | Ok _ =>
      if option_is_some_and (not_newer projection) (hub_latest_projection h)
      then (h, Err NonIncreasingProjectionRevision)
      else
        let saturated := saturated_clients projection (hub_clients h) in
        let clients := offer_projection projection <$> hub_clients h in
        let clients := foldl (λ m id, delete id m) clients saturated in
        (mkProjectionHub (Some projection) clients (hub_next_client_id h) (hub_maximum_clients h)
           (hub_critical_queue_capacity h), Ok saturated)
  end.

Definition publish_transport_anchor (player_number : Z) (frame : RemoteFrame Value) (h : ProjectionHub) :
    ProjectionHub * result unit HubError :=
  match rf_frame_kind frame with
  | FrameTransportAnchor =>
      if negb (in_range 1 6 player_number) then (h, Err HubInvalidTransportAnchor)
      else (set_hub_clients (enqueue_transport_anchor player_number frame <$> hub_clients h) h, Ok tt)
  | _ => (h, Err HubInvalidTransportAnchor)
  end.

Definition hub_next_frame (client_id : Z) (h : ProjectionHub) :
    ProjectionHub * result (option (RemoteFrame Value)) HubError :=
  match hub_clients h !! client_id with
  | None => (h, Err UnknownClient)
  | Some c =>
      let '(c, frame) := buffer_next_frame c in
      (set_hub_clients (<[client_id := c]> (hub_clients h)) h, Ok frame)
  end.

Definition hub_metrics (client_id : Z) (h : ProjectionHub) : option ClientBufferMetrics :=
  buffer_metrics <$> hub_clients h !! client_id.
End Hub.

(** ** Who may command *)

Record ControllerLease := mkControllerLease { cl_device_id : str; cl_lease_id : str }.

Record GatewayCommandPolicy := mkGatewayCommandPolicy { gcp_controller : option ControllerLease }.

Definition transfer_control (device_id lease_id : str) (_ : GatewayCommandPolicy) : GatewayCommandPolicy :=
  mkGatewayCommandPolicy (Some (mkControllerLease device_id lease_id)).

Definition revoke_control (_ : GatewayCommandPolicy) : GatewayCommandPolicy := mkGatewayCommandPolicy None.

Inductive CommandAuthorizationError : Type :=
| InvalidCommand (error : RemoteCommandError)
| NoControllerLease
| ControllerLeaseMismatch.

Definition authorize (device_id : str) (command : RemoteCommand) (p : GatewayCommandPolicy) :
    result unit CommandAuthorizationError :=
  let? _ := map_err InvalidCommand (RemoteCommand_validate command) in
  if negb (RemoteCommand_is_mutating command) then Ok tt
  else
    match gcp_controller p with
    | None => Err NoControllerLease
    | Some controller =>
        refuse (negb (bool_decide (cl_device_id controller = device_id))
                || negb (bool_decide (cl_lease_id controller = rc_controller_lease_id command)))
          ControllerLeaseMismatch
    end.

(** ** The ledger of commands *)

Inductive CommandAdmission : Type :=
| AdmissionAccepted
| AdmissionPending
| AdmissionCompleted (result : RemoteCommandResult).

(** The authenticated device, the lease and the client's own identifier. *)
Definition CommandKey : Type := str * str * str.

Record CommandOutcome := mkCommandOutcome {
  cmo_command : RemoteCommand;
  cmo_result : option RemoteCommandResult;
}.

Inductive CommandGuardError : Type :=
| InvalidCapacity
| CommandIdReused
| LedgerFull
| UnknownCommand
| Unauthorized (error : CommandAuthorizationError).

Record GatewayCommandGuard := mkGatewayCommandGuard {
  cg_policy : GatewayCommandPolicy;
  cg_accepted : gmap CommandKey CommandOutcome;
  cg_forwarded : gmap str CommandKey;
  cg_insertion_order : list CommandKey;
  cg_capacity : nat;
}.

Definition GatewayCommandGuard_new (capacity : Z) : result GatewayCommandGuard CommandGuardError :=
  let? _ := refuse (negb (in_range 64 8192 capacity)) InvalidCapacity in
  Ok (mkGatewayCommandGuard (mkGatewayCommandPolicy None) ∅ ∅ [] (Z.to_nat capacity)).

Definition set_cg_policy (policy : GatewayCommandPolicy) (g : GatewayCommandGuard) : GatewayCommandGuard :=
  mkGatewayCommandGuard policy (cg_accepted g) (cg_forwarded g) (cg_insertion_order g) (cg_capacity g).

Definition guard_transfer_control (device_id lease_id : str) (g : GatewayCommandGuard) : GatewayCommandGuard :=
  set_cg_policy (transfer_control device_id lease_id (cg_policy g)) g.

Definition guard_revoke_control (g : GatewayCommandGuard) : GatewayCommandGuard :=
  set_cg_policy (revoke_control (cg_policy g)) g.

Definition guard_controller (g : GatewayCommandGuard) : option ControllerLease := gcp_controller (cg_policy g).

Definition controller_lease_for (device_id : str) (g : GatewayCommandGuard) : option str :=
  cl_lease_id <$> option_filter (λ c, bool_decide (cl_device_id c = device_id)) (guard_controller g).

(** [iter().position(predicate)]. *)
Fixpoint position_where {A} (predicate : A → bool) (l : list A) : option nat :=
  match l with
  | [] => None
  | x :: l => if predicate x then Some 0%nat else S <$> position_where predicate l
  end.

(** [usize::to_be_bytes]. *)
Fixpoint be_bytes (width : nat) (n : Z) : list Z :=
  match width with
  | O => []
  | S width => be_bytes width (n / 256) ++ [n mod 256]
  end.

(** What is hashed of a part of the key: its length and its bytes. *)
Definition framed_part (value : str) : list Z := be_bytes 8 (str_len value) ++ str_as_bytes value.

Definition key_bytes (key : CommandKey) : list Z :=
  framed_part key.1.1 ++ framed_part key.1.2 ++ framed_part key.2.

Definition command_settled (g : GatewayCommandGuard) (key : CommandKey) : bool :=
  option_is_some_and (λ entry, is_some (cmo_result entry)) (cg_accepted g !! key).

Definition set_command_id (command_id : str) (c : RemoteCommand) : RemoteCommand :=
  mkRemoteCommand command_id (rc_controller_lease_id c) (rc_issued_at_unix_millis c) (rc_command c).

Definition set_result_id (command_id : str) (r : RemoteCommandResult) : RemoteCommandResult :=
  mkRemoteCommandResult command_id (rr_status r) (rr_state_revision r) (rr_plan_revision r) (rr_reason_code r).

Section Guard.
(** SHA-256. *)
Variable sha256 : list Z → list Z.

(** [format!("{:x}", digest)]. *)
Definition forwarded_command_id (key : CommandKey) : str := sha256 (key_bytes key) ≫= hex_lower_byte.

Definition command_key (device_id : str) (command : RemoteCommand) : CommandKey :=
  (device_id, rc_controller_lease_id command, rc_command_id command).

(** Room for one more entry: a full ledger forgets the oldest command that has a result. *)
Definition make_room (g : GatewayCommandGuard) : result GatewayCommandGuard CommandGuardError :=
  if bool_decide (length (cg_insertion_order g) = cg_capacity g) then
    let? index := ok_or (position_where (command_settled g) (cg_insertion_order g)) LedgerFull in
    match cg_insertion_order g !! index with
    | Some oldest =>
        Ok (mkGatewayCommandGuard (cg_policy g) (delete oldest (cg_accepted g))
              (delete (forwarded_command_id oldest) (cg_forwarded g))
              (delete index (cg_insertion_order g)) (cg_capacity g))
    | None => Ok g
    end
  else Ok g.

Definition enter (key : CommandKey) (command : RemoteCommand) (g : GatewayCommandGuard) : GatewayCommandGuard :=
  mkGatewayCommandGuard (cg_policy g) (<[key := mkCommandOutcome command None]> (cg_accepted g))
    (<[forwarded_command_id key := key]> (cg_forwarded g)) (cg_insertion_order g ++ [key]) (cg_capacity g).

Definition admit_command (device_id : str) (command : RemoteCommand) (g : GatewayCommandGuard) :
    GatewayCommandGuard * result CommandAdmission CommandGuardError :=
  match authorize device_id command (cg_policy g) with
  | Err error => (g, Err (Unauthorized error))
  | Ok _ =>
      if negb (RemoteCommand_is_mutating command) then (g, Ok AdmissionAccepted)
      else
        let key := command_key device_id command in
        match cg_accepted g !! key with
        | Some outcome =>
            if negb (bool_decide (cmo_command outcome = command)) then (g, Err CommandIdReused)
            else (g, Ok (match cmo_result outcome with
                         | Some result => AdmissionCompleted result
                         | None => AdmissionPending
                         end))
        | None =>
            match make_room g with
            | Err error => (g, Err error)
            | Ok g => (enter key command g, Ok AdmissionAccepted)
            end
        end
  end.

Definition forwarded_command (device_id : str) (command : RemoteCommand) : RemoteCommand :=
  set_command_id (forwarded_command_id (command_key device_id command)) command.

Definition record_result (r : RemoteCommandResult) (g : GatewayCommandGuard) : GatewayCommandGuard :=
  match cg_forwarded g !! rr_command_id r with
  | None => g
  | Some key =>
      match cg_accepted g !! key with
      | None => g
      | Some outcome =>
          match cmo_result outcome with
          | Some _ => g
          | None =>
              mkGatewayCommandGuard (cg_policy g)
                (<[key := mkCommandOutcome (cmo_command outcome) (Some (set_result_id key.2 r))]> (cg_accepted g))
                (cg_forwarded g) (cg_insertion_order g) (cg_capacity g)
          end
      end
  end.

Definition result_for_device (device_id forwarded_id : str) (g : GatewayCommandGuard) :
    option RemoteCommandResult :=
  key ← cg_forwarded g !! forwarded_id;
  if bool_decide (key.1.1 = device_id) then outcome ← cg_accepted g !! key; cmo_result outcome else None.

Definition authorize_forwarded (command : RemoteCommand) (g : GatewayCommandGuard) :
    result unit CommandGuardError :=
  let? key := ok_or (cg_forwarded g !! rc_command_id command) UnknownCommand in
  let? entry := ok_or (cg_accepted g !! key) UnknownCommand in
  map_err Unauthorized (authorize key.1.1 (cmo_command entry) (cg_policy g)).
End Guard.

(** ** The limiter of attempts *)

Inductive RateLimitError : Type := InvalidConfiguration | InvalidKey | Limited.

Record AttemptRateLimiter := mkAttemptRateLimiter {
  arl_maximum_attempts : Z;
  arl_window_millis : Z;
  arl_attempts : gmap str (list Z);
}.

Definition AttemptRateLimiter_new (maximum_attempts window_millis : Z) :
    result AttemptRateLimiter RateLimitError :=
  let? _ := refuse ((maximum_attempts =? 0) || (100 <? maximum_attempts) || (window_millis =? 0))
              InvalidConfiguration in
  Ok (mkAttemptRateLimiter maximum_attempts window_millis ∅).

(** [now.saturating_sub(value) >= window]. *)
Definition attempt_expired (window now value : Z) : bool := window <=? Z.max 0 (now - value).

(** [while front().is_some_and(expired) { pop_front(); }]. *)
Fixpoint drop_expired (window now : Z) (attempts : list Z) : list Z :=
  match attempts with
  | [] => []
  | value :: rest => if attempt_expired window now value then drop_expired window now rest else attempts
  end.

(** [retain]: the attempts of every key without the expired ones, and no empty keys. *)
Definition retain_recent (window now : Z) (attempts : gmap str (list Z)) : gmap str (list Z) :=
  omap (λ values, match drop_expired window now values with [] => None | recent => Some recent end) attempts.

Definition KEY_LIMIT : Z := 1024.

Definition limited (key : str) (l : AttemptRateLimiter) : bool :=
  option_is_some_and (λ values, arl_maximum_attempts l <=? Z.of_nat (length values)) (arl_attempts l !! key)
  || (negb (is_some (arl_attempts l !! key)) && (KEY_LIMIT <=? Z.of_nat (size (arl_attempts l)))).

Definition limiter_check (key : str) (now : Z) (l : AttemptRateLimiter) :
    AttemptRateLimiter * result unit RateLimitError :=
  if identifier_invalid 256 key then (l, Err InvalidKey)
  else
    let l := mkAttemptRateLimiter (arl_maximum_attempts l) (arl_window_millis l)
               (retain_recent (arl_window_millis l) now (arl_attempts l)) in
    (l, refuse (limited key l) Limited).

Definition limiter_record (key : str) (now : Z) (l : AttemptRateLimiter) :
    AttemptRateLimiter * result unit RateLimitError :=
  match limiter_check key now l with
  | (l, Err error) => (l, Err error)
  | (l, Ok _) =>
      (mkAttemptRateLimiter (arl_maximum_attempts l) (arl_window_millis l)
         (<[key := default [] (arl_attempts l !! key) ++ [now]]> (arl_attempts l)), Ok tt)
  end.

(** ** Pairings *)

Record PairingInvitationRequest := mkPairingInvitationRequest {
  pir_invitation_id : str;
  pir_invitation_secret : str;
  pir_short_code : str;
  pir_certificate_fingerprint_sha256 : str;
  pir_created_at_unix_millis : Z;
  pir_expires_at_unix_millis : Z;
}.

Record PendingInvitation := mkPendingInvitation {
  pi_invitation_id : str;
  pi_secret_sha256 : list Z;
  pi_short_code : str;
  pi_certificate_fingerprint_sha256 : str;
  pi_expires_at_unix_millis : Z;
  pi_approved : bool;
}.

Record PairingInvitationDetails := mkPairingInvitationDetails {
  pid_invitation_id : str;
  pid_short_code : str;
  pid_certificate_fingerprint_sha256 : str;
  pid_expires_at_unix_millis : Z;
  pid_approved : bool;
}.

Record PairedDevice := mkPairedDevice {
  pdv_device_id : str;
  pdv_display_name : str;
  pdv_credential_sha256 : list Z;
  pdv_paired_at_unix_millis : Z;
  pdv_last_seen_unix_millis : Z;
  pdv_controller : bool;
  pdv_client_version : option str;
}.

Record ControllerChange := mkControllerChange {
  cch_at_unix_millis : Z;
  cch_reason : str;
  cch_previous_device_id : option str;
  cch_device_id : option str;
}.

Record PairingRegistrySnapshot := mkPairingRegistrySnapshot {
  prs_devices : list PairedDevice;
  prs_controller_selection_initialized : bool;
  prs_controller_changes : list ControllerChange;
}.

Record PairingRegistry := mkPairingRegistry {
  prg_pending : gmap str PendingInvitation;
  prg_devices : gmap str PairedDevice;
  prg_controller_selection_initialized : bool;
  prg_controller_changes : list ControllerChange;
}.

Inductive PairingError : Type :=
| InvalidInvitation
| InvitationUnknown
| InvitationExpired
| ApprovalRequired
| ShortCodeMismatch
| InvitationSecretMismatch
| PairingInvalidIdentifier
| InvalidCredential
| InvalidPersistedDevice
| DeviceLimitReached
| DeviceUnknown
| CredentialMismatch.

Definition MAX_CONTROLLER_CHANGES : nat := 32.

Definition PairingRegistry_default : PairingRegistry := mkPairingRegistry ∅ ∅ false [].

Definition set_prg_pending (pending : gmap str PendingInvitation) (r : PairingRegistry) : PairingRegistry :=
  mkPairingRegistry pending (prg_devices r) (prg_controller_selection_initialized r) (prg_controller_changes r).

Definition set_prg_devices (devices : gmap str PairedDevice) (r : PairingRegistry) : PairingRegistry :=
  mkPairingRegistry (prg_pending r) devices (prg_controller_selection_initialized r) (prg_controller_changes r).

Definition set_pdv_controller (controller : bool) (d : PairedDevice) : PairedDevice :=
  mkPairedDevice (pdv_device_id d) (pdv_display_name d) (pdv_credential_sha256 d) (pdv_paired_at_unix_millis d)
    (pdv_last_seen_unix_millis d) controller (pdv_client_version d).

Definition set_pdv_client_version (version : option str) (d : PairedDevice) : PairedDevice :=
  mkPairedDevice (pdv_device_id d) (pdv_display_name d) (pdv_credential_sha256 d) (pdv_paired_at_unix_millis d)
    (pdv_last_seen_unix_millis d) (pdv_controller d) version.

Definition set_pdv_last_seen (now : Z) (d : PairedDevice) : PairedDevice :=
  mkPairedDevice (pdv_device_id d) (pdv_display_name d) (pdv_credential_sha256 d) (pdv_paired_at_unix_millis d)
    now (pdv_controller d) (pdv_client_version d).

Definition validate_public_identifier (value : str) (maximum : Z) : result unit PairingError :=
  if identifier_invalid maximum value then Err PairingInvalidIdentifier else Ok tt.

Definition optional_public_identifier (maximum : Z) (value : option str) : result unit PairingError :=
  match value with Some value => validate_public_identifier value maximum | None => Ok tt end.

Definition valid_sha256_fingerprint (value : str) : bool :=
  (str_len value =? 64) && forallb is_ascii_hexdigit value.

Definition valid_short_code (value : str) : bool := (str_len value =? 6) && forallb (in_range 48 57) value.

Definition validate_change (change : ControllerChange) : result unit PairingError :=
  let? _ := validate_public_identifier (cch_reason change) 64 in
  try_each (λ id, validate_public_identifier id 128)
    (option_list (cch_device_id change) ++ option_list (cch_previous_device_id change)).

(** One turn of the loop that restores the devices, with the number of controllers. *)
Definition restore_device (restored : gmap str PairedDevice * nat) (device : PairedDevice) :
    result (gmap str PairedDevice * nat) PairingError :=
  let '(devices, controller_count) := restored in
  let? _ := validate_public_identifier (pdv_device_id device) 128 in
  let? _ := validate_public_identifier (pdv_display_name device) 128 in
  let? _ := optional_public_identifier 64 (pdv_client_version device) in
  let? _ := refuse ((pdv_paired_at_unix_millis device =? 0)
      || (pdv_last_seen_unix_millis device <? pdv_paired_at_unix_millis device)
      || is_some (devices !! pdv_device_id device)) InvalidPersistedDevice in
  Ok (<[pdv_device_id device := device]> devices,
      if pdv_controller device then S controller_count else controller_count).

Fixpoint restore_devices (restored : gmap str PairedDevice * nat) (devices : list PairedDevice) :
    result (gmap str PairedDevice * nat) PairingError :=
  match devices with
  | [] => Ok restored
  | device :: devices => let? restored := restore_device restored device in restore_devices restored devices
  end.

Definition PairingRegistry_from_snapshot (s : PairingRegistrySnapshot) : result PairingRegistry PairingError :=
  let? _ := refuse (MAX_PAIRED_DEVICES <? length (prs_devices s))%nat DeviceLimitReached in
  let? _ := refuse (MAX_CONTROLLER_CHANGES <? length (prs_controller_changes s))%nat InvalidPersistedDevice in
  let? _ := try_each validate_change (prs_controller_changes s) in
  let initialized := prs_controller_selection_initialized s || negb (bool_decide (prs_devices s = [])) in
  let? restored := restore_devices (∅, 0%nat) (prs_devices s) in
  let? _ := refuse (1 <? restored.2)%nat InvalidPersistedDevice in
  Ok (mkPairingRegistry ∅ restored.1 initialized (prs_controller_changes s)).

(** [BTreeMap::values]: the devices in the order of their identifiers. *)
Definition paired_devices (r : PairingRegistry) : list PairedDevice :=
  (sort_by (λ a b, str_leb a.1 b.1) (map_to_list (prg_devices r))).*2.

Definition PairingRegistry_snapshot (r : PairingRegistry) : PairingRegistrySnapshot :=
  mkPairingRegistrySnapshot (paired_devices r) (prg_controller_selection_initialized r)
    (prg_controller_changes r).

(** [checked_sub]. *)
Definition checked_sub_unsigned (a b : Z) : option Z := if a <? b then None else Some (a - b).

Definition request_invalid (request : PairingInvitationRequest) : bool :=
  (str_len (pir_invitation_secret request) <? 32) || (256 <? str_len (pir_invitation_secret request))
  || negb (valid_short_code (pir_short_code request))
  || negb (valid_sha256_fingerprint (pir_certificate_fingerprint_sha256 request)).

Definition invitation_details (invitation_id : str) (r : PairingRegistry) : option PairingInvitationDetails :=
  (λ i, mkPairingInvitationDetails (pi_invitation_id i) (pi_short_code i)
          (pi_certificate_fingerprint_sha256 i) (pi_expires_at_unix_millis i) (pi_approved i))
    <$> prg_pending r !! invitation_id.

Definition approve_invitation (i : PendingInvitation) : PendingInvitation :=
  mkPendingInvitation (pi_invitation_id i) (pi_secret_sha256 i) (pi_short_code i)
    (pi_certificate_fingerprint_sha256 i) (pi_expires_at_unix_millis i) true.

Definition registry_approve (invitation_id short_code : str) (r : PairingRegistry) :
    PairingRegistry * result unit PairingError :=
  match prg_pending r !! invitation_id with
  | None => (r, Err InvitationUnknown)
  | Some invitation =>
      if negb (bool_decide (pi_short_code invitation = short_code)) then (r, Err ShortCodeMismatch)
      else (set_prg_pending (<[invitation_id := approve_invitation invitation]> (prg_pending r)) r, Ok tt)
  end.

Definition controller_device_id (r : PairingRegistry) : option str :=
  pdv_device_id <$> List.find pdv_controller (paired_devices r).

Definition contains_device (device_id : str) (r : PairingRegistry) : bool :=
  is_some (prg_devices r !! device_id).

Definition record_controller_change (previous : option str) (reason : str) (at_ : Z) (r : PairingRegistry) :
    PairingRegistry :=
  mkPairingRegistry (prg_pending r) (prg_devices r) (prg_controller_selection_initialized r)
    ((if bool_decide (length (prg_controller_changes r) = MAX_CONTROLLER_CHANGES)
      then tail (prg_controller_changes r) else prg_controller_changes r)
     ++ [mkControllerChange at_ reason previous (controller_device_id r)]).

Definition registry_revoke (device_id : str) (r : PairingRegistry) : PairingRegistry * bool :=
  (set_prg_devices (delete device_id (prg_devices r)) r, is_some (prg_devices r !! device_id)).

Definition set_controller (device_id : str) (r : PairingRegistry) : PairingRegistry * result unit PairingError :=
  if negb (contains_device device_id r) then (r, Err DeviceUnknown)
  else
    (set_prg_devices ((λ d, set_pdv_controller (bool_decide (pdv_device_id d = device_id)) d)
                        <$> prg_devices r) r, Ok tt).

Definition set_client_version (device_id : str) (version : option str) (r : PairingRegistry) : PairingRegistry :=
  match prg_devices r !! device_id, version with
  | Some device, Some version =>
      set_prg_devices (<[device_id := set_pdv_client_version (Some version) device]> (prg_devices r)) r
  | _, _ => r
  end.

Section Registry.
(** SHA-256. *)
Variable sha256 : list Z → list Z.

Definition hash_secret (secret : str) : list Z := sha256 (str_as_bytes secret).

Definition create_invitation (request : PairingInvitationRequest) (r : PairingRegistry) :
    PairingRegistry * result unit PairingError :=
  match
    let? _ := validate_public_identifier (pir_invitation_id request) 128 in
    let? _ := refuse (request_invalid request) InvalidInvitation in
    let? lifetime := ok_or (checked_sub_unsigned (pir_expires_at_unix_millis request)
                              (pir_created_at_unix_millis request)) InvalidInvitation in
    refuse ((lifetime =? 0) || (MAX_INVITATION_LIFETIME_MILLIS <? lifetime)) InvalidInvitation
  with
  | Err error => (r, Err error)
  | Ok _ =>
      (set_prg_pending {[ pir_invitation_id request :=
          mkPendingInvitation (pir_invitation_id request) (hash_secret (pir_invitation_secret request))
            (pir_short_code request) (pir_certificate_fingerprint_sha256 request)
            (pir_expires_at_unix_millis request) false ]} r, Ok tt)
  end.

(** The checks of [exchange], in order. *)
Definition exchange_allowed (invitation_id invitation_secret device_id display_name device_credential : str)
    (now : Z) (r : PairingRegistry) : result unit PairingError :=
  let? invitation := ok_or (prg_pending r !! invitation_id) InvitationUnknown in
  let? _ := refuse (pi_expires_at_unix_millis invitation <? now) InvitationExpired in
  let? _ := refuse (negb (pi_approved invitation)) ApprovalRequired in
  let? _ := refuse (negb (bool_decide (pi_secret_sha256 invitation = hash_secret invitation_secret)))
              InvitationSecretMismatch in
  let? _ := validate_public_identifier device_id 128 in
  let? _ := validate_public_identifier display_name 128 in
  let? _ := refuse ((str_len device_credential <? 32) || (256 <? str_len device_credential)) InvalidCredential in
  refuse (negb (contains_device device_id r) && (MAX_PAIRED_DEVICES <=? size (prg_devices r))%nat)
    DeviceLimitReached.

Definition exchange (invitation_id invitation_secret device_id display_name device_credential : str)
    (now : Z) (r : PairingRegistry) : PairingRegistry * result PairedDevice PairingError :=
  match exchange_allowed invitation_id invitation_secret device_id display_name device_credential now r with
  | Err error => (r, Err error)
  | Ok _ =>
      let initial_pairing := negb (prg_controller_selection_initialized r) in
      let existing := prg_devices r !! device_id in
      let device := mkPairedDevice device_id display_name (hash_secret device_credential) now now
        (initial_pairing || option_is_some_and pdv_controller existing) (existing ≫= pdv_client_version) in
      let r := mkPairingRegistry (delete invitation_id (prg_pending r))
                 (<[device_id := device]> (prg_devices r)) true (prg_controller_changes r) in
      (if initial_pairing then record_controller_change None (lit "firstPairing") now r else r, Ok device)
  end.

Definition authenticate (device_id credential : str) (now : Z) (r : PairingRegistry) :
    PairingRegistry * result unit PairingError :=
  match prg_devices r !! device_id with
  | None => (r, Err DeviceUnknown)
  | Some device =>
      if negb (bool_decide (pdv_credential_sha256 device = hash_secret credential))
      then (r, Err CredentialMismatch)
      else (set_prg_devices (<[device_id := set_pdv_last_seen now device]> (prg_devices r)) r, Ok tt)
  end.
End Registry.
