(* ===== verification/RemoteGatewayProps.v ===== *)
(** * The hub and the limiter of the gateway: properties

    Every phone that stays connected receives, in order and without gaps, the projection it
    found and every one published since; anchors only ever wait in their newest form; and no
    phone makes the hub grow.  A key is never recorded more often than its limit within any
    window of time, however the checks and records of all keys interleave. *)

From stdpp Require Import prelude list gmap sets sorting strings.
From Stdlib Require Import ZArith Lia.
From S2P Require Import Prelude.
From S2P Require Import Protocol.
From S2P Require Import RemoteCommands.
From S2P Require Import RemoteProjection.
From S2P Require Import RemoteGateway.
Open Scope Z_scope.

#[global] Instance RemoteFrameKind_eq_dec : EqDecision RemoteFrameKind.
Proof. solve_decision. Defined.

Section Hub.
Context {Value : Type} (to_value : RemoteLiveProjection → option Value).
Notation frame := (RemoteFrame Value).
Implicit Types (b : ClientBuffer (Value := Value)) (f : frame).

Inductive HubOp : Type :=
| HubConnect
| HubDisconnect (client_id : Z)
| HubPublish (projection : RemoteLiveProjection)
| HubAnchor (player_number : Z) (f : frame)
| HubNext (client_id : Z).

(** What happened to a client since it connected: the projections it is to see, the newest
    anchor of each Player, and the frames it was given. *)
Record ClientHistory := mkClientHistory {
  ch_shown : list (RemoteFrameKind * RemoteLiveProjection);
  ch_anchors : gmap Z frame;
  ch_delivered : list frame;
}.

Definition show (kind : RemoteFrameKind) (p : RemoteLiveProjection) (c : ClientHistory) : ClientHistory :=
  mkClientHistory (ch_shown c ++ [(kind, p)]) (ch_anchors c) (ch_delivered c).

Definition anchor (n : Z) (f : frame) (c : ClientHistory) : ClientHistory :=
  mkClientHistory (ch_shown c) (<[n := f]> (ch_anchors c)) (ch_delivered c).

Definition deliver (f : frame) (c : ClientHistory) : ClientHistory :=
  mkClientHistory (ch_shown c) (ch_anchors c) (ch_delivered c ++ [f]).

Record HubRun := mkHubRun { hr_hub : ProjectionHub (Value := Value); hr_history : gmap Z ClientHistory }.

(** One call, with what it means for the clients. *)
Definition hub_step (r : HubRun) (op : HubOp) : HubRun :=
  let h := hr_hub r in
  let m := hr_history r in
  match op with
  | HubConnect =>
      match hub_connect to_value h with
      | (h', Ok id) =>
          mkHubRun h' (<[id := mkClientHistory (pair FrameSnapshot <$> option_list (hub_latest_projection h)) ∅ []]> m)
      | (h', Err _) => mkHubRun h' m
      end
  | HubDisconnect id => mkHubRun (hub_disconnect id h) (delete id m)
  | HubPublish p =>
      match publish_projection to_value p h with
      | (h', Ok saturated) =>
          mkHubRun h' (foldl (λ m id, delete id m) (show FrameProjection p <$> m) saturated)
      | (h', Err _) => mkHubRun h' m
      end
  | HubAnchor n f =>
      match publish_transport_anchor n f h with
      | (h', Ok _) => mkHubRun h' (anchor n f <$> m)
      | (h', Err _) => mkHubRun h' m
      end
  | HubNext id =>
      match hub_next_frame id h with
      | (h', Ok (Some f)) => mkHubRun h' (alter (deliver f) id m)
      | (h', _) => mkHubRun h' m
      end
  end.

Definition hub_run (h : ProjectionHub) (ops : list HubOp) : HubRun := foldl hub_step (mkHubRun h ∅) ops.

Definition critical (f : frame) : Prop := rf_frame_kind f ≠ FrameTransportAnchor.
#[global] Instance critical_dec f : Decision (critical f) := _.

(** A frame before its number is assigned. *)
Definition unnumbered (f : frame) : frame := with_sequence 0 f.

(** The frame that shows a projection. *)
Definition frame_of (f : frame) (s : RemoteFrameKind * RemoteLiveProjection) : Prop :=
  ∃ v, to_value s.2 = Some v ∧ f = mkRemoteFrame REMOTE_PROTOCOL_VERSION s.1 0 None v.

Record client_ok (capacity : Z) (latest : option RemoteLiveProjection) (b : ClientBuffer (Value := Value))
    (c : ClientHistory) : Prop := {
  ck_critical : Forall2 frame_of ((unnumbered <$> filter critical (ch_delivered c)) ++ cb_critical b) (ch_shown c);
  ck_kinds : Forall (λ s, s.1 ≠ FrameTransportAnchor) (ch_shown c);
  ck_newer : StronglySorted Z.lt ((λ s, rlv_projection_revision s.2) <$> ch_shown c);
  ck_latest : snd <$> last (ch_shown c) = latest ∨ ch_shown c = [] ∧ latest = None;
  ck_waiting : ∀ n f, cb_latest_anchors b !! n = Some f → ch_anchors c !! n = Some f ∧ ¬ critical f;
  ck_anchors : ∀ n f, ch_anchors c !! n = Some f →
    cb_latest_anchors b !! n = Some f ∨ with_sequence 0 f ∈ unnumbered <$> ch_delivered c;
  ck_players : ∀ n f, cb_latest_anchors b !! n = Some f → 1 ≤ n ≤ 6;
  ck_numbers : Z.of_nat (length (ch_delivered c)) < U64_MAX →
    rf_sequence <$> ch_delivered c = seqZ 1 (Z.of_nat (length (ch_delivered c))) ∧
    cb_next_delivery_sequence b = Z.of_nat (length (ch_delivered c)) + 1;
  ck_capacity : cb_critical_capacity b = capacity ∧ Z.of_nat (length (cb_critical b)) ≤ capacity;
}.

Record hub_inv (maximum capacity : Z) (r : HubRun) : Prop := {
  hi_maximum : hub_maximum_clients (hr_hub r) = maximum ∧ hub_critical_queue_capacity (hr_hub r) = capacity;
  hi_capacity : 0 < capacity;
  hi_size : Z.of_nat (size (hub_clients (hr_hub r))) ≤ maximum;
  hi_clients : ∀ id, match hub_clients (hr_hub r) !! id, hr_history r !! id with
                     | Some b, Some c => client_ok capacity (hub_latest_projection (hr_hub r)) b c
                     | None, None => True
                     | _, _ => False
                     end;
}.

(** ** One client *)

Lemma enqueue_Ok kind p b b' :
  enqueue_projection_kind to_value p kind b = Ok b' →
  ∃ v, to_value p = Some v ∧ Z.of_nat (length (cb_critical b)) < cb_critical_capacity b ∧
    b' = mkClientBuffer (cb_critical b ++ [mkRemoteFrame REMOTE_PROTOCOL_VERSION kind 0 None v])
           (cb_latest_anchors b) (cb_critical_capacity b) (cb_coalesced_anchor_count b)
           (cb_next_delivery_sequence b).
Proof.
  unfold enqueue_projection_kind, enqueue_critical. intros H. unbind H. exists v. split; [done|].
  destruct (Z.leb_spec (cb_critical_capacity b) (Z.of_nat (length (cb_critical b)))); [done|].
  split; [lia|]. by injection H as <-.
Qed.

Lemma last_snoc_show (s : RemoteFrameKind * RemoteLiveProjection) l : snd <$> last (l ++ [s]) = Some s.2.
Proof. by rewrite last_snoc. Qed.

Lemma newer_than_all (l : list (RemoteFrameKind * RemoteLiveProjection)) s p :
  StronglySorted Z.lt ((λ s, rlv_projection_revision s.2) <$> l) → last l = Some s →
  rlv_projection_revision s.2 < rlv_projection_revision p →
  Forall (λ s, rlv_projection_revision s.2 < rlv_projection_revision p) l.
Proof.
  intros Hs Hl Hp. apply last_Some in Hl as [l' ->]. apply Forall_app. split; [|by repeat constructor].
  rewrite fmap_app, StronglySorted_app in Hs. destruct Hs as (Hs & _ & _). apply Forall_forall. intros x Hx.
  assert (rlv_projection_revision x.2 < rlv_projection_revision s.2); [|lia]. apply Hs.
  - apply list_elem_of_fmap. by exists x.
  - by left.
Qed.

Lemma shown_snoc kind p (l : list (RemoteFrameKind * RemoteLiveProjection)) latest :
  StronglySorted Z.lt ((λ s, rlv_projection_revision s.2) <$> l) →
  snd <$> last l = latest ∨ l = [] ∧ latest = None → option_is_some_and (not_newer p) latest = false →
  StronglySorted Z.lt ((λ s, rlv_projection_revision s.2) <$> (l ++ [(kind, p)])).
Proof.
  intros Hs Hl Hp. rewrite fmap_app, StronglySorted_app. split_and!; [|done|repeat constructor].
  intros x y Hx Hy. apply list_elem_of_singleton in Hy as ->. simpl.
  destruct (last l) as [s|] eqn:El.
  - destruct Hl as [Hl|[-> _]]; [|done]. simpl in Hl. subst latest. simpl in Hp. unfold not_newer in Hp.
    apply Z.leb_gt in Hp. apply list_elem_of_fmap in Hx as (s' & -> & Hs').
    pose proof (newer_than_all l s p Hs El Hp) as Hall. rewrite Forall_forall in Hall. by apply Hall.
  - apply last_None in El as ->. by apply not_elem_of_nil in Hx.
Qed.

Lemma client_offered capacity latest kind p b b' c :
  kind ≠ FrameTransportAnchor → client_ok capacity latest b c →
  option_is_some_and (not_newer p) latest = false → enqueue_projection_kind to_value p kind b = Ok b' →
  client_ok capacity (Some p) b' (show kind p c).
Proof.
  intros Hk [H1 H2 H3 H4 H5 H6 H7 H8 [H9 H10]] Hn Ho. apply enqueue_Ok in Ho as (v & Hv & Hlt & ->).
  split; simpl; try done.
  - rewrite app_assoc. apply Forall2_app; [done|]. constructor; [|done]. by exists v.
  - apply Forall_app. split; [done|]. by repeat constructor.
  - by eapply shown_snoc.
  - left. apply last_snoc_show.
  - rewrite length_app. simpl. split; [done|lia].
Qed.

Lemma client_anchored capacity latest n f b c :
  rf_frame_kind f = FrameTransportAnchor → 1 ≤ n ≤ 6 → client_ok capacity latest b c →
  client_ok capacity latest (enqueue_transport_anchor n f b) (anchor n f c).
Proof.
  intros Hf Hn [H1 H2 H3 H4 H5 H6 H7 H8 H9]. split; simpl; try done.
  - intros n' f'. destruct (decide (n = n')) as [<-|Hne].
    + rewrite !lookup_insert_eq. intros [= <-]. split; [done|]. by intros Hc.
    + rewrite !lookup_insert_ne by done. apply H5.
  - intros n' f'. destruct (decide (n = n')) as [<-|Hne].
    + rewrite !lookup_insert_eq. intros [= <-]. by left.
    + rewrite !lookup_insert_ne by done. apply H6.
  - intros n' f'. destruct (decide (n = n')) as [<-|Hne]; [done|]. rewrite lookup_insert_ne by done. apply H7.
Qed.

Lemma fresh_client capacity latest b :
  0 < capacity →
  match latest with
  | Some p => enqueue_snapshot to_value p (ClientBuffer_new capacity)
  | None => Ok (ClientBuffer_new capacity)
  end = Ok b →
  client_ok capacity latest b (mkClientHistory (pair FrameSnapshot <$> option_list latest) ∅ []).
Proof.
  intros Hc. assert (client_ok capacity None (ClientBuffer_new capacity) (mkClientHistory [] ∅ [])) as H0.
  { split; simpl; try done; [constructor|by right|split; [done|lia]]. }
  destruct latest as [p|]; [|by intros [= <-]]. intros Hb.
  exact (client_offered capacity None FrameSnapshot p _ b _ ltac:(done) H0 eq_refl Hb).
Qed.

Lemma ordered_keys_elem {A} (m : gmap Z A) n : n ∈ ordered_keys m ↔ is_Some (m !! n).
Proof.
  unfold ordered_keys. rewrite sort_by_key_perm, list_elem_of_fmap. split.
  - intros ([n' x] & -> & Hx%elem_of_map_to_list). by exists x.
  - intros [x Hx]. exists (n, x). by rewrite elem_of_map_to_list.
Qed.

(** What is sent next is the oldest critical frame, or an anchor when there is none. *)
Lemma take_frame_Some b f b' :
  take_frame b = Some (f, b') →
  cb_critical_capacity b' = cb_critical_capacity b ∧ cb_next_delivery_sequence b' = cb_next_delivery_sequence b ∧
  (cb_critical b = f :: cb_critical b' ∧ cb_latest_anchors b' = cb_latest_anchors b ∨
   cb_critical b = [] ∧ cb_critical b' = [] ∧ ∃ n, cb_latest_anchors b !! n = Some f ∧
     cb_latest_anchors b' = delete n (cb_latest_anchors b)).
Proof.
  unfold take_frame. destruct (cb_critical b) as [|f' critical].
  - destruct (ordered_keys (cb_latest_anchors b)) as [|n l]; [done|]. cbn [head mbind option_bind].
    destruct (cb_latest_anchors b !! n) as [f'|] eqn:En; [|done]. simpl. intros [= <- <-]. simpl. eauto 10.
  - intros [= <- <-]. simpl. eauto.
Qed.

Lemma client_next capacity latest b c b' f :
  client_ok capacity latest b c → buffer_next_frame b = (b', Some f) → client_ok capacity latest b' (deliver f c).
Proof.
  intros [H1 H2 H3 H4 H5 H6 H7 H8 [H9 H10]]. unfold buffer_next_frame.
  destruct (take_frame b) as [[f' b'']|] eqn:Et; [|done]. intros [= <- <-].
  apply take_frame_Some in Et as (Hcap & Hnum & Hcase).
  assert (Hn : Z.of_nat (length (ch_delivered c)) + 1 < U64_MAX →
    (rf_sequence <$> ch_delivered c) ++ [cb_next_delivery_sequence b] =
      seqZ 1 (Z.of_nat (length (ch_delivered c)) + 1) ∧
    saturating_add_u64 (cb_next_delivery_sequence b'') 1 = Z.of_nat (length (ch_delivered c)) + 1 + 1).
  { intros Hlt. destruct H8 as [Hs Hq]; [lia|]. rewrite Hnum, Hs, Hq. split.
    - rewrite seqZ_app by lia. f_equal. rewrite Z.add_comm. by rewrite seqZ_cons by lia.
    - unfold saturating_add_u64. lia. }
  assert (Hd : ∀ sequence, rf_frame_kind (with_sequence sequence f') = rf_frame_kind f') by done.
  split; simpl; rewrite ?fmap_app, ?length_app, ?Nat2Z.inj_add; try done.
  - rewrite filter_app, fmap_app. destruct Hcase as [[Hc _]|(Hc & Hc' & n & Hf & _)].
    + assert (critical f') as Hcrit.
      { rewrite Hc in H1. apply Forall2_app_inv_l in H1 as (l1 & l2 & H1 & Hx & El). inversion Hx as [|? s ? l3 Hs Hr]; subst.
        destruct Hs as (v & _ & ->). rewrite El in H2. apply Forall_app in H2 as [_ H2].
        by apply Forall_cons in H2 as [H2 _]. }
      rewrite filter_cons_True by exact Hcrit. rewrite filter_nil, <- app_assoc. simpl. rewrite Hc in H1.
      assert (unnumbered (with_sequence (cb_next_delivery_sequence b) f') = f') as ->; [|done].
      apply Forall2_app_inv_l in H1 as (l1 & l2 & H1 & Hx & El). inversion Hx as [|? s ? l3 Hs Hr]; subst.
      by destruct Hs as (v & _ & ->).
    + apply H5 in Hf as [_ Hf]. rewrite filter_cons_False by exact Hf. rewrite filter_nil, app_nil_r, Hc', <- Hc. done.
  - intros n f Hf. apply H5. destruct Hcase as [[_ <-]|(_ & _ & m & _ & E)]; [done|].
    rewrite E in Hf. by apply lookup_delete_Some in Hf as [_ ?].
  - intros n f Hf. apply H6 in Hf as [Hf|Hf]; [|right; apply elem_of_app; by left].
    destruct Hcase as [[_ ->]|(_ & _ & m & Hm & ->)]; [by left|]. destruct (decide (m = n)) as [<-|Hne].
    + right. apply elem_of_app. right. apply list_elem_of_singleton. rewrite Hm in Hf. by injection Hf as ->.
    + left. by rewrite lookup_delete_ne.
  - intros n f Hf. apply (H7 n f). destruct Hcase as [[_ <-]|(_ & _ & m & _ & E)]; [done|].
    rewrite E in Hf. by apply lookup_delete_Some in Hf as [_ ?].
  - split; [congruence|]. destruct Hcase as [[Hc _]|(_ & -> & _)]; [rewrite Hc in H10; simpl in H10; lia|simpl; lia].
Qed.

(** ** The hub *)

Lemma foldl_delete_lookup {A} (l : list Z) (m : gmap Z A) i :
  foldl (λ m id, delete id m) m l !! i = if bool_decide (i ∈ l) then None else m !! i.
Proof.
  revert m. induction l as [|j l IH]; intros m; simpl; [done|]. rewrite IH. repeat case_bool_decide; try done.
  - destruct H0. by right.
  - destruct (decide (j = i)) as [->|Hn]; [by rewrite lookup_delete_eq|].
    apply elem_of_cons in H0 as [?|?]; naive_solver.
  - rewrite lookup_delete_ne; [done|]. intros ->. destruct H0. by left.
Qed.

Lemma foldl_delete_size {A} (l : list Z) (m : gmap Z A) : (size (foldl (λ m id, delete id m) m l) ≤ size m)%nat.
Proof.
  rewrite <- !size_dom. apply subseteq_size. intros i. rewrite !elem_of_dom, foldl_delete_lookup.
  case_bool_decide; [by intros [? ?]|done].
Qed.

Lemma saturated_elem p (clients : gmap Z (ClientBuffer (Value := Value))) id :
  id ∈ saturated_clients to_value p clients ↔ ∃ b, clients !! id = Some b ∧ is_saturated to_value p b = true.
Proof.
  unfold saturated_clients. rewrite list_elem_of_In, filter_In, <- list_elem_of_In, ordered_keys_elem. split.
  - intros [[b Hb] H]. rewrite Hb in H. by exists b.
  - intros (b & Hb & H). rewrite Hb. by split.
Qed.

Lemma hub_step_inv maximum capacity r op : hub_inv maximum capacity r → hub_inv maximum capacity (hub_step r op).
Proof.
  intros Hi. pose proof Hi as [[H1 H2] H3 H4 H5]. destruct r as [h m]. simpl in *. destruct op as [|id|p|n f|id]; simpl.
  - unfold hub_connect. destruct (Z.leb_spec (hub_maximum_clients h) (Z.of_nat (size (hub_clients h)))); [done|].
    cbn [hub_latest_projection hub_critical_queue_capacity]. destruct (match hub_latest_projection h with Some _ => _ | None => _ end) as [b|e] eqn:Eb; [|done].
    split; simpl; try done.
    + rewrite map_size_insert. destruct (hub_clients h !! hub_next_client_id h); simpl; lia.
    + intros id. destruct (decide (hub_next_client_id h = id)) as [<-|Hn].
      * rewrite !lookup_insert_eq. rewrite H2 in Eb. by apply fresh_client.
      * rewrite !lookup_insert_ne by done. apply H5.
  - split; simpl; try done.
    + rewrite map_size_delete. destruct (hub_clients h !! id); simpl; lia.
    + intros id'. destruct (decide (id = id')) as [<-|Hn].
      * by rewrite !lookup_delete_eq.
      * rewrite !lookup_delete_ne by done. apply H5.
  - unfold publish_projection. destruct (RemoteLiveProjection_validate p); [|done].
    destruct (option_is_some_and _ _) eqn:En; [done|]. split; simpl; try done.
    + pose proof (foldl_delete_size (saturated_clients to_value p (hub_clients h))
        (offer_projection to_value p <$> hub_clients h)). rewrite map_size_fmap in *. lia.
    + intros id. rewrite !foldl_delete_lookup, !lookup_fmap. case_bool_decide as Hs; [done|]. specialize (H5 id).
      destruct (hub_clients h !! id) as [b|] eqn:Eb; [|by destruct (m !! id)].
      destruct (m !! id) as [c|] eqn:Ec; [|done]. simpl. rewrite saturated_elem in Hs.
      unfold offer_projection. destruct (enqueue_projection to_value p b) as [b'|e] eqn:Eo.
      * by eapply client_offered.
      * destruct Hs. exists b. split; [done|]. unfold is_saturated. by rewrite Eo.
  - unfold publish_transport_anchor. destruct (rf_frame_kind f) eqn:Ef; try done.
    destruct (in_range 1 6 n) eqn:En; [|done]. apply in_range_spec in En. split; simpl; try done.
    + by rewrite map_size_fmap.
    + intros id. rewrite !lookup_fmap. specialize (H5 id).
      destruct (hub_clients h !! id), (m !! id); try done. simpl. by apply client_anchored.
  - unfold hub_next_frame. destruct (hub_clients h !! id) as [b|] eqn:Eb; [|done].
    destruct (buffer_next_frame b) as [b' [f|]] eqn:En.
    + split; simpl; try done.
      * rewrite map_size_insert_Some by (by eexists). done.
      * intros id'. specialize (H5 id'). destruct (decide (id = id')) as [<-|Hn].
        -- rewrite lookup_insert_eq, lookup_alter_eq. rewrite Eb in H5. destruct (m !! id); [|done]. simpl.
           by eapply client_next.
        -- rewrite lookup_insert_ne, lookup_alter_ne by done. apply H5.
    + assert (b' = b) as ->.
      { unfold buffer_next_frame in En. destruct (take_frame b) as [[? ?]|]; [done|]. by injection En as <-. }
      rewrite insert_id by done. by destruct h.
Qed.

Lemma new_hub maximum capacity h : ProjectionHub_new maximum capacity = Ok h → hub_inv maximum capacity (mkHubRun h ∅).
Proof.
  unfold ProjectionHub_new, GatewayConfig_validate. intros H. apply result_bind_Ok in H as (u & Hv & [= <-]).
  unbind Hv. simpl in *. apply negb_false_iff, in_range_spec in E0, Hv. unfold MAX_REMOTE_CLIENTS in *.
  split; simpl; try done; [lia|]. rewrite map_size_empty. lia.
Qed.

(** C28: what the phones see.  However connections, projections, anchors, deliveries and
    disconnections follow one another: there are never more clients than allowed, and every
    client that is still connected was given, in order and without gap, together with what
    waits for it, exactly the projection it found and those published since, each newer than
    the one before, the last one the latest of all; its frames are numbered from one without
    gap; at most its capacity of projections waits for it, and of each Player at most the
    newest anchor, which either waits or was delivered.  (The numbers count up to the
    largest of 64 bits.) *)
Theorem hub_stream maximum capacity h ops :
  ProjectionHub_new maximum capacity = Ok h →
  let r := hub_run h ops in
  Z.of_nat (size (hub_clients (hr_hub r))) ≤ maximum ∧
  ∀ id b, hub_clients (hr_hub r) !! id = Some b →
    ∃ c, hr_history r !! id = Some c ∧
      Forall2 frame_of ((unnumbered <$> filter critical (ch_delivered c)) ++ cb_critical b) (ch_shown c) ∧
      StronglySorted Z.lt ((λ s, rlv_projection_revision s.2) <$> ch_shown c) ∧
      (snd <$> last (ch_shown c) = hub_latest_projection (hr_hub r) ∨
       ch_shown c = [] ∧ hub_latest_projection (hr_hub r) = None) ∧
      (Z.of_nat (length (ch_delivered c)) < U64_MAX →
       rf_sequence <$> ch_delivered c = seqZ 1 (Z.of_nat (length (ch_delivered c)))) ∧
      Z.of_nat (length (cb_critical b)) ≤ capacity ∧
      (∀ n f, cb_latest_anchors b !! n = Some f → 1 ≤ n ≤ 6 ∧ ch_anchors c !! n = Some f) ∧
      (∀ n f, ch_anchors c !! n = Some f →
         cb_latest_anchors b !! n = Some f ∨ unnumbered f ∈ unnumbered <$> ch_delivered c).
Proof.
  intros Hh r. assert (hub_inv maximum capacity r) as [[Hm _] _ Hs Hc].
  { unfold r, hub_run. pose proof (new_hub maximum capacity h Hh) as Hi. revert Hi. generalize (mkHubRun h ∅).
    induction ops as [|op ops IH]; intros s Hi; [done|]. apply IH. by apply hub_step_inv. }
  split; [done|]. intros id b Hb. specialize (Hc id). rewrite Hb in Hc.
  destruct (hr_history r !! id) as [c|]; [|done]. exists c. destruct Hc as [C1 C2 C3 C4 C5 C6 C7 C8 [C9 C10]].
  split_and!; try done.
  - intros Hn. by apply C8.
  - intros n f Hf. split; [by eapply C7|by apply C5].
Qed.
End Hub.

(** ** A run of the hub *)

Definition demo_projection (revision : Z) : RemoteLiveProjection :=
  mkRemoteLiveProjection revision 1 (lit "1.0") RemoteLive None
    (mkRemoteIntegrationStatus IntegrationReady IntegrationReady HealthUnavailable false None 0 None None)
    [] [] None None [] [].

Definition demo_value (p : RemoteLiveProjection) : option Z := Some (rlv_projection_revision p).

Definition demo_anchor_frame (n : Z) : RemoteFrame Z := mkRemoteFrame 1 FrameTransportAnchor 9 None n.

Definition demo_hub : ProjectionHub (Value := Z) := mkProjectionHub None ∅ 1 2 8.

Definition demo_hub_ops : list (HubOp (Value := Z)) :=
  [HubPublish (demo_projection 4); HubConnect; HubPublish (demo_projection 4); HubPublish (demo_projection 6);
   HubAnchor 2 (demo_anchor_frame 20); HubAnchor 2 (demo_anchor_frame 21);
   HubNext 1; HubNext 1; HubNext 1; HubNext 1].

Lemma hub_stream_witness :
  let r := hub_run demo_value demo_hub demo_hub_ops in
  ((λ c, (λ f, (rf_sequence f, rf_payload f)) <$> ch_delivered c) <$> hr_history r !! 1) =
    Some [(1, 4); (2, 6); (3, 21)] ∧
  Z.of_nat (size (hub_clients (hr_hub r))) ≤ 2.
Proof.
  split; [vm_compute; reflexivity|].
  exact (proj1 (hub_stream demo_value 2 8 demo_hub demo_hub_ops eq_refl)).
Defined.

(** ** The limiter of attempts *)

Inductive LimiterOp : Type :=
| LimCheck (key : str) (now : Z)
| LimRecord (key : str) (now : Z).

Definition limiter_op_time (op : LimiterOp) : Z := match op with LimCheck _ now | LimRecord _ now => now end.

(** The limiter with the attempts that were recorded. *)
Definition limiter_step (s : AttemptRateLimiter * list (str * Z)) (op : LimiterOp) :
    AttemptRateLimiter * list (str * Z) :=
  match op with
  | LimCheck key now => ((limiter_check key now s.1).1, s.2)
  | LimRecord key now =>
      match limiter_record key now s.1 with
      | (l, Ok _) => (l, s.2 ++ [(key, now)])
      | (l, Err _) => (l, s.2)
      end
  end.

Definition limiter_run (l : AttemptRateLimiter) (ops : list LimiterOp) : AttemptRateLimiter * list (str * Z) :=
  foldl limiter_step (l, []) ops.

Fixpoint times_in_order (last : Z) (ops : list LimiterOp) : Prop :=
  match ops with
  | [] => True
  | op :: ops => last ≤ limiter_op_time op ∧ times_in_order (limiter_op_time op) ops
  end.

(** The attempts of a key that are younger than the window. *)
Definition recent (window now : Z) (key : str) (log : list (str * Z)) : list Z :=
  (filter (λ e, e.1 = key ∧ now - e.2 < window) log).*2.

(** The attempts of a key within the window that starts at [from]. *)
Definition in_window (window from : Z) (key : str) (log : list (str * Z)) : list (str * Z) :=
  filter (λ e, e.1 = key ∧ from ≤ e.2 < from + window) log.

Record limiter_inv (maximum window last : Z) (l : AttemptRateLimiter) (log : list (str * Z)) : Prop := {
  li_maximum : arl_maximum_attempts l = maximum;
  li_window : arl_window_millis l = window;
  li_attempts : ∀ key, default [] (arl_attempts l !! key) = recent window last key log;
  li_nonempty : ∀ key, arl_attempts l !! key ≠ Some [];
  li_sorted : StronglySorted Z.le log.*2;
  li_last : Forall (λ e, e.2 ≤ last) log;
  li_size : Z.of_nat (size (arl_attempts l)) ≤ KEY_LIMIT;
  li_bound : ∀ key, Z.of_nat (length (recent window last key log)) ≤ maximum;
  li_count : ∀ key from, Z.of_nat (length (in_window window from key log)) ≤ maximum;
}.

Lemma drop_expired_recent window now last key log :
  0 < window → last ≤ now → StronglySorted Z.le log.*2 → 
  drop_expired window now (recent window last key log) = recent window now key log.
Proof.
  intros Hw Hn. unfold recent. induction log as [|[k t] log IH]; csimpl; [done|].
  intros [Hs Hf]%StronglySorted_inv. specialize (IH Hs).
  destruct (decide (k = key)) as [->|Hk].
  2:{ rewrite !filter_cons_False by naive_solver. done. }
  destruct (decide (now - t < window)) as [Ht|Ht].
  - rewrite !filter_cons_True by (simpl; split; [done|lia]). csimpl.
    unfold attempt_expired. rewrite (proj2 (Z.leb_gt _ _)) by lia. f_equal.
    assert (Forall (λ e : str * Z, now - e.2 < window) log) as Hall.
    { rewrite Forall_fmap in Hf. eapply Forall_impl; [exact Hf|]. simpl. intros. lia. }
    clear -Hall Hn. induction Hall as [|[k t] log Ht Hall IH]; csimpl; [done|].
    destruct (decide (k = key)) as [->|Hk].
    + rewrite !filter_cons_True by (simpl in *; split; [done|lia]). csimpl. by rewrite IH.
    + rewrite !filter_cons_False by naive_solver. done.
  - rewrite (filter_cons_False (λ e : str * Z, e.1 = key ∧ now - e.2 < window)) by (simpl; lia).
    destruct (decide (last - t < window)) as [Hl|Hl].
    + rewrite filter_cons_True by (simpl; split; [done|lia]). csimpl.
      unfold attempt_expired at 1. by rewrite (proj2 (Z.leb_le _ _)) by lia.
    + by rewrite filter_cons_False by (simpl; lia).
Qed.

Lemma retain_lookup window now attempts key :
  default [] (retain_recent window now attempts !! key) = drop_expired window now (default [] (attempts !! key)) ∧
  retain_recent window now attempts !! key ≠ Some [].
Proof.
  unfold retain_recent. rewrite lookup_omap. destruct (attempts !! key) as [values|]; simpl; [|done].
  by destruct (drop_expired window now values).
Qed.

Lemma retain_size window now attempts : (size (retain_recent window now attempts) ≤ size attempts)%nat.
Proof.
  rewrite <- !size_dom. apply subseteq_size. intros key. unfold retain_recent. rewrite !elem_of_dom, lookup_omap.
  by intros [x Hx]; destruct (attempts !! key).
Qed.

Lemma drop_expired_length window now values : (length (drop_expired window now values) ≤ length values)%nat.
Proof. induction values as [|v values IH]; simpl; [done|]. destruct (attempt_expired _ _ _); simpl; lia. Qed.

(** The limiter once the expired attempts are gone. *)
Definition purged (now : Z) (l : AttemptRateLimiter) : AttemptRateLimiter :=
  mkAttemptRateLimiter (arl_maximum_attempts l) (arl_window_millis l)
    (retain_recent (arl_window_millis l) now (arl_attempts l)).

Lemma purged_inv maximum window last now l log :
  0 < window → last ≤ now → limiter_inv maximum window last l log → limiter_inv maximum window now (purged now l) log.
Proof.
  intros Hw Hn [H1 H2 H3 H4 H5 H6 H7 H8 H9]. assert (∀ key, recent window now key log =
    drop_expired window now (recent window last key log)) as Hr by (intros; by rewrite drop_expired_recent).
  split; unfold purged; simpl; try done.
  - intros key. rewrite (proj1 (retain_lookup _ _ _ key)), H3, H2. by rewrite Hr.
  - intros key. apply retain_lookup.
  - eapply Forall_impl; [exact H6|]. simpl. lia.
  - pose proof (retain_size (arl_window_millis l) now (arl_attempts l)). lia.
  - intros key. rewrite Hr. pose proof (drop_expired_length window now (recent window last key log)).
    specialize (H8 key). lia.
Qed.

Lemma limited_spec maximum window last l log key :
  0 < maximum → limiter_inv maximum window last l log →
  limited key l = false ↔ Z.of_nat (length (recent window last key log)) < maximum ∧
    (recent window last key log ≠ [] ∨ Z.of_nat (size (arl_attempts l)) < KEY_LIMIT).
Proof.
  intros Hm [H1 H2 H3 H4 _ _ _ H8 _]. unfold limited. specialize (H3 key). specialize (H4 key). specialize (H8 key).
  rewrite H1, orb_false_iff, andb_false_iff, Z.leb_gt. destruct (arl_attempts l !! key) as [values|]; simpl in *.
  - subst values. rewrite Z.leb_gt. split; [|tauto]. intros [? _]. split; [done|]. left. by intros E; rewrite E in H4.
  - rewrite <- H3. simpl. split.
    + intros [_ [?|?]]; [done|]. split; [done|by right].
    + intros [_ [?|?]]; [done|]. split; [done|by right].
Qed.

Lemma recent_snoc window now key log k : 
  0 < window → recent window now key (log ++ [(k, now)]) =
  recent window now key log ++ (if bool_decide (k = key) then [now] else []).
Proof.
  intros Hw. unfold recent. rewrite filter_app, fmap_app. f_equal. case_bool_decide.
  - by rewrite filter_cons_True by (simpl; split; [done|lia]).
  - by rewrite filter_cons_False by naive_solver.
Qed.

(** What a window that contains the present holds is recent. *)
Lemma window_recent window from now key log :
  from ≤ now < from + window → Forall (λ e, e.2 ≤ now) log →
  (length (in_window window from key log) ≤ length (recent window now key log))%nat.
Proof.
  intros Hf Hl. unfold in_window, recent. rewrite length_fmap. 
  induction Hl as [|e log He Hl IH]; [done|]. destruct (decide (e.1 = key ∧ from ≤ e.2 < from + window)) as [H|H].
  - rewrite !filter_cons_True by (naive_solver lia). simpl. lia.
  - rewrite filter_cons_False by done. rewrite filter_cons. case_decide; simpl; lia.
Qed.

Lemma record_inv maximum window now l log key :
  0 < maximum → 0 < window → limiter_inv maximum window now l log → limited key l = false →
  limiter_inv maximum window now
    (mkAttemptRateLimiter (arl_maximum_attempts l) (arl_window_millis l)
       (<[key := default [] (arl_attempts l !! key) ++ [now]]> (arl_attempts l))) (log ++ [(key, now)]).
Proof.
  intros Hm Hw Hi Hl. apply (limited_spec maximum window now l log key Hm Hi) in Hl as [Hc Hk].
  destruct Hi as [H1 H2 H3 H4 H5 H6 H7 H8 H9]. split; simpl; try done.
  - intros k. rewrite recent_snoc by done. destruct (decide (key = k)) as [<-|Hn].
    + rewrite lookup_insert_eq, bool_decide_eq_true_2 by done. simpl. by rewrite H3.
    + by rewrite lookup_insert_ne, bool_decide_eq_false_2, app_nil_r by done.
  - intros k. destruct (decide (key = k)) as [<-|Hn].
    + rewrite lookup_insert_eq. by destruct (default [] _).
    + by rewrite lookup_insert_ne.
  - rewrite fmap_app. apply StronglySorted_app_2; [|done|repeat constructor]. intros x y Hx Hy.
    apply list_elem_of_fmap in Hx as (e & -> & He). rewrite Forall_forall in H6. specialize (H6 e He).
    apply list_elem_of_singleton in Hy as ->. done.
  - apply Forall_app. split; [done|]. by repeat constructor.
  - destruct (arl_attempts l !! key) as [values|] eqn:E.
    + rewrite map_size_insert_Some by (by eexists). done.
    + rewrite map_size_insert_None by done. destruct Hk as [Hk|Hk]; [|lia].
      destruct Hk. rewrite <- H3, E. done.
  - intros k. rewrite recent_snoc, length_app by done. specialize (H8 k). case_bool_decide; simpl; [subst k|]; lia.
  - intros k from. unfold in_window. rewrite filter_app, length_app. fold (in_window window from k log).
    destruct (decide (key = k ∧ from ≤ now < from + window)) as [[<- Hf]|Hn].
    + rewrite filter_cons_True by done. simpl. pose proof (window_recent window from now key log Hf H6). lia.
    + rewrite filter_cons_False by done. specialize (H9 k from). simpl. lia.
Qed.

Lemma check_purges key now l :
  identifier_invalid 256 key = false →
  limiter_check key now l = (purged now l, refuse (limited key (purged now l)) Limited).
Proof. unfold limiter_check. by intros ->. Qed.

Lemma step_limiter_inv maximum window last l log op :
  0 < maximum → 0 < window → last ≤ limiter_op_time op → limiter_inv maximum window last l log →
  ∃ last', last ≤ last' ≤ limiter_op_time op ∧
    limiter_inv maximum window last' (limiter_step (l, log) op).1 (limiter_step (l, log) op).2.
Proof.
  intros Hm Hw Hn Hi. destruct op as [key now|key now]; simpl in Hn; cbn [limiter_step fst snd];
    unfold limiter_record; destruct (identifier_invalid 256 key) eqn:Ek.
  - exists last. unfold limiter_check. rewrite Ek. split; [|done]. simpl. lia.
  - exists now. rewrite (check_purges key now l Ek). split; [simpl; lia|]. by eapply purged_inv.
  - exists last. unfold limiter_check. rewrite Ek. split; [|done]. simpl. lia.
  - exists now. rewrite (check_purges key now l Ek). split; [simpl; lia|].
    assert (limiter_inv maximum window now (purged now l) log) as Hp by (by eapply purged_inv).
    destruct (limited key (purged now l)) eqn:El; [done|]. by apply record_inv.
Qed.

Lemma run_limiter_inv maximum window ops : ∀ last l log,
  0 < maximum → 0 < window → times_in_order last ops → limiter_inv maximum window last l log →
  ∃ last', (∀ now, Forall (λ op, limiter_op_time op ≤ now) ops → last ≤ now → last' ≤ now) ∧
    limiter_inv maximum window last' (foldl limiter_step (l, log) ops).1 (foldl limiter_step (l, log) ops).2.
Proof.
  induction ops as [|op ops IH]; intros last l log Hm Hw Ho Hi; [by exists last|]. destruct Ho as [Ht Ho].
  destruct (step_limiter_inv maximum window last l log op Hm Hw Ht Hi) as (last' & Hl & Hi').
  assert (times_in_order last' ops) as Ho'.
  { clear -Ho Hl. destruct ops as [|op' ops]; [done|]. simpl in *. split; [lia|apply Ho]. }
  cbn [foldl]. rewrite (surjective_pairing (limiter_step (l, log) op)).
  destruct (IH last' _ _ Hm Hw Ho' Hi') as (last'' & Hb & Hi''). exists last''. split; [|done].
  intros now Hf Hn. apply Forall_cons in Hf as [? Hf]. apply Hb; [done|lia].
Qed.

Lemma fresh_limiter maximum window last :
  0 ≤ maximum → limiter_inv maximum window last (mkAttemptRateLimiter maximum window ∅) [].
Proof. intros Hm. split; simpl; try done; try constructor. Qed.

(** The limiter of attempts.  However the checks and records of all keys interleave, at
    times that do not go back: within no window of time is a key recorded more often than its
    limit; the limiter keeps at most 1024 keys with at most the limit of attempts each; and a
    check of a valid key fails exactly when the key has used up its limit within the window
    that ends now, or when it is a new one and 1024 others were active, so that no flood of
    keys makes the limiter forget an attempt that still counts. *)
Theorem rate_limit_window maximum window limiter t0 ops key from now :
  0 ≤ maximum → 0 ≤ window → AttemptRateLimiter_new maximum window = Ok limiter →
  times_in_order t0 ops → Forall (λ op, limiter_op_time op ≤ now) ops → t0 ≤ now →
  let '(l, log) := limiter_run limiter ops in
  Z.of_nat (length (in_window window from key log)) ≤ maximum ∧
  Z.of_nat (size (arl_attempts l)) ≤ KEY_LIMIT ∧
  (∀ k values, arl_attempts l !! k = Some values → 0 < Z.of_nat (length values) ≤ maximum) ∧
  (identifier_invalid 256 key = false →
   (limiter_check key now l).2 = Ok tt ↔
     Z.of_nat (length (recent window now key log)) < maximum ∧
     (recent window now key log ≠ [] ∨ Z.of_nat (size (arl_attempts (purged now l))) < KEY_LIMIT)).
Proof.
  intros Hm Hw Hl Ho Hf Ht. unfold AttemptRateLimiter_new in Hl. unbind Hl. injection Hl as <-.
  apply orb_false_iff in E as [E E2]. apply orb_false_iff in E as [E1 E3]. apply Z.eqb_neq in E1, E2.
  destruct (run_limiter_inv maximum window ops t0 _ _ ltac:(lia) ltac:(lia) Ho (fresh_limiter maximum window t0 Hm))
    as (last & Hb & Hi). unfold limiter_run. specialize (Hb now Hf Ht).
  destruct (foldl limiter_step _ ops) as [l log]. cbn [fst snd] in Hi. split_and!.
  - apply Hi.
  - apply Hi.
  - intros k values Hk.
    pose proof (li_attempts _ _ _ _ _ Hi k) as Ha. pose proof (li_nonempty _ _ _ _ _ Hi k) as Hne.
    pose proof (li_bound _ _ _ _ _ Hi k) as Hbd. rewrite Hk in Ha, Hne. simpl in Ha. rewrite <- Ha in Hbd.
    split; [|done]. destruct values; [done|simpl; lia].
  - intros Hk. rewrite (check_purges key now l Hk). cbn [snd]. rewrite refuse_Ok.
    apply (limited_spec maximum window now); [lia|]. eapply purged_inv; [lia|exact Hb|done].
Qed.

Definition demo_attempts : list LimiterOp :=
  [LimRecord (lit "a") 0; LimRecord (lit "a") 10; LimRecord (lit "a") 20; LimRecord (lit "b") 30;
   LimRecord (lit "a") 99; LimRecord (lit "a") 100].

Lemma rate_limit_window_witness :
  (limiter_run (mkAttemptRateLimiter 2 100 ∅) demo_attempts).2 =
    [(lit "a", 0); (lit "a", 10); (lit "b", 30); (lit "a", 100)] ∧
  Z.of_nat (length (in_window 100 10 (lit "a") (limiter_run (mkAttemptRateLimiter 2 100 ∅) demo_attempts).2)) ≤ 2.
Proof.
  split; [vm_compute; reflexivity|].
  pose proof (rate_limit_window 2 100 (mkAttemptRateLimiter 2 100 ∅) 0 demo_attempts (lit "a") 10 100
    ltac:(lia) ltac:(lia) eq_refl) as H.
  destruct (limiter_run (mkAttemptRateLimiter 2 100 ∅) demo_attempts) as [l log].
  apply H; [repeat split; simpl; lia|repeat constructor; simpl; lia|lia].
Defined.
