(* ===== verification/RemoteTrust.v ===== *)
(** * The gateway for phones: trust

    Models the shared state of the gateway with its commit of a changed registry and the
    authentication of a phone ([network.rs]), the trust store ([trust_store.rs]) and the
    requests of the administration ([admin.rs]) of [lumi-remote-gateway].  The clock, the
    random numbers and the outcome of writing the file are inputs of the operations; a file
    that was written is read back as it was, by the rename that commits it and by [serde]. *)

From stdpp Require Import prelude list gmap sets strings.
From Stdlib Require Import ZArith Lia.
From S2P Require Import Prelude.
From S2P Require Import RemoteCommands.
From S2P Require Import RemoteProjection.
From S2P Require Import RemoteGateway.
Open Scope Z_scope.

(** ** The trust store *)

Definition TRUST_STORE_VERSION : Z := 1.

Record TrustStoreFile := mkTrustStoreFile {
  tsf_version : Z;
  tsf_registry : PairingRegistrySnapshot;
}.

Inductive TrustStoreError : Type :=
| TrustUntrustedPath
| TrustUnsupportedVersion (version : Z)
| TrustOversized
| TrustIo
| TrustJson
| InvalidRegistry (error : PairingError).

(** The file as [load] finds it. *)
Inductive StoredTrust : Type :=
| TrustAbsent
| TrustUnprotected
| TrustUnreadable (error : TrustStoreError)
| TrustReadable (file : TrustStoreFile).

Definition trust_load (stored : StoredTrust) : result PairingRegistry TrustStoreError :=
  match stored with
  | TrustAbsent => Ok PairingRegistry_default
  | TrustUnprotected => Err TrustUntrustedPath
  | TrustUnreadable error => Err error
  | TrustReadable store =>
      let? _ := refuse (negb (tsf_version store =? TRUST_STORE_VERSION))
                  (TrustUnsupportedVersion (tsf_version store)) in
      map_err InvalidRegistry (PairingRegistry_from_snapshot (tsf_registry store))
  end.

(** [save]: the file is replaced as a whole, or left as it was when a step before the rename
    fails. *)
Definition trust_save (failure : option TrustStoreError) (registry : PairingRegistry) (stored : StoredTrust) :
    StoredTrust * result unit TrustStoreError :=
  match failure with
  | Some error => (stored, Err error)
  | None => (TrustReadable (mkTrustStoreFile TRUST_STORE_VERSION (PairingRegistry_snapshot registry)), Ok tt)
  end.

(** ** The shared state *)

Inductive IdentityError : Type := InvalidRandomLength | IdentityIo.

Inductive GatewayNetworkError : Type :=
| NetInvalidClientLimit
| NetHandshakeTimeout
| NetAuthenticationTimeout
| NetAuthenticationEnded
| NetUnexpectedFrame
| NetOversizedFrame
| NetSlowClient
| NetEngineUnavailable
| NetIo
| NetTls
| NetJson
| NetFrame
| NetAuthentication (error : RemoteAuthenticationError)
| NetPairing (error : PairingError)
| NetCommand (error : CommandGuardError)
| NetRateLimit (error : RateLimitError)
| NetConfiguration (error : GatewayConfigError)
| NetIdentity (error : IdentityError)
| NetTrustStore (error : TrustStoreError)
| NetBonjour.

Record SharedGatewayState := mkSharedGatewayState {
  sg_registry : PairingRegistry;
  sg_command_guard : GatewayCommandGuard;
  sg_stored : StoredTrust;
  sg_installation_id : str;
  sg_certificate_fingerprint_sha256 : str;
  sg_trust_revision : Z;
  sg_command_limiter : AttemptRateLimiter;
}.

Definition set_sg_registry r (g : SharedGatewayState) : SharedGatewayState :=
  mkSharedGatewayState r (sg_command_guard g) (sg_stored g) (sg_installation_id g)
    (sg_certificate_fingerprint_sha256 g) (sg_trust_revision g) (sg_command_limiter g).
Definition set_sg_command_guard x (g : SharedGatewayState) : SharedGatewayState :=
  mkSharedGatewayState (sg_registry g) x (sg_stored g) (sg_installation_id g)
    (sg_certificate_fingerprint_sha256 g) (sg_trust_revision g) (sg_command_limiter g).
Definition set_sg_stored x (g : SharedGatewayState) : SharedGatewayState :=
  mkSharedGatewayState (sg_registry g) (sg_command_guard g) x (sg_installation_id g)
    (sg_certificate_fingerprint_sha256 g) (sg_trust_revision g) (sg_command_limiter g).
Definition set_sg_trust_revision x (g : SharedGatewayState) : SharedGatewayState :=
  mkSharedGatewayState (sg_registry g) (sg_command_guard g) (sg_stored g) (sg_installation_id g)
    (sg_certificate_fingerprint_sha256 g) x (sg_command_limiter g).
Definition set_sg_command_limiter x (g : SharedGatewayState) : SharedGatewayState :=
  mkSharedGatewayState (sg_registry g) (sg_command_guard g) (sg_stored g) (sg_installation_id g)
    (sg_certificate_fingerprint_sha256 g) (sg_trust_revision g) x.

(** What an operation reads from outside: the clock, the bytes of the random numbers it asks
    for, in order, and whether the file can be written. *)
Record TrustEnv := mkTrustEnv {
  te_now : Z;
  te_random : nat → result (list Z) IdentityError;
  te_save_failure : option TrustStoreError;
}.

(** [random_hex]: its [n]th call. *)
Definition random_hex (n : nat) (byte_count : Z) (env : TrustEnv) : result str IdentityError :=
  let? _ := refuse (negb (in_range 8 256 byte_count)) InvalidRandomLength in
  let? bytes := te_random env n in
  Ok (bytes ≫= hex_lower_byte).

Definition gateway (A : Type) : Type := method SharedGatewayState GatewayNetworkError A.

Definition SharedGatewayState_load (installation_id fingerprint : str) (stored : StoredTrust) (env : TrustEnv) :
    result SharedGatewayState GatewayNetworkError :=
  let? registry := map_err NetTrustStore (trust_load stored) in
  let? command_guard := map_err NetCommand (GatewayCommandGuard_new (Z.of_nat DEFAULT_COMMAND_LEDGER_CAPACITY)) in
  let? command_guard :=
    match controller_device_id registry with
    | Some controller =>
        let? lease := map_err NetIdentity (random_hex 0 24 env) in
        Ok (guard_transfer_control controller lease command_guard)
    | None => Ok command_guard
    end in
  let? limiter := map_err NetRateLimit (AttemptRateLimiter_new 32 1000) in
  Ok (mkSharedGatewayState registry command_guard stored installation_id fingerprint 0 limiter).

Definition notify_trust_changed : gateway unit :=
  method_modify (λ g, set_sg_trust_revision (saturating_add_u64 (sg_trust_revision g) 1) g).

(** The lease of the new owner, when it needs one. *)
Definition new_lease (n : nat) (needed : bool) (env : TrustEnv) : result (option str) IdentityError :=
  if needed then let? lease := random_hex n 24 env in Ok (Some lease) else Ok None.

Definition apply_ownership (owner lease : option str) (guard : GatewayCommandGuard) : GatewayCommandGuard :=
  match owner, lease with
  | Some owner, Some lease => guard_transfer_control owner lease guard
  | _, _ => guard_revoke_control guard
  end.

Definition commit_registry (candidate : PairingRegistry) (rotate_lease : bool) (env : TrustEnv) : gateway unit :=
  let! guard := method_get sg_command_guard in
  let owner := controller_device_id candidate in
  let ownership_changed := negb (bool_decide (cl_device_id <$> guard_controller guard = owner)) in
  let! lease := method_result (map_err NetIdentity
    (new_lease 0 ((ownership_changed || rotate_lease) && is_some owner) env)) in
  let! stored := method_get sg_stored in
  let '(stored, saved) := trust_save (te_save_failure env) candidate stored in
  do! method_modify (set_sg_stored stored) then
  let! _saved := method_result (map_err NetTrustStore saved) in
  do! (if ownership_changed || rotate_lease
       then method_modify (set_sg_command_guard (apply_ownership owner lease guard))
       else method_ret tt) then
  method_modify (set_sg_registry candidate).

(** ** Authentication of a phone *)

Section Trust.
(** SHA-256. *)
Variable sha256 : list Z → list Z.

(** The registry with the authentication or the pairing, with the device and whether it was
    paired now. *)
Definition greeted (hello : RemoteClientHello) (now : Z) (candidate : PairingRegistry) :
    result (PairingRegistry * str * bool) PairingError :=
  match hello with
  | HelloAuthenticate device_id credential client_version =>
      match authenticate sha256 device_id credential now candidate with
      | (_, Err error) => Err error
      | (candidate, Ok _) => Ok (set_client_version device_id client_version candidate, device_id, false)
      end
  | HelloPair invitation_id invitation_secret device_id display_name device_credential client_version =>
      match exchange sha256 invitation_id invitation_secret device_id display_name device_credential now candidate with
      | (_, Err error) => Err error
      | (candidate, Ok _) => Ok (set_client_version device_id client_version candidate, device_id, true)
      end
  end.

Definition controller_display_name (r : PairingRegistry) : option str :=
  pdv_display_name <$> List.find pdv_controller (paired_devices r).

Definition gateway_authenticate (hello : RemoteClientHello) (env : TrustEnv) : gateway (str * RemoteServerHello) :=
  let! _valid := method_result (map_err NetAuthentication (RemoteClientHello_validate hello)) in
  let! candidate := method_get sg_registry in
  let! greeted := method_result (map_err NetPairing (greeted hello (te_now env) candidate)) in
  let '(candidate, device_id, paired) := greeted in
  do! commit_registry candidate false env then
  let! lease := method_get (λ g, controller_lease_for device_id (sg_command_guard g)) in
  let! name := method_get (λ g, controller_display_name (sg_registry g)) in
  let! installation_id := method_get sg_installation_id in
  method_ret (device_id,
    if paired : bool then HelloPaired installation_id lease name
    else HelloAuthenticated installation_id lease name).

(** ** The administration *)

Inductive GatewayAdminRequest : Type :=
| AdminStatus
| AdminCreateInvitation
| AdminApproveInvitation (invitation_id short_code : str)
| AdminRevokeDevice (device_id : str)
| AdminTransferControl (device_id : str).

Record GatewayPairingInvitation := mkGatewayPairingInvitation {
  gpi_installation_id : str;
  gpi_invitation_id : str;
  gpi_invitation_secret : str;
  gpi_short_code : str;
  gpi_certificate_fingerprint_sha256 : str;
  gpi_expires_at_unix_millis : Z;
  gpi_approved : bool;
}.

Record GatewayPairedDeviceStatus := mkGatewayPairedDeviceStatus {
  gps_device_id : str;
  gps_display_name : str;
  gps_paired_at_unix_millis : Z;
  gps_last_seen_unix_millis : Z;
  gps_controller : bool;
  gps_client_version : option str;
}.

Record GatewayAdminStatus := mkGatewayAdminStatus {
  gas_engine_connected : bool;
  gas_installation_id : str;
  gas_certificate_fingerprint_sha256 : str;
  gas_lan_port : Z;
  gas_paired_devices : list GatewayPairedDeviceStatus;
  gas_controller_device_id : option str;
  gas_controller_changes : list ControllerChange;
}.

Record GatewayAdminResponse := mkGatewayAdminResponse {
  gar_ok : bool;
  gar_status : GatewayAdminStatus;
  gar_invitation : option GatewayPairingInvitation;
  gar_error_code : option str;
}.

Definition gateway_status (engine_connected : bool) (lan_port : Z) (g : SharedGatewayState) : GatewayAdminStatus :=
  let registry := sg_registry g in
  let controller := controller_device_id registry in
  mkGatewayAdminStatus engine_connected (sg_installation_id g) (sg_certificate_fingerprint_sha256 g) lan_port
    ((λ d, mkGatewayPairedDeviceStatus (pdv_device_id d) (pdv_display_name d) (pdv_paired_at_unix_millis d)
             (pdv_last_seen_unix_millis d) (bool_decide (controller = Some (pdv_device_id d)))
             (pdv_client_version d)) <$> paired_devices registry)
    controller (prg_controller_changes registry).

(** [u64::from_str_radix(text, 16)] of the sixteen digits [random_hex] gives for eight bytes. *)
Definition hex_value (text : str) : Z := foldl (λ n c, 16 * n + default 0 (remote_hex_nibble c)) 0 text.

(** [format!("{number:06}")] of a number below a million. *)
Definition six_digits (number : Z) : str :=
  let digits := show_u number in replicate (6 - length digits) 48 ++ digits.

(** [saturating_add]. *)
Definition invitation_expiry (now : Z) : Z := saturating_add_u64 now MAX_INVITATION_LIFETIME_MILLIS.

Definition admin (A : Type) : Type := method SharedGatewayState PairingError A.

Definition admin_random (n : nat) (byte_count : Z) (env : TrustEnv) : result str PairingError :=
  map_err (λ _, InvalidInvitation) (random_hex n byte_count env).

Definition admin_create_invitation (env : TrustEnv) : admin GatewayPairingInvitation :=
  let now := te_now env in
  let! invitation_id := method_result (admin_random 0 16 env) in
  let! invitation_secret := method_result (admin_random 1 32 env) in
  let! short_code_seed := method_result (admin_random 2 8 env) in
  let short_code := six_digits (hex_value short_code_seed mod 1000000) in
  let expires := invitation_expiry now in
  let! fingerprint := method_get sg_certificate_fingerprint_sha256 in
  let request := mkPairingInvitationRequest invitation_id invitation_secret short_code fingerprint now expires in
  let! registry := method_get sg_registry in
  let '(registry, created) := create_invitation sha256 request registry in
  do! method_modify (set_sg_registry registry) then
  let! _created := method_result created in
  let! installation_id := method_get sg_installation_id in
  method_ret (mkGatewayPairingInvitation installation_id invitation_id invitation_secret short_code fingerprint
                expires false).

(** [commit_registry] as the administration calls it: any failure is reported as persisted
    data that is invalid, and a success ends every connection. *)
Definition admin_commit (candidate : PairingRegistry) (rotate_lease : bool) (env : TrustEnv) : admin unit := λ g,
  match commit_registry candidate rotate_lease env g with
  | (g, Err _) => (g, Err InvalidPersistedDevice)
  | (g, Ok _) => ((notify_trust_changed g).1, Ok tt)
  end.

Definition admin_approve (invitation_id short_code : str) : admin unit := λ g,
  let '(registry, approved) := registry_approve invitation_id short_code (sg_registry g) in
  (set_sg_registry registry g, approved).

Definition admin_revoke (device_id : str) (env : TrustEnv) : admin unit :=
  let! candidate := method_get sg_registry in
  let previous := controller_device_id candidate in
  let '(candidate, revoked) := registry_revoke device_id candidate in
  if revoked : bool then
    let candidate :=
      if bool_decide (previous = Some device_id)
      then record_controller_change previous (lit "controllerRevoked") (te_now env) candidate
      else candidate in
    admin_commit candidate false env
  else method_fail DeviceUnknown.

Definition admin_transfer (device_id : str) (env : TrustEnv) : admin unit :=
  let! candidate := method_get sg_registry in
  let previous := controller_device_id candidate in
  match set_controller device_id candidate with
  | (candidate, Ok _) =>
      admin_commit (record_controller_change previous (lit "macTransfer") (te_now env) candidate) true env
  | (_, Err _) => method_fail DeviceUnknown
  end.

Definition apply_admin (request : GatewayAdminRequest) (env : TrustEnv) :
    admin (option GatewayPairingInvitation) :=
  match request with
  | AdminStatus => method_ret None
  | AdminCreateInvitation => let! invitation := admin_create_invitation env in method_ret (Some invitation)
  | AdminApproveInvitation invitation_id short_code =>
      do! admin_approve invitation_id short_code then method_ret None
  | AdminRevokeDevice device_id => do! admin_revoke device_id env then method_ret None
  | AdminTransferControl device_id => do! admin_transfer device_id env then method_ret None
  end.

Definition pairing_error_code (error : PairingError) : str :=
  match error with
  | InvalidInvitation => lit "invalidInvitation"
  | InvitationUnknown => lit "invitationUnknown"
  | InvitationExpired => lit "invitationExpired"
  | ApprovalRequired => lit "approvalRequired"
  | ShortCodeMismatch => lit "shortCodeMismatch"
  | DeviceUnknown => lit "deviceUnknown"
  | DeviceLimitReached => lit "deviceLimitReached"
  | _ => lit "pairingRejected"
  end.

Definition apply_request (request : GatewayAdminRequest) (env : TrustEnv) (engine_connected : bool) (lan_port : Z)
    (g : SharedGatewayState) : SharedGatewayState * GatewayAdminResponse :=
  let '(g, outcome) := apply_admin request env g in
  let status := gateway_status engine_connected lan_port g in
  (g, match outcome with
      | Ok invitation => mkGatewayAdminResponse true status invitation None
      | Err error => mkGatewayAdminResponse false status None (Some (pairing_error_code error))
      end).
End Trust.
