(* ===== verification/RemoteTrustProps.v ===== *)
(** * The gateway for phones: properties of trust

    What is written to the trust store is what a restart reads, as long as the clock does not
    go back, and the owner of the lease of the commands is the controller of the registry. *)

From stdpp Require Import prelude list gmap sets sorting strings.
From Stdlib Require Import ZArith Lia.
From S2P Require Import Prelude.
From S2P Require Import RemoteCommands.
From S2P Require Import RemoteProjection.
From S2P Require Import RemoteGateway.
From S2P Require Import RemoteTrust.
Open Scope Z_scope.

(** ** Registries that can be restored *)

Definition change_ok (change : ControllerChange) : Prop := validate_change change = Ok tt.

(** A device under its identifier, last seen by [last]. *)
Record device_ok (last : Z) (id : str) (d : PairedDevice) : Prop := {
  dk_id : pdv_device_id d = id;
  dk_identifier : identifier_ok 128 id;
  dk_name : identifier_ok 128 (pdv_display_name d);
  dk_version : from_option (identifier_ok 64) True (pdv_client_version d);
  dk_times : 0 < pdv_paired_at_unix_millis d ≤ pdv_last_seen_unix_millis d ∧ pdv_last_seen_unix_millis d ≤ last;
}.

Record registry_wf (last : Z) (r : PairingRegistry) : Prop := {
  rw_devices : map_Forall (device_ok last) (prg_devices r);
  rw_size : (size (prg_devices r) ≤ MAX_PAIRED_DEVICES)%nat;
  rw_controller : ∀ id id' d d', prg_devices r !! id = Some d → prg_devices r !! id' = Some d' →
    pdv_controller d = true → pdv_controller d' = true → id = id';
  rw_initialized : prg_controller_selection_initialized r = false → prg_devices r = ∅;
  rw_changes : (length (prg_controller_changes r) ≤ MAX_CONTROLLER_CHANGES)%nat ∧
    Forall change_ok (prg_controller_changes r);
}.

Definition device_entries (r : PairingRegistry) : list (str * PairedDevice) :=
  sort_by (λ a b, str_leb a.1 b.1) (map_to_list (prg_devices r)).

Lemma device_entries_perm r : device_entries r ≡ₚ map_to_list (prg_devices r).
Proof. apply sort_by_perm. Qed.

Lemma device_entries_elem r id d : (id, d) ∈ device_entries r ↔ prg_devices r !! id = Some d.
Proof. by rewrite device_entries_perm, elem_of_map_to_list. Qed.

Lemma device_entries_nodup r : NoDup (device_entries r).*1.
Proof. rewrite device_entries_perm. apply NoDup_fst_map_to_list. Qed.

Lemma paired_devices_elem r d : d ∈ paired_devices r ↔ ∃ id, prg_devices r !! id = Some d.
Proof.
  unfold paired_devices. fold (device_entries r). rewrite list_elem_of_fmap. split.
  - intros ([id d'] & -> & H). exists id. by apply device_entries_elem.
  - intros [id H]. exists (id, d). by rewrite device_entries_elem.
Qed.

(** The controller of a registry is the device that has the mark. *)
Lemma controller_spec last r id :
  registry_wf last r →
  controller_device_id r = Some id ↔ ∃ d, prg_devices r !! id = Some d ∧ pdv_controller d = true.
Proof.
  intros Hw. unfold controller_device_id. split.
  - destruct (List.find pdv_controller (paired_devices r)) as [d|] eqn:E; [|done]. intros [= <-].
    apply find_some in E as [Hin Hc]. apply list_elem_of_In, paired_devices_elem in Hin as [id Hd].
    pose proof (dk_id _ _ _ (rw_devices _ _ Hw id d Hd)) as E. rewrite E. by exists d.
  - intros (d & Hd & Hc). destruct (List.find pdv_controller (paired_devices r)) as [d'|] eqn:E.
    + apply find_some in E as [Hin Hc']. apply list_elem_of_In, paired_devices_elem in Hin as [id' Hd'].
      pose proof (rw_controller _ _ Hw id id' d d' Hd Hd' Hc Hc') as ->.
      simpl. f_equal. exact (dk_id _ _ _ (rw_devices _ _ Hw id' d' Hd')).
    + exfalso. eapply find_none in E; [by rewrite Hc in E|]. apply list_elem_of_In, paired_devices_elem. by exists id.
Qed.

Lemma public_identifier_Ok value maximum u : validate_public_identifier value maximum = Ok u ↔ identifier_ok maximum value.
Proof.
  unfold validate_public_identifier. rewrite <- identifier_invalid_spec. destruct u.
  by destruct (identifier_invalid maximum value).
Qed.

Lemma optional_identifier_Ok value maximum u :
  optional_public_identifier maximum value = Ok u ↔ from_option (identifier_ok maximum) True value.
Proof. destruct u. destruct value as [v|]; simpl; [apply public_identifier_Ok|done]. Qed.

(** Restoring one device. *)
Lemma restore_device_Ok devices n d r :
  restore_device (devices, n) d = Ok r ↔
  identifier_ok 128 (pdv_device_id d) ∧ identifier_ok 128 (pdv_display_name d) ∧
  from_option (identifier_ok 64) True (pdv_client_version d) ∧
  pdv_paired_at_unix_millis d ≠ 0 ∧ pdv_paired_at_unix_millis d ≤ pdv_last_seen_unix_millis d ∧
  devices !! pdv_device_id d = None ∧
  r = (<[pdv_device_id d := d]> devices, if pdv_controller d then S n else n).
Proof.
  unfold restore_device. rewrite result_bind_Ok. setoid_rewrite public_identifier_Ok.
  split.
  - intros ([] & H1 & H). apply result_bind_Ok in H as ([] & H2 & H). apply public_identifier_Ok in H2.
    apply result_bind_Ok in H as ([] & H3 & H). apply optional_identifier_Ok in H3.
    apply result_bind_Ok in H as ([] & H4 & H). apply refuse_Ok in H4.
    apply orb_false_iff in H4 as [H4 H6]. apply orb_false_iff in H4 as [H4 H5].
    apply Z.eqb_neq in H4. apply Z.ltb_ge in H5. injection H as <-.
    split_and!; try done. by destruct (devices !! pdv_device_id d).
  - intros (H1 & H2 & H3 & H4 & H5 & H6 & ->). exists tt. split; [done|].
    apply result_bind_Ok. exists tt. split; [by apply public_identifier_Ok|].
    apply result_bind_Ok. exists tt. split; [by apply optional_identifier_Ok|].
    apply result_bind_Ok. exists tt. split; [|done]. apply refuse_Ok.
    by rewrite H6, (proj2 (Z.eqb_neq _ _) H4), (proj2 (Z.ltb_ge _ _) H5).
Qed.

Definition controllers (l : list PairedDevice) : nat := length (filter (λ d, pdv_controller d = true) l).

Definition device_acceptable (d : PairedDevice) : Prop :=
  identifier_ok 128 (pdv_device_id d) ∧ identifier_ok 128 (pdv_display_name d) ∧
  from_option (identifier_ok 64) True (pdv_client_version d) ∧
  pdv_paired_at_unix_millis d ≠ 0 ∧ pdv_paired_at_unix_millis d ≤ pdv_last_seen_unix_millis d.

Definition keyed (l : list PairedDevice) : list (str * PairedDevice) := (λ d, (pdv_device_id d, d)) <$> l.

Lemma restore_devices_Ok l : ∀ devices n r,
  restore_devices (devices, n) l = Ok r ↔
  Forall device_acceptable l ∧ NoDup (pdv_device_id <$> l) ∧ Forall (λ d, devices !! pdv_device_id d = None) l ∧
  r = (list_to_map (keyed l) ∪ devices, (n + controllers l)%nat).
Proof.
  induction l as [|d l IH]; intros devices n r; cbn [restore_devices].
  { unfold controllers. simpl. rewrite Nat.add_0_r, (left_id_L ∅ (∪)). split.
    - intros [= <-]. split_and!; try constructor.
    - by intros (_ & _ & _ & ->). }
  rewrite result_bind_Ok. csimpl. rewrite !Forall_cons, NoDup_cons. split.
  - intros ([devices' n'] & H & Hr). apply restore_device_Ok in H as (H1 & H2 & H3 & H4 & H5 & H6 & [= -> ->]).
    apply IH in Hr as (Hf & Hn & Hk & ->). split_and!; try done.
    + intros Hin. apply list_elem_of_fmap in Hin as (d' & E & Hd'). rewrite Forall_forall in Hk.
      specialize (Hk d' Hd'). rewrite <- E, lookup_insert_eq in Hk. done.
    + eapply Forall_impl; [exact Hk|]. simpl. intros d' Hd'. by apply lookup_insert_None in Hd' as [? _].
    + f_equal.
      * rewrite <- insert_union_l, insert_union_r; [done|]. apply not_elem_of_list_to_map.
        unfold keyed. rewrite <- list_fmap_compose. intros Hin. apply list_elem_of_fmap in Hin as (d' & E & Hd').
        simpl in E. rewrite Forall_forall in Hk. specialize (Hk d' Hd'). by rewrite <- E, lookup_insert_eq in Hk.
      * unfold controllers. rewrite filter_cons. destruct (pdv_controller d) eqn:Ec; case_decide; simpl; try congruence; lia.
  - intros ([Ha Hf] & [Hd Hn] & [Hk Hks] & ->). destruct Ha as (H1 & H2 & H3 & H4 & H5).
    eexists. split; [apply restore_device_Ok; split_and!; done|]. apply IH. split_and!; try done.
    + apply Forall_forall. intros d' Hd'. apply lookup_insert_None. rewrite Forall_forall in Hks.
      split; [by apply Hks|]. intros E. apply Hd, list_elem_of_fmap. by exists d'.
    + f_equal.
      * rewrite <- insert_union_l, insert_union_r; [done|]. apply not_elem_of_list_to_map.
        unfold keyed. rewrite <- list_fmap_compose. exact Hd.
      * unfold controllers. rewrite filter_cons. destruct (pdv_controller d) eqn:Ec; case_decide; simpl; try congruence; lia.
Qed.

Lemma controllers_le1 l :
  (controllers l ≤ 1)%nat ↔ ∀ i j d d', l !! i = Some d → l !! j = Some d' →
    pdv_controller d = true → pdv_controller d' = true → i = j.
Proof.
  unfold controllers. induction l as [|d l IH]; [simpl; split; [by intros _ i|lia]|].
  rewrite filter_cons. destruct (decide (pdv_controller d = true)) as [Hd|Hd]; csimpl.
  - split.
    + intros Hle.
      assert (Hn : ∀ k e, l !! k = Some e → pdv_controller e = true → False).
      { intros k e Hk He. assert (E : filter (λ e, pdv_controller e = true) l = []) by (apply nil_length_inv; lia).
        apply (filter_nil_not_elem_of _ _ e E He). by eapply list_elem_of_lookup_2. }
      intros [|i] [|j] e e' Hi Hj He He'; csimpl in Hi; csimpl in Hj; [done| | |]; exfalso; eauto.
    + intros H. assert (E : filter (λ e, pdv_controller e = true) l = []); [|rewrite E; simpl; lia].
      destruct (filter _ l) as [|e l'] eqn:E; [done|]. exfalso.
      assert (He : e ∈ filter (λ e, pdv_controller e = true) l) by (rewrite E; left).
      apply list_elem_of_filter in He as [He Hin]. apply list_elem_of_lookup in Hin as [k Hk].
      by specialize (H 0%nat (S k) d e eq_refl Hk Hd He).
  - rewrite IH. split; intros H.
    + intros [|i] [|j] e e' Hi Hj He He'; csimpl in Hi; csimpl in Hj; [congruence..|]. f_equal. by eapply H.
    + intros i j e e' Hi Hj He He'. by eapply (H (S i) (S j)) in He'; [injection He'|..].
Qed.

(** ** Restoring a snapshot *)

Lemma acceptable_spec last id d : device_ok last id d → device_acceptable d.
Proof. intros [<- H1 H2 H3 [H4 H5]]. split_and!; [done|done|done|lia|lia]. Qed.

Lemma keyed_devices last r : registry_wf last r → keyed (paired_devices r) = device_entries r.
Proof.
  intros Hw. unfold keyed, paired_devices. fold (device_entries r). rewrite <- list_fmap_compose.
  rewrite <- (list_fmap_id (device_entries r)) at 2. apply list_fmap_ext. intros i [id d] Hi. simpl. f_equal.
  apply list_elem_of_lookup_2, device_entries_elem in Hi. apply (dk_id _ _ _ (rw_devices _ _ Hw id d Hi)).
Qed.

Lemma entries_map r : list_to_map (device_entries r) = prg_devices r.
Proof. rewrite <- (list_to_map_to_list (prg_devices r)). apply list_to_map_proper; [apply device_entries_nodup|apply device_entries_perm]. Qed.

Lemma paired_devices_length r : length (paired_devices r) = size (prg_devices r).
Proof. unfold paired_devices. fold (device_entries r). by rewrite length_fmap, device_entries_perm, length_map_to_list. Qed.

Lemma paired_devices_controllers last r : registry_wf last r → (controllers (paired_devices r) ≤ 1)%nat.
Proof.
  intros Hw. apply controllers_le1. unfold paired_devices. fold (device_entries r). intros i j d d' Hi Hj Hd Hd'.
  rewrite list_lookup_fmap in Hi. rewrite list_lookup_fmap in Hj.
  destruct (device_entries r !! i) as [[id e]|] eqn:Ei; [|done]. injection Hi as <-.
  destruct (device_entries r !! j) as [[id' e']|] eqn:Ej; [|done]. injection Hj as <-. simpl in Hd, Hd'.
  pose proof (list_elem_of_lookup_2 _ _ _ Ei) as Hin. pose proof (list_elem_of_lookup_2 _ _ _ Ej) as Hin'.
  apply device_entries_elem in Hin. apply device_entries_elem in Hin'.
  pose proof (rw_controller _ _ Hw _ _ _ _ Hin Hin' Hd Hd') as ->.
  eapply (NoDup_lookup _ _ _ id' (device_entries_nodup r)); rewrite list_lookup_fmap; [by rewrite Ei|by rewrite Ej].
Qed.

Lemma snapshot_roundtrip last r :
  registry_wf last r →
  PairingRegistry_from_snapshot (PairingRegistry_snapshot r) = Ok (set_prg_pending ∅ r).
Proof.
  intros Hw. unfold PairingRegistry_from_snapshot, PairingRegistry_snapshot. cbn [prs_devices prs_controller_changes prs_controller_selection_initialized].
  rewrite paired_devices_length. destruct (rw_changes _ _ Hw) as [Hc Hcs].
  rewrite (proj2 (Nat.ltb_ge _ _) (rw_size _ _ Hw)), (proj2 (Nat.ltb_ge _ _) Hc). cbn [refuse result_bind].
  rewrite (proj2 (try_each_Ok _ _ tt)) by done. cbn [result_bind].
  assert (E : restore_devices (∅, 0%nat) (paired_devices r) = Ok (prg_devices r, controllers (paired_devices r))).
  { apply restore_devices_Ok. split_and!.
    - apply Forall_forall. intros d [id Hd]%paired_devices_elem. eapply acceptable_spec. exact (rw_devices _ _ Hw id d Hd).
    - pose proof (device_entries_nodup r) as Hn. rewrite <- (keyed_devices _ _ Hw) in Hn. unfold keyed in Hn.
      by rewrite <- list_fmap_compose in Hn.
    - by apply Forall_forall.
    - by rewrite (keyed_devices _ _ Hw), entries_map, (right_id_L ∅ (∪)). }
  rewrite E. cbn [result_bind fst snd].
  rewrite (proj2 (Nat.ltb_ge _ _) (paired_devices_controllers _ _ Hw)). cbn [refuse result_bind].
  unfold set_prg_pending. do 2 f_equal.
  destruct (prg_controller_selection_initialized r) eqn:Ei; [done|]. simpl.
  apply negb_false_iff, bool_decide_eq_true. apply nil_length_inv.
  rewrite paired_devices_length, (rw_initialized _ _ Hw Ei). apply map_size_empty.
Qed.

(** Whatever is restored is well formed. *)
Lemma restored_wf last s r :
  PairingRegistry_from_snapshot s = Ok r →
  (∀ d, d ∈ paired_devices r → pdv_last_seen_unix_millis d ≤ last ∧ 0 ≤ pdv_paired_at_unix_millis d) →
  registry_wf last r ∧ prg_pending r = ∅.
Proof.
  unfold PairingRegistry_from_snapshot. intros H Hlast.
  apply result_bind_Ok in H as ([] & H1 & H). apply refuse_Ok, Nat.ltb_ge in H1.
  apply result_bind_Ok in H as ([] & H2 & H). apply refuse_Ok, Nat.ltb_ge in H2.
  apply result_bind_Ok in H as ([] & H3 & H). apply try_each_Ok in H3. cbv zeta in H.
  apply result_bind_Ok in H as (x & H4 & H). apply restore_devices_Ok in H4 as (Ha & Hn & _ & ->). cbn [fst snd] in H.
  apply result_bind_Ok in H as ([] & H5 & H). apply refuse_Ok, Nat.ltb_ge in H5. injection H as <-.
  split; [|done]. rewrite (right_id_L ∅ (∪)).
  assert (Hk : (keyed (prs_devices s)).*1 = pdv_device_id <$> prs_devices s) by (unfold keyed; by rewrite <- list_fmap_compose).
  assert (Hl : ∀ id d, (list_to_map (keyed (prs_devices s)) : gmap str PairedDevice) !! id = Some d →
                 d ∈ prs_devices s ∧ pdv_device_id d = id).
  { intros id d Hd. apply elem_of_list_to_map_2 in Hd. unfold keyed in Hd. apply list_elem_of_fmap in Hd as (d' & [= -> ->] & Hin). done. }
  split; cbn [prg_devices prg_controller_selection_initialized prg_controller_changes].
  - intros id d Hd. apply Hl in Hd as [Hin <-]. rewrite Forall_forall in Ha. destruct (Ha d Hin) as (A1 & A2 & A3 & A4 & A5).
    assert (Hp : pdv_last_seen_unix_millis d ≤ last ∧ 0 ≤ pdv_paired_at_unix_millis d).
    { apply Hlast, paired_devices_elem. exists (pdv_device_id d). cbn [prg_devices]. rewrite (right_id_L ∅ (∪)).
      apply elem_of_list_to_map; [by rewrite Hk|]. unfold keyed. apply list_elem_of_fmap. by exists d. }
    destruct Hp. split; try done. lia.
  - rewrite <- Hk in Hn. rewrite <- length_map_to_list, (map_to_list_to_map _ Hn). unfold keyed. by rewrite length_fmap.
  - intros id id' d d' Hd Hd' Hc Hc'. apply Hl in Hd as [Hin <-], Hd' as [Hin' <-].
    apply list_elem_of_lookup in Hin as [i Hi], Hin' as [j Hj].
    pose proof (proj1 (controllers_le1 _) H5 i j d d' Hi Hj Hc Hc') as ->. congruence.
  - intros Hi. apply orb_false_iff in Hi as [_ Hi]. apply negb_false_iff, bool_decide_eq_true in Hi. by rewrite Hi.
  - done.
Qed.

(** ** What the operations keep *)

Lemma registry_wf_mono last last' r : last ≤ last' → registry_wf last r → registry_wf last' r.
Proof.
  intros Hle [H1 H2 H3 H4 H5]. split; try done. intros id d Hd. destruct (H1 id d Hd) as [? ? ? ? [? ?]]. split; try done. lia.
Qed.

Lemma pending_wf last pending r : registry_wf last (set_prg_pending pending r) ↔ registry_wf last r.
Proof. split; intros [H1 H2 H3 H4 H5]; by split. Qed.

(** A device replaced by one that has the mark no more than it had. *)
Lemma insert_device_wf last id d0 d r :
  registry_wf last r → prg_devices r !! id = Some d0 → device_ok last id d →
  (pdv_controller d = true → pdv_controller d0 = true) →
  registry_wf last (set_prg_devices (<[id := d]> (prg_devices r)) r).
Proof.
  intros [H1 H2 H3 H4 H5] H0 Hd Hc. split; cbn [set_prg_devices prg_devices prg_controller_selection_initialized prg_controller_changes]; try done.
  - by apply map_Forall_insert_2.
  - by rewrite map_size_insert, H0.
  - intros a b x y Ha Hb Hx Hy. apply lookup_insert_Some in Ha as [[<- <-]|[? Ha]]; apply lookup_insert_Some in Hb as [[<- <-]|[? Hb]]; eauto.
  - intros Hi. rewrite (H4 Hi) in H0. done.
Qed.

Lemma change_wf last previous reason now r :
  registry_wf last r → identifier_ok 64 reason → from_option (identifier_ok 128) True previous →
  registry_wf last (record_controller_change previous reason now r).
Proof.
  intros Hw Hr Hp. pose proof Hw as [H1 H2 H3 H4 [H5 H6]]. split; cbn [record_controller_change prg_devices prg_controller_selection_initialized prg_controller_changes]; try done.
  rewrite length_app. simpl length. split.
  - unfold MAX_CONTROLLER_CHANGES in *. case_bool_decide; [|lia]. destruct (prg_controller_changes r); simpl in *; lia.
  - apply Forall_app. split; [case_bool_decide; [by apply Forall_tail|done]|].
    apply Forall_singleton. unfold change_ok, validate_change. cbn [cch_reason cch_device_id cch_previous_device_id].
    apply result_bind_Ok. exists tt. split; [by apply public_identifier_Ok|]. apply try_each_Ok, Forall_app. split.
    + destruct (controller_device_id r) as [id|] eqn:E; [|constructor]. apply (controller_spec _ _ _ Hw) in E as (d & Hd & _).
      apply Forall_singleton, public_identifier_Ok. apply (dk_identifier _ _ _ (H1 id d Hd)).
    + destruct previous as [p|]; [|constructor]. by apply Forall_singleton, public_identifier_Ok.
Qed.

Lemma version_wf last id version r :
  registry_wf last r → from_option (identifier_ok 64) True version → registry_wf last (set_client_version id version r).
Proof.
  intros Hw Hv. unfold set_client_version. destruct (prg_devices r !! id) as [d|] eqn:E; [|done]. destruct version as [v|]; [|done].
  eapply insert_device_wf; [done|exact E| |done]. destruct (rw_devices _ _ Hw id d E). by split.
Qed.

Lemma revoke_wf last id r : registry_wf last r → registry_wf last (registry_revoke id r).1.
Proof.
  intros [H1 H2 H3 H4 H5]. split; cbn [registry_revoke fst set_prg_devices prg_devices prg_controller_selection_initialized prg_controller_changes]; try done.
  - by apply map_Forall_delete.
  - rewrite map_size_delete. destruct (prg_devices r !! id); simpl; lia.
  - intros a b x y [_ Ha]%lookup_delete_Some [_ Hb]%lookup_delete_Some. eauto.
  - intros Hi. by rewrite (H4 Hi), delete_empty.
Qed.

Lemma set_controller_wf last id r r' u : registry_wf last r → set_controller id r = (r', Ok u) → registry_wf last r'.
Proof.
  intros Hw. pose proof Hw as [H1 H2 H3 H4 H5]. unfold set_controller. destruct (contains_device id r); [|done]. intros [= <- _].
  assert (Hl : ∀ a x, ((λ d, set_pdv_controller (bool_decide (pdv_device_id d = id)) d) <$> prg_devices r) !! a = Some x →
    ∃ d, prg_devices r !! a = Some d ∧ x = set_pdv_controller (bool_decide (a = id)) d).
  { intros a x Hx. rewrite lookup_fmap in Hx. destruct (prg_devices r !! a) as [d|] eqn:E; [|done].
    injection Hx as <-. exists d. split; [done|]. pose proof (dk_id _ _ _ (H1 a d E)) as Eid. by subst a. }
  split; cbn [negb set_prg_devices prg_devices prg_controller_selection_initialized prg_controller_changes]; try done.
  - intros a x (d & Hd & ->)%Hl. destruct (H1 a d Hd). by split.
  - by rewrite map_size_fmap.
  - intros a b x y (d & Hd & ->)%Hl (e & He & ->)%Hl. simpl. intros ->%bool_decide_eq_true ->%bool_decide_eq_true. done.
  - intros Hi. by rewrite (H4 Hi), fmap_empty.
Qed.

Section Credentials.
Variable sha256 : list Z → list Z.

Lemma authenticate_wf last now id credential r r' u :
  registry_wf last r → last ≤ now → authenticate sha256 id credential now r = (r', Ok u) → registry_wf now r'.
Proof.
  intros Hw Hle. unfold authenticate. destruct (prg_devices r !! id) as [d|] eqn:E; [|done].
  destruct (negb _); [done|]. intros [= <- _]. pose proof (registry_wf_mono _ _ _ Hle Hw) as Hw'.
  eapply insert_device_wf; [done|exact E| |done]. destruct (rw_devices _ _ Hw id d E) as [? ? ? ? [? ?]]. split; simpl; try done. lia.
Qed.

Lemma exchange_wf last now i secret id name credential r r' d :
  registry_wf last r → last ≤ now → 0 < now →
  exchange sha256 i secret id name credential now r = (r', Ok d) → registry_wf now r'.
Proof.
  intros Hw Hle Hnow. apply (registry_wf_mono _ _ _ Hle) in Hw. unfold exchange.
  destruct (exchange_allowed _ _ _ _ _ _ _ _) as [[]|e] eqn:Ha; [|done].
  unfold exchange_allowed in Ha. apply result_bind_Ok in Ha as (inv & _ & Ha).
  do 3 (apply result_bind_Ok in Ha as ([] & _ & Ha)). apply result_bind_Ok in Ha as ([] & Hid & Ha). apply public_identifier_Ok in Hid.
  apply result_bind_Ok in Ha as ([] & Hname & Ha). apply public_identifier_Ok in Hname.
  apply result_bind_Ok in Ha as ([] & _ & Hroom). apply refuse_Ok in Hroom.
  intros H. assert (Hr : ∀ r1, registry_wf now r1 →
    r' = (if negb (prg_controller_selection_initialized r) then record_controller_change None (lit "firstPairing") now r1 else r1) →
    registry_wf now r').
  { intros r1 H1 ->. destruct (negb (prg_controller_selection_initialized r)); [|done]. apply change_wf; [done| |exact I]. by apply identifier_invalid_spec. }
  injection H as Er _. eapply Hr; [|symmetry; exact Er]. clear Hr Er.
  pose proof Hw as [H1 H2 H3 H4 H5]. split; cbn [prg_devices prg_controller_selection_initialized prg_controller_changes]; try done.
  - apply map_Forall_insert_2; [|done]. split; try done; simpl; try lia.
    destruct (prg_devices r !! id) as [e|] eqn:E; [|done]. apply (dk_version _ _ _ (H1 id e E)).
  - destruct (prg_devices r !! id) as [e|] eqn:E.
    + by rewrite map_size_insert, E.
    + rewrite map_size_insert, E; simpl. unfold contains_device in Hroom. rewrite E in Hroom.
      apply andb_false_iff in Hroom as [?|Hroom]; [done|]. apply Nat.leb_gt in Hroom. lia.
  - intros a b x y Ha Hb.
    assert (Hold : ∀ c z, c ≠ id → prg_devices r !! c = Some z → pdv_controller z = true →
      negb (prg_controller_selection_initialized r) || option_is_some_and pdv_controller (prg_devices r !! id) = true → False).
    { intros c z Hc Hz Hcz Hor. apply orb_true_iff in Hor as [Hi|Ho].
      - apply negb_true_iff in Hi. by rewrite (H4 Hi) in Hz.
      - destruct (prg_devices r !! id) as [e|] eqn:E; [|done]. by apply Hc, (H3 c id z e Hz E). }
    apply lookup_insert_Some in Ha as [[<- <-]|[Hne Ha]]; apply lookup_insert_Some in Hb as [[<- <-]|[Hne' Hb]]; simpl; eauto.
    all: intros Hx Hy; exfalso; eauto.
Qed.

(** ** The shared state *)

(** What is stored is the registry, and the owner of the control is its controller. *)
Record trust_inv (last : Z) (g : SharedGatewayState) : Prop := {
  ti_registry : registry_wf last (sg_registry g);
  ti_stored : trust_load (sg_stored g) = Ok (set_prg_pending ∅ (sg_registry g));
  ti_owner : cl_device_id <$> guard_controller (sg_command_guard g) = controller_device_id (sg_registry g);
}.

Lemma trust_inv_mono last last' g : last ≤ last' → trust_inv last g → trust_inv last' g.
Proof. intros Hle [H1 H2 H3]. split; [by eapply registry_wf_mono|done|done]. Qed.

Lemma apply_ownership_owner owner lease guard :
  (is_some owner = true → is_some lease = true) →
  cl_device_id <$> guard_controller (apply_ownership owner lease guard) = owner.
Proof. destruct owner, lease; simpl; try done. intros H. by specialize (H eq_refl). Qed.

Lemma new_lease_Ok n needed env lease :
  new_lease n needed env = Ok lease → needed = true → is_some lease = true.
Proof.
  unfold new_lease. intros H ->. apply result_bind_Ok in H as (l & _ & H). by injection H as <-.
Qed.

Lemma commit_registry_inv last candidate rotate env g :
  trust_inv last g → registry_wf last candidate → trust_inv last (commit_registry candidate rotate env g).1.
Proof.
  intros Hi Hw. unfold commit_registry, method_bind, method_get, method_result, method_modify. cbv zeta.
  destruct (map_err NetIdentity _) as [lease|e] eqn:El; [|done]. apply map_err_Ok in El.
  set (changed := negb _) in *.
  unfold trust_save. destruct (te_save_failure env) as [f|]; cbn [map_err fst]; [by destruct Hi|].
  destruct (changed || rotate) eqn:Ec; split; cbn; try done.
  - unfold trust_load. cbn. by rewrite (snapshot_roundtrip _ _ Hw).
  - apply apply_ownership_owner. intros Ho. apply (new_lease_Ok _ _ _ _ El). by rewrite Ho.
  - unfold trust_load. cbn. by rewrite (snapshot_roundtrip _ _ Hw).
  - apply orb_false_iff in Ec as [Ec _]. subst changed. by apply negb_false_iff, bool_decide_eq_true in Ec.
Qed.

Lemma greeted_wf last hello now r r' id paired :
  registry_wf last r → last ≤ now → 0 < now → RemoteClientHello_validate hello = Ok tt →
  greeted sha256 hello now r = Ok (r', id, paired) → registry_wf now r'.
Proof.
  intros Hw Hle Hnow Hv. destruct hello as [did cred ver|inv secret did name cred ver]; cbn [greeted].
  - destruct (authenticate _ _ _ _ _) as [r1 [u|e]] eqn:E; [|done]. intros [= <- _ _]. apply version_wf; [by eapply authenticate_wf|].
    cbn [RemoteClientHello_validate] in Hv. do 2 (apply result_bind_Ok in Hv as ([] & _ & Hv)).
    destruct ver as [v|]; [|exact I]. by apply auth_identifier_Ok in Hv.
  - destruct (exchange _ _ _ _ _ _ _ _) as [r1 [d|e]] eqn:E; [|done]. intros [= <- _ _]. apply version_wf; [by eapply exchange_wf|].
    cbn [RemoteClientHello_validate] in Hv. do 5 (apply result_bind_Ok in Hv as ([] & _ & Hv)).
    destruct ver as [v|]; [|exact I]. by apply auth_identifier_Ok in Hv.
Qed.

(** A greeting of a phone. *)
Lemma hello_inv last hello env g :
  trust_inv last g → last ≤ te_now env → 0 < te_now env →
  trust_inv (te_now env) (gateway_authenticate sha256 hello env g).1.
Proof.
  intros Hi Hle Hnow. pose proof (trust_inv_mono _ _ _ Hle Hi) as Hi'. unfold gateway_authenticate.
  unfold method_bind at 1, method_result at 1. destruct (map_err NetAuthentication _) as [[]|e] eqn:Ev; [|done].
  apply map_err_Ok in Ev. unfold method_bind at 1, method_get at 1.
  unfold method_bind at 1, method_result at 1. destruct (map_err NetPairing _) as [[[r id] paired]|e] eqn:Eg; [|done].
  apply map_err_Ok in Eg. pose proof (greeted_wf _ _ _ _ _ _ _ (ti_registry _ _ Hi) Hle Hnow Ev Eg) as Hw.
  pose proof (commit_registry_inv _ _ false env _ Hi' Hw) as Hc. unfold method_bind at 1.
  by destruct (commit_registry r false env g) as [g' [u|e]].
Qed.

(** ** The administration *)

Lemma pending_inv last pending g :
  trust_inv last g → trust_inv last (set_sg_registry (set_prg_pending pending (sg_registry g)) g).
Proof. intros [H1 H2 H3]. split; [by apply pending_wf|done|done]. Qed.

Lemma create_invitation_pending request r : ∃ pending, (create_invitation sha256 request r).1 = set_prg_pending pending r.
Proof.
  unfold create_invitation. destruct (result_bind _ _); [by eexists|]. exists (prg_pending r). by destruct r.
Qed.

Lemma approve_pending id code r : ∃ pending, (registry_approve id code r).1 = set_prg_pending pending r.
Proof.
  unfold registry_approve. destruct (prg_pending r !! id); [destruct (negb _)|]; [|by eexists|]; exists (prg_pending r); by destruct r.
Qed.

Lemma admin_commit_inv last candidate rotate env g :
  trust_inv last g → registry_wf last candidate → trust_inv last (admin_commit candidate rotate env g).1.
Proof.
  intros Hi Hw. pose proof (commit_registry_inv _ _ rotate env _ Hi Hw) as Hc. unfold admin_commit.
  destruct (commit_registry candidate rotate env g) as [g' [u|e]]; [|done]. by destruct Hc.
Qed.

Lemma admin_create_inv last env g : trust_inv last g → trust_inv last (admin_create_invitation sha256 env g).1.
Proof.
  intros Hi. unfold admin_create_invitation. do 3 (unfold method_bind at 1, method_result at 1; destruct (admin_random _ _ _); [|done]).
  cbv zeta. unfold method_bind at 1, method_get at 1. unfold method_bind at 1, method_get at 1.
  match goal with |- context [create_invitation sha256 ?q ?r] => destruct (create_invitation_pending q r) as [p Hp] end.
  destruct (create_invitation _ _ _) as [r' [u|e]]; simpl in Hp; subst r'; by apply pending_inv.
Qed.

Lemma optional_controller_identifier last r :
  registry_wf last r → from_option (identifier_ok 128) True (controller_device_id r).
Proof.
  intros Hw. destruct (controller_device_id r) as [id|] eqn:E; [|exact I].
  apply (controller_spec _ _ _ Hw) in E as (d & Hd & _). apply (dk_identifier _ _ _ (rw_devices _ _ Hw id d Hd)).
Qed.

Lemma admin_revoke_inv last id env g : trust_inv last g → trust_inv last (admin_revoke id env g).1.
Proof.
  intros Hi. pose proof (ti_registry _ _ Hi) as Hw. unfold admin_revoke, method_bind, method_get. cbv zeta.
  pose proof (revoke_wf _ id _ Hw) as Hr. destruct (registry_revoke id (sg_registry g)) as [r revoked]. destruct revoked; [|done].
  apply admin_commit_inv; [done|]. case_bool_decide; [|done].
  apply change_wf; [done|by apply identifier_invalid_spec|by eapply optional_controller_identifier].
Qed.

Lemma admin_transfer_inv last id env g : trust_inv last g → trust_inv last (admin_transfer id env g).1.
Proof.
  intros Hi. pose proof (ti_registry _ _ Hi) as Hw. unfold admin_transfer, method_bind, method_get. cbv zeta.
  destruct (set_controller id (sg_registry g)) as [r [u|e]] eqn:E; [|done].
  apply admin_commit_inv; [done|]. pose proof (set_controller_wf _ _ _ _ _ Hw E) as Hr.
  apply change_wf; [done|by apply identifier_invalid_spec|by eapply optional_controller_identifier].
Qed.

Lemma admin_inv last request env g : trust_inv last g → trust_inv last (apply_admin sha256 request env g).1.
Proof.
  intros Hi. destruct request as [| |id code|id|id]; cbn [apply_admin]; [done|..]; unfold method_bind at 1.
  - pose proof (admin_create_inv _ env _ Hi) as H. by destruct (admin_create_invitation sha256 env g) as [g' []].
  - unfold admin_approve. destruct (approve_pending id code (sg_registry g)) as [p Hp].
    destruct (registry_approve id code (sg_registry g)) as [r' [u|e]]; simpl in Hp; subst r'; by apply pending_inv.
  - pose proof (admin_revoke_inv _ id env _ Hi) as H. by destruct (admin_revoke id env g) as [g' []].
  - pose proof (admin_transfer_inv _ id env _ Hi) as H. by destruct (admin_transfer id env g) as [g' []].
Qed.
End Credentials.

(** ** Runs of the gateway *)

Inductive trust_op : Type :=
| OpHello (hello : RemoteClientHello)
| OpAdmin (request : GatewayAdminRequest).

(** What an operation that succeeds leaves in the history. *)
Inductive trust_event : Type :=
| ECreated (invitation : str) (secret : list Z) (code : str) (expires : Z)
| EApproved (invitation code : str)
| EPaired (invitation : str) (secret : list Z) (device : str) (credential : list Z) (now : Z)
| EAuthenticated (device : str) (credential : list Z)
| ERevoked (device : str).

Section Runs.
Variable sha256 : list Z → list Z.

Definition hello_event (hello : RemoteClientHello) (now : Z) : trust_event :=
  match hello with
  | HelloAuthenticate device credential _ => EAuthenticated device (hash_secret sha256 credential)
  | HelloPair invitation secret device _ credential _ =>
      EPaired invitation (hash_secret sha256 secret) device (hash_secret sha256 credential) now
  end.

Definition admin_events (request : GatewayAdminRequest) (created : option GatewayPairingInvitation) : list trust_event :=
  match request, created with
  | AdminCreateInvitation, Some i =>
      [ECreated (gpi_invitation_id i) (hash_secret sha256 (gpi_invitation_secret i)) (gpi_short_code i)
         (gpi_expires_at_unix_millis i)]
  | AdminApproveInvitation invitation code, _ => [EApproved invitation code]
  | AdminRevokeDevice device, _ => [ERevoked device]
  | _, _ => []
  end.

Definition trust_step (op : trust_op * TrustEnv) (g : SharedGatewayState) : SharedGatewayState * list trust_event :=
  match op.1 with
  | OpHello hello =>
      let '(g, r) := gateway_authenticate sha256 hello op.2 g in
      (g, match r with Ok _ => [hello_event hello (te_now op.2)] | Err _ => [] end)
  | OpAdmin request =>
      let '(g, r) := apply_admin sha256 request op.2 g in
      (g, match r with Ok created => admin_events request created | Err _ => [] end)
  end.

Fixpoint trust_run (ops : list (trust_op * TrustEnv)) (g : SharedGatewayState) : SharedGatewayState * list trust_event :=
  match ops with
  | [] => (g, [])
  | op :: ops =>
      let '(g, events) := trust_step op g in
      let '(g, later) := trust_run ops g in (g, events ++ later)
  end.

(** A clock that does not go back. *)
Fixpoint clock_forward (last : Z) (ops : list (trust_op * TrustEnv)) : Prop :=
  match ops with
  | [] => True
  | (_, env) :: ops => last ≤ te_now env ∧ 0 < te_now env ∧ clock_forward (te_now env) ops
  end.

Lemma trust_step_inv last op g :
  trust_inv last g → last ≤ te_now op.2 → 0 < te_now op.2 → trust_inv (te_now op.2) (trust_step op g).1.
Proof.
  intros Hi Hle Hnow. destruct op as [[hello|request] env]; unfold trust_step; cbn [fst snd] in *.
  - pose proof (hello_inv sha256 _ hello _ _ Hi Hle Hnow) as H. by destruct (gateway_authenticate _ _ _ _).
  - pose proof (admin_inv sha256 _ request env _ (trust_inv_mono _ _ _ Hle Hi)) as H. by destruct (apply_admin _ _ _ _).
Qed.

Lemma trust_run_inv ops : ∀ last g, trust_inv last g → clock_forward last ops → ∃ last', trust_inv last' (trust_run ops g).1.
Proof.
  induction ops as [|[op env] ops IH]; intros last g Hi Hc; [by exists last|]. destruct Hc as (H1 & H2 & Hc). cbn [trust_run].
  pose proof (trust_step_inv _ (op, env) _ Hi H1 H2) as H. destruct (trust_step (op, env) g) as [g' es].
  cbn [fst snd] in H. destruct (IH _ _ H Hc) as [last' H']. exists last'. by destruct (trust_run ops g').
Qed.
End Runs.

Lemma loaded_trust_inv last id fingerprint stored env g :
  SharedGatewayState_load id fingerprint stored env = Ok g →
  (∀ d, d ∈ paired_devices (sg_registry g) → pdv_last_seen_unix_millis d ≤ last ∧ 0 ≤ pdv_paired_at_unix_millis d) →
  trust_inv last g.
Proof.
  unfold SharedGatewayState_load. intros H Hd. apply result_bind_Ok in H as (r & Hr & H). apply map_err_Ok in Hr.
  cbn [GatewayCommandGuard_new] in H. apply result_bind_Ok in H as (guard & Hg & H).
  apply result_bind_Ok in H as (guard' & Hg' & H). apply result_bind_Ok in H as (limiter & _ & H). injection H as <-.
  cbn [sg_registry] in Hd.
  assert (Hw : registry_wf last r ∧ prg_pending r = ∅).
  { destruct stored as [| |e|file]; cbn [trust_load] in Hr; try done.
    - injection Hr as <-. split; [|done]. split; [done|vm_compute; lia|done|done|]. split; [vm_compute; lia|constructor].
    - apply result_bind_Ok in Hr as ([] & _ & Hr). apply map_err_Ok in Hr. by eapply restored_wf. }
  destruct Hw as [Hw Hp]. split; cbn [sg_registry sg_stored sg_command_guard]; [done| |].
  - rewrite Hr. f_equal. destruct r. simpl in Hp. by subst.
  - apply map_err_Ok in Hg. unfold GatewayCommandGuard_new in Hg. apply result_bind_Ok in Hg as ([] & _ & Hg). injection Hg as <-.
    destruct (controller_device_id r) as [c|]; [|by injection Hg' as <-].
    apply result_bind_Ok in Hg' as (lease & _ & Hg'). by injection Hg' as <-.
Qed.

(** From a start with a trust store that could be read, whatever phones say and
    whatever the administration asks, in any order and with any failure of the random numbers
    or of the file, as long as the clock does not go back: what the trust store holds is at
    every moment accepted by the next start and restores the devices, the record of the
    changes of control and the selection as they are (an invitation is not kept), the
    registry has at most eight devices of which one at most has the control, and the owner of
    the lease of the commands is that device. *)
Theorem trust_restored sha256 id fingerprint stored env g0 ops :
  SharedGatewayState_load id fingerprint stored env = Ok g0 →
  (∀ d, d ∈ paired_devices (sg_registry g0) →
    pdv_last_seen_unix_millis d ≤ te_now env ∧ 0 ≤ pdv_paired_at_unix_millis d) →
  clock_forward (te_now env) ops →
  let g := (trust_run sha256 ops g0).1 in
  trust_load (sg_stored g) = Ok (set_prg_pending ∅ (sg_registry g)) ∧
  (length (paired_devices (sg_registry g)) ≤ 8)%nat ∧
  (controllers (paired_devices (sg_registry g)) ≤ 1)%nat ∧
  cl_device_id <$> guard_controller (sg_command_guard g) = controller_device_id (sg_registry g).
Proof.
  intros Hl Hd Hc g. destruct (trust_run_inv sha256 ops _ _ (loaded_trust_inv _ _ _ _ _ _ Hl Hd) Hc) as [last [H1 H2 H3]].
  split_and!; [done| |by eapply paired_devices_controllers|done]. rewrite paired_devices_length. apply (rw_size _ _ H1).
Qed.

(** A phone that pairs and comes back. *)
Definition demo_env (now : Z) : TrustEnv :=
  mkTrustEnv now (λ n, Ok (replicate (match n with O => 16 | S O => 32 | _ => 8 end)%nat 0)) None.

Definition demo_invitation : str := replicate 32 48.

Definition demo_pair : RemoteClientHello :=
  HelloPair demo_invitation (replicate 64 48) (lit "phone") (lit "Phone") (replicate 32 49) None.

Definition demo_back : RemoteClientHello := HelloAuthenticate (lit "phone") (replicate 32 49) (Some (lit "1.0")).

Definition demo_state : SharedGatewayState :=
  mkSharedGatewayState PairingRegistry_default
    (mkGatewayCommandGuard (mkGatewayCommandPolicy None) ∅ ∅ [] DEFAULT_COMMAND_LEDGER_CAPACITY) TrustAbsent
    (lit "mac") (replicate 64 48) 0 (mkAttemptRateLimiter 32 1000 ∅).

(** The pairing of the demonstration, and a return at [back]. *)
Definition demo_trust_ops (back : Z) : list (trust_op * TrustEnv) :=
  [(OpAdmin AdminCreateInvitation, demo_env 1000);
   (OpAdmin (AdminApproveInvitation demo_invitation (lit "000000")), demo_env 1000);
   (OpHello demo_pair, demo_env 2000); (OpHello demo_back, demo_env back)].

Lemma trust_restored_witness :
  let g := (trust_run id (demo_trust_ops 3000) demo_state).1 in
  trust_load (sg_stored g) = Ok (set_prg_pending ∅ (sg_registry g)) ∧ controller_device_id (sg_registry g) = Some (lit "phone").
Proof.
  split; [|vm_compute; reflexivity].
  apply (trust_restored id (lit "mac") (replicate 64 48) TrustAbsent (demo_env 500) demo_state (demo_trust_ops 3000)).
  - vm_compute. reflexivity.
  - intros d Hd. vm_compute in Hd. inversion Hd.
  - vm_compute. split_and!; done.
Defined.

(** A phone that comes back while the clock shows an earlier time than that of its pairing
    leaves a trust store that the next start refuses. *)
Example clock_back_unloadable :
  trust_load (sg_stored (trust_run id (demo_trust_ops 1999) demo_state).1) = Err (InvalidRegistry InvalidPersistedDevice).
Proof. vm_compute. reflexivity. Qed.
