(* ===== verification/RemoteTrustHistory.v ===== *)
(** * The gateway for phones: the history of trust

    Relates the invitations and the credentials a registry holds to the history of what the
    administration and the phones did, and shows that every pairing used up an invitation of
    its own, and that who is let in was paired and not revoked since. *)

From stdpp Require Import prelude list gmap sets sorting strings.
From Stdlib Require Import ZArith Lia.
From S2P Require Import Prelude.
From S2P Require Import RemoteCommands.
From S2P Require Import RemoteProjection.
From S2P Require Import RemoteGateway.
From S2P Require Import RemoteTrust.
From S2P Require Import RemoteTrustProps.
Open Scope Z_scope.

(** ** The history of a registry *)

Definition spends (invitation : str) (e : trust_event) : Prop :=
  match e with ECreated _ _ _ _ => True | EPaired i _ _ _ _ => i = invitation | _ => False end.

Definition concerns (device : str) (e : trust_event) : Prop :=
  match e with EPaired _ _ d _ _ => d = device | ERevoked d => d = device | _ => False end.

(** The invitation, created and since then not replaced nor used. *)
Definition open_since (log : list trust_event) (invitation : str) (secret : list Z) (code : str) (expires : Z)
    (approved : bool) : Prop :=
  ∃ before after, log = before ++ ECreated invitation secret code expires :: after ∧
    Forall (λ e, ¬ spends invitation e) after ∧ (approved = true → EApproved invitation code ∈ after).

(** The device has the credential, from its last pairing or from the start. *)
Definition trusted_since (start : gmap str PairedDevice) (log : list trust_event) (device : str) (credential : list Z) : Prop :=
  (∃ before after invitation secret now, log = before ++ EPaired invitation secret device credential now :: after ∧
    Forall (λ e, ¬ concerns device e) after) ∨
  (∃ d, start !! device = Some d ∧ pdv_credential_sha256 d = credential ∧ Forall (λ e, ¬ concerns device e) log).

Definition justified (start : gmap str PairedDevice) (log : list trust_event) (e : trust_event) : Prop :=
  match e with
  | EPaired invitation secret _ _ now =>
      ∃ code expires, now ≤ expires ∧ open_since log invitation secret code expires true
  | EAuthenticated device credential => trusted_since start log device credential
  | _ => True
  end.

Record history (start : gmap str PairedDevice) (log : list trust_event) (r : PairingRegistry) : Prop := {
  hi_pending : ∀ id i, prg_pending r !! id = Some i →
    open_since log id (pi_secret_sha256 i) (pi_short_code i) (pi_expires_at_unix_millis i) (pi_approved i);
  hi_devices : ∀ id d, prg_devices r !! id = Some d → trusted_since start log id (pdv_credential_sha256 d);
}.

Lemma open_since_app log i secret code expires approved es :
  Forall (λ e, ¬ spends i e) es → open_since log i secret code expires approved →
  open_since (log ++ es) i secret code expires approved.
Proof.
  intros He (b & a & -> & Ha & Hp). exists b, (a ++ es). split; [by rewrite <- app_assoc|]. split.
  - by apply Forall_app.
  - intros H. apply elem_of_app. left. auto.
Qed.

Lemma trusted_since_app start log d c es :
  Forall (λ e, ¬ concerns d e) es → trusted_since start log d c → trusted_since start (log ++ es) d c.
Proof.
  intros He [(b & a & i & s & n & -> & Ha)|(x & Hx & Hc & Hl)]; [left|right].
  - exists b, (a ++ es), i, s, n. split; [by rewrite <- app_assoc|]. by apply Forall_app.
  - exists x. split_and!; try done. by apply Forall_app.
Qed.

(** Every event so far was allowed by those before it. *)
Definition log_ok (start : gmap str PairedDevice) (log : list trust_event) : Prop :=
  ∀ before e after, log = before ++ e :: after → justified start before e.

Lemma log_ok_snoc start log e : log_ok start log → justified start log e → log_ok start (log ++ [e]).
Proof. exact (history_snoc (justified start) log e). Qed.

(** Credentials that were there. *)
Definition credentials_kept (r r' : PairingRegistry) : Prop :=
  ∀ id d', prg_devices r' !! id = Some d' →
    ∃ d, prg_devices r !! id = Some d ∧ pdv_credential_sha256 d' = pdv_credential_sha256 d.

Lemma history_keep start log es r r' :
  history start log r → Forall (λ e, ∀ i, ¬ spends i e) es → Forall (λ e, ∀ d, ¬ concerns d e) es →
  prg_pending r' = prg_pending r → credentials_kept r r' → history start (log ++ es) r'.
Proof.
  intros [H1 H2] Hs Hc Hp Hk. split.
  - intros id i Hi. rewrite Hp in Hi. apply open_since_app; [|by apply H1]. eapply Forall_impl; [exact Hs|]. simpl. auto.
  - intros id d' (d & Hd & ->)%Hk. apply trusted_since_app; [|by apply H2]. eapply Forall_impl; [exact Hc|]. simpl. auto.
Qed.

Lemma credentials_kept_refl r : credentials_kept r r.
Proof. intros id d H. by exists d. Qed.

Lemma credentials_kept_trans r1 r2 r3 : credentials_kept r1 r2 → credentials_kept r2 r3 → credentials_kept r1 r3.
Proof. intros H1 H2 id d (d2 & Hd2 & ->)%H2. by apply H1. Qed.

Lemma credentials_kept_insert r id d0 d :
  prg_devices r !! id = Some d0 → pdv_credential_sha256 d = pdv_credential_sha256 d0 →
  credentials_kept r (set_prg_devices (<[id := d]> (prg_devices r)) r).
Proof.
  intros H0 Hc id' d' H. cbn in H. apply lookup_insert_Some in H as [[<- <-]|[_ H]]; [by exists d0|by exists d'].
Qed.

Lemma version_kept id version r :
  credentials_kept r (set_client_version id version r) ∧ prg_pending (set_client_version id version r) = prg_pending r.
Proof.
  unfold set_client_version. destruct (prg_devices r !! id) eqn:E; [destruct version|]; (split; [|done]).
  2,3: apply credentials_kept_refl. by eapply credentials_kept_insert.
Qed.

Section History.
Variable sha256 : list Z → list Z.
Variable start : gmap str PairedDevice.

Lemma commit_registry_outcome candidate rotate env g :
  sg_registry (commit_registry candidate rotate env g).1 =
  match (commit_registry candidate rotate env g).2 with Ok _ => candidate | Err _ => sg_registry g end.
Proof.
  unfold commit_registry, method_bind, method_get, method_result, method_modify. cbv zeta.
  destruct (map_err NetIdentity _) as [lease|e]; [|done]. unfold trust_save.
  destruct (te_save_failure env); [done|]. cbn [map_err]. by destruct (_ || _).
Qed.

Lemma admin_commit_outcome candidate rotate env g :
  sg_registry (admin_commit candidate rotate env g).1 =
  match (admin_commit candidate rotate env g).2 with Ok _ => candidate | Err _ => sg_registry g end.
Proof.
  pose proof (commit_registry_outcome candidate rotate env g) as H. unfold admin_commit.
  by destruct (commit_registry candidate rotate env g) as [g' [u|e]].
Qed.

(** What the history gains and the registry becomes, by the outcome. *)
Lemma hello_outcome hello env g g' r :
  gateway_authenticate sha256 hello env g = (g', r) →
  match r with
  | Ok _ => ∃ r' id paired, greeted sha256 hello (te_now env) (sg_registry g) = Ok (r', id, paired) ∧ sg_registry g' = r'
  | Err _ => sg_registry g' = sg_registry g
  end.
Proof.
  unfold gateway_authenticate. unfold method_bind at 1, method_result at 1.
  destruct (map_err NetAuthentication _) as [[]|e]; [|by intros [= <- <-]].
  unfold method_bind at 1, method_get at 1. unfold method_bind at 1, method_result at 1.
  destruct (map_err NetPairing _) as [[[c id] paired]|e] eqn:Eg; [|by intros [= <- <-]]. apply map_err_Ok in Eg.
  pose proof (commit_registry_outcome c false env g) as Hc. unfold method_bind at 1.
  destruct (commit_registry c false env g) as [g1 [u|e]]; cbn [fst snd] in Hc; [|by intros [= <- <-]].
  intros [= <- <-]. by exists c, id, paired.
Qed.

Lemma authenticated_history log id credential version now r r' id' paired :
  history start log r → greeted sha256 (HelloAuthenticate id credential version) now r = Ok (r', id', paired) →
  justified start log (EAuthenticated id (hash_secret sha256 credential)) ∧
  history start (log ++ [EAuthenticated id (hash_secret sha256 credential)]) r'.
Proof.
  intros Hh. cbn [greeted]. unfold authenticate. destruct (prg_devices r !! id) as [d|] eqn:E; [|done].
  destruct (negb _) eqn:Ec; [done|]. apply negb_false_iff, bool_decide_eq_true in Ec. intros [= <- _ _]. split.
  - cbn [justified]. rewrite <- Ec. by apply (hi_devices _ _ _ Hh).
  - destruct (version_kept id version (set_prg_devices (<[id:=set_pdv_last_seen now d]> (prg_devices r)) r)) as [Hk Hp].
    eapply history_keep; [exact Hh|by repeat constructor; intros ? []..|by rewrite Hp|].
    eapply credentials_kept_trans; [|exact Hk]. by eapply credentials_kept_insert.
Qed.

Lemma paired_history log i secret id name credential version now r r' id' paired :
  history start log r → greeted sha256 (HelloPair i secret id name credential version) now r = Ok (r', id', paired) →
  let e := EPaired i (hash_secret sha256 secret) id (hash_secret sha256 credential) now in
  justified start log e ∧ history start (log ++ [e]) r'.
Proof.
  intros Hh. cbn [greeted]. unfold exchange. destruct (exchange_allowed _ _ _ _ _ _ _ _) as [[]|e] eqn:Ha; [|done].
  unfold exchange_allowed in Ha. apply result_bind_Ok in Ha as (inv & Hi & Ha). apply ok_or_Ok in Hi.
  apply result_bind_Ok in Ha as ([] & Hx & Ha). apply refuse_Ok, Z.ltb_ge in Hx.
  apply result_bind_Ok in Ha as ([] & Hp & Ha). apply refuse_Ok, negb_false_iff in Hp.
  apply result_bind_Ok in Ha as ([] & Hs & _). apply refuse_Ok, negb_false_iff, bool_decide_eq_true in Hs.
  intros H. injection H as <- _ _. cbv zeta. pose proof (hi_pending _ _ _ Hh _ _ Hi) as Ho. rewrite Hp, Hs in Ho. split; [by eexists _, _|].
  match goal with |- history _ _ (set_client_version id version ?r1) => destruct (version_kept id version r1) as [Hk Hpend]; set (r2 := r1) in * end.
  assert (Er : prg_pending r2 = delete i (prg_pending r) ∧
    prg_devices r2 = <[id := mkPairedDevice id name (hash_secret sha256 credential) now now
      (negb (prg_controller_selection_initialized r) || option_is_some_and pdv_controller (prg_devices r !! id))
      (prg_devices r !! id ≫= pdv_client_version)]> (prg_devices r)).
  { subst r2. by destruct (negb (prg_controller_selection_initialized r)). }
  destruct Er as [Ep Ed]. split.
  - intros j inv' Hj. rewrite Hpend, Ep in Hj. apply lookup_delete_Some in Hj as [Hne Hj].
    apply open_since_app; [by repeat constructor|]. by apply (hi_pending _ _ _ Hh).
  - intros j d (d1 & Hd1 & ->)%Hk. rewrite Ed in Hd1. apply lookup_insert_Some in Hd1 as [[<- <-]|[Hne Hd1]].
    + left. by exists log, [], i, (hash_secret sha256 secret), now.
    + apply trusted_since_app; [by repeat constructor|]. by apply (hi_devices _ _ _ Hh).
Qed.

Lemma created_history log env g g' i :
  history start log (sg_registry g) → admin_create_invitation sha256 env g = (g', Ok i) →
  history start (log ++ [ECreated (gpi_invitation_id i) (hash_secret sha256 (gpi_invitation_secret i))
    (gpi_short_code i) (gpi_expires_at_unix_millis i)]) (sg_registry g').
Proof.
  intros Hh. unfold admin_create_invitation. do 3 (unfold method_bind at 1, method_result at 1; destruct (admin_random _ _ _); [|done]).
  cbv zeta. unfold method_bind at 1, method_get at 1. unfold method_bind at 1, method_get at 1.
  unfold create_invitation. destruct (result_bind _ _) as [u|e]; [|done]. intros [= <- <-].
  split; cbn [gpi_invitation_id gpi_invitation_secret gpi_short_code gpi_expires_at_unix_millis sg_registry set_sg_registry
    prg_pending set_prg_pending prg_devices].
  - intros j inv Hj. apply lookup_singleton_Some in Hj as [<- <-]. by exists log, [].
  - intros j d Hj. apply trusted_since_app; [by repeat constructor; intros []|]. by apply (hi_devices _ _ _ Hh).
Qed.

Lemma admin_create_failed env g g' e : admin_create_invitation sha256 env g = (g', Err e) → sg_registry g' = sg_registry g.
Proof.
  unfold admin_create_invitation.
  do 3 (unfold method_bind at 1, method_result at 1; destruct (admin_random _ _ _); [|by intros [= <- _]]).
  cbv zeta. unfold method_bind at 1, method_get at 1. unfold method_bind at 1, method_get at 1.
  unfold create_invitation. destruct (result_bind _ _) as [u|e']; [done|]. by intros [= <- _].
Qed.

Lemma approved_history log i code r r' u :
  history start log r → registry_approve i code r = (r', Ok u) → history start (log ++ [EApproved i code]) r'.
Proof.
  intros Hh. unfold registry_approve. destruct (prg_pending r !! i) as [inv|] eqn:E; [|done].
  destruct (negb _) eqn:Ec; [done|]. apply negb_false_iff, bool_decide_eq_true in Ec. intros [= <- _]. split; cbn.
  - intros j inv' Hj. apply lookup_insert_Some in Hj as [[<- <-]|[Hne Hj]].
    + destruct (hi_pending _ _ _ Hh _ _ E) as (b & a & -> & Ha & _). exists b, (a ++ [EApproved i code]).
      split; [by rewrite <- app_assoc|]. split; [apply Forall_app; split; [done|by repeat constructor; intros []]|].
      intros _. apply elem_of_app. right. rewrite <- Ec. by left.
    + apply open_since_app; [by repeat constructor; intros []|]. by apply (hi_pending _ _ _ Hh).
  - intros j d Hj. apply trusted_since_app; [by repeat constructor; intros []|]. by apply (hi_devices _ _ _ Hh).
Qed.

Lemma approve_failed i code r r' e : registry_approve i code r = (r', Err e) → r' = r.
Proof. unfold registry_approve. destruct (prg_pending r !! i); [destruct (negb _)|]; by intros [= <-]. Qed.

Lemma revoked_history log id r r' :
  history start log r → prg_pending r' = prg_pending r → prg_devices r' = delete id (prg_devices r) →
  history start (log ++ [ERevoked id]) r'.
Proof.
  intros Hh Hp Hd. split.
  - intros j inv Hj. rewrite Hp in Hj. apply open_since_app; [by repeat constructor; intros []|]. by apply (hi_pending _ _ _ Hh).
  - intros j d Hj. rewrite Hd in Hj. apply lookup_delete_Some in Hj as [Hne Hj].
    apply trusted_since_app; [by repeat constructor|]. by apply (hi_devices _ _ _ Hh).
Qed.

Lemma admin_revoke_outcome id env g :
  match (admin_revoke id env g).2 with
  | Ok _ => prg_pending (sg_registry (admin_revoke id env g).1) = prg_pending (sg_registry g) ∧
      prg_devices (sg_registry (admin_revoke id env g).1) = delete id (prg_devices (sg_registry g))
  | Err _ => sg_registry (admin_revoke id env g).1 = sg_registry g
  end.
Proof.
  unfold admin_revoke, method_bind, method_get, registry_revoke. cbv zeta. destruct (is_some _); [|done].
  match goal with |- context [admin_commit ?c false env g] => pose proof (admin_commit_outcome c false env g) as H end.
  destruct (admin_commit _ false env g) as [g' [u|e]]; cbn [fst snd] in *; [|done]. rewrite H. by case_bool_decide.
Qed.

Lemma admin_transfer_outcome id env g :
  prg_pending (sg_registry (admin_transfer id env g).1) = prg_pending (sg_registry g) ∧
  credentials_kept (sg_registry g) (sg_registry (admin_transfer id env g).1).
Proof.
  unfold admin_transfer, method_bind, method_get. cbv zeta. unfold set_controller.
  destruct (negb _); [by split; [|apply credentials_kept_refl]|].
  match goal with |- context [admin_commit ?c true env g] => pose proof (admin_commit_outcome c true env g) as H end.
  destruct (admin_commit _ true env g) as [g' [u|e]]; cbn [fst snd] in *; rewrite H; [|by split; [|apply credentials_kept_refl]].
  split; [done|]. intros j d Hj. cbn in Hj. rewrite lookup_fmap in Hj.
  destruct (prg_devices (sg_registry g) !! j) as [d0|] eqn:E; [|done]. injection Hj as <-. by exists d0.
Qed.

Lemma step_history log op g g' es :
  history start log (sg_registry g) → log_ok start log → trust_step sha256 op g = (g', es) →
  history start (log ++ es) (sg_registry g') ∧ log_ok start (log ++ es).
Proof.
  intros Hh Hl. destruct op as [[hello|request] env]; unfold trust_step; cbn [fst snd].
  - destruct (gateway_authenticate sha256 hello env g) as [g1 [a|e]] eqn:E; intros [= <- <-]; apply hello_outcome in E; cbv beta iota in E.
    + destruct E as (r & id & p & E & ->). destruct hello as [? ? ?|? ? ? ? ? ?]; [apply (authenticated_history log) in E|apply (paired_history log) in E]; try done.
      all: destruct E as [E1 E2]; split; [done|]; by apply log_ok_snoc.
    + rewrite app_nil_r, E. done.
  - destruct (apply_admin sha256 request env g) as [g1 r] eqn:E. intros [= <- <-].
    destruct request as [| |i code|id|id]; cbn [apply_admin] in E.
    + injection E as <- <-. by rewrite app_nil_r.
    + unfold method_bind in E. destruct (admin_create_invitation sha256 env g) as [g2 [i|e]] eqn:Ec; injection E as <- <-; cbn [admin_events].
      * split; [by eapply created_history|]. by apply log_ok_snoc.
      * apply admin_create_failed in Ec. by rewrite app_nil_r, Ec.
    + unfold method_bind, admin_approve in E. destruct (registry_approve i code (sg_registry g)) as [r' [u|e]] eqn:Ea; injection E as <- <-; cbn [admin_events].
      * split; [by eapply approved_history|]. by apply log_ok_snoc.
      * apply approve_failed in Ea. subst. by rewrite app_nil_r.
    + pose proof (admin_revoke_outcome id env g) as H. unfold method_bind in E.
      destruct (admin_revoke id env g) as [g2 [u|e]]; injection E as <- <-; cbn [fst snd admin_events] in *.
      * destruct H. split; [by eapply revoked_history|]. by apply log_ok_snoc.
      * by rewrite app_nil_r, H.
    + pose proof (admin_transfer_outcome id env g) as [Hp Hk]. unfold method_bind in E.
      destruct (admin_transfer id env g) as [g2 [u|e]]; injection E as <- <-; cbn [fst snd admin_events] in *;
        (split; [by eapply history_keep|by rewrite app_nil_r]).
Qed.

Lemma run_history ops : ∀ log g,
  history start log (sg_registry g) → log_ok start log → log_ok start (log ++ (trust_run sha256 ops g).2).
Proof.
  induction ops as [|op ops IH]; intros log g Hh Hl; [by rewrite app_nil_r|]. cbn [trust_run].
  destruct (trust_step sha256 op g) as [g' es] eqn:E. destruct (step_history _ _ _ _ _ Hh Hl E) as [Hh' Hl'].
  specialize (IH _ _ Hh' Hl'). destruct (trust_run sha256 ops g'). cbn [snd] in *. by rewrite app_assoc.
Qed.
End History.

(** C27: in the history of a gateway, from a state without invitations: a phone is paired
    only with an invitation that the administration created with that very secret, that it
    approved after that with the short code of the invitation, that has not expired, and
    that neither was replaced by a newer one nor paired a phone before, so that every
    invitation pairs at most one; and a phone is let in without pairing only with the
    credential of its last pairing (or the one it had at the start), when it was not revoked
    since. *)
Theorem pairing_single_use sha256 g0 ops before e after :
  prg_pending (sg_registry g0) = ∅ →
  (trust_run sha256 ops g0).2 = before ++ e :: after →
  justified (prg_devices (sg_registry g0)) before e.
Proof.
  intros Hp E. refine (run_history sha256 (prg_devices (sg_registry g0)) ops [] g0 _ _ before e after E).
  - split; [intros i inv Hi; by rewrite Hp in Hi|]. intros id d Hd. right. by exists d.
  - intros [|] ? ? ?; done.
Qed.

Lemma pairing_single_use_witness :
  trusted_since ∅ (take 3 (trust_run id (demo_trust_ops 3000) demo_state).2) (lit "phone") (replicate 32 49).
Proof.
  apply (pairing_single_use id demo_state (demo_trust_ops 3000) _
    (EAuthenticated (lit "phone") (replicate 32 49)) []); vm_compute; reflexivity.
Defined.
