(* ===== verification/CommandGuardProps.v ===== *)
(** * The gateway for phones: at most one execution

    Relates the bounded ledger of commands to the history of what was admitted and answered:
    a command is handed to the engine again only after its outcome is known, and only for
    the phone that has the control. *)

From stdpp Require Import prelude list gmap sets strings.
From Stdlib Require Import ZArith Lia.
From S2P Require Import Prelude.
From S2P Require Import RemoteCommands.
From S2P Require Import RemoteGateway.
Open Scope Z_scope.

(** ** Histories *)

Inductive guard_op : Type :=
| GAdmit (device_id : str) (command : RemoteCommand)
| GResult (r : RemoteCommandResult)
| GTransfer (device_id lease_id : str)
| GRevoke.

(** What happens to the commands that change something. *)
Inductive guard_event : Type :=
| CAccepted (key : CommandKey)
| CReplayed (key : CommandKey) (r : RemoteCommandResult)
| CSettled (key : CommandKey) (r : RemoteCommandResult)
| CTransferred (device_id lease_id : str)
| CRevoked.

(** Who has the control, and by which lease. *)
Definition holder_after (holder : option ControllerLease) (e : guard_event) : option ControllerLease :=
  match e with
  | CTransferred device lease => Some (mkControllerLease device lease)
  | CRevoked => None
  | _ => holder
  end.

Definition holder (log : list guard_event) : option ControllerLease := foldl holder_after None log.

Definition key_owner (key : CommandKey) : ControllerLease := mkControllerLease key.1.1 key.1.2.

(** The last acceptance of the key is followed by [after]. *)
Definition accepted_since (log : list guard_event) (key : CommandKey) (after : list guard_event) : Prop :=
  ∃ before, log = before ++ CAccepted key :: after ∧ CAccepted key ∉ after.

Definition outcome_known (log : list guard_event) (key : CommandKey) : Prop :=
  ∀ before after, log = before ++ CAccepted key :: after → ∃ r, CSettled key r ∈ after.

Definition allowed_event (log : list guard_event) (e : guard_event) : Prop :=
  match e with
  | CAccepted key => holder log = Some (key_owner key) ∧ outcome_known log key
  | CReplayed key r =>
      holder log = Some (key_owner key) ∧ ∃ after, accepted_since log key after ∧ CSettled key r ∈ after
  | CSettled key _ => ∃ after, accepted_since log key after ∧ ∀ r, CSettled key r ∉ after
  | _ => True
  end.

Lemma last_acceptance log key after before' after' :
  accepted_since log key after → log = before' ++ CAccepted key :: after' → after `suffix_of` after'.
Proof.
  intros (before & -> & Hn) E. destruct (app_eq_inv _ _ _ _ E) as [(k & -> & E2)|(k & -> & E2)].
  - destruct k as [|x k]; injection E2; intros; subst; [done|]. exists (k ++ [CAccepted key]). by rewrite <- app_assoc.
  - destruct k as [|x k]; injection E2; intros; subst; [done|]. exfalso. apply Hn, elem_of_app. right. by left.
Qed.

Lemma accepted_since_app log key after es :
  accepted_since log key after → CAccepted key ∉ es → accepted_since (log ++ es) key (after ++ es).
Proof.
  intros (before & -> & Hn) He. exists before. split; [by rewrite <- app_assoc|]. rewrite elem_of_app. naive_solver.
Qed.

Lemma outcome_known_app log key es : outcome_known log key → CAccepted key ∉ es → outcome_known (log ++ es) key.
Proof.
  intros Ho He before after E. destruct (decide (length log ≤ length before)%nat) as [Hle|Hlt].
  - exfalso. apply He. apply (f_equal (λ l, l !! length before)) in E.
    rewrite list_lookup_middle, lookup_app_r in E by done. by apply list_elem_of_lookup_2 in E.
  - destruct (app_eq_inv _ _ _ _ E) as [(k & -> & E2)|(k & -> & ->)].
    + destruct k as [|x k]; [rewrite app_nil_r in Hlt; lia|]. injection E2 as <- ->.
      destruct (Ho before k eq_refl) as [r Hr]. exists r. apply elem_of_app. by left.
    + rewrite length_app in Hlt. lia.
Qed.

(** ** Runs *)

Section Runs.
Variable sha256 : list Z → list Z.

Definition admission_events (key : CommandKey) (command : RemoteCommand)
    (outcome : result CommandAdmission CommandGuardError) : list guard_event :=
  if RemoteCommand_is_mutating command then
    match outcome with
    | Ok AdmissionAccepted => [CAccepted key]
    | Ok (AdmissionCompleted r) => [CReplayed key r]
    | _ => []
    end
  else [].

(** The command that a result settles. *)
Definition settled_by (r : RemoteCommandResult) (g : GatewayCommandGuard) : list guard_event :=
  match cg_forwarded g !! rr_command_id r with
  | Some key =>
      match cg_accepted g !! (key : str * str * str) with
      | Some (mkCommandOutcome _ None) => [CSettled key (set_result_id key.2 r)]
      | _ => []
      end
  | None => []
  end.

Definition guard_step (op : guard_op) (g : GatewayCommandGuard) : GatewayCommandGuard * list guard_event :=
  match op with
  | GAdmit device_id command =>
      let '(g, outcome) := admit_command sha256 device_id command g in
      (g, admission_events (command_key device_id command) command outcome)
  | GResult r => (record_result r g, settled_by r g)
  | GTransfer device_id lease_id => (guard_transfer_control device_id lease_id g, [CTransferred device_id lease_id])
  | GRevoke => (guard_revoke_control g, [CRevoked])
  end.

Fixpoint guard_run (ops : list guard_op) (g : GatewayCommandGuard) : GatewayCommandGuard * list guard_event :=
  match ops with
  | [] => (g, [])
  | op :: ops =>
      let '(g, es) := guard_step op g in
      let '(g, later) := guard_run ops g in (g, es ++ later)
  end.

Definition entry_ok (log : list guard_event) (key : CommandKey) (o : CommandOutcome) : Prop :=
  ∃ after, accepted_since log key after ∧
    match cmo_result o with Some r => CSettled key r ∈ after | None => ∀ r, CSettled key r ∉ after end.

Record guard_inv (log : list guard_event) (g : GatewayCommandGuard) : Prop := {
  gi_holder : guard_controller g = holder log;
  gi_entries : map_Forall (entry_ok log) (cg_accepted g);
  gi_others : ∀ key, cg_accepted g !! key = None → outcome_known log key;
  gi_order : ∀ key, is_Some (cg_accepted g !! key) → key ∈ cg_insertion_order g;
  gi_room : (length (cg_insertion_order g) ≤ cg_capacity g)%nat;
}.

Lemma holder_app log es : holder (log ++ es) = foldl holder_after (holder log) es.
Proof. apply foldl_app. Qed.

Lemma position_where_Some {A} p (l : list A) i : position_where p l = Some i → ∃ x, l !! i = Some x ∧ p x = true.
Proof.
  revert i. induction l as [|x l IH]; intros i; [done|]. cbn [position_where]. destruct (p x) eqn:Ep.
  - intros [= <-]. by exists x.
  - destruct (position_where p l) as [j|]; [|done]. intros [= <-]. by apply IH.
Qed.

Lemma entry_settled log key o r : entry_ok log key o → cmo_result o = Some r → outcome_known log key.
Proof.
  intros (after & Ha & Hr) E before after' Eb. rewrite E in Hr. exists r. pose proof (last_acceptance _ _ _ _ _ Ha Eb) as [k ->].
  apply elem_of_app. by right.
Qed.

(** Making room forgets a command whose outcome is known. *)
Lemma make_room_inv log g g' :
  guard_inv log g → make_room sha256 g = Ok g' →
  guard_inv log g' ∧ (length (cg_insertion_order g') < cg_capacity g')%nat ∧
  (∀ key, cg_accepted g !! key = None → cg_accepted g' !! key = None).
Proof.
  intros [H1 H2 H3 H4 H5]. unfold make_room. case_bool_decide as Hfull; [|intros [= <-]; split_and!; [done|lia|done]].
  intros H. apply result_bind_Ok in H as (i & Hi & H). apply ok_or_Ok in Hi. apply position_where_Some in Hi as (key & Hk & Hs).
  rewrite Hk in H. injection H as <-. unfold command_settled in Hs.
  destruct (cg_accepted g !! key) as [o|] eqn:Eo; [|done]. simpl in Hs. destruct (cmo_result o) as [r|] eqn:Er; [|done].
  pose proof (lookup_lt_Some _ _ _ Hk) as Hlt. split_and!.
  - split; cbn [guard_controller cg_policy cg_accepted cg_insertion_order cg_capacity]; try done.
    + by apply map_Forall_delete.
    + intros k Hn. apply lookup_delete_None in Hn as [<-|Hn]; [|by apply H3]. eapply entry_settled; [|exact Er]. by apply H2.
    + intros k [o' Ho]. apply lookup_delete_Some in Ho as [Hne Ho].
      destruct (proj1 (list_elem_of_lookup _ _) (H4 k (ex_intro _ o' Ho))) as [j Hj].
      rewrite delete_take_drop. apply elem_of_app. destruct (decide (j < i)%nat) as [Hji|Hji].
      * left. apply list_elem_of_lookup. exists j. by rewrite lookup_take_lt.
      * right. apply list_elem_of_lookup. exists (j - S i)%nat. rewrite lookup_drop.
        destruct (decide (j = i)) as [->|]; [congruence|]. by replace (S i + (j - S i))%nat with j by lia.
    + rewrite length_delete by (by rewrite Hk). lia.
  - cbn. rewrite length_delete by (by rewrite Hk). lia.
  - intros k Hn. cbn. apply lookup_delete_None. by right.
Qed.

Lemma enter_inv log key command g :
  guard_inv log g → (length (cg_insertion_order g) < cg_capacity g)%nat →
  guard_inv (log ++ [CAccepted key]) (enter sha256 key command g).
Proof.
  intros [H1 H2 H3 H4 H5] Hroom. split; cbn [enter guard_controller cg_policy cg_accepted cg_insertion_order cg_capacity].
  - rewrite holder_app. exact H1.
  - apply map_Forall_lookup. intros k o Ho. apply lookup_insert_Some in Ho as [[<- <-]|[Hne Ho]].
    + exists []. split; [exists log; split; [done|by apply not_elem_of_nil]|]. intros r. apply not_elem_of_nil.
    + destruct (H2 k o Ho) as (after & Ha & Hr). exists (after ++ [CAccepted key]). split.
      * apply accepted_since_app; [done|]. rewrite list_elem_of_singleton. congruence.
      * destruct (cmo_result o); [apply elem_of_app; by left|]. intros r. rewrite elem_of_app, list_elem_of_singleton. naive_solver.
  - intros k Hn. apply lookup_insert_None in Hn as [Hn Hne]. apply outcome_known_app; [by apply H3|].
    rewrite list_elem_of_singleton. congruence.
  - intros k [o Ho]. apply elem_of_app. apply lookup_insert_Some in Ho as [[<- _]|[_ Ho]]; [right; by left|left; eauto].
  - rewrite length_app. simpl. lia.
Qed.

(** Events that neither accept nor settle. *)
Definition neutral_event (e : guard_event) : Prop :=
  match e with CAccepted _ | CSettled _ _ => False | _ => True end.

Lemma neutral_inv log g g' es :
  guard_inv log g → Forall neutral_event es →
  guard_controller g' = foldl holder_after (guard_controller g) es →
  cg_accepted g' = cg_accepted g → cg_insertion_order g' = cg_insertion_order g → cg_capacity g' = cg_capacity g →
  guard_inv (log ++ es) g'.
Proof.
  intros [H1 H2 H3 H4 H5] Hn Hc Ea Eo Ec.
  assert (Hacc : ∀ key, CAccepted key ∉ es) by (intros key Hin; by apply (proj1 (Forall_forall _ _) Hn) in Hin).
  assert (Hset : ∀ key r, CSettled key r ∉ es) by (intros key r Hin; by apply (proj1 (Forall_forall _ _) Hn) in Hin).
  split.
  - by rewrite Hc, H1, holder_app.
  - rewrite Ea. intros k o Ho. destruct (H2 k o Ho) as (after & Ha & Hr). exists (after ++ es). split; [by apply accepted_since_app|].
    destruct (cmo_result o); [apply elem_of_app; by left|]. intros r. rewrite elem_of_app. intros [?|?]; [by eapply Hr|by eapply Hset].
  - rewrite Ea. intros k Hk. apply outcome_known_app; [by apply H3|done].
  - by rewrite Ea, Eo.
  - by rewrite Eo, Ec.
Qed.

Lemma authorized_owner device command g u :
  authorize device command (cg_policy g) = Ok u → RemoteCommand_is_mutating command = true →
  guard_controller g = Some (key_owner (command_key device command)).
Proof.
  unfold authorize. intros H Hm. apply result_bind_Ok in H as ([] & _ & H). rewrite Hm in H. cbn [negb] in H.
  unfold guard_controller. destruct (gcp_controller (cg_policy g)) as [c|]; [|done].
  destruct (negb _ || negb _) eqn:E; [done|]. apply orb_false_iff in E as [E1 E2].
  apply negb_false_iff, bool_decide_eq_true in E1, E2. destruct c; cbn in *. by subst.
Qed.

Lemma guard_step_inv log op g g' es :
  guard_inv log g → guard_step op g = (g', es) →
  guard_inv (log ++ es) g' ∧ (es = [] ∨ ∃ e, es = [e] ∧ allowed_event log e).
Proof.
  intros Hi. destruct op as [device command|r|device lease|]; cbn [guard_step].
  - unfold admit_command. destruct (authorize device command (cg_policy g)) as [u|e] eqn:Ea.
    2: { intros [= <- <-]. unfold admission_events. destruct (RemoteCommand_is_mutating command); rewrite app_nil_r; auto. }
    unfold admission_events. destruct (RemoteCommand_is_mutating command) eqn:Em; cbn [negb];
      [|intros [= <- <-]; rewrite app_nil_r; auto]. set (key := command_key device command).
    pose proof (authorized_owner _ _ _ _ Ea Em) as Hown. rewrite (gi_holder _ _ Hi) in Hown. fold key in Hown.
    destruct (cg_accepted g !! key) as [o|] eqn:Eo.
    + destruct (negb _); [intros [= <- <-]; rewrite app_nil_r; auto|].
      destruct (cmo_result o) as [r|] eqn:Er; intros [= <- <-]; [|rewrite app_nil_r; auto]. split.
      * eapply neutral_inv; try done. by repeat constructor.
      * right. eexists. split; [done|]. split; [done|]. destruct (gi_entries _ _ Hi key o Eo) as (after & Ha & Hr).
        rewrite Er in Hr. by exists after.
    + destruct (make_room sha256 g) as [g1|e] eqn:Er; intros [= <- <-]; [|rewrite app_nil_r; auto].
      destruct (make_room_inv _ _ _ Hi Er) as (Hi1 & Hroom & Hnone). split; [by apply enter_inv|].
      right. eexists. split; [done|]. split; [done|]. by apply (gi_others _ _ Hi).
  - intros [= <- <-]. unfold record_result, settled_by.
    destruct (cg_forwarded g !! rr_command_id r) as [key|]; [|rewrite app_nil_r; auto].
    destruct (cg_accepted g !! key) as [[c [r'|]]|] eqn:Eo; cbn [cmo_result]; [rewrite app_nil_r; auto| |rewrite app_nil_r; auto].
    destruct (gi_entries _ _ Hi key _ Eo) as (after & Ha & Hr). cbn [cmo_result] in Hr.
    split; [|right; eexists; split; [done|]; by exists after].
    destruct Hi as [H1 H2 H3 H4 H5]. split; cbn [guard_controller cg_policy cg_accepted cg_insertion_order cg_capacity]; try done.
    + rewrite holder_app. exact H1.
    + intros k o Ho. apply lookup_insert_Some in Ho as [[<- <-]|[Hne Ho]].
      * eexists. split; [apply accepted_since_app; [exact Ha|by rewrite list_elem_of_singleton]|]. cbn. apply elem_of_app. right. by left.
      * destruct (H2 k o Ho) as (after' & Ha' & Hr'). eexists. split; [apply accepted_since_app; [exact Ha'|by rewrite list_elem_of_singleton]|].
        destruct (cmo_result o); [apply elem_of_app; by left|]. intros r'. rewrite elem_of_app, list_elem_of_singleton. naive_solver.
    + intros k Hn. apply lookup_insert_None in Hn as [Hn _]. apply outcome_known_app; [by apply H3|]. by rewrite list_elem_of_singleton.
    + intros k [o Ho]. apply H4. apply lookup_insert_Some in Ho as [[<- _]|[_ Ho]]; eauto.
  - intros [= <- <-]. split; [|right; by eexists]. eapply neutral_inv; try done. by repeat constructor.
  - intros [= <- <-]. split; [|right; by eexists]. eapply neutral_inv; try done. by repeat constructor.
Qed.
End Runs.

Lemma new_guard_inv capacity : guard_inv [] (mkGatewayCommandGuard (mkGatewayCommandPolicy None) ∅ ∅ [] capacity).
Proof. split; cbn; try done; [intros k _ [|] ?; done|by intros k []|lia]. Qed.

Section Theorems.
Variable sha256 : list Z → list Z.

Lemma guard_step_capacity op g : cg_capacity (guard_step sha256 op g).1 = cg_capacity g.
Proof.
  destruct op as [device command|r|device lease|]; cbn [guard_step]; [|unfold record_result|done..].
  - unfold admit_command. destruct (authorize _ _ _); [|done]. destruct (negb _); [done|].
    destruct (cg_accepted g !! _) as [o|]; [by destruct (negb _)|].
    destruct (make_room sha256 g) as [g1|e] eqn:E; [|done]. unfold make_room in E. case_bool_decide; [|by injection E as <-].
    apply result_bind_Ok in E as (i & _ & E). destruct (cg_insertion_order g !! i); by injection E as <-.
  - cbn [fst]. destruct (cg_forwarded g !! _) as [key|]; [|done]. destruct (cg_accepted g !! _) as [o|]; [|done]. by destruct (cmo_result o).
Qed.

Lemma guard_run_inv ops : ∀ log g,
  guard_inv log g → (∀ before e after, log = before ++ e :: after → allowed_event before e) →
  let '(g', later) := guard_run sha256 ops g in
  guard_inv (log ++ later) g' ∧ cg_capacity g' = cg_capacity g ∧
  ∀ before e after, log ++ later = before ++ e :: after → allowed_event before e.
Proof.
  induction ops as [|op ops IH]; intros log g Hi Hl; cbn [guard_run]; [by rewrite app_nil_r|].
  pose proof (guard_step_capacity op g) as Hc. destruct (guard_step sha256 op g) as [g1 es] eqn:E.
  destruct (guard_step_inv _ _ _ _ _ _ Hi E) as [Hi1 He]. cbn [fst] in Hc.
  assert (Hl1 : ∀ before e after, log ++ es = before ++ e :: after → allowed_event before e).
  { destruct He as [->|(e1 & -> & Ha)]; [by rewrite app_nil_r|by apply history_snoc]. }
  specialize (IH _ _ Hi1 Hl1). destruct (guard_run sha256 ops g1) as [g2 later]. rewrite <- !app_assoc in IH.
  destruct IH as (H1 & H2 & H3). split_and!; [done|congruence|done].
Qed.
End Theorems.

Lemma size_le_order {K A} `{Countable K} (m : gmap K A) (l : list K) :
  (∀ k, is_Some (m !! k) → k ∈ l) → (size m ≤ length l)%nat.
Proof.
  intros Hin. rewrite <- (length_map_to_list m), <- (length_fmap fst).
  apply submseteq_length, NoDup_submseteq; [apply NoDup_fst_map_to_list|].
  intros k Hk. apply Hin. apply list_elem_of_fmap in Hk as ([k' a] & -> & Hk). apply elem_of_map_to_list in Hk. by exists a.
Qed.

(** C26: the ledger of commands, from its start, under any commands of any phones, any
    outcomes that the engine reports, late, repeated or of unknown commands, and any
    transfers and revocations of the control: a command that changes something is accepted,
    that is handed on to be executed, only from the phone that holds the control with its
    lease at that moment, and when it was accepted before under the same identifier, only
    after an outcome of every earlier acceptance was recorded, however many commands came in
    between and however full the ledger is; a phone is answered with a known outcome only
    when it is one of the last acceptance; at most one outcome is recorded for an
    acceptance; and the ledger never holds more commands than its capacity. *)
Theorem command_at_most_once sha256 capacity g0 ops :
  GatewayCommandGuard_new capacity = Ok g0 →
  let '(g, log) := guard_run sha256 ops g0 in
  (∀ before e after, log = before ++ e :: after → allowed_event before e) ∧
  Z.of_nat (size (cg_accepted g)) ≤ capacity.
Proof.
  unfold GatewayCommandGuard_new. intros H. apply result_bind_Ok in H as ([] & Hc & H).
  apply refuse_Ok, negb_false_iff, in_range_spec in Hc. injection H as <-.
  match goal with |- context [guard_run _ _ ?g] => pose proof (guard_run_inv sha256 ops [] g) as Hr end.
  destruct (guard_run _ _ _) as [g log]. destruct Hr as (Hi & Hcap & Hlog).
  - apply new_guard_inv.
  - by intros [|].
  - split; [exact Hlog|]. pose proof (size_le_order _ _ (gi_order _ _ Hi)). pose proof (gi_room _ _ Hi).
    cbn [cg_capacity] in Hcap. simpl in Hi. lia.
Qed.

Definition demo_remote_command (id : Z) : RemoteCommand :=
  mkRemoteCommand (show_u id) (lit "lease") 1 (RcSetAbletonLinkEnabled true 4).

(** The end of what is hashed tells the commands of the demonstration apart. *)
Definition demo_hash (bytes : list Z) : list Z := drop (length bytes - 3) bytes.

Definition demo_guard : GatewayCommandGuard := mkGatewayCommandGuard (mkGatewayCommandPolicy None) ∅ ∅ [] 64.

(** A command that is repeated before and after its outcome is known. *)
Definition demo_guard_ops : list guard_op :=
  [GTransfer (lit "phone") (lit "lease"); GAdmit (lit "phone") (demo_remote_command 1); GAdmit (lit "phone") (demo_remote_command 1);
   GResult (mkRemoteCommandResult (forwarded_command_id demo_hash (lit "phone", lit "lease", lit "1")) ResultAccepted (Some 5) None None);
   GAdmit (lit "phone") (demo_remote_command 1)].

Lemma command_at_most_once_witness :
  let key := (lit "phone", lit "lease", lit "1") in
  let '(g, log) := guard_run demo_hash demo_guard_ops demo_guard in
  log = [CTransferred (lit "phone") (lit "lease"); CAccepted key;
         CSettled key (mkRemoteCommandResult (lit "1") ResultAccepted (Some 5) None None);
         CReplayed key (mkRemoteCommandResult (lit "1") ResultAccepted (Some 5) None None)] ∧
  Z.of_nat (size (cg_accepted g)) ≤ 64.
Proof.
  pose proof (command_at_most_once demo_hash 64 demo_guard demo_guard_ops eq_refl) as H.
  split; [vm_compute; reflexivity|exact (proj2 H)].
Defined.

(** Commands that were accepted while the engine could not be reached are never answered: as
    many as the ledger holds, and it refuses every other. *)
Example ledger_never_recovers :
  let admitted := (guard_run demo_hash (GTransfer (lit "phone") (lit "lease") ::
    map (λ n, GAdmit (lit "phone") (demo_remote_command (Z.of_nat n))) (seq 0 64)) demo_guard).1 in
  (admit_command demo_hash (lit "phone") (demo_remote_command 64) admitted).2 = Err LedgerFull.
Proof. vm_compute. reflexivity. Qed.
