(* ===== verification/RemoteRelay.v ===== *)
(** * The gateway for phones: sessions and the relay to the engine

    Models [network.rs] of [lumi-remote-gateway] from the authenticated session of a phone to
    the connection with the engine: what a session does with the frames of the phone and with
    those the relay publishes, the queue of commands between them, and the turns of the
    relay.  The frames are what is handed to the socket; the clocks, the outcome of sending
    to the engine and the end of a wait are inputs of the operations. *)

From stdpp Require Import prelude list gmap sets strings.
From Stdlib Require Import ZArith Lia.
From S2P Require Import Prelude.
From S2P Require Import Protocol.
From S2P Require Import RemoteCommands.
From S2P Require Import RemoteProjection.
From S2P Require Import RemoteGateway.
From S2P Require Import RemoteTrust.
Open Scope Z_scope.

Definition ENGINE_COMMAND_RESPONSE_TIMEOUT : Z := 2000.
Definition ENGINE_COMMAND_CAPACITY : nat := 32.

(** [serde_json::from_value] and [to_value] of the payloads. *)
Class RelayCodec (Value : Type) := {
  command_of : Value → option RemoteCommand;
  command_result_of : Value → option RemoteCommandResult;
  projection_of : Value → option RemoteLiveProjection;
  of_command_result : RemoteCommandResult → Value;
  of_projection : RemoteLiveProjection → Value;
  of_reason : str → Value;
}.

(** A command on its way to the engine, with the number of the channel of its response. *)
Record EngineCommandRequest := mkEngineCommandRequest {
  ecr_command : RemoteCommand;
  ecr_response : nat;
  ecr_expires_at : Z;
}.

(** What the sessions and the relay share; a receiver of a response that was dropped is not
    among the waiting. *)
Record RelayWorld := mkRelayWorld {
  rw_guard : GatewayCommandGuard;
  rw_command_limiter : AttemptRateLimiter;
  rw_connected : bool;
  rw_latest : option RemoteLiveProjection;
  rw_commands : list EngineCommandRequest;
  rw_next_response : nat;
  rw_waiting : gset nat;
  rw_responses : gmap nat (result unit GatewayNetworkError);
}.

Definition set_rw_guard x (w : RelayWorld) : RelayWorld :=
  mkRelayWorld x (rw_command_limiter w) (rw_connected w) (rw_latest w) (rw_commands w) (rw_next_response w)
    (rw_waiting w) (rw_responses w).
Definition set_rw_command_limiter x (w : RelayWorld) : RelayWorld :=
  mkRelayWorld (rw_guard w) x (rw_connected w) (rw_latest w) (rw_commands w) (rw_next_response w)
    (rw_waiting w) (rw_responses w).
Definition set_rw_connected x (w : RelayWorld) : RelayWorld :=
  mkRelayWorld (rw_guard w) (rw_command_limiter w) x (rw_latest w) (rw_commands w) (rw_next_response w)
    (rw_waiting w) (rw_responses w).
Definition set_rw_latest x (w : RelayWorld) : RelayWorld :=
  mkRelayWorld (rw_guard w) (rw_command_limiter w) (rw_connected w) x (rw_commands w) (rw_next_response w)
    (rw_waiting w) (rw_responses w).
Definition set_rw_commands x (w : RelayWorld) : RelayWorld :=
  mkRelayWorld (rw_guard w) (rw_command_limiter w) (rw_connected w) (rw_latest w) x (rw_next_response w)
    (rw_waiting w) (rw_responses w).
Definition set_rw_waiting x (w : RelayWorld) : RelayWorld :=
  mkRelayWorld (rw_guard w) (rw_command_limiter w) (rw_connected w) (rw_latest w) (rw_commands w) (rw_next_response w)
    x (rw_responses w).
Definition set_rw_responses x (w : RelayWorld) : RelayWorld :=
  mkRelayWorld (rw_guard w) (rw_command_limiter w) (rw_connected w) (rw_latest w) (rw_commands w) (rw_next_response w)
    (rw_waiting w) x.

Section Relay.
Context {Value : Type} `{!RelayCodec Value}.
(** SHA-256. *)
Variable sha256 : list Z → list Z.

Notation Frame := (RemoteFrame Value).

(** ** The session of a phone *)

Record RelaySession := mkRelaySession {
  rs_device_id : str;
  rs_delivery_sequence : Z;
  rs_last_projection_revision : Z;
}.

Definition advance (s : RelaySession) : RelaySession :=
  mkRelaySession (rs_device_id s) (saturating_add_u64 (rs_delivery_sequence s) 1) (rs_last_projection_revision s).

Definition set_projection_revision (revision : Z) (s : RelaySession) : RelaySession :=
  mkRelaySession (rs_device_id s) (rs_delivery_sequence s) revision.

(** How a turn of the session ends: it goes on, it waits for the response to a command of the
    phone, or it ends. *)
Inductive SessionFlow : Type :=
| FlowContinue
| FlowAwait (response : nat) (command : RemoteCommand)
| FlowEnd (r : result unit GatewayNetworkError).

Definition command_result_frame (r : RemoteCommandResult) (sequence : Z) : Frame :=
  mkRemoteFrame REMOTE_PROTOCOL_VERSION FrameCommandResult sequence (Some (rr_command_id r)) (of_command_result r).

Definition projection_frame (p : RemoteLiveProjection) (sequence : Z) : Frame :=
  mkRemoteFrame REMOTE_PROTOCOL_VERSION FrameSnapshot sequence None (of_projection p).

Definition error_frame (reason : str) (sequence : Z) : Frame :=
  mkRemoteFrame REMOTE_PROTOCOL_VERSION FrameError sequence None (of_reason reason).

Definition rejected (command_id reason : str) : RemoteCommandResult :=
  mkRemoteCommandResult command_id ResultRejected None None (Some reason).

(** What a turn gives: the shared state, the session, the frames written and how it ends. *)
Definition Turn : Type := RelayWorld * RelaySession * list Frame * SessionFlow.

Definition answer (r : RemoteCommandResult) (w : RelayWorld) (s : RelaySession) : Turn :=
  (w, advance s, [command_result_frame r (rs_delivery_sequence s)], FlowContinue).

Definition turn_ends (r : result unit GatewayNetworkError) (w : RelayWorld) (s : RelaySession) : Turn :=
  (w, s, [], FlowEnd r).

Definition fails (error : GatewayNetworkError) : RelayWorld → RelaySession → Turn := turn_ends (Err error).

(** After the hello: the latest projection, or that there is none. *)
Definition session_start (device_id : str) (w : RelayWorld) : RelaySession * list Frame :=
  let s := mkRelaySession device_id 2 0 in
  match rw_latest w with
  | Some snapshot =>
      (advance (set_projection_revision (rlv_projection_revision snapshot) s), [projection_frame snapshot 2])
  | None => (advance s, [error_frame (lit "engineUnavailable") 2])
  end.

(** [EngineRelayHandle::submit], up to its wait. *)
Definition relay_submit (command : RemoteCommand) (now : Z) (w : RelayWorld) :
    RelayWorld * result nat GatewayNetworkError :=
  if negb (rw_connected w) then (w, Err NetEngineUnavailable)
  else if (ENGINE_COMMAND_CAPACITY <=? length (rw_commands w))%nat then (w, Err NetEngineUnavailable)
  else
    let response := rw_next_response w in
    let request := mkEngineCommandRequest command response (now + ENGINE_COMMAND_RESPONSE_TIMEOUT) in
    (mkRelayWorld (rw_guard w) (rw_command_limiter w) (rw_connected w) (rw_latest w) (rw_commands w ++ [request])
       (S response) ({[response]} ∪ rw_waiting w) (rw_responses w), Ok response).

Definition snapshot_answer (w : RelayWorld) (s : RelaySession) : Turn :=
  match rw_latest w with
  | Some snapshot =>
      (w, advance (set_projection_revision (rlv_projection_revision snapshot) s),
       [projection_frame snapshot (rs_delivery_sequence s)], FlowContinue)
  | None => (w, s, [], FlowContinue)
  end.

(** A command whose transport failed: its outcome is not known, and it stays in the ledger. *)
Definition unknown_outcome (command : RemoteCommand) (error : GatewayNetworkError) (w : RelayWorld)
    (s : RelaySession) : Turn :=
  let '(w, s, frames, _) := answer (rejected (rc_command_id command) (lit "commandOutcomeUnknown")) w s in
  (w, s, frames, match error with NetEngineUnavailable => FlowContinue | _ => FlowEnd (Err error) end).

Definition forward_command (command : RemoteCommand) (now : Z) (w : RelayWorld) (s : RelaySession) : Turn :=
  match relay_submit (forwarded_command sha256 (rs_device_id s) command) now w with
  | (w, Ok response) => (w, s, [], FlowAwait response command)
  | (w, Err error) => unknown_outcome command error w s
  end.

Definition admitted_command (admission : CommandAdmission) (command : RemoteCommand) (now : Z) (w : RelayWorld)
    (s : RelaySession) : Turn :=
  match admission with
  | AdmissionCompleted r => answer r w s
  | AdmissionPending => answer (rejected (rc_command_id command) (lit "commandOutcomePending")) w s
  | AdmissionAccepted =>
      match rc_command command with
      | RcRequestSnapshot => snapshot_answer w s
      | _ => forward_command command now w s
      end
  end.

(** A command of the phone. *)
Definition phone_command (command : RemoteCommand) (rate_now now : Z) (w : RelayWorld) (s : RelaySession) : Turn :=
  match RemoteCommand_validate command with
  | Err error => fails (NetCommand (Unauthorized (InvalidCommand error))) w s
  | Ok _ =>
      match limiter_record (rs_device_id s) rate_now (rw_command_limiter w) with
      | (limiter, Err _) =>
          answer (rejected (rc_command_id command) (lit "rateLimited")) (set_rw_command_limiter limiter w) s
      | (limiter, Ok _) =>
          let w := set_rw_command_limiter limiter w in
          match admit_command sha256 (rs_device_id s) command (rw_guard w) with
          | (guard, Err error) => fails (NetCommand error) (set_rw_guard guard w) s
          | (guard, Ok admission) => admitted_command admission command now (set_rw_guard guard w) s
          end
      end
  end.

(** A frame of the phone. *)
Definition session_incoming (frame : Frame) (rate_now now : Z) (w : RelayWorld) (s : RelaySession) : Turn :=
  match rf_frame_kind frame with
  | FrameCommand =>
      match command_of (rf_payload frame) with
      | Some command => phone_command command rate_now now w s
      | None => fails NetJson w s
      end
  | _ => fails NetUnexpectedFrame w s
  end.

(** The end of the wait for a response; [timed_out] when the time was over first. *)
Definition session_response (timed_out : bool) (response : nat) (command : RemoteCommand) (w : RelayWorld)
    (s : RelaySession) : Turn :=
  let outcome := if timed_out then Err NetEngineUnavailable
                 else default (Err NetEngineUnavailable) (rw_responses w !! response) in
  let w := set_rw_waiting (rw_waiting w ∖ {[response]}) (set_rw_responses (delete response (rw_responses w)) w) in
  match outcome with
  | Ok _ => (w, s, [], FlowContinue)
  | Err error => unknown_outcome command error w s
  end.

Definition deliver_update (frame : Frame) (w : RelayWorld) (s : RelaySession) : Turn :=
  (w, advance s,
   [mkRemoteFrame (rf_protocol_version frame) (rf_frame_kind frame) (rs_delivery_sequence s)
      (rf_correlation_id frame) (rf_payload frame)], FlowContinue).

(** A frame that the relay published. *)
Definition session_update (frame : Frame) (w : RelayWorld) (s : RelaySession) : Turn :=
  match rf_frame_kind frame with
  | FrameCommandResult =>
      match command_result_of (rf_payload frame) with
      | None => fails NetJson w s
      | Some r =>
          match result_for_device (rs_device_id s) (rr_command_id r) (rw_guard w) with
          | None => (w, s, [], FlowContinue)
          | Some r =>
              deliver_update (mkRemoteFrame (rf_protocol_version frame) FrameCommandResult (rf_sequence frame)
                                (Some (rr_command_id r)) (of_command_result r)) w s
          end
      end
  | FrameSnapshot | FrameProjection =>
      match projection_of (rf_payload frame) with
      | None => fails NetJson w s
      | Some projection =>
          if rlv_projection_revision projection <=? rs_last_projection_revision s then (w, s, [], FlowContinue)
          else deliver_update frame w (set_projection_revision (rlv_projection_revision projection) s)
      end
  | _ => deliver_update frame w s
  end.

(** A change of the trust: the phone has to authenticate again. *)
Definition session_trust_changed : RelayWorld → RelaySession → Turn := turn_ends (Ok tt).

(** ** The relay *)

(** What a turn of the relay gives: the shared state, the frame published, the command sent,
    and whether it has to connect again. *)
Definition RelayTurn : Type := RelayWorld * option Frame * option RemoteCommand * bool.

Definition respond (response : nat) (r : result unit GatewayNetworkError) (w : RelayWorld) : RelayWorld :=
  if bool_decide (response ∈ rw_waiting w) then set_rw_responses (<[response := r]> (rw_responses w)) w else w.

(** A frame of the engine. *)
Definition relay_frame (frame : Frame) (w : RelayWorld) : RelayTurn :=
  match rf_frame_kind frame with
  | FrameCommandResult =>
      match command_result_of (rf_payload frame) with
      | Some r => (set_rw_guard (record_result r (rw_guard w)) w, Some frame, None, false)
      | None => (w, None, None, true)
      end
  | FrameSnapshot | FrameProjection =>
      match projection_of (rf_payload frame) with
      | Some projection =>
          match RemoteLiveProjection_validate projection with
          | Ok _ => (set_rw_latest (Some projection) w, Some frame, None, false)
          | Err _ => (w, None, None, true)
          end
      | None => (w, None, None, true)
      end
  | FrameError => (set_rw_latest None w, Some frame, None, false)
  | _ => (w, Some frame, None, false)
  end.

Definition expired_or_revoked (command_id : str) : RemoteCommandResult :=
  rejected command_id (lit "commandExpiredOrControlRevoked").

Definition may_not_send (command : RemoteCommand) (guard : GatewayCommandGuard) : bool :=
  match authorize_forwarded command guard with Ok _ => false | Err _ => true end.

(** The next request; [sent] is whether the engine's connection took it in time. *)
Definition relay_request (now : Z) (sent : bool) (w : RelayWorld) : RelayTurn :=
  match rw_commands w with
  | [] => (w, None, None, false)
  | request :: commands =>
      let w := set_rw_commands commands w in
      if negb (bool_decide (ecr_response request ∈ rw_waiting w)) then (w, None, None, false)
      else if (ecr_expires_at request <=? now)
              || may_not_send (ecr_command request) (rw_guard w) then
        let guard := record_result (expired_or_revoked (rc_command_id (ecr_command request))) (rw_guard w) in
        (respond (ecr_response request) (Err NetEngineUnavailable) (set_rw_guard guard w), None, None, false)
      else
        let outcome := if sent then Ok tt else Err NetEngineUnavailable in
        (respond (ecr_response request) outcome w, None, Some (ecr_command request), negb sent)
  end.

Definition relay_connected (w : RelayWorld) : RelayWorld := set_rw_connected true w.

Definition relay_disconnected (w : RelayWorld) : RelayTurn :=
  (set_rw_latest None (set_rw_connected false w), Some (error_frame (lit "engineUnavailable") 1), None, false).

(** [wait_before_engine_retry]: the interval, or a request that cannot be sent. *)
Definition relay_retry (elapsed : bool) (w : RelayWorld) : RelayWorld :=
  match elapsed, rw_commands w with
  | false, request :: commands =>
      respond (ecr_response request) (Err NetEngineUnavailable) (set_rw_commands commands w)
  | _, _ => w
  end.

Definition network_error_code (error : GatewayNetworkError) : str :=
  match error with
  | NetPairing ApprovalRequired => lit "approvalRequired"
  | NetPairing InvitationExpired => lit "invitationExpired"
  | NetPairing InvitationUnknown => lit "invitationUnknown"
  | NetPairing DeviceUnknown => lit "deviceRevoked"
  | NetPairing CredentialMismatch => lit "credentialMismatch"
  | _ => lit "authenticationRejected"
  end.

Definition should_rate_limit_authentication_failure (error : GatewayNetworkError) : bool :=
  match error with NetPairing ApprovalRequired => false | _ => true end.
End Relay.
