(* ===== verification/RemoteRelayProps.v ===== *)
(** * The gateway for phones: what is sent to the engine

    Composes the ledger of commands with the sessions of the phones and the relay: whatever
    they do in whatever order, a command is sent to the engine no more often than it was
    accepted, and only while the phone it is from holds the control. *)

From stdpp Require Import prelude list gmap sets strings.
From Stdlib Require Import ZArith Lia.
From S2P Require Import Prelude.
From S2P Require Import Protocol.
From S2P Require Import RemoteCommands.
From S2P Require Import RemoteProjection.
From S2P Require Import RemoteGateway.
From S2P Require Import CommandGuardProps.
From S2P Require Import RemoteTrust.
From S2P Require Import RemoteRelay.
Open Scope Z_scope.

(** ** Runs of the sessions and the relay *)

Section Runs.
Context {Value : Type} `{!RelayCodec Value}.
Variable sha256 : list Z → list Z.

Inductive gateway_op : Type :=
| ROIncoming (s : RelaySession) (frame : RemoteFrame Value) (rate_now now : Z)
| ROResponse (s : RelaySession) (timed_out : bool) (response : nat) (command : RemoteCommand)
| ROUpdate (s : RelaySession) (frame : RemoteFrame Value)
| ROFrame (frame : RemoteFrame Value)
| RORequest (now : Z) (sent : bool)
| ROConnected
| RODisconnected
| RORetry (elapsed : bool)
| ROOwnership (owner lease : option str).

Inductive relay_event : Type :=
| RGuard (e : guard_event)
| RSent (command : RemoteCommand).

Definition turn_world (t : Turn (Value := Value)) : RelayWorld := t.1.1.1.

(** The world after the operation; what the guard did; and what was sent. *)
Definition relay_world (op : gateway_op) (w : RelayWorld) : RelayWorld :=
  match op with
  | ROIncoming s frame rate_now now => turn_world (session_incoming sha256 frame rate_now now w s)
  | ROResponse s timed_out response command => turn_world (session_response (Value := Value) timed_out response command w s)
  | ROUpdate s frame => turn_world (session_update frame w s)
  | ROFrame frame => (relay_frame frame w).1.1.1
  | RORequest now sent => (relay_request (Value := Value) now sent w).1.1.1
  | ROConnected => relay_connected w
  | RODisconnected => (relay_disconnected (Value := Value) w).1.1.1
  | RORetry elapsed => relay_retry elapsed w
  | ROOwnership owner lease => set_rw_guard (apply_ownership owner lease (rw_guard w)) w
  end.

Definition within_rate (s : RelaySession) (rate_now : Z) (w : RelayWorld) : bool :=
  match (limiter_record (rs_device_id s) rate_now (rw_command_limiter w)).2 with Ok _ => true | Err _ => false end.

(** What the operation asks of the ledger. *)
Definition relay_guard_op (op : gateway_op) (w : RelayWorld) : option guard_op :=
  match op with
  | ROIncoming s frame rate_now _ =>
      match rf_frame_kind frame with
      | FrameCommand =>
          command ← command_of (rf_payload frame);
          _ ← result_ok (RemoteCommand_validate command);
          if within_rate s rate_now w then Some (GAdmit (rs_device_id s) command) else None
      | _ => None
      end
  | ROFrame frame =>
      match rf_frame_kind frame with FrameCommandResult => GResult <$> command_result_of (rf_payload frame) | _ => None end
  | RORequest now _ =>
      request ← head (rw_commands w);
      if bool_decide (ecr_response request ∈ rw_waiting w)
         && ((ecr_expires_at request <=? now) || may_not_send (ecr_command request) (rw_guard w))
      then Some (GResult (expired_or_revoked (rc_command_id (ecr_command request)))) else None
  | ROOwnership (Some owner) (Some lease) => Some (GTransfer owner lease)
  | ROOwnership _ _ => Some GRevoke
  | _ => None
  end.

Definition relay_sent (op : gateway_op) (w : RelayWorld) : option RemoteCommand :=
  match op with RORequest now sent => (relay_request (Value := Value) now sent w).1.2 | _ => None end.

Definition relay_events (op : gateway_op) (w : RelayWorld) : list relay_event :=
  match relay_guard_op op w with
  | Some gop => RGuard <$> (guard_step sha256 gop (rw_guard w)).2
  | None => option_list (RSent <$> relay_sent op w)
  end.

Fixpoint gateway_run (ops : list gateway_op) (w : RelayWorld) : RelayWorld * list relay_event :=
  match ops with
  | [] => (w, [])
  | op :: ops =>
      let '(w', later) := gateway_run ops (relay_world op w) in (w', relay_events op w ++ later)
  end.

(** ** What an operation does *)

Definition queued (id : str) (w : RelayWorld) : nat :=
  length (filter (λ q, rc_command_id (ecr_command q) = id) (rw_commands w)).

(** The requests waiting afterwards: those before, perhaps one less, or one more for a
    command that was accepted just now. *)
Definition requests_step (op : gateway_op) (w w' : RelayWorld) : Prop :=
  (∃ dropped, rw_commands w = dropped ++ rw_commands w' ∧
    match relay_sent op w with Some c => ecr_command <$> dropped = [c] | None => True end) ∨
  (∃ request key, rw_commands w' = rw_commands w ++ [request] ∧
    rc_command_id (ecr_command request) = forwarded_command_id sha256 key ∧
    relay_events op w = [RGuard (CAccepted key)] ∧ relay_sent op w = None).

Lemma same_queue op w w' : rw_commands w' = rw_commands w → relay_sent op w = None → requests_step op w w'.
Proof. intros E Es. left. exists []. by rewrite E, Es. Qed.

Lemma unknown_outcome_world c e w s : turn_world (unknown_outcome (Value := Value) c e w s) = w.
Proof. done. Qed.

(** Whether the frame reaches the ledger, and what becomes of the world. *)
Lemma incoming_spec s frame rate_now now w :
  let op := ROIncoming s frame rate_now now in
  requests_step op w (relay_world op w) ∧
  rw_guard (relay_world op w) =
    match relay_guard_op op w with Some gop => (guard_step sha256 gop (rw_guard w)).1 | None => rw_guard w end.
Proof.
  intros op. set (w' := relay_world op w). assert (Hs : relay_sent op w = None) by done.
  subst op w'. cbn [relay_world relay_guard_op]. unfold session_incoming.
  destruct (rf_frame_kind frame) eqn:Ek; try (split; [by apply same_queue|done]).
  destruct (command_of (rf_payload frame)) as [command|] eqn:Ec; [|split; [by apply same_queue|done]]. cbn [option_bind mbind].
  unfold phone_command. destruct (RemoteCommand_validate command) as [u|e] eqn:Ev; [|split; [by apply same_queue|done]].
  cbn [result_ok mbind option_bind]. unfold within_rate.
  destruct (limiter_record _ _ _) as [limiter [u'|e]] eqn:El; cbn [snd]; [|split; [by apply same_queue|done]].
  cbn [guard_step rw_guard set_rw_command_limiter].
  destruct (admit_command sha256 (rs_device_id s) command (rw_guard w)) as [guard [admission|e]] eqn:Ea; [|split; [by apply same_queue|done]].
  destruct admission as [| |r]; cbn [admitted_command]; [|split; [by apply same_queue|done]..].
  destruct (RemoteCommand_is_mutating command) eqn:Em.
  2: { unfold RemoteCommand_is_mutating in Em. destruct (rc_command command); try done. unfold snapshot_answer.
       cbn. destruct (rw_latest w); (split; [by apply same_queue|done]). }
  assert (Ht : turn_world (match rc_command command with
      | RcRequestSnapshot => snapshot_answer (Value := Value) (set_rw_guard guard (set_rw_command_limiter limiter w)) s
      | _ => forward_command sha256 command now (set_rw_guard guard (set_rw_command_limiter limiter w)) s
      end) = turn_world (forward_command sha256 command now (set_rw_guard guard (set_rw_command_limiter limiter w)) s)).
  { unfold RemoteCommand_is_mutating in Em. by destruct (rc_command command). }
  rewrite Ht. unfold forward_command, relay_submit. cbn [rw_connected rw_commands set_rw_guard set_rw_command_limiter].
  destruct (negb (rw_connected w)); [split; [by apply same_queue|done]|].
  destruct (ENGINE_COMMAND_CAPACITY <=? length (rw_commands w))%nat; [split; [by apply same_queue|done]|].
  split; [|done]. right. eexists _, (command_key (rs_device_id s) command). split; [done|]. split; [done|]. split; [|done].
  unfold relay_events. cbn [relay_guard_op]. rewrite Ek, Ec. cbn [mbind option_bind]. rewrite Ev. cbn [result_ok mbind option_bind].
  unfold within_rate. rewrite El. cbn [snd guard_step]. rewrite Ea. unfold admission_events. by rewrite Em.
Qed.

Lemma respond_same response r w :
  rw_commands (respond response r w) = rw_commands w ∧ rw_guard (respond response r w) = rw_guard w.
Proof. unfold respond. by case_bool_decide. Qed.

Lemma request_spec now sent w :
  let op := RORequest now sent in
  requests_step op w (relay_world op w) ∧
  rw_guard (relay_world op w) =
    match relay_guard_op op w with Some gop => (guard_step sha256 gop (rw_guard w)).1 | None => rw_guard w end ∧
  match relay_sent op w with
  | Some c => relay_guard_op op w = None ∧ is_ok (authorize_forwarded c (rw_guard w))
  | None => True
  end.
Proof.
  intros op. unfold requests_step. subst op. cbn [relay_world relay_guard_op relay_sent]. unfold relay_request.
  destruct (rw_commands w) as [|q qs] eqn:Eq; cbn [head mbind option_bind].
  { split_and!; [left; exists []; cbn [fst snd app]; by rewrite Eq|done..]. }
  cbn [rw_waiting set_rw_commands rw_guard]. case_bool_decide as Hw; cbn [negb andb].
  2: { split_and!; [left; by exists [q]|done..]. }
  destruct ((ecr_expires_at q <=? now) || may_not_send (ecr_command q) (rw_guard w)) eqn:Ex; cbn [fst snd].
  - destruct (respond_same (ecr_response q) (Err NetEngineUnavailable)
      (set_rw_guard (record_result (expired_or_revoked (rc_command_id (ecr_command q))) (rw_guard w)) (set_rw_commands qs w))) as [E1 E2].
    rewrite E1, E2. split_and!; [left; by exists [q]|done..].
  - destruct (respond_same (ecr_response q) (if sent then Ok tt else Err NetEngineUnavailable) (set_rw_commands qs w)) as [E1 E2].
    rewrite E1, E2. split_and!; [left; by exists [q]|done|done|].
    apply orb_false_iff in Ex as [_ Ex]. unfold may_not_send in Ex.
    destruct (authorize_forwarded (ecr_command q) (rw_guard w)) as [u|e] eqn:Ea; [|done]. by exists u.
Qed.

(** Every operation: the queue, the ledger, and the right to send. *)
Lemma relay_step_spec op w :
  requests_step op w (relay_world op w) ∧
  rw_guard (relay_world op w) =
    match relay_guard_op op w with Some gop => (guard_step sha256 gop (rw_guard w)).1 | None => rw_guard w end ∧
  match relay_sent op w with
  | Some c => relay_guard_op op w = None ∧ is_ok (authorize_forwarded c (rw_guard w))
  | None => True
  end.
Proof.
  destruct op as [s frame rate_now now|s timed_out response command|s frame|frame|now sent| | |elapsed|owner lease].
  - pose proof (incoming_spec s frame rate_now now w) as [H1 H2]. split_and!; done.
  - cbn [relay_world relay_guard_op relay_sent]. unfold session_response.
    destruct (if timed_out then _ else _) as [u|e]; (split_and!; [by apply same_queue|done..]).
  - cbn [relay_world relay_guard_op relay_sent]. unfold session_update, deliver_update.
    destruct (rf_frame_kind frame); repeat case_match; (split_and!; [by apply same_queue|done..]).
  - cbn [relay_world relay_guard_op relay_sent]. unfold relay_frame.
    destruct (rf_frame_kind frame), (command_result_of (rf_payload frame)), (projection_of (rf_payload frame)) as [p|];
      try destruct (RemoteLiveProjection_validate p); (split_and!; [by apply same_queue|done..]).
  - apply request_spec.
  - split_and!; [by apply same_queue|done..].
  - split_and!; [by apply same_queue|done..].
  - cbn [relay_world relay_guard_op relay_sent]. unfold relay_retry, requests_step. destruct elapsed; [split_and!; [by apply same_queue|done..]|].
    destruct (rw_commands w) as [|q qs] eqn:Eq; [split_and!; [left; exists []; by rewrite Eq|done..]|].
    destruct (respond_same (ecr_response q) (Err NetEngineUnavailable) (set_rw_commands qs w)) as [E1 E2].
    rewrite E1, E2. split_and!; [left; by exists [q]|done..].
  - cbn [relay_world relay_guard_op relay_sent]. unfold apply_ownership.
    destruct owner, lease; (split_and!; [by apply same_queue|done..]).
Qed.

(** ** The keys of the ledger *)

Record ledger_keys (g : GatewayCommandGuard) : Prop := {
  lk_forwarded : map_Forall (λ id key, forwarded_command_id sha256 key = id) (cg_forwarded g);
  lk_accepted : map_Forall (λ key o, key.1.2 = rc_controller_lease_id (cmo_command o) ∧
    RemoteCommand_is_mutating (cmo_command o) = true) (cg_accepted g);
}.

Lemma make_room_keys g g' : ledger_keys g → make_room sha256 g = Ok g' → ledger_keys g'.
Proof.
  intros [H1 H2]. unfold make_room. case_bool_decide; [|by intros [= <-]].
  intros H0. apply result_bind_Ok in H0 as (i & _ & H0). destruct (cg_insertion_order g !! i); injection H0 as <-; [|done].
  split; cbn; by apply map_Forall_delete.
Qed.

Lemma guard_step_keys gop g : ledger_keys g → ledger_keys (guard_step sha256 gop g).1.
Proof.
  intros Hk. pose proof Hk as [H1 H2]. destruct gop as [device command|r|device lease|]; cbn [guard_step]; [| |by split..].
  - unfold admit_command. destruct (authorize _ _ _); [|done]. destruct (RemoteCommand_is_mutating command) eqn:Em; cbn [negb]; [|done].
    destruct (cg_accepted g !! _) as [o|]; [by destruct (negb _)|].
    destruct (make_room sha256 g) as [g1|e] eqn:E; [|done]. destruct (make_room_keys _ _ Hk E) as [H3 H4].
    split; cbn; (apply map_Forall_insert_2; [done|done]).
  - cbn [fst]. unfold record_result. destruct (cg_forwarded g !! _) as [key|]; [|done].
    destruct (cg_accepted g !! _) as [o|] eqn:Eo; [|done]. destruct (cmo_result o); [done|].
    split; cbn; [done|]. apply map_Forall_insert_2; [|done]. by apply (H2 key o).
Qed.

Lemma may_send_owner command g :
  ledger_keys g → is_ok (authorize_forwarded command g) →
  ∃ key, forwarded_command_id sha256 key = rc_command_id command ∧ guard_controller g = Some (key_owner key).
Proof.
  intros [H1 H2] [u H]. unfold authorize_forwarded in H. apply result_bind_Ok in H as (key & Hk & H). apply ok_or_Ok in Hk.
  apply result_bind_Ok in H as (o & Ho & H). apply ok_or_Ok in Ho. apply map_err_Ok in H.
  exists key. split; [by apply (H1 _ key)|]. destruct (H2 key o Ho) as [El Em].
  rewrite (authorized_owner _ _ _ _ H Em). unfold key_owner, command_key. cbn. by rewrite El.
Qed.

(** ** What was accepted and what was sent *)

Definition guard_part (log : list relay_event) : list guard_event :=
  omap (λ e, match e with RGuard e => Some e | RSent _ => None end) log.

(** Acceptances of the commands that are sent under an identifier, and commands sent under it. *)
Definition acceptance_of (id : str) (e : relay_event) : bool :=
  match e with RGuard (CAccepted key) => bool_decide (forwarded_command_id sha256 key = id) | _ => false end.

Definition sending_of (id : str) (e : relay_event) : bool :=
  match e with RSent command => bool_decide (rc_command_id command = id) | _ => false end.

Definition count (p : relay_event → bool) (log : list relay_event) : nat := length (filter (λ e, p e = true) log).

Definition relay_allowed (log : list relay_event) (e : relay_event) : Prop :=
  match e with
  | RGuard e => allowed_event (guard_part log) e
  | RSent command =>
      (count (sending_of (rc_command_id command)) log < count (acceptance_of (rc_command_id command)) log)%nat ∧
      ∃ key, forwarded_command_id sha256 key = rc_command_id command ∧ holder (guard_part log) = Some (key_owner key)
  end.

Record gateway_inv (log : list relay_event) (w : RelayWorld) : Prop := {
  ri_guard : guard_inv (guard_part log) (rw_guard w);
  ri_keys : ledger_keys (rw_guard w);
  ri_counts : ∀ id, (count (sending_of id) log + queued id w ≤ count (acceptance_of id) log)%nat;
}.

Lemma count_app p l k : count p (l ++ k) = (count p l + count p k)%nat.
Proof. unfold count. by rewrite filter_app, length_app. Qed.

Lemma count_cons p e l : count p (e :: l) = ((if p e then 1 else 0) + count p l)%nat.
Proof. unfold count. rewrite filter_cons. destruct (p e); case_decide; simpl; congruence || lia. Qed.

Lemma guard_part_app l k : guard_part (l ++ k) = guard_part l ++ guard_part k.
Proof. apply omap_app. Qed.

Lemma guard_part_guard es : guard_part (RGuard <$> es) = es.
Proof. induction es as [|e es IH]; [done|]. cbn. by rewrite <- IH at 2. Qed.

Lemma no_sendings id es : count (sending_of id) (RGuard <$> es) = 0%nat.
Proof. unfold count. induction es as [|e es IH]; [done|]. cbn. exact IH. Qed.

Lemma queued_app id w w' dropped :
  rw_commands w = dropped ++ rw_commands w' →
  queued id w = (length (filter (λ q, rc_command_id (ecr_command q) = id) dropped) + queued id w')%nat.
Proof. intros E. unfold queued. by rewrite E, filter_app, length_app. Qed.

(** The counts after an operation. *)
Lemma step_counts log op w id :
  gateway_inv log w →
  (count (sending_of id) (log ++ relay_events op w) + queued id (relay_world op w)
    ≤ count (acceptance_of id) (log ++ relay_events op w))%nat.
Proof.
  intros [_ _ Hc]. specialize (Hc id). destruct (relay_step_spec op w) as (Hq & _ & Hs). rewrite !count_app.
  destruct Hq as [(dropped & Ed & Hsent)|(request & key & Ea & Ei & Ee & Hsent)].
  - rewrite (queued_app id _ _ _ Ed) in Hc.
    enough (count (sending_of id) (relay_events op w) ≤ length (filter (λ q, rc_command_id (ecr_command q) = id) dropped))%nat by lia.
    unfold relay_events. destruct (relay_guard_op op w); [rewrite no_sendings; lia|].
    destruct (relay_sent op w) as [c|]; [|cbn; lia]. destruct dropped as [|q [|]]; try done. injection Hsent as <-.
    change (option_list (RSent <$> Some (ecr_command q))) with [RSent (ecr_command q)]. rewrite count_cons, filter_cons. cbn [sending_of].
    case_decide; case_bool_decide; simpl; (done || lia).
  - assert (Eq : queued id (relay_world op w) =
      (queued id w + length (filter (λ q, rc_command_id (ecr_command q) = id) [request]))%nat)
      by (unfold queued; by rewrite Ea, filter_app, length_app).
    rewrite Eq, Ee, !count_cons, filter_cons. cbn [sending_of acceptance_of]. rewrite Ei.
    case_decide; case_bool_decide; simpl; (done || (unfold count in *; simpl; lia)).
Qed.

Lemma relay_step_inv log op w :
  gateway_inv log w →
  gateway_inv (log ++ relay_events op w) (relay_world op w) ∧
  (relay_events op w = [] ∨ ∃ e, relay_events op w = [e] ∧ relay_allowed log e).
Proof.
  intros Hi. pose proof (λ id, step_counts log op w id Hi) as Hc. destruct (relay_step_spec op w) as (Hq & Hg & Hs).
  destruct Hi as [H1 H2 H3]. unfold relay_events in *. destruct (relay_guard_op op w) as [gop|].
  - pose proof (guard_step_keys gop _ H2) as Hk. destruct (guard_step sha256 gop (rw_guard w)) as [g' es] eqn:E.
    cbn [fst snd] in *. destruct (guard_step_inv _ _ _ _ _ _ H1 E) as [Hg' He]. split.
    + split; [by rewrite guard_part_app, guard_part_guard, Hg|by rewrite Hg|done].
    + destruct He as [->|(e & -> & Ha)]; [by left|right; by exists (RGuard e)].
  - split; [|destruct (relay_sent op w) as [c|] eqn:Es; [|by left]; right; exists (RSent c); split; [done|]].
    + split; [rewrite guard_part_app, Hg|by rewrite Hg|done].
      destruct (relay_sent op w); cbn; by rewrite app_nil_r.
    + destruct Hs as [_ Hok]. destruct (may_send_owner _ _ H2 Hok) as (key & Ek & Hown). split.
      * destruct Hq as [(dropped & Ed & Hd)|(? & ? & _ & _ & _ & ?)]; [|congruence].
        specialize (H3 (rc_command_id c)). rewrite (queued_app _ _ _ _ Ed) in H3. rewrite Es in Hd.
        destruct dropped as [|q [|]]; try done. injection Hd as <-. rewrite filter_cons in H3. case_decide; [simpl in H3; lia|done].
      * exists key. split; [done|]. by rewrite <- (gi_holder _ _ H1).
Qed.

Lemma relay_run_inv ops : ∀ log w,
  gateway_inv log w → (∀ before e after, log = before ++ e :: after → relay_allowed before e) →
  ∀ before e after, log ++ (gateway_run ops w).2 = before ++ e :: after → relay_allowed before e.
Proof.
  induction ops as [|op ops IH]; intros log w Hi Hl; cbn [gateway_run]; [by rewrite app_nil_r|].
  destruct (relay_step_inv log op w Hi) as [Hi1 He].
  assert (Hl1 : ∀ before e after, log ++ relay_events op w = before ++ e :: after → relay_allowed before e).
  { destruct He as [->|(e1 & -> & Ha)]; [by rewrite app_nil_r|by apply history_snoc]. }
  specialize (IH _ _ Hi1 Hl1). destruct (gateway_run ops (relay_world op w)) as [w' later]. cbn [snd] in *. by rewrite app_assoc.
Qed.
End Runs.

(** C25: the gateway as a whole, from its start, with any sessions of any phones, in any
    order of their frames, the frames of the engine, the turns of the relay, the losses and
    the returns of its connection, the ends of waits and the changes of control: a command is
    handed to the connection with the engine only when there were more acceptances of it than
    times it was sent before, so that no acceptance sends it twice, and only while the
    control is held by the phone and with the lease it was accepted for, even when it was
    queued before the control changed; and everything the ledger does is as it promises, so
    that a command is accepted again only after an outcome of it was recorded. *)
Theorem commands_sent_once {Value : Type} `{!RelayCodec Value} sha256 (w0 : RelayWorld) capacity ops before e after :
  GatewayCommandGuard_new capacity = Ok (rw_guard w0) → rw_commands w0 = [] →
  (gateway_run sha256 (ops : list (gateway_op (Value := Value))) w0).2 = before ++ e :: after →
  relay_allowed sha256 before e.
Proof.
  unfold GatewayCommandGuard_new. intros H Hq E. apply result_bind_Ok in H as ([] & _ & H). injection H as Hg.
  refine (relay_run_inv sha256 ops [] w0 _ _ before e after E); [|by intros [|]].
  split.
  - rewrite <- Hg. apply new_guard_inv.
  - rewrite <- Hg. by split.
  - intros id. unfold queued. by rewrite Hq.
Qed.

(** A phone's command that reaches the engine, and one that does not because the control
    changed while it waited. *)
Inductive demo_payload : Type :=
| DemoCommand (command : RemoteCommand)
| DemoResult (r : RemoteCommandResult)
| DemoNothing.

#[local] Instance demo_codec : RelayCodec demo_payload := {|
  command_of v := match v with DemoCommand command => Some command | _ => None end;
  command_result_of v := match v with DemoResult r => Some r | _ => None end;
  projection_of _ := None;
  of_command_result := DemoResult;
  of_projection _ := DemoNothing;
  of_reason _ := DemoNothing;
|}.

Definition demo_relay_world : RelayWorld :=
  mkRelayWorld demo_guard (mkAttemptRateLimiter 32 1000 ∅) false None [] 0 ∅ ∅.

Definition demo_incoming (id : Z) : gateway_op (Value := demo_payload) :=
  ROIncoming (mkRelaySession (lit "phone") 3 0) (mkRemoteFrame 1 FrameCommand id None (DemoCommand (demo_remote_command id))) 5 10.

Definition demo_relay_ops : list (gateway_op (Value := demo_payload)) :=
  [ROConnected; ROOwnership (Some (lit "phone")) (Some (lit "lease")); demo_incoming 1; RORequest 20 true; demo_incoming 2;
   ROOwnership (Some (lit "other")) (Some (lit "new")); RORequest 30 true].

Lemma commands_sent_once_witness :
  let log := (gateway_run demo_hash demo_relay_ops demo_relay_world).2 in
  let forwarded := forwarded_command demo_hash (lit "phone") (demo_remote_command 1) in
  relay_allowed demo_hash (take 2 log) (RSent forwarded) ∧ count (sending_of (rc_command_id forwarded)) log = 1%nat ∧
  length (filter (λ e, match e with RSent _ => true | RGuard _ => false end = true) log) = 1%nat.
Proof.
  split_and!; [|vm_compute; reflexivity..].
  apply (commands_sent_once demo_hash demo_relay_world 64 demo_relay_ops _ _
    (drop 3 (gateway_run demo_hash demo_relay_ops demo_relay_world).2)); vm_compute; reflexivity.
Defined.
