(* ===== verification/SessionCommands.v ===== *)
(** * Commands of the session: their decoding

    Models [commands.rs] of [lumi-engine]: the commands, and how a message of the protocol
    becomes one.  The payload is an object of [serde_json]; its values are a parameter with
    the accessors the decoder uses. *)

From stdpp Require Import prelude list gmap sets strings.
From Stdlib Require Import ZArith Lia.
From S2P Require Import Prelude.
From S2P Require Import Track.
From S2P Require Import Event.
From S2P Require Import LightPlans.
From S2P Require Import PhraseTimeline.
From S2P Require Import Protocol.
From S2P Require Import Midi.
From S2P Require Import LibrarySource.
From S2P Require Import Reconciliation.
From S2P Require Import PhraseRoles.
From S2P Require Import Workflow.
From S2P Require Import AutoloopCatalog.
From S2P Require Import LaunchPolicy.
From S2P Require Import Float64.
Open Scope Z_scope.

(** [serde_json::Value]: its accessors, and [from_value] of the two policies. *)
Class JsonValue (V : Type) := {
  as_str : V → option str;
  as_u64 : V → option Z;
  as_i64 : V → option Z;
  as_bool : V → option bool;
  as_array : V → option (list V);
  as_object : V → option (gmap str V);
  is_null : V → bool;
  planning_policy_of : V → option LightPlanningPolicy;
  launch_policy_of : V → option LaunchPolicy;
}.

(** ** The commands *)

Record PlanCommandContext := mkPlanCommandContext {
  pcx_plan_id : PlanId;
  pcx_track_load_id : TrackLoadId;
  pcx_expected_revision : PlanRevision;
}.

Inductive DeckSourceSelection : Type := SelectConnectedDecks | SelectLocalPlayback.

Inductive SimulationSpeed : Type := SpeedOne | SpeedFour | SpeedSixteen | SpeedSixtyFour.

Inductive PhraseRoleCatalogMutation : Type :=
| RoleAdd (display_name : str)
| RoleRename (role_id : PhraseRoleId) (display_name : str)
| RoleMove (role_id : PhraseRoleId) (direction : PhraseRoleMove)
| RoleSetArchived (role_id : PhraseRoleId) (archived : bool)
| RoleSetColor (role_id : PhraseRoleId) (color_rgb : Z)
| RoleSetSourceMapping (provider_kind raw_label : str) (role_id : PhraseRoleId).

Inductive AutoloopCatalogMutation : Type :=
| MutRenameTheme (theme_id : ThemeId) (display_name : str)
| MutAddVariant (role_id : PhraseRoleId) (display_name : str)
| MutRenameVariant (role_id : PhraseRoleId) (variant_id : VariantId) (display_name : str)
| MutMoveVariant (role_id : PhraseRoleId) (variant_id : VariantId) (direction : AutoloopVariantMove)
| MutSetVariantArchived (role_id : PhraseRoleId) (variant_id : VariantId) (archived : bool)
| MutSetCell (theme_id : ThemeId) (role_id : PhraseRoleId) (variant_id : VariantId) (display_name : option str)
| MutSetButton (theme_id : ThemeId) (button_number : Z) (role_id : PhraseRoleId) (display_name : option str)
| MutClearButton (theme_id : ThemeId) (button_number : Z).

Inductive SessionCommand : Type :=
| GetSnapshot (include_library : bool)
| QueryLibrary (search : str) (playlist_id : option Z) (workflow_filter : option TrackWorkflowFilter)
    (workflow_step_id : option str) (offset limit : Z) (sort : LibraryTrackSort)
| OpenLibraryTrackEditor (track_id : Z)
| GetLibraryTrackWaveform (track_id : Z)
| CloseLibraryTrackEditor
| SetTrackPreparationStatus (track_id expected_revision : Z) (status : TrackPreparationStatus)
| AssignTrackWorkflowStep (track_id expected_revision : Z) (step_id : str)
| SetTrackPhraseProtection (track_id expected_revision : Z) (locked : bool)
| ReplaceTrackWorkflowCatalog (expected_revision : Z) (steps : list WorkflowStepDefinition)
| ResolveTrackWorkflowAttention (track_id expected_revision : Z)
| PreviewDemoSourceRefresh
| PreviewLibraryReset (preserve_track_ids : list Z)
| ApplyLibraryReset (expected_token backup_database_path : str)
| CreateLibraryBackup (destination : str)
| RestoreLibraryBackup (source rollback : str)
| ReconcileLibrarySource (track_id expected_revision : Z) (strategy : ReconcileStrategy)
| EditLibraryTimeline (track_id expected_revision : Z) (command : TimelineEditCommand)
| SetLibraryPhraseLoopStrategy (track_id expected_timeline_revision expected_catalog_revision phrase_index : Z)
    (strategy : PhraseLoopStrategy)
| UndoLibraryTimeline (track_id expected_revision : Z)
| RedoLibraryTimeline (track_id expected_revision : Z)
| RestoreLibraryTimelineRevision (track_id expected_revision target_revision : Z)
| ReuseLibraryTimeline (source_track_id target_track_id expected_target_revision : Z)
| KeepTrackVersionSeparate (source_track_id target_track_id expected_target_revision : Z)
| MutatePhraseRoleCatalog (expected_revision : Z) (mutation : PhraseRoleCatalogMutation)
| MutateAutoloopCatalog (expected_revision : Z) (mutation : AutoloopCatalogMutation)
| ReplaceLightPlanningPolicy (expected_revision : Z) (policy : LightPlanningPolicy)
| PreviewLightPlan (track_id expected_timeline_revision : Z) (theme_id : option Z) (variation_seed : Z)
    (policy : LightPlanningPolicy)
| PublishMidiSource
| StopMidiSource
| SetAbletonLinkEnabled (enabled : bool)
| TestAbletonLinkHelper
| SetOutputTimingOffset (millis : Z)
| SetLaunchPolicy (policy expected : LaunchPolicy)
| SendMidiLearnPulse
| SendMidiAddressLearnPulse (address : MidiAddress)
| TriggerMidiAutoloop (bank_number autoloop_number : Z)
| TriggerMidiStaticLook (static_look_number : Z)
| LoadLibraryTrackOnLocalDeck (track_id : Z) (deck_id : DeckId) (expected_timeline_revision : Z)
    (expected_state_revision : StateRevision)
| UpdateLocalPlaybackTransport (deck_id : DeckId) (track_load_id : TrackLoadId) (position_millis : Z) (playing : bool)
| SetLocalPlaybackLeader (deck_id : DeckId) (expected_state_revision : StateRevision)
| SelectDeckSourceMode (mode : DeckSourceSelection) (expected_state_revision : StateRevision)
| LoadDemoSession (expected_revision : StateRevision)
| SetOperationState (expected_revision : StateRevision) (command : OperationCommand)
| SetSimulationSpeed (expected_revision : StateRevision) (speed : SimulationSpeed)
| SetSimulationPlayback (expected_revision : StateRevision) (playing : bool)
| AdvanceSimulation (expected_revision : StateRevision) (elapsed_ticks : Z)
| AdvanceToNextTrack (expected_revision : StateRevision)
| SelectTheme (context : PlanCommandContext) (theme_id : ThemeId)
| SelectThemeFromPhrase (context : PlanCommandContext) (phrase_index : Z) (theme_id : ThemeId)
| SelectScene (context : PlanCommandContext) (phrase_index : Z) (scene_id : SceneId)
| ChangePhraseRole (context : PlanCommandContext) (phrase_index : Z) (role_id : PhraseRoleId)
| SetCueLock (context : PlanCommandContext) (phrase_index : Z) (locked : bool)
| RegeneratePlan (context : PlanCommandContext)
| ResetDemoSession (expected_revision : StateRevision).

Definition is_mutating (c : SessionCommand) : bool :=
  match c with
  | GetSnapshot _ | QueryLibrary _ _ _ _ _ _ _ | OpenLibraryTrackEditor _ | GetLibraryTrackWaveform _
  | CloseLibraryTrackEditor => false
  | _ => true
  end.

Definition command_context (c : SessionCommand) : option PlanCommandContext :=
  match c with
  | SelectTheme context _ | SelectThemeFromPhrase context _ _ | SelectScene context _ _
  | ChangePhraseRole context _ _ | SetCueLock context _ _ | RegeneratePlan context => Some context
  | _ => None
  end.

Definition changes_library_revision (c : SessionCommand) : bool :=
  match c with
  | SetTrackPreparationStatus _ _ _ | AssignTrackWorkflowStep _ _ _ | SetTrackPhraseProtection _ _ _
  | ReplaceTrackWorkflowCatalog _ _ | ResolveTrackWorkflowAttention _ _ | ApplyLibraryReset _ _
  | RestoreLibraryBackup _ _ | ReconcileLibrarySource _ _ _ | EditLibraryTimeline _ _ _
  | SetLibraryPhraseLoopStrategy _ _ _ _ _ | UndoLibraryTimeline _ _ | RedoLibraryTimeline _ _
  | RestoreLibraryTimelineRevision _ _ _ | ReuseLibraryTimeline _ _ _ | KeepTrackVersionSeparate _ _ _
  | MutatePhraseRoleCatalog _ _ | MutateAutoloopCatalog _ _ | ReplaceLightPlanningPolicy _ _
  | ChangePhraseRole _ _ _ => true
  | _ => false
  end.

Inductive CommandDecodeError : Type :=
| DecodeWrongMessageType
| DecodeUnsupportedKind
| DecodeInvalidField (field : string)
| DecodeInvalidPlanContext.

(** [match text { "a" => ..., _ => otherwise }]. *)
Fixpoint match_text {A} (text : str) (arms : list (string * A)) (otherwise : A) : A :=
  match arms with
  | [] => otherwise
  | (pattern, arm) :: arms => if bool_decide (text = lit pattern) then arm else match_text text arms otherwise
  end.

Section Decode.
Context {V : Type} `{!JsonValue V}.

Notation Payload := (gmap str V).
Notation decoded A := (result A CommandDecodeError).

Definition get_field (payload : Payload) (field : string) : option V := payload !! lit field.

Definition invalid {A} (field : string) : decoded A := Err (DecodeInvalidField field).

(** ** Fields *)

Definition string_field (payload : Payload) (field : string) : decoded str :=
  ok_or (value ← get_field payload field; text ← as_str value; if bool_decide (text = []) then None else Some text)
    (DecodeInvalidField field).

Definition unsigned (payload : Payload) (field : string) : decoded Z :=
  ok_or (get_field payload field ≫= as_u64) (DecodeInvalidField field).

Definition signed_field (payload : Payload) (field : string) : decoded Z :=
  ok_or (get_field payload field ≫= as_i64) (DecodeInvalidField field).

Definition positive_unsigned (payload : Payload) (field : string) : decoded Z :=
  let? value := unsigned payload field in
  if value =? 0 then invalid field else Ok value.

Definition boolean (payload : Payload) (field : string) : decoded bool :=
  ok_or (get_field payload field ≫= as_bool) (DecodeInvalidField field).

Definition optional_boolean (payload : Payload) (field : string) : decoded (option bool) :=
  match get_field payload field with
  | None => Ok None
  | Some value => let? value := ok_or (as_bool value) (DecodeInvalidField field) in Ok (Some value)
  end.

Definition optional_string (payload : Payload) (field : string) : option str := get_field payload field ≫= as_str.

Definition optional_unsigned (payload : Payload) (field : string) : decoded (option Z) :=
  match get_field payload field with
  | None => Ok None
  | Some value =>
      if is_null value then Ok None
      else let? value := ok_or (as_u64 value) (DecodeInvalidField field) in Ok (Some value)
  end.

(** [u8::try_from], [u16::try_from] and [u32::try_from]. *)
Definition narrow (maximum : Z) (field : string) (value : Z) : decoded Z :=
  if value <=? maximum then Ok value else invalid field.

Definition array_field (payload : Payload) (field : string) : decoded (list V) :=
  ok_or (get_field payload field ≫= as_array) (DecodeInvalidField field).

Definition object_of (field : string) (value : V) : decoded Payload := ok_or (as_object value) (DecodeInvalidField field).

Definition phrase_role_id (payload : Payload) : decoded PhraseRoleId :=
  let? text := string_field payload "roleId" in
  map_err (λ _, DecodeInvalidField "roleId") (text_identifier_try_new "phrase role id" text).

Definition variant_id (payload : Payload) : decoded VariantId :=
  let? text := string_field payload "variantId" in
  map_err (λ _, DecodeInvalidField "variantId") (text_identifier_try_new "variant id" text).

Definition phrase_index (payload : Payload) : decoded Z :=
  let? value := unsigned payload "phraseIndex" in narrow U16_MAX "phraseIndex" value.

Definition timeline_beat (payload : Payload) (field : string) : decoded Z :=
  let? value := unsigned payload field in narrow U32_MAX field value.

Definition state_revision (payload : Payload) : decoded StateRevision := unsigned payload "expectedStateRevision".

Definition deck_id_field (payload : Payload) : decoded DeckId :=
  let? value := positive_unsigned payload "deckId" in narrow U8_MAX "deckId" value.

Definition operation_command (value : str) : decoded OperationCommand :=
  match_text value [("armed", Ok CmdArm); ("live", Ok CmdStart); ("paused", Ok CmdPause); ("off", Ok CmdOff)]
    (invalid "operationState").

Definition simulation_speed (value : Z) : decoded SimulationSpeed :=
  if value =? 1 then Ok SpeedOne else if value =? 4 then Ok SpeedFour
  else if value =? 16 then Ok SpeedSixteen else if value =? 64 then Ok SpeedSixtyFour
  else invalid "speed".

Definition elapsed_ticks (payload : Payload) : decoded Z :=
  let? value := unsigned payload "elapsedTicks" in
  if (value =? 0) || (1000 <? value) then invalid "elapsedTicks" else Ok value.

Definition context (payload : Payload) : decoded PlanCommandContext :=
  let? text := string_field payload "planId" in
  let? plan_id := ok_or (parse_unsigned U64_MAX text) (DecodeInvalidField "planId") in
  let? track_load_id := unsigned payload "trackLoadId" in
  let? expected_revision := unsigned payload "expectedPlanRevision" in
  if (plan_id =? 0) || (track_load_id =? 0) || (expected_revision =? 0) then Err DecodeInvalidPlanContext
  else Ok (mkPlanCommandContext plan_id track_load_id expected_revision).

(** ** MIDI addresses *)

Definition midi_number (payload : Payload) (field : string) (maximum : Z) : decoded Z :=
  let? value := positive_unsigned payload field in
  let? number := narrow U8_MAX field value in
  if number <=? maximum then Ok number else invalid field.

Definition midi_address (payload : Payload) : decoded MidiAddress :=
  let? kind := string_field payload "targetKind" in
  let? raw_number := if bool_decide (kind = lit "custom") then unsigned payload "targetNumber"
                     else positive_unsigned payload "targetNumber" in
  let? number := narrow U8_MAX "targetNumber" raw_number in
  let? address :=
    match_text kind
      [("bank", λ _ : unit, Ok (MidiAddress_bank number));
       ("autoloop", λ _, let? bank := midi_number payload "bankNumber" 4 in Ok (MidiAddress_autoloop bank number));
       ("staticLook", λ _, Ok (MidiAddress_static_look number));
       ("custom", λ _,
          let? value := positive_unsigned payload "channel" in
          let? channel := narrow U8_MAX "channel" value in
          Ok (MidiAddress_custom channel number))]
      (λ _, invalid "targetKind") tt in
  ok_or address (DecodeInvalidField "targetNumber").

(** ** The library *)

Definition reconcile_side (text : str) : decoded ReconcileSide :=
  match_text text [("lumi", Ok SideLumi); ("source", Ok SideSource)] (invalid "side").

Definition conflict_choice (value : V) : decoded PhraseConflictChoice :=
  let? object := object_of "choices" value in
  let? index := phrase_index object in
  let? side := string_field object "side" in
  let? side := reconcile_side side in
  Ok (mkPhraseConflictChoice index side).

Definition merge_strategy (payload : Payload) : decoded ReconcileStrategy :=
  let? values := array_field payload "choices" in
  let? _ := refuse (10000 <? Z.of_nat (length values)) (DecodeInvalidField "choices") in
  let? choices := collect conflict_choice values in
  Ok (Merge choices).

Definition reconcile_strategy (payload : Payload) : decoded ReconcileStrategy :=
  let? strategy := string_field payload "strategy" in
  match_text strategy
    [("keepLumi", λ _ : unit, Ok KeepLumi); ("rebase", λ _, Ok Rebase); ("replaceWithSource", λ _, Ok ReplaceWithSource);
     ("merge", λ _, merge_strategy payload)]
    (λ _, invalid "strategy") tt.

Definition theme_id_field (payload : Payload) : decoded ThemeId := positive_unsigned payload "themeId".

Definition button_number (payload : Payload) : decoded Z :=
  let? value := positive_unsigned payload "buttonNumber" in narrow U16_MAX "buttonNumber" value.

Definition variant_of_role (payload : Payload) : decoded (PhraseRoleId * VariantId) :=
  let? role_id := phrase_role_id payload in
  let? variant_id := variant_id payload in
  Ok (role_id, variant_id).

Definition autoloop_catalog_mutation (payload : Payload) : decoded AutoloopCatalogMutation :=
  let? operation := string_field payload "operation" in
  match_text operation
    [("renameTheme", λ p,
        let? theme := theme_id_field p in
        let? name := string_field p "displayName" in
        Ok (MutRenameTheme theme name));
     ("addVariant", λ p,
        let? role := phrase_role_id p in
        let? name := string_field p "displayName" in
        Ok (MutAddVariant role name));
     ("renameVariant", λ p,
        let? ids := variant_of_role p in
        let? name := string_field p "displayName" in
        Ok (MutRenameVariant ids.1 ids.2 name));
     ("moveVariantEarlier", λ p, let? ids := variant_of_role p in Ok (MutMoveVariant ids.1 ids.2 VariantEarlier));
     ("moveVariantLater", λ p, let? ids := variant_of_role p in Ok (MutMoveVariant ids.1 ids.2 VariantLater));
     ("archiveVariant", λ p, let? ids := variant_of_role p in Ok (MutSetVariantArchived ids.1 ids.2 true));
     ("restoreVariant", λ p, let? ids := variant_of_role p in Ok (MutSetVariantArchived ids.1 ids.2 false));
     ("setCell", λ p,
        let? theme := theme_id_field p in
        let? ids := variant_of_role p in
        Ok (MutSetCell theme ids.1 ids.2 (optional_string p "displayName")));
     ("setButton", λ p,
        let? theme := theme_id_field p in
        let? button := button_number p in
        let? role := phrase_role_id p in
        Ok (MutSetButton theme button role (optional_string p "displayName")));
     ("clearButton", λ p,
        let? theme := theme_id_field p in
        let? button := button_number p in
        Ok (MutClearButton theme button))]
    (λ _, invalid "operation") payload.

Definition phrase_role_mutation (payload : Payload) : decoded PhraseRoleCatalogMutation :=
  let? operation := string_field payload "operation" in
  match_text operation
    [("add", λ p, let? name := string_field p "displayName" in Ok (RoleAdd name));
     ("rename", λ p,
        let? role := phrase_role_id p in
        let? name := string_field p "displayName" in
        Ok (RoleRename role name));
     ("moveEarlier", λ p, let? role := phrase_role_id p in Ok (RoleMove role RoleEarlier));
     ("moveLater", λ p, let? role := phrase_role_id p in Ok (RoleMove role RoleLater));
     ("archive", λ p, let? role := phrase_role_id p in Ok (RoleSetArchived role true));
     ("restore", λ p, let? role := phrase_role_id p in Ok (RoleSetArchived role false));
     ("setColor", λ p,
        let? role := phrase_role_id p in
        let? value := unsigned p "colorRgb" in
        let? color := narrow U32_MAX "colorRgb" value in
        Ok (RoleSetColor role color));
     ("setSourceMapping", λ p,
        let? provider := string_field p "providerKind" in
        let? label := string_field p "rawLabel" in
        let? role := phrase_role_id p in
        Ok (RoleSetSourceMapping provider label role))]
    (λ _, invalid "operation") payload.

Definition timeline_edit (payload : Payload) : decoded TimelineEditCommand :=
  let? operation := string_field payload "operation" in
  match_text operation
    [("create", λ p,
        let? start := timeline_beat p "startBeat" in
        let? finish := timeline_beat p "endBeat" in
        let? role := phrase_role_id p in
        Ok (CmdCreate start finish role));
     ("split", λ p,
        let? index := phrase_index p in
        let? beat := timeline_beat p "atBeat" in
        Ok (CmdSplit index beat));
     ("mergePrevious", λ p, let? index := phrase_index p in Ok (CmdMergePrevious index));
     ("mergeNext", λ p, let? index := phrase_index p in Ok (CmdMergeNext index));
     ("moveBoundary", λ p,
        let? index := phrase_index p in
        let? beat := timeline_beat p "toBeat" in
        Ok (CmdMoveBoundary index beat));
     ("deleteAbsorbPrevious", λ p, let? index := phrase_index p in Ok (CmdDelete index AbsorbPrevious));
     ("deleteAbsorbNext", λ p, let? index := phrase_index p in Ok (CmdDelete index AbsorbNext));
     ("changeRole", λ p,
        let? index := phrase_index p in
        let? role := phrase_role_id p in
        Ok (CmdChangeRole index role))]
    (λ _, invalid "operation") payload.

Definition theme_override (value : V) : decoded ThemeSpecificVariant :=
  let? object := object_of "themeOverrides" value in
  let? theme := positive_unsigned object "themeId" in
  let? variant := variant_id object in
  Ok (mkThemeSpecificVariant theme variant).

Definition phrase_loop_strategy (payload : Payload) : decoded PhraseLoopStrategy :=
  let? strategy := string_field payload "strategy" in
  match_text strategy
    [("auto", λ _ : Payload, Ok StrategyAuto);
     ("fixedVariant", λ p, let? variant := variant_id p in Ok (StrategyFixedVariant variant));
     ("themeSpecificExact", λ p,
        let? values := array_field p "themeOverrides" in
        let? overrides := collect theme_override values in
        Ok (StrategyThemeSpecificExact overrides))]
    (λ _, invalid "strategy") payload.

Definition sized_array (payload : Payload) (field : string) (least most : nat) : decoded (list V) :=
  ok_or (values ← get_field payload field ≫= as_array;
         if (least <=? length values)%nat && (length values <=? most)%nat then Some values else None)
    (DecodeInvalidField field).

Definition workflow_rule (value : V) : decoded WorkflowRule :=
  let? rule := object_of "rules" value in
  let? field := string_field rule "field" in
  let? field := map_err (λ _, DecodeInvalidField "field") (field_try_from_str field) in
  let? operator := string_field rule "operator" in
  let? operator := map_err (λ _, DecodeInvalidField "operator") (operator_try_from_str operator) in
  let? value := string_field rule "value" in
  map_err (λ _, DecodeInvalidField "rules") (WorkflowRule_try_new field operator value).

Definition workflow_step (value : V) : decoded WorkflowStepDefinition :=
  let? step := object_of "steps" value in
  let? rules := sized_array step "rules" 1 8 in
  let? rules := collect workflow_rule rules in
  let? id := string_field step "id" in
  let? display_name := string_field step "displayName" in
  let? icon := string_field step "icon" in
  let? color := unsigned step "colorRgb" in
  let? color := narrow U32_MAX "colorRgb" color in
  let? order := positive_unsigned step "sortOrder" in
  let? order := narrow U16_MAX "sortOrder" order in
  let? archived := boolean step "archived" in
  map_err (λ _, DecodeInvalidField "steps") (WorkflowStepDefinition_try_new id display_name icon color order archived rules).

Definition workflow_steps (payload : Payload) : decoded (list WorkflowStepDefinition) :=
  let? values := sized_array payload "steps" 3 12 in
  collect workflow_step values.

Definition positive_number (field : string) (value : V) : decoded Z :=
  ok_or (number ← as_u64 value; if 0 <? number then Some number else None) (DecodeInvalidField field).

Definition u64_array (payload : Payload) (field : string) : decoded (list Z) :=
  let? values := array_field payload field in
  let? _ := refuse (20000 <? Z.of_nat (length values)) (DecodeInvalidField field) in
  let? converted := collect (positive_number field) values in
  let? _ := refuse (negb (size (list_to_set converted : gset Z) =? length converted)%nat) (DecodeInvalidField field) in
  Ok converted.

Definition library_limit (value : Z) : decoded Z :=
  let? limit := narrow U16_MAX "limit" value in
  if (limit =? 0) || (200 <? limit) then invalid "limit" else Ok limit.

Definition library_search (payload : Payload) : decoded str :=
  let search := default [] (optional_string payload "search") in
  if 200 <? str_len search then invalid "search" else Ok search.

Definition sort_field (text : str) : decoded LibraryTrackSortField :=
  match_text text
    [("playlist", Ok SortPlaylist); ("title", Ok SortTitle); ("artist", Ok SortArtist); ("bpm", Ok SortBpm);
     ("key", Ok SortKey); ("duration", Ok SortDuration); ("usbSources", Ok SortUsbSources);
     ("timelineRevision", Ok SortTimelineRevision); ("readiness", Ok SortReadiness);
     ("preparationStatus", Ok SortPreparationStatus); ("attention", Ok SortAttention);
     ("sourceTrackID", Ok SortSourceTrackId); ("analysisRevision", Ok SortAnalysisRevision)]
    (invalid "sortBy").

Definition sort_direction (text : str) : decoded LibraryTrackSortDirection :=
  match_text text [("ascending", Ok SortAscending); ("descending", Ok SortDescending)] (invalid "sortDirection").

Definition library_sort (payload : Payload) : decoded LibraryTrackSort :=
  let? field := sort_field (default (lit "playlist") (optional_string payload "sortBy")) in
  let? direction := sort_direction (default (lit "ascending") (optional_string payload "sortDirection")) in
  Ok (mkLibraryTrackSort field direction).

Definition workflow_filter (payload : Payload) : decoded (option TrackWorkflowFilter) :=
  match optional_string payload "workflowFilter" with
  | None => Ok None
  | Some text =>
      let? f := map_err (λ _, DecodeInvalidField "workflowFilter") (filter_try_from_str text) in Ok (Some f)
  end.

Definition planning_policy (payload : Payload) : decoded LightPlanningPolicy :=
  let? value := ok_or (get_field payload "policy") (DecodeInvalidField "policy") in
  ok_or (planning_policy_of value) (DecodeInvalidField "policy").

Definition launch_policy_field (payload : Payload) (field : string) : decoded LaunchPolicy :=
  let? value := ok_or (get_field payload field) (DecodeInvalidField field) in
  ok_or (launch_policy_of value) (DecodeInvalidField field).

Definition preview_theme_id (payload : Payload) : decoded (option Z) :=
  let? theme := optional_unsigned payload "themeId" in
  match theme with
  | Some value => if value =? 0 then invalid "themeId" else Ok (Some value)
  | None => Ok None
  end.

Definition deck_source (payload : Payload) : decoded DeckSourceSelection :=
  let? mode := string_field payload "mode" in
  match_text mode [("connectedDecks", Ok SelectConnectedDecks); ("localPlayback", Ok SelectLocalPlayback)] (invalid "mode").

(** ** The kinds *)

Definition track_and_revision (make : Z → Z → SessionCommand) (revision : string) (p : Payload) : decoded SessionCommand :=
  let? track := positive_unsigned p "trackId" in
  let? revision := positive_unsigned p revision in
  Ok (make track revision).

Definition track_versions (make : Z → Z → Z → SessionCommand) (p : Payload) : decoded SessionCommand :=
  let? source := positive_unsigned p "sourceTrackId" in
  let? target := positive_unsigned p "targetTrackId" in
  let? revision := positive_unsigned p "expectedTargetRevision" in
  Ok (make source target revision).

Definition library_arms : list (string * (Payload → decoded SessionCommand)) :=
  [("getSnapshot", λ p, let? include := optional_boolean p "includeLibrary" in Ok (GetSnapshot (default true include)));
   ("queryLibrary", λ p,
      let? search := library_search p in
      let? playlist := optional_unsigned p "playlistId" in
      let? filter := workflow_filter p in
      let? offset := optional_unsigned p "offset" in
      let? offset := narrow U32_MAX "offset" (default 0 offset) in
      let? limit := optional_unsigned p "limit" in
      let? limit := library_limit (default 50 limit) in
      let? sort := library_sort p in
      Ok (QueryLibrary search playlist filter (optional_string p "workflowStepId") offset limit sort));
   ("openLibraryTrackEditor", λ p, let? track := positive_unsigned p "trackId" in Ok (OpenLibraryTrackEditor track));
   ("setTrackPreparationStatus", λ p,
      let? track := positive_unsigned p "trackId" in
      let? revision := unsigned p "expectedRevision" in
      let? status := string_field p "status" in
      let? status := map_err (λ _, DecodeInvalidField "status") (status_try_from_str status) in
      Ok (SetTrackPreparationStatus track revision status));
   ("assignTrackWorkflowStep", λ p,
      let? track := positive_unsigned p "trackId" in
      let? revision := unsigned p "expectedRevision" in
      let? step := string_field p "stepId" in
      Ok (AssignTrackWorkflowStep track revision step));
   ("setTrackPhraseProtection", λ p,
      let? track := positive_unsigned p "trackId" in
      let? revision := unsigned p "expectedRevision" in
      let? locked := boolean p "locked" in
      Ok (SetTrackPhraseProtection track revision locked));
   ("replaceTrackWorkflowCatalog", λ p,
      let? revision := unsigned p "expectedRevision" in
      let? steps := workflow_steps p in
      Ok (ReplaceTrackWorkflowCatalog revision steps));
   ("resolveTrackWorkflowAttention", track_and_revision ResolveTrackWorkflowAttention "expectedRevision");
   ("reuseLibraryTimeline", track_versions ReuseLibraryTimeline);
   ("keepTrackVersionSeparate", track_versions KeepTrackVersionSeparate);
   ("getLibraryTrackWaveform", λ p, let? track := positive_unsigned p "trackId" in Ok (GetLibraryTrackWaveform track));
   ("closeLibraryTrackEditor", λ _, Ok CloseLibraryTrackEditor);
   ("previewDemoSourceRefresh", λ _, Ok PreviewDemoSourceRefresh);
   ("previewLibraryReset", λ p, let? tracks := u64_array p "preserveTrackIds" in Ok (PreviewLibraryReset tracks));
   ("applyLibraryReset", λ p,
      let? token := string_field p "expectedResetToken" in
      let? path := string_field p "backupDatabasePath" in
      Ok (ApplyLibraryReset token path));
   ("createLibraryBackup", λ p, let? destination := string_field p "destination" in Ok (CreateLibraryBackup destination));
   ("restoreLibraryBackup", λ p,
      let? source := string_field p "source" in
      let? rollback := string_field p "rollback" in
      Ok (RestoreLibraryBackup source rollback));
   ("reconcileLibrarySource", λ p,
      let? track := positive_unsigned p "trackId" in
      let? revision := positive_unsigned p "expectedTimelineRevision" in
      let? strategy := reconcile_strategy p in
      Ok (ReconcileLibrarySource track revision strategy));
   ("editLibraryTimeline", λ p,
      let? track := positive_unsigned p "trackId" in
      let? revision := positive_unsigned p "expectedTimelineRevision" in
      let? command := timeline_edit p in
      Ok (EditLibraryTimeline track revision command));
   ("setLibraryPhraseLoopStrategy", λ p,
      let? track := positive_unsigned p "trackId" in
      let? timeline := positive_unsigned p "expectedTimelineRevision" in
      let? catalog := positive_unsigned p "expectedAutoloopCatalogRevision" in
      let? index := phrase_index p in
      let? strategy := phrase_loop_strategy p in
      Ok (SetLibraryPhraseLoopStrategy track timeline catalog index strategy));
   ("undoLibraryTimeline", track_and_revision UndoLibraryTimeline "expectedTimelineRevision");
   ("redoLibraryTimeline", track_and_revision RedoLibraryTimeline "expectedTimelineRevision");
   ("restoreLibraryTimelineRevision", λ p,
      let? track := positive_unsigned p "trackId" in
      let? revision := positive_unsigned p "expectedTimelineRevision" in
      let? target := positive_unsigned p "targetTimelineRevision" in
      Ok (RestoreLibraryTimelineRevision track revision target));
   ("mutatePhraseRoleCatalog", λ p,
      let? revision := positive_unsigned p "expectedPhraseRoleRevision" in
      let? mutation := phrase_role_mutation p in
      Ok (MutatePhraseRoleCatalog revision mutation));
   ("mutateAutoloopCatalog", λ p,
      let? revision := positive_unsigned p "expectedAutoloopCatalogRevision" in
      let? mutation := autoloop_catalog_mutation p in
      Ok (MutateAutoloopCatalog revision mutation));
   ("replaceLightPlanningPolicy", λ p,
      let? revision := positive_unsigned p "expectedLightPlanningRevision" in
      let? policy := planning_policy p in
      Ok (ReplaceLightPlanningPolicy revision policy));
   ("previewLightPlan", λ p,
      let? track := positive_unsigned p "trackId" in
      let? revision := positive_unsigned p "expectedTimelineRevision" in
      let? theme := preview_theme_id p in
      let? seed := positive_unsigned p "variationSeed" in
      let? policy := planning_policy p in
      Ok (PreviewLightPlan track revision theme seed policy))].

Definition output_arms : list (string * (Payload → decoded SessionCommand)) :=
  [("publishMidiSource", λ _, Ok PublishMidiSource);
   ("stopMidiSource", λ _, Ok StopMidiSource);
   ("setAbletonLinkEnabled", λ p, let? enabled := boolean p "enabled" in Ok (SetAbletonLinkEnabled enabled));
   ("testAbletonLinkHelper", λ _, Ok TestAbletonLinkHelper);
   ("setOutputTimingOffset", λ p,
      let? millis := signed_field p "millis" in
      if negb (in_range (-250) 250 millis) then invalid "millis" else Ok (SetOutputTimingOffset millis));
   ("setLaunchPolicy", λ p,
      let? policy := launch_policy_field p "policy" in
      let? expected := launch_policy_field p "expectedPolicy" in
      Ok (SetLaunchPolicy policy expected));
   ("sendMidiLearnPulse", λ _, Ok SendMidiLearnPulse);
   ("sendMidiAddressLearnPulse", λ p, let? address := midi_address p in Ok (SendMidiAddressLearnPulse address));
   ("triggerMidiAutoloop", λ p,
      let? bank := midi_number p "bankNumber" 4 in
      let? autoloop := midi_number p "autoloopNumber" 32 in
      Ok (TriggerMidiAutoloop bank autoloop));
   ("triggerMidiStaticLook", λ p,
      let? look := midi_number p "staticLookNumber" 32 in Ok (TriggerMidiStaticLook look))].

Definition deck_arms : list (string * (Payload → decoded SessionCommand)) :=
  [("loadLibraryTrackOnLocalDeck", λ p,
      let? track := positive_unsigned p "trackId" in
      let? deck := deck_id_field p in
      let? timeline := positive_unsigned p "expectedTimelineRevision" in
      let? revision := state_revision p in
      Ok (LoadLibraryTrackOnLocalDeck track deck timeline revision));
   ("updateLocalPlaybackTransport", λ p,
      let? deck := deck_id_field p in
      let? load := positive_unsigned p "trackLoadId" in
      let? position := unsigned p "positionMillis" in
      let? playing := boolean p "playing" in
      Ok (UpdateLocalPlaybackTransport deck load position playing));
   ("setLocalPlaybackLeader", λ p,
      let? deck := deck_id_field p in
      let? revision := state_revision p in
      Ok (SetLocalPlaybackLeader deck revision));
   ("selectDeckSourceMode", λ p,
      let? mode := deck_source p in
      let? revision := state_revision p in
      Ok (SelectDeckSourceMode mode revision));
   ("loadDemoSession", λ p, let? revision := state_revision p in Ok (LoadDemoSession revision));
   ("setOperationState", λ p,
      let? revision := state_revision p in
      let? state := string_field p "operationState" in
      let? command := operation_command state in
      Ok (SetOperationState revision command));
   ("setSimulationSpeed", λ p,
      let? revision := state_revision p in
      let? value := unsigned p "speed" in
      let? speed := simulation_speed value in
      Ok (SetSimulationSpeed revision speed));
   ("setSimulationPlayback", λ p,
      let? revision := state_revision p in
      let? playing := boolean p "playing" in
      Ok (SetSimulationPlayback revision playing));
   ("advanceSimulation", λ p,
      let? revision := state_revision p in
      let? ticks := elapsed_ticks p in
      Ok (AdvanceSimulation revision ticks));
   ("advanceToNextTrack", λ p, let? revision := state_revision p in Ok (AdvanceToNextTrack revision))].

Definition plan_arms : list (string * (Payload → decoded SessionCommand)) :=
  [("selectTheme", λ p,
      let? context := context p in
      let? theme := unsigned p "themeId" in
      Ok (SelectTheme context theme));
   ("selectThemeFromPhrase", λ p,
      let? context := context p in
      let? index := phrase_index p in
      let? theme := unsigned p "themeId" in
      Ok (SelectThemeFromPhrase context index theme));
   ("selectScene", λ p,
      let? context := context p in
      let? index := phrase_index p in
      let? scene := unsigned p "sceneId" in
      Ok (SelectScene context index scene));
   ("changePhraseRole", λ p,
      let? context := context p in
      let? index := phrase_index p in
      let? role := phrase_role_id p in
      Ok (ChangePhraseRole context index role));
   ("setCueLock", λ p,
      let? context := context p in
      let? index := phrase_index p in
      let? locked := boolean p "locked" in
      Ok (SetCueLock context index locked));
   ("regeneratePlan", λ p, let? context := context p in Ok (RegeneratePlan context));
   ("resetDemoSession", λ p, let? revision := state_revision p in Ok (ResetDemoSession revision))].

Definition command_arms : list (string * (Payload → decoded SessionCommand)) :=
  library_arms ++ output_arms ++ deck_arms ++ plan_arms.

Definition decode_command (envelope : MessageEnvelope Payload) : decoded SessionCommand :=
  match env_message_type _ envelope with
  | MsgCommand =>
      let? kind := string_field (env_payload _ envelope) "kind" in
      match_text kind command_arms (λ _, Err DecodeUnsupportedKind) (env_payload _ envelope)
  | _ => Err DecodeWrongMessageType
  end.
End Decode.
