(* ===== verification/SessionCommandsProps.v ===== *)
(** * Commands of the session: properties of their decoding

    A message becomes a command only when every field is within the bounds of its use: what
    the decoder gives is a well-formed command.  The converse, a message for every
    well-formed command, is in CommandMessages. *)

From stdpp Require Import prelude list gmap sets strings.
From Stdlib Require Import ZArith Lia.
From S2P Require Import Prelude.
From S2P Require Import Track.
From S2P Require Import Event.
From S2P Require Import LightPlans.
From S2P Require Import PhraseTimeline.
From S2P Require Import Protocol.
From S2P Require Import Midi.
From S2P Require Import LibrarySource.
From S2P Require Import Reconciliation.
From S2P Require Import PhraseRoles.
From S2P Require Import PhraseRolesProps.
From S2P Require Import Workflow.
From S2P Require Import AutoloopCatalog.
From S2P Require Import LaunchPolicy.
From S2P Require Import Float64.
From S2P Require Import SessionCommands.
Open Scope Z_scope.

(** ** Well-formed commands *)

Definition positive_ok (n : Z) : Prop := 0 < n ∧ in_u64 n.

Definition given (s : str) : Prop := s ≠ [].

Definition text_id_ok (s : str) : Prop := str_is_blank s = false ∧ str_len s ≤ 255.

Definition plan_context_ok (x : PlanCommandContext) : Prop :=
  positive_ok (pcx_plan_id x) ∧ positive_ok (pcx_track_load_id x) ∧ positive_ok (pcx_expected_revision x).

Definition rule_ok (r : WorkflowRule) : Prop :=
  given (wr_value r) ∧ WorkflowRule_try_new (wr_field r) (wr_operator r) (wr_value r) = Ok r.

Record step_ok (s : WorkflowStepDefinition) : Prop := {
  so_name : given (wsd_id s) ∧ given (wsd_display_name s) ∧ given (wsd_icon s);
  so_numbers : in_u32 (wsd_color_rgb s) ∧ 0 < wsd_sort_order s ∧ in_u16 (wsd_sort_order s);
  so_rules : (1 ≤ length (wsd_rules s) ≤ 8)%nat ∧ Forall rule_ok (wsd_rules s);
  so_valid : WorkflowStepDefinition_try_new (wsd_id s) (wsd_display_name s) (wsd_icon s) (wsd_color_rgb s)
    (wsd_sort_order s) (wsd_archived s) (wsd_rules s) = Ok s;
}.

Definition reconcile_ok (s : ReconcileStrategy) : Prop :=
  match s with
  | Merge choices => Z.of_nat (length choices) ≤ 10000 ∧ Forall (λ c, in_u16 (pcc_phrase_index c)) choices
  | _ => True
  end.

Definition edit_ok (e : TimelineEditCommand) : Prop :=
  match e with
  | CmdCreate start finish role => in_u32 start ∧ in_u32 finish ∧ text_id_ok role
  | CmdSplit index beat | CmdMoveBoundary index beat => in_u16 index ∧ in_u32 beat
  | CmdMergePrevious index | CmdMergeNext index | CmdDelete index _ => in_u16 index
  | CmdChangeRole index role => in_u16 index ∧ text_id_ok role
  | CmdSetLoopStrategy _ _ => False
  end.

Definition loop_strategy_ok (s : PhraseLoopStrategy) : Prop :=
  match s with
  | StrategyAuto => True
  | StrategyFixedVariant variant => text_id_ok variant
  | StrategyThemeSpecificExact overrides =>
      Forall (λ o, positive_ok (tsv_theme_id o) ∧ text_id_ok (tsv_variant_id o)) overrides
  end.

Definition role_mutation_ok (m : PhraseRoleCatalogMutation) : Prop :=
  match m with
  | RoleAdd name => given name
  | RoleRename role name => text_id_ok role ∧ given name
  | RoleMove role _ | RoleSetArchived role _ => text_id_ok role
  | RoleSetColor role color => text_id_ok role ∧ in_u32 color
  | RoleSetSourceMapping provider label role => given provider ∧ given label ∧ text_id_ok role
  end.

Definition button_ok (n : Z) : Prop := 0 < n ∧ in_u16 n.

Definition autoloop_mutation_ok (m : AutoloopCatalogMutation) : Prop :=
  match m with
  | MutRenameTheme theme name => positive_ok theme ∧ given name
  | MutAddVariant role name => text_id_ok role ∧ given name
  | MutRenameVariant role variant name => text_id_ok role ∧ text_id_ok variant ∧ given name
  | MutMoveVariant role variant _ | MutSetVariantArchived role variant _ => text_id_ok role ∧ text_id_ok variant
  | MutSetCell theme role variant _ => positive_ok theme ∧ text_id_ok role ∧ text_id_ok variant
  | MutSetButton theme button role _ => positive_ok theme ∧ button_ok button ∧ text_id_ok role
  | MutClearButton theme button => positive_ok theme ∧ button_ok button
  end.

Definition local_deck_ok (n : Z) : Prop := 0 < n ∧ in_u8 n.

Definition session_command_ok (c : SessionCommand) : Prop :=
  match c with
  | QueryLibrary search playlist _ _ offset limit _ =>
      str_len search ≤ 200 ∧ from_option in_u64 True playlist ∧ in_u32 offset ∧ 1 ≤ limit ≤ 200
  | OpenLibraryTrackEditor track | GetLibraryTrackWaveform track => positive_ok track
  | SetTrackPreparationStatus track revision _ | SetTrackPhraseProtection track revision _ =>
      positive_ok track ∧ in_u64 revision
  | AssignTrackWorkflowStep track revision step => positive_ok track ∧ in_u64 revision ∧ given step
  | ReplaceTrackWorkflowCatalog revision steps =>
      in_u64 revision ∧ (3 ≤ length steps ≤ 12)%nat ∧ Forall step_ok steps
  | ResolveTrackWorkflowAttention track revision | UndoLibraryTimeline track revision
  | RedoLibraryTimeline track revision => positive_ok track ∧ positive_ok revision
  | PreviewLibraryReset tracks => Z.of_nat (length tracks) ≤ 20000 ∧ NoDup tracks ∧ Forall positive_ok tracks
  | ApplyLibraryReset first second | RestoreLibraryBackup first second => given first ∧ given second
  | CreateLibraryBackup destination => given destination
  | ReconcileLibrarySource track revision strategy => positive_ok track ∧ positive_ok revision ∧ reconcile_ok strategy
  | EditLibraryTimeline track revision command => positive_ok track ∧ positive_ok revision ∧ edit_ok command
  | SetLibraryPhraseLoopStrategy track timeline catalog index strategy =>
      positive_ok track ∧ positive_ok timeline ∧ positive_ok catalog ∧ in_u16 index ∧ loop_strategy_ok strategy
  | RestoreLibraryTimelineRevision a b c | ReuseLibraryTimeline a b c | KeepTrackVersionSeparate a b c =>
      positive_ok a ∧ positive_ok b ∧ positive_ok c
  | MutatePhraseRoleCatalog revision mutation => positive_ok revision ∧ role_mutation_ok mutation
  | MutateAutoloopCatalog revision mutation => positive_ok revision ∧ autoloop_mutation_ok mutation
  | ReplaceLightPlanningPolicy revision _ => positive_ok revision
  | PreviewLightPlan track revision theme seed _ =>
      positive_ok track ∧ positive_ok revision ∧ from_option positive_ok True theme ∧ positive_ok seed
  | SetOutputTimingOffset millis => -250 ≤ millis ≤ 250
  | SendMidiAddressLearnPulse address => MadeAddress address
  | TriggerMidiAutoloop bank autoloop => 1 ≤ bank ≤ 4 ∧ 1 ≤ autoloop ≤ 32
  | TriggerMidiStaticLook look => 1 ≤ look ≤ 32
  | LoadLibraryTrackOnLocalDeck track deck timeline revision =>
      positive_ok track ∧ local_deck_ok deck ∧ positive_ok timeline ∧ in_u64 revision
  | UpdateLocalPlaybackTransport deck load position _ => local_deck_ok deck ∧ positive_ok load ∧ in_u64 position
  | SetLocalPlaybackLeader deck revision => local_deck_ok deck ∧ in_u64 revision
  | SelectDeckSourceMode _ revision | LoadDemoSession revision | SetOperationState revision _
  | SetSimulationSpeed revision _ | SetSimulationPlayback revision _ | AdvanceToNextTrack revision
  | ResetDemoSession revision => in_u64 revision
  | AdvanceSimulation revision ticks => in_u64 revision ∧ 1 ≤ ticks ≤ 1000
  | SelectTheme x theme => plan_context_ok x ∧ in_u64 theme
  | SelectThemeFromPhrase x index id | SelectScene x index id => plan_context_ok x ∧ in_u16 index ∧ in_u64 id
  | ChangePhraseRole x index role => plan_context_ok x ∧ in_u16 index ∧ text_id_ok role
  | SetCueLock x index _ => plan_context_ok x ∧ in_u16 index
  | RegeneratePlan x => plan_context_ok x
  | _ => True
  end.

(** ** Values of the JSON library *)

(** What [serde_json] documents of its values: the accessors give back what a value was made
    of, and [as_u64] is an integer of 64 bits. *)
Class JsonLaws (V : Type) `{!JsonValue V} := {
  of_str : str → V;
  of_u64 : Z → V;
  of_i64 : Z → V;
  of_bool : bool → V;
  of_array : list V → V;
  of_object : gmap str V → V;
  of_planning_policy : LightPlanningPolicy → V;
  of_launch_policy : LaunchPolicy → V;
  as_of_str s : as_str (of_str s) = Some s;
  as_of_u64 n : in_u64 n → as_u64 (of_u64 n) = Some n;
  u64_not_null n : is_null (of_u64 n) = false;
  as_of_i64 n : -2 ^ 63 ≤ n < 2 ^ 63 → as_i64 (of_i64 n) = Some n;
  as_of_bool b : as_bool (of_bool b) = Some b;
  as_of_array l : as_array (of_array l) = Some l;
  as_of_object m : as_object (of_object m) = Some m;
  planning_policy_of_made p : planning_policy_of (of_planning_policy p) = Some p;
  launch_policy_of_made p : launch_policy_of (of_launch_policy p) = Some p;
  as_u64_range v n : as_u64 v = Some n → in_u64 n;
}.

Lemma match_text_case {A B} (text : str) (arms : list (string * (A → B))) (otherwise : A → B) x r (P : Prop) :
  match_text text arms otherwise x = r → (otherwise x = r → P) →
  Forall (λ arm : string * (A → B), arm.2 x = r → P) arms → P.
Proof.
  intros H Ho Ha. induction arms as [|[pattern arm] arms IH]; [by apply Ho|]. cbn [match_text] in H.
  apply Forall_cons in Ha as [Hx Ha]. case_bool_decide; [by apply Hx|by apply IH].
Qed.

Lemma size_list_to_set_nodup (l : list Z) : size (list_to_set l : gset Z) = length l → NoDup l.
Proof.
  induction l as [|x l IH]; [constructor|]. cbn [list_to_set length]. intros H.
  assert (Hle : (size (list_to_set l : gset Z) ≤ length l)%nat).
  { clear. induction l as [|y l IH]; [done|]. cbn [list_to_set length]. pose proof (size_union_alt {[y]} (list_to_set l : gset Z)) as E.
    rewrite size_singleton in E. pose proof (subseteq_size (list_to_set l ∖ {[y]} : gset Z) (list_to_set l) ltac:(set_solver)). lia. }
  destruct (decide (x ∈ (list_to_set l : gset Z))) as [Hin|Hin].
  - rewrite (subseteq_union_1_L {[x]} (list_to_set l)) in H by set_solver. lia.
  - rewrite size_union in H by set_solver. rewrite size_singleton in H. constructor; [by rewrite elem_of_list_to_set in Hin|]. apply IH. lia.
Qed.

Section Sound.
Context {V : Type} `{!JsonValue V} `{!JsonLaws V}.

Notation Payload := (gmap str V).

(** ** What the fields can be *)

Lemma string_field_Ok (p : Payload) f s : string_field p f = Ok s → given s.
Proof.
  unfold string_field. rewrite ok_or_Ok. destruct (get_field p f) as [v|]; [|done]. cbn [mbind option_bind].
  destruct (as_str v) as [t|]; [|done]. cbn [mbind option_bind]. case_bool_decide as E; [done|]. by intros [= <-].
Qed.

Lemma unsigned_Ok (p : Payload) f n : unsigned p f = Ok n → in_u64 n.
Proof. unfold unsigned. rewrite ok_or_Ok. destruct (get_field p f) as [v|]; [|done]. apply as_u64_range. Qed.

Lemma positive_unsigned_Ok (p : Payload) f n : positive_unsigned p f = Ok n → positive_ok n.
Proof.
  unfold positive_unsigned. intros H. apply result_bind_Ok in H as (v & Hv & H). apply unsigned_Ok in Hv.
  destruct (Z.eqb_spec v 0); [done|]. injection H as <-. split; [|done]. destruct Hv. lia.
Qed.

Lemma narrow_Ok maximum f n m : narrow maximum f n = Ok m → m = n ∧ n ≤ maximum.
Proof. unfold narrow. destruct (Z.leb_spec n maximum); [|done]. by intros [= <-]. Qed.

Lemma optional_unsigned_Ok (p : Payload) f o : optional_unsigned p f = Ok o → from_option in_u64 True o.
Proof.
  unfold optional_unsigned. destruct (get_field p f) as [v|]; [|by intros [= <-]]. destruct (is_null v); [by intros [= <-]|].
  intros H. apply result_bind_Ok in H as (n & Hn & H). apply ok_or_Ok, as_u64_range in Hn. by injection H as <-.
Qed.

Lemma text_identifier_Ok label s r : text_identifier_try_new label s = Ok r → r = s ∧ text_id_ok s.
Proof.
  unfold text_identifier_try_new. destruct (str_is_blank s) eqn:E; [done|]. destruct (Z.ltb_spec 255 (str_len s)); [done|].
  intros [= <-]. done.
Qed.

Lemma phrase_role_id_Ok (p : Payload) r : phrase_role_id p = Ok r → text_id_ok r.
Proof.
  unfold phrase_role_id. intros H. apply result_bind_Ok in H as (s & _ & H). apply map_err_Ok, text_identifier_Ok in H as [-> H]. done.
Qed.

Lemma variant_id_Ok (p : Payload) r : variant_id p = Ok r → text_id_ok r.
Proof.
  unfold variant_id. intros H. apply result_bind_Ok in H as (s & _ & H). apply map_err_Ok, text_identifier_Ok in H as [-> H]. done.
Qed.

Lemma phrase_index_Ok (p : Payload) n : phrase_index p = Ok n → in_u16 n.
Proof.
  unfold phrase_index. intros H. apply result_bind_Ok in H as (v & Hv & H). apply unsigned_Ok in Hv.
  apply narrow_Ok in H as [-> ?]. destruct Hv. by split.
Qed.

Lemma timeline_beat_Ok (p : Payload) f n : timeline_beat p f = Ok n → in_u32 n.
Proof.
  unfold timeline_beat. intros H. apply result_bind_Ok in H as (v & Hv & H). apply unsigned_Ok in Hv.
  apply narrow_Ok in H as [-> ?]. destruct Hv. by split.
Qed.

Lemma deck_id_Ok (p : Payload) n : deck_id_field p = Ok n → local_deck_ok n.
Proof.
  unfold deck_id_field. intros H. apply result_bind_Ok in H as (v & Hv & H). apply positive_unsigned_Ok in Hv as [? [? ?]].
  apply narrow_Ok in H as [-> ?]. by repeat split; lia.
Qed.

Lemma button_number_Ok (p : Payload) n : button_number p = Ok n → button_ok n.
Proof.
  unfold button_number. intros H. apply result_bind_Ok in H as (v & Hv & H). apply positive_unsigned_Ok in Hv as [? [? ?]].
  apply narrow_Ok in H as [-> ?]. by repeat split; lia.
Qed.

Lemma midi_number_Ok (p : Payload) f maximum n : midi_number p f maximum = Ok n → 1 ≤ n ≤ maximum.
Proof.
  unfold midi_number. intros H. apply result_bind_Ok in H as (v & Hv & H). apply positive_unsigned_Ok in Hv as [? [? ?]].
  apply result_bind_Ok in H as (m & Hm & H). apply narrow_Ok in Hm as [-> ?].
  destruct (Z.leb_spec v maximum); [|done]. injection H as <-. lia.
Qed.

Lemma context_Ok (p : Payload) x : context p = Ok x → plan_context_ok x.
Proof.
  unfold context. intros H. apply result_bind_Ok in H as (t & _ & H). apply result_bind_Ok in H as (plan & Hp & H).
  apply result_bind_Ok in H as (load & Hl & H). apply unsigned_Ok in Hl. apply result_bind_Ok in H as (rev & Hr & H). apply unsigned_Ok in Hr.
  apply ok_or_Ok in Hp. destruct (_ || _) eqn:E; [done|]. injection H as <-.
  apply orb_false_iff in E as [E E3]. apply orb_false_iff in E as [E1 E2]. apply Z.eqb_neq in E1, E2, E3.
  assert (in_u64 plan) by (by eapply parse_unsigned_range). unfold plan_context_ok, positive_ok, in_u64 in *. cbn. lia.
Qed.

Lemma collect_Forall {A B E} (f : A → result B E) (P : B → Prop) l k :
  (∀ x y, f x = Ok y → P y) → collect f l = Ok k → length k = length l ∧ Forall P k.
Proof.
  intros Hf Hc. split; [by eapply collect_length|]. apply Forall_forall. intros y Hy.
  apply list_elem_of_lookup in Hy as [i Hi]. destruct (collect_lookup _ _ _ _ _ Hc Hi) as (x & _ & Hx). by eapply Hf.
Qed.

Lemma midi_address_Ok (p : Payload) a : midi_address p = Ok a → MadeAddress a.
Proof.
  unfold midi_address. intros H. apply result_bind_Ok in H as (kind & _ & H). apply result_bind_Ok in H as (raw & Hraw & H).
  apply result_bind_Ok in H as (n & Hn & H). apply narrow_Ok in Hn as [-> Hmax].
  assert (Hr : in_u64 raw).
  { destruct (bool_decide _); [by eapply unsigned_Ok|]. by apply positive_unsigned_Ok in Hraw as [_ ?]. }
  apply result_bind_Ok in H as (o & Ho & H). apply ok_or_Ok in H as ->.
  eapply match_text_case; [exact Ho|done|]. repeat constructor; cbn [snd].
  - intros [= E]. by eapply made_bank.
  - intros E. apply result_bind_Ok in E as (b & _ & E). injection E as E. by eapply made_autoloop.
  - intros [= E]. by eapply made_static_look.
  - intros E. apply result_bind_Ok in E as (c & Hc & E). apply result_bind_Ok in E as (c' & Hc' & E). apply narrow_Ok in Hc' as [-> ?].
    injection E as E. apply positive_unsigned_Ok in Hc as [? [? ?]]. eapply made_custom; [| |exact E]; unfold in_u8, in_u64 in *; lia.
Qed.

Lemma workflow_rule_Ok (v : V) r : workflow_rule v = Ok r → rule_ok r.
Proof.
  unfold workflow_rule. intros H. do 5 (apply result_bind_Ok in H as (? & _ & H)).
  apply result_bind_Ok in H as (value & Hv & H). apply string_field_Ok in Hv. apply map_err_Ok in H.
  assert (E := H). unfold WorkflowRule_try_new in E. destruct (negb _); [done|]. injection E as <-. by split.
Qed.

Lemma sized_array_Ok (p : Payload) f least most l : sized_array p f least most = Ok l → (least ≤ length l ≤ most)%nat.
Proof.
  unfold sized_array. rewrite ok_or_Ok. destruct (get_field p f ≫= as_array) as [vs|]; [|done]. cbn [mbind option_bind].
  destruct (_ && _) eqn:E; [|done]. intros [= <-]. apply andb_true_iff in E as [E1 E2]. apply Nat.leb_le in E1, E2. lia.
Qed.

(** Texts that were trimmed are accepted as they are. *)
Lemma workflow_step_Ok (v : V) s : workflow_step v = Ok s → step_ok s.
Proof.
  unfold workflow_step. intros H. apply result_bind_Ok in H as (o & _ & H).
  apply result_bind_Ok in H as (vs & Hvs & H). apply sized_array_Ok in Hvs.
  apply result_bind_Ok in H as (rules & Hrules & H). apply (collect_Forall _ rule_ok) in Hrules as [Hlen Hrules]; [|apply workflow_rule_Ok].
  apply result_bind_Ok in H as (id & Hid & H). apply string_field_Ok in Hid.
  apply result_bind_Ok in H as (name & _ & H). apply result_bind_Ok in H as (icon & _ & H).
  apply result_bind_Ok in H as (c & Hc & H). apply unsigned_Ok in Hc.
  apply result_bind_Ok in H as (c' & Hc' & H). apply narrow_Ok in Hc' as [-> Hcm].
  apply result_bind_Ok in H as (n & Hn & H). apply positive_unsigned_Ok in Hn as [Hn Hn64].
  apply result_bind_Ok in H as (n' & Hn' & H). apply narrow_Ok in Hn' as [-> Hnm].
  apply result_bind_Ok in H as (archived & _ & H). apply map_err_Ok in H.
  assert (E := H). unfold WorkflowStepDefinition_try_new in E. cbv zeta in E. destruct (_ || _) eqn:Ec; [done|].
  apply result_bind_Ok in E as (u & Er & E). injection E as <-. unfold in_u64 in *.
  split; cbn [wsd_id wsd_display_name wsd_icon wsd_color_rgb wsd_sort_order wsd_archived wsd_rules].
  - repeat rewrite orb_false_iff in Ec. destruct Ec as [[[[[[[[? Hd] ?] Hi] ?] ?] ?] ?] ?].
    apply bool_decide_eq_false in Hd, Hi. done.
  - unfold in_u32, in_u16. lia.
  - rewrite Hlen. split; [lia|done].
  - unfold WorkflowStepDefinition_try_new. cbv zeta. by rewrite !trim_idem, Ec, Er.
Qed.

Lemma u64_array_Ok (p : Payload) f l :
  u64_array p f = Ok l → Z.of_nat (length l) ≤ 20000 ∧ NoDup l ∧ Forall positive_ok l.
Proof.
  unfold u64_array. intros H. apply result_bind_Ok in H as (vs & _ & H). apply result_bind_Ok in H as ([] & Hl & H).
  apply refuse_Ok, Z.ltb_ge in Hl. apply result_bind_Ok in H as (k & Hk & H). apply result_bind_Ok in H as ([] & Hs & H).
  apply refuse_Ok, negb_false_iff, Nat.eqb_eq in Hs. injection H as <-.
  apply (collect_Forall _ positive_ok) in Hk as [Hlen Hk].
  - split_and!; [lia| |done]. by apply size_list_to_set_nodup.
  - intros v n. unfold positive_number. rewrite ok_or_Ok. destruct (as_u64 v) as [m|] eqn:E; [|done]. cbn [mbind option_bind].
    destruct (Z.ltb_spec 0 m); [|done]. intros [= <-]. split; [done|by eapply as_u64_range].
Qed.

Lemma narrowed_u32 (p : Payload) f v n : unsigned p f = Ok v → narrow U32_MAX f v = Ok n → in_u32 n.
Proof. intros Hv%unsigned_Ok [-> ?]%narrow_Ok. destruct Hv. by split. Qed.

(** Goes through the fields of a message that was decoded and learns what each can be. *)
Ltac learn H :=
  first
    [ apply positive_unsigned_Ok in H | apply unsigned_Ok in H | apply string_field_Ok in H
    | apply phrase_role_id_Ok in H | apply variant_id_Ok in H | apply phrase_index_Ok in H
    | apply timeline_beat_Ok in H | apply deck_id_Ok in H | apply button_number_Ok in H
    | apply midi_number_Ok in H | apply context_Ok in H | apply optional_unsigned_Ok in H
    | apply midi_address_Ok in H | apply u64_array_Ok in H | idtac ].
Ltac fields H :=
  repeat (let x := fresh "x" in let Hx := fresh "Hx" in apply result_bind_Ok in H as (x & Hx & H); learn Hx).
Ltac decoded H := fields H; injection H as <-; cbn; tauto.

Lemma variant_of_role_Ok (p : Payload) ids : variant_of_role p = Ok ids → text_id_ok ids.1 ∧ text_id_ok ids.2.
Proof. unfold variant_of_role. intros H. decoded H. Qed.

Lemma reconcile_strategy_Ok (p : Payload) s : reconcile_strategy p = Ok s → reconcile_ok s.
Proof.
  unfold reconcile_strategy. intros H. apply result_bind_Ok in H as (t & _ & H).
  eapply match_text_case; [exact H|done|]. repeat constructor; cbn [snd]; try by intros [= <-].
  unfold merge_strategy. intros E. apply result_bind_Ok in E as (vs & _ & E). apply result_bind_Ok in E as ([] & Hl & E).
  apply refuse_Ok, Z.ltb_ge in Hl. apply result_bind_Ok in E as (cs & Hc & E). injection E as <-.
  apply (collect_Forall _ (λ c, in_u16 (pcc_phrase_index c))) in Hc as [Hlen Hc]; [split; [lia|done]|].
  intros v c Hv. unfold conflict_choice in Hv. fields Hv. by injection Hv as <-.
Qed.

Lemma timeline_edit_Ok (p : Payload) e : timeline_edit p = Ok e → edit_ok e.
Proof.
  unfold timeline_edit. intros H. apply result_bind_Ok in H as (t & _ & H).
  eapply match_text_case; [exact H|done|]. repeat constructor; cbn [snd]; intros E; decoded E.
Qed.

Lemma phrase_loop_strategy_Ok (p : Payload) s : phrase_loop_strategy p = Ok s → loop_strategy_ok s.
Proof.
  unfold phrase_loop_strategy. intros H. apply result_bind_Ok in H as (t & _ & H).
  eapply match_text_case; [exact H|done|]. repeat constructor; cbn [snd]; intros E; [by injection E as <-|decoded E|].
  apply result_bind_Ok in E as (vs & _ & E). apply result_bind_Ok in E as (os & Ho & E). injection E as <-.
  apply (collect_Forall _ (λ o, positive_ok (tsv_theme_id o) ∧ text_id_ok (tsv_variant_id o))) in Ho as [_ Ho]; [done|].
  intros v o Hv. unfold theme_override in Hv. fields Hv. injection Hv as <-. cbn. tauto.
Qed.

Lemma phrase_role_mutation_Ok (p : Payload) m : phrase_role_mutation p = Ok m → role_mutation_ok m.
Proof.
  unfold phrase_role_mutation. intros H. apply result_bind_Ok in H as (t & _ & H).
  eapply match_text_case; [exact H|done|]. repeat constructor; cbn [snd]; intros E; try decoded E.
  apply result_bind_Ok in E as (role & Hr & E). learn Hr. apply result_bind_Ok in E as (v & Hv & E).
  apply result_bind_Ok in E as (c & Hc & E). injection E as <-. split; [done|by eapply narrowed_u32].
Qed.

Lemma autoloop_catalog_mutation_Ok (p : Payload) m : autoloop_catalog_mutation p = Ok m → autoloop_mutation_ok m.
Proof.
  unfold autoloop_catalog_mutation, theme_id_field. intros H. apply result_bind_Ok in H as (t & _ & H).
  eapply match_text_case; [exact H|done|]. repeat constructor; cbn [snd]; intros E; fields E; injection E as <-;
    repeat match goal with H : variant_of_role p = Ok _ |- _ => apply variant_of_role_Ok in H as [? ?] end; cbn; tauto.
Qed.

Lemma workflow_steps_Ok (p : Payload) l : workflow_steps p = Ok l → (3 ≤ length l ≤ 12)%nat ∧ Forall step_ok l.
Proof.
  unfold workflow_steps. intros H. apply result_bind_Ok in H as (vs & Hs & H). apply sized_array_Ok in Hs.
  apply (collect_Forall _ step_ok) in H as [Hlen H]; [split; [lia|done]|apply workflow_step_Ok].
Qed.

Lemma query_Ok (p : Payload) search playlist filter o offset l limit step sort :
  library_search p = Ok search → optional_unsigned p "playlistId" = Ok playlist →
  optional_unsigned p "offset" = Ok o → narrow U32_MAX "offset" (default 0 o) = Ok offset →
  optional_unsigned p "limit" = Ok l → library_limit (default 50 l) = Ok limit →
  session_command_ok (QueryLibrary search playlist filter step offset limit sort).
Proof.
  unfold library_search. intros Hs Hp%optional_unsigned_Ok Ho%optional_unsigned_Ok [-> ?]%narrow_Ok Hl%optional_unsigned_Ok Hlim.
  destruct (Z.ltb_spec 200 (str_len (default [] (optional_string p "search")))); [done|]. injection Hs as <-.
  unfold library_limit in Hlim. apply result_bind_Ok in Hlim as (m & [-> Hm]%narrow_Ok & Hlim).
  destruct (_ || _) eqn:E; [done|]. injection Hlim as <-. apply orb_false_iff in E as [E1 E2].
  apply Z.eqb_neq in E1. apply Z.ltb_ge in E2. cbn. split_and!; try done.
  - destruct o as [v|]; cbn in *; [destruct Ho; by split|by vm_compute].
  - destruct l as [v|]; cbn in *; [unfold in_u64 in Hl; lia|lia].
Qed.

Lemma preview_theme_id_Ok (p : Payload) o : preview_theme_id p = Ok o → from_option positive_ok True o.
Proof.
  unfold preview_theme_id. intros H. apply result_bind_Ok in H as (o' & Ho & H). apply optional_unsigned_Ok in Ho.
  destruct o' as [v|]; [|by injection H as <-]. destruct (Z.eqb_spec v 0); [done|]. injection H as <-. destruct Ho. cbn. unfold positive_ok, in_u64. lia.
Qed.

Lemma elapsed_ticks_Ok (p : Payload) n : elapsed_ticks p = Ok n → 1 ≤ n ≤ 1000.
Proof.
  unfold elapsed_ticks. intros H. apply result_bind_Ok in H as (v & Hv & H). apply unsigned_Ok in Hv as [? _].
  destruct (_ || _) eqn:E; [done|]. injection H as <-. apply orb_false_iff in E as [E1 E2].
  apply Z.eqb_neq in E1. apply Z.ltb_ge in E2. lia.
Qed.

Ltac learn_part H :=
  first [ apply workflow_steps_Ok in H | apply reconcile_strategy_Ok in H | apply timeline_edit_Ok in H
        | apply phrase_loop_strategy_Ok in H | apply phrase_role_mutation_Ok in H | apply autoloop_catalog_mutation_Ok in H
        | apply preview_theme_id_Ok in H | apply elapsed_ticks_Ok in H ].

(** Every arm gives commands that are well formed. *)
Lemma command_arms_Ok (p : Payload) c : Forall (λ arm : string * (Payload → result SessionCommand CommandDecodeError),
  arm.2 p = Ok c → session_command_ok c) command_arms.
Proof.
  unfold command_arms. rewrite !Forall_app. split_and!; repeat constructor; cbn [snd]; intros E; try decoded E.
  all: try (fields E; repeat match goal with H : _ = Ok _ |- _ => learn_part H end; injection E as <-; cbn; tauto).
  - do 5 (apply result_bind_Ok in E as (? & ? & E)). apply result_bind_Ok in E as (? & ? & E).
    apply result_bind_Ok in E as (? & ? & E). apply result_bind_Ok in E as (? & ? & E). injection E as <-. by eapply query_Ok.
  - apply result_bind_Ok in E as (n & _ & E). destruct (negb _) eqn:Er; [done|]. injection E as <-.
    by apply negb_false_iff, in_range_spec in Er.
Qed.

Lemma decoded_command_ok (envelope : MessageEnvelope Payload) c : decode_command envelope = Ok c → session_command_ok c.
Proof.
  unfold decode_command. destruct (env_message_type _ envelope); try done. intros H. apply result_bind_Ok in H as (kind & _ & H).
  eapply match_text_case; [exact H|done|apply command_arms_Ok].
Qed.
End Sound.

