(* ===== verification/CommandMessages.v ===== *)
(** * Commands of the session: a message for every command

    The messages an application writes for the commands, and the theorem that the decoder
    reads each of them back: together with the soundness of the decoder this gives exactly
    the commands a session can be asked for. *)

From stdpp Require Import prelude list gmap sets strings.
From Stdlib Require Import ZArith Lia.
From S2P Require Import Prelude.
From S2P Require Import Track.
From S2P Require Import Event.
From S2P Require Import LightPlans.
From S2P Require Import PhraseTimeline.
From S2P Require Import Protocol.
From S2P Require Import Midi.
From S2P Require Import LibrarySource.
From S2P Require Import Reconciliation.
From S2P Require Import PhraseRoles.
From S2P Require Import PhraseRolesProps.
From S2P Require Import Workflow.
From S2P Require Import AutoloopCatalog.
From S2P Require Import LaunchPolicy.
From S2P Require Import Float64.
From S2P Require Import SessionCommands.
From S2P Require Import SessionCommandsProps.
Open Scope Z_scope.


Fixpoint find_field {A} (f : string) (fields : list (string * A)) : option A :=
  match fields with
  | [] => None
  | (k, v) :: fields => if String.eqb k f then Some v else find_field f fields
  end.

Definition obj {V} (fields : list (string * V)) : gmap str V := list_to_map ((λ kv, (lit kv.1, kv.2)) <$> fields).

Lemma lit_inj s t : lit s = lit t ↔ s = t.
Proof.
  split; [|by intros ->]. revert t. induction s as [|a s IH]; intros [|b t]; cbn [lit]; try done.
  intros [= Ha Hs]. apply IH in Hs as ->. f_equal.
  rewrite <- (Ascii.ascii_N_embedding a), <- (Ascii.ascii_N_embedding b). f_equal. lia.
Qed.

Lemma get_obj {V} (fields : list (string * V)) f : get_field (obj fields) f = find_field f fields.
Proof.
  unfold get_field, obj. induction fields as [|[k v] fields IH]; [done|]. cbn [fmap list_fmap list_to_map fst snd find_field foldr uncurry].
  destruct (String.eqb_spec k f) as [->|Hne]; [apply lookup_insert_eq|].
  etrans; [|exact IH]. apply lookup_insert_ne. by rewrite lit_inj.
Qed.

Lemma match_text_lit {A} k (arms : list (string * A)) otherwise :
  match_text (lit k) arms otherwise = default otherwise (find_field k arms).
Proof.
  induction arms as [|[p a] arms IH]; [done|]. cbn [match_text find_field].
  destruct (String.eqb_spec p k) as [->|Hne]; [by rewrite bool_decide_true|].
  rewrite bool_decide_false; [done|]. rewrite lit_inj. congruence.
Qed.

Lemma collect_fmap {A B E} (f : A → result B E) (g : B → A) l : Forall (λ y, f (g y) = Ok y) l → collect f (g <$> l) = Ok l.
Proof. intros H. apply collect_Ok. induction H as [|y l Hy _ IH]; constructor; done. Qed.

Section Complete.
Context {V : Type} `{!JsonValue V} `{!JsonLaws V}.

Notation fields_of := (list (string * V)).

Definition text_field (f : string) (s : str) : string * V := (f, of_str s).
Definition number_field (f : string) (n : Z) : string * V := (f, of_u64 n).
Definition bool_field (f : string) (b : bool) : string * V := (f, of_bool b).
Definition optional_text (f : string) (o : option str) : fields_of :=
  match o with Some s => [text_field f s] | None => [] end.
Definition optional_number (f : string) (o : option Z) : fields_of :=
  match o with Some n => [number_field f n] | None => [] end.

Definition encode_context (x : PlanCommandContext) : fields_of :=
  [text_field "planId" (show_u (pcx_plan_id x)); number_field "trackLoadId" (pcx_track_load_id x);
   number_field "expectedPlanRevision" (pcx_expected_revision x)].

Definition encode_rule (r : WorkflowRule) : V :=
  of_object (obj [text_field "field" (field_as_str (wr_field r)); text_field "operator" (operator_as_str (wr_operator r));
                  text_field "value" (wr_value r)]).

Definition encode_step (s : WorkflowStepDefinition) : V :=
  of_object (obj [text_field "id" (wsd_id s); text_field "displayName" (wsd_display_name s); text_field "icon" (wsd_icon s);
    number_field "colorRgb" (wsd_color_rgb s); number_field "sortOrder" (wsd_sort_order s);
    bool_field "archived" (wsd_archived s); ("rules", of_array (encode_rule <$> wsd_rules s))]).

Definition encode_choice (c : PhraseConflictChoice) : V :=
  of_object (obj [number_field "phraseIndex" (pcc_phrase_index c);
    text_field "side" (lit (match pcc_side c with SideLumi => "lumi" | SideSource => "source" end))]).

Definition encode_reconcile (s : ReconcileStrategy) : fields_of :=
  match s with
  | KeepLumi => [text_field "strategy" (lit "keepLumi")]
  | Rebase => [text_field "strategy" (lit "rebase")]
  | ReplaceWithSource => [text_field "strategy" (lit "replaceWithSource")]
  | Merge choices => [text_field "strategy" (lit "merge"); ("choices", of_array (encode_choice <$> choices))]
  end.

Definition operation_field (operation : string) : string * V := text_field "operation" (lit operation).
Definition role_field : PhraseRoleId → string * V := text_field "roleId".
Definition variant_field : VariantId → string * V := text_field "variantId".
Definition name_field : str → string * V := text_field "displayName".
Definition index_field : Z → string * V := number_field "phraseIndex".

Definition encode_edit (e : TimelineEditCommand) : fields_of :=
  match e with
  | CmdCreate start finish role =>
      [operation_field "create"; number_field "startBeat" start; number_field "endBeat" finish; role_field role]
  | CmdSplit index beat => [operation_field "split"; index_field index; number_field "atBeat" beat]
  | CmdMergePrevious index => [operation_field "mergePrevious"; index_field index]
  | CmdMergeNext index => [operation_field "mergeNext"; index_field index]
  | CmdMoveBoundary index beat => [operation_field "moveBoundary"; index_field index; number_field "toBeat" beat]
  | CmdDelete index AbsorbPrevious => [operation_field "deleteAbsorbPrevious"; index_field index]
  | CmdDelete index AbsorbNext => [operation_field "deleteAbsorbNext"; index_field index]
  | CmdChangeRole index role => [operation_field "changeRole"; index_field index; role_field role]
  | CmdSetLoopStrategy _ _ => []
  end.

Definition encode_override (o : ThemeSpecificVariant) : V :=
  of_object (obj [number_field "themeId" (tsv_theme_id o); variant_field (tsv_variant_id o)]).

Definition encode_loop_strategy (s : PhraseLoopStrategy) : fields_of :=
  match s with
  | StrategyAuto => [text_field "strategy" (lit "auto")]
  | StrategyFixedVariant variant => [text_field "strategy" (lit "fixedVariant"); variant_field variant]
  | StrategyThemeSpecificExact overrides =>
      [text_field "strategy" (lit "themeSpecificExact"); ("themeOverrides", of_array (encode_override <$> overrides))]
  end.

Definition encode_role_mutation (m : PhraseRoleCatalogMutation) : fields_of :=
  match m with
  | RoleAdd name => [operation_field "add"; name_field name]
  | RoleRename role name => [operation_field "rename"; role_field role; name_field name]
  | RoleMove role RoleEarlier => [operation_field "moveEarlier"; role_field role]
  | RoleMove role RoleLater => [operation_field "moveLater"; role_field role]
  | RoleSetArchived role true => [operation_field "archive"; role_field role]
  | RoleSetArchived role false => [operation_field "restore"; role_field role]
  | RoleSetColor role color => [operation_field "setColor"; role_field role; number_field "colorRgb" color]
  | RoleSetSourceMapping provider label role =>
      [operation_field "setSourceMapping"; text_field "providerKind" provider; text_field "rawLabel" label; role_field role]
  end.

Definition encode_autoloop_mutation (m : AutoloopCatalogMutation) : fields_of :=
  match m with
  | MutRenameTheme theme name => [operation_field "renameTheme"; number_field "themeId" theme; name_field name]
  | MutAddVariant role name => [operation_field "addVariant"; role_field role; name_field name]
  | MutRenameVariant role variant name =>
      [operation_field "renameVariant"; role_field role; variant_field variant; name_field name]
  | MutMoveVariant role variant VariantEarlier => [operation_field "moveVariantEarlier"; role_field role; variant_field variant]
  | MutMoveVariant role variant VariantLater => [operation_field "moveVariantLater"; role_field role; variant_field variant]
  | MutSetVariantArchived role variant true => [operation_field "archiveVariant"; role_field role; variant_field variant]
  | MutSetVariantArchived role variant false => [operation_field "restoreVariant"; role_field role; variant_field variant]
  | MutSetCell theme role variant name =>
      operation_field "setCell" :: number_field "themeId" theme :: role_field role :: variant_field variant
        :: optional_text "displayName" name
  | MutSetButton theme button role name =>
      operation_field "setButton" :: number_field "themeId" theme :: number_field "buttonNumber" button :: role_field role
        :: optional_text "displayName" name
  | MutClearButton theme button =>
      [operation_field "clearButton"; number_field "themeId" theme; number_field "buttonNumber" button]
  end.

Definition encode_address (a : MidiAddress) : fields_of :=
  match ma_kind a with
  | KindBank => [text_field "targetKind" (lit "bank"); number_field "targetNumber" (ma_number a)]
  | KindAutoloop =>
      [text_field "targetKind" (lit "autoloop"); number_field "targetNumber" (ma_number a);
       number_field "bankNumber" (ma_channel a - 12)]
  | KindStaticLook => [text_field "targetKind" (lit "staticLook"); number_field "targetNumber" (ma_number a)]
  | KindCustom =>
      [text_field "targetKind" (lit "custom"); number_field "targetNumber" (ma_number a);
       number_field "channel" (ma_channel a)]
  end.

Definition sort_text (s : LibraryTrackSortField) : string :=
  match s with
  | SortPlaylist => "playlist" | SortTitle => "title" | SortArtist => "artist" | SortBpm => "bpm" | SortKey => "key"
  | SortDuration => "duration" | SortUsbSources => "usbSources" | SortTimelineRevision => "timelineRevision"
  | SortReadiness => "readiness" | SortPreparationStatus => "preparationStatus" | SortAttention => "attention"
  | SortSourceTrackId => "sourceTrackID" | SortAnalysisRevision => "analysisRevision"
  end.

Definition direction_text (d : LibraryTrackSortDirection) : string :=
  match d with SortAscending => "ascending" | SortDescending => "descending" end.

Definition encode_query (search : str) (playlist : option Z) (filter : option TrackWorkflowFilter) (step : option str)
    (offset limit : Z) (sort : LibraryTrackSort) : fields_of :=
  [text_field "search" search; number_field "offset" offset; number_field "limit" limit;
   text_field "sortBy" (lit (sort_text (lts_field sort)));
   text_field "sortDirection" (lit (direction_text (lts_direction sort)))]
  ++ optional_number "playlistId" playlist ++ optional_text "workflowFilter" (filter_as_str <$> filter)
  ++ optional_text "workflowStepId" step.

Definition track_fields (track : Z) (revision : string) (n : Z) : fields_of := [number_field "trackId" track; number_field revision n].

Definition versions (source target revision : Z) : fields_of :=
  [number_field "sourceTrackId" source; number_field "targetTrackId" target; number_field "expectedTargetRevision" revision].

Definition revised (n : Z) : fields_of := [number_field "expectedStateRevision" n].

Definition encode_library (c : SessionCommand) : string * fields_of :=
  match c with
  | GetSnapshot include => ("getSnapshot", [bool_field "includeLibrary" include])
  | QueryLibrary search playlist filter step offset limit sort =>
      ("queryLibrary", encode_query search playlist filter step offset limit sort)
  | OpenLibraryTrackEditor track => ("openLibraryTrackEditor", [number_field "trackId" track])
  | GetLibraryTrackWaveform track => ("getLibraryTrackWaveform", [number_field "trackId" track])
  | CloseLibraryTrackEditor => ("closeLibraryTrackEditor", [])
  | SetTrackPreparationStatus track n status =>
      ("setTrackPreparationStatus", track_fields track "expectedRevision" n ++ [text_field "status" (status_as_str status)])
  | AssignTrackWorkflowStep track n step =>
      ("assignTrackWorkflowStep", track_fields track "expectedRevision" n ++ [text_field "stepId" step])
  | SetTrackPhraseProtection track n locked =>
      ("setTrackPhraseProtection", track_fields track "expectedRevision" n ++ [bool_field "locked" locked])
  | ReplaceTrackWorkflowCatalog n steps =>
      ("replaceTrackWorkflowCatalog", [number_field "expectedRevision" n; ("steps", of_array (encode_step <$> steps))])
  | ResolveTrackWorkflowAttention track n => ("resolveTrackWorkflowAttention", track_fields track "expectedRevision" n)
  | PreviewDemoSourceRefresh => ("previewDemoSourceRefresh", [])
  | PreviewLibraryReset tracks => ("previewLibraryReset", [("preserveTrackIds", of_array (of_u64 <$> tracks))])
  | ApplyLibraryReset token path =>
      ("applyLibraryReset", [text_field "expectedResetToken" token; text_field "backupDatabasePath" path])
  | CreateLibraryBackup destination => ("createLibraryBackup", [text_field "destination" destination])
  | RestoreLibraryBackup source rollback =>
      ("restoreLibraryBackup", [text_field "source" source; text_field "rollback" rollback])
  | ReconcileLibrarySource track n strategy =>
      ("reconcileLibrarySource", track_fields track "expectedTimelineRevision" n ++ encode_reconcile strategy)
  | EditLibraryTimeline track n command =>
      ("editLibraryTimeline", track_fields track "expectedTimelineRevision" n ++ encode_edit command)
  | SetLibraryPhraseLoopStrategy track n catalog index strategy =>
      ("setLibraryPhraseLoopStrategy", track_fields track "expectedTimelineRevision" n
        ++ [number_field "expectedAutoloopCatalogRevision" catalog; index_field index] ++ encode_loop_strategy strategy)
  | UndoLibraryTimeline track n => ("undoLibraryTimeline", track_fields track "expectedTimelineRevision" n)
  | RedoLibraryTimeline track n => ("redoLibraryTimeline", track_fields track "expectedTimelineRevision" n)
  | RestoreLibraryTimelineRevision track n target =>
      ("restoreLibraryTimelineRevision", track_fields track "expectedTimelineRevision" n
        ++ [number_field "targetTimelineRevision" target])
  | ReuseLibraryTimeline source target n => ("reuseLibraryTimeline", versions source target n)
  | KeepTrackVersionSeparate source target n => ("keepTrackVersionSeparate", versions source target n)
  | MutatePhraseRoleCatalog n mutation =>
      ("mutatePhraseRoleCatalog", number_field "expectedPhraseRoleRevision" n :: encode_role_mutation mutation)
  | MutateAutoloopCatalog n mutation =>
      ("mutateAutoloopCatalog", number_field "expectedAutoloopCatalogRevision" n :: encode_autoloop_mutation mutation)
  | ReplaceLightPlanningPolicy n policy =>
      ("replaceLightPlanningPolicy", [number_field "expectedLightPlanningRevision" n; ("policy", of_planning_policy policy)])
  | PreviewLightPlan track n theme seed policy =>
      ("previewLightPlan", track_fields track "expectedTimelineRevision" n
        ++ [number_field "variationSeed" seed; ("policy", of_planning_policy policy)] ++ optional_number "themeId" theme)
  | _ => ("", [])
  end.

Definition encode_command (c : SessionCommand) : string * fields_of :=
  match c with
  | PublishMidiSource => ("publishMidiSource", [])
  | StopMidiSource => ("stopMidiSource", [])
  | SetAbletonLinkEnabled enabled => ("setAbletonLinkEnabled", [bool_field "enabled" enabled])
  | TestAbletonLinkHelper => ("testAbletonLinkHelper", [])
  | SetOutputTimingOffset millis => ("setOutputTimingOffset", [("millis", of_i64 millis)])
  | SetLaunchPolicy policy expected =>
      ("setLaunchPolicy", [("policy", of_launch_policy policy); ("expectedPolicy", of_launch_policy expected)])
  | SendMidiLearnPulse => ("sendMidiLearnPulse", [])
  | SendMidiAddressLearnPulse address => ("sendMidiAddressLearnPulse", encode_address address)
  | TriggerMidiAutoloop bank autoloop =>
      ("triggerMidiAutoloop", [number_field "bankNumber" bank; number_field "autoloopNumber" autoloop])
  | TriggerMidiStaticLook look => ("triggerMidiStaticLook", [number_field "staticLookNumber" look])
  | LoadLibraryTrackOnLocalDeck track deck timeline n =>
      ("loadLibraryTrackOnLocalDeck", track_fields track "expectedTimelineRevision" timeline ++ number_field "deckId" deck :: revised n)
  | UpdateLocalPlaybackTransport deck load position playing =>
      ("updateLocalPlaybackTransport", [number_field "deckId" deck; number_field "trackLoadId" load;
         number_field "positionMillis" position; bool_field "playing" playing])
  | SetLocalPlaybackLeader deck n => ("setLocalPlaybackLeader", number_field "deckId" deck :: revised n)
  | SelectDeckSourceMode mode n =>
      ("selectDeckSourceMode", text_field "mode" (lit (match mode with
         | SelectConnectedDecks => "connectedDecks" | SelectLocalPlayback => "localPlayback" end)) :: revised n)
  | LoadDemoSession n => ("loadDemoSession", revised n)
  | SetOperationState n command =>
      ("setOperationState", text_field "operationState" (lit (match command with
         | CmdArm => "armed" | CmdStart => "live" | CmdPause => "paused" | CmdOff => "off" end)) :: revised n)
  | SetSimulationSpeed n speed =>
      ("setSimulationSpeed", number_field "speed" (match speed with
         | SpeedOne => 1 | SpeedFour => 4 | SpeedSixteen => 16 | SpeedSixtyFour => 64 end) :: revised n)
  | SetSimulationPlayback n playing => ("setSimulationPlayback", bool_field "playing" playing :: revised n)
  | AdvanceSimulation n ticks => ("advanceSimulation", number_field "elapsedTicks" ticks :: revised n)
  | AdvanceToNextTrack n => ("advanceToNextTrack", revised n)
  | SelectTheme x theme => ("selectTheme", number_field "themeId" theme :: encode_context x)
  | SelectThemeFromPhrase x index theme =>
      ("selectThemeFromPhrase", index_field index :: number_field "themeId" theme :: encode_context x)
  | SelectScene x index scene => ("selectScene", index_field index :: number_field "sceneId" scene :: encode_context x)
  | ChangePhraseRole x index role => ("changePhraseRole", index_field index :: role_field role :: encode_context x)
  | SetCueLock x index locked => ("setCueLock", index_field index :: bool_field "locked" locked :: encode_context x)
  | RegeneratePlan x => ("regeneratePlan", encode_context x)
  | ResetDemoSession n => ("resetDemoSession", revised n)
  | _ => encode_library c
  end.

(** The payload of the message for a command. *)
Definition command_payload (c : SessionCommand) : gmap str V :=
  obj (text_field "kind" (lit (encode_command c).1) :: (encode_command c).2).

(** ** Reading what was written *)

Implicit Types (fs : fields_of).

Lemma unsigned_obj fs f n : find_field f fs = Some (of_u64 n) → in_u64 n → unsigned (obj fs) f = Ok n.
Proof. intros Hf Hn. unfold unsigned. rewrite get_obj, Hf. cbn. by rewrite as_of_u64. Qed.

Lemma positive_obj fs f n : find_field f fs = Some (of_u64 n) → positive_ok n → positive_unsigned (obj fs) f = Ok n.
Proof.
  intros Hf [Hn Hu]. unfold positive_unsigned. rewrite (unsigned_obj _ _ _ Hf Hu). cbn [result_bind].
  destruct (Z.eqb_spec n 0); [lia|done].
Qed.

Lemma narrow_fits maximum f n : n ≤ maximum → narrow maximum f n = Ok n.
Proof. intros H. unfold narrow. by rewrite (proj2 (Z.leb_le _ _) H). Qed.

Lemma string_obj fs f s : find_field f fs = Some (of_str s) → given s → string_field (obj fs) f = Ok s.
Proof. intros Hf Hs. unfold string_field. rewrite get_obj, Hf. cbn. rewrite as_of_str. cbn. by rewrite bool_decide_false. Qed.

Lemma boolean_obj fs f b : find_field f fs = Some (of_bool b) → boolean (obj fs) f = Ok b.
Proof. intros Hf. unfold boolean. rewrite get_obj, Hf. cbn. by rewrite as_of_bool. Qed.

Lemma text_id_given s : text_id_ok s → given s.
Proof. intros [H _] ->. by vm_compute in H. Qed.

Lemma text_identifier_made label s : text_id_ok s → text_identifier_try_new label s = Ok s.
Proof. intros [H1 H2]. unfold text_identifier_try_new. by rewrite H1, (proj2 (Z.ltb_ge _ _) H2). Qed.

Lemma role_obj fs r : find_field "roleId" fs = Some (of_str r) → text_id_ok r → phrase_role_id (obj fs) = Ok r.
Proof.
  intros Hf Hr. unfold phrase_role_id. rewrite (string_obj _ _ _ Hf (text_id_given _ Hr)). cbn [result_bind].
  by rewrite text_identifier_made.
Qed.

Lemma variant_obj fs r : find_field "variantId" fs = Some (of_str r) → text_id_ok r → variant_id (obj fs) = Ok r.
Proof.
  intros Hf Hr. unfold variant_id. rewrite (string_obj _ _ _ Hf (text_id_given _ Hr)). cbn [result_bind].
  by rewrite text_identifier_made.
Qed.

Lemma ids_obj fs role variant :
  find_field "roleId" fs = Some (of_str role) → find_field "variantId" fs = Some (of_str variant) →
  text_id_ok role → text_id_ok variant → variant_of_role (obj fs) = Ok (role, variant).
Proof. intros H1 H2 H3 H4. unfold variant_of_role. by rewrite (role_obj _ _ H1 H3), (variant_obj _ _ H2 H4). Qed.

Lemma u16_u64 n : in_u16 n → in_u64 n.
Proof. unfold in_u16, in_u64, U16_MAX, U64_MAX. lia. Qed.

Lemma u32_u64 n : in_u32 n → in_u64 n.
Proof. unfold in_u32, in_u64, U32_MAX, U64_MAX. lia. Qed.

Lemma index_obj fs n : find_field "phraseIndex" fs = Some (of_u64 n) → in_u16 n → phrase_index (obj fs) = Ok n.
Proof.
  intros Hf Hn. unfold phrase_index. rewrite (unsigned_obj _ _ _ Hf (u16_u64 _ Hn)). cbn [result_bind].
  apply narrow_fits. by destruct Hn.
Qed.

Lemma beat_obj fs f n : find_field f fs = Some (of_u64 n) → in_u32 n → timeline_beat (obj fs) f = Ok n.
Proof.
  intros Hf Hn. unfold timeline_beat. rewrite (unsigned_obj _ _ _ Hf (u32_u64 _ Hn)). cbn [result_bind].
  apply narrow_fits. by destruct Hn.
Qed.

Lemma deck_obj fs n : find_field "deckId" fs = Some (of_u64 n) → local_deck_ok n → deck_id_field (obj fs) = Ok n.
Proof.
  intros Hf [H1 [H2 H3]]. unfold deck_id_field. rewrite (positive_obj _ _ _ Hf); [|unfold positive_ok, in_u64, U64_MAX, U8_MAX in *; lia].
  by apply narrow_fits.
Qed.

Lemma button_obj fs n : find_field "buttonNumber" fs = Some (of_u64 n) → button_ok n → button_number (obj fs) = Ok n.
Proof.
  intros Hf [H1 H2]. unfold button_number. rewrite (positive_obj _ _ _ Hf); [|split; [done|by apply u16_u64]].
  apply narrow_fits. by destruct H2.
Qed.

Lemma midi_obj fs f n maximum :
  find_field f fs = Some (of_u64 n) → 1 ≤ n ≤ maximum → maximum ≤ 255 → midi_number (obj fs) f maximum = Ok n.
Proof.
  intros Hf Hn Hm. unfold midi_number. rewrite (positive_obj _ _ _ Hf) by (unfold positive_ok, in_u64, U64_MAX; lia). cbn [result_bind].
  rewrite narrow_fits by (unfold U8_MAX; lia). cbn [result_bind]. by rewrite (proj2 (Z.leb_le _ _)) by lia.
Qed.

Lemma context_obj fs x :
  find_field "planId" fs = Some (of_str (show_u (pcx_plan_id x))) →
  find_field "trackLoadId" fs = Some (of_u64 (pcx_track_load_id x)) →
  find_field "expectedPlanRevision" fs = Some (of_u64 (pcx_expected_revision x)) →
  plan_context_ok x → context (obj fs) = Ok x.
Proof.
  intros H1 H2 H3 ([? ?] & [? ?] & [? ?]). unfold context. rewrite (string_obj _ _ _ H1 (show_u_nonempty _)). cbn [result_bind].
  rewrite parse_show_u by done. cbn [ok_or result_bind]. rewrite (unsigned_obj _ _ _ H2) by done. cbn [result_bind].
  rewrite (unsigned_obj _ _ _ H3) by done. cbn [result_bind].
  rewrite !(proj2 (Z.eqb_neq _ _)) by lia. by destruct x.
Qed.

Lemma array_obj fs f l : find_field f fs = Some (of_array l) → array_field (obj fs) f = Ok l.
Proof. intros Hf. unfold array_field. rewrite get_obj, Hf. cbn. by rewrite as_of_array. Qed.

Lemma sized_obj fs f l least most :
  find_field f fs = Some (of_array l) → (least ≤ length l ≤ most)%nat → sized_array (obj fs) f least most = Ok l.
Proof.
  intros Hf [H1 H2]. unfold sized_array. rewrite get_obj, Hf. cbn. rewrite as_of_array. cbn.
  by rewrite (proj2 (Nat.leb_le _ _) H1), (proj2 (Nat.leb_le _ _) H2).
Qed.

Lemma object_made f m : object_of f (of_object (V := V) m) = Ok m.
Proof. unfold object_of. by rewrite as_of_object. Qed.

Lemma optional_text_obj fs f o : find_field f fs = of_str <$> o → optional_string (obj fs) f = o.
Proof. intros Hf. unfold optional_string. rewrite get_obj, Hf. destruct o; [|done]. cbn. apply as_of_str. Qed.

Lemma optional_number_obj fs f o :
  find_field f fs = of_u64 <$> o → from_option in_u64 True o → optional_unsigned (obj fs) f = Ok o.
Proof.
  intros Hf Ho. unfold optional_unsigned. rewrite get_obj, Hf. destruct o as [n|]; [|done]. cbn [fmap option_fmap option_map].
  rewrite u64_not_null, as_of_u64 by done. done.
Qed.

Lemma optional_boolean_obj fs f b : find_field f fs = Some (of_bool b) → optional_boolean (obj fs) f = Ok (Some b).
Proof. intros Hf. unfold optional_boolean. rewrite get_obj, Hf. by rewrite as_of_bool. Qed.

Lemma shown_text_obj fs f s : find_field f fs = Some (of_str s) → optional_string (obj fs) f = Some s.
Proof. intros Hf. by apply optional_text_obj. Qed.

Lemma signed_obj fs f n : find_field f fs = Some (of_i64 n) → -2 ^ 63 ≤ n < 2 ^ 63 → signed_field (obj fs) f = Ok n.
Proof. intros Hf Hn. unfold signed_field. rewrite get_obj, Hf. cbn [mbind option_bind]. by rewrite as_of_i64. Qed.

Lemma planning_obj fs p : find_field "policy" fs = Some (of_planning_policy p) → planning_policy (obj fs) = Ok p.
Proof. intros Hf. unfold planning_policy. rewrite get_obj, Hf. cbn [ok_or result_bind]. by rewrite planning_policy_of_made. Qed.

Lemma launch_obj fs f p : find_field f fs = Some (of_launch_policy p) → launch_policy_field (obj fs) f = Ok p.
Proof. intros Hf. unfold launch_policy_field. rewrite get_obj, Hf. cbn [ok_or result_bind]. by rewrite launch_policy_of_made. Qed.

Lemma given_lit s : s ≠ EmptyString → given (lit s).
Proof. by destruct s. Qed.

(** Reads the fields that were written, in the order of the decoder. *)
Ltac known :=
  first [ reflexivity | assumption | apply given_lit; discriminate | tauto | (cbn in *; tauto)
        | (unfold positive_ok, in_u64, U64_MAX in *; lia) ].
Ltac read_field :=
  first
    [ erewrite positive_obj by known | erewrite unsigned_obj by known | erewrite string_obj by known
    | erewrite boolean_obj by known | erewrite role_obj by known | erewrite variant_obj by known
    | erewrite ids_obj by known | erewrite index_obj by known | erewrite beat_obj by known | erewrite deck_obj by known
    | erewrite button_obj by known | erewrite midi_obj by known | erewrite context_obj by known
    | erewrite array_obj by known | erewrite optional_text_obj by known | erewrite optional_number_obj by known
    | erewrite shown_text_obj by known | erewrite optional_boolean_obj by known | erewrite planning_obj by known | erewrite launch_obj by known
    | rewrite match_text_lit | rewrite object_made | rewrite narrow_fits by known ].
Ltac read_fields :=
  repeat (read_field;
    cbn [result_bind default find_field String.eqb Ascii.eqb Bool.eqb fst snd id ok_or map_err refuse negb]).

Lemma choice_made c : in_u16 (pcc_phrase_index c) → conflict_choice (encode_choice c) = Ok c.
Proof.
  intros [H1 H2]. unfold conflict_choice, encode_choice, reconcile_side. destruct c as [index []]; cbn [pcc_phrase_index pcc_side] in *.
  all: rewrite object_made; cbn [result_bind]; rewrite (index_obj _ index) by (done || by split); read_fields; done.
Qed.

Lemma override_made o : positive_ok (tsv_theme_id o) → text_id_ok (tsv_variant_id o) → theme_override (encode_override o) = Ok o.
Proof. intros H1 H2. unfold theme_override, encode_override. rewrite object_made. cbn [result_bind]. read_fields. by destruct o. Qed.

Lemma field_given f : given (field_as_str f).
Proof. by destruct f. Qed.

Lemma operator_given o : given (operator_as_str o).
Proof. by destruct o. Qed.

Lemma status_given s : given (status_as_str s).
Proof. by destruct s. Qed.

Lemma rule_made r : rule_ok r → workflow_rule (encode_rule r) = Ok r.
Proof.
  intros [Hg Hr]. unfold workflow_rule, encode_rule. rewrite object_made. cbn [result_bind].
  erewrite string_obj by (reflexivity || apply field_given). cbn [result_bind].
  replace (field_try_from_str _) with (Ok (A := WorkflowRuleField) (E := TrackWorkflowValueError) (wr_field r)) by by destruct (wr_field r).
  erewrite string_obj by (reflexivity || apply operator_given). cbn [result_bind map_err].
  replace (operator_try_from_str _) with (Ok (A := WorkflowRuleOperator) (E := TrackWorkflowValueError) (wr_operator r)) by by destruct (wr_operator r).
  cbn [result_bind map_err]. read_fields. by rewrite Hr.
Qed.

Lemma step_made s : step_ok s → workflow_step (encode_step s) = Ok s.
Proof.
  intros [(H1 & H2 & H3) (Hc & Hs & Hn) [Hl Hr] Hv]. unfold workflow_step, encode_step. rewrite object_made. cbn [result_bind].
  erewrite sized_obj by (reflexivity || by rewrite length_fmap). cbn [result_bind].
  rewrite collect_fmap by (eapply Forall_impl; [exact Hr|apply rule_made]). cbn [result_bind].
  pose proof (u32_u64 _ Hc). pose proof (u16_u64 _ Hn). destruct Hc as [_ Hc], Hn as [_ Hn]. read_fields. by rewrite Hv.
Qed.

Lemma number_made f n : positive_ok n → positive_number f (of_u64 (V := V) n) = Ok n.
Proof. intros [Hn Hu]. unfold positive_number. rewrite as_of_u64 by done. cbn [mbind option_bind]. by rewrite (proj2 (Z.ltb_lt _ _) Hn). Qed.

Lemma numbers_obj fs f l :
  find_field f fs = Some (of_array (of_u64 <$> l)) → Z.of_nat (length l) ≤ 20000 → NoDup l → Forall positive_ok l →
  u64_array (obj fs) f = Ok l.
Proof.
  intros Hf Hlen Hnd Hok. unfold u64_array. rewrite (array_obj _ _ _ Hf). cbn [result_bind].
  rewrite length_fmap, (proj2 (Z.ltb_ge _ _) Hlen). cbn [refuse result_bind].
  rewrite collect_fmap by (eapply Forall_impl; [exact Hok|apply number_made]). cbn [result_bind].
  by rewrite size_list_to_set, Nat.eqb_refl.
Qed.

(** The fields of an address, one hypothesis each. *)
Ltac written H :=
  cbn [encode_address ma_kind ma_number ma_channel] in H;
  repeat match type of H with Forall _ (_ :: _) =>
    let Hx := fresh "Hx" in apply Forall_cons in H as [Hx H]; cbn [fst snd text_field number_field] in Hx end.
Ltac byte_fits := cbn [result_bind]; rewrite narrow_fits by (unfold U8_MAX; lia); cbn [result_bind].

Lemma address_obj fs a :
  Forall (λ kv, find_field kv.1 fs = Some kv.2) (encode_address a) → MadeAddress a → midi_address (obj fs) = Ok a.
Proof.
  unfold midi_address. intros Hf Ha.
  destruct Ha as [n a Ha|b n a Ha|n a Ha|channel n a Hch Hn Ha]; assert (Hmade := Ha);
    [apply bank_Some in Ha as [Hb ->]|apply autoloop_Some in Ha as (Hb & Hn & ->)
    |apply static_look_Some in Ha as [Hb ->]|apply custom_Some in Ha as (Hb & Hn' & ->)]; written Hf;
    (erewrite string_obj; [|eassumption|by apply given_lit]); cbn [result_bind].
  4: rewrite bool_decide_true by done.
  1-3: rewrite bool_decide_false by (rewrite lit_inj; done).
  4: destruct Hn as [Hn0 _]; rewrite (unsigned_obj _ _ n) by (done || unfold in_u64, U64_MAX; lia).
  1-3: rewrite (positive_obj _ _ n) by (done || unfold positive_ok, in_u64, U64_MAX; lia).
  all: byte_fits; rewrite match_text_lit; cbn [default find_field String.eqb Ascii.eqb Bool.eqb id].
  - by rewrite Hmade.
  - replace (12 + b - 12) with b in * by lia. rewrite (midi_obj _ _ b) by (done || lia). cbn [result_bind]. by rewrite Hmade.
  - by rewrite Hmade.
  - rewrite (positive_obj _ _ channel) by (done || unfold positive_ok, in_u64, U64_MAX; lia). byte_fits. by rewrite Hmade.
Qed.

Definition kind_arm (kind : string) : option (gmap str V → result SessionCommand CommandDecodeError) :=
  find_field kind command_arms.

Lemma decode_payload (envelope : MessageEnvelope (gmap str V)) c kind arm :
  env_message_type _ envelope = MsgCommand → env_payload _ envelope = command_payload c →
  (encode_command c).1 = kind → kind ≠ EmptyString → kind_arm kind = Some arm →
  decode_command envelope = arm (command_payload c).
Proof.
  intros Ht Hp Hk Hne Ha. unfold decode_command. rewrite Ht, Hp. unfold command_payload at 1.
  rewrite (string_obj _ _ (lit kind)); [|cbn; by rewrite Hk|by apply given_lit].
  cbn [result_bind]. rewrite match_text_lit. unfold kind_arm in Ha. by rewrite Ha.
Qed.

Definition reads_back (c : SessionCommand) : Prop :=
  session_command_ok c → ∀ arm, kind_arm (encode_command c).1 = Some arm → arm (command_payload c) = Ok c.

(** The fields of the command at hand: its arm, its bounds and its message. *)
Ltac reading :=
  intros Hc arm Harm; cbn [encode_command encode_library fst] in Harm; injection Harm as <-;
  unfold command_payload; cbn [encode_command encode_library fst snd]; cbn [session_command_ok] in Hc.

Lemma query_reads_back search playlist filter step offset limit sort :
  reads_back (QueryLibrary search playlist filter step offset limit sort).
Proof.
  reading. destruct Hc as (Hs & Hp & [Ho Ho'] & Hl).
  unfold library_search. rewrite (optional_text_obj _ "search" (Some search)) by done.
  cbn [default id]. rewrite (proj2 (Z.ltb_ge _ _) Hs). cbn [result_bind].
  rewrite (optional_number_obj _ "playlistId" playlist) by first [done | by destruct playlist, filter, step]. cbn [result_bind].
  unfold workflow_filter. rewrite (optional_text_obj _ "workflowFilter" (filter_as_str <$> filter)) by by destruct playlist, filter, step.
  replace (match filter_as_str <$> filter with Some text => _ | None => _ end)
    with (Ok (A := option TrackWorkflowFilter) (E := CommandDecodeError) filter) by (destruct filter as [[]|]; vm_compute; reflexivity).
  cbn [result_bind]. rewrite (optional_number_obj _ "offset" (Some offset)) by (done || cbn; unfold in_u64, U64_MAX, U32_MAX in *; lia).
  cbn [result_bind default id]. rewrite narrow_fits by done. cbn [result_bind].
  rewrite (optional_number_obj _ "limit" (Some limit)) by (done || cbn; unfold in_u64, U64_MAX; lia).
  cbn [result_bind default id]. unfold library_limit. rewrite narrow_fits by (unfold U16_MAX; lia). cbn [result_bind].
  rewrite (proj2 (Z.eqb_neq limit 0)), (proj2 (Z.ltb_ge 200 limit)) by lia. cbn [orb result_bind].
  unfold library_sort, sort_field, sort_direction.
  rewrite (optional_text_obj _ "sortBy" (Some (lit (sort_text (lts_field sort))))) by done.
  rewrite (optional_text_obj _ "sortDirection" (Some (lit (direction_text (lts_direction sort))))) by done.
  cbn [default id]. rewrite !match_text_lit.
  rewrite (optional_text_obj _ "workflowStepId" step) by by destruct playlist, filter, step.
  by destruct sort as [[] []].
Qed.

(** Reads the parts whose shape depends on the value: the bounds of each field are at hand. *)
Ltac read_part := read_fields; rewrite ?narrow_fits by known; read_fields; first [done | by repeat f_equal].

Lemma catalogues_read_back c :
  match c with
  | ReplaceTrackWorkflowCatalog _ _ | PreviewLibraryReset _ | MutatePhraseRoleCatalog _ _ | MutateAutoloopCatalog _ _ => reads_back c
  | _ => True
  end.
Proof.
  destruct c; try done.
  - reading. destruct Hc as (Hn & Hl & Hs). read_fields. unfold workflow_steps.
    erewrite sized_obj by (reflexivity || by rewrite length_fmap). cbn [result_bind].
    by rewrite collect_fmap by (eapply Forall_impl; [exact Hs|apply step_made]).
  - reading. destruct Hc as (Hl & Hn & Hp). by erewrite numbers_obj by (done || reflexivity).
  - destruct mutation as [| |? []|? []| |]; reading; destruct Hc as [? Hm]; read_fields; unfold phrase_role_mutation; read_fields;
      cbn [role_mutation_ok] in Hm; destruct_and? Hm.
    all: try (read_fields; done).
    match goal with H : in_u32 _ |- _ => pose proof (u32_u64 _ H); destruct H end. read_part.
  - destruct mutation as [| | |? ? []|? ? []|? ? ? []|? ? ? []|]; reading; destruct Hc as [? Hm]; read_fields;
      unfold autoloop_catalog_mutation, theme_id_field; read_fields; cbn [autoloop_mutation_ok] in Hm; destruct_and? Hm; read_part.
Qed.

Lemma timelines_read_back c :
  match c with
  | ReconcileLibrarySource _ _ _ | EditLibraryTimeline _ _ _ | SetLibraryPhraseLoopStrategy _ _ _ _ _ | PreviewLightPlan _ _ _ _ _ => reads_back c
  | _ => True
  end.
Proof.
  destruct c; try done.
  - destruct strategy as [| | |choices]; reading; destruct Hc as (? & ? & Hs); read_fields; unfold reconcile_strategy; read_fields; try done.
    destruct Hs as [Hl Hs]. unfold merge_strategy. read_fields. rewrite length_fmap, (proj2 (Z.ltb_ge _ _) Hl). cbn [refuse result_bind].
    by rewrite collect_fmap by (eapply Forall_impl; [exact Hs|apply choice_made]).
  - destruct command as [| | | | |? []| |]; reading; destruct Hc as (? & ? & Hm); cbn [edit_ok] in Hm; destruct_and? Hm; try done.
    all: read_fields; unfold timeline_edit; read_part.
  - destruct strategy as [|variant|overrides]; reading; destruct Hc as (? & ? & ? & ? & Hs); cbn [loop_strategy_ok] in Hs;
      read_fields; unfold phrase_loop_strategy; read_fields; try done.
    rewrite collect_fmap; [done|]. eapply Forall_impl; [exact Hs|]. intros o [? ?]. by apply override_made.
  - destruct theme_id as [theme|]; reading; destruct Hc as (? & ? & Ht & ?); read_fields; unfold preview_theme_id.
    + destruct Ht as [Hpos ?]. rewrite (optional_number_obj _ "themeId" (Some theme)) by done. cbn [result_bind].
      rewrite (proj2 (Z.eqb_neq theme 0)) by lia. cbn [result_bind]. read_part.
    + rewrite (optional_number_obj _ "themeId" None) by done. cbn [result_bind]. read_part.
Qed.

Lemma command_reads_back c : reads_back c.
Proof.
  pose proof (catalogues_read_back c) as Hcat. pose proof (timelines_read_back c) as Htime. destruct c; try done; clear Hcat Htime.
  all: try solve [reading; try unfold track_and_revision; try unfold track_versions; try unfold state_revision; read_fields; done].
  - apply query_reads_back.
  - reading. read_fields. erewrite string_obj by (reflexivity || apply status_given). cbn [result_bind].
    by destruct status.
  - reading. erewrite signed_obj by (reflexivity || lia). cbn [result_bind].
    by rewrite (proj2 (in_range_spec (-250) 250 millis) Hc).
  - reading. rewrite (address_obj _ address); [done| |done].
    destruct Hc as [? ? H|? ? ? H|? ? H|? ? ? _ _ H];
      [apply bank_Some in H as [_ ->]|apply autoloop_Some in H as (_ & _ & ->)
      |apply static_look_Some in H as [_ ->]|apply custom_Some in H as (_ & _ & ->)]; repeat constructor.
  - destruct mode; reading; unfold deck_source, state_revision; read_part.
  - destruct command; reading; unfold state_revision, operation_command; read_part.
  - destruct speed; reading; unfold state_revision; read_part.
  - reading. destruct Hc as [? ?]. unfold state_revision, SessionCommands.elapsed_ticks. read_fields.
    rewrite (proj2 (Z.eqb_neq elapsed_ticks 0)), (proj2 (Z.ltb_ge 1000 elapsed_ticks)) by lia. done.
Qed.

Lemma decode_written (envelope : MessageEnvelope (gmap str V)) c :
  session_command_ok c → env_message_type _ envelope = MsgCommand → env_payload _ envelope = command_payload c →
  decode_command envelope = Ok c.
Proof.
  intros Hc Ht Hp. assert (Harm : ∃ arm, kind_arm (encode_command c).1 = Some arm) by (destruct c; by eexists).
  destruct Harm as [arm Harm]. rewrite (decode_payload _ _ _ _ Ht Hp eq_refl) by (done || by destruct c).
  by apply command_reads_back.
Qed.

Lemma match_text_otherwise {A B} (text : str) (arms : list (string * (A → B))) (otherwise : A → B) x :
  (∀ k arm, In (k, arm) arms → text ≠ lit k) → match_text text arms otherwise x = otherwise x.
Proof.
  induction arms as [|[k arm] arms IH]; [done|]. intros Hn. cbn [match_text].
  rewrite bool_decide_false by (by eapply Hn; left). apply IH. intros k' arm' Hin. eapply Hn. by right.
Qed.

Lemma find_field_given {A} k (a : A) fields : In (k, a) fields → ∃ a', find_field k fields = Some a'.
Proof.
  induction fields as [|[k' a'] fields IH]; [done|]. intros [[= -> ->]|Hin]; cbn [find_field].
  - rewrite String.eqb_refl. by eexists.
  - destruct (String.eqb k' k); [by eexists|]. by apply IH.
Qed.

(** The commands a session accepts. Every command the decoder gives is within the bounds
    of its fields (identifiers positive and of 64 bits, indexes of 16, texts given, MIDI
    addresses made by their constructors, catalogs and choices within their sizes, no track
    preserved twice), and every command within them is read back from the message that is
    written for it, whatever else the envelope holds; messages of another type and unknown
    kinds are refused as such. *)
Theorem commands_of_messages (c : SessionCommand) :
  (session_command_ok c ↔
    ∃ envelope : MessageEnvelope (gmap str V), env_message_type _ envelope = MsgCommand ∧ decode_command envelope = Ok c) ∧
  (∀ envelope : MessageEnvelope (gmap str V), session_command_ok c → env_message_type _ envelope = MsgCommand →
    env_payload _ envelope = command_payload c → decode_command envelope = Ok c) ∧
  (∀ envelope : MessageEnvelope (gmap str V), env_message_type _ envelope ≠ MsgCommand →
    decode_command envelope = Err DecodeWrongMessageType) ∧
  (∀ (envelope : MessageEnvelope (gmap str V)) kind, env_message_type _ envelope = MsgCommand →
    string_field (env_payload _ envelope) "kind" = Ok kind → (∀ k arm, kind_arm k = Some arm → kind ≠ lit k) →
    decode_command envelope = Err DecodeUnsupportedKind).
Proof.
  split_and!.
  - split; [|intros (? & _ & H); by eapply decoded_command_ok]. intros Hc.
    exists (mkMessageEnvelope _ 1 MsgCommand [] 1 [] [] (command_payload c)). split; [done|]. by apply decode_written.
  - intros. by apply decode_written.
  - intros envelope Ht. unfold decode_command. by destruct (env_message_type _ envelope).
  - intros envelope kind Ht Hk Hnone. unfold decode_command. rewrite Ht, Hk. cbn [result_bind].
    refine (match_text_otherwise _ _ (λ _, Err DecodeUnsupportedKind) _ _). intros pattern arm Hin ->.
    destruct (find_field_given _ _ _ Hin) as [arm' Harm]. by apply (Hnone pattern arm' Harm).
Qed.
End Complete.

(** ** A concrete JSON value *)

Inductive Json : Type :=
| JNull
| JBool (b : bool)
| JU64 (n : Z)
| JI64 (n : Z)
| JStr (s : str)
| JArray (l : list Json)
| JObject (m : gmap str Json)
| JPlanningPolicy (p : LightPlanningPolicy)
| JLaunchPolicy (p : LaunchPolicy).

#[export] Instance json_value : JsonValue Json := {
  as_str v := match v with JStr s => Some s | _ => None end;
  as_u64 v := match v with JU64 n => if in_range 0 U64_MAX n then Some n else None | _ => None end;
  as_i64 v := match v with JI64 n => Some n | _ => None end;
  as_bool v := match v with JBool b => Some b | _ => None end;
  as_array v := match v with JArray l => Some l | _ => None end;
  as_object v := match v with JObject m => Some m | _ => None end;
  is_null v := match v with JNull => true | _ => false end;
  planning_policy_of v := match v with JPlanningPolicy p => Some p | _ => None end;
  launch_policy_of v := match v with JLaunchPolicy p => Some p | _ => None end;
}.

Lemma json_u64 n : in_u64 n → as_u64 (JU64 n) = Some n.
Proof. intros H. cbn. by rewrite (proj2 (in_range_spec 0 U64_MAX n) H). Qed.

Lemma json_u64_range (v : Json) n : as_u64 v = Some n → in_u64 n.
Proof.
  destruct v as [| |m| | | | | |]; try done. cbn. destruct (in_range 0 U64_MAX m) eqn:E; [|done]. intros [= <-]. by apply in_range_spec in E.
Qed.

#[export] Instance json_laws : JsonLaws Json := {
  of_str := JStr; of_u64 := JU64; of_i64 := JI64; of_bool := JBool; of_array := JArray; of_object := JObject;
  of_planning_policy := JPlanningPolicy; of_launch_policy := JLaunchPolicy;
  as_of_str _ := eq_refl; as_of_u64 := json_u64; u64_not_null _ := eq_refl; as_of_i64 _ _ := eq_refl;
  as_of_bool _ := eq_refl; as_of_array _ := eq_refl; as_of_object _ := eq_refl;
  planning_policy_of_made _ := eq_refl; launch_policy_of_made _ := eq_refl; as_u64_range := json_u64_range;
}.

Definition witness_command : SessionCommand := MutateAutoloopCatalog 3 (MutSetButton 2 7 (lit "drop") (Some (lit "Strobe"))).

Lemma commands_of_messages_witness :
  decode_command (mkMessageEnvelope _ 1 MsgCommand (lit "m") 1 (lit "c") (lit "now") (command_payload (V := Json) witness_command))
  = Ok witness_command.
Proof.
  apply (proj1 (proj2 (commands_of_messages (V := Json) witness_command))); [|done|done].
  vm_compute. repeat split; discriminate.
Defined.
