(* ===== verification/Simulator.v ===== *)
(** * The simulator

    Models [lumi-simulator/src/provider.rs], [clock.rs] and [fixture.rs]: a deck source of
    two decks whose leader is moved along by a clock.  Every method of the provider is one
    definition.  The clock is the manual clock of the engine, a cell that the session shares
    with the provider and sets between its calls, so that it is a field of the state.  The
    JSON of a fixture is a parameter: the record it is parsed to, or the text of the error. *)

From stdpp Require Import prelude list gmap strings.
From Stdlib Require Import ZArith Lia.
From S2P Require Import Prelude.
From S2P Require Import Track.
From S2P Require Import Event.
From S2P Require Import DeckSource.
From S2P Require Import SessionCommands.
Open Scope Z_scope.

Definition BEAT_DENOMINATOR : Z := 60000000.

Definition multiplier (speed : SimulationSpeed) : Z :=
  match speed with SpeedOne => 1 | SpeedFour => 4 | SpeedSixteen => 16 | SpeedSixtyFour => 64 end.

Inductive SimulationControl : Type :=
| SetSpeed (speed : SimulationSpeed)
| SimPause
| SimResume
| SimReset
| AdvanceLeader.

Record SimulatedDeck := mkSimulatedDeck {
  sd_track_load_id : TrackLoadId;
  sd_metadata : TrackMetadata;
  sd_beat : Z;
  sd_phrase_index : Z;
  sd_playing : bool;
}.

Record SimulatorDeckSourceProvider := mkSimulator {
  sim_clock : MonotonicTime;
  sim_source_id : SourceId;
  sim_initial_leader_deck_id : DeckId;
  sim_leader_deck_id : DeckId;
  sim_decks : gmap Z SimulatedDeck;
  sim_sequence : Z;
  sim_last_clock : MonotonicTime;
  sim_beat_remainder : Z;
  sim_speed : SimulationSpeed;
  sim_paused : bool;
  sim_pending_events : list DomainEvent;
}.

Inductive SimulatorError : Type :=
| SimInvalidFixture (reason : str)
| SimUnsupportedFixtureVersion (version : Z)
| SimClockRegressed (previous current : MonotonicTime)
| SimBeatAccumulatorOverflow
| SimSequenceOverflow
| SimLeaderDeckMissing
| SimNextDeckMissing
| SimUnknownDeck (deck_id : DeckId)
| SimTrackLoadIdOverflow
| SimTranscriptEncoding (error : str).

Notation simulator := SimulatorDeckSourceProvider.
Notation sim A := (method simulator SimulatorError A).

Implicit Types (p : simulator).

Definition set_sim_clock (x : MonotonicTime) p : simulator :=
  mkSimulator x (sim_source_id p) (sim_initial_leader_deck_id p) (sim_leader_deck_id p) (sim_decks p)
    (sim_sequence p) (sim_last_clock p) (sim_beat_remainder p) (sim_speed p) (sim_paused p) (sim_pending_events p).
Definition set_sim_leader_deck_id (x : DeckId) p : simulator :=
  mkSimulator (sim_clock p) (sim_source_id p) (sim_initial_leader_deck_id p) x (sim_decks p)
    (sim_sequence p) (sim_last_clock p) (sim_beat_remainder p) (sim_speed p) (sim_paused p) (sim_pending_events p).
Definition set_sim_decks (x : gmap Z SimulatedDeck) p : simulator :=
  mkSimulator (sim_clock p) (sim_source_id p) (sim_initial_leader_deck_id p) (sim_leader_deck_id p) x
    (sim_sequence p) (sim_last_clock p) (sim_beat_remainder p) (sim_speed p) (sim_paused p) (sim_pending_events p).
Definition set_sim_last_clock (x : MonotonicTime) p : simulator :=
  mkSimulator (sim_clock p) (sim_source_id p) (sim_initial_leader_deck_id p) (sim_leader_deck_id p) (sim_decks p)
    (sim_sequence p) x (sim_beat_remainder p) (sim_speed p) (sim_paused p) (sim_pending_events p).
Definition set_sim_beat_remainder (x : Z) p : simulator :=
  mkSimulator (sim_clock p) (sim_source_id p) (sim_initial_leader_deck_id p) (sim_leader_deck_id p) (sim_decks p)
    (sim_sequence p) (sim_last_clock p) x (sim_speed p) (sim_paused p) (sim_pending_events p).
Definition set_sim_speed (x : SimulationSpeed) p : simulator :=
  mkSimulator (sim_clock p) (sim_source_id p) (sim_initial_leader_deck_id p) (sim_leader_deck_id p) (sim_decks p)
    (sim_sequence p) (sim_last_clock p) (sim_beat_remainder p) x (sim_paused p) (sim_pending_events p).
Definition set_sim_paused (x : bool) p : simulator :=
  mkSimulator (sim_clock p) (sim_source_id p) (sim_initial_leader_deck_id p) (sim_leader_deck_id p) (sim_decks p)
    (sim_sequence p) (sim_last_clock p) (sim_beat_remainder p) (sim_speed p) x (sim_pending_events p).
Definition set_sim_pending_events (x : list DomainEvent) p : simulator :=
  mkSimulator (sim_clock p) (sim_source_id p) (sim_initial_leader_deck_id p) (sim_leader_deck_id p) (sim_decks p)
    (sim_sequence p) (sim_last_clock p) (sim_beat_remainder p) (sim_speed p) (sim_paused p) x.

(** ** The manual clock *)

Definition ManualClock_advance (ticks current : Z) : option Z := checked_add_u64 current ticks.

(** ** Publishing *)

Definition sim_emit (observed_at : MonotonicTime) (observation : DeckObservation) : sim unit := λ p,
  match checked_add_u64 (sim_sequence p) 1 with
  | None => (p, Err SimSequenceOverflow)
  | Some sequence =>
      (mkSimulator (sim_clock p) (sim_source_id p) (sim_initial_leader_deck_id p) (sim_leader_deck_id p) (sim_decks p)
         sequence (sim_last_clock p) (sim_beat_remainder p) (sim_speed p) (sim_paused p)
         (sim_pending_events p ++
            [Observation (mkObservationEnvelope (sim_source_id p) sequence observed_at observation)]), Ok tt)
  end.

(** [self.decks.get(&self.leader_deck_id)] with its error, and the number of the deck. *)
Definition leader_snapshot : sim (DeckId * SimulatedDeck) := λ p,
  (p, ok_or ((λ deck, (sim_leader_deck_id p, deck)) <$> sim_decks p !! sim_leader_deck_id p) SimLeaderDeckMissing).

(** The loads of all decks, in the order of the [BTreeMap]. *)
Fixpoint emit_loads (now : MonotonicTime) (decks : list (DeckId * SimulatedDeck)) : sim unit :=
  match decks with
  | [] => method_ret tt
  | (deck_id, deck) :: decks =>
      do! sim_emit now (TrackLoaded deck_id (sd_metadata deck) (sd_track_load_id deck)) then
      emit_loads now decks
  end.

Definition queue_initial_events : sim unit :=
  let! now := method_get sim_clock in
  do! sim_emit now (SourceStatusChanged SourceReady) then
  let! decks := method_get (λ p, sort_by_key fst (map_to_list (sim_decks p))) in
  do! emit_loads now decks then
  let! leader := leader_snapshot in
  let '(deck_id, deck) := leader in
  do! sim_emit now (LeaderChanged deck_id (sd_track_load_id deck)) then
  do! sim_emit now (PlaybackPosition deck_id (sd_track_load_id deck) (sd_beat deck)) then
  do! sim_emit now (PhraseChanged deck_id (sd_track_load_id deck) (sd_phrase_index deck)) then
  sim_emit now (PlaybackStateChanged deck_id (sd_track_load_id deck) true).

(** ** Moving the leader *)

Definition set_deck (deck_id : DeckId) (deck : SimulatedDeck) p : simulator :=
  set_sim_decks (<[deck_id := deck]> (sim_decks p)) p.

Definition set_leader_playing (playing : bool) : sim unit :=
  let! now := method_get sim_clock in
  let! leader := leader_snapshot in
  let '(deck_id, deck) := leader in
  if Bool.eqb (sd_playing deck) playing then method_ret tt
  else
    do! method_modify (set_deck deck_id
      (mkSimulatedDeck (sd_track_load_id deck) (sd_metadata deck) (sd_beat deck) (sd_phrase_index deck) playing)) then
    sim_emit now (PlaybackStateChanged deck_id (sd_track_load_id deck) playing).

(** The phrase that starts at the next beat. *)
Definition sim_next_phrase (deck : SimulatedDeck) : option Z :=
  tp_index <$> List.find (λ phrase, tp_start_beat phrase =? sd_beat deck + 1) (tm_phrases (sd_metadata deck)).

Definition next_beat (deck : SimulatedDeck) : SimulatedDeck :=
  mkSimulatedDeck (sd_track_load_id deck) (sd_metadata deck) (sd_beat deck + 1)
    (default (sd_phrase_index deck) (sim_next_phrase deck)) (sd_playing deck).

Definition advance_one_beat (now : MonotonicTime) : sim bool :=
  let! leader := leader_snapshot in
  let '(deck_id, deck) := leader in
  if tm_duration_beats (sd_metadata deck) <=? sd_beat deck then method_ret false
  else
    do! method_modify (set_deck deck_id (next_beat deck)) then
    do! sim_emit now (PlaybackPosition deck_id (sd_track_load_id deck) (sd_beat deck + 1)) then
    do! match sim_next_phrase deck with
        | Some index => sim_emit now (PhraseChanged deck_id (sd_track_load_id deck) index)
        | None => method_ret tt
        end then
    method_ret true.

(** [for _ in 0..beats_to_emit] *)
Fixpoint advance_beats (beats : nat) (now : MonotonicTime) : sim unit :=
  match beats with
  | O => method_ret tt
  | S beats =>
      let! advanced := advance_one_beat now in
      if negb advanced then
        do! method_modify (set_sim_paused true) then
        set_leader_playing false
      else advance_beats beats now
  end.

(** The products and sums are of 128 bits. *)
Definition checked_u128 (x : Z) : option Z := if x <? 2 ^ 128 then Some x else None.

Definition beat_accumulator (elapsed bpm_milli : Z) (speed : SimulationSpeed) (remainder : Z) : option Z :=
  x ← checked_u128 (elapsed * bpm_milli);
  increment ← checked_u128 (x * multiplier speed);
  checked_u128 (remainder + increment).

Definition update_to_clock : sim unit :=
  let! now := method_get sim_clock in
  let! last := method_get sim_last_clock in
  if now <? last then method_fail (SimClockRegressed last now)
  else
    let elapsed := now - last in
    do! method_modify (set_sim_last_clock now) then
    let! paused := method_get sim_paused in
    if paused || (elapsed =? 0) then method_ret tt
    else
      let! leader := leader_snapshot in
      let! speed := method_get sim_speed in
      let! remainder := method_get sim_beat_remainder in
      let! accumulator := method_result (ok_or
        (beat_accumulator elapsed (tm_bpm_milli (sd_metadata leader.2)) speed remainder) SimBeatAccumulatorOverflow) in
      let whole_beats := accumulator / BEAT_DENOMINATOR in
      do! method_modify (set_sim_beat_remainder (accumulator mod BEAT_DENOMINATOR)) then
      if U32_MAX <? whole_beats then method_fail SimBeatAccumulatorOverflow
      else advance_beats (Z.to_nat whole_beats) now.

(** The first deck that is not the leader. *)
Definition next_deck_id p : option DeckId :=
  List.find (λ deck_id, negb (deck_id =? sim_leader_deck_id p)) (sort_by_key id ((map_to_list (sim_decks p)).*1)).

Definition advance_leader : sim unit :=
  do! set_leader_playing false then
  let! next := method_get next_deck_id in
  let! next_deck_id := method_result (ok_or next SimNextDeckMissing) in
  do! method_modify (set_sim_leader_deck_id next_deck_id) then
  do! method_modify (set_sim_beat_remainder 0) then
  let! now := method_get sim_clock in
  let! leader := leader_snapshot in
  let '(_, deck) := leader in
  let! paused := method_get sim_paused in
  do! (if negb paused then set_leader_playing true else method_ret tt) then
  do! sim_emit now (LeaderChanged next_deck_id (sd_track_load_id deck)) then
  do! sim_emit now (PlaybackPosition next_deck_id (sd_track_load_id deck) (sd_beat deck)) then
  sim_emit now (PhraseChanged next_deck_id (sd_track_load_id deck) (sd_phrase_index deck)).

(** ** The session's calls *)

(** A deck at its start, and the leader of a fresh session. *)
Definition rewound (deck : SimulatedDeck) : SimulatedDeck :=
  mkSimulatedDeck (sd_track_load_id deck) (sd_metadata deck) 0 0 false.

Definition started (deck : SimulatedDeck) : SimulatedDeck :=
  mkSimulatedDeck (sd_track_load_id deck) (sd_metadata deck) (sd_beat deck) (sd_phrase_index deck) true.

Definition sim_reset : sim unit :=
  do! method_modify (set_sim_pending_events []) then
  do! method_modify (λ p, set_sim_leader_deck_id (sim_initial_leader_deck_id p) p) then
  do! method_modify (set_sim_speed SpeedOne) then
  do! method_modify (set_sim_beat_remainder 0) then
  do! method_modify (λ p, set_sim_last_clock (sim_clock p) p) then
  do! method_modify (λ p, set_sim_decks (alter started (sim_initial_leader_deck_id p) (rewound <$> sim_decks p)) p) then
  do! method_modify (set_sim_paused false) then
  queue_initial_events.

Definition apply_control (control : SimulationControl) : sim unit :=
  match control with
  | SetSpeed speed =>
      do! update_to_clock then
      method_modify (set_sim_speed speed)
  | SimPause =>
      do! update_to_clock then
      do! method_modify (set_sim_paused true) then
      set_leader_playing false
  | SimResume =>
      do! method_modify (λ p, set_sim_last_clock (sim_clock p) p) then
      do! method_modify (set_sim_paused false) then
      set_leader_playing true
  | SimReset => sim_reset
  | AdvanceLeader =>
      do! update_to_clock then
      advance_leader
  end.

(** [self.decks.values().map(...).max().unwrap_or(0)] *)
Definition last_load_id p : Z := foldr Z.max 0 ((λ kv, sd_track_load_id kv.2) <$> map_to_list (sim_decks p)).

Definition sim_load_track (deck_id : DeckId) (metadata : TrackMetadata) : sim TrackLoadId :=
  do! update_to_clock then
  let! known := method_get (λ p, bool_decide (is_Some (sim_decks p !! deck_id))) in
  if negb known then method_fail (SimUnknownDeck deck_id)
  else
    let! last := method_get last_load_id in
    let! track_load_id := method_result (ok_or (checked_add_u64 last 1) SimTrackLoadIdOverflow) in
    do! method_modify (set_deck deck_id (mkSimulatedDeck track_load_id metadata 0 0 false)) then
    let! is_leader := method_get (λ p, deck_id =? sim_leader_deck_id p) in
    do! (if is_leader then method_modify (set_sim_beat_remainder 0) else method_ret tt) then
    let! now := method_get sim_clock in
    do! sim_emit now (TrackLoaded deck_id metadata track_load_id) then
    do! (if is_leader then
           do! sim_emit now (PlaybackPosition deck_id track_load_id 0) then
           sim_emit now (PhraseChanged deck_id track_load_id 0)
         else method_ret tt) then
    method_ret track_load_id.

#[global] Instance simulator_deck_source : DeckSourceProvider simulator SimulatorError := {
  provider_kind _ := lit "simulator";
  drain_events p := (set_sim_pending_events [] p, Ok (sim_pending_events p));
}.

(** ** Fixtures *)

Record KeyFixture := mkKeyFixture { kf_pitch_class : str; kf_mode : str }.

Record PhraseFixture := mkPhraseFixture { pf_index : Z; pf_start_beat : Z; pf_end_beat : Z; pf_kind : str }.

Record TrackFixture := mkTrackFixture {
  tf_id : Z;
  tf_title : str;
  tf_artist : str;
  tf_bpm_milli : Z;
  tf_key : KeyFixture;
  tf_color_rgb : Z;
  tf_duration_beats : Z;
  tf_phrases : list PhraseFixture;
}.

Record DeckFixture := mkDeckFixture { xf_deck_id : Z; xf_track_load_id : Z; xf_track : TrackFixture }.

Record DemoFixture := mkDemoFixture {
  df_schema_version : Z;
  df_source_id : Z;
  df_initial_leader_deck_id : Z;
  df_fixture_decks : list DeckFixture;
}.

Record ParsedDeck := mkParsedDeck { pd_deck_id : DeckId; pd_track_load_id : TrackLoadId; pd_metadata : TrackMetadata }.

Record ParsedFixture := mkParsedFixture {
  px_source_id : SourceId;
  px_initial_leader_deck_id : DeckId;
  px_decks : list ParsedDeck;
}.

Definition invalid_fixture {A} (reason : str) : result A SimulatorError := Err (SimInvalidFixture reason).

Definition parse_pitch_class (value : str) : result PitchClass SimulatorError :=
  match_text value
    [("c", Ok PitchC); ("cSharp", Ok PitchCSharp); ("d", Ok PitchD); ("dSharp", Ok PitchDSharp); ("e", Ok PitchE);
     ("f", Ok PitchF); ("fSharp", Ok PitchFSharp); ("g", Ok PitchG); ("gSharp", Ok PitchGSharp); ("a", Ok PitchA);
     ("aSharp", Ok PitchASharp); ("b", Ok PitchB)]
    (invalid_fixture (lit "unknown pitch class " ++ value)).

Definition parse_key_mode (value : str) : result KeyMode SimulatorError :=
  match_text value [("major", Ok KeyMajor); ("minor", Ok KeyMinor)]
    (invalid_fixture (lit "unknown key mode " ++ value)).

Definition parse_phrase_kind (value : str) : result PhraseKind SimulatorError :=
  match_text value
    [("intro", Ok KindIntro); ("verse", Ok KindVerse); ("build", Ok KindBuild); ("drop", Ok KindDrop);
     ("breakdown", Ok KindBreakdown); ("outro", Ok KindOutro)]
    (invalid_fixture (lit "unknown phrase kind " ++ value)).

(** [TrackValidationError]'s display. *)
Definition track_error_text (e : TrackValidationError) : str :=
  match e with
  | TrackEmptyTitle => lit "track title may not be empty"
  | TrackEmptyArtist => lit "track artist may not be empty"
  | TrackBpmOutOfRange value => lit "track BPM " ++ show_u value ++ lit " is outside range"
  | TrackEmptyDuration => lit "track duration must be greater than zero"
  | TrackEmptyPhrases => lit "track phrases may not be empty"
  | TrackUnorderedPhraseIndex => lit "track phrase indexes must be contiguous and ordered"
  | TrackInvalidPhraseRange => lit "track phrases must be contiguous and within duration"
  | TrackIncompletePhraseCoverage => lit "track phrases must cover the complete track"
  | TrackInvalidIdentityFacts => lit "track identity facts must be complete and revisioned"
  end.

Definition parse_phrase (phrase : PhraseFixture) : result TrackPhrase SimulatorError :=
  let? kind := parse_phrase_kind (pf_kind phrase) in
  Ok (mkTrackPhrase (pf_index phrase) (pf_start_beat phrase) (pf_end_beat phrase) kind).

Definition parse_deck (deck : DeckFixture) : result ParsedDeck SimulatorError :=
  let track := xf_track deck in
  let? phrases := collect parse_phrase (tf_phrases track) in
  let? _ := refuse (16777215 <? tf_color_rgb track)
              (SimInvalidFixture (lit "track color must be a normalized 24-bit sRGB value")) in
  let? pitch := parse_pitch_class (kf_pitch_class (tf_key track)) in
  let? mode := parse_key_mode (kf_mode (tf_key track)) in
  let? metadata := map_err (λ e, SimInvalidFixture (track_error_text e))
    (TrackMetadata_try_new_with_color (tf_id track) (tf_title track) (tf_artist track) (tf_bpm_milli track)
       (mkMusicalKey pitch mode) (Some (TrackColor_from_rgb_u32 (tf_color_rgb track))) (tf_duration_beats track) phrases) in
  Ok (mkParsedDeck (xf_deck_id deck) (xf_track_load_id deck) metadata).

Section Fixture.
(** [serde_json::from_str], with the display of its error. *)
Variable from_str : str → result DemoFixture str.

Definition parse_fixture (input : str) : result ParsedFixture SimulatorError :=
  let? fixture := map_err SimInvalidFixture (from_str input) in
  let? _ := refuse (negb (df_schema_version fixture =? 1)) (SimUnsupportedFixtureVersion (df_schema_version fixture)) in
  let? _ := refuse (negb (length (df_fixture_decks fixture) =? 2)%nat)
              (SimInvalidFixture (lit "the Epic 1 fixture must contain exactly two decks")) in
  let? decks := collect parse_deck (df_fixture_decks fixture) in
  let? _ := refuse (negb (existsb (λ deck, pd_deck_id deck =? df_initial_leader_deck_id fixture) decks))
              (SimInvalidFixture (lit "the initial leader deck is not present")) in
  Ok (mkParsedFixture (df_source_id fixture) (df_initial_leader_deck_id fixture) decks).

(** [collect] into a [BTreeMap]: a later deck replaces one of the same number. *)
Definition fixture_decks (decks : list ParsedDeck) : gmap Z SimulatedDeck :=
  foldl (λ m deck, <[pd_deck_id deck := mkSimulatedDeck (pd_track_load_id deck) (pd_metadata deck) 0 0 false]> m) ∅ decks.

Definition from_fixture_json (input : str) (clock : MonotonicTime) : result simulator SimulatorError :=
  let? fixture := parse_fixture input in
  let leader := px_initial_leader_deck_id fixture in
  let provider := mkSimulator clock (px_source_id fixture) leader leader (alter started leader (fixture_decks (px_decks fixture)))
    0 clock 0 SpeedOne false [] in
  let '(provider, queued) := queue_initial_events provider in
  let? _ := queued in
  Ok provider.
End Fixture.
