(* ===== verification/SimulatorProps.v ===== *)
(** * The simulator: properties

    The beat of the leader is the time that went by, to the fraction of a beat and however
    often the clock is read, and the runtime shows the decks as the simulator believes them
    to be, whatever is asked of it. *)

From stdpp Require Import prelude list gmap strings.
From Stdlib Require Import ZArith Lia.
From S2P Require Import Prelude.
From S2P Require Import Track.
From S2P Require Import Event.
From S2P Require Import State.
From S2P Require Import Reducer.
From S2P Require Import ReducerProps.
From S2P Require Import Demo.
From S2P Require Import DeckSource.
From S2P Require Import Publishing.
From S2P Require Import LocalPlayback.
From S2P Require Import SessionCommands.
From S2P Require Import Simulator.
Open Scope Z_scope.

Implicit Types (p x : SimulatorDeckSourceProvider) (v : SourceView) (w : DeckView) (k : SimulatedDeck).

(** ** Phrases *)

(** The phrase a beat is in is the only one that covers it. *)
Lemma covering_phrase m b ph :
  metadata_wf m → ph ∈ tm_phrases m → covers b ph = true → local_phrase m b = tp_index ph.
Proof.
  intros Hm Hph Hc. assert (tm_phrases m ≠ []) as Hne by (intros E; rewrite E in Hph; by apply not_elem_of_nil in Hph).
  destruct (metadata_partition m Hm Hne) as [Hi Ht].
  pose proof (tiles_covered_bounds _ _ _ _ _ Ht Hph Hc) as Hb.
  destruct (tiles_find _ _ _ Ht Hi Hb) as (y & Hf & Hl & Hy). apply list_elem_of_lookup in Hph as [i Hph].
  assert (i = Z.to_nat (tp_index y)) as ->.
  { eapply (tiles_cover_unique 0 (tm_phrases m) (tm_duration_beats m) b); [exact Ht|exact Hph|exact Hl|done|]. by apply covers_spec. }
  change (tm_phrases m !! Z.to_nat (tp_index y) = Some y) in Hl. rewrite Hl in Hph. injection Hph as ->.
  unfold local_phrase. change (List.find (covers b) (tm_phrases m)) with
    (List.find (λ ph, (tp_start_beat ph <=? b) && (b <? tp_end_beat ph)) (tm_phrases m)) in Hf. by rewrite Hf.
Qed.

(** Behind the last phrase the last phrase goes on. *)
Lemma phrase_at_end m ph :
  metadata_wf m → ph ∈ tm_phrases m → covers (tm_duration_beats m - 1) ph = true →
  local_phrase m (tm_duration_beats m) = tp_index ph.
Proof.
  intros Hm Hph Hc. assert (tm_phrases m ≠ []) as Hne by (intros E; rewrite E in Hph; by apply not_elem_of_nil in Hph).
  destruct (metadata_partition m Hm Hne) as [Hi Ht]. unfold local_phrase.
  destruct (List.find _ _) as [y|] eqn:Hf.
  { apply find_some in Hf as [Hin Hy]. apply list_elem_of_In in Hin.
    pose proof (tiles_covered_bounds _ _ _ (tm_duration_beats m) _ Ht Hin Hy). lia. }
  destruct (last (tm_phrases m)) as [y|] eqn:Hl; [|by apply last_None in Hl].
  apply last_Some in Hl as [l E]. rewrite E in Ht. apply tiles_app in Ht as (e & Ht & Hs & Hy & He). cbn in Hs, Hy, He.
  rewrite E in Hph. apply covers_spec in Hc as [Hc1 Hc2]. cbn in Hc1, Hc2.
  apply elem_of_app in Hph as [Hph|Hph%list_elem_of_singleton]; [|by subst].
  destruct (tiles_elem _ _ _ _ Ht Hph) as (_ & _ & Hend). cbn in Hend. lia.
Qed.

Lemma next_phrase_spec k :
  metadata_wf (sd_metadata k) → 0 ≤ sd_beat k < tm_duration_beats (sd_metadata k) →
  sd_phrase_index k = local_phrase (sd_metadata k) (sd_beat k) →
  sd_phrase_index (next_beat k) = local_phrase (sd_metadata k) (sd_beat k + 1).
Proof.
  intros Hm Hb Hk. cbn [next_beat sd_phrase_index]. unfold sim_next_phrase. rewrite Hk.
  set (m := sd_metadata k) in *. set (b := sd_beat k) in *. clearbody m b. clear Hk k.
  destruct (decide (tm_phrases m = [])) as [E|Hne]; [unfold local_phrase; by rewrite E|].
  destruct (metadata_partition m Hm Hne) as [Hi Ht].
  destruct (List.find _ _) as [y|] eqn:Hf; cbn [fmap option_fmap option_map default id].
  - apply find_some in Hf as [Hin Hy]. apply list_elem_of_In in Hin. apply Z.eqb_eq in Hy.
    symmetry. apply covering_phrase; [done|done|]. destruct (tiles_elem _ _ _ _ Ht Hin) as (_ & ? & _).
    apply covers_spec. cbn in *. lia.
  - destruct (tiles_cover _ _ _ b Ht ltac:(lia)) as (i & ph & Hph & Hc). apply list_elem_of_lookup_2 in Hph.
    rewrite (covering_phrase m b ph) by done. symmetry.
    destruct (decide (b + 1 = tm_duration_beats m)) as [Eb|Hend].
    { rewrite Eb. apply phrase_at_end; [done|done|]. by replace (tm_duration_beats m - 1) with b by lia. }
    apply covering_phrase; [done|done|]. apply covers_spec in Hc. apply covers_spec.
    destruct (decide (b + 1 < range_end ph)); [cbn in *; lia|].
    destruct (tiles_cover _ _ _ (b + 1) Ht ltac:(lia)) as (j & y & Hy & Hc'). apply list_elem_of_lookup_2 in Hy as Hy'.
    apply covers_spec in Hc'. pose proof (find_none _ _ Hf y ltac:(by apply list_elem_of_In)) as Hn. cbn in Hn. apply Z.eqb_neq in Hn.
    assert (y = ph) as ->; [|cbn in *; lia].
    apply list_elem_of_lookup in Hph as [i' Hph]. enough (i' = j) as -> by congruence.
    eapply (tiles_cover_unique 0 (tm_phrases m) (tm_duration_beats m) b); [exact Ht|exact Hph|exact Hy|by apply covers_spec|apply covers_spec; cbn in *; lia].
Qed.

(** ** The state but for what is published *)

Definition sim_core p : SimulatorDeckSourceProvider :=
  mkSimulator (sim_clock p) 0 (sim_initial_leader_deck_id p) (sim_leader_deck_id p) (sim_decks p) 0
    (sim_last_clock p) (sim_beat_remainder p) (sim_speed p) (sim_paused p) [].

#[export] Instance sim_publisher : Publisher SimulatorDeckSourceProvider SimulatorDeckSourceProvider := {|
  publication p := mkPublication (sim_source_id p) (sim_sequence p) (sim_pending_events p);
  remainder := sim_core;
|}.

Lemma sim_emits : emits SimSequenceOverflow sim_emit.
Proof. intros t o p. unfold sim_emit. simpl. by destruct (checked_add_u64 _ _). Qed.

Lemma bind_run {S E A B} (m : method S E A) (k : A → method S E B) s s' a :
  m s = (s', Ok a) → method_bind m k s = k a s'.
Proof. intros H. unfold method_bind. by rewrite H. Qed.

(** A method that succeeds with the core it gives and at most [n] publications. *)
Definition sim_yields {A} (m : sim A) p (a : A) (y : SimulatorDeckSourceProvider) (n : Z) : Prop :=
  ∃ q, m p = (q, Ok a) ∧ sim_core q = y ∧ sim_sequence p ≤ sim_sequence q ≤ sim_sequence p + n.

Lemma emit_yields t o p : sim_sequence p < U64_MAX → sim_yields (sim_emit t o) p tt (sim_core p) 1.
Proof.
  intros Hs. unfold sim_yields, sim_emit, checked_add_u64. rewrite (proj2 (Z.leb_le _ _)) by lia.
  eexists. split_and!; [done|done|..]; cbn; lia.
Qed.

Lemma ret_yields {A} (a : A) p n : 0 ≤ n → sim_yields (method_ret a) p a (sim_core p) n.
Proof. intros Hn. eexists. split_and!; [done|done|lia|lia]. Qed.

Lemma bind_yields {A B} (m : sim A) (k : A → sim B) p a b y y' n n' :
  sim_yields m p a y n →
  (∀ q, sim_core q = y → sim_sequence p ≤ sim_sequence q ≤ sim_sequence p + n → sim_yields (k a) q b y' n') →
  sim_yields (method_bind m k) p b y' (n + n').
Proof.
  intros (q & Hm & Hq & Hs) Hk. destruct (Hk q Hq Hs) as (r & Hr & Hy & Hs').
  exists r. rewrite (bind_run _ _ _ _ _ Hm). split_and!; [done|done|lia|lia].
Qed.

Lemma more_yields {A} (m : sim A) p a y n n' : n ≤ n' → sim_yields m p a y n → sim_yields m p a y n'.
Proof. intros Hn (q & ? & ? & ?). exists q. split_and!; [done|done|lia|lia]. Qed.

Lemma modify_yields f p y : sim_core (f p) = y → sim_sequence (f p) = sim_sequence p → sim_yields (method_modify f) p tt y 0.
Proof. intros Hf Hs. exists (f p). split_and!; [done|done|lia|lia]. Qed.

Lemma core_fields p q :
  sim_core p = sim_core q →
  sim_clock p = sim_clock q ∧ sim_initial_leader_deck_id p = sim_initial_leader_deck_id q ∧
  sim_leader_deck_id p = sim_leader_deck_id q ∧ sim_decks p = sim_decks q ∧ sim_last_clock p = sim_last_clock q ∧
  sim_beat_remainder p = sim_beat_remainder q ∧ sim_speed p = sim_speed q ∧ sim_paused p = sim_paused q.
Proof. by intros [= -> -> -> -> -> -> -> ->]. Qed.

(** Reading a field of the core. *)
Lemma get_yields {A B} (f : SimulatorDeckSourceProvider → A) (k : A → sim B) p b y n :
  sim_yields (k (f p)) p b y n → sim_yields (method_bind (method_get f) k) p b y n.
Proof. done. Qed.

Lemma leader_yields {B} (m : DeckId * SimulatedDeck → sim B) p k b y n :
  sim_decks p !! sim_leader_deck_id p = Some k → sim_yields (m (sim_leader_deck_id p, k)) p b y n →
  sim_yields (method_bind leader_snapshot m) p b y n.
Proof. intros Hk Hm. unfold sim_yields, method_bind, leader_snapshot. rewrite Hk. exact Hm. Qed.

(** ** Beats *)

Lemma one_beat_yields now p k :
  sim_decks p !! sim_leader_deck_id p = Some k → sd_beat k < tm_duration_beats (sd_metadata k) →
  sim_sequence p + 2 ≤ U64_MAX →
  sim_yields (advance_one_beat now) p true (set_deck (sim_leader_deck_id p) (next_beat k) (sim_core p)) 2.
Proof.
  intros Hk Hb Hs. unfold advance_one_beat. apply (leader_yields _ _ k); [done|].
  rewrite (proj2 (Z.leb_gt _ _)) by lia.
  apply (bind_yields _ _ _ tt _ (set_deck (sim_leader_deck_id p) (next_beat k) (sim_core p)) _ 0 2); [by apply modify_yields|].
  intros q Hq Hsq. apply (bind_yields _ _ _ tt _ (sim_core q) _ 1 1); [apply emit_yields; lia|].
  intros r Hr Hsr. rewrite <- Hq. apply (bind_yields _ _ _ tt _ (sim_core r) _ 1 0).
  - destruct (sim_next_phrase k); [apply emit_yields; lia|by apply ret_yields].
  - intros u Hu _. rewrite <- Hr, <- Hu. by apply ret_yields.
Qed.

Definition with_playing (playing : bool) k : SimulatedDeck :=
  mkSimulatedDeck (sd_track_load_id k) (sd_metadata k) (sd_beat k) (sd_phrase_index k) playing.

Lemma set_deck_id d k p : sim_decks p !! d = Some k → set_deck d k p = p.
Proof. intros Hk. unfold set_deck. rewrite insert_id by done. by destruct p. Qed.

Lemma set_playing_yields playing p k :
  sim_decks p !! sim_leader_deck_id p = Some k → sim_sequence p < U64_MAX →
  sim_yields (set_leader_playing playing) p tt (set_deck (sim_leader_deck_id p) (with_playing playing k) (sim_core p)) 1.
Proof.
  intros Hk Hs. unfold set_leader_playing. apply get_yields, (leader_yields _ _ k); [done|].
  destruct (Bool.eqb (sd_playing k) playing) eqn:E.
  - apply Bool.eqb_prop in E as <-. rewrite set_deck_id; [by apply ret_yields|]. cbn. rewrite Hk. by destruct k.
  - apply (bind_yields _ _ _ tt _ (set_deck (sim_leader_deck_id p) (with_playing playing k) (sim_core p)) _ 0 1); [by apply modify_yields|].
    intros q Hq Hsq. rewrite <- Hq. apply emit_yields. lia.
Qed.

Definition sim_moved (n : nat) k : SimulatedDeck := Nat.iter n next_beat k.

Lemma moved_fields n k :
  sd_track_load_id (sim_moved n k) = sd_track_load_id k ∧ sd_metadata (sim_moved n k) = sd_metadata k ∧
  sd_playing (sim_moved n k) = sd_playing k ∧ sd_beat (sim_moved n k) = sd_beat k + Z.of_nat n.
Proof.
  induction n as [|n (H1 & H2 & H3 & H4)]; [cbn; split_and!; lia || done|]. change (sim_moved (S n) k) with (next_beat (sim_moved n k)).
  cbn [next_beat sd_track_load_id sd_metadata sd_playing sd_beat]. rewrite H1, H2, H3, H4. split_and!; [done..|lia].
Qed.

Lemma moved_step n k : sim_moved n (next_beat k) = sim_moved (S n) k.
Proof. unfold sim_moved. by rewrite Nat.iter_succ_r. Qed.

Lemma moved_phrase n k :
  metadata_wf (sd_metadata k) → 0 ≤ sd_beat k → sd_beat k + Z.of_nat n ≤ tm_duration_beats (sd_metadata k) →
  sd_phrase_index k = local_phrase (sd_metadata k) (sd_beat k) →
  sd_phrase_index (sim_moved n k) = local_phrase (sd_metadata k) (sd_beat (sim_moved n k)).
Proof.
  intros Hm H0 Hb Hk. induction n as [|n IH]; [done|]. destruct (moved_fields n k) as (_ & E2 & _ & E4).
  destruct (moved_fields (S n) k) as (_ & _ & _ & E4'). rewrite E4', Nat2Z.inj_succ.
  replace (sd_beat k + Z.succ (Z.of_nat n)) with (sd_beat (sim_moved n k) + 1) by lia.
  change (sim_moved (S n) k) with (next_beat (sim_moved n k)). rewrite <- E2. apply next_phrase_spec; rewrite ?E2; [done|lia|].
  apply IH. lia.
Qed.

(** The room that is left on the track. *)
Definition sim_room k : Z := tm_duration_beats (sd_metadata k) - sd_beat k.

Lemma room_next k : sim_room (next_beat k) = sim_room k - 1.
Proof. unfold sim_room. cbn. lia. Qed.

Definition after_beats (n : nat) k p : SimulatorDeckSourceProvider :=
  if Z.of_nat n <=? sim_room k then set_deck (sim_leader_deck_id p) (sim_moved n k) p
  else set_sim_paused true (set_deck (sim_leader_deck_id p) (with_playing false (sim_moved (Z.to_nat (sim_room k)) k)) p).

Lemma set_deck_twice d k k' p : set_deck d k (set_deck d k' p) = set_deck d k p.
Proof. unfold set_deck. cbn. by rewrite insert_insert_eq. Qed.

Lemma after_beats_step n k p :
  0 < sim_room k →
  after_beats n (next_beat k) (set_deck (sim_leader_deck_id p) (next_beat k) p) = after_beats (S n) k p.
Proof.
  intros Hr. unfold after_beats. rewrite room_next.
  rewrite Nat2Z.inj_succ. destruct (Z.leb_spec (Z.of_nat n) (sim_room k - 1)), (Z.leb_spec (Z.succ (Z.of_nat n)) (sim_room k)); try lia;
    cbn [sim_leader_deck_id set_deck set_sim_decks]; fold (set_deck (sim_leader_deck_id p) (next_beat k) p);
    change (sim_leader_deck_id (set_deck (sim_leader_deck_id p) (next_beat k) p)) with (sim_leader_deck_id p);
    rewrite set_deck_twice, moved_step; [done|].
  by replace (S (Z.to_nat (sim_room k - 1))) with (Z.to_nat (sim_room k)) by lia.
Qed.

Lemma beats_yields now n : ∀ p k,
  sim_decks p !! sim_leader_deck_id p = Some k → 0 ≤ sim_room k →
  sim_sequence p + 2 * Z.min (Z.of_nat n) (sim_room k) + 1 ≤ U64_MAX →
  sim_yields (advance_beats n now) p tt (after_beats n k (sim_core p)) (2 * Z.min (Z.of_nat n) (sim_room k) + 1).
Proof.
  induction n as [|n IH]; intros p k Hk Hr Hs.
  - unfold after_beats. rewrite (proj2 (Z.leb_le _ _)) by lia. cbn [moved Nat.iter nat_rect].
    rewrite set_deck_id by done. apply ret_yields. lia.
  - cbn [advance_beats]. destruct (Z.eqb_spec (sim_room k) 0) as [E|Hne].
    + assert (advance_one_beat now p = (p, Ok false)) as Ho.
      { unfold advance_one_beat, method_bind, leader_snapshot. rewrite Hk. cbn [fmap option_fmap option_map ok_or].
        unfold sim_room in E. by rewrite (proj2 (Z.leb_le _ _)) by lia. }
      unfold sim_yields. rewrite (bind_run _ _ _ _ _ Ho). cbn [negb]. fold (sim_yields (do! method_modify (set_sim_paused true) then set_leader_playing false) p tt
        (after_beats (S n) k (sim_core p)) (2 * Z.min (Z.of_nat (S n)) (sim_room k) + 1)).
      unfold after_beats. rewrite (proj2 (Z.leb_gt _ _)) by lia. rewrite E. cbn [Z.to_nat sim_moved Nat.iter nat_rect].
      apply (more_yields _ _ _ _ 1); [lia|].
      apply (bind_yields _ _ _ tt _ (set_sim_paused true (sim_core p)) _ 0 1); [by apply modify_yields|].
      intros q Hq Hsq. pose proof (core_fields q (set_sim_paused true p) Hq) as (_ & _ & El & Ed & _).
      apply (more_yields _ _ _ _ 1); [lia|].
      replace (set_sim_paused true _) with (set_deck (sim_leader_deck_id q) (with_playing false k) (sim_core q)) by (by rewrite Hq, El).
      apply set_playing_yields; [by rewrite El, Ed|lia].
    + rewrite <- after_beats_step by lia. change (sim_leader_deck_id (sim_core p)) with (sim_leader_deck_id p).
      replace (2 * Z.min (Z.of_nat (S n)) (sim_room k) + 1) with (2 + (2 * Z.min (Z.of_nat n) (sim_room (next_beat k)) + 1)) by (rewrite room_next; lia).
      eapply bind_yields; [apply one_beat_yields; [done|unfold sim_room in *; lia|lia]|].
      intros q Hq Hsq. cbn [negb].
      pose proof (core_fields q (set_deck (sim_leader_deck_id p) (next_beat k) p) Hq) as (_ & _ & El & Ed & _). cbn in El.
      rewrite <- Hq. apply IH; [rewrite El, Ed; cbn; apply lookup_insert_eq|rewrite room_next; lia..].
Qed.

(** ** The clock *)

(** The beats and the fraction of a beat that go by. *)
Definition accumulated (elapsed : Z) k (speed : SimulationSpeed) (remainder : Z) : Z :=
  remainder + elapsed * tm_bpm_milli (sd_metadata k) * multiplier speed.

Lemma multiplier_range speed : 1 ≤ multiplier speed ≤ 64.
Proof. by destruct speed. Qed.

Lemma bpm_range m : metadata_wf m → 20000 ≤ tm_bpm_milli m ≤ 300000.
Proof. by intros [(_ & _ & ? & _) _]. Qed.

Lemma accumulated_nonneg elapsed k speed remainder :
  metadata_wf (sd_metadata k) → 0 ≤ elapsed → 0 ≤ remainder → 0 ≤ accumulated elapsed k speed remainder.
Proof.
  intros Hm%bpm_range He Hr. pose proof (multiplier_range speed). unfold accumulated.
  apply Z.add_nonneg_nonneg; [done|]. repeat apply Z.mul_nonneg_nonneg; lia.
Qed.

(** The arithmetic of 128 bits does not overflow. *)
Lemma accumulator_fits elapsed k speed remainder :
  metadata_wf (sd_metadata k) → in_u64 elapsed → 0 ≤ remainder < BEAT_DENOMINATOR →
  beat_accumulator elapsed (tm_bpm_milli (sd_metadata k)) speed remainder = Some (accumulated elapsed k speed remainder).
Proof.
  intros Hm%bpm_range [He He'] Hr. pose proof (multiplier_range speed) as Hs. unfold beat_accumulator, accumulated, checked_u128.
  set (b := tm_bpm_milli (sd_metadata k)) in *. set (s := multiplier speed) in *. clearbody b s.
  change U64_MAX with 18446744073709551615 in He'. change (2 ^ 128) with 340282366920938463463374607431768211456.
  unfold BEAT_DENOMINATOR in Hr.
  assert (0 ≤ elapsed * b ≤ 18446744073709551615 * 300000) as Hx by nia.
  assert (0 ≤ elapsed * b * s ≤ 18446744073709551615 * 300000 * 64) as Hy by nia.
  rewrite (proj2 (Z.ltb_lt (elapsed * b) _)) by lia. cbn [mbind option_bind].
  rewrite (proj2 (Z.ltb_lt (elapsed * b * s) _)) by lia. cbn [mbind option_bind].
  by rewrite (proj2 (Z.ltb_lt _ _)) by lia.
Qed.

(** A deck that can be moved along. *)
Record deck_sound k : Prop := {
  ds_track : track_typed (sd_metadata k);
  ds_beat : 0 ≤ sd_beat k ≤ tm_duration_beats (sd_metadata k);
  ds_phrase : sd_phrase_index k = local_phrase (sd_metadata k) (sd_beat k);
}.

(** A reading of the clock that moves nothing: paused, or no time went by. *)
Lemma update_idle p :
  sim_last_clock p ≤ sim_clock p → sim_paused p = true ∨ sim_clock p = sim_last_clock p →
  sim_yields update_to_clock p tt (set_sim_last_clock (sim_clock p) (sim_core p)) 0.
Proof.
  intros Hc Hi. unfold update_to_clock. apply get_yields, get_yields. rewrite (proj2 (Z.ltb_ge _ _)) by lia. cbv zeta.
  apply (bind_yields _ _ _ tt _ (set_sim_last_clock (sim_clock p) (sim_core p)) _ 0 0); [by apply modify_yields|].
  intros q Hq _. apply get_yields. assert (sim_paused q = sim_paused p) as ->.
  { by destruct (core_fields q (set_sim_last_clock (sim_clock p) p) Hq) as (_ & _ & _ & _ & _ & _ & _ & ?). }
  replace (sim_paused p || _) with true; [rewrite <- Hq; by apply ret_yields|].
  symmetry. apply orb_true_iff. destruct Hi; [by left|right]. apply Z.eqb_eq. lia.
Qed.

Lemma update_moves p k :
  sim_decks p !! sim_leader_deck_id p = Some k → deck_sound k → 0 ≤ sim_beat_remainder p < BEAT_DENOMINATOR →
  sim_last_clock p < sim_clock p → in_u64 (sim_clock p - sim_last_clock p) → sim_paused p = false →
  let total := accumulated (sim_clock p - sim_last_clock p) k (sim_speed p) (sim_beat_remainder p) in
  let beats := total / BEAT_DENOMINATOR in
  beats ≤ U32_MAX → sim_sequence p + 2 * Z.min beats (sim_room k) + 1 ≤ U64_MAX →
  sim_yields update_to_clock p tt
    (after_beats (Z.to_nat beats) k
       (set_sim_beat_remainder (total mod BEAT_DENOMINATOR) (set_sim_last_clock (sim_clock p) (sim_core p))))
    (2 * Z.min beats (sim_room k) + 1).
Proof.
  intros Hk [Ht Hb _] Hr Hc He Hp total beats Hmax Hs. assert (0 ≤ total) as H0.
  { apply accumulated_nonneg; [apply Ht|apply He|lia]. }
  assert (0 ≤ beats) as Hbeats by (by apply Z.div_pos).
  unfold update_to_clock. apply get_yields, get_yields. rewrite (proj2 (Z.ltb_ge _ _)) by lia. cbv zeta.
  set (y := set_sim_last_clock (sim_clock p) (sim_core p)).
  apply (bind_yields _ _ _ tt _ y _ 0 (2 * Z.min beats (sim_room k) + 1)); [by apply modify_yields|].
  intros q Hq Hsq. destruct (core_fields q y Hq) as (_ & _ & El & Ed & _ & Er & Es & Ep). cbn in El, Ed, Er, Es, Ep.
  apply get_yields. rewrite Ep, Hp, (proj2 (Z.eqb_neq _ _)) by lia. cbn [orb].
  apply (leader_yields _ _ k); [by rewrite El, Ed|]. apply get_yields, get_yields. cbn [snd].
  rewrite Er, Es, accumulator_fits by (done || apply Ht). fold total. cbn [ok_or].
  apply (bind_yields _ _ _ total _ y _ 0 (2 * Z.min beats (sim_room k) + 1)); [exists q; split_and!; [done|done|lia|lia]|].
  intros r Hr' Hsr. fold beats.
  apply (bind_yields _ _ _ tt _ (set_sim_beat_remainder (total mod BEAT_DENOMINATOR) y) _ 0 (2 * Z.min beats (sim_room k) + 1)).
  { apply modify_yields; [|done]. by rewrite <- Hr'. }
  intros u Hu Hsu. rewrite (proj2 (Z.ltb_ge _ _)) by lia.
  destruct (core_fields u (set_sim_beat_remainder (total mod BEAT_DENOMINATOR) y) Hu) as (_ & _ & El' & Ed' & _). cbn in El', Ed'.
  rewrite <- Hu. eapply more_yields; [|apply beats_yields; [by rewrite El', Ed'|unfold sim_room; lia|lia]]. lia.
Qed.

(** ** The beat is the time that went by *)

(** The session sets its clock and asks for the events. *)
Fixpoint sim_ticks (ticks : list MonotonicTime) : sim unit :=
  match ticks with
  | [] => method_ret tt
  | t :: ticks =>
      do! method_modify (set_sim_clock t) then
      do! update_to_clock then
      sim_ticks ticks
  end.

Fixpoint ticks_in_order (last : MonotonicTime) (ticks : list MonotonicTime) : Prop :=
  match ticks with
  | [] => True
  | t :: ticks => last ≤ t ∧ ticks_in_order t ticks
  end.

Definition last_tick (first : MonotonicTime) (ticks : list MonotonicTime) : MonotonicTime := default first (last ticks).

(** Where the leader is after a time, when the simulation is not paused. *)
Definition beat_after k (total : Z) : Z := Z.min (tm_duration_beats (sd_metadata k)) (sd_beat k + total / BEAT_DENOMINATOR).

Definition ended k (total : Z) : bool := sim_room k <? total / BEAT_DENOMINATOR.

Record moved_to (p q : SimulatorDeckSourceProvider) (d : DeckId) k (last total : Z) : Prop := {
  mt_leader : sim_leader_deck_id q = d;
  mt_deck : ∃ k', sim_decks q = <[d := k']> (sim_decks p) ∧ sd_track_load_id k' = sd_track_load_id k ∧
    sd_metadata k' = sd_metadata k ∧ sd_beat k' = beat_after k total ∧
    sd_phrase_index k' = local_phrase (sd_metadata k) (beat_after k total) ∧
    (ended k total = false → sd_playing k' = sd_playing k);
  mt_paused : sim_paused q = ended k total;
  mt_speed : sim_speed q = sim_speed p;
  mt_last : sim_last_clock q = last;
  mt_remainder : ended k total = false → sim_beat_remainder q = total mod BEAT_DENOMINATOR;
}.

Lemma last_tick_cons first t ticks : last_tick first (t :: ticks) = last_tick t ticks.
Proof. unfold last_tick. destruct ticks; [done|]. rewrite last_cons. destruct (last (_ :: _)) eqn:E; [done|]. by apply last_None in E. Qed.

Lemma ticks_le first ticks : ticks_in_order first ticks → first ≤ last_tick first ticks.
Proof. revert first. induction ticks as [|t ticks IH]; intros first; [cbn; lia|]. intros [Ht Ho]. rewrite last_tick_cons. specialize (IH t Ho). lia. Qed.

Lemma after_beats_moved n k p :
  deck_sound k → Z.of_nat n ≤ sim_room k →
  sd_beat (sim_moved n k) = sd_beat k + Z.of_nat n ∧
  sd_phrase_index (sim_moved n k) = local_phrase (sd_metadata k) (sd_beat k + Z.of_nat n).
Proof.
  intros [Ht Hb Hp] Hn. unfold sim_room in Hn. destruct (moved_fields n k) as (_ & _ & _ & E). rewrite <- E. split; [done|].
  apply moved_phrase; [apply Ht|lia|lia|done].
Qed.

(** The core of a provider after its leader was moved. *)
Lemma after_beats_to p q k last total :
  sim_decks p !! sim_leader_deck_id p = Some k → deck_sound k → sim_paused p = false → 0 ≤ total →
  sim_core q = after_beats (Z.to_nat (total / BEAT_DENOMINATOR)) k
    (set_sim_beat_remainder (total mod BEAT_DENOMINATOR) (set_sim_last_clock last (set_sim_clock last (sim_core p)))) →
  moved_to p q (sim_leader_deck_id p) k last total.
Proof.
  intros Hk Hs Hp H0 Hq. assert (0 ≤ total / BEAT_DENOMINATOR) as Hb by (by apply Z.div_pos).
  pose proof (ds_beat _ Hs) as Hbeat. unfold after_beats in Hq. rewrite Z2Nat.id in Hq by done.
  set (b := total / BEAT_DENOMINATOR) in *.
  destruct (Z.leb_spec b (sim_room k)) as [Hle|Hgt].
  - assert (ended k total = false) as He by (unfold ended; fold b; by apply Z.ltb_ge).
    destruct (after_beats_moved (Z.to_nat b) k p Hs ltac:(lia)) as [E1 E2].
    destruct (moved_fields (Z.to_nat b) k) as (F1 & F2 & F3 & _).
    injection Hq as Ec Ei El Ed Elast Er Esp Epa. split; rewrite ?He; [done| |congruence|done|done|by intros _].
    exists (sim_moved (Z.to_nat b) k). assert (beat_after k total = sd_beat k + Z.of_nat (Z.to_nat b)) as ->.
    { unfold beat_after. fold b. unfold sim_room in Hle. lia. }
    split_and!; [done|done|done|done|done|done].
  - assert (ended k total = true) as He by (unfold ended; fold b; by apply Z.ltb_lt).
    assert (0 ≤ sim_room k) as Hr by (unfold sim_room; lia).
    destruct (after_beats_moved (Z.to_nat (sim_room k)) k p Hs ltac:(lia)) as [E1 E2].
    destruct (moved_fields (Z.to_nat (sim_room k)) k) as (F1 & F2 & F3 & _).
    injection Hq as Ec Ei El Ed Elast Er Esp Epa. split; rewrite ?He; [done| |congruence|done|done|by intros ?].
    exists (with_playing false (sim_moved (Z.to_nat (sim_room k)) k)).
    assert (beat_after k total = sd_beat k + Z.of_nat (Z.to_nat (sim_room k))) as ->.
    { unfold beat_after. fold b. unfold sim_room in *. lia. }
    split_and!; [done|done|done|done|done|done].
Qed.

(** One reading of the clock of a simulation that is not paused. *)
Lemma tick_moves p t k :
  sim_decks p !! sim_leader_deck_id p = Some k → deck_sound k → 0 ≤ sim_beat_remainder p < BEAT_DENOMINATOR →
  0 ≤ sim_last_clock p ≤ t → t ≤ U64_MAX → sim_paused p = false →
  let total := accumulated (t - sim_last_clock p) k (sim_speed p) (sim_beat_remainder p) in
  total / BEAT_DENOMINATOR ≤ U32_MAX → sim_sequence p + 2 * sim_room k + 1 ≤ U64_MAX →
  ∃ q, update_to_clock (set_sim_clock t p) = (q, Ok tt) ∧ moved_to p q (sim_leader_deck_id p) k t total ∧
    sim_sequence q ≤ sim_sequence p + 2 * Z.min (total / BEAT_DENOMINATOR) (sim_room k) + 1.
Proof.
  intros Hk Hs Hr Hc Ht Hp total Hmax Hseq.
  assert (0 ≤ total) as H0 by (apply accumulated_nonneg; [apply Hs|lia|lia]).
  assert (0 ≤ total / BEAT_DENOMINATOR) as Hb by (by apply Z.div_pos).
  assert (0 ≤ sim_room k) as Hroom by (pose proof (ds_beat _ Hs); unfold sim_room; lia).
  destruct (decide (t = sim_last_clock p)) as [Et|Hne].
  - destruct (update_idle (set_sim_clock t p)) as (q & Hq & Hcore & Hsq); [cbn; lia|by right|].
    assert (total = sim_beat_remainder p) as Etot by (unfold total, accumulated; rewrite Et; lia).
    exists q. split_and!; [done| |cbn in Hsq; lia]. apply after_beats_to; [done..|]. rewrite Etot.
    rewrite Z.div_small, Z.mod_small by done. rewrite Hcore. unfold after_beats. cbn [Z.to_nat sim_moved Nat.iter nat_rect].
    rewrite (proj2 (Z.leb_le _ _)) by (cbn; lia). symmetry. by apply set_deck_id.
  - destruct (update_moves (set_sim_clock t p) k) as (q & Hq & Hcore & Hsq); try done.
    { cbn. lia. }
    { cbn. unfold in_u64. lia. }
    { cbn. fold total. lia. }
    exists q. split_and!; [done| |cbn in Hsq; fold total in Hsq; lia].
    by apply after_beats_to.
Qed.

(** What is left of the track after some of the time. *)
Lemma moved_sound p q d k last total :
  deck_sound k → 0 ≤ total → moved_to p q d k last total →
  ∃ k', sim_decks q !! d = Some k' ∧ deck_sound k' ∧ sd_metadata k' = sd_metadata k ∧
    sim_room k' = sim_room k - Z.min (total / BEAT_DENOMINATOR) (sim_room k) ∧ sd_beat k' = beat_after k total.
Proof.
  intros [Ht Hb Hp] H0 [_ (k' & Hd & _ & Em & Eb & Ei & _) _ _ _ _]. exists k'.
  assert (0 ≤ total / BEAT_DENOMINATOR) as Hq by (by apply Z.div_pos).
  split_and!; [rewrite Hd; apply lookup_insert_eq| |done| |done].
  - split; rewrite ?Em; [done|rewrite Eb; unfold beat_after; lia|by rewrite Ei, Eb].
  - unfold sim_room. rewrite Em, Eb. unfold beat_after. lia.
Qed.

(** Time after time is the time of both. *)
Lemma moved_more p q r d k k' last last' total total' :
  deck_sound k → 0 ≤ total → 0 ≤ total' → ended k total = false →
  sim_decks q !! d = Some k' → moved_to p q d k last total →
  moved_to q r d k' last' (total mod BEAT_DENOMINATOR + total') → moved_to p r d k last' (total + total').
Proof.
  intros Hs H0 H0' He Hk' [_ (k1 & Hd & El & Em & Eb & Ei & Epl) Ep Es _ _] [Fl (k2 & Gd & Gl & Gm & Gb & Gi & Gpl) Fp Fs Flast Fr].
  rewrite Hd, lookup_insert_eq in Hk'. injection Hk' as ->. pose proof (ds_beat _ Hs) as Hb.
  assert ((total + total') / BEAT_DENOMINATOR
    = total / BEAT_DENOMINATOR + (total mod BEAT_DENOMINATOR + total') / BEAT_DENOMINATOR) as Hdiv.
  { rewrite (Z.div_mod total BEAT_DENOMINATOR) at 1 by done.
    replace (_ + total') with (total / BEAT_DENOMINATOR * BEAT_DENOMINATOR + (total mod BEAT_DENOMINATOR + total')) by lia.
    by rewrite Z.div_add_l. }
  assert (0 ≤ total mod BEAT_DENOMINATOR) as Hm by (by apply Z.mod_pos_bound).
  assert (0 ≤ (total mod BEAT_DENOMINATOR + total') / BEAT_DENOMINATOR) as Hq by (apply Z.div_pos; [lia|done]).
  assert (0 ≤ total / BEAT_DENOMINATOR) as Hq0 by (by apply Z.div_pos).
  unfold ended in He. apply Z.ltb_ge in He.
  assert (ended k' (total mod BEAT_DENOMINATOR + total') = ended k (total + total')) as Eend.
  { unfold ended, sim_room in *. rewrite Hdiv, Em, Eb. unfold beat_after.
    destruct (Z.ltb_spec (tm_duration_beats (sd_metadata k) - Z.min (tm_duration_beats (sd_metadata k))
      (sd_beat k + total / BEAT_DENOMINATOR)) ((total mod BEAT_DENOMINATOR + total') / BEAT_DENOMINATOR)),
      (Z.ltb_spec (tm_duration_beats (sd_metadata k) - sd_beat k) (total / BEAT_DENOMINATOR
        + (total mod BEAT_DENOMINATOR + total') / BEAT_DENOMINATOR)); lia. }
  assert (beat_after k' (total mod BEAT_DENOMINATOR + total') = beat_after k (total + total')) as Ebeat.
  { unfold beat_after in *. rewrite Em, Eb, Hdiv. unfold sim_room in He. lia. }
  rewrite Eend in *. rewrite Ebeat, Em in *. split; [done| |done|congruence|done|].
  - exists k2. rewrite Gd, Hd, insert_insert_eq. split_and!; [done|congruence|congruence|done|done|].
    intros Hend. rewrite Gpl by done. apply Epl. unfold ended. by apply Z.ltb_ge.
  - intros Hend. rewrite Fr by done. rewrite (Z.div_mod total BEAT_DENOMINATOR) at 2 by done.
    replace (BEAT_DENOMINATOR * (total / BEAT_DENOMINATOR) + total mod BEAT_DENOMINATOR + total')
      with (total mod BEAT_DENOMINATOR + total' + total / BEAT_DENOMINATOR * BEAT_DENOMINATOR) by lia.
    by rewrite Z.mod_add.
Qed.

(** A simulation that is paused keeps only the time. *)
Lemma paused_ticks ticks : ∀ p,
  sim_paused p = true → ticks_in_order (sim_last_clock p) ticks →
  ∃ q, sim_ticks ticks p = (q, Ok tt) ∧ sim_decks q = sim_decks p ∧ sim_leader_deck_id q = sim_leader_deck_id p ∧
    sim_paused q = true ∧ sim_speed q = sim_speed p ∧ sim_last_clock q = last_tick (sim_last_clock p) ticks.
Proof.
  induction ticks as [|t ticks IH]; intros p Hp Ho; [by exists p|]. destruct Ho as [Ht Ho].
  destruct (update_idle (set_sim_clock t p)) as (q & Hq & Hcore & _); [done|by left|].
  destruct (core_fields q (set_sim_last_clock t (set_sim_clock t p)) Hcore) as (_ & _ & El & Ed & Ec & _ & Es & Ep).
  cbn in El, Ed, Ec, Es, Ep. destruct (IH q) as (r & Hr & Hd & Hl & Hpa & Hsp & Hla); [congruence|by rewrite Ec|].
  exists r. cbn [sim_ticks]. rewrite (bind_run _ _ p (set_sim_clock t p) tt) by done. rewrite (bind_run _ _ _ _ _ Hq), Hr.
  rewrite last_tick_cons, Hd, Hl, Hsp, Hla, Ed, El, Es, Ec. by split_and!.
Qed.

Lemma ended_stays k total total' : total ≤ total' → ended k total = true → ended k total' = true.
Proof.
  unfold ended. rewrite !Z.ltb_lt. intros H. pose proof (Z.div_le_mono total total' BEAT_DENOMINATOR ltac:(done) H). lia.
Qed.

(** The end of the track is the end, whatever time goes by. *)
Lemma moved_ended p q r d k last total last' total' :
  deck_sound k → 0 ≤ total ≤ total' → ended k total = true → moved_to p q d k last total →
  sim_decks r = sim_decks q → sim_leader_deck_id r = sim_leader_deck_id q → sim_paused r = true →
  sim_speed r = sim_speed q → sim_last_clock r = last' → moved_to p r d k last' total'.
Proof.
  intros Hs Ht He [Hl (k' & Hd & El & Em & Eb & Ei & _) _ Hsp _ _] Rd Rl Rp Rs Rc.
  assert (ended k total' = true) as He' by (apply (ended_stays k total); [lia|done]).
  assert (beat_after k total' = beat_after k total) as E.
  { unfold ended, sim_room in *. apply Z.ltb_lt in He, He'. unfold beat_after. lia. }
  split; rewrite ?He', ?E; [congruence| |done|congruence|done|done].
  exists k'. split_and!; congruence || done.
Qed.

Lemma moved_refl p k :
  sim_decks p !! sim_leader_deck_id p = Some k → deck_sound k → 0 ≤ sim_beat_remainder p < BEAT_DENOMINATOR →
  sim_paused p = false → moved_to p p (sim_leader_deck_id p) k (sim_last_clock p) (sim_beat_remainder p).
Proof.
  intros Hk [Ht Hb Hi] Hr Hp. assert (beat_after k (sim_beat_remainder p) = sd_beat k) as E.
  { unfold beat_after. rewrite Z.div_small by done. lia. }
  assert (ended k (sim_beat_remainder p) = false) as He.
  { unfold ended, sim_room. rewrite Z.div_small by done. apply Z.ltb_ge. lia. }
  split; rewrite ?He, ?E; try done; [|by rewrite Z.mod_small].
  exists k. rewrite insert_id by done. by split_and!.
Qed.

Lemma accumulated_more a b k k' speed remainder :
  sd_metadata k' = sd_metadata k →
  let first := accumulated a k speed remainder in
  ∃ rest, accumulated (a + b) k speed remainder = first + rest ∧
    accumulated b k' speed (first mod BEAT_DENOMINATOR) = first mod BEAT_DENOMINATOR + rest ∧
    (metadata_wf (sd_metadata k) → 0 ≤ b → 0 ≤ rest).
Proof.
  intros Em first. exists (b * tm_bpm_milli (sd_metadata k) * multiplier speed). unfold first, accumulated. rewrite Em.
  split_and!; [ring|done|]. intros Hm%bpm_range Hb. pose proof (multiplier_range speed). repeat apply Z.mul_nonneg_nonneg; lia.
Qed.

Lemma ticks_move ticks : ∀ p k,
  sim_decks p !! sim_leader_deck_id p = Some k → deck_sound k → 0 ≤ sim_beat_remainder p < BEAT_DENOMINATOR →
  sim_paused p = false → 0 ≤ sim_last_clock p → ticks_in_order (sim_last_clock p) ticks →
  let last := last_tick (sim_last_clock p) ticks in
  let total := accumulated (last - sim_last_clock p) k (sim_speed p) (sim_beat_remainder p) in
  last ≤ U64_MAX → total / BEAT_DENOMINATOR ≤ U32_MAX →
  sim_sequence p + 2 * sim_room k + Z.of_nat (length ticks) ≤ U64_MAX →
  ∃ q, sim_ticks ticks p = (q, Ok tt) ∧ moved_to p q (sim_leader_deck_id p) k last total.
Proof.
  induction ticks as [|t ticks IH]; intros p k Hk Hs Hr Hp Hc Ho last total Hlast Hmax Hseq.
  { exists p. split; [done|]. assert (total = sim_beat_remainder p) as -> by (unfold total, accumulated, last; cbn; lia).
    by apply moved_refl. }
  destruct Ho as [Ht Ho]. pose proof (ticks_le _ _ Ho) as Hle. unfold total, last in *. clear total last. rewrite last_tick_cons in *.
  set (last := last_tick t ticks) in *. set (total := accumulated (last - sim_last_clock p) k (sim_speed p) (sim_beat_remainder p)) in *. set (first := accumulated (t - sim_last_clock p) k (sim_speed p) (sim_beat_remainder p)).
  assert (0 ≤ sim_room k) as Hroom by (pose proof (ds_beat _ Hs); unfold sim_room; lia).
  assert (0 ≤ first) as Hfirst by (apply accumulated_nonneg; [apply Hs|lia|lia]).
  destruct (accumulated_more (t - sim_last_clock p) (last - t) k k (sim_speed p) (sim_beat_remainder p) eq_refl) as (rest & Et & _ & Hrest).
  replace (t - sim_last_clock p + (last - t)) with (last - sim_last_clock p) in Et by lia. fold total first in Et.
  specialize (Hrest (proj1 (ds_track _ Hs)) ltac:(lia)).
  assert (first / BEAT_DENOMINATOR ≤ total / BEAT_DENOMINATOR) as Hmono by (apply Z.div_le_mono; [done|lia]).
  rewrite length_cons in Hseq.
  destruct (tick_moves p t k) as (q & Hq & Hm & Hsq); try done; try (fold first; lia). fold first in Hm, Hsq.
  cbn [sim_ticks]. rewrite (bind_run _ _ p (set_sim_clock t p) tt) by done. rewrite (bind_run _ _ _ _ _ Hq).
  pose proof Hm as [Ml _ Mp Ms Mc Mr].
  destruct (ended k first) eqn:He.
  - destruct (paused_ticks ticks q) as (r & Hr' & Rd & Rl & Rp & Rs & Rc); [by rewrite Mp|by rewrite Mc|].
    exists r. split; [done|]. eapply moved_ended; [exact Hs| |exact He|exact Hm|done..|]; [lia|]. by rewrite Rc, Mc.
  - destruct (moved_sound _ _ _ _ _ _ Hs Hfirst Hm) as (k1 & Hk1 & Hs1 & Em & Er & _).
    destruct (accumulated_more (t - sim_last_clock p) (last - t) k k1 (sim_speed p) (sim_beat_remainder p) Em) as (rest' & Et' & Eacc & _).
    replace (t - sim_last_clock p + (last - t)) with (last - sim_last_clock p) in Et' by lia. fold total first in Et', Eacc.
    assert (rest' = rest) as -> by lia.
    assert ((first mod BEAT_DENOMINATOR + rest) / BEAT_DENOMINATOR ≤ total / BEAT_DENOMINATOR) as Hmono'.
    { apply Z.div_le_mono; [done|]. rewrite Et. pose proof (Z.mod_le first BEAT_DENOMINATOR Hfirst ltac:(done)). lia. }
    pose proof (Z.mod_pos_bound first BEAT_DENOMINATOR ltac:(done)) as Hmod. specialize (Mr eq_refl).
    destruct (IH q k1) as (r & Hr' & Rm).
    { by rewrite Ml. } { done. } { by rewrite Mr. } { done. } { lia. } { by rewrite Mc. }
    { rewrite Mc. done. } { rewrite Mc, Ms, Mr. fold last. rewrite Eacc. lia. }
    { unfold ended in He. apply Z.ltb_ge in He. lia. }
    exists r. split; [done|]. rewrite Ml, Mc, Ms, Mr in Rm. fold last in Rm. rewrite Eacc in Rm. rewrite Et.
    by eapply (moved_more p q r).
Qed.

(** The beat of the simulated leader is the time that went by.  However often and at
    whatever times the session reads the clock, as long as it does not go back: every reading
    succeeds, and in the end the leader is at the beat that the tempo of its track and the
    speed give for the whole time, with the fraction that was left before, or at the end of
    its track, in the phrase of that beat; no fraction of a beat is lost in between; the
    simulation is paused exactly when the time goes beyond the end, the other decks stay as
    they are, and nothing else is moved. *)
Theorem simulated_beat_exact ticks : ∀ p k,
  sim_decks p !! sim_leader_deck_id p = Some k → deck_sound k → 0 ≤ sim_beat_remainder p < BEAT_DENOMINATOR →
  sim_paused p = false → 0 ≤ sim_last_clock p → ticks_in_order (sim_last_clock p) ticks →
  let last := last_tick (sim_last_clock p) ticks in
  let total := accumulated (last - sim_last_clock p) k (sim_speed p) (sim_beat_remainder p) in
  last ≤ U64_MAX → total / BEAT_DENOMINATOR ≤ U32_MAX →
  sim_sequence p + 2 * sim_room k + Z.of_nat (length ticks) ≤ U64_MAX →
  ∃ q, sim_ticks ticks p = (q, Ok tt) ∧ moved_to p q (sim_leader_deck_id p) k last total.
Proof. apply ticks_move. Qed.

Definition demo_simulator : SimulatorDeckSourceProvider :=
  mkSimulator 0 5 1 1 {[1 := mkSimulatedDeck 1 demo_metadata 0 0 true]} 0 0 0 SpeedFour false [].

Lemma demo_deck_sound : deck_sound (mkSimulatedDeck 1 demo_metadata 0 0 true).
Proof. split; [apply demo_metadata_typed|cbn; lia|by vm_compute]. Qed.

(** Two seconds at four times 128 beats a minute, read at odd moments. *)
Lemma simulated_beat_exact_witness :
  ∃ q k, sim_ticks [100; 733; 734; 2000] demo_simulator = (q, Ok tt) ∧ sim_decks q !! 1 = Some k ∧
    sd_beat k = 17 ∧ sd_phrase_index k = 1 ∧ sim_paused q = false.
Proof.
  destruct (simulated_beat_exact [100; 733; 734; 2000] demo_simulator (mkSimulatedDeck 1 demo_metadata 0 0 true))
    as (q & Hq & [_ (k & Hd & _ & _ & Eb & Ei & _) Hp _ _ _]);
    [done|exact demo_deck_sound|cbn; unfold BEAT_DENOMINATOR; lia|done|cbn; lia|cbn; lia|vm_compute; discriminate..|].
  exists q, k. rewrite Hd. split_and!; [exact Hq|apply lookup_insert_eq|rewrite Eb; vm_compute; reflexivity
    |rewrite Ei; vm_compute; reflexivity|rewrite Hp; vm_compute; reflexivity].
Defined.

(** ** What the runtime shows *)

(** *** Decks of the simulator and of the runtime *)

Record sim_deck_shown k w : Prop := {
  ss_load : dv_load w = sd_track_load_id k;
  ss_metadata : dv_metadata w = sd_metadata k;
  ss_beat : dv_beat w = sd_beat k;
  ss_playing : dv_playing w = sd_playing k;
}.

Definition same_deck (o : option SimulatedDeck) (o' : option DeckView) : Prop :=
  match o, o' with Some k, Some w => sim_deck_shown k w | None, None => True | _, _ => False end.

(** An analysed deck shows its phrase. *)
Definition phrase_shown k w : Prop := tm_phrases (sd_metadata k) ≠ [] → dv_phrase w = Some (sd_phrase_index k).

(** What does not depend on what is published. *)
Record sim_sound x : Prop := {
  so_decks : map_Forall (λ _ k, deck_sound k) (sim_decks x);
  so_leader : is_Some (sim_decks x !! sim_leader_deck_id x);
  so_initial : is_Some (sim_decks x !! sim_initial_leader_deck_id x);
  so_playing : ∀ d k, sim_decks x !! d = Some k → sd_playing k = true → d = sim_leader_deck_id x;
  so_clock : 0 ≤ sim_last_clock x ≤ sim_clock x;
  so_now : sim_clock x ≤ U64_MAX;
  so_remainder : 0 ≤ sim_beat_remainder x < BEAT_DENOMINATOR;
}.

Record sim_good x v : Prop := {
  sg_sound : sim_sound x;
  sg_decks : ∀ d, same_deck (sim_decks x !! d) (sv_decks v !! d);
  sg_leader : sv_leader v = Some (sim_leader_deck_id x);
  sg_phrase : ∀ k w, sim_decks x !! sim_leader_deck_id x = Some k → sv_decks v !! sim_leader_deck_id x = Some w → phrase_shown k w;
}.

Lemma sim_good_lookup x v d k :
  sim_good x v → sim_decks x !! d = Some k → ∃ w, sv_decks v !! d = Some w ∧ sim_deck_shown k w ∧ deck_sound k.
Proof.
  intros Hg Hk. pose proof (sg_decks _ _ Hg d) as H. rewrite Hk in H. destruct (sv_decks v !! d) as [w|]; [|done].
  exists w. split_and!; [done|done|]. by apply (so_decks _ (sg_sound _ _ Hg) d).
Qed.

Lemma good_leader x v :
  sim_good x v → ∃ k w, sim_decks x !! sim_leader_deck_id x = Some k ∧ sv_decks v !! sim_leader_deck_id x = Some w ∧
    sim_deck_shown k w ∧ deck_sound k ∧ phrase_shown k w.
Proof.
  intros Hg. destruct (so_leader _ (sg_sound _ _ Hg)) as [k Hk]. destruct (sim_good_lookup _ _ _ _ Hg Hk) as (w & Hw & Hs & Hd).
  exists k, w. split_and!; try done. by apply (sg_phrase _ _ Hg).
Qed.

(** A deck changes and is shown as it is. *)
Lemma good_set_deck x v d k' w' :
  sim_good x v → is_Some (sim_decks x !! d) → deck_sound k' → sim_deck_shown k' w' →
  (sd_playing k' = true → d = sim_leader_deck_id x) → (d = sim_leader_deck_id x → phrase_shown k' w') →
  sim_good (set_deck d k' x) (put v d w').
Proof.
  intros [[H1 H2 H3 H4 H5 H5' H6] H7 H8 H9] Hin Hs Hsh Hpl Hp. split; cbn; [split; cbn; try done|..].
  - by apply map_Forall_insert_2.
  - rewrite lookup_insert_is_Some'. by right.
  - rewrite lookup_insert_is_Some'. by right.
  - intros d' k [[<- <-]|[? Hk]]%lookup_insert_Some Hplay; [by apply Hpl|]. by eapply H4.
  - intros d'. destruct (decide (d = d')) as [<-|]; [by rewrite !lookup_insert_eq|].
    rewrite !lookup_insert_ne by done. apply H7.
  - done.
  - intros k w. destruct (decide (d = sim_leader_deck_id x)) as [->|Hne]; [|rewrite !lookup_insert_ne by done; apply H9].
    rewrite !lookup_insert_eq. intros [= <-] [= <-]. by apply Hp.
Qed.

Lemma good_set_leader_deck x v k' w' :
  sim_good x v → deck_sound k' → sim_deck_shown k' w' → phrase_shown k' w' →
  sim_good (set_deck (sim_leader_deck_id x) k' x) (put v (sim_leader_deck_id x) w').
Proof. intros Hg Hs Hsh Hp. by apply good_set_deck; [|apply Hg|..]. Qed.

(** A change of the fields that are not shown. *)
Lemma good_same x y v :
  sim_good x v → sim_sound y → sim_decks y = sim_decks x → sim_leader_deck_id y = sim_leader_deck_id x → sim_good y v.
Proof. intros [H1 H2 H3 H4] Hs Hd Hl. split; [done|by rewrite Hd|by rewrite Hl|by rewrite Hd, Hl]. Qed.

(** *** The methods *)

Section Shown.
Variables (source : SourceId) (drained : list DomainEvent) (t0 : Z).

Definition drained_view : SourceView := view_run empty_view (obs_observation <$> observations drained).

Notation holds x v := (state_at source t0 drained (sim_clock x) x v).

(** Nothing was drained of a deck that is not there. *)
Definition drained_known x : Prop := dom (sv_decks drained_view) ⊆ dom (sim_decks x).

Definition sim_inv p : Prop := ∃ v, holds (sim_core p) v p ∧ sim_good (sim_core p) v ∧ drained_known p.

(** At a reading of the clock. *)
Definition inv_at (c : MonotonicTime) p : Prop := sim_inv p ∧ sim_clock p = c.

Definition benign (e : SimulatorError) : Prop :=
  e = SimBeatAccumulatorOverflow ∨ e = SimNextDeckMissing ∨ e = SimTrackLoadIdOverflow ∨ ∃ d, e = SimUnknownDeck d.

Definition sim_failed (e : SimulatorError) p : Prop := e = SimSequenceOverflow ∨ benign e ∧ sim_inv p.

Notation runs I m J := (triple I m (post J sim_failed)).

Lemma sim_seq {A B} I (K : SimulatorDeckSourceProvider → Prop) (m : sim A) (k : sim B) J :
  runs I m (λ _, K) → runs K k J → runs I (do! m then k) J.
Proof. intros Hm Hk. eapply post_bind; [exact Hm|]. done. Qed.

Lemma sim_ok {A B} I (a : A) (k : A → sim B) J : runs I (k a) J → runs I (method_bind (method_result (Ok a)) k) J.
Proof. intros Hk p Hp. unfold method_bind, method_result. by apply Hk. Qed.

Lemma sim_read {A B} x v t (f : SimulatorDeckSourceProvider → A) a (k : A → sim B) J :
  (∀ p, sim_core p = x → f p = a) → runs (state_at source t0 drained t x v) (k a) J →
  runs (state_at source t0 drained t x v) (method_bind (method_get f) k) J.
Proof. intros Hf Hk p Hp. unfold method_bind, method_get. rewrite (Hf p (sa_remainder _ _ _ _ _ _ _ Hp)). by apply Hk. Qed.

Lemma sim_read_leader {B} t x v k (m : DeckId * SimulatedDeck → sim B) J :
  sim_decks x !! sim_leader_deck_id x = Some k →
  runs (state_at source t0 drained t x v) (m (sim_leader_deck_id x, k)) J →
  runs (state_at source t0 drained t x v) (method_bind leader_snapshot m) J.
Proof.
  intros Hk Hm p Hp. pose proof (sa_remainder _ _ _ _ _ _ _ Hp) as Hx. unfold method_bind, leader_snapshot.
  assert (sim_leader_deck_id p = sim_leader_deck_id x ∧ sim_decks p = sim_decks x) as [-> ->] by by subst x.
  rewrite Hk. by apply Hm.
Qed.

Lemma sim_modify t x y v f :
  (∀ p, publication (f p) = publication p) → (∀ p, sim_core p = x → sim_core (f p) = y) →
  runs (state_at source t0 drained t x v) (method_modify f) (λ _, state_at source t0 drained t y v).
Proof. intros Hp Hr. apply (rule_modify (P := SimulatorDeckSourceProvider) (R := SimulatorDeckSourceProvider)); [exact Hp|exact Hr]. Qed.

Lemma sim_map t x v f :
  (∀ p, publication (f p) = publication p) → (∀ p, sim_core (f p) = f (sim_core p)) →
  runs (state_at source t0 drained t x v) (method_modify f) (λ _, state_at source t0 drained t (f x) v).
Proof. intros Hp Hf. apply sim_modify; [done|]. intros p <-. apply Hf. Qed.

Lemma sim_rule_emit t x v o :
  observation_wf o →
  runs (state_at source t0 drained t x v) (sim_emit t o) (λ _, state_at source t0 drained t x (view_step v o)).
Proof. intros Ho. eapply rule_emit; [apply sim_emits|done|by left]. Qed.

Lemma sim_rule_deck t x v d w o :
  of_deck d (dv_load w) o → observation_wf o →
  runs (state_at source t0 drained t x (put v d w)) (sim_emit t o)
    (λ _, state_at source t0 drained t x (put v d (deck_step w o))).
Proof. intros Ho Hw. rewrite <- put_step by done. by apply sim_rule_emit. Qed.

Lemma sim_runs_inv {A} c (m : sim A) J :
  (∀ x v, sim_good x v → drained_known x → sim_clock x = c → runs (holds x v) m J) → runs (inv_at c) m J.
Proof. intros H p [(v & Hs & Hg & Hd) Hc]. by eapply (H (sim_core p) v). Qed.

Lemma sim_inv_intro x v p : holds x v p → sim_good x v → drained_known x → sim_inv p.
Proof.
  intros Hs Hg Hd. pose proof (sa_remainder _ _ _ _ _ _ _ Hs) as Hx. cbn in Hx. subst x. by exists v.
Qed.

Lemma sim_runs_to_inv {A} I (m : sim A) x v :
  sim_good x v → drained_known x → runs I m (λ _, holds x v) → runs I m (λ _, inv_at (sim_clock x)).
Proof.
  intros Hg Hd. apply triple_mono; [done|]. intros [a|e] p; cbn; [|done]. intros Hp. split; [by eapply sim_inv_intro|].
  change (sim_clock (sim_core p) = sim_clock x). by rewrite (sa_remainder _ _ _ _ _ _ _ Hp : sim_core p = x).
Qed.

Lemma runs_loose {A} c I (m : sim A) : runs I m (λ _, inv_at c) → runs I m (λ _, sim_inv).
Proof. apply triple_mono; [done|]. intros [a|e] p; cbn; [|done]. by intros [? _]. Qed.

(** [set_leader_playing] shows what it sets. *)
Lemma runs_set_playing t x v k w playing :
  sim_decks x !! sim_leader_deck_id x = Some k → sv_decks v !! sim_leader_deck_id x = Some w → sim_deck_shown k w →
  t = sim_clock x →
  runs (state_at source t0 drained t x v) (set_leader_playing playing)
    (λ _, state_at source t0 drained t (set_deck (sim_leader_deck_id x) (with_playing playing k) x)
            (put v (sim_leader_deck_id x) (mkDeckView (dv_load w) (dv_metadata w) (dv_beat w) (dv_phrase w) playing))).
Proof.
  intros Hk Hw [Hl Hm Hb Hpl] ->. unfold set_leader_playing. apply (sim_read _ _ _ _ (sim_clock x)); [by intros p <-|].
  apply (sim_read_leader _ _ _ k); [done|]. destruct (Bool.eqb (sd_playing k) playing) eqn:E.
  - apply Bool.eqb_prop in E as <-. apply post_ret. intros p Hp. rewrite <- Hpl.
    rewrite put_self by (rewrite Hw; by destruct w). rewrite set_deck_id; [done|]. rewrite Hk, Hpl. by destruct k.
  - eapply sim_seq.
    { apply (sim_modify _ x (set_deck (sim_leader_deck_id x) (with_playing playing k) x)); [done|]. by intros p <-. }
    rewrite <- (put_self v (sim_leader_deck_id x) w Hw) at 1.
    eapply triple_mono; [done| |apply (sim_rule_deck _ _ v _ w); [by rewrite Hl|done]].
    intros [a|e] p; cbn; [|done]. by rewrite Hl.
Qed.
Lemma next_beat_sound k : deck_sound k → sd_beat k < tm_duration_beats (sd_metadata k) → deck_sound (next_beat k).
Proof.
  intros [Ht Hb Hp] Hlt. split; [done|cbn; lia|]. apply next_phrase_spec; [apply Ht|lia|done].
Qed.

(** What a deck shows after a beat. *)
Definition view_beat (d : DeckId) k w : DeckView :=
  match sim_next_phrase k with
  | Some index => deck_step (deck_step w (PlaybackPosition d (dv_load w) (sd_beat k + 1))) (PhraseChanged d (dv_load w) index)
  | None => deck_step w (PlaybackPosition d (dv_load w) (sd_beat k + 1))
  end.

Lemma view_beat_shown d k w :
  deck_sound k → sd_beat k < tm_duration_beats (sd_metadata k) → sim_deck_shown k w → phrase_shown k w →
  sim_deck_shown (next_beat k) (view_beat d k w) ∧ phrase_shown (next_beat k) (view_beat d k w).
Proof.
  intros Hs Hlt [H1 H2 H3 H4] Hp. pose proof (next_beat_sound _ Hs Hlt) as [[Hm _] Hb Hi]. unfold view_beat.
  cbn [deck_step]. rewrite H3, (proj2 (Z.ltb_ge _ _)) by lia. cbn [next_beat sd_phrase_index sd_metadata sd_beat] in Hi, Hm, Hb.
  unfold phrase_shown in *. cbn [next_beat sd_phrase_index sd_metadata]. destruct (sim_next_phrase k) as [index|]; cbn [default] in *.
  - cbn [dv_metadata dv_load dv_beat dv_phrase dv_playing]. rewrite H2. unfold id in Hi. case_bool_decide as Hv.
    + split; [by split|]. done.
    + split; [by split|]. intros Hne. destruct Hv. rewrite Hi. apply local_phrase_valid; [done|done|lia].
  - split; [by split|]. exact Hp.
Qed.

Lemma runs_one_beat c : runs (inv_at c) (advance_one_beat c) (λ _, inv_at c).
Proof.
  apply sim_runs_inv. intros x v Hg Hd <-. destruct (good_leader _ _ Hg) as (k & w & Hk & Hw & Hsh & Hs & Hp).
  unfold advance_one_beat. apply (sim_read_leader _ _ _ k); [done|]. destruct (Z.leb_spec (tm_duration_beats (sd_metadata k)) (sd_beat k)) as [Hle|Hlt].
  { apply (sim_runs_to_inv _ _ x v); [done..|]. by apply post_ret. }
  destruct (view_beat_shown (sim_leader_deck_id x) k w Hs Hlt Hsh Hp) as [Hsh' Hp']. pose proof (next_beat_sound _ Hs Hlt) as Hs'.
  pose proof (good_set_leader_deck _ _ _ _ Hg Hs' Hsh' Hp') as Hg'.
  apply (sim_runs_to_inv _ _ _ _ Hg'). { unfold drained_known in *. cbn. rewrite dom_insert. set_solver. }
  cbn [sim_clock set_deck set_sim_decks]. fold (set_deck (sim_leader_deck_id x) (next_beat k) x).
  eapply sim_seq. { apply (sim_modify _ x (set_deck (sim_leader_deck_id x) (next_beat k) x)); [done|]. by intros p <-. }
  rewrite <- (put_self v (sim_leader_deck_id x) w Hw) at 1. destruct Hsh as [Hl _ _ _].
  pose proof (ds_beat _ Hs') as Hb. cbn in Hb. pose proof (proj1 (proj2 (ds_track _ Hs))) as [_ Hdur].
  eapply sim_seq. { apply (sim_rule_deck _ _ v _ w); [by rewrite Hl|cbn; unfold in_u32; lia]. }
  set (w1 := deck_step w _). assert (dv_load w1 = dv_load w) as Hl1 by (unfold w1; cbn; by case_match).
  eapply sim_seq; [|by apply post_ret]. unfold view_beat. rewrite Hl. fold w1.
  destruct (sim_next_phrase k) as [index|] eqn:En; [|by apply post_ret].
  apply (sim_rule_deck _ _ v _ w1); [by rewrite Hl1, Hl|]. cbn.
  assert (index = local_phrase (sd_metadata k) (sd_beat k + 1)) as ->; [|by apply local_phrase_u16, Hs].
  pose proof (ds_phrase _ Hs') as E. cbn in E. by rewrite En in E.
Qed.
Lemma inv_enter x v p : holds x v p → sim_good x v → drained_known x → inv_at (sim_clock x) p.
Proof.
  intros Hp Hg Hd. split; [by eapply sim_inv_intro|]. change (sim_clock (sim_core p) = sim_clock x). by rewrite (sa_remainder _ _ _ _ _ _ _ Hp : sim_core p = x).
Qed.

Lemma runs_enter {A} x v (m : sim A) J :
  sim_good x v → drained_known x → runs (inv_at (sim_clock x)) m J → runs (holds x v) m J.
Proof. intros Hg Hd Hm p Hp. apply Hm. by eapply inv_enter. Qed.

(** A change of what is not shown. *)
Lemma runs_quiet c f :
  (∀ p, publication (f p) = publication p) → (∀ p, sim_core (f p) = f (sim_core p)) →
  (∀ x, sim_sound x → sim_clock x = c → sim_sound (f x) ∧ sim_decks (f x) = sim_decks x ∧
     sim_leader_deck_id (f x) = sim_leader_deck_id x ∧ sim_clock (f x) = c) →
  runs (inv_at c) (method_modify f) (λ _, inv_at c).
Proof.
  intros Hp Hc Hf. apply sim_runs_inv. intros x v Hg Hd Ex. destruct (Hf x (sg_sound _ _ Hg) Ex) as (Hs & Ed & El & Ec).
  pose proof (good_same _ _ _ Hg Hs Ed El) as Hg'. rewrite Ex, <- Ec. apply (sim_runs_to_inv _ _ _ v Hg').
  { unfold drained_known in *. by rewrite Ed. }
  apply sim_modify; [done|]. intros p <-. apply Hc.
Qed.

Lemma runs_paused c paused : runs (inv_at c) (method_modify (set_sim_paused paused)) (λ _, inv_at c).
Proof. apply runs_quiet; [done|done|]. intros x [] Hc. by split_and!. Qed.

Lemma runs_speed c speed : runs (inv_at c) (method_modify (set_sim_speed speed)) (λ _, inv_at c).
Proof. apply runs_quiet; [done|done|]. intros x [] Hc. by split_and!. Qed.

Lemma runs_remainder c r : 0 ≤ r < BEAT_DENOMINATOR → runs (inv_at c) (method_modify (set_sim_beat_remainder r)) (λ _, inv_at c).
Proof. intros Hr. apply runs_quiet; [done|done|]. intros x [] Hc. by split_and!. Qed.

Lemma runs_last_clock c : runs (inv_at c) (method_modify (set_sim_last_clock c)) (λ _, inv_at c).
Proof. apply runs_quiet; [done|done|]. intros x [] <-. split_and!; try done. split; cbn; try done. lia. Qed.

Lemma with_playing_sound k playing : deck_sound k → deck_sound (with_playing playing k).
Proof. intros [? ? ?]. by split. Qed.

Lemma runs_leader_playing c playing : runs (inv_at c) (set_leader_playing playing) (λ _, inv_at c).
Proof.
  apply sim_runs_inv. intros x v Hg Hd <-. destruct (good_leader _ _ Hg) as (k & w & Hk & Hw & Hsh & Hs & Hp).
  set (w' := mkDeckView (dv_load w) (dv_metadata w) (dv_beat w) (dv_phrase w) playing).
  assert (sim_good (set_deck (sim_leader_deck_id x) (with_playing playing k) x) (put v (sim_leader_deck_id x) w')) as Hg'.
  { destruct Hsh. apply good_set_leader_deck; [done|by apply with_playing_sound|by split|exact Hp]. }
  apply (sim_runs_to_inv _ _ _ _ Hg'). { unfold drained_known in *. cbn. rewrite dom_insert. set_solver. }
  by apply runs_set_playing.
Qed.

Lemma runs_beats c n : runs (inv_at c) (advance_beats n c) (λ _, inv_at c).
Proof.
  induction n as [|n IH]; [by apply post_ret|]. cbn [advance_beats].
  eapply post_bind; [apply runs_one_beat|]. intros advanced. destruct (negb advanced); [|apply IH].
  eapply sim_seq; [apply runs_paused|apply runs_leader_playing].
Qed.

Lemma fail_benign {A} c e J : benign e → runs (inv_at c) (method_fail e : sim A) J.
Proof. intros He p [Hp _]. right. by split. Qed.

Lemma sim_runs_update c : runs (inv_at c) update_to_clock (λ _, inv_at c).
Proof.
  apply sim_runs_inv. intros x v Hg Hd Ex. pose proof (sg_sound _ _ Hg) as Hso. unfold update_to_clock.
  apply (sim_read _ _ _ _ c); [by intros p <-|]. apply (sim_read _ _ _ _ (sim_last_clock x)); [by intros p <-|].
  destruct (so_clock _ Hso) as [H0 Hc]. rewrite (proj2 (Z.ltb_ge _ _)) by lia. cbv zeta.
  apply runs_enter; [done|done|]. rewrite Ex. eapply sim_seq; [apply runs_last_clock|].
  apply sim_runs_inv. intros y u Hy Hdy Ey. pose proof (sg_sound _ _ Hy) as Hsy.
  apply (sim_read _ _ _ _ (sim_paused y)); [by intros p <-|].
  destruct (_ || _). { rewrite <- Ey. apply (sim_runs_to_inv _ _ y u); [done..|]. by apply post_ret. }
  destruct (good_leader _ _ Hy) as (k & w & Hk & _ & _ & Hs & _). apply (sim_read_leader _ _ _ k); [done|].
  apply (sim_read _ _ _ _ (sim_speed y)); [by intros p <-|]. apply (sim_read _ _ _ _ (sim_beat_remainder y)); [by intros p <-|].
  cbn [snd]. rewrite accumulator_fits; [|apply Hs|split; [lia|pose proof (so_now _ Hso); lia]|apply Hsy].
  cbn [ok_or]. apply runs_enter; [done|done|]. rewrite Ey. apply sim_ok.
  eapply sim_seq; [apply runs_remainder, Z.mod_pos_bound; done|].
  destruct (_ <? _); [apply fail_benign; by left|apply runs_beats].
Qed.
(** *** Another leader *)

Definition lead (d : DeckId) v : SourceView := mkSourceView (sv_decks v) (Some d).

Lemma step_lead v d w : sv_decks v !! d = Some w → view_step v (LeaderChanged d (dv_load w)) = lead d v.
Proof. intros Hw. cbn. by rewrite Hw, Z.eqb_refl. Qed.

(** A leader that is announced with the position the runtime knows. *)
Lemma runs_announce t x v d k w (rest : sim unit) J :
  sv_decks v !! d = Some w → sim_deck_shown k w → deck_sound k →
  runs (state_at source t0 drained t x (put (lead d v) d w)) rest J →
  runs (state_at source t0 drained t x v)
    (do! sim_emit t (LeaderChanged d (sd_track_load_id k)) then
     do! sim_emit t (PlaybackPosition d (sd_track_load_id k) (sd_beat k)) then rest) J.
Proof.
  intros Hw [Hl Hm Hb Hp] Hs Hr. eapply sim_seq; [by apply sim_rule_emit|]. rewrite <- Hl, step_lead by done.
  eapply sim_seq; [|exact Hr]. rewrite <- (put_self (lead d v) d w Hw) at 1.
  pose proof (ds_beat _ Hs) as Hbeat. pose proof (proj1 (proj2 (ds_track _ Hs))) as [_ Hdur].
  eapply triple_mono; [done| |apply (sim_rule_deck _ _ (lead d v) d w); [done|cbn; unfold in_u32; lia]].
  intros [a|e] p; cbn [post deck_step]; [|done]. rewrite Hb, Z.ltb_irrefl.
  replace (mkDeckView (dv_load w) (dv_metadata w) (sd_beat k) (dv_phrase w) (dv_playing w)) with w; [done|].
  destruct w; cbn in *; by subst.
Qed.

(** The phrase of a leader. *)
Lemma runs_phrase t x v d k w (J : SimulatorDeckSourceProvider → Prop) :
  sim_deck_shown k w → deck_sound k →
  (∀ p w', sim_deck_shown k w' → phrase_shown k w' → state_at source t0 drained t x (put v d w') p → J p) →
  runs (state_at source t0 drained t x (put v d w))
    (sim_emit t (PhraseChanged d (sd_track_load_id k) (sd_phrase_index k))) (λ _, J).
Proof.
  intros [Hl Hm Hb Hp] Hs HJ. pose proof Hs as [Ht Hbeat Hi].
  eapply triple_mono; [done| |apply (sim_rule_deck _ _ v d w)]; [|by rewrite Hl|cbn; rewrite Hi; by apply local_phrase_u16].
  intros [a|e] p; cbn [post deck_step]; [|done]. case_bool_decide as Hv.
  - apply HJ; [by split|done].
  - apply HJ; [by split|]. intros Hne. destruct Hv. rewrite Hm, Hi. by apply local_phrase_valid; [apply Ht| |lia].
Qed.

Lemma next_deck_Some x d : next_deck_id x = Some d → is_Some (sim_decks x !! d) ∧ d ≠ sim_leader_deck_id x.
Proof.
  unfold next_deck_id. intros H. apply find_some in H as [Hin Hne]. apply negb_true_iff, Z.eqb_neq in Hne. split; [|done].
  apply list_elem_of_In in Hin. rewrite sort_by_key_perm in Hin. apply list_elem_of_fmap in Hin as ([d' k] & -> & Hk).
  apply elem_of_map_to_list in Hk. by exists k.
Qed.

(** The new leader, when nothing else plays. *)
Lemma good_new_leader x v d k u :
  sim_good x v → (∀ d k, sim_decks x !! d = Some k → sd_playing k = false) → is_Some (sim_decks x !! d) →
  deck_sound k → sim_deck_shown k u → phrase_shown k u →
  sim_good (set_deck d k (set_sim_beat_remainder 0 (set_sim_leader_deck_id d x))) (put (lead d v) d u).
Proof.
  intros [[H1 H2 H3 H4 H5 H5' H6] H7 H8 H9] Hstop Hin Hs Hsh Hp. split; cbn; [split; cbn; try done|..].
  - by apply map_Forall_insert_2.
  - rewrite lookup_insert_eq. by eexists.
  - rewrite lookup_insert_is_Some'. by right.
  - intros d' k' [[<- <-]|[? Hk']]%lookup_insert_Some Hplay; [done|]. by rewrite (Hstop _ _ Hk') in Hplay.
  - intros d'. destruct (decide (d = d')) as [<-|]; [by rewrite !lookup_insert_eq|]. rewrite !lookup_insert_ne by done. apply H7.
  - done.
  - intros k' w. rewrite !lookup_insert_eq. by intros [= <-] [= <-].
Qed.

Lemma put_put v d w u : put (put v d w) d u = put v d u.
Proof. unfold put. cbn. by rewrite insert_insert_eq. Qed.

Lemma runs_advance_leader c : runs (inv_at c) advance_leader (λ _, inv_at c).
Proof.
  apply sim_runs_inv. intros x0 v0 Hg0 Hd0 <-. destruct (good_leader _ _ Hg0) as (k0 & w0 & Hk0 & Hw0 & Hsh0 & Hs0 & Hp0).
  unfold advance_leader. eapply sim_seq; [by apply runs_set_playing|].
  set (x := set_deck _ _ x0). set (v := put _ _ _).
  assert (sim_good x v) as Hg.
  { destruct Hsh0. apply good_set_leader_deck; [done|by apply with_playing_sound|by split|exact Hp0]. }
  assert (drained_known x) as Hd by (unfold drained_known in *; cbn; rewrite dom_insert; set_solver).
  change (sim_clock x0) with (sim_clock x). change (put v0 _ _) with v.
  assert (∀ d k, sim_decks x !! d = Some k → sd_playing k = false) as Hstop.
  { intros d k Hk. destruct (sd_playing k) eqn:E; [|done]. assert (d = sim_leader_deck_id x0) as -> by (by eapply (so_playing _ (sg_sound _ _ Hg))).
    cbn in Hk. rewrite lookup_insert_eq in Hk. by injection Hk as <-. }
  clearbody x v. clear x0 v0 k0 w0 Hg0 Hd0 Hk0 Hw0 Hsh0 Hs0 Hp0.
  apply (sim_read _ _ _ _ (next_deck_id x)); [by intros p <-|].
  destruct (next_deck_id x) as [d|] eqn:En; cbn [ok_or].
  2:{ apply runs_enter; [done|done|]. intros p [Hp _]. right. split; [right; by left|done]. }
  apply sim_ok. destruct (next_deck_Some _ _ En) as [[k Hk] Hne].
  eapply sim_seq. { apply (sim_modify _ x (set_sim_leader_deck_id d x)); [done|]. by intros p <-. }
  eapply sim_seq. { apply (sim_modify _ _ (set_sim_beat_remainder 0 (set_sim_leader_deck_id d x))); [done|]. intros p Hp. by rewrite <- (f_equal (set_sim_beat_remainder 0) Hp). }
  set (y := set_sim_beat_remainder 0 (set_sim_leader_deck_id d x)).
  apply (sim_read _ _ _ _ (sim_clock y)); [by intros p <-|]. apply (sim_read_leader _ _ _ k); [done|].
  apply (sim_read _ _ _ _ (sim_paused y)); [by intros p <-|].
  destruct (sim_good_lookup _ _ _ _ Hg Hk) as (w & Hw & Hsh & Hs).
  set (playing := if sim_paused y then sd_playing k else true).
  set (w' := mkDeckView (dv_load w) (dv_metadata w) (dv_beat w) (dv_phrase w) playing).
  assert (sim_deck_shown (with_playing playing k) w') as Hsh' by (destruct Hsh; by split).
  pose proof (with_playing_sound k playing Hs) as Hs'.
  apply (sim_seq _ (state_at source t0 drained (sim_clock y) (set_deck d (with_playing playing k) y) (put v d w'))).
  { unfold playing. destruct (sim_paused y); cbn [negb].
    - apply post_ret. intros p Hp. unfold w'. destruct Hsh as [_ _ _ Hpl].
      rewrite put_self by (rewrite Hw; unfold playing; rewrite <- Hpl; by destruct w). rewrite set_deck_id; [done|]. cbn. rewrite Hk. by destruct k.
    - by apply (runs_set_playing _ y v k w). }
  set (z := set_deck d (with_playing playing k) y).
  apply (runs_announce _ _ _ d (with_playing playing k) w'); [apply lookup_insert_eq|done|done|].
  apply (runs_phrase _ _ _ d (with_playing playing k)); [done|done|].
  intros p u Hu Hpu Hp. change (lead d (put v d w')) with (put (lead d v) d w') in Hp. rewrite put_put in Hp.
  change (sim_clock x) with (sim_clock z). eapply inv_enter; [exact Hp| |unfold drained_known in *; cbn; rewrite dom_insert; set_solver].
  by apply good_new_leader.
Qed.
(** *** Loading a track *)

Definition sim_fresh_deck (load : TrackLoadId) (m : TrackMetadata) : SimulatedDeck := mkSimulatedDeck load m 0 0 false.

Lemma fresh_sound load m : track_typed m → deck_sound (sim_fresh_deck load m).
Proof. intros Hm. pose proof Hm as (Hw & [? _] & _). split; [done|cbn; lia|]. cbn. symmetry. by apply local_phrase_zero. Qed.

Lemma fresh_shown load m : sim_deck_shown (sim_fresh_deck load m) (mkDeckView load m 0 None false).
Proof. by split. Qed.

Lemma sim_runs_load c d m : track_typed m → runs (inv_at c) (sim_load_track d m) (λ _, inv_at c).
Proof.
  intros Hm. unfold sim_load_track. eapply sim_seq; [apply sim_runs_update|]. apply sim_runs_inv. intros x v Hg Hd <-.
  apply (sim_read _ _ _ _ (bool_decide (is_Some (sim_decks x !! d)))); [by intros p <-|].
  case_bool_decide as Hin; cbn [negb].
  2:{ apply runs_enter; [done|done|]. apply fail_benign. do 3 right. by exists d. }
  apply (sim_read _ _ _ _ (last_load_id x)); [by intros p <-|].
  destruct (checked_add_u64 (last_load_id x) 1) as [load|]; cbn [ok_or].
  2:{ apply runs_enter; [done|done|]. intros p [Hp _]. right. split; [do 2 right; by left|done]. }
  apply sim_ok. fold (sim_fresh_deck load m). pose proof (fresh_sound load m Hm) as Hs. pose proof (fresh_shown load m) as Hsh.
  eapply sim_seq. { apply (sim_modify _ x (set_deck d (sim_fresh_deck load m) x)); [done|]. intros p Hp. by rewrite <- (f_equal (set_deck d (sim_fresh_deck load m)) Hp). }
  apply (sim_read _ _ _ _ (d =? sim_leader_deck_id x)); [intros p Hp; f_equal; exact (f_equal sim_leader_deck_id Hp)|].
  set (y := if d =? sim_leader_deck_id x then set_sim_beat_remainder 0 (set_deck d (sim_fresh_deck load m) x) else set_deck d (sim_fresh_deck load m) x).
  apply (sim_seq _ (state_at source t0 drained (sim_clock x) y v)).
  { unfold y. destruct (d =? _); [|by apply post_ret]. apply sim_modify; [done|]. intros p Hp. by rewrite <- (f_equal (set_sim_beat_remainder 0) Hp). }
  assert (∀ u, sim_deck_shown (sim_fresh_deck load m) u → (d = sim_leader_deck_id x → phrase_shown (sim_fresh_deck load m) u) →
    sim_good y (put v d u)) as Hgood.
  { intros u Hu Hp. pose proof (good_set_deck x v d _ u Hg Hin Hs Hu ltac:(done) Hp) as Hg'. unfold y.
    destruct (d =? _); [|done]. eapply good_same; [exact Hg'| |done|done]. destruct (sg_sound _ _ Hg'). by split. }
  assert (drained_known y) as Hdy.
  { unfold drained_known, y in *. destruct (d =? _); cbn; rewrite dom_insert; set_solver. }
  assert (sim_clock y = sim_clock x) as Ec by (unfold y; by destruct (d =? _)).
  apply (sim_read _ _ _ _ (sim_clock x)); [intros p Hp; rewrite <- Ec; exact (f_equal sim_clock Hp)|].
  eapply sim_seq; [apply sim_rule_emit, Hm|].
  change (view_step v (TrackLoaded d m load)) with (put v d (mkDeckView load m 0 None false)).
  eapply (sim_seq _ (inv_at (sim_clock x))); [|by apply post_ret].
  destruct (Z.eqb_spec d (sim_leader_deck_id x)) as [E|Hne].
  - eapply sim_seq. { apply (sim_rule_deck _ _ v d (mkDeckView load m 0 None false)); [done|]. cbn. unfold in_u32, U32_MAX. lia. }
    cbn [deck_step dv_beat dv_load dv_metadata dv_phrase dv_playing]. rewrite Z.ltb_irrefl.
    apply (runs_phrase _ _ _ d (sim_fresh_deck load m)); [done|done|].
    intros p u Hu Hpu Hp. rewrite <- Ec in Hp |- *. eapply inv_enter; [exact Hp|by apply Hgood|done].
  - apply post_ret. intros p Hp. rewrite <- Ec in Hp |- *. eapply inv_enter; [exact Hp|by apply Hgood|done].
Qed.
(** *** The start of a session *)

(** Every deck at its start, the leader playing. *)
Record at_start x : Prop := {
  as_sound : sim_sound x;
  as_decks : ∀ d k, sim_decks x !! d = Some k → sd_beat k = 0 ∧ sd_playing k = bool_decide (d = sim_leader_deck_id x);
}.

Definition load_view k : DeckView := mkDeckView (sd_track_load_id k) (sd_metadata k) 0 None false.

Definition view_loads v (l : list (DeckId * SimulatedDeck)) : SourceView :=
  foldl (λ v dk, put v dk.1 (load_view dk.2)) v l.

Lemma runs_loads t x l : ∀ v,
  Forall (λ dk : DeckId * SimulatedDeck, metadata_wf (sd_metadata dk.2)) l →
  runs (state_at source t0 drained t x v) (emit_loads t l) (λ _, state_at source t0 drained t x (view_loads v l)).
Proof.
  induction l as [|[d k] l IH]; intros v Hl; [by apply post_ret|]. apply Forall_cons in Hl as [Hk Hl].
  eapply sim_seq; [by apply sim_rule_emit|]. by apply IH.
Qed.

Lemma view_loads_spec l : ∀ v,
  NoDup l.*1 → sv_leader (view_loads v l) = sv_leader v ∧
  (∀ d k, (d, k) ∈ l → sv_decks (view_loads v l) !! d = Some (load_view k)) ∧
  (∀ d, d ∉ l.*1 → sv_decks (view_loads v l) !! d = sv_decks v !! d).
Proof.
  induction l as [|[d k] l IH]; intros v Hn; [split_and!; [done| |done]; by intros ? ? ?%not_elem_of_nil|].
  apply NoDup_cons in Hn as [Hd Hn]. cbn in Hd. destruct (IH (put v d (load_view k)) Hn) as (H1 & H2 & H3).
  split_and!; [exact H1|..].
  - intros d' k' [[= -> ->]|Hin]%elem_of_cons; [|by apply H2]. etrans; [by apply H3|]. apply lookup_insert_eq.
  - intros d' Hd'. cbn in Hd'. apply not_elem_of_cons in Hd' as [? ?]. etrans; [by apply H3|]. by apply lookup_insert_ne.
Qed.

(** The decks the runtime shows when all were announced. *)
Lemma loads_shown x v d :
  dom (sv_decks v) ⊆ dom (sim_decks x) →
  sv_decks (view_loads v (sort_by_key fst (map_to_list (sim_decks x)))) !! d = load_view <$> sim_decks x !! d.
Proof.
  intros Hv. set (l := sort_by_key fst _). assert (l ≡ₚ map_to_list (sim_decks x)) as Hl by apply sort_by_key_perm.
  assert (NoDup l.*1) as Hn by (rewrite Hl; apply NoDup_fst_map_to_list).
  destruct (view_loads_spec l v Hn) as (_ & H2 & H3). destruct (sim_decks x !! d) as [k|] eqn:Hk.
  - apply H2. rewrite Hl. by apply elem_of_map_to_list.
  - rewrite H3; [apply not_elem_of_dom; intros Hd; apply Hv, elem_of_dom in Hd as [? Hd]; congruence|].
    intros Hin. apply list_elem_of_fmap in Hin as ([d' k] & -> & Hin). rewrite Hl in Hin. apply elem_of_map_to_list in Hin. cbn in Hk. congruence.
Qed.

Lemma runs_initial x v :
  at_start x → dom (sv_decks v) ⊆ dom (sim_decks x) → drained_known x →
  runs (holds x v) queue_initial_events (λ _, inv_at (sim_clock x)).
Proof.
  intros [Hso Hst] Hv Hd. destruct (so_leader _ Hso) as [k Hk]. destruct (Hst _ _ Hk) as [Hb0 Hplay].
  pose proof (so_decks _ Hso _ _ Hk) as Hs. cbn in Hs. unfold queue_initial_events.
  apply (sim_read _ _ _ _ (sim_clock x)); [by intros p <-|]. eapply sim_seq; [by apply sim_rule_emit|]. cbn [view_step].
  apply (sim_read _ _ _ _ (sort_by_key fst (map_to_list (sim_decks x)))); [by intros p <-|].
  set (l := sort_by_key fst (map_to_list (sim_decks x))).
  eapply sim_seq.
  { apply runs_loads. apply Forall_forall. intros [d k'] Hin. unfold l in Hin. rewrite sort_by_key_perm in Hin.
    apply elem_of_map_to_list in Hin. apply (so_decks _ Hso _ _ Hin). }
  set (u := view_loads v l). assert (∀ d, sv_decks u !! d = load_view <$> sim_decks x !! d) as Hu by (intros d; by apply loads_shown).
  apply (sim_read_leader _ _ _ k); [done|]. set (d := sim_leader_deck_id x) in *.
  assert (sim_deck_shown (with_playing false k) (load_view k)) as Hsh by (by split).
  pose proof (with_playing_sound k false Hs) as Hs'.
  apply (runs_announce _ _ _ d (with_playing false k) (load_view k)); [by rewrite Hu, Hk|done|done|].
  set (J := λ p, ∃ w, sim_deck_shown (with_playing false k) w ∧ phrase_shown (with_playing false k) w ∧ holds x (put (lead d u) d w) p).
  apply (sim_seq _ J).
  { apply (runs_phrase _ _ _ d (with_playing false k)); [done|done|]. intros p w H1 H2 Hp. by exists w. }
  intros p (w & H1 & H2 & Hp). revert p Hp. change (runs (holds x (put (lead d u) d w))
    (sim_emit (sim_clock x) (PlaybackStateChanged d (sd_track_load_id k) true)) (λ _, inv_at (sim_clock x))).
  assert (dv_load w = sd_track_load_id k) as Hload by apply H1.
  eapply triple_mono; [done| |apply (sim_rule_deck _ _ (lead d u) d w); [by rewrite Hload|done]].
  intros [a|e] p; cbn [post deck_step]; [|done]. intros Hp. eapply inv_enter; [exact Hp| |done].
  destruct H1 as [_ Hm Hbeat _]. split; [done|..]; cbn.
  - intros d'. destruct (decide (d = d')) as [<-|Hne].
    + rewrite lookup_insert_eq, Hk. split; cbn; [done|done|done|]. rewrite Hplay. by rewrite bool_decide_true.
    + rewrite lookup_insert_ne, Hu by done. destruct (sim_decks x !! d') as [k'|] eqn:Hk'; [|done]. destruct (Hst _ _ Hk') as [E1 E2].
      split; cbn; [done|done|done|]. rewrite E2. by rewrite bool_decide_false.
  - done.
  - intros k' w'. fold d. rewrite Hk, lookup_insert_eq. intros [= <-] [= <-]. exact H2.
Qed.
(** Forgetting what was not drained. *)
Lemma sim_runs_forget t x v :
  runs (state_at source t0 drained t x v) (method_modify (set_sim_pending_events []))
    (λ _, state_at source t0 drained t x drained_view).
Proof.
  intros p [[H1 H2 H3 H4 H5 H6] Hx Hv]. unfold all_sent in *. cbn in *. rewrite observations_app in H4, H5, H6.
  apply Forall_app in H5 as [H5 _], H6 as [H6 _].
  assert (∀ os1 os2 l t', ordered_stream source l t' (os1 ++ os2) → ordered_stream source l t' os1) as Hpre.
  { induction os1 as [|o os1 IH]; intros os2 l t'; [done|]. cbn. intros (? & ? & ? & ?). split_and!; try done. by eapply IH. }
  split; [split|..]; unfold all_shown, all_sent; cbn; rewrite ?app_nil_r; try done. by eapply Hpre.
Qed.

Definition reset_core x : SimulatorDeckSourceProvider :=
  mkSimulator (sim_clock x) (sim_source_id x) (sim_initial_leader_deck_id x) (sim_initial_leader_deck_id x)
    (alter started (sim_initial_leader_deck_id x) (rewound <$> sim_decks x)) (sim_sequence x) (sim_clock x) 0 SpeedOne false
    (sim_pending_events x).

Lemma rewound_sound k : deck_sound k → deck_sound (rewound k).
Proof. intros [Ht _ _]. exact (fresh_sound (sd_track_load_id k) _ Ht). Qed.

Lemma started_decks leader (decks : gmap Z SimulatedDeck) d k :
  alter started leader (rewound <$> decks) !! d = Some k →
  ∃ k', decks !! d = Some k' ∧ k = if bool_decide (d = leader) then started (rewound k') else rewound k'.
Proof.
  destruct (decide (leader = d)) as [<-|Hne]; [rewrite lookup_alter_eq|rewrite lookup_alter_ne by done];
    rewrite lookup_fmap; destruct (decks !! _) as [k'|]; cbn; intros [= <-]; exists k'; (split; [done|]).
  - by rewrite bool_decide_true.
  - by rewrite bool_decide_false.
Qed.

Lemma reset_at_start x : sim_sound x → at_start (reset_core x).
Proof.
  intros [H1 H2 H3 H4 H5 H5' H6].
  assert (is_Some (alter started (sim_initial_leader_deck_id x) (rewound <$> sim_decks x) !! sim_initial_leader_deck_id x)) as Hl.
  { rewrite lookup_alter_eq, lookup_fmap. destruct H3 as [k ->]. by eexists. }
  split; [split; cbn; try done|].
  - intros d k (k' & Hk' & ->)%started_decks. pose proof (rewound_sound _ (H1 _ _ Hk')) as Hs. case_bool_decide; [|done].
    destruct Hs. by split.
  - intros d k (k' & _ & ->)%started_decks. by case_bool_decide.
  - lia.
  - intros d k (k' & _ & ->)%started_decks. cbn. by case_bool_decide.
Qed.

Lemma runs_reset c : runs (inv_at c) sim_reset (λ _, inv_at c).
Proof.
  apply sim_runs_inv. intros x v Hg Hd <-. unfold sim_reset. eapply sim_seq; [apply sim_runs_forget|].
  do 6 (eapply sim_seq; [by apply sim_map|]; cbv beta).
  change (runs (holds (reset_core x) drained_view) queue_initial_events (λ _, inv_at (sim_clock (reset_core x)))).
  assert (dom (sim_decks (reset_core x)) = dom (sim_decks x)) as Edom by (cbn; by rewrite dom_alter_L, dom_fmap_L).
  apply runs_initial; [by apply reset_at_start, Hg|unfold drained_known in Hd; by rewrite Edom|unfold drained_known in *; by rewrite Edom].
Qed.

Lemma runs_resume_clock c : runs (inv_at c) (method_modify (λ p, set_sim_last_clock (sim_clock p) p)) (λ _, inv_at c).
Proof. apply runs_quiet; [done|done|]. intros x [] <-. split_and!; try done. split; cbn; try done. lia. Qed.

Lemma runs_control c control : runs (inv_at c) (apply_control control) (λ _, inv_at c).
Proof.
  destruct control; cbn [apply_control].
  - eapply sim_seq; [apply sim_runs_update|apply runs_speed].
  - eapply sim_seq; [apply sim_runs_update|]. eapply sim_seq; [apply runs_paused|apply runs_leader_playing].
  - eapply sim_seq; [apply runs_resume_clock|]. eapply sim_seq; [apply runs_paused|apply runs_leader_playing].
  - apply runs_reset.
  - eapply sim_seq; [apply sim_runs_update|apply runs_advance_leader].
Qed.
End Shown.

(** *** The start *)

(** The integers of a fixture have the widths of their fields. *)
Definition deck_fixture_typed (deck : DeckFixture) : Prop :=
  in_u32 (tf_duration_beats (xf_track deck)) ∧ Forall (λ ph, in_u16 (pf_index ph)) (tf_phrases (xf_track deck)).

Definition fixture_typed (f : DemoFixture) : Prop := Forall deck_fixture_typed (df_fixture_decks f).

Lemma collect_Forall2 {A B E} (f : A → result B E) (P : A → Prop) (Q : B → Prop) (l : list A) (bs : list B) :
  (∀ a b, P a → f a = Ok b → Q b) → Forall P l → collect f l = Ok bs → Forall Q bs.
Proof.
  intros Hf Hl Hk. apply Forall_forall. intros b Hb. apply list_elem_of_lookup in Hb as [i Hi].
  destruct (collect_lookup _ _ _ _ _ Hk Hi) as (a & Ha & Hab). rewrite Forall_forall in Hl.
  apply (Hf a b); [|done]. apply Hl. by apply list_elem_of_lookup_2 in Ha.
Qed.

Lemma parse_deck_typed deck parsed : deck_fixture_typed deck → parse_deck deck = Ok parsed → track_typed (pd_metadata parsed).
Proof.
  intros [Hd Hp] H. unfold parse_deck in H. unbind H.
  match goal with Hm : TrackMetadata_try_new_with_color _ _ _ _ _ _ _ _ = Ok _ |- _ => apply TrackMetadata_try_new_with_color_Ok in Hm as (Hf & Hne & Hi & Ht & ->) end.
  injection H as <-. cbn [pd_metadata]. split; [|split; [done|]]; cbn.
  - split; [done|]. by right.
  - match goal with Hc : collect _ _ = Ok _ |- _ => eapply collect_Forall2; [|exact Hp|exact Hc] end.
    intros a b Ha Hb. unfold parse_phrase in Hb. unbind Hb. by injection Hb as <-.
Qed.

Lemma fixture_decks_spec decks d k :
  fixture_decks decks !! d = Some k →
  ∃ deck, deck ∈ decks ∧ pd_deck_id deck = d ∧ k = sim_fresh_deck (pd_track_load_id deck) (pd_metadata deck).
Proof.
  unfold fixture_decks. assert (∀ m : gmap Z SimulatedDeck,
    foldl (λ m deck, <[pd_deck_id deck := mkSimulatedDeck (pd_track_load_id deck) (pd_metadata deck) 0 0 false]> m) m decks !! d = Some k →
    m !! d = Some k ∨ ∃ deck, deck ∈ decks ∧ pd_deck_id deck = d ∧ k = sim_fresh_deck (pd_track_load_id deck) (pd_metadata deck)) as H.
  { induction decks as [|deck decks IH]; intros m Hm; [by left|]. apply IH in Hm as [Hm|(x & ? & ?)].
    - apply lookup_insert_Some in Hm as [[E <-]|[_ Hm]]; [|by left]. right. exists deck. split_and!; [by left|done|done].
    - right. exists x. split; [by right|done]. }
  intros Hk. apply H in Hk as [?|?]; done.
Qed.

Lemma fixture_decks_dom decks deck : deck ∈ decks → is_Some (fixture_decks decks !! pd_deck_id deck).
Proof.
  intros Hin. unfold fixture_decks. assert (∀ (m : gmap Z SimulatedDeck), deck ∈ decks ∨ is_Some (m !! pd_deck_id deck) →
    is_Some (foldl (λ m deck, <[pd_deck_id deck := mkSimulatedDeck (pd_track_load_id deck) (pd_metadata deck) 0 0 false]> m) m decks
      !! pd_deck_id deck)) as H; [|apply H; by left].
  clear Hin. induction decks as [|x decks IH]; intros m [Hin|Hm]; try done; [by apply not_elem_of_nil in Hin|..]; cbn [foldl]; apply IH.
  - apply elem_of_cons in Hin as [<-|Hin]; [right; rewrite lookup_insert_eq; by eexists|by left].
  - right. rewrite lookup_insert_is_Some'. by right.
Qed.

Section Fixtures.
Variable from_str : str → result DemoFixture str.
Hypothesis from_str_typed : ∀ input f, from_str input = Ok f → fixture_typed f.

Lemma parse_fixture_Ok input f :
  parse_fixture from_str input = Ok f →
  Forall (λ deck, track_typed (pd_metadata deck)) (px_decks f) ∧
  ∃ deck, deck ∈ px_decks f ∧ pd_deck_id deck = px_initial_leader_deck_id f.
Proof.
  unfold parse_fixture. intros H. unbind H. injection H as <-. cbn [px_decks px_initial_leader_deck_id].
  match goal with Hj : from_str _ = Ok _ |- _ => apply from_str_typed in Hj end.
  split.
  - match goal with Hc : collect _ _ = Ok _ |- _ => eapply collect_Forall2; [|eassumption|exact Hc] end. apply parse_deck_typed.
  - match goal with Hr : negb (existsb _ _) = false |- _ => apply negb_false_iff, existsb_exists in Hr as (deck & Hin & ?) end.
    exists deck. split; [by apply list_elem_of_In|by apply Z.eqb_eq].
Qed.

Definition unstarted (f : ParsedFixture) (clock : MonotonicTime) : SimulatorDeckSourceProvider :=
  mkSimulator clock (px_source_id f) (px_initial_leader_deck_id f) (px_initial_leader_deck_id f) (fixture_decks (px_decks f))
    0 clock 0 SpeedOne false [].

Lemma unstarted_sound input f clock : parse_fixture from_str input = Ok f → in_u64 clock → sim_sound (unstarted f clock).
Proof.
  intros Hf Hc. destruct (parse_fixture_Ok _ _ Hf) as [Ht (deck & Hin & Hd)]. rewrite Forall_forall in Ht.
  assert (is_Some (fixture_decks (px_decks f) !! px_initial_leader_deck_id f)) as Hl by (rewrite <- Hd; by apply fixture_decks_dom).
  split; cbn; try done.
  - intros d k (x & Hx & _ & ->)%fixture_decks_spec. apply fresh_sound. by apply Ht.
  - by intros d k (x & _ & _ & ->)%fixture_decks_spec.
  - destruct Hc. lia.
  - apply Hc.
Qed.

Lemma sim_start_inv input clock p :
  in_u64 clock → from_fixture_json from_str input clock = Ok p → ∃ source, inv_at source [] clock clock p.
Proof.
  intros Hc H. unfold from_fixture_json in H. apply result_bind_Ok in H as (f & Hf & H).
  pose proof (reset_at_start _ (unstarted_sound _ _ _ Hf Hc)) as Hst.
  set (x := reset_core (unstarted f clock)) in *.
  assert (mkSimulator clock (px_source_id f) (px_initial_leader_deck_id f) (px_initial_leader_deck_id f)
    (alter started (px_initial_leader_deck_id f) (fixture_decks (px_decks f))) 0 clock 0 SpeedOne false [] = x) as E.
  { unfold x, reset_core, unstarted. cbn. do 2 f_equal. apply map_eq. intros d. rewrite lookup_fmap.
    destruct (fixture_decks _ !! d) as [k|] eqn:Hk; [|done]. by apply fixture_decks_spec in Hk as (? & _ & _ & ->). }
  rewrite E in H. assert (at_start (sim_core x)) as Hst' by (destruct Hst as [[] ?]; by split).
  assert (state_at (px_source_id f) clock [] clock (sim_core x) empty_view x) as H0 by (split; [split; cbn; try done; lia|done|done]).
  pose proof (runs_initial (px_source_id f) [] clock (sim_core x) empty_view Hst' ltac:(done) ltac:(done) x H0) as Hr.
  change (sim_clock (sim_core x)) with clock in Hr. destruct (queue_initial_events x) as [q [[]|e]]; cbn in H, Hr; [|done].
  injection H as <-. by exists (px_source_id f).
Qed.
End Fixtures.

(** *** Runs *)

Inductive SimOp : Type :=
| SClock (t : MonotonicTime)
| SAdvance (ticks : Z)
| SUpdate
| SControl (control : SimulationControl)
| SLoad (deck_id : DeckId) (metadata : TrackMetadata)
| SDrain.

Definition clock_after (op : SimOp) (clock : MonotonicTime) : MonotonicTime :=
  match op with
  | SClock t => t
  | SAdvance ticks => default clock (ManualClock_advance ticks clock)
  | _ => clock
  end.

Definition sim_op (op : SimOp) : sim unit :=
  match op with
  | SClock _ | SAdvance _ => method_modify (λ p, set_sim_clock (clock_after op (sim_clock p)) p)
  | SUpdate => update_to_clock
  | SControl control => apply_control control
  | SLoad d m => do! sim_load_track d m then method_ret tt
  | SDrain => method_ret tt
  end.

(** The provider after a run, what was drained, and the errors. *)
Record SimRun := mkSimRun {
  sr_provider : SimulatorDeckSourceProvider;
  sr_drained : list DomainEvent;
  sr_errors : list SimulatorError;
}.

Definition sim_step (r : SimRun) (op : SimOp) : SimRun :=
  let '(p, outcome) := sim_op op (sr_provider r) in
  let '(p, es) := match op with SDrain => ((drain_events p).1, sim_pending_events p) | _ => (p, []) end in
  mkSimRun p (sr_drained r ++ es) (sr_errors r ++ match outcome with Err e => [e] | Ok _ => [] end).

Definition sim_run (p : SimulatorDeckSourceProvider) (ops : list SimOp) : SimRun := foldl sim_step (mkSimRun p [] []) ops.

(** Tracks are typed, and the clock does not go back. *)
Fixpoint sim_ops_ok (clock : MonotonicTime) (ops : list SimOp) : Prop :=
  match ops with
  | [] => True
  | op :: ops =>
      match op with
      | SClock t => clock ≤ t ≤ U64_MAX
      | SAdvance ticks => 0 ≤ ticks
      | SLoad _ m => track_typed m
      | _ => True
      end ∧ sim_ops_ok (clock_after op clock) ops
  end.

Definition sim_run_inv (source t0 clock : Z) (r : SimRun) : Prop :=
  SimSequenceOverflow ∈ sr_errors r ∨
  Forall benign (sr_errors r) ∧ inv_at source (sr_drained r) t0 clock (sr_provider r).

Lemma runs_clock source drained t0 c t :
  c ≤ t ≤ U64_MAX → triple (inv_at source drained t0 c) (method_modify (set_sim_clock t)) (post (λ _, inv_at source drained t0 t) (sim_failed source drained t0)).
Proof.
  intros Ht p [(v & Hp & Hg & Hd) Hc]. cbn. split; [|done]. exists v. change (sim_clock (sim_core p)) with (sim_clock p) in Hp.
  split_and!; [|destruct Hg as [[] ? ? ?]; split; cbn in *; try done; split; cbn; try done; lia|done].
  eapply (state_later _ _ _ (sim_clock p)); [|cbn; lia].
  change (sim_core (set_sim_clock t p)) with (remainder (set_sim_clock t p)). eapply state_change; [exact Hp|done].
Qed.

(** No method sets the clock. *)
Definition keeps_clock {A} (m : sim A) : Prop := ∀ p, sim_clock (m p).1 = sim_clock p.

Lemma sim_keeps_bind {A B} (m : sim A) (f : A → sim B) :
  keeps_clock m → (∀ a, keeps_clock (f a)) → keeps_clock (method_bind m f).
Proof.
  intros Hm Hf p. specialize (Hm p). unfold method_bind. destruct (m p) as [q [a|e]]; cbn in *; [|done]. by rewrite Hf.
Qed.

Lemma keeps_modify f : (∀ p, sim_clock (f p) = sim_clock p) → keeps_clock (method_modify f).
Proof. intros Hf p. apply Hf. Qed.

Lemma sim_keeps_emit t o : keeps_clock (sim_emit t o).
Proof. intros p. unfold sim_emit. by destruct (checked_add_u64 _ _). Qed.

(** Through the structure of a method. *)
Create HintDb sim_clock.
#[local] Hint Resolve sim_keeps_emit : sim_clock.

Ltac keep_clock :=
  repeat match goal with
  | |- keeps_clock (method_bind _ _) => apply sim_keeps_bind; [|intros ?]
  | |- keeps_clock (method_modify _) => apply keeps_modify; done
  | |- keeps_clock (match ?x with _ => _ end) => destruct x
  | |- keeps_clock _ => first [done | solve [auto with sim_clock]]
  end.

Lemma keeps_playing playing : keeps_clock (set_leader_playing playing).
Proof. unfold set_leader_playing. keep_clock. Qed.
#[local] Hint Resolve keeps_playing : sim_clock.

Lemma keeps_one_beat t : keeps_clock (advance_one_beat t).
Proof. unfold advance_one_beat. keep_clock. Qed.
#[local] Hint Resolve keeps_one_beat : sim_clock.

Lemma keeps_beats t n : keeps_clock (advance_beats n t).
Proof. induction n as [|n IH]; cbn [advance_beats]; keep_clock. Qed.
#[local] Hint Resolve keeps_beats : sim_clock.

Lemma keeps_update : keeps_clock update_to_clock.
Proof. unfold update_to_clock. keep_clock. Qed.
#[local] Hint Resolve keeps_update : sim_clock.

Lemma keeps_loads t l : keeps_clock (emit_loads t l).
Proof. induction l as [|[d k] l IH]; cbn [emit_loads]; keep_clock. Qed.
#[local] Hint Resolve keeps_loads : sim_clock.

Lemma keeps_initial : keeps_clock queue_initial_events.
Proof. unfold queue_initial_events. keep_clock. Qed.
#[local] Hint Resolve keeps_initial : sim_clock.

Lemma keeps_advance_leader : keeps_clock advance_leader.
Proof. unfold advance_leader. keep_clock. Qed.
#[local] Hint Resolve keeps_advance_leader : sim_clock.

Lemma keeps_control control : keeps_clock (apply_control control).
Proof. destruct control; cbn [apply_control]; unfold sim_reset; keep_clock. Qed.

Lemma keeps_load d m : keeps_clock (sim_load_track d m).
Proof. unfold sim_load_track. keep_clock. Qed.

(** *** Steps *)

Lemma sim_op_clock op p : sim_clock (sim_op op p).1 = clock_after op (sim_clock p).
Proof.
  destruct op; cbn [sim_op clock_after]; try done; [apply keeps_update|apply keeps_control|].
  apply (sim_keeps_bind _ _ (keeps_load deck_id metadata)). by intros ?.
Qed.

Lemma clock_after_range op ops clock : sim_ops_ok clock (op :: ops) → 0 ≤ clock ≤ U64_MAX → clock ≤ clock_after op clock ≤ U64_MAX.
Proof.
  cbn. intros [Ho _] Hc. destruct op; cbn [clock_after]; try lia.
  unfold ManualClock_advance. destruct (checked_add_u64 clock ticks) as [c|] eqn:E; cbn; [|lia].
  apply checked_add_u64_Some in E as [-> ?]. lia.
Qed.

Section Steps.
Variables (source t0 : Z).

Lemma sim_op_inv drained op ops clock :
  sim_ops_ok clock (op :: ops) → 0 ≤ clock ≤ U64_MAX →
  triple (inv_at source drained t0 clock) (sim_op op)
    (post (λ _, inv_at source drained t0 (clock_after op clock)) (sim_failed source drained t0)).
Proof.
  intros Hop Hc. pose proof (clock_after_range _ _ _ Hop Hc) as Hr. destruct Hop as [Ho _].
  assert (∀ t, clock ≤ t ≤ U64_MAX → triple (inv_at source drained t0 clock) (method_modify (λ p, set_sim_clock t p))
    (post (λ _, inv_at source drained t0 t) (sim_failed source drained t0))) as Hset by (intros t Ht; by apply runs_clock).
  destruct op; cbn [sim_op clock_after] in *.
  - by apply Hset.
  - intros p Hp. assert (sim_clock p = clock) as E by apply Hp. subst clock. exact (Hset _ Hr p Hp).
  - apply sim_runs_update.
  - apply runs_control.
  - eapply sim_seq; [by apply sim_runs_load|by apply post_ret].
  - by apply post_ret.
Qed.

Lemma drained_dom drained p :
  sim_inv source drained t0 p → drained_known (drained ++ sim_pending_events p) p.
Proof.
  intros (v & Hp & Hg & _) d Hd. pose proof (sa_view _ _ _ _ _ _ _ Hp) as Hv.
  unfold drained_view in Hd. change (view_run _ _) with (all_shown drained p) in Hd. rewrite Hv in Hd.
  pose proof (sg_decks _ _ Hg d) as H. apply elem_of_dom in Hd as [w Hw]. rewrite Hw in H.
  apply elem_of_dom. change (sim_decks (sim_core p)) with (sim_decks p) in H. by destruct (sim_decks p !! d).
Qed.

Lemma sim_drain_inv drained clock p :
  inv_at source drained t0 clock p →
  inv_at source (drained ++ sim_pending_events p) t0 clock (drain_events p).1.
Proof.
  intros [Hi Hc]. split; [|exact Hc]. pose proof (drained_dom _ _ Hi) as Hd. destruct Hi as (v & Hp & Hg & _).
  exists v. split_and!; [|exact Hg|exact Hd].
  exact (state_drain _ _ _ _ _ _ p (drain_events p).1 Hp eq_refl eq_refl).
Qed.

Lemma sim_step_inv op ops clock r :
  sim_ops_ok clock (op :: ops) → 0 ≤ clock ≤ U64_MAX →
  sim_run_inv source t0 clock r → sim_run_inv source t0 (clock_after op clock) (sim_step r op).
Proof.
  intros Hop Hc Hr. pose proof (sim_op_clock op (sr_provider r)) as Hk. unfold sim_step.
  destruct (sim_op op (sr_provider r)) as [p outcome] eqn:E. cbn [fst] in Hk. destruct Hr as [Hover|[Hb Hi]].
  { left. destruct op; cbn; apply elem_of_app; by left. }
  pose proof (sim_op_inv _ _ _ _ Hop Hc _ Hi) as H. rewrite E in H. rewrite (proj2 Hi) in Hk.
  destruct outcome as [[]|e]; cbn [post] in H.
  - right. destruct op; cbn [sr_errors sr_drained sr_provider]; rewrite ?app_nil_r; (split; [done|]); try exact H.
    by apply sim_drain_inv.
  - destruct H as [->|[He Hp]].
    { left. destruct op; cbn; apply elem_of_app; right; by left. }
    right. destruct op; cbn [sr_errors sr_drained sr_provider]; rewrite ?app_nil_r; split; try (by split);
      try (apply Forall_app; split; [done|by constructor]).
Qed.

Lemma sim_run_keeps ops : ∀ clock r,
  sim_ops_ok clock ops → 0 ≤ clock ≤ U64_MAX → sim_run_inv source t0 clock r →
  ∃ clock', sim_run_inv source t0 clock' (foldl sim_step r ops).
Proof.
  induction ops as [|op ops IH]; intros clock r Ho Hc Hr; [by exists clock|].
  pose proof (clock_after_range _ _ _ Ho Hc). apply (IH (clock_after op clock)); [apply Ho|lia|].
  by eapply sim_step_inv.
Qed.
End Steps.

(** The runtime shows the decks of the simulator.  From any fixture that is accepted and
    for every sequence of controls, loads, readings of the clock, updates and drains, with a
    clock that does not go back, the only errors are the ones of a beat that overflows, of a
    deck or a next deck that is not there and of the numbers of the loads; unless the
    observations run out of numbers, the simulator goes on after each of them, and for every
    interleaving of what it published with commands, plans, output results and reports the
    runtime has exactly its decks, each with the same load, track, beat and playing state; it
    follows the same leader, and of an analysed track it shows the same phrase. *)
Theorem simulator_shown from_str input clock p0 ops es :
  (∀ text f, from_str text = Ok f → fixture_typed f) → in_u64 clock →
  from_fixture_json from_str input clock = Ok p0 → sim_ops_ok clock ops →
  let r := sim_run p0 ops in
  let p := sr_provider r in
  SimSequenceOverflow ∈ sr_errors r ∨
  Forall benign (sr_errors r) ∧
  (observations es = observations (sr_drained r ++ sim_pending_events p) →
   Forall (λ e, observation_of e = None → event_wf e) es → Z.of_nat (length es) ≤ U64_MAX →
   let s := (run_events RuntimeState_default es).1 in
   (∀ d, same_deck (sim_decks p !! d) (deck_view <$> rs_decks s !! d)) ∧
   rs_leader_deck s = Some (sim_leader_deck_id p) ∧
   ∃ k deck, sim_decks p !! sim_leader_deck_id p = Some k ∧ rs_decks s !! sim_leader_deck_id p = Some deck ∧
     phrase_shown k (deck_view deck)).
Proof.
  intros Hf Hc H0 Ho r p. destruct (sim_start_inv _ Hf _ _ _ Hc H0) as [source Hi].
  destruct (sim_run_keeps source clock ops clock (mkSimRun p0 [] []) Ho Hc (or_intror (conj (Forall_nil_2 _) Hi)))
    as [clock' [Hov|[Hb [(v & Hp & Hg & _) _]]]]; [by left|].
  right. split; [exact Hb|]. intros Hes Hwf Hn s.
  pose proof (state_shows _ _ _ _ _ _ _ es Hp Hes Hwf Hn) as Hv. fold s in Hv. subst v.
  change (foldl sim_step (mkSimRun p0 [] []) ops) with r in Hg. fold p in Hg. split_and!.
  - intros d. pose proof (sg_decks _ _ Hg d) as H. by rewrite lookup_view in H.
  - apply (sg_leader _ _ Hg).
  - destruct (good_leader _ _ Hg) as (k & w & Hk & Hw & _ & _ & Hph). rewrite lookup_view in Hw.
    change (sim_leader_deck_id (sim_core p)) with (sim_leader_deck_id p) in *.
    destruct (rs_decks s !! _) as [deck|]; [|done]. injection Hw as <-. by exists k, deck.
Qed.

(** *** A fixture of two decks *)

Definition demo_track_fixture (id : Z) : TrackFixture :=
  mkTrackFixture id (lit "Title") (lit "Artist") 120000 (mkKeyFixture (lit "a") (lit "minor")) 16711680 32
    [mkPhraseFixture 0 0 16 (lit "intro"); mkPhraseFixture 1 16 32 (lit "drop")].

Definition demo_fixture : DemoFixture :=
  mkDemoFixture 1 9 1 [mkDeckFixture 1 1001 (demo_track_fixture 7); mkDeckFixture 2 2001 (demo_track_fixture 8)].

(** A reader that knows the one text. *)
Definition fixture_from_str (input : str) : result DemoFixture str :=
  if bool_decide (input = lit "demo") then Ok demo_fixture else Err (lit "expected value").

Lemma demo_from_str_typed text f : fixture_from_str text = Ok f → fixture_typed f.
Proof.
  unfold fixture_from_str. case_bool_decide; [|done]. intros [= <-].
  repeat constructor; vm_compute; try discriminate; by intros ?.
Qed.

Definition demo_started : SimulatorDeckSourceProvider :=
  match from_fixture_json fixture_from_str (lit "demo") 0 with Ok p => p | Err _ => demo_simulator end.

Definition demo_sim_ops : list SimOp :=
  [SControl (SetSpeed SpeedFour); SAdvance 2250; SUpdate; SDrain; SLoad 3 demo_metadata; SControl SimPause; SClock 3000;
   SLoad 2 demo_metadata; SControl AdvanceLeader; SControl SimResume; SAdvance 500; SUpdate].

Lemma demo_sim_ops_ok : sim_ops_ok 0 demo_sim_ops.
Proof. cbn -[U64_MAX ManualClock_advance]. repeat split; try apply demo_metadata_typed; vm_compute; discriminate. Qed.

Definition sim_events (r : SimRun) : list DomainEvent := sr_drained r ++ sim_pending_events (sr_provider r).

(** The leader is moved on to the deck with the new track, which plays. *)
Lemma simulator_shown_witness :
  let r := sim_run demo_started demo_sim_ops in
  let s := (run_events RuntimeState_default (sim_events r)).1 in
  sr_errors r = [SimUnknownDeck 3] ∧ rs_leader_deck s = Some 2 ∧
  dv_beat <$> (deck_view <$> rs_decks s !! 2) = Some 4.
Proof.
  intros r s. assert (sr_errors r = [SimUnknownDeck 3]) as E by (vm_compute; reflexivity). split; [exact E|].
  pose proof (simulator_shown fixture_from_str (lit "demo") 0 demo_started demo_sim_ops (sim_events r) demo_from_str_typed) as H.
  cbv zeta in H. fold r in H. destruct H as [Ho|[_ H]].
  - vm_compute. split; discriminate.
  - vm_compute; reflexivity.
  - exact demo_sim_ops_ok.
  - rewrite E in Ho. apply list_elem_of_singleton in Ho. discriminate Ho.
  - destruct H as (H & Hl & _); [reflexivity| |vm_compute; discriminate|].
    + assert (Forall (λ e, is_Some (observation_of e)) (sim_events r)) as Hs
        by (apply (bool_decide_eq_true_1 _); vm_compute; reflexivity).
      eapply Forall_impl; [exact Hs|]. intros e [o Ho] Hn. congruence.
    + fold s in H, Hl. split; [rewrite Hl; vm_compute; reflexivity|]. specialize (H 2).
      destruct (sim_decks (sr_provider r) !! 2) as [k|] eqn:Hk; [|vm_compute in Hk; discriminate Hk].
      destruct (deck_view <$> rs_decks s !! 2) as [w|]; [|destruct H]. cbn. rewrite (ss_beat _ _ H).
      assert (sd_beat <$> sim_decks (sr_provider r) !! 2 = Some 4) as Hb by (vm_compute; reflexivity).
      rewrite Hk in Hb. exact Hb.
Defined.

(** A track loaded on the deck that leads while the simulation runs: the deck is reported as
    standing still, but the simulation is not paused, and the clock moves its beat. *)
Example loaded_leader_moves :
  let r := sim_run demo_started [SAdvance 1000; SLoad 1 demo_metadata; SAdvance 1000; SUpdate] in
  let s := (run_events RuntimeState_default (sim_events r)).1 in
  sr_errors r = [] ∧ rs_leader_deck s = Some 1 ∧
  (dv_playing <$> (deck_view <$> rs_decks s !! 1)) = Some false ∧
  (dv_beat <$> (deck_view <$> rs_decks s !! 1)) = Some 2.
Proof. repeat split; vm_compute; reflexivity. Qed.
